(* ===== verification/_CoqProject ===== *)
-Q . S2P
Prelude.v
RlpEncode.v
RlpRaw.v
RlpDecode.v
TrieEncoding.v
TrieSpec.v
Trie.v
TrieHash.v
TrieDecode.v
TrieProof.v
StackTrie.v
TrieDatabase.v
TrieFlush.v
TrieGc.v
TrieGcDisk.v
TrieGcProps.v
AccessList.v
StateDB.v
StateRevert.v
StateCommit.v
ChainConfig.v
Params.v
Opcodes.v
VmBase.v
VmMachine.v
Precompiles.v
VmSmoke.v
VmOps.v
VmTables.v
Evm.v
StateTransition.v
Transaction.v
Receipts.v
BlockHeader.v
BlockValidator.v
Ethash.v
Clique.v
Uint256Model.v
VmLogic.v
VmAnalysis.v
VmState.v
VmReadOnly.v
VmSupply.v
StateFinal.v
BlockProcess.v
VmSound.v
VmOpsSound.v
VmPrecompilesSound.v
VmCallsSound.v
VmCostSound.v
VmTablesSound.v
InterpSound.v
EvmSound.v
VmExample.v
EvmProps.v
TransitionProps.v
BlockProps.v
VerifyHeaders.v
EthashProps.v
RewardProps.v
CliqueProps.v
CliqueSnapshots.v
EngineExample.v
GoHeap.v
TxList.v
TxListProps.v
TxPriced.v
TxPricedProps.v
TxOrderProps.v
TxExample.v
