(* ===== verification/Prelude.v ===== *)
(** * Verification of go-420coin

    go-420coin is a fork of go-ethereum, a node of an Ethereum-like chain in
    which gas is called smoke.  This library models the part of the node that
    decides what a block means: how data are encoded and stored, how a
    transaction is executed and paid for, and which blocks are valid.  Paths
    below are relative to src/.

    ** The program and the files

    - Encoding (rlp/).  RlpEncode.v: the encoder of encode.go ([encbuf],
      [write], [EncodeToBytes], the reader of [EncodeToReader]).  RlpRaw.v:
      raw.go and iterator.go.  RlpDecode.v: the [Stream] of decode.go as a
      state machine and the decoders that [makeDecoder] selects for a type.
    - Merkle Patricia tries (trie/).  TrieEncoding.v: encoding.go.  TrieSpec.v:
      reference trees without hashes.  Trie.v: [tryGet], [insert], [delete] of
      trie.go over partly loaded nodes.  TrieHash.v: hasher.go.  TrieDecode.v:
      [decodeNode] and [New].  TrieProof.v: [Prove] and [VerifyProof].
      StackTrie.v: stacktrie.go and [DeriveSha].  TrieDatabase.v: database.go,
      the reference-counted cache of nodes, with TrieFlush.v (its linked
      list), TrieGc.v (the invariant of the counts), TrieGcDisk.v ([Cap] and
      [Commit]) and TrieGcProps.v (the theorems).
    - State (core/state/).  AccessList.v: access_list.go.  StateDB.v: state
      objects, journal and [StateDB] as explicit state passing.  StateRevert.v:
      snapshots and reverts.  StateCommit.v: [Finalise], [IntermediateRoot];
      StateFinal.v: their theorems.
    - Configuration (params/).  ChainConfig.v: config.go.  Params.v:
      protocol_params.go.
    - Virtual machine (core/vm/).  Opcodes.v, VmBase.v (stack, memory,
      analysis), VmMachine.v (contract, machine state, its monad),
      Precompiles.v (contracts.go), VmSmoke.v (costs), VmOps.v (instructions),
      VmTables.v (jump tables), Evm.v (interpreter loop, calls, creations).
      VmLogic.v, VmAnalysis.v, VmSound.v, VmOpsSound.v, VmCostSound.v,
      VmPrecompilesSound.v, VmCallsSound.v, VmTablesSound.v, InterpSound.v and
      EvmSound.v prove the machine sound against the interface [StateAccess];
      VmState.v, VmReadOnly.v and VmSupply.v discharge that interface with
      StateDB.v.  EvmProps.v has the resulting theorems.
    - Transactions and blocks (core/, core/types/).  Transaction.v: signers and
      senders.  StateTransition.v: state_transition.go, with TransitionProps.v.
      Receipts.v: receipts and bloom filters.  BlockHeader.v: headers.
      BlockValidator.v: block_validator.go.
      BlockProcess.v: state_processor.go, with BlockProps.v.
    - Consensus (consensus/).  Ethash.v: difficulty, headers, uncles and
      rewards of the proof-of-work engine, with EthashProps.v and
      RewardProps.v; VerifyHeaders.v: its concurrent verification of a batch.
      Clique.v: the proof-of-authority engine, with CliqueProps.v and
      CliqueSnapshots.v.
    - Pool (core/tx_list.go, parts of core/tx_pool.go and
      core/types/transaction.go).  GoHeap.v: Go's container/heap.  TxList.v:
      [txSortedMap] and [txList], with TxListProps.v.  TxPriced.v: [txLookup],
      [txPricedList] and [TransactionsByPriceAndNonce], with TxPricedProps.v
      and TxOrderProps.v.
    - Uint256Model.v, VmExample.v, EngineExample.v and TxExample.v: instances
      of all parameters, small worlds, and the theorems applied to them.

    A block is verified by an engine, its transactions are turned into
    messages by a signer, [ApplyMessage] runs a message on the EVM over the
    state database, the state database writes its objects into tries, whose
    nodes are RLP.  The same composition ties the files: BlockProcess.v calls
    StateTransition.v, which calls Evm.v, which calls the methods of StateDB.v
    through the class [StateAccess]; TrieHash.v calls RlpEncode.v and
    TrieDecode.v calls RlpRaw.v.

    ** How the code is represented

    A Go integer is a [Z] with its wrap-around written out ([u64], [i64],
    [u256]), a byte slice a list of integers, a [*big.Int] a [Z] (an
    [option Z] where it may be nil), a map a [gmap].  A function that returns
    an error is a [result]; one that may panic or loop is an [outcome].
    Methods take and return the state of their receiver.  What is not under
    src/ is a class with its documented laws: the 256-bit integers ([Uint256],
    [Uint256Laws]), hash functions and curves ([Crypto], [Signing]), the
    database behind the state ([Backend]), the order of ranging over Go maps
    ([MapRange], [RangeChildren], [RangeItems], [RangeTxs]), the proof-of-work hash ([Hashimoto]).
    The trie database takes what its hashes stand for from [NodeContents].

    ** What the theorems show

    - RLP: the decoder accepts exactly the encodings of values of the type, the
      encoder refines the recursive definition, the two are inverse, decoding
      ends.
    - Tries: any sequence of operations leaves a trie whose hash is the Merkle
      root of the map that it stands for; a stored trie can be opened again;
      proofs are complete and sound; a stack trie has the root of the full
      trie.
    - Trie database: whatever the order of operations, nothing that a
      referenced root leads to is lost, what no root leads to is freed, and
      what is committed is on disk.
    - State: [RevertToSnapshot] undoes everything since the snapshot.
    - EVM: every call and creation ends, pays for what it does, keeps the
      invariants of the machine, is undone when it fails; static calls change
      nothing; jumps go to instructions; memory is paid for once.
    - Transactions and blocks: the smoke of a message and of a block adds up,
      no money is created, the sender is the owner of the key, a header binds
      the body of its block.
    - Consensus: which headers and uncles are accepted, that a batch is
      verified in order under every interleaving, what a block pays, how votes
      are counted, when a signer may sign, that cached snapshots do not matter.
    - Pool: the list of an account refines its transactions sorted by nonce
      and, when it is strict, has no gaps; the list by price answers exactly
      and discards the cheapest transactions, whatever stale entries it has;
      blocks are filled by price, and by nonce within an account.
    - Where the code goes wrong there is a theorem too: see the theorems whose
      comments say so (a decoder that never ends, aliased return data, the
      lists of precompiled contracts, smoke lost by a rejected message,
      negative rewards, a check that wraps, slots counted twice).

    ** Fuel

    The decoders recurse on the length of the input and the depth of the type
    ([DecodeBytes_terminates] has the bound).  Trie operations recurse on the
    length of the key plus the nodes behind hashes, and return on every
    represented trie.  The EVM uses one unit of fuel per iteration of the
    interpreter loop over all nested calls; one more than the smoke of the
    call is enough, because every iteration that goes on uses smoke.  The
    search for a snapshot uses one unit per block, the garbage collection one
    per level of the nodes below a root, the loops of the pool one per entry
    of a heap.  These bounds are proved.

    ** Not modelled

    The network (p2p/, les/, light/, 420/), the database engines and the
    freezer (420db/, core/rawdb/), the chain and the pool of transactions as
    running services (core/blockchain.go, most of core/tx_pool.go, miner/), accounts,
    wallets and signing tools (accounts/, signer/), user interfaces and RPC
    (rpc/, graphql/, console/, cmd/, internal/, mobile/), metrics and logs are
    input and output, glue between goroutines, or generated code.  Curve and
    hash arithmetic (crypto/) is a parameter.  Within the modelled packages:
    reflection and the type cache of rlp, user-defined [DecodeRLP] methods,
    range proofs, the committer of a trie, the cache of clean nodes and the
    preimages of the trie database, the sealing of blocks and the tracing of the EVM. *)

From stdpp Require Export base tactics option list gmap strings.
From Stdlib Require Export ZArith Lia ZifyBool.

Open Scope Z_scope.

(** ** Results

    Go functions that return [(T, error)] are modelled as [result E T]: the
    value when the returned error is nil, the error otherwise. *)

Inductive result (E A : Type) : Type :=
| Ok (a : A)
| Err (e : E).
Arguments Ok {E A} _.
Arguments Err {E A} _.

#[export] Instance result_ret (E : Type) : MRet (result E) := λ A a, Ok a.
#[export] Instance result_bind (E : Type) : MBind (result E) := λ A B f r,
  match r with Ok a => f a | Err e => Err e end.
#[export] Instance result_fmap (E : Type) : FMap (result E) := λ A B f r,
  match r with Ok a => Ok (f a) | Err e => Err e end.

Definition is_ok {E A} (r : result E A) : bool :=
  match r with Ok _ => true | Err _ => false end.

#[export] Instance result_eq_dec {E A} `{EqDecision E, EqDecision A} : EqDecision (result E A).
Proof. solve_decision. Defined.

Lemma fmap_ok {E A B} (f : A → B) (r : result E A) b :
  f <$> r = Ok b ↔ ∃ a, r = Ok a ∧ f a = b.
Proof.
  destruct r as [a|e]; cbn; split.
  - intros [= <-]. eauto.
  - by intros (? & [= ->] & ->).
  - done.
  - by intros (? & ? & _).
Qed.
Lemma bind_ok {E A B} (r : result E A) (f : A → result E B) b :
  r ≫= f = Ok b ↔ ∃ a, r = Ok a ∧ f a = Ok b.
Proof. destruct r; cbn; naive_solver. Qed.

(** ** Machine integers

    An unsigned Go integer of width [w] is a [Z] in [0, 2^w); arithmetic that
    may leave the range is followed by the wrap-around of its type. *)

Definition u8 (x : Z) : Z := x mod 256.
Definition u32 (x : Z) : Z := x mod 2 ^ 32.
Definition u64 (x : Z) : Z := x mod 2 ^ 64.
Definition u256 (x : Z) : Z := x mod 2 ^ 256.
(** [int64] of a 64-bit pattern or of the result of an operation. *)
Definition i64 (x : Z) : Z := (x + 2 ^ 63) mod 2 ^ 64 - 2 ^ 63.

Definition is_byte (b : Z) : Prop := 0 ≤ b < 256.
Definition is_u64 (x : Z) : Prop := 0 ≤ x < 2 ^ 64.

(** A byte slice; every [Z] in it is meant to be a byte ([bytes_ok]). *)
Abbreviation bytes := (list Z).
Definition bytes_ok (bs : bytes) : Prop := Forall is_byte bs.

(** Go's [len]. *)
Abbreviation len l := (Z.of_nat (length l)).

#[export] Instance is_byte_dec b : Decision (is_byte b).
Proof. unfold is_byte. apply _. Defined.
#[export] Instance bytes_ok_dec bs : Decision (bytes_ok bs).
Proof. unfold bytes_ok. apply _. Defined.

Create HintDb go420 discriminated.

Lemma u8_byte x : is_byte (u8 x).
Proof. unfold u8, is_byte. apply Z.mod_pos_bound. lia. Qed.
Lemma u64_range x : is_u64 (u64 x).
Proof. unfold u64, is_u64. apply Z.mod_pos_bound. lia. Qed.
Lemma u8_small x : is_byte x → u8 x = x.
Proof. unfold u8, is_byte. intros. by apply Z.mod_small. Qed.
Lemma u64_small x : is_u64 x → u64 x = x.
Proof. unfold u64, is_u64. intros. by apply Z.mod_small. Qed.

Lemma bytes_ok_app a b : bytes_ok (a ++ b) ↔ bytes_ok a ∧ bytes_ok b.
Proof. apply Forall_app. Qed.
Lemma bytes_ok_cons a b : bytes_ok (a :: b) ↔ is_byte a ∧ bytes_ok b.
Proof. apply Forall_cons. Qed.
Lemma bytes_ok_nil : bytes_ok [].
Proof. constructor. Qed.
#[export] Hint Resolve bytes_ok_nil : core.
Lemma bytes_ok_take n a : bytes_ok a → bytes_ok (take n a).
Proof. apply Forall_take. Qed.
Lemma bytes_ok_drop n a : bytes_ok a → bytes_ok (drop n a).
Proof. apply Forall_drop. Qed.
Lemma bytes_ok_lookup a (i : nat) b : bytes_ok a → a !! i = Some b → is_byte b.
Proof. apply Forall_lookup_1. Qed.
#[export] Hint Resolve u8_byte u64_range bytes_ok_nil bytes_ok_take bytes_ok_drop : go420.

(** ** Tactics *)

(** Turn boolean comparisons in the context and goal into propositions. *)
Ltac bool_prop :=
  repeat match goal with
  | H : (_ && _)%bool = true |- _ => apply andb_true_iff in H; destruct H
  | H : (_ || _)%bool = false |- _ => apply orb_false_iff in H; destruct H
  | H : negb _ = true |- _ => apply negb_true_iff in H
  | H : negb _ = false |- _ => apply negb_false_iff in H
  | H : (_ <? _) = true |- _ => apply Z.ltb_lt in H
  | H : (_ <? _) = false |- _ => apply Z.ltb_ge in H
  | H : (_ <=? _) = true |- _ => apply Z.leb_le in H
  | H : (_ <=? _) = false |- _ => apply Z.leb_gt in H
  | H : (_ =? _) = true |- _ => apply Z.eqb_eq in H
  | H : (_ =? _) = false |- _ => apply Z.eqb_neq in H
  end.

(** Case split on the next boolean [if] of the goal. *)
Ltac case_if :=
  match goal with
  | |- context [if ?b then _ else _] => destruct b eqn:?; bool_prop
  end.

(** Decide an integer comparison of the goal with [lia]. *)
Ltac zcmp :=
  repeat match goal with
  | |- context [?a <? ?b] =>
      first [ replace (a <? b) with true by (symmetry; apply Z.ltb_lt; lia)
            | replace (a <? b) with false by (symmetry; apply Z.ltb_ge; lia) ]
  | |- context [?a <=? ?b] =>
      first [ replace (a <=? b) with true by (symmetry; apply Z.leb_le; lia)
            | replace (a <=? b) with false by (symmetry; apply Z.leb_gt; lia) ]
  | |- context [?a =? ?b] =>
      first [ replace (a =? b) with true by (symmetry; apply Z.eqb_eq; lia)
            | replace (a =? b) with false by (symmetry; apply Z.eqb_neq; lia) ]
  end.

(** Well-formedness of a closed value, by evaluation. *)
Ltac wf_concrete :=
  cbn; unfold is_u64; repeat split;
  solve [lia | apply (bool_decide_unpack _); vm_compute; exact I].

(** ** Big-endian integers *)

Definition be_decode (bs : bytes) : Z := foldl (λ acc b, acc * 256 + b) 0 bs.

Fixpoint be_fixed (n : nat) (x : Z) : bytes :=
  match n with
  | O => []
  | S m => be_fixed m (x / 256) ++ [x mod 256]
  end.

(** Number of bytes of the shortest big-endian representation. *)
Definition nbytes (x : Z) : nat :=
  if x <=? 0 then 0%nat else Z.to_nat (Z.log2 x / 8 + 1).

Definition be_bytes (x : Z) : bytes := be_fixed (nbytes x) x.

Lemma length_be_fixed n x : length (be_fixed n x) = n.
Proof. revert x; induction n; intros; cbn; [done|]. rewrite length_app, IHn. cbn. lia. Qed.

Lemma be_fixed_ok n x : bytes_ok (be_fixed n x).
Proof.
  revert x; induction n; intros; cbn; [apply bytes_ok_nil|].
  apply bytes_ok_app; split; [done|]. apply bytes_ok_cons; split; [|apply bytes_ok_nil].
  unfold is_byte. apply Z.mod_pos_bound. lia.
Qed.

Lemma be_decode_snoc bs b : be_decode (bs ++ [b]) = be_decode bs * 256 + b.
Proof. unfold be_decode. by rewrite foldl_app. Qed.

Lemma be_decode_foldl bs acc :
  foldl (λ a b, a * 256 + b) acc bs = acc * 256 ^ len bs + be_decode bs.
Proof.
  revert acc. induction bs as [|b bs IH] using rev_ind; intros acc.
  - cbn. lia.
  - rewrite be_decode_snoc, foldl_app; cbn [foldl]. rewrite IH, length_app; cbn [length].
    replace (Z.of_nat (length bs + 1)) with (len bs + 1) by lia.
    rewrite Z.pow_add_r by lia. lia.
Qed.

Lemma be_decode_app a b : be_decode (a ++ b) = be_decode a * 256 ^ len b + be_decode b.
Proof. unfold be_decode at 1. rewrite foldl_app, be_decode_foldl. done. Qed.

Lemma be_decode_cons b bs : be_decode (b :: bs) = b * 256 ^ len bs + be_decode bs.
Proof. apply (be_decode_app [b]). Qed.

Lemma be_decode_bound bs : bytes_ok bs → 0 ≤ be_decode bs < 256 ^ len bs.
Proof.
  induction bs as [|b bs IH] using rev_ind; [cbn; lia|].
  rewrite bytes_ok_app, bytes_ok_cons. intros (H & Hb & _). specialize (IH H).
  rewrite be_decode_snoc, length_app; cbn [length].
  replace (Z.of_nat (length bs + 1)) with (len bs + 1) by lia.
  rewrite Z.pow_add_r by lia. unfold is_byte in Hb. lia.
Qed.

Lemma be_decode_fixed n x : 0 ≤ x < 256 ^ Z.of_nat n → be_decode (be_fixed n x) = x.
Proof.
  revert x; induction n as [|n IH]; intros x Hx; cbn [be_fixed].
  - cbn in *. lia.
  - rewrite be_decode_snoc, IH.
    + pose proof (Z.div_mod x 256). lia.
    + replace (Z.of_nat (S n)) with (Z.of_nat n + 1) in Hx by lia.
      rewrite Z.pow_add_r in Hx by lia.
      split; [apply Z.div_pos; lia|]. apply Z.div_lt_upper_bound; lia.
Qed.

Lemma be_fixed_decode bs : bytes_ok bs → be_fixed (length bs) (be_decode bs) = bs.
Proof.
  induction bs as [|b bs IH] using rev_ind; [done|].
  rewrite bytes_ok_app, bytes_ok_cons. intros (H & Hb & _).
  rewrite length_app; cbn [length]. rewrite Nat.add_1_r; cbn [be_fixed].
  rewrite be_decode_snoc. unfold is_byte in Hb.
  rewrite Z.div_add_l, (Z.div_small b 256), Z.add_0_r by lia.
  rewrite IH by done.
  replace ((be_decode bs * 256 + b) mod 256) with b; [done|].
  rewrite Z.add_comm, Z.mod_add by lia. symmetry. by apply Z.mod_small.
Qed.

Lemma nbytes_pos x : 0 < x → (0 < nbytes x)%nat.
Proof.
  intros. unfold nbytes. zcmp. pose proof (Z.log2_nonneg x).
  assert (0 ≤ Z.log2 x / 8) by (apply Z.div_pos; lia). lia.
Qed.

Lemma pow256 n : 0 ≤ n → 256 ^ n = 2 ^ (8 * n).
Proof. intros. change 256 with (2 ^ 8). by rewrite <- Z.pow_mul_r by lia. Qed.

Lemma nbytes_spec x : 0 < x → 256 ^ (Z.of_nat (nbytes x) - 1) ≤ x < 256 ^ Z.of_nat (nbytes x).
Proof.
  intros Hx. pose proof (Z.log2_spec x Hx) as [H1 H2]. pose proof (Z.log2_nonneg x).
  unfold nbytes. zcmp. set (l := Z.log2 x) in *.
  assert (0 ≤ l / 8) by (apply Z.div_pos; lia).
  rewrite Z2Nat.id by lia. pose proof (Z.div_mod l 8). pose proof (Z.mod_pos_bound l 8).
  rewrite !pow256 by lia. split.
  - etrans; [|apply H1]. apply Z.pow_le_mono_r; lia.
  - eapply Z.lt_le_trans; [apply H2|]. apply Z.pow_le_mono_r; lia.
Qed.

Lemma nbytes_unique x (n : nat) :
  0 < x → 256 ^ (Z.of_nat n - 1) ≤ x < 256 ^ Z.of_nat n → nbytes x = n.
Proof.
  intros Hx [H1 H2]. pose proof (nbytes_spec x Hx) as [H3 H4].
  pose proof (nbytes_pos x Hx). set (m := nbytes x) in *.
  destruct (lt_eq_lt_dec m n) as [[Hlt| ->]|Hlt]; [|done|]; exfalso.
  - assert (256 ^ Z.of_nat m ≤ 256 ^ (Z.of_nat n - 1)) by (apply Z.pow_le_mono_r; lia). lia.
  - assert (256 ^ Z.of_nat n ≤ 256 ^ (Z.of_nat m - 1)) by (apply Z.pow_le_mono_r; lia). lia.
Qed.

Lemma be_bytes_ok x : bytes_ok (be_bytes x).
Proof. apply be_fixed_ok. Qed.

Lemma be_decode_bytes x : 0 ≤ x → be_decode (be_bytes x) = x.
Proof.
  intros Hx. unfold be_bytes. destruct (Z.eq_dec x 0) as [->|]; [done|].
  apply be_decode_fixed. pose proof (nbytes_spec x). lia.
Qed.

Lemma be_bytes_decode b bs :
  bytes_ok (b :: bs) → b ≠ 0 → be_bytes (be_decode (b :: bs)) = b :: bs.
Proof.
  intros Hok Hb. unfold be_bytes.
  assert (nbytes (be_decode (b :: bs)) = length (b :: bs)) as ->; [|by apply be_fixed_decode].
  pose proof (be_decode_bound _ Hok) as Hbd.
  apply bytes_ok_cons in Hok as [Hb' Hok]. unfold is_byte in Hb'.
  pose proof (be_decode_bound _ Hok). rewrite be_decode_cons in Hbd |- *.
  assert (0 < 256 ^ len bs) by (apply Z.pow_pos_nonneg; lia).
  apply nbytes_unique; [nia|]. cbn [length] in *.
  replace (Z.of_nat (S (length bs)) - 1) with (len bs) by lia. nia.
Qed.

Lemma be_bytes_head x b bs : 0 ≤ x → be_bytes x = b :: bs → b ≠ 0.
Proof.
  intros Hx E ->. pose proof (be_bytes_ok x) as Hok. rewrite E in Hok.
  apply bytes_ok_cons in Hok as [_ Hok].
  pose proof (be_decode_bytes x Hx) as Hd. rewrite E, be_decode_cons in Hd.
  pose proof (be_decode_bound _ Hok).
  assert (length (be_bytes x) = nbytes x) as Hl by apply length_be_fixed.
  rewrite E in Hl; cbn [length] in Hl.
  destruct (Z.eq_dec x 0) as [->|]; [done|].
  pose proof (nbytes_spec x). rewrite <- Hl in *.
  replace (Z.of_nat (S (length bs)) - 1) with (len bs) in * by lia. lia.
Qed.

(** ** Bit operations *)

(** Or-ing a number into the low bits left free by a shift adds it. *)
Lemma lor_disjoint a b n : 0 ≤ n → 0 ≤ b < 2 ^ n → Z.lor (a * 2 ^ n) b = a * 2 ^ n + b.
Proof.
  intros Hn Hb. rewrite <- Z.add_lor_land.
  enough (Z.land (a * 2 ^ n) b = 0) as -> by lia.
  rewrite <- Z.shiftl_mul_pow2 by done. apply Z.bits_inj'. intros k Hk.
  rewrite Z.land_spec, Z.bits_0. destruct (Z.ltb_spec k n).
  - by rewrite Z.shiftl_spec_low.
  - rewrite <- (Z.mod_small b (2 ^ n)), Z.mod_pow2_bits_high by lia. apply andb_false_r.
Qed.

(** ** List segments *)

(** Go's [b[i:j]], for [0 <= i <= j <= len b]. *)
Definition slice {A} (b : list A) (i j : Z) : list A :=
  take (Z.to_nat (j - i)) (drop (Z.to_nat i) b).

(** [b[i]] of a byte slice, for an index in range. *)
Definition at_ (b : bytes) (i : nat) : Z := nth i b 0.
Lemma at_lookup b i x : b !! i = Some x → at_ b i = x.
Proof. intros H. unfold at_. by rewrite nth_lookup, H. Qed.

(** ** Hashes and addresses *)

Notation Address := bytes (only parsing).
Notation Hash := bytes (only parsing).

Definition zero_hash : Hash := replicate 32 0.
Definition zero_address : Address := replicate 20 0.

(** [common.BytesToHash]: the last 32 bytes, padded on the left. *)
Definition BytesToHash (b : bytes) : bytes :=
  let b := if 32 <? len b then drop (length b - 32) b else b in
  replicate (32 - length b) 0 ++ b.

Lemma BytesToHash_32 b : length b = 32%nat → BytesToHash b = b.
Proof. intros H. unfold BytesToHash. zcmp. by rewrite H. Qed.

