(* ===== verification/RlpEncode.v ===== *)
(** * RLP encoder (src/rlp/encode.go, src/rlp/typecache.go)

    The two-phase encoder of package rlp: values are written into an [encbuf]
    that keeps string data and list headers apart, and the headers are spliced
    in when the buffer is flushed ([toBytes], [toWriter], [encReader]).  The
    reference definition [rlp_spec] builds the encoding directly by recursion
    on the value; the refinement theorems relate the two. *)

From S2P Require Import Prelude.

(** ** Errors and kinds of package rlp *)

Inductive Kind := KByte | KString | KList.
#[export] Instance Kind_eq_dec : EqDecision Kind.
Proof. solve_decision. Defined.

(** The messages of [decodeError]; its type and path context are not kept. *)
Inductive decode_msg :=
| msg_non_canonical_int
| msg_non_canonical_size
| msg_expected_list
| msg_expected_string
| msg_string_too_long
| msg_string_too_short
| msg_too_many_elements
| msg_list_too_few
| msg_struct_too_few
| msg_wrong_empty_kind.
#[export] Instance decode_msg_eq_dec : EqDecision decode_msg.
Proof. solve_decision. Defined.

(** [ErrOutOfFuel] belongs to the model: a loop used up its fuel. *)
Inductive rlp_error :=
| EOL
| ErrExpectedString
| ErrExpectedList
| ErrCanonInt
| ErrCanonSize
| ErrElemTooLarge
| ErrValueTooLarge
| ErrMoreThanOneValue
| errNotInList
| errNotAtEOL
| errUintOverflow
| ErrUnexpectedEOF
| ErrEOF
| ErrNegativeBigInt
| ErrInvalidBool (n : Z)
| decodeError (msg : decode_msg)
| ErrOutOfFuel.
#[export] Instance rlp_error_eq_dec : EqDecision rlp_error.
Proof. solve_decision. Defined.

(** ** Sizes and integers *)

(** [for size = 1; ; size++ { if i >>= 8; i == 0 { return size } }]: a uint64
    is zero after eight shifts, so eight rounds of the loop are enough
    ([intsize_spec]). *)
Fixpoint intsize_loop (fuel : nat) (size i : Z) : Z :=
  match fuel with
  | O => size
  | S n =>
      let i := Z.shiftr i 8 in
      if i =? 0 then size else intsize_loop n (size + 1) i
  end.
Definition intsize (i : Z) : Z := intsize_loop 8 1 i.

Definition headsize (size : Z) : Z :=
  if size <? 56 then 1 else 1 + intsize size.

(** The bytes [putint] writes at the beginning of its buffer; the returned
    size is their number. *)
Definition putint (i : Z) : bytes :=
  if i <? Z.shiftl 1 8 then [u8 i]
  else if i <? Z.shiftl 1 16 then [u8 (Z.shiftr i 8); u8 i]
  else if i <? Z.shiftl 1 24 then [u8 (Z.shiftr i 16); u8 (Z.shiftr i 8); u8 i]
  else if i <? Z.shiftl 1 32 then
    [u8 (Z.shiftr i 24); u8 (Z.shiftr i 16); u8 (Z.shiftr i 8); u8 i]
  else if i <? Z.shiftl 1 40 then
    [u8 (Z.shiftr i 32); u8 (Z.shiftr i 24); u8 (Z.shiftr i 16); u8 (Z.shiftr i 8); u8 i]
  else if i <? Z.shiftl 1 48 then
    [u8 (Z.shiftr i 40); u8 (Z.shiftr i 32); u8 (Z.shiftr i 24); u8 (Z.shiftr i 16);
     u8 (Z.shiftr i 8); u8 i]
  else if i <? Z.shiftl 1 56 then
    [u8 (Z.shiftr i 48); u8 (Z.shiftr i 40); u8 (Z.shiftr i 32); u8 (Z.shiftr i 24);
     u8 (Z.shiftr i 16); u8 (Z.shiftr i 8); u8 i]
  else
    [u8 (Z.shiftr i 56); u8 (Z.shiftr i 48); u8 (Z.shiftr i 40); u8 (Z.shiftr i 32);
     u8 (Z.shiftr i 24); u8 (Z.shiftr i 16); u8 (Z.shiftr i 8); u8 i].

(** The header bytes [puthead] writes to its buffer. *)
Definition puthead (smalltag largetag size : Z) : bytes :=
  if size <? 56 then [u8 (smalltag + u8 size)]
  else
    let enc := putint size in
    u8 (largetag + u8 (len enc)) :: enc.

(** ** The encoder buffer *)

Record listhead := Listhead {
  offset : Z;  (** index of this header in the string data *)
  lh_size : Z  (** total size of encoded data, including list headers *)
}.

Record encbuf := Encbuf {
  str : bytes;             (** everything except list headers *)
  lheads : list listhead;  (** all list headers *)
  lhsize : Z               (** sum of sizes of all encoded list headers *)
}.

Definition encbuf_reset : encbuf := Encbuf [] [] 0.

Definition append_str (b : bytes) (w : encbuf) : encbuf :=
  Encbuf (str w ++ b) (lheads w) (lhsize w).

Definition listhead_encode (head : listhead) : bytes :=
  puthead 0xC0 0xF7 (lh_size head).

Definition encodeStringHeader (size : Z) (w : encbuf) : encbuf :=
  if size <? 56 then append_str [u8 (0x80 + u8 size)] w
  else
    let enc := putint size in
    append_str (u8 (0xB7 + u8 (len enc)) :: enc) w.

Definition encodeString (b : bytes) (w : encbuf) : encbuf :=
  match b with
  | [b0] =>
      if b0 <=? 0x7F then append_str [b0] w
      else append_str b (encodeStringHeader (len b) w)
  | _ => append_str b (encodeStringHeader (len b) w)
  end.

Definition encodeUint (i : Z) (w : encbuf) : encbuf :=
  if i =? 0 then append_str [0x80] w
  else if i <? 128 then append_str [u8 i] w
  else
    let enc := putint i in
    append_str (u8 (0x80 + u8 (len enc)) :: enc) w.

Definition encbuf_size (w : encbuf) : Z := len (str w) + lhsize w.

(** [list] pushes a header and returns its index; [listEnd] completes it. *)
Definition encbuf_list (w : encbuf) : nat * encbuf :=
  (length (lheads w),
   Encbuf (str w) (lheads w ++ [Listhead (len (str w)) (lhsize w)]) (lhsize w)).

Definition encbuf_listEnd (index : nat) (w : encbuf) : encbuf :=
  match lheads w !! index with
  | None => w
  | Some lh =>
      let size := encbuf_size w - offset lh - lh_size lh in
      Encbuf (str w) (<[index := Listhead (offset lh) size]> (lheads w))
        (if size <? 56 then lhsize w + 1 else lhsize w + (1 + intsize size))
  end.

(** Flushing the buffer: string data before each header, the header, and the
    rest of the string data after the last one. *)
Fixpoint toBytes_loop (s : bytes) (strpos : Z) (heads : list listhead) (out : bytes) : bytes :=
  match heads with
  | [] => out ++ drop (Z.to_nat strpos) s
  | head :: heads =>
      let piece := slice s strpos (offset head) in
      toBytes_loop s (strpos + len piece) heads (out ++ piece ++ listhead_encode head)
  end.
Definition toBytes (w : encbuf) : bytes := toBytes_loop (str w) 0 (lheads w) [].

(** The sequence of slices [toWriter] hands to the underlying writer, for a
    writer that accepts every write. *)
Fixpoint toWriter_loop (s : bytes) (strpos : Z) (heads : list listhead) : list bytes :=
  match heads with
  | [] => if strpos <? len s then [drop (Z.to_nat strpos) s] else []
  | head :: heads =>
      if 0 <? offset head - strpos then
        let piece := slice s strpos (offset head) in
        piece :: listhead_encode head :: toWriter_loop s (strpos + len piece) heads
      else listhead_encode head :: toWriter_loop s strpos heads
  end.
Definition toWriter (w : encbuf) : list bytes := toWriter_loop (str w) 0 (lheads w).

(** ** encReader *)

Record encReader := EncReader {
  er_buf : option encbuf;    (** nil at EOF *)
  lhpos : nat;               (** index of the list header being read *)
  strpos : Z;                (** current position in the string buffer *)
  piece : option bytes       (** next piece to be read *)
}.

Definition encReader_next (r : encReader) : option bytes * encReader :=
  match er_buf r with
  | None => (None, r)
  | Some buf =>
      match piece r with
      | Some p => (Some p, r)
      | None =>
          match lheads buf !! lhpos r with
          | Some head =>
              let sizebefore := offset head - strpos r in
              if 0 <? sizebefore then
                (Some (slice (str buf) (strpos r) (offset head)),
                 EncReader (er_buf r) (lhpos r) (strpos r + sizebefore) (piece r))
              else
                (Some (listhead_encode head),
                 EncReader (er_buf r) (S (lhpos r)) (strpos r) (piece r))
          | None =>
              if strpos r <? len (str buf) then
                (Some (drop (Z.to_nat (strpos r)) (str buf)),
                 EncReader (er_buf r) (lhpos r) (len (str buf)) (piece r))
              else (None, r)
          end
      end
  end.

(** [Read(b)] for a destination of [n] bytes: the bytes copied, whether io.EOF
    was returned, and the reader.  Each round of the loop either returns or
    finishes one piece, and no piece is empty, so fuel larger than the number
    of bytes left is never exhausted ([encReader_read_spec]; [None] is fuel
    exhaustion). *)
Fixpoint encReader_read (fuel : nat) (n : nat) (acc : bytes) (r : encReader)
    : option (bytes * bool * encReader) :=
  match fuel with
  | O => None
  | S fuel =>
      let '(p, r) := encReader_next r in
      match p with
      | None => Some (acc, true, EncReader None (lhpos r) (strpos r) None)
      | Some p =>
          let nn := (n - length acc)%nat in
          if (nn <? length p)%nat then
            Some (acc ++ take nn p, false,
                  EncReader (er_buf r) (lhpos r) (strpos r) (Some (drop nn p)))
          else encReader_read fuel n (acc ++ p) (EncReader (er_buf r) (lhpos r) (strpos r) None)
      end
  end.

Definition EncodeToReader_reader (w : encbuf) : encReader := EncReader (Some w) 0 0 None.

(** ** Values and writers

    The reflective dispatch of [makeWriter]: one constructor per case of the
    switch.  [VEncoder v] is a type whose [EncodeRLP(w)] calls
    [rlp.Encode(w, v)], which continues on the same [encbuf]. *)
Inductive value :=
| VRaw (b : bytes)
| VBigIntPtr (i : option Z)
| VBigInt (i : Z)
| VPtr (nilKind : Kind) (v : option value)
| VEncoder (v : value)
| VUint (i : Z)
| VBool (b : bool)
| VString (s : bytes)
| VBytes (b : bytes)
| VByteArray (named : bool) (b : bytes)
| VSlice (tail : bool) (vs : list value)
| VStruct (vs : list value)
| VInterface (v : option value).

(** [big.Int.Bits]: the absolute value as little-endian 64-bit words, without
    leading zero words. *)
Fixpoint big_words (n : nat) (i : Z) : list Z :=
  match n with
  | O => []
  | S n => i mod 2 ^ 64 :: big_words n (i / 2 ^ 64)
  end.
Definition big_Bits (i : Z) : list Z :=
  big_words (if i =? 0 then 0%nat else Z.to_nat (Z.log2 i / 64 + 1)) i.
Definition big_BitLen (i : Z) : Z := if i =? 0 then 0 else Z.log2 (Z.abs i) + 1.

(** [for j := 0; j < wordBytes && index > 0; j++]: [buf[index:]] is already
    filled and kept in [acc]. *)
Fixpoint fill_word (j : nat) (index : nat) (d : Z) (acc : bytes) : nat * bytes :=
  match j, index with
  | S j, S index => fill_word j index (Z.shiftr d 8) (u8 d :: acc)
  | _, _ => (index, acc)
  end.
Fixpoint fill_words (ds : list Z) (index : nat) (acc : bytes) : nat * bytes :=
  match ds with
  | [] => (index, acc)
  | d :: ds => let '(index, acc) := fill_word 8 index d acc in fill_words ds index acc
  end.

Definition writeBigInt (i : Z) (w : encbuf) : result rlp_error encbuf :=
  if i <? 0 then Err ErrNegativeBigInt
  else
    let bitlen := big_BitLen i in
    if bitlen <=? 64 then Ok (encodeUint i w)
    else
      let length := Z.shiftr (Z.land (bitlen + 7) (-8)) 3 in
      let w := encodeStringHeader length w in
      let '(index, filled) := fill_words (big_Bits i) (Z.to_nat length) [] in
      Ok (append_str (replicate index 0 ++ filled) w).

Definition writeBigIntPtr (i : option Z) (w : encbuf) : result rlp_error encbuf :=
  match i with
  | None => Ok (append_str [0x80] w)
  | Some i => writeBigInt i w
  end.

Definition writeBool (b : bool) (w : encbuf) : encbuf :=
  if b then append_str [0x01] w else append_str [0x80] w.

Definition writeString (s : bytes) (w : encbuf) : encbuf :=
  match s with
  | [s0] =>
      if s0 <=? 0x7f then append_str [s0] w
      else append_str s (encodeStringHeader (len s) w)
  | _ => append_str s (encodeStringHeader (len s) w)
  end.

Definition writeLengthOneByteArray (b : Z) (w : encbuf) : encbuf :=
  if b <=? 0x7f then append_str [b] w else append_str [0x81; b] w.

Definition writeByteArrayCopy (b : bytes) (w : encbuf) : encbuf :=
  append_str b (encodeStringHeader (len b) w).

Definition writeByteArray (named : bool) (b : bytes) (w : encbuf) : encbuf :=
  match b with
  | [] => append_str [0x80] w
  | [b0] => writeLengthOneByteArray b0 w
  | _ => if named then encodeString b w else writeByteArrayCopy b w
  end.

(** The element loop of slice and struct writers. *)
Definition write_all (f : value → encbuf → result rlp_error encbuf) :=
  fix go (vs : list value) (w : encbuf) : result rlp_error encbuf :=
    match vs with
    | [] => Ok w
    | v :: vs => w ← f v w; go vs w
    end.

Fixpoint write (v : value) (w : encbuf) : result rlp_error encbuf :=
  match v with
  | VRaw b => Ok (append_str b w)
  | VBigIntPtr i => writeBigIntPtr i w
  | VBigInt i => writeBigInt i w
  | VPtr _ (Some v) => write v w
  | VPtr KString None => Ok (append_str [0x80] w)
  | VPtr _ None => let '(i, w) := encbuf_list w in Ok (encbuf_listEnd i w)
  | VEncoder v => write v w
  | VUint i => Ok (encodeUint i w)
  | VBool b => Ok (writeBool b w)
  | VString s => Ok (writeString s w)
  | VBytes b => Ok (encodeString b w)
  | VByteArray named b => Ok (writeByteArray named b w)
  | VSlice true vs => write_all write vs w
  | VSlice false vs | VStruct vs =>
      let '(i, w) := encbuf_list w in
      w ← write_all write vs w;
      Ok (encbuf_listEnd i w)
  | VInterface None => Ok (append_str [0xC0] w)
  | VInterface (Some v) => write v w
  end.

Definition EncodeToBytes (v : value) : result rlp_error bytes :=
  toBytes <$> write v encbuf_reset.

Definition Encode (v : value) : result rlp_error (list bytes) :=
  toWriter <$> write v encbuf_reset.

Definition EncodeToReader (v : value) : result rlp_error (Z * encReader) :=
  (λ w, (encbuf_size w, EncodeToReader_reader w)) <$> write v encbuf_reset.

(** ** Reference definition *)

Definition rlp_head (small large : Z) (n : Z) : bytes :=
  if n <? 56 then [small + n] else large + len (be_bytes n) :: be_bytes n.

Definition rlp_string (b : bytes) : bytes :=
  match b with
  | [b0] => if b0 <? 128 then b else rlp_head 0x80 0xB7 1 ++ b
  | _ => rlp_head 0x80 0xB7 (len b) ++ b
  end.

Definition rlp_list (payload : bytes) : bytes :=
  rlp_head 0xC0 0xF7 (len payload) ++ payload.

Definition rlp_nat (i : Z) : result rlp_error bytes :=
  if i <? 0 then Err ErrNegativeBigInt else Ok (rlp_string (be_bytes i)).

Definition spec_all (f : value → result rlp_error bytes) :=
  fix go (vs : list value) : result rlp_error bytes :=
    match vs with
    | [] => Ok []
    | v :: vs => b ← f v; bs ← go vs; Ok (b ++ bs)
    end.

Fixpoint rlp_spec (v : value) : result rlp_error bytes :=
  match v with
  | VRaw b => Ok b
  | VBigIntPtr None => Ok [0x80]
  | VBigIntPtr (Some i) | VBigInt i => rlp_nat i
  | VPtr _ (Some v) | VEncoder v | VInterface (Some v) => rlp_spec v
  | VPtr KString None => Ok [0x80]
  | VPtr _ None | VInterface None => Ok [0xC0]
  | VUint i => Ok (rlp_string (be_bytes i))
  | VBool b => Ok (rlp_string (be_bytes (if b then 1 else 0)))
  | VString b | VBytes b | VByteArray _ b => Ok (rlp_string b)
  | VSlice true vs => spec_all rlp_spec vs
  | VSlice false vs | VStruct vs => rlp_list <$> spec_all rlp_spec vs
  end.

(** Values as Go has them: bytes are bytes and a [VUint] is a uint64. *)
Definition all_values (P : value → Prop) :=
  fix go (vs : list value) : Prop :=
    match vs with
    | [] => True
    | v :: vs => P v ∧ go vs
    end.

Fixpoint value_ok (v : value) : Prop :=
  match v with
  | VRaw b | VString b | VBytes b | VByteArray _ b => bytes_ok b
  | VUint i => is_u64 i
  | VPtr _ (Some v) | VEncoder v | VInterface (Some v) => value_ok v
  | VSlice _ vs | VStruct vs => all_values value_ok vs
  | _ => True
  end.

(** ** Lemmas: integers and headers *)

Arguments intsize : simpl never.
Arguments headsize : simpl never.
Arguments putint : simpl never.
Arguments rlp_head : simpl never.

Section value_induction.
Variable P : value → Prop.
Hypothesis HRaw : ∀ b, P (VRaw b).
Hypothesis HBigPtr : ∀ i, P (VBigIntPtr i).
Hypothesis HBig : ∀ i, P (VBigInt i).
Hypothesis HPtrNil : ∀ k, P (VPtr k None).
Hypothesis HPtr : ∀ k v, P v → P (VPtr k (Some v)).
Hypothesis HEnc : ∀ v, P v → P (VEncoder v).
Hypothesis HUint : ∀ i, P (VUint i).
Hypothesis HBool : ∀ b, P (VBool b).
Hypothesis HString : ∀ b, P (VString b).
Hypothesis HBytes : ∀ b, P (VBytes b).
Hypothesis HArr : ∀ n b, P (VByteArray n b).
Hypothesis HSlice : ∀ t vs, Forall P vs → P (VSlice t vs).
Hypothesis HStruct : ∀ vs, Forall P vs → P (VStruct vs).
Hypothesis HIfNil : P (VInterface None).
Hypothesis HIf : ∀ v, P v → P (VInterface (Some v)).

Fixpoint value_ind' (v : value) : P v :=
  let all := fix all (vs : list value) : Forall P vs :=
    match vs with
    | [] => Forall_nil_2 P
    | v :: vs => Forall_cons_2 P v vs (value_ind' v) (all vs)
    end in
  match v with
  | VRaw b => HRaw b
  | VBigIntPtr i => HBigPtr i
  | VBigInt i => HBig i
  | VPtr k None => HPtrNil k
  | VPtr k (Some v) => HPtr k v (value_ind' v)
  | VEncoder v => HEnc v (value_ind' v)
  | VUint i => HUint i
  | VBool b => HBool b
  | VString b => HString b
  | VBytes b => HBytes b
  | VByteArray n b => HArr n b
  | VSlice t vs => HSlice t vs (all vs)
  | VStruct vs => HStruct vs (all vs)
  | VInterface None => HIfNil
  | VInterface (Some v) => HIf v (value_ind' v)
  end.
End value_induction.

Lemma nbytes_div i : 256 ≤ i → nbytes i = S (nbytes (i / 256)).
Proof.
  intros Hi. assert (0 < i / 256) as Hd by (apply Z.div_str_pos; lia).
  pose proof (nbytes_spec _ Hd). pose proof (nbytes_pos _ Hd).
  set (n := nbytes (i / 256)) in *. pose proof (Z.div_mod i 256). pose proof (Z.mod_pos_bound i 256).
  apply nbytes_unique; [lia|].
  replace (Z.of_nat (S n) - 1) with ((Z.of_nat n - 1) + 1) by lia.
  replace (Z.of_nat (S n)) with (Z.of_nat n + 1) by lia.
  rewrite !Z.pow_add_r by lia. lia.
Qed.

Lemma nbytes_small i : 0 < i < 256 → nbytes i = 1%nat.
Proof. intros. apply nbytes_unique; cbn; lia. Qed.

Lemma nbytes_le i (n : nat) : 0 ≤ i < 256 ^ Z.of_nat n → (nbytes i ≤ n)%nat.
Proof.
  intros Hi. destruct (Z.eq_dec i 0) as [->|]; [cbn; lia|].
  pose proof (nbytes_spec i). destruct (decide (nbytes i ≤ n)%nat) as [|Hn]; [done|].
  assert (256 ^ Z.of_nat n ≤ 256 ^ (Z.of_nat (nbytes i) - 1)) by (apply Z.pow_le_mono_r; lia). lia.
Qed.

Lemma intsize_loop_spec n size i :
  0 < i < 256 ^ Z.of_nat n → intsize_loop n size i = size - 1 + Z.of_nat (nbytes i).
Proof.
  revert size i. induction n as [|n IH]; intros size i Hi; [cbn in Hi; lia|].
  cbn [intsize_loop]. rewrite Z.shiftr_div_pow2 by lia. change (2 ^ 8) with 256.
  destruct (Z.ltb_spec i 256).
  - rewrite Z.div_small, nbytes_small by lia. cbn. lia.
  - assert (0 < i / 256) by (apply Z.div_str_pos; lia).
    zcmp. rewrite IH, (nbytes_div i) by
      (replace (Z.of_nat (S n)) with (Z.of_nat n + 1) in Hi by lia;
       rewrite Z.pow_add_r in Hi by lia;
       try split; try lia; apply Z.div_lt_upper_bound; lia).
    lia.
Qed.

Lemma intsize_spec i : 0 < i < 2 ^ 64 → intsize i = Z.of_nat (nbytes i).
Proof. intros. unfold intsize. rewrite intsize_loop_spec; [lia|]. done. Qed.

Lemma be_fixed_S_l n x : be_fixed (S n) x = u8 (x / 256 ^ Z.of_nat n) :: be_fixed n x.
Proof.
  revert x. induction n as [|n IH]; intros x.
  - cbn. rewrite Z.div_1_r. done.
  - cbn [be_fixed] in *. rewrite IH. cbn. f_equal.
    rewrite Z.div_div by lia. do 2 f_equal.
    replace (Z.of_nat (S n)) with (Z.of_nat n + 1) by lia. rewrite Z.pow_add_r by lia. lia.
Qed.

Lemma shiftr_pow256 x n : 0 ≤ n → Z.shiftr x (8 * n) = x / 256 ^ n.
Proof. intros. rewrite Z.shiftr_div_pow2, pow256 by lia. done. Qed.

Lemma putint_be i : 0 < i < 2 ^ 64 → putint i = be_bytes i.
Proof.
  intros Hi. unfold putint, be_bytes.
  change (Z.shiftr i 8) with (Z.shiftr i (8 * 1)).
  change (Z.shiftr i 16) with (Z.shiftr i (8 * 2)).
  change (Z.shiftr i 24) with (Z.shiftr i (8 * 3)).
  change (Z.shiftr i 32) with (Z.shiftr i (8 * 4)).
  change (Z.shiftr i 40) with (Z.shiftr i (8 * 5)).
  change (Z.shiftr i 48) with (Z.shiftr i (8 * 6)).
  change (Z.shiftr i 56) with (Z.shiftr i (8 * 7)).
  rewrite !shiftr_pow256 by lia.
  repeat match goal with |- context [Z.shiftl 1 ?n] =>
    let v := eval vm_compute in (Z.shiftl 1 n) in change (Z.shiftl 1 n) with v end.
  let solve n := (rewrite (nbytes_unique i n) by (cbn; lia); rewrite !be_fixed_S_l;
                  cbn [be_fixed Z.of_nat]; by rewrite ?Z.div_1_r) in
  repeat (case_if; [first [solve 1%nat | solve 2%nat | solve 3%nat | solve 4%nat
                          | solve 5%nat | solve 6%nat | solve 7%nat]|]); solve 8%nat.
Qed.

Lemma length_be_bytes i : length (be_bytes i) = nbytes i.
Proof. apply length_be_fixed. Qed.

Lemma nbytes_u64 i : 0 ≤ i < 2 ^ 64 → (nbytes i ≤ 8)%nat.
Proof. intros. by apply nbytes_le. Qed.

Lemma puthead_spec small large n :
  0 ≤ small ≤ 200 → 0 ≤ large ≤ 247 → 0 ≤ n < 2 ^ 64 →
  puthead small large n = rlp_head small large n.
Proof.
  intros Hs Hl Hn. unfold puthead, rlp_head. case_if.
  - f_equal. unfold u8. rewrite (Z.mod_small n) by lia. apply Z.mod_small. lia.
  - rewrite putint_be by lia. f_equal. rewrite length_be_bytes.
    pose proof (nbytes_u64 n Hn). unfold u8.
    rewrite (Z.mod_small (Z.of_nat (nbytes n))) by lia. apply Z.mod_small. lia.
Qed.

Lemma headsize_spec small large n :
  0 ≤ n < 2 ^ 64 → headsize n = len (rlp_head small large n).
Proof.
  intros Hn. unfold headsize, rlp_head. case_if; [done|].
  rewrite intsize_spec by lia. cbn [length]. rewrite length_be_bytes. lia.
Qed.

(** ** Lemmas: writers append the reference encoding of strings *)

Lemma append_str_app a b w : append_str b (append_str a w) = append_str (a ++ b) w.
Proof. unfold append_str; cbn. by rewrite app_assoc. Qed.

Lemma encodeStringHeader_spec n w :
  0 ≤ n < 2 ^ 64 → encodeStringHeader n w = append_str (rlp_head 0x80 0xB7 n) w.
Proof.
  intros Hn. pose proof (puthead_spec 0x80 0xB7 n) as H. unfold puthead in H.
  unfold encodeStringHeader. destruct (n <? 56); rewrite H by lia; done.
Qed.

Lemma rlp_string_long b : length b ≠ 1%nat → rlp_string b = rlp_head 0x80 0xB7 (len b) ++ b.
Proof. destruct b as [|? [|??]]; done. Qed.

Lemma encodeString_spec b w :
  len b < 2 ^ 64 → encodeString b w = append_str (rlp_string b) w.
Proof.
  intros Hn. destruct b as [|b0 [|b1 b]].
  - cbn [encodeString]. rewrite encodeStringHeader_spec, append_str_app by lia. done.
  - cbn -[encodeStringHeader rlp_head]. case_if.
    + zcmp. done.
    + zcmp. rewrite encodeStringHeader_spec, append_str_app by (cbn; lia). done.
  - cbn [encodeString]. rewrite encodeStringHeader_spec, append_str_app by lia. done.
Qed.

Lemma writeString_encodeString s w : writeString s w = encodeString s w.
Proof. done. Qed.

Lemma writeByteArray_spec named b w :
  bytes_ok b → len b < 2 ^ 64 → writeByteArray named b w = append_str (rlp_string b) w.
Proof.
  intros Hok Hn. destruct b as [|b0 [|b1 b]]; cbn [writeByteArray].
  - done.
  - unfold writeLengthOneByteArray, rlp_string. case_if; zcmp; done.
  - destruct named; [by apply encodeString_spec|].
    unfold writeByteArrayCopy. rewrite encodeStringHeader_spec, append_str_app by lia. done.
Qed.

Lemma be_bytes_small i : 0 < i < 256 → be_bytes i = [i].
Proof.
  intros. unfold be_bytes. rewrite nbytes_small by done. cbn. by rewrite Z.mod_small by lia.
Qed.

Lemma encodeUint_spec i w : is_u64 i → encodeUint i w = append_str (rlp_string (be_bytes i)) w.
Proof.
  unfold is_u64. intros Hi. unfold encodeUint. case_if; [by subst|]. case_if.
  - rewrite be_bytes_small by lia. cbn. zcmp. unfold u8. by rewrite Z.mod_small by lia.
  - rewrite putint_be by lia. f_equal.
    pose proof (nbytes_u64 i Hi). pose proof (nbytes_pos i).
    assert (rlp_string (be_bytes i) = rlp_head 0x80 0xB7 (len (be_bytes i)) ++ be_bytes i) as ->.
    { destruct (decide (nbytes i = 1%nat)) as [E|].
      - pose proof (nbytes_spec i). rewrite E in *. rewrite be_bytes_small by lia. cbn. by zcmp.
      - apply rlp_string_long. by rewrite length_be_bytes. }
    rewrite length_be_bytes. unfold rlp_head. zcmp. cbn. f_equal.
    unfold u8. rewrite (Z.mod_small (Z.of_nat (nbytes i))) by lia. apply Z.mod_small. lia.
Qed.

(** ** Lemmas: big integers *)

Lemma be_fixed_app a b x :
  be_fixed (a + b) x = be_fixed a (x / 256 ^ Z.of_nat b) ++ be_fixed b x.
Proof.
  revert x. induction b as [|b IH]; intros x.
  - rewrite Nat.add_0_r, Z.div_1_r, app_nil_r. done.
  - rewrite Nat.add_succ_r. cbn [be_fixed]. rewrite IH, app_assoc, Z.div_div by lia.
    replace (256 * 256 ^ Z.of_nat b) with (256 ^ Z.of_nat (S b))
      by (rewrite Nat2Z.inj_succ, Z.pow_succ_r by lia; done).
    done.
Qed.

Lemma be_fixed_mod n x m :
  (n ≤ m)%nat → be_fixed n (x mod 256 ^ Z.of_nat m) = be_fixed n x.
Proof.
  revert x m. induction n as [|n IH]; intros x m Hm; [done|].
  destruct m as [|m]; [lia|]. cbn [be_fixed].
  rewrite Nat2Z.inj_succ, Z.pow_succ_r by lia.
  assert (0 < 256 ^ Z.of_nat m) by (apply Z.pow_pos_nonneg; lia).
  rewrite Z.rem_mul_r by lia. f_equal.
  - rewrite (Z.mul_comm 256), Z.div_add, (Z.div_small (x mod 256)) by
      (try lia; apply Z.mod_pos_bound; lia).
    rewrite Z.add_0_l. apply IH. lia.
  - rewrite (Z.mul_comm 256), Z.mod_add, Z.mod_mod by lia. done.
Qed.

Lemma fill_word_spec j index d acc :
  fill_word j index d acc =
    ((index - j)%nat, be_fixed (Nat.min j index) d ++ acc).
Proof.
  revert index d acc. induction j as [|j IH]; intros [|index] d acc; cbn [fill_word]; try done.
  rewrite IH. cbn [Nat.min Nat.sub be_fixed]. f_equal.
  rewrite Z.shiftr_div_pow2 by lia. rewrite <- app_assoc. done.
Qed.

Lemma fill_words_spec n index i acc :
  (index ≤ 8 * n)%nat → fill_words (big_words n i) index acc = (0%nat, be_fixed index i ++ acc).
Proof.
  revert index i acc. induction n as [|n IH]; intros index i acc Hn.
  - assert (index = 0%nat) as -> by lia. done.
  - cbn [big_words fill_words]. rewrite fill_word_spec, IH by lia. f_equal.
    rewrite app_assoc. f_equal. change (2 ^ 64) with (256 ^ Z.of_nat 8) at 2.
    destruct (decide (index ≤ 8)%nat).
    + replace (index - 8)%nat with 0%nat by lia. rewrite Nat.min_r by lia.
      apply be_fixed_mod. lia.
    + rewrite Nat.min_l, be_fixed_mod by lia.
      rewrite <- (be_fixed_app (index - 8) 8). f_equal. lia.
Qed.

Lemma round_up8 n : 0 ≤ n → Z.shiftr (Z.land (n + 7) (-8)) 3 = (n + 7) / 8.
Proof.
  intros. change (-8) with (Z.lnot (Z.ones 3)).
  rewrite <- Z.ldiff_land, Z.ldiff_ones_r, Z.shiftr_shiftl_l by lia.
  rewrite Z.sub_diag, Z.shiftl_0_r, Z.shiftr_div_pow2 by lia. done.
Qed.

Lemma writeBigInt_spec i w :
  0 ≤ i → len (be_bytes i) < 2 ^ 64 →
  writeBigInt i w = Ok (append_str (rlp_string (be_bytes i)) w).
Proof.
  intros Hi Hl. unfold writeBigInt, big_BitLen. zcmp. case_if.
  - rewrite encodeUint_spec; [done|]. unfold is_u64. destruct (Z.eqb_spec i 0); [lia|].
    rewrite Z.abs_eq in * by lia. split; [lia|]. apply Z.log2_lt_pow2; lia.
  - destruct (Z.eqb_spec i 0); [lia|]. rewrite Z.abs_eq in * by lia.
    rewrite round_up8 by lia.
    assert (nbytes i = Z.to_nat ((Z.log2 i + 1 + 7) / 8)) as Hnb.
    { unfold nbytes. zcmp. f_equal. replace (Z.log2 i + 1 + 7) with (Z.log2 i + 1 * 8) by lia.
      by rewrite Z.div_add by lia. }
    rewrite <- Hnb. unfold big_Bits. zcmp.
    rewrite fill_words_spec.
    2:{ rewrite Hnb. pose proof (Z.div_mod (Z.log2 i) 64). pose proof (Z.mod_pos_bound (Z.log2 i) 64).
        assert ((Z.log2 i + 1 + 7) / 8 < 8 * (Z.log2 i / 64) + 9)
          by (apply Z.div_lt_upper_bound; lia). lia. }
    rewrite length_be_bytes in Hl.
    assert (64 ≤ Z.log2 i) by lia.
    assert (9 ≤ (Z.log2 i + 1 + 7) / 8) by (apply Z.div_le_lower_bound; lia).
    replace ((Z.log2 i + 1 + 7) / 8) with (Z.of_nat (nbytes i)) by lia.
    rewrite encodeStringHeader_spec, append_str_app by lia.
    cbn [replicate app]. rewrite app_nil_r, rlp_string_long; rewrite length_be_bytes; [done|lia].
Qed.

(** ** Lemmas: splicing list headers into string data *)

(** Headers [hs] spliced into the string data [s] that starts at position
    [pos] of the buffer. *)
Fixpoint splice (pos : Z) (s : bytes) (hs : list listhead) : bytes :=
  match hs with
  | [] => s
  | h :: hs =>
      let n := Z.to_nat (offset h - pos) in
      take n s ++ listhead_encode h ++ splice (pos + len (take n s)) (drop n s) hs
  end.

(** Header offsets are ascending and lie between [lo] and [hi]. *)
Fixpoint heads_wf (lo hi : Z) (hs : list listhead) : Prop :=
  match hs with
  | [] => lo ≤ hi
  | h :: hs => lo ≤ offset h ∧ heads_wf (offset h) hi hs
  end.

Lemma heads_wf_le lo hi hs : heads_wf lo hi hs → lo ≤ hi.
Proof. revert lo; induction hs; cbn; intros lo; [done|]. intros [? ?%IHhs]. lia. Qed.

Lemma heads_wf_app lo mid hi h1 h2 :
  heads_wf lo mid h1 → heads_wf mid hi h2 → heads_wf lo hi (h1 ++ h2).
Proof.
  revert lo. induction h1 as [|h h1 IH]; intros lo; cbn.
  - intros H1 H2. destruct h2; cbn in *; [lia|]. destruct H2; split; [lia|done].
  - intros [H1 H2] H3. eauto.
Qed.

Lemma splice_skip pos a s hs hi :
  heads_wf (pos + len a) hi hs → splice pos (a ++ s) hs = a ++ splice (pos + len a) s hs.
Proof.
  destruct hs as [|h hs]; cbn; [done|]. intros [Hh _].
  replace (Z.to_nat (offset h - pos)) with (length a + Z.to_nat (offset h - (pos + len a)))%nat by lia.
  rewrite take_app_add, drop_app_add, length_app, <- !app_assoc. do 4 f_equal. lia.
Qed.

Lemma splice_app pos s1 s2 h1 h2 hi :
  heads_wf pos (pos + len s1) h1 → heads_wf (pos + len s1) hi h2 →
  splice pos (s1 ++ s2) (h1 ++ h2) = splice pos s1 h1 ++ splice (pos + len s1) s2 h2.
Proof.
  revert pos s1. induction h1 as [|h h1 IH]; intros pos s1 H1 H2.
  - cbn. by eapply splice_skip.
  - cbn in H1 |- *. destruct H1 as [Hlo H1].
    pose proof (heads_wf_le _ _ _ H1). set (n := Z.to_nat (offset h - pos)).
    assert (n ≤ length s1)%nat by lia.
    assert (length (take n s1) = n) as Hn by (rewrite length_take; lia).
    rewrite take_app_le, drop_app_le by done. rewrite Hn.
    replace (pos + Z.of_nat n) with (offset h) in * by lia.
    assert (offset h + len (drop n s1) = pos + len s1) as Hd by (rewrite length_drop; lia).
    rewrite IH.
    + rewrite Hd, <- !app_assoc. done.
    + by rewrite Hd.
    + by rewrite Hd.
Qed.

Lemma toBytes_loop_splice s strpos hs out :
  0 ≤ strpos → toBytes_loop s strpos hs out = out ++ splice strpos (drop (Z.to_nat strpos) s) hs.
Proof.
  revert strpos out. induction hs as [|h hs IH]; intros strpos out Hp; cbn; [done|].
  unfold slice. rewrite IH by lia.
  rewrite <- !app_assoc. do 4 f_equal. rewrite drop_drop.
  set (n := Z.to_nat (offset h - strpos)). rewrite length_take, length_drop.
  destruct (decide (n ≤ length s - Z.to_nat strpos)%nat).
  - f_equal. lia.
  - rewrite !drop_ge; [done|lia|lia].
Qed.

Lemma toBytes_splice w : toBytes w = splice 0 (str w) (lheads w).
Proof. unfold toBytes. by rewrite toBytes_loop_splice. Qed.

Lemma toWriter_loop_splice s strpos hs :
  0 ≤ strpos → concat (toWriter_loop s strpos hs) = splice strpos (drop (Z.to_nat strpos) s) hs.
Proof.
  revert strpos. induction hs as [|h hs IH]; intros strpos Hp; cbn.
  - case_if; cbn; [by rewrite app_nil_r|]. by rewrite drop_ge by lia.
  - case_if; cbn.
    + rewrite IH by lia. unfold slice. do 3 f_equal. rewrite drop_drop.
      set (n := Z.to_nat (offset h - strpos)). rewrite length_take, length_drop.
      destruct (decide (n ≤ length s - Z.to_nat strpos)%nat).
      * f_equal. lia.
      * rewrite !drop_ge; [done|lia|lia].
    + replace (Z.to_nat (offset h - strpos)) with 0%nat by lia. cbn.
      rewrite IH, Z.add_0_r by lia. done.
Qed.

(** ** Refinement: a writer extends the buffer by the reference encoding *)

(** [w'] is [w] after writing a value whose encoding is [out]. *)
Definition extends (w w' : encbuf) (out : bytes) : Prop :=
  ∃ s hs, w' = Encbuf (str w ++ s) (lheads w ++ hs) (lhsize w + (len out - len s))
    ∧ heads_wf (len (str w)) (len (str w) + len s) hs
    ∧ splice (len (str w)) s hs = out.

Lemma extends_str b w : extends w (append_str b w) b.
Proof.
  exists b, []. unfold append_str; cbn. rewrite app_nil_r. split; [f_equal; lia|]. split; [lia|done].
Qed.

Lemma extends_nil w : extends w w [].
Proof.
  exists [], []. cbn. rewrite !app_nil_r. split; [destruct w; cbn; f_equal; lia|]. split; [lia|done].
Qed.

Lemma extends_trans w1 w2 w3 a b :
  extends w1 w2 a → extends w2 w3 b → extends w1 w3 (a ++ b).
Proof.
  intros (s1 & h1 & -> & Hw1 & <-) (s2 & h2 & -> & Hw2 & <-); cbn in *.
  rewrite length_app in *. rewrite Nat2Z.inj_add in *.
  exists (s1 ++ s2), (h1 ++ h2). rewrite !app_assoc. split; [|split].
  - f_equal. rewrite !length_app. lia.
  - rewrite length_app, Nat2Z.inj_add, Z.add_assoc. by eapply heads_wf_app.
  - by eapply splice_app.
Qed.

Lemma extends_list w w' payload i w0 :
  encbuf_list w = (i, w0) → extends w0 w' payload → len payload < 2 ^ 64 →
  extends w (encbuf_listEnd i w') (rlp_list payload).
Proof.
  unfold encbuf_list. intros [= <- <-] (s & hs & -> & Hw & Hs) Hp; cbn in *.
  unfold encbuf_listEnd; cbn. rewrite <- app_assoc.
  rewrite lookup_app_r, Nat.sub_diag by lia; cbn.
  unfold encbuf_size; cbn. rewrite length_app, Nat2Z.inj_add.
  replace (_ - _ - _) with (len payload) by lia.
  assert (len (rlp_head 0xC0 0xF7 (len payload)) = headsize (len payload)) as Hh
    by (symmetry; apply headsize_spec; lia).
  exists s, (Listhead (len (str w)) (len payload) :: hs). cbn. split; [|split].
  - rewrite insert_app_r_alt, Nat.sub_diag by lia. cbn. f_equal.
    unfold rlp_list. rewrite length_app, Nat2Z.inj_add, Hh. unfold headsize. case_if; lia.
  - split; [lia|done].
  - rewrite Z.sub_diag. cbn. rewrite drop_0, Z.add_0_r, Hs. unfold listhead_encode, rlp_list. cbn.
    by rewrite puthead_spec by lia.
Qed.

Lemma rlp_list_len p : len p ≤ len (rlp_list p).
Proof. unfold rlp_list. rewrite length_app. lia. Qed.
Lemma rlp_string_len b : len b ≤ len (rlp_string b).
Proof.
  destruct b as [|b0 [|b1 b]]; cbn -[rlp_head]; [lia| |rewrite length_app; cbn; lia].
  case_if; rewrite ?length_app; cbn; lia.
Qed.

Definition write_refines (v : value) : Prop :=
  value_ok v → ∀ w,
  match rlp_spec v with
  | Err e => write v w = Err e
  | Ok out => ∃ w', write v w = Ok w' ∧ (len out < 2 ^ 64 → extends w w' out)
  end.

Lemma write_all_refines vs w :
  Forall write_refines vs → all_values value_ok vs →
  match spec_all rlp_spec vs with
  | Err e => write_all write vs w = Err e
  | Ok out => ∃ w', write_all write vs w = Ok w' ∧ (len out < 2 ^ 64 → extends w w' out)
  end.
Proof.
  intros Hvs. revert w. induction Hvs as [|v vs Hv Hvs IH]; intros w; cbn.
  - intros _. exists w. split; [done|]. intros _. apply extends_nil.
  - intros [Hok Hoks]. specialize (Hv Hok w). destruct (rlp_spec v) as [a|e]; cbn.
    + destruct Hv as (w1 & -> & Hv). cbn. specialize (IH w1 Hoks).
      destruct (spec_all rlp_spec vs) as [b|e]; cbn; [|done].
      destruct IH as (w2 & -> & IH). exists w2. split; [done|].
      rewrite length_app. intros. eapply extends_trans; [apply Hv|apply IH]; lia.
    + by rewrite Hv.
Qed.

Lemma writeBigInt_refines i w :
  match rlp_nat i with
  | Err e => writeBigInt i w = Err e
  | Ok out => ∃ w', writeBigInt i w = Ok w' ∧ (len out < 2 ^ 64 → extends w w' out)
  end.
Proof.
  unfold rlp_nat. case_if; [unfold writeBigInt; by zcmp|].
  destruct (writeBigInt i w) as [w'|e] eqn:E.
  - exists w'. split; [done|]. intros Hl. pose proof (rlp_string_len (be_bytes i)).
    rewrite writeBigInt_spec in E by lia. injection E as <-. apply extends_str.
  - exfalso. unfold writeBigInt in E. destruct (i <? 0) eqn:?; bool_prop; [lia|].
    destruct (big_BitLen i <=? 64); [done|]. destruct (fill_words _ _ _); done.
Qed.

Ltac write_leaf := intros; cbn [rlp_spec write writeBigIntPtr]; eexists; split; [done|]; intros.

Lemma write_refines_all v : write_refines v.
Proof.
  induction v using value_ind'; unfold write_refines; cbn [value_ok].
  - write_leaf. apply extends_str.
  - destruct i as [i|]; [|write_leaf; apply extends_str].
    intros _ w. apply writeBigInt_refines.
  - intros _ w. apply writeBigInt_refines.
  - intros _ w. destruct k; cbn.
    + eexists; split; [done|]. intros _. eapply (extends_list w _ []); [done|apply extends_nil|done].
    + eexists; split; [done|]. intros _. apply extends_str.
    + eexists; split; [done|]. intros _. eapply (extends_list w _ []); [done|apply extends_nil|done].
  - destruct k; exact IHv.
  - exact IHv.
  - write_leaf. rewrite encodeUint_spec by done. apply extends_str.
  - write_leaf. destruct b; apply extends_str.
  - write_leaf. pose proof (rlp_string_len b). rewrite writeString_encodeString, encodeString_spec by lia.
    apply extends_str.
  - write_leaf. pose proof (rlp_string_len b). rewrite encodeString_spec by lia. apply extends_str.
  - write_leaf. pose proof (rlp_string_len b). rewrite writeByteArray_spec by (done || lia).
    apply extends_str.
  - intros Hok w. destruct t; [by apply write_all_refines|]. cbn [rlp_spec write].
    destruct (encbuf_list w) as [i w0] eqn:El.
    pose proof (write_all_refines vs w0 H Hok) as Hw.
    destruct (spec_all rlp_spec vs); cbn; [|by rewrite Hw].
    destruct Hw as (w1 & -> & Hw). cbn. eexists; split; [done|]. intros Hl.
    pose proof (rlp_list_len a). eapply extends_list; [done|apply Hw; lia|lia].
  - intros Hok w. cbn [rlp_spec write].
    destruct (encbuf_list w) as [i w0] eqn:El.
    pose proof (write_all_refines vs w0 H Hok) as Hw.
    destruct (spec_all rlp_spec vs); cbn; [|by rewrite Hw].
    destruct Hw as (w1 & -> & Hw). cbn. eexists; split; [done|]. intros Hl.
    pose proof (rlp_list_len a). eapply extends_list; [done|apply Hw; lia|lia].
  - write_leaf. apply extends_str.
  - exact IHv.
Qed.

(** ** Lemmas: reading the encoding through [encReader] *)

(** The bytes a reader has still to deliver. *)
Definition er_rest (r : encReader) : bytes :=
  match er_buf r with
  | None => []
  | Some buf =>
      default [] (piece r) ++
      splice (strpos r) (drop (Z.to_nat (strpos r)) (str buf)) (drop (lhpos r) (lheads buf))
  end.

(** Positions of a reader are consistent with its buffer. *)
Definition er_wf (r : encReader) : Prop :=
  match er_buf r with
  | None => True
  | Some buf => 0 ≤ strpos r ≤ len (str buf)
      ∧ heads_wf (strpos r) (len (str buf)) (drop (lhpos r) (lheads buf))
      ∧ piece r ≠ Some []
  end.

Lemma puthead_nonempty a b n : puthead a b n ≠ [].
Proof. unfold puthead. destruct (n <? 56); done. Qed.

Lemma encReader_next_spec r p r' :
  er_wf r → encReader_next r = (p, r') →
  match p with
  | None => er_rest r = [] ∧ er_buf r' = er_buf r
  | Some b => b ≠ [] ∧ let r1 := EncReader (er_buf r') (lhpos r') (strpos r') None in
      er_rest r = b ++ er_rest r1 ∧ er_wf r1 ∧ er_buf r' = er_buf r ∧ is_Some (er_buf r)
  end.
Proof.
  destruct r as [[buf|] lp sp pc]; unfold er_wf, er_rest, encReader_next; cbn.
  2:{ intros _ [= <- <-]. done. }
  intros (Hsp & Hw & Hp). destruct pc as [b|]; cbn.
  { intros [= <- <-]; cbn. split; [congruence|]. repeat split; try done; try lia. }
  destruct (lheads buf !! lp) as [h|] eqn:Eh.
  - rewrite (drop_S _ _ _ Eh) in Hw |- *. cbn in Hw |- *. destruct Hw as [Hlo Hw].
    pose proof (heads_wf_le _ _ _ Hw). apply lookup_lt_Some in Eh as Hlt.
    case_if; intros [= <- <-]; cbn.
    + assert (length (slice (str buf) sp (offset h)) = Z.to_nat (offset h - sp)) as Hl
        by (unfold slice; rewrite length_take, length_drop; lia).
      replace (sp + (offset h - sp)) with (offset h) by lia.
      rewrite (drop_S _ _ _ Eh); cbn. rewrite Z.sub_diag, Z.add_0_r, drop_0; cbn.
      split. { intros E. rewrite E in Hl. cbn in Hl. lia. }
      split.
      { unfold slice in *. rewrite Hl, drop_drop; cbn.
        replace (sp + Z.of_nat (Z.to_nat (offset h - sp))) with (offset h) by lia.
        replace (Z.to_nat sp + Z.to_nat (offset h - sp))%nat with (Z.to_nat (offset h)) by lia. done. }
      repeat split; try done; lia.
    + assert (offset h = sp) as E by lia. rewrite E in *. rewrite Z.sub_diag, Z.add_0_r, drop_0; cbn.
      split; [apply puthead_nonempty|]. repeat split; try done; try lia.
  - apply lookup_ge_None in Eh. rewrite (drop_ge (lheads buf)) in Hw |- * by done. cbn in *.
    case_if; intros [= <- <-]; cbn.
    + rewrite (drop_ge (lheads buf)) by lia. cbn.
      rewrite (drop_ge (str buf) (Z.to_nat (len (str buf)))) by lia.
      split. { intros E. apply (f_equal length) in E. rewrite length_drop in E. cbn in E. lia. }
      rewrite app_nil_r. repeat split; try done; lia.
    + rewrite drop_ge by lia. done.
Qed.

Lemma encReader_read_spec fuel n acc r :
  er_wf r → (length (er_rest r) < fuel)%nat → (length acc ≤ n)%nat →
  ∃ r', encReader_read fuel n acc r =
      Some (acc ++ take (n - length acc) (er_rest r),
            bool_decide (length acc + length (er_rest r) ≤ n)%nat, r')
    ∧ er_wf r' ∧ er_rest r' = drop (n - length acc) (er_rest r).
Proof.
  revert acc r. induction fuel as [|fuel IH]; intros acc r Hw Hf Ha; [lia|]. cbn [encReader_read].
  destruct (encReader_next r) as [p r1] eqn:En.
  pose proof (encReader_next_spec _ _ _ Hw En) as Hn. destruct p as [b|].
  - destruct Hn as (Hb & Hrest & Hw1 & Hbuf & [buf Hbuf']).
    rewrite Hrest, length_app in Hf |- *.
    assert (0 < length b)%nat by (destruct b; [done|cbn; lia]).
    destruct (Nat.ltb_spec (n - length acc) (length b)).
    + eexists. split; [|split].
      * rewrite take_app_le by lia. rewrite bool_decide_eq_false_2; [done|]. lia.
      * unfold er_wf in *. rewrite Hbuf, Hbuf' in Hw1 |- *. cbn in *. rewrite Hbuf, Hbuf' in *.
        destruct Hw1 as (? & ? & ?). repeat split; try done; try lia.
        intros [= E]. apply (f_equal length) in E. rewrite length_drop in E. cbn in E. lia.
      * unfold er_rest at 1. cbn. rewrite Hbuf, Hbuf'. cbn.
        by rewrite drop_app_le by lia.
    + destruct (IH (acc ++ b) (EncReader (er_buf r1) (lhpos r1) (strpos r1) None))
        as (r' & Hr & Hw' & Hrest'); [done|lia|rewrite length_app; lia|].
      exists r'. rewrite Hr, Hrest'. rewrite length_app, <- app_assoc. split; [|split; [done|]].
      * rewrite take_app_ge by lia. do 3 f_equal; [do 3 f_equal; lia|].
        apply bool_decide_ext. lia.
      * rewrite drop_app_ge by lia. f_equal. lia.
  - destruct Hn as [Hrest Hbuf]. rewrite Hrest. cbn.
    exists (EncReader None (lhpos r1) (strpos r1) None). split; [|split; [done|]].
    + rewrite take_nil, app_nil_r, bool_decide_eq_true_2 by lia. done.
    + by rewrite drop_nil.
Qed.

(** ** Properties *)

(** The buffer a value leaves behind satisfies the invariants of the flush. *)
Lemma write_reset v out :
  value_ok v → rlp_spec v = Ok out → len out < 2 ^ 64 →
  ∃ w, write v encbuf_reset = Ok w ∧ splice 0 (str w) (lheads w) = out
    ∧ heads_wf 0 (len (str w)) (lheads w) ∧ encbuf_size w = len out.
Proof.
  intros Hok Hs Hl. pose proof (write_refines_all v Hok encbuf_reset) as H. rewrite Hs in H.
  destruct H as (w & Hw & He). exists w. split; [done|].
  destruct (He Hl) as (s & hs & -> & Hwf & Hsp). unfold encbuf_size; cbn in *.
  repeat split; try done. lia.
Qed.

Lemma spec_all_cons v vs p :
  spec_all rlp_spec (v :: vs) = Ok p ↔
  ∃ a b, rlp_spec v = Ok a ∧ spec_all rlp_spec vs = Ok b ∧ p = a ++ b.
Proof.
  cbn. split.
  - intros H. apply bind_ok in H as (a & Ha & H). apply bind_ok in H as (b & Hb & [= <-]). eauto.
  - intros (a & b & -> & -> & ->). done.
Qed.

Lemma spec_all_app vs ws p :
  spec_all rlp_spec (vs ++ ws) = Ok p ↔
  ∃ a b, spec_all rlp_spec vs = Ok a ∧ spec_all rlp_spec ws = Ok b ∧ p = a ++ b.
Proof.
  revert p. induction vs as [|v vs IH]; intros p; cbn [app].
  - split; [by exists [], p|]. intros (a & b & [= <-] & ? & ->). done.
  - rewrite spec_all_cons. split.
    + intros (a & b & Hv & Hb & ->). apply IH in Hb as (c & d & Hc & Hd & ->).
      exists (a ++ c), d. rewrite app_assoc. split; [|done]. apply spec_all_cons. eauto.
    + intros (a & b & Ha & Hb & ->). apply spec_all_cons in Ha as (c & d & Hc & Hd & ->).
      exists c, (d ++ b). rewrite app_assoc. split; [done|]. split; [|done]. apply IH. eauto.
Qed.

Lemma EncodeToBytes_ok v out :
  value_ok v → rlp_spec v = Ok out → len out < 2 ^ 64 → EncodeToBytes v = Ok out.
Proof.
  intros Hok Es Hl. destruct (write_reset v out Hok Es Hl) as (w & Hw & Hsp & _).
  unfold EncodeToBytes. rewrite Hw. cbn. by rewrite toBytes_splice, Hsp.
Qed.

(** C34: encoding refines the RLP reference definition.  For every value of a
    type the encoder supports, [EncodeToBytes] (string data and list headers
    kept apart, headers sized by [listEnd] and spliced in by [toBytes]) returns
    exactly the bytes of the recursive definition [rlp_spec], and fails with
    the same error on a negative big integer, as long as the encoding is below
    2^64 bytes. *)
Theorem EncodeToBytes_refines_spec (v : value) :
  value_ok v →
  match rlp_spec v with
  | Ok out => len out < 2 ^ 64 → EncodeToBytes v = Ok out
  | Err e => EncodeToBytes v = Err e
  end.
Proof.
  intros Hok. destruct (rlp_spec v) as [out|e] eqn:Es.
  - by apply EncodeToBytes_ok.
  - pose proof (write_refines_all v Hok encbuf_reset) as H. rewrite Es in H.
    unfold EncodeToBytes. by rewrite H.
Qed.

Lemma EncodeToBytes_refines_spec_witness :
  EncodeToBytes (VStruct [VUint 1024; VBytes [1; 2]; VSlice false [VString [7]; VBigInt (2 ^ 70)]])
  = Ok [0xD2; 0x82; 4; 0; 0x82; 1; 2; 0xCB; 7; 0x89; 64; 0; 0; 0; 0; 0; 0; 0; 0]
  ∧ value_ok (VStruct [VUint 1024; VBytes [1; 2]; VSlice false [VString [7]; VBigInt (2 ^ 70)]]).
Proof.
  assert (value_ok (VStruct [VUint 1024; VBytes [1; 2];
            VSlice false [VString [7]; VBigInt (2 ^ 70)]])) as Hok.
  { wf_concrete. }
  split; [|exact Hok].
  exact (EncodeToBytes_refines_spec _ Hok eq_refl).
Defined.

(** The reader returned by [EncodeToReader] announces the exact size of the
    encoding, and a call of [Read] with an [n]-byte buffer delivers the next
    [n] bytes of it (all that is left if fewer), reporting EOF exactly when the
    encoding is exhausted; what remains to be read is the rest. *)
Theorem EncodeToReader_delivers (v : value) (out : bytes) (n : nat) :
  value_ok v → rlp_spec v = Ok out → len out < 2 ^ 64 →
  ∃ r, EncodeToReader v = Ok (len out, r) ∧ er_wf r ∧ er_rest r = out ∧
    (∀ r1, er_wf r1 → ∃ r2,
      encReader_read (S (length (er_rest r1))) n [] r1 =
        Some (take n (er_rest r1), bool_decide (length (er_rest r1) ≤ n)%nat, r2)
      ∧ er_wf r2 ∧ er_rest r2 = drop n (er_rest r1)).
Proof.
  intros Hok Hs Hl. destruct (write_reset v out Hok Hs Hl) as (w & Hw & Hsp & Hwf & Hsz).
  exists (EncodeToReader_reader w). unfold EncodeToReader. rewrite Hw; cbn [fmap result_fmap]. rewrite Hsz.
  split; [done|]. split; [|split].
  - unfold er_wf, EncodeToReader_reader; cbn. repeat split; try done; lia.
  - unfold er_rest; cbn. done.
  - intros r1 Hr1.
    destruct (encReader_read_spec (S (length (er_rest r1))) n [] r1) as (r2 & Hr & Hw2 & Hr2);
      [done|lia|cbn; lia|].
    exists r2. cbn [length] in *. rewrite Nat.sub_0_r in *. split; [exact Hr|done].
Qed.

Lemma EncodeToReader_delivers_witness :
  ∃ r, EncodeToReader (VSlice false [VBytes [200]; VUint 5]) = Ok (4, r).
Proof.
  destruct (EncodeToReader_delivers (VSlice false [VBytes [200]; VUint 5])
              [0xC3; 0x81; 200; 5] 2) as (r & Hr & _).
  - wf_concrete.
  - reflexivity.
  - reflexivity.
  - exists r. exact Hr.
Defined.

(** The slices handed to the writer concatenate to the flushed bytes. *)
Lemma toWriter_concat w : concat (toWriter w) = toBytes w.
Proof. unfold toWriter. by rewrite toWriter_loop_splice, toBytes_splice by lia. Qed.

(** The output buffer [toBytes] allocates is filled exactly. *)
Lemma toBytes_size v out w :
  value_ok v → rlp_spec v = Ok out → len out < 2 ^ 64 →
  write v encbuf_reset = Ok w → len (toBytes w) = encbuf_size w.
Proof.
  intros Hok Hs Hl Hw. destruct (write_reset v out Hok Hs Hl) as (w' & Hw' & Hsp & _ & Hsz).
  rewrite Hw in Hw'. injection Hw' as <-. by rewrite toBytes_splice, Hsp.
Qed.
