(* ===== verification/RlpRaw.v ===== *)
(** * RLP without reflection (src/rlp/raw.go, src/rlp/iterator.go)

    Splitting encoded values into kind, content and rest, counting values,
    appending and reading integers, and the list iterator.  The theorems show
    that these functions accept exactly the canonical encodings. *)

From S2P Require Import Prelude RlpEncode.

(** ** Definitions *)

Definition ListSize (contentSize : Z) : Z := u64 (headsize contentSize + contentSize).

Definition readSize (b : bytes) (slen : Z) : result rlp_error Z :=
  if len b <? slen then Err ErrUnexpectedEOF
  else
    let s :=
      match slen with
      | 1 => at_ b 0
      | 2 => Z.lor (Z.shiftl (at_ b 0) 8) (at_ b 1)
      | 3 => Z.lor (Z.lor (Z.shiftl (at_ b 0) 16) (Z.shiftl (at_ b 1) 8)) (at_ b 2)
      | 4 =>
          Z.lor (Z.lor (Z.lor (Z.shiftl (at_ b 0) 24) (Z.shiftl (at_ b 1) 16))
            (Z.shiftl (at_ b 2) 8)) (at_ b 3)
      | 5 =>
          Z.lor (Z.lor (Z.lor (Z.lor (Z.shiftl (at_ b 0) 32) (Z.shiftl (at_ b 1) 24))
            (Z.shiftl (at_ b 2) 16)) (Z.shiftl (at_ b 3) 8)) (at_ b 4)
      | 6 =>
          Z.lor (Z.lor (Z.lor (Z.lor (Z.lor (Z.shiftl (at_ b 0) 40) (Z.shiftl (at_ b 1) 32))
            (Z.shiftl (at_ b 2) 24)) (Z.shiftl (at_ b 3) 16)) (Z.shiftl (at_ b 4) 8)) (at_ b 5)
      | 7 =>
          Z.lor (Z.lor (Z.lor (Z.lor (Z.lor (Z.lor (Z.shiftl (at_ b 0) 48)
            (Z.shiftl (at_ b 1) 40)) (Z.shiftl (at_ b 2) 32)) (Z.shiftl (at_ b 3) 24))
            (Z.shiftl (at_ b 4) 16)) (Z.shiftl (at_ b 5) 8)) (at_ b 6)
      | 8 =>
          Z.lor (Z.lor (Z.lor (Z.lor (Z.lor (Z.lor (Z.lor (Z.shiftl (at_ b 0) 56)
            (Z.shiftl (at_ b 1) 48)) (Z.shiftl (at_ b 2) 40)) (Z.shiftl (at_ b 3) 32))
            (Z.shiftl (at_ b 4) 24)) (Z.shiftl (at_ b 5) 16)) (Z.shiftl (at_ b 6) 8)) (at_ b 7)
      | _ => 0
      end in
    if (s <? 56) || (at_ b 0 =? 0) then Err ErrCanonSize else Ok s.

(** Kind, tag size and content size of the first value of [buf]. *)
Definition readKind (buf : bytes) : result rlp_error (Kind * Z * Z) :=
  match buf with
  | [] => Err ErrUnexpectedEOF
  | b :: tl =>
      '(k, tagsize, contentsize) ←
        (if b <? 0x80 then Ok (KByte, 0, 1)
         else if b <? 0xB8 then
           let contentsize := b - 0x80 in
           if (contentsize =? 1) && (1 <? len buf) && (at_ buf 1 <? 128) then Err ErrCanonSize
           else Ok (KString, 1, contentsize)
         else if b <? 0xC0 then
           cs ← readSize tl (b - 0xB7); Ok (KString, b - 0xB7 + 1, cs)
         else if b <? 0xF8 then Ok (KList, 1, b - 0xC0)
         else
           cs ← readSize tl (b - 0xF7); Ok (KList, b - 0xF7 + 1, cs));
      if len buf - tagsize <? contentsize then Err ErrValueTooLarge
      else Ok (k, tagsize, contentsize)
  end.

Definition Split (b : bytes) : result rlp_error (Kind * bytes * bytes) :=
  '(k, ts, cs) ← readKind b;
  Ok (k, slice b ts (ts + cs), drop (Z.to_nat (ts + cs)) b).

Definition SplitString (b : bytes) : result rlp_error (bytes * bytes) :=
  '(k, content, rest) ← Split b;
  if decide (k = KList) then Err ErrExpectedString else Ok (content, rest).

Definition SplitList (b : bytes) : result rlp_error (bytes * bytes) :=
  '(k, content, rest) ← Split b;
  if decide (k = KList) then Ok (content, rest) else Err ErrExpectedList.

Definition SplitUint64 (b : bytes) : result rlp_error (Z * bytes) :=
  '(content, rest) ← SplitString b;
  match content with
  | [] => Ok (0, rest)
  | [c] => if c =? 0 then Err ErrCanonInt else Ok (c, rest)
  | _ =>
      if 8 <? len content then Err errUintOverflow
      else
        match readSize content (len content) with
        | Err _ => Err ErrCanonInt
        | Ok x => Ok (x, rest)
        end
  end.

(** The counting loop; every value takes at least one byte, so [length b]
    rounds reach the end ([CountValues_total]). *)
Fixpoint CountValues_loop (fuel : nat) (i : Z) (b : bytes) : result rlp_error Z :=
  match b, fuel with
  | [], _ => Ok i
  | _, O => Err ErrUnexpectedEOF
  | _, S fuel =>
      '(_, tagsize, size) ← readKind b;
      CountValues_loop fuel (i + 1) (drop (Z.to_nat (tagsize + size)) b)
  end.
Definition CountValues (b : bytes) : result rlp_error Z := CountValues_loop (length b) 0 b.

Definition AppendUint64 (b : bytes) (i : Z) : bytes :=
  if i =? 0 then b ++ [0x80]
  else if i <? 128 then b ++ [u8 i]
  else if i <? Z.shiftl 1 8 then b ++ [0x81; u8 i]
  else if i <? Z.shiftl 1 16 then b ++ [0x82; u8 (Z.shiftr i 8); u8 i]
  else if i <? Z.shiftl 1 24 then
    b ++ [0x83; u8 (Z.shiftr i 16); u8 (Z.shiftr i 8); u8 i]
  else if i <? Z.shiftl 1 32 then
    b ++ [0x84; u8 (Z.shiftr i 24); u8 (Z.shiftr i 16); u8 (Z.shiftr i 8); u8 i]
  else if i <? Z.shiftl 1 40 then
    b ++ [0x85; u8 (Z.shiftr i 32); u8 (Z.shiftr i 24); u8 (Z.shiftr i 16); u8 (Z.shiftr i 8);
          u8 i]
  else if i <? Z.shiftl 1 48 then
    b ++ [0x86; u8 (Z.shiftr i 40); u8 (Z.shiftr i 32); u8 (Z.shiftr i 24); u8 (Z.shiftr i 16);
          u8 (Z.shiftr i 8); u8 i]
  else if i <? Z.shiftl 1 56 then
    b ++ [0x87; u8 (Z.shiftr i 48); u8 (Z.shiftr i 40); u8 (Z.shiftr i 32); u8 (Z.shiftr i 24);
          u8 (Z.shiftr i 16); u8 (Z.shiftr i 8); u8 i]
  else
    b ++ [0x88; u8 (Z.shiftr i 56); u8 (Z.shiftr i 48); u8 (Z.shiftr i 40); u8 (Z.shiftr i 32);
          u8 (Z.shiftr i 24); u8 (Z.shiftr i 16); u8 (Z.shiftr i 8); u8 i].

(** ** List iterator *)

Record listIterator := ListIterator {
  it_data : bytes;
  it_next : bytes;
  it_err : option rlp_error
}.

Definition NewListIterator (data : bytes) : result rlp_error listIterator :=
  '(k, t, c) ← readKind data;
  if decide (k = KList) then Ok (ListIterator (slice data t (t + c)) [] None)
  else Err ErrExpectedList.

(** On an error [readKind] returns zero sizes, so the data does not advance. *)
Definition iterator_Next (it : listIterator) : bool * listIterator :=
  match it_data it with
  | [] => (false, it)
  | _ =>
      match readKind (it_data it) with
      | Ok (_, t, c) =>
          (true, ListIterator (drop (Z.to_nat (t + c)) (it_data it))
                   (take (Z.to_nat (t + c)) (it_data it)) None)
      | Err e => (true, ListIterator (drop 0 (it_data it)) (take 0 (it_data it)) (Some e))
      end
  end.

(** ** Reference: one canonical encoding *)

(** The encoding of a value of kind [k] with the given content. *)
Definition encode_kind (k : Kind) (content : bytes) : bytes :=
  match k with KList => rlp_list content | _ => rlp_string content end.

(** [KByte] is the kind of a single byte below 128, and of nothing else. *)
Definition kind_ok (k : Kind) (content : bytes) : Prop :=
  match k with
  | KByte => ∃ b, content = [b] ∧ b < 128
  | KString => ∀ b, content = [b] → 128 ≤ b
  | KList => True
  end.

(** ** Lemmas: sizes *)

Lemma lor_step x y m n :
  m = n + 8 → 0 ≤ n → is_byte y → Z.lor (x * 2 ^ m) (y * 2 ^ n) = (x * 256 + y) * 2 ^ n.
Proof.
  intros -> Hn Hy. rewrite Z.pow_add_r by lia.
  replace (x * (2 ^ n * 2 ^ 8)) with (x * 2 ^ 8 * 2 ^ n) by lia.
  rewrite <- !Z.shiftl_mul_pow2, <- Z.shiftl_lor, !Z.shiftl_mul_pow2 by lia.
  rewrite lor_disjoint by (unfold is_byte in Hy; lia). done.
Qed.

Lemma lor_step0 x y : is_byte y → Z.lor (x * 2 ^ 8) y = x * 256 + y.
Proof. intros Hy. rewrite lor_disjoint by (unfold is_byte in Hy; lia). done. Qed.

(** Name the first byte of [b], known to be there by its length. *)
Ltac peel b Hok Hl :=
  destruct b as [|? b]; [cbn in Hl; lia|]; apply bytes_ok_cons in Hok as [? Hok].

Lemma readSize_spec b slen :
  bytes_ok b → 1 ≤ slen ≤ 8 → slen ≤ len b →
  readSize b slen =
    let s := be_decode (take (Z.to_nat slen) b) in
    if (s <? 56) || (at_ b 0 =? 0) then Err ErrCanonSize else Ok s.
Proof.
  intros Hok Hs Hl. unfold readSize. zcmp.
  assert (slen = 1 ∨ slen = 2 ∨ slen = 3 ∨ slen = 4 ∨ slen = 5 ∨ slen = 6 ∨ slen = 7 ∨ slen = 8)
    as Hc by lia.
  destruct Hc as [->|[->|[->|[->|[->|[->|[->| ->]]]]]]];
    [do 1 peel b Hok Hl|do 2 peel b Hok Hl|do 3 peel b Hok Hl|do 4 peel b Hok Hl
    |do 5 peel b Hok Hl|do 6 peel b Hok Hl|do 7 peel b Hok Hl|do 8 peel b Hok Hl].
  all: unfold at_; cbn [nth Z.to_nat Pos.to_nat Pos.iter_op Nat.add take];
    rewrite ?Z.shiftl_mul_pow2 by lia;
    repeat rewrite lor_step by (reflexivity || done || lia);
    rewrite ?lor_step0 by done; done.
Qed.

Lemma readSize_inv b slen s :
  bytes_ok b → 1 ≤ slen ≤ 8 → readSize b slen = Ok s →
  56 ≤ s < 2 ^ 64 ∧ slen ≤ len b ∧ take (Z.to_nat slen) b = be_bytes s.
Proof.
  intros Hok Hs H. destruct (Z.leb_spec slen (len b)) as [Hl|Hl].
  2:{ unfold readSize in H.
      destruct (len b <? slen) eqn:?; bool_prop; [done|lia]. }
  rewrite readSize_spec in H by done. cbn -[take] in H.
  destruct (_ || _) eqn:E; [done|]. injection H as <-. bool_prop.
  assert (len (take (Z.to_nat slen) b) = slen) as Hlen by (rewrite length_take; lia).
  pose proof (be_decode_bound (take (Z.to_nat slen) b) (bytes_ok_take _ _ Hok)) as Hb.
  rewrite Hlen in Hb.
  assert (256 ^ slen ≤ 256 ^ 8) by (apply Z.pow_le_mono_r; lia).
  change (256 ^ 8) with (2 ^ 64) in *.
  repeat split; [lia|lia|lia|].
  pose proof (bytes_ok_take (Z.to_nat slen) b Hok) as Hok'.
  destruct b as [|b0 b]; [cbn in Hl; lia|].
  destruct (Z.to_nat slen) as [|n] eqn:En; [lia|]. cbn [take] in *.
  symmetry. by apply be_bytes_decode.
Qed.

Lemma readSize_be s rest :
  bytes_ok rest → 56 ≤ s < 2 ^ 64 → readSize (be_bytes s ++ rest) (len (be_bytes s)) = Ok s.
Proof.
  intros Hok Hs. pose proof (nbytes_u64 s). pose proof (nbytes_pos s).
  assert (length (be_bytes s) = nbytes s) as Hl by apply length_be_bytes.
  rewrite readSize_spec; [|apply bytes_ok_app; split; [apply be_bytes_ok|done]|lia
    |rewrite length_app; lia].
  rewrite Nat2Z.id, take_app_length, be_decode_bytes by lia. cbn.
  destruct (be_bytes s) as [|b0 bs] eqn:E; [cbn in Hl; lia|].
  pose proof (be_bytes_head s b0 bs ltac:(lia) E). unfold at_; cbn [nth app]. by zcmp.
Qed.

(** ** Lemmas: kinds *)

Definition tag_of (k : Kind) (content : bytes) : bytes :=
  match k with
  | KByte => []
  | KString => rlp_head 0x80 0xB7 (len content)
  | KList => rlp_head 0xC0 0xF7 (len content)
  end.

Lemma encode_kind_tag k content :
  kind_ok k content → encode_kind k content = tag_of k content ++ content.
Proof.
  destruct k; cbn; [intros (b & -> & Hb); cbn; by zcmp| |done].
  intros Hk. destruct content as [|b0 [|b1 c]]; try done.
  specialize (Hk b0 eq_refl). cbn. by zcmp.
Qed.

Lemma tag_cases k content tag rest :
  tag = (match k with KString => 0x80 | _ => 0xC0 end) → k ≠ KByte → len content < 2 ^ 64 →
  bytes_ok (content ++ rest) →
  (len content < 56 ∧ tag_of k content = [tag + len content]) ∨
  (56 ≤ len content ∧ ∃ n, 1 ≤ n ≤ 8 ∧ n = len (be_bytes (len content))
    ∧ tag_of k content = tag + 55 + n :: be_bytes (len content)
    ∧ readSize (be_bytes (len content) ++ content ++ rest) n = Ok (len content)).
Proof.
  intros -> Hk Hl Hok. destruct (Z.ltb_spec (len content) 56) as [H|H]; [left|right].
  - split; [done|]. destruct k; [done|..]; cbn; unfold rlp_head; by zcmp.
  - split; [done|]. exists (len (be_bytes (len content))).
    pose proof (length_be_bytes (len content)). pose proof (nbytes_u64 (len content)).
    pose proof (nbytes_pos (len content)). split; [lia|]. split; [done|]. split.
    + destruct k; [done|..]; cbn; unfold rlp_head; by zcmp.
    + by apply readSize_be.
Qed.

Lemma readKind_encode k content rest :
  bytes_ok (content ++ rest) → kind_ok k content → len content < 2 ^ 64 →
  readKind (encode_kind k content ++ rest) = Ok (k, len (tag_of k content), len content).
Proof.
  intros Hok Hk Hl. rewrite encode_kind_tag by done. rewrite <- app_assoc.
  destruct (decide (k = KByte)) as [->|Hne].
  { destruct Hk as (b & -> & Hb). apply bytes_ok_cons in Hok as [Hb0 Hok]. unfold is_byte in Hb0.
    cbn. zcmp. cbn. by zcmp. }
  destruct (tag_cases k content _ rest eq_refl Hne Hl Hok)
    as [[Hs ->]|(Hs & n & Hn & En & -> & Hr)].
  - cbn [app length readKind]. destruct k; [done|..]; zcmp.
    + destruct (_ && _ && _) eqn:E.
      { exfalso. bool_prop. assert (∃ b, content = [b]) as [b ->].
        { destruct content as [|b [|??]]; [cbn in *; lia|eauto|cbn in *; lia]. }
        specialize (Hk b eq_refl). cbn in H0. lia. }
      cbn. rewrite length_app. zcmp. do 3 f_equal. lia.
    + cbn. rewrite length_app. zcmp. do 3 f_equal. lia.
  - cbn [app length readKind].
    destruct k; [done|..]; zcmp.
    + replace (0x80 + 55 + n - 0xB7) with n by lia. rewrite Hr. cbn.
      rewrite !length_app. zcmp. do 3 f_equal. lia.
    + replace (0xC0 + 55 + n - 0xF7) with n by lia. rewrite Hr. cbn.
      rewrite !length_app. zcmp. do 3 f_equal. lia.
Qed.

(** Invert the final bounds check of [readKind]. *)
Ltac inv_size H :=
  match type of H with (if ?c then _ else _) = _ => destruct c eqn:?; [done|] end;
  bool_prop; injection H as <- <- <-.

Lemma tag_small k tag content :
  tag = (match k with KString => 0x80 | _ => 0xC0 end) → k ≠ KByte →
  len content < 56 → tag_of k content = [tag + len content].
Proof. intros -> Hk Hl. destruct k; [done|..]; cbn; unfold rlp_head; by zcmp. Qed.

Lemma tag_large k tag content :
  tag = (match k with KString => 0x80 | _ => 0xC0 end) → k ≠ KByte → 56 ≤ len content →
  tag_of k content = tag + 55 + len (be_bytes (len content)) :: be_bytes (len content).
Proof. intros -> Hk Hl. destruct k; [done|..]; cbn; unfold rlp_head; by zcmp. Qed.

(** The short and the long form of [readKind], for strings and lists. *)
Lemma small_inv k tag tl n :
  tag = (match k with KString => 0x80 | _ => 0xC0 end) → k ≠ KByte →
  0 ≤ n < 56 → n ≤ len tl → kind_ok k (take (Z.to_nat n) tl) →
  ∃ content rest, tag + n :: tl = encode_kind k content ++ rest ∧ kind_ok k content
    ∧ n = len content ∧ len content < 2 ^ 64 ∧ 1 = len (tag_of k content).
Proof.
  intros Ht Hk Hn Hl Hok. set (c := take (Z.to_nat n) tl) in *.
  assert (len c = n) as Hc by (unfold c; rewrite length_take; lia).
  exists c, (drop (Z.to_nat n) tl).
  rewrite encode_kind_tag by done. rewrite (tag_small k tag) by (done || lia).
  rewrite Hc. cbn. unfold c. rewrite take_drop. repeat split; try done; lia.
Qed.

Lemma large_inv k tag tl n cs :
  tag = (match k with KString => 0x80 | _ => 0xC0 end) → k ≠ KByte →
  bytes_ok tl → 1 ≤ n ≤ 8 → readSize tl n = Ok cs → cs ≤ len tl - n →
  ∃ content rest, tag + 55 + n :: tl = encode_kind k content ++ rest ∧ kind_ok k content
    ∧ cs = len content ∧ len content < 2 ^ 64 ∧ n + 1 = len (tag_of k content).
Proof.
  intros Ht Hk Hok Hn Hr Hl. destruct (readSize_inv _ _ _ Hok Hn Hr) as (Hcs & Hnl & Hbe).
  set (c := take (Z.to_nat cs) (drop (Z.to_nat n) tl)).
  assert (len c = cs) as Hc by (unfold c; rewrite length_take, length_drop; lia).
  assert (len (be_bytes cs) = n) as Hbl by (rewrite <- Hbe, length_take; lia).
  assert (kind_ok k c) as Hkc.
  { destruct k; [done|..]; cbn; [|done]. intros b E. rewrite E in Hc. cbn in Hc. lia. }
  exists c, (drop (Z.to_nat cs) (drop (Z.to_nat n) tl)).
  rewrite encode_kind_tag by done. rewrite (tag_large k tag) by (done || lia).
  rewrite Hc, Hbl. cbn [app length]. rewrite <- app_assoc. unfold c at 1. rewrite take_drop, <- Hbe, take_drop.
  repeat split; try done; try lia. rewrite Hbe. lia.
Qed.

Lemma readKind_inv b k ts cs :
  bytes_ok b → readKind b = Ok (k, ts, cs) →
  ∃ content rest, b = encode_kind k content ++ rest ∧ kind_ok k content
    ∧ cs = len content ∧ len content < 2 ^ 64 ∧ ts = len (tag_of k content).
Proof.
  intros Hok H. destruct b as [|b tl]; [done|]. cbn [readKind] in H.
  apply bytes_ok_cons in Hok as [Hb Hok]. unfold is_byte in Hb.
  destruct (b <? 0x80) eqn:E1; [|destruct (b <? 0xB8) eqn:E2; [|destruct (b <? 0xC0) eqn:E3;
    [|destruct (b <? 0xF8) eqn:E4]]]; bool_prop; cbn -[Z.sub] in H.
  - inv_size H. exists [b], tl. cbn. zcmp. repeat split; try done. eauto.
  - destruct (_ && _ && _) eqn:E; [done|]. cbn -[Z.sub] in H. inv_size H.
    replace (b :: tl) with (0x80 + (b - 0x80) :: tl) by (f_equal; lia).
    apply small_inv; try done; try lia. intros c Ec.
    destruct tl as [|c' tl]; [by rewrite take_nil in Ec|].
    destruct (Z.to_nat (b - 128)) as [|[|m]] eqn:Em; [done| |]; cbn in Ec.
    + injection Ec as ->. rewrite (proj2 (Z.eqb_eq _ _)), (proj2 (Z.ltb_lt _ _)) in E
        by (cbn; lia). cbn in E. by bool_prop.
    + destruct tl; [|done]. cbn in *. lia.
  - destruct (readSize tl _) as [cs'|] eqn:Er; [|done]. cbn -[Z.sub] in H. inv_size H.
    replace (b :: tl) with (0x80 + 55 + (b - 0xB7) :: tl) by (f_equal; lia).
    apply large_inv; try done; lia.
  - inv_size H. replace (b :: tl) with (0xC0 + (b - 0xC0) :: tl) by (f_equal; lia).
    apply small_inv; try done; lia.
  - destruct (readSize tl _) as [cs'|] eqn:Er; [|done]. cbn -[Z.sub] in H. inv_size H.
    replace (b :: tl) with (0xC0 + 55 + (b - 0xF7) :: tl) by (f_equal; lia).
    apply large_inv; try done; lia.
Qed.

Lemma encode_kind_nonempty k content : encode_kind k content ≠ [].
Proof.
  assert (∀ b, rlp_string b ≠ []) as Hs.
  { intros [|b0 [|b1 b]]; cbn; [done| |unfold rlp_head; by case_if].
    case_if; [done|]. unfold rlp_head. by case_if. }
  destruct k; cbn; [apply Hs|apply Hs|]. unfold rlp_list, rlp_head. by case_if.
Qed.

Lemma encode_kind_length k content :
  kind_ok k content →
  length (encode_kind k content) = Z.to_nat (len (tag_of k content) + len content).
Proof. intros. rewrite encode_kind_tag, length_app by done. lia. Qed.

Lemma encode_kind_content_ok k content rest :
  kind_ok k content → bytes_ok (encode_kind k content ++ rest) → bytes_ok (content ++ rest).
Proof.
  intros Hk [Hc Hr]%bytes_ok_app. rewrite encode_kind_tag in Hc by done.
  apply bytes_ok_app in Hc as [_ ?]. by apply bytes_ok_app.
Qed.

Lemma Split_encode k content rest :
  bytes_ok (content ++ rest) → kind_ok k content → len content < 2 ^ 64 →
  Split (encode_kind k content ++ rest) = Ok (k, content, rest).
Proof.
  intros Hok Hk Hl. unfold Split. rewrite readKind_encode by done. cbn.
  rewrite <- encode_kind_length by done. rewrite drop_app_length. do 3 f_equal.
  unfold slice. rewrite encode_kind_tag by done.
  replace (Z.to_nat (len (tag_of k content) + len content - len (tag_of k content)))
    with (length content) by lia.
  rewrite Nat2Z.id, <- app_assoc, drop_app_length, take_app_length. done.
Qed.

Lemma Split_inv b k content rest :
  bytes_ok b → Split b = Ok (k, content, rest) →
  b = encode_kind k content ++ rest ∧ kind_ok k content ∧ len content < 2 ^ 64.
Proof.
  intros Hok H. unfold Split in H. destruct (readKind b) as [[[k' ts] cs]|] eqn:E; [|done].
  destruct (readKind_inv _ _ _ _ Hok E) as (c & r & -> & Hk & -> & Hl & ->).
  pose proof (Split_encode k' c r) as Hs. unfold Split in Hs. rewrite E in Hs.
  rewrite Hs in H; [|by eapply encode_kind_content_ok|done|done].
  by injection H as <- <- <-.
Qed.

Lemma rlp_head_ok small large n :
  0 ≤ small ≤ 200 → 0 ≤ large ≤ 247 → 0 ≤ n < 2 ^ 64 → bytes_ok (rlp_head small large n).
Proof.
  intros Hs Hl Hn. unfold rlp_head. case_if.
  - apply bytes_ok_cons. split; [unfold is_byte; lia|apply bytes_ok_nil].
  - apply bytes_ok_cons. split; [|apply be_bytes_ok]. unfold is_byte.
    rewrite length_be_bytes. pose proof (nbytes_u64 n Hn). lia.
Qed.

Lemma rlp_list_ok p : bytes_ok p → len p < 2 ^ 64 → bytes_ok (rlp_list p).
Proof. intros Hp Hl. apply bytes_ok_app. split; [|done]. apply rlp_head_ok; lia. Qed.

Lemma rlp_string_ok b : bytes_ok b → len b < 2 ^ 64 → bytes_ok (rlp_string b).
Proof.
  intros Hok Hl. pose proof (encodeString_spec b encbuf_reset Hl) as H.
  assert (bytes_ok (rlp_head 0x80 0xB7 (len b))) as Hh.
  { unfold rlp_head. pose proof (length_be_bytes (len b)). pose proof (nbytes_u64 (len b)).
    pose proof (be_bytes_ok (len b)).
    case_if; apply bytes_ok_cons; split; try done; try apply bytes_ok_nil; unfold is_byte; lia. }
  destruct b as [|b0 [|b1 b]]; cbn in *; [by apply bytes_ok_app| |by apply bytes_ok_app].
  case_if; [done|]. by apply bytes_ok_app.
Qed.

Lemma AppendUint64_spec b i :
  is_u64 i → AppendUint64 b i = b ++ rlp_string (be_bytes i).
Proof.
  intros Hi. pose proof (encodeUint_spec i encbuf_reset Hi) as H.
  unfold encodeUint in H. unfold AppendUint64. unfold is_u64 in Hi.
  destruct (i =? 0); [by injection H as <-|]. destruct (i <? 128) eqn:?; [by injection H as <-|].
  injection H as <-. unfold putint. repeat (case_if; [done|]). done.
Qed.

Lemma be_bytes_inj_u64 content :
  bytes_ok content → (∀ c cs, content = c :: cs → c ≠ 0) → len content ≤ 8 →
  is_u64 (be_decode content) ∧ be_bytes (be_decode content) = content.
Proof.
  intros Hok Hz Hl. pose proof (be_decode_bound content Hok) as Hb. split.
  - assert (256 ^ len content ≤ 256 ^ 8) by (apply Z.pow_le_mono_r; lia).
    change (256 ^ 8) with (2 ^ 64) in *. unfold is_u64. lia.
  - destruct content as [|c cs]; [done|]. apply be_bytes_decode; [done|]. by eapply Hz.
Qed.

(** The kind of a string with the given content. *)
Definition string_kind (content : bytes) : Kind :=
  match content with [c] => if c <? 128 then KByte else KString | _ => KString end.

Lemma string_kind_ok content : kind_ok (string_kind content) content.
Proof.
  destruct content as [|c0 [|c1 cs]]; cbn; [done| |done].
  destruct (c0 <? 128) eqn:?; bool_prop; cbn; [by eauto|]. by intros b [= <-].
Qed.

Lemma string_kind_not_list content : string_kind content ≠ KList.
Proof. unfold string_kind. by repeat case_match. Qed.

Lemma rlp_string_kind content : rlp_string content = encode_kind (string_kind content) content.
Proof.
  pose proof (string_kind_not_list content). by destruct (string_kind content).
Qed.

Lemma SplitString_encode content rest :
  bytes_ok (content ++ rest) → len content < 2 ^ 64 →
  SplitString (rlp_string content ++ rest) = Ok (content, rest).
Proof.
  intros Hok Hl. unfold SplitString.
  rewrite rlp_string_kind, Split_encode by eauto using string_kind_ok. cbn.
  by rewrite decide_False by apply string_kind_not_list.
Qed.

Lemma SplitString_inv b content rest :
  bytes_ok b → SplitString b = Ok (content, rest) →
  b = rlp_string content ++ rest ∧ bytes_ok content ∧ len content < 2 ^ 64.
Proof.
  intros Hok. unfold SplitString. destruct (Split b) as [[[k c] r]|] eqn:E; [|done]. cbn.
  case_decide as Hk'; [done|]. intros [= <- <-].
  destruct (Split_inv _ _ _ _ Hok E) as (-> & Hk & Hl).
  apply encode_kind_content_ok in Hok as [Hc _]%bytes_ok_app; [|done].
  split; [by destruct k|done].
Qed.

Lemma SplitUint64_inv b x rest :
  bytes_ok b → SplitUint64 b = Ok (x, rest) → is_u64 x ∧ b = rlp_string (be_bytes x) ++ rest.
Proof.
  intros Hok. unfold SplitUint64. destruct (SplitString b) as [[content r]|] eqn:E; [|done].
  destruct (SplitString_inv _ _ _ Hok E) as (-> & Hc & Hl). cbn.
  enough (∀ y, (∀ c cs, content = c :: cs → c ≠ 0) → len content ≤ 8 → y = be_decode content →
            Ok (y, r) = @Ok rlp_error _ (x, rest) →
            is_u64 x ∧ rlp_string content ++ r = rlp_string (be_bytes x) ++ rest) as Hfin.
  { destruct content as [|c0 [|c1 cs]].
    - apply Hfin; [done|cbn; lia|done].
    - case_if; [done|]. apply Hfin; [naive_solver|cbn; lia|cbn; lia].
    - case_if; [done|]. destruct (readSize _ _) as [y|] eqn:Er; [|done].
      destruct (readSize_inv (c0 :: c1 :: cs) (len (c0 :: c1 :: cs)) y) as (Hy & _ & Hbe);
        [done|cbn in *; lia|done|].
      rewrite Nat2Z.id, firstn_all in Hbe. apply Hfin; [|lia|].
      + intros c cs' E'. eapply (be_bytes_head y); [lia|]. by rewrite <- Hbe, E'.
      + by rewrite Hbe, be_decode_bytes by lia. }
  intros y Hz Hl8 -> [= <- <-]. destruct (be_bytes_inj_u64 content Hc Hz Hl8) as [Hu Hbe].
  by rewrite Hbe.
Qed.

Lemma SplitUint64_encode x rest :
  is_u64 x → bytes_ok rest → SplitUint64 (rlp_string (be_bytes x) ++ rest) = Ok (x, rest).
Proof.
  unfold is_u64. intros Hx Hr. pose proof (nbytes_u64 x Hx). pose proof (length_be_bytes x) as Hlx.
  unfold SplitUint64. rewrite SplitString_encode;
    [|apply bytes_ok_app; split; [apply be_bytes_ok|done]|lia].
  cbn. destruct (Z.eq_dec x 0) as [->|Hx0]; [done|].
  pose proof (be_decode_bytes x) as Hd. destruct (be_bytes x) as [|c0 [|c1 cs]] eqn:E.
  - cbn in Hd. lia.
  - pose proof (be_bytes_head x c0 [] ltac:(lia) E). cbn in *. zcmp. do 2 f_equal. lia.
  - zcmp. rewrite <- E. rewrite <- (app_nil_r (be_bytes x)) at 1.
    rewrite readSize_be; [done|apply bytes_ok_nil|].
    pose proof (nbytes_spec x). cbn [length] in Hlx.
    assert (256 ^ 1 ≤ 256 ^ (Z.of_nat (nbytes x) - 1)) by (apply Z.pow_le_mono_r; lia). lia.
Qed.

(** ** Lemmas: sequences of values *)

(** A sequence of values, by kind and content, and its encoding. *)
Definition encode_all (l : list (Kind * bytes)) : bytes :=
  concat ((λ kc, encode_kind kc.1 kc.2) <$> l).
Definition all_ok (l : list (Kind * bytes)) : Prop :=
  Forall (λ kc, kind_ok kc.1 kc.2 ∧ len kc.2 < 2 ^ 64) l.

Lemma readKind_first k c rest :
  bytes_ok (encode_kind k c ++ rest) → kind_ok k c → len c < 2 ^ 64 →
  ∃ t, readKind (encode_kind k c ++ rest) = Ok (k, t, len c)
    ∧ Z.to_nat (t + len c) = length (encode_kind k c).
Proof.
  intros Hok Hk Hl. exists (len (tag_of k c)).
  split; [apply readKind_encode; try done; by eapply encode_kind_content_ok|].
  by rewrite encode_kind_length.
Qed.

Lemma CountValues_loop_encode fuel i l :
  bytes_ok (encode_all l) → all_ok l → (length (encode_all l) ≤ fuel)%nat →
  CountValues_loop fuel i (encode_all l) = Ok (i + len l).
Proof.
  revert fuel i. induction l as [|[k c] l IH]; intros fuel i Hok Hall Hf.
  - destruct fuel; cbn; f_equal; lia.
  - apply Forall_cons in Hall as [[Hk Hl] Hall]. unfold encode_all in *; cbn in *.
    fold (encode_all l) in *.
    pose proof (encode_kind_nonempty k c) as Hne. rewrite length_app in Hf.
    destruct (readKind_first k c (encode_all l) Hok Hk Hl) as (t & Hr & Ht).
    apply bytes_ok_app in Hok as [_ Hok].
    destruct fuel as [|fuel]; [destruct (encode_kind k c); [done|cbn in Hf; lia]|].
    destruct (encode_kind k c ++ encode_all l) eqn:E.
    { by apply app_eq_nil in E as [? _]. }
    cbn [CountValues_loop]. rewrite Hr. cbn [mbind result_bind]. rewrite Ht, <- E, drop_app_length.
    rewrite IH; [f_equal; lia|done|done|].
    destruct (encode_kind k c); [done|cbn in Hf; lia].
Qed.

Lemma CountValues_loop_inv fuel i b n :
  bytes_ok b → CountValues_loop fuel i b = Ok n →
  ∃ l, b = encode_all l ∧ all_ok l ∧ n = i + len l.
Proof.
  revert i b. induction fuel as [|fuel IH]; intros i b Hok H.
  - destruct b; [|done]. injection H as <-. exists []. split; [done|]. split; [constructor|cbn; lia].
  - destruct b as [|b0 b'] eqn:Eb.
    { injection H as <-. exists []. split; [done|]. split; [constructor|cbn; lia]. }
    rewrite <- Eb in *. cbn [CountValues_loop] in H. rewrite Eb in H at 1.
    destruct (readKind b) as [[[k t] s]|] eqn:Er; [|done]. cbn in H.
    destruct (readKind_inv _ _ _ _ Hok Er) as (c & r & E & Hk & -> & Hl & ->).
    rewrite <- encode_kind_length in H by done. rewrite E, drop_app_length in H.
    rewrite E in Hok. apply bytes_ok_app in Hok as [_ Hok].
    destruct (IH _ _ Hok H) as (l & -> & Hall & ->).
    exists ((k, c) :: l). split; [done|]. split; [by constructor|cbn; lia].
Qed.

(** [for it.Next() { ... it.Value() ... }], at most [fuel] rounds, stopping at
    an iterator error. *)
Fixpoint iterate (fuel : nat) (it : listIterator) : list bytes * option rlp_error :=
  match fuel with
  | O => ([], None)
  | S fuel =>
      match iterator_Next it with
      | (false, _) => ([], None)
      | (true, it) =>
          match it_err it with
          | Some e => ([], Some e)
          | None => let '(vs, e) := iterate fuel it in (it_next it :: vs, e)
          end
      end
  end.

Lemma iterate_encode fuel l v e :
  bytes_ok (encode_all l) → all_ok l → (length (encode_all l) ≤ fuel)%nat →
  iterate fuel (ListIterator (encode_all l) v e) = ((λ kc, encode_kind kc.1 kc.2) <$> l, None).
Proof.
  revert fuel v e. induction l as [|[k c] l IH]; intros fuel v e Hok Hall Hf.
  - by destruct fuel.
  - apply Forall_cons in Hall as [[Hk Hl] Hall]. unfold encode_all in *; cbn in *.
    fold (encode_all l) in *.
    pose proof (encode_kind_nonempty k c) as Hne. rewrite length_app in Hf.
    destruct (readKind_first k c (encode_all l) Hok Hk Hl) as (t & Hr & Ht).
    apply bytes_ok_app in Hok as [_ Hok].
    destruct fuel as [|fuel]; [destruct (encode_kind k c); [done|cbn in Hf; lia]|].
    cbn [iterate]. unfold iterator_Next. cbn [it_data].
    destruct (encode_kind k c ++ encode_all l) eqn:E.
    { by apply app_eq_nil in E as [? _]. }
    rewrite Hr, Ht, <- E, drop_app_length, take_app_length. cbn [it_err it_next].
    rewrite IH; [done|done|done|]. destruct (encode_kind k c); [done|cbn in Hf; lia].
Qed.

(** ** Properties *)

(** [Split] accepts exactly the canonical encodings.  It succeeds on a byte
    slice iff the slice starts with the (unique) canonical encoding of the
    returned kind and content, followed by the returned rest. *)
Theorem Split_canonical (b : bytes) (k : Kind) (content rest : bytes) :
  bytes_ok b →
  Split b = Ok (k, content, rest) ↔
  b = encode_kind k content ++ rest ∧ kind_ok k content ∧ len content < 2 ^ 64.
Proof.
  intros Hok. split; [by apply Split_inv|]. intros (-> & Hk & Hl).
  apply Split_encode; [|done|done]. by eapply encode_kind_content_ok.
Qed.

Lemma Split_canonical_witness : Split [0x83; 1; 2; 3; 9] = Ok (KString, [1; 2; 3], [9]).
Proof.
  apply (Split_canonical [0x83; 1; 2; 3; 9] KString [1; 2; 3] [9]).
  - wf_concrete.
  - split; [reflexivity|]. split; [intros b; discriminate|reflexivity].
Defined.

(** [SplitUint64] is the exact inverse of [AppendUint64]: it returns [x]
    and [rest] iff the input is the integer encoding of the uint64 [x] followed
    by [rest]; every non-canonical integer (leading zeros, a size byte for a
    single byte, more than 64 bits) is rejected. *)
Theorem SplitUint64_AppendUint64 (b : bytes) (x : Z) (rest : bytes) :
  bytes_ok b →
  SplitUint64 b = Ok (x, rest) ↔ is_u64 x ∧ b = AppendUint64 [] x ++ rest.
Proof.
  intros Hok. split.
  - intros H. destruct (SplitUint64_inv _ _ _ Hok H) as [Hx ->].
    by rewrite AppendUint64_spec.
  - intros [Hx ->]. rewrite AppendUint64_spec in * by done.
    apply SplitUint64_encode; [done|]. by apply bytes_ok_app in Hok as [_ ?].
Qed.

Lemma SplitUint64_AppendUint64_witness : SplitUint64 [0x82; 4; 0; 7] = Ok (1024, [7]).
Proof.
  apply (SplitUint64_AppendUint64 [0x82; 4; 0; 7] 1024 [7]).
  - wf_concrete.
  - split; [wf_concrete|reflexivity].
Defined.

(** [CountValues] counts the values of a concatenation of canonical
    encodings, and succeeds on nothing else. *)
Theorem CountValues_counts (b : bytes) (n : Z) :
  bytes_ok b →
  CountValues b = Ok n ↔ ∃ l, b = encode_all l ∧ all_ok l ∧ n = len l.
Proof.
  intros Hok. split.
  - intros H. apply CountValues_loop_inv in H as (l & -> & Hall & ->); [|done].
    exists l. repeat split; try done; lia.
  - intros (l & -> & Hall & ->). unfold CountValues. by rewrite CountValues_loop_encode.
Qed.

Lemma CountValues_counts_witness : CountValues [0x83; 1; 2; 3; 9; 0xC1; 5] = Ok 3.
Proof.
  apply (CountValues_counts [0x83; 1; 2; 3; 9; 0xC1; 5] 3).
  - wf_concrete.
  - exists [(KString, [1; 2; 3]); (KByte, [9]); (KList, [5])].
    split; [reflexivity|]. split; [|reflexivity].
    constructor; [split; [intros b; discriminate|reflexivity]|].
    constructor; [split; [exists 9; split; [reflexivity|lia]|reflexivity]|].
    constructor; [split; [exact I|reflexivity]|constructor].
Defined.

(** iterating over an encoded list with [NewListIterator] and [Next]
    yields the encodings of its elements, in order and without error. *)
Theorem listIterator_elements (l : list (Kind * bytes)) (rest : bytes) :
  bytes_ok (rlp_list (encode_all l) ++ rest) → all_ok l → len (encode_all l) < 2 ^ 64 →
  ∃ it, NewListIterator (rlp_list (encode_all l) ++ rest) = Ok it ∧
    ∀ fuel, (length (encode_all l) ≤ fuel)%nat →
      iterate fuel it = ((λ kc, encode_kind kc.1 kc.2) <$> l, None).
Proof.
  intros Hok Hall Hl. pose proof (encode_kind_content_ok KList _ _ I Hok) as Hc.
  pose proof (readKind_encode KList (encode_all l) rest Hc I Hl) as Hr.
  pose proof (Split_encode KList (encode_all l) rest Hc I Hl) as Hs.
  unfold Split in Hs. cbn [encode_kind] in *. rewrite Hr in Hs. injection Hs as Hs _.
  unfold NewListIterator. rewrite Hr. cbn [mbind result_bind]. rewrite decide_True by done.
  eexists. split; [done|]. intros fuel Hf. cbn [tag_of]. rewrite Hs.
  apply iterate_encode; try done. by apply bytes_ok_app in Hc as [? _].
Qed.

Lemma listIterator_elements_witness :
  ∃ it, NewListIterator [0xC3; 0x81; 200; 7] = Ok it ∧
    iterate 3 it = ([[0x81; 200]; [7]], None).
Proof.
  destruct (listIterator_elements [(KString, [200]); (KByte, [7])] []) as (it & H1 & H2).
  - wf_concrete.
  - constructor; [split; [intros b [= <-]; lia|reflexivity]|].
    constructor; [split; [exists 7; split; [reflexivity|lia]|reflexivity]|constructor].
  - reflexivity.
  - exists it. split; [exact H1|]. exact (H2 3%nat (le_n _)).
Defined.

(** On data that does not start with a valid value, [Next] reports [true] and
    leaves the data where it was: the loop advances only on valid values. *)
Lemma iterator_Next_stuck it e :
  it_data it ≠ [] → readKind (it_data it) = Err e →
  iterator_Next it = (true, ListIterator (it_data it) [] (Some e)).
Proof. intros Hd Hr. unfold iterator_Next. destruct (it_data it) eqn:E; [done|]. by rewrite Hr. Qed.
