(* ===== verification/RlpDecode.v ===== *)
(** * RLP decoder (src/rlp/decode.go)

    [Stream] as an explicit state machine (input, input limit, cached header of
    the value ahead, stack of open lists) and the decoders [makeDecoder]
    selects for a Go type, over a small state-and-error monad. *)

From S2P Require Import Prelude RlpEncode RlpRaw.

(** ** Stream state *)

Record listpos := Listpos { lp_pos : Z; lp_size : Z }.

Record Stream := MkStream {
  s_r : bytes;                    (** unread input *)
  s_remaining : Z;                (** bytes that may still be read, if limited *)
  s_limited : bool;
  s_kind : option Kind;           (** kind of value ahead; [None] is -1 *)
  s_size : Z;                     (** size of value ahead *)
  s_byteval : Z;                  (** value of single byte in type tag *)
  s_kinderr : option rlp_error;   (** error from last readKind *)
  s_stack : list listpos          (** innermost list first *)
}.

Definition set_kind (k : option Kind) (s : Stream) : Stream :=
  MkStream (s_r s) (s_remaining s) (s_limited s) k (s_size s) (s_byteval s) (s_kinderr s) (s_stack s).
Definition set_size (n : Z) (s : Stream) : Stream :=
  MkStream (s_r s) (s_remaining s) (s_limited s) (s_kind s) n (s_byteval s) (s_kinderr s) (s_stack s).
Definition set_byteval (b : Z) (s : Stream) : Stream :=
  MkStream (s_r s) (s_remaining s) (s_limited s) (s_kind s) (s_size s) b (s_kinderr s) (s_stack s).
Definition set_kinderr (e : option rlp_error) (s : Stream) : Stream :=
  MkStream (s_r s) (s_remaining s) (s_limited s) (s_kind s) (s_size s) (s_byteval s) e (s_stack s).
Definition set_stack (l : list listpos) (s : Stream) : Stream :=
  MkStream (s_r s) (s_remaining s) (s_limited s) (s_kind s) (s_size s) (s_byteval s) (s_kinderr s) l.
Definition set_r (r : bytes) (s : Stream) : Stream :=
  MkStream r (s_remaining s) (s_limited s) (s_kind s) (s_size s) (s_byteval s) (s_kinderr s) (s_stack s).
Definition set_remaining (n : Z) (s : Stream) : Stream :=
  MkStream (s_r s) n (s_limited s) (s_kind s) (s_size s) (s_byteval s) (s_kinderr s) (s_stack s).

(** A stream operation: the value or the error, and the stream after it. *)
Definition M (A : Type) : Type := Stream → result rlp_error A * Stream.

Definition ret {A} (a : A) : M A := λ s, (Ok a, s).
Definition fail {A} (e : rlp_error) : M A := λ s, (Err e, s).
Definition bind {A B} (m : M A) (f : A → M B) : M B := λ s,
  match m s with
  | (Ok a, s) => f a s
  | (Err e, s) => (Err e, s)
  end.
(** Run [m] and look at its result, error or not ([x, err := m()]). *)
Definition attempt {A} (m : M A) : M (result rlp_error A) := λ s,
  let '(r, s) := m s in (Ok r, s).
Definition modify (f : Stream → Stream) : M unit := λ s, (Ok tt, f s).
Definition gets {A} (f : Stream → A) : M A := λ s, (Ok (f s), s).

Declare Scope stream_scope.
Delimit Scope stream_scope with stream.
Notation "'let!' x := m 'in' k" := (bind m (λ x, k))
  (at level 200, x pattern, m at level 100, k at level 200) : stream_scope.
Notation "m ;; k" := (bind m (λ _, k)) (at level 100, right associativity) : stream_scope.
Local Open Scope stream_scope.

(** [Reset(bytes.NewReader(r), inputLimit)]: without an explicit limit the one
    of the byte reader is used. *)
Definition Reset (r : bytes) (inputLimit : Z) : Stream :=
  MkStream r (if 0 <? inputLimit then inputLimit else len r) true None 0 0 None [].

Definition NewListStream (r : bytes) (n : Z) : Stream :=
  set_size n (set_kind (Some KList) (Reset r n)).

(** ** Reading input *)

Definition willRead (n : Z) : M unit := λ s,
  let s := set_kind None s in
  let ok (s : Stream) :=
    if s_limited s then
      if s_remaining s <? n then (Err ErrValueTooLarge, s)
      else (Ok tt, set_remaining (u64 (s_remaining s - n)) s)
    else (Ok tt, s) in
  match s_stack s with
  | tos :: rest =>
      if u64 (lp_size tos - lp_pos tos) <? n then (Err ErrElemTooLarge, s)
      else ok (set_stack (Listpos (u64 (lp_pos tos + n)) (lp_size tos) :: rest) s)
  | [] => ok s
  end.

Definition readByte : M Z :=
  willRead 1 ;;
  let! r := gets s_r in
  match r with
  | [] => fail ErrUnexpectedEOF
  | b :: r => modify (set_r r) ;; ret b
  end.

(** [readFull(buf)] for a buffer of [n] bytes; a short read consumes what
    there is. *)
Definition readFull (n : Z) : M bytes :=
  willRead n ;;
  let! r := gets s_r in
  if n <=? len r then
    modify (set_r (drop (Z.to_nat n) r)) ;; ret (take (Z.to_nat n) r)
  else modify (set_r []) ;; fail ErrUnexpectedEOF.

Definition readUint (size : Z) : M Z :=
  if size =? 0 then modify (set_kind None) ;; ret 0
  else if size =? 1 then readByte
  else
    let! buf := readFull size in
    if at_ buf 0 =? 0 then fail ErrCanonSize else ret (be_decode buf).

(** Kind and size of the header at the current position, with the error that
    is kept along with them. *)
Definition readKind_ : M (Kind * Z * option rlp_error) :=
  let! rb := attempt readByte in
  match rb with
  | Err e =>
      let! stk := gets s_stack in
      let e := match stk, e with
               | [], ErrUnexpectedEOF => ErrEOF
               | [], ErrValueTooLarge => ErrEOF
               | _, e => e
               end in
      ret (KByte, 0, Some e)
  | Ok b =>
      modify (set_byteval 0) ;;
      let long k n :=
        let! rs := attempt (readUint n) in
        match rs with
        | Err e => ret (k, 0, Some e)
        | Ok size => ret (k, size, if size <? 56 then Some ErrCanonSize else None)
        end in
      if b <? 0x80 then modify (set_byteval b) ;; ret (KByte, 0, None)
      else if b <? 0xB8 then ret (KString, b - 0x80, None)
      else if b <? 0xC0 then long KString (b - 0xB7)
      else if b <? 0xF8 then ret (KList, b - 0xC0, None)
      else long KList (b - 0xF7)
  end.

Definition at_list_end (s : Stream) : bool :=
  match s_stack s with tos :: _ => lp_pos tos =? lp_size tos | [] => false end.

(** The bounds check of [Kind] on a header just read. *)
Definition kind_bounds (s : Stream) : option rlp_error :=
  match s_stack s with
  | [] => if s_limited s && (s_remaining s <? s_size s) then Some ErrValueTooLarge else None
  | tos :: _ =>
      if u64 (lp_size tos - lp_pos tos) <? s_size s then Some ErrElemTooLarge else None
  end.

Definition StreamKind : M (Kind * Z) :=
  let cached (s : Stream) :=
    match s_kinderr s, s_kind s with
    | Some e, _ => (Err e, s)
    | None, Some k => (Ok (k, s_size s), s)
    | None, None => (Ok (KByte, s_size s), s)
    end in
  λ s,
  match s_kind s with
  | Some _ => cached s
  | None =>
      let s := set_kinderr None s in
      if at_list_end s then (Err EOL, s)
      else
        match readKind_ s with
        | (Ok (k, size, e), s) =>
            let s := set_kinderr e (set_size size (set_kind (Some k) s)) in
            match e with
            | Some _ => cached s
            | None => cached (set_kinderr (kind_bounds s) s)
            end
        | (Err e, s) => (Err e, s)
        end
  end.

(** ** Reading values *)

Definition StreamBytes : M bytes :=
  let! (kind, size) := StreamKind in
  match kind with
  | KByte => modify (set_kind None) ;; let! b := gets s_byteval in ret [b]
  | KString =>
      let! b := readFull size in
      if (size =? 1) && (at_ b 0 <? 128) then fail ErrCanonSize else ret b
  | KList => fail ErrExpectedString
  end.

Definition StreamRaw : M bytes :=
  let! (kind, size) := StreamKind in
  match kind with
  | KByte => modify (set_kind None) ;; let! b := gets s_byteval in ret [b]
  | KString => let! buf := readFull size in ret (puthead 0x80 0xB7 size ++ buf)
  | KList => let! buf := readFull size in ret (puthead 0xC0 0xF7 size ++ buf)
  end.

Definition StreamUint (maxbits : Z) : M Z :=
  let! (kind, size) := StreamKind in
  match kind with
  | KByte =>
      let! b := gets s_byteval in
      if b =? 0 then fail ErrCanonInt else modify (set_kind None) ;; ret b
  | KString =>
      if maxbits / 8 <? size then fail errUintOverflow
      else
        let! rv := attempt (readUint size) in
        match rv with
        | Err ErrCanonSize => fail ErrCanonInt
        | Err e => fail e
        | Ok v => if (0 <? size) && (v <? 128) then fail ErrCanonSize else ret v
        end
  | KList => fail ErrExpectedString
  end.

Definition StreamBool : M bool :=
  let! num := StreamUint 8 in
  match num with
  | 0 => ret false
  | 1 => ret true
  | _ => fail (ErrInvalidBool num)
  end.

Definition StreamList : M Z :=
  let! (kind, size) := StreamKind in
  match kind with
  | KList =>
      modify (λ s, set_size 0 (set_kind None (set_stack (Listpos 0 size :: s_stack s) s))) ;;
      ret size
  | _ => fail ErrExpectedList
  end.

Definition StreamListEnd : M unit := λ s,
  match s_stack s with
  | [] => (Err errNotInList, s)
  | tos :: rest =>
      if lp_pos tos =? lp_size tos then
        let rest := match rest with
                    | [] => []
                    | up :: rest => Listpos (u64 (lp_pos up + lp_size tos)) (lp_size up) :: rest
                    end in
        (Ok tt, set_size 0 (set_kind None (set_stack rest s)))
      else (Err errNotAtEOL, s)
  end.

(** ** Typed decoding *)

(** The Go types [makeDecoder] distinguishes.  A struct type lists its fields;
    a last field tagged "tail" is kept apart.  [TNilPtr k t] is a pointer field
    tagged "nil", decoding an empty value of kind [k] as nil. *)
Inductive rtype :=
| TRaw
| TBigInt
| TPtr (t : rtype)
| TNilPtr (nilKind : Kind) (t : rtype)
| TUint (bits : Z)
| TBool
| TString
| TByteSlice
| TByteArray (n : nat)
| TSlice (t : rtype)
| TArray (n : nat) (t : rtype)
| TStruct (fields : list rtype) (tail : option rtype)
| TInterface.

Definition wrapStreamError (e : rlp_error) : rlp_error :=
  match e with
  | ErrCanonInt => decodeError msg_non_canonical_int
  | ErrCanonSize => decodeError msg_non_canonical_size
  | ErrExpectedList => decodeError msg_expected_list
  | ErrExpectedString => decodeError msg_expected_string
  | errUintOverflow => decodeError msg_string_too_long
  | errNotAtEOL => decodeError msg_too_many_elements
  | e => e
  end.
Definition wrapped {A} (m : M A) : M A := λ s,
  match m s with
  | (Err e, s) => (Err (wrapStreamError e), s)
  | r => r
  end.

(** The element loop of a slice: decode until the enclosing list ends.  Growing
    the Go slice does not fail and is not modelled. *)
Fixpoint decodeSliceElems (fuel : nat) (elemdec : M value) : M (list value) :=
  match fuel with
  | O => fail ErrOutOfFuel
  | S fuel =>
      let! rv := attempt elemdec in
      match rv with
      | Err EOL => ret []
      | Err e => fail e
      | Ok v => let! vs := decodeSliceElems fuel elemdec in ret (v :: vs)
      end
  end.

Definition decodeListSlice (fuel : nat) (elemdec : M value) : M value :=
  let! size := wrapped StreamList in
  if size =? 0 then StreamListEnd ;; ret (VSlice false [])
  else
    let! vs := decodeSliceElems fuel elemdec in
    StreamListEnd ;; ret (VSlice false vs).

Fixpoint decodeArrayElems (n : nat) (elemdec : M value) : M (list value) :=
  match n with
  | O => ret []
  | S n =>
      let! rv := attempt elemdec in
      match rv with
      | Err EOL => fail (decodeError msg_list_too_few)
      | Err e => fail e
      | Ok v => let! vs := decodeArrayElems n elemdec in ret (v :: vs)
      end
  end.

Definition decodeListArray (n : nat) (elemdec : M value) : M value :=
  wrapped StreamList ;;
  let! vs := decodeArrayElems n elemdec in
  wrapped StreamListEnd ;;
  ret (VSlice false vs).

Fixpoint decodeFields (fs : list (M value)) : M (list value) :=
  match fs with
  | [] => ret []
  | f :: fs =>
      let! rv := attempt f in
      match rv with
      | Err EOL => fail (decodeError msg_struct_too_few)
      | Err e => fail e
      | Ok v => let! vs := decodeFields fs in ret (v :: vs)
      end
  end.

Definition decodeStruct (fs : list (M value)) : M value :=
  wrapped StreamList ;;
  let! vs := decodeFields fs in
  wrapped StreamListEnd ;;
  ret (VStruct vs).

Definition decodeBigInt : M value :=
  let! b := wrapped StreamBytes in
  match b with
  | 0 :: _ => fail (wrapStreamError ErrCanonInt)
  | _ => ret (VBigIntPtr (Some (be_decode b)))
  end.

(** The result of [s.Uint()] is used without looking at its error. *)
Definition decodeByteArray (vlen : nat) : M value :=
  let! (kind, size) := StreamKind in
  match kind with
  | KByte =>
      if (vlen =? 0)%nat then fail (decodeError msg_string_too_long)
      else if (1 <? vlen)%nat then fail (decodeError msg_string_too_short)
      else
        let! rv := attempt (StreamUint 64) in
        ret (VByteArray false [match rv with Ok bv => u8 bv | Err _ => 0 end])
  | KString =>
      if Z.of_nat vlen <? size then fail (decodeError msg_string_too_long)
      else if size <? Z.of_nat vlen then fail (decodeError msg_string_too_short)
      else
        let! slice := readFull (Z.of_nat vlen) in
        if (size =? 1) && (at_ slice 0 <? 128) then fail (wrapStreamError ErrCanonSize)
        else ret (VByteArray false slice)
  | KList => fail (wrapStreamError ErrExpectedString)
  end.

Definition decodeNilPtr (nilKind : Kind) (dec : M value) : M value :=
  let! (kind, size) := wrapped StreamKind in
  if negb (bool_decide (kind = KByte)) && (size =? 0) then
    if bool_decide (kind = nilKind) then modify (set_kind None) ;; ret (VPtr nilKind None)
    else fail (decodeError msg_wrong_empty_kind)
  else let! v := dec in ret (VPtr nilKind (Some v)).

Definition decodeInterface (dec_list : M value) : M value :=
  let! (kind, _) := StreamKind in
  match kind with
  | KList => let! v := dec_list in ret (VInterface (Some v))
  | _ => let! b := StreamBytes in ret (VInterface (Some (VBytes b)))
  end.

(** [defaultNilKind]: how a nil pointer to the type is encoded. *)
Definition defaultNilKind (t : rtype) : Kind :=
  match t with
  | TRaw | TUint _ | TBool | TString | TByteSlice | TByteArray _ => KString
  | _ => KList
  end.

(** [makeDecoder] and the decoders it returns. *)
Fixpoint decode (fuel : nat) (t : rtype) : M value :=
  match fuel with
  | O => fail ErrOutOfFuel
  | S fuel =>
      match t with
      | TRaw => let! b := StreamRaw in ret (VRaw b)
      | TBigInt => decodeBigInt
      | TPtr t => let! v := decode fuel t in ret (VPtr (defaultNilKind t) (Some v))
      | TNilPtr k t => decodeNilPtr k (decode fuel t)
      | TUint bits => let! n := wrapped (StreamUint bits) in ret (VUint n)
      | TBool => let! b := wrapped StreamBool in ret (VBool b)
      | TString => let! b := wrapped StreamBytes in ret (VString b)
      | TByteSlice => let! b := wrapped StreamBytes in ret (VBytes b)
      | TByteArray n => decodeByteArray n
      | TSlice t => decodeListSlice fuel (decode fuel t)
      | TArray n t => decodeListArray n (decode fuel t)
      | TStruct fields tail =>
          decodeStruct ((decode fuel <$> fields) ++
            match tail with
            | None => []
            | Some t =>
                [let! vs := decodeSliceElems fuel (decode fuel t) in ret (VSlice true vs)]
            end)
      | TInterface => decodeInterface (decodeListSlice fuel (decode fuel TInterface))
      end
  end.

(** Nesting depth of a type: fuel the decoder spends without reading input. *)
Fixpoint tdepth (t : rtype) : nat :=
  match t with
  | TPtr t | TNilPtr _ t | TSlice t | TArray _ t => S (tdepth t)
  | TStruct fs tail =>
      S (Nat.max (list_max (tdepth <$> fs)) (match tail with Some t => tdepth t | None => 0 end))
  | _ => 1
  end.

Definition decode_fuel (t : rtype) (n : nat) : nat := tdepth t + 2 * n + 1.

Definition StreamDecode (t : rtype) : M value := λ s,
  decode (decode_fuel t (length (s_r s))) t s.

Definition DecodeBytes (b : bytes) (t : rtype) : result rlp_error value :=
  match StreamDecode t (Reset b (len b)) with
  | (Err e, _) => Err e
  | (Ok v, s) => if 0 <? len (s_r s) then Err ErrMoreThanOneValue else Ok v
  end.

(** ** Lemmas: stream states *)

(** Move [n] bytes forward in the innermost list. *)
Definition bump (n : Z) (l : list listpos) : list listpos :=
  match l with [] => [] | tos :: rest => Listpos (lp_pos tos + n) (lp_size tos) :: rest end.

(** Account for [n] bytes read. *)
Definition adv (n : Z) (s : Stream) : Stream :=
  set_kind None (set_remaining (s_remaining s - n) (set_stack (bump n (s_stack s)) s)).

Definition listpos_ok (l : listpos) : Prop := 0 ≤ lp_pos l ≤ lp_size l ∧ lp_size l < 2 ^ 64.

(** A stream over a byte slice, between two values. *)
Record stream_wf (s : Stream) : Prop := {
  wf_r : bytes_ok (s_r s);
  wf_limited : s_limited s = true;
  wf_remaining : 0 ≤ s_remaining s < 2 ^ 64;
  wf_stack : Forall listpos_ok (s_stack s);
  wf_bound : match s_stack s with
             | [] => True
             | tos :: _ => lp_size tos - lp_pos tos ≤ s_remaining s
             end
}.

(** [n] more bytes fit into the input limit and the innermost list. *)
Definition fits (s : Stream) (n : Z) : Prop :=
  n ≤ s_remaining s ∧
  match s_stack s with [] => True | tos :: _ => n ≤ lp_size tos - lp_pos tos end.

(** [s'] is [s] after reading the complete values encoded by [bs]. *)
Record consumed (s : Stream) (bs : bytes) (s' : Stream) : Prop := {
  c_r : s_r s = bs ++ s_r s';
  c_remaining : s_remaining s' = s_remaining s - len bs;
  c_limited : s_limited s' = s_limited s;
  c_kind : s_kind s' = None;
  c_stack : s_stack s' = bump (len bs) (s_stack s)
}.

Lemma bump_0 l : bump 0 l = l.
Proof. destruct l as [|[p n] l]; cbn; [done|]. by rewrite Z.add_0_r. Qed.
Lemma bump_bump a b l : bump a (bump b l) = bump (b + a) l.
Proof. destruct l as [|[p n] l]; cbn; [done|]. by rewrite Z.add_assoc. Qed.

Lemma adv_adv a b s : adv a (adv b s) = adv (b + a) s.
Proof.
  destruct s; unfold adv, set_stack, set_kind, set_remaining; cbn. rewrite bump_bump. f_equal. lia.
Qed.

Lemma consumed_nil s : s_kind s = None → consumed s [] s.
Proof. split; cbn; try done; [lia|by rewrite bump_0]. Qed.

Lemma consumed_trans s1 s2 s3 a b :
  consumed s1 a s2 → consumed s2 b s3 → consumed s1 (a ++ b) s3.
Proof.
  intros [] []; split; rewrite ?length_app; try congruence.
  - rewrite <- app_assoc. congruence.
  - lia.
  - rewrite c_stack1, c_stack0, bump_bump. f_equal. lia.
Qed.

Lemma fits_split s s' a n :
  consumed s a s' → fits s (len a + n) ↔ fits s (len a + n) ∧ fits s' n.
Proof.
  intros []. unfold fits. rewrite c_remaining0, c_stack0.
  destruct (s_stack s) as [|[p z] l]; cbn; intuition lia.
Qed.

Lemma fits_join s s' a n : consumed s a s' → fits s' n → fits s (len a + n).
Proof.
  intros []. unfold fits. rewrite c_remaining0, c_stack0.
  destruct (s_stack s) as [|[p z] l]; cbn; intuition lia.
Qed.

Lemma fits_le s n m : fits s n → m ≤ n → fits s m.
Proof. unfold fits. destruct (s_stack s); intuition lia. Qed.

Lemma fits_u64 s n : stream_wf s → fits s n → n < 2 ^ 64.
Proof. intros [] [? _]. lia. Qed.

Lemma adv_wf n s : stream_wf s → 0 ≤ n → fits s n → stream_wf (adv n s).
Proof.
  intros [] Hn [Hr Hf]. split; cbn; try done; [lia|..];
    destruct (s_stack s) as [|[p z] l]; cbn in *; try done; [|lia].
  apply Forall_cons in wf_stack0 as [[??] ?]. constructor; [|done].
  unfold listpos_ok; cbn in *. lia.
Qed.

Lemma consumed_wf s a s' : stream_wf s → fits s (len a) → consumed s a s' → stream_wf s'.
Proof.
  intros Hwf Hf Hc. pose proof (adv_wf (len a) s Hwf ltac:(lia) Hf) as [].
  destruct Hc, Hwf. split; cbn in *; try congruence.
  - rewrite c_r0 in wf_r1. by apply bytes_ok_app in wf_r1 as [_ ?].
  - by rewrite c_stack0, c_remaining0.
Qed.

(** ** Lemmas: reading bytes *)

Lemma willRead_ok n s :
  stream_wf s → 0 ≤ n → fits s n → willRead n s = (Ok tt, adv n s).
Proof.
  intros [] Hn [Hr Hf]. unfold willRead. destruct s as [r rem lim k sz bv ke st]; cbn in *.
  destruct st as [|[p z] st]; cbn in *.
  - rewrite wf_limited0. zcmp. unfold adv, set_remaining; cbn.
    rewrite u64_small by (unfold is_u64; lia). done.
  - apply Forall_cons in wf_stack0 as [[??] ?]; cbn in *.
    rewrite !u64_small by (unfold is_u64; lia). zcmp. rewrite wf_limited0. zcmp. done.
Qed.

Lemma willRead_inv n s s' :
  stream_wf s → 0 ≤ n → willRead n s = (Ok tt, s') → fits s n ∧ s' = adv n s.
Proof.
  intros Hwf Hn H. assert (fits s n) as Hf; [|by rewrite willRead_ok in H by done; simplify_eq].
  destruct Hwf. unfold willRead in H. unfold fits.
  destruct s as [r rem lim k sz bv ke st]; cbn in *. rewrite wf_limited0 in H.
  destruct st as [|[p z] st]; cbn in *.
  - destruct (rem <? n) eqn:?; bool_prop; [done|]. split; [lia|done].
  - apply Forall_cons in wf_stack0 as [[??] ?]; cbn in *.
    rewrite u64_small in H by (unfold is_u64; lia).
    destruct (z - p <? n) eqn:?; [done|]. cbn in H.
    destruct (rem <? n) eqn:?; bool_prop; [done|]. lia.
Qed.

Lemma willRead_not_eol n s : (willRead n s).1 ≠ Err EOL.
Proof. unfold willRead. repeat case_match; cbn; done. Qed.

(** State after reading [bs] as raw bytes. *)
Definition eat (bs rest : bytes) (s : Stream) : Stream := set_r rest (adv (len bs) s).

Lemma eat_consumed bs rest s : s_r s = bs ++ rest → consumed s bs (eat bs rest s).
Proof. intros H. by split. Qed.

Lemma eat_wf bs rest s :
  stream_wf s → s_r s = bs ++ rest → fits s (len bs) → stream_wf (eat bs rest s).
Proof. intros Hwf Hr Hf. eapply consumed_wf; [done|exact Hf|]. by apply eat_consumed. Qed.

Lemma readByte_ok b rest s :
  stream_wf s → s_r s = b :: rest → fits s 1 → readByte s = (Ok b, eat [b] rest s).
Proof.
  intros Hwf Hr Hf. unfold readByte, bind. rewrite willRead_ok by (done || lia).
  unfold gets; cbn. by rewrite Hr.
Qed.

Lemma readByte_inv b s s' :
  stream_wf s → readByte s = (Ok b, s') →
  ∃ rest, s_r s = b :: rest ∧ fits s 1 ∧ s' = eat [b] rest s.
Proof.
  intros Hwf. unfold readByte, bind. destruct (willRead 1 s) as [[[]|] s1] eqn:E; [|done].
  apply willRead_inv in E as [Hf ->]; [|done|lia]. cbn.
  destruct (s_r s) as [|b0 r] eqn:Er; cbn; [done|]. intros [= <- <-]. eauto.
Qed.

Lemma readFull_ok bs rest s :
  stream_wf s → s_r s = bs ++ rest → fits s (len bs) →
  readFull (len bs) s = (Ok bs, eat bs rest s).
Proof.
  intros Hwf Hr Hf. unfold readFull, bind. rewrite willRead_ok by (done || lia).
  unfold gets; cbn. rewrite Hr, length_app. zcmp.
  unfold modify, ret; cbn. by rewrite Nat2Z.id, drop_app_length, take_app_length.
Qed.

Lemma readFull_inv n bs s s' :
  stream_wf s → 0 ≤ n → readFull n s = (Ok bs, s') →
  ∃ rest, s_r s = bs ++ rest ∧ len bs = n ∧ fits s n ∧ s' = eat bs rest s.
Proof.
  intros Hwf Hn. unfold readFull, bind. destruct (willRead n s) as [[[]|] s1] eqn:E; [|done].
  apply willRead_inv in E as [Hf ->]; [|done|done]. unfold gets; cbn.
  destruct (n <=? len (s_r s)) eqn:Hl; bool_prop; cbn; [|done]. intros [= <- <-].
  assert (len (take (Z.to_nat n) (s_r s)) = n) as Hlen by (rewrite length_take; lia).
  exists (drop (Z.to_nat n) (s_r s)). rewrite take_drop. split; [done|]. split; [done|].
  split; [done|]. unfold eat. by rewrite Hlen.
Qed.

Lemma bind_not_eol {A B} (m : M A) (f : A → M B) s :
  (m s).1 ≠ Err EOL → (∀ a s', m s = (Ok a, s') → (f a s').1 ≠ Err EOL) →
  (bind m f s).1 ≠ Err EOL.
Proof.
  intros Hm Hf. unfold bind. destruct (m s) as [[a|e] s'] eqn:E; cbn in *; [by apply Hf|].
  intros [= ->]. by apply Hm.
Qed.

Lemma readByte_not_eol s : (readByte s).1 ≠ Err EOL.
Proof.
  apply bind_not_eol; [apply willRead_not_eol|]. intros _ s' _. cbn. by destruct (s_r s').
Qed.
Lemma readFull_not_eol n s : (readFull n s).1 ≠ Err EOL.
Proof.
  apply bind_not_eol; [apply willRead_not_eol|]. intros _ s' _. cbn. by case_if.
Qed.
Lemma readUint_not_eol n s : (readUint n s).1 ≠ Err EOL.
Proof.
  unfold readUint. case_if; [done|]. case_if; [apply readByte_not_eol|].
  apply bind_not_eol; [apply readFull_not_eol|]. intros ? s' _. cbn. by case_if.
Qed.

(** ** Lemmas: headers *)

Lemma readUint_be n rest s :
  0 < n < 2 ^ 64 → stream_wf s → s_r s = be_bytes n ++ rest → fits s (len (be_bytes n)) →
  readUint (len (be_bytes n)) s = (Ok n, eat (be_bytes n) rest s).
Proof.
  intros Hn Hwf Hr Hf. pose proof (length_be_bytes n) as Hl. pose proof (nbytes_pos n ltac:(lia)).
  pose proof (be_decode_bytes n ltac:(lia)) as Hd. unfold readUint. zcmp.
  destruct (be_bytes n) as [|b0 [|b1 bs]] eqn:E; [cbn in Hl; lia|..]; cbn [length] in *.
  - rewrite (readByte_ok b0 rest) by done. cbn in Hd. by rewrite <- Hd.
  - zcmp. unfold bind. change (Z.of_nat (S (S (length bs)))) with (len (b0 :: b1 :: bs)).
    rewrite (readFull_ok (b0 :: b1 :: bs) rest) by done. cbn -[be_decode].
    pose proof (be_bytes_head n b0 (b1 :: bs) ltac:(lia) E). zcmp. by rewrite Hd.
Qed.

Lemma readUint_inv size v s s' :
  stream_wf s → 1 ≤ size → readUint size s = (Ok v, s') →
  ∃ bs rest, s_r s = bs ++ rest ∧ len bs = size ∧ fits s size ∧ s' = eat bs rest s
    ∧ v = be_decode bs ∧ (2 ≤ size → at_ bs 0 ≠ 0).
Proof.
  intros Hwf Hs. unfold readUint. zcmp. case_if.
  - subst. intros H. apply readByte_inv in H as (rest & Hr & Hf & ->); [|done].
    exists [v], rest. do 4 (split; [done|]). split; [done|lia].
  - unfold bind. destruct (readFull size s) as [[bs|] s1] eqn:E; [|done].
    apply readFull_inv in E as (rest & Hr & Hl & Hf & ->); [|done|lia].
    destruct (at_ bs 0 =? 0) eqn:Hz; bool_prop; cbn; [done|].
    intros [= <- <-]. exists bs, rest. do 5 (split; [done|]). done.
Qed.

(** The header of a string or list of the given content size. *)
Definition header (k : Kind) (n : Z) : bytes :=
  match k with
  | KByte => []
  | KString => rlp_head 0x80 0xB7 n
  | KList => rlp_head 0xC0 0xF7 n
  end.

(** The stream after [Kind] has read the header [tag]. *)
Definition after_kind (k : Kind) (size bv : Z) (tag rest : bytes) (s : Stream) : Stream :=
  set_kinderr None (set_size size (set_kind (Some k) (set_byteval bv (eat tag rest s)))).

Lemma set_kinderr_wf e s : stream_wf s → stream_wf (set_kinderr e s).
Proof. by intros []. Qed.

Lemma fits_not_end s n : fits s n → 0 < n → at_list_end s = false.
Proof. unfold fits, at_list_end. destruct (s_stack s); intros [] ?; [done|]. apply Z.eqb_neq. lia. Qed.

Lemma kind_bounds_none s n e k bv tag rest :
  stream_wf s → fits s (len tag + n) → 0 ≤ n →
  kind_bounds (set_kinderr e (set_size n (set_kind k (set_byteval bv (eat tag rest s))))) = None.
Proof.
  intros Hwf Hf Hn.
  assert (stream_wf (adv (len tag) s)) as [_ _ Hr Hst _] by (apply adv_wf; [done|lia|eapply fits_le; [done|lia]]).
  destruct Hwf, Hf as [? Hf]. unfold kind_bounds; cbn in *.
  destruct (s_stack s) as [|[p z] l]; cbn in *.
  - rewrite wf_limited0. by zcmp.
  - apply Forall_cons in Hst as [[??] _]; cbn in *.
    rewrite u64_small by (unfold is_u64; lia). by zcmp.
Qed.

Lemma header_cases k n : k ≠ KByte → 0 ≤ n < 2 ^ 64 →
  let tag := match k with KString => 0x80 | _ => 0xC0 end in
  (n < 56 ∧ header k n = [tag + n]) ∨
  (56 ≤ n ∧ header k n = tag + 55 + len (be_bytes n) :: be_bytes n ∧ 1 ≤ len (be_bytes n) ≤ 8).
Proof.
  intros Hk Hn. pose proof (length_be_bytes n). pose proof (nbytes_u64 n Hn).
  destruct (Z.ltb_spec n 56); [left|right]; (split; [done|]).
  - destruct k; [done|..]; cbn; unfold rlp_head; by zcmp.
  - pose proof (nbytes_pos n). split; [|lia]. destruct k; [done|..]; cbn; unfold rlp_head; by zcmp.
Qed.

Lemma eat_eat a b r1 r2 s : eat b r2 (eat a r1 s) = eat (a ++ b) r2 s.
Proof.
  unfold eat. rewrite length_app, Nat2Z.inj_add, <- adv_adv. by destruct s.
Qed.

Lemma eat_set_byteval a r v s : eat a r (set_byteval v s) = set_byteval v (eat a r s).
Proof. by destruct s. Qed.
Lemma eat_set_kinderr a r v s : eat a r (set_kinderr v s) = set_kinderr v (eat a r s).
Proof. by destruct s. Qed.

Lemma readKind_byte b rest s :
  stream_wf s → s_r s = b :: rest → b < 128 → fits s 1 →
  readKind_ s = (Ok (KByte, 0, None), set_byteval b (eat [b] rest s)).
Proof.
  intros Hwf Hr Hb Hf. unfold readKind_, bind, attempt.
  rewrite (readByte_ok b rest) by done. cbn. zcmp. done.
Qed.

Lemma readKind_header k n rest s :
  k ≠ KByte → 0 ≤ n → stream_wf s →
  s_r s = header k n ++ rest → fits s (len (header k n) + n) →
  readKind_ s = (Ok (k, n, None), set_byteval 0 (eat (header k n) rest s)).
Proof.
  intros Hkb Hn Hwf Hr Hf. pose proof (fits_u64 _ _ Hwf Hf).
  destruct (header_cases k n Hkb ltac:(lia)) as [[Hs Ht]|(Hs & Ht & Hb)]; rewrite Ht in *.
  - unfold readKind_, bind, attempt.
    erewrite (readByte_ok _ rest); [|done|done|eapply fits_le; [exact Hf|cbn; lia]].
    cbn. destruct k; [done|..]; zcmp; cbn; by rewrite Z.add_simpl_l.
  - unfold readKind_, bind, attempt. cbn [app length] in *.
    erewrite (readByte_ok _ (be_bytes n ++ rest)); [|done|done|eapply fits_le; [exact Hf|lia]].
    cbn -[len]. set (tag := match k with KString => 128 | _ => 192 end + 55 + len (be_bytes n)) in *.
    assert (readUint (len (be_bytes n)) (set_byteval 0 (eat [tag] (be_bytes n ++ rest) s)) =
      (Ok n, set_byteval 0 (eat (tag :: be_bytes n) rest s))) as Hu.
    { assert (stream_wf (eat [tag] (be_bytes n ++ rest) s)) as [].
      { apply eat_wf; [done|done|]. eapply fits_le; [exact Hf|cbn; lia]. }
      rewrite (readUint_be n rest); [|lia|done|done|].
      - rewrite eat_set_byteval, eat_eat. done.
      - apply (fits_split s (eat [tag] (be_bytes n ++ rest) s) [tag]); [by apply eat_consumed|].
        eapply fits_le; [exact Hf|cbn [length]; lia]. }
    unfold tag in *. destruct k; [done|..]; zcmp; cbn -[len].
    + replace (128 + 55 + len (be_bytes n) - 183) with (len (be_bytes n)) by lia.
      rewrite Hu. by zcmp.
    + replace (192 + 55 + len (be_bytes n) - 247) with (len (be_bytes n)) by lia.
      rewrite Hu. by zcmp.
Qed.

Lemma StreamKind_read k n bv tag rest s :
  stream_wf s → s_kind s = None → s_r s = tag ++ rest → 0 ≤ n → 1 ≤ len tag →
  fits s (len tag + n) →
  readKind_ (set_kinderr None s) =
    (Ok (k, n, None), set_byteval bv (eat tag rest (set_kinderr None s))) →
  StreamKind s = (Ok (k, n), after_kind k n bv tag rest s).
Proof.
  intros Hwf Hk Hr Hn Ht Hf Hrk. unfold StreamKind. rewrite Hk.
  assert (at_list_end (set_kinderr None s) = false) as ->
    by (apply (fits_not_end s (len tag + n)); [done|lia]).
  rewrite Hrk. rewrite kind_bounds_none; [|by apply set_kinderr_wf|done|done]. done.
Qed.

Lemma StreamKind_byte b rest s :
  stream_wf s → s_kind s = None → s_r s = b :: rest → b < 128 → fits s 1 →
  StreamKind s = (Ok (KByte, 0), after_kind KByte 0 b [b] rest s).
Proof.
  intros Hwf Hk Hr Hb Hf. apply StreamKind_read; try done.
  by apply readKind_byte; [apply set_kinderr_wf|..].
Qed.

Lemma header_len k n : k ≠ KByte → 0 ≤ n < 2 ^ 64 → 1 ≤ len (header k n) ≤ 9.
Proof.
  intros Hk Hn. destruct (header_cases k n Hk Hn) as [[? ->]|(? & -> & ?)]; cbn [length]; lia.
Qed.

Lemma StreamKind_header k n rest s :
  k ≠ KByte → 0 ≤ n → stream_wf s → s_kind s = None →
  s_r s = header k n ++ rest → fits s (len (header k n) + n) →
  StreamKind s = (Ok (k, n), after_kind k n 0 (header k n) rest s).
Proof.
  intros Hkb Hn Hwf Hk Hr Hf. pose proof (fits_u64 _ _ Hwf Hf).
  apply StreamKind_read; try done.
  - apply header_len; [done|lia].
  - by apply readKind_header; [..|apply set_kinderr_wf|done|done].
Qed.

Lemma header_long k n bs :
  k ≠ KByte → bytes_ok bs → 1 ≤ len bs ≤ 8 → (2 ≤ len bs → at_ bs 0 ≠ 0) → n = be_decode bs →
  56 ≤ n → n < 2 ^ 64 ∧
  header k n = match k with KString => 0x80 | _ => 0xC0 end + 55 + len bs :: bs.
Proof.
  intros Hk Hok Hl Hz -> Hn.
  assert (∀ c cs, bs = c :: cs → c ≠ 0) as Hnz.
  { intros c cs ->. destruct cs as [|c1 cs]; cbn in *; [lia|]. apply Hz. lia. }
  destruct (be_bytes_inj_u64 bs Hok Hnz ltac:(lia)) as [[_ Hu] Hbe]. split; [done|].
  destruct (header_cases k (be_decode bs) Hk ltac:(lia)) as [[? _]|(_ & -> & _)]; [lia|].
  by rewrite Hbe.
Qed.

Lemma readKind_stream_inv k n s s' :
  stream_wf s → readKind_ s = (Ok (k, n, None), s') →
  (k = KByte ∧ n = 0 ∧ ∃ b rest, b < 128 ∧ s_r s = b :: rest ∧ fits s 1
     ∧ s' = set_byteval b (eat [b] rest s))
  ∨ (k ≠ KByte ∧ 0 ≤ n < 2 ^ 64 ∧ ∃ rest, s_r s = header k n ++ rest ∧ fits s (len (header k n))
     ∧ s' = set_byteval 0 (eat (header k n) rest s)).
Proof.
  intros Hwf. unfold readKind_, bind, attempt.
  destruct (readByte s) as [[b|e] s1] eqn:Eb; [|by cbn; repeat case_match].
  apply readByte_inv in Eb as (rest & Hr & Hf & ->); [|done]. cbn -[Z.sub].
  assert (is_byte b) as Hb by (destruct Hwf; rewrite Hr in wf_r0; by apply bytes_ok_cons in wf_r0 as [? _]).
  unfold is_byte in Hb.
  assert (∀ k' m, k' ≠ KByte → 0 ≤ m < 56 →
    b = match k' with KString => 0x80 | _ => 0xC0 end + m →
    0 ≤ m < 2 ^ 64 ∧ ∃ rest', s_r s = header k' m ++ rest' ∧ fits s (len (header k' m))
      ∧ set_byteval 0 (eat [b] rest s) = set_byteval 0 (eat (header k' m) rest' s)) as Hshort.
  { intros k' m Hk' Hm ->. split; [lia|]. exists rest.
    destruct (header_cases k' m Hk' ltac:(lia)) as [[_ ->]|]; [done|lia]. }
  assert (∀ k' m v s2, k' ≠ KByte → 1 ≤ m ≤ 8 → 56 ≤ v →
    b = match k' with KString => 0x80 | _ => 0xC0 end + 55 + m →
    readUint m (set_byteval 0 (eat [b] rest s)) = (Ok v, s2) →
    0 ≤ v < 2 ^ 64 ∧ ∃ rest', s_r s = header k' v ++ rest' ∧ fits s (len (header k' v))
      ∧ s2 = set_byteval 0 (eat (header k' v) rest' s)) as Hlong.
  { intros k' m v s2 Hk' Hm Hv Eb Hu.
    assert (stream_wf (eat [b] rest s)) as [Hok ? ? ? ?] by (by apply eat_wf).
    apply readUint_inv in Hu as (bs & rest' & Hr' & Hl & Hf' & -> & Hv' & Hz); [|done|lia].
    cbn in Hr', Hok. rewrite Hr' in Hok. apply bytes_ok_app in Hok as [Hbs _].
    destruct (header_long k' v bs Hk' Hbs ltac:(lia) ltac:(by rewrite Hl) Hv' Hv) as [Hv2 ->].
    split; [lia|]. exists rest'. rewrite Hl, <- Eb. split; [by rewrite Hr, Hr'|].
    split; [|by rewrite eat_set_byteval, eat_eat].
    replace (len (b :: bs)) with (len [b] + len bs) by (cbn [length]; lia).
    eapply (fits_join s (eat [b] rest s)); [by apply eat_consumed|]. by rewrite Hl. }
  destruct (b <? 0x80) eqn:E1; [|destruct (b <? 0xB8) eqn:E2; [|destruct (b <? 0xC0) eqn:E3;
    [|destruct (b <? 0xF8) eqn:E4]]]; bool_prop; cbn -[Z.sub].
  - intros [= <- <- <-]. left. repeat split. by exists b, rest.
  - intros [= <- <- <-]. right. split; [done|]. apply Hshort; [done|lia|lia].
  - destruct (readUint _ _) as [[v|] s2] eqn:Eu; cbn -[Z.sub]; [|done].
    case_if; [done|]. intros [= <- <- <-]. right. split; [done|].
    eapply Hlong; [done| |done| |exact Eu]; lia.
  - intros [= <- <- <-]. right. split; [done|]. apply Hshort; [done|lia|lia].
  - destruct (readUint _ _) as [[v|] s2] eqn:Eu; cbn -[Z.sub]; [|done].
    case_if; [done|]. intros [= <- <- <-]. right. split; [done|].
    eapply Hlong; [done| |done| |exact Eu]; lia.
Qed.

(** What [Kind] returns, between two values and with no error. *)
Inductive kind_spec (s : Stream) : Kind → Z → Stream → Prop :=
| kind_spec_byte b rest :
    s_r s = b :: rest → b < 128 → fits s 1 →
    kind_spec s KByte 0 (after_kind KByte 0 b [b] rest s)
| kind_spec_header k n rest :
    k ≠ KByte → 0 ≤ n → s_r s = header k n ++ rest → fits s (len (header k n) + n) →
    kind_spec s k n (after_kind k n 0 (header k n) rest s).

Lemma bounds_fits s n e k bv tag rest :
  stream_wf s → fits s (len tag) →
  kind_bounds (set_kinderr e (set_size n (set_kind k (set_byteval bv (eat tag rest s))))) = None →
  fits s (len tag + n).
Proof.
  intros Hwf Hf.
  assert (stream_wf (adv (len tag) s)) as [_ _ Hr Hst Hb] by (apply adv_wf; [done|lia|done]).
  destruct Hwf, Hf as [? Hf]. unfold kind_bounds, fits; cbn in *.
  destruct (s_stack s) as [|[p z] l]; cbn in *.
  - rewrite wf_limited0. cbn. case_if; [done|]. lia.
  - apply Forall_cons in Hst as [[??] _]; cbn in *.
    rewrite u64_small by (unfold is_u64; lia). case_if; [done|]. lia.
Qed.

Lemma StreamKind_inv k n s s1 :
  stream_wf s → s_kind s = None → StreamKind s = (Ok (k, n), s1) → kind_spec s k n s1.
Proof.
  intros Hwf Hk. unfold StreamKind. rewrite Hk.
  destruct (at_list_end _) eqn:He; [done|].
  destruct (readKind_ _) as [[[[k' n'] e]|] s'] eqn:Er; [|done].
  destruct e as [e|]; [done|].
  apply readKind_stream_inv in Er; [|by apply set_kinderr_wf].
  set (s0 := set_kinderr None (set_size n' (set_kind (Some k') s'))).
  destruct (kind_bounds s0) eqn:Hb; [done|]. cbn. intros [= -> -> <-].
  destruct Er as [(-> & -> & b & rest & Hb128 & Hr & Hf & ->)
                 |(Hkb & Hn & rest & Hr & Hf & ->)].
  - exact (kind_spec_byte s b rest Hr Hb128 Hf).
  - refine (kind_spec_header s k n rest Hkb (proj1 Hn) Hr _).
    eapply (bounds_fits (set_kinderr None s)); [by apply set_kinderr_wf|done|exact Hb].
Qed.

Lemma kind_spec_fwd k n s s1 :
  stream_wf s → s_kind s = None → kind_spec s k n s1 → StreamKind s = (Ok (k, n), s1).
Proof.
  intros Hwf Hk []; [by apply StreamKind_byte|by apply StreamKind_header].
Qed.

Lemma StreamKind_cached kz s s1 :
  StreamKind s = (Ok kz, s1) → StreamKind s1 = (Ok kz, s1).
Proof.
  unfold StreamKind. destruct (s_kind s) as [k|] eqn:Hk.
  - destruct (s_kinderr s) eqn:He; [done|]. intros [= <- <-]. by rewrite Hk, He.
  - destruct (at_list_end _); [done|]. destruct (readKind_ _) as [[[[k' n'] e]|] s']; [|done].
    destruct e; [done|]. cbn. destruct (kind_bounds _); [done|]. by intros [= <- <-].
Qed.

Lemma readKind_not_eol s r s' :
  readKind_ s = (r, s') → ∃ k n e, r = Ok (k, n, e) ∧ e ≠ Some EOL.
Proof.
  unfold readKind_, bind, attempt, ret. pose proof (readByte_not_eol s) as Hb.
  destruct (readByte s) as [[b|e] s1]; cbn -[Z.sub] in *.
  - repeat case_if; cbn -[Z.sub]; try (intros [= <- <-]; by eauto 6);
      match goal with |- context [readUint ?m ?s2] =>
        pose proof (readUint_not_eol m s2); destruct (readUint m s2) as [[v|e] s3]
      end; cbn -[Z.sub] in *; intros [= <- <-];
      (do 3 eexists; split; [done|]); try (case_if; done); congruence.
  - intros [= <- <-]. do 3 eexists; split; [done|].
    destruct (s_stack s1), e; try done; congruence.
Qed.

Lemma StreamKind_eol s :
  s_kind s = None → (StreamKind s).1 = Err EOL ↔ at_list_end s = true.
Proof.
  intros Hk. unfold StreamKind. rewrite Hk.
  change (at_list_end (set_kinderr None s)) with (at_list_end s).
  destruct (at_list_end s); [done|]. split; [|done].
  destruct (readKind_ _) as [r s'] eqn:Er. apply readKind_not_eol in Er as (k & n & e & -> & He).
  destruct e as [e|]; cbn; [congruence|]. unfold kind_bounds. cbn.
  repeat case_match; cbn; congruence.
Qed.

(** ** Lemmas: codecs

    [codec m R n]: the decoder [m] accepts, between two values of a stream,
    exactly the byte strings [R] relates to its results (all of those up to
    [n] bytes, and nothing else), consumes them, reports the end of the
    enclosing list with [EOL] and nothing else with it, and may be called after
    [Kind] has looked at the header.  A negative [n] describes a decoder without
    fuel. *)
Record codec {A} (m : M A) (R : A → bytes → Prop) (n : Z) : Prop := {
  codec_fwd s a out rest :
    stream_wf s → s_kind s = None → R a out → s_r s = out ++ rest → fits s (len out) →
    len out ≤ n → ∃ s', m s = (Ok a, s') ∧ consumed s out s';
  codec_bwd s a s' :
    stream_wf s → s_kind s = None → m s = (Ok a, s') →
    ∃ out, R a out ∧ consumed s out s' ∧ fits s (len out);
  codec_eol s s' :
    s_kind s = None → m s = (Err EOL, s') → at_list_end s = true ∧ s' = set_kinderr None s;
  codec_end s :
    0 ≤ n → s_kind s = None → at_list_end s = true → m s = (Err EOL, set_kinderr None s);
  codec_cached s kz s1 :
    StreamKind s = (Ok kz, s1) → 0 ≤ n ∨ (m s1).1 ≠ Err ErrOutOfFuel → m s1 = m s
}.

Lemma codec_iff {A} (m : M A) (R R' : A → bytes → Prop) n n' :
  codec m R n → n' ≤ n →
  (∀ a out, bytes_ok out → len out < 2 ^ 64 → R a out ↔ R' a out) → codec m R' n'.
Proof.
  intros [Hf Hb He Hd Hc] Hn HR. split; [| |done| |].
  - intros s a out rest Hwf Hk Ha Hr Hfit Hl. eapply Hf; try done; [|lia].
    apply HR; [|by eapply fits_u64|done]. destruct Hwf. rewrite Hr in wf_r0.
    by apply bytes_ok_app in wf_r0 as [? _].
  - intros s a s' Hwf Hk Hm. destruct (Hb s a s' Hwf Hk Hm) as (out & Ha & Hco & Hfit).
    exists out. split; [|done]. apply HR; [|by eapply fits_u64|done].
    destruct Hwf, Hco. rewrite c_r0 in wf_r0. by apply bytes_ok_app in wf_r0 as [? _].
  - intros s Hn'. apply Hd. lia.
  - intros s kz s1 Hs Hg. apply (Hc s kz); [done|]. destruct Hg; [left; lia|by right].
Qed.

Lemma wrap_eol e : wrapStreamError e = EOL ↔ e = EOL.
Proof. by destruct e. Qed.

Lemma wrapped_ok {A} (m : M A) s a s' : wrapped m s = (Ok a, s') ↔ m s = (Ok a, s').
Proof. unfold wrapped. by destruct (m s) as [[]]. Qed.

Lemma wrapped_eol {A} (m : M A) s s' : wrapped m s = (Err EOL, s') ↔ m s = (Err EOL, s').
Proof.
  unfold wrapped. destruct (m s) as [[a|e] s1]; [done|].
  split; intros [= E <-]; do 2 f_equal; by apply wrap_eol.
Qed.

Lemma StreamKind_end s :
  s_kind s = None → at_list_end s = true → StreamKind s = (Err EOL, set_kinderr None s).
Proof.
  intros Hk He. unfold StreamKind. rewrite Hk.
  change (at_list_end (set_kinderr None s)) with (at_list_end s). by rewrite He.
Qed.

Lemma StreamKind_eol_inv s s' :
  s_kind s = None → StreamKind s = (Err EOL, s') → at_list_end s = true ∧ s' = set_kinderr None s.
Proof.
  intros Hk Hs. pose proof (StreamKind_eol s Hk) as He. rewrite Hs in He.
  destruct He as [He _]. specialize (He eq_refl). split; [done|].
  rewrite StreamKind_end in Hs by done. by injection Hs.
Qed.

Lemma bind_fuel {A B} (P : Prop) (m : M A) (f : A → M B) s :
  P ∨ (bind m f s).1 ≠ Err ErrOutOfFuel → P ∨ (m s).1 ≠ Err ErrOutOfFuel.
Proof.
  intros [?|H]; [by left|right]. unfold bind in H. destruct (m s) as [[]]; cbn in *; congruence.
Qed.
Lemma wrapped_fuel {A} (P : Prop) (m : M A) s :
  P ∨ (wrapped m s).1 ≠ Err ErrOutOfFuel → P ∨ (m s).1 ≠ Err ErrOutOfFuel.
Proof.
  intros [?|H]; [by left|right]. unfold wrapped in H.
  destruct (m s) as [[|[]]]; cbn in *; congruence.
Qed.

Lemma codec_wrapped {A} (m : M A) R n : codec m R n → codec (wrapped m) R n.
Proof.
  intros [Hf Hb He Hd Hc]. split.
  - intros s a out rest Hwf Hk Ha Hr Hfit Hl.
    destruct (Hf s a out rest) as (s' & Hm & Hco); try done.
    exists s'. by rewrite wrapped_ok.
  - intros s a s' Hwf Hk Hm. rewrite wrapped_ok in Hm. exact (Hb s a s' Hwf Hk Hm).
  - intros s s' Hk Hm. rewrite wrapped_eol in Hm. by apply He.
  - intros s Hn Hk Hs. unfold wrapped. by rewrite (Hd s).
  - intros s kz s1 Hs Hg. apply wrapped_fuel in Hg. unfold wrapped. by rewrite (Hc s kz s1).
Qed.

Lemma codec_map {A B} (m : M A) (f : A → B) R n :
  codec m R n → codec (bind m (λ a, ret (f a))) (λ b out, ∃ a, b = f a ∧ R a out) n.
Proof.
  intros [Hf Hb He Hd Hc]. split.
  - intros s b out rest Hwf Hk (a & -> & Ha) Hr Hfit Hl.
    destruct (Hf s a out rest) as (s' & Hm & Hco); try done.
    exists s'. unfold bind. by rewrite Hm.
  - intros s b s' Hwf Hk. unfold bind. destruct (m s) as [[a|] s1] eqn:Hm; [|done].
    intros [= <- <-]. destruct (Hb s a s1) as (out & Ha & Hco & Hfit); try done. by eauto 10.
  - intros s s' Hk. unfold bind. specialize (He s s' Hk).
    destruct (m s) as [[]]; [done|]. intros [= -> ->]. by apply He.
  - intros s Hn Hk Hs. unfold bind. by rewrite (Hd s).
  - intros s kz s1 Hs Hg. apply bind_fuel in Hg. unfold bind. by rewrite (Hc s kz s1).
Qed.

(** A decoder that starts with [Kind] inherits its treatment of list ends and
    of cached headers. *)
Lemma codec_kind' {A} (K : M (Kind * Z)) (f : Kind * Z → M A) (R : A → bytes → Prop) n :
  K = StreamKind ∨ K = wrapped StreamKind →
  (∀ s a out rest, stream_wf s → s_kind s = None → R a out → s_r s = out ++ rest →
    fits s (len out) → len out ≤ n →
    ∃ k z s1 s', kind_spec s k z s1 ∧ f (k, z) s1 = (Ok a, s') ∧ consumed s out s') →
  (∀ s k z s1 a s', stream_wf s → s_kind s = None → kind_spec s k z s1 →
    f (k, z) s1 = (Ok a, s') → ∃ out, R a out ∧ consumed s out s' ∧ fits s (len out)) →
  (∀ s k z s1, s_kind s = None → StreamKind s = (Ok (k, z), s1) → at_list_end s = false →
    (f (k, z) s1).1 ≠ Err EOL) →
  codec (bind K f) R n.
Proof.
  intros HK Hf Hb He.
  assert (∀ s kz s1, K s = (Ok kz, s1) ↔ StreamKind s = (Ok kz, s1)) as HKok
    by (destruct HK; subst K; intros; [done|apply wrapped_ok]).
  assert (∀ s s', K s = (Err EOL, s') ↔ StreamKind s = (Err EOL, s')) as HKeol
    by (destruct HK; subst K; intros; [done|apply wrapped_eol]).
  split.
  - intros s a out rest Hwf Hk Ha Hr Hfit Hl.
    destruct (Hf s a out rest) as (k & z & s1 & s' & Hks & Hm & Hco); try done.
    exists s'. unfold bind. apply kind_spec_fwd, HKok in Hks; [|done..]. by rewrite Hks.
  - intros s a s' Hwf Hk. unfold bind. destruct (K s) as [[[k z]|] s1] eqn:Es; [|done].
    intros Hm. eapply Hb; [done|done| |exact Hm]. apply HKok in Es. by apply StreamKind_inv.
  - intros s s' Hk. unfold bind. destruct (K s) as [[[k z]|e] s1] eqn:Es; cbn in *.
    + intros Hx. apply HKok in Es. destruct (at_list_end s) eqn:Hend.
      * by rewrite StreamKind_end in Es.
      * exfalso. eapply He; [..|by rewrite Hx]; done.
    + intros [= -> <-]. by apply StreamKind_eol_inv, HKeol.
  - intros s Hn Hk Hs. pose proof (StreamKind_end s Hk Hs) as Hend. unfold bind.
    destruct HK; subst K; unfold wrapped; by rewrite Hend.
  - intros s kz s1 Hs _. unfold bind. pose proof (StreamKind_cached _ _ _ Hs) as Hs1.
    apply HKok in Hs, Hs1. by rewrite Hs, Hs1.
Qed.

Lemma codec_kind {A} (f : Kind * Z → M A) (R : A → bytes → Prop) n :
  (∀ s a out rest, stream_wf s → s_kind s = None → R a out → s_r s = out ++ rest →
    fits s (len out) → len out ≤ n →
    ∃ k z s1 s', kind_spec s k z s1 ∧ f (k, z) s1 = (Ok a, s') ∧ consumed s out s') →
  (∀ s k z s1 a s', stream_wf s → s_kind s = None → kind_spec s k z s1 →
    f (k, z) s1 = (Ok a, s') → ∃ out, R a out ∧ consumed s out s' ∧ fits s (len out)) →
  (∀ s k z s1, s_kind s = None → StreamKind s = (Ok (k, z), s1) → at_list_end s = false →
    (f (k, z) s1).1 ≠ Err EOL) →
  codec (bind StreamKind f) R n.
Proof. apply codec_kind'. by left. Qed.

(** The header part of an encoding. *)
Lemma after_kind_props k z bv tag rest s :
  stream_wf s → s_r s = tag ++ rest → fits s (len tag) →
  stream_wf (after_kind k z bv tag rest s) ∧ s_r (after_kind k z bv tag rest s) = rest
  ∧ s_byteval (after_kind k z bv tag rest s) = bv
  ∧ consumed s tag (set_kind None (after_kind k z bv tag rest s)).
Proof.
  intros Hwf Hr Hf. destruct (eat_wf tag rest s Hwf Hr Hf). split; [by split|].
  split; [done|]. split; [done|]. by split.
Qed.

Lemma fits_header s k z bv tag rest n :
  s_r s = tag ++ rest → fits s (len tag + n) → fits (after_kind k z bv tag rest s) n.
Proof.
  intros Hr Hf. pose proof (eat_consumed tag rest s Hr) as Hc.
  apply (fits_split _ _ _ n) in Hc. by apply Hc.
Qed.

(** Reading the content after the header of a string or list. *)
Lemma content_fwd s k c rest :
  k ≠ KByte → stream_wf s → s_r s = (header k (len c) ++ c) ++ rest →
  fits s (len (header k (len c) ++ c)) →
  ∃ s1 s', kind_spec s k (len c) s1 ∧ readFull (len c) s1 = (Ok c, s')
    ∧ consumed s (header k (len c) ++ c) s'.
Proof.
  intros Hk Hwf Hr Hf. rewrite length_app, Nat2Z.inj_add in Hf. rewrite <- app_assoc in Hr.
  set (s1 := after_kind k (len c) 0 (header k (len c)) (c ++ rest) s).
  destruct (after_kind_props k (len c) 0 _ _ s Hwf Hr) as (Hwf1 & Hr1 & _ & Hc1);
    [eapply fits_le; [exact Hf|lia]|].
  exists s1, (eat c rest s1). split; [by apply kind_spec_header; try done; lia|]. split.
  - apply readFull_ok; [done|done|]. by apply fits_header.
  - eapply consumed_trans; [exact Hc1|]. by apply (eat_consumed c rest (set_kind None s1)).
Qed.

Lemma content_bwd s k n s1 c s' :
  k ≠ KByte → stream_wf s → kind_spec s k n s1 → readFull n s1 = (Ok c, s') →
  n = len c ∧ consumed s (header k (len c) ++ c) s' ∧ fits s (len (header k (len c) ++ c)).
Proof.
  intros Hk Hwf Hs Hm. destruct Hs as [|k n rest _ Hn Hr Hf]; [done|].
  destruct (after_kind_props k n 0 _ _ s Hwf Hr) as (Hwf1 & Hr1 & _ & Hc1);
    [eapply fits_le; [exact Hf|lia]|].
  apply readFull_inv in Hm as (rest' & Hr' & Hl & Hf' & ->); [|done|done].
  rewrite Hr1 in Hr'. rewrite Hl. split; [done|]. split.
  - eapply consumed_trans; [exact Hc1|]. by split.
  - rewrite length_app, Nat2Z.inj_add, Hl. done.
Qed.

(** ** Lemmas: strings, raw values and integers *)

Lemma rlp_string_cases b :
  (∃ b0, b = [b0] ∧ b0 < 128 ∧ rlp_string b = [b0])
  ∨ kind_ok KString b ∧ rlp_string b = header KString (len b) ++ b.
Proof.
  destruct b as [|b0 [|b1 b]]; cbn -[rlp_head]; [right|case_if; [left|right]|right]; try done.
  - by exists b0.
  - split; [|done]. intros ? [= <-]. lia.
Qed.

Lemma byte_fwd s b rest :
  stream_wf s → b < 128 → s_r s = [b] ++ rest → fits s 1 →
  ∃ s1, kind_spec s KByte 0 s1 ∧ s_byteval s1 = b ∧ consumed s [b] (set_kind None s1)
    ∧ stream_wf s1.
Proof.
  intros Hwf Hb Hr Hf. eexists. split; [by apply kind_spec_byte|].
  destruct (after_kind_props KByte 0 b [b] rest s) as (? & ? & ? & ?); done.
Qed.

Lemma byte_bwd s n s1 :
  stream_wf s → kind_spec s KByte n s1 →
  ∃ b, 0 ≤ b < 128 ∧ s_byteval s1 = b ∧ consumed s [b] (set_kind None s1) ∧ fits s 1.
Proof.
  intros Hwf Hs. inversion Hs as [b rest Hr Hb Hf|]; subst; [|done].
  exists b. split; [|by destruct (after_kind_props KByte 0 b [b] rest s) as (? & ? & ? & ?)].
  destruct Hwf. rewrite Hr in wf_r0. apply bytes_ok_cons in wf_r0 as [[? ?] _]. lia.
Qed.

Lemma StreamBytes_codec n : codec StreamBytes (λ b out, out = rlp_string b) n.
Proof.
  apply codec_kind.
  - intros s b out rest Hwf Hk -> Hr Hf _.
    destruct (rlp_string_cases b) as [(b0 & -> & Hb & E)|[Hok E]]; rewrite E in *.
    + destruct (byte_fwd s b0 rest) as (s1 & Hs & Hbv & Hc & _); try done.
      eexists _, _, s1, _. split; [exact Hs|]. cbn. rewrite Hbv. done.
    + destruct (content_fwd s KString b rest) as (s1 & s' & Hs & Hm & Hc); try done.
      exists KString, (len b), s1, s'. split; [done|]. unfold bind. rewrite Hm. split; [|done].
      destruct b as [|b0 [|]]; cbn; try done; [|by zcmp].
      specialize (Hok b0 eq_refl). zcmp. done.
  - intros s k z s1 b s' Hwf Hk Hs. destruct k; [..|done].
    + intros [= <- <-]. apply byte_bwd in Hs as (b & Hb & -> & Hc & Hf); [|done].
      exists [b]. split; [cbn; by zcmp|done].
    + unfold bind. destruct (readFull z s1) as [[c|] s2] eqn:Hm; [|done].
      apply (content_bwd s KString) in Hm as (-> & Hc & Hf); [|done..].
      case_if; [done|]. intros [= <- <-]. exists (header KString (len c) ++ c). split; [|done].
      destruct (rlp_string_cases c) as [(b0 & -> & Hb & E)|[Hok E]]; [|done].
      exfalso. cbn -[header] in *. lia.
  - intros s k z s1 _ _ _. destruct k; [done| |done].
    apply bind_not_eol; [apply readFull_not_eol|]. intros ? s' _. by case_if.
Qed.


Lemma consumed_ok s bs s' : stream_wf s → consumed s bs s' → bytes_ok bs.
Proof. intros [] []. rewrite c_r0 in wf_r0. by apply bytes_ok_app in wf_r0 as [? _]. Qed.

Lemma kind_spec_wf s k n s1 : stream_wf s → kind_spec s k n s1 → stream_wf s1.
Proof.
  intros Hwf [b rest Hr Hb Hf|k' n' rest Hk Hn Hr Hf].
  - by apply (after_kind_props KByte 0 b [b] rest s).
  - apply (after_kind_props k' n' 0 (header k' n') rest s); try done.
    eapply fits_le; [exact Hf|lia].
Qed.

(** A raw value is one item: a single byte or a header with its content; the
    content of a raw string is not inspected. *)
Definition raw_item (out : bytes) : Prop :=
  (∃ b, out = [b] ∧ b < 128) ∨ ∃ k c, k ≠ KByte ∧ out = header k (len c) ++ c.

Lemma puthead_header k n : k ≠ KByte → 0 ≤ n < 2 ^ 64 →
  puthead (match k with KList => 0xC0 | _ => 0x80 end)
          (match k with KList => 0xF7 | _ => 0xB7 end) n = header k n.
Proof. intros Hk Hn. destruct k; [done|..]; cbn; apply puthead_spec; lia. Qed.

Lemma StreamRaw_codec n : codec StreamRaw (λ b out, b = out ∧ raw_item out) n.
Proof.
  apply codec_kind.
  - intros s b out rest Hwf Hk [-> Hi] Hr Hf _.
    destruct Hi as [(b0 & -> & Hb)|(k & c & Hkb & ->)].
    + destruct (byte_fwd s b0 rest) as (s1 & Hs & Hbv & Hc & _); try done.
      eexists _, _, s1, _. split; [exact Hs|]. cbn. rewrite Hbv. done.
    + destruct (content_fwd s k c rest) as (s1 & s' & Hs & Hm & Hc); try done.
      exists k, (len c), s1, s'. split; [done|]. split; [|done].
      apply (fits_u64 s) in Hf; [|done]. rewrite length_app in Hf.
      rewrite <- (puthead_header k (len c)) by (done || lia).
      destruct k; [done|..]; unfold bind; by rewrite Hm.
  - intros s k z s1 b s' Hwf _ Hs Hm. destruct (decide (k = KByte)) as [->|Hkb].
    + injection Hm as <- <-. apply byte_bwd in Hs as (b & Hb & -> & Hc & Hf); [|done].
      exists [b]. split; [|done]. split; [done|]. left. exists b. split; [done|lia].
    + destruct (readFull z s1) as [r s2] eqn:Hr.
      assert (∃ c, r = Ok c ∧ s' = s2 ∧
        b = puthead (match k with KList => 0xC0 | _ => 0x80 end)
                    (match k with KList => 0xF7 | _ => 0xB7 end) z ++ c) as (c & -> & -> & ->).
      { destruct k; [done|..]; unfold bind in Hm; rewrite Hr in Hm;
          (destruct r as [c|]; [|done]); injection Hm as <- <-; eauto. }
      apply (content_bwd s k) in Hr as (-> & Hc & Hf); [|done..].
      exists (header k (len c) ++ c). pose proof (fits_u64 _ _ Hwf Hf) as Hl.
      rewrite length_app in Hl. rewrite puthead_header by (done || lia).
      split; [|done]. split; [done|]. right. eauto.
  - intros s k z s1 _ _ _. destruct k; [done|..];
      (apply bind_not_eol; [apply readFull_not_eol|done]).
Qed.

Lemma readUint_full c s s' :
  stream_wf s → 1 ≤ len c → (2 ≤ len c → at_ c 0 ≠ 0) →
  readFull (len c) s = (Ok c, s') → readUint (len c) s = (Ok (be_decode c), s').
Proof.
  intros Hwf Hl Hz H. apply readFull_inv in H as (rest & Hr & _ & Hf & ->); [|done|lia].
  unfold readUint. zcmp. case_if.
  - destruct c as [|b0 [|b1 c]]; cbn in *; try lia. by rewrite (readByte_ok b0 rest).
  - unfold bind. rewrite (readFull_ok c rest) by done. specialize (Hz ltac:(lia)). by zcmp.
Qed.

Lemma be_bytes_string bs :
  bytes_ok bs → 1 ≤ len bs → (2 ≤ len bs → at_ bs 0 ≠ 0) → 128 ≤ be_decode bs →
  be_bytes (be_decode bs) = bs ∧ rlp_string bs = header KString (len bs) ++ bs.
Proof.
  intros Hok Hl Hz Hd. destruct bs as [|b0 bs]; [cbn in *; lia|].
  assert (bs = [] → 128 ≤ b0) as Hb by (intros ->; cbn in *; lia). split.
  - apply be_bytes_decode; [done|]. destruct bs as [|b1 bs]; [specialize (Hb eq_refl); lia|]. apply Hz. cbn. lia.
  - destruct bs as [|b1 bs]; [|done]. cbn -[rlp_head]. specialize (Hb eq_refl). by zcmp.
Qed.

Lemma be_bytes_large i :
  128 ≤ i → 1 ≤ len (be_bytes i) ∧ (2 ≤ len (be_bytes i) → at_ (be_bytes i) 0 ≠ 0)
    ∧ be_decode (be_bytes i) = i.
Proof.
  intros Hi. pose proof (nbytes_pos i ltac:(lia)). rewrite length_be_bytes. split; [lia|].
  split; [|apply be_decode_bytes; lia]. intros _.
  destruct (be_bytes i) as [|b bs] eqn:E; [apply (f_equal length) in E; rewrite length_be_bytes in E; cbn in E; lia|].
  by eapply be_bytes_head; [|exact E]; lia.
Qed.

Lemma uint_bytes_bound bits bs :
  0 ≤ bits → bits `mod` 8 = 0 → bytes_ok bs → len bs ≤ bits / 8 → be_decode bs < 2 ^ bits.
Proof.
  intros Hb Hm Hok Hl. pose proof (be_decode_bound bs Hok).
  assert (256 ^ len bs ≤ 256 ^ (bits / 8)) by (apply Z.pow_le_mono_r; lia).
  pose proof (Z.div_mod bits 8). rewrite (pow256 (bits / 8)) in H0 by lia.
  replace (8 * (bits / 8)) with bits in H0 by lia. lia.
Qed.

Lemma uint_len_bound bits i :
  0 ≤ bits → bits `mod` 8 = 0 → 0 < i < 2 ^ bits → len (be_bytes i) ≤ bits / 8.
Proof.
  intros Hb Hm Hi. rewrite length_be_bytes. pose proof (nbytes_spec i ltac:(lia)) as [Hn _].
  pose proof (nbytes_pos i ltac:(lia)).
  rewrite pow256 in Hn by lia. assert (2 ^ (8 * (Z.of_nat (nbytes i) - 1)) < 2 ^ bits) as Hlt by lia.
  apply Z.pow_lt_mono_r_iff in Hlt; [|lia..]. pose proof (Z.div_mod bits 8). lia.
Qed.

Lemma StreamUint_string_bwd bits s z s1 i s' :
  0 ≤ bits → bits `mod` 8 = 0 → stream_wf s → kind_spec s KString z s1 → z ≤ bits / 8 →
  readUint z s1 = (Ok i, s') → (0 < z → 128 ≤ i) →
  ∃ out, (0 ≤ i < 2 ^ bits ∧ out = rlp_string (be_bytes i)) ∧ consumed s out s'
    ∧ fits s (len out).
Proof.
  intros Hb Hm Hwf Hs Hz Hx Hi. pose proof (kind_spec_wf _ _ _ _ Hwf Hs) as Hwf1.
  inversion Hs as [|k n rest _ Hn Hr Hf]; subst. destruct (decide (z = 0)) as [->|].
  - injection Hx as <- <-. exists [0x80].
    destruct (after_kind_props KString 0 0 (header KString 0) rest s) as (_ & _ & _ & Hc); try done.
    split; [|done]. split; [|done]. split; [done|]. by apply Z.pow_pos_nonneg.
  - apply readUint_inv in Hx as (bs & r' & Hr' & Hl & Hf' & -> & -> & Hh); [|done|lia].
    assert (readFull z (after_kind KString z 0 (header KString z) rest s)
      = (Ok bs, eat bs r' (after_kind KString z 0 (header KString z) rest s))) as Hrf
      by (subst z; by apply readFull_ok).
    apply (content_bwd s KString) in Hrf as (_ & Hc & Hfc); [|done..].
    assert (bytes_ok bs) as Hok
      by (pose proof (consumed_ok _ _ _ Hwf Hc) as Ho; by apply bytes_ok_app in Ho as [_ ?]).
    destruct (be_bytes_string bs) as [E1 E2]; [done|lia|intros; apply Hh; lia|apply Hi; lia|].
    exists (header KString (len bs) ++ bs). rewrite E1, E2. split; [|done]. split; [|done].
    pose proof (be_decode_bound bs Hok). pose proof (uint_bytes_bound bits bs Hb Hm Hok). lia.
Qed.

Lemma StreamUint_codec bits n :
  0 < bits → bits `mod` 8 = 0 →
  codec (StreamUint bits) (λ i out, 0 ≤ i < 2 ^ bits ∧ out = rlp_string (be_bytes i)) n.
Proof.
  intros Hb Hm. apply codec_kind.
  - intros s i out rest Hwf Hk [Hi ->] Hr Hf _.
    assert (i = 0 ∨ 0 < i < 128 ∨ 128 ≤ i) as [->|[Hs|Hs]] by lia.
    + destruct (content_fwd s KString [] rest) as (s1 & s' & Hs & Hm' & Hc); try done.
      exists KString, 0, s1, (set_kind None s1). split; [done|].
      assert (0 ≤ bits / 8) by (apply Z.div_pos; lia). zcmp. cbn. split; [done|].
      apply readFull_inv in Hm' as (r' & Hr' & _ & _ & ->); [|by eapply kind_spec_wf|done].
      destruct Hc. split; try done; cbn in *; [congruence|lia|]. by rewrite bump_0 in c_stack0.
    + rewrite be_bytes_small in * by lia. cbn -[fits] in Hr, Hf. cbn [rlp_string].
      replace (i <? 128) with true in * by lia.
      destruct (byte_fwd s i rest) as (s1 & Hs1 & Hbv & Hc & _); [done|lia|done..|].
      eexists _, _, s1, _. split; [exact Hs1|]. cbn. rewrite Hbv. zcmp. done.
    + destruct (be_bytes_large i Hs) as (Hl & Hz & Hd). pose proof (be_bytes_ok i) as Hok.
      destruct (be_bytes_string (be_bytes i) Hok Hl Hz) as [_ E]; [lia|]. rewrite E in *.
      destruct (content_fwd s KString (be_bytes i) rest) as (s1 & s' & Hs1 & Hm' & Hc); try done.
      apply readUint_full in Hm'; [|by eapply kind_spec_wf|done|done]. rewrite Hd in Hm'.
      exists KString, (len (be_bytes i)), s1, s'. split; [done|].
      pose proof (uint_len_bound bits i). zcmp. unfold bind, attempt. rewrite Hm'. by zcmp.
  - intros s k z s1 i s' Hwf _ Hs Hx. destruct k; [| |done].
    + apply byte_bwd in Hs as (b & Hb' & Hbv & Hc & Hf); [|done].
      unfold bind in Hx. cbn in Hx. rewrite Hbv in Hx.
      destruct (b =? 0) eqn:Hz; bool_prop; [done|]. injection Hx as <- <-.
      exists [b]. split; [|done]. rewrite be_bytes_small by lia. cbn. zcmp. split; [|done].
      pose proof (Z.div_mod bits 8). assert (2 ^ 8 ≤ 2 ^ bits) by (apply Z.pow_le_mono_r; lia). lia.
    + destruct (bits / 8 <? z) eqn:Hz; bool_prop; [done|]. unfold bind, attempt in Hx.
      destruct (readUint z s1) as [[v|e] s2] eqn:Hu; [|by destruct e].
      destruct ((0 <? z) && (v <? 128)) eqn:Hv; [done|]. injection Hx as <- <-.
      eapply StreamUint_string_bwd; try done; lia.
  - intros s k z s1 _ _ _. destruct k; [cbn; by case_if| |done].
    case_if; [done|]. unfold bind, attempt. pose proof (readUint_not_eol z s1).
    destruct (readUint z s1) as [[v|e] s2]; [by case_if|]. by destruct e.
Qed.

Lemma StreamBool_codec n :
  codec StreamBool (λ b out, out = rlp_string (be_bytes (if b then 1 else 0))) n.
Proof.
  destruct (StreamUint_codec 8 n) as [Hf Hb He Hd Hc]; [done..|]. unfold StreamBool, bind. split.
  - intros s b out rest Hwf Hk -> Hr Hfit Hl.
    edestruct (Hf s (if b then 1 else 0)) as (s' & Hm & Hco); try done; [by destruct b|].
    exists s'. rewrite Hm. by destruct b.
  - intros s b s' Hwf Hk. destruct (StreamUint 8 s) as [[i|] s1] eqn:Hm; [|done].
    apply Hb in Hm as (out & [Hi ->] & Hco & Hfit); [|done..]. intros Hx.
    exists (rlp_string (be_bytes i)). destruct i as [|[]|]; cbn in Hx; try done;
      injection Hx as <- <-; done.
  - intros s s' Hk. specialize (He s s' Hk). destruct (StreamUint 8 s) as [[i|e] s1]; cbn in *.
    + by destruct i as [|[]|].
    + intros [= -> <-]. by apply He.
  - intros s Hn Hk Hs. by rewrite (Hd s).
  - intros s kz s1 Hs Hg. apply (bind_fuel _ _ _ s1) in Hg. by rewrite (Hc s kz s1).
Qed.

(** ** Lemmas: lists *)

Lemma codec_ext {A} (m m' : M A) R n : (∀ s, m' s = m s) → codec m R n → codec m' R n.
Proof.
  intros E [Hf Hb He Hd Hc]. split.
  - intros s. rewrite E. apply Hf.
  - intros s. rewrite E. apply Hb.
  - intros s. rewrite E. apply He.
  - intros s. rewrite E. apply Hd.
  - intros s kz s1. rewrite !E. apply Hc.
Qed.

(** The stream just inside a list whose content has [z] bytes. *)
Definition push (z : Z) (s : Stream) : Stream :=
  set_size 0 (set_kind None (set_stack (Listpos 0 z :: s_stack s) s)).

Lemma kind_spec_list s z s1 :
  stream_wf s → kind_spec s KList z s1 →
  stream_wf (push z s1) ∧ consumed s (header KList z) (set_kind None s1) ∧ 0 ≤ z ∧ fits s1 z
  ∧ fits s (len (header KList z) + z).
Proof.
  intros Hwf Hs. pose proof (kind_spec_wf _ _ _ _ Hwf Hs) as [].
  inversion Hs as [|k n rest _ Hn Hr Hf]; subst.
  pose proof (fits_header s KList z 0 _ _ _ Hr Hf) as Hf1.
  destruct (after_kind_props KList z 0 _ _ s Hwf Hr) as (_ & _ & _ & Hc);
    [eapply fits_le; [exact Hf|lia]|].
  split; [|done]. destruct Hf1 as [Hz _]. split; cbn in *; try done; [|lia].
  apply Forall_cons. split; [|done]. unfold listpos_ok, is_u64; cbn. lia.
Qed.

Lemma StreamList_spec s z s1 :
  StreamKind s = (Ok (KList, z), s1) → StreamList s = (Ok z, push z s1).
Proof. intros H. unfold StreamList, bind. rewrite H. done. Qed.

Lemma StreamList_inv s z s' :
  StreamList s = (Ok z, s') → ∃ s1, StreamKind s = (Ok (KList, z), s1) ∧ s' = push z s1.
Proof.
  unfold StreamList, bind. destruct (StreamKind s) as [[[k z']|] s1]; [|done].
  destruct k; [done..|]. intros [= <- <-]. eauto.
Qed.

Lemma StreamList_eol s s' : StreamList s = (Err EOL, s') → StreamKind s = (Err EOL, s').
Proof.
  unfold StreamList, bind. destruct (StreamKind s) as [[[k z]|e] s1]; cbn; [by destruct k|].
  by intros [= -> ->].
Qed.

Lemma StreamListEnd_ok s z s1 p s' :
  stream_wf s → kind_spec s KList z s1 → consumed (push z s1) p s' → len p = z →
  ∃ s2, StreamListEnd s' = (Ok tt, s2) ∧ consumed s (header KList z ++ p) s2.
Proof.
  intros Hwf Hs Hc Hl. destruct (kind_spec_list s z s1 Hwf Hs) as (Hwf1 & Hc1 & Hz & Hf & _).
  destruct Hc as [Hr Hrem Hlim Hk Hst]. cbn in Hr, Hrem, Hlim, Hst.
  unfold StreamListEnd. rewrite Hst; cbn [lp_pos lp_size]. zcmp.
  eexists. split; [reflexivity|]. eapply consumed_trans; [exact Hc1|].
  split; cbn; try done. destruct Hf as [_ Hf]. destruct Hwf1. cbn in wf_stack0.
  destruct (s_stack s1) as [|[a b] l]; cbn in *; [done|].
  apply Forall_cons in wf_stack0 as [_ Hp]. apply Forall_cons in Hp as [Hp _].
  unfold listpos_ok, is_u64 in Hp; cbn in Hp. rewrite u64_small by (unfold is_u64; lia). congruence.
Qed.

Lemma StreamListEnd_inv s z s1 p s' s2 :
  stream_wf s → kind_spec s KList z s1 → consumed (push z s1) p s' →
  StreamListEnd s' = (Ok tt, s2) → len p = z.
Proof.
  intros Hwf Hs [_ _ _ _ Hst]. cbn in Hst. unfold StreamListEnd. rewrite Hst; cbn [lp_pos lp_size].
  case_if; [lia|done].
Qed.

Lemma StreamListEnd_eol s : (StreamListEnd s).1 ≠ Err EOL.
Proof. unfold StreamListEnd. destruct (s_stack s); [done|]. by case_if. Qed.

(** [list_body body R n]: [body z] decodes the [z] bytes inside a list. *)
Record list_body {A} (body : Z → M A) (R : A → bytes → Prop) (n : Z) : Prop := {
  body_fwd s a p rest st :
    stream_wf s → s_kind s = None → s_stack s = Listpos 0 (len p) :: st → R a p →
    s_r s = p ++ rest → len p ≤ n → ∃ s', body (len p) s = (Ok a, s') ∧ consumed s p s';
  body_bwd s a z st s' :
    stream_wf s → s_kind s = None → s_stack s = Listpos 0 z :: st → body z s = (Ok a, s') →
    ∃ p, consumed s p s' ∧ fits s (len p) ∧ (len p = z → R a p);
  body_eol s z : (body z s).1 ≠ Err EOL
}.

Section codec_list.
Context {A : Type} (body : Z → M A) (R : A → bytes → Prop) (n : Z) (e : M unit) (f : A → value).
Hypothesis He : e = StreamListEnd ∨ e = wrapped StreamListEnd.
Hypothesis Hbody : list_body body R n.

Lemma list_end_ok s s2 : e s = (Ok tt, s2) ↔ StreamListEnd s = (Ok tt, s2).
Proof using He. destruct He; subst e; [done|apply wrapped_ok]. Qed.
Lemma list_end_eol s : (e s).1 ≠ Err EOL.
Proof using He. destruct (e s) as [r s'] eqn:E. intros Hr. cbn in Hr. subst r. apply (StreamListEnd_eol s).
  destruct He; subst e; [|rewrite wrapped_eol in E]; by rewrite E. Qed.

Definition in_list : M value :=
  bind (wrapped StreamList) (λ z, bind (body z) (λ a, e ;; ret (f a))).

Lemma in_list_fwd s a p rest :
  stream_wf s → s_kind s = None → R a p → s_r s = rlp_list p ++ rest →
  fits s (len (rlp_list p)) → len (rlp_list p) ≤ n + 1 →
  ∃ s', in_list s = (Ok (f a), s') ∧ consumed s (rlp_list p) s'.
Proof using He Hbody.
  intros Hwf Hk Ha Hr Hf Hn. unfold rlp_list in Hr, Hf, Hn.
  change (rlp_head 0xC0 0xF7 (len p)) with (header KList (len p)) in *.
  destruct (content_fwd s KList p rest) as (s1 & _ & Hs & _ & _); try done.
  destruct (kind_spec_list s (len p) s1 Hwf Hs) as (Hwf1 & Hc1 & _).
  pose proof (fits_u64 _ _ Hwf Hf) as Hu. rewrite length_app in Hn, Hu.
  pose proof (header_len KList (len p) ltac:(done) ltac:(lia)).
  edestruct (body_fwd body R n Hbody (push (len p) s1) a p rest) as (s2 & Hm & Hc2);
    try done; [|lia|].
  { destruct Hc1 as [Hr1 _ _ _ _]. cbn in *. rewrite Hr, <- app_assoc in Hr1.
    by apply app_inv_head in Hr1. }
  destruct (StreamListEnd_ok s (len p) s1 p s2) as (s3 & He3 & Hc3); try done.
  exists s3. split; [|done]. unfold in_list, bind.
  assert (wrapped StreamList s = (Ok (len p), push (len p) s1)) as ->
    by (apply wrapped_ok, StreamList_spec; by apply kind_spec_fwd).
  rewrite Hm. apply list_end_ok in He3. by rewrite He3.
Qed.

Lemma in_list_bwd s v s' :
  stream_wf s → s_kind s = None → in_list s = (Ok v, s') →
  ∃ a p, v = f a ∧ R a p ∧ consumed s (rlp_list p) s' ∧ fits s (len (rlp_list p)).
Proof using He Hbody.
  intros Hwf Hk. unfold in_list, bind.
  destruct (wrapped StreamList s) as [[z|] s1] eqn:Hm; [|done].
  apply wrapped_ok, StreamList_inv in Hm as (s0 & Hm & ->).
  apply StreamKind_inv in Hm; [|done..].
  destruct (kind_spec_list s z s0 Hwf Hm) as (Hwf1 & Hc1 & Hz & Hf0 & Hf).
  destruct (body z (push z s0)) as [[a|] s2] eqn:Hb; [|done].
  eapply (body_bwd body R n Hbody) in Hb as (p & Hc & _ & HR); [|done..].
  destruct (e s2) as [[[]|] s3] eqn:He3; [|done]. intros [= <- <-]. apply list_end_ok in He3.
  pose proof (StreamListEnd_inv _ _ _ _ _ _ Hwf Hm Hc He3) as Hl.
  destruct (StreamListEnd_ok s z s0 p s2) as (s4 & He4 & Hc4); try done.
  rewrite He3 in He4. injection He4 as <-. exists a, p.
  unfold rlp_list. rewrite Hl. do 2 (split; [by auto|]). split; [done|].
  rewrite length_app, Nat2Z.inj_add, Hl. done.
Qed.

Lemma codec_list :
  codec in_list (λ v out, ∃ a p, v = f a ∧ R a p ∧ out = rlp_list p) (n + 1).
Proof using He Hbody.
  split.
  - intros s v out rest Hwf Hk (a & p & -> & Ha & ->) Hr Hf Hn. by apply in_list_fwd with rest.
  - intros s v s' Hwf Hk Hm. apply in_list_bwd in Hm as (a & p & -> & Ha & Hc & Hf); [|done..].
    eauto 8.
  - intros s s' Hk. unfold in_list, bind at 1.
    destruct (wrapped StreamList s) as [[z|er] s1] eqn:Hm.
    + intros Hx. exfalso. apply (f_equal fst) in Hx. revert Hx.
      apply (bind_not_eol (body z)); [by eapply body_eol|]. intros a s2 _.
      apply (bind_not_eol e); [apply list_end_eol|done].
    + intros [= -> <-]. rewrite wrapped_eol in Hm. apply StreamList_eol in Hm. by apply StreamKind_eol_inv.
  - intros s Hn Hk Hs. unfold in_list, bind, wrapped, StreamList, bind. by rewrite StreamKind_end.
  - intros s kz s1 Hs _. unfold in_list, bind, wrapped, StreamList, bind.
    by rewrite Hs, (StreamKind_cached _ _ _ Hs).
Qed.
End codec_list.

(** ** Lemmas: sequences of elements *)

(** The stream is inside a list with [z] bytes left. *)
Definition ends (s : Stream) (z : Z) : Prop :=
  match s_stack s with tos :: _ => lp_size tos - lp_pos tos = z | [] => False end.

Lemma ends_fits s z : stream_wf s → ends s z → fits s z.
Proof.
  intros [] He. unfold ends, fits in *. destruct (s_stack s) as [|[a b] l]; [done|].
  cbn in *. lia.
Qed.
Lemma ends_consumed s a s' z : consumed s a s' → ends s (len a + z) → ends s' z.
Proof.
  intros []. unfold ends. rewrite c_stack0. destruct (s_stack s) as [|[p q] l]; [done|].
  cbn. lia.
Qed.
Lemma ends_list_end s : ends s 0 → at_list_end s = true.
Proof. unfold ends, at_list_end. destruct (s_stack s) as [|[p q] l]; [done|]. cbn. lia. Qed.

(** [rest_body m R n]: [m] decodes the rest of the enclosing list. *)
Record rest_body {A} (m : M A) (R : A → bytes → Prop) (n : Z) : Prop := {
  rest_fwd s a p rest :
    stream_wf s → s_kind s = None → ends s (len p) → R a p → s_r s = p ++ rest → len p ≤ n →
    ∃ s', m s = (Ok a, s') ∧ consumed s p s';
  rest_bwd s a s' :
    stream_wf s → s_kind s = None → m s = (Ok a, s') →
    ∃ p, R a p ∧ consumed s p s' ∧ fits s (len p);
  rest_eol s : (m s).1 ≠ Err EOL
}.

Lemma rest_list_body {A} (m : M A) R n : rest_body m R n → list_body (λ _, m) R n.
Proof.
  intros [Hf Hb He]. split; [| |done].
  - intros s a p rest st Hwf Hk Hst Ha Hr Hl. eapply Hf; try done.
    unfold ends. rewrite Hst. cbn. lia.
  - intros s a z st s' Hwf Hk Hst Hm. apply Hb in Hm as (p & ? & ? & ?); [|done..]. eauto.
Qed.

(** Reading one element before the rest, as the loops do. *)
Definition cons_with (short : rlp_error) (elem : M value) (rest : M (list value)) :
    M (list value) :=
  let! rv := attempt elem in
  match rv with
  | Err EOL => fail short
  | Err e => fail e
  | Ok v => let! vs := rest in ret (v :: vs)
  end.

Definition cons_rel (R : value → bytes → Prop) (Rs : list value → bytes → Prop)
    (vs : list value) (p : bytes) : Prop :=
  ∃ v vs' a b, vs = v :: vs' ∧ p = a ++ b ∧ R v a ∧ Rs vs' b.

Lemma fits_app s a s' b :
  consumed s a s' → fits s' (len b) → fits s (len (a ++ b)).
Proof. intros Hc Hf. rewrite length_app, Nat2Z.inj_add. by eapply fits_join. Qed.

Lemma cons_with_body short elem rest R Rs n :
  short ≠ EOL → codec elem R n → rest_body rest Rs n →
  rest_body (cons_with short elem rest) (cons_rel R Rs) n.
Proof.
  intros Hsh He Hr. split.
  - intros s vs p tl Hwf Hk Hend (v & vs' & a & b & -> & -> & Hv & Hvs) Hin Hl.
    pose proof (ends_fits _ _ Hwf Hend) as Hf. rewrite length_app, Nat2Z.inj_add in Hend, Hf, Hl.
    rewrite <- app_assoc in Hin.
    destruct (codec_fwd _ _ _ He s v a (b ++ tl)) as (s1 & Hm & Hc); try done;
      [eapply fits_le; [done|lia]|lia|].
    pose proof Hc as [Hr1 _ _ Hk1 _]. rewrite Hin in Hr1. apply app_inv_head in Hr1.
    destruct (rest_fwd _ _ _ Hr s1 vs' b tl) as (s2 & Hm2 & Hc2); try done.
    + eapply consumed_wf; [done| |exact Hc]. eapply fits_le; [done|lia].
    + by eapply ends_consumed.
    + lia.
    + exists s2. unfold cons_with, bind, attempt. rewrite Hm, Hm2.
      split; [done|]. by eapply consumed_trans.
  - intros s vs s' Hwf Hk. unfold cons_with, bind, attempt.
    destruct (elem s) as [[v|e] s1] eqn:Hm; [|by destruct e].
    apply (codec_bwd _ _ _ He) in Hm as (a & Hv & Hc & Hf); [|done..].
    destruct (rest s1) as [[vs'|] s2] eqn:Hm2; [|done]. intros [= <- <-].
    apply (rest_bwd _ _ _ Hr) in Hm2 as (b & Hvs & Hc2 & Hf2); [|by eapply consumed_wf|by destruct Hc].
    exists (a ++ b). split; [by exists v, vs', a, b|].
    split; [by eapply consumed_trans|by eapply fits_app].
  - intros s. unfold cons_with, bind, attempt. destruct (elem s) as [[v|e] s1]; cbn.
    + pose proof (rest_eol _ _ _ Hr s1). by destruct (rest s1) as [[|[]]].
    + destruct e; cbn; congruence.
Qed.

Lemma nil_body n : rest_body (ret []) (λ (vs : list value) p, vs = [] ∧ p = []) n.
Proof.
  split; [..|done].
  - intros s vs p rest Hwf Hk _ [-> ->] _ _. exists s. split; [done|by apply consumed_nil].
  - intros s vs s' Hwf Hk [= <- <-]. exists []. split; [done|]. split; [by apply consumed_nil|].
    destruct Hwf. unfold fits. destruct (s_stack s) as [|l ls]; [cbn; lia|].
    apply Forall_cons in wf_stack0 as [Hl _]. unfold listpos_ok in Hl. cbn. lia.
Qed.

Inductive seq_rel (R : value → bytes → Prop) : list value → bytes → Prop :=
| seq_nil : seq_rel R [] []
| seq_cons v vs a b : R v a → seq_rel R vs b → seq_rel R (v :: vs) (a ++ b).

(** No value has an empty encoding: at the end of a list a decoder reports
    [EOL]. *)
Lemma codec_nonempty {A} (m : M A) R n a : 0 ≤ n → codec m R n → ¬ R a [].
Proof.
  intros Hn Hc Ha. set (s := MkStream [] 0 true None 0 0 None [Listpos 0 0]).
  assert (stream_wf s) as Hwf.
  { split; cbn; try done. apply Forall_cons. split; [|done]. unfold listpos_ok, is_u64; cbn; lia. }
  destruct (codec_fwd _ _ _ Hc s a [] []) as (s' & Hm & _); try done.
  by rewrite (codec_end _ _ _ Hc s) in Hm.
Qed.

Lemma decodeSliceElems_fwd R n m fuel s vs p rest :
  codec m R n → stream_wf s → s_kind s = None → ends s (len p) → seq_rel R vs p →
  s_r s = p ++ rest → len p ≤ n → (length p < fuel)%nat →
  ∃ s', decodeSliceElems fuel m s = (Ok vs, s') ∧ consumed s p s'.
Proof.
  intros Hm. revert s vs p. induction fuel as [|fuel IH]; [lia|].
  intros s vs p Hwf Hk Hend Hs Hr Hl Hfu. cbn [decodeSliceElems]. unfold bind, attempt.
  destruct Hs as [|v vs a b Hv Hvs].
  - rewrite (codec_end _ _ _ Hm s) by (done || by apply ends_list_end).
    eexists. split; [done|]. destruct (consumed_nil s Hk). by split.
  - pose proof (ends_fits _ _ Hwf Hend) as Hf. rewrite <- app_assoc in Hr.
    rewrite length_app in *. rewrite Nat2Z.inj_add in *.
    destruct (codec_fwd _ _ _ Hm s v a (b ++ rest)) as (s1 & Hx & Hc); try done;
      [eapply fits_le; [done|lia]|lia|]. rewrite Hx.
    assert (a ≠ []) as Hne by (intros ->; revert Hv; eapply codec_nonempty; [|done]; cbn in *; lia).
    assert (0 < length a)%nat by (destruct a; [done|cbn; lia]).
    pose proof Hc as [Hr1 _ _ Hk1 _]. rewrite Hr in Hr1. apply app_inv_head in Hr1.
    destruct (IH s1 vs b) as (s2 & Hy & Hc2); try done; try lia.
    + eapply consumed_wf; [done| |exact Hc]. eapply fits_le; [done|lia].
    + by eapply ends_consumed.
    + rewrite Hy. eexists. split; [done|]. by eapply consumed_trans.
Qed.


Lemma decodeSliceElems_bwd R n m fuel s vs s' :
  codec m R n → stream_wf s → s_kind s = None →
  decodeSliceElems fuel m s = (Ok vs, s') →
  ∃ p, seq_rel R vs p ∧ consumed s p s' ∧ fits s (len p).
Proof.
  intros Hm. revert s vs s'. induction fuel as [|fuel IH]; [done|].
  intros s vs s' Hwf Hk. cbn [decodeSliceElems]. unfold bind, attempt.
  destruct (m s) as [[v|e] s1] eqn:Hx.
  - apply (codec_bwd _ _ _ Hm) in Hx as (a & Hv & Hc & Hf); [|done..].
    destruct (decodeSliceElems fuel m s1) as [[vs'|] s2] eqn:Hy; [|done]. intros [= <- <-].
    apply IH in Hy as (b & Hvs & Hc2 & Hf2); [|by eapply consumed_wf|by destruct Hc].
    exists (a ++ b). split; [by constructor|].
    split; [by eapply consumed_trans|by eapply fits_app].
  - destruct e; try done. intros [= <- <-].
    apply (codec_eol _ _ _ Hm) in Hx as [_ ->]; [|done].
    destruct (rest_bwd _ _ _ (nil_body n) s [] s Hwf Hk eq_refl) as (p & [_ ->] & [] & Hf).
    exists []. split; [constructor|]. split; [by split|done].
Qed.

Lemma decodeSliceElems_eol fuel m s : (decodeSliceElems fuel m s).1 ≠ Err EOL.
Proof.
  revert s. induction fuel as [|fuel IH]; intros s; [done|]. cbn [decodeSliceElems].
  unfold bind at 1, attempt. destruct (m s) as [[v|e] s1]; [|by destruct e].
  apply bind_not_eol; [apply IH|done].
Qed.

Lemma decodeSliceElems_body R n m fuel :
  codec m R n → n < Z.of_nat fuel → rest_body (decodeSliceElems fuel m) (seq_rel R) n.
Proof.
  intros Hm Hn. split; [| |apply decodeSliceElems_eol].
  - intros s vs p rest Hwf Hk Hend Hs Hr Hl. eapply decodeSliceElems_fwd; try done. lia.
  - intros s vs s' Hwf Hk Hx. by eapply decodeSliceElems_bwd.
Qed.

(** [decodeListSlice] skips the loop when the list is empty. *)
Lemma slice_list_body R n m fuel :
  codec m R n → n < Z.of_nat fuel →
  list_body (λ z, if z =? 0 then ret [] else decodeSliceElems fuel m) (seq_rel R) n.
Proof.
  intros Hm Hn. destruct (rest_list_body _ _ _ (decodeSliceElems_body R n m fuel Hm Hn)) as [Hf Hb He].
  split.
  - intros s vs p rest st Hwf Hk Hst Hs Hr Hl. case_if; [|by eapply Hf].
    destruct p; [|cbn in *; lia]. exists s. split; [|by apply consumed_nil].
    inversion Hs as [|v vs' a b Hv Hvs]; [done|].
    destruct a; [|done]. exfalso. revert Hv. eapply codec_nonempty; [|done]. done.
  - intros s vs z st s' Hwf Hk Hst. case_if; [|by eapply Hb].
    intros [= <- <-]. exists []. split; [by apply consumed_nil|].
    split; [|intros _; constructor]. apply ends_fits; [done|]. unfold ends. rewrite Hst. cbn. lia.
  - intros s z. case_if; [done|apply (He s z)].
Qed.

Lemma decodeListSlice_codec R n m fuel :
  codec m R n → n < Z.of_nat fuel →
  codec (decodeListSlice fuel m)
    (λ v out, ∃ vs p, v = VSlice false vs ∧ seq_rel R vs p ∧ out = rlp_list p) (n + 1).
Proof.
  intros Hm Hn. pose proof (slice_list_body R n m fuel Hm Hn) as Hb.
  eapply codec_ext; [|apply (codec_list _ _ _ StreamListEnd (VSlice false) (or_introl eq_refl) Hb)].
  intros s. unfold decodeListSlice, in_list, bind.
  destruct (wrapped StreamList s) as [[z|] s1]; [|done]. by case_if.
Qed.

Inductive fields_rel : list (value → bytes → Prop) → list value → bytes → Prop :=
| fields_nil : fields_rel [] [] []
| fields_cons R Rs v vs a b :
    R v a → fields_rel Rs vs b → fields_rel (R :: Rs) (v :: vs) (a ++ b).

Lemma fields_rel_cons R Rs vs p :
  fields_rel (R :: Rs) vs p ↔ cons_rel R (fields_rel Rs) vs p.
Proof.
  split.
  - intros H. inversion H; subst. unfold cons_rel. by eauto 8.
  - intros (v & vs' & a & b & -> & -> & ? & ?). by constructor.
Qed.

Lemma rest_body_iff {A} (m m' : M A) (R R' : A → bytes → Prop) n :
  (∀ s, m' s = m s) → (∀ a p, R a p ↔ R' a p) → rest_body m R n → rest_body m' R' n.
Proof.
  intros Em ER [Hf Hb He]. split.
  - intros s a p rest Hwf Hk Hend Ha. apply ER in Ha. rewrite Em. by apply Hf.
  - intros s a s' Hwf Hk. rewrite Em. intros Hm.
    apply Hb in Hm as (p & Ha & ?); [|done..]. apply ER in Ha. eauto.
  - intros s. rewrite Em. apply He.
Qed.

(** Fields one after the other; only the last may take the rest of the list. *)
Lemma decodeFields_body ms Rs n :
  Forall2 (λ m R, codec m R n) ms Rs → rest_body (decodeFields ms) (fields_rel Rs) n.
Proof.
  induction 1 as [|m R ms Rs Hm Hms IH].
  - eapply rest_body_iff; [done| |apply nil_body]. intros vs p.
    split; [intros [-> ->]; constructor|by inversion 1].
  - eapply rest_body_iff; [|intros; symmetry; apply fields_rel_cons|].
    2: { apply (cons_with_body (decodeError msg_struct_too_few)); [done|exact Hm|exact IH]. }
    done.
Qed.

Lemma decodeFields_last dec R n :
  rest_body dec R n → rest_body (decodeFields [dec]) (fields_rel [R]) n.
Proof.
  intros [Hf Hb He]. split.
  - intros s vs p rest Hwf Hk Hend Hv Hr Hl.
    inversion Hv as [|? ? v vs' a b Ha Hvs]; subst. inversion Hvs; subst. rewrite app_nil_r in *.
    destruct (Hf s v a rest) as (s' & Hm & Hc); try done.
    exists s'. cbn. unfold bind, attempt. by rewrite Hm.
  - intros s vs s' Hwf Hk. cbn. unfold bind, attempt.
    destruct (dec s) as [[v|e] s1] eqn:Hm; [|by destruct e]. intros [= <- <-].
    apply Hb in Hm as (p & Ha & Hc & Hfit); [|done..]. exists p. split; [|done].
    rewrite <- (app_nil_r p). by repeat constructor.
  - intros s. cbn. unfold bind, attempt. destruct (dec s) as [[v|e] s1]; [done|by destruct e].
Qed.

Lemma decodeFields_tail_body ms Rs dec R n :
  Forall2 (λ m R, codec m R n) ms Rs → rest_body dec R n →
  rest_body (decodeFields (ms ++ [dec])) (fields_rel (Rs ++ [R])) n.
Proof.
  intros Hms Hd. induction Hms as [|m R' ms Rs Hm Hms IH]; cbn [app].
  - by apply decodeFields_last.
  - eapply rest_body_iff; [|intros; symmetry; apply fields_rel_cons|].
    2: { apply (cons_with_body (decodeError msg_struct_too_few)); [done|exact Hm|exact IH]. }
    done.
Qed.

Lemma decodeArrayElems_body R n m k :
  codec m R n →
  rest_body (decodeArrayElems k m) (λ vs p, length vs = k ∧ seq_rel R vs p) n.
Proof.
  intros Hm. induction k as [|k IH].
  - eapply rest_body_iff; [done| |apply nil_body]. intros vs p. split.
    + intros [-> ->]. by repeat constructor.
    + intros [Hl Hs]. destruct Hs; [done|done].
  - eapply rest_body_iff; [| |apply (cons_with_body (decodeError msg_list_too_few));
      [done|exact Hm|exact IH]]; [done|].
    intros vs p. split.
    + intros (v & vs' & a & b & -> & -> & ? & <- & ?). split; [done|by constructor].
    + intros [Hl Hs]. destruct Hs as [|v vs a b]; [done|]. injection Hl as Hl.
      by exists v, vs, a, b.
Qed.

Lemma decodeListArray_codec R n m k :
  codec m R n →
  codec (decodeListArray k m)
    (λ v out, ∃ vs p, v = VSlice false vs ∧ (length vs = k ∧ seq_rel R vs p) ∧ out = rlp_list p)
    (n + 1).
Proof.
  intros Hm. pose proof (rest_list_body _ _ _ (decodeArrayElems_body R n m k Hm)) as Hb.
  exact (codec_list _ _ _ (wrapped StreamListEnd) (VSlice false) (or_intror eq_refl) Hb).
Qed.

Lemma decodeStruct_codec ms Rs n :
  rest_body (decodeFields ms) (fields_rel Rs) n →
  codec (decodeStruct ms)
    (λ v out, ∃ vs p, v = VStruct vs ∧ fields_rel Rs vs p ∧ out = rlp_list p) (n + 1).
Proof.
  intros Hm. pose proof (rest_list_body _ _ _ Hm) as Hb.
  exact (codec_list _ _ _ (wrapped StreamListEnd) VStruct (or_intror eq_refl) Hb).
Qed.

Lemma decodeBigInt_codec n :
  codec decodeBigInt
    (λ v out, ∃ i, v = VBigIntPtr (Some i) ∧ 0 ≤ i ∧ out = rlp_string (be_bytes i)) n.
Proof.
  destruct (codec_wrapped _ _ _ (StreamBytes_codec n)) as [Hf Hb He Hd Hc].
  unfold decodeBigInt, bind. split.
  - intros s v out rest Hwf Hk (i & -> & Hi & ->) Hr Hfit Hl.
    destruct (Hf s (be_bytes i) _ rest Hwf Hk eq_refl Hr Hfit Hl) as (s' & Hm & Hco).
    exists s'. rewrite Hm. split; [|done]. pose proof (be_decode_bytes i Hi) as E.
    destruct (be_bytes i) as [|b bs] eqn:Eb; [by rewrite <- E|].
    pose proof (be_bytes_head i b bs Hi Eb). rewrite E. by destruct b.
  - intros s v s' Hwf Hk. destruct (wrapped StreamBytes s) as [[b|] s1] eqn:Hm; [|done].
    apply Hb in Hm as (out & -> & Hco & Hfit); [|done..].
    intros Hx. pose proof (consumed_ok _ _ _ Hwf Hco) as Hok.
    assert (bytes_ok b) as Hbok.
    { destruct (rlp_string_cases b) as [(b0 & -> & _ & E)|[_ E]]; rewrite E in Hok; [done|].
      by apply bytes_ok_app in Hok as [_ ?]. }
    exists (rlp_string b).
    assert (v = VBigIntPtr (Some (be_decode b)) ∧ s' = s1 ∧ be_bytes (be_decode b) = b)
      as (-> & -> & E).
    { destruct b as [|[|p|p] bs]; try done; injection Hx as <- <-; [done|..];
        by rewrite be_bytes_decode. }
    split; [|done]. exists (be_decode b). rewrite E. pose proof (be_decode_bound b Hbok).
    split; [done|]. split; [lia|done].
  - intros s s' Hk. specialize (He s s' Hk).
    destruct (wrapped StreamBytes s) as [[b|e] s1].
    + by destruct b as [|[] ?].
    + intros [= -> <-]. by apply He.
  - intros s Hn Hk Hs. by rewrite (Hd s).
  - intros s kz s1 Hs Hg. apply (bind_fuel _ _ _ s1) in Hg. by rewrite (Hc s kz s1).
Qed.

(** Byte arrays other than [1]byte. *)
Lemma decodeByteArray_codec k n :
  k ≠ 1%nat →
  codec (decodeByteArray k)
    (λ v out, ∃ b, v = VByteArray false b ∧ length b = k ∧ out = rlp_string b) n.
Proof.
  intros Hk1. apply codec_kind.
  - intros s v out rest Hwf Hk (b & -> & Hl & ->) Hr Hf _.
    destruct (rlp_string_cases b) as [(b0 & -> & Hb & E)|[Hok E]]; [done|]. rewrite E in *.
    destruct (content_fwd s KString b rest) as (s1 & s' & Hs & Hm & Hc); try done.
    exists KString, (len b), s1, s'. split; [done|]. rewrite <- Hl. zcmp.
    unfold bind. rewrite Hm. split; [|done]. replace (len b =? 1) with false by lia. done.
  - intros s k' z s1 v s' Hwf Hk Hs. destruct k'; [| |done].
    + destruct k as [|[|k]]; done.
    + case_if; [done|]. case_if; [done|]. assert (z = Z.of_nat k) as -> by lia.
      unfold bind. destruct (readFull (Z.of_nat k) s1) as [[b|] s2] eqn:Hm; [|done].
      replace (Z.of_nat k =? 1) with false by lia. intros [= <- <-].
      apply (content_bwd s KString) in Hm as (Hl & Hc & Hf); [|done..].
      exists (header KString (len b) ++ b). split; [|done]. exists b. split; [done|].
      split; [lia|]. by destruct (rlp_string_cases b) as [(b0 & -> & Hb & E)|[Hok E]];
        [cbn in Hl; lia|].
  - intros s k' z s1 _ _ _. destruct k'; [| |done].
    + by destruct k as [|[|k]].
    + do 2 (case_if; [done|]). apply bind_not_eol; [apply readFull_not_eol|].
      intros ? s' _. by case_if.
Qed.

(** The encoding of an empty string or list. *)
Definition empty_item (k : Kind) : bytes := header k 0.
Definition nonempty_item (out : bytes) : Prop := out ≠ empty_item KString ∧ out ≠ empty_item KList.

Lemma item_kind s out rest :
  stream_wf s → raw_item out → s_r s = out ++ rest → fits s (len out) →
  ∃ k z s1, kind_spec s k z s1 ∧ (nonempty_item out → k = KByte ∨ z ≠ 0).
Proof.
  intros Hwf [(b & -> & Hb)|(k & c & Hk & ->)] Hr Hf.
  - destruct (byte_fwd s b rest) as (s1 & Hs & _); try done. eauto 6.
  - destruct (content_fwd s k c rest) as (s1 & _ & Hs & _); try done.
    exists k, (len c), s1. split; [done|]. intros [H1 H2]. right.
    intros Hz. destruct c; [|cbn in Hz; lia]. by destruct k.
Qed.

Lemma empty_item_kind s k rest :
  k ≠ KByte → stream_wf s → s_r s = empty_item k ++ rest → fits s (len (empty_item k)) →
  ∃ s1, kind_spec s k 0 s1 ∧ consumed s (empty_item k) (set_kind None s1).
Proof.
  intros Hk Hwf Hr Hf. exists (after_kind k 0 0 (header k 0) rest s). split.
  - apply kind_spec_header; [done|done|done|]. by rewrite Z.add_0_r.
  - by apply (after_kind_props k 0 0 (header k 0) rest s).
Qed.

Lemma decodeNilPtr_codec k dec R n :
  k ≠ KByte → codec dec R n → (∀ v out, R v out → raw_item out) →
  codec (decodeNilPtr k dec)
    (λ v out, (v = VPtr k None ∧ out = empty_item k)
      ∨ ∃ v', v = VPtr k (Some v') ∧ R v' out ∧ nonempty_item out) n.
Proof.
  intros Hk Hdec Hitem. apply codec_kind'; [by right|..].
  - intros s v out rest Hwf Hks Hv Hr Hf Hl.
    destruct Hv as [[-> ->]|(v' & -> & Hv & Hne)].
    + destruct (empty_item_kind s k rest) as (s1 & Hs & Hc); try done.
      exists k, 0, s1, (set_kind None s1). split; [done|].
      rewrite !bool_decide_false by done. by rewrite bool_decide_true.
    + destruct (item_kind s out rest) as (k' & z & s1 & Hs & Hz); try done; [by eauto|].
      destruct (codec_fwd _ _ _ Hdec s v' out rest) as (s' & Hm & Hc); try done.
      exists k', z, s1, s'. split; [done|].
      apply kind_spec_fwd in Hs; [|done..]. apply (codec_cached _ _ _ Hdec) in Hs; [|left; lia].
      assert (negb (bool_decide (k' = KByte)) && (z =? 0) = false) as ->.
      { destruct (Hz Hne) as [->|Hz']; [by rewrite bool_decide_true|].
        replace (z =? 0) with false by lia. apply andb_false_r. }
      unfold bind. by rewrite Hs, Hm.
  - intros s k' z s1 v s' Hwf Hks Hs.
    destruct (negb (bool_decide (k' = KByte)) && (z =? 0)) eqn:E.
    + apply andb_true_iff in E as [E1 E2]. apply negb_true_iff, bool_decide_eq_false in E1.
      case_bool_decide; [|done]. subst k'. intros [= <- <-]. assert (z = 0) as -> by lia.
      inversion Hs as [|? ? rest _ _ Hr Hf]; subst; [done|]. rewrite Z.add_0_r in Hf.
      exists (empty_item k). split; [by left|].
      split; [by apply (after_kind_props k 0 0 (header k 0) rest s)|done].
    + pose proof (kind_spec_fwd _ _ _ _ Hwf Hks Hs) as HK. unfold bind.
      destruct (dec s1) as [[v'|] s2] eqn:Hm; [|done]. intros [= <- <-].
      rewrite (codec_cached _ _ _ Hdec _ _ _ HK) in Hm by (right; by rewrite Hm).
      apply (codec_bwd _ _ _ Hdec) in Hm as (out & Hv & Hc & Hf); [|done..].
      exists out. split; [|done]. right. exists v'. split; [done|]. split; [done|].
      assert (∀ k0, k0 ≠ KByte → out ≠ empty_item k0) as Hne; [|split; by apply Hne].
      intros k0 Hk0 ->. destruct (empty_item_kind s k0 (s_r s2)) as (s3 & Hs3 & _); try done;
        [by destruct Hc|]. apply kind_spec_fwd in Hs3; [|done..]. rewrite HK in Hs3.
      injection Hs3 as -> -> _. by rewrite bool_decide_false in E.
  - intros s k' z s1 Hks HK Hend. destruct (_ && _); [by case_bool_decide|].
    unfold bind. destruct (dec s1) as [[v'|e] s2] eqn:Hm; [done|]. cbn. intros [= ->].
    rewrite (codec_cached _ _ _ Hdec _ _ _ HK) in Hm by (right; by rewrite Hm).
    apply (codec_eol _ _ _ Hdec) in Hm as [? _]; [congruence|done].
Qed.

Lemma kind_string_or_list b : raw_item (rlp_string b) ∧ raw_item (rlp_list b).
Proof.
  split; [|right; by exists KList, b].
  destruct (rlp_string_cases b) as [(b0 & -> & Hb & ->)|[_ ->]]; [left|right].
  - by exists b0.
  - by exists KString, b.
Qed.

Lemma decodeInterface_codec dec R n :
  codec dec R n → (∀ v out, R v out → ∃ p, out = rlp_list p) →
  codec (decodeInterface dec)
    (λ v out, (∃ b, v = VInterface (Some (VBytes b)) ∧ out = rlp_string b)
      ∨ ∃ v', v = VInterface (Some v') ∧ R v' out) n.
Proof.
  intros Hdec Hlist. pose proof (StreamBytes_codec n) as Hbytes. apply codec_kind.
  - intros s v out rest Hwf Hk Hv Hr Hf Hl. destruct Hv as [(b & -> & ->)|(v' & -> & Hv)].
    + destruct (codec_fwd _ _ _ Hbytes s b _ rest Hwf Hk eq_refl Hr Hf Hl) as (s' & Hm & Hc).
      assert (∃ k z s1, k ≠ KList ∧ kind_spec s k z s1) as (k & z & s1 & Hkl & Hs).
      { destruct (rlp_string_cases b) as [(b0 & -> & Hb & E)|[_ E]]; rewrite E in *.
        - destruct (byte_fwd s b0 rest) as (s1 & Hs & _); try done. by exists KByte, 0, s1.
        - destruct (content_fwd s KString b rest) as (s1 & _ & Hs & _); try done.
          by exists KString, (len b), s1. }
      exists k, z, s1, s'. split; [done|]. apply kind_spec_fwd in Hs; [|done..].
      apply (codec_cached _ _ _ Hbytes) in Hs; [|left; lia]. rewrite Hm in Hs.
      split; [|done]. destruct k; [..|done]; unfold bind; by rewrite Hs.
    + destruct (codec_fwd _ _ _ Hdec s v' _ rest Hwf Hk Hv Hr Hf Hl) as (s' & Hm & Hc).
      destruct (Hlist _ _ Hv) as (p & ->).
      destruct (content_fwd s KList p rest) as (s1 & _ & Hs & _); try done.
      exists KList, (len p), s1, s'. split; [done|]. apply kind_spec_fwd in Hs; [|done..].
      apply (codec_cached _ _ _ Hdec) in Hs; [|left; lia]. rewrite Hm in Hs.
      split; [|done].
      unfold bind. by rewrite Hs.
  - intros s k z s1 v s' Hwf Hk Hs. apply kind_spec_fwd in Hs; [|done..].
    unfold bind. destruct (decide (k = KList)) as [->|Hkl].
    + destruct (dec s1) as [[v'|] s2] eqn:Hm; [|done]. intros [= <- <-].
      rewrite (codec_cached _ _ _ Hdec _ _ _ Hs) in Hm by (right; by rewrite Hm).
      apply (codec_bwd _ _ _ Hdec) in Hm as (out & Hv & Hc & Hf); [|done..]. by eauto 8.
    + intros Hx.
      assert (∃ b, StreamBytes s1 = (Ok b, s') ∧ v = VInterface (Some (VBytes b))) as (b & Hm & ->).
      { destruct k; [| |done]; destruct (StreamBytes s1) as [[b|] s2]; try done;
          injection Hx as <- <-; eauto. }
      rewrite (codec_cached _ _ _ Hbytes _ _ _ Hs) in Hm by (right; by rewrite Hm).
      apply (codec_bwd _ _ _ Hbytes) in Hm as (out & -> & Hc & Hf); [|done..]. by eauto 8.
  - intros s k z s1 Hk Hs Hend.
    assert (∀ A (m : M A) R', codec m R' n → (m s1).1 ≠ Err EOL) as Hne.
    { intros A m R' Hm He. destruct (m s1) as [r s2] eqn:E. cbn in He. subst r.
      rewrite (codec_cached _ _ _ Hm _ _ _ Hs) in E by (right; by rewrite E).
      apply (codec_eol _ _ _ Hm) in E as [? _]; [congruence|done]. }
    destruct k; (apply bind_not_eol; [by eapply Hne|done]).
Qed.

(** ** Typed values *)

(** The values of a type that its decoder can produce.  A pointer decoded with
    "nil" handling never points to a value with an empty encoding. *)
Inductive has_type : rtype → value → Prop :=
| HT_Raw b : raw_item b → has_type TRaw (VRaw b)
| HT_BigInt i : 0 ≤ i → has_type TBigInt (VBigIntPtr (Some i))
| HT_Ptr t v : has_type t v → has_type (TPtr t) (VPtr (defaultNilKind t) (Some v))
| HT_Nil k t : has_type (TNilPtr k t) (VPtr k None)
| HT_NilPtr k t v :
    has_type t v → (∀ out, rlp_spec v = Ok out → nonempty_item out) →
    has_type (TNilPtr k t) (VPtr k (Some v))
| HT_Uint bits i : 0 ≤ i < 2 ^ bits → has_type (TUint bits) (VUint i)
| HT_Bool b : has_type TBool (VBool b)
| HT_String b : has_type TString (VString b)
| HT_Bytes b : has_type TByteSlice (VBytes b)
| HT_Array n b : length b = n → has_type (TByteArray n) (VByteArray false b)
| HT_Slice t vs : Forall (has_type t) vs → has_type (TSlice t) (VSlice false vs)
| HT_ListArray n t vs :
    length vs = n → Forall (has_type t) vs → has_type (TArray n t) (VSlice false vs)
| HT_Struct fs vs : Forall2 has_type fs vs → has_type (TStruct fs None) (VStruct vs)
| HT_StructTail fs t vs ws :
    Forall2 has_type fs vs → Forall (has_type t) ws →
    has_type (TStruct fs (Some t)) (VStruct (vs ++ [VSlice true ws]))
| HT_IfaceBytes b : has_type TInterface (VInterface (Some (VBytes b)))
| HT_IfaceList vs :
    Forall (has_type TInterface) vs → has_type TInterface (VInterface (Some (VSlice false vs))).

(** Types whose decoder is exact: integers of whole bytes, "nil" kinds as the
    tags give them, and no [1]byte array (see [decode_byte_array1_zero]). *)
Inductive type_ok : rtype → Prop :=
| OK_Raw : type_ok TRaw
| OK_BigInt : type_ok TBigInt
| OK_Ptr t : type_ok t → type_ok (TPtr t)
| OK_NilPtr k t : k ≠ KByte → type_ok t → type_ok (TNilPtr k t)
| OK_Uint bits : bits ∈ [8; 16; 32; 64] → type_ok (TUint bits)
| OK_Bool : type_ok TBool
| OK_String : type_ok TString
| OK_Bytes : type_ok TByteSlice
| OK_Array n : n ≠ 1%nat → type_ok (TByteArray n)
| OK_Slice t : type_ok t → type_ok (TSlice t)
| OK_ListArray n t : type_ok t → type_ok (TArray n t)
| OK_Struct fs : Forall type_ok fs → type_ok (TStruct fs None)
| OK_StructTail fs t : Forall type_ok fs → type_ok t → type_ok (TStruct fs (Some t))
| OK_Interface : type_ok TInterface.

Definition enc (t : rtype) (v : value) (out : bytes) : Prop :=
  has_type t v ∧ rlp_spec v = Ok out.

Lemma seq_rel_enc t vs p :
  seq_rel (enc t) vs p ↔ Forall (has_type t) vs ∧ spec_all rlp_spec vs = Ok p.
Proof.
  split.
  - induction 1 as [|v vs a b [Ht Hs] _ [IH1 IH2]]; [done|]. split; [by constructor|].
    apply spec_all_cons. eauto.
  - intros [Ht Hs]. revert p Hs. induction Ht as [|v vs Ht _ IH]; intros p Hs.
    + injection Hs as <-. constructor.
    + apply spec_all_cons in Hs as (a & b & Ha & Hb & ->). constructor; [done|]. by apply IH.
Qed.

Lemma fields_rel_enc fs vs p :
  fields_rel (enc <$> fs) vs p ↔ Forall2 has_type fs vs ∧ spec_all rlp_spec vs = Ok p.
Proof.
  revert vs p. induction fs as [|t fs IH]; intros vs p; cbn [fmap list_fmap].
  - split; [by inversion 1|]. intros [H E]. inversion H; subst. injection E as <-. constructor.
  - split.
    + intros H. inversion H as [|? ? v vs' a b Ht Hvs]; subst. destruct Ht as [Ht Hs].
      apply IH in Hvs as [H1 H2]. split; [by constructor|]. apply spec_all_cons. eauto.
    + intros [H E]. inversion H; subst. apply spec_all_cons in E as (a & b & Ha & Hb & ->).
      constructor; [done|]. by apply IH.
Qed.

Lemma fields_rel_app Rs R vs p :
  fields_rel (Rs ++ [R]) vs p ↔
  ∃ vs' v a b, vs = vs' ++ [v] ∧ p = a ++ b ∧ fields_rel Rs vs' a ∧ R v b.
Proof.
  revert vs p. induction Rs as [|R' Rs IH]; intros vs p; cbn [app].
  - split.
    + intros H. inversion H as [|? ? v vs' a b Ha Hvs]; subst. inversion Hvs; subst.
      exists [], v, [], a. rewrite app_nil_r. by repeat constructor.
    + intros (vs' & v & a & b & -> & -> & H & Hv). inversion H; subst.
      rewrite <- (app_nil_r b). cbn. constructor; [done|constructor].
  - split.
    + intros H. inversion H as [|? ? v vs' a b Ha Hvs]; subst.
      apply IH in Hvs as (vs1 & v1 & a1 & b1 & -> & -> & H1 & H2).
      exists (v :: vs1), v1, (a ++ a1), b1. rewrite app_assoc. by repeat constructor.
    + intros (vs' & v & a & b & -> & -> & H & Hv). inversion H; subst. cbn.
      rewrite <- app_assoc. constructor; [done|]. apply IH. by eauto 8.
Qed.

Lemma enc_item t v out : type_ok t → enc t v out → raw_item out.
Proof.
  intros Hok [Ht Hs]. revert out Hok Hs.
  induction Ht; intros out Hok Hs; cbn in Hs; unfold rlp_nat in Hs;
    try (replace (i <? 0) with false in Hs by lia); try injection Hs as <-; try apply kind_string_or_list;
    try (apply fmap_ok in Hs as (p & _ & <-); apply kind_string_or_list); try done.
  - inversion Hok; subst. destruct (defaultNilKind t); by apply IHHt.
  - inversion Hok as [| | |? ? Hk| | | | | | | | | |]; subst. destruct k; [done|..];
      injection Hs as <-; right; [exists KString, []|exists KList, []]; done.
  - inversion Hok; subst. destruct k; by apply IHHt.
Qed.

Lemma codec_out_of_fuel {A} (R : A → bytes → Prop) n :
  n < 0 → codec (fail ErrOutOfFuel) R n.
Proof. intros Hn. split; intros; try lia; try done. cbn in *. intuition; lia. Qed.

Lemma tdepth_pos t : (1 ≤ tdepth t)%nat.
Proof. destruct t; cbn; lia. Qed.

Lemma list_max_elem (x : nat) l : x ∈ l → (x ≤ list_max l)%nat.
Proof.
  intros Hx. pose proof (proj1 (list_max_le l (list_max l)) ltac:(lia)) as H.
  rewrite Stdlib.Lists.List.Forall_forall in H. apply H. by apply list_elem_of_In.
Qed.

(** One lemma per composite type: [enc] agrees with the relation of its
    decoder. *)
Lemma enc_slice t v out :
  (∃ vs p, v = VSlice false vs ∧ seq_rel (enc t) vs p ∧ out = rlp_list p)
  ↔ enc (TSlice t) v out.
Proof.
  split.
  - intros (vs & p & -> & [Ht Hs]%seq_rel_enc & ->). split; [by constructor|]. cbn. by rewrite Hs.
  - intros [Ht Hs]. inversion Ht; subst. cbn in Hs. apply fmap_ok in Hs as (p & Hs & <-).
    eexists _, p. split; [done|]. split; [by apply seq_rel_enc|done].
Qed.

Lemma enc_array k t v out :
  (∃ vs p, v = VSlice false vs ∧ (length vs = k ∧ seq_rel (enc t) vs p) ∧ out = rlp_list p)
  ↔ enc (TArray k t) v out.
Proof.
  split.
  - intros (vs & p & -> & [Hl [Ht Hs]%seq_rel_enc] & ->). split; [by constructor|].
    cbn. by rewrite Hs.
  - intros [Ht Hs]. inversion Ht; subst. cbn in Hs. apply fmap_ok in Hs as (p & Hs & <-).
    eexists _, p. split; [done|]. split; [by rewrite seq_rel_enc|done].
Qed.

Definition tail_rel (t : rtype) (v : value) (p : bytes) : Prop :=
  ∃ ws, v = VSlice true ws ∧ seq_rel (enc t) ws p.

Lemma enc_struct fs v out :
  (∃ vs p, v = VStruct vs ∧ fields_rel (enc <$> fs) vs p ∧ out = rlp_list p)
  ↔ enc (TStruct fs None) v out.
Proof.
  split.
  - intros (vs & p & -> & [Ht Hs]%fields_rel_enc & ->). split; [by constructor|].
    cbn. by rewrite Hs.
  - intros [Ht Hs]. inversion Ht; subst. cbn in Hs. apply fmap_ok in Hs as (p & Hs & <-).
    eexists _, p. split; [done|]. split; [by rewrite fields_rel_enc|done].
Qed.

Lemma enc_struct_tail fs t v out :
  (∃ vs p, v = VStruct vs ∧ fields_rel ((enc <$> fs) ++ [tail_rel t]) vs p ∧ out = rlp_list p)
  ↔ enc (TStruct fs (Some t)) v out.
Proof.
  split.
  - intros (vs & p & -> & H & ->).
    apply fields_rel_app in H as (vs' & v & a & b & -> & -> & [Ht Hs]%fields_rel_enc & Hv).
    destruct Hv as (ws & -> & [Ht' Hs']%seq_rel_enc). split; [by constructor|].
    cbn. rewrite (proj2 (spec_all_app vs' [VSlice true ws] (a ++ b))); [done|].
    exists a, b. split; [done|]. split; [|done]. cbn. rewrite Hs'. cbn. by rewrite app_nil_r.
  - intros [Ht Hs]. inversion Ht as [| | | | | | | | | | | | |? ? vs ws Hvs Hws| |]; subst.
    cbn in Hs. apply fmap_ok in Hs as (p & Hs & <-).
    eexists _, p. split; [done|]. split; [|done]. apply fields_rel_app.
    apply spec_all_app in Hs as (a & b & Ha & Hb & ->).
    apply spec_all_cons in Hb as (c & d & Hc & [= <-] & ->). rewrite app_nil_r.
    eexists vs, _, a, c. do 2 (split; [done|]). rewrite fields_rel_enc. split; [done|].
    exists ws. by rewrite seq_rel_enc.
Qed.

Lemma enc_nilptr k t v out :
  k ≠ KByte →
  ((v = VPtr k None ∧ out = empty_item k)
    ∨ ∃ v', v = VPtr k (Some v') ∧ enc t v' out ∧ nonempty_item out)
  ↔ enc (TNilPtr k t) v out.
Proof.
  intros Hk. split.
  - intros [[-> ->]|(v' & -> & [Ht Hs] & Hne)].
    + split; [constructor|]. by destruct k.
    + split; [|by destruct k]. constructor; [done|]. intros out'. rewrite Hs. by intros [= <-].
  - intros [Ht Hs]. inversion Ht as [| | | |? ? v' Ht' Hne| | | | | | | | | | |]; subst.
    + left. split; [done|]. destruct k; [done|..]; by injection Hs as <-.
    + assert (rlp_spec v' = Ok out) as Hs' by (by destruct k).
      right. exists v'. split; [done|]. split; [done|]. by apply Hne.
Qed.

Lemma enc_interface v out :
  ((∃ b, v = VInterface (Some (VBytes b)) ∧ out = rlp_string b)
    ∨ ∃ v', v = VInterface (Some v') ∧
      ∃ vs p, v' = VSlice false vs ∧ seq_rel (enc TInterface) vs p ∧ out = rlp_list p)
  ↔ enc TInterface v out.
Proof.
  split.
  - intros [(b & -> & ->)|(v' & -> & vs & p & -> & [Ht Hs]%seq_rel_enc & ->)].
    + split; [constructor|done].
    + split; [by constructor|]. cbn. by rewrite Hs.
  - intros [Ht Hs]. inversion Ht; subst; cbn in Hs.
    + left. injection Hs as <-. eauto.
    + right. apply fmap_ok in Hs as (p & Hs & <-). eexists. split; [done|].
      eexists _, p. split; [done|]. by rewrite seq_rel_enc.
Qed.

(** A decoder with relation [R] is a codec for a type when [R] is [enc]. *)
Ltac codec_by H := eapply codec_iff; [apply H|lia|]; intros v out _ _.
Ltac enc_leaf :=
  split; [intros (? & -> & ?); destruct_and?; subst; split; [constructor; (done || lia)|done]
         |intros [Ht Hs]; inversion Ht; subst; injection Hs as <-; eexists; split; [reflexivity|done]].

Lemma struct_body fuel fs n :
  Forall (λ t, codec (decode fuel t) (enc t) n) fs →
  Forall2 (λ m R, codec m R n) (decode fuel <$> fs) (enc <$> fs).
Proof. induction 1; cbn; by constructor. Qed.

Lemma tail_body fuel t n :
  codec (decode fuel t) (enc t) n → n < Z.of_nat fuel →
  rest_body (let! vs := decodeSliceElems fuel (decode fuel t) in ret (VSlice true vs))
    (tail_rel t) n.
Proof.
  intros Hc Hn. destruct (decodeSliceElems_body _ _ _ _ Hc Hn) as [Hf Hb He].
  unfold tail_rel, bind. split.
  - intros s v p rest Hwf Hk Hend (ws & -> & Hs) Hr Hl.
    destruct (Hf s ws p rest) as (s' & Hm & Hco); try done. exists s'. by rewrite Hm.
  - intros s v s' Hwf Hk. destruct (decodeSliceElems _ _ s) as [[ws|] s1] eqn:Hm; [|done].
    intros [= <- <-]. apply Hb in Hm as (p & Hs & Hco & Hfit); [|done..]. by eauto 10.
  - intros s. apply bind_not_eol; [apply He|done].
Qed.

Lemma decode_codec_struct fuel fs tl n :
  Forall (λ t, codec (decode fuel t) (enc t) (n - 1)) fs →
  (∀ t, tl = Some t → codec (decode fuel t) (enc t) (n - 1)) → n ≤ Z.of_nat fuel →
  codec (decode (S fuel) (TStruct fs tl)) (enc (TStruct fs tl)) n.
Proof.
  intros Hfs Htl Hn. cbn [decode]. pose proof (struct_body _ _ _ Hfs) as Hb.
  destruct tl as [t|].
  - specialize (Htl t eq_refl). pose proof (tail_body fuel t (n - 1) Htl ltac:(lia)) as Ht.
    codec_by (decodeStruct_codec _ _ _ (decodeFields_tail_body _ _ _ _ _ Hb Ht)).
    apply enc_struct_tail.
  - rewrite app_nil_r. codec_by (decodeStruct_codec _ _ _ (decodeFields_body _ _ _ Hb)).
    apply enc_struct.
Qed.

Lemma fields_depth fuel fs n :
  Forall type_ok fs → Z.of_nat (list_max (tdepth <$> fs)) + 2 * n ≤ Z.of_nat fuel →
  (∀ t n, type_ok t → Z.of_nat (tdepth t) + 2 * n ≤ Z.of_nat fuel →
    codec (decode fuel t) (enc t) n) →
  Forall (λ t, codec (decode fuel t) (enc t) n) fs.
Proof.
  intros Hok Hn IH. apply Forall_forall. intros t Ht. rewrite Forall_forall in Hok.
  apply IH; [by apply Hok|].
  pose proof (list_max_elem (tdepth t) (tdepth <$> fs)) as Hm.
  specialize (Hm ltac:(apply list_elem_of_fmap; eauto)). lia.
Qed.

Lemma decode_codec fuel t n :
  type_ok t → Z.of_nat (tdepth t) + 2 * n ≤ Z.of_nat fuel → codec (decode fuel t) (enc t) n.
Proof.
  revert t n. induction fuel as [|fuel IH]; intros t n Hok Hn.
  { apply codec_out_of_fuel. pose proof (tdepth_pos t). lia. }
  destruct Hok as [| |t Hok|k t Hk Hok|bits Hb| | | |k Hk|t Hok|k t Hok|fs Hok|fs t Hfs Hok|];
    try (apply decode_codec_struct);
    cbn [decode]; cbn [tdepth] in Hn; try (pose proof (tdepth_pos t)).
  - codec_by (codec_map StreamRaw VRaw _ n (StreamRaw_codec n)). enc_leaf.
  - codec_by (decodeBigInt_codec n). split.
    + intros (i & -> & Hi & ->). split; [by constructor|]. cbn. unfold rlp_nat. by zcmp.
    + intros [Ht Hs]. inversion Ht; subst. cbn in Hs. unfold rlp_nat in Hs.
      replace (_ <? 0) with false in Hs by lia. injection Hs as <-. eauto.
  - codec_by (codec_map _ (λ v, VPtr (defaultNilKind t) (Some v)) _ n (IH t n Hok ltac:(lia))).
    split.
    + intros (v' & -> & Ht & Hs). split; [by constructor|]. cbn. by destruct (defaultNilKind t).
    + intros [Ht Hs]. inversion Ht as [| |? v' Ht'| | | | | | | | | | | | |]; subst.
      exists v'. split; [done|]. split; [done|]. cbn in Hs. by destruct (defaultNilKind t).
  - codec_by (decodeNilPtr_codec k _ _ n Hk (IH t n Hok ltac:(lia))
      (λ v out, enc_item t v out Hok)). by apply enc_nilptr.
  - assert (0 < bits ∧ bits `mod` 8 = 0) as [Hb1 Hb2]
      by (rewrite !elem_of_cons, elem_of_nil in Hb; destruct_or! Hb; by subst).
    codec_by (codec_map _ VUint _ n (codec_wrapped _ _ _ (StreamUint_codec bits n Hb1 Hb2))).
    enc_leaf.
  - codec_by (codec_map _ VBool _ n (codec_wrapped _ _ _ (StreamBool_codec n))). enc_leaf.
  - codec_by (codec_map _ VString _ n (codec_wrapped _ _ _ (StreamBytes_codec n))). enc_leaf.
  - codec_by (codec_map _ VBytes _ n (codec_wrapped _ _ _ (StreamBytes_codec n))). enc_leaf.
  - codec_by (decodeByteArray_codec k n Hk). enc_leaf.
  - codec_by (decodeListSlice_codec (enc t) (n - 1) _ fuel (IH t (n - 1) Hok ltac:(lia)) ltac:(lia)).
    apply enc_slice.
  - codec_by (decodeListArray_codec (enc t) (n - 1) _ k (IH t (n - 1) Hok ltac:(lia))).
    apply enc_array.
  - apply fields_depth; [done|lia|exact IH].
  - done.
  - lia.
  - apply fields_depth; [done|lia|exact IH].
  - intros ? [= <-]. apply IH; [done|lia].
  - lia.
  - pose proof (IH TInterface (n - 1) OK_Interface ltac:(cbn; lia)) as Hi.
    pose proof (decodeListSlice_codec _ _ _ fuel Hi ltac:(lia)) as Hl.
    codec_by (decodeInterface_codec _ _ _ Hl ltac:(intros v out (vs & p & _ & _ & ->); eauto)).
    apply enc_interface.
Qed.

(** ** Lemmas: enough fuel *)

Lemma bind_no_fuel {A B} (m : M A) (f : A → M B) s :
  (m s).1 ≠ Err ErrOutOfFuel →
  (∀ a s', m s = (Ok a, s') → (f a s').1 ≠ Err ErrOutOfFuel) →
  (bind m f s).1 ≠ Err ErrOutOfFuel.
Proof.
  intros Hm Hf. unfold bind. destruct (m s) as [[a|e] s'] eqn:E; cbn in *; [by apply Hf|].
  intros [= ->]. by apply Hm.
Qed.

Lemma wrapped_no_fuel {A} (m : M A) s :
  (m s).1 ≠ Err ErrOutOfFuel → (wrapped m s).1 ≠ Err ErrOutOfFuel.
Proof. unfold wrapped. destruct (m s) as [[|[]]]; cbn; congruence. Qed.

Lemma willRead_no_fuel n s : (willRead n s).1 ≠ Err ErrOutOfFuel.
Proof. unfold willRead. by repeat case_match. Qed.
Lemma readByte_no_fuel s : (readByte s).1 ≠ Err ErrOutOfFuel.
Proof.
  apply bind_no_fuel; [apply willRead_no_fuel|]. intros _ s' _. cbn. by destruct (s_r s').
Qed.
Lemma readFull_no_fuel n s : (readFull n s).1 ≠ Err ErrOutOfFuel.
Proof.
  apply bind_no_fuel; [apply willRead_no_fuel|]. intros _ s' _. cbn. by case_if.
Qed.
Lemma readUint_no_fuel n s : (readUint n s).1 ≠ Err ErrOutOfFuel.
Proof.
  unfold readUint. case_if; [done|]. case_if; [apply readByte_no_fuel|].
  apply bind_no_fuel; [apply readFull_no_fuel|]. intros ? s' _. cbn. by case_if.
Qed.

Lemma readKind_no_fuel s r s' :
  readKind_ s = (r, s') → ∃ k n e, r = Ok (k, n, e) ∧ e ≠ Some ErrOutOfFuel.
Proof.
  unfold readKind_, bind, attempt, ret. pose proof (readByte_no_fuel s) as Hb.
  destruct (readByte s) as [[b|e] s1]; cbn -[Z.sub] in *.
  - repeat case_if; cbn -[Z.sub]; try (intros [= <- <-]; by eauto 6);
      match goal with |- context [readUint ?m ?s2] =>
        pose proof (readUint_no_fuel m s2); destruct (readUint m s2) as [[v|e] s3]
      end; cbn -[Z.sub] in *; intros [= <- <-];
      (do 3 eexists; split; [done|]); try (case_if; done); congruence.
  - intros [= <- <-]. do 3 eexists; split; [done|].
    destruct (s_stack s1), e; try done; congruence.
Qed.

Lemma StreamKind_no_fuel s : s_kind s = None → (StreamKind s).1 ≠ Err ErrOutOfFuel.
Proof.
  intros Hk. unfold StreamKind. rewrite Hk. destruct (at_list_end _); [done|].
  destruct (readKind_ _) as [r s'] eqn:Er. apply readKind_no_fuel in Er as (k & n & e & -> & He).
  destruct e as [e|]; cbn; [congruence|]. unfold kind_bounds. cbn.
  repeat case_match; cbn; congruence.
Qed.

Create HintDb no_fuel.
#[export] Hint Resolve bind_no_fuel wrapped_no_fuel readFull_no_fuel readUint_no_fuel
  StreamKind_no_fuel : no_fuel.

Lemma StreamBytes_no_fuel s : s_kind s = None → (StreamBytes s).1 ≠ Err ErrOutOfFuel.
Proof.
  intros Hk. apply bind_no_fuel; [auto with no_fuel|]. intros [[] z] s' _; try done.
  apply bind_no_fuel; [auto with no_fuel|]. intros b s2 _. by case_if.
Qed.
Lemma StreamRaw_no_fuel s : s_kind s = None → (StreamRaw s).1 ≠ Err ErrOutOfFuel.
Proof.
  intros Hk. apply bind_no_fuel; [auto with no_fuel|]. intros [[] z] s' _; try done;
    (apply bind_no_fuel; [auto with no_fuel|done]).
Qed.
Lemma StreamUint_no_fuel bits s : s_kind s = None → (StreamUint bits s).1 ≠ Err ErrOutOfFuel.
Proof.
  intros Hk. apply bind_no_fuel; [auto with no_fuel|]. intros [[] z] s' _; [..|done].
  - cbn. by case_if.
  - case_if; [done|]. unfold bind, attempt. pose proof (readUint_no_fuel z s').
    destruct (readUint z s') as [[v|e] s2]; [by case_if|]. by destruct e.
Qed.
Lemma StreamBool_no_fuel s : s_kind s = None → (StreamBool s).1 ≠ Err ErrOutOfFuel.
Proof.
  intros Hk. apply bind_no_fuel; [by apply StreamUint_no_fuel|]. by intros [|[]|] s' _.
Qed.
Lemma StreamList_no_fuel s : s_kind s = None → (StreamList s).1 ≠ Err ErrOutOfFuel.
Proof. intros Hk. apply bind_no_fuel; [auto with no_fuel|]. by intros [[] z] s' _. Qed.
Lemma StreamListEnd_no_fuel s : (StreamListEnd s).1 ≠ Err ErrOutOfFuel.
Proof. unfold StreamListEnd. destruct (s_stack s); [done|]. by case_if. Qed.
#[export] Hint Resolve StreamBytes_no_fuel StreamRaw_no_fuel StreamUint_no_fuel StreamBool_no_fuel
  StreamList_no_fuel StreamListEnd_no_fuel : no_fuel.

(** [fueled m n]: with at most [n] bytes of input left, [m] does not run out of
    fuel, whatever the input is. *)
Definition fueled {A} (m : M A) (n : Z) : Prop :=
  ∀ s, stream_wf s → s_kind s = None → s_remaining s ≤ n → (m s).1 ≠ Err ErrOutOfFuel.

Lemma fueled_ret {A B} (m : M A) (f : A → B) n :
  fueled m n → fueled (let! a := m in ret (f a)) n.
Proof. intros Hm s ? ? ?. apply bind_no_fuel; [by apply Hm|done]. Qed.

Lemma consumed_rest s a s' n :
  stream_wf s → consumed s a s' → fits s (len a) → s_remaining s ≤ n →
  stream_wf s' ∧ s_kind s' = None ∧ s_remaining s' ≤ n - len a.
Proof.
  intros Hwf Hc Hf Hn. split; [by eapply consumed_wf|]. destruct Hc. split; [done|]. lia.
Qed.

(** A loop that reads one element before continuing. *)
Lemma fueled_cons R n (m : M value) (short : M (list value)) (rest : M (list value)) :
  codec m R n → fueled m n → fueled rest (n - 1) → (∀ s, (short s).1 ≠ Err ErrOutOfFuel) →
  fueled (let! rv := attempt m in
          match rv with
          | Err EOL => short
          | Err e => fail e
          | Ok v => let! vs := rest in ret (v :: vs)
          end) n.
Proof.
  intros Hc Hm Hr Hs s Hwf Hk Hn. unfold bind at 1, attempt. specialize (Hm s Hwf Hk Hn).
  destruct (m s) as [[v|e] s1] eqn:E; [|by destruct e].
  apply (codec_bwd _ _ _ Hc) in E as (out & Hv & Hco & Hf); [|done..].
  assert (out ≠ []).
  { intros ->. revert Hv. eapply codec_nonempty; [|done]. destruct Hwf. lia. }
  assert (0 < len out) by (destruct out; [done|cbn; lia]).
  destruct (consumed_rest _ _ _ _ Hwf Hco Hf Hn) as (Hwf1 & Hk1 & Hn1).
  apply bind_no_fuel; [|done]. apply Hr; [done|done|lia].
Qed.

Lemma codec_le {A} (m : M A) R n n' : codec m R n → n' ≤ n → codec m R n'.
Proof. intros Hc Hn. by eapply codec_iff. Qed.
Lemma fueled_le {A} (m : M A) n n' : fueled m n → n' ≤ n → fueled m n'.
Proof. intros Hm Hn s Hwf Hk Hs. apply Hm; [done|done|lia]. Qed.

Lemma fueled_slice R n m fuel :
  codec m R n → fueled m n → n < Z.of_nat fuel → fueled (decodeSliceElems fuel m) n.
Proof.
  revert n. induction fuel as [|fuel IH]; intros n Hc Hm Hn.
  - intros s [] _ Hs. lia.
  - apply (fueled_cons R); [done|done| |done].
    apply IH; [eapply codec_le|eapply fueled_le|]; (done || lia).
Qed.

Lemma fueled_array R n m k : codec m R n → fueled m n → fueled (decodeArrayElems k m) n.
Proof.
  revert n. induction k as [|k IH]; intros n Hc Hm; [done|].
  apply (fueled_cons R); [done|done| |done].
  apply IH; [eapply codec_le|eapply fueled_le]; (done || lia).
Qed.

Lemma fueled_fields n ms Rs last :
  Forall2 (λ m R, codec m R n) ms Rs → Forall (λ m, fueled m n) (ms ++ last) →
  (length last ≤ 1)%nat → fueled (decodeFields (ms ++ last)) n.
Proof.
  intros Hms Hf Hlen. revert n Hms Hf. revert Rs.
  induction ms as [|m ms IH]; intros Rs n Hms Hf; cbn [app] in *.
  - destruct last as [|m last]; [done|]. destruct last; [|cbn in Hlen; lia].
    apply Forall_cons in Hf as [Hm _].
    intros s Hwf Hk Hs. cbn. unfold bind, attempt. specialize (Hm s Hwf Hk Hs).
    destruct (m s) as [[v|e] s1]; [done|by destruct e].
  - inversion Hms as [|? R ? Rs' Hc Hms']; subst. apply Forall_cons in Hf as [Hm Hf].
    apply (fueled_cons R); [done|done| |done]. apply (IH Rs').
    + eapply Forall2_impl; [exact Hms'|]. intros ? ? Hx. eapply codec_le; [exact Hx|lia].
    + eapply Forall_impl; [exact Hf|]. intros ? Hx. eapply fueled_le; [exact Hx|lia].
Qed.

Lemma fueled_list {A} (body : Z → M A) e (f : A → value) n :
  e = StreamListEnd ∨ e = wrapped StreamListEnd → (∀ z, fueled (body z) (n - 1)) →
  fueled (in_list body e f) n.
Proof.
  intros He Hb s Hwf Hk Hn. apply bind_no_fuel; [auto with no_fuel|].
  intros z s1 Hs. rewrite wrapped_ok in Hs. apply StreamList_inv in Hs as (s0 & Hs & ->).
  apply StreamKind_inv in Hs; [|done..].
  destruct (kind_spec_list s z s0 Hwf Hs) as (Hwf1 & [_ Hrem _ _ _] & Hz & _ & Hf).
  pose proof (fits_u64 _ _ Hwf Hf). pose proof (header_len KList z ltac:(done) ltac:(lia)).
  apply bind_no_fuel; [apply Hb; [done|done|cbn in *; lia]|].
  intros a s2 _. apply bind_no_fuel; [|done]. destruct He; subst e; auto with no_fuel.
Qed.

Lemma fueled_decodeListSlice R n m fuel :
  codec m R (n - 1) → fueled m (n - 1) → n ≤ Z.of_nat fuel → fueled (decodeListSlice fuel m) n.
Proof.
  intros Hc Hm Hn s Hwf Hk Hs.
  pose proof (fueled_list (λ z, if z =? 0 then ret [] else decodeSliceElems fuel m)
    StreamListEnd (VSlice false) n (or_introl eq_refl)) as Hl.
  replace (decodeListSlice fuel m s)
    with (in_list (λ z, if z =? 0 then ret [] else decodeSliceElems fuel m)
      StreamListEnd (VSlice false) s); [apply Hl; try done|].
  - intros z. case_if; [done|]. eapply fueled_slice; [done..|lia].
  - unfold decodeListSlice, in_list, bind.
    destruct (wrapped StreamList s) as [[z|] s1]; [|done]. by case_if.
Qed.

(** A decoder that looks at the header before it calls [dec]. *)
Lemma cached_no_fuel {A} (dec : M A) R n s kz s1 :
  codec dec R n → fueled dec n → stream_wf s → s_kind s = None → s_remaining s ≤ n →
  StreamKind s = (Ok kz, s1) → (dec s1).1 ≠ Err ErrOutOfFuel.
Proof.
  intros Hc Hd Hwf Hk Hn Hs.
  rewrite (codec_cached _ _ _ Hc _ _ _ Hs) by (left; destruct Hwf; lia). by apply Hd.
Qed.

Lemma fueled_decodeNilPtr k dec R n :
  codec dec R n → fueled dec n → fueled (decodeNilPtr k dec) n.
Proof.
  intros Hc Hd s Hwf Hk Hn. apply bind_no_fuel; [auto with no_fuel|].
  intros [k' z] s1 Hs. rewrite wrapped_ok in Hs. destruct (_ && _); [by case_bool_decide|].
  apply bind_no_fuel; [|done]. by eapply cached_no_fuel.
Qed.

Lemma fueled_decodeInterface dec R n :
  codec dec R n → fueled dec n → fueled (decodeInterface dec) n.
Proof.
  intros Hc Hd s Hwf Hk Hn. apply bind_no_fuel; [auto with no_fuel|].
  assert (fueled StreamBytes n) by (intros ????; auto with no_fuel).
  intros [[] z] s1 Hs; (apply bind_no_fuel; [|done]);
    [eapply cached_no_fuel; try done; apply (StreamBytes_codec n)..|by eapply cached_no_fuel].
Qed.

Lemma fueled_decodeStruct fuel fs tl n :
  Forall (λ t, codec (decode fuel t) (enc t) (n - 1) ∧ fueled (decode fuel t) (n - 1)) fs →
  (∀ t, tl = Some t →
    codec (decode fuel t) (enc t) (n - 1) ∧ fueled (decode fuel t) (n - 1)) →
  n ≤ Z.of_nat fuel → fueled (decode (S fuel) (TStruct fs tl)) n.
Proof.
  intros Hfs Htl Hn. apply (fueled_list (λ _, _)); [by right|]. intros _.
  apply (fueled_fields _ _ (enc <$> fs)).
  - apply struct_body. eapply Forall_impl; [exact Hfs|]. by intros t [].
  - apply Forall_app. split.
    + apply Forall_fmap. eapply Forall_impl; [exact Hfs|]. by intros t [].
    + destruct tl as [t|]; [|done]. apply Forall_singleton, fueled_ret.
      destruct (Htl t eq_refl). eapply fueled_slice; [done..|lia].
  - destruct tl; cbn; lia.
Qed.

Lemma fields_fueled fuel fs n :
  Forall type_ok fs → Z.of_nat (list_max (tdepth <$> fs)) + 2 * n ≤ Z.of_nat fuel →
  (∀ t n, type_ok t → Z.of_nat (tdepth t) + 2 * n ≤ Z.of_nat fuel → fueled (decode fuel t) n) →
  Forall (λ t, codec (decode fuel t) (enc t) n ∧ fueled (decode fuel t) n) fs.
Proof.
  intros Hok Hn IH. apply Forall_forall. intros t Ht. rewrite Forall_forall in Hok.
  pose proof (list_max_elem (tdepth t) (tdepth <$> fs)) as Hm.
  specialize (Hm ltac:(apply list_elem_of_fmap; eauto)).
  split; [apply decode_codec|apply IH]; (by apply Hok) || lia.
Qed.

Lemma decode_fueled fuel t n :
  type_ok t → Z.of_nat (tdepth t) + 2 * n ≤ Z.of_nat fuel → fueled (decode fuel t) n.
Proof.
  revert t n. induction fuel as [|fuel IH]; intros t n Hok Hn.
  { intros s [] _ Hs. pose proof (tdepth_pos t). lia. }
  destruct Hok as [| |t Hok|k t Hk Hok|bits Hb| | | |k Hk|t Hok|k t Hok|fs Hok|fs t Hfs Hok|];
    try (apply fueled_decodeStruct);
    cbn [decode]; cbn [tdepth] in Hn; try (pose proof (tdepth_pos t));
    try (apply fueled_ret; intros s Hwf Hks Hs; auto with no_fuel; fail).
  - intros s Hwf Hks Hs. apply bind_no_fuel; [auto with no_fuel|]. by intros [|[] ?] s' _.
  - apply fueled_ret, IH; [done|lia].
  - eapply fueled_decodeNilPtr; [apply decode_codec|apply IH]; (done || lia).
  - intros s Hwf Hks Hs. apply bind_no_fuel; [auto with no_fuel|]. intros [[] z] s' _; [..|done].
    + by destruct k as [|[|k]].
    + do 2 (case_if; [done|]). apply bind_no_fuel; [auto with no_fuel|].
      intros b s2 _. by case_if.
  - eapply fueled_decodeListSlice; [apply decode_codec|apply IH|]; (done || lia).
  - apply (fueled_list (λ _, _)); [by right|]. intros _.
    eapply fueled_array; [apply decode_codec|apply IH]; (done || lia).
  - by apply fields_fueled; [|lia|].
  - done.
  - lia.
  - by apply fields_fueled; [|lia|].
  - intros ? [= <-]. split; [apply decode_codec|apply IH]; (done || lia).
  - lia.
  - pose proof (decode_codec fuel TInterface (n - 1) OK_Interface ltac:(cbn; lia)) as Hi.
    eapply fueled_decodeInterface.
    + eapply codec_le; [apply (decodeListSlice_codec _ _ _ fuel Hi); lia|lia].
    + eapply fueled_decodeListSlice; [exact Hi|apply IH|]; (constructor || cbn; lia).
Qed.

(** ** Decoding a complete input *)

Lemma Reset_wf b : bytes_ok b → len b < 2 ^ 64 → stream_wf (Reset b (len b)).
Proof.
  intros Hb Hl. split; cbn; try done. case_if; lia.
Qed.

Lemma Reset_fits b : fits (Reset b (len b)) (len b).
Proof. unfold fits; cbn. split; [|done]. case_if; lia. Qed.

Lemma Reset_remaining b : s_remaining (Reset b (len b)) = len b.
Proof. cbn. case_if; lia. Qed.

Lemma DecodeBytes_fwd t v b :
  type_ok t → bytes_ok b → len b < 2 ^ 64 → has_type t v → rlp_spec v = Ok b →
  DecodeBytes b t = Ok v.
Proof.
  intros Hok Hb Hl Ht Hs. pose proof (Reset_wf b Hb Hl) as Hwf.
  assert (codec (decode (decode_fuel t (length b)) t) (enc t) (len b)) as Hc
    by (apply decode_codec; [done|unfold decode_fuel; lia]).
  destruct (codec_fwd _ _ _ Hc (Reset b (len b)) v b []) as (s' & Hm & Hco);
    [done|done|done|by rewrite app_nil_r|apply Reset_fits|done|].
  unfold DecodeBytes, StreamDecode. cbn [s_r Reset]. rewrite Hm.
  destruct Hco as [Hr _ _ _ _]. cbn in Hr. apply (f_equal length) in Hr.
  rewrite length_app in Hr. zcmp. done.
Qed.

Lemma DecodeBytes_bwd t v b :
  type_ok t → bytes_ok b → len b < 2 ^ 64 → DecodeBytes b t = Ok v →
  has_type t v ∧ rlp_spec v = Ok b.
Proof.
  intros Hok Hb Hl. pose proof (Reset_wf b Hb Hl) as Hwf.
  assert (codec (decode (decode_fuel t (length b)) t) (enc t) (len b)) as Hc
    by (apply decode_codec; [done|unfold decode_fuel; lia]).
  unfold DecodeBytes, StreamDecode. cbn [s_r Reset].
  destruct (decode _ t (Reset b (len b))) as [[v'|] s'] eqn:Hm; [|done].
  apply (codec_bwd _ _ _ Hc) in Hm as (out & [Ht Hs] & Hco & _); [|done..].
  case_if; [done|]. intros [= <-]. split; [done|]. destruct Hco as [Hr _ _ _ _]. cbn in Hr.
  destruct (s_r s'); [|cbn in *; lia]. by rewrite app_nil_r in Hr; subst.
Qed.

Definition spec_ok (v : value) : Prop :=
  ∀ b, value_ok v → rlp_spec v = Ok b → len b < 2 ^ 64 → bytes_ok b.

Lemma spec_all_ok vs p :
  Forall spec_ok vs → all_values value_ok vs → spec_all rlp_spec vs = Ok p → len p < 2 ^ 64 →
  bytes_ok p.
Proof.
  intros Hvs. revert p. induction Hvs as [|v vs Hv _ IH]; intros p Hok Hs Hl.
  - injection Hs as <-. apply bytes_ok_nil.
  - destruct Hok as [Hok Hoks]. apply spec_all_cons in Hs as (a & b & Ha & Hb & ->).
    rewrite length_app in Hl. apply bytes_ok_app. split; [by eapply Hv; [..|lia]|].
    apply IH; [done|done|lia].
Qed.

Lemma spec_list_ok vs b :
  Forall spec_ok vs → all_values value_ok vs → rlp_list <$> spec_all rlp_spec vs = Ok b →
  len b < 2 ^ 64 → bytes_ok b.
Proof.
  intros Hvs Hok Hs Hl. apply fmap_ok in Hs as (p & Hs & <-). pose proof (rlp_list_len p).
  apply rlp_list_ok; [|lia]. eapply spec_all_ok; [done..|lia].
Qed.

Lemma spec_string_ok b out :
  bytes_ok b → @Ok rlp_error _ (rlp_string b) = Ok out → len out < 2 ^ 64 → bytes_ok out.
Proof.
  intros Hb [= <-] Hl. pose proof (rlp_string_len b). apply rlp_string_ok; [done|lia].
Qed.

Lemma spec_nat_ok i out : rlp_nat i = Ok out → len out < 2 ^ 64 → bytes_ok out.
Proof.
  unfold rlp_nat. case_if; [done|]. apply spec_string_ok, be_bytes_ok.
Qed.

Lemma rlp_spec_ok v : spec_ok v.
Proof.
  induction v using value_ind'; intros out Hok Hs Hl; cbn in *.
  - by injection Hs as <-.
  - destruct i; [by eapply spec_nat_ok|]. injection Hs as <-. wf_concrete.
  - by eapply spec_nat_ok.
  - destruct k; injection Hs as <-; wf_concrete.
  - destruct k; by eapply IHv.
  - by eapply IHv.
  - by eapply spec_string_ok; [apply be_bytes_ok|..].
  - by eapply spec_string_ok; [apply be_bytes_ok|..].
  - by eapply spec_string_ok.
  - by eapply spec_string_ok.
  - by eapply spec_string_ok.
  - destruct t; [by eapply spec_all_ok|by eapply spec_list_ok].
  - by eapply spec_list_ok.
  - injection Hs as <-. wf_concrete.
  - by eapply IHv.
Qed.

(** ** Properties *)

(** C1: the typed decoder accepts exactly the canonical encodings.  For every
    type but [1]byte (below), [DecodeBytes] returns a value exactly when that
    value has the type and the whole input is its RLP encoding: no other bytes
    decode to it (leading zeros, long headers, single bytes with a header and
    trailing data are all refused), and its encoding always decodes. *)
Theorem DecodeBytes_exact (t : rtype) (b : bytes) (v : value) :
  type_ok t → bytes_ok b → len b < 2 ^ 64 →
  DecodeBytes b t = Ok v ↔ has_type t v ∧ rlp_spec v = Ok b.
Proof.
  intros Hok Hb Hl. split.
  - by apply DecodeBytes_bwd.
  - intros [? ?]. by apply DecodeBytes_fwd.
Qed.

Lemma DecodeBytes_exact_witness :
  DecodeBytes [0xC6; 0x82; 4; 0; 0xC1; 7; 0x80] (TStruct [TUint 64; TSlice (TUint 8)] (Some TString))
  = Ok (VStruct [VUint 1024; VSlice false [VUint 7]; VSlice true [VString []]]).
Proof.
  apply DecodeBytes_exact.
  - repeat constructor; set_solver.
  - wf_concrete.
  - done.
  - split; [|reflexivity].
    refine (HT_StructTail _ _ [_; _] [_] _ _); repeat constructor; done.
Defined.

(** The decoder terminates.  Fuel linear in the input length and the depth
    of the type is enough for every input, well-formed or not, so running out
    of it never shows in [DecodeBytes]. *)
Theorem DecodeBytes_terminates (t : rtype) (b : bytes) :
  type_ok t → bytes_ok b → len b < 2 ^ 64 → DecodeBytes b t ≠ Err ErrOutOfFuel.
Proof.
  intros Hok Hb Hl. pose proof (Reset_wf b Hb Hl) as Hwf.
  assert (fueled (decode (decode_fuel t (length b)) t) (len b)) as Hf
    by (apply decode_fueled; [done|unfold decode_fuel; lia]).
  unfold DecodeBytes, StreamDecode. cbn [s_r Reset].
  specialize (Hf (Reset b (len b)) Hwf eq_refl ltac:(rewrite Reset_remaining; lia)).
  destruct (decode _ t _) as [[v|e] s']; [by case_if|]. cbn in Hf. congruence.
Qed.

Lemma DecodeBytes_terminates_witness :
  DecodeBytes [0xC3; 0x81; 5; 0xFF] TInterface ≠ Err ErrOutOfFuel.
Proof.
  apply DecodeBytes_terminates; [constructor|wf_concrete|done].
Defined.

(** Encoding then decoding returns the value. *)
Theorem DecodeBytes_EncodeToBytes (t : rtype) (v : value) (b : bytes) :
  type_ok t → has_type t v → value_ok v → rlp_spec v = Ok b → len b < 2 ^ 64 →
  EncodeToBytes v = Ok b ∧ DecodeBytes b t = Ok v.
Proof.
  intros Hok Ht Hv Hs Hl. split; [by apply EncodeToBytes_ok|].
  apply DecodeBytes_fwd; try done. by apply (rlp_spec_ok v).
Qed.

Lemma DecodeBytes_EncodeToBytes_witness :
  EncodeToBytes (VSlice false [VBigIntPtr (Some 300); VBigIntPtr (Some 0)])
    = Ok [0xC4; 0x82; 1; 44; 0x80]
  ∧ DecodeBytes [0xC4; 0x82; 1; 44; 0x80] (TSlice TBigInt)
    = Ok (VSlice false [VBigIntPtr (Some 300); VBigIntPtr (Some 0)]).
Proof.
  apply DecodeBytes_EncodeToBytes; try reflexivity.
  - by repeat constructor.
  - by repeat constructor.
  - wf_concrete.
Defined.

(** With a zero byte cached, decoding [1]byte returns without moving on. *)
Lemma byte1_stuck s :
  s_kind s = Some KByte → s_kinderr s = None → s_byteval s = 0 →
  decode 1 (TByteArray 1) s = (Ok (VByteArray false [0]), s).
Proof.
  intros Hk He Hb. cbn. unfold decodeByteArray, StreamUint, bind, attempt, gets, StreamKind.
  rewrite Hk, He. cbn. rewrite Hk, He. cbn. by rewrite Hb.
Qed.

Lemma byte1_loop fuel s :
  s_kind s = Some KByte → s_kinderr s = None → s_byteval s = 0 →
  decodeSliceElems fuel (decode 1 (TByteArray 1)) s = (Err ErrOutOfFuel, s).
Proof.
  intros Hk He Hb. induction fuel as [|fuel IH]; [done|]. cbn [decodeSliceElems].
  unfold bind, attempt. rewrite byte1_stuck by done. by rewrite IH.
Qed.

(** C36: [1]byte elements and the byte zero.  [decodeByteArray] reads a single
    byte through [Uint], which refuses zero and leaves it cached; the error is
    dropped and the element decodes to zero without the stream moving on.  The
    slice loop then sees the same byte for ever: no amount of fuel decodes the
    list [0xC1 0x00] as a slice of [1]byte, although this is the encoding of a
    one-element slice. *)
Theorem decode_byte_array1_zero (fuel : nat) :
  EncodeToBytes (VSlice false [VByteArray false [0]]) = Ok [0xC1; 0]
  ∧ (decodeListSlice fuel (decode 1 (TByteArray 1)) (Reset [0xC1; 0] 2)).1 = Err ErrOutOfFuel.
Proof.
  split; [reflexivity|].
  set (s := MkStream [0] 1 true None 0 0 None [Listpos 0 1]).
  set (s1 := MkStream [] 0 true (Some KByte) 0 0 None [Listpos 1 1]).
  assert (wrapped StreamList (Reset [0xC1; 0] 2) = (Ok 1, s)) as E by reflexivity.
  assert (decode 1 (TByteArray 1) s = (Ok (VByteArray false [0]), s1)) as E1 by reflexivity.
  unfold decodeListSlice, bind. rewrite E. cbn [Z.eqb].
  destruct fuel as [|fuel]; [done|]. cbn [decodeSliceElems]. unfold bind, attempt.
  rewrite E1. by rewrite byte1_loop.
Qed.
