(* ===== verification/TrieEncoding.v ===== *)
(** * Key encodings of the Merkle Patricia trie (src/trie/encoding.go)

    KEYBYTES are the bytes of a key, HEX keys hold one nibble per byte and an
    optional terminator 16, COMPACT keys are the on-disk form.  The file holds
    the conversions, the in-place variant the hasher uses, [prefixLen], and the
    round trips between the forms.  A function that indexes out of range in Go
    returns [None]. *)
From S2P Require Import Prelude.
Local Open Scope Z_scope.

(** ** Operations *)

Definition hasTerm (s : bytes) : bool :=
  (0 <? len s) && (at_ s (length s - 1) =? 16).

(** [decodeNibbles(nibbles, bytes)]: the bytes written; an odd number of
    nibbles reads past the end. *)
Fixpoint decodeNibbles (nibbles : bytes) : option bytes :=
  match nibbles with
  | [] => Some []
  | hi :: lo :: rest => (cons (Z.lor (u8 (Z.shiftl hi 4)) lo)) <$> decodeNibbles rest
  | [_] => None
  end.

Definition hexToCompact (hex : bytes) : option bytes :=
  let '(terminator, hex) :=
    if hasTerm hex then (1, take (length hex - 1) hex) else (0, hex) in
  let buf0 := u8 (Z.shiftl terminator 5) in
  if Z.land (len hex) 1 =? 1 then
    cons (Z.lor (Z.lor buf0 (Z.shiftl 1 4)) (at_ hex 0)) <$> decodeNibbles (drop 1 hex)
  else cons buf0 <$> decodeNibbles hex.

(** The loop of [hexToCompactInPlace], over the buffer it reads and writes. *)
Fixpoint compact_loop (fuel bi ni hexLen : nat) (hex : bytes) : bytes :=
  match fuel with
  | O => hex
  | S fuel =>
      if (ni <? hexLen)%nat then
        compact_loop fuel (S bi) (S (S ni)) hexLen
          (<[bi := Z.lor (u8 (Z.shiftl (at_ hex ni) 4)) (at_ hex (S ni))]> hex)
      else hex
  end.

(** The buffer afterwards and the length of the compact key in it. *)
Definition hexToCompactInPlace (hex : bytes) : option (bytes * nat) :=
  match hex with
  | [] => None
  | _ =>
      let '(hexLen, firstByte) :=
        if at_ hex (length hex - 1) =? 16 then ((length hex - 1)%nat, Z.shiftl 1 5)
        else (length hex, 0) in
      let binLen := (hexLen / 2 + 1)%nat in
      let '(firstByte, ni) :=
        if Nat.odd hexLen then (Z.lor (Z.lor firstByte (Z.shiftl 1 4)) (at_ hex 0), 1%nat)
        else (firstByte, 0%nat) in
      let hex := compact_loop hexLen 1 ni hexLen hex in
      Some (<[0%nat := firstByte]> hex, binLen)
  end.

Fixpoint nibbles_of (str : bytes) : bytes :=
  match str with
  | [] => []
  | b :: str => b / 16 :: b `mod` 16 :: nibbles_of str
  end.

Definition keybytesToHex (str : bytes) : bytes := nibbles_of str ++ [16].

Definition compactToHex (compact : bytes) : bytes :=
  match compact with
  | [] => compact
  | _ =>
      let base := keybytesToHex compact in
      let base := if at_ base 0 <? 2 then take (length base - 1) base else base in
      let chop := 2 - Z.land (at_ base 0) 1 in
      drop (Z.to_nat chop) base
  end.

(** [None] is the panic on a key of odd length. *)
Definition hexToKeybytes (hex : bytes) : option bytes :=
  let hex := if hasTerm hex then take (length hex - 1) hex else hex in
  if negb (Z.land (len hex) 1 =? 0) then None else decodeNibbles hex.

Fixpoint prefixLen (a b : bytes) : nat :=
  match a, b with
  | x :: a, y :: b => if x =? y then S (prefixLen a b) else 0
  | _, _ => 0
  end.

(** ** Hex keys *)

Definition is_nibble (x : Z) : Prop := 0 ≤ x < 16.
Definition nibbles_ok (l : bytes) : Prop := Forall is_nibble l.

(** The two shapes of a hex key: a path, or a path with the terminator. *)
Definition hex_key (path : bytes) (term : bool) : bytes :=
  path ++ (if term then [16] else []).

(** ** Lemmas *)

Lemma nibbles_ok_app a b : nibbles_ok (a ++ b) ↔ nibbles_ok a ∧ nibbles_ok b.
Proof. apply Forall_app. Qed.
Lemma nibbles_ok_cons a b : nibbles_ok (a :: b) ↔ is_nibble a ∧ nibbles_ok b.
Proof. apply Forall_cons. Qed.

Lemma nibbles_ok_nil : nibbles_ok [].
Proof. constructor. Qed.
#[export] Hint Resolve nibbles_ok_nil : core.

Lemma pair_ind (P : bytes → Prop) :
  P [] → (∀ x, P [x]) → (∀ x y l, P l → P (x :: y :: l)) → ∀ l, P l.
Proof.
  intros H0 H1 H2. refine (fix go l := _).
  destruct l as [|x [|y l]]; [done|done|]. apply H2, go.
Qed.

Lemma nibble_byte hi lo :
  is_nibble hi → is_nibble lo → Z.lor (u8 (Z.shiftl hi 4)) lo = hi * 16 + lo.
Proof.
  unfold is_nibble. intros ? ?. rewrite Z.shiftl_mul_pow2 by lia.
  rewrite u8_small by (unfold is_byte; lia). by apply (lor_disjoint hi lo 4).
Qed.

Lemma length_nibbles_of l : length (nibbles_of l) = (2 * length l)%nat.
Proof. induction l; cbn; lia. Qed.

Lemma nibbles_of_ok l : bytes_ok l → nibbles_ok (nibbles_of l).
Proof.
  induction l as [|b l IH]; [constructor|]. rewrite bytes_ok_cons. intros [Hb Hl].
  unfold is_byte in Hb. cbn. rewrite !nibbles_ok_cons. unfold is_nibble. split; [|split; [|by apply IH]].
  - split; [apply Z.div_pos; lia|apply Z.div_lt_upper_bound; lia].
  - apply Z.mod_pos_bound. lia.
Qed.

Lemma decodeNibbles_nibbles_of l : bytes_ok l → decodeNibbles (nibbles_of l) = Some l.
Proof.
  intros Hl. pose proof (nibbles_of_ok l Hl) as Hn.
  induction l as [|b l IH]; [done|]. cbn in *. rewrite !nibbles_ok_cons in Hn.
  destruct Hn as (Hhi & Hlo & Hn). apply bytes_ok_cons in Hl as [_ Hl].
  rewrite IH by done. cbn. rewrite nibble_byte by done. do 2 f_equal.
  pose proof (Z.div_mod b 16). lia.
Qed.

Lemma decodeNibbles_even l :
  nibbles_ok l → Nat.even (length l) = true →
  ∃ bs, decodeNibbles l = Some bs ∧ bytes_ok bs ∧ nibbles_of bs = l
    ∧ length bs = (length l / 2)%nat.
Proof.
  induction l as [|x|x y l IH] using pair_ind; [|done|].
  - intros _ _. by exists [].
  - rewrite !nibbles_ok_cons. intros (Hx & Hy & Hl) He.
    destruct (IH Hl He) as (bs & E & Hok & Hn & Hlen).
    exists (x * 16 + y :: bs). cbn [decodeNibbles]. rewrite E. cbn [fmap option_fmap option_map].
    rewrite nibble_byte by done. unfold is_nibble in *. split; [done|].
    split; [apply bytes_ok_cons; split; [unfold is_byte; lia|done]|]. split.
    + cbn. rewrite Hn. f_equal; [|f_equal].
      * symmetry. apply (Z.div_unique_pos _ _ _ y); lia.
      * symmetry. apply (Z.mod_unique_pos _ _ x); lia.
    + cbn [length]. rewrite Hlen. change (S (S (length l))) with (2 + length l)%nat.
      replace (2 + length l)%nat with (length l + 1 * 2)%nat by lia. rewrite Nat.div_add by lia. lia.
Qed.

Lemma at_last l x : at_ (l ++ [x]) (length (l ++ [x]) - 1) = x.
Proof.
  unfold at_. rewrite length_app; cbn [length]. rewrite Nat.add_sub.
  by rewrite nth_middle.
Qed.

Lemma hasTerm_hex path term : nibbles_ok path → hasTerm (hex_key path term) = term.
Proof.
  intros Hp. unfold hasTerm, hex_key. destruct term.
  - rewrite at_last, length_app; cbn [length]. lia.
  - rewrite app_nil_r. destruct path as [|x path] using rev_ind; [done|].
    rewrite at_last. apply nibbles_ok_app in Hp as [_ Hx]. apply nibbles_ok_cons in Hx as [Hx _].
    unfold is_nibble in Hx. lia.
Qed.

Lemma hex_path path (term : bool) : (if term then take (length (hex_key path term) - 1) (hex_key path term)
  else hex_key path term) = path.
Proof.
  unfold hex_key. destruct term; [|apply app_nil_r].
  rewrite length_app; cbn [length]. by rewrite Nat.add_sub, take_app_length.
Qed.

Lemma land_odd n : Z.land (Z.of_nat n) 1 = if Nat.odd n then 1 else 0.
Proof.
  change 1 with (Z.ones 1) at 1. rewrite Z.land_ones by lia. change (2 ^ 1) with 2.
  rewrite Zmod_odd. replace (Z.odd (Z.of_nat n)) with (Nat.odd n); [done|].
  induction n as [|n IH]; [done|].
  by rewrite Nat.odd_succ, Nat2Z.inj_succ, Z.odd_succ, <- Nat.negb_odd, <- Z.negb_odd, IH.
Qed.

(** [hexToCompact] on a well-formed key: the flag byte and the packed rest. *)
Lemma hexToCompact_hex path (term : bool) :
  nibbles_ok path →
  ∃ bs, hexToCompact (hex_key path term) = Some ((if term then 32 else 0) +
      (if Nat.odd (length path) then 16 + at_ path 0 else 0) :: bs)
    ∧ bytes_ok bs ∧ nibbles_of bs = drop (if Nat.odd (length path) then 1 else 0) path
    ∧ length bs = (length path / 2)%nat.
Proof.
  intros Hp. unfold hexToCompact. rewrite hasTerm_hex by done.
  assert (∀ A (f : Z → bytes → A), (let '(t, h) := if term then
      (1, take (length (hex_key path term) - 1) (hex_key path term)) else (0, hex_key path term) in f t h)
    = f (if term then 1 else 0) path) as ->.
  { intros A f. pose proof (hex_path path term). by destruct term; cbn in *; f_equal. }
  rewrite land_odd. destruct (Nat.odd (length path)) eqn:Ho; zcmp.
  - destruct path as [|x path]; [done|]. cbn [drop]. rewrite drop_0. apply nibbles_ok_cons in Hp as [Hx Hp].
    destruct (decodeNibbles_even path Hp) as (bs & -> & Hok & Hn & Hl).
    { cbn [length] in Ho. by rewrite Nat.odd_succ in Ho. }
    exists bs. split; [|split; [done|]].
    + cbn. do 2 f_equal. unfold is_nibble in Hx. unfold at_; cbn [nth].
      destruct term.
      * change (Z.lor (u8 (Z.shiftl 1 5)) (Z.shiftl 1 4)) with (3 * 2 ^ 4). rewrite lor_disjoint; lia.
      * change (Z.lor (u8 (Z.shiftl 0 5)) (Z.shiftl 1 4)) with (1 * 2 ^ 4). rewrite lor_disjoint; lia.
    + split; [done|]. cbn [length]. rewrite Hl. cbn [length] in Ho. rewrite Nat.odd_succ in Ho.
      apply Nat.even_spec in Ho as [k ->]. replace (S (2 * k)) with (1 + k * 2)%nat by lia.
      rewrite Nat.div_add, (Nat.mul_comm 2), Nat.div_mul by lia. done.
  - destruct (decodeNibbles_even path Hp) as (bs & -> & Hok & Hn & Hl).
    { by rewrite <- Nat.negb_odd, Ho. }
    exists bs. split; [|done]. cbn. by destruct term.
Qed.

Lemma nibbles_of_cons b bs : nibbles_of (b :: bs) = b / 16 :: b `mod` 16 :: nibbles_of bs.
Proof. done. Qed.

Lemma compactToHex_cons b bs :
  compactToHex (b :: bs) =
    drop (Z.to_nat (2 - Z.land (b / 16) 1))
      (hex_key (nibbles_of (b :: bs)) (negb (b / 16 <? 2))).
Proof.
  unfold compactToHex, keybytesToHex, hex_key. rewrite nibbles_of_cons. cbn [app at_ nth].
  destruct (b / 16 <? 2); cbn [negb at_ nth]; [|done].
  replace (b / 16 :: b `mod` 16 :: nibbles_of bs ++ [16])
    with ((b / 16 :: b `mod` 16 :: nibbles_of bs) ++ [16]) by done.
  rewrite length_app; cbn [length]. rewrite Nat.add_sub.
  change (S (S (length (nibbles_of bs)))) with (length (b / 16 :: b `mod` 16 :: nibbles_of bs)).
  by rewrite take_app_length, app_nil_r.
Qed.

Lemma flag_byte (term odd : bool) x :
  is_nibble x → let b := (if term then 32 else 0) + (if odd then 16 + x else 0) in
  b / 16 = (if term then 2 else 0) + (if odd then 1 else 0)
  ∧ (odd = true → b `mod` 16 = x) ∧ is_byte b.
Proof.
  unfold is_nibble, is_byte. intros Hx. cbn.
  assert (∀ q r, 0 ≤ r < 16 → (16 * q + r) / 16 = q ∧ (16 * q + r) `mod` 16 = r) as Hdm.
  { intros q r Hr. split; symmetry;
      [apply (Z.div_unique_pos _ _ _ r); lia|apply (Z.mod_unique_pos _ _ q); lia]. }
  destruct term, odd; cbn -[Z.add Z.div Z.modulo].
  - destruct (Hdm 3 x Hx) as [H1 H2]. replace (32 + (16 + x)) with (16 * 3 + x) by lia.
    rewrite H1, H2. split; [done|]. split; [done|lia].
  - split; [done|]. split; [done|lia].
  - destruct (Hdm 1 x Hx) as [H1 H2]. replace (0 + (16 + x)) with (16 * 1 + x) by lia.
    rewrite H1, H2. split; [done|]. split; [done|lia].
  - split; [done|]. split; [done|lia].
Qed.

Lemma compactToHex_hexToCompact path term :
  nibbles_ok path →
  ∃ c, hexToCompact (hex_key path term) = Some c ∧ bytes_ok c ∧ compactToHex c = hex_key path term
    ∧ length c = (length path / 2 + 1)%nat.
Proof.
  intros Hp. destruct (hexToCompact_hex path term Hp) as (bs & E & Hok & Hn & Hl).
  destruct (flag_byte term (Nat.odd (length path)) (at_ path 0)) as (H1 & H2 & H3).
  { destruct path; [done|]. by apply nibbles_ok_cons in Hp as [? _]. }
  set (b := (if term then 32 else 0) + _) in *. exists (b :: bs).
  split; [done|]. split; [by apply bytes_ok_cons|]. split; [|cbn [length]; lia].
  rewrite compactToHex_cons, nibbles_of_cons, Hn, H1.
  destruct (Nat.odd (length path)) eqn:Ho.
  - rewrite H2 by done. destruct path as [|x path]; [done|]. by destruct term.
  - by destruct term.
Qed.

(** The in-place loop writes behind what it still has to read. *)
Lemma compact_loop_spec fuel bi ni hexLen buf bs :
  (hexLen - ni ≤ fuel)%nat → (bi ≤ S ni)%nat → (hexLen ≤ length buf)%nat →
  decodeNibbles (take (hexLen - ni) (drop ni buf)) = Some bs →
  take (length bs) (drop bi (compact_loop fuel bi ni hexLen buf)) = bs
  ∧ take bi (compact_loop fuel bi ni hexLen buf) = take bi buf.
Proof.
  revert bi ni buf bs. induction fuel as [|fuel IH]; intros bi ni buf bs Hf Hb Hl Hd; cbn [compact_loop].
  { replace (hexLen - ni)%nat with 0%nat in Hd by lia. by injection Hd as <-. }
  destruct (Nat.ltb_spec ni hexLen) as [Hlt|Hge].
  2: { replace (hexLen - ni)%nat with 0%nat in Hd by lia. by injection Hd as <-. }
  assert (S ni < hexLen ∧ ∃ bs', bs = Z.lor (u8 (Z.shiftl (at_ buf ni) 4)) (at_ buf (S ni)) :: bs'
    ∧ decodeNibbles (take (hexLen - S (S ni)) (drop (S (S ni)) buf)) = Some bs')%nat
    as (Hlt2 & bs' & -> & Hd').
  { destruct (lookup_lt_is_Some_2 buf ni) as [x Hx]; [lia|].
    rewrite (drop_S _ _ _ Hx) in Hd. rewrite (at_lookup _ _ _ Hx).
    replace (hexLen - ni)%nat with (S (hexLen - S ni)) in Hd by lia. cbn [take] in Hd.
    destruct (hexLen - S ni)%nat as [|k] eqn:Ek; [done|].
    destruct (lookup_lt_is_Some_2 buf (S ni)) as [y Hy]; [lia|].
    rewrite (drop_S _ _ _ Hy) in Hd. rewrite (at_lookup _ _ _ Hy). cbn [take decodeNibbles] in Hd.
    replace (hexLen - S (S ni))%nat with k by lia. split; [lia|].
    destruct (decodeNibbles (take k _)) as [bs'|]; [|done]. injection Hd as <-. eauto. }
  set (v := Z.lor _ _) in *.
  edestruct (IH (S bi) (S (S ni)) (<[bi := v]> buf) bs') as [H1 H2]; [lia|lia|by rewrite length_insert| |].
  { rewrite drop_insert_lt by lia. done. }
  set (r := compact_loop _ _ _ _ _) in *.
  assert (r !! bi = Some v) as Hv.
  { rewrite <- (lookup_take_lt r (S bi)), H2, lookup_take_lt by lia. apply list_lookup_insert_eq. lia. }
  split.
  - rewrite (drop_S _ _ _ Hv). cbn. by rewrite H1.
  - apply (f_equal (take bi)) in H2. rewrite !take_take, !Nat.min_l in H2 by lia.
    rewrite H2, take_insert_ge; done.
Qed.

Lemma inplace_path path term :
  nibbles_ok path → hex_key path term ≠ [] →
  ∃ buf, hexToCompactInPlace (hex_key path term) = Some (buf, (length path / 2 + 1)%nat)
    ∧ hexToCompact (hex_key path term) = Some (take (length path / 2 + 1) buf).
Proof.
  intros Hp Hne. destruct (hexToCompact_hex path term Hp) as (bs & E & Hok & Hn & Hl).
  pose proof (hasTerm_hex path term Hp) as Ht. unfold hasTerm in Ht.
  destruct (hex_key path term) as [|h0 hs] eqn:Eh; [done|]. cbn [hexToCompactInPlace].
  assert (at_ (h0 :: hs) (length (h0 :: hs) - 1) =? 16 = term) as -> by (cbn [length] in *; lia).
  rewrite <- Eh in *.
  assert ((if term then ((length (hex_key path term) - 1)%nat, Z.shiftl 1 5)
    else (length (hex_key path term), 0)) = (length path, if term then 32 else 0)) as ->.
  { unfold hex_key. destruct term; rewrite length_app; cbn [length]; do 2 f_equal; lia. }
  set (o := Nat.odd (length path)) in *.
  set (ni := (if o then 1 else 0)%nat) in *.
  assert ((if o then (Z.lor (Z.lor (if term then 32 else 0) (Z.shiftl 1 4)) (at_ (hex_key path term) 0), 1%nat)
    else (if term then 32 else 0, 0%nat)) =
    ((if term then 32 else 0) + (if o then 16 + at_ path 0 else 0), ni)) as ->.
  { unfold ni. destruct o eqn:Eo; [|f_equal; lia]. f_equal.
    destruct path as [|x path]; [done|]. apply nibbles_ok_cons in Hp as [Hx _].
    unfold is_nibble in Hx. unfold hex_key, at_. cbn [app nth].
    destruct term; [change (Z.lor 32 (Z.shiftl 1 4)) with (3 * 2 ^ 4)|
      change (Z.lor 0 (Z.shiftl 1 4)) with (1 * 2 ^ 4)]; rewrite lor_disjoint; lia. }
  destruct (compact_loop_spec (length path) 1 ni (length path) (hex_key path term) bs) as [H1 H2].
  - lia.
  - lia.
  - unfold hex_key. rewrite length_app. lia.
  - unfold hex_key. rewrite drop_app_le by (unfold ni, o; destruct path; cbn; [lia|destruct (Nat.odd _); lia]).
    rewrite <- length_drop, take_app_length. rewrite <- Hn. by apply decodeNibbles_nibbles_of.
  - eexists. split; [done|]. rewrite E. f_equal.
    set (r := compact_loop _ _ _ _ _) in *.
    destruct r as [|r0 r].
    { rewrite Eh in H2. done. }
    cbn [insert list_insert]. rewrite Nat.add_1_r. cbn [take]. rewrite <- Hl.
    f_equal. symmetry. exact H1.
Qed.

Lemma hexToKeybytes_hex str term : bytes_ok str → hexToKeybytes (hex_key (nibbles_of str) term) = Some str.
Proof.
  intros Hs. unfold hexToKeybytes. rewrite hasTerm_hex by (by apply nibbles_of_ok).
  rewrite hex_path, land_odd, length_nibbles_of.
  rewrite (Nat.odd_mul 2). cbn. by apply decodeNibbles_nibbles_of.
Qed.

Lemma prefixLen_spec a b :
  let n := prefixLen a b in
  take n a = take n b ∧ (n ≤ length a)%nat ∧ (n ≤ length b)%nat
  ∧ (∀ x y, a !! n = Some x → b !! n = Some y → x ≠ y).
Proof.
  revert b. induction a as [|x a IH]; intros [|y b]; cbn; try (repeat split; (done || lia)).
  destruct (x =? y) eqn:E; bool_prop.
  - subst y. destruct (IH b) as (H1 & H2 & H3 & H4).
    cbn. split; [by rewrite H1|]. split; [lia|]. split; [lia|done].
  - split; [done|]. split; [lia|]. split; [lia|]. by intros ? ? [= <-] [= <-].
Qed.

(** ** Properties *)

(** Compact keys round trip.  Every hex key, with or without terminator,
    is packed by [hexToCompact] into half its length plus the flag byte, and
    [compactToHex] returns it; in particular keys that differ in parity or in
    the terminator never share a compact form. *)
Theorem hexToCompact_roundtrip (path : bytes) (term : bool) :
  nibbles_ok path →
  ∃ c, hexToCompact (hex_key path term) = Some c ∧ bytes_ok c
    ∧ length c = (length path / 2 + 1)%nat ∧ compactToHex c = hex_key path term.
Proof.
  intros Hp. destruct (compactToHex_hexToCompact path term Hp) as (c & ? & ? & ? & ?). eauto.
Qed.

Lemma hexToCompact_roundtrip_witness :
  ∃ c, hexToCompact (hex_key [15; 1; 12; 11; 8] true) = Some c ∧ bytes_ok c
    ∧ length c = 3%nat ∧ compactToHex c = [15; 1; 12; 11; 8; 16].
Proof. apply (hexToCompact_roundtrip [15; 1; 12; 11; 8] true). wf_concrete. Defined.

(** The in-place variant computes the same compact key.  Although it
    overwrites the buffer it reads from, the prefix it announces holds exactly
    what [hexToCompact] allocates. *)
Theorem hexToCompactInPlace_equiv (path : bytes) (term : bool) :
  nibbles_ok path → hex_key path term ≠ [] →
  ∃ buf n, hexToCompactInPlace (hex_key path term) = Some (buf, n)
    ∧ hexToCompact (hex_key path term) = Some (take n buf).
Proof.
  intros Hp Hne. destruct (inplace_path path term Hp Hne) as (buf & ? & ?). eauto.
Qed.

Lemma hexToCompactInPlace_equiv_witness :
  ∃ buf n, hexToCompactInPlace [1; 2; 3; 4; 16] = Some (buf, n)
    ∧ hexToCompact [1; 2; 3; 4; 16] = Some (take n buf).
Proof. apply (hexToCompactInPlace_equiv [1; 2; 3; 4] true); [wf_concrete|done]. Defined.

(** key bytes round trip through the hex form. *)
Theorem hexToKeybytes_roundtrip (key : bytes) :
  bytes_ok key → hexToKeybytes (keybytesToHex key) = Some key.
Proof. intros Hk. by apply (hexToKeybytes_hex key true). Qed.

Lemma hexToKeybytes_roundtrip_witness :
  hexToKeybytes (keybytesToHex [0x12; 0xAB; 0xFF]) = Some [0x12; 0xAB; 0xFF].
Proof. apply hexToKeybytes_roundtrip. wf_concrete. Defined.
