(* ===== verification/TrieSpec.v ===== *)
(** * Canonical tries: the reference model of the Merkle Patricia trie

    An abstract radix tree over nibble paths, without database, hash or flag
    bookkeeping: a subtree is a leaf with its remaining path, or a branch with
    the path that leads to it, sixteen optional subtrees and an optional value.
    [Trie] shows that the nodes of src/trie/trie.go represent such trees and
    that [insert] and [delete] implement the operations here; this file shows
    that the operations are those of a map from paths to values, that they
    preserve the minimal form the comments of [delete] describe, and that a map
    has only one tree in that form. *)
From S2P Require Import Prelude TrieEncoding.
Local Open Scope Z_scope.

Inductive pt :=
| PLeaf (k : bytes) (v : bytes)
| PBr (k : bytes) (cs : list (option pt)) (ov : option bytes).

Definition on_child (P : pt → Prop) (oc : option pt) : Prop :=
  match oc with Some c => P c | None => True end.

Section pt_induction.
Variable P : pt → Prop.
Hypothesis HLeaf : ∀ k v, P (PLeaf k v).
Hypothesis HBr : ∀ k cs ov, Forall (on_child P) cs → P (PBr k cs ov).

Fixpoint pt_ind' (p : pt) : P p :=
  match p with
  | PLeaf k v => HLeaf k v
  | PBr k cs ov => HBr k cs ov
      ((fix go (cs : list (option pt)) : Forall (on_child P) cs :=
          match cs with
          | [] => List.Forall_nil _
          | oc :: cs => List.Forall_cons (on_child P) oc cs
              (match oc as o return on_child P o with Some c => pt_ind' c | None => I end) (go cs)
          end) cs)
  end.
End pt_induction.

(** ** Operations *)

(** What is left of [path] after [k], if [k] is a prefix of it. *)
Fixpoint strip (k path : bytes) : option bytes :=
  match k, path with
  | [], _ => Some path
  | x :: k, y :: path => if x =? y then strip k path else None
  | _, [] => None
  end.

Definition child (cs : list (option pt)) (x : Z) : option pt :=
  match cs !! Z.to_nat x with Some oc => oc | None => None end.

Fixpoint pget (p : pt) (path : bytes) : option bytes :=
  match p with
  | PLeaf k v => if bool_decide (path = k) then Some v else None
  | PBr k cs ov =>
      match strip k path with
      | None => None
      | Some [] => ov
      | Some (x :: r) =>
          match map (λ oc, match oc with Some c => pget c r | None => None end) cs !! Z.to_nat x with
          | Some res => res
          | None => None
          end
      end
  end.

Definition get (op : option pt) (path : bytes) : option bytes :=
  match op with Some p => pget p path | None => None end.

Definition no_children : list (option pt) := replicate 16 None.

(** Add the subtree [f r] below the next nibble of a suffix [x :: r], or the
    value if the suffix is empty. *)
Definition put (suffix : bytes) (f : bytes → pt) (v : bytes)
    (b : list (option pt) * option bytes) : list (option pt) * option bytes :=
  match suffix with
  | [] => (b.1, Some v)
  | x :: r => (<[Z.to_nat x := Some (f r)]> b.1, b.2)
  end.

Definition update_nth {A} (f : A → A) :=
  fix go (i : nat) (l : list A) {struct l} : list A :=
    match l, i with
    | [], _ => []
    | a :: l, O => f a :: l
    | a :: l, S i => a :: go i l
    end.

Fixpoint pinsert (p : pt) (path v : bytes) : pt :=
  match p with
  | PLeaf k w =>
      let m := prefixLen path k in
      if bool_decide (path = k) then PLeaf k v
      else
        let b := put (drop m k) (λ r, PLeaf r w) w (no_children, None) in
        let b := put (drop m path) (λ r, PLeaf r v) v b in
        PBr (take m path) b.1 b.2
  | PBr k cs ov =>
      match strip k path with
      | Some [] => PBr k cs (Some v)
      | Some (x :: r) =>
          PBr k (update_nth (λ oc, match oc with
                                   | Some c => Some (pinsert c r v)
                                   | None => Some (PLeaf r v)
                                   end) (Z.to_nat x) cs) ov
      | None =>
          let m := prefixLen path k in
          let b := put (drop m k) (λ r, PBr r cs ov) [] (no_children, None) in
          let b := put (drop m path) (λ r, PLeaf r v) v b in
          PBr (take m path) b.1 b.2
      end
  end.

Definition insert_ (op : option pt) (path v : bytes) : pt :=
  match op with Some p => pinsert p path v | None => PLeaf path v end.

(** Extend the path that leads to a subtree. *)
Definition prepend (k : bytes) (p : pt) : pt :=
  match p with
  | PLeaf k' v => PLeaf (k ++ k') v
  | PBr k' cs ov => PBr (k ++ k') cs ov
  end.

(** The subtrees that are there, with their nibbles. *)
Fixpoint children_from (i : Z) (cs : list (option pt)) : list (Z * pt) :=
  match cs with
  | [] => []
  | Some c :: cs => (i, c) :: children_from (i + 1) cs
  | None :: cs => children_from (i + 1) cs
  end.

(** A branch with one entry left is replaced by that entry. *)
Definition collapse (k : bytes) (cs : list (option pt)) (ov : option bytes) : option pt :=
  match children_from 0 cs, ov with
  | [], None => None
  | [], Some v => Some (PLeaf k v)
  | [(i, c)], None => Some (prepend (k ++ [i]) c)
  | _, _ => Some (PBr k cs ov)
  end.

Fixpoint pdelete (p : pt) (path : bytes) : option pt :=
  match p with
  | PLeaf k w => if bool_decide (path = k) then None else Some p
  | PBr k cs ov =>
      match strip k path with
      | None => Some p
      | Some [] => match ov with None => Some p | Some _ => collapse k cs None end
      | Some (x :: r) =>
          match child cs x with
          | None => Some p
          | Some _ =>
              collapse k (update_nth (λ oc, match oc with
                                            | Some c => pdelete c r
                                            | None => None
                                            end) (Z.to_nat x) cs) ov
          end
      end
  end.

Definition delete_ (op : option pt) (path : bytes) : option pt :=
  match op with Some p => pdelete p path | None => None end.

(** ** Minimal form *)

Definition entries (cs : list (option pt)) (ov : option bytes) : nat :=
  (length (children_from 0 cs) + match ov with Some _ => 1 | None => 0 end)%nat.

Definition all_children (P : pt → Prop) :=
  fix go (cs : list (option pt)) : Prop :=
    match cs with
    | [] => True
    | Some c :: cs => P c ∧ go cs
    | None :: cs => go cs
    end.

(** Sixteen children, nibble paths, no empty values, and every branch with at
    least two entries. *)
Fixpoint canonical (p : pt) : Prop :=
  match p with
  | PLeaf k v => nibbles_ok k ∧ v ≠ []
  | PBr k cs ov =>
      nibbles_ok k ∧ length cs = 16%nat ∧ (2 ≤ entries cs ov)%nat
      ∧ ov ≠ Some [] ∧ all_children canonical cs
  end.

Definition canonical_root (op : option pt) : Prop :=
  match op with Some p => canonical p | None => True end.

(** ** Lemmas: paths and children *)

Lemma strip_some k path r : strip k path = Some r ↔ path = k ++ r.
Proof.
  revert path. induction k as [|x k IH]; intros path; cbn.
  - split; [by intros [= ->]|by intros ->].
  - destruct path as [|y path]; [done|]. destruct (x =? y) eqn:E; bool_prop.
    + subst y. rewrite IH. split; [by intros ->|by intros [= ->]].
    + split; [done|]. intros [= -> _]. done.
Qed.
Lemma strip_app k r : strip k (k ++ r) = Some r.
Proof. by apply strip_some. Qed.

Lemma strip_prefix a k path :
  strip (a ++ k) path = match strip a path with Some r => strip k r | None => None end.
Proof.
  destruct (strip a path) as [r|] eqn:E.
  - apply strip_some in E as ->. destruct (strip k r) as [r'|] eqn:E.
    + apply strip_some in E as ->. apply strip_some. by rewrite app_assoc.
    + destruct (strip (a ++ k) (a ++ r)) as [r'|] eqn:E'; [|done].
      apply strip_some in E'. rewrite <- app_assoc in E'. apply app_inv_head in E' as ->.
      by rewrite strip_app in E.
  - destruct (strip (a ++ k) path) as [r'|] eqn:E'; [|done].
    apply strip_some in E' as ->. by rewrite <- app_assoc, strip_app in E.
Qed.

(** Two suffixes that part at once. *)
Definition diverge (a b : bytes) : Prop :=
  match a, b with
  | [], [] => False
  | x :: _, y :: _ => x ≠ y
  | _, _ => True
  end.

Lemma prefixLen_split path k :
  let m := prefixLen path k in
  path = take m path ++ drop m path ∧ k = take m path ++ drop m k
  ∧ (path ≠ k → diverge (drop m path) (drop m k)).
Proof.
  intros m. destruct (prefixLen_spec path k) as (H1 & H2 & H3 & H4). fold m in H1, H2, H3, H4.
  split; [by rewrite take_drop|]. split; [by rewrite H1, take_drop|].
  intros Hne. destruct (drop m path) as [|x p'] eqn:Ep, (drop m k) as [|y k'] eqn:Ek; cbn; try done.
  - apply Hne. by rewrite <- (take_drop m path), <- (take_drop m k), H1, Ep, Ek.
  - apply (H4 x y).
    + rewrite <- (Nat.add_0_r m), <- lookup_drop, Ep. done.
    + rewrite <- (Nat.add_0_r m), <- lookup_drop, Ek. done.
Qed.

Lemma child_some cs x c : child cs x = Some c ↔ cs !! Z.to_nat x = Some (Some c).
Proof. unfold child. destruct (cs !! Z.to_nat x) as [[c'|]|]; split; congruence. Qed.

Lemma pget_br k cs ov path :
  pget (PBr k cs ov) path =
    match strip k path with
    | None => None
    | Some [] => ov
    | Some (x :: r) => get (child cs x) r
    end.
Proof.
  cbn [pget]. destruct (strip k path) as [[|x r]|]; try done.
  change (map ?f cs) with (f <$> cs). rewrite list_lookup_fmap. unfold child, get.
  by destruct (cs !! Z.to_nat x).
Qed.

Lemma all_children_Forall P cs : all_children P cs ↔ Forall (on_child P) cs.
Proof.
  induction cs as [|[c|] cs IH]; cbn; [done|..]; rewrite Forall_cons; cbn; rewrite IH; tauto.
Qed.

Lemma child_canonical P cs x c : all_children P cs → child cs x = Some c → P c.
Proof.
  rewrite all_children_Forall, child_some. intros H Hc.
  by eapply (Forall_lookup_1 (on_child P) cs _ (Some c)).
Qed.

Lemma length_update_nth {A} (f : A → A) i l : length (update_nth f i l) = length l.
Proof. revert i. induction l as [|a l IH]; intros [|i]; cbn; auto. Qed.

Lemma lookup_update_nth {A} (f : A → A) i j l :
  update_nth f i l !! j = if bool_decide (i = j) then f <$> l !! j else l !! j.
Proof.
  revert i j. induction l as [|a l IH]; intros [|i] [|j]; cbn; try done.
  - by case_bool_decide.
  - rewrite IH. case_bool_decide; case_bool_decide; try done; lia.
Qed.

Lemma child_update f cs x y :
  is_nibble x → is_nibble y → length cs = 16%nat →
  child (update_nth f (Z.to_nat x) cs) y = if x =? y then f (child cs x) else child cs y.
Proof.
  unfold is_nibble. intros Hx Hy Hl. unfold child. rewrite lookup_update_nth.
  destruct (x =? y) eqn:E; bool_prop.
  - subst y. rewrite bool_decide_true by done.
    destruct (lookup_lt_is_Some_2 cs (Z.to_nat x)) as [oc ->]; [lia|done].
  - rewrite bool_decide_false by lia. done.
Qed.

Lemma child_insert cs x y oc :
  is_nibble x → is_nibble y → length cs = 16%nat →
  child (<[Z.to_nat x := oc]> cs) y = if x =? y then oc else child cs y.
Proof.
  unfold is_nibble. intros Hx Hy Hl. unfold child. destruct (x =? y) eqn:E; bool_prop.
  - subst y. rewrite list_lookup_insert_eq by lia. done.
  - rewrite list_lookup_insert_ne by lia. done.
Qed.

Lemma child_none x : child no_children x = None.
Proof.
  unfold child, no_children. destruct (replicate 16 None !! Z.to_nat x) as [oc|] eqn:E; [|done].
  apply lookup_replicate in E as [-> _]. done.
Qed.

(** ** Lemmas: number of entries *)

Fixpoint nkids (cs : list (option pt)) : nat :=
  match cs with
  | [] => 0
  | Some _ :: cs => S (nkids cs)
  | None :: cs => nkids cs
  end.

Lemma length_children_from i cs : length (children_from i cs) = nkids cs.
Proof. revert i. induction cs as [|[c|] cs IH]; intros i; cbn; auto. Qed.

Lemma nkids_insert cs i oc c :
  cs !! i = Some oc →
  nkids (<[i := Some c]> cs) = match oc with Some _ => nkids cs | None => S (nkids cs) end.
Proof.
  revert i. induction cs as [|a cs IH]; intros [|i] H; cbn in *; try done.
  - injection H as ->. by destruct oc.
  - specialize (IH i H). destruct a, oc; cbn in *; first [exact IH|exact (f_equal S IH)].
Qed.

Lemma entries_eq cs ov :
  entries cs ov = (nkids cs + match ov with Some _ => 1 | None => 0 end)%nat.
Proof. unfold entries. by rewrite length_children_from. Qed.

Lemma in_children_from s cs i c :
  0 ≤ s → (i, c) ∈ children_from s cs ↔ s ≤ i ∧ cs !! Z.to_nat (i - s) = Some (Some c).
Proof.
  revert s. induction cs as [|oc cs IH]; intros s Hs; cbn.
  - rewrite elem_of_nil, lookup_nil. split; [done|by intros [_ ?]].
  - assert ((i, c) ∈ children_from (s + 1) cs
      ↔ s < i ∧ (oc :: cs) !! Z.to_nat (i - s) = Some (Some c)) as Hrest.
    { rewrite IH by lia. split; intros [H1 H2]; (split; [lia|]);
        revert H2; replace (Z.to_nat (i - s)) with (S (Z.to_nat (i - (s + 1)))) by lia; done. }
    destruct oc as [c'|]; [rewrite elem_of_cons|]; rewrite Hrest; split.
    + intros [[= -> ->]|[? ?]]; [|split; [lia|done]]. split; [lia|]. by rewrite Z.sub_diag.
    + intros [H1 H2]. destruct (decide (i = s)) as [->|]; [|right; split; [lia|done]].
      left. rewrite Z.sub_diag in H2. injection H2 as ->. done.
    + intros [? ?]. split; [lia|done].
    + intros [H1 H2]. destruct (decide (i = s)) as [->|]; [|split; [lia|done]].
      rewrite Z.sub_diag in H2. done.
Qed.

Lemma in_children cs i c :
  is_nibble i → (i, c) ∈ children_from 0 cs ↔ child cs i = Some c.
Proof.
  unfold is_nibble. intros Hi. rewrite in_children_from, child_some, Z.sub_0_r by lia.
  split; [by intros []|]. split; [lia|done].
Qed.

(** ** Lemmas: insertion *)

Definition bget (b : list (option pt) * option bytes) (r : bytes) : option bytes :=
  match r with [] => b.2 | x :: r' => get (child b.1 x) r' end.

Lemma pget_branch k b path :
  pget (PBr k b.1 b.2) path = match strip k path with None => None | Some r => bget b r end.
Proof. rewrite pget_br. by destruct (strip k path) as [[|x r]|]. Qed.

Lemma bget_put s f v b r :
  nibbles_ok s → nibbles_ok r → length b.1 = 16%nat →
  bget (put s f v b) r =
    match s, r with
    | [], [] => Some v
    | x :: s', y :: r' => if x =? y then pget (f s') r' else bget b r
    | _, _ => bget b r
    end.
Proof.
  intros Hs Hr Hl. destruct s as [|x s'], r as [|y r']; try done.
  apply nibbles_ok_cons in Hs as [Hx _], Hr as [Hy _]. cbn [put bget fst].
  rewrite child_insert by done. by destruct (x =? y).
Qed.

Lemma length_put s f v b : length (put s f v b).1 = length b.1.
Proof. destruct s; cbn; [done|]. apply length_insert. Qed.

Lemma length_no_children : length no_children = 16%nat.
Proof. done. Qed.

Lemma bget_none r : bget (no_children, None) r = None.
Proof. destruct r; cbn [bget fst snd]; [done|]. by rewrite child_none. Qed.

(** Branching out where two paths part. *)
Lemma split_get common sp sk fk w v path' :
  nibbles_ok sp → nibbles_ok sk → nibbles_ok path' → diverge sp sk →
  let b := put sk fk w (no_children, None) in
  let b2 := put sp (λ r, PLeaf r v) v b in
  pget (PBr common b2.1 b2.2) path' =
    if bool_decide (path' = common ++ sp) then Some v
    else match strip common path' with None => None | Some r => bget b r end.
Proof.
  intros Hsp Hsk Hp Hd b b2. rewrite pget_branch. destruct (strip common path') as [r|] eqn:E.
  - apply strip_some in E as ->. apply nibbles_ok_app in Hp as [_ Hr].
    unfold b2. rewrite bget_put by (done || by unfold b; rewrite length_put).
    destruct sp as [|x sp], r as [|y r].
    + by rewrite bool_decide_true.
    + rewrite bool_decide_false; [done|]. by intros ?%app_inv_head.
    + rewrite bool_decide_false; [done|]. by intros ?%app_inv_head.
    + apply nibbles_ok_cons in Hsp as [Hx _], Hr as [Hy Hr]. destruct (x =? y) eqn:Exy; bool_prop.
      * subst y. cbn [pget]. case_bool_decide as H1; case_bool_decide as H2; subst; try done.
        -- by apply app_inv_head in H2 as [= ->].
        -- unfold b. rewrite bget_put by (done || by apply nibbles_ok_cons).
           destruct sk as [|z sk]; [by rewrite bget_none|]. cbn in Hd.
           replace (z =? x) with false by lia. by rewrite bget_none.
      * rewrite bool_decide_false; [done|]. intros [= ->]%app_inv_head. done.
  - rewrite bool_decide_false; [done|]. intros ->. by rewrite strip_app in E.
Qed.

Lemma nibbles_ok_drop n l : nibbles_ok l → nibbles_ok (drop n l).
Proof. apply Forall_drop. Qed.
Lemma nibbles_ok_take n l : nibbles_ok l → nibbles_ok (take n l).
Proof. apply Forall_take. Qed.

Lemma strip_none_diverge k path :
  strip k path = None → let m := prefixLen path k in
  ∃ y sk, drop m k = y :: sk ∧ diverge (drop m path) (y :: sk)
    ∧ path = take m path ++ drop m path ∧ k = take m path ++ y :: sk.
Proof.
  intros E m. destruct (prefixLen_split path k) as (H1 & H2 & H3). fold m in H1, H2, H3.
  destruct (drop m k) as [|y sk] eqn:Ek.
  - exfalso. rewrite app_nil_r in H2.
    assert (strip k path = Some (drop m path)) by (apply strip_some; by rewrite H2 at 1).
    congruence.
  - exists y, sk. split; [done|]. split; [|done]. apply H3. intros ->.
    rewrite <- (app_nil_r k) in E at 2. by rewrite strip_app in E.
Qed.

Lemma child_IH cs x c (P : pt → Prop) : Forall (on_child P) cs → child cs x = Some c → P c.
Proof. intros H Hc. by eapply child_canonical; [apply all_children_Forall|]. Qed.

Lemma pinsert_get p path v path' :
  canonical p → nibbles_ok path → nibbles_ok path' →
  pget (pinsert p path v) path' = if bool_decide (path' = path) then Some v else pget p path'.
Proof.
  intros Hc Hp Hp'. revert path path' Hc Hp Hp'.
  induction p as [k w|k cs ov IH] using pt_ind'; intros path path' Hc Hp Hp'.
  - destruct Hc as [Hk _]. cbn [pinsert]. case_bool_decide as Heq.
    + subst k. cbn. by case_bool_decide.
    + destruct (prefixLen_split path k) as (H1 & H2 & H3). set (m := prefixLen path k) in *.
      cbv zeta. rewrite split_get; [|by apply nibbles_ok_drop..|done|by apply H3].
      rewrite <- H1. case_bool_decide; [done|]. cbn [pget].
      destruct (strip (take m path) path') as [r|] eqn:E.
      * apply strip_some in E as ->. apply nibbles_ok_app in Hp' as [_ Hr].
        rewrite bget_put by (done || by apply nibbles_ok_drop).
        assert (bool_decide (take m path ++ r = k) = bool_decide (r = drop m k)) as ->.
        { apply bool_decide_ext. rewrite H2 at 1. split; [apply app_inv_head|by intros ->]. }
        destruct (drop m k) as [|x sk], r as [|y r]; rewrite ?bget_none; try done.
        destruct (x =? y) eqn:Exy; bool_prop.
        -- subst y. cbn [pget]. case_bool_decide as Hx; case_bool_decide; congruence.
        -- rewrite bool_decide_false; [done|]. congruence.
      * rewrite bool_decide_false; [done|]. intros ->. by rewrite H2, strip_app in E.
  - destruct Hc as (Hk & Hl & He & Hov & Hcs). cbn [pinsert].
    destruct (strip k path) as [[|x r]|] eqn:E.
    + apply strip_some in E as ->. rewrite app_nil_r in *. rewrite !pget_br.
      case_bool_decide as Hx.
      * subst path'. rewrite <- (app_nil_r k) at 2. by rewrite strip_app.
      * destruct (strip k path') as [[|y r']|] eqn:E'; try done.
        apply strip_some in E'. by rewrite app_nil_r in E'.
    + apply strip_some in E as ->. apply nibbles_ok_app in Hp as [_ Hp].
      apply nibbles_ok_cons in Hp as [Hx Hr]. rewrite !pget_br.
      destruct (strip k path') as [[|y r']|] eqn:E'.
      * apply strip_some in E' as ->. rewrite bool_decide_false; [done|]. by intros ?%app_inv_head.
      * apply strip_some in E' as ->. apply nibbles_ok_app in Hp' as [_ Hp'].
        apply nibbles_ok_cons in Hp' as [Hy Hr']. rewrite child_update by done.
        destruct (x =? y) eqn:Exy; bool_prop.
        -- subst y. destruct (child cs x) as [c|] eqn:Ec; cbn [get].
           ++ rewrite (child_IH cs x c _ IH Ec r r' (child_canonical _ _ _ _ Hcs Ec) Hr Hr').
              case_bool_decide as H1; case_bool_decide as H2; try done; [by subst|].
              by apply app_inv_head in H2 as [= ->].
           ++ cbn [pget]. case_bool_decide as H1; case_bool_decide as H2; try done; [by subst|].
              by apply app_inv_head in H2 as [= ->].
        -- rewrite bool_decide_false; [done|]. intros [= ->]%app_inv_head. done.
      * rewrite bool_decide_false; [done|]. intros ->. by rewrite strip_app in E'.
    + destruct (strip_none_diverge k path E) as (y & sk & Ek & Hd & H1 & H2).
      set (m := prefixLen path k) in *. cbv zeta. rewrite Ek.
      assert (nibbles_ok (y :: sk)) as Hsk by (rewrite <- Ek; by apply nibbles_ok_drop).
      rewrite split_get; [|by apply nibbles_ok_drop|done..]. rewrite <- H1.
      case_bool_decide; [done|]. rewrite pget_br, H2, strip_prefix.
      destruct (strip (take m path) path') as [r|] eqn:E'; [|done].
      apply strip_some in E' as ->. apply nibbles_ok_app in Hp' as [_ Hr].
      rewrite bget_put by done. destruct r as [|z r]; [by rewrite bget_none|]. cbn [strip].
      destruct (y =? z); [|by rewrite bget_none]. by rewrite pget_br.
Qed.

Lemma nkids_none : nkids no_children = 0%nat.
Proof. done. Qed.

(** Slots of a branch under construction. *)
Definition free_slot (s : bytes) (b : list (option pt) * option bytes) : Prop :=
  match s with [] => b.2 = None | x :: _ => child b.1 x = None end.

Lemma entries_put s f v b :
  nibbles_ok s → length b.1 = 16%nat → free_slot s b →
  entries (put s f v b).1 (put s f v b).2 = S (entries b.1 b.2).
Proof.
  intros Hs Hl Hf. rewrite !entries_eq. destruct s as [|x s]; cbn in *.
  - rewrite Hf. lia.
  - apply nibbles_ok_cons in Hs as [Hx _]. unfold is_nibble in Hx.
    destruct (lookup_lt_is_Some_2 b.1 (Z.to_nat x)) as [oc Hoc]; [lia|].
    rewrite (nkids_insert _ _ _ _ Hoc). unfold child in Hf. rewrite Hoc in Hf. subst oc. done.
Qed.

Lemma all_children_put P s f v b :
  all_children P b.1 → (∀ r, nibbles_ok r → P (f r)) → nibbles_ok s →
  all_children P (put s f v b).1.
Proof.
  intros Hb Hf Hs. destruct s as [|x s]; [done|]. cbn.
  apply nibbles_ok_cons in Hs as [_ Hs].
  rewrite all_children_Forall in *. apply Forall_insert; [done|]. by apply Hf.
Qed.

Lemma split_canonical common sp sk fk w v :
  nibbles_ok common → nibbles_ok sp → nibbles_ok sk → diverge sp sk →
  (∀ r, nibbles_ok r → canonical (fk r)) → (sk = [] → w ≠ []) → v ≠ [] →
  let b := put sk fk w (no_children, None) in
  let b2 := put sp (λ r, PLeaf r v) v b in
  canonical (PBr common b2.1 b2.2).
Proof.
  intros Hco Hsp Hsk Hd Hfk Hw Hv b b2. cbn [canonical]. split; [done|].
  split; [unfold b2, b; by rewrite !length_put|]. split; [|split].
  - unfold b2, b. rewrite entries_put; [|done|by rewrite length_put|].
    + rewrite entries_put; [|done|done|]. { rewrite entries_eq. cbn. lia. }
      destruct sk; [done|]. apply child_none.
    + destruct sp as [|x sp], sk as [|y sk]; try done.
      * apply child_none.
      * cbn [put free_slot fst]. apply nibbles_ok_cons in Hsp as [Hx _], Hsk as [Hy _].
        rewrite child_insert by done. cbn in Hd. replace (y =? x) with false by lia. apply child_none.
  - destruct sp, sk; cbn; try done; intros [= ->]; [by apply Hv|by apply Hw].
  - apply all_children_put; [|done|done]. by apply all_children_put.
Qed.

Lemma all_children_update P f i cs :
  all_children P cs → (∀ oc, cs !! i = Some oc → on_child P (f oc)) →
  all_children P (update_nth f i cs).
Proof.
  rewrite !all_children_Forall. intros Hcs Hf. apply Forall_lookup. intros j oc.
  rewrite lookup_update_nth. rewrite Forall_lookup in Hcs.
  case_bool_decide; [subst j|apply Hcs]. destruct (cs !! i) as [oc'|] eqn:E; [|done].
  intros [= <-]. by apply Hf.
Qed.

Lemma nkids_update_some (f : option pt → option pt) i cs :
  (∀ oc, is_Some (f oc)) → (nkids cs ≤ nkids (update_nth f i cs))%nat.
Proof.
  intros Hf. revert i. induction cs as [|a cs IH]; intros [|i]; cbn; try lia.
  - destruct (Hf a) as [c ->]. destruct a; lia.
  - specialize (IH i). destruct a; cbn in *; lia.
Qed.

Lemma pinsert_canonical p path v :
  canonical p → nibbles_ok path → v ≠ [] → canonical (pinsert p path v).
Proof.
  revert path. induction p as [k w|k cs ov IH] using pt_ind'; intros path Hc Hp Hv.
  - destruct Hc as [Hk Hw]. cbn [pinsert]. case_bool_decide as Heq; [done|].
    destruct (prefixLen_split path k) as (H1 & H2 & H3).
    apply split_canonical; try done; try (by apply nibbles_ok_drop); [by apply nibbles_ok_take|by apply H3].
  - destruct Hc as (Hk & Hl & He & Hov & Hcs). cbn [pinsert].
    destruct (strip k path) as [[|x r]|] eqn:E.
    + cbn [canonical]. rewrite !entries_eq in *. repeat split; try done; [destruct ov; lia|].
      by intros [= ->].
    + apply strip_some in E as ->. apply nibbles_ok_app in Hp as [_ Hp].
      apply nibbles_ok_cons in Hp as [Hx Hr]. cbn [canonical]. rewrite length_update_nth.
      do 2 (split; [done|]). rewrite !entries_eq in *. split; [|split; [done|]].
      * pose proof (nkids_update_some (λ oc, match oc with
          | Some c => Some (pinsert c r v) | None => Some (PLeaf r v) end) (Z.to_nat x) cs) as Hn.
        specialize (Hn ltac:(intros [c|]; eauto)). destruct ov; lia.
      * apply all_children_update; [done|]. intros [c|] Hoc; [|done]. cbn.
        apply child_some in Hoc. eapply (child_IH _ _ _ _ IH Hoc); [|done|done].
        by eapply child_canonical.
    + destruct (strip_none_diverge k path E) as (y & sk & Ek & Hd & H1 & H2).
      rewrite Ek. apply split_canonical; try done.
      * by apply nibbles_ok_take.
      * by apply nibbles_ok_drop.
      * rewrite <- Ek. by apply nibbles_ok_drop.
Qed.

(** ** Lemmas: deletion *)

Lemma prepend_get k p path :
  pget (prepend k p) path = match strip k path with None => None | Some r => pget p r end.
Proof.
  destruct p as [k' v|k' cs ov]; cbn [prepend].
  - cbn [pget]. destruct (strip k path) as [r|] eqn:E.
    + apply strip_some in E as ->. case_bool_decide as H1; case_bool_decide as H2; try done.
      * by apply app_inv_head in H1.
      * by subst.
    + rewrite bool_decide_false; [done|]. intros ->. by rewrite strip_app in E.
  - rewrite pget_br, strip_prefix. destruct (strip k path); [|done]. by rewrite pget_br.
Qed.

Lemma prepend_canonical k p : nibbles_ok k → canonical p → canonical (prepend k p).
Proof.
  intros Hk. destruct p; cbn; rewrite ?nibbles_ok_app; tauto.
Qed.

Lemma children_index cs i c :
  length cs = 16%nat → (i, c) ∈ children_from 0 cs → is_nibble i ∧ child cs i = Some c.
Proof.
  intros Hl Hi. pose proof Hi as H. apply in_children_from in H as [H0 H]; [|lia].
  apply lookup_lt_Some in H. assert (is_nibble i) by (unfold is_nibble; lia).
  split; [done|]. by apply in_children.
Qed.

Lemma children_none cs x : is_nibble x → children_from 0 cs = [] → child cs x = None.
Proof.
  intros Hx H. destruct (child cs x) as [c|] eqn:E; [|done].
  apply in_children in E; [|done]. rewrite H in E. by apply elem_of_nil in E.
Qed.

Lemma children_single cs x i c :
  is_nibble x → children_from 0 cs = [(i, c)] → child cs x = if i =? x then child cs i else None.
Proof.
  intros Hx H. destruct (i =? x) eqn:E; bool_prop; [by subst|].
  destruct (child cs x) as [c'|] eqn:Ec; [|done].
  apply in_children in Ec; [|done]. rewrite H in Ec. apply list_elem_of_singleton in Ec. congruence.
Qed.

Lemma collapse_get k cs ov path :
  length cs = 16%nat → nibbles_ok path → get (collapse k cs ov) path = pget (PBr k cs ov) path.
Proof.
  intros Hl Hp. rewrite pget_br. unfold collapse.
  destruct (children_from 0 cs) as [|[i c] [|ic l]] eqn:Ecs; [destruct ov as [v|]|destruct ov|].
  - cbn. destruct (strip k path) as [[|x r]|] eqn:E.
    + apply strip_some in E. rewrite app_nil_r in E. by rewrite bool_decide_true.
    + apply strip_some in E as ->. rewrite bool_decide_false.
      * apply nibbles_ok_app in Hp as [_ Hp]. apply nibbles_ok_cons in Hp as [Hx _].
        by rewrite children_none.
      * rewrite <- (app_nil_r k) at 2. by intros ?%app_inv_head.
    + rewrite bool_decide_false; [done|]. intros ->.
      rewrite <- (app_nil_r k) in E at 2. by rewrite strip_app in E.
  - destruct (strip k path) as [[|x r]|] eqn:E; try done.
    apply strip_some in E as ->. apply nibbles_ok_app in Hp as [_ Hp].
    apply nibbles_ok_cons in Hp as [Hx _]. by rewrite children_none.
  - cbn [get]. by rewrite pget_br.
  - cbn [get]. rewrite prepend_get, strip_prefix.
    destruct (children_index cs i c Hl) as [Hi Hc]; [rewrite Ecs; by apply list_elem_of_singleton|].
    destruct (strip k path) as [[|x r]|] eqn:E; try done.
    apply strip_some in E as ->. apply nibbles_ok_app in Hp as [_ Hp].
    apply nibbles_ok_cons in Hp as [Hx _]. rewrite (children_single _ _ _ _ Hx Ecs).
    cbn [strip]. destruct (i =? x); [|done]. by rewrite Hc.
  - cbn [get]. rewrite pget_br. by destruct ov.
Qed.

Lemma collapse_canonical k cs ov :
  nibbles_ok k → length cs = 16%nat → (1 ≤ entries cs ov)%nat → ov ≠ Some [] →
  all_children canonical cs → canonical_root (collapse k cs ov).
Proof.
  intros Hk Hl He Hov Hcs. unfold collapse, entries in *.
  destruct (children_from 0 cs) as [|[i c] [|ic l]] eqn:Ecs; [destruct ov as [v|]|destruct ov|].
  - split; [done|]. by intros ->.
  - done.
  - cbn [canonical_root canonical]. unfold entries. rewrite Ecs. by repeat split.
  - destruct (children_index cs i c Hl) as [Hi Hc]; [rewrite Ecs; by apply list_elem_of_singleton|].
    apply prepend_canonical; [|by eapply child_canonical].
    apply nibbles_ok_app. split; [done|]. by apply nibbles_ok_cons.
  - assert (2 ≤ entries cs ov)%nat by (unfold entries; rewrite Ecs; cbn; lia).
    by destruct ov.
Qed.

Lemma nkids_update_one (f : option pt → option pt) i cs :
  (nkids cs ≤ S (nkids (update_nth f i cs)))%nat.
Proof.
  revert i. induction cs as [|a cs IH]; intros [|i]; cbn; try lia.
  - destruct (f a), a; lia.
  - specialize (IH i). destruct a; cbn in *; lia.
Qed.

Lemma pdelete_get p path path' :
  canonical p → nibbles_ok path → nibbles_ok path' →
  get (pdelete p path) path' = if bool_decide (path' = path) then None else pget p path'.
Proof.
  revert path path'. induction p as [k w|k cs ov IH] using pt_ind'; intros path path' Hc Hp Hp'.
  - cbn [pdelete]. case_bool_decide as Heq; cbn [get pget].
    + subst k. by case_bool_decide.
    + case_bool_decide as H1; [subst; by rewrite bool_decide_false|by case_bool_decide].
  - destruct Hc as (Hk & Hl & He & Hov & Hcs). cbn [pdelete].
    destruct (strip k path) as [[|x r]|] eqn:E.
    + apply strip_some in E as ->. rewrite app_nil_r in *.
      assert (get (match ov with None => Some (PBr k cs ov) | Some _ => collapse k cs None end) path'
        = pget (PBr k cs None) path') as ->.
      { destruct ov; [by apply collapse_get|done]. }
      rewrite !pget_br. case_bool_decide as Hx.
      * subst path'. rewrite <- (app_nil_r k) at 2. by rewrite strip_app.
      * destruct (strip k path') as [[|y r']|] eqn:E'; try done.
        apply strip_some in E'. by rewrite app_nil_r in E'.
    + apply strip_some in E as ->. apply nibbles_ok_app in Hp as [_ Hp].
      apply nibbles_ok_cons in Hp as [Hx Hr].
      set (f := λ oc : option pt, match oc with Some c => pdelete c r | None => None end).
      assert (get (match child cs x with None => Some (PBr k cs ov)
          | Some _ => collapse k (update_nth f (Z.to_nat x) cs) ov end) path'
        = pget (PBr k (update_nth f (Z.to_nat x) cs) ov) path') as ->.
      { destruct (child cs x) eqn:Ec; [apply collapse_get; [by rewrite length_update_nth|done]|].
        cbn [get]. rewrite !pget_br. destruct (strip k path') as [[|y r']|] eqn:E'; try done.
        apply strip_some in E' as ->. apply nibbles_ok_app in Hp' as [_ Hp'].
        apply nibbles_ok_cons in Hp' as [Hy _]. rewrite child_update by done.
        destruct (x =? y) eqn:Exy; bool_prop; [|done]. subst y. by rewrite Ec. }
      rewrite !pget_br. destruct (strip k path') as [[|y r']|] eqn:E'.
      * apply strip_some in E' as ->. rewrite bool_decide_false; [done|]. by intros ?%app_inv_head.
      * apply strip_some in E' as ->. apply nibbles_ok_app in Hp' as [_ Hp'].
        apply nibbles_ok_cons in Hp' as [Hy Hr']. rewrite child_update by done.
        destruct (x =? y) eqn:Exy; bool_prop.
        -- subst y. destruct (child cs x) as [c|] eqn:Ec; cbn [get f]; [|by case_bool_decide].
           rewrite (child_IH cs x c _ IH Ec r r' (child_canonical _ _ _ _ Hcs Ec) Hr Hr').
           case_bool_decide as H1; case_bool_decide as H2; try done; [by subst|].
           by apply app_inv_head in H2 as [= ->].
        -- rewrite bool_decide_false; [done|]. intros [= ->]%app_inv_head. done.
      * rewrite bool_decide_false; [done|]. intros ->. by rewrite strip_app in E'.
    + cbn [get]. case_bool_decide; [|done]. subst. by rewrite pget_br, E.
Qed.

Lemma pdelete_canonical p path :
  canonical p → nibbles_ok path → canonical_root (pdelete p path).
Proof.
  revert path. induction p as [k w|k cs ov IH] using pt_ind'; intros path Hc Hp.
  - cbn [pdelete]. by case_bool_decide.
  - pose proof Hc as (Hk & Hl & He & Hov & Hcs). cbn [pdelete].
    destruct (strip k path) as [[|x r]|] eqn:E; [| |done].
    + destruct ov; [|done]. apply collapse_canonical; try done. rewrite !entries_eq in *. lia.
    + destruct (child cs x) eqn:Ec; [|done]. apply strip_some in E as ->.
      apply nibbles_ok_app in Hp as [_ Hp]. apply nibbles_ok_cons in Hp as [Hx Hr].
      apply collapse_canonical; try done; [by rewrite length_update_nth|..].
      * rewrite !entries_eq in *. set (f := λ oc, _).
        pose proof (nkids_update_one f (Z.to_nat x) cs). destruct ov; lia.
      * apply all_children_update; [done|]. intros [c|] Hoc; [|done]. apply child_some in Hoc.
        pose proof (child_IH _ _ _ _ IH Hoc r (child_canonical _ _ _ _ Hcs Hoc) Hr) as H.
        by destruct (pdelete c r).
Qed.

(** ** Lemmas: uniqueness of the minimal form *)

Lemma children_from_ge s cs i c : 0 ≤ s → (i, c) ∈ children_from s cs → s ≤ i.
Proof. intros Hs H. apply in_children_from in H; [|done]. by destruct H. Qed.

Lemma children_from_lt s cs i c j c' l :
  0 ≤ s → children_from s cs = (i, c) :: (j, c') :: l → i < j.
Proof.
  revert s. induction cs as [|[c0|] cs IH]; intros s Hs; cbn; [done|..].
  - intros [= <- <- E]. assert (s + 1 ≤ j); [|lia].
    apply (children_from_ge _ cs j c'); [lia|]. rewrite E. apply elem_of_cons. by left.
  - intros E. apply (IH (s + 1)); [lia|done].
Qed.

Definition keyed (p : pt) (path : bytes) : Prop := nibbles_ok path ∧ pget p path ≠ None.

Lemma keyed_child k cs ov x c path :
  nibbles_ok k → is_nibble x → child cs x = Some c → keyed c path →
  keyed (PBr k cs ov) (k ++ x :: path).
Proof.
  intros Hk Hx Hc [Hp Hg]. split.
  - apply nibbles_ok_app. split; [done|]. by apply nibbles_ok_cons.
  - rewrite pget_br, strip_app, Hc. done.
Qed.

Lemma keyed_value k cs v : nibbles_ok k → keyed (PBr k cs (Some v)) (k ++ []).
Proof. intros Hk. split; [by rewrite app_nil_r|]. by rewrite pget_br, strip_app. Qed.

Lemma canonical_keyed p : canonical p → ∃ path, keyed p path.
Proof.
  induction p as [k v|k cs ov IH] using pt_ind'.
  - intros [Hk _]. exists k. split; [done|]. cbn. by rewrite bool_decide_true.
  - intros (Hk & Hl & He & _ & Hcs). unfold entries in He.
    destruct (children_from 0 cs) as [|[i c] l] eqn:Ecs.
    + destruct ov; [|cbn in He; lia]. eexists. by apply keyed_value.
    + destruct (children_index cs i c Hl) as [Hi Hc]; [rewrite Ecs; apply elem_of_cons; by left|].
      destruct (child_IH _ _ _ _ IH Hc) as [path Hp]; [by eapply child_canonical|].
      eexists. by eapply keyed_child.
Qed.

Lemma branch_two_keys k cs ov :
  canonical (PBr k cs ov) →
  ∃ a b, diverge a b ∧ keyed (PBr k cs ov) (k ++ a) ∧ keyed (PBr k cs ov) (k ++ b).
Proof.
  intros (Hk & Hl & He & _ & Hcs). unfold entries in He.
  assert (∀ i c, (i, c) ∈ children_from 0 cs →
    ∃ r, keyed (PBr k cs ov) (k ++ i :: r)) as Hkid.
  { intros i c Hic. destruct (children_index cs i c Hl Hic) as [Hi Hc].
    destruct (canonical_keyed c) as [path Hp]; [by eapply child_canonical|].
    exists path. by eapply keyed_child. }
  destruct (children_from 0 cs) as [|[i c] [|[j c'] l]] eqn:Ecs; [destruct ov; cbn in He; lia|..].
  - destruct ov as [v|]; [|cbn in He; lia].
    destruct (Hkid i c) as [r Hr]; [by apply list_elem_of_singleton|].
    exists (i :: r), []. split; [done|]. split; [done|]. by apply keyed_value.
  - destruct (Hkid i c) as [r Hr]; [apply elem_of_cons; by left|].
    destruct (Hkid j c') as [r' Hr']; [apply elem_of_cons; right; apply elem_of_cons; by left|].
    exists (i :: r), (j :: r'). split; [|done]. cbn.
    pose proof (children_from_lt 0 cs i c j c' l ltac:(lia) Ecs). lia.
Qed.

Lemma diverge_prefix k1 k2 a b r1 r2 :
  diverge a b → k1 ++ a = k2 ++ r1 → k1 ++ b = k2 ++ r2 → ∃ r, k1 = k2 ++ r.
Proof.
  intros Hd. revert k2. induction k1 as [|x k1 IH]; intros [|y k2] H1 H2; cbn in *; eauto.
  - destruct a, b; cbn in *; congruence.
  - injection H1 as -> H1. injection H2 as H2. destruct (IH _ H1 H2) as [r ->]. by exists r.
Qed.

Lemma keyed_prefix k cs ov path : keyed (PBr k cs ov) path → ∃ r, path = k ++ r.
Proof.
  intros [_ H]. rewrite pget_br in H. destruct (strip k path) as [r|] eqn:E; [|done].
  exists r. by apply strip_some.
Qed.

Definition same_map (p1 p2 : pt) : Prop := ∀ path, nibbles_ok path → pget p1 path = pget p2 path.

Lemma same_keyed p1 p2 path : same_map p1 p2 → keyed p1 path → keyed p2 path.
Proof. intros Hs [Hp H]. split; [done|]. by rewrite <- Hs. Qed.

Lemma branch_prefix k1 cs1 ov1 k2 cs2 ov2 :
  canonical (PBr k1 cs1 ov1) → same_map (PBr k1 cs1 ov1) (PBr k2 cs2 ov2) → ∃ r, k1 = k2 ++ r.
Proof.
  intros Hc Hs. destruct (branch_two_keys _ _ _ Hc) as (a & b & Hd & Ha & Hb).
  apply (same_keyed _ _ _ Hs), keyed_prefix in Ha as [r1 H1].
  apply (same_keyed _ _ _ Hs), keyed_prefix in Hb as [r2 H2].
  by eapply diverge_prefix.
Qed.

Lemma leaf_not_branch k v k2 cs ov :
  canonical (PBr k2 cs ov) → ¬ same_map (PBr k2 cs ov) (PLeaf k v).
Proof.
  intros Hc Hs. destruct (branch_two_keys _ _ _ Hc) as (a & b & Hd & Ha & Hb).
  apply (same_keyed _ _ _ Hs) in Ha as [_ Ha], Hb as [_ Hb]. cbn in Ha, Hb.
  case_bool_decide as H1; [|done]. case_bool_decide as H2; [|done]. subst k.
  apply app_inv_head in H2 as ->. by destruct b.
Qed.

Lemma child_lookup cs i : length cs = 16%nat → (i < 16)%nat → cs !! i = Some (child cs (Z.of_nat i)).
Proof.
  intros Hl Hi. unfold child. rewrite Nat2Z.id.
  by destruct (lookup_lt_is_Some_2 cs i) as [oc ->]; [lia|].
Qed.

Lemma canonical_unique p1 p2 : canonical p1 → canonical p2 → same_map p1 p2 → p1 = p2.
Proof.
  revert p2. induction p1 as [k1 v1|k1 cs1 ov1 IH] using pt_ind'; intros [k2 v2|k2 cs2 ov2] H1 H2 Hs.
  - destruct H1 as [Hk1 _]. specialize (Hs k1 Hk1). cbn in Hs.
    rewrite bool_decide_true in Hs by done. case_bool_decide; [|done]. congruence.
  - exfalso. eapply (leaf_not_branch k1 v1); [exact H2|]. intros path Hp. symmetry. by apply Hs.
  - exfalso. by eapply leaf_not_branch.
  - assert (k1 = k2) as ->.
    { destruct (branch_prefix _ _ _ _ _ _ H1 Hs) as [r ->].
      destruct (branch_prefix _ _ _ _ _ _ H2 (λ path Hp, eq_sym (Hs path Hp))) as [r' E].
      rewrite <- app_assoc, <- (app_nil_r k2) in E at 1. apply app_inv_head in E.
      symmetry in E. apply app_eq_nil in E as [-> _]. by rewrite app_nil_r. }
    destruct H1 as (Hk & Hl1 & _ & _ & Hc1), H2 as (_ & Hl2 & _ & _ & Hc2).
    assert (ov1 = ov2) as ->.
    { specialize (Hs (k2 ++ [])). rewrite !pget_br, !strip_app in Hs. apply Hs.
      by rewrite app_nil_r. }
    f_equal. apply list_eq. intros i. destruct (decide (i < 16)%nat) as [Hi|Hi].
    2: { rewrite !lookup_ge_None_2 by lia. done. }
    rewrite !child_lookup by done. f_equal. set (x := Z.of_nat i).
    assert (is_nibble x) as Hx by (unfold is_nibble, x; lia).
    assert (∀ r, nibbles_ok r → get (child cs1 x) r = get (child cs2 x) r) as Hg.
    { intros r Hr. specialize (Hs (k2 ++ x :: r)). rewrite !pget_br, !strip_app in Hs. apply Hs.
      apply nibbles_ok_app. split; [done|]. by apply nibbles_ok_cons. }
    destruct (child cs1 x) as [c1|] eqn:E1, (child cs2 x) as [c2|] eqn:E2; [| | |done].
    + f_equal. eapply (child_IH _ _ _ _ IH E1);
        [by apply (child_canonical canonical cs1 x)|by apply (child_canonical canonical cs2 x)|exact Hg].
    + destruct (canonical_keyed c1) as (path & Hp & Hne); [by apply (child_canonical canonical cs1 x)|].
      specialize (Hg path Hp). cbn in Hg. congruence.
    + destruct (canonical_keyed c2) as (path & Hp & Hne); [by apply (child_canonical canonical cs2 x)|].
      specialize (Hg path Hp). cbn in Hg. congruence.
Qed.
