(* ===== verification/Trie.v ===== *)
(** * Merkle Patricia trie nodes and operations (src/trie/trie.go, node.go)

    The node types with their cache flags, [tryGet], [insert], [delete] and the
    exported operations, over a database that loads the nodes behind hashes.
    The database is an argument: a function from hashes to nodes.  A tree of
    nodes represents a canonical tree of [TrieSpec] ([repr], where a hash node
    stands for whatever the database holds); the operations terminate on such
    trees, never miss a node, and implement the operations of [TrieSpec].  The
    hasher is in [TrieHash]. *)
From S2P Require Import Prelude TrieEncoding TrieSpec.
Local Open Scope Z_scope.

(** ** Nodes *)

Record nodeFlag := MkFlag { f_hash : option bytes; f_dirty : bool }.

Inductive node :=
| nilNode
| fullNode (Children : list node) (flags : nodeFlag)
| shortNode (Key : bytes) (Val : node) (flags : nodeFlag)
| hashNode (h : bytes)
| valueNode (v : bytes).

(** [Panic] stands for an index out of range or a failed type assertion. *)
Inductive trie_error :=
| MissingNodeError (NodeHash Path : bytes)
| Panic
| OutOfFuel.

Definition newFlag : nodeFlag := MkFlag None true.

Definition cache (n : node) : option bytes * bool :=
  match n with
  | fullNode _ fl | shortNode _ _ fl => (f_hash fl, f_dirty fl)
  | _ => (None, true)
  end.

Definition concat_ (s1 s2 : bytes) : bytes := s1 ++ s2.

Section operations.
(** [t.db.node(hash)], [None] when the node is missing. *)
Variable db_node : bytes → option node.

Definition resolveHash (n : bytes) (prefix : bytes) : result trie_error node :=
  let hash := BytesToHash n in
  match db_node hash with
  | Some node => Ok node
  | None => Err (MissingNodeError hash prefix)
  end.

Definition resolve (n : node) (prefix : bytes) : result trie_error node :=
  match n with
  | hashNode h => resolveHash h prefix
  | _ => Ok n
  end.

(** ** Lookup *)

(** The value, the node with what was loaded on the way, and whether anything
    was. *)
Fixpoint tryGet (fuel : nat) (origNode : node) (key : bytes) (pos : nat)
    : result trie_error (option bytes * node * bool) :=
  match fuel with
  | O => Err OutOfFuel
  | S fuel =>
      match origNode with
      | nilNode => Ok (None, nilNode, false)
      | valueNode v => Ok (Some v, origNode, false)
      | shortNode k val fl =>
          if (length key - pos <? length k)%nat
             || negb (bool_decide (k = take (length k) (drop pos key)))
          then Ok (None, origNode, false)
          else
            '(value, newnode, didResolve) ← tryGet fuel val key (pos + length k);
            Ok (value, if (didResolve : bool) then shortNode k newnode fl else origNode, didResolve)
      | fullNode cs fl =>
          match key !! pos with
          | None => Err Panic
          | Some x =>
              match cs !! Z.to_nat x with
              | None => Err Panic
              | Some c =>
                  '(value, newnode, didResolve) ← tryGet fuel c key (pos + 1);
                  Ok (value,
                      if (didResolve : bool) then fullNode (<[Z.to_nat x := newnode]> cs) fl else origNode,
                      didResolve)
              end
          end
      | hashNode h =>
          child ← resolveHash h (take pos key);
          '(value, newnode, _) ← tryGet fuel child key pos;
          Ok (value, newnode, true)
      end
  end.

(** ** Insertion *)

Fixpoint insert (fuel : nat) (n : node) (prefix key : bytes) (value : node)
    : result trie_error (bool * node) :=
  match fuel with
  | O => Err OutOfFuel
  | S fuel =>
      match key with
      | [] =>
          match n, value with
          | valueNode v, valueNode w => Ok (negb (bool_decide (v = w)), value)
          | valueNode _, _ => Err Panic
          | _, _ => Ok (true, value)
          end
      | x :: key' =>
          match n with
          | shortNode k val _ =>
              let matchlen := prefixLen key k in
              if (matchlen =? length k)%nat then
                '(dirty, nn) ← insert fuel val (prefix ++ take matchlen key) (drop matchlen key) value;
                if negb dirty then Ok (false, n) else Ok (true, shortNode k nn newFlag)
              else
                match k !! matchlen, key !! matchlen with
                | Some y, Some x =>
                    '(_, c1) ← insert fuel nilNode (prefix ++ take (matchlen + 1) k) (drop (matchlen + 1) k) val;
                    let branch := <[Z.to_nat y := c1]> (replicate 17 nilNode) in
                    '(_, c2) ← insert fuel nilNode (prefix ++ take (matchlen + 1) key)
                                  (drop (matchlen + 1) key) value;
                    let branch := fullNode (<[Z.to_nat x := c2]> branch) newFlag in
                    if (matchlen =? 0)%nat then Ok (true, branch)
                    else Ok (true, shortNode (take matchlen key) branch newFlag)
                | _, _ => Err Panic
                end
          | fullNode cs _ =>
              match cs !! Z.to_nat x with
              | None => Err Panic
              | Some c =>
                  '(dirty, nn) ← insert fuel c (prefix ++ [x]) key' value;
                  if negb dirty then Ok (false, n)
                  else Ok (true, fullNode (<[Z.to_nat x := nn]> cs) newFlag)
              end
          | nilNode => Ok (true, shortNode key value newFlag)
          | hashNode h =>
              rn ← resolveHash h prefix;
              '(dirty, nn) ← insert fuel rn prefix key value;
              if negb dirty then Ok (false, rn) else Ok (true, nn)
          | valueNode _ => Err Panic
          end
      end
  end.

(** ** Deletion *)

(** Index of the only non-nil child, -1 if there is none, -2 if there are
    more. *)
Fixpoint single_pos (i pos : Z) (cs : list node) : Z :=
  match cs with
  | [] => pos
  | nilNode :: cs => single_pos (i + 1) pos cs
  | _ :: cs => if pos =? -1 then single_pos (i + 1) i cs else -2
  end.

(** The end of the full node case of [delete]: a node with one child left is
    reduced to a short node. *)
Definition reduce_full (prefix : bytes) (cs : list node) : result trie_error (bool * node) :=
  let pos := single_pos 0 (-1) cs in
  if 0 <=? pos then
    match cs !! Z.to_nat pos with
    | None => Err Panic
    | Some c =>
        if negb (pos =? 16) then
          cnode ← resolve c prefix;
          match cnode with
          | shortNode ck cval _ => Ok (true, shortNode (pos :: ck) cval newFlag)
          | _ => Ok (true, shortNode [pos] c newFlag)
          end
        else Ok (true, shortNode [pos] c newFlag)
    end
  else Ok (true, fullNode cs newFlag).

Fixpoint delete (fuel : nat) (n : node) (prefix key : bytes) : result trie_error (bool * node) :=
  match fuel with
  | O => Err OutOfFuel
  | S fuel =>
      match n with
      | shortNode k val _ =>
          let matchlen := prefixLen key k in
          if (matchlen <? length k)%nat then Ok (false, n)
          else if (matchlen =? length key)%nat then Ok (true, nilNode)
          else
            '(dirty, child) ← delete fuel val (prefix ++ take (length k) key) (drop (length k) key);
            if negb dirty then Ok (false, n)
            else
              match child with
              | shortNode ck cval _ => Ok (true, shortNode (concat_ k ck) cval newFlag)
              | _ => Ok (true, shortNode k child newFlag)
              end
      | fullNode cs _ =>
          match key with
          | [] => Err Panic
          | x :: key' =>
              match cs !! Z.to_nat x with
              | None => Err Panic
              | Some c =>
                  '(dirty, nn) ← delete fuel c (prefix ++ [x]) key';
                  if negb dirty then Ok (false, n)
                  else reduce_full prefix (<[Z.to_nat x := nn]> cs)
              end
          end
      | valueNode _ => Ok (true, nilNode)
      | nilNode => Ok (false, nilNode)
      | hashNode h =>
          rn ← resolveHash h prefix;
          '(dirty, nn) ← delete fuel rn prefix key;
          if negb dirty then Ok (false, rn) else Ok (true, nn)
      end
  end.

(** ** The trie *)

Record Trie := MkTrie { root : node; unhashed : Z }.

(** A key of [n] nibbles passes at most [n + 1] nodes, each perhaps behind a
    hash. *)
Definition key_fuel (key : bytes) : nat := 2 * length key + 2.

Definition TryGet (key : bytes) (t : Trie) : result trie_error (option bytes) * Trie :=
  let k := keybytesToHex key in
  match tryGet (key_fuel k) (root t) k 0 with
  | Ok (value, newroot, didResolve) =>
      (Ok value, if didResolve then MkTrie newroot (unhashed t) else t)
  | Err e => (Err e, t)
  end.

Definition TryDelete (key : bytes) (t : Trie) : result trie_error unit * Trie :=
  let t := MkTrie (root t) (unhashed t + 1) in
  let k := keybytesToHex key in
  match delete (key_fuel k) (root t) [] k with
  | Ok (_, n) => (Ok tt, MkTrie n (unhashed t))
  | Err e => (Err e, t)
  end.

Definition TryUpdate (key value : bytes) (t : Trie) : result trie_error unit * Trie :=
  let t := MkTrie (root t) (unhashed t + 1) in
  let k := keybytesToHex key in
  match (if negb (len value =? 0) then insert (key_fuel k) (root t) [] k (valueNode value)
         else delete (key_fuel k) (root t) [] k) with
  | Ok (_, n) => (Ok tt, MkTrie n (unhashed t))
  | Err e => (Err e, t)
  end.

(** [New]: the empty trie for the zero hash and the hash of the empty trie,
    otherwise the root node is loaded. *)
Definition New (emptyRoot root : bytes) : result trie_error Trie :=
  if negb (bool_decide (root = replicate 32 0)) && negb (bool_decide (root = emptyRoot)) then
    rootnode ← resolveHash root [];
    Ok (MkTrie rootnode 0)
  else Ok (MkTrie nilNode 0).

Definition Reset (t : Trie) : Trie := MkTrie nilNode 0.

End operations.

(** ** Representation of canonical trees *)

Section refinement.
Variable db_node : bytes → option node.
(** What is known of cached hashes ([flag_ok]) and of hash nodes ([ref_ok]) of
    a subtree; [TrieHash] instantiates them. *)
Variable flag_ok : nodeFlag → pt → Prop.
Variable ref_ok : bytes → pt → Prop.
Hypothesis newFlag_ok : ∀ p, flag_ok newFlag p.

Definition is_inner (n : node) : Prop :=
  match n with fullNode _ _ | shortNode _ _ _ => True | _ => False end.

#[export] Instance is_inner_dec n : Decision (is_inner n).
Proof. destruct n; cbn; apply _. Defined.

(** What a value slot of a full node holds. *)
Definition repr_value (n : node) (ov : option bytes) : Prop :=
  n = match ov with Some v => valueNode v | None => nilNode end.

(** [repr n p]: the node [n] represents the tree [p].  The database only holds
    full and short nodes. *)
Inductive repr : node → pt → Prop :=
| R_leaf k v fl :
    flag_ok fl (PLeaf k v) → repr (shortNode (k ++ [16]) (valueNode v) fl) (PLeaf k v)
| R_branch ns vn fl cs ov :
    repr_list ns cs → repr_value vn ov → flag_ok fl (PBr [] cs ov) →
    repr (fullNode (ns ++ [vn]) fl) (PBr [] cs ov)
| R_ext k n fl cs ov :
    k ≠ [] → repr n (PBr [] cs ov) → flag_ok fl (PBr k cs ov) →
    repr (shortNode k n fl) (PBr k cs ov)
| R_hash h n p :
    db_node (BytesToHash h) = Some n → is_inner n → repr n p → ref_ok h p → repr (hashNode h) p
with repr_opt : node → option pt → Prop :=
| RO_nil : repr_opt nilNode None
| RO_some n p : repr n p → repr_opt n (Some p)
with repr_list : list node → list (option pt) → Prop :=
| RL_nil : repr_list [] []
| RL_cons n ns oc cs : repr_opt n oc → repr_list ns cs → repr_list (n :: ns) (oc :: cs).

Lemma repr_list_Forall2 ns cs : repr_list ns cs ↔ Forall2 repr_opt ns cs.
Proof. split; induction 1; by constructor. Qed.

Lemma repr_list_length ns cs : repr_list ns cs → length ns = length cs.
Proof. intros H%repr_list_Forall2. by eapply Forall2_length. Qed.

Lemma repr_list_lookup ns cs x :
  repr_list ns cs → length cs = 16%nat → is_nibble x →
  ∃ n, ns !! Z.to_nat x = Some n ∧ repr_opt n (child cs x).
Proof.
  intros H Hl Hx. unfold is_nibble in Hx. apply repr_list_Forall2 in H.
  destruct (lookup_lt_is_Some_2 cs (Z.to_nat x)) as [oc Hoc]; [lia|].
  destruct (Forall2_lookup_r _ _ _ _ _ H Hoc) as (n & Hn & Hr).
  exists n. split; [done|]. unfold child. by rewrite Hoc.
Qed.

Lemma update_nth_insert {A} (f : A → A) i l a :
  l !! i = Some a → update_nth f i l = <[i := f a]> l.
Proof.
  revert i. induction l as [|b l IH]; intros [|i] H; cbn in *; try done.
  - by injection H as ->.
  - f_equal. by apply IH.
Qed.

Lemma repr_list_update ns cs x f n :
  repr_list ns cs → length cs = 16%nat → is_nibble x → repr_opt n (f (child cs x)) →
  repr_list (<[Z.to_nat x := n]> ns) (update_nth f (Z.to_nat x) cs).
Proof.
  intros H Hl Hx Hn. unfold is_nibble in Hx.
  destruct (lookup_lt_is_Some_2 cs (Z.to_nat x)) as [oc Hoc]; [lia|].
  rewrite (update_nth_insert _ _ _ _ Hoc). unfold child in Hn. rewrite Hoc in Hn.
  apply repr_list_Forall2. apply repr_list_Forall2 in H. by apply Forall2_insert.
Qed.

Lemma repr_list_insert ns cs x n oc :
  repr_list ns cs → repr_opt n oc →
  repr_list (<[Z.to_nat x := n]> ns) (<[Z.to_nat x := oc]> cs).
Proof. rewrite !repr_list_Forall2. intros. by apply Forall2_insert. Qed.

Lemma repr_no_children : repr_list (replicate 16 nilNode) no_children.
Proof. apply repr_list_Forall2. unfold no_children. by repeat constructor. Qed.

(** ** Keys *)

Lemma strip_term k path :
  nibbles_ok k → nibbles_ok path →
  strip (k ++ [16]) (path ++ [16]) = if bool_decide (path = k) then Some [] else None.
Proof.
  revert path. induction k as [|x k IH]; intros path Hk Hp.
  - destruct path as [|y path]; [done|]. apply nibbles_ok_cons in Hp as [Hy _].
    unfold is_nibble in Hy. cbn [app strip]. by replace (16 =? y) with false by lia.
  - apply nibbles_ok_cons in Hk as [Hx Hk]. unfold is_nibble in Hx.
    destruct path as [|y path]; cbn [app strip].
    + replace (x =? 16) with false by lia. done.
    + apply nibbles_ok_cons in Hp as [_ Hp]. destruct (x =? y) eqn:E; bool_prop.
      * subst y. rewrite IH by done. case_bool_decide as H1; case_bool_decide; congruence.
      * rewrite bool_decide_false by congruence. done.
Qed.

Lemma strip_nibbles k path :
  nibbles_ok k → strip k (path ++ [16]) = (λ r, r ++ [16]) <$> strip k path.
Proof.
  revert path. induction k as [|x k IH]; intros path Hk; [done|].
  apply nibbles_ok_cons in Hk as [Hx Hk]. unfold is_nibble in Hx.
  destruct path as [|y path]; cbn [app strip].
  - replace (x =? 16) with false by lia. done.
  - destruct (x =? y); [by apply IH|done].
Qed.

(** The comparison of [tryGet] at a short node. *)
Lemma short_mismatch key pos k :
  (pos ≤ length key)%nat →
  (length key - pos <? length k)%nat || negb (bool_decide (k = take (length k) (drop pos key)))
  = match strip k (drop pos key) with Some _ => false | None => true end.
Proof.
  intros Hp. rewrite <- length_drop. set (l := drop pos key). clearbody l. clear key pos Hp.
  destruct (strip k l) as [r|] eqn:E.
  - apply strip_some in E as ->. rewrite take_app_length, bool_decide_true, length_app by done.
    cbn. rewrite orb_false_r. apply Nat.ltb_ge. lia.
  - case_bool_decide as H1; [|apply orb_true_r]. exfalso.
    assert (strip k l = Some (drop (length k) l)); [|congruence].
    apply strip_some. rewrite H1 at 1. by rewrite take_drop.
Qed.

(** The comparison of [insert] and [delete] at a short node. *)
Lemma prefixLen_full key k :
  prefixLen key k = length k ↔ ∃ r, strip k key = Some r.
Proof.
  revert key. induction k as [|x k IH]; intros key.
  - split; [by eauto|]. intros _. by destruct key.
  - destruct key as [|y key]; cbn; [split; [done|by intros [? ?]]|].
    rewrite (Z.eqb_sym x y). destruct (y =? x); [|split; [done|by intros [? ?]]].
    rewrite <- IH. split; congruence.
Qed.

Lemma prefixLen_app_r key k r : prefixLen (k ++ key) (k ++ r) = (length k + prefixLen key r)%nat.
Proof. induction k as [|x k IH]; cbn; [done|]. rewrite Z.eqb_refl. by rewrite IH. Qed.

Lemma prefixLen_diverge a b : diverge a b → prefixLen a b = 0%nat.
Proof. destruct a as [|x a], b as [|y b]; cbn; try done. intros. by replace (x =? y) with false by lia. Qed.

(** ** Lookup *)

(** Steps an operation needs at a node, for a key of [l] nibbles and the
    terminator. *)
Definition cost (n : node) (l : nat) : nat :=
  (2 * (l + 1) + match n with hashNode _ => 2 | _ => 1 end)%nat.

Lemma cost_le n l l' : (l' < l)%nat → (cost n l' < 2 * (l + 1) + 1)%nat.
Proof. unfold cost. destruct n; lia. Qed.

Lemma drop_pre (pre l : bytes) : drop (length pre) (pre ++ l) = l.
Proof. by rewrite drop_app_length. Qed.

Lemma tryGet_leaf fuel v key pos :
  (0 < fuel)%nat → tryGet db_node fuel (valueNode v) key pos = Ok (Some v, valueNode v, false).
Proof. by destruct fuel; [lia|]. Qed.

Lemma repr_hash_cost h n l : is_inner n → (cost n l < cost (hashNode h) l)%nat.
Proof. unfold cost. destruct n; cbn; lia || done. Qed.

Lemma lookup_children ns (vn : node) x :
  length ns = 16%nat → is_nibble x → (ns ++ [vn]) !! Z.to_nat x = ns !! Z.to_nat x.
Proof. unfold is_nibble. intros Hl Hx. rewrite lookup_app_l; [done|lia]. Qed.
Lemma lookup_value ns (vn : node) : length ns = 16%nat → (ns ++ [vn]) !! Z.to_nat 16 = Some vn.
Proof. intros Hl. change (Z.to_nat 16) with 16%nat. rewrite <- Hl. by rewrite list_lookup_middle. Qed.
Lemma insert_children ns (vn : node) x n :
  length ns = 16%nat → is_nibble x →
  <[Z.to_nat x := n]> (ns ++ [vn]) = <[Z.to_nat x := n]> ns ++ [vn].
Proof. unfold is_nibble. intros Hl Hx. rewrite insert_app_l; [done|lia]. Qed.
Lemma insert_value ns (vn n : node) :
  length ns = 16%nat → <[Z.to_nat 16 := n]> (ns ++ [vn]) = ns ++ [n].
Proof.
  intros Hl. change (Z.to_nat 16) with 16%nat. rewrite <- Hl, <- (Nat.add_0_r (length ns)).
  by rewrite insert_app_r.
Qed.

Lemma child_same cs x : length cs = 16%nat → is_nibble x →
  update_nth (λ _, child cs x) (Z.to_nat x) cs = cs.
Proof.
  unfold is_nibble. intros Hl Hx. destruct (lookup_lt_is_Some_2 cs (Z.to_nat x)) as [oc Hoc]; [lia|].
  rewrite (update_nth_insert _ _ _ _ Hoc). apply list_insert_id. unfold child. by rewrite Hoc.
Qed.

Lemma tryGet_spec fuel n op pre path :
  repr_opt n op → canonical_root op → nibbles_ok path → (cost n (length path) ≤ fuel)%nat →
  ∃ n' did, tryGet db_node fuel n (pre ++ path ++ [16]) (length pre) = Ok (get op path, n', did)
    ∧ repr_opt n' op.
Proof.
  revert n op pre path. induction fuel as [|fuel IH]; intros n op pre path Hr Hc Hp Hf.
  { unfold cost in Hf. destruct n; lia. }
  destruct Hr as [|n p Hr]; [by repeat eexists; constructor|].
  destruct Hr as [k v fl Hfl|ns vn fl cs ov Hl Hv Hfl|k n fl cs ov Hk Hr Hfl|h n p Hdb Hin Hr Href]; cbn [tryGet].
  - destruct Hc as [Hk _]. rewrite short_mismatch, drop_pre, strip_term by (done || rewrite length_app; lia).
    cbn [get pget]. case_bool_decide; [|do 2 eexists; split; [done|]; by repeat constructor].
    rewrite tryGet_leaf by (unfold cost in Hf; lia). cbn.
    do 2 eexists. split; [done|]. by repeat constructor.
  - destruct Hc as (_ & Hlen & _ & _ & Hcs). pose proof (repr_list_length _ _ Hl) as Hln.
    rewrite Hlen in Hln. cbn [get]. rewrite pget_br. cbn [strip].
    rewrite lookup_app_r, Nat.sub_diag by done.
    destruct path as [|x path]; cbn [app lookup list_lookup].
    + rewrite lookup_value by done.
      assert (tryGet db_node fuel vn (pre ++ [16]) (length pre + 1) = Ok (ov, vn, false)) as ->.
      { rewrite Hv. destruct fuel; [unfold cost in Hf; cbn in Hf; lia|]. by destruct ov. }
      do 2 eexists. split; [done|]. by repeat constructor.
    + apply nibbles_ok_cons in Hp as [Hx Hp]. rewrite lookup_children by done.
      destruct (repr_list_lookup ns cs x Hl Hlen Hx) as (c & Hn & Hcr). rewrite Hn.
      destruct (IH c (child cs x) (pre ++ [x]) path) as (n' & did & E & Hr'); try done.
      { destruct (child cs x) eqn:Ec; [by apply (child_canonical canonical cs x)|done]. }
      { pose proof (cost_le c (length (x :: path)) (length path)). unfold cost in Hf. cbn [length] in *. lia. }
      rewrite length_app in E. cbn [length] in E. rewrite <- app_assoc in E. cbn [app] in E.
      rewrite E. cbn. do 2 eexists. split; [done|]. destruct did; [|by repeat constructor].
      rewrite insert_children by done. do 2 constructor; [|done..].
      rewrite <- (child_same cs x Hlen Hx). by apply repr_list_update.
  - pose proof Hc as (Hkn & Hlen & He & Hov & Hcs).
    rewrite short_mismatch, drop_pre, strip_nibbles by (done || rewrite length_app; lia).
    cbn [get]. rewrite pget_br. destruct (strip k path) as [r|] eqn:E; cbn [fmap option_fmap option_map];
      [|do 2 eexists; split; [done|]; by repeat constructor].
    apply strip_some in E as ->. apply nibbles_ok_app in Hp as [_ Hp].
    assert (0 < length k)%nat by (destruct k; [done|cbn; lia]).
    destruct (IH n (Some (PBr [] cs ov)) (pre ++ k) r) as (n' & did & E & Hr'); try done.
    { by constructor. }
    { pose proof (cost_le n (length (k ++ r)) (length r)) as Hle. rewrite length_app in Hle.
      unfold cost in Hf. rewrite length_app in Hf. lia. }
    rewrite length_app, <- !app_assoc in E. rewrite <- !app_assoc, E. cbn [mbind result_bind].
    cbn [get]. rewrite pget_br. cbn [strip]. do 2 eexists. split; [done|].
    destruct did; [|by repeat constructor]. inversion Hr'; subst. by repeat constructor.
  - unfold resolveHash. rewrite Hdb. cbn [mbind result_bind].
    pose proof (repr_hash_cost h n (length path) Hin).
    destruct (IH n (Some p) pre path) as (n' & did & E & Hr'); try done; [by constructor|lia|].
    rewrite E. cbn. by do 2 eexists.
Qed.

(** ** Insertion *)

Definition attach (t : bytes) (n : node) : node :=
  match t with [] => n | _ => shortNode t n newFlag end.

Lemma insert_nil fuel pre key val :
  (0 < fuel)%nat → insert db_node fuel nilNode pre key val = Ok (true, attach key val).
Proof. destruct fuel; [lia|]. by destruct key. Qed.

(** Children of a full node under construction. *)
Definition repr_slots (L : list node) (b : list (option pt) * option bytes) : Prop :=
  ∃ ns vn, L = ns ++ [vn] ∧ length ns = 16%nat ∧ repr_list ns b.1 ∧ repr_value vn b.2.

Lemma repr_slots_empty : repr_slots (replicate 17 nilNode) (no_children, None).
Proof. exists (replicate 16 nilNode), nilNode. repeat split; try done. apply repr_no_children. Qed.

Lemma put_leaf_repr L b s y t w :
  repr_slots L b → nibbles_ok s → s ++ [16] = y :: t →
  repr_slots (<[Z.to_nat y := attach t (valueNode w)]> L) (put s (λ r, PLeaf r w) w b).
Proof.
  intros (ns & vn & -> & Hl & Hns & Hv) Hs E. destruct s as [|x s]; injection E as <- <-.
  - exists ns, (valueNode w). rewrite insert_value by done. by repeat split.
  - apply nibbles_ok_cons in Hs as [Hx Hs]. eexists _, vn. rewrite insert_children by done.
    split; [done|]. rewrite length_insert. split; [done|]. split; [|done].
    cbn [put fst]. apply repr_list_insert; [done|]. constructor.
    replace (attach (s ++ [16]) (valueNode w)) with (shortNode (s ++ [16]) (valueNode w) newFlag)
      by (by destruct s). by constructor.
Qed.

Lemma put_branch_repr L b y t n cs ov :
  repr_slots L b → is_nibble y → repr n (PBr [] cs ov) →
  repr_slots (<[Z.to_nat y := attach t n]> L) (put (y :: t) (λ r, PBr r cs ov) [] b).
Proof.
  intros (ns & vn & -> & Hl & Hns & Hv) Hy Hn. eexists _, vn. rewrite insert_children by done.
  split; [done|]. rewrite length_insert. split; [done|]. split; [|done].
  cbn [put fst]. apply repr_list_insert; [done|]. constructor.
  destruct t; [done|]. by constructor.
Qed.

Lemma repr_slots_branch L b c :
  repr_slots L b →
  repr (if (length c =? 0)%nat then fullNode L newFlag
        else shortNode c (fullNode L newFlag) newFlag) (PBr c b.1 b.2).
Proof.
  intros (ns & vn & -> & Hl & Hns & Hv). destruct c; cbn; [by constructor|].
  constructor; [done| |done]. by constructor.
Qed.

Lemma diverge_term sp sk t :
  nibbles_ok sp → nibbles_ok sk → diverge sp sk → t = [16] ∨ sk ≠ [] →
  diverge (sp ++ [16]) (sk ++ t).
Proof.
  intros Hsp Hsk Hd Ht. destruct sp as [|x sp], sk as [|y sk]; cbn in *; try done.
  - apply nibbles_ok_cons in Hsk as [Hy _]. unfold is_nibble in Hy. lia.
  - apply nibbles_ok_cons in Hsp as [Hx _]. unfold is_nibble in Hx.
    destruct Ht as [->|]; [lia|done].
Qed.

(** A short node that parts from the key is replaced by a branch. *)
Lemma insert_split fuel prefix c sp y tk val v fl :
  (1 < fuel)%nat → diverge (sp ++ [16]) (y :: tk) → nibbles_ok c →
  insert db_node fuel (shortNode (c ++ y :: tk) val fl) prefix ((c ++ sp) ++ [16]) (valueNode v)
  = let L := <[Z.to_nat y := attach tk val]> (replicate 17 nilNode) in
    let L := <[Z.to_nat (hd 0 (sp ++ [16])) := attach (tl (sp ++ [16])) (valueNode v)]> L in
    Ok (true, if (length c =? 0)%nat then fullNode L newFlag
              else shortNode c (fullNode L newFlag) newFlag).
Proof.
  intros Hf Hd Hc. destruct fuel as [|fuel]; [lia|].
  rewrite <- app_assoc. destruct (sp ++ [16]) as [|x tp] eqn:Es; [by destruct sp|].
  assert (∀ A (e f : A), match c ++ x :: tp with [] => e | _ :: _ => f end = f) as Hm
    by (intros; by destruct c).
  cbn [insert]. rewrite Hm. rewrite prefixLen_app_r, (prefixLen_diverge _ _ Hd), Nat.add_0_r.
  rewrite length_app. cbn [length].
  replace (length c =? length c + S (length tk))%nat with false
    by (symmetry; apply Nat.eqb_neq; lia).
  rewrite !list_lookup_middle by done.
  assert (∀ z t, drop (length c + 1) (c ++ z :: t) = t) as Hdrop
    by (intros z t; rewrite drop_app_ge by lia; by rewrite Nat.add_comm, Nat.add_sub).
  rewrite !Hdrop, !insert_nil by lia. cbn [mbind result_bind hd tl].
  rewrite take_app_length. by destruct (length c =? 0)%nat.
Qed.

Lemma insert_spec_leaf fuel prefix k w fl path v :
  flag_ok fl (PLeaf k w) → nibbles_ok k → nibbles_ok path → (2 < fuel)%nat →
  ∃ d n', insert db_node fuel (shortNode (k ++ [16]) (valueNode w) fl) prefix (path ++ [16]) (valueNode v)
      = Ok (d, n')
    ∧ repr n' (pinsert (PLeaf k w) path v) ∧ (d = false → w = v ∧ path = k).
Proof.
  intros Hfl Hk Hp Hf. cbn [pinsert]. case_bool_decide as Heq.
  - subst k. destruct fuel as [|fuel]; [lia|].
    assert (prefixLen (path ++ [16]) (path ++ [16]) = length (path ++ [16])) as Hm.
    { apply prefixLen_full. exists []. apply strip_some. by rewrite app_nil_r. }
    assert (insert db_node (S fuel) (shortNode (path ++ [16]) (valueNode w) fl) prefix (path ++ [16])
      (valueNode v) = if negb (negb (bool_decide (w = v)))
        then Ok (false, shortNode (path ++ [16]) (valueNode w) fl)
        else Ok (true, shortNode (path ++ [16]) (valueNode v) newFlag)) as ->.
    { destruct (path ++ [16]) as [|x key] eqn:E; [by destruct path|]. cbn [insert].
      rewrite Hm, Nat.eqb_refl, drop_all. destruct fuel; [lia|]. done. }
    case_bool_decide as Hw; cbn [negb]; do 2 eexists; (split; [done|]).
    + subst. split; [by constructor|done].
    + split; [by constructor|done].
  - destruct (prefixLen_split path k) as (H1 & H2 & H3). set (m := prefixLen path k) in *.
    specialize (H3 Heq). set (c := take m path) in *. set (sp := drop m path) in *.
    set (sk := drop m k) in *.
    assert (nibbles_ok sp ∧ nibbles_ok sk ∧ nibbles_ok c) as (Hsp & Hsk & Hc)
      by (by repeat split; (apply nibbles_ok_drop || apply nibbles_ok_take)).
    destruct (sk ++ [16]) as [|y tk] eqn:Ek; [by destruct sk|].
    rewrite H1, H2, <- (app_assoc c sk), Ek, insert_split; [|lia| |done].
    2: { rewrite <- Ek. apply diverge_term; try done. by left. }
    do 2 eexists. split; [done|]. split; [|done]. apply repr_slots_branch.
    apply put_leaf_repr; [|done|by destruct (sp ++ [16]) eqn:E; [destruct sp|]].
    apply put_leaf_repr; [apply repr_slots_empty|done|done].
Qed.

Lemma insert_spec_split fuel prefix k n fl cs ov path v :
  nibbles_ok k → nibbles_ok path → (2 < fuel)%nat → strip k path = None →
  repr n (PBr [] cs ov) →
  ∃ n', insert db_node fuel (shortNode k n fl) prefix (path ++ [16]) (valueNode v) = Ok (true, n')
    ∧ repr n' (pinsert (PBr k cs ov) path v).
Proof.
  intros Hk Hp Hf E Hr. cbn [pinsert]. rewrite E.
  destruct (strip_none_diverge k path E) as (y & sk & Ek & Hd & H1 & H2).
  set (m := prefixLen path k) in *. rewrite Ek.
  set (c := take m path) in *. set (sp := drop m path) in *.
  assert (nibbles_ok sp ∧ nibbles_ok (y :: sk) ∧ nibbles_ok c) as (Hsp & Hsk & Hc).
  { repeat split; [by apply nibbles_ok_drop|rewrite <- Ek; by apply nibbles_ok_drop|by apply nibbles_ok_take]. }
  rewrite H1, H2, insert_split; [|lia| |done].
  2: { rewrite <- (app_nil_r (y :: sk)). apply diverge_term; try done. by right. }
  eexists. split; [done|]. apply repr_slots_branch.
  apply put_leaf_repr; [|done|by destruct (sp ++ [16]) eqn:Es; [destruct sp|]].
  apply nibbles_ok_cons in Hsk as [Hy _].
  apply put_branch_repr; [apply repr_slots_empty|done|done].
Qed.

Lemma insert_match fuel k n fl prefix key value d n' :
  insert db_node fuel n (prefix ++ k) (key ++ [16]) value = Ok (d, n') →
  insert db_node (S fuel) (shortNode k n fl) prefix (k ++ key ++ [16]) value
  = if negb d then Ok (false, shortNode k n fl) else Ok (true, shortNode k n' newFlag).
Proof.
  intros E. assert (prefixLen (k ++ key ++ [16]) k = length k) as Hm.
  { apply prefixLen_full. exists (key ++ [16]). apply strip_app. }
  destruct (k ++ key ++ [16]) as [|x l] eqn:Ek; [by destruct k, key|]. cbn [insert].
  rewrite Hm, Nat.eqb_refl, <- Ek, take_app_length, drop_app_length, E. done.
Qed.

Lemma insert_at_full fuel L fl prefix x key value c d n' :
  L !! Z.to_nat x = Some c → insert db_node fuel c (prefix ++ [x]) key value = Ok (d, n') →
  insert db_node (S fuel) (fullNode L fl) prefix (x :: key) value
  = if negb d then Ok (false, fullNode L fl)
    else Ok (true, fullNode (<[Z.to_nat x := n']> L) newFlag).
Proof. intros HL E. cbn [insert]. rewrite HL. cbn [mbind result_bind]. by rewrite E. Qed.

(** Insertion into a full node, given insertion into its children. *)
Lemma insert_spec_full fuel ns vn fl cs ov prefix path v :
  (∀ n op prefix path,
    repr_opt n op → canonical_root op → nibbles_ok path → (cost n (length path) ≤ fuel)%nat →
    ∃ d n', insert db_node fuel n prefix (path ++ [16]) (valueNode v) = Ok (d, n')
      ∧ repr n' (insert_ op path v) ∧ (d = false → op = Some (insert_ op path v))) →
  repr_list ns cs → repr_value vn ov → flag_ok fl (PBr [] cs ov) →
  canonical (PBr [] cs ov) → nibbles_ok path →
  (cost (fullNode (ns ++ [vn]) fl) (length path) ≤ S fuel)%nat →
  ∃ d n', insert db_node (S fuel) (fullNode (ns ++ [vn]) fl) prefix (path ++ [16]) (valueNode v)
      = Ok (d, n')
    ∧ repr n' (insert_ (Some (PBr [] cs ov)) path v)
    ∧ (d = false → Some (PBr [] cs ov) = Some (insert_ (Some (PBr [] cs ov)) path v)).
Proof.
  intros IH Hl Hv Hfl (_ & Hlen & _ & _ & Hcs) Hp Hf.
  pose proof (repr_list_length _ _ Hl) as Hln. rewrite Hlen in Hln.
  cbn [insert_ pinsert strip]. destruct path as [|x path]; cbn [app].
  - assert (insert db_node fuel vn (prefix ++ [16]) [] (valueNode v)
      = Ok (negb (bool_decide (ov = Some v)), valueNode v)) as E.
    { rewrite Hv. destruct fuel; [unfold cost in Hf; cbn in Hf; lia|]. destruct ov as [w|]; [|done].
      cbn. do 2 f_equal. f_equal. apply bool_decide_ext. split; congruence. }
    rewrite (insert_at_full _ _ _ _ _ _ _ _ _ _ (lookup_value ns vn Hln) E).
    rewrite negb_involutive. case_bool_decide as Ho; do 2 eexists; (split; [done|]).
    + subst ov. split; [by constructor|done].
    + split; [|done]. rewrite insert_value by done. by constructor.
  - apply nibbles_ok_cons in Hp as [Hx Hp].
    destruct (repr_list_lookup ns cs x Hl Hlen Hx) as (c & Hn & Hcr).
    destruct (IH c (child cs x) (prefix ++ [x]) path) as (d & n' & E & Hr' & Hd); try done.
    { destruct (child cs x) eqn:Ec; [by apply (child_canonical canonical cs x)|done]. }
    { pose proof (cost_le c (length (x :: path)) (length path)). unfold cost in Hf. cbn [length] in *. lia. }
    assert ((ns ++ [vn]) !! Z.to_nat x = Some c) as HL by (by rewrite lookup_children).
    rewrite (insert_at_full _ _ _ _ _ _ _ _ _ _ HL E).
    set (f := λ oc : option pt, match oc with Some c => Some (pinsert c path v) | None => Some (PLeaf path v) end).
    assert (f (child cs x) = Some (insert_ (child cs x) path v)) as Hfc by (by destruct (child cs x)).
    destruct d; cbn [negb]; do 2 eexists; (split; [done|]).
    + split; [|done]. rewrite insert_children by done. constructor; [|done..].
      apply repr_list_update; try done. rewrite Hfc. by constructor.
    + specialize (Hd eq_refl).
      assert (update_nth f (Z.to_nat x) cs = cs) as ->; [|split; [by constructor|done]].
      unfold is_nibble in Hx. destruct (lookup_lt_is_Some_2 cs (Z.to_nat x)) as [oc Hoc]; [lia|].
      assert (child cs x = oc) as Hch by (unfold child; by rewrite Hoc).
      rewrite (update_nth_insert _ _ _ _ Hoc). apply list_insert_id. congruence.
Qed.

Lemma insert_spec fuel n op prefix path v :
  repr_opt n op → canonical_root op → nibbles_ok path → (cost n (length path) ≤ fuel)%nat →
  ∃ d n', insert db_node fuel n prefix (path ++ [16]) (valueNode v) = Ok (d, n')
    ∧ repr n' (insert_ op path v) ∧ (d = false → op = Some (insert_ op path v)).
Proof.
  revert n op prefix path. induction fuel as [|fuel IH]; intros n op prefix path Hr Hc Hp Hf.
  { unfold cost in Hf. destruct n; lia. }
  destruct Hr as [|n p Hr].
  { rewrite insert_nil by lia. do 2 eexists. split; [done|]. split; [|done].
    replace (attach (path ++ [16]) (valueNode v)) with (shortNode (path ++ [16]) (valueNode v) newFlag)
      by (by destruct path). by constructor. }
  destruct Hr as [k w fl Hfl|ns vn fl cs ov Hl Hv Hfl|k n fl cs ov Hk Hr Hfl|h n p Hdb Hin Hr Href].
  - destruct Hc as [Hk _].
    destruct (insert_spec_leaf (S fuel) prefix k w fl path v) as (d & n' & E & Hr & Hd); try done.
    { unfold cost in Hf. lia. }
    exists d, n'. split; [done|]. split; [done|]. intros ->. destruct Hd as [-> ->]; [done|].
    cbn. by rewrite bool_decide_true.
  - by apply insert_spec_full.
  - destruct (strip k path) as [r|] eqn:E.
    + pose proof Hc as (Hkn & Hlen & He & Hov & Hcs). pose proof E as Es.
      apply strip_some in E as ->. apply nibbles_ok_app in Hp as [_ Hp].
      assert (0 < length k)%nat by (destruct k; [done|cbn; lia]).
      destruct (IH n (Some (PBr [] cs ov)) (prefix ++ k) r) as (d & n' & E & Hn & Hd); try done.
      { by constructor. }
      { pose proof (cost_le n (length (k ++ r)) (length r)) as Hle. rewrite length_app in Hle.
        unfold cost in Hf. rewrite length_app in Hf. lia. }
      rewrite <- app_assoc, (insert_match _ _ _ _ _ _ _ _ _ E).
      assert (∃ cs' ov', insert_ (Some (PBr [] cs ov)) r v = PBr [] cs' ov'
        ∧ insert_ (Some (PBr k cs ov)) (k ++ r) v = PBr k cs' ov') as (cs' & ov' & E1 & E2).
      { cbn [insert_ pinsert]. rewrite Es. cbn [strip]. destruct r; eauto. }
      rewrite E1 in Hn, Hd. rewrite E2. destruct d; cbn [negb]; do 2 eexists; (split; [done|]).
      * split; [by constructor|done].
      * specialize (Hd eq_refl) as [= <- <-]. split; [by constructor|done].
    + pose proof Hc as (Hkn & _).
      destruct (insert_spec_split (S fuel) prefix k n fl cs ov path v) as (n' & En & Hn); try done.
      { unfold cost in Hf. lia. }
      by exists true, n'.
  - pose proof (repr_hash_cost h n (length path) Hin).
    destruct (IH n (Some p) prefix path) as (d & n' & E & Hr' & Hd); try done; [by constructor|lia|].
    assert (insert db_node (S fuel) (hashNode h) prefix (path ++ [16]) (valueNode v)
      = if negb d then Ok (false, n) else Ok (true, n')) as ->.
    { destruct (path ++ [16]) as [|x key] eqn:Ek; [by destruct path|]. cbn [insert].
      unfold resolveHash. rewrite Hdb. cbn [mbind result_bind]. by rewrite E. }
    destruct d; cbn [negb]; do 2 eexists; (split; [done|]); [done|].
    specialize (Hd eq_refl). rewrite <- Hd. split; [|done].
    injection Hd as Hd. cbn [insert_] in *. by rewrite <- Hd.
Qed.

(** ** Deletion *)

Definition not_hash (n : node) : Prop := match n with hashNode _ => False | _ => True end.

Lemma repr_not_nil n p : repr n p → n ≠ nilNode.
Proof. by destruct 1. Qed.

Definition is_nil (n : node) : bool := match n with nilNode => true | _ => false end.
Lemma is_nil_opt n oc : repr_opt n oc → is_nil n = match oc with None => true | Some _ => false end.
Proof. destruct 1 as [|n p H]; [done|]. by destruct H. Qed.

Lemma single_pos_cons i pos n ns :
  single_pos i pos (n :: ns) =
    if is_nil n then single_pos (i + 1) pos ns
    else if pos =? -1 then single_pos (i + 1) i ns else -2.
Proof. by destruct n. Qed.

Lemma single_pos_value i pos vn ov :
  repr_value vn ov →
  single_pos i pos [vn] =
    match ov with None => pos | Some _ => if pos =? -1 then i else -2 end.
Proof. intros ->. by destruct ov. Qed.

Lemma single_pos_found s pos ns cs vn ov :
  repr_list ns cs → repr_value vn ov → 0 ≤ pos →
  single_pos s pos (ns ++ [vn]) =
    match children_from s cs, ov with [], None => pos | _, _ => -2 end.
Proof.
  intros H Hv Hp. revert s. induction H as [|n ns oc cs Hn _ IH]; intros s; cbn [app].
  - rewrite (single_pos_value _ _ _ _ Hv). cbn. replace (pos =? -1) with false by lia. by destruct ov.
  - rewrite single_pos_cons, (is_nil_opt _ _ Hn). destruct oc as [c|]; cbn.
    + by replace (pos =? -1) with false by lia.
    + apply IH.
Qed.

Lemma single_pos_spec s ns cs vn ov :
  0 ≤ s → repr_list ns cs → repr_value vn ov →
  single_pos s (-1) (ns ++ [vn]) =
    match children_from s cs, ov with
    | [], None => -1
    | [], Some _ => s + len ns
    | [(i, _)], None => i
    | _, _ => -2
    end.
Proof.
  intros Hs H Hv. revert s Hs. induction H as [|n ns oc cs Hn Hns IH]; intros s Hs; cbn [app].
  - rewrite (single_pos_value _ _ _ _ Hv). cbn. destruct ov; [lia|done].
  - rewrite single_pos_cons, (is_nil_opt _ _ Hn). destruct oc as [c|]; cbn [children_from].
    + cbn [Z.eqb Pos.eqb]. rewrite (single_pos_found _ _ _ _ _ _ Hns Hv) by done.
      by destruct (children_from (s + 1) cs) as [|[]], ov.
    + rewrite IH by lia. cbn [length].
      by destruct (children_from (s + 1) cs) as [|[] []], ov; try done; lia.
Qed.

(** Merging a short node into the path above it. *)
Lemma repr_prepend k n p :
  k ≠ [] → repr n p →
  match n with
  | shortNode ck cval _ => repr (shortNode (k ++ ck) cval newFlag) (prepend k p)
  | fullNode _ _ => repr (shortNode k n newFlag) (prepend k p)
  | _ => True
  end.
Proof.
  intros Hk Hr. destruct Hr as [k' v fl Hfl|ns vn fl cs ov Hl Hv Hfl|k' n fl cs ov Hk' Hr Hfl|h n p Hdb Hin Hr Href]; cbn.
  - rewrite app_assoc. by constructor.
  - rewrite app_nil_r. constructor; [done| |done]. by constructor.
  - constructor; [by destruct k|done..].
  - done.
Qed.

Lemma resolve_repr n p prefix :
  repr n p → ∃ n', resolve db_node n prefix = Ok n' ∧ is_inner n' ∧ repr n' p.
Proof.
  intros Hr. destruct Hr as [k' v fl Hfl|ns vn fl cs ov Hl Hv Hfl|k' n fl cs ov Hk' Hr Hfl|h n p Hdb Hin Hr Href].
  - eexists. by repeat constructor.
  - eexists. by repeat constructor.
  - eexists. by repeat constructor.
  - exists n. cbn. unfold resolveHash. by rewrite Hdb.
Qed.

Lemma reduce_full_spec prefix L cs ov :
  repr_slots L (cs, ov) → length cs = 16%nat → (1 ≤ entries cs ov)%nat →
  ∃ n' p', reduce_full db_node prefix L = Ok (true, n') ∧ repr n' p' ∧ not_hash n'
    ∧ collapse [] cs ov = Some p'.
Proof.
  intros (ns & vn & -> & Hl & Hns & Hv) Hlen He. cbn [fst snd] in *.
  unfold reduce_full, collapse, entries in *.
  rewrite (single_pos_spec 0 ns cs vn ov) by done.
  destruct (children_from 0 cs) as [|[i c] [|ic l]] eqn:Ecs; [destruct ov as [v|]|destruct ov|].
  - rewrite Hl. cbn [Z.add Z.of_nat Pos.of_succ_nat Pos.succ Z.leb Z.compare].
    rewrite lookup_value by done. rewrite Hv. cbn [negb Z.eqb Pos.eqb].
    do 2 eexists. split; [done|]. split; [|done]. by apply (R_leaf []).
  - cbn in He. lia.
  - cbn [Z.leb Z.compare]. do 2 eexists. split; [done|]. by split; [constructor|].
  - destruct (children_index cs i c Hlen) as [Hi Hc]; [rewrite Ecs; by apply list_elem_of_singleton|].
    destruct (repr_list_lookup ns cs i Hns Hlen Hi) as (n & Hn & Hr).
    rewrite Hc in Hr. inversion Hr as [|? ? Hr']; subst.
    destruct (resolve_repr n c prefix Hr') as (n' & E & Hin & Hn').
    unfold is_nibble in Hi. replace (0 <=? i) with true by lia.
    rewrite lookup_children, Hn by done. replace (i =? 16) with false by lia. cbn [negb].
    rewrite E. cbn [mbind result_bind]. pose proof (repr_prepend [i] n' c ltac:(done) Hn') as Hp.
    destruct n' as [|cs' fl|ck cv fl|h|v]; try done.
    + do 2 eexists. split; [done|]. split; [|done].
      inversion Hn'; subst. cbn [prepend app]. by constructor.
    + do 2 eexists. split; [done|]. by split.
  - replace (match ov with Some _ => -2 | None => -2 end) with (-2) by (by destruct ov).
    cbn [Z.leb Z.compare]. eexists _, (PBr [] cs ov). split; [done|].
    split; [by constructor|]. split; [done|]. by destruct ov.
Qed.

Lemma prepend_app a b p : prepend (a ++ b) p = prepend a (prepend b p).
Proof. destruct p; cbn; by rewrite app_assoc. Qed.

Lemma collapse_prepend k cs ov : collapse k cs ov = prepend k <$> collapse [] cs ov.
Proof.
  unfold collapse. destruct (children_from 0 cs) as [|[i c] []], ov; cbn; rewrite ?app_nil_r; try done.
  by rewrite prepend_app.
Qed.

Lemma pdelete_prepend k cs ov r :
  pdelete (PBr k cs ov) (k ++ r) = prepend k <$> pdelete (PBr [] cs ov) r.
Proof.
  cbn [pdelete]. rewrite strip_app. cbn [strip].
  destruct r as [|x r]; [destruct ov|destruct (child cs x)];
    rewrite ?(collapse_prepend k); cbn; rewrite ?app_nil_r; done.
Qed.

Lemma collapse_full k cs ov : (2 ≤ entries cs ov)%nat → collapse k cs ov = Some (PBr k cs ov).
Proof.
  unfold collapse, entries. destruct (children_from 0 cs) as [|[i c] []], ov; cbn; try lia; done.
Qed.

Lemma pdelete_branch_some cs ov r :
  canonical (PBr [] cs ov) → nibbles_ok r → pdelete (PBr [] cs ov) r ≠ None.
Proof.
  intros (_ & Hl & He & _ & _) Hr. cbn [pdelete strip].
  assert (∀ cs' ov', (1 ≤ entries cs' ov')%nat → collapse [] cs' ov' ≠ None) as Hc.
  { intros cs' ov' H. unfold collapse, entries in *.
    destruct (children_from 0 cs') as [|[] []], ov'; cbn in *; try lia; done. }
  rewrite !entries_eq in *. destruct r as [|x r].
  - destruct ov; [|done]. apply Hc. rewrite entries_eq. lia.
  - destruct (child cs x); [|done]. apply Hc. rewrite entries_eq. set (f := λ oc, _).
    pose proof (nkids_update_one f (Z.to_nat x) cs). destruct ov; lia.
Qed.

Lemma delete_match fuel k n fl prefix key d n' :
  (0 < length key)%nat → delete db_node fuel n (prefix ++ k) key = Ok (d, n') →
  delete db_node (S fuel) (shortNode k n fl) prefix (k ++ key)
  = if negb d then Ok (false, shortNode k n fl)
    else match n' with
         | shortNode ck cval _ => Ok (true, shortNode (k ++ ck) cval newFlag)
         | _ => Ok (true, shortNode k n' newFlag)
         end.
Proof.
  intros Hl E. assert (prefixLen (k ++ key) k = length k) as Hm.
  { apply prefixLen_full. exists key. apply strip_app. }
  cbn [delete]. rewrite Hm, Nat.ltb_irrefl, length_app.
  replace (length k =? length k + length key)%nat with false by (symmetry; apply Nat.eqb_neq; lia).
  rewrite take_app_length, drop_app_length, E. done.
Qed.

Lemma delete_mismatch fuel k n fl prefix key :
  strip k key = None →
  delete db_node (S fuel) (shortNode k n fl) prefix key = Ok (false, shortNode k n fl).
Proof.
  intros E. assert (prefixLen key k < length k)%nat as Hm.
  { destruct (prefixLen_spec key k) as (_ & _ & H & _).
    assert (prefixLen key k ≠ length k); [|lia]. intros [r Hr]%prefixLen_full. congruence. }
  cbn [delete]. apply Nat.ltb_lt in Hm. by rewrite Hm.
Qed.

Definition deletes (fuel : nat) (n : node) (op : option pt) (path : bytes) : Prop :=
  ∀ prefix, ∃ d n', delete db_node fuel n prefix (path ++ [16]) = Ok (d, n')
    ∧ repr_opt n' (delete_ op path) ∧ (d = false → delete_ op path = op)
    ∧ (d = true → not_hash n').

(** Deletion from a full node, given deletion from its children. *)
Lemma delete_spec_full fuel ns vn fl cs ov path :
  (∀ n op path, repr_opt n op → canonical_root op → nibbles_ok path →
    (cost n (length path) ≤ fuel)%nat → deletes fuel n op path) →
  repr_list ns cs → repr_value vn ov → flag_ok fl (PBr [] cs ov) →
  canonical (PBr [] cs ov) → nibbles_ok path →
  (cost (fullNode (ns ++ [vn]) fl) (length path) ≤ S fuel)%nat →
  deletes (S fuel) (fullNode (ns ++ [vn]) fl) (Some (PBr [] cs ov)) path.
Proof.
  intros IH Hl Hv Hfl (_ & Hlen & He & _ & Hcs) Hp Hf prefix.
  pose proof (repr_list_length _ _ Hl) as Hln. rewrite Hlen in Hln.
  assert (repr (fullNode (ns ++ [vn]) fl) (PBr [] cs ov)) as Hself by (by constructor).
  destruct path as [|x path]; cbn [app delete delete_ pdelete strip].
  - rewrite lookup_value by done. destruct fuel; [unfold cost in Hf; cbn in Hf; lia|].
    unfold repr_value in Hv. subst vn. destruct ov as [v|]; cbn [delete mbind result_bind negb].
    + rewrite insert_value by done.
      destruct (reduce_full_spec prefix (ns ++ [nilNode]) cs None) as (n' & p' & E & Hr & Hnh & Hc).
      { by exists ns, nilNode. }
      { done. }
      { rewrite !entries_eq in *. lia. }
      rewrite E, Hc. do 2 eexists. split; [done|]. split; [by constructor|done].
    + do 2 eexists. split; [done|]. split; [by constructor|done].
  - apply nibbles_ok_cons in Hp as [Hx Hp].
    destruct (repr_list_lookup ns cs x Hl Hlen Hx) as (c & Hn & Hcr).
    rewrite lookup_children, Hn by done.
    destruct (child cs x) as [c0|] eqn:Ec.
    2: { inversion Hcr; subst. destruct fuel; [unfold cost in Hf; cbn in Hf; lia|].
         cbn [delete mbind result_bind negb]. do 2 eexists. split; [done|]. by split; [constructor|]. }
    destruct (IH c (Some c0) path Hcr ltac:(by apply (child_canonical canonical cs x)) Hp
      ltac:(pose proof (cost_le c (length (x :: path)) (length path)); unfold cost in Hf; cbn [length] in *; lia)
      (prefix ++ [x])) as (d & n' & E & Hr & Hd & _).
    rewrite E. cbn [mbind result_bind]. cbn [delete_] in *.
    set (f := λ oc : option pt, match oc with Some c => pdelete c path | None => None end).
    destruct d; cbn [negb].
    + rewrite insert_children by done.
      destruct (reduce_full_spec prefix (<[Z.to_nat x := n']> ns ++ [vn]) (update_nth f (Z.to_nat x) cs) ov)
        as (n2 & p' & E2 & Hr2 & Hnh & Hc).
      { exists (<[Z.to_nat x := n']> ns), vn. split; [done|]. split; [by rewrite length_insert|].
        split; [|done]. apply repr_list_update; try done. by rewrite Ec. }
      { by rewrite length_update_nth. }
      { rewrite !entries_eq in *. pose proof (nkids_update_one f (Z.to_nat x) cs). destruct ov; lia. }
      rewrite E2, Hc. do 2 eexists. split; [done|]. split; [by constructor|done].
    + assert (update_nth f (Z.to_nat x) cs = cs) as ->.
      { apply child_some in Ec. rewrite (update_nth_insert _ _ _ _ Ec). apply list_insert_id.
        cbn [f]. by rewrite Hd. }
      rewrite collapse_full by done. do 2 eexists. split; [done|]. split; [by constructor|done].
Qed.

Lemma delete_spec fuel n op path :
  repr_opt n op → canonical_root op → nibbles_ok path → (cost n (length path) ≤ fuel)%nat →
  deletes fuel n op path.
Proof.
  revert n op path. induction fuel as [|fuel IH]; intros n op path Hr Hc Hp Hf prefix.
  { unfold cost in Hf. destruct n; lia. }
  destruct Hr as [|n p Hr].
  { cbn. do 2 eexists. split; [done|]. by split; [constructor|]. }
  destruct Hr as [k w fl Hfl|ns vn fl cs ov Hl Hv Hfl|k n fl cs ov Hk Hr Hfl|h n p Hdb Hin Hr Href].
  - destruct Hc as [Hk _]. cbn [delete_ pdelete]. pose proof (strip_term k path Hk Hp) as Hs.
    case_bool_decide as Heq.
    + subst k. cbn [delete]. rewrite (proj2 (prefixLen_full _ _) (ex_intro _ _ Hs)).
      rewrite Nat.ltb_irrefl, Nat.eqb_refl. do 2 eexists. split; [done|]. by split; [constructor|].
    + rewrite delete_mismatch by done. do 2 eexists. split; [done|].
      split; [by repeat constructor|done].
  - by apply delete_spec_full.
  - pose proof Hc as (Hkn & Hlen & He & Hov & Hcs). destruct (strip k path) as [r|] eqn:E.
    + apply strip_some in E as ->. apply nibbles_ok_app in Hp as [_ Hp].
      assert (0 < length k)%nat by (destruct k; [done|cbn; lia]).
      assert (canonical (PBr [] cs ov)) as Hc' by done.
      destruct (IH n (Some (PBr [] cs ov)) r ltac:(by constructor) Hc' Hp
        ltac:(pose proof (cost_le n (length (k ++ r)) (length r)) as Hle; rewrite length_app in Hle;
          unfold cost in Hf; rewrite length_app in Hf; lia) (prefix ++ k)) as (d & n' & E & Hn & Hd & Hnh).
      assert (0 < length (r ++ [16%Z]))%nat as Hpos by (rewrite length_app; cbn; lia).
      rewrite <- app_assoc, (delete_match _ _ _ _ _ _ _ _ Hpos E).
      cbn [delete_] in *. rewrite pdelete_prepend. destruct d; cbn [negb].
      * specialize (Hnh eq_refl). pose proof (pdelete_branch_some cs ov r Hc' Hp) as Hne.
        destruct (pdelete (PBr [] cs ov) r) as [p'|]; [|done]. clear Hne.
        inversion Hn as [|n2 p2 Hr']; subst. cbn [fmap option_fmap option_map].
        pose proof (repr_prepend k n' p' Hk Hr') as Hpre.
        destruct n' as [|L fl'|ck cv fl'|h|v]; try done; try (by inversion Hr');
          do 2 eexists; (split; [done|]); by split; [constructor|].
      * rewrite Hd by done. cbn. rewrite app_nil_r. do 2 eexists. split; [done|].
        split; [by repeat constructor|done].
    + rewrite delete_mismatch by (by rewrite strip_nibbles, E).
      cbn [delete_ pdelete]. rewrite E. do 2 eexists. split; [done|]. split; [by repeat constructor|done].
  - pose proof (repr_hash_cost h n (length path) Hin).
    destruct (IH n (Some p) path ltac:(by constructor) Hc Hp ltac:(lia) prefix)
      as (d & n' & E & Hr' & Hd & Hnh).
    cbn [delete]. unfold resolveHash. rewrite Hdb. cbn [mbind result_bind]. rewrite E. cbn [mbind result_bind].
    destruct d; cbn [negb]; do 2 eexists; (split; [done|]); [done|].
    rewrite Hd by done. split; [by constructor|done].
Qed.

(** ** Tries as maps *)

(** The tree [op] holds the key/value pairs of [m], and no other path. *)
Definition tree_map (op : option pt) (m : gmap bytes bytes) : Prop :=
  ∀ path v, nibbles_ok path →
    get op path = Some v ↔ ∃ key, bytes_ok key ∧ path = nibbles_of key ∧ m !! key = Some v.

(** [holds t m]: every node of [t] is loaded or in the database, the nodes are
    in minimal form, and the trie's contents are [m]. *)
Definition holds (t : Trie) (m : gmap bytes bytes) : Prop :=
  ∃ op, repr_opt (root t) op ∧ canonical_root op ∧ tree_map op m.

Lemma nibbles_of_inj a b : bytes_ok a → bytes_ok b → nibbles_of a = nibbles_of b → a = b.
Proof.
  intros Ha Hb E. apply (f_equal decodeNibbles) in E.
  rewrite !decodeNibbles_nibbles_of in E by done. congruence.
Qed.

Lemma tree_map_get op m key :
  tree_map op m → bytes_ok key → get op (nibbles_of key) = m !! key.
Proof.
  intros Hm Hk. pose proof (nibbles_of_ok key Hk) as Hn.
  destruct (m !! key) as [v|] eqn:E.
  - apply Hm; [done|]. eauto.
  - destruct (get op (nibbles_of key)) as [v|] eqn:Eg; [|done].
    apply Hm in Eg as (key' & Hk' & En & E'); [|done].
    apply nibbles_of_inj in En; [|done..]. congruence.
Qed.

Lemma insert_get op path v path' :
  canonical_root op → nibbles_ok path → nibbles_ok path' →
  pget (insert_ op path v) path' = if bool_decide (path' = path) then Some v else get op path'.
Proof. intros Hc Hp Hp'. destruct op as [p|]; [by apply pinsert_get|]. done. Qed.

Lemma insert_canonical op path v :
  canonical_root op → nibbles_ok path → v ≠ [] → canonical (insert_ op path v).
Proof. intros Hc Hp Hv. destruct op as [p|]; [by apply pinsert_canonical|done]. Qed.

Lemma delete_get op path path' :
  canonical_root op → nibbles_ok path → nibbles_ok path' →
  get (delete_ op path) path' = if bool_decide (path' = path) then None else get op path'.
Proof.
  intros Hc Hp Hp'. destruct op as [p|]; [by apply pdelete_get|]. cbn. by case_bool_decide.
Qed.

Lemma delete_canonical op path : canonical_root op → nibbles_ok path → canonical_root (delete_ op path).
Proof. intros Hc Hp. destruct op as [p|]; [by apply pdelete_canonical|done]. Qed.

Lemma tree_map_insert op m key v :
  tree_map op m → canonical_root op → bytes_ok key →
  tree_map (Some (insert_ op (nibbles_of key) v)) (<[key := v]> m).
Proof.
  intros Hm Hc Hk path w Hp. cbn [get].
  rewrite insert_get by (done || by apply nibbles_of_ok). case_bool_decide as Heq.
  - subst path. split.
    + intros [= <-]. exists key. by rewrite lookup_insert_eq.
    + intros (key' & Hk' & E & H). apply nibbles_of_inj in E; [|done..]. subst key'.
      by rewrite lookup_insert_eq in H.
  - rewrite (Hm path w Hp). split; intros (key' & Hk' & E & H); exists key'; (split; [done|]);
      (split; [done|]); rewrite lookup_insert_ne in *; congruence.
Qed.

Lemma tree_map_delete op m key :
  tree_map op m → canonical_root op → bytes_ok key →
  tree_map (delete_ op (nibbles_of key)) (base.delete key m).
Proof.
  intros Hm Hc Hk path w Hp.
  rewrite delete_get by (done || by apply nibbles_of_ok). case_bool_decide as Heq.
  - subst path. split; [done|]. intros (key' & Hk' & E & H). apply nibbles_of_inj in E; [|done..].
    subst key'. by rewrite lookup_delete_eq in H.
  - rewrite (Hm path w Hp). split; intros (key' & Hk' & E & H); exists key'; (split; [done|]);
      (split; [done|]); rewrite lookup_delete_ne in *; congruence.
Qed.

Lemma key_cost n key : (cost n (length (nibbles_of key)) ≤ key_fuel (keybytesToHex key))%nat.
Proof. unfold cost, key_fuel, keybytesToHex. rewrite length_app. cbn [length]. destruct n; lia. Qed.

(** Two tries with the same contents represent the same tree. *)
Lemma holds_same_tree op1 op2 m :
  canonical_root op1 → canonical_root op2 → tree_map op1 m → tree_map op2 m → op1 = op2.
Proof.
  intros H1 H2 Hm1 Hm2.
  assert (∀ path, nibbles_ok path → get op1 path = get op2 path) as Hg.
  { intros path Hp. destruct (get op1 path) as [v|] eqn:E1.
    - symmetry. apply Hm2; [done|]. by apply Hm1.
    - destruct (get op2 path) as [v|] eqn:E2; [|done]. apply Hm2, Hm1 in E2; congruence. }
  destruct op1 as [p1|], op2 as [p2|]; [|..|done].
  - f_equal. by apply canonical_unique.
  - destruct (canonical_keyed p1 H1) as (path & Hp & Hne). specialize (Hg path Hp). cbn in Hg. congruence.
  - destruct (canonical_keyed p2 H2) as (path & Hp & Hne). specialize (Hg path Hp). cbn in Hg. congruence.
Qed.

Lemma TryGet_ok t op m key :
  repr_opt (root t) op → canonical_root op → tree_map op m → bytes_ok key →
  ∃ t', TryGet db_node key t = (Ok (m !! key), t') ∧ repr_opt (root t') op.
Proof.
  intros Hr Hc Hm Hk. unfold TryGet.
  destruct (tryGet_spec (key_fuel (keybytesToHex key)) (root t) op [] (nibbles_of key))
    as (n' & did & E & Hr'); [done|done|by apply nibbles_of_ok|apply key_cost|].
  cbn [app length] in E. unfold keybytesToHex at 1. fold (keybytesToHex key) in E.
  change (nibbles_of key ++ [16]) with (keybytesToHex key) in *. rewrite E.
  rewrite (tree_map_get op m key) by done.
  destruct did; eexists; (split; [done|]); done.
Qed.

Lemma TryUpdate_ok t op m key value :
  repr_opt (root t) op → canonical_root op → tree_map op m → bytes_ok key →
  ∃ t' op', TryUpdate db_node key value t = (Ok tt, t')
    ∧ repr_opt (root t') op' ∧ canonical_root op'
    ∧ tree_map op' (if bool_decide (value = []) then base.delete key m else <[key := value]> m).
Proof.
  intros Hr Hc Hm Hk. unfold TryUpdate. cbn [root unhashed]. pose proof (nibbles_of_ok key Hk) as Hn.
  case_bool_decide as Hv.
  - subst value. cbn [length Z.of_nat Z.eqb negb].
    destruct (delete_spec (key_fuel (keybytesToHex key)) (root t) op (nibbles_of key) Hr Hc Hn
      (key_cost _ _) []) as (d & n' & E & Hr' & _ & _).
    change (nibbles_of key ++ [16]) with (keybytesToHex key) in E. rewrite E.
    do 2 eexists. split; [done|]. split; [exact Hr'|].
    split; [by apply delete_canonical|by apply tree_map_delete].
  - replace (len value =? 0) with false by (destruct value; [done|cbn; lia]). cbn [negb].
    destruct (insert_spec (key_fuel (keybytesToHex key)) (root t) op [] (nibbles_of key) value Hr Hc Hn
      (key_cost _ _)) as (d & n' & E & Hr' & _).
    change (nibbles_of key ++ [16]) with (keybytesToHex key) in E. rewrite E.
    eexists _, (Some _). split; [done|]. split; [by constructor|].
    split; [by apply insert_canonical|by apply tree_map_insert].
Qed.
End refinement.

(** A trie with the contents [m], without any assumption on cached hashes. *)
Definition contains (db : bytes → option node) (t : Trie) (m : gmap bytes bytes) : Prop :=
  holds db (λ _ _, True) (λ _ _, True) t m.

(** The empty trie. *)
Lemma tree_map_empty : tree_map None ∅.
Proof.
  intros path v _. cbn. split; [done|]. intros (key & _ & _ & H). by rewrite lookup_empty in H.
Qed.
Lemma contains_empty db u : contains db (MkTrie nilNode u) ∅.
Proof. exists None. split; [constructor|]. split; [done|apply tree_map_empty]. Qed.

(** ** Properties *)

(** Lookup.  On a trie that holds the map [m], loaded or behind hashes of
    the database, [TryGet] returns exactly what [m] has for the key, without a
    missing node, a panic or running out of steps, and what it loads on the way
    leaves the contents as they are. *)
Theorem TryGet_lookup (db : bytes → option node) (t : Trie) (m : gmap bytes bytes) (key : bytes) :
  contains db t m → bytes_ok key → ∃ t', TryGet db key t = (Ok (m !! key), t') ∧ contains db t' m.
Proof.
  intros (op & Hr & Hc & Hm) Hk. destruct (TryGet_ok db (λ _ _, True) (λ _ _, True) t op m key) as (t' & E & Hr'); try done.
  exists t'. split; [done|]. by exists op.
Qed.

Lemma TryGet_lookup_witness :
  ∃ t', TryGet (λ _, None) [0xAB] (MkTrie (shortNode [10; 11; 16] (valueNode [1; 2]) newFlag) 0)
    = (Ok (Some [1; 2]), t').
Proof.
  destruct (TryGet_lookup (λ _, None) (MkTrie (shortNode [10; 11; 16] (valueNode [1; 2]) newFlag) 0)
    (<[[0xAB] := [1; 2]]> ∅) [0xAB]) as (t' & E & _).
  - exists (Some (insert_ None (nibbles_of [0xAB]) [1; 2])). split; [constructor; by apply (R_leaf _ _ _ [10; 11])|].
    split; [by repeat constructor|]. apply tree_map_insert; [apply tree_map_empty|done|wf_concrete].
  - wf_concrete.
  - exists t'. rewrite E. by rewrite lookup_insert_eq.
Defined.

(** Update.  [TryUpdate] with a non-empty value inserts it, with the empty
    value it removes the key, on every trie that holds a map, whatever part of
    it is loaded; it always succeeds and the result is again in minimal form
    (no short node below a short node, at least two entries in every full
    node). *)
Theorem TryUpdate_updates (db : bytes → option node) (t : Trie) (m : gmap bytes bytes)
    (key value : bytes) :
  contains db t m → bytes_ok key →
  ∃ t', TryUpdate db key value t = (Ok tt, t')
    ∧ contains db t' (if bool_decide (value = []) then base.delete key m else <[key := value]> m).
Proof.
  intros (op & Hr & Hc & Hm) Hk.
  destruct (TryUpdate_ok db (λ _ _, True) (λ _ _, True) (λ _, I) t op m key value) as (t' & op' & E & Hr' & Hc' & Hm'); try done.
  exists t'. split; [done|]. by exists op'.
Qed.

Lemma TryUpdate_updates_witness :
  ∃ t', TryUpdate (λ _, None) [0x12; 0x34] [7] (MkTrie nilNode 0) = (Ok tt, t')
    ∧ contains (λ _, None) t' (<[[0x12; 0x34] := [7]]> ∅).
Proof.
  apply (TryUpdate_updates (λ _, None) (MkTrie nilNode 0) ∅ [0x12; 0x34] [7]).
  - apply contains_empty.
  - wf_concrete.
Defined.
