(* ===== verification/TrieHash.v ===== *)
(** * Hashing of tries (src/trie/hasher.go, [Hash] of trie.go)

    The hasher collapses a tree of nodes bottom-up into references (the RLP
    encoding of a small node, the Keccak hash of a larger one), using and
    filling the cached hashes of the nodes.  The reference definition [enc]
    computes the encoding of a node from the canonical tree of [TrieSpec]
    alone.  The theorems show that whatever parts of a trie are loaded, cached
    or behind hashes, [Hash] returns the Merkle root of its contents, and that
    updates keep the caches truthful.  Keccak is a parameter with 32-byte
    results; everything else, the RLP encoder included, is the model of the
    code. *)
From S2P Require Import Prelude RlpEncode TrieEncoding TrieSpec Trie.
Local Open Scope Z_scope.

(** ** RLP form of nodes *)

(** What [rlp.Encode] sees of a node: the exported fields of a short node, and
    [EncodeRLP] of a full node, where absent children are empty strings. *)
Fixpoint node_value (n : node) : value :=
  match n with
  | nilNode => VInterface None
  | valueNode v | hashNode v => VBytes v
  | shortNode k val _ =>
      VPtr KList (Some (VStruct [VBytes k;
        VInterface (match val with nilNode => None | _ => Some (node_value val) end)]))
  | fullNode cs _ =>
      VEncoder (VSlice false
        (map (λ c, VInterface (Some (match c with nilNode => VBytes [] | _ => node_value c end))) cs))
  end.

(** The bytes written to [h.tmp]; nodes hold no integers, so there is no
    encoding error. *)
Definition encode_node (n : node) : bytes :=
  match Encode (node_value n) with Ok chunks => concat chunks | Err _ => [] end.

(** The root hash of the empty trie. *)
Definition emptyRoot : bytes :=
  [0x56; 0xe8; 0x1f; 0x17; 0x1b; 0xcc; 0x55; 0xa6; 0xff; 0x83; 0x45; 0xe6; 0x92; 0xc0; 0xf8; 0x6e;
   0x5b; 0x48; 0xe0; 0x1b; 0x99; 0x6c; 0xad; 0xc0; 0x01; 0x62; 0x2f; 0xb5; 0xe3; 0x63; 0xb4; 0x21].

(** [hexToCompact] does not fail, see [hexToCompact_total]. *)
Definition compact (hex : bytes) : bytes :=
  match hexToCompact hex with Some c => c | None => [] end.

Section hasher.
(** [h.sha]: Keccak-256. *)
Variable keccak : bytes → bytes.

Definition hashData (data : bytes) : node := hashNode (keccak data).

Definition shortnodeToHash (n : node) (force : bool) : node :=
  let tmp := encode_node n in
  if (len tmp <? 32) && negb force then n else hashData tmp.

Definition fullnodeToHash (n : node) (force : bool) : node :=
  let tmp := encode_node n in
  if (len tmp <? 32) && negb force then n else hashData tmp.

(** Collapsed and cached versions of the first sixteen children. *)
Definition hashFullNodeChildren (hash : node → bool → node * node) :=
  fix go (i : nat) (cs : list node) {struct cs} : list (node * node) :=
    match cs with
    | [] => []
    | c :: cs =>
        (if (i <? 16)%nat then
           match c with nilNode => (valueNode [], nilNode) | _ => hash c false end
         else (c, c)) :: go (S i) cs
    end.

Definition set_hash (fl : nodeFlag) (hashed : node) : nodeFlag :=
  MkFlag (match hashed with hashNode h => Some h | _ => None end) (f_dirty fl).

Fixpoint hash (n : node) (force : bool) {struct n} : node * node :=
  match (cache n).1 with
  | Some h => (hashNode h, n)
  | None =>
      match n with
      | shortNode k val fl =>
          let '(cval, cached_val) :=
            match val with
            | fullNode _ _ | shortNode _ _ _ => hash val false
            | _ => (val, val)
            end in
          let hashed := shortnodeToHash (shortNode (compact k) cval fl) force in
          (hashed, shortNode k cached_val (set_hash fl hashed))
      | fullNode cs fl =>
          let children := hashFullNodeChildren hash 0 cs in
          let hashed := fullnodeToHash (fullNode (fst <$> children) fl) force in
          (hashed, fullNode (snd <$> children) (set_hash fl hashed))
      | _ => (n, n)
      end
  end.

(** [proofHash]: the collapsed node of a proof, and its hash if it is large. *)
Definition proofHash (original : node) : node * node :=
  match original with
  | shortNode k val fl =>
      let cval := match val with
                  | fullNode _ _ | shortNode _ _ _ => (hash val false).1
                  | _ => val
                  end in
      let sn := shortNode (compact k) cval fl in (sn, shortnodeToHash sn false)
  | fullNode cs fl =>
      let fn := fullNode (fst <$> hashFullNodeChildren hash 0 cs) fl in (fn, fullnodeToHash fn false)
  | n => (n, n)
  end.

(** [Hash], [None] for the failing type assertion on a value node root. *)
Definition Hash (t : Trie) : option (bytes * Trie) :=
  match root t with
  | nilNode => Some (BytesToHash emptyRoot, MkTrie nilNode (unhashed t))
  | n =>
      let '(hashed, cached) := hash n true in
      match hashed with
      | hashNode h => Some (BytesToHash h, MkTrie cached 0)
      | _ => None
      end
  end.

(** ** Reference definition *)

Definition ref_of (b : bytes) : bytes := if len b <? 32 then b else rlp_string (keccak b).

Fixpoint enc (p : pt) : bytes :=
  match p with
  | PLeaf k v => rlp_list (rlp_string (compact (k ++ [16])) ++ rlp_string v)
  | PBr k cs ov =>
      let br := rlp_list (concat (map (λ oc, match oc with
                                             | Some c => ref_of (enc c)
                                             | None => rlp_string []
                                             end) cs)
                          ++ rlp_string (match ov with Some v => v | None => [] end)) in
      match k with
      | [] => br
      | _ => rlp_list (rlp_string (compact k) ++ ref_of br)
      end
  end.

(** The tree of a map, and its root hash. *)
Definition tree_of (m : gmap bytes bytes) : option pt :=
  map_fold (λ key v op, Some (insert_ op (nibbles_of key) v)) None m.

Definition merkle_root (m : gmap bytes bytes) : bytes :=
  match tree_of m with
  | None => emptyRoot
  | Some p => keccak (enc p)
  end.

(** ** Lemmas: compact keys and encodings *)

Lemma decodeNibbles_total l : Nat.even (length l) = true → ∃ bs, decodeNibbles l = Some bs.
Proof.
  induction l as [|x|x y l IH] using pair_ind; [by eauto|done|].
  intros He. destruct (IH He) as [bs E]. cbn. rewrite E. cbn. eauto.
Qed.

Lemma hexToCompact_total hex : ∃ c, hexToCompact hex = Some c.
Proof.
  unfold hexToCompact. destruct (if hasTerm hex then _ else _) as [t h]. rewrite land_odd.
  destruct (Nat.odd (length h)) eqn:Ho; zcmp.
  - destruct h as [|x h]; [done|]. destruct (decodeNibbles_total (drop 1 (x :: h))) as [bs ->]; [|cbn; eauto].
    cbn [drop]. rewrite drop_0. cbn [length] in Ho. by rewrite Nat.odd_succ in Ho.
  - destruct (decodeNibbles_total h) as [bs ->]; [by rewrite <- Nat.negb_odd, Ho|]. cbn. eauto.
Qed.

Lemma compact_ok path term :
  nibbles_ok path →
  bytes_ok (compact (hex_key path term)) ∧ length (compact (hex_key path term)) = (length path / 2 + 1)%nat.
Proof.
  intros Hp. destruct (compactToHex_hexToCompact path term Hp) as (c & E & Hok & _ & Hl).
  unfold compact. by rewrite E.
Qed.

Lemma rlp_head_len small large n : 0 ≤ n < 2 ^ 64 → len (rlp_head small large n) ≤ 9.
Proof.
  intros Hn. rewrite <- headsize_spec by done. unfold headsize. case_if; [lia|].
  pose proof (intsize_spec n). pose proof (nbytes_u64 n). pose proof (nbytes_pos n). lia.
Qed.

Lemma rlp_string_ub b : len b < 2 ^ 64 → len (rlp_string b) ≤ len b + 9.
Proof.
  intros Hl. destruct b as [|b0 [|b1 b]]; cbn [rlp_string]; [|case_if; [cbn; lia|]|];
    rewrite length_app, Nat2Z.inj_add.
  - pose proof (rlp_head_len 0x80 0xB7 0 ltac:(lia)). cbn [length] in *.
    change (Z.of_nat 0) with 0 in *. lia.
  - pose proof (rlp_head_len 0x80 0xB7 1 ltac:(lia)). cbn [length] in *. lia.
  - pose proof (rlp_head_len 0x80 0xB7 (len (b0 :: b1 :: b))). lia.
Qed.

Lemma rlp_list_ub b : len b < 2 ^ 64 → len (rlp_list b) ≤ len b + 9.
Proof.
  intros Hl. unfold rlp_list. rewrite length_app.
  pose proof (rlp_head_len 0xC0 0xF7 (len b)). lia.
Qed.

Lemma encode_node_ok n out :
  value_ok (node_value n) → rlp_spec (node_value n) = Ok out → len out < 2 ^ 64 →
  encode_node n = out.
Proof.
  intros Hok Hs Hl. pose proof (EncodeToBytes_ok _ _ Hok Hs Hl) as E.
  unfold encode_node, Encode. unfold EncodeToBytes in E.
  destruct (write (node_value n) encbuf_reset) as [w|]; [|done]. cbn in *.
  rewrite toWriter_concat. congruence.
Qed.

Lemma spec_all_concat vs outs :
  Forall2 (λ v out, rlp_spec v = Ok out) vs outs → spec_all rlp_spec vs = Ok (concat outs).
Proof.
  induction 1 as [|v out vs outs Hv _ IH]; [done|]. apply spec_all_cons. by exists out, (concat outs).
Qed.

Lemma all_values_Forall P vs : all_values P vs ↔ Forall P vs.
Proof.
  induction vs as [|v vs IH]; cbn; [done|]. by rewrite Forall_cons, IH.
Qed.

(** ** Lemmas: sizes *)

Hypothesis keccak_length : ∀ b, length (keccak b) = 32%nat.
Hypothesis keccak_bytes : ∀ b, bytes_ok (keccak b).

(** Paths and values short enough for the encodings to stay below 2^64
    bytes. *)
Definition sized_value (v : bytes) : Prop := bytes_ok v ∧ len v < 2 ^ 60.

Fixpoint sized (p : pt) : Prop :=
  match p with
  | PLeaf k v => len k < 2 ^ 60 ∧ sized_value v
  | PBr k cs ov =>
      len k < 2 ^ 60 ∧ sized_value (match ov with Some v => v | None => [] end)
      ∧ all_children sized cs
  end.

Lemma ref_of_len b : len (ref_of b) ≤ 33.
Proof.
  unfold ref_of. case_if; [lia|]. pose proof (keccak_length b) as Hl.
  rewrite rlp_string_long by lia. rewrite length_app, Hl.
  change (rlp_head 0x80 0xB7 (Z.of_nat 32)) with [160]. cbn. lia.
Qed.

Definition child_ref (oc : option pt) : bytes :=
  match oc with Some c => ref_of (enc c) | None => rlp_string [] end.

(** Encoding of a full node. *)
Definition enc_full (cs : list (option pt)) (ov : option bytes) : bytes :=
  rlp_list (concat (map child_ref cs) ++ rlp_string (match ov with Some v => v | None => [] end)).

Lemma enc_br k cs ov :
  enc (PBr k cs ov) =
    match k with
    | [] => enc_full cs ov
    | _ => rlp_list (rlp_string (compact k) ++ ref_of (enc_full cs ov))
    end.
Proof. done. Qed.

Lemma child_refs_len cs : len (concat (map child_ref cs)) ≤ 33 * len cs.
Proof.
  induction cs as [|oc cs IH]; [done|]. cbn [map concat length]. rewrite length_app.
  assert (len (child_ref oc) ≤ 33); [|lia].
  destruct oc; [apply ref_of_len|]. by vm_compute.
Qed.

Lemma enc_full_len cs ov :
  length cs = 16%nat → sized_value (match ov with Some v => v | None => [] end) →
  len (enc_full cs ov) < 2 ^ 61.
Proof.
  intros Hl [_ Hv]. unfold enc_full. set (v := match ov with Some v => v | None => [] end) in *.
  pose proof (child_refs_len cs). pose proof (rlp_string_ub v).
  assert (len (concat (map child_ref cs) ++ rlp_string v) ≤ 33 * 16 + 2 ^ 60 + 9)
    by (rewrite length_app; lia).
  pose proof (rlp_list_ub (concat (map child_ref cs) ++ rlp_string v)). lia.
Qed.

Lemma compact_string_len path term :
  nibbles_ok path → len path < 2 ^ 60 → len (rlp_string (compact (hex_key path term))) < 2 ^ 60 + 10.
Proof.
  intros Hp Hl. destruct (compact_ok path term Hp) as [_ Hc].
  pose proof (rlp_string_ub (compact (hex_key path term))).
  assert (length path / 2 ≤ length path)%nat by (apply Nat.div_le_upper_bound; lia). lia.
Qed.

Lemma enc_len p : canonical p → sized p → len (enc p) < 2 ^ 64.
Proof.
  destruct p as [k v|k cs ov].
  - intros [Hk _] [Hlk [_ Hv]]. cbn [enc].
    pose proof (compact_string_len k true Hk Hlk) as Hc. unfold hex_key in Hc.
    pose proof (rlp_string_ub v).
    pose proof (rlp_list_ub (rlp_string (compact (k ++ [16])) ++ rlp_string v)) as Hu.
    rewrite length_app in Hu. lia.
  - intros (Hk & Hl & _ & _ & _) (Hlk & Hv & _). rewrite enc_br.
    pose proof (enc_full_len cs ov Hl Hv). destruct k as [|x k]; [lia|].
    pose proof (compact_string_len (x :: k) false Hk Hlk) as Hc. unfold hex_key in Hc.
    rewrite app_nil_r in Hc. pose proof (ref_of_len (enc_full cs ov)).
    pose proof (rlp_list_ub (rlp_string (compact (x :: k)) ++ ref_of (enc_full cs ov))) as Hu.
    rewrite length_app in Hu. lia.
Qed.

(** ** Lemmas: hashing *)

(** A cached hash or a hash node belongs to a node of at least 32 bytes. *)
Definition flag_ok (fl : nodeFlag) (p : pt) : Prop :=
  f_hash fl = None ∨ f_hash fl = Some (keccak (enc p)) ∧ 32 ≤ len (enc p).
Definition ref_ok (h : bytes) (p : pt) : Prop :=
  h = keccak (enc p) ∧ 32 ≤ len (enc p).

Lemma newFlag_ok p : flag_ok newFlag p.
Proof. by left. Qed.

Variable db_node : bytes → option node.

Notation hrepr := (repr db_node flag_ok ref_ok).
Notation hrepr_opt := (repr_opt db_node flag_ok ref_ok).
Notation hrepr_list := (repr_list db_node flag_ok ref_ok).

(** The collapsed form of a node stands for the reference to it. *)
Record collapsed (n : node) (out : bytes) : Prop := {
  col_spec : rlp_spec (node_value n) = Ok out;
  col_ok : value_ok (node_value n);
  col_nil : n ≠ nilNode
}.

(** What [hash n false] returns for a node of the tree [p]. *)
Definition hashes (n : node) (p : pt) : Prop :=
  collapsed (hash n false).1 (ref_of (enc p))
  ∧ hrepr (hash n false).2 p.

Lemma collapsed_hash p :
  32 ≤ len (enc p) →
  collapsed (hashNode (keccak (enc p))) (ref_of (enc p)).
Proof.
  intros Hl. split; [|apply keccak_bytes|done]. cbn. unfold ref_of. by zcmp.
Qed.

(** The last step: embed or hash the collapsed node. *)
Lemma toHash_spec n p force :
  collapsed n (enc p) → canonical p → sized p →
  shortnodeToHash n force =
    if (len (enc p) <? 32) && negb force then n else hashNode (keccak (enc p)).
Proof.
  intros [Hs Hok _] Hc Hz. unfold shortnodeToHash, hashData.
  rewrite (encode_node_ok n _ Hok Hs) by (by apply enc_len). done.
Qed.

Lemma set_hash_ok fl n p :
  collapsed n (enc p) → canonical p → sized p → is_inner n →
  collapsed (shortnodeToHash n false) (ref_of (enc p))
  ∧ flag_ok (set_hash fl (shortnodeToHash n false)) p.
Proof.
  intros Hn Hc Hz Hin. rewrite (toHash_spec n p false Hn Hc Hz).
  destruct (len (enc p) <? 32) eqn:E; cbn [andb negb]; bool_prop.
  - split; [|left; by destruct n]. destruct Hn. split; [|done..].
    unfold ref_of. zcmp. done.
  - split; [by apply collapsed_hash|]. right. split; [done|lia].
Qed.

(** Nodes up to their flags. *)
Definition flags_of (n : node) : nodeFlag :=
  match n with fullNode _ fl | shortNode _ _ fl => fl | _ => newFlag end.

Definition set_flag (n : node) (fl : nodeFlag) : node :=
  match n with
  | fullNode cs _ => fullNode cs fl
  | shortNode k v _ => shortNode k v fl
  | _ => n
  end.

Lemma set_flag_id n : set_flag n (flags_of n) = n.
Proof. by destruct n. Qed.

Lemma hrepr_set_flag n fl p :
  is_inner n → hrepr n p → flag_ok fl p → hrepr (set_flag n fl) p.
Proof. intros Hi H Hf. destruct H; [..|done]; by constructor. Qed.

Lemma hrepr_flag n p : is_inner n → hrepr n p → flag_ok (flags_of n) p.
Proof. intros Hi H. by destruct H. Qed.

Lemma hash_val val :
  match val with fullNode _ _ | shortNode _ _ _ => hash val false | _ => (val, val) end
  = hash val false.
Proof. by destruct val. Qed.

Lemma collapsed_interface n out :
  collapsed n out →
  VInterface (match n with nilNode => None | _ => Some (node_value n) end)
  = VInterface (Some (node_value n)).
Proof. intros [_ _ H]. by destruct n. Qed.

(** Collapsed short nodes. *)
Lemma collapsed_short path term n out fl :
  nibbles_ok path → collapsed n out →
  collapsed (shortNode (compact (hex_key path term)) n fl)
    (rlp_list (rlp_string (compact (hex_key path term)) ++ out)).
Proof.
  intros Hp Hn. pose proof (collapsed_interface n out Hn) as Hi. destruct Hn as [Hs Hok Hnil].
  split; [..|done]; cbn [node_value]; rewrite Hi.
  - cbn [rlp_spec]. rewrite (spec_all_concat _ [rlp_string (compact (hex_key path term)); out]).
    + cbn. by rewrite app_nil_r.
    + by repeat constructor.
  - cbn. split; [|done]. by apply compact_ok.
Qed.

(** Children. *)
Definition hashes_child (r : node * node) (oc : option pt) : Prop :=
  collapsed r.1 (child_ref oc) ∧ hrepr_opt r.2 oc.

Lemma hash_children_spec ns cs vn i :
  Forall (on_child (λ p, ∀ n, hrepr n p → canonical p → sized p → hashes n p)) cs →
  hrepr_list ns cs → all_children canonical cs → all_children sized cs →
  (i + length cs = 16)%nat →
  ∃ rs, hashFullNodeChildren hash i (ns ++ [vn]) = rs ++ [(vn, vn)] ∧ Forall2 hashes_child rs cs.
Proof.
  intros IH Hr. revert i IH. induction Hr as [|n ns oc cs Hn Hr IHr]; intros i IH Hc Hz Hi.
  - exists []. cbn in *. replace i with 16%nat by lia. split; [done|constructor].
  - apply Forall_cons in IH as [IHn IH]. rewrite all_children_Forall, Forall_cons in Hc, Hz.
    destruct Hc as [Hc1 Hc], Hz as [Hz1 Hz]. cbn [length] in Hi.
    destruct (IHr (S i)) as (rs & Hrs & HF); [done|by apply all_children_Forall..|lia|].
    cbn [app hashFullNodeChildren]. rewrite Hrs.
    replace (i <? 16)%nat with true by (symmetry; apply Nat.ltb_lt; lia).
    exists (match n with nilNode => (valueNode [], nilNode) | _ => hash n false end :: rs).
    split; [done|]. constructor; [|done]. destruct Hn as [|n p Hn].
    + split; [|constructor]. by split; [|apply bytes_ok_nil|].
    + destruct (IHn n Hn Hc1 Hz1) as [H1 H2].
      assert (n ≠ nilNode) by (by eapply repr_not_nil).
      destruct n; try done; (split; [done|by constructor]).
Qed.

Lemma Forall2_fst_spec rs cs :
  Forall2 hashes_child rs cs →
  Forall2 (λ v out, rlp_spec v = Ok out)
    (map (λ c, VInterface (Some (match c with nilNode => VBytes [] | _ => node_value c end))) (fst <$> rs))
    (map child_ref cs).
Proof.
  induction 1 as [|r oc rs cs [Hc _] _ IH]; cbn; constructor; [|done].
  destruct Hc as [Hs _ Hn]. cbn. by destruct r.1.
Qed.

Lemma Forall2_fst_ok rs cs :
  Forall2 hashes_child rs cs →
  Forall value_ok
    (map (λ c, VInterface (Some (match c with nilNode => VBytes [] | _ => node_value c end))) (fst <$> rs)).
Proof.
  induction 1 as [|r oc rs cs [Hc _] _ IH]; cbn; constructor; [|done].
  destruct Hc as [_ Hok Hn]. cbn. by destruct r.1.
Qed.

Lemma collapsed_full rs cs vn ov fl :
  Forall2 hashes_child rs cs → repr_value vn ov →
  sized_value (match ov with Some v => v | None => [] end) →
  collapsed (fullNode (fst <$> (rs ++ [(vn, vn)])) fl) (enc_full cs ov).
Proof.
  intros HF Hv [Hvb _]. rewrite fmap_app. split; [..|done]; cbn [node_value rlp_spec value_ok].
  - rewrite map_app. unfold enc_full.
    rewrite (spec_all_concat _ (map child_ref cs ++ [rlp_string (match ov with Some v => v | None => [] end)])).
    + cbn. by rewrite concat_app, concat_cons, app_nil_r.
    + apply Forall2_app; [by apply Forall2_fst_spec|]. constructor; [|constructor].
      unfold repr_value in Hv. subst vn. by destruct ov.
  - apply all_values_Forall. rewrite map_app. apply Forall_app. split; [by eapply Forall2_fst_ok|].
    constructor; [|constructor]. unfold repr_value in Hv. subst vn. by destruct ov.
Qed.

Lemma Forall2_snd_repr rs cs : Forall2 hashes_child rs cs → hrepr_list (snd <$> rs) cs.
Proof. induction 1 as [|r oc rs cs [_ Hr] _ IH]; cbn; by constructor. Qed.

(** A node without cached hash is collapsed and then embedded or hashed; its
    cached version is the node with cached children and the new hash. *)
Record hash_step (n : node) (p : pt) : Prop := {
  step : ∀ fl force, f_hash fl = None →
    ∃ c b, collapsed c (enc p) ∧ is_inner c ∧ is_inner b ∧ hrepr b p
    ∧ hash (set_flag n fl) force
      = (shortnodeToHash c force, set_flag b (set_hash fl (shortnodeToHash c force)))
}.

Lemma hash_step_hashes n p :
  is_inner n → hrepr n p → canonical p → sized p → hash_step n p → hashes n p.
Proof.
  intros Hi Hr Hc Hz [Hs]. unfold hashes.
  destruct (f_hash (flags_of n)) as [h|] eqn:Ef.
  - pose proof (hrepr_flag n p Hi Hr) as [Hf|[Hf Hl]]; [congruence|].
    assert (hash n false = (hashNode h, n)) as ->.
    { destruct n; try done; cbn in *; by rewrite Ef. }
    split; [|done]. cbn. rewrite Hf in Ef. injection Ef as <-. by apply collapsed_hash.
  - destruct (Hs (flags_of n) false Ef) as (c & b & Hcol & Hic & Hib & Hb & E).
    rewrite set_flag_id in E. rewrite E. cbn [fst snd].
    destruct (set_hash_ok (flags_of n) c p Hcol Hc Hz Hic) as [H1 H2].
    split; [done|]. by apply hrepr_set_flag.
Qed.

Lemma hash_unfold_short k val fl force :
  f_hash fl = None →
  hash (shortNode k val fl) force =
    let r := hash val false in
    let hashed := shortnodeToHash (shortNode (compact k) r.1 fl) force in
    (hashed, shortNode k r.2 (set_hash fl hashed)).
Proof. intros E. cbn [hash cache fst]. rewrite E, hash_val. by destruct (hash val false). Qed.

Lemma hash_unfold_full cs fl force :
  f_hash fl = None →
  hash (fullNode cs fl) force =
    let rs := hashFullNodeChildren hash 0 cs in
    let hashed := fullnodeToHash (fullNode (fst <$> rs) fl) force in
    (hashed, fullNode (snd <$> rs) (set_hash fl hashed)).
Proof. intros E. cbn [hash cache fst]. by rewrite E. Qed.

Lemma hash_step_leaf k v fl :
  canonical (PLeaf k v) → sized (PLeaf k v) →
  hash_step (shortNode (k ++ [16]) (valueNode v) fl) (PLeaf k v).
Proof.
  intros [Hk _] [_ [Hv _]]. split. intros fl' force E. cbn [set_flag].
  rewrite hash_unfold_short by done. cbn [hash cache fst snd].
  eexists _, (shortNode (k ++ [16]) (valueNode v) newFlag).
  split; [|by repeat split; try done; apply R_leaf, newFlag_ok].
  cbn [enc]. by apply (collapsed_short k true (valueNode v) (rlp_string v)).
Qed.

Lemma hash_step_ext k n fl cs ov :
  k ≠ [] → canonical (PBr k cs ov) → hashes n (PBr [] cs ov) →
  hash_step (shortNode k n fl) (PBr k cs ov).
Proof.
  intros Hk [Hn _] [Hc Hr]. split. intros fl' force E. cbn [set_flag].
  rewrite hash_unfold_short by done. cbn zeta.
  eexists _, (shortNode k (hash n false).2 newFlag).
  split; [|by repeat split; try done; apply R_ext; [..|apply newFlag_ok]].
  pose proof (collapsed_short k false _ _ fl' Hn Hc) as H. unfold hex_key in H.
  rewrite app_nil_r in H. rewrite enc_br. by destruct k.
Qed.

Lemma hash_step_branch ns vn fl cs ov :
  Forall (on_child (λ p, ∀ n, hrepr n p → canonical p → sized p → hashes n p)) cs →
  canonical (PBr [] cs ov) → sized (PBr [] cs ov) → hrepr_list ns cs → repr_value vn ov →
  hash_step (fullNode (ns ++ [vn]) fl) (PBr [] cs ov).
Proof.
  intros IH (_ & Hl & _ & _ & Hcs) (_ & Hv & Hz) Hr Hvn. split. intros fl' force E.
  cbn [set_flag]. rewrite hash_unfold_full by done.
  destruct (hash_children_spec ns cs vn 0 IH Hr Hcs Hz Hl) as (rs & -> & HF). cbn zeta.
  eexists _, (fullNode (snd <$> (rs ++ [(vn, vn)])) newFlag).
  split; [by apply collapsed_full|]. repeat split; try done.
  rewrite fmap_app. apply R_branch; [by apply Forall2_snd_repr|done|apply newFlag_ok].
Qed.

Lemma hashes_hash h p : hrepr (hashNode h) p → hashes (hashNode h) p.
Proof.
  intros Hr. split; [|done]. cbn. inversion Hr as [| | |? ? ? _ _ _ [-> Hl]]; subst.
  by apply collapsed_hash.
Qed.

Lemma sized_value_nil : sized_value [].
Proof. split; [apply bytes_ok_nil|done]. Qed.

Lemma branch_of_ext k cs ov :
  canonical (PBr k cs ov) → sized (PBr k cs ov) → canonical (PBr [] cs ov) ∧ sized (PBr [] cs ov).
Proof. intros (_ & Hc) (_ & Hz). split; by split. Qed.

Lemma inner_step p n :
  match p with
  | PLeaf _ _ => True
  | PBr _ cs _ => Forall (on_child (λ p, ∀ n, hrepr n p → canonical p → sized p → hashes n p)) cs
  end →
  is_inner n → hrepr n p → canonical p → sized p → hash_step n p.
Proof.
  intros IH Hi Hr Hc Hz. destruct Hr as [k v fl Hf|ns vn fl cs ov|k n fl cs ov Hk Hn|]; [..|done].
  - by apply hash_step_leaf.
  - by apply hash_step_branch.
  - apply hash_step_ext; [done..|]. destruct (branch_of_ext k cs ov Hc Hz) as [Hc' Hz'].
    inversion Hn as [|ns vn fl' ? ? ? ? ? | |]; subst; [|done|by apply hashes_hash].
    apply hash_step_hashes; try done. by apply hash_step_branch.
Qed.

Lemma hash_spec p : ∀ n, hrepr n p → canonical p → sized p → hashes n p.
Proof.
  induction p as [k v|k cs ov IH] using pt_ind'; intros n Hr Hc Hz.
  all: assert (is_inner n ∨ ∃ h, n = hashNode h) as [Hi|[h ->]]
    by (destruct Hr; [by left..|right; by eexists]).
  all: try (by apply hashes_hash).
  all: apply hash_step_hashes; try done; by apply inner_step.
Qed.

(** ** Root nodes *)

(** The root is hashed whatever its size, so the cached hash of a small root
    is its hash too; the operations give every node that replaces or wraps the
    root a fresh flag. *)
Definition root_repr (n : node) (p : pt) : Prop :=
  hrepr (set_flag n newFlag) p
  ∧ (f_hash (flags_of n) = None ∨ f_hash (flags_of n) = Some (keccak (enc p))).

Definition root_repr_opt (n : node) (op : option pt) : Prop :=
  match op with Some p => root_repr n p | None => n = nilNode end.

Lemma repr_root n op : hrepr_opt n op → root_repr_opt n op.
Proof.
  destruct 1 as [|n p Hr]; [done|]. cbn.
  assert (is_inner n ∨ ∃ h, n = hashNode h) as [Hi|[h ->]]
    by (destruct Hr; [by left..|right; by eexists]).
  - split; [apply hrepr_set_flag; try done; apply newFlag_ok|].
    destruct (hrepr_flag n p Hi Hr) as [->|[-> _]]; [by left|by right].
  - split; [done|by left].
Qed.

Lemma hash_root n p :
  root_repr n p → canonical p → sized p →
  ∃ n', hash n true = (hashNode (keccak (enc p)), n') ∧ root_repr n' p.
Proof.
  intros [Hr Hf] Hc Hz.
  assert (is_inner n ∨ ∃ h, n = hashNode h) as [Hi|[h ->]].
  { destruct n; try (by left); inversion Hr; right; by eexists. }
  - assert (hash_step n p) as [Hs].
    { assert (is_inner (set_flag n newFlag)) as Hi' by (by destruct n).
      destruct (inner_step p (set_flag n newFlag)) as [Hs]; try done.
      { destruct p; [done|]. apply Forall_true. intros [c|]; [exact (hash_spec c)|done]. }
      split. intros fl force E. destruct (Hs fl force E) as (c & b & H). exists c, b. by destruct n. }
    destruct (f_hash (flags_of n)) as [h|] eqn:Ef.
    + destruct Hf as [|Hf]; [done|]. injection Hf as ->. exists n. split.
      * destruct n; try done; cbn in *; by rewrite Ef.
      * split; [done|by right].
    + destruct (Hs (flags_of n) true Ef) as (c & b & Hcol & Hic & Hib & Hb & E).
      rewrite set_flag_id, (toHash_spec c p true Hcol Hc Hz), andb_false_r in E.
      eexists. split; [exact E|]. split; [|right; by destruct b].
      destruct b; try done; cbn [set_flag]; by apply (hrepr_set_flag _ newFlag _ Hib Hb (newFlag_ok _)).
  - exists (hashNode h). cbn in Hr. destruct (hashes_hash h p Hr) as [_ _].
    inversion Hr as [| | |? ? ? _ _ _ [-> Hl]]; subst. split; [done|]. by split; [|left].
Qed.

Lemma set_flag_cost n fl l : cost (set_flag n fl) l = cost n l.
Proof. by destruct n. Qed.

Lemma not_inner_flag n : ¬ is_inner n → set_flag n newFlag = n.
Proof. by destruct n. Qed.

Lemma insert_root fuel n prefix key value :
  is_inner n →
  insert db_node fuel n prefix key value =
    match insert db_node fuel (set_flag n newFlag) prefix key value with
    | Ok (false, _) => Ok (false, n)
    | r => r
    end.
Proof.
  intros Hi. destruct fuel as [|fuel]; [done|].
  destruct n as [|cs fl|k v fl| |]; try done; cbn [set_flag insert]; destruct key as [|x key]; try done.
  - destruct (cs !! Z.to_nat x) as [c|]; [|done].
    by destruct (insert _ _ c _ _ _) as [[[] ?]|].
  - case_match; [by destruct (insert _ _ v _ _ _) as [[[] ?]|]|].
    set (j := prefixLen (x :: key) k). destruct (k !! j), ((x :: key) !! j); try done.
    destruct (insert _ _ nilNode _ _ v) as [[? ?]|]; [|done]. cbn.
    destruct (insert _ _ nilNode _ _ value) as [[? ?]|]; [|done]. cbn. by case_match.
Qed.

Lemma reduce_full_dirty prefix cs b n : reduce_full db_node prefix cs = Ok (b, n) → b = true.
Proof.
  unfold reduce_full. case_match; [|by intros [= <-]]. case_match; [|done].
  case_match; [|by intros [= <-]]. destruct (resolve _ _ _); [|done]. cbn.
  case_match; by intros [= <-].
Qed.

Lemma delete_root fuel n prefix key :
  is_inner n →
  delete db_node fuel n prefix key =
    match delete db_node fuel (set_flag n newFlag) prefix key with
    | Ok (false, _) => Ok (false, n)
    | r => r
    end.
Proof.
  intros Hi. destruct fuel as [|fuel]; [done|].
  destruct n as [|cs fl|k v fl| |]; try done; cbn [set_flag delete].
  - destruct key as [|x key]; [done|]. destruct (cs !! Z.to_nat x) as [c|]; [|done].
    destruct (delete _ _ c _ _) as [[[] n']|]; [|done..]. cbn.
    destruct (reduce_full _ _ _) as [[b m]|] eqn:E; [|done].
    by apply reduce_full_dirty in E as ->.
  - case_match; [done|]. case_match; [done|].
    destruct (delete _ _ v _ _) as [[[] n']|]; [|done..]. cbn. by case_match.
Qed.

Lemma tryGet_root fuel n key pos :
  is_inner n →
  tryGet db_node fuel n key pos =
    match tryGet db_node fuel (set_flag n newFlag) key pos with
    | Ok (v, n', did) => Ok (v, set_flag n' (flags_of n), did)
    | Err e => Err e
    end.
Proof.
  intros Hi. destruct fuel as [|fuel]; [done|].
  destruct n as [|cs fl|k v fl| |]; try done; cbn [set_flag tryGet flags_of].
  - destruct (key !! pos) as [x|]; [|done]. destruct (cs !! Z.to_nat x) as [c|]; [|done].
    by destruct (tryGet _ _ c _ _) as [[[? ?] []]|].
  - case_match; [done|]. by destruct (tryGet _ _ v _ _) as [[[? ?] []]|].
Qed.

(** The root representation in terms of the representation of the root
    without its cached hash. *)
Lemma root_repr_base n op : root_repr_opt n op → hrepr_opt (set_flag n newFlag) op.
Proof. destruct op as [p|]; [intros [H _]; by constructor|]. intros ->. constructor. Qed.

Lemma root_insert fuel n op path v :
  root_repr_opt n op → canonical_root op → nibbles_ok path → (cost n (length path) ≤ fuel)%nat →
  ∃ d n', insert db_node fuel n [] (path ++ [16]) (valueNode v) = Ok (d, n')
    ∧ root_repr_opt n' (Some (insert_ op path v)).
Proof.
  intros Hr Hc Hp Hf. pose proof (root_repr_base n op Hr) as Hb.
  destruct (insert_spec db_node flag_ok ref_ok newFlag_ok fuel (set_flag n newFlag) op [] path v)
    as (d & n' & E & Hr' & Hd); [done..|by rewrite set_flag_cost|].
  assert (root_repr_opt n' (Some (insert_ op path v))) as Ht by (by apply repr_root; constructor).
  destruct (decide (is_inner n)) as [Hi|Hi].
  - rewrite insert_root, E by done. destruct d; do 2 eexists; (split; [done|]); [done|].
    by rewrite <- Hd.
  - rewrite not_inner_flag in E by done. eauto.
Qed.

Lemma root_delete fuel n op path :
  root_repr_opt n op → canonical_root op → nibbles_ok path → (cost n (length path) ≤ fuel)%nat →
  ∃ d n', delete db_node fuel n [] (path ++ [16]) = Ok (d, n') ∧ root_repr_opt n' (delete_ op path).
Proof.
  intros Hr Hc Hp Hf. pose proof (root_repr_base n op Hr) as Hb.
  destruct (delete_spec db_node flag_ok ref_ok newFlag_ok fuel (set_flag n newFlag) op path) with (prefix := @nil Z)
    as (d & n' & E & Hr' & Hd & _); [done..|by rewrite set_flag_cost|].
  apply repr_root in Hr'. destruct (decide (is_inner n)) as [Hi|Hi].
  - rewrite delete_root, E by done. destruct d; do 2 eexists; (split; [done|]); [done|].
    by rewrite Hd.
  - rewrite not_inner_flag in E by done. eauto.
Qed.

Lemma root_tryGet fuel n op path :
  root_repr_opt n op → canonical_root op → nibbles_ok path → (cost n (length path) ≤ fuel)%nat →
  ∃ n' did, tryGet db_node fuel n (path ++ [16]) 0 = Ok (get op path, n', did) ∧ root_repr_opt n' op.
Proof.
  intros Hr Hc Hp Hf. pose proof (root_repr_base n op Hr) as Hb.
  destruct (tryGet_spec db_node flag_ok ref_ok fuel (set_flag n newFlag) op [] path)
    as (n' & did & E & Hr'); [done..|by rewrite set_flag_cost|]. cbn [app length] in E.
  destruct (decide (is_inner n)) as [Hi|Hi].
  - rewrite tryGet_root, E by done. do 2 eexists. split; [done|].
    destruct Hr' as [|n' p Hr']; [done|]. destruct Hr as [_ Hfl].
    destruct (decide (is_inner n')) as [Hi'|Hi'].
    + split; [|by destruct n'].
      replace (set_flag _ newFlag) with (set_flag n' newFlag) by (by destruct n').
      by apply hrepr_set_flag, newFlag_ok.
    + replace (set_flag n' (flags_of n)) with n' by (by destruct n').
      by apply repr_root; constructor.
  - rewrite not_inner_flag in E by done. do 2 eexists. split; [done|]. by apply repr_root.
Qed.

(** ** Contents *)

(** Maps as the trie stores them: byte strings of bounded length, no empty
    values. *)
Definition entry_ok (key v : bytes) : Prop :=
  bytes_ok key ∧ len key < 2 ^ 59 ∧ v ≠ [] ∧ sized_value v.

Definition map_ok (m : gmap bytes bytes) : Prop := map_Forall entry_ok m.

Lemma map_ok_update m key v :
  map_ok m → bytes_ok key → len key < 2 ^ 59 → sized_value v →
  map_ok (if bool_decide (v = []) then base.delete key m else <[key := v]> m).
Proof.
  intros Hm Hk Hl Hv. case_bool_decide.
  - by apply map_Forall_delete.
  - by apply map_Forall_insert_2.
Qed.

Lemma sized_keyed p :
  canonical p →
  (∀ path v, nibbles_ok path → pget p path = Some v → len path < 2 ^ 60 ∧ sized_value v) →
  sized p.
Proof.
  induction p as [k v|k cs ov IH] using pt_ind'; intros Hc Hp.
  - destruct Hc as [Hk _]. apply Hp; [done|]. cbn. by rewrite bool_decide_true.
  - pose proof Hc as (Hk & Hl & _ & _ & Hcs). cbn [sized]. split; [|split].
    + destruct (canonical_keyed _ Hc) as (path & Hn & Hne).
      destruct (pget (PBr k cs ov) path) as [v|] eqn:E; [|done].
      destruct (Hp path v Hn E) as [Hlen _]. rewrite pget_br in E.
      destruct (strip k path) as [r|] eqn:Es; [|done].
      apply strip_some in Es as ->. rewrite length_app in Hlen. lia.
    + destruct ov as [v|]; [|apply sized_value_nil]. apply (Hp k v Hk).
      rewrite pget_br, (proj2 (strip_some k k [])) by (by rewrite app_nil_r). done.
    + rewrite all_children_Forall in *. rewrite Forall_lookup in *. intros i oc Hi.
      specialize (IH i oc Hi). specialize (Hcs i oc Hi). destruct oc as [c|]; [|done].
      cbn [on_child] in *. apply IH; [done|]. intros path v Hn E. apply lookup_lt_Some in Hi as Hlt.
      destruct (Hp (k ++ Z.of_nat i :: path) v) as [Hlen Hv].
      * apply nibbles_ok_app. split; [done|]. apply nibbles_ok_cons. unfold is_nibble. split; [lia|done].
      * rewrite pget_br, (proj2 (strip_some k _ (Z.of_nat i :: path))) by done.
        unfold child. by rewrite Nat2Z.id, Hi.
      * split; [|done]. rewrite length_app in Hlen. cbn in Hlen. lia.
Qed.

Lemma tree_map_sized p m : canonical p → tree_map (Some p) m → map_ok m → sized p.
Proof.
  intros Hc Hm Hok. apply sized_keyed; [done|]. intros path v Hn E.
  apply Hm in E as (key & Hk & -> & E); [|done]. apply Hok in E as (_ & Hl & _ & Hv).
  split; [|done]. rewrite length_nibbles_of. lia.
Qed.

Lemma tree_of_ok m : map_ok m → canonical_root (tree_of m) ∧ tree_map (tree_of m) m.
Proof.
  unfold tree_of. apply (map_fold_weak_ind (λ r m, map_ok m → canonical_root r ∧ tree_map r m)).
  - intros _. split; [done|apply tree_map_empty].
  - intros key v m' r Hn IH Hok. apply map_Forall_insert_1_1 in Hok as Hkv.
    destruct Hkv as (Hk & _ & Hv & _).
    destruct IH as [Hc Hm]; [by eapply map_Forall_insert_1_2|].
    split; [apply insert_canonical; try done; by apply nibbles_of_ok|by apply tree_map_insert].
Qed.

(** [hash_valid t m]: every node is loaded or in the database, cached hashes
    and hash nodes are true to the tree below them, and the trie holds [m]. *)
Definition hash_valid (t : Trie) (m : gmap bytes bytes) : Prop :=
  map_ok m ∧ ∃ op, root_repr_opt (root t) op ∧ canonical_root op ∧ tree_map op m.

Lemma Hash_ok t m :
  hash_valid t m → ∃ t', Hash t = Some (merkle_root m, t') ∧ hash_valid t' m.
Proof.
  intros (Hok & op & Hr & Hc & Hm). destruct (tree_of_ok m Hok) as [Hc' Hm'].
  assert (tree_of m = op) as Et by (by eapply holds_same_tree).
  unfold Hash, merkle_root. rewrite Et. destruct op as [p|].
  - destruct (hash_root (root t) p Hr Hc) as (n' & E & Hr'); [by eapply tree_map_sized|].
    assert (root t ≠ nilNode) as Hne.
    { intros En. destruct Hr as [Hr _]. rewrite En in Hr. inversion Hr. }
    exists (MkTrie n' 0). split.
    + destruct (root t); try done; rewrite E, BytesToHash_32; done.
    + split; [done|]. by exists (Some p).
  - cbn in Hr. rewrite Hr. eexists. split; [done|]. split; [done|]. by exists None.
Qed.

Lemma TryGet_valid t m key :
  hash_valid t m → bytes_ok key →
  ∃ t', TryGet db_node key t = (Ok (m !! key), t') ∧ hash_valid t' m.
Proof.
  intros (Hok & op & Hr & Hc & Hm) Hk. unfold TryGet.
  destruct (root_tryGet (key_fuel (keybytesToHex key)) (root t) op (nibbles_of key))
    as (n' & did & E & Hr'); [done|done|by apply nibbles_of_ok|apply key_cost|].
  change (nibbles_of key ++ [16]) with (keybytesToHex key) in E. rewrite E.
  rewrite (tree_map_get op m key) by done.
  destruct did; eexists; (split; [done|]); (split; [done|]); by exists op.
Qed.

Lemma TryUpdate_valid t m key value :
  hash_valid t m → bytes_ok key → len key < 2 ^ 59 → sized_value value →
  ∃ t', TryUpdate db_node key value t = (Ok tt, t')
    ∧ hash_valid t' (if bool_decide (value = []) then base.delete key m else <[key := value]> m).
Proof.
  intros (Hok & op & Hr & Hc & Hm) Hk Hl Hv. unfold TryUpdate. cbn [root unhashed].
  pose proof (nibbles_of_ok key Hk) as Hn. pose proof (map_ok_update m key value Hok Hk Hl Hv) as Hok'.
  case_bool_decide as Hve.
  - subst value. cbn [length Z.of_nat Z.eqb negb].
    destruct (root_delete (key_fuel (keybytesToHex key)) (root t) op (nibbles_of key) Hr Hc Hn
      (key_cost _ _)) as (d & n' & E & Hr').
    change (nibbles_of key ++ [16]) with (keybytesToHex key) in E. rewrite E.
    eexists. split; [done|]. split; [done|]. eexists. split; [exact Hr'|].
    split; [by apply delete_canonical|by apply tree_map_delete].
  - replace (len value =? 0) with false by (destruct value; [done|cbn; lia]). cbn [negb].
    destruct (root_insert (key_fuel (keybytesToHex key)) (root t) op (nibbles_of key) value Hr Hc Hn
      (key_cost _ _)) as (d & n' & E & Hr').
    change (nibbles_of key ++ [16]) with (keybytesToHex key) in E. rewrite E.
    eexists. split; [done|]. split; [done|]. eexists (Some _). split; [exact Hr'|].
    split; [by apply insert_canonical|by apply tree_map_insert].
Qed.

Lemma TryDelete_update key t : TryDelete db_node key t = TryUpdate db_node key [] t.
Proof. done. Qed.

(** ** Histories *)

Inductive trie_op :=
| OpGet (key : bytes)
| OpUpdate (key value : bytes)
| OpDelete (key : bytes)
| OpHash.

Definition op_ok (o : trie_op) : Prop :=
  match o with
  | OpGet key => bytes_ok key
  | OpUpdate key value => bytes_ok key ∧ len key < 2 ^ 59 ∧ sized_value value
  | OpDelete key => bytes_ok key ∧ len key < 2 ^ 59
  | OpHash => True
  end.

(** One operation on the trie, [None] if it fails. *)
Definition do_op (o : trie_op) (t : Trie) : option Trie :=
  match o with
  | OpGet key => match TryGet db_node key t with (Ok _, t') => Some t' | _ => None end
  | OpUpdate key value => match TryUpdate db_node key value t with (Ok _, t') => Some t' | _ => None end
  | OpDelete key => match TryDelete db_node key t with (Ok _, t') => Some t' | _ => None end
  | OpHash => snd <$> Hash t
  end.

Definition map_op (o : trie_op) (m : gmap bytes bytes) : gmap bytes bytes :=
  match o with
  | OpUpdate key [] | OpDelete key => base.delete key m
  | OpUpdate key value => <[key := value]> m
  | OpGet _ | OpHash => m
  end.

Fixpoint do_ops (os : list trie_op) (t : Trie) : option Trie :=
  match os with
  | [] => Some t
  | o :: os => match do_op o t with Some t' => do_ops os t' | None => None end
  end.

Fixpoint map_ops (os : list trie_op) (m : gmap bytes bytes) : gmap bytes bytes :=
  match os with
  | [] => m
  | o :: os => map_ops os (map_op o m)
  end.

Lemma do_op_valid o t m :
  hash_valid t m → op_ok o → ∃ t', do_op o t = Some t' ∧ hash_valid t' (map_op o m).
Proof.
  intros Hv Ho. destruct o as [key|key v|key|]; cbn [op_ok do_op map_op] in *.
  - destruct (TryGet_valid t m key Hv Ho) as (t' & -> & H). eauto.
  - destruct Ho as (Hk & Hl & Hs). destruct (TryUpdate_valid t m key v Hv Hk Hl Hs) as (t' & -> & H).
    eexists. split; [done|]. by destruct v.
  - destruct Ho as (Hk & Hl). rewrite TryDelete_update.
    destruct (TryUpdate_valid t m key [] Hv Hk Hl sized_value_nil) as (t' & -> & H). eauto.
  - destruct (Hash_ok t m Hv) as (t' & -> & H). cbn. eauto.
Qed.

Lemma do_ops_valid os t m :
  hash_valid t m → Forall op_ok os → ∃ t', do_ops os t = Some t' ∧ hash_valid t' (map_ops os m).
Proof.
  intros Hv Hos. revert t m Hv. induction Hos as [|o os Ho Hos IH]; intros t m Hv; [by exists t|].
  cbn [do_ops map_ops]. destruct (do_op_valid o t m Hv Ho) as (t' & -> & Hv'). by apply IH.
Qed.

Lemma hash_valid_empty u : hash_valid (MkTrie nilNode u) ∅.
Proof.
  split; [apply map_Forall_empty|]. exists None. split; [done|]. split; [done|apply tree_map_empty].
Qed.
End hasher.

(** ** Properties *)

(** C3: The root hash is a function of the contents.  From a trie whose cached
    hashes are true to its nodes, any sequence of lookups, updates, deletions
    and hashings succeeds, whatever parts of the trie are loaded, and the
    resulting trie hashes to the Merkle root of the map the sequence leaves
    behind, with no trace of the order of the operations or of earlier
    hashings. *)
Theorem Hash_merkle_root (keccak : bytes → bytes) (db : bytes → option node) (t : Trie)
    (m : gmap bytes bytes) (os : list trie_op) :
  (∀ b, length (keccak b) = 32%nat) → (∀ b, bytes_ok (keccak b)) →
  hash_valid keccak db t m → Forall op_ok os →
  ∃ t' t'', do_ops keccak db os t = Some t'
    ∧ Hash keccak t' = Some (merkle_root keccak (map_ops os m), t'')
    ∧ hash_valid keccak db t'' (map_ops os m).
Proof.
  intros Hl Hb Hv Hos. destruct (do_ops_valid keccak Hl Hb db os t m Hv Hos) as (t' & Ht & Hv').
  destruct (Hash_ok keccak Hl Hb db t' _ Hv') as (t'' & Hh & Hv''). by exists t', t''.
Qed.

(** Three updates with a hashing in between, and a deletion; the digest is the
    length of the input in 32 bytes. *)
Definition toy_digest (b : bytes) : bytes := replicate 31 0 ++ [len b `mod` 256].

Lemma toy_digest_ok b : bytes_ok (toy_digest b).
Proof.
  apply bytes_ok_app. split; [apply Forall_replicate; unfold is_byte; lia|].
  constructor; [|constructor]. unfold is_byte. pose proof (Z.mod_pos_bound (len b) 256). lia.
Qed.

Lemma Hash_merkle_root_witness :
  let os := [OpUpdate [1; 2] [7]; OpHash; OpUpdate [1; 3] [8; 8]; OpUpdate [1] [9]; OpHash;
             OpDelete [1; 3]; OpGet [1; 2]] in
  ∃ t' t'', do_ops toy_digest (λ _, None) os (MkTrie nilNode 0) = Some t'
    ∧ Hash toy_digest t' = Some (merkle_root toy_digest (map_ops os ∅), t'')
    ∧ hash_valid toy_digest (λ _, None) t'' (map_ops os ∅).
Proof.
  intros os. apply (Hash_merkle_root toy_digest (λ _, None) (MkTrie nilNode 0) ∅ os).
  - done.
  - apply toy_digest_ok.
  - apply hash_valid_empty.
  - repeat constructor; unfold is_byte; cbn; lia.
Defined.
