(* ===== verification/TrieDecode.v ===== *)
(** * Decoding of stored nodes (src/trie/node.go, [decodeNode])

    The parser of stored trie nodes.  The theorems show that it inverts the
    encoding of the hasher: over a store that holds the encodings of the large
    nodes of a tree under their hashes, opening the root hash gives a trie with
    the contents of the tree whose caches are true, so every theorem of [Trie]
    and [TrieHash] applies to it. *)
From stdpp Require Import pretty.
From S2P Require Import Prelude RlpEncode RlpRaw TrieEncoding TrieSpec Trie TrieHash.
Local Open Scope Z_scope.

(** ** Definitions *)

(** The errors, by the message that the code formats; [decodeError] carries the
    path to the invalid child. *)
Inductive node_error :=
| UnexpectedEOF
| DecodeError (e : rlp_error)
| InvalidElems (c : Z)
| InvalidValue (e : rlp_error)
| RlpError (e : rlp_error)
| Oversized (size : Z)
| InvalidSize (size : Z)
| decodeError (what : node_error) (stack : list string)
| NodeFuel.

Definition wrapError (err : node_error) (ctx : string) : node_error :=
  match err with
  | decodeError what stack => decodeError what (stack ++ [ctx])
  | _ => decodeError err [ctx]
  end.

Definition wrap {A} (ctx : string) (r : result node_error A) : result node_error A :=
  match r with Ok a => Ok a | Err e => Err (wrapError e ctx) end.

Definition rlp_err {A} (f : rlp_error → node_error) (r : result rlp_error A) : result node_error A :=
  match r with Ok a => Ok a | Err e => Err (f e) end.

Definition hashLen : Z := 32.

(** The context of child [i] in a full node. *)
Definition child_ctx (i : nat) : string := ("[" +:+ pretty i +:+ "]")%string.

Definition decodeShort (decodeRef : bytes → result node_error (node * bytes))
    (hash : option bytes) (elems : bytes) : result node_error node :=
  '(kbuf, rest) ← rlp_err RlpError (SplitString elems);
  let flag := MkFlag hash false in
  let key := compactToHex kbuf in
  if hasTerm key then
    '(val, _) ← rlp_err InvalidValue (SplitString rest);
    Ok (shortNode key (valueNode val) flag)
  else
    '(r, _) ← wrap "val" (decodeRef rest);
    Ok (shortNode key r flag).

(** Children [i], [i + 1], ..., [n] of them. *)
Fixpoint decodeChildren (decodeRef : bytes → result node_error (node * bytes))
    (n i : nat) (elems : bytes) : result node_error (list node * bytes) :=
  match n with
  | O => Ok ([], elems)
  | S n =>
      '(cld, rest) ← wrap (child_ctx i) (decodeRef elems);
      '(cs, rest) ← decodeChildren decodeRef n (S i) rest;
      Ok (cld :: cs, rest)
  end.

Definition decodeFull (decodeRef : bytes → result node_error (node * bytes))
    (hash : option bytes) (elems : bytes) : result node_error node :=
  '(cs, elems) ← decodeChildren decodeRef 16 0 elems;
  '(val, _) ← rlp_err RlpError (SplitString elems);
  Ok (fullNode (cs ++ [if 0 <? len val then valueNode val else nilNode]) (MkFlag hash false)).

(** A reference: an embedded node, nothing, or a hash. *)
Definition decodeRef (decodeNode : option bytes → bytes → result node_error node) (buf : bytes)
    : result node_error (node * bytes) :=
  '(kind, val, rest) ← rlp_err RlpError (Split buf);
  if decide (kind = KList) then
    let size := len buf - len rest in
    if hashLen <? size then Err (Oversized size)
    else n ← decodeNode None buf; Ok (n, rest)
  else if bool_decide (kind = KString) && (len val =? 0) then Ok (nilNode, rest)
  else if bool_decide (kind = KString) && (len val =? 32) then Ok (hashNode val, rest)
  else Err (InvalidSize (len val)).

(** [decodeNode] and [decodeRef] call each other; an embedded node is shorter
    than the node around it, so the length of the buffer is enough fuel. *)
Fixpoint decodeNode_ (fuel : nat) (hash : option bytes) (buf : bytes) : result node_error node :=
  match fuel with
  | O => Err NodeFuel
  | S fuel =>
      if len buf =? 0 then Err UnexpectedEOF
      else
        '(elems, _) ← rlp_err DecodeError (SplitList buf);
        let c := match CountValues elems with Ok c => c | Err _ => 0 end in
        if c =? 2 then wrap "short" (decodeShort (decodeRef (decodeNode_ fuel)) hash elems)
        else if c =? 17 then wrap "full" (decodeFull (decodeRef (decodeNode_ fuel)) hash elems)
        else Err (InvalidElems c)
  end.

Definition decodeNode (hash : option bytes) (buf : bytes) : result node_error node :=
  decodeNode_ (S (length buf)) hash buf.

(** A store of encoded nodes by hash, read as [mustDecodeNode] reads it; a
    node that does not decode is a panic in the code, a missing node here. *)
Definition mustDecodeNode (store : bytes → option bytes) (hash : bytes) : option node :=
  match store hash with
  | Some buf => match decodeNode (Some hash) buf with Ok n => Some n | Err _ => None end
  | None => None
  end.

(** ** Lemmas: termination *)

Fixpoint fuel_error (e : node_error) : bool :=
  match e with
  | NodeFuel => true
  | decodeError what _ => fuel_error what
  | _ => false
  end.

(** The result is not a lack of fuel. *)
Definition ends {A} (r : result node_error A) : Prop :=
  match r with Ok _ => True | Err e => fuel_error e = false end.

Lemma wrapError_ends e ctx : fuel_error e = false → fuel_error (wrapError e ctx) = false.
Proof. by destruct e. Qed.

Lemma wrap_ends {A} ctx (r : result node_error A) : ends r → ends (wrap ctx r).
Proof. by destruct r as [|[]]. Qed.

Lemma SplitList_inv b content rest :
  bytes_ok b → SplitList b = Ok (content, rest) →
  b = rlp_list content ++ rest ∧ bytes_ok content ∧ (length content < length b)%nat.
Proof.
  intros Hok. unfold SplitList. destruct (Split b) as [[[k c] r]|] eqn:E; [|done]. cbn.
  destruct (decide (k = KList)) as [->|]; [|done]. intros [= -> ->].
  destruct (Split_inv _ _ _ _ Hok E) as (-> & Hk & _). split; [done|].
  pose proof (encode_kind_content_ok KList content rest Hk Hok) as [? _]%bytes_ok_app.
  split; [done|]. unfold encode_kind, rlp_list, rlp_head. rewrite !length_app.
  case_if; cbn [length]; lia.
Qed.

Lemma decodeRef_ends dec fuel buf :
  (∀ hash b, bytes_ok b → (length b < fuel)%nat → ends (dec hash b)) →
  bytes_ok buf → (length buf < fuel)%nat →
  ends (decodeRef dec buf)
  ∧ ∀ n rest, decodeRef dec buf = Ok (n, rest) → bytes_ok rest ∧ (length rest ≤ length buf)%nat.
Proof.
  intros Hd Hok Hl. unfold decodeRef.
  destruct (Split buf) as [[[k val] rest]|] eqn:E; [|done]. cbn.
  destruct (Split_inv _ _ _ _ Hok E) as (Eb & Hk & _).
  assert (bytes_ok rest ∧ (length rest ≤ length buf)%nat) as Hr.
  { pose proof Hok as Hok'. rewrite Eb in Hok'. apply bytes_ok_app in Hok' as [_ Hok'].
    split; [done|]. rewrite Eb, length_app. lia. }
  clear Eb. specialize (Hd None buf Hok Hl). repeat case_match; simplify_eq; try done.
  all: try (destruct (dec None buf); cbn in *; [|done]).
  all: split; [done|]; intros ?? ?; by simplify_eq.
Qed.

Lemma decodeChildren_ends dec fuel n i elems :
  (∀ hash b, bytes_ok b → (length b < fuel)%nat → ends (dec hash b)) →
  bytes_ok elems → (length elems < fuel)%nat →
  ends (decodeChildren (decodeRef dec) n i elems).
Proof.
  intros Hd. revert i elems. induction n as [|n IH]; intros i elems Hok Hl; [done|]. cbn [decodeChildren].
  destruct (decodeRef_ends dec fuel elems Hd Hok Hl) as [He Hr].
  destruct (decodeRef dec elems) as [[c rest]|e]; [|by apply wrapError_ends].
  destruct (Hr c rest eq_refl) as [Hokr Hlr]. cbn.
  specialize (IH (S i) rest Hokr ltac:(lia)).
  by destruct (decodeChildren _ n (S i) rest) as [[? ?]|].
Qed.

Lemma decodeShort_ends dec fuel hash elems :
  (∀ hash b, bytes_ok b → (length b < fuel)%nat → ends (dec hash b)) →
  bytes_ok elems → (length elems < fuel)%nat →
  ends (decodeShort (decodeRef dec) hash elems).
Proof.
  intros Hd Hok Hl. unfold decodeShort.
  destruct (SplitString elems) as [[kbuf rest]|] eqn:E; [|done]. cbn.
  destruct (SplitString_inv _ _ _ Hok E) as (Eb & _ & _).
  assert (bytes_ok rest ∧ (length rest ≤ length elems)%nat) as [Hokr Hlr].
  { rewrite Eb in Hok. apply bytes_ok_app in Hok as [_ Hok]. split; [done|].
    rewrite Eb, length_app. lia. }
  case_if; [by destruct (SplitString rest) as [[? ?]|]|].
  destruct (decodeRef_ends dec fuel rest Hd Hokr ltac:(lia)) as [He _].
  destruct (decodeRef dec rest) as [[c rest']|e]; [done|]. by apply wrapError_ends.
Qed.

Lemma decodeFull_ends dec fuel hash elems :
  (∀ hash b, bytes_ok b → (length b < fuel)%nat → ends (dec hash b)) →
  bytes_ok elems → (length elems < fuel)%nat →
  ends (decodeFull (decodeRef dec) hash elems).
Proof.
  intros Hd Hok Hl. unfold decodeFull.
  pose proof (decodeChildren_ends dec fuel 16 0 elems Hd Hok Hl) as He.
  destruct (decodeChildren _ 16 0 elems) as [[cs rest']|]; [|done]. cbn.
  by destruct (SplitString rest') as [[? ?]|].
Qed.

Lemma decodeNode_ends fuel hash buf :
  bytes_ok buf → (length buf < fuel)%nat → ends (decodeNode_ fuel hash buf).
Proof.
  revert hash buf. induction fuel as [|fuel IH]; intros hash buf Hok Hl; [lia|]. cbn [decodeNode_].
  case_if; [done|]. destruct (SplitList buf) as [[elems rest]|] eqn:E; [|done].
  destruct (SplitList_inv _ _ _ Hok E) as (_ & Hoke & Hle). cbn [rlp_err mbind result_bind].
  case_if; [|case_if; [|done]]; apply wrap_ends.
  - apply (decodeShort_ends _ fuel); [done..|lia].
  - apply (decodeFull_ends _ fuel); [done..|lia].
Qed.

(** ** Lemmas: the decoder inverts the encoding *)

Lemma Split_list content rest :
  bytes_ok (content ++ rest) → len content < 2 ^ 64 →
  Split (rlp_list content ++ rest) = Ok (KList, content, rest).
Proof. intros Hok Hl. by apply (Split_encode KList). Qed.

Lemma SplitList_encode content rest :
  bytes_ok (content ++ rest) → len content < 2 ^ 64 →
  SplitList (rlp_list content ++ rest) = Ok (content, rest).
Proof. intros Hok Hl. unfold SplitList. by rewrite Split_list. Qed.

(** A string of RLP items. *)
Definition item_ok (b : bytes) : Prop :=
  bytes_ok b ∧ ∃ k c, b = encode_kind k c ∧ kind_ok k c ∧ len c < 2 ^ 64.

Lemma string_item c : bytes_ok c → len c < 2 ^ 64 → item_ok (rlp_string c).
Proof.
  intros Hok Hl. split; [by apply rlp_string_ok|]. exists (string_kind c), c.
  split; [apply rlp_string_kind|]. split; [apply string_kind_ok|done].
Qed.

Lemma list_item c : bytes_ok c → len c < 2 ^ 64 → item_ok (rlp_list c).
Proof. intros Hok Hl. split; [by apply rlp_list_ok|]. by exists KList, c. Qed.

Lemma CountValues_items l : Forall item_ok l → CountValues (concat l) = Ok (len l).
Proof.
  intros Hl. assert (∃ kcs, concat l = encode_all kcs ∧ all_ok kcs ∧ length kcs = length l
                     ∧ bytes_ok (concat l)) as (kcs & E & Hok & Hlen & Hb).
  { induction Hl as [|b l [Hb (k & c & -> & Hk & Hc)] _ (kcs & E & Hok & Hlen & Hbs)].
    - exists []. repeat split; [constructor|apply bytes_ok_nil].
    - exists ((k, c) :: kcs). cbn. unfold encode_all in *. cbn. rewrite E. repeat split.
      + by constructor.
      + by rewrite Hlen.
      + rewrite <- E. by apply bytes_ok_app. }
  unfold CountValues. rewrite E in *. rewrite CountValues_loop_encode by done. by rewrite Hlen.
Qed.

Section decoding.
Variable keccak : bytes → bytes.
Hypothesis keccak_length : ∀ b, length (keccak b) = 32%nat.
Hypothesis keccak_bytes : ∀ b, bytes_ok (keccak b).

Variable store : bytes → option bytes.

Notation enc := (enc keccak).
Notation ref_of := (ref_of keccak).
Notation child_ref := (child_ref keccak).
Notation flag_ok := (flag_ok keccak).
Notation srepr := (repr (mustDecodeNode store) flag_ok (ref_ok keccak)).
Notation srepr_list := (repr_list (mustDecodeNode store) flag_ok (ref_ok keccak)).
Notation srepr_opt := (repr_opt (mustDecodeNode store) flag_ok (ref_ok keccak)).

Lemma ref_of_item b : item_ok b → item_ok (ref_of b).
Proof.
  intros Hb. unfold TrieHash.ref_of. case_if; [done|]. apply string_item; [done|].
  rewrite keccak_length. lia.
Qed.

Lemma compact_item path term :
  nibbles_ok path → len path < 2 ^ 60 →
  item_ok (rlp_string (compact (hex_key path term)))
  ∧ bytes_ok (compact (hex_key path term)) ∧ len (compact (hex_key path term)) < 2 ^ 61.
Proof.
  intros Hp Hl. destruct (compact_ok path term Hp) as [Hc Hlc].
  assert (length path / 2 ≤ length path)%nat by (apply Nat.div_le_upper_bound; lia).
  assert (len (compact (hex_key path term)) < 2 ^ 61) by lia.
  split; [|done]. apply string_item; [done|lia].
Qed.

Lemma child_refs_items cs :
  Forall (on_child (λ p, canonical p → sized p → item_ok (enc p))) cs →
  all_children canonical cs → all_children sized cs → Forall item_ok (map child_ref cs).
Proof.
  rewrite !all_children_Forall, !Forall_lookup. intros IH Hc Hz.
  intros i b Hi. apply list_lookup_fmap_Some in Hi as (oc & -> & Hi).
  specialize (IH i oc Hi). specialize (Hc i oc Hi). specialize (Hz i oc Hi).
  destruct oc as [c|]; cbn [on_child] in *; [apply ref_of_item; auto|]. apply (string_item []); [apply bytes_ok_nil|done].
Qed.

Lemma concat_items_ok l : Forall item_ok l → bytes_ok (concat l).
Proof. induction 1 as [|b l [Hb _] _ IH]; [apply bytes_ok_nil|]. cbn. by apply bytes_ok_app. Qed.

Lemma full_item cs ov :
  Forall item_ok (map child_ref cs) → length cs = 16%nat →
  sized_value (match ov with Some v => v | None => [] end) →
  item_ok (enc_full keccak cs ov)
  ∧ bytes_ok (concat (map child_ref cs) ++ rlp_string (match ov with Some v => v | None => [] end))
  ∧ len (concat (map child_ref cs) ++ rlp_string (match ov with Some v => v | None => [] end)) < 2 ^ 64.
Proof.
  intros Hi Hl [Hvb Hvl]. set (v := match ov with Some v => v | None => [] end) in *.
  assert (bytes_ok (concat (map child_ref cs) ++ rlp_string v)) as Hok.
  { apply bytes_ok_app. split; [by apply concat_items_ok|]. apply rlp_string_ok; [done|lia]. }
  assert (len (concat (map child_ref cs) ++ rlp_string v) < 2 ^ 64) as Hlen.
  { pose proof (child_refs_len keccak keccak_length cs). pose proof (rlp_string_ub v).
    rewrite length_app. lia. }
  split; [|done]. by apply list_item.
Qed.

Lemma node_enc_item p : canonical p → sized p → item_ok (enc p).
Proof.
  induction p as [k v|k cs ov IH] using pt_ind'; intros Hc Hz.
  - destruct Hc as [Hk _], Hz as [Hlk [Hvb Hvl]].
    destruct (compact_item k true Hk Hlk) as ([Hcb _] & _ & _). unfold hex_key in Hcb.
    pose proof (compact_string_len k true Hk Hlk) as Hcl. unfold hex_key in Hcl.
    cbn [TrieHash.enc]. apply list_item; [apply bytes_ok_app; split; [done|apply rlp_string_ok; [done|lia]]|].
    pose proof (rlp_string_ub v). rewrite length_app. lia.
  - destruct Hc as (Hk & Hl & _ & _ & Hcs), Hz as (Hlk & Hv & Hz).
    destruct (full_item cs ov (child_refs_items cs IH Hcs Hz) Hl Hv) as [Hf _].
    rewrite enc_br. destruct k as [|x k]; [done|].
    destruct (compact_item (x :: k) false Hk Hlk) as ([Hcb _] & _ & _).
    pose proof (compact_string_len (x :: k) false Hk Hlk) as Hcl. unfold hex_key in Hcb, Hcl.
    rewrite app_nil_r in Hcb, Hcl. destruct (ref_of_item _ Hf) as [Hrb _].
    apply list_item; [by apply bytes_ok_app|].
    pose proof (ref_of_len keccak keccak_length (enc_full keccak cs ov)). rewrite length_app. lia.
Qed.

(** Large nodes are stored under their hashes. *)
Definition stored_node (p : pt) : Prop :=
  32 ≤ len (enc p) → store (keccak (enc p)) = Some (enc p).

Fixpoint stored (p : pt) : Prop :=
  match p with
  | PLeaf _ _ => stored_node p
  | PBr k cs ov => stored_node p ∧ stored_node (PBr [] cs ov) ∧ all_children stored cs
  end.

Definition decodes (p : pt) : Prop :=
  ∀ fuel hash tail, bytes_ok tail → (length (enc p) < fuel)%nat → flag_ok (MkFlag hash false) p →
  ∃ n, decodeNode_ fuel hash (enc p ++ tail) = Ok n ∧ is_inner n ∧ srepr n p.

Lemma compactToHex_compact path term :
  nibbles_ok path → compactToHex (compact (hex_key path term)) = hex_key path term.
Proof.
  intros Hp. destruct (compactToHex_hexToCompact path term Hp) as (c & E & _ & H & _).
  unfold compact. by rewrite E.
Qed.

Lemma enc_list p : ∃ payload, enc p = rlp_list payload.
Proof. destruct p as [k v|[|x k] cs ov]; eexists; [done|by rewrite enc_br|by rewrite enc_br]. Qed.

Lemma ref_of_length b : length (ref_of b) = if len b <? 32 then length b else 33%nat.
Proof.
  unfold TrieHash.ref_of. case_if; [done|]. pose proof (keccak_length b).
  rewrite rlp_string_long by lia. rewrite length_app, H. done.
Qed.

Lemma decodeRef_node p fuel tail :
  canonical p → sized p → stored_node p → decodes p → bytes_ok tail →
  (length (ref_of (enc p)) < fuel)%nat →
  ∃ n, decodeRef (decodeNode_ fuel) (ref_of (enc p) ++ tail) = Ok (n, tail) ∧ srepr n p.
Proof.
  intros Hc Hz Hst Hd Ht Hf. pose proof (node_enc_item p Hc Hz) as [Hb _].
  pose proof (enc_len keccak keccak_length p Hc Hz) as Hlen.
  rewrite ref_of_length in Hf. unfold decodeRef, TrieHash.ref_of. destruct (len (enc p) <? 32) eqn:E; bool_prop.
  - destruct (enc_list p) as [payload Ep].
    destruct (Hd fuel None tail Ht ltac:(done) ltac:(by left)) as (n & Hn & _ & Hr).
    rewrite Ep in *. pose proof (rlp_list_len payload).
    rewrite Split_list; [|by apply (encode_kind_content_ok KList); [|apply bytes_ok_app]|lia]. cbn.
    replace (hashLen <? _) with false.
    + rewrite Hn. cbn. eauto.
    + rewrite length_app. unfold hashLen. lia.
  - assert (len (keccak (enc p)) = 32) as Hk by (by rewrite keccak_length).
    change (rlp_string (keccak (enc p))) with (encode_kind KString (keccak (enc p))).
    rewrite Split_encode; [|by apply bytes_ok_app| |lia].
    2: { intros b Hb'. by rewrite Hb' in Hk. }
    cbn. rewrite Hk. cbn. eexists. split; [done|].
    destruct (Hd (S (length (enc p))) (Some (keccak (enc p))) []) as (n & Hn & Hi & Hr);
      [apply bytes_ok_nil|lia|right; split; [done|lia]|]. rewrite app_nil_r in Hn.
    eapply R_hash; [|exact Hi|exact Hr|split; [done|lia]].
    rewrite BytesToHash_32 by done. unfold mustDecodeNode, decodeNode.
    rewrite Hst by lia. by rewrite Hn.
Qed.

Lemma length_concat_in (b : bytes) (l : list bytes) : b ∈ l → (length b ≤ length (concat l))%nat.
Proof.
  induction l as [|a l IH]; [by intros ?%elem_of_nil|].
  rewrite elem_of_cons. cbn. rewrite length_app. intros [->|H]; [lia|]. specialize (IH H). lia.
Qed.

Lemma decodeChildren_node cs fuel i tail :
  Forall (on_child (λ p, canonical p ∧ sized p ∧ stored_node p ∧ decodes p)) cs →
  bytes_ok tail → (length (concat (map child_ref cs)) < fuel)%nat →
  ∃ ns, decodeChildren (decodeRef (decodeNode_ fuel)) (length cs) i (concat (map child_ref cs) ++ tail)
        = Ok (ns, tail) ∧ srepr_list ns cs.
Proof.
  intros H Ht. revert i. induction H as [|oc cs Hoc Hcs IH]; intros i Hf.
  { exists []. split; [done|constructor]. }
  cbn [map concat length decodeChildren] in *. rewrite length_app in Hf. rewrite <- app_assoc.
  destruct (IH (S i)) as (ns & Hns & Hr); [lia|].
  assert (∃ n, decodeRef (decodeNode_ fuel) (child_ref oc ++ concat (map child_ref cs) ++ tail)
               = Ok (n, concat (map child_ref cs) ++ tail) ∧ srepr_opt n oc) as (n & Hn & Hro).
  { assert (bytes_ok (concat (map child_ref cs) ++ tail)) as Hok.
    { apply bytes_ok_app. split; [|done]. apply concat_items_ok.
      rewrite Forall_lookup in Hcs. apply Forall_lookup. intros j b Hj.
      apply list_lookup_fmap_Some in Hj as (oc' & -> & Hj). specialize (Hcs j oc' Hj).
      destruct oc' as [c|]; [|apply (string_item []); [apply bytes_ok_nil|done]].
      destruct Hcs as (? & ? & _). by apply ref_of_item, node_enc_item. }
    destruct oc as [c|].
    - destruct Hoc as (Hc & Hz & Hst & Hd).
      destruct (decodeRef_node c fuel (concat (map child_ref cs) ++ tail)) as (n & Hn & Hrn); try done.
      { cbn [TrieHash.child_ref] in Hf. lia. }
      exists n. split; [done|by constructor].
    - exists nilNode. split; [|constructor]. unfold decodeRef.
      change (child_ref None) with (encode_kind KString []).
      by rewrite Split_encode. }
  rewrite Hn. cbn. rewrite Hns. cbn. eexists. split; [done|]. by constructor.
Qed.

Lemma decodeNode_items fuel hash items tail :
  Forall item_ok items → len (concat items) < 2 ^ 64 → bytes_ok tail →
  decodeNode_ (S fuel) hash (rlp_list (concat items) ++ tail) =
    if len items =? 2 then wrap "short" (decodeShort (decodeRef (decodeNode_ fuel)) hash (concat items))
    else if len items =? 17 then wrap "full" (decodeFull (decodeRef (decodeNode_ fuel)) hash (concat items))
    else Err (InvalidElems (len items)).
Proof.
  intros Hi Hl Ht. cbn [decodeNode_].
  replace (len (rlp_list (concat items) ++ tail) =? 0) with false.
  - rewrite SplitList_encode by (done || (apply bytes_ok_app; split; [by apply concat_items_ok|done])).
    cbn [rlp_err mbind result_bind]. by rewrite CountValues_items.
  - symmetry. apply Z.eqb_neq. rewrite length_app. unfold rlp_list, rlp_head. rewrite length_app.
    case_if; cbn [length]; lia.
Qed.

Lemma rlp_list_long b : (length b < length (rlp_list b))%nat.
Proof. unfold rlp_list, rlp_head. rewrite length_app. case_if; cbn [length]; lia. Qed.

Lemma decodes_leaf k v : canonical (PLeaf k v) → sized (PLeaf k v) → decodes (PLeaf k v).
Proof.
  intros [Hk _] [Hlk [Hvb Hvl]] fuel hash tail Ht Hf Hfl. destruct fuel as [|fuel]; [lia|].
  destruct (compact_item k true Hk Hlk) as (Hci & Hcb & Hcl).
  pose proof (compactToHex_compact k true Hk) as Hch. pose proof (hasTerm_hex k true Hk) as Hterm.
  pose proof (compact_string_len k true Hk Hlk) as Hsl. pose proof (rlp_string_ub v) as Hub.
  change (hex_key k true) with (k ++ [16]) in *. cbn [TrieHash.enc].
  pose proof (decodeNode_items fuel hash [rlp_string (compact (k ++ [16])); rlp_string v] tail) as E.
  cbn [concat length] in E. rewrite app_nil_r in E. rewrite E; [|..|done].
  2: { constructor; [done|]. constructor; [apply string_item; [done|lia]|constructor]. }
  2: { rewrite length_app. lia. }
  clear E. cbn [Z.of_nat Z.eqb Pos.of_succ_nat Pos.succ Pos.eqb]. unfold decodeShort.
  rewrite SplitString_encode by (lia || (apply bytes_ok_app; split; [done|apply rlp_string_ok; [done|lia]])).
  cbn [rlp_err mbind result_bind]. rewrite Hch, Hterm.
  rewrite <- (app_nil_r (rlp_string v)), SplitString_encode by (lia || by rewrite app_nil_r).
  cbn. eexists. split; [done|]. split; [done|]. by constructor.
Qed.

Lemma decodes_branch cs ov :
  Forall (on_child (λ p, canonical p ∧ sized p ∧ stored_node p ∧ decodes p)) cs →
  canonical (PBr [] cs ov) → sized (PBr [] cs ov) → decodes (PBr [] cs ov).
Proof.
  intros Hcs (_ & Hl & _ & Hov & Hcc) (_ & Hv & Hzz) fuel hash tail Ht Hf Hfl.
  destruct fuel as [|fuel]; [lia|].
  assert (Forall item_ok (map child_ref cs)) as Hi.
  { apply child_refs_items; try done. eapply Forall_impl; [exact Hcs|].
    intros [c|]; [|done]. cbn. intros _. apply node_enc_item. }
  destruct (full_item cs ov Hi Hl Hv) as (_ & Hpb & Hpl). pose proof Hv as [Hvb Hvl].
  rewrite enc_br in *. unfold enc_full in *. set (v := match ov with Some v => v | None => [] end) in *.
  pose proof (decodeNode_items fuel hash (map child_ref cs ++ [rlp_string v]) tail) as E.
  rewrite concat_app in E. cbn [concat] in E. rewrite app_nil_r in E. rewrite E; [|..|done]; [|..|done].
  2: { apply Forall_app. split; [done|]. constructor; [apply string_item; [done|lia]|constructor]. }
  clear E. rewrite length_app, length_map, Hl. cbn [Z.of_nat Z.eqb Pos.of_succ_nat Pos.succ Pos.eqb length Nat.add].
  destruct (decodeChildren_node cs fuel 0 (rlp_string v) Hcs) as (ns & Hns & Hr).
  { apply rlp_string_ok; [done|lia]. }
  { pose proof (rlp_list_long (concat (map child_ref cs) ++ rlp_string v)) as Hlong.
    rewrite length_app in Hlong. lia. }
  unfold decodeFull. rewrite Hl in Hns. rewrite Hns. cbn [mbind result_bind].
  rewrite <- (app_nil_r (rlp_string v)), SplitString_encode by (lia || by rewrite app_nil_r).
  cbn [rlp_err wrap]. eexists. split; [done|]. split; [done|].
  apply R_branch; [done| |done]. unfold repr_value, v.
  destruct ov as [[|b w]|]; [done|done|done].
Qed.

Lemma decodes_ext x k cs ov :
  canonical (PBr (x :: k) cs ov) → sized (PBr (x :: k) cs ov) → stored_node (PBr [] cs ov) →
  decodes (PBr [] cs ov) → decodes (PBr (x :: k) cs ov).
Proof.
  intros Hc Hz Hst Hd fuel hash tail Ht Hf Hfl. destruct fuel as [|fuel]; [lia|].
  destruct (branch_of_ext _ _ _ Hc Hz) as [Hc' Hz']. pose proof (node_enc_item _ Hc' Hz') as Hei.
  destruct Hc as [Hk _], Hz as [Hlk _].
  destruct (compact_item (x :: k) false Hk Hlk) as (Hci & Hcb & Hcl).
  pose proof (compactToHex_compact (x :: k) false Hk) as Hch.
  pose proof (hasTerm_hex (x :: k) false Hk) as Hterm.
  pose proof (compact_string_len (x :: k) false Hk Hlk) as Hsl.
  unfold hex_key in *. rewrite app_nil_r in *. rewrite (enc_br keccak (x :: k)) in *.
  change (enc_full keccak cs ov) with (enc (PBr [] cs ov)) in *.
  pose proof (ref_of_len keccak keccak_length (enc (PBr [] cs ov))) as Hrl.
  pose proof (ref_of_item _ Hei) as Hri. set (kc := compact (x :: k)) in *.
  pose proof (decodeNode_items fuel hash [rlp_string kc; ref_of (enc (PBr [] cs ov))] tail) as E.
  cbn [concat length] in E. rewrite app_nil_r in E. rewrite E; [|..|done].
  2: { constructor; [done|]. by constructor; [|constructor]. }
  2: { rewrite length_app. lia. }
  clear E. cbn [Z.of_nat Z.eqb Pos.of_succ_nat Pos.succ Pos.eqb]. unfold decodeShort.
  rewrite SplitString_encode by (lia || (apply bytes_ok_app; split; [done|by destruct Hri])).
  cbn [rlp_err mbind result_bind]. rewrite Hch, Hterm.
  destruct (decodeRef_node (PBr [] cs ov) fuel [] Hc' Hz' Hst Hd) as (n & Hn & Hr).
  { apply bytes_ok_nil. }
  { pose proof (rlp_list_long (rlp_string kc ++ ref_of (enc (PBr [] cs ov)))) as Hlong.
    rewrite length_app in Hlong. lia. }
  rewrite app_nil_r in Hn. rewrite Hn. cbn. eexists. split; [done|]. split; [done|]. by apply R_ext.
Qed.

Lemma stored_root p : stored p → stored_node p.
Proof. destruct p; [done|by intros [? _]]. Qed.

Lemma decodes_all p : canonical p → sized p → stored p → decodes p.
Proof.
  induction p as [k v|k cs ov IH] using pt_ind'; intros Hc Hz Hs; [by apply decodes_leaf|].
  pose proof (branch_of_ext _ _ _ Hc Hz) as [Hc' Hz'].
  assert (decodes (PBr [] cs ov)) as Hb.
  { apply decodes_branch; try done. destruct Hc as (_ & _ & _ & _ & Hcc), Hz as (_ & _ & Hzz), Hs as (_ & _ & Hss).
    rewrite all_children_Forall, Forall_lookup in Hcc, Hzz, Hss. rewrite Forall_lookup in *. intros i oc Hi.
    specialize (IH i oc Hi). specialize (Hcc i oc Hi). specialize (Hzz i oc Hi). specialize (Hss i oc Hi).
    destruct oc as [c|]; [|done]. cbn [on_child] in *. repeat split; auto. by apply stored_root. }
  destruct k as [|x k]; [done|]. apply decodes_ext; try done. by destruct Hs as (_ & ? & _).
Qed.

(** The hash argument only sets the flag of the node. *)
Lemma decodeNode_flag fuel hash buf n :
  decodeNode_ fuel None buf = Ok n → decodeNode_ fuel hash buf = Ok (set_flag n (MkFlag hash false)).
Proof.
  destruct fuel as [|fuel]; [done|]. cbn [decodeNode_]. case_if; [done|].
  destruct (SplitList buf) as [[elems rest]|]; [|done]. cbn [rlp_err mbind result_bind].
  case_if; [|case_if; [|done]].
  - unfold decodeShort. destruct (SplitString elems) as [[kbuf rest']|]; [|done].
    cbn [rlp_err mbind result_bind]. case_if.
    + destruct (SplitString rest') as [[val ?]|]; [|done]. cbn. by intros [= <-].
    + destruct (decodeRef _ rest') as [[r ?]|]; [|done]. cbn. by intros [= <-].
  - unfold decodeFull. destruct (decodeChildren _ 16 0 elems) as [[cs rest']|]; [|done].
    cbn [mbind result_bind]. destruct (SplitString rest') as [[val ?]|]; [|done]. cbn. by intros [= <-].
Qed.

(** The store holds the tree of [m]: the root under its hash, whatever its
    size, and the large nodes below it. *)
Definition stored_map (m : gmap bytes bytes) : Prop :=
  match tree_of m with
  | None => True
  | Some p => store (keccak (enc p)) = Some (enc p) ∧ stored p
  end.

Lemma New_stored_ok m :
  map_ok m → stored_map m →
  (tree_of m ≠ None → merkle_root keccak m ≠ emptyRoot ∧ merkle_root keccak m ≠ replicate 32 0) →
  ∃ t, New (mustDecodeNode store) emptyRoot (merkle_root keccak m) = Ok t
    ∧ hash_valid keccak (mustDecodeNode store) t m.
Proof.
  intros Hok Hst Hne. destruct (tree_of_ok m Hok) as [Hc Hm].
  unfold New, stored_map, merkle_root in *. destruct (tree_of m) as [p|].
  - destruct (Hne ltac:(done)) as [H1 H2]. rewrite !bool_decide_false by done. cbn [negb andb].
    destruct Hst as [Hroot Hst]. pose proof (tree_map_sized p m Hc Hm Hok) as Hz.
    destruct (decodes_all p Hc Hz Hst (S (length (enc p))) None []) as (n & Hn & Hi & Hr);
      [apply bytes_ok_nil|lia|by left|]. rewrite app_nil_r in Hn.
    unfold resolveHash, mustDecodeNode at 1, decodeNode. rewrite BytesToHash_32, Hroot by done.
    rewrite (decodeNode_flag _ _ _ _ Hn). cbn. eexists. split; [done|]. split; [done|].
    exists (Some p). split; [|done]. cbn [root]. split; [|right; by destruct n].
    replace (set_flag _ newFlag) with (set_flag n newFlag) by (by destruct n).
    apply hrepr_set_flag; [done..|apply newFlag_ok].
  - cbn. eexists. split; [done|]. split; [done|]. by exists None.
Qed.
End decoding.

(** ** Properties *)

(** Parsing a stored node always ends: on any bytes [decodeNode] returns a
    node or one of its errors within a recursion depth bounded by the length of
    the buffer. *)
Theorem decodeNode_terminates (hash : option bytes) (buf : bytes) :
  bytes_ok buf → match decodeNode hash buf with Ok _ => True | Err e => fuel_error e = false end.
Proof. intros Hok. apply decodeNode_ends; [done|lia]. Qed.

Lemma decodeNode_terminates_witness :
  match decodeNode None [0xc3; 0x20; 0xc1; 0x80] with Ok _ => True | Err e => fuel_error e = false end.
Proof. apply (decodeNode_terminates None [0xc3; 0x20; 0xc1; 0x80]). repeat constructor; unfold is_byte; lia. Defined.

(** C25: A trie survives storage.  If a store holds, under their hashes, the
    encodings that the hasher gives to the root and to every large node of the
    tree of [m], then [New] with the Merkle root of [m] opens a trie with
    contents [m] whose hash nodes and cached hashes are true, so lookups and
    updates on it never miss a node. *)
Theorem New_opens_stored (keccak : bytes → bytes) (store : bytes → option bytes) (m : gmap bytes bytes) :
  (∀ b, length (keccak b) = 32%nat) → (∀ b, bytes_ok (keccak b)) →
  map_ok m → stored_map keccak store m →
  (tree_of m ≠ None → merkle_root keccak m ≠ emptyRoot ∧ merkle_root keccak m ≠ replicate 32 0) →
  ∃ t, New (mustDecodeNode store) emptyRoot (merkle_root keccak m) = Ok t
    ∧ hash_valid keccak (mustDecodeNode store) t m.
Proof. intros. by apply New_stored_ok. Qed.

(** A map whose tree has a root, a large leaf behind a hash and a small
    embedded leaf. *)
Definition example_map : gmap bytes bytes := {[ [1; 2] := replicate 40 1; [1; 3] := [2] ]}.

Definition example_store (h : bytes) : option bytes :=
  match tree_of example_map with
  | Some (PBr _ cs _ as p) =>
      let blobs := enc toy_digest p :: enc toy_digest (PBr [] cs None)
        :: omap (λ oc, enc toy_digest <$> oc) cs in
      snd <$> list_find (λ b, toy_digest b = h) blobs
  | _ => None
  end.

Lemma example_map_ok : map_ok example_map.
Proof.
  apply map_Forall_insert_2; [|apply map_Forall_insert_2; [|apply map_Forall_empty]].
  all: repeat split; try done; repeat constructor; unfold is_byte; lia.
Qed.
Lemma example_stored : stored_map toy_digest example_store example_map.
Proof. vm_compute. repeat split; intros; (reflexivity || discriminate || exact I). Qed.

Lemma New_opens_stored_witness :
  ∃ t, New (mustDecodeNode example_store) emptyRoot (merkle_root toy_digest example_map) = Ok t
    ∧ hash_valid toy_digest (mustDecodeNode example_store) t example_map.
Proof.
  apply (New_opens_stored toy_digest example_store example_map).
  - done.
  - apply toy_digest_ok.
  - exact example_map_ok.
  - exact example_stored.
  - intros _. split; vm_compute; discriminate.
Defined.
