(* ===== verification/TrieProof.v ===== *)
(** * Merkle proofs (src/trie/proof.go)

    [Prove] collects the encoded nodes on the path to a key, [VerifyProof]
    walks such a collection from a root hash and reads the value off it.  The
    theorems show that a proof made by [Prove] verifies, that a collection of
    nodes in which no hash stands for a node foreign to the trie never proves
    anything but the trie's own value, and that no collection makes the
    verifier panic.  Proofs of ranges are not modelled. *)
From S2P Require Import Prelude RlpEncode RlpRaw TrieEncoding TrieSpec Trie TrieHash TrieDecode.
Local Open Scope Z_scope.

(** ** Verification *)

(** What is left of the key and the node found there: a hash, a value or
    nothing.  [Err Panic] for an index out of range. *)
Fixpoint get (tn : node) (key : bytes) (skipResolved : bool) : result trie_error (bytes * node) :=
  match tn with
  | shortNode k val _ =>
      if (length key <? length k)%nat || negb (bool_decide (k = take (length k) key)) then Ok ([], nilNode)
      else
        let key := drop (length k) key in
        if negb skipResolved then Ok (key, val) else get val key skipResolved
  | fullNode cs _ =>
      match key with
      | [] => Err Panic
      | x :: key =>
          match map (λ c, if negb skipResolved then Ok (key, c) else get c key skipResolved) cs !! Z.to_nat x with
          | Some r => r
          | None => Err Panic
          end
      end
  | hashNode h => Ok (key, hashNode h)
  | nilNode => Ok (key, nilNode)
  | valueNode v => Ok ([], valueNode v)
  end.

Inductive proof_error :=
| ProofNodeMissing (i : Z) (hash : bytes)
| BadProofNode (i : Z) (e : node_error)
| ProofPanic
| ProofFuel.

(** The loop; one unit of fuel per node.  The proof database is read only. *)
Fixpoint VerifyProof_loop (proofDb : bytes → option bytes) (fuel : nat) (i : Z) (wantHash key : bytes)
    : result proof_error (option bytes) :=
  match fuel with
  | O => Err ProofFuel
  | S fuel =>
      match proofDb wantHash with
      | None => Err (ProofNodeMissing i wantHash)
      | Some buf =>
          match decodeNode (Some wantHash) buf with
          | Err e => Err (BadProofNode i e)
          | Ok n =>
              match get n key true with
              | Err _ => Err ProofPanic
              | Ok (_, nilNode) => Ok None
              | Ok (keyrest, hashNode cld) =>
                  VerifyProof_loop proofDb fuel (i + 1) (take 32 (cld ++ drop (length cld) wantHash)) keyrest
              | Ok (_, valueNode cld) => Ok (Some cld)
              | Ok _ => VerifyProof_loop proofDb fuel (i + 1) wantHash key
              end
          end
      end
  end.

Definition VerifyProof (fuel : nat) (rootHash key : bytes) (proofDb : bytes → option bytes)
    : result proof_error (option bytes) :=
  VerifyProof_loop proofDb fuel 0 rootHash (keybytesToHex key).

(** ** Construction *)

Section prove.
Variable keccak : bytes → bytes.
Variable db_node : bytes → option node.

(** The nodes on the path to [key]. *)
Fixpoint prove_path (fuel : nat) (tn : node) (key : bytes) : result trie_error (list node) :=
  match fuel with
  | O => Err OutOfFuel
  | S fuel =>
      match key, tn with
      | [], _ | _, nilNode => Ok []
      | _, shortNode k val _ =>
          if (length key <? length k)%nat || negb (bool_decide (k = take (length k) key)) then Ok [tn]
          else nodes ← prove_path fuel val (drop (length k) key); Ok (tn :: nodes)
      | x :: key, fullNode cs _ =>
          match cs !! Z.to_nat x with
          | Some c => nodes ← prove_path fuel c key; Ok (tn :: nodes)
          | None => Err Panic
          end
      | _, hashNode h => n ← resolveHash db_node h []; prove_path fuel n key
      | _, valueNode _ => Err Panic
      end
  end.

Definition proof_encoding (n : node) : bytes :=
  match EncodeToBytes (node_value n) with Ok enc => enc | Err _ => [] end.

(** Write the [i]-th node of the path and those after it. *)
Fixpoint prove_put (i : nat) (fromLevel : Z) (nodes : list node) (proofDb : gmap bytes bytes) : gmap bytes bytes :=
  match nodes with
  | [] => proofDb
  | n :: nodes =>
      if 0 <? fromLevel then prove_put (S i) (fromLevel - 1) nodes proofDb
      else
        let '(n, hn) := proofHash keccak n in
        let enc := proof_encoding n in
        let proofDb :=
          match hn with
          | hashNode hash => <[hash := enc]> proofDb
          | _ => if (i =? 0)%nat then <[keccak enc := enc]> proofDb else proofDb
          end in
        prove_put (S i) fromLevel nodes proofDb
  end.

Definition Prove (key : bytes) (fromLevel : Z) (proofDb : gmap bytes bytes) (t : Trie)
    : result trie_error (gmap bytes bytes) :=
  nodes ← prove_path (key_fuel (keybytesToHex key)) (root t) (keybytesToHex key);
  Ok (prove_put 0 fromLevel nodes proofDb).
End prove.

(** ** Lemmas: the path to a key *)

(** [visits p path p' path']: the way from the root of [p] along [path] leads
    to the subtree [p'], with [path'] still ahead.  An extension and the branch
    below it are two nodes. *)
Inductive visits : pt → bytes → pt → bytes → Prop :=
| V_here p path : visits p path p path
| V_ext k cs ov r p path : k ≠ [] → visits (PBr [] cs ov) r p path → visits (PBr k cs ov) (k ++ r) p path
| V_child cs ov x c r p path : child cs x = Some c → visits c r p path → visits (PBr [] cs ov) (x :: r) p path.

Lemma visits_trans p1 r1 p2 r2 p3 r3 : visits p1 r1 p2 r2 → visits p2 r2 p3 r3 → visits p1 r1 p3 r3.
Proof. induction 1; eauto using visits. Qed.

Lemma visits_pget p r p' r' : visits p r p' r' → pget p r = pget p' r'.
Proof.
  induction 1 as [|k cs ov r p path Hk _ IH|cs ov x c r p path Hx _ IH]; [done|..].
  - rewrite pget_br, strip_app, <- IH, pget_br. done.
  - rewrite pget_br. cbn [strip]. by rewrite Hx.
Qed.

Lemma short_match key k :
  (length key <? length k)%nat || negb (bool_decide (k = take (length k) key))
  = match strip k key with Some _ => false | None => true end.
Proof. pose proof (short_mismatch key 0 k ltac:(lia)) as H. by rewrite drop_0, Nat.sub_0_r in H. Qed.

Section proofs.
Variable keccak : bytes → bytes.
Hypothesis keccak_length : ∀ b, length (keccak b) = 32%nat.
Hypothesis keccak_bytes : ∀ b, bytes_ok (keccak b).

(** Encodings by hash: such a function exists when no two nodes of the tree
    have the same hash. *)
Variable store : bytes → option bytes.

Notation enc := (enc keccak).
Notation stored := (stored keccak store).
Notation srepr := (repr (mustDecodeNode store) (flag_ok keccak) (ref_ok keccak)).
Notation srepr_opt := (repr_opt (mustDecodeNode store) (flag_ok keccak) (ref_ok keccak)).

Record good (p : pt) : Prop := {
  g_canonical : canonical p;
  g_sized : sized p;
  g_stored : stored p
}.

Lemma good_branch k cs ov : k ≠ [] → good (PBr k cs ov) → good (PBr [] cs ov).
Proof.
  intros Hk [Hc Hz Hs]. destruct (branch_of_ext k cs ov Hc Hz) as [Hc' Hz']. split; [done..|].
  destruct Hs as (_ & H1 & H2). by split.
Qed.

Lemma good_child k cs ov x c : good (PBr k cs ov) → child cs x = Some c → good c.
Proof.
  intros [(_ & _ & _ & _ & Hc) (_ & _ & Hz) (_ & _ & Hs)] Hx.
  split; [exact (child_canonical _ cs x c Hc Hx)|exact (child_canonical _ cs x c Hz Hx)|exact (child_canonical _ cs x c Hs Hx)].
Qed.

Lemma visits_good p r p' r' : visits p r p' r' → good p → nibbles_ok r → good p' ∧ nibbles_ok r'.
Proof.
  induction 1 as [|k cs ov r p path Hk _ IH|cs ov x c r p path Hx _ IH]; intros Hg Hr; [done|..].
  - apply nibbles_ok_app in Hr as [_ Hr]. apply IH; [by eapply good_branch|done].
  - apply nibbles_ok_cons in Hr as [_ Hr]. apply IH; [by eapply good_child|done].
Qed.

(** What [get] finds at the end of the loaded part of the path. *)
Definition found (p : pt) (path : bytes) (strict : Prop) (keyrest : bytes) (cld : node) : Prop :=
  match cld with
  | nilNode => pget p path = None
  | valueNode v => pget p path = Some v
  | hashNode h => ∃ p' path', visits p path p' path' ∧ keyrest = path' ++ [16]
      ∧ h = keccak (enc p') ∧ 32 ≤ len (enc p') ∧ (strict → (length path' < length path)%nat)
  | _ => False
  end.

Lemma found_step p path p' path' (P Q : Prop) keyrest cld :
  visits p path p' path' → (length path' < length path)%nat → found p' path' P keyrest cld →
  found p path Q keyrest cld.
Proof.
  intros Hv Hl. unfold found. rewrite (visits_pget _ _ _ _ Hv). destruct cld; try done.
  intros (p2 & path2 & Hv2 & E & Eh & Hlen & Hs). exists p2, path2. split; [by eapply visits_trans|].
  do 3 (split; [done|]). intros _. enough (length path2 ≤ length path')%nat by lia.
  clear -Hv2. induction Hv2; [done|..]; rewrite ?length_app; cbn [length]; lia.
Qed.

Lemma get_found n p path :
  srepr n p → good p → nibbles_ok path →
  ∃ keyrest cld, get n (path ++ [16]) true = Ok (keyrest, cld) ∧ found p path (is_inner n) keyrest cld.
Proof.
  revert n p. induction path as [path IH] using (induction_ltof1 _ (@length Z)). unfold ltof in IH.
  intros n p Hr Hg Hp. destruct Hr as [k v fl Hfl|ns vn fl cs ov Hl Hv Hfl|k n fl cs ov Hk Hr Hfl|h n p Hdb Hin Hr [-> Hh]];
    cbn [get].
  - destruct (g_canonical _ Hg) as [Hk _]. rewrite short_match, strip_term by done. cbn [found pget].
    case_bool_decide as E; do 2 eexists; (split; [reflexivity|]); cbn; by case_bool_decide.
  - destruct (g_canonical _ Hg) as (_ & Hlen & _ & _ & Hcs). pose proof (repr_list_length _ _ _ _ _ Hl) as Hln.
    rewrite Hlen in Hln. change (map ?f ?l) with (f <$> l).
    destruct path as [|x path]; cbn [app]; rewrite list_lookup_fmap.
    + rewrite lookup_value by done. cbn. rewrite Hv. destruct ov as [v|]; do 2 eexists; (split; [reflexivity|]); done.
    + apply nibbles_ok_cons in Hp as [Hx Hp]. rewrite lookup_children by done.
      destruct (repr_list_lookup _ _ _ ns cs x Hl Hlen Hx) as (c & Hn & Hcr). rewrite Hn. cbn [fmap option_fmap option_map negb].
      inversion Hcr as [Ec1 Ec2|c' p' Hr' Ec1 Ec2]; subst.
      * do 2 eexists. split; [reflexivity|]. cbn [found]. rewrite pget_br. cbn [strip]. by rewrite <- Ec2.
      * destruct (IH path) with (n := c) (p := p') as (kr & cld & E & Hf); [cbn; lia|done|by eapply good_child|done|].
        do 2 eexists. split; [exact E|]. apply (found_step _ _ p' path (is_inner c)); [|cbn; lia|exact Hf].
        eapply V_child; [by symmetry|constructor].
  - pose proof (g_canonical _ Hg) as (Hkn & _). rewrite short_match, strip_nibbles by done.
    destruct (strip k path) as [r|] eqn:Es; cbn [fmap option_fmap option_map].
    + apply strip_some in Es as ->. apply nibbles_ok_app in Hp as [_ Hp]. cbn [negb].
      rewrite <- app_assoc, drop_app_length.
      assert (length r < length (k ++ r))%nat as Hlt by (rewrite length_app; destruct k; [done|cbn; lia]).
      destruct (IH r) with (n := n) (p := PBr [] cs ov) as (kr & cld & E & Hf); [done|done|by eapply good_branch|done|].
      do 2 eexists. split; [exact E|]. apply (found_step _ _ (PBr [] cs ov) r (is_inner n)); [|exact Hlt|exact Hf]. apply V_ext; [done|constructor].
    + do 2 eexists. split; [reflexivity|]. cbn [found]. rewrite pget_br. by rewrite Es.
  - do 2 eexists. split; [reflexivity|]. cbn. exists p, path. split; [constructor|]. done.
Qed.

Lemma get_set_flag n fl key skip : get (set_flag n fl) key skip = get n key skip.
Proof. by destruct n. Qed.

(** A node of the tree, read from its encoding. *)
Lemma get_decoded hash p path :
  good p → nibbles_ok path →
  ∃ n keyrest cld, decodeNode hash (enc p) = Ok n ∧ get n (path ++ [16]) true = Ok (keyrest, cld)
    ∧ found p path True keyrest cld.
Proof.
  intros [Hc Hz Hs] Hp.
  destruct (decodes_all keccak keccak_length keccak_bytes store p Hc Hz Hs (S (length (enc p))) None [])
    as (n & Hn & Hi & Hr); [apply bytes_ok_nil|lia|by left|]. rewrite app_nil_r in Hn.
  destruct (get_found n p path Hr) as (kr & cld & E & Hf); [done|done|].
  exists (set_flag n (MkFlag hash false)), kr, cld. rewrite get_set_flag. split; [|split; [done|]].
  - unfold decodeNode. by apply decodeNode_flag.
  - unfold found in *. destruct cld; try done. destruct Hf as (p' & path' & Hv & E1 & E2 & Hl & Hstrict).
    exists p', path'. do 4 (split; [done|]). intros _. by apply Hstrict.
Qed.

(** The nodes a verifier asks for: the root, and below it the large ones. *)
Definition wanted (p0 : pt) (path0 : bytes) (p : pt) (path : bytes) : Prop :=
  visits p0 path0 p path ∧ (p = p0 ∨ 32 ≤ len (enc p)).

Lemma VerifyProof_walk proofDb p0 path0 fuel i p path :
  good p0 → nibbles_ok path0 →
  (∀ p path b, wanted p0 path0 p path → proofDb (keccak (enc p)) = Some b → b = enc p) →
  wanted p0 path0 p path → (length path < fuel)%nat →
  VerifyProof_loop proofDb fuel i (keccak (enc p)) (path ++ [16]) = Ok (pget p0 path0)
  ∨ ∃ i' p' path', wanted p0 path0 p' path' ∧ proofDb (keccak (enc p')) = None
      ∧ VerifyProof_loop proofDb fuel i (keccak (enc p)) (path ++ [16]) = Err (ProofNodeMissing i' (keccak (enc p'))).
Proof.
  intros Hg Hn0 Hdb. revert i p path. induction fuel as [|fuel IH]; intros i p path Hw Hf; [lia|].
  cbn [VerifyProof_loop]. destruct (proofDb (keccak (enc p))) as [b|] eqn:Eb; [|right; by exists i, p, path].
  apply (Hdb p path) in Eb as ->; [|done]. destruct Hw as [Hv Hroot].
  destruct (visits_good _ _ _ _ Hv Hg Hn0) as [Hgp Hnp].
  destruct (get_decoded (Some (keccak (enc p))) p path Hgp Hnp) as (n & kr & cld & -> & -> & Hfd).
  rewrite (visits_pget _ _ _ _ Hv). unfold found in Hfd. destruct cld as [| |h|v|]; try done.
  - left. by rewrite Hfd.
  - destruct Hfd as (p' & path' & Hv' & -> & -> & Hl & Hlt). specialize (Hlt I).
    rewrite take_app_length' by (by rewrite keccak_length).
    rewrite <- (visits_pget _ _ _ _ Hv). apply IH; [|lia]. split; [by eapply visits_trans|by right].
  - left. by rewrite Hfd.
Qed.

(** ** Lemmas: construction *)

Variable db_node : bytes → option node.
Notation hrepr := (repr db_node (flag_ok keccak) (ref_ok keccak)).

(** A node of the tree whose own cached hash does not matter. *)
Definition frepr (n : node) (p : pt) : Prop := hrepr (set_flag n newFlag) p.

Lemma frepr_of n p : hrepr n p → frepr n p.
Proof. intros Hr. by destruct (repr_root keccak db_node n (Some p)) as [? _]; [constructor|]. Qed.

Definition path_node (p0 : pt) (path0 : bytes) (n : node) (p : pt) : Prop :=
  is_inner n ∧ frepr n p ∧ ∃ path, visits p0 path0 p path.

(** The nodes that [prove_path] returns are those on the way to the key. *)
Definition path_of (p : pt) (path : bytes) (nodes : list node) : Prop :=
  ∃ ps, Forall2 (path_node p path) nodes (p :: ps)
    ∧ ∀ p' path', visits p path p' path' → p' ∈ p :: ps.

Lemma path_of_end n p path :
  is_inner n → frepr n p → (∀ p' path', visits p path p' path' → p' = p) → path_of p path [n].
Proof.
  intros Hi Hr Hv. exists []. split.
  - constructor; [|constructor]. split; [done|]. split; [done|]. exists path. constructor.
  - intros p' path' ->%Hv. by left.
Qed.

Lemma path_of_step n p path q r nodes :
  is_inner n → frepr n p → visits p path q r →
  (∀ p' path', visits p path p' path' → p' = p ∨ visits q r p' path') →
  path_of q r nodes → path_of p path (n :: nodes).
Proof.
  intros Hi Hr Hv Hsplit (ps & HF & Hin). exists (q :: ps). split.
  - constructor; [split; [done|]; split; [done|exists path; constructor]|].
    eapply Forall2_impl; [exact HF|]. intros n' p' (Hi' & Hr' & path' & Hv').
    split; [done|]. split; [done|]. exists path'. by eapply visits_trans.
  - intros p' path' [->|Hv']%Hsplit; [by left|]. right. by eapply Hin.
Qed.

Lemma prove_path_nil fuel key : (0 < fuel)%nat → prove_path db_node fuel nilNode key = Ok [].
Proof. destruct fuel; [lia|]. by destruct key. Qed.
Lemma prove_path_end fuel n : (0 < fuel)%nat → prove_path db_node fuel n [] = Ok [].
Proof. by destruct fuel; [lia|]. Qed.

Lemma visits_leaf k v path p' path' : visits (PLeaf k v) path p' path' → p' = PLeaf k v.
Proof. by inversion 1. Qed.

Lemma prove_path_short fuel k val fl key :
  key ≠ [] →
  prove_path db_node (S fuel) (shortNode k val fl) key =
    match strip k key with
    | None => Ok [shortNode k val fl]
    | Some r => nodes ← prove_path db_node fuel val r; Ok (shortNode k val fl :: nodes)
    end.
Proof.
  intros Hk. destruct key as [|x key]; [done|]. cbn [prove_path]. rewrite short_match.
  destruct (strip k (x :: key)) as [r|] eqn:E; [|done]. apply strip_some in E as ->. by rewrite drop_app_length.
Qed.

Lemma prove_path_hash fuel h n key :
  key ≠ [] → db_node (BytesToHash h) = Some n →
  prove_path db_node (S fuel) (hashNode h) key = prove_path db_node fuel n key.
Proof. intros Hk E. destruct key as [|x key]; [done|]. cbn [prove_path]. unfold resolveHash. by rewrite E. Qed.

Lemma path_16 (path : bytes) : path ++ [16] ≠ [].
Proof. by destruct path. Qed.

Lemma prove_path_leaf fuel n k v fl path :
  n = shortNode (k ++ [16]) (valueNode v) fl → frepr n (PLeaf k v) → nibbles_ok k → nibbles_ok path → (0 < fuel)%nat →
  ∃ nodes, prove_path db_node (S fuel) n (path ++ [16]) = Ok nodes ∧ path_of (PLeaf k v) path nodes.
Proof.
  intros -> Hr Hk Hp Hf. exists [shortNode (k ++ [16]) (valueNode v) fl]. split.
  - rewrite prove_path_short, strip_term by (done || apply path_16). case_bool_decide; [|done].
    by rewrite prove_path_end.
  - apply path_of_end; [done..|]. intros p' path'. apply visits_leaf.
Qed.

Lemma prove_path_ok fuel n p path :
  frepr n p → canonical p → nibbles_ok path → (cost n (length path) ≤ fuel)%nat →
  ∃ nodes, prove_path db_node fuel n (path ++ [16]) = Ok nodes ∧ path_of p path nodes.
Proof.
  revert n p path. induction fuel as [|fuel IH]; intros n p path Hr Hc Hp Hf.
  { unfold cost in Hf. destruct n; lia. }
  assert (0 < fuel)%nat as Hf0 by (unfold cost in Hf; destruct n; lia).
  pose proof Hr as Hr0. unfold frepr in Hr.
  destruct n as [|L fl|k val fl|h|v]; cbn [set_flag] in Hr; try (by inversion Hr).
  - inversion Hr as [|ns vn ? cs ov Hl Hv Hfl E1 E2| |]; subst. destruct Hc as (_ & Hlen & _ & _ & Hcs).
    pose proof (repr_list_length _ _ _ _ _ Hl) as Hln. rewrite Hlen in Hln. destruct path as [|x path]; cbn [app prove_path].
    + rewrite lookup_value, prove_path_end by done. eexists. split; [reflexivity|].
      apply path_of_end; [done..|]. by inversion 1.
    + apply nibbles_ok_cons in Hp as [Hx Hp]. rewrite lookup_children by done.
      destruct (repr_list_lookup _ _ _ ns cs x Hl Hlen Hx) as (c & -> & Hcr).
      inversion Hcr as [Ec1 Ec2|c' p' Hr' Ec1 Ec2]; subst.
      * rewrite prove_path_nil by done. eexists. split; [reflexivity|].
        apply path_of_end; [done..|]. inversion 1; subst; [done| |congruence]. done.
      * destruct (IH c p' path) as (nodes & -> & Hpo); [by apply frepr_of|by eapply child_canonical|done|..].
        { pose proof (cost_le c (length (x :: path)) (length path)). unfold cost in Hf. cbn [length] in *. lia. }
        eexists. split; [reflexivity|]. apply (path_of_step _ _ _ p' path); [done..| | |done].
        -- eapply V_child; [by symmetry|constructor].
        -- inversion 1; subst; [by left|done|right]. congruence.
  - inversion Hr as [k' v ? Hfl| |k' ? ? cs ov Hk Hn Hfl|]; subst.
    { destruct Hc as [Hk _]. by eapply prove_path_leaf. }
    pose proof Hc as (Hkn & Hbr). rewrite prove_path_short, strip_nibbles by (done || apply path_16).
    destruct (strip k path) as [r|] eqn:Es; cbn [fmap option_fmap option_map].
    + apply strip_some in Es as ->. apply nibbles_ok_app in Hp as [_ Hp].
      destruct (IH val (PBr [] cs ov) r) as (nodes & -> & Hpo); [by apply frepr_of|by split|done|..].
      { pose proof (cost_le val (length (k ++ r)) (length r)) as Hle. rewrite length_app in Hle.
        unfold cost in Hf. rewrite length_app in Hf. destruct k; [done|]. cbn [length] in *. lia. }
      eexists. split; [reflexivity|]. apply (path_of_step _ _ _ (PBr [] cs ov) r); [done..| | |done].
      * apply V_ext; [done|constructor].
      * inversion 1 as [|k0 cs0 ov0 r0 p0 q0 Hk0 Hv0 E1 E2|]; subst; [by left|right|done].
        by apply app_inv_head in E2 as ->.
    + eexists. split; [reflexivity|]. apply path_of_end; [done..|].
      inversion 1 as [|k0 cs0 ov0 r0 p0 q0 Hk0 Hv0 E1 E2|]; subst; [done| |done]. by rewrite strip_app in Es.
  - inversion Hr as [| | |? n p' Hdb Hin Hn [_ Hl]]; subst.
    rewrite (prove_path_hash _ _ n) by (done || apply path_16). apply IH; [by apply frepr_of|done..|].
    pose proof (repr_hash_cost (keccak (enc p)) n (length path) Hin). unfold cost in *. lia.
Qed.

(** The collapsed form of a node on the path encodes to its encoding. *)
Lemma proofHash_ok n p :
  is_inner n → frepr n p → canonical p → sized p →
  ∃ c, proofHash keccak n = (c, shortnodeToHash keccak c false) ∧ collapsed c (enc p) ∧ is_inner c.
Proof.
  intros Hi Hr Hc Hz. unfold frepr in Hr. destruct n as [|L fl|k val fl|h|v]; try done; cbn [set_flag] in Hr.
  - inversion Hr as [|ns vn ? cs ov Hl Hv Hfl E1 E2| |]; subst. pose proof Hc as (_ & Hlen & _ & _ & Hcs).
    destruct Hz as (_ & Hsv & Hzs).
    assert (Forall (on_child (λ p, ∀ n, hrepr n p → canonical p → sized p → hashes keccak db_node n p)) cs) as IH.
    { apply Forall_true. intros [c|]; [|done]. exact (hash_spec keccak keccak_length keccak_bytes db_node c). }
    destruct (hash_children_spec keccak db_node ns cs vn 0 IH Hl Hcs Hzs Hlen) as (rs & E & HF).
    eexists. cbn [proofHash]. rewrite E. split; [reflexivity|]. split; [|done].
    apply (collapsed_full keccak db_node); [exact HF|exact Hv|exact Hsv].
  - cbn [proofHash]. inversion Hr as [k' v ? Hfl| |k' ? ? cs ov Hk Hn Hfl|]; subst.
    + eexists. split; [reflexivity|]. split; [|done]. destruct Hc as [Hk _], Hz as (_ & Hv & _).
      apply (collapsed_short k' true (valueNode v) (rlp_string v)); [done|]. by split.
    + destruct (branch_of_ext k cs ov Hc Hz) as [Hc' Hz']. pose proof Hc as (Hkn & _).
      destruct (hash_spec keccak keccak_length keccak_bytes db_node (PBr [] cs ov) val Hn Hc' Hz') as [Hcol _].
      assert (match val with fullNode _ _ | shortNode _ _ _ => (hash keccak val false).1 | _ => val end
              = (hash keccak val false).1) as -> by (by destruct val).
      eexists. split; [reflexivity|]. split; [|done].
      pose proof (collapsed_short k false _ _ fl Hkn Hcol) as H. unfold hex_key in H. rewrite app_nil_r in H.
      rewrite enc_br. by destruct k.
Qed.

Lemma proof_encoding_ok c p : collapsed c (enc p) → canonical p → sized p → proof_encoding c = enc p.
Proof.
  intros [Hs Hok _] Hc Hz. unfold proof_encoding.
  by rewrite (EncodeToBytes_ok _ _ Hok Hs) by (by apply enc_len).
Qed.

(** One step of the writing loop. *)
Lemma prove_put_cons i n nodes proofDb p :
  is_inner n → frepr n p → canonical p → sized p →
  prove_put keccak i 0 (n :: nodes) proofDb =
    prove_put keccak (S i) 0 nodes
      (if (i =? 0)%nat || (32 <=? len (enc p)) then <[keccak (enc p) := enc p]> proofDb else proofDb).
Proof.
  intros Hi Hr Hc Hz. destruct (proofHash_ok n p Hi Hr Hc Hz) as (c & E & Hcol & Hic).
  cbn [prove_put]. rewrite E, (proof_encoding_ok c p Hcol Hc Hz), (toHash_spec keccak keccak_length c p false Hcol Hc Hz).
  cbn [Z.ltb Z.compare]. f_equal. destruct (Z.ltb_spec (len (enc p)) 32), (Z.leb_spec 32 (len (enc p))); try lia; cbn.
  - destruct c; try done; by rewrite orb_false_r.
  - by rewrite orb_true_r.
Qed.

Definition writable (n : node) (p : pt) : Prop := is_inner n ∧ frepr n p ∧ canonical p ∧ sized p.

Lemma prove_put_keeps i nodes ps proofDb h :
  Forall2 writable nodes ps → is_Some (proofDb !! h) → is_Some (prove_put keccak i 0 nodes proofDb !! h).
Proof.
  intros HF. revert i proofDb. induction HF as [|n p nodes ps (Hi & Hr & Hc & Hz) _ IH]; intros i proofDb Hh; [done|].
  rewrite (prove_put_cons i n nodes proofDb p) by done. apply IH. case_match; [|done].
  rewrite lookup_insert_is_Some'. by right.
Qed.

Lemma prove_put_complete i nodes ps proofDb j p :
  Forall2 writable nodes ps → ps !! j = Some p → (i + j = 0)%nat ∨ 32 ≤ len (enc p) →
  is_Some (prove_put keccak i 0 nodes proofDb !! keccak (enc p)).
Proof.
  intros HF. revert i j proofDb. induction HF as [|n q nodes ps (Hi & Hr & Hc & Hz) HF IH]; intros i j proofDb Hj Hw; [done|].
  rewrite (prove_put_cons i n nodes proofDb q) by done. destruct j as [|j].
  - injection Hj as ->. apply (prove_put_keeps _ _ ps); [done|].
    replace ((i =? 0)%nat || (32 <=? len (enc p))) with true; [rewrite lookup_insert_eq; by eexists|].
    symmetry. apply orb_true_iff. destruct Hw; [left; apply Nat.eqb_eq; lia|right; lia].
  - apply (IH (S i) j); [done|]. destruct Hw; [lia|by right].
Qed.

Lemma prove_put_sound i nodes ps proofDb h b :
  Forall2 writable nodes ps → prove_put keccak i 0 nodes proofDb !! h = Some b →
  proofDb !! h = Some b
  ∨ ∃ j p, ps !! j = Some p ∧ h = keccak (enc p) ∧ b = enc p ∧ ((i + j = 0)%nat ∨ 32 ≤ len (enc p)).
Proof.
  intros HF. revert i proofDb. induction HF as [|n q nodes ps (Hi & Hr & Hc & Hz) HF IH]; intros i proofDb; [by left|].
  rewrite (prove_put_cons i n nodes proofDb q) by done. intros [Hb|(j & p & Hj & Eh & Eb & Hw)]%IH.
  - destruct ((i =? 0)%nat || (32 <=? len (enc q))) eqn:Ew; [|by left].
    apply lookup_insert_Some in Hb as [[<- <-]|[_ Hb]]; [right|by left]. exists 0%nat, q.
    do 3 (split; [done|]). apply orb_true_iff in Ew as [Ew|Ew]; [left; apply Nat.eqb_eq in Ew; lia|right; lia].
  - right. exists (S j), p. do 3 (split; [done|]). destruct Hw; [lia|by right].
Qed.

(** The proof that [Prove] writes holds what a verifier asks for. *)
Lemma path_proof p0 path0 nodes :
  good p0 → nibbles_ok path0 → store (keccak (enc p0)) = Some (enc p0) → path_of p0 path0 nodes →
  ∀ p path, wanted p0 path0 p path → prove_put keccak 0 0 nodes ∅ !! keccak (enc p) = Some (enc p).
Proof.
  intros Hg Hn Hroot (ps & HF & Hin) p path [Hv Hw].
  assert (∀ q, (∃ path, visits p0 path0 q path) → q = p0 ∨ 32 ≤ len (enc q) → store (keccak (enc q)) = Some (enc q)) as Hst.
  { intros q [r Hq] [->|Hl]; [done|]. destruct (visits_good _ _ _ _ Hq Hg Hn) as [[_ _ Hs] _].
    exact (stored_root _ _ _ Hs Hl). }
  assert (Forall2 writable nodes (p0 :: ps)) as HF'.
  { eapply Forall2_impl; [exact HF|]. intros n q (Hi & Hr & r & Hq).
    destruct (visits_good _ _ _ _ Hq Hg Hn) as [[Hc Hz _] _]. by repeat split. }
  assert (∀ j q, (p0 :: ps) !! j = Some q → ∃ r, visits p0 path0 q r) as Hvis.
  { intros j q Hj. destruct (Forall2_lookup_r _ _ _ _ _ HF Hj) as (n & _ & _ & _ & Hq). exact Hq. }
  assert (∃ j, (p0 :: ps) !! j = Some p ∧ ((0 + j = 0)%nat ∨ 32 ≤ len (enc p))) as (j & Hj & Hjw).
  { destruct Hw as [->|Hl]; [exists 0%nat; by split; [|left]|].
    destruct (proj1 (list_elem_of_lookup _ _) (Hin p path Hv)) as [j Hj]. exists j. by split; [|right]. }
  destruct (prove_put_complete 0 nodes (p0 :: ps) ∅ j p HF' Hj Hjw) as [b Hb]. rewrite Hb. f_equal.
  apply (prove_put_sound 0 nodes (p0 :: ps)) in Hb as [Hb|(j' & q & Hq & Eh & -> & Hqw)]; [by rewrite lookup_empty in Hb| |done].
  assert (store (keccak (enc q)) = Some (enc q)) as Eq.
  { apply Hst; [by eapply Hvis|]. destruct Hqw as [E|]; [left|by right]. destruct j'; [|lia]. by injection Hq. }
  rewrite <- Eh, (Hst p) in Eq; [congruence|by exists path|done].
Qed.

Lemma stored_tree m :
  map_ok m → m ≠ ∅ → stored_map keccak store m →
  ∃ p, tree_of m = Some p ∧ good p ∧ store (keccak (enc p)) = Some (enc p)
    ∧ merkle_root keccak m = keccak (enc p)
    ∧ ∀ key, bytes_ok key → pget p (nibbles_of key) = m !! key.
Proof.
  intros Hok Hne Hst. destruct (tree_of_ok m Hok) as [Hc Hm]. unfold stored_map, merkle_root in *.
  destruct (tree_of m) as [p|].
  - destruct Hst as [Hroot Hst]. exists p. split; [done|]. split; [|split; [done|split; [done|]]].
    + split; [done|by eapply tree_map_sized|done].
    + intros key Hk. exact (tree_map_get (Some p) m key Hm Hk).
  - destruct Hne. apply map_empty. intros key. destruct (m !! key) as [v|] eqn:E; [|done].
    destruct (map_Forall_lookup_1 _ _ _ _ Hok E) as (Hk & _). pose proof (tree_map_get None m key Hm Hk). cbn in *. congruence.
Qed.

Lemma Prove_verifies t m key fuel :
  hash_valid keccak db_node t m → stored_map keccak store m → m ≠ ∅ → bytes_ok key → (2 * length key < fuel)%nat →
  ∃ proof, Prove keccak db_node key 0 ∅ t = Ok proof
    ∧ VerifyProof fuel (merkle_root keccak m) key (λ h, proof !! h) = Ok (m !! key).
Proof.
  intros (Hok & op & Hr & Hc & Hm) Hst Hne Hk Hf. destruct (stored_tree m Hok Hne Hst) as (p & Et & Hg & Hroot & -> & Hget).
  destruct (tree_of_ok m Hok) as [Hc' Hm']. assert (tree_of m = op) as <- by (by eapply holds_same_tree).
  rewrite Et in *. destruct Hr as [Hr _]. pose proof (nibbles_of_ok key Hk) as Hn.
  destruct (prove_path_ok (key_fuel (keybytesToHex key)) (root t) p (nibbles_of key) Hr Hc Hn) as (nodes & E & Hpo);
    [apply key_cost|]. change (nibbles_of key ++ [16]) with (keybytesToHex key) in E.
  unfold Prove. rewrite E. eexists. split; [reflexivity|]. cbn [mbind result_bind].
  pose proof (path_proof p (nibbles_of key) nodes Hg Hn Hroot Hpo) as Hp. set (proof := prove_put _ _ _ _ _) in *.
  destruct (VerifyProof_walk (λ h, proof !! h) p (nibbles_of key) fuel 0 p (nibbles_of key)) as [Hv|(i & q & r & Hw & Hb & _)];
    [done|done|..].
  - intros q r b Hw Hb. rewrite (Hp q r Hw) in Hb. congruence.
  - split; [constructor|by left].
  - rewrite length_nibbles_of. lia.
  - unfold VerifyProof. rewrite <- Hget by done. exact Hv.
  - rewrite (Hp q r Hw) in Hb. done.
Qed.

Lemma VerifyProof_authentic proofDb m key fuel :
  map_ok m → stored_map keccak store m → m ≠ ∅ → bytes_ok key → (2 * length key < fuel)%nat →
  (∀ h b b', proofDb h = Some b → store h = Some b' → b = b') →
  VerifyProof fuel (merkle_root keccak m) key proofDb = Ok (m !! key)
  ∨ ∃ i h, proofDb h = None ∧ VerifyProof fuel (merkle_root keccak m) key proofDb = Err (ProofNodeMissing i h).
Proof.
  intros Hok Hst Hne Hk Hf Hdb. destruct (stored_tree m Hok Hne Hst) as (p & Et & Hg & Hroot & -> & Hget).
  pose proof (nibbles_of_ok key Hk) as Hn. rewrite <- Hget by done.
  destruct (VerifyProof_walk proofDb p (nibbles_of key) fuel 0 p (nibbles_of key)) as [Hv|(i & q & r & Hw & Hb & Hv)];
    [done|done|..].
  - intros q r b [Hv Hw] Hb. apply (Hdb _ _ _ Hb). destruct Hw as [->|Hl]; [done|].
    destruct (visits_good _ _ _ _ Hv Hg Hn) as [[_ _ Hs] _]. exact (stored_root _ _ _ Hs Hl).
  - split; [constructor|by left].
  - rewrite length_nibbles_of. lia.
  - left. exact Hv.
  - right. by exists i, (keccak (enc q)).
Qed.
End proofs.

(** ** Lemmas: nodes of an arbitrary proof *)

(** The shape of whatever [decodeNode] returns. *)
Inductive decoded : node → Prop :=
| D_nil : decoded nilNode
| D_hash h : decoded (hashNode h)
| D_leaf path v fl : nibbles_ok path → decoded (shortNode (path ++ [16]) (valueNode v) fl)
| D_ext k val fl : nibbles_ok k → decoded val → decoded (shortNode k val fl)
| D_full cs vn fl :
    length cs = 16%nat → decoded_list cs → (∃ ov, repr_value vn ov) → decoded (fullNode (cs ++ [vn]) fl)
with decoded_list : list node → Prop :=
| DL_nil : decoded_list []
| DL_cons c cs : decoded c → decoded_list cs → decoded_list (c :: cs).

Scheme decoded_mut := Minimality for decoded Sort Prop
with decoded_list_mut := Minimality for decoded_list Sort Prop.

(** [get] does not run out of key or children, and stops with a key. *)
Definition get_safe (n : node) : Prop :=
  ∀ path, nibbles_ok path → ∃ keyrest cld, get n (path ++ [16]) true = Ok (keyrest, cld)
    ∧ match cld with
      | hashNode _ => ∃ path', nibbles_ok path' ∧ keyrest = path' ++ [16]
      | nilNode | valueNode _ => True
      | _ => False
      end.

Lemma get_safe_full cs vn fl :
  length cs = 16%nat → Forall get_safe cs → (∃ ov, repr_value vn ov) → get_safe (fullNode (cs ++ [vn]) fl).
Proof.
  intros Hl HF [ov Hv] path Hp. cbn [get]. change (map ?f ?l) with (f <$> l).
  destruct path as [|x path]; cbn [app]; rewrite list_lookup_fmap.
  - rewrite lookup_value by done. cbn. rewrite Hv. destruct ov; by do 2 eexists.
  - apply nibbles_ok_cons in Hp as [Hx Hp]. rewrite lookup_children by done. unfold is_nibble in Hx.
    destruct (lookup_lt_is_Some_2 cs (Z.to_nat x)) as [c Hc]; [lia|]. rewrite Hc.
    exact (Forall_lookup_1 _ _ _ _ HF Hc path Hp).
Qed.

Lemma get_decoded_safe n : decoded n → get_safe n.
Proof.
  revert n. apply (decoded_mut get_safe (Forall get_safe)).
  - intros path Hp. by do 2 eexists.
  - intros h path Hp. do 2 eexists. split; [reflexivity|]. by exists path.
  - intros k v fl Hk path Hp. cbn [get]. rewrite short_match, strip_term by done. case_bool_decide; by do 2 eexists.
  - intros k val fl Hk _ IH path Hp. cbn [get]. rewrite short_match, strip_nibbles by done.
    destruct (strip k path) as [r|] eqn:E; [|by do 2 eexists]. apply strip_some in E as ->.
    apply nibbles_ok_app in Hp as [_ Hp]. cbn. rewrite <- app_assoc, drop_app_length. by apply IH.
  - intros cs vn fl Hl _ HF Hv. by apply get_safe_full.
  - constructor.
  - intros c cs _ Hc _ HF. by constructor.
Qed.

Lemma compactToHex_shape kbuf : bytes_ok kbuf → ∃ path term, nibbles_ok path ∧ compactToHex kbuf = hex_key path term.
Proof.
  destruct kbuf as [|b bs]; intros Hok; [exists [], false; by split; [constructor|]|].
  rewrite compactToHex_cons. pose proof (nibbles_of_ok _ Hok) as Hn. set (j := Z.to_nat _).
  exists (drop j (nibbles_of (b :: bs))), (negb (b / 16 <? 2)). split; [by apply nibbles_ok_drop|].
  unfold hex_key. rewrite drop_app_le; [done|]. rewrite length_nibbles_of. cbn [length].
  pose proof (Z.land_nonneg (b / 16) 1). lia.
Qed.

Lemma decodeRef_decoded dec buf n rest :
  (∀ hash b n, bytes_ok b → dec hash b = Ok n → decoded n) →
  bytes_ok buf → decodeRef dec buf = Ok (n, rest) → decoded n ∧ bytes_ok rest.
Proof.
  intros Hd Hok. unfold decodeRef. destruct (Split buf) as [[[k val] r]|] eqn:E; [|done]. cbn.
  destruct (Split_inv _ _ _ _ Hok E) as (Eb & _ & _). pose proof Hok as Hok'. rewrite Eb in Hok'.
  apply bytes_ok_app in Hok' as [_ Hr]. destruct (decide (k = KList)).
  - case_if; [done|]. destruct (dec None buf) as [n'|] eqn:En; [|done]. cbn. intros [= <- <-]. eauto.
  - case_if; [intros [= <- <-]; by split; [constructor|]|].
    case_if; [intros [= <- <-]; by split; [constructor|]|done].
Qed.

Lemma decodeChildren_decoded dec n i elems cs rest :
  (∀ hash b n, bytes_ok b → dec hash b = Ok n → decoded n) →
  bytes_ok elems → decodeChildren (decodeRef dec) n i elems = Ok (cs, rest) →
  decoded_list cs ∧ length cs = n ∧ bytes_ok rest.
Proof.
  intros Hd. revert i elems cs. induction n as [|n IH]; intros i elems cs Hok; cbn [decodeChildren].
  { intros [= <- <-]. by split; [constructor|]. }
  destruct (decodeRef dec elems) as [[c r]|] eqn:E; [|done]. cbn.
  destruct (decodeRef_decoded dec elems c r Hd Hok E) as [Hc Hr].
  destruct (decodeChildren _ n (S i) r) as [[cs' r']|] eqn:Ec; [|done]. cbn. intros [= <- <-].
  destruct (IH (S i) r cs' Hr Ec) as (Hcs & Hl & Hr'). split; [by constructor|]. split; [cbn; lia|done].
Qed.

Lemma decodeNode_decoded fuel hash buf n : bytes_ok buf → decodeNode_ fuel hash buf = Ok n → decoded n.
Proof.
  revert hash buf n. induction fuel as [|fuel IH]; intros hash buf n Hok; [done|]. cbn [decodeNode_].
  case_if; [done|]. destruct (SplitList buf) as [[elems rest]|] eqn:E; [|done].
  destruct (SplitList_inv _ _ _ Hok E) as (_ & Hoke & _). cbn [rlp_err mbind result_bind].
  case_if; [|case_if; [|done]].
  - unfold decodeShort. destruct (SplitString elems) as [[kbuf r]|] eqn:Es; [|done].
    destruct (SplitString_inv _ _ _ Hoke Es) as (Eb & Hkb & _). rewrite Eb in Hoke. apply bytes_ok_app in Hoke as [_ Hr].
    destruct (compactToHex_shape kbuf Hkb) as (path & term & Hp & Ek). cbn. rewrite Ek, hasTerm_hex by done. destruct term.
    + destruct (SplitString r) as [[val ?]|]; [|done]. cbn. intros [= <-]. by apply D_leaf.
    + destruct (decodeRef _ r) as [[c r']|] eqn:Ec; [|done]. cbn. intros [= <-].
      unfold hex_key. rewrite app_nil_r. apply D_ext; [done|]. by apply (decodeRef_decoded _ _ _ _ IH Hr Ec).
  - unfold decodeFull. destruct (decodeChildren _ 16 0 elems) as [[cs r]|] eqn:Ec; [|done].
    destruct (decodeChildren_decoded _ _ _ _ _ _ IH Hoke Ec) as (Hcs & Hl & _). cbn [mbind result_bind].
    destruct (SplitString r) as [[val ?]|]; [|done]. cbn. intros [= <-]. apply D_full; [done..|].
    case_if; [by exists (Some val)|by exists None].
Qed.

(** ** Properties *)

(** C29: a Merkle proof verifies.  Let [t] hold the non-empty map [m], loaded,
    cached or behind hashes in any way, and let no two nodes of its tree have
    the same hash ([store] maps hashes to encodings).  The proof that [Prove]
    makes for any key, present or not, verifies against the root hash of [m],
    and [VerifyProof] returns what the map holds. *)
Theorem VerifyProof_Prove (keccak : bytes → bytes) (db_node : bytes → option node) (store : bytes → option bytes)
    (t : Trie) (m : gmap bytes bytes) (key : bytes) (fuel : nat) :
  (∀ b, length (keccak b) = 32%nat) → (∀ b, bytes_ok (keccak b)) →
  hash_valid keccak db_node t m → stored_map keccak store m → m ≠ ∅ → bytes_ok key → (2 * length key < fuel)%nat →
  ∃ proof, Prove keccak db_node key 0 ∅ t = Ok proof
    ∧ VerifyProof fuel (merkle_root keccak m) key (λ h, proof !! h) = Ok (m !! key).
Proof. intros. by eapply Prove_verifies. Qed.

(** C12: a Merkle proof proves nothing false.  Let the proof database hold, under
    the hash of a node of the tree of [m], nothing but that node (as it does
    when it is keyed by hashes and no collision is known); what else it holds
    does not matter.  Then the verifier ends after at most one node per nibble
    of the key, and returns the value of the key in [m] or complains about a
    missing node. *)
Theorem VerifyProof_sound (keccak : bytes → bytes) (store proofDb : bytes → option bytes)
    (m : gmap bytes bytes) (key : bytes) (fuel : nat) :
  (∀ b, length (keccak b) = 32%nat) → (∀ b, bytes_ok (keccak b)) →
  map_ok m → stored_map keccak store m → m ≠ ∅ → bytes_ok key → (2 * length key < fuel)%nat →
  (∀ h b b', proofDb h = Some b → store h = Some b' → b = b') →
  VerifyProof fuel (merkle_root keccak m) key proofDb = Ok (m !! key)
  ∨ ∃ i h, proofDb h = None ∧ VerifyProof fuel (merkle_root keccak m) key proofDb = Err (ProofNodeMissing i h).
Proof. intros. by eapply VerifyProof_authentic. Qed.

(** No proof makes the verifier panic: on any root hash, any key and any
    collection of byte strings, no index into a key or into the children of a
    node is out of range. *)
Theorem VerifyProof_no_panic (proofDb : bytes → option bytes) (rootHash key : bytes) (fuel : nat) :
  (∀ h b, proofDb h = Some b → bytes_ok b) → bytes_ok key →
  VerifyProof fuel rootHash key proofDb ≠ Err ProofPanic.
Proof.
  intros Hdb Hk. unfold VerifyProof. change (keybytesToHex key) with (nibbles_of key ++ [16]).
  pose proof (nibbles_of_ok key Hk) as Hp. revert Hp. generalize (nibbles_of key) 0 rootHash. clear Hk key rootHash.
  induction fuel as [|fuel IH]; intros path i h Hp; [done|]. cbn [VerifyProof_loop].
  destruct (proofDb h) as [buf|] eqn:Eb; [|done]. destruct (decodeNode (Some h) buf) as [n|] eqn:En; [|done].
  destruct (get_decoded_safe n (decodeNode_decoded _ _ _ _ (Hdb _ _ Eb) En) path Hp) as (kr & cld & -> & Hc).
  destruct cld as [| | |h'|]; try done. destruct Hc as (path' & Hp' & ->). by apply IH.
Qed.

Lemma example_trie_valid :
  ∃ t, hash_valid toy_digest (mustDecodeNode example_store) t example_map.
Proof.
  destruct (New_stored_ok toy_digest (λ _, eq_refl) toy_digest_ok example_store example_map) as (t & _ & Ht);
    [exact example_map_ok|exact example_stored|intros _; split; vm_compute; discriminate|by exists t].
Qed.

Lemma VerifyProof_Prove_witness :
  ∃ t proof, Prove toy_digest (mustDecodeNode example_store) [1; 2] 0 ∅ t = Ok proof
    ∧ VerifyProof 5 (merkle_root toy_digest example_map) [1; 2] (λ h, proof !! h) = Ok (Some (replicate 40 1)).
Proof.
  destruct example_trie_valid as [t Ht]. exists t.
  apply (VerifyProof_Prove toy_digest (mustDecodeNode example_store) example_store t example_map [1; 2] 5).
  - done.
  - apply toy_digest_ok.
  - exact Ht.
  - exact example_stored.
  - vm_compute. discriminate.
  - repeat constructor; unfold is_byte; lia.
  - cbn. lia.
Defined.

Lemma VerifyProof_sound_witness :
  VerifyProof 5 (merkle_root toy_digest example_map) [1; 3] example_store = Ok (Some [2])
  ∨ ∃ i h, example_store h = None
      ∧ VerifyProof 5 (merkle_root toy_digest example_map) [1; 3] example_store = Err (ProofNodeMissing i h).
Proof.
  apply (VerifyProof_sound toy_digest example_store example_store example_map [1; 3] 5).
  - done.
  - apply toy_digest_ok.
  - exact example_map_ok.
  - exact example_stored.
  - vm_compute. discriminate.
  - repeat constructor; unfold is_byte; lia.
  - cbn. lia.
  - intros h b b' E1 E2. congruence.
Defined.

Lemma VerifyProof_no_panic_witness :
  VerifyProof 5 (replicate 32 7) [1; 3] (λ _, Some [0xc3; 0x20; 0xc1; 0x80]) ≠ Err ProofPanic.
Proof.
  apply VerifyProof_no_panic.
  - intros h b [= <-]. repeat constructor; unfold is_byte; lia.
  - repeat constructor; unfold is_byte; lia.
Defined.
