(* ===== verification/StackTrie.v ===== *)
(** * Stack tries (src/trie/stacktrie.go, src/core/types/derive_sha.go)

    A trie that takes its keys in increasing order and hashes a subtree as
    soon as no key can come below it any more.  The theorems show that it
    computes the Merkle root that the trie of Trie.v has for the same
    contents, that what it writes to its database can be opened as a trie, and
    that [DeriveSha] feeds it the indices of a list in the right order.

    A node is a tagged union: of the fields of the Go struct it has those that
    its type uses.  Nodes are not shared, the pool of unused ones is left out,
    and the values given to the trie belong to it (it writes hashes over
    them).  The database is the sequence of the calls of its [Put], [None] for
    the nil pointer. *)
From S2P Require Import Prelude RlpEncode RlpRaw TrieEncoding TrieSpec Trie TrieHash TrieDecode.
From stdpp Require Import sorting.
Local Open Scope Z_scope.

Inductive StackTrie :=
| emptyNode (keyOffset : nat)
| branchNode (keyOffset : nat) (children : list (option StackTrie))
| extNode (keyOffset : nat) (key : bytes) (child : StackTrie)
| leafNode (keyOffset : nat) (key val : bytes)
| hashedNode (val : bytes).

Definition KeyValueStore : Type := option (list (bytes * bytes)).

Definition Put (key val : bytes) (db : KeyValueStore) : KeyValueStore :=
  match db with Some puts => Some (puts ++ [(key, val)]) | None => None end.

Inductive stack_panic := PanicDeletion | PanicExistingKey | PanicHashed | PanicIndex.

Definition NewStackTrie : StackTrie := emptyNode 0.

(** [key[ko:]] panics when [ko] is past the end of [key]. *)
Definition newLeaf (ko : nat) (key val : bytes) : result stack_panic StackTrie :=
  if (ko <=? length key)%nat then Ok (leafNode ko (drop ko key) val) else Err PanicIndex.

Definition index (l : bytes) (i : nat) : result stack_panic Z :=
  match l !! i with Some x => Ok x | None => Err PanicIndex end.

(** [getDiffIndex], where the rest of the key is [key[st.keyOffset:]]. *)
Fixpoint getDiffIndex (chunk rest : bytes) : result stack_panic nat :=
  match chunk, rest with
  | [], _ => Ok 0%nat
  | _ :: _, [] => Err PanicIndex
  | x :: chunk, y :: rest => if x =? y then S <$> getDiffIndex chunk rest else Ok 0%nat
  end.

Section stacktrie.
Variable keccak : bytes → bytes.

(** ** Hashing *)

(** A child as it appears in the encoding of its parent. *)
Definition child_value (val : bytes) : RlpEncode.value :=
  VInterface (Some (if len val <? 32 then VEncoder (VRaw val) else VBytes val)).

(** What [rlp.Encode] writes to [h.tmp]. *)
Definition encode_tmp (v : RlpEncode.value) : bytes :=
  match Encode v with Ok chunks => concat chunks | Err _ => [] end.

(** The end of [hash]: small encodings are kept, large ones are hashed. *)
Definition settle_hash (tmp : bytes) (db : KeyValueStore) : bytes * KeyValueStore :=
  if len tmp <? 32 then (tmp, db) else (keccak tmp, Put (keccak tmp) tmp db).

(** [st.key[:hexToCompactInPlace(st.key)]]. *)
Definition compact_in_place (key : bytes) : bytes :=
  match hexToCompactInPlace key with Some (buf, sz) => take sz buf | None => [] end.

(** Hash the children of a branch, in order. *)
Definition hash_children (hash : StackTrie → KeyValueStore → bytes * KeyValueStore) :=
  fix go (children : list (option StackTrie)) (db : KeyValueStore) : list RlpEncode.value * KeyValueStore :=
    match children with
    | [] => ([], db)
    | None :: children =>
        let '(nodes, db) := go children db in (VInterface (Some (VBytes [])) :: nodes, db)
    | Some child :: children =>
        let '(val, db) := hash child db in
        let '(nodes, db) := go children db in (child_value val :: nodes, db)
    end.

(** The field [val] after [hash]: the node itself becomes [hashedNode val]. *)
Fixpoint hash (st : StackTrie) (db : KeyValueStore) : bytes * KeyValueStore :=
  match st with
  | hashedNode val => (val, db)
  | branchNode _ children =>
      let '(nodes, db) := hash_children hash children db in
      settle_hash (encode_tmp (VSlice false (nodes ++ [VInterface (Some (VBytes []))]))) db
  | extNode _ key child =>
      let '(val, db) := hash child db in
      settle_hash (encode_tmp (VStruct [VBytes (compact key); child_value val])) db
  | leafNode _ key val =>
      settle_hash (encode_tmp (VSlice false [VBytes (compact_in_place (key ++ [16])); VBytes val])) db
  | emptyNode _ => (emptyRoot, db)
  end.

Definition Hash (st : StackTrie) (db : KeyValueStore) : bytes * StackTrie * KeyValueStore :=
  let '(val, db) := hash st db in
  (BytesToHash (if len val =? 32 then val else keccak val), hashedNode val, db).

(** [None] is ErrCommitDisabled. *)
Definition Commit (st : StackTrie) (db : KeyValueStore) : option (bytes * StackTrie * KeyValueStore) :=
  match db with
  | None => None
  | Some _ =>
      let '(val, db) := hash st db in
      if len val =? 32 then Some (BytesToHash val, hashedNode val, db)
      else Some (BytesToHash (keccak val), hashedNode val, Put (keccak val) val db)
  end.

(** ** Insertion *)

(** Hash the nearest of the first [n] children, unless it is hashed. *)
Fixpoint hash_elder (n : nat) (children : list (option StackTrie)) (db : KeyValueStore)
    : list (option StackTrie) * KeyValueStore :=
  match n with
  | O => (children, db)
  | S i =>
      match children !! i with
      | Some (Some child) =>
          let '(val, db) := hash child db in (<[i := Some (hashedNode val)]> children, db)
      | _ => hash_elder i children db
      end
  end.

(** The branch where an old node and a new leaf part. *)
Definition fork_node (ko diffidx : nat) (key : bytes) (origIdx newIdx : Z) (n o : StackTrie) : StackTrie :=
  let children := <[Z.to_nat newIdx := Some o]> (<[Z.to_nat origIdx := Some n]> (replicate 16 None)) in
  if (diffidx =? 0)%nat then branchNode ko children
  else extNode ko (take diffidx key) (branchNode (ko + diffidx) children).

(** The child at an index, which is in range, or what a missing one gives. *)
Definition at_child {R} (none : result stack_panic R) (some : StackTrie → result stack_panic R) :=
  fix go (i : nat) (children : list (option StackTrie)) {struct children} : result stack_panic R :=
    match children, i with
    | [], _ => Err PanicIndex
    | Some child :: _, O => some child
    | None :: _, O => none
    | _ :: children, S i => go i children
    end.

Fixpoint insert (st : StackTrie) (key value : bytes) (db : KeyValueStore) {struct st}
    : result stack_panic (StackTrie * KeyValueStore) :=
  match st with
  | branchNode ko children =>
      match key !! ko with
      | None => Err PanicIndex
      | Some idx =>
          let '(elder, db) := hash_elder (Z.to_nat idx) children db in
          '(child, db) ←
            at_child (st ← newLeaf (S ko) key value; Ok (st, db)) (λ child, insert child key value db)
              (Z.to_nat idx) children;
          Ok (branchNode ko (<[Z.to_nat idx := Some child]> elder), db)
      end
  | extNode ko chunk child =>
      diffidx ← getDiffIndex chunk (drop ko key);
      if (diffidx =? length chunk)%nat then
        '(child, db) ← insert child key value db; Ok (extNode ko chunk child, db)
      else
        let n := if (diffidx <? length chunk - 1)%nat
                 then extNode (diffidx + 1) (drop (diffidx + 1) chunk) child else child in
        let '(val, db) := hash n db in
        o ← newLeaf (ko + diffidx + 1) key value;
        origIdx ← index chunk diffidx;
        newIdx ← index key (diffidx + ko);
        Ok (fork_node ko diffidx chunk origIdx newIdx (hashedNode val) o, db)
  | leafNode ko chunk v =>
      diffidx ← getDiffIndex chunk (drop ko key);
      if (length chunk <=? diffidx)%nat then Err PanicExistingKey
      else
        origIdx ← index chunk diffidx;
        n ← newLeaf (diffidx + 1) chunk v;
        let '(val, db) := hash n db in
        newIdx ← index key (diffidx + ko);
        o ← newLeaf (ko + diffidx + 1) key value;
        Ok (fork_node ko diffidx chunk origIdx newIdx (hashedNode val) o, db)
  | emptyNode ko => st ← newLeaf ko key value; Ok (st, db)
  | hashedNode _ => Err PanicHashed
  end.

Definition TryUpdate (key value : bytes) (st : StackTrie) (db : KeyValueStore)
    : result stack_panic (StackTrie * KeyValueStore) :=
  let k := keybytesToHex key in
  match value with
  | [] => Err PanicDeletion
  | _ => insert st (take (length k - 1) k) value db
  end.

Fixpoint update_all (kvs : list (bytes * bytes)) (st : StackTrie) (db : KeyValueStore)
    : result stack_panic (StackTrie * KeyValueStore) :=
  match kvs with
  | [] => Ok (st, db)
  | (key, value) :: kvs => '(st, db) ← TryUpdate key value st db; update_all kvs st db
  end.

(** [DeriveSha] of a list, given as the encodings of its items: the calls of
    [Update] in order, and [Hash]. *)
Definition derive_order (n : nat) : list nat :=
  seq 1 (Nat.min (n - 1) 127) ++ (if (0 <? n)%nat then [0%nat] else []) ++ seq 128 (n - 128).
Definition DeriveSha (items : list bytes) : result stack_panic bytes :=
  let kvs := map (λ i, (AppendUint64 [] (Z.of_nat i), default [] (items !! i))) (derive_order (length items)) in
  '(st, db) ← update_all kvs NewStackTrie None;
  Ok (Hash st db).1.1.

(** ** Order of keys *)

(** The keys part, and the first goes lower. *)
Definition before (a b : bytes) : Prop := ∃ p x y r s, a = p ++ x :: r ∧ b = p ++ y :: s ∧ x < y.

Lemma before_cons x a y b : before (x :: a) (y :: b) ↔ x < y ∨ x = y ∧ before a b.
Proof.
  split.
  - intros ([|z p] & u & w & r & s & Ea & Eb & Hl); cbn in Ea, Eb; injection Ea as -> ->; injection Eb as -> ->; [by left|].
    right. split; [done|]. by exists p, u, w, r, s.
  - intros [Hl|[-> (p & u & w & r & s & -> & -> & Hl)]]; [by exists [], x, y, a, b|]. by exists (y :: p), u, w, r, s.
Qed.
Lemma before_app k a b : before (k ++ a) (k ++ b) ↔ before a b.
Proof. induction k as [|x k IH]; [done|]. cbn. rewrite before_cons, IH. split; [|by right]. intros [?|[_ ?]]; [lia|done]. Qed.
Lemma before_nil_r a : ¬ before a [].
Proof. intros ([|? ?] & ? & ? & ? & ? & _ & E & _); done. Qed.
Lemma before_nil_l b : ¬ before [] b.
Proof. intros ([|? ?] & ? & ? & ? & ? & E & _); done. Qed.

Lemma before_trans a b c : before a b → before b c → before a c.
Proof.
  revert b c. induction a as [|x a IH]; intros b c H1 H2; [by apply before_nil_l in H1|].
  destruct b as [|y b]; [by apply before_nil_r in H1|]. destruct c as [|z c]; [by apply before_nil_r in H2|].
  rewrite before_cons in *. destruct H1 as [?|[-> ?]], H2 as [?|[-> ?]]; [left; lia|by left|by left|right].
  split; [done|]. by eapply IH.
Qed.

Lemma before_nibbles a b : bytes_ok a → bytes_ok b → before a b → before (nibbles_of a) (nibbles_of b).
Proof.
  intros Ha Hb. revert b Hb. induction a as [|x a IH]; intros b Hb H; [by apply before_nil_l in H|].
  destruct b as [|y b]; [by apply before_nil_r in H|]. rewrite !nibbles_of_cons, !before_cons.
  apply bytes_ok_cons in Ha as [Hx Ha], Hb as [Hy Hb]. unfold is_byte in Hx, Hy.
  apply before_cons in H as [Hl|[-> H]]; [|right; split; [done|]; right; split; [done|]; by apply IH].
  pose proof (Z.div_mod x 16). pose proof (Z.div_mod y 16). pose proof (Z.mod_pos_bound x 16). pose proof (Z.mod_pos_bound y 16). lia.
Qed.

(** A subtree has a key, and if all keys of a branch come before a key, the
    branch is left behind or continues. *)
Lemma diff_split chunk c x a b y :
  chunk = c ++ x :: a → x ≠ y →
  getDiffIndex chunk (c ++ y :: b) = Ok (length c) ∧ prefixLen (c ++ y :: b) chunk = length c.
Proof.
  intros -> Hne. induction c as [|z c [IH1 IH2]]; cbn.
  - split; [destruct (Z.eqb_spec x y); [done|done]|destruct (Z.eqb_spec y x); [by subst|done]].
  - rewrite !Z.eqb_refl, IH1, IH2. done.
Qed.
Lemma diff_prefix chunk r : getDiffIndex chunk (chunk ++ r) = Ok (length chunk).
Proof. induction chunk as [|z c IH]; cbn; [done|]. by rewrite Z.eqb_refl, IH. Qed.

(** ** What a stack trie stands for *)

(** The blob has been written, if there is a database. *)
Definition in_db (db : KeyValueStore) (b : bytes) : Prop :=
  match db with Some puts => (keccak b, b) ∈ puts | None => True end.
Definition in_db_node (db : KeyValueStore) (p : pt) : Prop := 32 ≤ len (enc keccak p) → in_db db (enc keccak p).
Fixpoint recorded (db : KeyValueStore) (p : pt) : Prop :=
  match p with
  | PLeaf _ _ => in_db_node db p
  | PBr k cs ov => in_db_node db p ∧ in_db_node db (PBr [] cs ov) ∧ all_children (recorded db) cs
  end.

Definition grows (db db' : KeyValueStore) : Prop := (db = None ↔ db' = None) ∧ ∀ b, in_db db b → in_db db' b.
#[local] Instance grows_preorder : PreOrder grows.
Proof.
  split; [by split|]. intros d1 d2 d3 [H1 H2] [H3 H4]. split; [by rewrite H1|]. intros b Hb. by apply H4, H2.
Qed.

Lemma recorded_grows db db' p : grows db db' → recorded db p → recorded db' p.
Proof.
  intros [_ Hg]. induction p as [k v|k cs ov IH] using pt_ind'; [intros H Hl; by apply Hg, H|].
  intros (H1 & H2 & H3). split; [intros Hl; by apply Hg, H1|]. split; [intros Hl; by apply Hg, H2|].
  apply all_children_Forall. apply all_children_Forall in H3. clear H1 H2.
  induction IH as [|oc cs Hoc _ IH']; [constructor|]. inversion H3; subst. constructor; [|by apply IH'].
  destruct oc as [c|]; [|done]. by apply Hoc.
Qed.

(** The value of a hashed node. *)
Definition refval (b : bytes) : bytes := if len b <? 32 then b else keccak b.

Inductive srepr (db : KeyValueStore) : nat → StackTrie → pt → Prop :=
| S_leaf ko k v : srepr db ko (leafNode ko k v) (PLeaf k v)
| S_branch ko cs ps :
    Forall2 (option_Forall2 (srepr db (S ko))) cs ps → srepr db ko (branchNode ko cs) (PBr [] ps None)
| S_ext ko k c ps :
    k ≠ [] → srepr db (ko + length k) c (PBr [] ps None) → srepr db ko (extNode ko k c) (PBr k ps None)
| S_hashed ko p : recorded db p → srepr db ko (hashedNode (refval (enc keccak p))) p.

(** The last subtree, on all levels, is open. *)
Inductive live : StackTrie → Prop :=
| L_leaf ko k v : live (leafNode ko k v)
| L_ext ko k c : live c → live (extNode ko k c)
| L_branch ko cs i c :
    cs !! i = Some (Some c) → live c → (∀ j c', cs !! j = Some (Some c') → (j ≤ i)%nat) → live (branchNode ko cs).

Lemma srepr_grows db db' p : grows db db' → ∀ ko st, srepr db ko st p → srepr db' ko st p.
Proof.
  intros Hg. induction p as [k v|k ps ov IH] using pt_ind'; intros ko st Hr.
  - inversion Hr; subst; constructor. by eapply recorded_grows.
  - assert (∀ ko cs ps, Forall (on_child (λ p, ∀ ko st, srepr db ko st p → srepr db' ko st p)) ps →
      Forall2 (option_Forall2 (srepr db (S ko))) cs ps → Forall2 (option_Forall2 (srepr db' (S ko))) cs ps) as Hcs.
    { intros ko' cs' ps' H1 H2. induction H2 as [|? ? ? ? Ho _ IH2]; [constructor|]. inversion H1; subst.
      constructor; [|by apply IH2]. destruct Ho as [c p Hc|]; constructor. by apply H2. }
    inversion Hr as [|? cs ? HF|? ? c ? Hk Hc|? ? Hrec]; subst.
    + constructor. by apply Hcs.
    + constructor; [done|]. inversion Hc as [|? cs ? HF|? ? ? ? Hk'|? ? Hrec]; subst; [|done|].
      * constructor. by apply Hcs.
      * constructor. by eapply recorded_grows.
    + constructor. by eapply recorded_grows.
Qed.

(** ** Hashing *)

Hypothesis keccak_length : ∀ b, length (keccak b) = 32%nat.
Hypothesis keccak_bytes : ∀ b, bytes_ok (keccak b).

Lemma grows_Put h b db : grows db (Put h b db).
Proof. split; [by destruct db|]. intros b' Hb. destruct db as [puts|]; [|done]. cbn in *. apply elem_of_app. by left. Qed.

Lemma settle_hash_ok b db :
  let r := settle_hash b db in
  r.1 = refval b ∧ grows db r.2 ∧ (32 ≤ len b → in_db r.2 b).
Proof.
  unfold settle_hash, refval. destruct (Z.ltb_spec (len b) 32) as [Hl|Hl]; cbn; [split; [done|]; split; [done|lia]|].
  split; [done|]. split; [apply grows_Put|]. intros _. destruct db as [puts|]; [|done]. cbn. apply elem_of_app. right. by left.
Qed.

Lemma encode_tmp_ok v out : value_ok v → rlp_spec v = Ok out → len out < 2 ^ 64 → encode_tmp v = out.
Proof.
  intros Hok Hs Hl. pose proof (EncodeToBytes_ok _ _ Hok Hs Hl) as E.
  unfold encode_tmp, Encode. unfold EncodeToBytes in E.
  destruct (write v encbuf_reset) as [w|]; [|done]. cbn in *. rewrite toWriter_concat. congruence.
Qed.

(** A node value stands for the reference to an encoding. *)
Definition refers (v : RlpEncode.value) (out : bytes) : Prop := rlp_spec v = Ok out ∧ value_ok v.

Lemma child_value_ok b : bytes_ok b → refers (child_value (refval b)) (ref_of keccak b).
Proof.
  intros Hb. unfold refers, child_value, refval, ref_of. destruct (Z.ltb_spec (len b) 32) as [Hl|Hl].
  - rewrite (proj2 (Z.ltb_lt _ _) Hl). done.
  - rewrite keccak_length. cbn. split; [done|apply keccak_bytes].
Qed.

(** The result of hashing a node of the tree [p]. *)
Definition hashes_to (st : StackTrie) (p : pt) (db : KeyValueStore) : Prop :=
  ∃ db', hash st db = (refval (enc keccak p), db') ∧ grows db db' ∧ recorded db' p.

Lemma enc_bytes p : canonical p → sized p → bytes_ok (enc keccak p).
Proof. intros Hc Hz. by destruct (node_enc_item keccak keccak_length keccak_bytes p Hc Hz). Qed.

Lemma compact_in_place_ok path : nibbles_ok path → len path < 2 ^ 60 → compact_in_place (path ++ [16]) = compact (path ++ [16]).
Proof.
  intros Hp _. destruct (inplace_path path true Hp) as (buf & E1 & E2); [by destruct path|]. unfold hex_key in E1, E2.
  unfold compact_in_place, compact. by rewrite E1, E2.
Qed.

Lemma hashes_settle st p db db1 v :
  canonical p → sized p → hash st db = settle_hash (encode_tmp v) db1 →
  refers v (enc keccak p) → grows db db1 → (∀ db', grows db1 db' → in_db_node db' p → recorded db' p) → hashes_to st p db.
Proof.
  intros Hc Hz Eh [Hs Hv] Hg Hrec. rewrite (encode_tmp_ok v (enc keccak p)) in Eh; [|done|done|by apply enc_len].
  destruct (settle_hash_ok (enc keccak p) db1) as (E1 & E2 & E3). exists (settle_hash (enc keccak p) db1).2.
  split; [rewrite Eh; by destruct (settle_hash _ _); cbn in *; subst|]. split; [by etrans|]. by apply Hrec.
Qed.

Lemma hash_leaf ko k v db : canonical (PLeaf k v) → sized (PLeaf k v) → hashes_to (leafNode ko k v) (PLeaf k v) db.
Proof.
  intros Hc Hz. eapply hashes_settle; [done|done|done| |done|done]. destruct Hc as [Hk _], Hz as [Hl [Hvb _]].
  rewrite compact_in_place_ok by done. destruct (compact_item k true Hk Hl) as (_ & Hcb & _). unfold hex_key in Hcb.
  split; [|done]. cbn [rlp_spec].
  rewrite (spec_all_concat _ [rlp_string (compact (k ++ [16])); rlp_string v]); [|by do 2 (constructor; [done|])].
  cbn. by rewrite app_nil_r.
Qed.

Lemma hash_children_ok cs ps ko db :
  Forall (on_child (λ p, ∀ ko st db, srepr db ko st p → canonical p → sized p → hashes_to st p db)) ps →
  Forall2 (option_Forall2 (srepr db (S ko))) cs ps → all_children canonical ps → all_children sized ps →
  ∃ nodes db', hash_children hash cs db = (nodes, db') ∧ grows db db'
    ∧ Forall2 refers nodes (map (child_ref keccak) ps) ∧ all_children (recorded db') ps.
Proof.
  rewrite !all_children_Forall. intros IH HF Hc Hz. revert db HF.
  induction ps as [|op ps IHps] in cs, IH, Hc, Hz |- *; intros db HF.
  - inversion HF; subst. exists [], db. cbn. split; [done|]. split; [done|]. split; [constructor|done].
  - inversion HF as [|oc ? cs' ? Ho HF']; subst. inversion IH as [|? ? IHo IH']; inversion Hc as [|? ? Hco Hc']; inversion Hz as [|? ? Hzo Hz']; subst.
    destruct Ho as [c p Hr|]; cbn [hash_children]; fold (hash_children hash).
    + destruct (IHo _ _ _ Hr Hco Hzo) as (db1 & -> & Hg1 & Hrec).
      destruct (IHps cs' IH' Hc' Hz' db1) as (nodes & db2 & -> & Hg2 & HR & Hall).
      { eapply Forall2_impl; [exact HF'|]. intros ? ? [? ? ?|]; constructor. by eapply srepr_grows. }
      eexists _, db2. split; [done|]. split; [by etrans|].
      split; [constructor; [by apply child_value_ok, enc_bytes|done]|]. cbn. split; [by eapply recorded_grows|done].
    + destruct (IHps cs' IH' Hc' Hz' db HF') as (nodes & db2 & -> & Hg2 & HR & Hall).
      eexists _, db2. split; [done|]. split; [done|]. split; [constructor; [|done]|done].
      split; [done|apply bytes_ok_nil].
Qed.

Lemma refers_all nodes outs : Forall2 refers nodes outs → refers (VSlice false nodes) (rlp_list (concat outs)).
Proof.
  intros HF. split.
  - cbn [rlp_spec]. rewrite (spec_all_concat _ outs); [done|]. eapply Forall2_impl; [exact HF|]. by intros ? ? [? _].
  - cbn [value_ok]. apply all_values_Forall. induction HF as [|? ? ? ? [_ ?] _ ?]; by constructor.
Qed.

Lemma hash_branch ko cs ps db :
  Forall (on_child (λ p, ∀ ko st db, srepr db ko st p → canonical p → sized p → hashes_to st p db)) ps →
  Forall2 (option_Forall2 (srepr db (S ko))) cs ps → canonical (PBr [] ps None) → sized (PBr [] ps None) →
  hashes_to (branchNode ko cs) (PBr [] ps None) db.
Proof.
  intros IH HF Hc Hz. pose proof Hc as (_ & _ & _ & _ & Hcs). pose proof Hz as (_ & _ & Hzs).
  destruct (hash_children_ok cs ps ko db IH HF Hcs Hzs) as (nodes & db' & E & Hg & HR & Hall).
  eapply (hashes_settle _ _ db db'); [done|done|cbn [hash]; by rewrite E| |done|].
  - rewrite enc_br. unfold enc_full.
    replace (concat (map (child_ref keccak) ps) ++ rlp_string []) with (concat (map (child_ref keccak) ps ++ [rlp_string []]))
      by (rewrite concat_app; cbn; done).
    apply refers_all, Forall2_app; [done|]. constructor; [|constructor]. split; [done|apply bytes_ok_nil].
  - intros db2 Hg2 Hn. split; [done|]. split; [done|]. apply all_children_Forall. apply all_children_Forall in Hall.
    eapply Forall_impl; [exact Hall|]. intros [c|]; [|done]. by apply recorded_grows.
Qed.

Lemma hash_ext ko k c ps db :
  k ≠ [] → hashes_to c (PBr [] ps None) db → canonical (PBr k ps None) → sized (PBr k ps None) →
  hashes_to (extNode ko k c) (PBr k ps None) db.
Proof.
  intros Hk (db1 & E & Hg & Hrec) Hc Hz. destruct (branch_of_ext k ps None Hc Hz) as [Hc' Hz'].
  pose proof (enc_bytes _ Hc' Hz') as Hb. destruct Hc as (Hnk & Hc), Hz as (Hlk & Hz).
  destruct (compact_item k false Hnk Hlk) as (_ & Hcb & _). unfold hex_key in Hcb. rewrite app_nil_r in Hcb.
  eapply (hashes_settle _ _ db db1); [by split|by split|cbn [hash]; by rewrite E| |done|].
  - rewrite enc_br. destruct k as [|x k]; [done|]. destruct (child_value_ok _ Hb) as [Hs Hv].
    split; [|by split; [done|split]]. cbn [rlp_spec].
    rewrite (spec_all_concat _ [rlp_string (compact (x :: k)); ref_of keccak (enc_full keccak ps None)]);
      [|by do 2 (constructor; [done|])].
    cbn. by rewrite app_nil_r.
  - intros db2 Hg2 Hn. split; [done|]. destruct Hrec as (H1 & _ & H3).
    split; [intros Hl; by apply Hg2, H1|]. apply all_children_Forall. apply all_children_Forall in H3.
    eapply Forall_impl; [exact H3|]. intros [c'|]; [|done]. by apply recorded_grows.
Qed.

Lemma hash_hashed p db : recorded db p → hashes_to (hashedNode (refval (enc keccak p))) p db.
Proof. intros Hr. by exists db. Qed.

Lemma stack_hash_spec p : ∀ ko st db, srepr db ko st p → canonical p → sized p → hashes_to st p db.
Proof.
  induction p as [k v|k ps ov IH] using pt_ind'; intros ko st db Hr Hc Hz.
  - inversion Hr; subst; [by apply hash_leaf|by apply hash_hashed].
  - inversion Hr as [|? cs ? HF|? ? c ? Hk Hcr|? ? Hrec]; subst; [by apply hash_branch| |by apply hash_hashed].
    destruct (branch_of_ext k ps None Hc Hz) as [Hc' Hz']. apply hash_ext; [done| |done|done].
    inversion Hcr as [|? cs ? HF|? ? ? ? Hk'|? ? Hrec]; subst; [by apply hash_branch|done|by apply hash_hashed].
Qed.

(** ** Insertion *)

Lemma srepr_list_grows db db' ko cs ps :
  grows db db' → Forall2 (option_Forall2 (srepr db ko)) cs ps → Forall2 (option_Forall2 (srepr db' ko)) cs ps.
Proof. intros Hg HF. eapply Forall2_impl; [exact HF|]. intros ? ? [? ? ?|]; constructor. by eapply srepr_grows. Qed.

Lemma hash_elder_ok n ko cs ps db :
  Forall2 (option_Forall2 (srepr db ko)) cs ps → all_children canonical ps → all_children sized ps →
  ∃ cs' db', hash_elder n cs db = (cs', db') ∧ grows db db' ∧ Forall2 (option_Forall2 (srepr db' ko)) cs' ps
    ∧ ∀ j, (n ≤ j)%nat → cs' !! j = cs !! j.
Proof.
  intros HF Hc Hz. induction n as [|i IH]; cbn [hash_elder]; [by exists cs, db|].
  assert (∃ cs' db', hash_elder i cs db = (cs', db') ∧ grows db db' ∧ Forall2 (option_Forall2 (srepr db' ko)) cs' ps
    ∧ ∀ j, (S i ≤ j)%nat → cs' !! j = cs !! j) as Hrest.
  { destruct IH as (cs' & db' & E & Hg & HF' & Hj). exists cs', db'. repeat (split; [done|]). intros j Hij. apply Hj. lia. }
  destruct (cs !! i) as [[c|]|] eqn:Ei; [|done..]. clear IH Hrest.
  destruct (Forall2_lookup_l _ _ _ _ _ HF Ei) as (op & Ep & Ho). inversion Ho as [? p Hr|]; subst.
  rewrite all_children_Forall, Forall_lookup in Hc, Hz.
  destruct (stack_hash_spec p ko c db Hr (Hc _ _ Ep) (Hz _ _ Ep)) as (db' & -> & Hg & Hrec).
  eexists _, db'. split; [done|]. split; [done|]. split.
  - rewrite <- (list_insert_id ps i (Some p)) by done. apply Forall2_insert; [by eapply srepr_list_grows|].
    constructor. by constructor.
  - intros j Hij. apply list_lookup_insert_ne. lia.
Qed.

Lemma at_child_ok {R} (none : result stack_panic R) some i cs :
  at_child none some i cs = match cs !! i with Some (Some c) => some c | Some None => none | None => Err PanicIndex end.
Proof. revert i. induction cs as [|[c|] cs IH]; intros [|i]; cbn; try done; apply IH. Qed.

Lemma newLeaf_ok ko key v : (ko ≤ length key)%nat → newLeaf ko key v = Ok (leafNode ko (drop ko key) v).
Proof. intros H. unfold newLeaf. by rewrite (proj2 (Nat.leb_le _ _) H). Qed.

Lemma drop_split {A} ko (key c : list A) y b : drop ko key = c ++ y :: b →
  (ko + length c + 1 ≤ length key)%nat ∧ key !! (length c + ko)%nat = Some y ∧ drop (ko + length c + 1) key = b.
Proof.
  intros E. assert (length (drop ko key) = length c + S (length b))%nat as El by (rewrite E, length_app; done).
  rewrite length_drop in El. split; [lia|]. split.
  - rewrite (Nat.add_comm (length c)), <- lookup_drop, E. by rewrite list_lookup_middle.
  - rewrite <- Nat.add_assoc, <- drop_drop, E, drop_app_add. done.
Qed.

(** The branch at the place where an old subtree and a new leaf part. *)
Lemma fork_ok db ko c x a y b n pn v :
  is_nibble x → is_nibble y → x < y → (∀ ko', srepr db ko' n pn) →
  let o := leafNode (ko + length c + 1) b v in
  let st := fork_node ko (length c) (c ++ x :: a) x y n o in
  srepr db ko st (PBr c (<[Z.to_nat y := Some (PLeaf b v)]> (<[Z.to_nat x := Some pn]> no_children)) None) ∧ live st.
Proof.
  intros Hx Hy Hxy Hn o st. unfold is_nibble in *. subst st. unfold fork_node. rewrite take_app_length.
  set (cs := <[Z.to_nat y := Some o]> _). set (ps := <[Z.to_nat y := Some (PLeaf b v)]> _).
  assert (Forall2 (option_Forall2 (srepr db (S (ko + length c)))) cs ps) as HF.
  { subst cs ps. apply Forall2_insert; [apply Forall2_insert|]; [|by constructor|constructor].
    - unfold no_children. apply Forall2_replicate. constructor.
    - subst o. replace (ko + length c + 1)%nat with (S (ko + length c)) by lia. constructor. }
  assert (∀ ko', live (branchNode ko' cs)) as Hlive.
  { intros ko'. subst cs. apply (L_branch _ _ (Z.to_nat y) o); [apply list_lookup_insert_eq|constructor|].
    - rewrite length_insert, length_replicate. lia.
    - intros j c'. destruct (decide (j = Z.to_nat y)) as [->|Hj]; [lia|]. rewrite list_lookup_insert_ne by lia.
      destruct (decide (j = Z.to_nat x)) as [->|Hj']; [lia|]. rewrite list_lookup_insert_ne by lia.
      intros [? ?]%lookup_replicate. done. }
  destruct c as [|z c]; cbn [length Nat.eqb].
  - split; [|apply Hlive]. constructor. cbn [length] in HF. by rewrite Nat.add_0_r in HF.
  - split; [constructor; [done|]|constructor; apply Hlive]. by constructor.
Qed.

(** What inserting a later key into a node of the tree [p] does. *)
Definition inserts (ko : nat) (st : StackTrie) (p : pt) (db : KeyValueStore) : Prop :=
  ∀ key v, (ko ≤ length key)%nat → nibbles_ok (drop ko key) → (∀ path, keyed p path → before path (drop ko key)) →
  ∃ st' db', insert st key v db = Ok (st', db') ∧ grows db db'
    ∧ srepr db' ko st' (pinsert p (drop ko key) v) ∧ live st'.

(** Where two paths part, the reference inserts a branch. *)
Lemma pinsert_fork p c x a y b v pn :
  x ≠ y →
  match p with
  | PLeaf k w => k = c ++ x :: a ∧ pn = PLeaf a w
  | PBr k cs ov => k = c ++ x :: a ∧ pn = PBr a cs ov
  end →
  pinsert p (c ++ y :: b) v
  = PBr c (<[Z.to_nat y := Some (PLeaf b v)]> (<[Z.to_nat x := Some pn]> no_children)) None.
Proof.
  intros Hne Hp. destruct p as [k w|k cs ov]; destruct Hp as [-> ->].
  all: destruct (diff_split (c ++ x :: a) c x a b y eq_refl Hne) as [_ Em]; cbn [pinsert]; rewrite Em.
  - rewrite bool_decide_false by (intros E%app_inv_head; congruence).
    by rewrite !drop_app_length, take_app_length.
  - destruct (strip (c ++ x :: a) (c ++ y :: b)) as [r|] eqn:Es.
    + exfalso. apply strip_some in Es. rewrite <- app_assoc in Es. apply app_inv_head in Es. cbn in Es. congruence.
    + by rewrite !drop_app_length, take_app_length.
Qed.

Lemma insert_leaf ko k w db : canonical (PLeaf k w) → sized (PLeaf k w) → inserts ko (leafNode ko k w) (PLeaf k w) db.
Proof.
  intros Hc Hz key v Hko Hn Hb. pose proof Hc as [Hk Hw].
  assert (keyed (PLeaf k w) k) as Hkey by (split; [done|]; cbn; by rewrite bool_decide_true).
  destruct (Hb k Hkey) as (c & x & y & a & b & -> & Ed & Hxy). rewrite Ed.
  destruct (diff_split (c ++ x :: a) c x a b y eq_refl ltac:(lia)) as [Ei _]. destruct (drop_split ko key c y b Ed) as (Hlen & Ey & Eb).
  apply nibbles_ok_app in Hk as [Hkc Hka]. apply nibbles_ok_cons in Hka as [Hx Ha]. rewrite Ed in Hn. apply nibbles_ok_app in Hn as [_ Hn]. apply nibbles_ok_cons in Hn as [Hy Hnb].
  assert (canonical (PLeaf a w) ∧ sized (PLeaf a w)) as [Hc' Hz'].
  { destruct Hz as [Hl Hv]. rewrite length_app in Hl. cbn [length] in Hl. split; split; [done|done|lia|done]. }
  destruct (hash_leaf (length c + 1) a w db Hc' Hz') as (db' & Eh & Hg & Hrec).
  rewrite (pinsert_fork _ c x a y b v (PLeaf a w)) by (done || lia).
  destruct (fork_ok db' ko c x a y b (hashedNode (refval (enc keccak (PLeaf a w)))) (PLeaf a w) v Hx Hy Hxy) as [Hr Hl]; [by constructor|].
  eexists _, db'. split; [|by split; [|split]].
  cbn [insert]. rewrite Ed, Ei. cbn [mbind result_bind]. rewrite length_app. cbn [length].
  rewrite (proj2 (Nat.leb_gt _ _)) by lia. unfold index. rewrite list_lookup_middle by done. cbn [mbind result_bind].
  rewrite (newLeaf_ok (length c + 1)) by (rewrite length_app; cbn; lia). cbn [mbind result_bind].
  rewrite drop_app_add. cbn [drop]. rewrite drop_0, Eh, Ey. cbn [mbind result_bind].
  rewrite newLeaf_ok, Eb by lia. done.
Qed.

Lemma child_key ps i c path :
  length ps = 16%nat → ps !! i = Some (Some c) → keyed c path → keyed (PBr [] ps None) (Z.of_nat i :: path).
Proof.
  intros Hl Hi Hk. pose proof (lookup_lt_Some _ _ _ Hi). apply (keyed_child [] ps None (Z.of_nat i) c path); [constructor| | |done].
  - unfold is_nibble. lia.
  - apply child_some. by rewrite Nat2Z.id.
Qed.

(** The children of a branch whose keys come before [x :: r]. *)
Lemma children_before ps x r :
  canonical (PBr [] ps None) → (∀ path, keyed (PBr [] ps None) path → before path (x :: r)) →
  (∀ i c, ps !! i = Some (Some c) → (i ≤ Z.to_nat x)%nat)
  ∧ (∀ c, 0 ≤ x → ps !! Z.to_nat x = Some (Some c) → ∀ path, keyed c path → before path r).
Proof.
  intros (_ & Hl & _ & _ & Hcs) Hb. split.
  - intros i c Hi. rewrite all_children_Forall, Forall_lookup in Hcs.
    destruct (canonical_keyed c (Hcs _ _ Hi)) as [path Hp].
    pose proof (Hb _ (child_key ps i c path Hl Hi Hp)) as [?|[? _]]%before_cons; lia.
  - intros c Hx Hc path Hp. pose proof (Hb _ (child_key ps _ c path Hl Hc Hp)) as [?|[_ ?]]%before_cons; [lia|done].
Qed.

(** The branch after its child at [x], the last one, has been replaced. *)
Lemma branch_update db ko cs ps i st p oc op :
  Forall2 (option_Forall2 (srepr db (S ko))) cs ps → cs !! i = Some oc → ps !! i = Some op →
  srepr db (S ko) st p → live st → (∀ j c, ps !! j = Some (Some c) → (j ≤ i)%nat) →
  srepr db ko (branchNode ko (<[i := Some st]> cs)) (PBr [] (<[i := Some p]> ps) None)
  ∧ live (branchNode ko (<[i := Some st]> cs)).
Proof.
  intros HF Hc Hp Hr Hl Hlast. pose proof (lookup_lt_Some _ _ _ Hc). split.
  - constructor. apply Forall2_insert; [done|]. by constructor.
  - apply (L_branch _ _ i st); [by apply list_lookup_insert_eq|done|]. intros j c Hj.
    destruct (decide (j = i)) as [->|]; [done|]. rewrite list_lookup_insert_ne in Hj by done.
    destruct (Forall2_lookup_l _ _ _ _ _ HF Hj) as (op' & Hj' & Ho). inversion Ho; subst. by eapply Hlast.
Qed.

Lemma live_branch ko cs : live (branchNode ko cs) →
  ∃ i c, cs !! i = Some (Some c) ∧ live c ∧ ∀ j c', cs !! j = Some (Some c') → (j ≤ i)%nat.
Proof. intros H. inversion H; subst. eauto. Qed.

Lemma insert_branch ko cs ps db :
  Forall (on_child (λ p, ∀ ko st db, srepr db ko st p → live st → canonical p → sized p → inserts ko st p db)) ps →
  Forall2 (option_Forall2 (srepr db (S ko))) cs ps → live (branchNode ko cs) →
  canonical (PBr [] ps None) → sized (PBr [] ps None) → inserts ko (branchNode ko cs) (PBr [] ps None) db.
Proof.
  intros IH HF Hlive Hc Hz key v Hko Hn Hb. pose proof Hc as (_ & Hl & _ & _ & Hcs). pose proof Hz as (_ & _ & Hzs).
  destruct (drop ko key) as [|x r] eqn:Ed.
  { destruct (canonical_keyed _ Hc) as [path Hp]. by apply Hb, before_nil_r in Hp. }
  apply nibbles_ok_cons in Hn as [Hx Hr]. unfold is_nibble in Hx.
  destruct (children_before ps x r Hc Hb) as [Hlast Hchild]. destruct (drop_split ko key [] x r Ed) as (Hlen & Ex & Er).
  cbn [length] in *. rewrite Nat.add_0_l in Ex. rewrite Nat.add_0_r in *. rewrite (Nat.add_comm ko 1) in *. cbn [plus] in *.
  destruct (hash_elder_ok (Z.to_nat x) (S ko) cs ps db HF Hcs Hzs) as (cs' & db1 & Ee & Hg & HF' & Hsame).
  assert (length cs = 16%nat) as Hlc by (by rewrite (Forall2_length _ _ _ HF)).
  destruct (lookup_lt_is_Some_2 cs (Z.to_nat x) ltac:(lia)) as [oc Hoc].
  destruct (Forall2_lookup_l _ _ _ _ _ HF Hoc) as (op & Hop & Ho).
  cbn [insert pinsert strip]. rewrite Ex, Ee, at_child_ok, Hoc, (update_nth_insert _ _ _ _ Hop).
  rewrite <- (Hsame (Z.to_nat x)) in Hoc by lia. destruct Ho as [c p Hrp|].
  - destruct (live_branch _ _ Hlive) as (i & c' & Hi & Hlc' & Hmax).
    assert (i = Z.to_nat x) as ->.
    { destruct (Forall2_lookup_l _ _ _ _ _ HF Hi) as (op & Hip & Ho). inversion Ho; subst. pose proof (Hlast _ _ Hip).
      rewrite (Hsame (Z.to_nat x)) in Hoc by lia. pose proof (Hmax _ _ Hoc). lia. }
    rewrite (Hsame (Z.to_nat x)) in Hoc by lia. rewrite Hoc in Hi. injection Hi as ->.
    rewrite Forall_lookup in IH. rewrite all_children_Forall, Forall_lookup in Hcs, Hzs.
    destruct (IH _ _ Hop (S ko) c' db1 (srepr_grows _ _ _ Hg _ _ Hrp) Hlc' (Hcs _ _ Hop) (Hzs _ _ Hop) key v) as (st' & db2 & -> & Hg2 & Hr2 & Hl2);
      [lia|by rewrite Er|rewrite Er; by apply Hchild; [lia|]|]. rewrite Er in Hr2.
    rewrite <- (Hsame (Z.to_nat x)) in Hoc by lia.
    destruct (branch_update db2 ko cs' ps (Z.to_nat x) st' (pinsert p r v) _ _ (srepr_list_grows _ _ _ _ _ Hg2 HF') Hoc Hop Hr2 Hl2 Hlast) as [H1 H2].
    eexists _, db2. split; [done|]. split; [by etrans|done].
  - rewrite newLeaf_ok, Er by lia. cbn [mbind result_bind].
    destruct (branch_update db1 ko cs' ps (Z.to_nat x) (leafNode (S ko) r v) (PLeaf r v) _ _ HF' Hoc Hop ltac:(constructor) ltac:(constructor) Hlast) as [H1 H2].
    eexists _, db1. by split.
Qed.

Lemma keyed_ext k ps path : nibbles_ok k → keyed (PBr [] ps None) path → keyed (PBr k ps None) (k ++ path).
Proof.
  intros Hk [Hp Hg]. split; [by apply nibbles_ok_app|]. rewrite pget_br in *. by rewrite strip_app.
Qed.

(** The key goes on below an extension. *)
Lemma insert_ext_below ko k c ps db key v r :
  k ≠ [] → drop ko key = k ++ r → nibbles_ok k → nibbles_ok r → (ko ≤ length key)%nat →
  (∀ path, keyed (PBr k ps None) path → before path (k ++ r)) → canonical (PBr [] ps None) →
  inserts (ko + length k) c (PBr [] ps None) db →
  ∃ st' db', insert (extNode ko k c) key v db = Ok (st', db') ∧ grows db db'
    ∧ srepr db' ko st' (pinsert (PBr k ps None) (k ++ r) v) ∧ live st'.
Proof.
  intros Hk Ed Hnk Hnr Hko Hb Hc IH.
  assert (drop (ko + length k) key = r) as Er by (by rewrite <- drop_drop, Ed, drop_app_length).
  assert (∀ path, keyed (PBr [] ps None) path → before path r) as Hb'.
  { intros path Hp. apply (before_app k). apply Hb. by apply keyed_ext. }
  destruct r as [|x r]; [exfalso; destruct (canonical_keyed _ Hc) as [path Hp]; by apply Hb', before_nil_r in Hp|].
  assert (ko + length k ≤ length key)%nat as Hlen.
  { pose proof (f_equal length Ed) as E. rewrite length_drop, length_app in E. lia. }
  destruct (IH key v) as (st' & db' & E & Hg & Hr & Hl); [done|by rewrite Er|by rewrite Er|].
  rewrite Er in Hr. exists (extNode ko k st'), db'. split; [|split; [done|split; [|by constructor]]].
  - cbn [insert]. rewrite Ed, diff_prefix. cbn [mbind result_bind]. by rewrite Nat.eqb_refl, E.
  - cbn [pinsert] in *. rewrite strip_app. by constructor.
Qed.

(** The key leaves an extension. *)
Lemma insert_ext_fork ko c0 x a c ps db key v y b :
  drop ko key = c0 ++ y :: b → nibbles_ok (c0 ++ x :: a) → nibbles_ok (y :: b) → x < y →
  srepr db (ko + length (c0 ++ x :: a)) c (PBr [] ps None) →
  canonical (PBr (c0 ++ x :: a) ps None) → sized (PBr (c0 ++ x :: a) ps None) →
  ∃ st' db', insert (extNode ko (c0 ++ x :: a) c) key v db = Ok (st', db') ∧ grows db db'
    ∧ srepr db' ko st' (pinsert (PBr (c0 ++ x :: a) ps None) (c0 ++ y :: b) v) ∧ live st'.
Proof.
  intros Ed Hnk Hnb Hxy Hrc Hc Hz. apply nibbles_ok_cons in Hnb as [Hy Hb].
  apply nibbles_ok_app in Hnk as [Hc0 Hxa]. apply nibbles_ok_cons in Hxa as [Hx Ha].
  destruct (diff_split (c0 ++ x :: a) c0 x a b y eq_refl ltac:(lia)) as [Ei _]. destruct (drop_split ko key c0 y b Ed) as (Hlen & Ey & Eb).
  destruct (branch_of_ext _ _ _ Hc Hz) as [Hc' Hz'].
  assert (canonical (PBr a ps None) ∧ sized (PBr a ps None)) as [Hca Hza].
  { destruct Hc as [_ Hc], Hz as [Hl Hz]. rewrite length_app in Hl. cbn [length] in Hl. split; split; [done|done|lia|done]. }
  set (n := if (length c0 <? length (c0 ++ x :: a) - 1)%nat
            then extNode (length c0 + 1) (drop (length c0 + 1) (c0 ++ x :: a)) c else c).
  assert (hashes_to n (PBr a ps None) db) as (db' & Eh & Hg & Hrec).
  { pose proof (stack_hash_spec _ _ _ _ Hrc Hc' Hz') as Hh. subst n. rewrite length_app, drop_app_add. cbn [length drop]. rewrite drop_0.
    destruct a as [|z a]; [by rewrite (proj2 (Nat.ltb_ge _ _)) by (cbn; lia)|].
    rewrite (proj2 (Nat.ltb_lt _ _)) by (cbn; lia). by apply hash_ext. }
  rewrite (pinsert_fork _ c0 x a y b v (PBr a ps None)) by (done || lia).
  destruct (fork_ok db' ko c0 x a y b (hashedNode (refval (enc keccak (PBr a ps None)))) (PBr a ps None) v Hx Hy Hxy) as [Hr Hl]; [by constructor|].
  eexists _, db'. split; [|by split; [|split]].
  cbn [insert]. rewrite Ed, Ei. cbn [mbind result_bind]. rewrite (proj2 (Nat.eqb_neq _ _)) by (rewrite length_app; cbn; lia).
  fold n. rewrite Eh, newLeaf_ok, Eb by lia. unfold index. rewrite list_lookup_middle by done. cbn [mbind result_bind]. by rewrite Ey.
Qed.

Lemma insert_ext ko k c ps db :
  k ≠ [] → srepr db (ko + length k) c (PBr [] ps None) → canonical (PBr k ps None) → sized (PBr k ps None) →
  inserts (ko + length k) c (PBr [] ps None) db → inserts ko (extNode ko k c) (PBr k ps None) db.
Proof.
  intros Hk Hrc Hc Hz IH key v Hko Hn Hb. destruct (branch_of_ext _ _ _ Hc Hz) as [Hc' Hz']. pose proof Hc as [Hnk _].
  destruct (strip k (drop ko key)) as [r|] eqn:Es.
  - apply strip_some in Es. rewrite Es in *. apply nibbles_ok_app in Hn as [_ Hnr]. by eapply insert_ext_below.
  - destruct (strip_none_diverge _ _ Es) as (x & a & _ & Hd & Ep & Ek). set (c0 := take _ _) in *. set (s := drop (prefixLen _ _) _) in *. clearbody c0 s. clear Es.
    destruct (canonical_keyed _ Hc') as [path Hp]. pose proof (Hb _ (keyed_ext k ps path Hnk Hp)) as Hbp.
    rewrite Ep, Ek, <- app_assoc, before_app in Hbp. destruct s as [|y b]; [by apply before_nil_r in Hbp|].
    cbn in Hbp, Hd. apply before_cons in Hbp as [Hxy|[-> _]]; [|done]. rewrite Ep in Hn |- *. subst k.
    apply nibbles_ok_app in Hn as [_ Hn]. by eapply insert_ext_fork.
Qed.

Lemma stack_insert_spec p : ∀ ko st db, srepr db ko st p → live st → canonical p → sized p → inserts ko st p db.
Proof.
  induction p as [k v|k ps ov IH] using pt_ind'; intros ko st db Hr Hl Hc Hz.
  - inversion Hr; subst; [by apply insert_leaf|inversion Hl].
  - inversion Hr as [|? cs ? HF|? ? c ? Hk Hcr|? ? Hrec]; subst; [by apply insert_branch| |inversion Hl].
    destruct (branch_of_ext k ps None Hc Hz) as [Hc' Hz']. apply insert_ext; [done..|].
    inversion Hl as [|? ? ? Hlc|]; subst. inversion Hcr as [|? cs ? HF|? ? ? ? Hk'|? ? Hrec]; subst; [by apply insert_branch|done|inversion Hlc].
Qed.

(** ** Sequences of updates *)

Definition stack_valid (st : StackTrie) (db : KeyValueStore) (m : gmap bytes bytes) : Prop :=
  map_ok m ∧
  match st with
  | emptyNode ko => ko = 0%nat ∧ m = ∅
  | _ => ∃ p, srepr db 0 st p ∧ live st ∧ canonical p ∧ tree_map (Some p) m
  end.

Lemma srepr_nonempty db ko n p : ¬ srepr db ko (emptyNode n) p.
Proof. intros H. inversion H. Qed.

Lemma stack_valid_intro st db m p :
  map_ok m → srepr db 0 st p → live st → canonical p → tree_map (Some p) m → stack_valid st db m.
Proof. intros Hm Hr Hl Hc Ht. split; [done|]. destruct st; [by apply srepr_nonempty in Hr|..]; by exists p. Qed.

Lemma TryUpdate_stack st db m key v :
  stack_valid st db m → entry_ok key v → (∀ k', is_Some (m !! k') → before k' key) →
  ∃ st' db', TryUpdate key v st db = Ok (st', db') ∧ grows db db' ∧ stack_valid st' db' (<[key := v]> m).
Proof.
  intros [Hok Hst] He Hb. pose proof He as (Hk & Hlk & Hv & Hvs). pose proof (nibbles_of_ok key Hk) as Hn.
  assert (map_ok (<[key := v]> m)) as Hok' by (by apply map_Forall_insert_2).
  assert (TryUpdate key v st db = insert st (nibbles_of key) v db) as ->.
  { unfold TryUpdate, keybytesToHex. rewrite length_app. cbn [length]. rewrite Nat.add_sub, take_app_length. by destruct v. }
  assert ((∃ ko, st = emptyNode ko) ∨ ∃ p, srepr db 0 st p ∧ live st ∧ canonical p ∧ tree_map (Some p) m) as [[ko ->]|(p & Hr & Hl & Hc & Ht)]
    by (destruct st; [left; by eexists|right; exact Hst..]).
  - destruct Hst as [-> ->]. cbn [insert]. rewrite newLeaf_ok by lia. cbn [mbind result_bind]. eexists _, db. split; [done|]. split; [done|].
    apply (stack_valid_intro _ _ _ (PLeaf (nibbles_of key) v)); [done|constructor|constructor|by split|].
    by apply (tree_map_insert None ∅ key v tree_map_empty).
  - destruct (stack_insert_spec p 0 st db Hr Hl Hc (tree_map_sized p m Hc Ht Hok) (nibbles_of key) v) as (st' & db' & E & Hg & Hr' & Hl');
      [lia|by rewrite drop_0| |].
    { intros path [Hp Hg]. rewrite drop_0. destruct (pget p path) as [w|] eqn:Ew; [|done].
      apply (Ht path w Hp) in Ew as (k' & Hk' & -> & Em). apply before_nibbles; [done..|]. by apply Hb. }
    rewrite drop_0 in Hr'. exists st', db'. split; [done|]. split; [done|].
    eapply (stack_valid_intro _ _ _ (pinsert p (nibbles_of key) v)); [done..|by apply pinsert_canonical|].
    by apply (tree_map_insert (Some p) m key v Ht Hc Hk).
Qed.

Definition entries_ok (kvs : list (bytes * bytes)) : Prop :=
  StronglySorted before (map fst kvs) ∧ Forall (λ kv, entry_ok kv.1 kv.2) kvs.

Lemma update_all_ok kvs st db m :
  stack_valid st db m → entries_ok kvs → (∀ k' key, is_Some (m !! k') → key ∈ map fst kvs → before k' key) →
  ∃ st' db', update_all kvs st db = Ok (st', db') ∧ grows db db'
    ∧ stack_valid st' db' (foldl (λ m kv, <[kv.1 := kv.2]> m) m kvs).
Proof.
  revert st db m. induction kvs as [|[key v] kvs IH]; intros st db m Hst [Hs He] Hb; [by exists st, db|].
  cbn [map fst] in *. apply StronglySorted_inv in Hs as [Hs Hkey]. apply Forall_cons in He as [Hkv He].
  destruct (TryUpdate_stack st db m key v Hst Hkv) as (st1 & db1 & E1 & Hg1 & Hst1); [intros k' Hk'; apply Hb; [done|left]|].
  destruct (IH st1 db1 _ Hst1 (conj Hs He)) as (st2 & db2 & E2 & Hg2 & Hst2).
  { intros k' key' Hk' Hin. destruct (decide (k' = key)) as [->|Hne].
    - rewrite Forall_forall in Hkey. by apply Hkey.
    - rewrite lookup_insert_ne in Hk' by done. apply Hb; [done|by right]. }
  exists st2, db2. cbn [update_all]. rewrite E1. cbn [mbind result_bind]. split; [done|]. split; [by etrans|done].
Qed.

Lemma foldl_list_to_map (kvs : list (bytes * bytes)) :
  NoDup (map fst kvs) → foldl (λ m kv, <[kv.1 := kv.2]> m) ∅ kvs = (list_to_map kvs : gmap bytes bytes).
Proof.
  intros Hn. transitivity (list_to_map (reverse kvs) : gmap bytes bytes).
  - clear Hn. induction kvs as [|[k v] kvs IH] using rev_ind; [done|].
    rewrite foldl_app, IH, reverse_app. done.
  - apply list_to_map_proper; [|by rewrite reverse_Permutation]. eapply NoDup_Permutation_proper; [|exact Hn].
    by rewrite reverse_Permutation.
Qed.

Lemma before_irrefl a : ¬ before a a.
Proof. induction a as [|x a IH]; [apply before_nil_l|]. rewrite before_cons. intros [?|[_ ?]]; [lia|done]. Qed.

Lemma sorted_NoDup l : StronglySorted before l → NoDup l.
Proof.
  induction 1 as [|a l _ IH Ha]; constructor; [|done]. intros Hin. rewrite Forall_forall in Ha.
  by apply (before_irrefl a), Ha.
Qed.

Lemma update_all_fresh kvs db :
  entries_ok kvs →
  ∃ st db', update_all kvs NewStackTrie db = Ok (st, db') ∧ grows db db' ∧ stack_valid st db' (list_to_map kvs).
Proof.
  intros He. rewrite <- foldl_list_to_map by (apply sorted_NoDup, He).
  apply update_all_ok; [|done|by intros k' key [v Hv]]. split; [apply map_Forall_empty|done].
Qed.

(** Hashing what has been built gives the root of the map, and has written the
    tree. *)
Lemma stack_root st db m :
  stack_valid st db m →
  ∃ val db', hash st db = (val, db') ∧ grows db db'
    ∧ (if len val =? 32 then val else keccak val) = merkle_root keccak m
    ∧ (∀ p, tree_of m = Some p → val = refval (enc keccak p) ∧ recorded db' p).
Proof.
  intros [Hok Hst]. destruct (tree_of_ok m Hok) as [Hct Htt]. unfold merkle_root.
  assert ((∃ ko, st = emptyNode ko ∧ m = ∅) ∨ ∃ p, srepr db 0 st p ∧ live st ∧ canonical p ∧ tree_map (Some p) m)
    as [(ko & -> & ->)|(p & Hr & _ & Hc & Ht)] by (destruct st; [left; eexists; by split; [|apply Hst]|right; exact Hst..]).
  - exists emptyRoot, db. split; [done|]. split; [done|]. split; [done|]. intros p E. done.
  - destruct (stack_hash_spec p 0 st db Hr Hc (tree_map_sized p m Hc Ht Hok)) as (db' & E & Hg & Hrec).
    assert (tree_of m = Some p) as Et by (by eapply holds_same_tree).
    exists (refval (enc keccak p)), db'. split; [done|]. split; [done|]. rewrite Et. split; [|intros ? [= <-]; done].
    unfold refval. destruct (Z.ltb_spec (len (enc keccak p)) 32) as [Hl|Hl].
    + by rewrite (proj2 (Z.eqb_neq _ _)) by lia.
    + by rewrite keccak_length.
Qed.

Lemma merkle_root_length m : length (merkle_root keccak m) = 32%nat.
Proof. unfold merkle_root. destruct (tree_of m); [apply keccak_length|done]. Qed.

Lemma stack_Hash_ok st db m :
  stack_valid st db m → ∃ st' db', Hash st db = (merkle_root keccak m, st', db').
Proof.
  intros Hst. destruct (stack_root st db m Hst) as (val & db' & E & _ & Hm & _). unfold Hash. rewrite E, Hm.
  rewrite BytesToHash_32 by apply merkle_root_length. eauto.
Qed.

(** ** The database *)

(** The contents of the database after a sequence of [Put]. *)
Definition store_of (puts : list (bytes * bytes)) (h : bytes) : option bytes :=
  (list_to_map (reverse puts) : gmap bytes bytes) !! h.

(** No two different values have been put under the same key. *)
Definition no_overwrite (puts : list (bytes * bytes)) : Prop :=
  ∀ h a b, (h, a) ∈ puts → (h, b) ∈ puts → a = b.

Lemma store_of_put puts b : no_overwrite puts → (keccak b, b) ∈ puts → store_of puts (keccak b) = Some b.
Proof.
  intros Hno Hin. apply elem_of_list_to_map_1'; [|by apply elem_of_reverse].
  intros b' Hb'. apply elem_of_reverse in Hb'. rewrite reverse_involutive in Hb'. exact (Hno _ _ _ Hin Hb').
Qed.

Lemma recorded_stored puts p : no_overwrite puts → recorded (Some puts) p → stored keccak (store_of puts) p.
Proof.
  intros Hno. induction p as [k v|k cs ov IH] using pt_ind'; [intros H Hl; by apply store_of_put, H|].
  intros (H1 & H2 & H3). split; [intros Hl; by apply store_of_put, H1|]. split; [intros Hl; by apply store_of_put, H2|].
  apply all_children_Forall. apply all_children_Forall in H3. clear H1 H2.
  induction IH as [|oc cs Hoc _ IH']; [constructor|]. inversion H3; subst. constructor; [|by apply IH'].
  destruct oc as [c|]; [|done]. by apply Hoc.
Qed.

Lemma Commit_ok st puts m :
  stack_valid st (Some puts) m →
  ∃ st' puts', Commit st (Some puts) = Some (merkle_root keccak m, st', Some puts')
    ∧ (no_overwrite puts' → stored_map keccak (store_of puts') m).
Proof.
  intros Hst. destruct (stack_root st _ m Hst) as (val & db & E & [Hsome _] & Hm & Hrec). unfold Commit. rewrite E.
  destruct db as [puts1|]; [|by pose proof (proj2 Hsome eq_refl)]. unfold stored_map.
  destruct (Z.eqb_spec (len val) 32) as [Hl|Hl]; rewrite Hm, ?BytesToHash_32 by apply merkle_root_length.
  - eexists _, puts1. split; [done|]. intros Hno. destruct (tree_of m) as [p|]; [|done]. destruct (Hrec p eq_refl) as [-> Hr].
    split; [|by apply recorded_stored]. apply store_of_put; [done|].
    assert (in_db_node (Some puts1) p) as Hn by (destruct p; apply Hr). apply Hn. unfold refval in Hl. case_match; lia.
  - eexists _, (puts1 ++ [(keccak val, val)]). rewrite <- Hm. split; [done|]. intros Hno.
    destruct (tree_of m) as [p|]; [|done]. destruct (Hrec p eq_refl) as [-> Hr].
    assert (refval (enc keccak p) = enc keccak p) as Ev.
    { unfold refval in *. case_match; [done|]. by rewrite keccak_length in Hl. }
    rewrite Ev in *. split; [apply store_of_put; [done|]; apply elem_of_app; right; by left|].
    apply recorded_stored; [done|]. eapply recorded_grows; [|exact Hr]. apply (grows_Put _ _ (Some puts1)).
Qed.

(** ** Lists of items *)

Lemma before_be a b : bytes_ok a → bytes_ok b → length a = length b → be_decode a < be_decode b → before a b.
Proof.
  intros Ha Hb. revert b Hb. induction a as [|x a IH]; intros [|y b] Hb; cbn [length]; intros Hl Hd; [by cbn in Hd|done|done|].
  injection Hl as Hl. rewrite before_cons, !be_decode_cons, Hl in *.
  apply bytes_ok_cons in Ha as [Hx Ha], Hb as [Hy Hb]. pose proof (be_decode_bound a Ha). pose proof (be_decode_bound b Hb).
  rewrite Hl in *. destruct (Z.lt_trichotomy x y) as [?|[->|?]]; [by left|right|exfalso; nia].
  split; [done|]. apply IH; [done..|lia].
Qed.

Lemma index_key i : 0 ≤ i < 2 ^ 64 →
  AppendUint64 [] i =
    if i =? 0 then [0x80] else if i <? 128 then [i] else (0x80 + Z.of_nat (nbytes i)) :: be_bytes i.
Proof.
  intros Hi. rewrite AppendUint64_spec by done. cbn [app]. destruct (Z.eqb_spec i 0) as [->|Hne]; [done|].
  destruct (Z.ltb_spec i 128).
  - rewrite be_bytes_small by lia. cbn [rlp_string]. by rewrite (proj2 (Z.ltb_lt _ _)) by lia.
  - pose proof (nbytes_u64 i Hi) as Hn. destruct (Z.lt_ge_cases i 256).
    + rewrite be_bytes_small, nbytes_small by lia. cbn [rlp_string]. by rewrite (proj2 (Z.ltb_ge _ _)) by lia.
    + rewrite rlp_string_long; rewrite length_be_bytes.
      * unfold rlp_head. by rewrite (proj2 (Z.ltb_lt _ _)) by lia.
      * rewrite nbytes_div by lia. pose proof (nbytes_pos (i / 256)). assert (0 < i / 256) by (apply Z.div_str_pos; lia). lia.
Qed.

(** The order in which [DeriveSha] hands out the indices. *)
Definition key_order (i : Z) : Z := if i =? 0 then 127 else if i <? 128 then i - 1 else i.

Lemma index_before i j :
  0 ≤ i < 2 ^ 64 → 0 ≤ j < 2 ^ 64 → key_order i < key_order j → before (AppendUint64 [] i) (AppendUint64 [] j).
Proof.
  intros Hi Hj. unfold key_order. rewrite !index_key by done.
  destruct (Z.eqb_spec i 0), (Z.eqb_spec j 0), (Z.ltb_spec i 128), (Z.ltb_spec j 128); intros Ho; try lia; rewrite before_cons;
    try (left; lia); try (left; pose proof (nbytes_pos j ltac:(lia)); lia).
  - assert (nbytes i ≤ nbytes j)%nat as Hn by (apply nbytes_le; pose proof (nbytes_spec j); lia).
    destruct (decide (nbytes i = nbytes j)) as [E|]; [right|left; lia]. split; [lia|].
    apply before_be; [apply be_bytes_ok|apply be_bytes_ok|by rewrite !length_be_bytes|]. rewrite !be_decode_bytes by lia. lia.
Qed.

Lemma derive_order_perm n : derive_order n ≡ₚ seq 0 n.
Proof.
  unfold derive_order. destruct n as [|n]; [done|]. cbn [Nat.ltb Nat.leb]. replace (S n - 1)%nat with n by lia.
  destruct (le_lt_dec n 127) as [Hn|Hn].
  - rewrite Nat.min_l by lia. replace (S n - 128)%nat with 0%nat by lia. rewrite app_nil_r. cbn [seq].
    by rewrite <- Permutation_cons_append.
  - rewrite Nat.min_r by lia. replace (S n) with (128 + (S n - 128))%nat at 2 by lia. rewrite seq_app.
    rewrite app_assoc. apply Permutation_app_tail. change (seq 0 128) with (0%nat :: seq 1 127). by rewrite <- Permutation_cons_append.
Qed.

Lemma sorted_seq (P : nat → nat → Prop) a n : (∀ i j, a ≤ i → i < j → j < a + n → P i j)%nat → StronglySorted P (seq a n).
Proof.
  revert a. induction n as [|n IH]; intros a HP; cbn; constructor.
  - apply IH. intros i j ? ? ?. apply HP; lia.
  - apply Forall_forall. intros j [? ?]%elem_of_seq. apply HP; lia.
Qed.

Lemma derive_order_sorted n : StronglySorted (λ i j, key_order (Z.of_nat i) < key_order (Z.of_nat j)) (derive_order n).
Proof.
  unfold derive_order, key_order. apply StronglySorted_app_2; [|apply sorted_seq|apply StronglySorted_app_2].
  - intros i j Hi Hj. apply elem_of_seq in Hi as [Hi1 Hi2]. assert (j = 0 ∨ 128 ≤ j)%nat as Hj'.
    { apply elem_of_app in Hj as [Hj|[? _]%elem_of_seq]; [left|by right]. case_match; [by apply list_elem_of_singleton in Hj|by apply elem_of_nil in Hj]. }
    repeat case_match; lia.
  - intros i j ? ? ?. repeat case_match; lia.
  - intros i j Hi [Hj1 Hj2]%elem_of_seq. assert (i = 0%nat) as -> by (case_match; [by apply list_elem_of_singleton in Hi|by apply elem_of_nil in Hi]).
    repeat case_match; lia.
  - case_match; [by repeat constructor|constructor].
  - apply sorted_seq. intros i j ? ? ?. repeat case_match; lia.
Qed.

(** The map of the items under their encoded indices. *)
Definition indexed (items : list bytes) : gmap bytes bytes :=
  list_to_map (map (λ i, (AppendUint64 [] (Z.of_nat i), default [] (items !! i))) (seq 0 (length items))).

Definition item_fits (b : bytes) : Prop := b ≠ [] ∧ sized_value b.

Lemma derive_entries items :
  Forall item_fits items → len items < 2 ^ 63 →
  entries_ok (map (λ i, (AppendUint64 [] (Z.of_nat i), default [] (items !! i))) (derive_order (length items))).
Proof.
  intros Hi Hl. assert (∀ i, i ∈ derive_order (length items) → (i < length items)%nat) as Hin.
  { intros i Hi'. rewrite derive_order_perm in Hi'. apply elem_of_seq in Hi'. lia. }
  split.
  - rewrite map_map. cbn [fst]. pose proof (derive_order_sorted (length items)) as Hs.
    generalize dependent (derive_order (length items)). intros l Hin Hs. induction Hs as [|i l _ IH Hil]; cbn [map]; constructor; [apply IH; intros k Hk; apply Hin; by right|].
    rewrite Forall_forall in Hil. apply Forall_forall. intros key (j & -> & Hj)%list_elem_of_fmap.
    pose proof (Hin i ltac:(by left)). pose proof (Hin j ltac:(by right)).
    apply index_before; [lia|lia|]. by apply Hil.
  - apply Forall_map, Forall_forall. intros i Hi'. apply Hin in Hi'. destruct (lookup_lt_is_Some_2 items i Hi') as [b Hb].
    rewrite Hb. cbn [default fst snd]. rewrite Forall_lookup in Hi. destruct (Hi i b Hb) as [Hne Hsz].
    assert (0 ≤ Z.of_nat i < 2 ^ 64) as Hr by lia. pose proof (nbytes_u64 _ Hr).
    rewrite AppendUint64_spec by done. cbn [app]. split; [apply rlp_string_ok; [apply be_bytes_ok|rewrite length_be_bytes; lia]|].
    split; [|done]. pose proof (rlp_string_ub (be_bytes (Z.of_nat i))) as Hu. rewrite length_be_bytes in Hu. lia.
Qed.

Lemma indexed_eq items :
  Forall item_fits items → len items < 2 ^ 63 →
  indexed items = list_to_map (map (λ i, (AppendUint64 [] (Z.of_nat i), default [] (items !! i))) (derive_order (length items))).
Proof.
  intros Hi Hl. symmetry. apply list_to_map_proper; [|by rewrite derive_order_perm].
  apply sorted_NoDup. by apply derive_entries.
Qed.

Lemma DeriveSha_ok items :
  Forall item_fits items → len items < 2 ^ 63 → DeriveSha items = Ok (merkle_root keccak (indexed items)).
Proof.
  intros Hi Hn. rewrite indexed_eq by done. unfold DeriveSha.
  destruct (update_all_fresh _ None (derive_entries items Hi Hn)) as (st & db & -> & _ & Hst).
  cbn [mbind result_bind]. destruct (stack_Hash_ok st db _ Hst) as (st' & db' & ->). done.
Qed.
End stacktrie.

(** ** Properties *)

(** C14: A stack trie computes the root of the ordinary trie.  When the keys
    come in increasing order and none is a prefix of another, no update panics,
    although finished subtrees have been replaced by their hashes, and [Hash]
    returns the Merkle root of the map of the updates, the hash that the trie
    of Trie.v has for the same contents. *)
Theorem stack_trie_root (keccak : bytes → bytes) (kvs : list (bytes * bytes)) (db : KeyValueStore)
    (Hl : ∀ b, length (keccak b) = 32%nat) (Hb : ∀ b, bytes_ok (keccak b)) (Hkvs : entries_ok kvs) :
  ∃ st db' st' db'', update_all keccak kvs NewStackTrie db = Ok (st, db')
    ∧ Hash keccak st db' = (merkle_root keccak (list_to_map kvs), st', db'').
Proof.
  destruct (update_all_fresh keccak Hl Hb kvs db Hkvs) as (st & db' & E & _ & Hst).
  destruct (stack_Hash_ok keccak Hl Hb st db' _ Hst) as (st' & db'' & Eh). eauto 10.
Qed.

(** What a stack trie commits can be opened.  After the updates, [Commit]
    returns the Merkle root, and if no key has been put twice with different
    values (which would be a collision of hashes), opening the database at that
    root gives a trie with exactly the contents of the updates, from which no
    node is missing. *)
Theorem stack_trie_opens (keccak : bytes → bytes) (kvs : list (bytes * bytes))
    (Hl : ∀ b, length (keccak b) = 32%nat) (Hb : ∀ b, bytes_ok (keccak b)) (Hkvs : entries_ok kvs)
    (Hroot : kvs ≠ [] → merkle_root keccak (list_to_map kvs) ≠ emptyRoot
                        ∧ merkle_root keccak (list_to_map kvs) ≠ replicate 32 0) :
  let m := list_to_map kvs in
  ∃ st db st' puts, update_all keccak kvs NewStackTrie (Some []) = Ok (st, db)
    ∧ Commit keccak st db = Some (merkle_root keccak m, st', Some puts)
    ∧ (no_overwrite puts →
       ∃ t, New (mustDecodeNode (store_of puts)) emptyRoot (merkle_root keccak m) = Ok t
         ∧ hash_valid keccak (mustDecodeNode (store_of puts)) t m).
Proof.
  cbn zeta. destruct (update_all_fresh keccak Hl Hb kvs (Some []) Hkvs) as (st & db & E & [Hg _] & Hst).
  destruct db as [puts0|]; [|by pose proof (proj2 Hg eq_refl)].
  destruct (Commit_ok keccak Hl Hb st puts0 _ Hst) as (st' & puts & Ec & Hs).
  exists st, (Some puts0), st', puts. split; [done|]. split; [done|]. intros Hno. destruct Hst as [Hok _].
  apply (New_stored_ok keccak Hl Hb (store_of puts) _ Hok (Hs Hno)). intros Ht. apply Hroot. intros ->. by apply Ht.
Qed.

(** [DeriveSha] hashes a list.  The order in which it hands the items to
    the stack trie (1 to 127, then 0, then 128 and up) is the order of their
    encoded indices, so that nothing panics and the result is the Merkle root
    of the map from encoded indices to items. *)
Theorem DeriveSha_root (keccak : bytes → bytes) (items : list bytes)
    (Hl : ∀ b, length (keccak b) = 32%nat) (Hb : ∀ b, bytes_ok (keccak b))
    (Hi : Forall item_fits items) (Hn : len items < 2 ^ 63) :
  DeriveSha keccak items = Ok (merkle_root keccak (indexed items)).
Proof. by apply DeriveSha_ok. Qed.

(** ** Examples *)

Definition example_kvs : list (bytes * bytes) := [([1; 2], replicate 40 1); ([1; 3], [2]); ([0x20; 0], replicate 33 5)].

Lemma example_kvs_ok : entries_ok example_kvs.
Proof.
  split.
  - repeat constructor; apply before_cons; try (by left).
    all: right; split; [done|]; apply before_cons; by left.
  - repeat constructor; try done; repeat constructor; unfold is_byte; lia.
Qed.

Lemma toy_digest_length b : length (toy_digest b) = 32%nat.
Proof. unfold toy_digest. by rewrite length_app, length_replicate. Qed.

Lemma stack_trie_root_witness :
  ∃ st db' st' db'', update_all toy_digest example_kvs NewStackTrie None = Ok (st, db')
    ∧ Hash toy_digest st db' = (merkle_root toy_digest (list_to_map example_kvs), st', db'').
Proof.
  apply (stack_trie_root toy_digest example_kvs None); [exact toy_digest_length|exact toy_digest_ok|exact example_kvs_ok].
Defined.

Lemma no_overwrite_NoDup puts : NoDup (map fst puts) → no_overwrite puts.
Proof.
  intros Hn h a b Ha Hb. apply (elem_of_list_to_map_1 (M := gmap bytes)) in Ha, Hb; [|done..]. congruence.
Qed.
Lemma example_puts st db st' puts r :
  update_all toy_digest example_kvs NewStackTrie (Some []) = Ok (st, db) →
  Commit toy_digest st db = Some (r, st', Some puts) → no_overwrite puts.
Proof.
  intros E Ec. vm_compute in E. injection E as <- <-. vm_compute in Ec. injection Ec as <- <- <-.
  apply no_overwrite_NoDup. apply (bool_decide_unpack _). vm_compute. exact I.
Qed.

Lemma stack_trie_opens_witness :
  ∃ puts t, New (mustDecodeNode (store_of puts)) emptyRoot (merkle_root toy_digest (list_to_map example_kvs)) = Ok t
    ∧ hash_valid toy_digest (mustDecodeNode (store_of puts)) t (list_to_map example_kvs).
Proof.
  destruct (stack_trie_opens toy_digest example_kvs) as (st & db & st' & puts & E & Ec & Ht).
  - exact toy_digest_length.
  - exact toy_digest_ok.
  - exact example_kvs_ok.
  - intros _. split; intros Hr; vm_compute in Hr; discriminate Hr.
  - exists puts. exact (Ht (example_puts st db st' puts _ E Ec)).
Defined.

Lemma DeriveSha_root_witness :
  DeriveSha toy_digest [[1; 2]; [3]; replicate 40 7] = Ok (merkle_root toy_digest (indexed [[1; 2]; [3]; replicate 40 7])).
Proof.
  apply (DeriveSha_root toy_digest [[1; 2]; [3]; replicate 40 7]); [exact toy_digest_length|exact toy_digest_ok| |reflexivity].
  repeat constructor; try done; unfold is_byte; lia.
Defined.
