(* ===== verification/TrieDatabase.v ===== *)
(** * The trie database (src/trie/database.go)

    The write layer between tries and disk.  New nodes are kept in memory with
    the number of their references and in a list in order of insertion;
    [dereference] collects the nodes that nobody refers to any more, [Cap]
    writes the oldest nodes to disk, [Commit] writes a whole trie.  The model
    is the one of a database without the cache of clean nodes; preimages and
    statistics are left out, and writing to disk does not fail.  The order of
    ranging over a map of external children and the size at which a batch is
    written are parameters.  A function returns [None] where the code panics
    (or the fuel of the model runs out). *)
From S2P Require Import Prelude RlpEncode TrieEncoding TrieSpec Trie TrieHash TrieDecode.
Local Open Scope Z_scope.

Local Notation zero := zero_hash.

(** ** Nodes *)

(** [simplifyNode]: the raw types are nodes without flags.  [unknown_node] says
    where it panics: on nil, other than as a child of a full node. *)
Definition no_flag : nodeFlag := MkFlag None false.
Fixpoint simplifyNode (n : node) : node :=
  match n with
  | shortNode k v _ => shortNode k (simplifyNode v) no_flag
  | fullNode cs _ => fullNode (map simplifyNode cs) no_flag
  | _ => n
  end.

Fixpoint unknown_node (n : node) : bool :=
  match n with
  | nilNode => true
  | shortNode _ v _ => unknown_node v
  | fullNode cs _ => existsb (λ c, match c with nilNode => false | _ => unknown_node c end) cs
  | _ => false
  end.

(** The hashes that [forGatherChildren] visits, in order. *)
Fixpoint forGatherChildren (n : node) : list bytes :=
  match n with
  | shortNode _ v _ => forGatherChildren v
  | fullNode cs _ =>
      (fix go (i : nat) (cs : list node) : list bytes :=
         match i, cs with
         | S i, c :: cs => forGatherChildren c ++ go i cs
         | _, _ => []
         end) 16%nat cs
  | hashNode h => [BytesToHash h]
  | _ => []
  end.

Record cachedNode := MkCached {
  c_node : node;
  c_size : Z;
  c_parents : Z;
  c_children : option (gmap bytes Z);
  flushPrev : bytes;
  flushNext : bytes
}.

Definition set_parents (x : Z) (e : cachedNode) : cachedNode :=
  MkCached (c_node e) (c_size e) x (c_children e) (flushPrev e) (flushNext e).
Definition set_children (x : option (gmap bytes Z)) (e : cachedNode) : cachedNode :=
  MkCached (c_node e) (c_size e) (c_parents e) x (flushPrev e) (flushNext e).
Definition set_flushPrev (x : bytes) (e : cachedNode) : cachedNode :=
  MkCached (c_node e) (c_size e) (c_parents e) (c_children e) x (flushNext e).
Definition set_flushNext (x : bytes) (e : cachedNode) : cachedNode :=
  MkCached (c_node e) (c_size e) (c_parents e) (c_children e) (flushPrev e) x.

Definition cachedNodeChildrenSize : Z := 48.
Definition HashLength : Z := 32.

(** [cachedNode.rlp]. *)
Definition cached_rlp (e : cachedNode) : bytes := encode_node (c_node e).

Record Database := MkDatabase {
  diskdb : gmap bytes bytes;
  dirties : gmap bytes cachedNode;
  oldest : bytes;
  newest : bytes;
  dirtiesSize : Z;
  childrenSize : Z
}.

Definition set_diskdb (x : gmap bytes bytes) (db : Database) : Database :=
  MkDatabase x (dirties db) (oldest db) (newest db) (dirtiesSize db) (childrenSize db).
Definition set_dirties (x : gmap bytes cachedNode) (db : Database) : Database :=
  MkDatabase (diskdb db) x (oldest db) (newest db) (dirtiesSize db) (childrenSize db).
Definition set_oldest (x : bytes) (db : Database) : Database :=
  MkDatabase (diskdb db) (dirties db) x (newest db) (dirtiesSize db) (childrenSize db).
Definition set_newest (x : bytes) (db : Database) : Database :=
  MkDatabase (diskdb db) (dirties db) (oldest db) x (dirtiesSize db) (childrenSize db).
Definition set_dirtiesSize (x : Z) (db : Database) : Database :=
  MkDatabase (diskdb db) (dirties db) (oldest db) (newest db) x (childrenSize db).
Definition set_childrenSize (x : Z) (db : Database) : Database :=
  MkDatabase (diskdb db) (dirties db) (oldest db) (newest db) (dirtiesSize db) x.

(** The entry under the zero hash is the meta root. *)
Definition NewDatabase (disk : gmap bytes bytes) : Database :=
  MkDatabase disk {[ zero := MkCached nilNode 0 0 (Some ∅) zero zero ]} zero zero 0 0.

(** Change the entry at a hash, which must exist. *)
Definition alter_entry (h : bytes) (f : cachedNode → cachedNode) (db : Database) : option Database :=
  e ← dirties db !! h; Some (set_dirties (<[h := f e]> (dirties db)) db).
(** Change the entry at a hash, if it exists. *)
Definition try_entry (f : cachedNode → cachedNode) (db : Database) (h : bytes) : Database :=
  set_dirties (alter f h (dirties db)) db.

(** [Node]; [None] is not found. *)
Definition Node (hash : bytes) (db : Database) : option bytes :=
  if bool_decide (hash = zero) then None
  else match dirties db !! hash with
  | Some dirty => Some (cached_rlp dirty)
  | None => enc ← diskdb db !! hash; if len enc =? 0 then None else Some enc
  end.

(** ** Insertion and references *)

Definition insert (hash : bytes) (size : Z) (n : node) (db : Database) : option Database :=
  match dirties db !! hash with
  | Some _ => Some db
  | None =>
      if unknown_node n then None else
      let entry := MkCached (simplifyNode n) (size mod 2 ^ 16) 0 None (newest db) zero in
      let db := foldl (try_entry (λ c, set_parents ((c_parents c + 1) mod 2 ^ 32) c)) db (forGatherChildren (c_node entry)) in
      let db := set_dirties (<[hash := entry]> (dirties db)) db in
      db ← (if bool_decide (oldest db = zero) then Some (set_oldest hash (set_newest hash db))
            else set_newest hash <$> alter_entry (newest db) (set_flushNext hash) db);
      Some (set_dirtiesSize (dirtiesSize db + (HashLength + c_size entry) mod 2 ^ 16) db)
  end.

Definition reference (child parent : bytes) (db : Database) : option Database :=
  match dirties db !! child with
  | None => Some db
  | Some _ =>
      p ← dirties db !! parent;
      let add (m : gmap bytes Z) (db : Database) :=
        db ← alter_entry child (λ e, set_parents ((c_parents e + 1) mod 2 ^ 32) e) db;
        let k := (default 0 (m !! child) + 1) mod 2 ^ 16 in
        db ← alter_entry parent (set_children (Some (<[child := k]> m))) db;
        Some (if k =? 1 then set_childrenSize (childrenSize db + (HashLength + 2)) db else db) in
      match c_children p with
      | None => add ∅ (set_childrenSize (childrenSize db + cachedNodeChildrenSize) db)
      | Some m =>
          if bool_decide (is_Some (m !! child)) && negb (bool_decide (parent = zero)) then Some db else add m db
      end
  end.

(** An iteration of [commitLoop] (src/trie/committer.go): insert the node, then
    the callback of the leaf refers from it to the roots of other tries. *)
Definition commit_item (hash : bytes) (size : Z) (n : node) (roots : list bytes) (db : Database) : option Database :=
  db ← insert hash size n db;
  foldl (λ db root, db ← db; reference root hash db) (Some db) roots.

(** ** Garbage collection *)

(** Take a node out of the list of insertions. *)
Definition unlink (hash : bytes) (e : cachedNode) (db : Database) : option Database :=
  if bool_decide (hash = oldest db) then
    alter_entry (flushNext e) (set_flushPrev zero) (set_oldest (flushNext e) db)
  else if bool_decide (hash = newest db) then
    alter_entry (flushPrev e) (set_flushNext zero) (set_newest (flushPrev e) db)
  else
    db ← alter_entry (flushPrev e) (set_flushNext (flushNext e)) db;
    alter_entry (flushNext e) (set_flushPrev (flushPrev e)) db.

(** Ranging over a map visits every key once, in some order. *)
Class RangeChildren := {
  range_children : gmap bytes Z → list bytes;
  range_perm m : range_children m ≡ₚ (map_to_list m).*1
}.

Section gc.
Context {ranges : RangeChildren}.
Variable cachedNodeSize : Z.
Variable batch_full : list (bytes * bytes) → bool.

(** The children that [forChilds] visits, in order. *)
Definition forChilds (e : cachedNode) : list bytes :=
  match c_children e with Some m => range_children m | None => [] end ++ forGatherChildren (c_node e).

(** [node.children[child]--], deleting the entry at zero. *)
Definition drop_child (child parent : bytes) (e : cachedNode) (db : Database) : Database :=
  match c_children e with
  | Some m =>
      match m !! child with
      | Some k =>
          if 0 <? k then
            if k - 1 =? 0
            then set_childrenSize (childrenSize db - (HashLength + 2))
                   (set_dirties (<[parent := set_children (Some (base.delete child m)) e]> (dirties db)) db)
            else set_dirties (<[parent := set_children (Some (<[child := k - 1]> m)) e]> (dirties db)) db
          else db
      | None => db
      end
  | None => db
  end.

(** The second half of [dereference]: the child loses a reference and is
    collected with the last one. *)
Definition release (dereference : bytes → bytes → Database → option Database) (child : bytes) (db : Database) : option Database :=
  match dirties db !! child with
  | None => Some db
  | Some e =>
      let e := if 0 <? c_parents e then set_parents (c_parents e - 1) e else e in
      let db := set_dirties (<[child := e]> (dirties db)) db in
      if c_parents e =? 0 then
        db ← unlink child e db;
        db ← foldl (λ db hash, db ← db; dereference hash child db) (Some db) (forChilds e);
        let db := set_dirties (base.delete child (dirties db)) db in
        let db := set_dirtiesSize (dirtiesSize db - (HashLength + c_size e)) db in
        Some (match c_children e with
              | Some _ => set_childrenSize (childrenSize db - cachedNodeChildrenSize) db
              | None => db
              end)
      else Some db
  end.

Fixpoint dereference (fuel : nat) (child parent : bytes) (db : Database) : option Database :=
  match fuel with
  | O => None
  | S fuel =>
      p ← dirties db !! parent;
      release (dereference fuel) child (drop_child child parent p db)
  end.

Definition Dereference (fuel : nat) (root : bytes) (db : Database) : option Database :=
  if bool_decide (root = zero) then Some db else dereference fuel root zero db.

(** ** Writing to disk *)

(** The first loop of [Cap]: write nodes from [oldest] on until the size is
    below the limit; the next node and what has been written. *)
Fixpoint cap_write (fuel : nat) (limit size : Z) (h : bytes) (db : Database) : option (bytes * list (bytes * bytes)) :=
  if (limit <? size) && negb (bool_decide (h = zero)) then
    match fuel with
    | O => None
    | S fuel =>
        e ← dirties db !! h;
        let size := size - (HashLength + c_size e + cachedNodeSize) in
        let size := match c_children e with
                    | Some m => size - (cachedNodeChildrenSize + Z.of_nat (map_size m) * (HashLength + 2))
                    | None => size
                    end in
        '(h', writes) ← cap_write fuel limit size (flushNext e) db;
        Some (h', (h, cached_rlp e) :: writes)
    end
  else Some (h, []).

(** The second loop: drop what has been written. *)
Fixpoint cap_drop (fuel : nat) (h : bytes) (db : Database) : option Database :=
  if bool_decide (oldest db = h) then Some db
  else match fuel with
  | O => None
  | S fuel =>
      e ← dirties db !! oldest db;
      let db := set_dirties (base.delete (oldest db) (dirties db)) db in
      let db := set_oldest (flushNext e) db in
      let db := set_dirtiesSize (dirtiesSize db - (HashLength + c_size e)) db in
      cap_drop fuel h
        (match c_children e with
         | Some m => set_childrenSize (childrenSize db - (cachedNodeChildrenSize + Z.of_nat (map_size m) * (HashLength + 2))) db
         | None => db
         end)
  end.

Definition write_batch (writes : list (bytes * bytes)) (disk : gmap bytes bytes) : gmap bytes bytes :=
  foldl (λ disk kv, <[kv.1 := kv.2]> disk) disk writes.

Definition Cap (limit : Z) (db : Database) : option Database :=
  meta ← dirties db !! zero;
  let n := map_size (dirties db) in
  let size := dirtiesSize db + (Z.of_nat n - 1) * cachedNodeSize + childrenSize db
              - Z.of_nat (map_size (default ∅ (c_children meta))) * (HashLength + 2) in
  '(h, writes) ← cap_write n limit size (oldest db) db;
  db ← cap_drop n h (set_diskdb (write_batch writes (diskdb db)) db);
  if bool_decide (oldest db = zero) then Some db else alter_entry (oldest db) (set_flushPrev zero) db.

Definition Size (db : Database) : Z :=
  let metadataSize := (Z.of_nat (map_size (dirties db)) - 1) * cachedNodeSize in
  let metarootRefs := match dirties db !! zero with Some e => Z.of_nat (map_size (default ∅ (c_children e))) * (HashLength + 2) | None => 0 end in
  dirtiesSize db + childrenSize db + metadataSize - metarootRefs.

(** [cleaner.Put]. *)
Definition cleaner_Put (hash : bytes) (db : Database) : option Database :=
  match dirties db !! hash with
  | None => Some db
  | Some e =>
      db ← unlink hash e db;
      let db := set_dirties (base.delete hash (dirties db)) db in
      let db := set_dirtiesSize (dirtiesSize db - (HashLength + c_size e)) db in
      Some (match c_children e with
            | Some m => set_dirtiesSize (dirtiesSize db - (cachedNodeChildrenSize + Z.of_nat (map_size m) * (HashLength + 2))) db
            | None => db
            end)
  end.

(** Write a batch to disk and replay it into the cleaner. *)
Definition flush_batch (batch : list (bytes * bytes)) (db : Database) : option Database :=
  foldl (λ db kv, db ← db; cleaner_Put kv.1 db) (Some (set_diskdb (write_batch batch (diskdb db)) db)) batch.

Fixpoint commit (fuel : nat) (hash : bytes) (st : Database * list (bytes * bytes)) : option (Database * list (bytes * bytes)) :=
  match fuel with
  | O => None
  | S fuel =>
      match dirties st.1 !! hash with
      | None => Some st
      | Some e =>
          st ← foldl (λ st child, st ← st; commit fuel child st) (Some st) (forChilds e);
          let batch := st.2 ++ [(hash, cached_rlp e)] in
          if batch_full batch then db ← flush_batch batch st.1; Some (db, []) else Some (st.1, batch)
      end
  end.

Definition Commit (fuel : nat) (node : bytes) (db : Database) : option Database :=
  '(db, batch) ← commit fuel node (db, []);
  flush_batch batch db.
End gc.
