(* ===== verification/TrieFlush.v ===== *)
(** * The list of insertions of the trie database

    Sums over finite maps and occurrences in lists, for counting references,
    and the doubly linked list through the entries of the database: taking
    any node out of it succeeds. *)
From S2P Require Import Prelude RlpEncode TrieEncoding TrieSpec Trie TrieHash TrieDecode TrieDatabase.
Local Open Scope Z_scope.

Local Notation zero := zero_hash.

(** ** Sums over maps and occurrences in lists *)

Section sums.
Context {A : Type}.
Implicit Types (f g : bytes → A → Z) (m : gmap bytes A).

Definition msum f m : Z := map_fold (λ k x acc, f k x + acc) 0 m.

Lemma msum_empty f : msum f ∅ = 0.
Proof. apply map_fold_empty. Qed.
Lemma msum_insert f m k x : m !! k = None → msum f (<[k := x]> m) = f k x + msum f m.
Proof. intros H. unfold msum. rewrite map_fold_insert_L; [done| |done]. intros. lia. Qed.
Lemma msum_delete f m k x : m !! k = Some x → msum f m = f k x + msum f (base.delete k m).
Proof. intros H. rewrite <-(msum_insert f (base.delete k m) k x) by apply lookup_delete_eq. by rewrite insert_delete_id. Qed.
Lemma msum_update f m k x y : m !! k = Some x → msum f (<[k := y]> m) = msum f m - f k x + f k y.
Proof.
  intros H. rewrite (msum_delete f m k x H), <-(insert_delete_eq m), (msum_insert f (base.delete k m) k y) by apply lookup_delete_eq. lia.
Qed.
Lemma msum_ext f g m : (∀ k x, m !! k = Some x → f k x = g k x) → msum f m = msum g m.
Proof.
  induction m as [|k x m Hk IH] using map_ind; intros H; [by rewrite !msum_empty|].
  rewrite !msum_insert, (H k x), IH; [done| |by apply lookup_insert_eq|done|done].
  intros k' x' E. apply H. rewrite lookup_insert_ne; [done|]. by intros ->; rewrite Hk in E.
Qed.
Lemma msum_nonneg f m : (∀ k x, m !! k = Some x → 0 ≤ f k x) → 0 ≤ msum f m.
Proof.
  induction m as [|k x m Hk IH] using map_ind; intros H; [by rewrite msum_empty|].
  rewrite msum_insert by done. pose proof (H k x (lookup_insert_eq _ _ _)).
  enough (0 ≤ msum f m) by lia. apply IH. intros k' x' E. apply H. rewrite lookup_insert_ne; [done|]. by intros ->; rewrite Hk in E.
Qed.
Lemma msum_ge f m k x : (∀ k x, m !! k = Some x → 0 ≤ f k x) → m !! k = Some x → f k x ≤ msum f m.
Proof.
  intros H E. rewrite (msum_delete f m k x E). enough (0 ≤ msum f (base.delete k m)) by lia.
  apply msum_nonneg. intros k' x' [_ E']%lookup_delete_Some. by apply H.
Qed.
Lemma msum_zero f m : (∀ k x, m !! k = Some x → f k x = 0) → msum f m = 0.
Proof.
  induction m as [|k x m Hk IH] using map_ind; intros H; [by rewrite msum_empty|].
  rewrite msum_insert, (H k x), IH; [done| |by apply lookup_insert_eq|done].
  intros k' x' E. apply H. rewrite lookup_insert_ne; [done|]. by intros ->; rewrite Hk in E.
Qed.
(** Maps with the same keys whose values count the same. *)
Lemma msum_match f m m' :
  (∀ k, option_Forall2 (λ x y, f k x = f k y) (m !! k) (m' !! k)) → msum f m = msum f m'.
Proof.
  revert m'. induction m as [|k x m Hk IH] using map_ind; intros m' H.
  - rewrite msum_empty. symmetry. apply msum_zero. intros k y E. specialize (H k). rewrite E, lookup_empty in H. inversion H.
  - pose proof (H k) as Hy. rewrite lookup_insert_eq in Hy. inversion Hy as [? y Exy E1 E2|]; subst.
    rewrite msum_insert, (msum_delete f m' k y), Exy by done. f_equal. apply IH. intros k'. destruct (decide (k' = k)) as [->|Hne]; [rewrite lookup_delete_eq, Hk; constructor|].
    rewrite lookup_delete_ne by done. specialize (H k'). by rewrite lookup_insert_ne in H.
Qed.
End sums.

Definition occ (h : bytes) (l : list bytes) : Z := len (filter (λ x, x = h) l).

Lemma occ_nil h : occ h [] = 0.
Proof. done. Qed.
Lemma occ_cons h x l : occ h (x :: l) = (if bool_decide (x = h) then 1 else 0) + occ h l.
Proof. unfold occ. rewrite filter_cons. case_decide; case_bool_decide; try done; cbn; lia. Qed.
Lemma occ_app h l1 l2 : occ h (l1 ++ l2) = occ h l1 + occ h l2.
Proof. unfold occ. rewrite filter_app, length_app. lia. Qed.
Lemma occ_nonneg h l : 0 ≤ occ h l.
Proof. unfold occ. lia. Qed.
Lemma occ_le h l : occ h l ≤ len l.
Proof. unfold occ. pose proof (length_filter (λ x, x = h) l). lia. Qed.
Lemma occ_pos h l : h ∈ l → 1 ≤ occ h l.
Proof.
  induction l as [|x l IH]; intros H; [set_solver|]. rewrite occ_cons. pose proof (occ_nonneg h l).
  case_bool_decide; [lia|]. apply IH. set_solver.
Qed.
Lemma occ_perm h l1 l2 : l1 ≡ₚ l2 → occ h l1 = occ h l2.
Proof. unfold occ. by intros ->. Qed.
Lemma occ_absent h l : h ∉ l → occ h l = 0.
Proof.
  induction l as [|x l IH]; intros H; [done|]. rewrite occ_cons, IH by set_solver. rewrite bool_decide_false; [done|set_solver].
Qed.
Lemma occ_nodup h l : NoDup l → h ∈ l → occ h l = 1.
Proof.
  intros Hn. induction Hn as [|x l Hx Hn IH]; intros H; [set_solver|]. rewrite occ_cons. case_bool_decide as E.
  - subst. by rewrite occ_absent.
  - rewrite IH; [done|set_solver].
Qed.

(** ** The list of insertions *)

Section flush_list.
Implicit Types (d : gmap bytes cachedNode) (l : list bytes).

(** A segment of the doubly linked list between two hashes. *)
Fixpoint dseg d (prev : option bytes) l (next : bytes) : Prop :=
  match l with
  | [] => True
  | h :: l =>
      (∃ e, d !! h = Some e ∧ flushNext e = hd next l ∧ ∀ p, prev = Some p → flushPrev e = p) ∧ dseg d (Some h) l next
  end.

Definition last_or (prev : option bytes) l : option bytes := match last l with Some h => Some h | None => prev end.

Lemma dseg_app d prev l1 l2 next :
  dseg d prev (l1 ++ l2) next ↔ dseg d prev l1 (hd next l2) ∧ dseg d (last_or prev l1) l2 next.
Proof.
  revert prev. induction l1 as [|h l1 IH]; intros prev; cbn [app dseg]; [tauto|].
  rewrite IH. replace (last_or (Some h) l1) with (last_or prev (h :: l1)).
  - replace (hd next (l1 ++ l2)) with (hd (hd next l2) l1) by (by destruct l1). tauto.
  - unfold last_or. rewrite last_cons. by destruct (last l1).
Qed.

Lemma dseg_frame d d' prev l next :
  (∀ h, h ∈ l → (λ e, (flushPrev e, flushNext e)) <$> d !! h = (λ e, (flushPrev e, flushNext e)) <$> d' !! h) →
  dseg d prev l next → dseg d' prev l next.
Proof.
  revert prev. induction l as [|h l IH]; intros prev Hf; cbn [dseg]; [done|]. intros [(e & He & Hn & Hp) Hl].
  split; [|apply IH; [intros; apply Hf; set_solver|done]].
  specialize (Hf h (ltac:(set_solver))). rewrite He in Hf. destruct (d' !! h) as [e'|]; [|done]. cbn in Hf. injection Hf as E1 E2.
  exists e'. split; [done|]. rewrite <-E1, <-E2. done.
Qed.

Lemma dseg_weaken d prev l next : dseg d prev l next → dseg d None l next.
Proof. destruct l as [|h l]; [done|]. intros [(e & ? & ? & ?) Hl]. split; [|done]. by exists e. Qed.

(** The first node of a segment gets another predecessor. *)
Lemma dseg_set_prev d prev h l next x e :
  d !! h = Some e → h ∉ l → dseg d prev (h :: l) next →
  dseg (<[h := set_flushPrev x e]> d) (Some x) (h :: l) next.
Proof.
  intros He Hh [(e' & He' & Hn & Hp) Hl]. simplify_eq. split.
  - exists (set_flushPrev x e). rewrite lookup_insert_eq. split_and!; [done|done|]. by intros ? [= <-].
  - eapply dseg_frame, Hl. intros k Hk. by rewrite lookup_insert_ne by (by intros ->).
Qed.

(** The last node of a segment gets another successor. *)
Lemma dseg_set_next d prev l h next x e :
  d !! h = Some e → h ∉ l → dseg d prev (l ++ [h]) next →
  dseg (<[h := set_flushNext x e]> d) prev (l ++ [h]) x.
Proof.
  intros He Hh [Hl [(e' & He' & Hn & Hp) _]]%dseg_app. simplify_eq. apply dseg_app. split.
  - eapply dseg_frame, Hl. intros k Hk. by rewrite lookup_insert_ne by (by intros ->).
  - split; [|done]. exists (set_flushNext x e). rewrite lookup_insert_eq. split_and!; [done|done|]. done.
Qed.

(** The list of a database: [newest] is only meaningful when there are nodes. *)
Record links d l (old new : bytes) : Prop := {
  ln_nodup : NoDup l;
  ln_zero : zero ∉ l;
  ln_meta : is_Some (d !! zero);
  ln_seg : dseg d None l zero;
  ln_oldest : old = hd zero l;
  ln_newest : l ≠ [] → last l = Some new
}.
End flush_list.

(** An entry without its links. *)
Definition core (e : cachedNode) : cachedNode := set_flushPrev [] (set_flushNext [] e).
Definition cores (db : Database) : gmap bytes cachedNode := core <$> dirties db.
Notation db_links db l := (links (dirties db) l (oldest db) (newest db)).

Lemma cores_relink (d : gmap bytes cachedNode) h e f : d !! h = Some e → core (f e) = core e → core <$> <[h := f e]> d = core <$> d.
Proof. intros He Hf. rewrite fmap_insert, Hf. apply insert_id. by rewrite lookup_fmap, He. Qed.

Ltac db_cbn := cbn [diskdb dirties oldest newest dirtiesSize childrenSize set_diskdb set_dirties set_oldest set_newest set_dirtiesSize set_childrenSize
  c_node c_size c_parents c_children flushPrev flushNext set_parents set_children set_flushPrev set_flushNext].

(** Two databases that differ in the links only. *)
Record relinked (db db' : Database) : Prop := {
  rl_cores : cores db' = cores db;
  rl_disk : diskdb db' = diskdb db;
  rl_dirties : dirtiesSize db' = dirtiesSize db;
  rl_children : childrenSize db' = childrenSize db
}.

Lemma alter_entry_some h f db e :
  dirties db !! h = Some e → alter_entry h f db = Some (set_dirties (<[h := f e]> (dirties db)) db).
Proof. intros He. unfold alter_entry. by rewrite He. Qed.

Lemma relink_set db h e f old new :
  dirties db !! h = Some e → core (f e) = core e →
  relinked db (MkDatabase (diskdb db) (<[h := f e]> (dirties db)) old new (dirtiesSize db) (childrenSize db)).
Proof. intros He Hf. split; [|done..]. by apply cores_relink. Qed.

Lemma links_meta d e l old new : links d l old new → d !! zero = Some e → ∀ e', links (<[zero := e']> d) l old new.
Proof.
  intros [H1 H2 H3 H4 H5 H6] He e'. split; [done|done|by rewrite lookup_insert_eq| |done|done].
  eapply dseg_frame, H4. intros h Hh. by rewrite lookup_insert_ne by (by intros <-).
Qed.

Lemma unlink_oldest db h l e :
  db_links db (h :: l) → dirties db !! h = Some e →
  ∃ db', unlink h e db = Some db' ∧ relinked db db' ∧ db_links db' l.
Proof.
  intros [Hnd Hz Hm Hs Ho Hn] He. unfold unlink. rewrite bool_decide_true by done.
  destruct Hs as [(e' & He' & Hnext & _) Hs]. simplify_eq. rewrite Hnext. inversion Hnd as [|? ? Hh Hnd']; subst.
  destruct l as [|k l]; cbn [hd].
  - destruct Hm as [m Hm]. rewrite (alter_entry_some _ _ (set_oldest _ db) m) by done. eexists. split; [done|].
    split; [by eapply (relink_set db)|]. split; db_cbn; [done|set_solver|by rewrite lookup_insert_eq|done|done|done].
  - destruct Hs as [(ek & Hk & Hkn & _) Hs]. rewrite (alter_entry_some _ _ (set_oldest _ db) ek) by done. eexists. split; [done|].
    split; [by eapply (relink_set db)|]. inversion Hnd' as [|? ? Hkl _]; subst.
    assert (k ≠ zero) by set_solver. split; db_cbn; [done|set_solver|by rewrite lookup_insert_ne| |done|].
    + eapply (dseg_weaken _ (Some zero)). eapply (dseg_set_prev _ None); [done|done|]. split; [by exists ek|done].
    + intros _. by rewrite <-(Hn (ltac:(done))), last_cons_cons.
Qed.

Lemma unlink_newest db h l e :
  l ≠ [] → db_links db (l ++ [h]) → dirties db !! h = Some e →
  ∃ db', unlink h e db = Some db' ∧ relinked db db' ∧ db_links db' l.
Proof.
  intros Hl [Hnd Hz Hm Hs Ho Hn] He. unfold unlink.
  destruct l as [|x l _] using rev_ind; [done|].
  apply NoDup_app in Hnd as (Hnd & Hdis & _).
  rewrite bool_decide_false; cycle 1.
  { intros ->. apply (Hdis (oldest db)); [|set_solver]. rewrite Ho. destruct l; set_solver. }
  rewrite bool_decide_true; cycle 1.
  { rewrite last_snoc in Hn. by injection (Hn (ltac:(by destruct l))). }
  apply dseg_app in Hs as [Hs [(e' & He' & _ & Hp) _]]. simplify_eq. unfold last_or in Hp. rewrite last_snoc in Hp. rewrite (Hp x) by done.
  pose proof Hs as [_ [(ex & Hx & _) _]]%dseg_app. rewrite (alter_entry_some _ _ (set_newest _ db) ex) by done.
  eexists. split; [done|]. split; [by eapply (relink_set db)|]. apply NoDup_app in Hnd as Hnd'. destruct Hnd' as (_ & Hd & _).
  split; [done|set_solver| |eapply dseg_set_next; [done| |done]; intros ?; apply (Hd x); set_solver| |].
  - db_cbn. rewrite lookup_insert_ne by set_solver. done.
  - db_cbn. rewrite Ho. by destruct l.
  - intros _. by rewrite last_snoc.
Qed.

Lemma unlink_middle db h y z l1 l2 e :
  db_links db ((l1 ++ [y]) ++ h :: z :: l2) → dirties db !! h = Some e →
  ∃ db', unlink h e db = Some db' ∧ relinked db db' ∧ db_links db' ((l1 ++ [y]) ++ z :: l2).
Proof.
  intros [Hnd Hz Hm Hs Ho Hn] He. unfold unlink.
  apply NoDup_app in Hnd as Hnd'. destruct Hnd' as (Hnd1 & Hdis & Hnd2). inversion Hnd2 as [|? ? Hh Hnd3]; subst.
  inversion Hnd3 as [|? ? Hzl2 Hnd4]; subst. apply NoDup_app in Hnd1 as Hnd5. destruct Hnd5 as (_ & Hd1 & _).
  rewrite bool_decide_false; cycle 1.
  { intros ->. apply (Hdis (oldest db)); [|set_solver]. rewrite Ho. destruct l1; set_solver. }
  rewrite bool_decide_false; cycle 1.
  { intros ->. apply Hh. specialize (Hn (ltac:(by destruct l1))). rewrite last_app, last_cons_cons in Hn.
    destruct (last (z :: l2)) eqn:E; [|by apply last_None in E]. simplify_eq. by apply last_Some_elem_of in E. }
  apply dseg_app in Hs as [Hs1 [(e' & He' & Hnext & Hp) Hs2]]. simplify_eq. unfold last_or in Hp. rewrite last_snoc in Hp. rewrite (Hp y), Hnext by done.
  pose proof Hs1 as [_ [(ey & Hy & _) _]]%dseg_app. pose proof Hs2 as [(ez & Hzz & _) _].
  assert (y ≠ z) by (intros ->; apply (Hdis z); set_solver).
  rewrite (alter_entry_some _ _ db ey) by done. db_cbn. cbn [mbind option_bind].
  rewrite (alter_entry_some _ _ _ ez) by (db_cbn; by rewrite lookup_insert_ne). eexists. split; [done|].
  split.
  { split; [|done..]. unfold cores. db_cbn. erewrite cores_relink; [by apply cores_relink|by rewrite lookup_insert_ne|done]. }
  split; db_cbn; [| | | | |].
  - apply NoDup_app. split_and!; [done| |done]. intros x Hx Hx'. apply (Hdis x); set_solver.
  - set_solver.
  - rewrite !lookup_insert_ne by set_solver. done.
  - apply dseg_app. split.
    + eapply dseg_frame, (dseg_set_next (dirties db) None l1 y _ z ey Hy); [|intros ?; apply (Hd1 y); set_solver|exact Hs1].
      intros k Hk. rewrite (lookup_insert_ne _ z k); [done|]. intros ->. apply (Hdis k); set_solver.
    + unfold last_or. rewrite last_snoc.
      eapply dseg_set_prev; [by rewrite lookup_insert_ne|done|]. eapply dseg_frame, Hs2.
      intros k Hk. rewrite lookup_insert_ne; [done|]. intros ->. apply (Hdis k); set_solver.
  - rewrite Ho. by destruct l1.
  - intros _. rewrite <-Hn by (by destruct l1). by rewrite !last_app, last_cons_cons.
Qed.

(** Taking any node out of the list succeeds. *)
Lemma unlink_ok db h l1 l2 e :
  db_links db (l1 ++ h :: l2) → dirties db !! h = Some e →
  ∃ db', unlink h e db = Some db' ∧ relinked db db' ∧ db_links db' (l1 ++ l2).
Proof.
  intros Hl He. destruct l1 as [|y l1 _] using rev_ind; [by apply unlink_oldest|].
  destruct l2 as [|z l2]; [|by apply unlink_middle]. rewrite app_nil_r. apply unlink_newest; [by destruct l1|done|done].
Qed.
