(* ===== verification/TrieGc.v ===== *)
(** * The garbage collection of the trie database

    An invariant of the reference counts, of the list of insertions and of
    what is on disk, and that inserting, referring and dereferencing keep it:
    a node that a referenced root leads to is always found. *)
From S2P Require Import Prelude RlpEncode TrieEncoding TrieSpec Trie TrieHash TrieDecode TrieDatabase TrieFlush.
Local Open Scope Z_scope.

Local Notation zero := zero_hash.

(** ** What the hashes stand for *)

(** The node under each hash, as it is stored, and its external children (the
    roots of the storage tries of the accounts it holds).  Hashes of children
    are part of what is hashed, so that following them comes to an end; no
    node has the zero hash. *)
Class NodeContents := {
  node_at : bytes → node;
  ext : bytes → list bytes;
  rank : bytes → nat;
  ranked h c : c ∈ forGatherChildren (node_at h) ++ ext h → (rank c < rank h)%nat ∧ c ≠ zero;
  encoded h : encode_node (node_at h) ≠ []
}.

Section contents.
Context {contents : NodeContents}.

Definition kids (h : bytes) : list bytes := forGatherChildren (node_at h) ++ ext h.

(** The encoded node is on disk. *)
Definition on_disk (disk : gmap bytes bytes) (h : bytes) : Prop := disk !! h = Some (encode_node (node_at h)).
#[global] Instance on_disk_dec disk h : Decision (on_disk disk h).
Proof. unfold on_disk. apply _. Defined.

Definition ext_count (e : cachedNode) (c : bytes) : Z := default 0 (default ∅ (c_children e) !! c).
(** The references that an entry holds on a hash. *)
Definition holds (e : cachedNode) (c : bytes) : Z := occ c (forGatherChildren (c_node e)) + ext_count e c.
(** The references on a hash, except those of the entries in [Zs]. *)
Definition refs (C : gmap bytes cachedNode) (Zs : list bytes) (c : bytes) : Z :=
  msum (λ p e, if bool_decide (p ∈ Zs) then 0 else holds e c) C.

Definition before (l : list bytes) (c h : bytes) : Prop := ∃ l1 l2, l = l1 ++ h :: l2 ∧ c ∈ l1.

(** The invariant, also in the middle of an operation: the entries in [Zs] are
    being removed, and [S] is by how much the counts exceed the references.
    Nodes that are on disk may have a wrong count. *)
Record counts (Zs : list bytes) (S : bytes → Z) (l : list bytes) (C : gmap bytes cachedNode) (disk : gmap bytes bytes) : Prop := {
  ct_dom h : h ∈ l ↔ is_Some (C !! h) ∧ h ≠ zero ∧ h ∉ Zs;
  ct_meta : ∃ e m, C !! zero = Some e ∧ c_node e = nilNode ∧ c_children e = Some m ∧ ∀ c k, m !! c = Some k → 1 ≤ k;
  ct_zero : zero ∉ Zs;
  ct_node h e : C !! h = Some e → h ≠ zero → c_node e = node_at h;
  ct_ext h e m c k : C !! h = Some e → h ≠ zero → c_children e = Some m → m !! c = Some k → k = 1 ∧ c ∈ ext h;
  ct_parents h e : C !! h = Some e → 0 ≤ c_parents e;
  ct_count h e : C !! h = Some e → h ∈ l → ¬ on_disk disk h → c_parents e = refs C Zs h + S h;
  ct_order h c : h ∈ l → c ∈ kids h → on_disk disk c ∨ before l c h;
  ct_held h e c : C !! h = Some e → h ∈ l → c ∈ ext h → on_disk disk c ∨ ext_count e c = 1;
  ct_roots e c : C !! zero = Some e → ext_count e c ≠ 0 → on_disk disk c ∨ c ∈ l;
  ct_disk h c : on_disk disk h → c ∈ kids h → on_disk disk c
}.

Lemma counts_ext Zs S S' l C disk : (∀ h, S h = S' h) → counts Zs S l C disk → counts Zs S' l C disk.
Proof. intros HS []. split; try done. intros h e ? ? ?. rewrite <-HS. by apply ct_count0. Qed.

(** References about to be released. *)
Definition pending (ks : list bytes) (S : bytes → Z) : bytes → Z := λ h, occ h ks + S h.

Lemma refs_update C Zs p e e' c :
  C !! p = Some e → holds e' c = holds e c → refs (<[p := e']> C) Zs c = refs C Zs c.
Proof. intros Hp He. unfold refs. rewrite (msum_update _ _ _ _ _ Hp), He. lia. Qed.

Lemma ext_count_cases Zs S l C disk h e c : counts Zs S l C disk → C !! h = Some e → 0 ≤ ext_count e c.
Proof.
  intros Hc He. destruct (decide (h = zero)) as [->|Hz].
  - destruct (ct_meta _ _ _ _ _ Hc) as (e' & m & He' & _ & Hm & Hk). simplify_eq. unfold ext_count. rewrite Hm. cbn.
    destruct (m !! c) as [k|] eqn:E; cbn; [|lia]. specialize (Hk _ _ E). lia.
  - unfold ext_count. destruct (c_children e) as [m|] eqn:Hm; cbn; [|by rewrite lookup_empty].
    destruct (m !! c) as [k|] eqn:E; cbn; [|lia]. destruct (ct_ext _ _ _ _ _ Hc h e m c k) as [-> _]; [done..|lia].
Qed.

Lemma holds_nonneg Zs S l C disk h e c : counts Zs S l C disk → C !! h = Some e → 0 ≤ holds e c.
Proof.
  intros Hc He. pose proof (ext_count_cases _ _ _ _ _ _ _ c Hc He). pose proof (occ_nonneg c (forGatherChildren (c_node e))).
  unfold holds. lia.
Qed.

Lemma refs_nonneg Zs S l C disk c : counts Zs S l C disk → 0 ≤ refs C Zs c.
Proof.
  intros Hc. apply msum_nonneg. intros p e He. case_bool_decide; [lia|]. by eapply holds_nonneg.
Qed.

(** Whoever holds a reference is counted. *)
Lemma refs_holds Zs S l C disk p e c : counts Zs S l C disk → C !! p = Some e → p ∉ Zs → holds e c ≤ refs C Zs c.
Proof.
  intros Hc He Hp. pose proof (msum_ge (λ p e, if bool_decide (p ∈ Zs) then 0 else holds e c) C p e) as Hg. cbn in Hg.
  rewrite bool_decide_false in Hg by done. apply Hg; [|done]. intros q e' He'. case_bool_decide; [lia|]. by eapply holds_nonneg.
Qed.

(** A hash that nobody refers to is nobody's child. *)
Lemma unreferenced_kid Zs S l C disk h c :
  counts Zs S l C disk → refs C Zs c = 0 → h ∈ l → c ∈ kids h → on_disk disk c.
Proof.
  intros Hc H0 Hh Hk. apply (ct_dom _ _ _ _ _ Hc) in Hh as Hh'. destruct Hh' as ([e He] & Hz & HZ).
  pose proof (refs_holds _ _ _ _ _ _ _ c Hc He HZ) as Hr. pose proof (ext_count_cases _ _ _ _ _ _ _ c Hc He) as Hp.
  unfold holds in Hr. rewrite (ct_node _ _ _ _ _ Hc h e He Hz) in Hr. pose proof (occ_nonneg c (forGatherChildren (node_at h))).
  apply elem_of_app in Hk as [Hk|Hk]; [apply occ_pos in Hk; lia|].
  destruct (ct_held _ _ _ _ _ Hc h e c He Hh Hk); [done|lia].
Qed.

Lemma unreferenced_root Zs S l C disk e c :
  counts Zs S l C disk → refs C Zs c = 0 → C !! zero = Some e → ext_count e c = 0.
Proof.
  intros Hc H0 He. pose proof (refs_holds _ _ _ _ _ _ _ c Hc He (ct_zero _ _ _ _ _ Hc)) as Hr.
  pose proof (ext_count_cases _ _ _ _ _ _ _ c Hc He). unfold holds in Hr. pose proof (occ_nonneg c (forGatherChildren (c_node e))). lia.
Qed.

(** ** Steps of a collection *)

(** A pending reference on a node that is not in memory is forgotten. *)
Lemma counts_forget Zs S l C disk c : counts Zs (pending [c] S) l C disk → C !! c = None → counts Zs S l C disk.
Proof.
  intros Hc Hn. destruct Hc. split; try done. intros h e He Hh Hd. rewrite (ct_count0 h e He Hh Hd). unfold pending.
  rewrite occ_cons, bool_decide_false; [done|]. intros ->. by rewrite Hn in He.
Qed.

(** What [counts] says of an entry does not depend on its size and, apart from
    the count itself, not on its number of parents. *)
Lemma counts_set_parents Zs S S' l C disk c e x :
  counts Zs S l C disk → C !! c = Some e → 0 ≤ x →
  (∀ h e, C !! h = Some e → h ∈ l → h ≠ c → ¬ on_disk disk h → S' h = S h) →
  (c ∈ l → ¬ on_disk disk c → x = refs C Zs c + S' c) →
  counts Zs S' l (<[c := set_parents x e]> C) disk.
Proof.
  intros Hc He Hx HS Hcount.
  assert (Hr : ∀ h, refs (<[c := set_parents x e]> C) Zs h = refs C Zs h) by (intros h; by apply (refs_update _ _ _ e)).
  assert (Hl : ∀ h e', <[c := set_parents x e]> C !! h = Some e' → ∃ e0, C !! h = Some e0 ∧ c_node e' = c_node e0 ∧ c_children e' = c_children e0).
  { intros h e' [[<- <-]|[? ?]]%lookup_insert_Some; eauto. }
  assert (Hx' : ∀ h e' c', <[c := set_parents x e]> C !! h = Some e' → ∃ e0, C !! h = Some e0 ∧ ext_count e' c' = ext_count e0 c').
  { intros h e' c' (e0 & E & _ & E')%Hl. exists e0. split; [done|]. unfold ext_count. by rewrite E'. }
  destruct Hc. split; try done.
  - intros h. rewrite ct_dom0. destruct (decide (h = c)) as [->|]; [rewrite lookup_insert_eq, He|by rewrite lookup_insert_ne].
    split; intros [_ ?]; (split; [eauto|done]).
  - destruct ct_meta0 as (e0 & m & E & En & Em & Ek). destruct (decide (c = zero)) as [->|]; simplify_eq.
    + exists (set_parents x e0), m. by rewrite lookup_insert_eq.
    + exists e0, m. by rewrite lookup_insert_ne.
  - intros h e' (e0 & E & En & _)%Hl Hz. rewrite En. by apply ct_node0.
  - intros h e' m c' k (e0 & E & _ & Ex)%Hl Hz. rewrite Ex. by apply ct_ext0.
  - intros h e' [[<- <-]|[? ?]]%lookup_insert_Some; [done|by eapply ct_parents0].
  - intros h e' Hh Hin Hd. rewrite Hr. apply lookup_insert_Some in Hh as [[<- <-]|[Hne Hh]]; [by apply Hcount|].
    by rewrite (ct_count0 h e' Hh Hin Hd), (HS h e').
  - intros h e' c' (e0 & E & Ex)%(Hx' _ _ c'). rewrite Ex. by apply ct_held0.
  - intros e' c' (e0 & E & Ex)%(Hx' _ _ c'). rewrite Ex. by apply ct_roots0.
Qed.

(** [node.parents--]. *)
Definition dec_parents (e : cachedNode) : cachedNode := if 0 <? c_parents e then set_parents (c_parents e - 1) e else e.
Lemma dec_parents_set e : 0 ≤ c_parents e → dec_parents e = set_parents (Z.max 0 (c_parents e - 1)) e.
Proof.
  intros H0. unfold dec_parents. destruct (Z.ltb_spec 0 (c_parents e)).
  - by rewrite Z.max_r by lia.
  - destruct e as [n s p cs fp fn]. cbn in *. by replace p with 0 by lia.
Qed.

Lemma counts_release Zs S l C disk c e :
  0 ≤ S c → counts Zs (pending [c] S) l C disk → C !! c = Some e → counts Zs S l (<[c := dec_parents e]> C) disk.
Proof.
  intros HS Hc He. pose proof (ct_parents _ _ _ _ _ Hc _ _ He). rewrite dec_parents_set by done.
  eapply counts_set_parents; [done|done|lia| |].
  - intros h e' _ _ Hne _. unfold pending. by rewrite occ_cons, bool_decide_false by done.
  - intros Hl Hd. pose proof (ct_count _ _ _ _ _ Hc c e He Hl Hd) as E. unfold pending in E. rewrite occ_cons, bool_decide_true, occ_nil in E by done.
    pose proof (refs_nonneg _ _ _ _ _ c Hc). lia.
Qed.

Lemma before_remove l1 c l2 x h : before (l1 ++ c :: l2) x h → x ≠ c → h ≠ c → before (l1 ++ l2) x h.
Proof.
  intros (k1 & k2 & E & Hx) Hxc Hhc. apply app_eq_app in E as [m [[-> E]|[-> E]]]; destruct m as [|y m]; injection E as ? ?; subst; try done.
  - exists k1, (m ++ l2). by rewrite <-app_assoc.
  - exists (l1 ++ m), k2. rewrite <-app_assoc. split; [done|]. set_solver.
Qed.

Lemma refs_retire C Zs c e h : c ∉ Zs → C !! c = Some e → refs C Zs h = refs C (c :: Zs) h + holds e h.
Proof.
  intros HZ He. unfold refs. rewrite !(msum_delete _ _ _ _ He). rewrite bool_decide_false by done. rewrite bool_decide_true by set_solver.
  rewrite Z.add_0_l, Z.add_comm. f_equal. apply msum_ext. intros k x [Hk _]%lookup_delete_Some.
  by rewrite (bool_decide_ext (k ∈ c :: Zs) (k ∈ Zs)) by set_solver.
Qed.

Lemma refs_bury C Zs c h : c ∉ Zs → refs (base.delete c C) Zs h = refs C (c :: Zs) h.
Proof.
  intros HZ. unfold refs. destruct (C !! c) as [e|] eqn:He.
  - rewrite (msum_delete _ C _ _ He), bool_decide_true by set_solver. cbn. apply msum_ext. intros k x [Hk _]%lookup_delete_Some.
    by rewrite (bool_decide_ext (k ∈ c :: Zs) (k ∈ Zs)) by set_solver.
  - rewrite delete_id by done. apply msum_ext. intros k x Hk.
    rewrite (bool_decide_ext (k ∈ c :: Zs) (k ∈ Zs)); [done|]. assert (k ≠ c) by congruence. set_solver.
Qed.

Section collect.
Context {ranges : RangeChildren}.

Lemma forChilds_holds Zs S l C disk h e c :
  counts Zs S l C disk → C !! h = Some e → h ≠ zero → occ c (forChilds e) = holds e c.
Proof.
  intros Hc He Hz. unfold forChilds, holds. rewrite occ_app. rewrite (Z.add_comm (occ _ (forGatherChildren _))). f_equal.
  unfold ext_count. destruct (c_children e) as [m|] eqn:Hm; cbn; [|by rewrite lookup_empty].
  rewrite (occ_perm _ _ _ (range_perm m)). destruct (m !! c) as [k|] eqn:E; cbn.
  - destruct (ct_ext _ _ _ _ _ Hc h e m c k) as [-> _]; [done..|].
    apply occ_nodup; [apply NoDup_fst_map_to_list|]. apply list_elem_of_fmap. exists (c, 1). by rewrite elem_of_map_to_list.
  - apply occ_absent. intros ([? ?] & -> & Hin%elem_of_map_to_list)%list_elem_of_fmap. cbn in E. by rewrite E in Hin.
Qed.

(** A node without references is taken out of the list, and the references it
    holds become pending. *)
Lemma counts_retire Zs S l1 l2 C disk c e :
  0 ≤ S c → NoDup (l1 ++ c :: l2) → counts Zs S (l1 ++ c :: l2) C disk → C !! c = Some e → c_parents e = 0 →
  counts (c :: Zs) (pending (forChilds e) S) (l1 ++ l2) C disk.
Proof.
  intros HS Hnd Hc He Hp. assert (Hin : c ∈ l1 ++ c :: l2) by set_solver.
  apply (ct_dom _ _ _ _ _ Hc) in Hin as Hin'. destruct Hin' as (_ & Hz & HZ).
  assert (Hsub : ∀ h, h ∈ l1 ++ l2 ↔ h ∈ l1 ++ c :: l2 ∧ h ≠ c).
  { apply NoDup_app in Hnd as (_ & Hd & Hnd). apply NoDup_cons in Hnd as [Hc2 _]. intros h. split; [|set_solver].
    intros Hh. split; [set_solver|]. intros ->. specialize (Hd c). set_solver. }
  assert (H0 : ¬ on_disk disk c → refs C Zs c = 0).
  { intros Hd. pose proof (ct_count _ _ _ _ _ Hc c e He Hin Hd). pose proof (refs_nonneg _ _ _ _ _ c Hc). lia. }
  pose proof Hc as []. split; try done.
  - intros h. rewrite Hsub, ct_dom0. set_solver.
  - set_solver.
  - intros h e' He' [Hh Hne]%Hsub Hd. rewrite (ct_count0 h e' He' Hh Hd), (refs_retire C Zs c e h) by done. unfold pending.
    rewrite (forChilds_holds _ _ _ _ _ c e h Hc) by done. lia.
  - intros h c' [Hh Hne]%Hsub Hk. destruct (decide (on_disk disk c')) as [|Hd]; [by left|right].
    destruct (ct_order0 h c' Hh Hk) as [|Hb]; [done|]. apply before_remove in Hb; [done| |done].
    intros ->. apply Hd. by apply (unreferenced_kid _ _ _ _ _ h c Hc (H0 Hd)).
  - intros h e' c' He' [Hh Hne]%Hsub. by apply ct_held0.
  - intros e' c' He' Hx. destruct (decide (on_disk disk c')) as [|Hd]; [by left|right].
    destruct (ct_roots0 e' c' He' Hx) as [|Hl]; [done|]. apply Hsub. split; [done|]. intros ->. by apply Hx, (unreferenced_root _ _ _ _ _ _ _ Hc (H0 Hd)).
Qed.

(** A retired node is deleted. *)
Lemma counts_bury Zs S l C disk c :
  c ∉ Zs → c ≠ zero → counts (c :: Zs) S l C disk → counts Zs S l (base.delete c C) disk.
Proof.
  intros HZ Hz Hc. pose proof Hc as [].
  assert (Hne : ∀ h, h ∈ l → h ≠ c) by (intros h (_ & _ & ?)%ct_dom0; set_solver).
  split; try done.
  - intros h. rewrite ct_dom0. destruct (decide (h = c)) as [->|]; [rewrite lookup_delete_eq|rewrite lookup_delete_ne by done]; [|set_solver].
    split; [set_solver|]. by intros [[? ?] _].
  - destruct ct_meta0 as (e & m & ? & ?). exists e, m. by rewrite lookup_delete_ne.
  - set_solver.
  - intros h e [_ ?]%lookup_delete_Some. by apply ct_node0.
  - intros h e m c' k [_ ?]%lookup_delete_Some. by apply ct_ext0.
  - intros h e [_ ?]%lookup_delete_Some. by eapply ct_parents0.
  - intros h e [_ He]%lookup_delete_Some Hh Hd. by rewrite (ct_count0 h e He Hh Hd), refs_bury.
  - intros h e c' [_ ?]%lookup_delete_Some. by apply ct_held0.
  - intros e c' [_ ?]%lookup_delete_Some. by apply ct_roots0.
Qed.

(** A retired node loses an external child. *)
Lemma counts_retired_child Zs S l C disk z e m c :
  z ∈ Zs → counts Zs S l C disk → C !! z = Some e → c_children e = Some m →
  counts Zs S l (<[z := set_children (Some (base.delete c m)) e]> C) disk.
Proof.
  intros HZ Hc He Hm. pose proof Hc as []. assert (Hz : z ≠ zero) by set_solver.
  assert (Hne : ∀ h, h ∈ l → h ≠ z) by (intros h (_ & _ & ?)%ct_dom0; set_solver).
  split; try done.
  - intros h. rewrite ct_dom0. destruct (decide (h = z)) as [->|]; [|by rewrite lookup_insert_ne]. set_solver.
  - destruct ct_meta0 as (e' & m' & ? & ?). exists e', m'. by rewrite lookup_insert_ne.
  - intros h e' [[<- <-]|[_ ?]]%lookup_insert_Some Hh; [by apply (ct_node0 z e)|by apply ct_node0].
  - intros h e' m' c' k [[<- <-]|[_ ?]]%lookup_insert_Some Hh; [|by apply ct_ext0].
    intros [= <-] [_ ?]%lookup_delete_Some. by eapply ct_ext0.
  - intros h e' [[<- <-]|[_ ?]]%lookup_insert_Some; [by apply (ct_parents0 z e)|by eapply ct_parents0].
  - intros h e' [[<- <-]|[_ He']]%lookup_insert_Some Hh Hd; [by apply Hne in Hh|].
    rewrite (ct_count0 h e' He' Hh Hd). f_equal. unfold refs. rewrite (msum_update _ _ _ _ _ He), !bool_decide_true by done. lia.
  - intros h e' c' [[<- <-]|[_ He']]%lookup_insert_Some Hh; [by apply Hne in Hh|by apply ct_held0].
  - intros e' c' [[? _]|[_ He']]%lookup_insert_Some; [done|by apply ct_roots0].
Qed.

(** ** [dereference] *)

Definition gc_inv (Zs : list bytes) (S : bytes → Z) (l : list bytes) (db : Database) : Prop :=
  db_links db l ∧ counts Zs S l (cores db) (diskdb db) ∧ ∀ z, z ∈ Zs → is_Some (dirties db !! z).

Lemma gc_inv_ext Zs S S' l db : (∀ h, S h = S' h) → gc_inv Zs S l db → gc_inv Zs S' l db.
Proof. intros HS (? & ? & ?). split_and!; [done|by eapply counts_ext|done]. Qed.
Lemma pending_nonneg ks S : (∀ h, 0 ≤ S h) → ∀ h, 0 ≤ pending ks S h.
Proof. intros HS h. unfold pending. pose proof (occ_nonneg h ks). specialize (HS h). lia. Qed.

Lemma cores_lookup db h e : dirties db !! h = Some e → cores db !! h = Some (core e).
Proof. intros He. unfold cores. by rewrite lookup_fmap, He. Qed.
Lemma cores_set db h e d : d = dirties db → core <$> <[h := e]> d = <[h := core e]> (cores db).
Proof. intros ->. unfold cores. by rewrite fmap_insert. Qed.

Lemma links_set d l old new h e e' :
  links d l old new → d !! h = Some e → flushPrev e' = flushPrev e → flushNext e' = flushNext e →
  links (<[h := e']> d) l old new.
Proof.
  intros [H1 H2 H3 H4 H5 H6] He Hp Hn. split; try done.
  - destruct (decide (h = zero)) as [->|]; [by rewrite lookup_insert_eq|by rewrite lookup_insert_ne].
  - eapply dseg_frame, H4. intros k Hk. destruct (decide (h = k)) as [->|]; [|by rewrite lookup_insert_ne].
    rewrite lookup_insert_eq, He. cbn. by rewrite Hp, Hn.
Qed.

Lemma links_delete d l old new h : links d l old new → h ∉ l → h ≠ zero → links (base.delete h d) l old new.
Proof.
  intros [H1 H2 H3 H4 H5 H6] Hl Hz. split; try done; [by rewrite lookup_delete_ne|].
  eapply dseg_frame, H4. intros k Hk. by rewrite lookup_delete_ne by set_solver.
Qed.

Lemma lookup_set_some {A} (m : gmap bytes A) h x k : is_Some (m !! k) → is_Some (<[h := x]> m !! k).
Proof. rewrite lookup_insert. case_decide; eauto. Qed.

Lemma drop_child_retired Zs S l db c z e :
  gc_inv Zs S l db → z ∈ Zs → dirties db !! z = Some e → gc_inv Zs S l (drop_child c z e db) ∧ diskdb (drop_child c z e db) = diskdb db.
Proof.
  intros (Hl & Hc & Hz) HZ He. unfold drop_child. destruct (c_children e) as [m|] eqn:Hm; [|done].
  destruct (m !! c) as [k|] eqn:Hk; [|done]. pose proof (ct_zero _ _ _ _ _ Hc).
  destruct (ct_ext _ _ _ _ _ Hc z (core e) m c k) as [-> _]; [by apply cores_lookup|set_solver|done|done|].
  change (0 <? 1) with true. change (1 - 1 =? 0) with true. cbn [negb]. split; [|done]. split_and!.
  - by eapply links_set.
  - unfold cores. cbn. rewrite fmap_insert. eapply (counts_retired_child _ _ _ (cores db) _ _ (core e)); [done|done|by apply cores_lookup|done].
  - intros z' ?. db_cbn. apply lookup_set_some. by apply Hz.
Qed.

Lemma relinked_inv Zs S l' db db' : relinked db db' → db_links db' l' → counts Zs S l' (cores db) (diskdb db) →
  (∀ z, z ∈ Zs → is_Some (dirties db !! z)) → gc_inv Zs S l' db'.
Proof.
  intros [E1 E2 _ _] Hl Hc Hz. split_and!; [done|by rewrite E1, E2|]. intros z [e He]%Hz.
  apply cores_lookup in He. rewrite <-E1 in He. unfold cores in He. rewrite lookup_fmap in He. destruct (dirties db' !! z); [eauto|done].
Qed.

Lemma forChilds_kids Zs S l C disk h e c :
  counts Zs S l C disk → C !! h = Some e → h ≠ zero → c ∈ forChilds e → c ∈ kids h.
Proof.
  intros Hc He Hz Hin. unfold forChilds in Hin. unfold kids. rewrite <-(ct_node _ _ _ _ _ Hc h e He Hz).
  apply elem_of_app in Hin as [Hin|]; [|set_solver]. destruct (c_children e) as [m|] eqn:Hm; [|set_solver].
  rewrite range_perm in Hin. apply list_elem_of_fmap in Hin as ([c' k] & -> & Hin%elem_of_map_to_list).
  apply elem_of_app. right. by eapply ct_ext.
Qed.

(** No node outside of [Zs] loses its last reference and stays. *)
Definition no_garbage (Zs : list bytes) (db db' : Database) : Prop :=
  ∀ h e', dirties db' !! h = Some e' → h ≠ zero → h ∉ Zs → c_parents e' = 0 → ∃ e, dirties db !! h = Some e ∧ c_parents e = 0.

Lemma no_garbage_refl Zs db : no_garbage Zs db db.
Proof. intros h e' ? ? ? ?. eauto. Qed.
Lemma no_garbage_trans Zs db db' db'' : no_garbage Zs db db' → no_garbage Zs db' db'' → no_garbage Zs db db''.
Proof. intros H1 H2 h e'' E Hz HZ E0. destruct (H2 h e'' E Hz HZ E0) as (e' & E' & E0'). by eapply H1. Qed.
Lemma no_garbage_same Zs db db' : c_parents <$> dirties db' = c_parents <$> dirties db → no_garbage Zs db db'.
Proof.
  intros E h e' He' _ _ E0. apply (f_equal (.!! h)) in E. rewrite !lookup_fmap, He' in E. destruct (dirties db !! h) as [e|]; [|done].
  injection E as E. exists e. split; [done|congruence].
Qed.
Lemma no_garbage_relinked Zs db db' : relinked db db' → no_garbage Zs db db'.
Proof.
  intros [E _ _ _]. apply no_garbage_same. apply (f_equal (fmap c_parents)) in E. unfold cores in E. by rewrite <-!map_fmap_compose in E.
Qed.
Lemma no_garbage_drop Zs c z e db : dirties db !! z = Some e → no_garbage Zs db (drop_child c z e db).
Proof.
  intros He. apply no_garbage_same. unfold drop_child. repeat case_match; try done; db_cbn; rewrite fmap_insert; apply insert_id; by rewrite lookup_fmap, He.
Qed.

(** What a call of [dereference] with [fuel] achieves. *)
Definition derefs (fuel : nat) : Prop :=
  ∀ c parent Zs S l db,
    gc_inv Zs (pending [c] S) l db → (∀ h, 0 ≤ S h) → (rank c < fuel)%nat → (∀ z, z ∈ Zs → (rank c < rank z)%nat) → c ≠ zero → parent ∈ Zs →
    ∃ db' l', dereference fuel c parent db = Some db' ∧ gc_inv Zs S l' db' ∧ diskdb db' = diskdb db ∧ no_garbage Zs db db'.

Lemma deref_children fuel Zs S c ks l db :
  derefs fuel → c ∈ Zs → (∀ h, 0 ≤ S h) → gc_inv Zs (pending ks S) l db →
  (∀ k, k ∈ ks → (rank k < fuel)%nat ∧ k ≠ zero ∧ ∀ z, z ∈ Zs → (rank k < rank z)%nat) →
  ∃ db' l', foldl (λ db hash, db ← db; dereference fuel hash c db) (Some db) ks = Some db'
    ∧ gc_inv Zs S l' db' ∧ diskdb db' = diskdb db ∧ no_garbage Zs db db'.
Proof.
  intros Hd HZ HS. revert l db. induction ks as [|k ks IH]; intros l db Hg Hk.
  { exists db, l. split_and!; [done| |done|apply no_garbage_refl]. by eapply gc_inv_ext, Hg. }
  destruct (Hk k) as (? & ? & ?); [set_solver|].
  destruct (Hd k c Zs (pending ks S) l db) as (db1 & l1 & E1 & Hg1 & D1 & G1); [|by apply pending_nonneg|done..|].
  { eapply gc_inv_ext, Hg. intros h. unfold pending. rewrite !occ_cons, occ_nil. lia. }
  destruct (IH l1 db1 Hg1) as (db' & l' & E & Hg' & D & G); [set_solver|]. exists db', l'. cbn. rewrite E1.
  split_and!; [done|done|congruence|by eapply no_garbage_trans].
Qed.

Lemma release_ok fuel c Zs S l db :
  derefs fuel → gc_inv Zs (pending [c] S) l db → (∀ h, 0 ≤ S h) → (rank c ≤ fuel)%nat → (∀ z, z ∈ Zs → (rank c < rank z)%nat) → c ≠ zero →
  ∃ db' l', release (dereference fuel) c db = Some db' ∧ gc_inv Zs S l' db' ∧ diskdb db' = diskdb db ∧ no_garbage Zs db db'.
Proof.
  intros Hd (Hl & Hc & HZ) HS Hr Hrz Hcz. assert (c ∉ Zs) by (intros ?%Hrz; lia). unfold release.
  destruct (dirties db !! c) as [e|] eqn:He; cycle 1.
  { exists db, l. split_and!; [done|split_and!; [done| |done]|done|apply no_garbage_refl]. eapply counts_forget; [done|]. unfold cores. by rewrite lookup_fmap, He. }
  apply cores_lookup in He as He'. fold (dec_parents e). set (e1 := dec_parents e).
  assert (Hc1 : counts Zs S l (<[c := core e1]> (cores db)) (diskdb db)).
  { replace (core e1) with (dec_parents (core e)) by (subst e1; unfold dec_parents; cbn; by case_match). by eapply counts_release. }
  assert (Hl1 : links (<[c := e1]> (dirties db)) l (oldest db) (newest db)).
  { eapply links_set; [done|done|..]; subst e1; unfold dec_parents; by case_match. }
  set (db1 := set_dirties (<[c := e1]> (dirties db)) db).
  assert (E1 : cores db1 = <[c := core e1]> (cores db)) by (by apply cores_set).
  assert (HZ1 : ∀ z, z ∈ Zs → is_Some (dirties db1 !! z)) by (intros z ?; apply lookup_set_some; by apply HZ).
  destruct (Z.eqb_spec (c_parents e1) 0) as [Hp|Hp]; cycle 1.
  { exists db1, l. split_and!; [done|split_and!; [done|by rewrite E1|done]|done|].
    intros h e'. subst db1. db_cbn. intros [[<- <-]|[_ ?]]%lookup_insert_Some ? ? ?; [done|eauto]. }
  assert (Hin : c ∈ l) by (apply (ct_dom _ _ _ _ _ Hc); eauto). apply list_elem_of_split in Hin as (l1 & l2 & ->).
  destruct (unlink_ok db1 c l1 l2 e1) as (db2 & E2 & Hrl & Hl2); [done|apply lookup_insert_eq|]. rewrite E2. cbn [mbind option_bind].
  pose proof (ln_nodup _ _ _ _ Hl) as Hnd.
  assert (Hin : <[c := core e1]> (cores db) !! c = Some (core e1)) by apply lookup_insert_eq.
  pose proof (counts_retire Zs S l1 l2 _ _ c (core e1) (HS c) Hnd Hc1 Hin Hp) as Hc2. rewrite <-E1 in Hc2.
  assert (Hg2 : gc_inv (c :: Zs) (pending (forChilds e1) S) (l1 ++ l2) db2).
  { eapply relinked_inv; [done|done|exact Hc2|]. intros z [->|]%elem_of_cons; [|by apply HZ1]. subst db1. db_cbn. by rewrite lookup_insert_eq. }
  destruct (deref_children fuel (c :: Zs) S c (forChilds e1) (l1 ++ l2) db2 Hd) as (db3 & l3 & E3 & Hg3 & D3 & G3); [set_solver|done|done| |].
  { intros k Hk. change (forChilds e1) with (forChilds (core e1)) in Hk.
    eapply forChilds_kids in Hk; [|exact Hc1|done|done]. apply ranked in Hk as [? ?]. split_and!; [lia|done|].
    intros z [->|Hz]%elem_of_cons; [done|]. specialize (Hrz z Hz). lia. }
  rewrite E3. cbn [mbind option_bind]. eexists _, l3. split; [done|]. destruct Hg3 as (Hl3 & Hc3 & HZ3).
  assert (c ∉ l3) by (intros (_ & _ & ?)%(ct_dom _ _ _ _ _ Hc3); set_solver).
  assert (Hd3 : diskdb db3 = diskdb db) by (rewrite D3, (rl_disk _ _ Hrl); done).
  split; [|split; [by destruct (c_children e1)|]]; cycle 1.
  { intros h e' Hh Hhz HhZ E0. assert (Hdel : base.delete c (dirties db3) !! h = Some e') by (by destruct (c_children e1)).
    apply lookup_delete_Some in Hdel as [Hne Hh3]. destruct (G3 h e' Hh3 Hhz) as (e2 & He2 & E02); [set_solver|done|].
    destruct (no_garbage_relinked Zs _ _ Hrl h e2 He2 Hhz HhZ E02) as (e0 & He0 & E00). subst db1. cbn in He0. rewrite lookup_insert_ne in He0 by done. eauto. }
  split_and!.
  - destruct (c_children e1); by apply links_delete.
  - replace (cores _) with (base.delete c (cores db3)) by (destruct (c_children e1); unfold cores; db_cbn; by rewrite fmap_delete).
    replace (diskdb _) with (diskdb db3) by (by destruct (c_children e1)). by apply counts_bury.
  - intros z Hz. replace (dirties _) with (base.delete c (dirties db3)) by (by destruct (c_children e1)).
    rewrite lookup_delete_ne by set_solver. apply HZ3. set_solver.
Qed.

Lemma derefs_all fuel : derefs fuel.
Proof.
  induction fuel as [|fuel IH]; intros c parent Zs S l db Hg HS Hr Hrz Hcz HZ; [lia|]. cbn [dereference].
  destruct (proj2 (proj2 Hg) parent HZ) as [p Hp]. rewrite Hp. cbn [mbind option_bind].
  destruct (drop_child_retired Zs (pending [c] S) l db c parent p Hg HZ Hp) as [Hg1 D1].
  destruct (release_ok fuel c Zs S l _ IH Hg1) as (db' & l' & E & Hg' & D & G); [done|lia|done|done|].
  exists db', l'. split_and!; [done|done|congruence|]. eapply no_garbage_trans, G. by apply no_garbage_drop.
Qed.

(** An entry gets another count for one external child: the meta root for one
    of its roots, or another node for a child it did not hold. *)
Lemma counts_children Zs S S' l C disk p e m' c :
  counts Zs S l C disk → C !! p = Some e → p ∉ Zs →
  (∀ c', c' ≠ c → m' !! c' = default ∅ (c_children e) !! c') →
  (p = zero → ∀ k, m' !! c = Some k → 1 ≤ k ∧ (on_disk disk c ∨ c ∈ l)) →
  (p ≠ zero → m' !! c = Some 1 ∧ c ∈ ext p) →
  (∀ h, S' h = S h + if bool_decide (h = c) then ext_count e c - default 0 (m' !! c) else 0) →
  counts Zs S' l (<[p := set_children (Some m') e]> C) disk.
Proof.
  intros Hc He HZ Hne Hk0 Hk1 HS. pose proof Hc as [].
  assert (Hx : ∀ h, holds (set_children (Some m') e) h - holds e h = S h - S' h).
  { intros h. rewrite HS. unfold holds, ext_count. cbn. case_bool_decide as E; [subst; lia|rewrite (Hne h) by done; lia]. }
  assert (Hsame : ∀ c', c' ≠ c → ext_count (set_children (Some m') e) c' = ext_count e c').
  { intros c' E. unfold ext_count. cbn. by rewrite Hne. }
  split; try done.
  - intros h. rewrite ct_dom0. destruct (decide (h = p)) as [->|]; [rewrite lookup_insert_eq, He|by rewrite lookup_insert_ne].
    split; intros [_ ?]; (split; [eauto|done]).
  - destruct ct_meta0 as (e' & m0 & E & En & Em & Hk'). destruct (decide (p = zero)) as [->|Hz]; cycle 1.
    { exists e', m0. by rewrite lookup_insert_ne. }
    rewrite He in E. injection E as <-. exists (set_children (Some m') e), m'. rewrite lookup_insert_eq. split_and!; [done|done|done|].
    intros c' k Hc'. destruct (decide (c' = c)) as [->|E']; [by apply Hk0|]. rewrite Hne, Em in Hc' by done. by eapply Hk'.
  - intros h e' [[<- <-]|[_ ?]]%lookup_insert_Some Hz; [exact (ct_node0 p e He Hz)|by apply ct_node0].
  - intros h e' m0 c' k [[<- <-]|[_ ?]]%lookup_insert_Some Hz; [|by apply ct_ext0]. intros [= <-] Hc'.
    destruct (decide (c' = c)) as [->|E']; [destruct (Hk1 Hz) as [E ?]; by simplify_eq|]. rewrite Hne in Hc' by done.
    destruct (c_children e) as [m1|] eqn:Em; cbn in Hc'; [by eapply ct_ext0|by rewrite lookup_empty in Hc'].
  - intros h e' [[<- <-]|[_ ?]]%lookup_insert_Some; [by apply (ct_parents0 p e)|by eapply ct_parents0].
  - intros h e' He' Hh Hd. assert (∃ e0, C !! h = Some e0 ∧ c_parents e' = c_parents e0) as (e0 & E0 & ->).
    { apply lookup_insert_Some in He' as [[<- <-]|[_ ?]]; eauto. }
    rewrite (ct_count0 h e0 E0 Hh Hd). unfold refs. rewrite (msum_update _ _ _ _ _ He), !bool_decide_false by done. specialize (Hx h). lia.
  - intros h e' c' [[<- <-]|[_ He']]%lookup_insert_Some Hh Hc'; [|by apply (ct_held0 h)]. pose proof (proj1 (ct_dom0 p) Hh) as (_ & Hz & _).
    destruct (decide (c' = c)) as [->|E']; [right; unfold ext_count; cbn; by rewrite (proj1 (Hk1 Hz))|]. rewrite Hsame by done. by apply (ct_held0 p).
  - intros e' c' [[-> <-]|[_ He']]%lookup_insert_Some; [|by apply ct_roots0]. destruct (decide (c' = c)) as [->|E']; [|rewrite Hsame by done; by apply ct_roots0].
    unfold ext_count. cbn. destruct (m' !! c) as [k|] eqn:E; [|done]. intros _. by apply (Hk0 eq_refl k).
Qed.

(** Pending references on nodes that are on disk do not matter. *)
Lemma counts_pending_disk Zs S S' l C disk :
  (∀ h, h ∈ l → ¬ on_disk disk h → S h = S' h) → counts Zs S l C disk → counts Zs S' l C disk.
Proof. intros HS []. split; try done. intros h e ? ? ?. rewrite <-HS by done. by apply ct_count0. Qed.

(** ** Operations *)

Definition root_count (db : Database) (root : bytes) : Z :=
  match dirties db !! zero with Some e => ext_count e root | None => 0 end.

Definition db_inv (db : Database) : Prop := ∃ l, gc_inv [] (λ _, 0) l db.

Lemma drop_root l db e root :
  gc_inv [] (λ _, 0) l db → dirties db !! zero = Some e →
  (root_count db root ≠ 0 ∨ on_disk (diskdb db) root ∨ dirties db !! root = None) →
  gc_inv [] (pending [root] (λ _, 0)) l (drop_child root zero e db) ∧ diskdb (drop_child root zero e db) = diskdb db.
Proof.
  intros (Hl & Hc & _) He Hr. pose proof (ct_meta _ _ _ _ _ Hc) as (e' & m & He' & _ & Hm & Hk).
  rewrite (cores_lookup _ _ _ He) in He'. injection He' as <-. change (c_children e = Some m) in Hm.
  unfold root_count in Hr. rewrite He in Hr. unfold ext_count in Hr. rewrite Hm in Hr. cbn in Hr. unfold drop_child. rewrite Hm.
  destruct (m !! root) as [k|] eqn:Hroot.
  - specialize (Hk _ _ Hroot). rewrite (proj2 (Z.ltb_lt 0 k)) by lia.
    set (m' := if k - 1 =? 0 then base.delete root m else <[root := k - 1]> m).
    assert (Hc' : counts [] (pending [root] (λ _, 0)) l (<[zero := core (set_children (Some m') e)]> (cores db)) (diskdb db)).
    { eapply (counts_children _ _ _ _ _ _ zero (core e) m' root); [done|by apply cores_lookup|set_solver| | |done|].
      - intros c Hne. cbn. rewrite Hm. cbn. subst m'. case_match; [by rewrite lookup_delete_ne|by rewrite lookup_insert_ne].
      - intros _ k' Hk'. split; [subst m'; destruct (Z.eqb_spec (k - 1) 0); [by rewrite lookup_delete_eq in Hk'|rewrite lookup_insert_eq in Hk'; simplify_eq; lia]|].
        apply (ct_roots _ _ _ _ _ Hc (core e)); [by apply cores_lookup|]. unfold ext_count. cbn. rewrite Hm. cbn. rewrite Hroot. cbn. lia.
      - intros h. unfold pending. rewrite occ_cons, occ_nil. replace (ext_count (core e) root) with k by (unfold ext_count; cbn; rewrite Hm; cbn; by rewrite Hroot). rewrite (bool_decide_ext (h = root) (root = h)) by done.
        case_bool_decide; [|lia]. subst m'. destruct (Z.eqb_spec (k - 1) 0); [rewrite lookup_delete_eq|rewrite lookup_insert_eq]; cbn; lia. }
    assert (Hl' : links (<[zero := set_children (Some m') e]> (dirties db)) l (oldest db) (newest db)) by (by eapply links_set).
    subst m'. destruct (k - 1 =? 0); (split; [|done]); (split_and!; [done| |set_solver]);
      unfold cores; db_cbn; by rewrite fmap_insert.
  - split; [|done]. split_and!; [done| |set_solver]. eapply counts_pending_disk, Hc. intros h Hh Hd. unfold pending. rewrite occ_cons, bool_decide_false; [done|].
    intros <-. destruct Hr as [|[|Hn]]; [done|done|]. apply (ct_dom _ _ _ _ _ Hc) in Hh as ([x Hx] & _). unfold cores in Hx. by rewrite lookup_fmap, Hn in Hx.
Qed.

Lemma Dereference_ok fuel root db :
  db_inv db → (root ≠ zero → root_count db root ≠ 0 ∨ on_disk (diskdb db) root ∨ dirties db !! root = None) → (rank root < fuel)%nat →
  ∃ db', Dereference fuel root db = Some db' ∧ db_inv db' ∧ diskdb db' = diskdb db ∧ no_garbage [] db db'.
Proof.
  intros (l & Hg) Hr Hf. unfold Dereference. case_bool_decide as Hz; [exists db; split_and!; [done|by exists l|done|apply no_garbage_refl]|].
  destruct fuel as [|fuel]; [lia|]. cbn [dereference]. destruct (ln_meta _ _ _ _ (proj1 Hg)) as [e He]. rewrite He. cbn [mbind option_bind].
  destruct (drop_root l db e root Hg He (Hr Hz)) as [Hg1 D1].
  destruct (release_ok fuel root [] (λ _, 0) l _ (derefs_all fuel) Hg1) as (db' & l' & E & Hg' & D & G); [done|lia|set_solver|done|].
  exists db'. split_and!; [done|by exists l'|congruence|]. eapply no_garbage_trans, G. by apply no_garbage_drop.
Qed.

(** *** Insertion *)

Lemma refs_unknown S l C disk h : counts [] S l C disk → h ∉ l → ¬ on_disk disk h → refs C [] h = 0.
Proof.
  intros Hc Hl Hd. apply msum_zero. intros p e He. rewrite bool_decide_false by set_solver.
  pose proof (occ_nonneg h (forGatherChildren (c_node e))) as H1. pose proof (ext_count_cases _ _ _ _ _ _ _ h Hc He) as H2.
  destruct (decide (holds e h = 0)) as [|Hn]; [done|exfalso]. unfold holds in Hn.
  destruct (decide (p = zero)) as [->|Hz].
  - destruct (ct_meta _ _ _ _ _ Hc) as (e' & m & He' & En & _). rewrite He in He'. injection He' as <-. rewrite En in Hn. cbn [forGatherChildren] in Hn. rewrite occ_nil in Hn.
    destruct (ct_roots _ _ _ _ _ Hc e h) as [?|?]; [done|lia|done..].
  - assert (Hp : p ∈ l) by (apply (ct_dom _ _ _ _ _ Hc); set_solver).
    assert (Hk : h ∈ kids p).
    { unfold kids. apply elem_of_app. rewrite <-(ct_node _ _ _ _ _ Hc p e He Hz). destruct (decide (ext_count e h = 0)) as [E0|E0].
      - left. destruct (decide (h ∈ forGatherChildren (c_node e))); [done|]. rewrite occ_absent in Hn by done. lia.
      - right. unfold ext_count in E0. destruct (c_children e) as [m|] eqn:Hm; cbn in E0; [|by rewrite lookup_empty in E0].
        destruct (m !! h) as [k|] eqn:Ek; [|done]. by eapply ct_ext. }
    destruct (ct_order _ _ _ _ _ Hc p h Hp Hk) as [?|(l1 & l2 & -> & ?)]; [done|]. set_solver.
Qed.

Lemma before_snoc l x c h : before l c h → before (l ++ [x]) c h.
Proof. intros (l1 & l2 & -> & ?). exists l1, (l2 ++ [x]). by rewrite <-app_assoc. Qed.

(** A new node with all its references. *)
Lemma counts_add l C C' disk h e' :
  counts [] (λ _, 0) l C disk → C !! h = None → h ≠ zero →
  C' !! h = Some e' → c_node e' = node_at h → c_parents e' = 0 →
  (∀ m c k, c_children e' = Some m → m !! c = Some k → k = 1 ∧ c ∈ ext h) →
  (∀ c, c ∈ ext h → is_Some (C !! c) → ext_count e' c = 1) →
  (∀ k, k ≠ h → C' !! k = (λ e, set_parents (c_parents e + holds e' k) e) <$> C !! k) →
  (∀ c, c ∈ kids h → on_disk disk c ∨ c ∈ l) →
  counts [] (λ _, 0) (l ++ [h]) C' disk.
Proof.
  intros Hc Hn Hz He' En Ep Ex Eh Ek Hk. pose proof Hc as [].
  assert (Hold : ∀ k e1, C' !! k = Some e1 → k ≠ h → ∃ e, C !! k = Some e ∧ e1 = set_parents (c_parents e + holds e' k) e).
  { intros k e1 E1 Hne. rewrite Ek in E1 by done. apply fmap_Some in E1 as (e & ? & ->). eauto. }
  assert (Hhl : h ∉ l) by (rewrite ct_dom0, Hn; by intros [[? ?] _]).
  assert (Hx : ∀ c, ext_count e' c ≠ 0 → ext_count e' c = 1 ∧ c ∈ ext h).
  { intros c. unfold ext_count. destruct (c_children e') as [m|] eqn:Em; cbn; [|by rewrite lookup_empty].
    destruct (m !! c) as [k|] eqn:Ec; cbn; [|done]. intros _. by eapply Ex. }
  assert (Hpos : ∀ c, 0 ≤ holds e' c).
  { intros c. unfold holds. pose proof (occ_nonneg c (forGatherChildren (c_node e'))).
    destruct (decide (ext_count e' c = 0)) as [->|Hne]; [lia|]. destruct (Hx c Hne) as [-> _]. lia. }
  assert (Hself : holds e' h = 0).
  { unfold holds. rewrite En. rewrite occ_absent; [|intros Hin; destruct (ranked h h); [set_solver|lia]].
    destruct (decide (ext_count e' h = 0)) as [->|Hne]; [done|]. destruct (Hx h Hne) as [_ Hin]. destruct (ranked h h); [set_solver|lia]. }
  assert (Hrefs : ∀ c, refs C' [] c = refs C [] c + holds e' c).
  { intros c. unfold refs. rewrite (msum_delete _ C' h e' He'), bool_decide_false by set_solver.
    rewrite (msum_match _ (base.delete h C') C); [lia|]. intros k. destruct (decide (k = h)) as [->|Hne].
    - rewrite lookup_delete_eq, Hn. constructor.
    - rewrite lookup_delete_ne, Ek by done. destruct (C !! k); cbn; constructor. done. }
  split; try done.
  - intros k. rewrite elem_of_app, list_elem_of_singleton, ct_dom0. destruct (decide (k = h)) as [->|Hne].
    + rewrite He'. set_solver.
    + rewrite Ek by done. rewrite fmap_is_Some. set_solver.
  - destruct ct_meta0 as (e & m & E & ?). eexists _, m. rewrite Ek, E by done. cbn. done.
  - intros k e1 E1 Hkz. destruct (decide (k = h)) as [->|Hne]; [by simplify_eq|]. destruct (Hold k e1 E1 Hne) as (e & E & ->). exact (ct_node0 k e E Hkz).
  - intros k e1 m c x E1 Hkz. destruct (decide (k = h)) as [->|Hne]; [simplify_eq; exact (Ex m c x)|]. destruct (Hold k e1 E1 Hne) as (e & E & ->). exact (ct_ext0 k e m c x E Hkz).
  - intros k e1 E1. destruct (decide (k = h)) as [->|Hne]; [simplify_eq; lia|]. destruct (Hold k e1 E1 Hne) as (e & E & ->).
    cbn. specialize (ct_parents0 k e E). specialize (Hpos k). lia.
  - intros k e1 E1 Hkl Hd. rewrite Hrefs. destruct (decide (k = h)) as [->|Hne].
    + simplify_eq. rewrite (refs_unknown _ _ _ _ _ Hc Hhl Hd), Hself. lia.
    + destruct (Hold k e1 E1 Hne) as (e & E & ->). cbn. rewrite (ct_count0 k e E) by set_solver. lia.
  - intros k c Hkl Hc'. apply elem_of_app in Hkl as [Hkl|Hkl]; [|apply list_elem_of_singleton in Hkl as ->].
    + destruct (ct_order0 k c Hkl Hc'); [by left|right]. by apply before_snoc.
    + destruct (Hk c Hc'); [by left|right]. by exists l, [].
  - intros k e1 c E1 Hkl Hc'. apply elem_of_app in Hkl as [Hkl|Hkl]; [|apply list_elem_of_singleton in Hkl as ->].
    + assert (Hne : k ≠ h) by (by intros ->). destruct (Hold k e1 E1 Hne) as (e & E & ->). exact (ct_held0 k e c E Hkl Hc').
    + simplify_eq. destruct (Hk c) as [|Hcl]; [set_solver|by left|]. right. apply Eh; [done|]. by apply ct_dom0.
  - intros e1 c E1 Hc'. destruct (Hold zero e1 E1) as (e & E & ->); [done|]. destruct (ct_roots0 e c E Hc'); [by left|right; set_solver].
Qed.

(** [c.parents++] for all the children of a new node. *)
Lemma bump_ok ks db :
  (∀ k e, dirties db !! k = Some e → 0 ≤ c_parents e ∧ c_parents e + len ks < 2 ^ 32) →
  ∃ d, foldl (try_entry (λ c, set_parents ((c_parents c + 1) mod 2 ^ 32) c)) db ks = set_dirties d db
    ∧ ∀ k, d !! k = (λ e, set_parents (c_parents e + occ k ks) e) <$> dirties db !! k.
Proof.
  revert db. induction ks as [|x ks IH]; intros db Hb; cbn [foldl].
  - exists (dirties db). split; [by destruct db|]. intros k. destruct (dirties db !! k) as [e|]; cbn; [|done]. rewrite occ_nil, Z.add_0_r. by destruct e.
  - rewrite length_cons, Nat2Z.inj_succ in Hb. destruct (IH (try_entry (λ c, set_parents ((c_parents c + 1) mod 2 ^ 32) c) db x)) as (d & E & Hd).
    { intros k e. unfold try_entry. db_cbn. rewrite lookup_alter_Some. intros [(-> & e0 & E0 & ->)|[_ E0]]; specialize (Hb _ _ E0); cbn;
        [rewrite Z.mod_small by lia|]; lia. }
    exists d. split; [exact E|]. intros k. rewrite Hd. unfold try_entry. db_cbn. destruct (decide (x = k)) as [->|Hne].
    + rewrite lookup_alter_eq. destruct (dirties db !! k) as [e|] eqn:Ek; cbn; [|done]. specialize (Hb _ _ Ek). f_equal.
      rewrite occ_cons, bool_decide_true, Z.mod_small by (done || lia). unfold set_parents. cbn. f_equal. lia.
    + rewrite lookup_alter_ne by done. by rewrite occ_cons, bool_decide_false by done.
Qed.

Lemma links_snoc d l old new h e :
  links d l old new → l ≠ [] → d !! h = None → h ≠ zero → d !! new = Some e →
  ∀ entry, flushPrev entry = new → flushNext entry = zero →
  links (<[new := set_flushNext h e]> (<[h := entry]> d)) (l ++ [h]) old h.
Proof.
  intros [H1 H2 H3 H4 H5 H6] Hl Hh Hz He entry Ep En. specialize (H6 Hl).
  destruct l as [|x l _] using rev_ind; [done|]. rewrite last_snoc in H6. injection H6 as ->.
  apply NoDup_app in H1 as Hnd. destruct Hnd as (Hnd & Hdis & _).
  assert (Hne : new ≠ h) by congruence.
  assert (Hhl : h ∉ l ++ [new]).
  { intros Hin%list_elem_of_split. destruct Hin as (l1 & l2 & E). rewrite E in H4. apply dseg_app in H4 as [_ [(e' & E' & _) _]]. congruence. }
  split.
  - apply NoDup_app. split_and!; [done|set_solver|apply NoDup_singleton].
  - set_solver.
  - apply lookup_set_some, lookup_set_some, H3.
  - apply dseg_app. cbn [hd]. split.
    + eapply (dseg_set_next _ _ _ _ zero); [by rewrite lookup_insert_ne|set_solver|]. eapply dseg_frame, H4.
      intros k Hk. by rewrite lookup_insert_ne by (by intros <-).
    + split; [|done]. exists entry. rewrite lookup_insert_ne, lookup_insert_eq by done. split_and!; [done|done|].
      unfold last_or. rewrite last_snoc. by intros ? [= <-].
  - rewrite H5. by destruct l.
  - intros _. by rewrite last_snoc.
Qed.

Lemma insert_ok l db h size n :
  db_links db l → dirties db !! h = None → h ≠ zero → unknown_node n = false →
  (∀ k e, dirties db !! k = Some e → 0 ≤ c_parents e ∧ c_parents e + len (forGatherChildren (simplifyNode n)) < 2 ^ 32) →
  ∃ db' e', insert h size n db = Some db' ∧ db_links db' (l ++ [h]) ∧ diskdb db' = diskdb db
    ∧ cores db' !! h = Some e' ∧ c_node e' = simplifyNode n ∧ c_parents e' = 0 ∧ c_children e' = None
    ∧ ∀ k, k ≠ h → cores db' !! k = (λ e, set_parents (c_parents e + occ k (forGatherChildren (simplifyNode n))) e) <$> cores db !! k.
Proof.
  intros Hl Hh Hz Hu Hb. unfold insert. rewrite Hh, Hu. db_cbn. destruct (bump_ok _ db Hb) as (d & -> & Hd). db_cbn.
  set (entry := MkCached (simplifyNode n) (size mod 2 ^ 16) 0 None (newest db) zero).
  assert (Hl' : links d l (oldest db) (newest db)).
  { destruct Hl as [H1 H2 [m H3] H4 H5 H6]. split; try done; [rewrite Hd, H3; eauto|]. eapply dseg_frame, H4.
    intros k _. rewrite Hd. by destruct (dirties db !! k). }
  assert (Hdh : d !! h = None) by (by rewrite Hd, Hh).
  assert (Hcore : ∀ k, k ≠ h → core <$> <[h := entry]> d !! k
      = (λ e, set_parents (c_parents e + occ k (forGatherChildren (simplifyNode n))) e) <$> cores db !! k).
  { intros k Hne. rewrite lookup_insert_ne, Hd by done. unfold cores. rewrite lookup_fmap. by destruct (dirties db !! k). }
  case_bool_decide as Ho.
  - assert (l = []) as ->. { rewrite (ln_oldest _ _ _ _ Hl) in Ho. destruct l as [|x l]; [done|]. cbn in Ho. subst x. pose proof (ln_zero _ _ _ _ Hl). set_solver. }
    eexists _, (core entry). split; [done|]. unfold cores at 1 2. db_cbn. split_and!; try done.
    + split; cbn; [apply NoDup_singleton|set_solver|apply lookup_set_some, (ln_meta _ _ _ _ Hl')| |done|done].
      split; [|done]. exists entry. rewrite lookup_insert_eq. done.
    + by rewrite lookup_fmap, lookup_insert_eq.
    + intros k Hk. rewrite lookup_fmap. by apply Hcore.
  - assert (l ≠ []) as Hne. { intros ->. by rewrite (ln_oldest _ _ _ _ Hl) in Ho. }
    assert (is_Some (d !! newest db)) as [e He].
    { pose proof (ln_newest _ _ _ _ Hl' Hne) as (l0 & ->)%last_Some. pose proof (ln_seg _ _ _ _ Hl') as [_ [(e & ? & _) _]]%dseg_app. eauto. }
    assert (newest db ≠ h) by congruence.
    rewrite (alter_entry_some _ _ _ e) by (db_cbn; by rewrite lookup_insert_ne). db_cbn. cbn [fmap option_fmap option_map mbind option_bind].
    eexists _, (core entry). split; [done|]. unfold cores at 1 2. db_cbn. split_and!; try done.
    + by apply links_snoc.
    + by rewrite lookup_fmap, lookup_insert_ne, lookup_insert_eq.
    + intros k Hk. rewrite cores_relink with (e := e); [|by rewrite lookup_insert_ne|done]. rewrite lookup_fmap. by apply Hcore.
Qed.

(** *** References *)

(** The entry of the parent after a reference to the child. *)
Definition with_child (c : bytes) (p : cachedNode) : cachedNode :=
  set_children (Some (<[c := ext_count p c + 1]> (default ∅ (c_children p)))) p.

Lemma reference_shape l db child parent ec p :
  db_links db l → dirties db !! child = Some ec → dirties db !! parent = Some p → child ≠ parent →
  0 ≤ c_parents ec → c_parents ec + 1 < 2 ^ 32 → 0 ≤ ext_count p child → ext_count p child + 1 < 2 ^ 16 →
  (parent ≠ zero ∧ is_Some (default ∅ (c_children p) !! child) ∧ reference child parent db = Some db)
  ∨ ((parent ≠ zero → default ∅ (c_children p) !! child = None) ∧
    ∃ db', reference child parent db = Some db' ∧ db_links db' l ∧ diskdb db' = diskdb db
      ∧ cores db' = <[parent := with_child child (core p)]> (<[child := set_parents (c_parents ec + 1) (core ec)]> (cores db))).
Proof.
  intros Hl Hc Hp Hne Hb0 Hb1 Hk0 Hk1. unfold reference. rewrite Hc, Hp. cbn [mbind option_bind].
  set (m := default ∅ (c_children p)).
  assert (Hadd : ∀ db0 : Database, dirties db0 = dirties db → oldest db0 = oldest db → newest db0 = newest db → diskdb db0 = diskdb db →
    ∃ db', (db1 ← alter_entry child (λ e, set_parents ((c_parents e + 1) mod 2 ^ 32) e) db0;
            let k := (default 0 (m !! child) + 1) mod 2 ^ 16 in
            db1 ← alter_entry parent (set_children (Some (<[child := k]> m))) db1;
            Some (if k =? 1 then set_childrenSize (childrenSize db1 + (HashLength + 2)) db1 else db1)) = Some db'
      ∧ db_links db' l ∧ diskdb db' = diskdb db
      ∧ cores db' = <[parent := with_child child (core p)]> (<[child := set_parents (c_parents ec + 1) (core ec)]> (cores db))).
  { intros db0 E0 Eo En Ed. rewrite (alter_entry_some _ _ db0 ec) by congruence. cbn [mbind option_bind]. rewrite (Z.mod_small (c_parents ec + 1)) by lia.
    change (default 0 (m !! child)) with (ext_count p child). rewrite (Z.mod_small (ext_count p child + 1)) by lia.
    rewrite (alter_entry_some _ _ _ p) by (db_cbn; rewrite lookup_insert_ne by done; congruence). cbn [mbind option_bind]. eexists. split; [done|].
    split_and!; [| by case_match |].
    - assert (links (<[parent := set_children (Some (<[child := ext_count p child + 1]> m)) p]> (<[child := set_parents (c_parents ec + 1) ec]> (dirties db))) l (oldest db) (newest db)).
      { eapply links_set; [|by rewrite lookup_insert_ne|done|done]. by eapply links_set. }
      case_match; db_cbn; by rewrite E0, Eo, En.
    - unfold cores. case_match; db_cbn; by rewrite E0, !fmap_insert. }
  destruct (c_children p) as [m0|] eqn:Hm; cbn in m; subst m.
  - case_bool_decide as Hin; [case_bool_decide as Hz|]; cbn [andb negb].
    + right. split; [by intros ?|]. by apply Hadd.
    + left. done.
    + right. split; [intros _; by apply eq_None_not_Some|]. by apply Hadd.
  - right. split; [intros _; apply lookup_empty|]. by apply Hadd.
Qed.

Lemma counts_reference l C disk child parent ec p :
  counts [] (λ _, 0) l C disk → C !! child = Some ec → C !! parent = Some p → child ≠ parent → child ≠ zero →
  (parent ≠ zero → child ∈ ext parent ∧ default ∅ (c_children p) !! child = None) →
  counts [] (λ _, 0) l (<[parent := with_child child p]> (<[child := set_parents (c_parents ec + 1) ec]> C)) disk.
Proof.
  intros Hc Hec Hp Hne Hz Hx. pose proof (ct_parents _ _ _ _ _ Hc _ _ Hec). pose proof (ext_count_cases _ _ _ _ _ _ _ child Hc Hp).
  assert (Hin : child ∈ l) by (apply (ct_dom _ _ _ _ _ Hc); set_solver).
  eapply (counts_children _ (λ h, if bool_decide (h = child) then 1 else 0)).
  - eapply counts_set_parents; [done|done|lia| |].
    + intros h e _ _ E _. by rewrite bool_decide_false by done.
    + intros _ Hd. rewrite bool_decide_true, (ct_count _ _ _ _ _ Hc child ec) by done. lia.
  - by rewrite lookup_insert_ne.
  - set_solver.
  - intros c' E. by rewrite lookup_insert_ne.
  - intros _ k. rewrite lookup_insert_eq. intros [= <-]. split; [lia|by right].
  - intros Hpz. destruct (Hx Hpz) as [? E]. rewrite lookup_insert_eq. unfold ext_count. rewrite E. done.
  - intros h. rewrite lookup_insert_eq. cbn. case_bool_decide; lia.
Qed.

(** The same nodes in memory, with at most [d] more parents each. *)
Definition same_nodes (d : Z) (db db' : Database) : Prop :=
  ∀ k, option_Forall2 (λ e e', c_parents e' ≤ c_parents e + d) (dirties db !! k) (dirties db' !! k).

Lemma same_nodes_refl d db : 0 ≤ d → same_nodes d db db.
Proof. intros Hd k. destruct (dirties db !! k); constructor. lia. Qed.
Lemma same_nodes_cores d db db' :
  (∀ k, option_Forall2 (λ e e', c_parents e' ≤ c_parents e + d) (cores db !! k) (cores db' !! k)) → same_nodes d db db'.
Proof.
  intros H1 k. specialize (H1 k). unfold cores in H1. rewrite !lookup_fmap in H1.
  destruct (dirties db !! k), (dirties db' !! k); cbn in H1; inversion H1; subst; by constructor.
Qed.
Lemma same_nodes_some d db db' k : same_nodes d db db' → is_Some (dirties db !! k) ↔ is_Some (dirties db' !! k).
Proof. intros H1. destruct (H1 k); [|done]. split; eauto. Qed.
Lemma same_nodes_trans d d' db db' db'' : same_nodes d db db' → same_nodes d' db' db'' → same_nodes (d + d') db db''.
Proof.
  intros H1 H2 k. specialize (H1 k). specialize (H2 k). destruct H1 as [e e' ?|]; inversion H2; subst; constructor. lia.
Qed.

Lemma reference_ok db child parent :
  db_inv db → child ≠ zero → child ≠ parent →
  (parent = zero → root_count db child + 1 < 2 ^ 16) →
  (parent ≠ zero → is_Some (dirties db !! parent) ∧ child ∈ ext parent) →
  (∀ e, dirties db !! child = Some e → c_parents e + 1 < 2 ^ 32) →
  ∃ db', reference child parent db = Some db' ∧ db_inv db' ∧ diskdb db' = diskdb db ∧ same_nodes 1 db db'.
Proof.
  intros (l & Hg) Hz Hne Hroot Hext Hb. pose proof Hg as (Hl & Hc & _). destruct (dirties db !! child) as [ec|] eqn:Hec; cycle 1.
  { exists db. split_and!; [|by exists l|done|by apply same_nodes_refl]. unfold reference. by rewrite Hec. }
  assert (is_Some (dirties db !! parent)) as [p Hp].
  { destruct (decide (parent = zero)) as [->|]; [apply (ln_meta _ _ _ _ Hl)|by apply Hext]. }
  pose proof (ct_parents _ _ _ _ _ Hc child _ (cores_lookup _ _ _ Hec)) as Hp0.
  pose proof (ext_count_cases _ _ _ _ _ parent _ child Hc (cores_lookup _ _ _ Hp)) as Hx0.
  assert (Hx1 : ext_count p child + 1 < 2 ^ 16).
  { destruct (decide (parent = zero)) as [->|Hpz]; [specialize (Hroot eq_refl); unfold root_count in Hroot; by rewrite Hp in Hroot|].
    unfold ext_count. destruct (c_children p) as [m|] eqn:Em; cbn; [|rewrite lookup_empty; cbn; lia]. destruct (m !! child) as [k|] eqn:Ek; cbn; [|lia].
    destruct (ct_ext _ _ _ _ _ Hc parent (core p) m child k) as [-> _]; [by apply cores_lookup|done..|lia]. }
  destruct (reference_shape l db child parent ec p Hl Hec Hp Hne Hp0 (Hb ec eq_refl) Hx0 Hx1) as [(_ & _ & E)|(Hnew & db' & E & Hl' & D & Ec)].
  { exists db. split_and!; [done|by exists l|done|by apply same_nodes_refl]. }
  exists db'. split_and!; [done| |done|]; cycle 1.
  { apply same_nodes_cores. rewrite Ec. intros k. destruct (decide (k = parent)) as [->|].
    - rewrite lookup_insert_eq, (cores_lookup _ _ _ Hp). constructor. cbn. lia.
    - rewrite lookup_insert_ne by done. destruct (decide (k = child)) as [->|].
      + rewrite lookup_insert_eq, (cores_lookup _ _ _ Hec). constructor. cbn. lia.
      + rewrite lookup_insert_ne by done. destruct (cores db !! k); constructor. lia. }
  exists l. split_and!; [done| |set_solver]. rewrite Ec, D.
  apply (counts_reference l (cores db) _ child parent (core ec) (core p)); [done|by apply cores_lookup|by apply cores_lookup|done|done|].
  intros Hpz. split; [by apply Hext|by apply Hnew].
Qed.

(** *** A node with its references *)

Lemma ext_count_is e c :
  (∀ m c k, c_children e = Some m → m !! c = Some k → k = 1) → ext_count e c = if bool_decide (is_Some (default ∅ (c_children e) !! c)) then 1 else 0.
Proof.
  intros H1. unfold ext_count. destruct (default ∅ (c_children e) !! c) as [k|] eqn:E; [rewrite bool_decide_true by eauto|by rewrite bool_decide_false by (by intros [? ?])].
  destruct (c_children e) as [m|]; [|cbn in E; by rewrite lookup_empty in E]. cbn in *. by eapply H1.
Qed.

(** What the references of a fresh node [h] do: [e] is its entry before, [e'] after. *)
Record referred (ws : list bytes) (h : bytes) (e : cachedNode) (C C' : gmap bytes cachedNode) (e' : cachedNode) : Prop := {
  rf_entry : C' !! h = Some e';
  rf_node : c_node e' = c_node e;
  rf_parents : c_parents e' = c_parents e;
  rf_child m c k : c_children e' = Some m → m !! c = Some k → k = 1 ∧ (c ∈ ws ∨ ext_count e c = 1);
  rf_new c : c ∈ ws → is_Some (C !! c) → ext_count e' c = 1;
  rf_old c : ext_count e c = 1 → ext_count e' c = 1;
  rf_others k : k ≠ h → C' !! k = (λ e0, set_parents (c_parents e0 + (ext_count e' k - ext_count e k)) e0) <$> C !! k
}.

Lemma with_child_one c e :
  (∀ m c k, c_children e = Some m → m !! c = Some k → k = 1) → default ∅ (c_children e) !! c = None →
  ∀ m c' k, c_children (with_child c e) = Some m → m !! c' = Some k → k = 1.
Proof.
  intros H1 Hn m c' k [= <-]. rewrite lookup_insert_Some. unfold ext_count. rewrite Hn. intros [[_ <-]|[_ E]]; [done|].
  destruct (c_children e) as [m0|] eqn:Em; cbn in E; [by eapply H1|by rewrite lookup_empty in E].
Qed.

Lemma referred_step ws h e C C' e' c ec :
  c ≠ h → C !! c = Some ec → C !! h = Some e → default ∅ (c_children e) !! c = None →
  referred ws h (with_child c e) (<[h := with_child c e]> (<[c := set_parents (c_parents ec + 1) ec]> C)) C' e' →
  referred (c :: ws) h e C C' e'.
Proof.
  intros Hne Hc Hh Hn [H1 H2 H3 H4 H5 H6 H7].
  assert (Hx : ∀ k, ext_count (with_child c e) k = ext_count e k + if bool_decide (k = c) then 1 else 0).
  { intros k. unfold ext_count at 1, with_child. cbn. case_bool_decide as E; [subst; by rewrite lookup_insert_eq|rewrite lookup_insert_ne by done; unfold ext_count; lia]. }
  assert (Hc0 : ext_count e c = 0) by (unfold ext_count; by rewrite Hn).
  split; [done|done|done| | | |].
  - intros m x k Em Ek. destruct (H4 m x k Em Ek) as [-> [?|E]]; (split; [done|]); [set_solver|]. rewrite Hx in E. case_bool_decide; [set_solver|right; lia].
  - intros x Hx' Hs. destruct (decide (x = c)) as [->|Hxc].
    + apply H6. rewrite Hx, bool_decide_true by done. lia.
    + apply H5; [set_solver|]. by apply lookup_set_some, lookup_set_some.
  - intros x E. apply H6. rewrite Hx, E. case_bool_decide; [subst; lia|lia].
  - intros k Hk. rewrite H7, lookup_insert_ne by done. rewrite Hx. case_bool_decide as E.
    + subst. rewrite lookup_insert_eq, Hc. cbn. unfold set_parents. cbn. do 2 f_equal. lia.
    + rewrite lookup_insert_ne by done. destruct (C !! k); cbn; [|done]. do 2 f_equal. lia.
Qed.

Lemma fresh_refs ws l db h e :
  db_links db l → cores db !! h = Some e → h ∉ ws → h ≠ zero →
  (∀ k ek, cores db !! k = Some ek → 0 ≤ c_parents ek ∧ c_parents ek + len ws < 2 ^ 32) →
  (∀ m c k, c_children e = Some m → m !! c = Some k → k = 1) →
  ∃ db' e', foldl (λ db root, db ← db; reference root h db) (Some db) ws = Some db'
    ∧ db_links db' l ∧ diskdb db' = diskdb db ∧ referred ws h e (cores db) (cores db') e'.
Proof.
  revert db e. induction ws as [|c ws IH]; intros db e Hl He Hws Hz Hb H1; cbn [foldl].
  { exists db, e. split_and!; [done|done|done|]. split; [done|done|done| |set_solver|done|].
    - intros m c k Em Ek. split; [by eapply H1|]. right. unfold ext_count. rewrite Em. cbn. rewrite Ek. cbn. by eapply H1.
    - intros k Hk. destruct (cores db !! k) as [e0|]; cbn; [|done]. rewrite Z.sub_diag, Z.add_0_r. by destruct e0. }
  rewrite length_cons, Nat2Z.inj_succ in Hb. cbn [mbind option_bind].
  assert (Hskip : reference c h db = Some db → (is_Some (cores db !! c) → ext_count e c = 1) → ∃ db' e',
    foldl (λ db root, db ← db; reference root h db) (reference c h db) ws = Some db'
    ∧ db_links db' l ∧ diskdb db' = diskdb db ∧ referred (c :: ws) h e (cores db) (cores db') e').
  { intros -> Hold. destruct (IH db e Hl He) as (db' & e' & E & Hl' & D & [? ? ? Hm Hnew Ho ?]); [set_solver|done| |done|].
    { intros k ek Ek. specialize (Hb k ek Ek). lia. }
    exists db', e'. split_and!; [done|done|done|]. split; try done.
    - intros m x k Em Ek. destruct (Hm m x k Em Ek) as [? [?|?]]; set_solver.
    - intros x [->|?]%elem_of_cons Hx; [by apply Ho, Hold|by apply Hnew]. }
  destruct (dirties db !! c) as [ec|] eqn:Hc; cycle 1.
  { apply Hskip; [unfold reference; by rewrite Hc|]. unfold cores. rewrite lookup_fmap, Hc. by intros [? ?]. }
  assert (∃ p, dirties db !! h = Some p ∧ e = core p) as (p & Hp & ->).
  { unfold cores in He. rewrite lookup_fmap in He. apply fmap_Some in He as (p & ? & ->). eauto. }
  pose proof (Hb c _ (cores_lookup _ _ _ Hc)) as [Hp0 Hp1]. pose proof (ext_count_is _ c H1) as Hx. change (ext_count (core p) c) with (ext_count p c) in Hx.
  change (c_children (core p)) with (c_children p) in Hx. change (c_parents (core ec)) with (c_parents ec) in Hp0, Hp1.
  destruct (reference_shape l db c h ec p Hl Hc Hp) as [(_ & Hin & E)|(Hnew & db1 & E & Hl1 & D1 & Ec)]; [set_solver|lia|lia|case_bool_decide; lia|case_bool_decide; lia|..].
  { apply Hskip; [done|]. intros _. change (ext_count p c = 1). rewrite Hx. by rewrite bool_decide_true. }
  specialize (Hnew Hz). assert (Hch : c ≠ h) by set_solver.
  destruct (IH db1 (with_child c (core p)) Hl1) as (db' & e' & E' & Hl' & D & Hr); [by rewrite Ec, lookup_insert_eq|set_solver|done| |by apply with_child_one|].
  { intros k ek. rewrite Ec. intros [[<- <-]|[_ [[<- <-]|[_ Ek]]%lookup_insert_Some]]%lookup_insert_Some.
    - specialize (Hb h _ He). cbn in *. lia.
    - cbn. lia.
    - specialize (Hb k ek Ek). lia. }
  exists db', e'. rewrite E, E'. split_and!; [done|done|congruence|]. rewrite Ec in Hr.
  eapply (referred_step _ _ _ _ _ _ _ (core ec)); [done|by apply cores_lookup|done|done|exact Hr].
Qed.

Definition available (db : Database) (h : bytes) : Prop := on_disk (diskdb db) h ∨ is_Some (dirties db !! h).

Lemma references_ok ws db h :
  db_inv db → is_Some (dirties db !! h) → h ≠ zero → (∀ c, c ∈ ws → c ∈ ext h) →
  (∀ k e, dirties db !! k = Some e → c_parents e + len ws < 2 ^ 32) →
  ∃ db', foldl (λ db root, db ← db; reference root h db) (Some db) ws = Some db'
    ∧ db_inv db' ∧ diskdb db' = diskdb db ∧ same_nodes (len ws) db db'.
Proof.
  revert db. induction ws as [|c ws IH]; intros db Hi Hh Hz Hws Hb; cbn [foldl].
  { exists db. split_and!; [done|done|done|by apply same_nodes_refl]. }
  rewrite length_cons, Nat2Z.inj_succ in Hb. destruct (ranked h c) as [Hr Hcz]; [specialize (Hws c); set_solver|].
  destruct (reference_ok db c h) as (db1 & E1 & Hi1 & D1 & S1); [done|done|intros ->; lia|done| |intros e He; specialize (Hb _ _ He); lia|].
  { intros _. split; [done|]. apply Hws. set_solver. }
  destruct (IH db1 Hi1) as (db' & E & Hi' & D & S'); [by apply (same_nodes_some _ _ _ _ S1)|done|set_solver| |].
  { intros k e He. specialize (S1 k). rewrite He in S1. inversion S1 as [e0 ? Hle E0 E0'|]; subst. symmetry in E0. specialize (Hb _ _ E0). lia. }
  exists db'. cbn. rewrite E1. split_and!; [done|done|congruence|]. replace (Z.of_nat (S (length ws))) with (1 + len ws) by lia.
  by eapply same_nodes_trans.
Qed.

Lemma commit_item_ok db h size n :
  db_inv db → h ≠ zero → unknown_node n = false → simplifyNode n = node_at h →
  (∀ c, c ∈ kids h → available db c) → (∀ k e, dirties db !! k = Some e → c_parents e + len (kids h) < 2 ^ 32) →
  ∃ db', commit_item h size n (ext h) db = Some db' ∧ db_inv db' ∧ diskdb db' = diskdb db ∧ is_Some (dirties db' !! h).
Proof.
  intros Hi Hz Hu Hn Hk Hb. assert (Hlen : len (kids h) = len (forGatherChildren (node_at h)) + len (ext h)) by (unfold kids; rewrite length_app; lia).
  unfold commit_item. destruct (dirties db !! h) as [e0|] eqn:Hh.
  { unfold insert. rewrite Hh. cbn [mbind option_bind]. destruct (references_ok (ext h) db h) as (db' & E & Hi' & D & HS); [done|eauto|done|done| |].
    - intros k e He. specialize (Hb k e He). lia.
    - exists db'. split_and!; [done|done|done|]. apply (same_nodes_some _ _ _ _ HS). eauto. }
  destruct Hi as (l & Hl & Hc & _).
  assert (Hp : ∀ k e, dirties db !! k = Some e → 0 ≤ c_parents e) by (intros k e He; exact (ct_parents _ _ _ _ _ Hc k _ (cores_lookup _ _ _ He))).
  destruct (insert_ok l db h size n) as (db1 & e1 & E1 & Hl1 & D1 & He1 & En1 & Ep1 & Ec1 & Ho1); [done..| |].
  { intros k e He. specialize (Hb k e He). specialize (Hp k e He). rewrite Hn. lia. }
  rewrite E1. cbn [mbind option_bind]. rewrite Hn in *.
  assert (Hcore : ∀ k e, cores db !! k = Some e → 0 ≤ c_parents e ∧ c_parents e + len (kids h) < 2 ^ 32).
  { intros k e He. unfold cores in He. rewrite lookup_fmap in He. apply fmap_Some in He as (e0 & He & ->). specialize (Hb k e0 He). specialize (Hp k e0 He). done. }
  destruct (fresh_refs (ext h) (l ++ [h]) db1 h e1) as (db' & e' & E' & Hl' & D' & [H1 H2 H3 H4 H5 H6 H7]); [done|done| |done| | |].
  { intros Hin. destruct (ranked h h); [set_solver|lia]. }
  { intros k ek. destruct (decide (k = h)) as [->|Hne].
    - rewrite He1. intros [= <-]. rewrite Ep1. destruct (ln_meta _ _ _ _ Hl) as [em Hem]. specialize (Hcore _ _ (cores_lookup _ _ _ Hem)). lia.
    - rewrite Ho1 by done. intros (e0 & E0 & ->)%fmap_Some. specialize (Hcore k e0 E0). cbn.
      pose proof (occ_le k (forGatherChildren (node_at h))). pose proof (occ_nonneg k (forGatherChildren (node_at h))). lia. }
  { intros m c k. by rewrite Ec1. }
  assert (Hx1 : ∀ c, ext_count e1 c = 0) by (intros c; unfold ext_count; rewrite Ec1; cbn; by rewrite lookup_empty).
  exists db'. split_and!; [done| |congruence|]; cycle 1.
  { unfold cores in H1. rewrite lookup_fmap in H1. apply fmap_Some in H1 as (? & ? & _). eauto. }
  exists (l ++ [h]). split_and!; [done| |set_solver]. rewrite D', D1.
  eapply (counts_add l (cores db) (cores db') _ h e'); [done|unfold cores; by rewrite lookup_fmap, Hh|done|done|congruence|congruence| | | |].
  - intros m c k Em Ek. destruct (H4 m c k Em Ek) as [? [?|Hx]]; [done|]. rewrite Hx1 in Hx. done.
  - intros c Hin [e Hc']. apply H5; [done|]. destruct (decide (c = h)) as [->|Hne]; [by rewrite He1|]. rewrite Ho1, Hc' by done. cbn. eauto.
  - intros k Hne. rewrite H7, Ho1, <-option_fmap_compose by done. destruct (cores db !! k) as [e|]; cbn; [|done]. unfold set_parents, holds. cbn.
    rewrite H2, En1, Hx1. do 2 f_equal. lia.
  - intros c Hin. destruct (ranked h c Hin) as [_ Hcz]. destruct (Hk c Hin) as [?|[e He]]; [by left|right]. apply (ct_dom _ _ _ _ _ Hc).
    rewrite (cores_lookup _ _ _ He). split_and!; [eauto|done|set_solver].
Qed.

(** *** Writing to disk *)

Definition disk_closed (disk : gmap bytes bytes) : Prop := ∀ h c, on_disk disk h → c ∈ kids h → on_disk disk c.

(** More nodes are on disk. *)
Lemma counts_grow Zs S l C disk disk' :
  counts Zs S l C disk → (∀ h, on_disk disk h → on_disk disk' h) → disk_closed disk' → counts Zs S l C disk'.
Proof.
  intros [] Hg Hcl. split; try done.
  - intros h e He Hh Hd. apply ct_count0; [done|done|]. by intros ?%Hg.
  - intros h c Hh Hc. destruct (ct_order0 h c Hh Hc); eauto.
  - intros h e c He Hh Hc. destruct (ct_held0 h e c He Hh Hc); eauto.
  - intros e c He Hc. destruct (ct_roots0 e c He Hc); eauto.
Qed.

Lemma holds_kid S l C disk h e c : counts [] S l C disk → C !! h = Some e → h ≠ zero → holds e c ≠ 0 → c ∈ kids h.
Proof.
  intros Hc He Hz Hn. unfold kids. rewrite <-(ct_node _ _ _ _ _ Hc h e He Hz). unfold holds in Hn.
  destruct (decide (c ∈ forGatherChildren (c_node e))) as [|Hin]; [set_solver|]. rewrite (occ_absent _ _ Hin) in Hn.
  unfold ext_count in Hn. destruct (c_children e) as [m|] eqn:Em; cbn in Hn; [|by rewrite lookup_empty in Hn].
  destruct (m !! c) as [k|] eqn:Ek; [|done]. apply elem_of_app. right. by eapply ct_ext.
Qed.

(** A node that is on disk is dropped from memory. *)
Lemma counts_evict S l1 l2 C disk x :
  NoDup (l1 ++ x :: l2) → counts [] S (l1 ++ x :: l2) C disk → on_disk disk x → counts [] S (l1 ++ l2) (base.delete x C) disk.
Proof.
  intros Hnd Hc Hx. assert (Hin : x ∈ l1 ++ x :: l2) by set_solver. apply (ct_dom _ _ _ _ _ Hc) in Hin as ([e He] & Hz & _).
  assert (Hsub : ∀ h, h ∈ l1 ++ l2 ↔ h ∈ l1 ++ x :: l2 ∧ h ≠ x).
  { apply NoDup_app in Hnd as (_ & Hd & Hnd). apply NoDup_cons in Hnd as [Hc2 _]. intros h. split; [|set_solver].
    intros Hh. split; [set_solver|]. intros ->. specialize (Hd x). set_solver. }
  pose proof Hc as []. split; try done.
  - intros h. rewrite Hsub, ct_dom0. destruct (decide (h = x)) as [->|]; [rewrite lookup_delete_eq|rewrite lookup_delete_ne by done]; [|set_solver].
    split; [tauto|]. by intros [[? ?] _].
  - destruct ct_meta0 as (e' & m & ? & ?). exists e', m. by rewrite lookup_delete_ne.
  - intros h e' [_ ?]%lookup_delete_Some. by apply ct_node0.
  - intros h e' m c' k [_ ?]%lookup_delete_Some. by apply ct_ext0.
  - intros h e' [_ ?]%lookup_delete_Some. by eapply ct_parents0.
  - intros h e' [_ He']%lookup_delete_Some [Hh _]%Hsub Hd. rewrite (ct_count0 h e' He' Hh Hd). f_equal.
    unfold refs. rewrite (msum_delete _ C _ _ He), bool_decide_false by set_solver. destruct (decide (holds e h = 0)) as [->|Hn]; [lia|].
    destruct Hd. eapply ct_disk0; [exact Hx|]. by eapply holds_kid.
  - intros h c [Hh Hne]%Hsub Hk. destruct (decide (c = x)) as [->|]; [by left|]. destruct (ct_order0 h c Hh Hk) as [|Hb]; [by left|right]. by eapply before_remove.
  - intros h e' c [_ He']%lookup_delete_Some [Hh _]%Hsub. by apply ct_held0.
  - intros e' c [_ He']%lookup_delete_Some Hcc. destruct (decide (c = x)) as [->|]; [by left|]. destruct (ct_roots0 e' c He' Hcc); [by left|right]. by apply Hsub.
Qed.

Lemma write_batch_lookup ws disk h :
  (∀ b, (h, b) ∈ ws → b = encode_node (node_at h)) → (h ∈ ws.*1 → on_disk (write_batch ws disk) h) ∧ (h ∉ ws.*1 → write_batch ws disk !! h = disk !! h).
Proof.
  unfold write_batch. revert disk. induction ws as [|[k b] ws IH] using rev_ind; intros disk Hb; [split; [set_solver|done]|].
  rewrite foldl_app, fmap_app. cbn. destruct (IH disk) as [I1 I2]; [intros b' ?; apply Hb; set_solver|]. unfold on_disk in *. destruct (decide (k = h)) as [->|Hne].
  - rewrite lookup_insert_eq. split; [|set_solver]. intros _. f_equal. apply Hb. set_solver.
  - rewrite lookup_insert_ne by done. split; intros Hin; [apply I1|apply I2]; set_solver.
Qed.

Definition blobs_ok (ws : list (bytes * bytes)) : Prop := ∀ h b, (h, b) ∈ ws → b = encode_node (node_at h).

(** A batch whose children are on disk or in the batch keeps the disk closed. *)
Lemma write_batch_closed ws disk :
  blobs_ok ws → disk_closed disk → (∀ h c, h ∈ ws.*1 → c ∈ kids h → on_disk disk c ∨ c ∈ ws.*1) →
  disk_closed (write_batch ws disk)
  ∧ (∀ h, on_disk disk h → on_disk (write_batch ws disk) h) ∧ (∀ h, h ∈ ws.*1 → on_disk (write_batch ws disk) h).
Proof.
  intros Hb Hcl Hk.
  assert (H1 : ∀ h, h ∈ ws.*1 → on_disk (write_batch ws disk) h) by (intros h; apply write_batch_lookup, Hb).
  assert (H2 : ∀ h, on_disk disk h → on_disk (write_batch ws disk) h).
  { intros h Hd. destruct (decide (h ∈ ws.*1)) as [|Hn]; [by apply H1|]. unfold on_disk. by rewrite (proj2 (write_batch_lookup ws disk h (Hb h)) Hn). }
  split_and!; [|done|done]. intros h c Hd Hc. destruct (decide (h ∈ ws.*1)) as [Hn|Hn]; [destruct (Hk h c Hn Hc); eauto|].
  apply H2, (Hcl h); [|done]. unfold on_disk in *. by rewrite (proj2 (write_batch_lookup ws disk h (Hb h)) Hn) in Hd.
Qed.

End collect.
End contents.
