(* ===== verification/TrieGcDisk.v ===== *)
(** * Writing the trie database to disk

    [Cap] and [Commit] keep the invariant of the garbage collection, and the
    theorems on the database: no operation loses a node that a referenced root
    or the disk leads to, and [Commit] brings a whole trie to disk. *)
From S2P Require Import Prelude RlpEncode TrieEncoding TrieSpec Trie TrieHash TrieDecode TrieDatabase TrieFlush TrieGc.
Local Open Scope Z_scope.

Local Notation zero := zero_hash.

Section disk.
Context {contents : NodeContents}.
Context {ranges : RangeChildren}.

Section cap.
Context (cachedNodeSize : Z).

(** ** [Cap] *)

(** What [Cap] counts for an entry, and the part of [Size] it changes. *)
Definition cost (e : cachedNode) : Z :=
  HashLength + c_size e + cachedNodeSize
  + match c_children e with Some m => cachedNodeChildrenSize + Z.of_nat (map_size m) * (HashLength + 2) | None => 0 end.
Definition costs (d : gmap bytes cachedNode) (l : list bytes) : Z :=
  foldr (λ h acc, match d !! h with Some e => cost e + acc | None => acc end) 0 l.
Definition total (db : Database) : Z := dirtiesSize db + childrenSize db + Z.of_nat (map_size (dirties db)) * cachedNodeSize.

Lemma costs_frame d d' l : (∀ h, h ∈ l → d !! h = d' !! h) → costs d l = costs d' l.
Proof. intros Hd. induction l as [|h l IH]; [done|]. cbn [costs foldr]. unfold costs in IH. rewrite IH, Hd by set_solver. done. Qed.

(** The first loop writes a beginning of the list. *)
Lemma cap_write_ok fuel limit size d l db :
  d = dirties db → zero ∉ l → dseg d None l zero → (length l ≤ fuel)%nat →
  ∃ l1 l2 ws, l = l1 ++ l2 ∧ cap_write cachedNodeSize fuel limit size (hd zero l) db = Some (hd zero l2, ws)
    ∧ ws.*1 = l1 ∧ (∀ h b, (h, b) ∈ ws → ∃ e, d !! h = Some e ∧ b = cached_rlp e) ∧ (l2 = [] ∨ size - costs d l1 ≤ limit).
Proof.
  intros ->. revert size l. induction fuel as [|fuel IH]; intros size l Hz Hs Hl.
  { destruct l; [|cbn in Hl; lia]. exists [], [], []. cbn. rewrite bool_decide_true, andb_false_r by done. split_and!; [done|done|done|set_solver|by left]. }
  cbn [cap_write]. destruct (_ && _) eqn:E; cycle 1.
  { exists [], l, []. split_and!; [done|done|done|set_solver|]. apply andb_false_iff in E as [E%Z.ltb_ge|E]; [right; cbn; lia|left].
    apply negb_false_iff, bool_decide_eq_true in E. destruct l; [done|]. cbn in E. subst. set_solver. }
  destruct l as [|h l]; [by rewrite bool_decide_true, andb_false_r in E|]. cbn [hd]. destruct Hs as [(e & He & Hn & _) Hs]. rewrite He. cbn [mbind option_bind]. rewrite Hn.
  match goal with |- context [cap_write _ fuel limit ?s _ db] => destruct (IH s l) as (l1 & l2 & ws & -> & E' & Hws & Hb & Hlim) end;
    [set_solver|by eapply dseg_weaken|cbn in Hl; lia|]. rewrite E'. cbn [mbind option_bind].
  exists (h :: l1), l2, ((h, cached_rlp e) :: ws). split_and!; [done|done|by rewrite fmap_cons, Hws| |].
  - intros h' b [[= -> ->]|?]%elem_of_cons; [by exists e|by apply Hb].
  - destruct Hlim as [|Hlim]; [by left|right]. unfold costs in *. cbn [foldr]. rewrite He. unfold cost at 1. destruct (c_children e); lia.
Qed.

(** The second loop drops it from memory. *)
Lemma cap_drop_ok fuel l1 l2 db :
  db_links db (l1 ++ l2) → counts [] (λ _, 0) (l1 ++ l2) (cores db) (diskdb db) → (∀ h, h ∈ l1 → on_disk (diskdb db) h) → (length l1 ≤ fuel)%nat →
  ∃ db', cap_drop fuel (hd zero l2) db = Some db' ∧ db_links db' l2 ∧ counts [] (λ _, 0) l2 (cores db') (diskdb db')
    ∧ diskdb db' = diskdb db ∧ (∀ k, k ∉ l1 → dirties db' !! k = dirties db !! k) ∧ total db' = total db - costs (dirties db) l1.
Proof.
  revert fuel db. induction l1 as [|h l1 IH]; intros fuel db Hl Hc Hd Hf.
  { exists db. destruct fuel; cbn [cap_drop]; rewrite bool_decide_true by (apply (ln_oldest _ _ _ _ Hl)); split_and!; try done; cbn; lia. }
  change ((h :: l1) ++ l2) with (h :: (l1 ++ l2)) in *. destruct fuel as [|fuel]; [cbn in Hf; lia|]. cbn [cap_drop]. pose proof Hl as [H1 H2 H3 H4 H5 H6]. cbn in H5.
  assert (Hne : h ≠ hd zero l2).
  { apply NoDup_cons in H1 as [Hh _]. destruct l2; cbn; set_solver. }
  rewrite bool_decide_false by congruence. destruct H4 as [(e & He & Hn & _) Hs]. rewrite H5, He. cbn [mbind option_bind].
  rewrite Hn. set (db1 := match c_children e with Some _ => _ | None => _ end).
  assert (Hdb1 : dirties db1 = base.delete h (dirties db) ∧ diskdb db1 = diskdb db ∧ oldest db1 = hd zero (l1 ++ l2) ∧ newest db1 = newest db)
    by (subst db1; by destruct (c_children e)).
  assert (Htotal : total db1 = total db - cost e).
  { destruct Hdb1 as (E1 & _). unfold total. rewrite E1. pose proof (map_size_delete_Some h (dirties db) (ex_intro _ e He)) as Hsz.
    assert (size (dirties db) ≠ 0%nat) by (apply map_size_ne_0_lookup; eauto). unfold size in *.
    rewrite Hsz, Nat2Z.inj_pred by lia. unfold cost. subst db1. destruct (c_children e); db_cbn; lia. }
  destruct Hdb1 as (E1 & E2 & E3 & E4). clearbody db1.
  apply NoDup_cons in H1 as [Hh Hnd].
  destruct (IH fuel db1) as (db' & E & Hl' & Hc' & D & Ho & Ht).
  - rewrite E1, E3, E4. split; [done|set_solver|by rewrite lookup_delete_ne by set_solver| |done|].
    + eapply dseg_frame; [|by eapply dseg_weaken]. intros k Hk. by rewrite lookup_delete_ne by (by intros <-).
    + intros Hl0. rewrite <-(H6 (ltac:(done))). destruct (l1 ++ l2) eqn:E0; [done|]. by rewrite last_cons_cons.
  - unfold cores. rewrite E1, E2, fmap_delete. apply (counts_evict _ [] (l1 ++ l2)); [by apply NoDup_cons|done|]. apply Hd. set_solver.
  - intros k Hk. rewrite E2. apply Hd. set_solver.
  - cbn in Hf. lia.
  - exists db'. split_and!; [done|done|done|congruence| |].
    + intros k Hk. rewrite Ho, E1 by set_solver. by rewrite lookup_delete_ne by set_solver.
    + rewrite Ht, Htotal, E1. rewrite (costs_frame _ (dirties db) l1); [unfold costs; cbn [foldr]; rewrite He; lia|].
      intros k Hk. rewrite lookup_delete_ne; [done|]. intros ->. apply Hh. set_solver.
Qed.

(** Every node stays in memory or is on disk. *)
Definition keeps (db db' : Database) : Prop :=
  (∀ h, on_disk (diskdb db) h → on_disk (diskdb db') h)
  ∧ (∀ h, is_Some (dirties db !! h) → h ≠ zero → available db' h) ∧ ∀ r, root_count db' r = root_count db r.

Lemma cap_prefix_closed l1 l2 C disk h c :
  NoDup (l1 ++ l2) → counts [] (λ _, 0) (l1 ++ l2) C disk → h ∈ l1 → c ∈ kids h → on_disk disk c ∨ c ∈ l1.
Proof.
  intros Hnd Hc Hh Hk. destruct (ct_order _ _ _ _ _ Hc h c) as [|(k1 & k2 & E & Hin)]; [set_solver|done|by left|right].
  apply list_elem_of_split in Hh as (m1 & m2 & ->). rewrite <-app_assoc in E, Hnd. cbn in E, Hnd.
  assert (length m1 = length k1) as Hlen.
  { eapply (NoDup_lookup (m1 ++ h :: m2 ++ l2)); [done|by apply list_lookup_middle|rewrite E; by apply list_lookup_middle]. }
  apply app_inj_1 in E as [-> _]; [|done]. set_solver.
Qed.

Lemma links_length d l old new : links d l old new → (length l ≤ map_size d)%nat.
Proof.
  intros [Hnd _ _ Hs _ _]. change (map_size d) with (size d). rewrite <-length_map_to_list, <-(length_fmap fst). apply submseteq_length, NoDup_submseteq; [done|].
  intros h (l1 & l2 & ->)%list_elem_of_split. apply dseg_app in Hs as [_ [(e & He & _) _]].
  apply list_elem_of_fmap. exists (h, e). by rewrite elem_of_map_to_list.
Qed.

Lemma relinked_available db db' h : cores db' = cores db → is_Some (dirties db !! h) → is_Some (dirties db' !! h).
Proof.
  intros E [e He]. apply cores_lookup in He. rewrite <-E in He. unfold cores in He. rewrite lookup_fmap in He. destruct (dirties db' !! h); [eauto|done].
Qed.

Lemma root_count_cores db db' r : cores db' !! zero = cores db !! zero → root_count db' r = root_count db r.
Proof.
  intros E. unfold root_count, cores in *. rewrite !lookup_fmap in E. destruct (dirties db' !! zero), (dirties db !! zero); cbn in E; [|done..].
  assert (c_children c = c_children c0) as Ec by exact (f_equal (from_option c_children None) E). unfold ext_count. by rewrite Ec.
Qed.

(** The last step of [Cap]: the first node has no predecessor. *)
Lemma cap_finish l db :
  db_links db l →
  ∃ db', (if bool_decide (oldest db = zero) then Some db else alter_entry (oldest db) (set_flushPrev zero) db) = Some db'
    ∧ db_links db' l ∧ relinked db db'.
Proof.
  intros Hl. pose proof Hl as [H1 H2 H3 H4 H5 H6]. case_bool_decide as Ho; [exists db; split_and!; done|].
  destruct l as [|h l]; [by rewrite H5 in Ho|]. cbn in H5. pose proof H4 as [(e & He & Hn & _) Hs]. rewrite H5. rewrite (alter_entry_some _ _ _ e He).
  eexists. split; [done|]. split; [|by apply (relink_set db h e)]. apply NoDup_cons in H1 as Hnd. destruct Hnd as [Hh Hnd].
  split; db_cbn; [done|done|by apply lookup_set_some| |done|done].
  eapply (dseg_weaken _ (Some zero)), (dseg_set_prev _ None); [done|done|done].
Qed.

Lemma Cap_ok limit db :
  db_inv db → ∃ db', Cap cachedNodeSize limit db = Some db' ∧ db_inv db' ∧ keeps db db'
    ∧ (Size cachedNodeSize db' ≤ limit ∨ ∀ h, h ≠ zero → dirties db' !! h = None).
Proof.
  intros (l & Hl & Hc & _). unfold Cap. destruct (ln_meta _ _ _ _ Hl) as [meta Hm]. rewrite Hm. cbn [mbind option_bind].
  match goal with |- context [cap_write _ ?n limit ?s _ db] =>
    destruct (cap_write_ok n limit s (dirties db) l db eq_refl (ln_zero _ _ _ _ Hl) (ln_seg _ _ _ _ Hl)) as (l1 & l2 & ws & -> & E & Hws & Hb & Hlim) end.
  { by eapply links_length. }
  rewrite (ln_oldest _ _ _ _ Hl), E. cbn [mbind option_bind]. pose proof (ln_nodup _ _ _ _ Hl) as Hnd. pose proof (ln_zero _ _ _ _ Hl) as Hz.
  assert (Hbl : blobs_ok ws).
  { intros h b Hin. destruct (Hb h b Hin) as (e & He & ->). unfold cached_rlp. f_equal. apply (ct_node _ _ _ _ _ Hc h (core e)); [by apply cores_lookup|].
    intros ->. apply Hz. apply elem_of_app. left. rewrite <-Hws. by apply (list_elem_of_fmap_2 fst) in Hin. }
  destruct (write_batch_closed ws (diskdb db)) as (Hcl & Hgrow & Hnew); [done|exact (ct_disk _ _ _ _ _ Hc)| |].
  { rewrite Hws. intros h c Hh Hk. by eapply cap_prefix_closed. }
  rewrite Hws in Hnew. set (disk := write_batch ws (diskdb db)) in *.
  destruct (cap_drop_ok (map_size (dirties db)) l1 l2 (set_diskdb disk db)) as (db1 & E1 & Hl1 & Hc1 & D1 & Ho1 & Ht); [done| |done| |].
  { by eapply counts_grow. }
  { pose proof (links_length _ _ _ _ Hl) as Hlen. rewrite length_app in Hlen. lia. }
  rewrite E1. cbn [mbind option_bind]. destruct (cap_finish l2 db1 Hl1) as (db' & E' & Hl' & Hr). rewrite E'. exists db'. split; [done|].
  cbn [diskdb dirties set_diskdb] in D1, Ho1. pose proof (rl_disk _ _ Hr) as Dr. pose proof (rl_cores _ _ Hr) as Er. split; [|split; [split_and!|]].
  - exists l2. split_and!; [done|by rewrite Er, Dr|set_solver].
  - intros h Hd. rewrite Dr, D1. by apply Hgrow.
  - intros h Hh Hhz. destruct (decide (h ∈ l1)) as [Hin|Hin]; [left; rewrite Dr, D1; by apply Hnew|right].
    apply (relinked_available _ _ _ Er). by rewrite Ho1.
  - intros r. apply root_count_cores. rewrite Er. unfold cores. rewrite !lookup_fmap, Ho1; [done|set_solver].
  - destruct Hlim as [->|Hlim]; [right|left].
    + intros h Hh. rewrite eq_None_not_Some. intros Hs. apply (relinked_available _ _ _ (eq_sym Er)) in Hs as [e He].
      pose proof (proj2 (ct_dom _ _ _ _ _ Hc1 h)) as Hn. rewrite (cores_lookup _ _ _ He) in Hn. set_solver.
    + assert (Hz0 : cores db' !! zero = cores db !! zero) by (rewrite Er; unfold cores; rewrite !lookup_fmap, Ho1; [done|set_solver]).
      unfold cores in Hz0. rewrite !lookup_fmap, Hm in Hz0. destruct (dirties db' !! zero) as [meta'|] eqn:Hm'; [|done].
      pose proof (f_equal (from_option c_children None) Hz0) as Ec. cbn in Ec. unfold Size. rewrite Hm', Ec.
      assert (Hsz : map_size (dirties db') = map_size (dirties db1)).
      { change (size (dirties db') = size (dirties db1)). rewrite <-(map_size_fmap core (dirties db')), <-(map_size_fmap core (dirties db1)). by f_equal. }
      rewrite Hsz, (rl_dirties _ _ Hr), (rl_children _ _ Hr). unfold total in Ht. cbn [dirtiesSize childrenSize dirties set_diskdb] in Ht. lia.
Qed.
End cap.

(** ** [Commit] *)

Section commit.
Context (batch_full : list (bytes * bytes) → bool).

Lemma keeps_refl db : keeps db db.
Proof. split_and!; [done| |done]. by right. Qed.
Lemma keeps_available db db' h : keeps db db' → h ≠ zero → available db h → available db' h.
Proof. intros (H1 & H2 & _) Hz [?|?]; [left; by apply H1|by apply H2]. Qed.
Lemma keeps_trans db db' db'' : keeps db db' → keeps db' db'' → keeps db db''.
Proof.
  intros H1 H2. pose proof H1 as (Ha & Hb & Hc). pose proof H2 as (Ha' & _ & Hc'). split_and!; [by eauto| |by intros r; rewrite Hc'].
  intros h Hh Hz. eapply keeps_available; [done|done|]. by apply Hb.
Qed.

Lemma cleaner_Put_ok h db :
  db_inv db → h ≠ zero → on_disk (diskdb db) h →
  ∃ db', cleaner_Put h db = Some db' ∧ db_inv db' ∧ diskdb db' = diskdb db ∧ keeps db db'.
Proof.
  intros (l & Hg) Hz Hd. pose proof Hg as (Hl & Hc & _). unfold cleaner_Put. destruct (dirties db !! h) as [e|] eqn:He; cycle 1.
  { exists db. split_and!; [done|by exists l|done|apply keeps_refl]. }
  assert (Hin : h ∈ l) by (apply (ct_dom _ _ _ _ _ Hc); rewrite (cores_lookup _ _ _ He); set_solver).
  apply list_elem_of_split in Hin as (l1 & l2 & ->). destruct (unlink_ok db h l1 l2 e Hl He) as (db1 & E1 & Hr & Hl1). rewrite E1. cbn [mbind option_bind].
  eexists. split; [done|]. set (db' := match c_children e with Some _ => _ | None => _ end).
  assert (Hdb' : dirties db' = base.delete h (dirties db1) ∧ diskdb db' = diskdb db1 ∧ oldest db' = oldest db1 ∧ newest db' = newest db1)
    by (subst db'; by destruct (c_children e)). destruct Hdb' as (E2 & E3 & E4 & E5). clearbody db'.
  pose proof (ln_nodup _ _ _ _ Hl) as Hnd. assert (h ∉ l1 ++ l2).
  { apply NoDup_app in Hnd as (_ & Hdis & Hnd). apply NoDup_cons in Hnd as [? _]. specialize (Hdis h). set_solver. }
  assert (Hdisk : diskdb db' = diskdb db) by (rewrite E3; apply (rl_disk _ _ Hr)).
  assert (Hcores : cores db' = base.delete h (cores db)) by (unfold cores; rewrite E2, fmap_delete; f_equal; apply (rl_cores _ _ Hr)).
  split_and!; [|done|split_and!].
  - exists (l1 ++ l2). split_and!; [rewrite E2, E4, E5; by apply links_delete| |set_solver]. rewrite Hcores, Hdisk. by apply counts_evict.
  - by rewrite Hdisk.
  - intros k Hk _. destruct (decide (k = h)) as [->|Hne]; [left; by rewrite Hdisk|right].
    apply (relinked_available _ _ _ (rl_cores _ _ Hr)) in Hk. by rewrite E2, lookup_delete_ne.
  - intros r. apply root_count_cores. by rewrite Hcores, lookup_delete_ne.
Qed.

Lemma cleaner_all ws db :
  db_inv db → (∀ h, h ∈ ws.*1 → h ≠ zero ∧ on_disk (diskdb db) h) →
  ∃ db', foldl (λ db (kv : bytes * bytes), db ← db; cleaner_Put kv.1 db) (Some db) ws = Some db' ∧ db_inv db' ∧ diskdb db' = diskdb db ∧ keeps db db'.
Proof.
  revert db. induction ws as [|[h b] ws IH]; intros db Hi Hws; cbn [foldl].
  { exists db. split_and!; [done|done|done|apply keeps_refl]. }
  destruct (Hws h) as [Hz Hd]; [set_solver|]. destruct (cleaner_Put_ok h db Hi Hz Hd) as (db1 & E1 & Hi1 & D1 & K1).
  destruct (IH db1 Hi1) as (db' & E & Hi' & D & K); [rewrite D1; set_solver|]. exists db'. cbn. rewrite E1.
  split; [done|]. split; [done|]. split; [congruence|]. by eapply keeps_trans.
Qed.

(** Written already, or in the batch. *)
Definition persisted (st : Database * list (bytes * bytes)) (h : bytes) : Prop := on_disk (diskdb st.1) h ∨ h ∈ st.2.*1.
Definition commit_inv (st : Database * list (bytes * bytes)) : Prop :=
  db_inv st.1 ∧ blobs_ok st.2 ∧ ∀ h, h ∈ st.2.*1 → h ≠ zero ∧ ∀ c, c ∈ kids h → persisted st c.

Lemma flush_batch_ok db batch :
  commit_inv (db, batch) →
  ∃ db', flush_batch batch db = Some db' ∧ db_inv db' ∧ keeps db db' ∧ ∀ h, persisted (db, batch) h → on_disk (diskdb db') h.
Proof.
  intros ((l & Hl & Hc & _) & Hb & Hk). cbn in *. unfold flush_batch.
  destruct (write_batch_closed batch (diskdb db)) as (Hcl & Hgrow & Hnew); [done|exact (ct_disk _ _ _ _ _ Hc)|intros h c Hh; by apply Hk|].
  set (disk := write_batch batch (diskdb db)) in *.
  destruct (cleaner_all batch (set_diskdb disk db)) as (db' & E & Hi & D & K).
  - exists l. split_and!; [done| |set_solver]. by eapply counts_grow.
  - intros h Hh. split; [by apply Hk|]. by apply Hnew.
  - cbn in D. exists db'. split_and!; [done|done|split_and!|].
    + intros h Hd. rewrite D. by apply Hgrow.
    + intros h Hh Hz. by apply K.
    + intros r. by rewrite (proj2 (proj2 K)).
    + intros h [Hd|Hd]; rewrite D; [by apply Hgrow|by apply Hnew].
Qed.

(** What a call of [commit] with [fuel] achieves. *)
Record committed (hash : bytes) (st st' : Database * list (bytes * bytes)) : Prop := {
  cm_inv : commit_inv st';
  cm_keeps : keeps st.1 st'.1;
  cm_persisted h : persisted st h → persisted st' h;
  cm_done : available st.1 hash → persisted st' hash
}.
Definition commits (fuel : nat) : Prop :=
  ∀ hash st, commit_inv st → (rank hash < fuel)%nat → hash ≠ zero →
    ∃ st', commit batch_full fuel hash st = Some st' ∧ committed hash st st'.

Lemma commit_children fuel ks st :
  commits fuel → commit_inv st → (∀ k, k ∈ ks → (rank k < fuel)%nat ∧ k ≠ zero) →
  ∃ st', foldl (λ st child, st ← st; commit batch_full fuel child st) (Some st) ks = Some st' ∧ commit_inv st' ∧ keeps st.1 st'.1
    ∧ (∀ h, persisted st h → persisted st' h) ∧ ∀ k, k ∈ ks → available st.1 k → persisted st' k.
Proof.
  intros Hf. revert st. induction ks as [|k ks IH]; intros st Hi Hk; cbn [foldl].
  { exists st. split_and!; [done|done|apply keeps_refl|done|set_solver]. }
  destruct (Hk k) as [Hr Hz]; [set_solver|]. destruct (Hf k st Hi Hr Hz) as (st1 & E1 & [Hi1 K1 P1 D1]).
  destruct (IH st1 Hi1) as (st' & E & Hi' & K & P & D); [set_solver|]. exists st'. cbn. rewrite E1.
  split; [done|]. split; [done|]. split; [by eapply keeps_trans|]. split; [by eauto|].
  intros x [->|Hx]%elem_of_cons Ha; [by apply P, D1|]. apply D; [done|]. eapply keeps_available; [done| |done]. apply (Hk x). set_solver.
Qed.

Lemma kid_tracked l C disk h e c :
  counts [] (λ _, 0) l C disk → C !! h = Some e → h ∈ l → c ∈ kids h → on_disk disk c ∨ (c ∈ forChilds e ∧ c ∈ l).
Proof.
  intros Hc He Hh Hk. pose proof (proj1 (ct_dom _ _ _ _ _ Hc h) Hh) as (_ & Hz & _).
  destruct (ct_order _ _ _ _ _ Hc h c Hh Hk) as [|(l1 & l2 & -> & Hin)]; [by left|].
  unfold forChilds. rewrite (ct_node _ _ _ _ _ Hc h e He Hz). apply elem_of_app in Hk as [Hk|Hk]; [right; set_solver|].
  destruct (ct_held _ _ _ _ _ Hc h e c He Hh Hk) as [|Hx]; [by left|right]. split; [|set_solver]. apply elem_of_app. left.
  unfold ext_count in Hx. destruct (c_children e) as [m|]; cbn in Hx; [|by rewrite lookup_empty in Hx]. destruct (m !! c) as [k|] eqn:Ek; [|done].
  rewrite range_perm. apply list_elem_of_fmap. exists (c, k). by rewrite elem_of_map_to_list.
Qed.

Lemma commit_step fuel hash st : commits fuel → commit_inv st → (rank hash < S fuel)%nat → hash ≠ zero →
  ∃ st', commit batch_full (S fuel) hash st = Some st' ∧ committed hash st st'.
Proof.
  intros Hf Hi Hr Hz. cbn [commit]. destruct (dirties st.1 !! hash) as [e|] eqn:He; cycle 1.
  { exists st. split; [done|]. split; [done|apply keeps_refl|done|]. intros [?|[e ?]]; [by left|congruence]. }
  pose proof Hi as ((l & Hl & Hc & _) & Hb & _). pose proof (cores_lookup _ _ _ He) as He'.
  assert (Hin : hash ∈ l) by (apply (ct_dom _ _ _ _ _ Hc); rewrite He'; set_solver).
  destruct (commit_children fuel (forChilds e) st Hf Hi) as (st1 & E1 & Hi1 & K1 & P1 & D1).
  { intros k Hk. change (forChilds e) with (forChilds (core e)) in Hk. eapply forChilds_kids in Hk; [|exact Hc|done|done].
    apply ranked in Hk as [? ?]. split; [lia|done]. }
  rewrite E1. cbn [mbind option_bind]. set (batch := st1.2 ++ [(hash, cached_rlp e)]).
  assert (Hblob : cached_rlp e = encode_node (node_at hash)) by (unfold cached_rlp; f_equal; exact (ct_node _ _ _ _ _ Hc hash _ He' Hz)).
  assert (Hmono : ∀ h, persisted st1 h → persisted (st1.1, batch) h).
  { intros h [?|?]; [by left|right]. cbn. subst batch. rewrite fmap_app. set_solver. }
  assert (Hi2 : commit_inv (st1.1, batch)).
  { destruct Hi1 as (Hdb & Hb1 & Hk1). split_and!; [done| |].
    - intros h b [Hh|Hh%list_elem_of_singleton]%elem_of_app; [by apply Hb1|]. by simplify_eq.
    - cbn. subst batch. rewrite fmap_app. intros h [Hh|Hh]%elem_of_app; [destruct (Hk1 h Hh) as [? Hkh]; split; [done|]; intros c ?; by apply Hmono, Hkh|].
      cbn in Hh. apply list_elem_of_singleton in Hh as ->. split; [done|]. intros c Hk. apply Hmono.
      destruct (kid_tracked _ _ _ _ _ _ Hc He' Hin Hk) as [?|[Hch Hcl]]; [by apply P1; left|].
      apply D1; [done|]. right. apply (ct_dom _ _ _ _ _ Hc) in Hcl as [[x Hx] _]. unfold cores in Hx. rewrite lookup_fmap in Hx. apply fmap_Some in Hx as (? & ? & _). eauto. }
  assert (Hdone : persisted (st1.1, batch) hash) by (right; cbn; subst batch; rewrite fmap_app; set_solver).
  destruct (batch_full batch).
  - destruct (flush_batch_ok st1.1 batch Hi2) as (db' & E & Hdb & K & D). rewrite E. cbn [mbind option_bind]. eexists. split; [done|]. split; cbn.
    + split_and!; [done|intros ? ?; set_solver|set_solver].
    + by eapply keeps_trans.
    + intros h Hp. left. by apply D, Hmono, P1.
    + intros _. left. by apply D.
  - eexists. split; [done|]. split; [done|done|intros h Hp; by apply Hmono, P1|done].
Qed.

Lemma commits_all fuel : commits fuel.
Proof. induction fuel as [|fuel IH]; intros hash st Hi Hr Hz; [lia|]. by apply commit_step. Qed.

Lemma Commit_kept fuel root db :
  db_inv db → (rank root < fuel)%nat → root ≠ zero →
  ∃ db', Commit batch_full fuel root db = Some db' ∧ db_inv db' ∧ keeps db db' ∧ (available db root → on_disk (diskdb db') root).
Proof.
  intros Hi Hr Hz. unfold Commit. destruct (commits_all fuel root (db, [])) as ([db1 batch] & E & [Hi1 K1 P1 D1]); [|done|done|].
  { split_and!; [done|intros ? ?; set_solver|set_solver]. }
  rewrite E. cbn [mbind option_bind]. destruct (flush_batch_ok db1 batch Hi1) as (db' & E' & Hi' & K & D).
  exists db'. split_and!; [done|done|by eapply keeps_trans|]. intros Ha. by apply D, D1.
Qed.

End commit.
End disk.
