(* ===== verification/TrieGcProps.v ===== *)
(** * Theorems on the trie database

    Whatever sequence of insertions, references, dereferences, [Cap] and
    [Commit] a database has gone through: a node below a referenced root can
    be read, every further operation succeeds, [Commit] brings a whole trie to
    disk, and [Cap] brings the size below its limit or empties the memory. *)
From stdpp Require Import relations.
From S2P Require Import Prelude RlpEncode TrieEncoding TrieSpec Trie TrieHash TrieDecode TrieDatabase TrieFlush TrieGc TrieGcDisk.
Local Open Scope Z_scope.

Local Notation zero := zero_hash.

Section props.
Context {contents : NodeContents} {ranges : RangeChildren}.
Context (cachedNodeSize : Z) (batch_full : list (bytes * bytes) → bool).

(** ** Runs of a database *)

Inductive db_op :=
| OpNode (hash : bytes) (size : Z) (n : node)
| OpReference (root : bytes)
| OpDereference (root : bytes)
| OpCap (limit : Z)
| OpCommit (root : bytes).

Definition do_op (fuel : nat) (o : db_op) (db : Database) : option Database :=
  match o with
  | OpNode hash size n => commit_item hash size n (ext hash) db
  | OpReference root => reference root zero db
  | OpDereference root => Dereference fuel root db
  | OpCap limit => Cap cachedNodeSize limit db
  | OpCommit root => Commit batch_full fuel root db
  end.

(** Children are inserted before their parents, only references that have been
    made are taken back, and the counters do not overflow. *)
Definition op_ok (o : db_op) (db : Database) : Prop :=
  match o with
  | OpNode hash size n =>
      hash ≠ zero ∧ unknown_node n = false ∧ simplifyNode n = node_at hash ∧ Forall (available db) (kids hash)
      ∧ map_Forall (λ _ e, c_parents e + len (kids hash) < 2 ^ 32) (dirties db)
  | OpReference root => root ≠ zero ∧ root_count db root + 1 < 2 ^ 16 ∧ map_Forall (λ _ e, c_parents e + 1 < 2 ^ 32) (dirties db)
  | OpDereference root => root = zero ∨ root_count db root ≠ 0 ∨ on_disk (diskdb db) root ∨ dirties db !! root = None
  | OpCap _ => True
  | OpCommit root => root ≠ zero
  end.
#[global] Instance available_dec db h : Decision (available db h).
Proof. unfold available. apply _. Defined.

(** Enough fuel for an operation. *)
Definition op_fuel (o : db_op) : nat :=
  match o with OpDereference root | OpCommit root => S (rank root) | _ => 0 end.

Inductive reachable (disk : gmap bytes bytes) : Database → Prop :=
| reach_new : reachable disk (NewDatabase disk)
| reach_op db o fuel db' :
    reachable disk db → op_ok o db → (op_fuel o ≤ fuel)%nat → do_op fuel o db = Some db' → reachable disk db'.

(** ** The invariant *)

Lemma NewDatabase_ok disk : disk_closed disk → db_inv (NewDatabase disk).
Proof.
  intros Hd. exists []. split_and!; [| |set_solver].
  - split; cbn; [apply NoDup_nil_2|set_solver|eauto|done|done|done].
  - set (meta := MkCached nilNode 0 0 (Some ∅) zero zero).
    assert (Hl : ∀ h e, cores (NewDatabase disk) !! h = Some e → h = zero ∧ e = core meta).
    { intros h e. unfold cores. cbn [NewDatabase dirties]. rewrite map_fmap_singleton, lookup_singleton_Some. by intros [<- <-]. }
    assert (Hx : ∀ c, ext_count (core meta) c = 0) by (intros c; unfold ext_count; cbn; by rewrite lookup_empty).
    split; try done.
    + intros h. split; [set_solver|]. intros ([e [-> _]%Hl] & ? & _). done.
    + exists (core meta), ∅. unfold cores. cbn [NewDatabase dirties]. rewrite map_fmap_singleton, lookup_singleton_eq. split_and!; [done..|]. intros c k. by rewrite lookup_empty.
    + set_solver.
    + by intros h e [-> _]%Hl ?.
    + by intros h e m c k [-> _]%Hl ?.
    + by intros h e [-> ->]%Hl.
    + intros h e _ ?. set_solver.
    + intros h c ?. set_solver.
    + intros h e c _ ?. set_solver.
    + intros e c [_ ->]%Hl. by rewrite Hx.
Qed.

Lemma do_op_ok fuel o db :
  db_inv db → op_ok o db → (op_fuel o ≤ fuel)%nat → ∃ db', do_op fuel o db = Some db' ∧ db_inv db'.
Proof.
  intros Hi Ho Hf. destruct o as [hash size n|root|root|limit|root]; cbn in *.
  - destruct Ho as (Hz & Hu & Hn & Ha & Hb). rewrite Forall_forall in Ha. destruct (commit_item_ok db hash size n) as (db' & ? & ? & _); [done|done|done|done|exact Ha|exact Hb|]. eauto.
  - destruct Ho as (Hz & Hr & Hb). destruct (reference_ok db root zero) as (db' & ? & ? & _); [done|done|done|done|done|intros e; apply Hb|]. eauto.
  - destruct (Dereference_ok fuel root db) as (db' & ? & ? & _); [done|intros ?; by destruct Ho|lia|]. eauto.
  - destruct (Cap_ok cachedNodeSize limit db Hi) as (db' & ? & ? & _). eauto.
  - destruct (Commit_kept batch_full fuel root db) as (db' & ? & ? & _); [done|lia|done|]. eauto.
Qed.

Lemma reachable_inv disk db : disk_closed disk → reachable disk db → db_inv db.
Proof.
  intros Hd Hr. induction Hr as [|db o fuel db' Hr IH Ho Hf E]; [by apply NewDatabase_ok|].
  destruct (do_op_ok fuel o db IH Ho Hf) as (? & ? & ?). congruence.
Qed.

(** Whatever is below an available node can be read. *)
Definition below (root h : bytes) : Prop := rtc (λ p c, c ∈ kids p) root h.

Lemma below_zero root h : root ≠ zero → below root h → h ≠ zero.
Proof. intros Hz Hb. induction Hb as [|x y z Hk _ IH]; [done|]. apply IH. by apply (ranked x y). Qed.

Lemma Node_available db h : db_inv db → h ≠ zero → available db h → Node h db = Some (encode_node (node_at h)).
Proof.
  intros (l & Hl & Hc & _) Hz Ha. unfold Node. rewrite bool_decide_false by done. destruct (dirties db !! h) as [e|] eqn:He.
  - unfold cached_rlp. do 2 f_equal. exact (ct_node _ _ _ _ _ Hc h _ (cores_lookup _ _ _ He) Hz).
  - destruct Ha as [Hd|[? ?]]; [|congruence]. unfold on_disk in Hd. rewrite Hd. cbn [mbind option_bind]. pose proof (encoded h) as Hn.
    rewrite (proj2 (Z.eqb_neq _ _)); [done|]. destruct (encode_node (node_at h)); [done|]. rewrite length_cons. lia.
Qed.

Lemma kid_available db h c : db_inv db → h ≠ zero → available db h → c ∈ kids h → available db c.
Proof.
  intros (l & Hl & Hc & _) Hz Ha Hk. destruct Ha as [Hd|[e He]]; [left; by eapply (ct_disk _ _ _ _ _ Hc)|].
  assert (Hin : h ∈ l) by (apply (ct_dom _ _ _ _ _ Hc); rewrite (cores_lookup _ _ _ He); set_solver).
  destruct (ct_order _ _ _ _ _ Hc h c Hin Hk) as [|(l1 & l2 & -> & Hc')]; [by left|right].
  assert (Hcl : c ∈ l1 ++ h :: l2) by set_solver. apply (ct_dom _ _ _ _ _ Hc) in Hcl as [[x Hx] _]. unfold cores in Hx. rewrite lookup_fmap in Hx.
  apply fmap_Some in Hx as (? & ? & _). eauto.
Qed.

Lemma below_available db root h : db_inv db → root ≠ zero → available db root → below root h → available db h.
Proof.
  intros Hi Hz Ha Hb. induction Hb as [|x y z Hk _ IH]; [done|]. apply IH; [by apply (ranked x y)|]. by eapply kid_available.
Qed.

Lemma root_available db root : db_inv db → root_count db root ≠ 0 → available db root.
Proof.
  intros (l & Hl & Hc & _) Hr. unfold root_count in Hr. destruct (dirties db !! zero) as [e|] eqn:He; [|done].
  destruct (ct_roots _ _ _ _ _ Hc (core e) root (cores_lookup _ _ _ He) Hr) as [|Hin]; [by left|right].
  apply (ct_dom _ _ _ _ _ Hc) in Hin as [[x Hx] _]. unfold cores in Hx. rewrite lookup_fmap in Hx. apply fmap_Some in Hx as (? & ? & _). eauto.
Qed.
(** Every node in memory that is not on disk has a reference. *)
Definition collected (db : Database) : Prop :=
  ∀ h e, dirties db !! h = Some e → h ≠ zero → ¬ on_disk (diskdb db) h → c_parents e ≠ 0.

(** Some entry holds a node whose count is not zero. *)
Lemma holder db l h e :
  counts [] (λ _, 0) l (cores db) (diskdb db) → dirties db !! h = Some e → h ∈ l → ¬ on_disk (diskdb db) h → c_parents e ≠ 0 →
  ∃ p ep, dirties db !! p = Some ep ∧ holds (core ep) h ≠ 0.
Proof.
  intros Hc He Hl Hd Hp. pose proof (ct_count _ _ _ _ _ Hc h _ (cores_lookup _ _ _ He) Hl Hd) as E. cbn in E.
  destruct (decide (map_Forall (λ _ ep, holds (core ep) h = 0) (dirties db))) as [Hall|Hn].
  - destruct Hp. rewrite E, Z.add_0_r. apply msum_zero. intros p ep. unfold cores. rewrite lookup_fmap. intros (ep' & Hep & ->)%fmap_Some.
    case_bool_decide; [done|]. by apply (Hall p).
  - apply map_not_Forall in Hn as (p & ep & Hep & Hh); [|apply _]. eauto.
Qed.

(** Without garbage every node in memory and not on disk is below a root. *)
Lemma collected_below db h e :
  db_inv db → collected db → dirties db !! h = Some e → h ≠ zero → ¬ on_disk (diskdb db) h → ∃ root, root_count db root ≠ 0 ∧ below root h.
Proof.
  intros (l & Hl & Hc & _) Hg He Hz Hd.
  assert (Hin : h ∈ l) by (apply (ct_dom _ _ _ _ _ Hc); rewrite (cores_lookup _ _ _ He); set_solver).
  apply list_elem_of_split in Hin as (l1 & l2 & E). remember (length l2) as n eqn:Hn.
  revert h e l1 l2 E Hn He Hz Hd. induction (lt_wf n) as [n _ IH]. intros h e l1 l2 El -> He Hz Hd.
  assert (Hin : h ∈ l) by (rewrite El; set_solver).
  destruct (holder db l h e Hc He Hin Hd (Hg h e He Hz Hd)) as (p & ep & Hep & Hh).
  destruct (decide (p = zero)) as [->|Hpz].
  - exists h. split; [|apply rtc_refl]. unfold root_count. rewrite Hep. intros Hx. apply Hh. unfold holds.
    destruct (ct_meta _ _ _ _ _ Hc) as (e0 & m & E0 & En & _). rewrite (cores_lookup _ _ _ Hep) in E0. injection E0 as <-. rewrite En. cbn [forGatherChildren]. rewrite occ_nil. exact Hx.
  - assert (Hk : h ∈ kids p) by (eapply (holds_kid _ _ _ _ _ (core ep)); [done|by apply cores_lookup|done|done]).
    assert (Hpl : p ∈ l) by (apply (ct_dom _ _ _ _ _ Hc); rewrite (cores_lookup _ _ _ Hep); set_solver).
    destruct (ct_order _ _ _ _ _ Hc p h Hpl Hk) as [|(k1 & k2 & Ek & Hhk)]; [done|].
    assert (Hpd : ¬ on_disk (diskdb db) p) by (intros Hpd; by apply Hd, (ct_disk _ _ _ _ _ Hc p h)).
    apply list_elem_of_split in Hhk as (m1 & m2 & ->).
    assert (length l1 = length m1) as Hlen.
    { apply (NoDup_lookup l (length l1) (length m1) h); [apply (ln_nodup _ _ _ _ Hl)|rewrite El; by apply list_lookup_middle|rewrite Ek, <-app_assoc; by apply list_lookup_middle]. }
    edestruct (IH (length k2)) as (root & Hr & Hb); [|exact Ek|done|exact Hep|done|done|].
    + rewrite El in Ek. apply (f_equal length) in Ek. rewrite !length_app in Ek. cbn in Ek. lia.
    + exists root. split; [done|]. by eapply rtc_r.
Qed.

(** C11: no operation loses a node that is in use: after any sequence of
    insertions (children first), references, dereferences of what has been
    referenced, calls of [Cap] and of [Commit], every node below a referenced
    root is read back; and every further operation succeeds, without a nil
    pointer in the list of insertions. *)
Theorem referenced_nodes_readable (disk : gmap bytes bytes) (db : Database) :
  disk_closed disk → reachable disk db →
  (∀ root h, root ≠ zero → root_count db root ≠ 0 → below root h → Node h db = Some (encode_node (node_at h)))
  ∧ ∀ o fuel, op_ok o db → (op_fuel o ≤ fuel)%nat → ∃ db', do_op fuel o db = Some db'.
Proof.
  intros Hd Hr. pose proof (reachable_inv disk db Hd Hr) as Hi. split.
  - intros root h Hz Hc Hb. apply Node_available; [done|by eapply below_zero|]. eapply below_available; [done|done|by apply root_available|done].
  - intros o fuel Ho Hf. destruct (do_op_ok fuel o db Hi Ho Hf) as (db' & ? & _). eauto.
Qed.

(** C13: garbage is collected: where every node in memory is referenced,
    dereferencing a root leaves no other nodes in memory than those on disk
    and those below a root that is still referenced. *)
Theorem Dereference_collects (disk : gmap bytes bytes) (db : Database) (root : bytes) (fuel : nat) :
  disk_closed disk → reachable disk db → collected db → op_ok (OpDereference root) db → (rank root < fuel)%nat →
  ∃ db', Dereference fuel root db = Some db' ∧ collected db'
    ∧ ∀ h e, dirties db' !! h = Some e → h ≠ zero → on_disk (diskdb db') h ∨ ∃ r, root_count db' r ≠ 0 ∧ below r h.
Proof.
  intros Hd Hr Hg Ho Hf. pose proof (reachable_inv disk db Hd Hr) as Hi.
  destruct (Dereference_ok fuel root db) as (db' & E & Hi' & D & G); [done|intros ?; by destruct Ho|done|].
  assert (Hg' : collected db').
  { intros h e He Hz Hn E0. rewrite D in Hn. destruct (G h e He Hz) as (e0 & He0 & E00); [set_solver|done|]. by apply (Hg h e0). }
  exists db'. split_and!; [done|done|]. intros h e He Hz. destruct (decide (on_disk (diskdb db') h)); [by left|right]. by eapply collected_below.
Qed.

(** C26: [Commit] of a root brings every node below it to disk, and [Cap] brings
    the size below its limit unless it empties the memory; neither loses a
    node or a reference. *)
Theorem written_to_disk (disk : gmap bytes bytes) (db : Database) :
  disk_closed disk → reachable disk db →
  (∀ root fuel, root ≠ zero → (rank root < fuel)%nat → available db root →
    ∃ db', Commit batch_full fuel root db = Some db' ∧ (∀ h, below root h → on_disk (diskdb db') h) ∧ keeps db db')
  ∧ ∀ limit, ∃ db', Cap cachedNodeSize limit db = Some db'
      ∧ (Size cachedNodeSize db' ≤ limit ∨ ∀ h, h ≠ zero → dirties db' !! h = None) ∧ keeps db db'.
Proof.
  intros Hd Hr. pose proof (reachable_inv disk db Hd Hr) as Hi. split.
  - intros root fuel Hz Hf Ha. destruct (Commit_kept batch_full fuel root db) as (db' & E & Hi' & K & Hroot); [done..|]. exists db'. split_and!; [done| |apply K..].
    intros h Hb. destruct Hi' as (l & _ & Hc & _). specialize (Hroot Ha). clear E K Ha Hz Hf. induction Hb as [|x y z Hk _ IH]; [done|].
    apply IH. by apply (ct_disk _ _ _ _ _ Hc x y).
  - intros limit. destruct (Cap_ok cachedNodeSize limit db Hi) as (db' & E & _ & K & HS). exists db'. split_and!; [done|done|apply K..].
Qed.
End props.

(** ** An example *)

(** A storage trie of one leaf, the leaf of its account, and the root above it. *)
Definition storage_hash : bytes := replicate 31 0 ++ [1].
Definition account_hash : bytes := replicate 31 0 ++ [2].
Definition top_hash : bytes := replicate 31 0 ++ [3].

Definition example_node (h : bytes) : node :=
  if bool_decide (h = top_hash) then shortNode [5] (hashNode account_hash) no_flag
  else if bool_decide (h = account_hash) then shortNode [0x20; 1] (valueNode [2]) no_flag
  else shortNode [0x20] (valueNode [1]) no_flag.
Definition example_ext (h : bytes) : list bytes := if bool_decide (h = account_hash) then [storage_hash] else [].
Definition example_rank (h : bytes) : nat := if bool_decide (h = top_hash) then 2 else if bool_decide (h = account_hash) then 1 else 0.

#[refine] Instance example_contents : NodeContents :=
  { node_at := example_node; ext := example_ext; rank := example_rank }.
Proof.
  - intros h c. unfold example_node, example_ext, example_rank.
    destruct (decide (h = top_hash)) as [->|Ht]; [|rewrite (bool_decide_false _ Ht)].
    { vm_compute. intros Hc. apply list_elem_of_singleton in Hc as ->. split; [lia|done]. }
    destruct (decide (h = account_hash)) as [->|Ha]; [|rewrite (bool_decide_false _ Ha); cbn; set_solver].
    intros Hc. change (c ∈ [storage_hash]) in Hc. apply list_elem_of_singleton in Hc as ->. split; [vm_compute; lia|done].
  - intros h. unfold example_node. repeat case_bool_decide; vm_compute; discriminate.
Defined.

#[refine] Instance example_ranges : RangeChildren := { range_children m := (map_to_list m).*1 }.
Proof. done. Defined.

Definition example_size : Z := 96.
Definition example_full (batch : list (bytes * bytes)) : bool := 1 <? len batch.
Definition example_ops : list db_op :=
  [OpNode storage_hash 4 (example_node storage_hash); OpNode account_hash 5 (example_node account_hash);
   OpNode top_hash 40 (example_node top_hash); OpReference top_hash].
(** The database after the first [n] operations. *)
Definition example_db (n : nat) : Database :=
  default (NewDatabase ∅) (foldl (λ db o, db ← db; do_op example_size example_full 0 o db) (Some (NewDatabase ∅)) (take n example_ops)).

Lemma example_step n o :
  reachable example_size example_full ∅ (example_db n) → op_ok o (example_db n) → (op_fuel o ≤ 0)%nat →
  do_op example_size example_full 0 o (example_db n) = Some (example_db (S n)) → reachable example_size example_full ∅ (example_db (S n)).
Proof. intros. by eapply reach_op. Qed.

Lemma example_node_ok hash size n db :
  bool_decide (hash ≠ zero) = true → unknown_node n = false → simplifyNode n = node_at hash →
  bool_decide (Forall (available db) (kids hash)) = true →
  bool_decide (map_Forall (λ _ e, c_parents e + len (kids hash) < 2 ^ 32) (dirties db)) = true → op_ok (OpNode hash size n) db.
Proof. rewrite !bool_decide_eq_true. done. Qed.

Lemma example_1 : reachable example_size example_full ∅ (example_db 1).
Proof.
  apply (example_step 0 (OpNode storage_hash 4 (example_node storage_hash))); [apply reach_new| |done|vm_compute; reflexivity].
  apply example_node_ok; vm_compute; reflexivity.
Qed.
Lemma example_2 : reachable example_size example_full ∅ (example_db 2).
Proof.
  apply (example_step 1 (OpNode account_hash 5 (example_node account_hash))); [apply example_1| |done|vm_compute; reflexivity].
  apply example_node_ok; vm_compute; reflexivity.
Qed.
Lemma example_3 : reachable example_size example_full ∅ (example_db 3).
Proof.
  apply (example_step 2 (OpNode top_hash 40 (example_node top_hash))); [apply example_2| |done|vm_compute; reflexivity].
  apply example_node_ok; vm_compute; reflexivity.
Qed.
Lemma example_referenced : op_ok (OpReference top_hash) (example_db 3).
Proof.
  split_and!; [done|vm_compute; reflexivity|].
  apply (bool_decide_eq_true (map_Forall (λ _ e, c_parents e + 1 < 2 ^ 32) (dirties (example_db 3)))). vm_compute. reflexivity.
Qed.
Lemma example_4 : reachable example_size example_full ∅ (example_db 4).
Proof.
  apply (example_step 3 (OpReference top_hash)); [apply example_3|apply example_referenced|done|vm_compute; reflexivity].
Qed.

Lemma empty_closed : disk_closed ∅.
Proof. intros h c Hd. unfold on_disk in Hd. by rewrite lookup_empty in Hd. Qed.
Lemma example_below : below top_hash storage_hash.
Proof.
  apply (rtc_l _ _ account_hash); [|apply (rtc_l _ _ storage_hash); [|apply rtc_refl]].
  - change (account_hash ∈ [account_hash]). set_solver.
  - change (storage_hash ∈ [storage_hash]). set_solver.
Qed.
Lemma example_collected : collected (example_db 4).
Proof.
  assert (Hall : map_Forall (λ h e, h = zero ∨ c_parents e ≠ 0) (dirties (example_db 4))).
  { apply (bool_decide_eq_true (map_Forall (λ h e, h = zero ∨ c_parents e ≠ 0) (dirties (example_db 4)))). vm_compute. reflexivity. }
  intros h e He Hz _. destruct (Hall h e He) as [E|E]; [destruct (Hz E)|exact E].
Qed.
Lemma example_root : root_count (example_db 4) top_hash ≠ 0.
Proof. vm_compute. discriminate. Qed.

Lemma referenced_nodes_readable_witness : Node storage_hash (example_db 4) = Some (encode_node (example_node storage_hash)).
Proof.
  apply (proj1 (referenced_nodes_readable example_size example_full ∅ (example_db 4) empty_closed example_4) top_hash storage_hash);
    [done|exact example_root|exact example_below].
Defined.

Lemma Dereference_collects_witness :
  ∃ db', Dereference 3 top_hash (example_db 4) = Some db' ∧ collected db'
    ∧ ∀ h e, dirties db' !! h = Some e → h ≠ zero → on_disk (diskdb db') h ∨ ∃ r, root_count db' r ≠ 0 ∧ below r h.
Proof.
  apply (Dereference_collects example_size example_full ∅ (example_db 4) top_hash 3);
    [exact empty_closed|exact example_4|exact example_collected|right; left; exact example_root|vm_compute; lia].
Defined.

Lemma written_to_disk_witness :
  ∃ db', Commit example_full 3 top_hash (example_db 4) = Some db' ∧ (∀ h, below top_hash h → on_disk (diskdb db') h) ∧ keeps (example_db 4) db'.
Proof.
  apply (proj1 (written_to_disk example_size example_full ∅ (example_db 4) empty_closed example_4) top_hash 3%nat);
    [done|vm_compute; lia|right; vm_compute; eauto].
Defined.

(** The last dereference empties the memory. *)
Lemma example_empty : (λ db, map_size (dirties db)) <$> Dereference 3 top_hash (example_db 4) = Some 1%nat.
Proof. vm_compute. reflexivity. Qed.
