(* ===== verification/AccessList.v ===== *)
(** * Access list of a transaction (src/core/state/access_list.go)

    The addresses and storage slots a transaction has touched: a map from
    addresses to an index into a list of slot sets, [-1] for an address without
    slots.  The journal undoes additions in reverse order with [DeleteSlot] and
    [DeleteAddress].  The theorems relate the list to the set of addresses and
    the set of slots per address that it stands for, and show that deleting
    what was added last restores the list exactly. *)
From S2P Require Import Prelude.
Local Open Scope Z_scope.

(** ** Definitions *)


Record accessList := MkAccessList {
  addresses : gmap Address Z;
  slots : list (gset Hash)
}.

Definition ContainsAddress (al : accessList) (address : Address) : bool :=
  match addresses al !! address with Some _ => true | None => false end.

(** [None] is an index out of range. *)
Definition slots_at (al : accessList) (idx : Z) : option (gset Hash) :=
  if idx <? 0 then None else slots al !! Z.to_nat idx.

Definition Contains (al : accessList) (address : Address) (slot : Hash) : option (bool * bool) :=
  match addresses al !! address with
  | None => Some (false, false)
  | Some idx =>
      if idx =? -1 then Some (true, false)
      else slotmap ← slots_at al idx; Some (true, bool_decide (slot ∈ slotmap))
  end.

Definition newAccessList : accessList := MkAccessList ∅ [].

(** [Copy] makes the same map and the same list of sets. *)
Definition AccessList_Copy (a : accessList) : accessList :=
  MkAccessList (map_fold (λ k v m, <[k := v]> m) ∅ (addresses a))
    ((λ slotMap : gset Hash, set_fold (λ k s, {[k]} ∪ s) ∅ slotMap) <$> slots a).

Definition AddAddress (al : accessList) (address : Address) : bool * accessList :=
  match addresses al !! address with
  | Some _ => (false, al)
  | None => (true, MkAccessList (<[address := -1]> (addresses al)) (slots al))
  end.

Definition AddSlot (al : accessList) (address : Address) (slot : Hash)
    : option (bool * bool * accessList) :=
  let fresh addrPresent :=
    Some (negb addrPresent, true,
      MkAccessList (<[address := len (slots al)]> (addresses al)) (slots al ++ [{[slot]}])) in
  match addresses al !! address with
  | None => fresh false
  | Some idx =>
      if idx =? -1 then fresh true
      else
        slotmap ← slots_at al idx;
        if bool_decide (slot ∈ slotmap) then Some (false, false, al)
        else Some (false, true,
               MkAccessList (addresses al) (<[Z.to_nat idx := {[slot]} ∪ slotmap]> (slots al)))
  end.

Definition DeleteSlot (al : accessList) (address : Address) (slot : Hash) : option accessList :=
  match addresses al !! address with
  | None => None
  | Some idx =>
      slotmap ← slots_at al idx;
      let slotmap := slotmap ∖ {[slot]} in
      let slots' := <[Z.to_nat idx := slotmap]> (slots al) in
      if (size slotmap =? 0)%nat
      then Some (MkAccessList (<[address := -1]> (addresses al)) (take (Z.to_nat idx) slots'))
      else Some (MkAccessList (addresses al) slots')
  end.

Definition DeleteAddress (al : accessList) (address : Address) : accessList :=
  MkAccessList (delete address (addresses al)) (slots al).

(** ** Well-formedness and meaning *)

(** Indices are [-1] or positions of the list, no two addresses share one, and
    slot sets are not empty. *)
Record al_ok (al : accessList) : Prop := {
  al_index : ∀ a idx, addresses al !! a = Some idx → idx = -1 ∨ 0 ≤ idx < len (slots al);
  al_distinct : ∀ a b idx, addresses al !! a = Some idx → addresses al !! b = Some idx →
    idx ≠ -1 → a = b;
  al_nonempty : ∀ s, s ∈ slots al → s ≠ ∅
}.

(** The slots of an address, [None] if it is not in the list. *)
Definition al_view (al : accessList) (a : Address) : option (gset Hash) :=
  idx ← addresses al !! a;
  if idx =? -1 then Some ∅ else slots_at al idx.

(** ** Lemmas *)

Lemma slots_at_some al idx s :
  slots_at al idx = Some s ↔ 0 ≤ idx ∧ slots al !! Z.to_nat idx = Some s.
Proof. unfold slots_at. destruct (idx <? 0) eqn:E; bool_prop; split; try done; [lia|by intros [_ ?]]. Qed.

Lemma slots_at_app al s idx x :
  0 ≤ idx < len (slots al) → slots_at (MkAccessList x (slots al ++ [s])) idx = slots_at al idx.
Proof. intros H. unfold slots_at. zcmp. cbn. by rewrite lookup_app_l by lia. Qed.

Lemma slots_at_total al idx : 0 ≤ idx < len (slots al) → ∃ s, slots_at al idx = Some s ∧ s ∈ slots al.
Proof.
  intros H. destruct (lookup_lt_is_Some_2 (slots al) (Z.to_nat idx)) as [s Hs]; [lia|].
  exists s. split; [apply slots_at_some; split; [lia|done]|]. by eapply list_elem_of_lookup_2.
Qed.

Lemma newAccessList_ok : al_ok newAccessList.
Proof. split; intros *; cbn; rewrite ?lookup_empty; try done. by intros ?%elem_of_nil. Qed.

Lemma AddAddress_ok al a : al_ok al → al_ok (AddAddress al a).2.
Proof.
  intros [Hi Hd Hn]. unfold AddAddress. destruct (addresses al !! a) eqn:E; [done|].
  split; cbn; [| |done]; intros *; rewrite ?lookup_insert_Some; naive_solver.
Qed.

(** The three ways of [AddSlot]. *)
Inductive added (al : accessList) (a : Address) (slot : Hash) : bool → bool → accessList → Prop :=
| Added_fresh :
    addresses al !! a = None ∨ addresses al !! a = Some (-1) →
    added al a slot (bool_decide (addresses al !! a = None)) true
      (MkAccessList (<[a := len (slots al)]> (addresses al)) (slots al ++ [{[slot]}]))
| Added_slot idx s :
    addresses al !! a = Some idx → 0 ≤ idx → slots al !! Z.to_nat idx = Some s → slot ∉ s →
    added al a slot false true
      (MkAccessList (addresses al) (<[Z.to_nat idx := {[slot]} ∪ s]> (slots al)))
| Added_none idx s :
    addresses al !! a = Some idx → 0 ≤ idx → slots al !! Z.to_nat idx = Some s → slot ∈ s →
    added al a slot false false al.

Lemma AddSlot_added al a slot :
  al_ok al → ∃ ac sc al', AddSlot al a slot = Some (ac, sc, al') ∧ added al a slot ac sc al'.
Proof.
  intros [Hi _ _]. unfold AddSlot. destruct (addresses al !! a) as [idx|] eqn:E.
  - destruct (Hi a idx E) as [->|Hr]; cbn.
    + do 3 eexists. split; [done|]. pose proof (Added_fresh al a slot (or_intror E)) as H.
      by rewrite E in H.
    + destruct (slots_at_total al idx Hr) as (s & Hs & _). rewrite Hs. zcmp. cbn.
      apply slots_at_some in Hs as [H0 Hs].
      case_bool_decide; do 3 eexists; (split; [done|]); by econstructor.
  - do 3 eexists. split; [done|]. pose proof (Added_fresh al a slot (or_introl E)) as H.
    by rewrite E in H.
Qed.

Lemma added_ok al a slot ac sc al' : al_ok al → added al a slot ac sc al' → al_ok al'.
Proof.
  intros [Hi Hd Hn] Ha. destruct Ha as [Ha|idx s Ea H0 Hs Hn'|]; [..|by split].
  - split; cbn.
    + intros b idx. rewrite lookup_insert_Some, length_app. cbn.
      intros [[<- <-]|[Hne E]]; [right; lia|]. destruct (Hi b idx E); [by left|right; lia].
    + intros b c idx. rewrite !lookup_insert_Some.
      intros [[<- <-]|[Hb Eb]] [[<- E]|[Hc Ec]] Hne; try done; try (by eapply Hd).
      * destruct (Hi c _ Ec); lia.
      * subst idx. destruct (Hi b _ Eb); lia.
    + intros s. rewrite elem_of_app, list_elem_of_singleton. intros [H| ->]; [by apply Hn|set_solver].
  - split; cbn; [|done|].
    + intros b i. rewrite length_insert. apply Hi.
    + intros t [j Hj]%list_elem_of_lookup. rewrite list_lookup_insert_Some in Hj.
      destruct Hj as [(<- & <- & _)|[_ Hj]]; [set_solver|]. apply Hn. by eapply list_elem_of_lookup_2.
Qed.

(** Undoing an addition. *)
Definition undo_add (a : Address) (slot : Hash) (ac sc : bool) (al : accessList) : option accessList :=
  al ← (if sc then DeleteSlot al a slot else Some al);
  Some (if ac then DeleteAddress al a else al).

Lemma undo_added al a slot ac sc al' :
  al_ok al → added al a slot ac sc al' → undo_add a slot ac sc al' = Some al.
Proof.
  intros [Hi Hd Hn] Ha. unfold undo_add, DeleteSlot. destruct Ha as [Ha|idx s Ea H0 Hs Hn'|]; cbn; [..|done].
  - rewrite lookup_insert_eq. unfold slots_at. zcmp. cbn.
    rewrite Nat2Z.id, lookup_app_r, Nat.sub_diag by done. cbn.
    rewrite difference_diag_L, size_empty. cbn.
    rewrite insert_app_r_alt, take_app_length by done.
    rewrite insert_insert_eq. destruct al as [m sl]. cbn in *. f_equal.
    destruct Ha as [Ha|Ha]; rewrite Ha; cbn.
    + unfold DeleteAddress; cbn. f_equal. by apply delete_insert_id.
    + f_equal. by apply insert_id.
  - rewrite Ea. unfold slots_at. zcmp. cbn. apply lookup_lt_Some in Hs as Hlt.
    rewrite list_lookup_insert_eq by done. cbn.
    replace (({[slot]} ∪ s) ∖ {[slot]}) with s by set_solver.
    assert (s ≠ ∅) as Hne by (apply Hn; by eapply list_elem_of_lookup_2).
    destruct (size s) eqn:Es; [by apply size_empty_inv in Es; set_solver|]. cbn.
    rewrite list_insert_insert_eq, list_insert_id by done. by destruct al.
Qed.

Lemma al_view_none al a : al_ok al → al_view al a = None ↔ addresses al !! a = None.
Proof.
  intros [Hi _ _]. unfold al_view. destruct (addresses al !! a) as [idx|] eqn:E; cbn; [|done].
  destruct (Hi a idx E) as [->|Hr]; cbn; [done|]. zcmp.
  by destruct (slots_at_total al idx Hr) as (s & -> & _).
Qed.

Lemma added_view al a slot ac sc al' :
  al_ok al → added al a slot ac sc al' →
  ∀ b, al_view al' b = if bool_decide (b = a) then Some ({[slot]} ∪ default ∅ (al_view al a)) else al_view al b.
Proof.
  intros [Hi Hd Hn] Ha b. unfold al_view.
  destruct Ha as [Ha|idx s Ea H0 Hs Hn'|idx s Ea H0 Hs Hin]; cbn; case_bool_decide as Hb; try subst b.
  - rewrite lookup_insert_eq. cbn. zcmp.
    replace (slots_at _ _) with (Some ({[slot]} : gset Hash)).
    + f_equal. destruct Ha as [-> | ->]; cbn; set_solver.
    + symmetry. apply slots_at_some. split; [lia|]. cbn.
      by rewrite Nat2Z.id, lookup_app_r, Nat.sub_diag.
  - rewrite lookup_insert_ne by done. destruct (addresses al !! b) as [i|] eqn:Eb; [|done]. cbn.
    destruct (Hi b i Eb) as [->|Hr]; [done|]. zcmp. by apply slots_at_app.
  - apply lookup_lt_Some in Hs as Hlt. rewrite Ea. cbn. zcmp.
    replace (slots_at al idx) with (Some s) by (symmetry; by apply slots_at_some).
    cbn. apply slots_at_some. split; [done|]. cbn. by rewrite list_lookup_insert_eq.
  - destruct (addresses al !! b) as [i|] eqn:Eb; [|done]. cbn. destruct (i =? -1) eqn:Hi1; [done|]. bool_prop.
    unfold slots_at; cbn. destruct (i <? 0) eqn:Ei; [done|]. bool_prop.
    rewrite list_lookup_insert_ne; [done|]. intros E. apply Hb. apply (Hd b a i); [done| |done].
    rewrite Ea. f_equal. lia.
  - rewrite Ea. cbn. zcmp. replace (slots_at al idx) with (Some s) by (symmetry; by apply slots_at_some).
    cbn. f_equal. set_solver.
  - done.
Qed.

Lemma added_flags al a slot ac sc al' :
  al_ok al → added al a slot ac sc al' →
  (ac = true ↔ al_view al a = None) ∧ (sc = true ↔ slot ∉ default ∅ (al_view al a)).
Proof.
  intros Hok Ha. rewrite al_view_none by done. unfold al_view.
  destruct Ha as [Ha|idx s Ea H0 Hs Hn'|idx s Ea H0 Hs Hin].
  - rewrite bool_decide_eq_true. split; [done|]. destruct Ha as [-> | ->]; cbn; set_solver.
  - rewrite Ea. cbn. zcmp. replace (slots_at al idx) with (Some s) by (symmetry; by apply slots_at_some).
    done.
  - rewrite Ea. cbn. zcmp. replace (slots_at al idx) with (Some s) by (symmetry; by apply slots_at_some).
    cbn. split; [done|]. set_solver.
Qed.

Lemma Contains_view al a slot :
  al_ok al →
  Contains al a slot = Some (match al_view al a with
                             | None => (false, false)
                             | Some s => (true, bool_decide (slot ∈ s))
                             end).
Proof.
  intros [Hi _ _]. unfold Contains, al_view. destruct (addresses al !! a) as [idx|] eqn:E; cbn; [|done].
  destruct (Hi a idx E) as [->|Hr]; cbn; [by rewrite bool_decide_false by set_solver|]. zcmp.
  by destruct (slots_at_total al idx Hr) as (s & -> & _).
Qed.

(** ** Property *)

(** The access list stands for a set of addresses and a set of slots for
    each of them.  On a well-formed list [AddSlot] does not fail and adds the
    address and the slot to those sets and changes nothing else; its two
    results say exactly which of them was new; and [DeleteSlot] and
    [DeleteAddress] for what was new give back the very list from before. *)
Theorem AddSlot_spec (al : accessList) (a : Address) (slot : Hash) :
  al_ok al →
  ∃ ac sc al', AddSlot al a slot = Some (ac, sc, al') ∧ al_ok al'
    ∧ (∀ b, al_view al' b =
         if bool_decide (b = a) then Some ({[slot]} ∪ default ∅ (al_view al a)) else al_view al b)
    ∧ (ac = true ↔ al_view al a = None) ∧ (sc = true ↔ slot ∉ default ∅ (al_view al a))
    ∧ (∀ b slot', Contains al' b slot' =
         Some (match al_view al' b with
               | None => (false, false)
               | Some s => (true, bool_decide (slot' ∈ s))
               end))
    ∧ undo_add a slot ac sc al' = Some al.
Proof.
  intros Hok. destruct (AddSlot_added al a slot Hok) as (ac & sc & al' & E & Ha).
  pose proof (added_ok _ _ _ _ _ _ Hok Ha) as Hok'.
  destruct (added_flags _ _ _ _ _ _ Hok Ha) as [H1 H2].
  exists ac, sc, al'. split; [done|]. split; [done|].
  split; [by eapply added_view|]. split; [done|]. split; [done|].
  split; [intros b slot'; by apply Contains_view|by apply undo_added].
Qed.

Lemma AddSlot_spec_witness :
  let al := (AddAddress newAccessList [7]).2 in
  ∃ ac sc al', AddSlot al [7] [1; 2] = Some (ac, sc, al') ∧ al_ok al'
    ∧ (∀ b, al_view al' b =
         if bool_decide (b = [7]) then Some ({[ [1; 2] ]} ∪ default ∅ (al_view al [7])) else al_view al b)
    ∧ (ac = true ↔ al_view al [7] = None) ∧ (sc = true ↔ [1; 2] ∉ default ∅ (al_view al [7]))
    ∧ (∀ b slot', Contains al' b slot' =
         Some (match al_view al' b with
               | None => (false, false)
               | Some s => (true, bool_decide (slot' ∈ s))
               end))
    ∧ undo_add [7] [1; 2] ac sc al' = Some al.
Proof. intros al. apply (AddSlot_spec al [7] [1; 2]). apply AddAddress_ok, newAccessList_ok. Defined.
