(* ===== verification/StateDB.v ===== *)
(** * State database (src/core/state/statedb.go, state_object.go, journal.go)

    Accounts as live objects over a backing trie or snapshot, with caches for
    storage and code, a journal of reversible changes, and the revisions that
    [Snapshot] and [RevertToSnapshot] manage.  The model is explicit state
    passing: a method returns its result and the new state database, and a
    pointer to a live object is its address, its contents the entry of
    [stateObjects].  The trie, the contract code store and the snapshot layer
    are the Go interfaces [Trie], [Database] and [snapshot.Snapshot], here the
    class [Backend].  Time measurements and logging are left out. *)
From S2P Require Import Prelude RlpEncode RlpRaw RlpDecode AccessList.
Local Open Scope Z_scope.

(** ** The backing store *)

(** [snapshot.Account]: the slim form, where empty fields stand for the empty
    root and the empty code hash. *)
Record slimAccount := SlimAccount {
  sl_Nonce : Z; sl_Balance : Z; sl_Root : bytes; sl_CodeHash : bytes
}.

(** What the state database uses of [Trie], [Database] and
    [snapshot.Snapshot].  A missing key reads as the empty value;
    [emptyTrie h] is the trie that [OpenStorageTrie] opens for the zero root,
    which needs no database. *)
Class Backend := {
  Trie : Type;
  Snap : Type;
  db_error : Type;
  TryGet : Trie → bytes → result db_error bytes;
  TryUpdate : bytes → bytes → Trie → option db_error * Trie;
  TryDelete : bytes → Trie → option db_error * Trie;
  TrieHash : Trie → Hash * Trie;
  OpenStorageTrie : Hash → Hash → result db_error Trie;
  emptyTrie : Hash → Trie;
  ContractCode : Hash → Hash → result db_error bytes;
  snap_Account : Snap → Hash → result db_error (option slimAccount);
  snap_Storage : Snap → Hash → Hash → result db_error bytes;
  Keccak256 : bytes → Hash
}.

Section statedb.
Context `{Backend}.

(** The errors that are remembered for [Commit]. *)
Inductive state_error :=
| ErrDatabase (e : db_error)
| ErrRlp (e : rlp_error)
| ErrStorageTrie (e : db_error)
| ErrCode (codeHash : bytes) (e : db_error)
| ErrCodeSize (codeHash : bytes) (e : db_error)
| ErrGetObject (addr : Address) (e : db_error)
| ErrUpdateObject (addr : Address) (e : db_error)
| ErrDeleteObject (addr : Address) (e : db_error).

Definition emptyCodeHash : bytes := Keccak256 [].
Definition emptyStateRoot : Hash :=
  [0x56; 0xe8; 0x1f; 0x17; 0x1b; 0xcc; 0x55; 0xa6; 0xff; 0x83; 0x45; 0xe6; 0x92; 0xc0; 0xf8; 0x6e;
   0x5b; 0x48; 0xe0; 0x1b; 0x99; 0x6c; 0xad; 0xc0; 0x01; 0x62; 0x2f; 0xb5; 0xe3; 0x63; 0xb4; 0x21].
Definition ripemd : Address := replicate 19 0 ++ [3].

(** ** State objects *)

Abbreviation Storage := (gmap Hash Hash).

(** [CodeHash] is [None] for a nil slice; a nil balance is zero. *)
Record Account := MkAccount {
  Nonce : Z; Balance : Z; Root : Hash; CodeHash : option bytes
}.

Record stateObject := MkObject {
  address : Address;
  addrHash : Hash;
  data : Account;
  o_dbErr : option state_error;
  o_trie : option Trie;
  code : option bytes;
  originStorage : Storage;
  pendingStorage : Storage;
  dirtyStorage : Storage;
  fakeStorage : option Storage;
  dirtyCode : bool;
  suicided : bool;
  deleted : bool
}.

Definition set_address v (o : stateObject) : stateObject :=
  MkObject v (addrHash o) (data o) (o_dbErr o) (o_trie o) (code o) (originStorage o)
    (pendingStorage o) (dirtyStorage o) (fakeStorage o) (dirtyCode o) (suicided o) (deleted o).
Definition set_addrHash v (o : stateObject) : stateObject :=
  MkObject (address o) v (data o) (o_dbErr o) (o_trie o) (code o) (originStorage o)
    (pendingStorage o) (dirtyStorage o) (fakeStorage o) (dirtyCode o) (suicided o) (deleted o).
Definition set_data v (o : stateObject) : stateObject :=
  MkObject (address o) (addrHash o) v (o_dbErr o) (o_trie o) (code o) (originStorage o)
    (pendingStorage o) (dirtyStorage o) (fakeStorage o) (dirtyCode o) (suicided o) (deleted o).
Definition set_o_dbErr v (o : stateObject) : stateObject :=
  MkObject (address o) (addrHash o) (data o) v (o_trie o) (code o) (originStorage o)
    (pendingStorage o) (dirtyStorage o) (fakeStorage o) (dirtyCode o) (suicided o) (deleted o).
Definition set_o_trie v (o : stateObject) : stateObject :=
  MkObject (address o) (addrHash o) (data o) (o_dbErr o) v (code o) (originStorage o)
    (pendingStorage o) (dirtyStorage o) (fakeStorage o) (dirtyCode o) (suicided o) (deleted o).
Definition set_code v (o : stateObject) : stateObject :=
  MkObject (address o) (addrHash o) (data o) (o_dbErr o) (o_trie o) v (originStorage o)
    (pendingStorage o) (dirtyStorage o) (fakeStorage o) (dirtyCode o) (suicided o) (deleted o).
Definition set_originStorage v (o : stateObject) : stateObject :=
  MkObject (address o) (addrHash o) (data o) (o_dbErr o) (o_trie o) (code o) v (pendingStorage o)
    (dirtyStorage o) (fakeStorage o) (dirtyCode o) (suicided o) (deleted o).
Definition set_pendingStorage v (o : stateObject) : stateObject :=
  MkObject (address o) (addrHash o) (data o) (o_dbErr o) (o_trie o) (code o) (originStorage o) v
    (dirtyStorage o) (fakeStorage o) (dirtyCode o) (suicided o) (deleted o).
Definition set_dirtyStorage v (o : stateObject) : stateObject :=
  MkObject (address o) (addrHash o) (data o) (o_dbErr o) (o_trie o) (code o) (originStorage o)
    (pendingStorage o) v (fakeStorage o) (dirtyCode o) (suicided o) (deleted o).
Definition set_fakeStorage v (o : stateObject) : stateObject :=
  MkObject (address o) (addrHash o) (data o) (o_dbErr o) (o_trie o) (code o) (originStorage o)
    (pendingStorage o) (dirtyStorage o) v (dirtyCode o) (suicided o) (deleted o).
Definition set_dirtyCode v (o : stateObject) : stateObject :=
  MkObject (address o) (addrHash o) (data o) (o_dbErr o) (o_trie o) (code o) (originStorage o)
    (pendingStorage o) (dirtyStorage o) (fakeStorage o) v (suicided o) (deleted o).
Definition set_suicided v (o : stateObject) : stateObject :=
  MkObject (address o) (addrHash o) (data o) (o_dbErr o) (o_trie o) (code o) (originStorage o)
    (pendingStorage o) (dirtyStorage o) (fakeStorage o) (dirtyCode o) v (deleted o).
Definition set_deleted v (o : stateObject) : stateObject :=
  MkObject (address o) (addrHash o) (data o) (o_dbErr o) (o_trie o) (code o) (originStorage o)
    (pendingStorage o) (dirtyStorage o) (fakeStorage o) (dirtyCode o) (suicided o) v.

Definition set_Nonce v (a : Account) : Account := MkAccount v (Balance a) (Root a) (CodeHash a).
Definition set_Balance v (a : Account) : Account := MkAccount (Nonce a) v (Root a) (CodeHash a).
Definition set_Root v (a : Account) : Account := MkAccount (Nonce a) (Balance a) v (CodeHash a).
Definition set_CodeHash v (a : Account) : Account := MkAccount (Nonce a) (Balance a) (Root a) v.

(** [CodeHash()] as a byte slice. *)
Definition obj_CodeHash (o : stateObject) : bytes := default [] (CodeHash (data o)).

Definition empty (o : stateObject) : bool :=
  (Nonce (data o) =? 0) && (Balance (data o) =? 0) && bool_decide (obj_CodeHash o = emptyCodeHash).

Definition newObject (addr : Address) (d : Account) : stateObject :=
  let d := match CodeHash d with None => set_CodeHash (Some emptyCodeHash) d | Some _ => d end in
  let d := if bool_decide (Root d = zero_hash) then set_Root emptyStateRoot d else d in
  MkObject addr (Keccak256 addr) d None None None ∅ ∅ ∅ None false false false.

Definition obj_setError (e : state_error) (o : stateObject) : stateObject :=
  match o_dbErr o with None => set_o_dbErr (Some e) o | Some _ => o end.

Definition markSuicided (o : stateObject) : stateObject := set_suicided true o.
Definition setBalance (amount : Z) (o : stateObject) : stateObject :=
  set_data (set_Balance amount (data o)) o.
Definition setNonce (nonce : Z) (o : stateObject) : stateObject :=
  set_data (set_Nonce nonce (data o)) o.
Definition setCode (codeHash : Hash) (c : option bytes) (o : stateObject) : stateObject :=
  set_dirtyCode true (set_data (set_CodeHash (Some codeHash) (data o)) (set_code c o)).
Definition setState (key value : Hash) (o : stateObject) : stateObject :=
  set_dirtyStorage (<[key := value]> (dirtyStorage o)) o.

Definition getTrie (o : stateObject) : Trie * stateObject :=
  match o_trie o with
  | Some t => (t, o)
  | None =>
      match OpenStorageTrie (addrHash o) (Root (data o)) with
      | Ok t => (t, set_o_trie (Some t) o)
      | Err e =>
          let t := emptyTrie (addrHash o) in
          (t, obj_setError (ErrStorageTrie e) (set_o_trie (Some t) o))
      end
  end.

Definition Code (o : stateObject) : option bytes * stateObject :=
  match code o with
  | Some c => (Some c, o)
  | None =>
      if bool_decide (obj_CodeHash o = emptyCodeHash) then (None, o)
      else
        match ContractCode (addrHash o) (BytesToHash (obj_CodeHash o)) with
        | Ok c => (Some c, set_code (Some c) o)
        | Err e => (None, set_code None (obj_setError (ErrCode (obj_CodeHash o) e) o))
        end
  end.

(** The size cache of the code store holds the sizes of its codes. *)
Definition ContractCodeSize (addrHash codeHash : Hash) : result db_error Z :=
  match ContractCode addrHash codeHash with Ok c => Ok (len c) | Err e => Err e end.

Definition CodeSize (o : stateObject) : Z * stateObject :=
  match code o with
  | Some c => (len c, o)
  | None =>
      if bool_decide (obj_CodeHash o = emptyCodeHash) then (0, o)
      else
        match ContractCodeSize (addrHash o) (BytesToHash (obj_CodeHash o)) with
        | Ok size => (size, o)
        | Err e => (0, obj_setError (ErrCodeSize (obj_CodeHash o) e) o)
        end
  end.

(** ** Journal and state database *)

Inductive journalEntry :=
| createObjectChange (account : Address)
| resetObjectChange (prev : stateObject) (prevdestruct : bool)
| suicideChange (account : Address) (prev : bool) (prevbalance : Z)
| balanceChange (account : Address) (prev : Z)
| nonceChange (account : Address) (prev : Z)
| storageChange (account : Address) (key prevalue : Hash)
| codeChange (account : Address) (prevcode : option bytes) (prevhash : bytes)
| refundChange (prev : Z)
| addLogChange (txhash : Hash)
| addPreimageChange (hash : Hash)
| touchChange (account : Address)
| accessListAddAccountChange (addr : Address)
| accessListAddSlotChange (addr : Address) (slot : Hash).

Definition dirtied (e : journalEntry) : option Address :=
  match e with
  | createObjectChange a | suicideChange a _ _ | balanceChange a _ | nonceChange a _
  | storageChange a _ _ | codeChange a _ _ | touchChange a => Some a
  | _ => None
  end.

Record Log := MkLog {
  l_Address : Address; l_Topics : list Hash; l_Data : bytes; l_BlockNumber : Z;
  l_TxHash : Hash; l_TxIndex : Z; l_BlockHash : Hash; l_Index : Z; l_Removed : bool
}.

(** [entries] and [dirties] are the fields of the journal. *)
Record StateDB := MkStateDB {
  trie : Trie;
  snap : option Snap;
  snapDestructs : gset Hash;
  snapAccounts : gmap Hash bytes;
  snapStorage : gmap Hash (gmap Hash bytes);
  stateObjects : gmap Address stateObject;
  stateObjectsPending : gset Address;
  stateObjectsDirty : gset Address;
  dbErr : option state_error;
  refund : Z;
  thash : Hash;
  bhash : Hash;
  txIndex : Z;
  logs : gmap Hash (list Log);
  logSize : Z;
  preimages : gmap Hash bytes;
  accessList_ : accessList;
  entries : list journalEntry;
  dirties : gmap Address Z;
  validRevisions : list (Z * nat);
  nextRevisionId : Z
}.

Definition set_trie v (s : StateDB) : StateDB :=
  MkStateDB v (snap s) (snapDestructs s) (snapAccounts s) (snapStorage s) (stateObjects s)
    (stateObjectsPending s) (stateObjectsDirty s) (dbErr s) (refund s) (thash s) (bhash s)
    (txIndex s) (logs s) (logSize s) (preimages s) (accessList_ s) (entries s) (dirties s)
    (validRevisions s) (nextRevisionId s).
Definition set_snap v (s : StateDB) : StateDB :=
  MkStateDB (trie s) v (snapDestructs s) (snapAccounts s) (snapStorage s) (stateObjects s)
    (stateObjectsPending s) (stateObjectsDirty s) (dbErr s) (refund s) (thash s) (bhash s)
    (txIndex s) (logs s) (logSize s) (preimages s) (accessList_ s) (entries s) (dirties s)
    (validRevisions s) (nextRevisionId s).
Definition set_snapDestructs v (s : StateDB) : StateDB :=
  MkStateDB (trie s) (snap s) v (snapAccounts s) (snapStorage s) (stateObjects s)
    (stateObjectsPending s) (stateObjectsDirty s) (dbErr s) (refund s) (thash s) (bhash s)
    (txIndex s) (logs s) (logSize s) (preimages s) (accessList_ s) (entries s) (dirties s)
    (validRevisions s) (nextRevisionId s).
Definition set_snapAccounts v (s : StateDB) : StateDB :=
  MkStateDB (trie s) (snap s) (snapDestructs s) v (snapStorage s) (stateObjects s)
    (stateObjectsPending s) (stateObjectsDirty s) (dbErr s) (refund s) (thash s) (bhash s)
    (txIndex s) (logs s) (logSize s) (preimages s) (accessList_ s) (entries s) (dirties s)
    (validRevisions s) (nextRevisionId s).
Definition set_snapStorage v (s : StateDB) : StateDB :=
  MkStateDB (trie s) (snap s) (snapDestructs s) (snapAccounts s) v (stateObjects s)
    (stateObjectsPending s) (stateObjectsDirty s) (dbErr s) (refund s) (thash s) (bhash s)
    (txIndex s) (logs s) (logSize s) (preimages s) (accessList_ s) (entries s) (dirties s)
    (validRevisions s) (nextRevisionId s).
Definition set_stateObjects v (s : StateDB) : StateDB :=
  MkStateDB (trie s) (snap s) (snapDestructs s) (snapAccounts s) (snapStorage s) v
    (stateObjectsPending s) (stateObjectsDirty s) (dbErr s) (refund s) (thash s) (bhash s)
    (txIndex s) (logs s) (logSize s) (preimages s) (accessList_ s) (entries s) (dirties s)
    (validRevisions s) (nextRevisionId s).
Definition set_stateObjectsPending v (s : StateDB) : StateDB :=
  MkStateDB (trie s) (snap s) (snapDestructs s) (snapAccounts s) (snapStorage s) (stateObjects s)
    v (stateObjectsDirty s) (dbErr s) (refund s) (thash s) (bhash s) (txIndex s) (logs s) (logSize
    s) (preimages s) (accessList_ s) (entries s) (dirties s) (validRevisions s) (nextRevisionId
    s).
Definition set_stateObjectsDirty v (s : StateDB) : StateDB :=
  MkStateDB (trie s) (snap s) (snapDestructs s) (snapAccounts s) (snapStorage s) (stateObjects s)
    (stateObjectsPending s) v (dbErr s) (refund s) (thash s) (bhash s) (txIndex s) (logs s)
    (logSize s) (preimages s) (accessList_ s) (entries s) (dirties s) (validRevisions s)
    (nextRevisionId s).
Definition set_dbErr v (s : StateDB) : StateDB :=
  MkStateDB (trie s) (snap s) (snapDestructs s) (snapAccounts s) (snapStorage s) (stateObjects s)
    (stateObjectsPending s) (stateObjectsDirty s) v (refund s) (thash s) (bhash s) (txIndex s)
    (logs s) (logSize s) (preimages s) (accessList_ s) (entries s) (dirties s) (validRevisions s)
    (nextRevisionId s).
Definition set_refund v (s : StateDB) : StateDB :=
  MkStateDB (trie s) (snap s) (snapDestructs s) (snapAccounts s) (snapStorage s) (stateObjects s)
    (stateObjectsPending s) (stateObjectsDirty s) (dbErr s) v (thash s) (bhash s) (txIndex s)
    (logs s) (logSize s) (preimages s) (accessList_ s) (entries s) (dirties s) (validRevisions s)
    (nextRevisionId s).
Definition set_thash v (s : StateDB) : StateDB :=
  MkStateDB (trie s) (snap s) (snapDestructs s) (snapAccounts s) (snapStorage s) (stateObjects s)
    (stateObjectsPending s) (stateObjectsDirty s) (dbErr s) (refund s) v (bhash s) (txIndex s)
    (logs s) (logSize s) (preimages s) (accessList_ s) (entries s) (dirties s) (validRevisions s)
    (nextRevisionId s).
Definition set_bhash v (s : StateDB) : StateDB :=
  MkStateDB (trie s) (snap s) (snapDestructs s) (snapAccounts s) (snapStorage s) (stateObjects s)
    (stateObjectsPending s) (stateObjectsDirty s) (dbErr s) (refund s) (thash s) v (txIndex s)
    (logs s) (logSize s) (preimages s) (accessList_ s) (entries s) (dirties s) (validRevisions s)
    (nextRevisionId s).
Definition set_txIndex v (s : StateDB) : StateDB :=
  MkStateDB (trie s) (snap s) (snapDestructs s) (snapAccounts s) (snapStorage s) (stateObjects s)
    (stateObjectsPending s) (stateObjectsDirty s) (dbErr s) (refund s) (thash s) (bhash s) v (logs
    s) (logSize s) (preimages s) (accessList_ s) (entries s) (dirties s) (validRevisions s)
    (nextRevisionId s).
Definition set_logs v (s : StateDB) : StateDB :=
  MkStateDB (trie s) (snap s) (snapDestructs s) (snapAccounts s) (snapStorage s) (stateObjects s)
    (stateObjectsPending s) (stateObjectsDirty s) (dbErr s) (refund s) (thash s) (bhash s)
    (txIndex s) v (logSize s) (preimages s) (accessList_ s) (entries s) (dirties s)
    (validRevisions s) (nextRevisionId s).
Definition set_logSize v (s : StateDB) : StateDB :=
  MkStateDB (trie s) (snap s) (snapDestructs s) (snapAccounts s) (snapStorage s) (stateObjects s)
    (stateObjectsPending s) (stateObjectsDirty s) (dbErr s) (refund s) (thash s) (bhash s)
    (txIndex s) (logs s) v (preimages s) (accessList_ s) (entries s) (dirties s) (validRevisions
    s) (nextRevisionId s).
Definition set_preimages v (s : StateDB) : StateDB :=
  MkStateDB (trie s) (snap s) (snapDestructs s) (snapAccounts s) (snapStorage s) (stateObjects s)
    (stateObjectsPending s) (stateObjectsDirty s) (dbErr s) (refund s) (thash s) (bhash s)
    (txIndex s) (logs s) (logSize s) v (accessList_ s) (entries s) (dirties s) (validRevisions s)
    (nextRevisionId s).
Definition set_accessList_ v (s : StateDB) : StateDB :=
  MkStateDB (trie s) (snap s) (snapDestructs s) (snapAccounts s) (snapStorage s) (stateObjects s)
    (stateObjectsPending s) (stateObjectsDirty s) (dbErr s) (refund s) (thash s) (bhash s)
    (txIndex s) (logs s) (logSize s) (preimages s) v (entries s) (dirties s) (validRevisions s)
    (nextRevisionId s).
Definition set_entries v (s : StateDB) : StateDB :=
  MkStateDB (trie s) (snap s) (snapDestructs s) (snapAccounts s) (snapStorage s) (stateObjects s)
    (stateObjectsPending s) (stateObjectsDirty s) (dbErr s) (refund s) (thash s) (bhash s)
    (txIndex s) (logs s) (logSize s) (preimages s) (accessList_ s) v (dirties s) (validRevisions
    s) (nextRevisionId s).
Definition set_dirties v (s : StateDB) : StateDB :=
  MkStateDB (trie s) (snap s) (snapDestructs s) (snapAccounts s) (snapStorage s) (stateObjects s)
    (stateObjectsPending s) (stateObjectsDirty s) (dbErr s) (refund s) (thash s) (bhash s)
    (txIndex s) (logs s) (logSize s) (preimages s) (accessList_ s) (entries s) v (validRevisions
    s) (nextRevisionId s).
Definition set_validRevisions v (s : StateDB) : StateDB :=
  MkStateDB (trie s) (snap s) (snapDestructs s) (snapAccounts s) (snapStorage s) (stateObjects s)
    (stateObjectsPending s) (stateObjectsDirty s) (dbErr s) (refund s) (thash s) (bhash s)
    (txIndex s) (logs s) (logSize s) (preimages s) (accessList_ s) (entries s) (dirties s) v
    (nextRevisionId s).
Definition set_nextRevisionId v (s : StateDB) : StateDB :=
  MkStateDB (trie s) (snap s) (snapDestructs s) (snapAccounts s) (snapStorage s) (stateObjects s)
    (stateObjectsPending s) (stateObjectsDirty s) (dbErr s) (refund s) (thash s) (bhash s)
    (txIndex s) (logs s) (logSize s) (preimages s) (accessList_ s) (entries s) (dirties s)
    (validRevisions s) v.

Definition append (e : journalEntry) (s : StateDB) : StateDB :=
  let s := set_entries (entries s ++ [e]) s in
  match dirtied e with
  | Some a => set_dirties (<[a := default 0 (dirties s !! a) + 1]> (dirties s)) s
  | None => s
  end.

Definition dirty (a : Address) (s : StateDB) : StateDB :=
  set_dirties (<[a := default 0 (dirties s !! a) + 1]> (dirties s)) s.

Definition setError (e : state_error) (s : StateDB) : StateDB :=
  match dbErr s with None => set_dbErr (Some e) s | Some _ => s end.

Definition setStateObject (o : stateObject) (s : StateDB) : StateDB :=
  set_stateObjects (<[address o := o]> (stateObjects s)) s.

(** ** Accounts of the backing store *)

Definition Account_type : rtype :=
  TStruct [TUint 64; TBigInt; TByteArray 32; TByteSlice] None.

Definition Account_value (a : Account) : value :=
  VStruct [VUint (Nonce a); VBigIntPtr (Some (Balance a)); VByteArray false (Root a);
           VBytes (default [] (CodeHash a))].

(** [rlp.DecodeBytes(enc, data)]. *)
Definition decode_Account (enc : bytes) : option Account :=
  match DecodeBytes enc Account_type with
  | Ok (VStruct [VUint n; VBigIntPtr (Some b); VByteArray _ r; VBytes c]) =>
      Some (MkAccount n b r (Some c))
  | _ => None
  end.

Definition snap_to_Account (acc : slimAccount) : Account :=
  let root := BytesToHash (sl_Root acc) in
  MkAccount (sl_Nonce acc) (sl_Balance acc)
    (if bool_decide (root = zero_hash) then emptyStateRoot else root)
    (Some (if len (sl_CodeHash acc) =? 0 then emptyCodeHash else sl_CodeHash acc)).

(** The account data of an address that has no live object: the result and
    the error to remember. *)
Definition load (s : StateDB) (addr : Address) : option Account * option state_error :=
  let from_trie :=
    match TryGet (trie s) addr with
    | Err e => (None, Some (ErrGetObject addr e))
    | Ok enc => if len enc =? 0 then (None, None) else (decode_Account enc, None)
    end in
  match snap s with
  | None => from_trie
  | Some sn =>
      match snap_Account sn (Keccak256 addr) with
      | Ok None => (None, None)
      | Ok (Some acc) => (Some (snap_to_Account acc), None)
      | Err _ => from_trie
      end
  end.

Definition getDeletedStateObject (addr : Address) (s : StateDB) : option stateObject * StateDB :=
  match stateObjects s !! addr with
  | Some o => (Some o, s)
  | None =>
      match load s addr with
      | (Some d, _) => let o := newObject addr d in (Some o, setStateObject o s)
      | (None, Some e) => (None, setError e s)
      | (None, None) => (None, s)
      end
  end.

Definition getStateObject (addr : Address) (s : StateDB) : option stateObject * StateDB :=
  let '(o, s) := getDeletedStateObject addr s in
  (match o with Some o => if deleted o then None else Some o | None => None end, s).

Definition emptyAccount : Account := MkAccount 0 0 zero_hash None.

Definition createObject (addr : Address) (s : StateDB)
    : stateObject * option stateObject * StateDB :=
  let '(prev, s) := getDeletedStateObject addr s in
  let '(prevdestruct, s) :=
    match snap s, prev with
    | Some _, Some p =>
        if bool_decide (addrHash p ∈ snapDestructs s) then (true, s)
        else (false, set_snapDestructs ({[addrHash p]} ∪ snapDestructs s) s)
    | _, _ => (false, s)
    end in
  let newobj := setNonce 0 (newObject addr emptyAccount) in
  let s := match prev with
           | None => append (createObjectChange addr) s
           | Some p => append (resetObjectChange p prevdestruct) s
           end in
  let s := setStateObject newobj s in
  (newobj, match prev with Some p => if deleted p then None else Some p | None => None end, s).

Definition GetOrNewStateObject (addr : Address) (s : StateDB) : stateObject * StateDB :=
  match getStateObject addr s with
  | (Some o, s) => (o, s)
  | (None, s) => let '(o, _, s) := createObject addr s in (o, s)
  end.

Definition CreateAccount (addr : Address) (s : StateDB) : StateDB :=
  let '(newObj, prev, s) := createObject addr s in
  match prev with
  | Some p => setStateObject (setBalance (Balance (data p)) newObj) s
  | None => s
  end.

(** ** Storage *)

(** The value of a stored slot; an encoding that does not parse is
    remembered and reads as what could be parsed of it, nothing. *)
Definition decode_slot (enc : bytes) : Hash * option state_error :=
  if 0 <? len enc then
    match Split enc with
    | Ok (_, content, _) => (BytesToHash content, None)
    | Err e => (BytesToHash [], Some (ErrRlp e))
    end
  else (zero_hash, None).

Definition cache_slot (key : Hash) (enc : bytes) (o : stateObject) : Hash * stateObject :=
  let '(value, err) := decode_slot enc in
  let o := match err with Some e => obj_setError e o | None => o end in
  (value, set_originStorage (<[key := value]> (originStorage o)) o).

Definition obj_GetCommittedState (s : StateDB) (key : Hash) (o : stateObject) : Hash * stateObject :=
  match fakeStorage o with
  | Some fake => (default zero_hash (fake !! key), o)
  | None =>
      match pendingStorage o !! key, originStorage o !! key with
      | Some value, _ => (value, o)
      | None, Some value => (value, o)
      | None, None =>
          let from_trie :=
            let '(t, o) := getTrie o in
            match TryGet t key with
            | Err e => (zero_hash, obj_setError (ErrDatabase e) o)
            | Ok enc => cache_slot key enc o
            end in
          match snap s with
          | None => from_trie
          | Some sn =>
              if bool_decide (addrHash o ∈ snapDestructs s) then (zero_hash, o)
              else
                match snap_Storage sn (addrHash o) (Keccak256 key) with
                | Ok enc => cache_slot key enc o
                | Err _ => from_trie
                end
          end
      end
  end.

Definition obj_GetState (s : StateDB) (key : Hash) (o : stateObject) : Hash * stateObject :=
  match fakeStorage o with
  | Some fake => (default zero_hash (fake !! key), o)
  | None =>
      match dirtyStorage o !! key with
      | Some value => (value, o)
      | None => obj_GetCommittedState s key o
      end
  end.

(** ** Operations on a live object

    The object is the live one of its address; the result is the state
    database with the changed object in place. *)

Definition touch (o : stateObject) (s : StateDB) : StateDB :=
  let s := append (touchChange (address o)) s in
  if bool_decide (address o = ripemd) then dirty (address o) s else s.

Definition obj_SetBalance (amount : Z) (o : stateObject) (s : StateDB) : StateDB :=
  let s := append (balanceChange (address o) (Balance (data o))) s in
  setStateObject (setBalance amount o) s.

Definition obj_AddBalance (amount : Z) (o : stateObject) (s : StateDB) : StateDB :=
  if amount =? 0 then (if empty o then touch o s else s)
  else obj_SetBalance (Balance (data o) + amount) o s.

Definition obj_SubBalance (amount : Z) (o : stateObject) (s : StateDB) : StateDB :=
  if amount =? 0 then s else obj_SetBalance (Balance (data o) - amount) o s.

Definition obj_SetNonce (nonce : Z) (o : stateObject) (s : StateDB) : StateDB :=
  let s := append (nonceChange (address o) (Nonce (data o))) s in
  setStateObject (setNonce nonce o) s.

Definition obj_SetCode (codeHash : Hash) (c : option bytes) (o : stateObject) (s : StateDB) : StateDB :=
  let '(prevcode, o) := Code o in
  let s := append (codeChange (address o) prevcode (obj_CodeHash o)) s in
  setStateObject (setCode codeHash c o) s.

Definition obj_SetState (key value : Hash) (o : stateObject) (s : StateDB) : StateDB :=
  match fakeStorage o with
  | Some fake => setStateObject (set_fakeStorage (Some (<[key := value]> fake)) o) s
  | None =>
      let '(prev, o) := obj_GetState s key o in
      if bool_decide (prev = value) then setStateObject o s
      else
        let s := append (storageChange (address o) key prev) s in
        setStateObject (setState key value o) s
  end.

Definition obj_SetStorage (storage : Storage) (o : stateObject) (s : StateDB) : StateDB :=
  setStateObject (set_fakeStorage (Some (storage ∪ default ∅ (fakeStorage o))) o) s.

(** ** Getters *)

Definition Exist (addr : Address) (s : StateDB) : bool * StateDB :=
  let '(o, s) := getStateObject addr s in
  (match o with Some _ => true | None => false end, s).

Definition Empty (addr : Address) (s : StateDB) : bool * StateDB :=
  let '(o, s) := getStateObject addr s in
  (match o with None => true | Some o => empty o end, s).

Definition GetBalance (addr : Address) (s : StateDB) : Z * StateDB :=
  let '(o, s) := getStateObject addr s in
  (match o with Some o => Balance (data o) | None => 0 end, s).

Definition GetNonce (addr : Address) (s : StateDB) : Z * StateDB :=
  let '(o, s) := getStateObject addr s in
  (match o with Some o => Nonce (data o) | None => 0 end, s).

Definition GetCode (addr : Address) (s : StateDB) : option bytes * StateDB :=
  let '(o, s) := getStateObject addr s in
  match o with
  | Some o => let '(c, o) := Code o in (c, setStateObject o s)
  | None => (None, s)
  end.

Definition GetCodeSize (addr : Address) (s : StateDB) : Z * StateDB :=
  let '(o, s) := getStateObject addr s in
  match o with
  | Some o => let '(n, o) := CodeSize o in (n, setStateObject o s)
  | None => (0, s)
  end.

Definition GetCodeHash (addr : Address) (s : StateDB) : Hash * StateDB :=
  let '(o, s) := getStateObject addr s in
  (match o with Some o => BytesToHash (obj_CodeHash o) | None => zero_hash end, s).

Definition GetState (addr : Address) (key : Hash) (s : StateDB) : Hash * StateDB :=
  let '(o, s) := getStateObject addr s in
  match o with
  | Some o => let '(v, o) := obj_GetState s key o in (v, setStateObject o s)
  | None => (zero_hash, s)
  end.

Definition GetCommittedState (addr : Address) (key : Hash) (s : StateDB) : Hash * StateDB :=
  let '(o, s) := getStateObject addr s in
  match o with
  | Some o => let '(v, o) := obj_GetCommittedState s key o in (v, setStateObject o s)
  | None => (zero_hash, s)
  end.

Definition HasSuicided (addr : Address) (s : StateDB) : bool * StateDB :=
  let '(o, s) := getStateObject addr s in
  (match o with Some o => suicided o | None => false end, s).

Definition GetRefund (s : StateDB) : Z := refund s.
Definition GetLogs (hash : Hash) (s : StateDB) : list Log := default [] (logs s !! hash).
Definition AddressInAccessList (addr : Address) (s : StateDB) : bool :=
  ContainsAddress (accessList_ s) addr.
Definition SlotInAccessList (addr : Address) (slot : Hash) (s : StateDB) : option (bool * bool) :=
  Contains (accessList_ s) addr slot.

(** ** Setters *)

Definition on_object (f : stateObject → StateDB → StateDB) (addr : Address) (s : StateDB) : StateDB :=
  let '(o, s) := GetOrNewStateObject addr s in f o s.

Definition AddBalance (addr : Address) (amount : Z) : StateDB → StateDB :=
  on_object (obj_AddBalance amount) addr.
Definition SubBalance (addr : Address) (amount : Z) : StateDB → StateDB :=
  on_object (obj_SubBalance amount) addr.
Definition SetBalance (addr : Address) (amount : Z) : StateDB → StateDB :=
  on_object (obj_SetBalance amount) addr.
Definition SetNonce (addr : Address) (nonce : Z) : StateDB → StateDB :=
  on_object (obj_SetNonce nonce) addr.
Definition SetCode (addr : Address) (c : option bytes) : StateDB → StateDB :=
  on_object (obj_SetCode (Keccak256 (default [] c)) c) addr.
Definition SetState (addr : Address) (key value : Hash) : StateDB → StateDB :=
  on_object (obj_SetState key value) addr.
Definition SetStorage (addr : Address) (storage : Storage) : StateDB → StateDB :=
  on_object (obj_SetStorage storage) addr.

Definition Suicide (addr : Address) (s : StateDB) : bool * StateDB :=
  let '(o, s) := getStateObject addr s in
  match o with
  | None => (false, s)
  | Some o =>
      let s := append (suicideChange addr (suicided o) (Balance (data o))) s in
      (true, setStateObject (setBalance 0 (markSuicided o)) s)
  end.

Definition AddLog (log : Log) (s : StateDB) : StateDB :=
  let s := append (addLogChange (thash s)) s in
  let log := MkLog (l_Address log) (l_Topics log) (l_Data log) (l_BlockNumber log)
               (thash s) (u64 (txIndex s)) (bhash s) (logSize s) (l_Removed log) in
  let s := set_logs (<[thash s := default [] (logs s !! thash s) ++ [log]]> (logs s)) s in
  set_logSize (u64 (logSize s + 1)) s.

Definition AddPreimage (hash : Hash) (preimage : bytes) (s : StateDB) : StateDB :=
  match preimages s !! hash with
  | Some _ => s
  | None =>
      let s := append (addPreimageChange hash) s in
      set_preimages (<[hash := preimage]> (preimages s)) s
  end.

Definition AddRefund (smoke : Z) (s : StateDB) : StateDB :=
  let s := append (refundChange (refund s)) s in
  set_refund (u64 (refund s + smoke)) s.

(** [None] is the panic below zero. *)
Definition SubRefund (smoke : Z) (s : StateDB) : option StateDB :=
  let s := append (refundChange (refund s)) s in
  if refund s <? smoke then None else Some (set_refund (refund s - smoke) s).

Definition AddAddressToAccessList (addr : Address) (s : StateDB) : StateDB :=
  let '(added, al) := AddAddress (accessList_ s) addr in
  let s := set_accessList_ al s in
  if added then append (accessListAddAccountChange addr) s else s.

Definition AddSlotToAccessList (addr : Address) (slot : Hash) (s : StateDB) : option StateDB :=
  '(addrMod, slotMod, al) ← AddSlot (accessList_ s) addr slot;
  let s := set_accessList_ al s in
  let s := if (addrMod : bool) then append (accessListAddAccountChange addr) s else s in
  Some (if (slotMod : bool) then append (accessListAddSlotChange addr slot) s else s).

(** ** Reverting *)

(** [revert] of the entries; [None] is a nil object, a slice out of range or
    the panic of the access list. *)
Definition revert_object (a : Address) (f : stateObject → stateObject) (s : StateDB) : option StateDB :=
  match getStateObject a s with
  | (Some o, s) => Some (setStateObject (f o) s)
  | (None, _) => None
  end.

Definition revert_entry (ch : journalEntry) (s : StateDB) : option StateDB :=
  match ch with
  | createObjectChange a =>
      let s := set_stateObjects (delete a (stateObjects s)) s in
      Some (set_stateObjectsDirty (stateObjectsDirty s ∖ {[a]}) s)
  | resetObjectChange prev prevdestruct =>
      let s := setStateObject prev s in
      Some (if negb prevdestruct && match snap s with Some _ => true | None => false end
            then set_snapDestructs (snapDestructs s ∖ {[addrHash prev]}) s else s)
  | suicideChange a prev prevbalance =>
      match getStateObject a s with
      | (Some o, s) => Some (setStateObject (setBalance prevbalance (set_suicided prev o)) s)
      | (None, s) => Some s
      end
  | touchChange _ => Some s
  | balanceChange a prev => revert_object a (setBalance prev) s
  | nonceChange a prev => revert_object a (setNonce prev) s
  | codeChange a prevcode prevhash => revert_object a (setCode (BytesToHash prevhash) prevcode) s
  | storageChange a key prevalue => revert_object a (setState key prevalue) s
  | refundChange prev => Some (set_refund prev s)
  | addLogChange txhash =>
      let logs_ := default [] (logs s !! txhash) in
      s ← (if (length logs_ =? 1)%nat then Some (set_logs (delete txhash (logs s)) s)
           else if (length logs_ =? 0)%nat then None
           else Some (set_logs (<[txhash := take (length logs_ - 1) logs_]> (logs s)) s));
      Some (set_logSize (u64 (logSize s - 1)) s)
  | addPreimageChange hash => Some (set_preimages (delete hash (preimages s)) s)
  | accessListAddAccountChange a => Some (set_accessList_ (DeleteAddress (accessList_ s) a) s)
  | accessListAddSlotChange a slot =>
      al ← DeleteSlot (accessList_ s) a slot; Some (set_accessList_ al s)
  end.

(** Drop the dirty mark of a reverted entry. *)
Definition undirty (ch : journalEntry) (s : StateDB) : StateDB :=
  match dirtied ch with
  | None => s
  | Some a =>
      let n := default 0 (dirties s !! a) - 1 in
      set_dirties (if n =? 0 then delete a (dirties s) else <[a := n]> (dirties s)) s
  end.

(** The loop of [journal.revert], over the entries to undo, last one first. *)
Fixpoint revert_loop (es : list journalEntry) (s : StateDB) : option StateDB :=
  match es with
  | [] => Some s
  | e :: es => s ← revert_entry e s; revert_loop es (undirty e s)
  end.

Definition journal_revert (snapshot : nat) (s : StateDB) : option StateDB :=
  s ← revert_loop (rev (drop snapshot (entries s))) s;
  Some (set_entries (take snapshot (entries s)) s).

Definition Snapshot (s : StateDB) : Z * StateDB :=
  let id := nextRevisionId s in
  (id, set_validRevisions (validRevisions s ++ [(id, length (entries s))])
         (set_nextRevisionId (id + 1) s)).

(** [sort.Search]: binary search for the first index with [f]. *)
Fixpoint sort_Search_loop (fuel : nat) (i j : nat) (f : nat → bool) : nat :=
  match fuel with
  | O => i
  | S fuel =>
      if (i <? j)%nat then
        let h := ((i + j) / 2)%nat in
        if negb (f h) then sort_Search_loop fuel (h + 1) j f else sort_Search_loop fuel i h f
      else i
  end.
Definition sort_Search (n : nat) (f : nat → bool) : nat := sort_Search_loop n 0 n f.

(** [None] is the panic for an unknown revision. *)
Definition RevertToSnapshot (revid : Z) (s : StateDB) : option StateDB :=
  let idx := sort_Search (length (validRevisions s))
    (λ i, match validRevisions s !! i with Some (id, _) => revid <=? id | None => true end) in
  '(id, snapshot) ← validRevisions s !! idx;
  if negb (id =? revid) then None
  else
    s ← journal_revert snapshot s;
    Some (set_validRevisions (take idx (validRevisions s)) s).

Definition Prepare (th bh : Hash) (ti : Z) (s : StateDB) : StateDB :=
  set_accessList_ newAccessList (set_txIndex ti (set_bhash bh (set_thash th s))).

(** [New], after the trie has been opened and the snapshot looked up. *)
Definition New (tr : Trie) (sn : option Snap) : StateDB :=
  MkStateDB tr sn ∅ ∅ ∅ ∅ ∅ ∅ None 0 zero_hash zero_hash 0 ∅ 0 ∅ newAccessList [] ∅ [] 0.
End statedb.
