(* ===== verification/StateRevert.v ===== *)
(** * Snapshots of the state database (statedb.go, journal.go)

    [RevertToSnapshot] gives back the state of the matching [Snapshot].  Two
    states are the same to their users ([state_eq]) when every getter returns
    the same, whatever their caches hold and whichever objects are live; the
    proof shows that undoing the entries of an operation is an inverse of the
    operation up to this equivalence, and that undoing respects it. *)
From S2P Require Import Prelude RlpEncode RlpRaw RlpDecode AccessList StateDB.
Local Open Scope Z_scope.

(** Rewrite both sides of an equation between answers. *)
Ltac answers L := etransitivity; [exact (L _ _)|]; etransitivity; [|symmetry; exact (L _ _)].

Section revert.
Context `{Backend}.
Hypothesis Keccak256_length : ∀ b, length (Keccak256 b) = 32%nat.
(** Addresses do not collide. *)
Hypothesis Keccak256_address : ∀ a b,
  length a = 20%nat → length b = 20%nat → Keccak256 a = Keccak256 b → a = b.

Implicit Types (s : StateDB) (o : stateObject).

Definition is_address (a : Address) : Prop := length a = 20%nat.

(** ** Observations *)

(** The object of an address, live or as it would be loaded. *)
Definition view s (a : Address) : option stateObject := (getDeletedStateObject a s).1.

Definition committed s o (key : Hash) : Hash := (obj_GetCommittedState s key o).1.
Definition slot s o (key : Hash) : Hash := (obj_GetState s key o).1.
Definition code_of o : option bytes := (Code o).1.
Definition code_size o : Z := (CodeSize o).1.

Record obj_eq s o1 o2 : Prop := {
  oe_address : address o1 = address o2;
  oe_addrHash : addrHash o1 = addrHash o2;
  oe_data : data o1 = data o2;
  oe_pending : pendingStorage o1 = pendingStorage o2;
  oe_fake : fakeStorage o1 = fakeStorage o2;
  oe_suicided : suicided o1 = suicided o2;
  oe_deleted : deleted o1 = deleted o2;
  oe_code : code_of o1 = code_of o2;
  oe_code_size : code_size o1 = code_size o2;
  oe_committed : ∀ key, committed s o1 key = committed s o2 key;
  oe_slot : ∀ key, slot s o1 key = slot s o2 key
}.

Record state_eq s1 s2 : Prop := {
  se_trie : trie s1 = trie s2;
  se_snap : snap s1 = snap s2;
  se_destructs : snapDestructs s1 = snapDestructs s2;
  se_accounts : snapAccounts s1 = snapAccounts s2;
  se_storage : snapStorage s1 = snapStorage s2;
  se_pending : stateObjectsPending s1 = stateObjectsPending s2;
  se_dirty : stateObjectsDirty s1 = stateObjectsDirty s2;
  se_refund : refund s1 = refund s2;
  se_thash : thash s1 = thash s2;
  se_bhash : bhash s1 = bhash s2;
  se_txIndex : txIndex s1 = txIndex s2;
  se_logs : logs s1 = logs s2;
  se_logSize : logSize s1 = logSize s2;
  se_preimages : preimages s1 = preimages s2;
  se_accessList : accessList_ s1 = accessList_ s2;
  se_view : ∀ a, is_address a → option_Forall2 (obj_eq s1) (view s1 a) (view s2 a)
}.

(** ** Well-formed states *)

Record obj_wf (a : Address) o : Prop := {
  ow_address : address o = a;
  ow_addrHash : addrHash o = Keccak256 a;
  ow_fake : fakeStorage o = None;
  ow_codehash : ∃ h, CodeHash (data o) = Some h ∧ length h = 32%nat
}.

(** The accounts of the backing store have 32-byte code hashes. *)
Definition accounts_wf s : Prop :=
  ∀ a d e, load s a = (Some d, e) → ∃ h, CodeHash d = Some h ∧ length h = 32%nat.

Record objs_wf s : Prop := {
  cw_objects : ∀ a o, stateObjects s !! a = Some o → is_address a ∧ obj_wf a o;
  cw_accounts : accounts_wf s;
  cw_pending : stateObjectsPending s ⊆ dom (stateObjects s);
  cw_dirty : stateObjectsDirty s ⊆ dom (stateObjects s)
}.

Record rest_wf s : Prop := {
  cw_accessList : al_ok (accessList_ s);
  cw_refund : is_u64 (refund s);
  cw_logSize : is_u64 (logSize s);
  cw_logs : ∀ h, logs s !! h ≠ Some []
}.

(** What the journal entries of the current transaction rely on. *)
Definition entry_wf s (e : journalEntry) : Prop :=
  match e with
  | createObjectChange a => a ∉ stateObjectsPending s ∧ a ∉ stateObjectsDirty s
  | resetObjectChange prev _ => is_address (address prev) ∧ obj_wf (address prev) prev
  | balanceChange a _ | nonceChange a _ | suicideChange a _ _ => is_address a
  | codeChange a _ h => is_address a ∧ length h = 32%nat
  | storageChange a _ _ => is_address a
  | refundChange prev => is_u64 prev
  | _ => True
  end.

(** How often the entries dirty an address. *)
Definition dirty_count (a : Address) (es : list journalEntry) : Z :=
  len (filter (λ e, dirtied e = Some a) es).

(** The dirty counters count the entries; the one of [ripemd] may also count
    touches that have been reverted. *)
Definition dirties_ok (es : list journalEntry) (d : gmap Address Z) (x : Z) : Prop :=
  0 ≤ x ∧ ∀ a, d !! a = (let n := dirty_count a es + (if bool_decide (a = ripemd) then x else 0) in
                         if n =? 0 then None else Some n).

(** ** Lemmas: objects *)

Definition trie_of o : Trie := (getTrie o).1.

Lemma trie_of_unfold o :
  trie_of o =
    match o_trie o with
    | Some t => t
    | None => match OpenStorageTrie (addrHash o) (Root (data o)) with
              | Ok t => t
              | Err _ => emptyTrie (addrHash o)
              end
    end.
Proof. unfold trie_of, getTrie. by repeat case_match. Qed.

(** The slot without the caches of the object. *)
Definition stored_slot s o (key : Hash) : Hash :=
  let from_trie :=
    match TryGet (trie_of o) key with Err _ => zero_hash | Ok enc => (decode_slot enc).1 end in
  match snap s with
  | None => from_trie
  | Some sn =>
      if bool_decide (addrHash o ∈ snapDestructs s) then zero_hash
      else match snap_Storage sn (addrHash o) (Keccak256 key) with
           | Ok enc => (decode_slot enc).1
           | Err _ => from_trie
           end
  end.

Lemma cache_slot_value key enc o : (cache_slot key enc o).1 = (decode_slot enc).1.
Proof. unfold cache_slot. by destruct (decode_slot enc) as [v [e|]]. Qed.

Lemma committed_unfold s o key :
  committed s o key =
    match fakeStorage o with
    | Some fake => default zero_hash (fake !! key)
    | None =>
        match pendingStorage o !! key, originStorage o !! key with
        | Some value, _ | None, Some value => value
        | None, None => stored_slot s o key
        end
    end.
Proof.
  unfold committed, obj_GetCommittedState, stored_slot, trie_of.
  destruct (fakeStorage o); [done|]. destruct (pendingStorage o !! key); [done|].
  destruct (originStorage o !! key); [done|].
  destruct (getTrie o) as [t o'] eqn:E. cbn [fst].
  repeat case_match; cbn [fst]; rewrite ?cache_slot_value; congruence.
Qed.

Lemma slot_unfold s o key :
  slot s o key =
    match fakeStorage o with
    | Some fake => default zero_hash (fake !! key)
    | None => match dirtyStorage o !! key with Some value => value | None => committed s o key end
    end.
Proof. unfold slot, obj_GetState, committed. by repeat case_match. Qed.

Lemma code_of_unfold o :
  code_of o =
    match code o with
    | Some c => Some c
    | None =>
        if bool_decide (obj_CodeHash o = emptyCodeHash) then None
        else match ContractCode (addrHash o) (BytesToHash (obj_CodeHash o)) with
             | Ok c => Some c
             | Err _ => None
             end
    end.
Proof. unfold code_of, Code. by repeat case_match. Qed.

Lemma code_of_ext o o' :
  code o' = code o → CodeHash (data o') = CodeHash (data o) → addrHash o' = addrHash o →
  code_of o' = code_of o.
Proof. intros E1 E2 E3. rewrite !code_of_unfold. unfold obj_CodeHash. by rewrite E1, E2, E3. Qed.

Lemma trie_of_ext o o' :
  o_trie o' = o_trie o → Root (data o') = Root (data o) → addrHash o' = addrHash o →
  trie_of o' = trie_of o.
Proof. intros E1 E2 E3. rewrite !trie_of_unfold. by rewrite E1, E2, E3. Qed.

Lemma code_size_of o : code_size o = match code_of o with Some c => len c | None => 0 end.
Proof.
  rewrite code_of_unfold. unfold code_size, CodeSize, ContractCodeSize. by repeat (case_match; simplify_eq/=).
Qed.

(** Objects that only differ in what they have cached. *)
Record cached s o o' : Prop := {
  ca_address : address o' = address o;
  ca_addrHash : addrHash o' = addrHash o;
  ca_data : data o' = data o;
  ca_pending : pendingStorage o' = pendingStorage o;
  ca_dirty : dirtyStorage o' = dirtyStorage o;
  ca_fake : fakeStorage o' = fakeStorage o;
  ca_suicided : suicided o' = suicided o;
  ca_deleted : deleted o' = deleted o;
  ca_trie : trie_of o' = trie_of o;
  ca_code : code_of o' = code_of o;
  ca_origin : ∀ key, originStorage o' !! key = originStorage o !! key
    ∨ originStorage o !! key = None ∧ originStorage o' !! key = Some (stored_slot s o key)
}.

Lemma cached_committed s o o' key : cached s o o' → committed s o' key = committed s o key.
Proof.
  intros C. rewrite !committed_unfold, (ca_fake _ _ _ C), (ca_pending _ _ _ C).
  destruct (fakeStorage o); [done|]. destruct (pendingStorage o !! key); [done|].
  assert (stored_slot s o' key = stored_slot s o key) as Hs.
  { unfold stored_slot. by rewrite (ca_trie _ _ _ C), (ca_addrHash _ _ _ C). }
  rewrite Hs. destruct (ca_origin _ _ _ C key) as [->|[-> ->]]; done.
Qed.

Lemma cached_obj_eq s o o' : cached s o o' → obj_eq s o' o.
Proof.
  intros C. pose proof C as C'. destruct C'. split; try done.
  - by rewrite !code_size_of, ca_code0.
  - intros key. by apply cached_committed.
  - intros key. by rewrite !slot_unfold, ca_fake0, ca_dirty0, (cached_committed s o o').
Qed.

Lemma obj_setError_same e o :
  obj_setError e o = o ∨ obj_setError e o = set_o_dbErr (Some e) o.
Proof. unfold obj_setError. destruct (o_dbErr o); auto. Qed.

Lemma cached_refl s o : cached s o o.
Proof. split; auto. Qed.

Lemma cached_error s o o' e : cached s o o' → cached s o (obj_setError e o').
Proof.
  intros C. destruct (obj_setError_same e o') as [-> | ->]; [done|]. destruct C. split; try done.
  - rewrite <- ca_trie0. by apply trie_of_ext.
  - rewrite <- ca_code0. by apply code_of_ext.
Qed.

Lemma cached_getTrie s o : cached s o (getTrie o).2.
Proof.
  unfold getTrie. destruct (o_trie o) eqn:Et; [apply cached_refl|].
  assert (∀ t, (getTrie o).1 = t → cached s o (set_o_trie (Some t) o)) as Hc.
  { intros t Ht. split; auto. by apply code_of_ext. }
  unfold getTrie in Hc. rewrite Et in Hc.
  destruct (OpenStorageTrie _ _); cbn in *; [by apply Hc|]. by apply cached_error, Hc.
Qed.

Lemma cached_slot s o o' key enc :
  cached s o o' → originStorage o !! key = None → stored_slot s o key = (decode_slot enc).1 →
  cached s o (cache_slot key enc o').2.
Proof.
  intros C Hn Hs. unfold cache_slot. destruct (decode_slot enc) as [v err]. cbn in Hs.
  assert (cached s o (match err with Some e => obj_setError e o' | None => o' end)) as C'
    by (destruct err; [by apply cached_error|done]).
  destruct C'. split; try done; [rewrite <- ca_trie0; by apply trie_of_ext
    |rewrite <- ca_code0; by apply code_of_ext|]. intros k. cbn.
  destruct (decide (k = key)) as [->|Hne]; [right; by rewrite lookup_insert_eq, Hs|].
  rewrite lookup_insert_ne by done. apply ca_origin0.
Qed.

Lemma cached_committed_step s o key : cached s o (obj_GetCommittedState s key o).2.
Proof.
  unfold obj_GetCommittedState. destruct (fakeStorage o) eqn:Ef; [apply cached_refl|].
  destruct (pendingStorage o !! key) eqn:Ep; [apply cached_refl|].
  destruct (originStorage o !! key) eqn:Eo; [apply cached_refl|].
  pose proof (cached_getTrie s o) as Ct. pose proof (eq_refl (stored_slot s o key)) as Hs.
  unfold stored_slot at 2, trie_of in Hs. destruct (getTrie o) as [t o'] eqn:Et. cbn [fst snd] in *.
  revert Hs. repeat case_match; cbn [snd]; intros Hs; simplify_eq;
    try apply cached_refl; try (by apply cached_error);
    by (apply cached_slot; [done || apply cached_refl|..]).
Qed.

Lemma cached_state_step s o key : cached s o (obj_GetState s key o).2.
Proof.
  unfold obj_GetState. repeat case_match; try apply cached_refl. apply cached_committed_step.
Qed.

Lemma cached_set_code s o c : code_of o = Some c → code o = None → cached s o (set_code (Some c) o).
Proof. intros Hc Hn. split; auto. by apply trie_of_ext. Qed.

Lemma cached_Code s o : cached s o (Code o).2.
Proof.
  pose proof (code_of_unfold o) as Hc. unfold Code in *. destruct (code o) eqn:E; [apply cached_refl|].
  case_bool_decide; [apply cached_refl|]. destruct (ContractCode _ _).
  - by apply cached_set_code.
  - cbn. replace (set_code None _) with (obj_setError (ErrCode (obj_CodeHash o) e) o).
    + apply cached_error, cached_refl.
    + unfold obj_setError. destruct (o_dbErr o), o; cbn in *; by subst.
Qed.

Lemma cached_CodeSize s o : cached s o (CodeSize o).2.
Proof. unfold CodeSize. repeat case_match; try apply cached_refl. apply cached_error, cached_refl. Qed.

(** ** Lemmas: equivalence of objects *)

Lemma obj_eq_refl s o : obj_eq s o o.
Proof. by split. Qed.

Lemma obj_eq_sym s o1 o2 : obj_eq s o1 o2 → obj_eq s o2 o1.
Proof. intros []. by split. Qed.

Lemma obj_eq_trans s o1 o2 o3 : obj_eq s o1 o2 → obj_eq s o2 o3 → obj_eq s o1 o3.
Proof. intros [] []. split; intros; etransitivity; eauto. Qed.

(** The objects see the snapshot layer through these two. *)
Definition same_env s1 s2 (h : Hash) : Prop :=
  snap s1 = snap s2 ∧ (h ∈ snapDestructs s1 ↔ h ∈ snapDestructs s2).

Lemma stored_slot_env s1 s2 o key : same_env s1 s2 (addrHash o) → stored_slot s1 o key = stored_slot s2 o key.
Proof. intros [E1 E2]. unfold stored_slot. by rewrite E1, (bool_decide_ext _ _ E2). Qed.

Lemma committed_env s1 s2 o key : same_env s1 s2 (addrHash o) → committed s1 o key = committed s2 o key.
Proof. intros E. by rewrite !committed_unfold, (stored_slot_env s1 s2) by done. Qed.

Lemma slot_env s1 s2 o key : same_env s1 s2 (addrHash o) → slot s1 o key = slot s2 o key.
Proof. intros E. by rewrite !slot_unfold, (committed_env s1 s2) by done. Qed.

Lemma obj_eq_env s1 s2 o1 o2 : same_env s1 s2 (addrHash o1) → obj_eq s1 o1 o2 → obj_eq s2 o1 o2.
Proof.
  intros E O. pose proof O as O'. destruct O'. split; try done; intros key.
  - rewrite <- !(committed_env s1 s2) by (done || congruence). done.
  - rewrite <- !(slot_env s1 s2) by (done || congruence). done.
Qed.

(** The storage of an object depends on these fields. *)
Lemma committed_ext s o o' key :
  fakeStorage o' = fakeStorage o → pendingStorage o' = pendingStorage o →
  originStorage o' = originStorage o → o_trie o' = o_trie o → Root (data o') = Root (data o) →
  addrHash o' = addrHash o → committed s o' key = committed s o key.
Proof.
  intros E1 E2 E3 E4 E5 E6. rewrite !committed_unfold, E1, E2, E3. unfold stored_slot.
  by rewrite (trie_of_ext o o'), E6 by done.
Qed.

Lemma slot_ext s o o' key :
  dirtyStorage o' = dirtyStorage o →
  fakeStorage o' = fakeStorage o → pendingStorage o' = pendingStorage o →
  originStorage o' = originStorage o → o_trie o' = o_trie o → Root (data o') = Root (data o) →
  addrHash o' = addrHash o → slot s o' key = slot s o key.
Proof. intros E0 E1 E2 E3 E4 E5 E6. by rewrite !slot_unfold, E0, E1, (committed_ext s o o'). Qed.

(** Changes that leave storage and code alone. *)
Lemma obj_eq_update s (f : stateObject → stateObject) o1 o2 :
  (∀ o, address (f o) = address o ∧ addrHash (f o) = addrHash o ∧ o_trie (f o) = o_trie o
     ∧ code (f o) = code o ∧ originStorage (f o) = originStorage o
     ∧ pendingStorage (f o) = pendingStorage o ∧ dirtyStorage (f o) = dirtyStorage o
     ∧ fakeStorage (f o) = fakeStorage o ∧ Root (data (f o)) = Root (data o)
     ∧ CodeHash (data (f o)) = CodeHash (data o)) →
  (data o1 = data o2 → data (f o1) = data (f o2)) →
  (suicided o1 = suicided o2 → suicided (f o1) = suicided (f o2)) →
  (deleted o1 = deleted o2 → deleted (f o1) = deleted (f o2)) →
  obj_eq s o1 o2 → obj_eq s (f o1) (f o2).
Proof.
  intros Hf Hd Hs Hdel O. destruct (Hf o1) as (A1 & B1 & C1 & D1 & E1 & F1 & G1 & H1 & I1 & J1).
  destruct (Hf o2) as (A2 & B2 & C2 & D2 & E2 & F2 & G2 & H2 & I2 & J2). destruct O.
  assert (code_of (f o1) = code_of (f o2)) as Hc.
  { by rewrite (code_of_ext o1 (f o1)), (code_of_ext o2 (f o2)). }
  split; try congruence; try (by auto); try (by rewrite !code_size_of, Hc).
  - intros key. by rewrite (committed_ext s o1 (f o1)), (committed_ext s o2 (f o2)).
  - intros key. by rewrite (slot_ext s o1 (f o1)), (slot_ext s o2 (f o2)).
Qed.

Lemma setBalance_eq s v o1 o2 : obj_eq s o1 o2 → obj_eq s (setBalance v o1) (setBalance v o2).
Proof. apply obj_eq_update; [intros o; by repeat split|cbn; congruence|done|done]. Qed.

Lemma setNonce_eq s v o1 o2 : obj_eq s o1 o2 → obj_eq s (setNonce v o1) (setNonce v o2).
Proof. apply obj_eq_update; [intros o; by repeat split|cbn; congruence|done|done]. Qed.

Lemma set_suicided_eq s v o1 o2 : obj_eq s o1 o2 → obj_eq s (set_suicided v o1) (set_suicided v o2).
Proof. apply obj_eq_update; [intros o; by repeat split|done..]. Qed.

Lemma setCode_eq s h c o1 o2 : obj_eq s o1 o2 → obj_eq s (setCode h c o1) (setCode h c o2).
Proof.
  intros []. assert (code_of (setCode h c o1) = code_of (setCode h c o2)) as Hc.
  { rewrite !code_of_unfold. unfold obj_CodeHash, setCode. cbn. by rewrite oe_addrHash0. }
  split; try done; cbn; try congruence; try (by rewrite !code_size_of, Hc).
  - intros key. by rewrite (committed_ext s o1 (setCode h c o1)), (committed_ext s o2 (setCode h c o2)).
  - intros key. by rewrite (slot_ext s o1 (setCode h c o1)), (slot_ext s o2 (setCode h c o2)).
Qed.

Lemma setState_slot s key v o k :
  fakeStorage o = None →
  slot s (setState key v o) k = if bool_decide (k = key) then v else slot s o k.
Proof.
  intros Hf. rewrite !slot_unfold. cbn. rewrite Hf. case_bool_decide as E.
  - subst k. by rewrite lookup_insert_eq.
  - rewrite lookup_insert_ne by done. by rewrite (committed_ext s o).
Qed.

Lemma setState_eq s key v o1 o2 :
  fakeStorage o1 = None → obj_eq s o1 o2 → obj_eq s (setState key v o1) (setState key v o2).
Proof.
  intros Hf []. assert (code_of (setState key v o1) = code_of (setState key v o2)) as Hc.
  { by rewrite (code_of_ext o1 (setState key v o1)), (code_of_ext o2 (setState key v o2)). }
  split; try done; try (by rewrite !code_size_of, Hc).
  - intros k. by rewrite (committed_ext s o1 (setState key v o1)), (committed_ext s o2 (setState key v o2)).
  - intros k. rewrite !setState_slot by congruence. by case_bool_decide.
Qed.

(** ** Lemmas: equivalence of states *)

Lemma load_ext s1 s2 a : trie s1 = trie s2 → snap s1 = snap s2 → load s1 a = load s2 a.
Proof. intros E1 E2. unfold load. by rewrite E1, E2. Qed.

Lemma view_unfold s a :
  view s a = match stateObjects s !! a with Some o => Some o | None => newObject a <$> (load s a).1 end.
Proof.
  unfold view, getDeletedStateObject. destruct (stateObjects s !! a); [done|].
  by destruct (load s a) as [[d|] [e|]].
Qed.

Lemma view_ext s1 s2 a :
  stateObjects s1 !! a = stateObjects s2 !! a → trie s1 = trie s2 → snap s1 = snap s2 →
  view s1 a = view s2 a.
Proof. intros E1 E2 E3. rewrite !view_unfold, E1. by rewrite (load_ext s1 s2). Qed.

Lemma same_env_eq s1 s2 h : snap s1 = snap s2 → snapDestructs s1 = snapDestructs s2 → same_env s1 s2 h.
Proof. intros E1 E2. split; [done|by rewrite E2]. Qed.

Lemma option_obj_eq_env s1 s2 x y :
  (∀ o, x = Some o → same_env s1 s2 (addrHash o)) →
  option_Forall2 (obj_eq s1) x y → option_Forall2 (obj_eq s2) x y.
Proof. intros E O. destruct O; constructor. eapply obj_eq_env; [|done]. by apply E. Qed.

Lemma option_obj_eq_refl s x : option_Forall2 (obj_eq s) x x.
Proof. destruct x; constructor. apply obj_eq_refl. Qed.

Lemma option_obj_eq_trans s x y z :
  option_Forall2 (obj_eq s) x y → option_Forall2 (obj_eq s) y z → option_Forall2 (obj_eq s) x z.
Proof. destruct 1; inversion 1; subst; constructor. by eapply obj_eq_trans. Qed.

Lemma state_eq_refl s : state_eq s s.
Proof. split; try done. intros a _. apply option_obj_eq_refl. Qed.

Lemma state_eq_env s1 s2 h : state_eq s1 s2 → same_env s1 s2 h.
Proof. intros []. by apply same_env_eq. Qed.

Lemma state_eq_sym s1 s2 : state_eq s1 s2 → state_eq s2 s1.
Proof.
  intros E. pose proof E as E'. destruct E'. split; try done. intros a Ha.
  apply (option_obj_eq_env s1); [intros o _; by apply state_eq_env|].
  destruct (se_view0 a Ha); constructor. by apply obj_eq_sym.
Qed.

Lemma state_eq_trans s1 s2 s3 : state_eq s1 s2 → state_eq s2 s3 → state_eq s1 s3.
Proof.
  intros E1 E2. pose proof (state_eq_sym _ _ E1) as E1'. destruct E1, E2. split; try congruence.
  intros a Ha. eapply option_obj_eq_trans; [by apply se_view0|].
  apply (option_obj_eq_env s2); [|by apply se_view1]. intros o _. by apply state_eq_env.
Qed.

Lemma set_view s o b : view (setStateObject o s) b = if bool_decide (b = address o) then Some o else view s b.
Proof.
  case_bool_decide as E.
  - rewrite view_unfold. cbn. by rewrite E, lookup_insert_eq.
  - apply view_ext; [|done..]. cbn. by rewrite lookup_insert_ne.
Qed.

Lemma setStateObject_eq s1 s2 o1 o2 :
  state_eq s1 s2 → obj_eq s1 o1 o2 → state_eq (setStateObject o1 s1) (setStateObject o2 s2).
Proof.
  intros E O. pose proof (oe_address _ _ _ O) as Ea. destruct E. split; try done.
  intros a Ha. rewrite !set_view, <- Ea.
  apply (option_obj_eq_env s1); [intros o _; by apply same_env_eq|].
  case_bool_decide; [by constructor|by apply se_view0].
Qed.

Lemma setStateObject_same s o o' :
  view s (address o) = Some o' → obj_eq s o o' → state_eq (setStateObject o s) s.
Proof.
  intros Hv O. split; try done. intros a Ha. rewrite set_view.
  apply (option_obj_eq_env s); [intros ? _; by apply same_env_eq|].
  case_bool_decide as E; [|apply option_obj_eq_refl]. subst a. rewrite Hv. by constructor.
Qed.

(** States with the same objects and the same other observable fields. *)
Ltac same_fields :=
  split; try done; intros ? _;
  match goal with |- option_Forall2 _ (view ?s1 ?a) (view ?s2 ?a) =>
    rewrite (view_ext s1 s2 a) by done; apply option_obj_eq_refl end.

(** ** Lemmas: well-formedness *)

Lemma newObject_wf a d :
  (∀ h, CodeHash d = Some h → length h = 32%nat) → obj_wf a (newObject a d).
Proof.
  intros Hc. split; try done. unfold newObject. cbn.
  destruct (CodeHash d) as [h|] eqn:E.
  - case_bool_decide; cbn; exists h; (split; [done|by apply Hc]).
  - case_bool_decide; cbn; exists emptyCodeHash; (split; [done|apply Keccak256_length]).
Qed.

Lemma view_wf s a o : objs_wf s → is_address a → view s a = Some o → obj_wf a o.
Proof.
  intros [] Ha. rewrite view_unfold. destruct (stateObjects s !! a) as [o'|] eqn:E.
  - intros [= <-]. by apply cw_objects0.
  - destruct (load s a) as [[d|] e] eqn:El; [|done]. intros [= <-].
    apply newObject_wf. intros h Hh. destruct (cw_accounts0 a d e El) as (h' & Hh' & Hl). congruence.
Qed.

Lemma accounts_wf_ext s1 s2 : trie s1 = trie s2 → snap s1 = snap s2 → accounts_wf s1 → accounts_wf s2.
Proof. intros E1 E2 A a d e. rewrite <- (load_ext s1 s2) by done. apply A. Qed.

Lemma setStateObject_wf s o a : objs_wf s → is_address a → obj_wf a o → objs_wf (setStateObject o s).
Proof.
  intros [] Ha Ho. pose proof (ow_address _ _ Ho) as Ea. split; try done; cbn.
  - intros b ob. rewrite lookup_insert_Some. intros [[<- <-]|[_ Hb]]; [by rewrite Ea|by apply cw_objects0].
  - rewrite dom_insert. set_solver.
  - rewrite dom_insert. set_solver.
Qed.

(** Parts of the state that only snapshots and the journal change. *)
Record frame s s' : Prop := {
  fr_entries : entries s' = entries s;
  fr_dirties : dirties s' = dirties s;
  fr_revisions : validRevisions s' = validRevisions s;
  fr_next : nextRevisionId s' = nextRevisionId s
}.

Lemma getDeleted_step s a :
  objs_wf s → is_address a →
  let s' := (getDeletedStateObject a s).2 in
  state_eq s' s ∧ objs_wf s' ∧ frame s s' ∧ stateObjects s' !! a = view s a
  ∧ view s' a = view s a.
Proof.
  intros W Ha. rewrite view_unfold. unfold getDeletedStateObject.
  destruct (stateObjects s !! a) as [o|] eqn:Eo; cbn.
  { split; [apply state_eq_refl|]. split; [done|]. split; [done|]. split; [done|].
    by rewrite view_unfold, Eo. }
  destruct (load s a) as [[d|] e] eqn:El; cbn.
  - assert (view s a = Some (newObject a d)) as Hv by (by rewrite view_unfold, Eo, El).
    split; [by eapply setStateObject_same; [|apply obj_eq_refl]|].
    split; [eapply setStateObject_wf; try done; by eapply view_wf|]. split; [done|].
    split; [cbn; by rewrite lookup_insert_eq|]. rewrite set_view. cbn. by rewrite bool_decide_true.
  - assert (∀ s', stateObjects s' = stateObjects s → trie s' = trie s → snap s' = snap s → view s' a = None) as Hv.
    { intros s' E1 E2 E3. rewrite view_unfold, E1, Eo, (load_ext s' s), El by done. done. }
    destruct e as [e|]; cbn.
    + unfold setError. destruct (dbErr s); cbn.
      * split; [apply state_eq_refl|]. split; [done|]. split; [done|]. split; [done|]. by apply Hv.
      * split; [same_fields|].
        split; [by destruct W|]. split; [done|]. split; [done|]. by apply Hv.
    + split; [apply state_eq_refl|]. split; [done|]. split; [done|]. split; [done|]. by apply Hv.
Qed.

Lemma rest_wf_eq s1 s2 : state_eq s1 s2 → rest_wf s1 → rest_wf s2.
Proof. intros [] []. split; congruence. Qed.

(** ** Lemmas: undoing an entry *)

Lemma getStateObject_view s a :
  getStateObject a s =
    (match view s a with Some o => if deleted o then None else Some o | None => None end,
     (getDeletedStateObject a s).2).
Proof. unfold getStateObject, view. by destruct (getDeletedStateObject a s). Qed.

Lemma revert_object_view s a f :
  revert_object a f s =
    match view s a with
    | Some o => if deleted o then None else Some (setStateObject (f o) (getDeletedStateObject a s).2)
    | None => None
    end.
Proof.
  unfold revert_object. rewrite getStateObject_view. destruct (view s a) as [o|]; [|done].
  by destruct (deleted o).
Qed.

(** Undoing respects the equivalence and well-formedness and leaves the
    journal and the revisions alone. *)
Definition proper_undo (u : StateDB → option StateDB) s1 s2 : Prop :=
  ∀ s1', u s1 = Some s1' →
  frame s1 s1' ∧ objs_wf s1' ∧ stateObjectsPending s1' = stateObjectsPending s1
  ∧ stateObjectsDirty s1' ⊆ stateObjectsDirty s1
  ∧ ∃ s2', u s2 = Some s2' ∧ frame s2 s2' ∧ objs_wf s2' ∧ state_eq s1' s2'.

Lemma frame_refl s : frame s s.
Proof. done. Qed.

Lemma frame_trans s1 s2 s3 : frame s1 s2 → frame s2 s3 → frame s1 s3.
Proof. intros [] []. split; congruence. Qed.

Lemma revert_object_proper a f s1 s2 :
  state_eq s1 s2 → objs_wf s1 → objs_wf s2 → is_address a →
  (∀ o, obj_wf a o → obj_wf a (f o)) →
  (∀ s o1 o2, obj_wf a o1 → obj_eq s o1 o2 → obj_eq s (f o1) (f o2)) →
  proper_undo (revert_object a f) s1 s2.
Proof.
  intros E W1 W2 Ha Hw Hp s1'. rewrite !revert_object_view.
  pose proof (se_view _ _ E a Ha) as Hv. destruct (view s1 a) as [o1|] eqn:V1; [|done].
  destruct (view s2 a) as [o2|] eqn:V2; inversion Hv as [? ? O|]; subst. rewrite <- (oe_deleted _ _ _ O).
  destruct (deleted o1) eqn:Ed; [done|]. intros [= <-].
  destruct (getDeleted_step s1 a W1 Ha) as (E1 & W1' & F1 & _ & _).
  destruct (getDeleted_step s2 a W2 Ha) as (E2 & W2' & F2 & _ & _).
  pose proof (view_wf s1 a o1 W1 Ha V1) as Wo1. pose proof (view_wf s2 a o2 W2 Ha V2) as Wo2.
  split; [destruct F1; by split|]. split; [eapply setStateObject_wf; eauto|].
  split; [by destruct E1|]. split; [cbn; by rewrite (se_dirty _ _ E1)|].
  eexists. split; [done|]. split; [destruct F2; by split|]. split; [eapply setStateObject_wf; eauto|].
  apply setStateObject_eq.
  - eapply state_eq_trans; [exact E1|]. eapply state_eq_trans; [exact E|]. by apply state_eq_sym.
  - apply Hp; [done|]. eapply obj_eq_env; [|exact O]. apply state_eq_env. by apply state_eq_sym.
Qed.

Lemma setBalance_wf a v o : obj_wf a o → obj_wf a (setBalance v o).
Proof. intros []. by split. Qed.
Lemma setNonce_wf a v o : obj_wf a o → obj_wf a (setNonce v o).
Proof. intros []. by split. Qed.
Lemma set_suicided_wf a v o : obj_wf a o → obj_wf a (set_suicided v o).
Proof. intros []. by split. Qed.
Lemma setState_wf a k v o : obj_wf a o → obj_wf a (setState k v o).
Proof. intros []. by split. Qed.
Lemma setCode_wf a h c o : length h = 32%nat → obj_wf a o → obj_wf a (setCode h c o).
Proof. intros Hl []. split; try done. by exists h. Qed.

Lemma BytesToHash_length b : length (BytesToHash b) = 32%nat.
Proof.
  unfold BytesToHash. rewrite length_app, length_replicate.
  destruct (32 <? len b) eqn:E; bool_prop; rewrite ?length_drop; lia.
Qed.

(** Undoing the creation of an object. *)
Lemma revert_create_proper a s1 s2 :
  state_eq s1 s2 → objs_wf s1 → objs_wf s2 → entry_wf s1 (createObjectChange a) →
  proper_undo (revert_entry (createObjectChange a)) s1 s2.
Proof.
  intros E W1 W2 [Hnp Hnd] s1' [= <-]. pose proof E as E'. destruct E'.
  assert (∀ s, objs_wf s → a ∉ stateObjectsPending s →
    objs_wf (set_stateObjectsDirty (stateObjectsDirty s ∖ {[a]})
       (set_stateObjects (delete a (stateObjects s)) s))) as Hw.
  { intros s [] Hp. split; try done; cbn.
    - intros b o. rewrite lookup_delete_Some. intros [_ Hb]. by apply cw_objects0.
    - rewrite dom_delete. set_solver.
    - rewrite dom_delete. set_solver. }
  split; [done|]. split; [by apply (Hw s1 W1)|]. split; [done|]. split; [cbn; set_solver|].
  eexists. split; [done|]. split; [done|]. split; [apply (Hw s2 W2); congruence|].
  split; cbn; try done; [congruence|].
  intros b Hb. apply (option_obj_eq_env s1); [intros o _; by apply same_env_eq|].
  destruct (decide (b = a)) as [->|Hne].
  - rewrite !view_unfold. cbn. rewrite !lookup_delete_eq.
    match goal with |- option_Forall2 _ (_ <$> (load ?x _).1) (_ <$> (load ?y _).1) =>
      rewrite (load_ext x y) by done end. apply option_obj_eq_refl.
  - specialize (se_view0 b Hb). rewrite !view_unfold in *. cbn. rewrite !lookup_delete_ne by done. done.
Qed.

Lemma same_env_reset s1 s2 a b o prev :
  is_address a → is_address b → a ≠ b → obj_wf a o → obj_wf b prev → snap s1 = snap s2 →
  snapDestructs s2 = snapDestructs s1 ∨ snapDestructs s2 = snapDestructs s1 ∖ {[addrHash prev]}
    ∨ snapDestructs s2 = {[addrHash prev]} ∪ snapDestructs s1 →
  same_env s1 s2 (addrHash o).
Proof.
  intros Ha Hb Hne Wo Wp Es Ed. split; [done|].
  assert (addrHash o ≠ addrHash prev) as Hh.
  { rewrite (ow_addrHash _ _ Wo), (ow_addrHash _ _ Wp). intros E. apply Hne. by apply Keccak256_address. }
  destruct Ed as [->|[->| ->]]; set_solver.
Qed.

Lemma revert_reset_proper prev pd s1 s2 :
  state_eq s1 s2 → objs_wf s1 → objs_wf s2 → entry_wf s1 (resetObjectChange prev pd) →
  proper_undo (revert_entry (resetObjectChange prev pd)) s1 s2.
Proof.
  intros E W1 W2 [Ha Wp] s1' [= <-]. pose proof E as E'. destruct E'. cbn [snap setStateObject set_stateObjects].
  set (cond := negb pd && match snap s1 with Some _ => true | None => false end).
  assert (∀ s, objs_wf s → objs_wf (if cond then set_snapDestructs (snapDestructs s ∖ {[addrHash prev]})
      (setStateObject prev s) else setStateObject prev s)) as Hw.
  { intros s W. pose proof (setStateObject_wf s prev _ W Ha Wp) as []. destruct cond; by split. }
  split; [by destruct cond|]. split; [by apply (Hw s1 W1)|]. split; [by destruct cond|].
  split; [by destruct cond|]. cbn [revert_entry]. cbn [snap setStateObject set_stateObjects].
  rewrite <- se_snap0. fold cond. eexists. split; [done|].
  split; [by destruct cond|]. split; [by apply (Hw s2 W2)|].
  assert (∀ b o, is_address b → b ≠ address prev → view s1 b = Some o →
    same_env s1 (if cond then set_snapDestructs (snapDestructs s1 ∖ {[addrHash prev]})
      (setStateObject prev s1) else setStateObject prev s1) (addrHash o)) as Henv.
  { intros b o Hb Hne Hv. apply (same_env_reset _ _ b (address prev) o prev); try done.
    - by apply (view_wf s1).
    - by destruct cond.
    - destruct cond; cbn; auto. }
  split; try (destruct cond; cbn; congruence).
  intros b Hb. destruct (decide (b = address prev)) as [->|Hne].
  - rewrite !view_unfold. destruct cond; cbn; rewrite !lookup_insert_eq; apply option_obj_eq_refl.
  - apply (option_obj_eq_env s1).
    + intros o Hv. apply (Henv b); try done. rewrite <- Hv.
      destruct cond; (apply view_ext; [cbn; by rewrite lookup_insert_ne|done..]).
    + specialize (se_view0 b Hb). rewrite !view_unfold in *.
      destruct cond; cbn; rewrite !lookup_insert_ne by done; done.
Qed.

(** Undoing a change that does not concern objects. *)
Lemma other_proper u s1 s2 :
  state_eq s1 s2 → objs_wf s1 → objs_wf s2 →
  (∀ s s', u s = Some s' → frame s s' ∧ trie s' = trie s ∧ snap s' = snap s
     ∧ snapDestructs s' = snapDestructs s ∧ snapAccounts s' = snapAccounts s
     ∧ snapStorage s' = snapStorage s ∧ stateObjects s' = stateObjects s
     ∧ stateObjectsPending s' = stateObjectsPending s ∧ stateObjectsDirty s' = stateObjectsDirty s
     ∧ thash s' = thash s ∧ bhash s' = bhash s ∧ txIndex s' = txIndex s) →
  (∀ s1', u s1 = Some s1' → ∃ s2', u s2 = Some s2' ∧ refund s1' = refund s2' ∧ logs s1' = logs s2'
     ∧ logSize s1' = logSize s2' ∧ preimages s1' = preimages s2' ∧ accessList_ s1' = accessList_ s2') →
  proper_undo u s1 s2.
Proof.
  intros E W1 W2 Hu Hs s1' U1. destruct (Hs s1' U1) as (s2' & U2 & E1 & E2 & E3 & E4 & E5).
  destruct (Hu s1 s1' U1) as (F1 & A1 & A2 & A3 & A4 & A5 & A6 & A7 & A8 & A9 & A10 & A11).
  destruct (Hu s2 s2' U2) as (F2 & B1 & B2 & B3 & B4 & B5 & B6 & B7 & B8 & B9 & B10 & B11).
  destruct E.
  assert (∀ s s', objs_wf s → trie s' = trie s → snap s' = snap s → stateObjects s' = stateObjects s →
    stateObjectsPending s' = stateObjectsPending s → stateObjectsDirty s' = stateObjectsDirty s → objs_wf s') as Hw.
  { intros s s' [] H1 H2 H3 H4 H5. split; rewrite ?H3, ?H4, ?H5; try done. by apply (accounts_wf_ext s). }
  split; [done|]. split; [by eapply (Hw s1)|]. split; [done|]. split; [by rewrite A8|].
  exists s2'. split; [done|]. split; [done|]. split; [by eapply (Hw s2)|].
  split; try congruence. intros a Ha. apply (option_obj_eq_env s1); [intros o _; by apply same_env_eq|].
  rewrite (view_ext s1' s1), (view_ext s2' s2) by congruence. by apply se_view0.
Qed.

Lemma suicide_proper a prev b s1 s2 :
  state_eq s1 s2 → objs_wf s1 → objs_wf s2 → is_address a →
  proper_undo (revert_entry (suicideChange a prev b)) s1 s2.
Proof.
  intros E W1 W2 Ha s1'. cbn [revert_entry].
  pose proof (revert_object_proper a (λ o, setBalance b (set_suicided prev o)) s1 s2 E W1 W2 Ha) as P.
  unfold proper_undo, revert_object in P. rewrite !getStateObject_view in *.
  destruct (getDeleted_step s1 a W1 Ha) as (E1 & W1' & F1 & _ & _).
  destruct (getDeleted_step s2 a W2 Ha) as (E2 & W2' & F2 & _ & _).
  pose proof (se_view _ _ E a Ha) as Hv.
  destruct (view s1 a) as [o1|] eqn:V1; destruct (view s2 a) as [o2|] eqn:V2; inversion Hv as [? ? O|]; subst.
  1: rewrite <- (oe_deleted _ _ _ O) in *; destruct (deleted o1).
  2: { intros U. apply P; [..|done].
       - intros o Wo. by apply setBalance_wf, set_suicided_wf.
       - intros s p1 p2 _ O'. by apply setBalance_eq, set_suicided_eq. }
  all: intros [= <-]; split; [done|]; split; [done|]; split; [by destruct E1|];
    split; [by rewrite (se_dirty _ _ E1)|]; eexists; split; [done|]; split; [done|]; split; [done|];
    eapply state_eq_trans; [exact E1|]; eapply state_eq_trans; [exact E|]; by apply state_eq_sym.
Qed.

Lemma revert_entry_proper e s1 s2 :
  state_eq s1 s2 → objs_wf s1 → objs_wf s2 → entry_wf s1 e → proper_undo (revert_entry e) s1 s2.
Proof.
  intros E W1 W2 We. destruct e; try (by apply revert_create_proper); try (by apply revert_reset_proper).
  - by apply suicide_proper.
  - apply (revert_object_proper account); try done; [by intros; apply setBalance_wf|by intros; apply setBalance_eq].
  - apply (revert_object_proper account); try done; [by intros; apply setNonce_wf|by intros; apply setNonce_eq].
  - apply (revert_object_proper account); try done; [by intros; apply setState_wf|].
    intros s o1 o2 []. by apply setState_eq.
  - destruct We as [Ha Hl].
    apply (revert_object_proper account); try done; [|by intros; apply setCode_eq].
    intros. apply setCode_wf; [apply BytesToHash_length|done].
  - apply other_proper; try done; [intros s s' [= <-]; by repeat split|].
    intros s1' [= <-]. eexists. split; [done|]. destruct E. by repeat split.
  - destruct E. apply other_proper; try done; cbn [revert_entry].
    + intros s s' U. repeat case_match; cbn in U; simplify_eq; by repeat split.
    + rewrite <- se_logs0. intros s1'. repeat case_match; cbn; intros [= <-]; eexists; (split; [done|]);
        cbn; repeat split; congruence.
  - apply other_proper; try done; [intros s s' [= <-]; by repeat split|].
    intros s1' [= <-]. eexists. split; [done|]. destruct E. cbn. repeat split; congruence.
  - apply other_proper; try done; [intros s s' [= <-]; by repeat split|].
    intros s1' [= <-]. eexists. split; [done|]. by destruct E.
  - apply other_proper; try done; [intros s s' [= <-]; by repeat split|].
    intros s1' [= <-]. eexists. split; [done|]. destruct E. cbn. repeat split; congruence.
  - apply other_proper; try done; cbn [revert_entry].
    + intros s s' U. destruct (DeleteSlot _ _ _); [|done]. cbn in U. simplify_eq. by repeat split.
    + rewrite <- (se_accessList _ _ E). intros s1' U. destruct (DeleteSlot _ _ _); [|done].
      cbn in *. simplify_eq. eexists. split; [done|]. by destruct E.
Qed.

(** ** Lemmas: undoing a list of entries *)

Definition undirty_map (e : journalEntry) (d : gmap Address Z) : gmap Address Z :=
  match dirtied e with
  | None => d
  | Some a =>
      let n := default 0 (d !! a) - 1 in if n =? 0 then delete a d else <[a := n]> d
  end.

Lemma undirty_eq e s : state_eq (undirty e s) s.
Proof. unfold undirty. destruct (dirtied e); [same_fields|apply state_eq_refl]. Qed.

Lemma undirty_wf e s : objs_wf s → objs_wf (undirty e s).
Proof. intros []. unfold undirty. destruct (dirtied e); by split. Qed.

Lemma undirty_dirties e s : dirties (undirty e s) = undirty_map e (dirties s).
Proof. unfold undirty, undirty_map. by destruct (dirtied e). Qed.

Lemma entry_wf_sub s s' e :
  stateObjectsPending s' = stateObjectsPending s → stateObjectsDirty s' ⊆ stateObjectsDirty s →
  entry_wf s e → entry_wf s' e.
Proof. intros E1 E2. destruct e; try done. cbn. rewrite E1. set_solver. Qed.

Lemma undirty_same e s :
  entries (undirty e s) = entries s ∧ validRevisions (undirty e s) = validRevisions s
  ∧ nextRevisionId (undirty e s) = nextRevisionId s
  ∧ stateObjectsPending (undirty e s) = stateObjectsPending s
  ∧ stateObjectsDirty (undirty e s) = stateObjectsDirty s.
Proof. unfold undirty. by destruct (dirtied e). Qed.

Record undone (es : list journalEntry) s s' : Prop := {
  un_entries : entries s' = entries s;
  un_dirties : dirties s' = foldl (λ d e, undirty_map e d) (dirties s) es;
  un_revisions : validRevisions s' = validRevisions s;
  un_next : nextRevisionId s' = nextRevisionId s;
  un_wf : objs_wf s';
  un_pending : stateObjectsPending s' = stateObjectsPending s;
  un_dirty : stateObjectsDirty s' ⊆ stateObjectsDirty s
}.

Lemma revert_loop_proper es s1 s2 s1' :
  state_eq s1 s2 → objs_wf s1 → objs_wf s2 → Forall (entry_wf s1) es →
  revert_loop es s1 = Some s1' →
  undone es s1 s1' ∧ ∃ s2', revert_loop es s2 = Some s2' ∧ objs_wf s2' ∧ state_eq s1' s2'.
Proof.
  revert s1 s2. induction es as [|e es IH]; intros s1 s2 E W1 W2 We; cbn [revert_loop].
  - intros [= <-]. split; [by split|]. eauto.
  - apply Forall_cons in We as [We Wes]. destruct (revert_entry e s1) as [t1|] eqn:U1; [|done].
    cbn [mbind option_bind]. intros L1.
    destruct (revert_entry_proper e s1 s2 E W1 W2 We t1 U1) as ([] & Wt & Hp & Hd & t2 & U2 & F2 & Wt2 & Et).
    destruct (undirty_same e t1) as (A1 & A2 & A3 & A4 & A5).
    destruct (IH (undirty e t1) (undirty e t2)) as ([] & s2' & L2 & W2' & E2); try done.
    + eapply state_eq_trans; [apply undirty_eq|]. eapply state_eq_trans; [exact Et|].
      apply state_eq_sym, undirty_eq.
    + by apply undirty_wf.
    + by apply undirty_wf.
    + eapply Forall_impl; [exact Wes|]. intros e'. apply entry_wf_sub; [by rewrite A4|by rewrite A5].
    + split.
      * split; try congruence; [|set_solver].
        cbn [foldl]. rewrite un_dirties0, undirty_dirties, fr_dirties0. done.
      * exists s2'. rewrite U2. done.
Qed.

Lemma revert_loop_app es1 es2 s : revert_loop (es1 ++ es2) s = revert_loop es1 s ≫= revert_loop es2.
Proof.
  revert s. induction es1 as [|e es1 IH]; intros s; [done|]. cbn.
  destruct (revert_entry e s); [cbn; apply IH|done].
Qed.

(** ** Steps that the journal undoes *)

Record wf s : Prop := {
  wf_objs : objs_wf s;
  wf_rest : rest_wf s;
  wf_entries : Forall (entry_wf s) (entries s)
}.

Record step s s' (es : list journalEntry) : Prop := {
  st_wf : wf s';
  st_entries : entries s' = entries s ++ es;
  st_revisions : validRevisions s' = validRevisions s;
  st_next : nextRevisionId s' = nextRevisionId s;
  st_pending : stateObjectsPending s' = stateObjectsPending s;
  st_dirty : stateObjectsDirty s' = stateObjectsDirty s;
  st_dirties : ∀ x, dirties_ok (entries s) (dirties s) x →
    ∃ y, x ≤ y ∧ dirties_ok (entries s') (dirties s') y;
  st_undo : ∃ s2, revert_loop (rev es) s' = Some s2 ∧ state_eq s2 s
}.

Lemma step_equiv s s' :
  wf s → state_eq s' s → objs_wf s' → frame s s' → step s s' [].
Proof.
  intros [Wo Wr We] E Wo' [F1 F2 F3 F4]. pose proof E as []. split; try done.
  - split; [done|by eapply rest_wf_eq; [apply state_eq_sym|]|]. rewrite F1.
    eapply Forall_impl; [exact We|]. intros e. apply entry_wf_sub; [done|by rewrite se_dirty0].
  - by rewrite app_nil_r.
  - intros x Hx. rewrite F1, F2. exists x. split; [lia|done].
  - eexists. by split.
Qed.

Lemma step_trans s1 s2 s3 es1 es2 :
  step s1 s2 es1 → step s2 s3 es2 → step s1 s3 (es1 ++ es2).
Proof.
  intros S1 S2. destruct S1 as [W2 A1 A2 A3 A4 A5 A6 (t1 & U1 & E1)].
  destruct S2 as [W3 B1 B2 B3 B4 B5 B6 (t2 & U2 & E2)]. split; try done; try congruence.
  - by rewrite B1, A1, app_assoc.
  - intros x Hx. destruct (A6 x Hx) as (y & Hy & Hd). destruct (B6 y Hd) as (z & Hz & Hd').
    exists z. split; [lia|done].
  - rewrite rev_app_distr, revert_loop_app, U2. cbn.
    destruct W2 as [Wo2 Wr2 We2], W3 as [Wo3 Wr3 We3].
    assert (Forall (entry_wf s3) (rev es2)) as Wes2.
    { apply Forall_rev. rewrite B1 in We3. by apply Forall_app in We3 as [_ ?]. }
    destruct (revert_loop_proper (rev es2) s3 s3 t2) as ([] & _); try done; [apply state_eq_refl|].
    destruct (revert_loop_proper (rev es1) s2 t2 t1) as (_ & t1' & U1' & _ & E1'); try done.
    + by apply state_eq_sym.
    + apply Forall_rev. rewrite A1 in We2. by apply Forall_app in We2 as [_ ?].
    + exists t1'. split; [done|]. eapply state_eq_trans; [apply state_eq_sym; exact E1'|done].
Qed.

(** ** Lemmas: dirty counters *)

Lemma dirty_count_app a es e :
  dirty_count a (es ++ [e]) = dirty_count a es + (if bool_decide (dirtied e = Some a) then 1 else 0).
Proof.
  unfold dirty_count. rewrite filter_app, length_app. cbn [filter list_filter].
  case_bool_decide; case_decide; try done; cbn; lia.
Qed.

Lemma dirty_count_nonneg a es : 0 ≤ dirty_count a es.
Proof. unfold dirty_count. lia. Qed.

Definition counter (es : list journalEntry) (x : Z) (a : Address) : Z :=
  dirty_count a es + (if bool_decide (a = ripemd) then x else 0).

Lemma counter_nonneg es x a : 0 ≤ x → 0 ≤ counter es x a.
Proof. intros. unfold counter. pose proof (dirty_count_nonneg a es). case_bool_decide; lia. Qed.

Lemma dirties_default es d x a : dirties_ok es d x → default 0 (d !! a) = counter es x a.
Proof.
  intros [Hx Hd]. rewrite Hd. fold (counter es x a). cbn zeta.
  destruct (counter es x a =? 0) eqn:E; bool_prop; cbn; lia.
Qed.

Lemma counter_append es x e a :
  counter (es ++ [e]) x a = counter es x a + (if bool_decide (dirtied e = Some a) then 1 else 0).
Proof. unfold counter. rewrite dirty_count_app. lia. Qed.

Lemma dirties_ok_counter es d x :
  dirties_ok es d x ↔ 0 ≤ x ∧ ∀ a, d !! a = if counter es x a =? 0 then None else Some (counter es x a).
Proof. done. Qed.

Lemma dirties_append es d x e :
  dirties_ok es d x →
  dirties_ok (es ++ [e]) (match dirtied e with
                          | Some a => <[a := default 0 (d !! a) + 1]> d
                          | None => d
                          end) x.
Proof.
  intros Hd. pose proof Hd as Hd'. rewrite dirties_ok_counter in *. destruct Hd as [Hx Hd]. split; [done|].
  intros a. rewrite counter_append. destruct (dirtied e) as [b|].
  - destruct (decide (a = b)) as [->|Hne].
    + rewrite lookup_insert_eq, bool_decide_true, (dirties_default es d x) by done.
      pose proof (counter_nonneg es x b Hx). zcmp. done.
    + rewrite lookup_insert_ne, bool_decide_false by congruence. rewrite Z.add_0_r. apply Hd.
  - rewrite bool_decide_false, Z.add_0_r by done. apply Hd.
Qed.

Lemma dirties_undirty es d x e : dirties_ok (es ++ [e]) d x → dirties_ok es (undirty_map e d) x.
Proof.
  intros Hd. pose proof Hd as Hd'. rewrite dirties_ok_counter in *. destruct Hd as [Hx Hd]. split; [done|].
  intros a. unfold undirty_map. specialize (Hd a). rewrite counter_append in Hd.
  destruct (dirtied e) as [b|] eqn:Ee.
  - rewrite (dirties_default (es ++ [e]) d x), counter_append, Ee, bool_decide_true by done.
    rewrite Z.add_simpl_r. destruct (decide (a = b)) as [->|Hne].
    + destruct (counter es x b =? 0) eqn:E; [by rewrite lookup_delete_eq|by rewrite lookup_insert_eq].
    + rewrite bool_decide_false, Z.add_0_r in Hd by congruence.
      by case_if; rewrite ?lookup_delete_ne, ?lookup_insert_ne by done.
  - by rewrite bool_decide_false, Z.add_0_r in Hd by done.
Qed.

Lemma dirties_touch_ripemd es d x :
  dirties_ok es d x → dirties_ok es (<[ripemd := default 0 (d !! ripemd) + 1]> d) (x + 1).
Proof.
  intros Hd. rewrite (dirties_default es d x) by done. rewrite dirties_ok_counter in *.
  destruct Hd as [Hx Hd]. split; [lia|]. intros a. destruct (decide (a = ripemd)) as [->|Hne].
  - rewrite lookup_insert_eq. unfold counter. rewrite bool_decide_true by done.
    pose proof (dirty_count_nonneg ripemd es). zcmp. f_equal. lia.
  - rewrite lookup_insert_ne, Hd by done. unfold counter. by rewrite bool_decide_false.
Qed.

Lemma dirties_undo es1 es2 d x :
  dirties_ok (es1 ++ es2) d x →
  dirties_ok es1 (foldl (λ d e, undirty_map e d) d (rev es2)) x.
Proof.
  revert d. induction es2 as [|e es2 IH] using rev_ind; intros d Hd; [by rewrite app_nil_r in Hd|].
  rewrite rev_app_distr. cbn. apply IH, dirties_undirty. by rewrite <- app_assoc.
Qed.

(** ** Lemmas: steps with one entry *)

Lemma append_eq e s : state_eq (append e s) s.
Proof. unfold append. destruct (dirtied e); same_fields. Qed.

Lemma append_fields e s :
  entries (append e s) = entries s ++ [e]
  ∧ dirties (append e s) = match dirtied e with
                           | Some a => <[a := default 0 (dirties s !! a) + 1]> (dirties s)
                           | None => dirties s
                           end
  ∧ validRevisions (append e s) = validRevisions s ∧ nextRevisionId (append e s) = nextRevisionId s
  ∧ stateObjects (append e s) = stateObjects s.
Proof. unfold append. by destruct (dirtied e). Qed.

Lemma append_wf e s : objs_wf s → objs_wf (append e s).
Proof. intros []. unfold append. destruct (dirtied e); by split. Qed.

(** A step that appends [e] and whose effect [revert_entry e] undoes. *)
Lemma step_entry s s' e s2 :
  wf s → objs_wf s' → rest_wf s' → frame (append e s) s' →
  stateObjectsPending s' = stateObjectsPending s → stateObjectsDirty s' = stateObjectsDirty s →
  entry_wf s e → revert_entry e s' = Some s2 → state_eq s2 s → step s s' [e].
Proof.
  intros [Wo Wr We] Wo' Wr' [F1 F2 F3 F4] Ep Ed Wee U E.
  destruct (append_fields e s) as (A1 & A2 & A3 & A4 & _).
  assert (∀ e', entry_wf s e' → entry_wf s' e') as Hsub.
  { intros e'. apply entry_wf_sub; [done|by rewrite Ed]. }
  split; try congruence.
  - split; [done..|]. rewrite F1, A1. apply Forall_app. split; [by eapply Forall_impl; [exact We|]|].
    constructor; [by apply Hsub|constructor].
  - intros x Hx. exists x. split; [lia|]. rewrite F1, F2, A1, A2. by apply dirties_append.
  - exists (undirty e s2). cbn. rewrite U. cbn. split; [done|].
    eapply state_eq_trans; [apply undirty_eq|done].
Qed.

Lemma rest_wf_fields s s' :
  accessList_ s' = accessList_ s → refund s' = refund s → logSize s' = logSize s → logs s' = logs s →
  rest_wf s → rest_wf s'.
Proof. intros E1 E2 E3 E4 []. split; congruence. Qed.

Lemma append_other e s :
  accessList_ (append e s) = accessList_ s ∧ refund (append e s) = refund s
  ∧ logSize (append e s) = logSize s ∧ logs (append e s) = logs s
  ∧ stateObjectsPending (append e s) = stateObjectsPending s
  ∧ stateObjectsDirty (append e s) = stateObjectsDirty s.
Proof. unfold append. by destruct (dirtied e). Qed.

Lemma append_rest e s : rest_wf s → rest_wf (append e s).
Proof. destruct (append_other e s) as (A1 & A2 & A3 & A4 & _). by apply rest_wf_fields. Qed.

(** Replacing the live object twice. *)
Lemma set_set_eq s o1 o2 : address o1 = address o2 →
  state_eq (setStateObject o2 (setStateObject o1 s)) (setStateObject o2 s).
Proof.
  intros E. split; try done. intros b _. rewrite !set_view, E.
  case_bool_decide; apply option_obj_eq_refl.
Qed.

(** Changing the live object of [a] under an entry that puts it back. *)
Lemma step_object s a o o' e g :
  wf s → is_address a → stateObjects s !! a = Some o →
  obj_wf a o' → deleted o' = false → obj_wf a (g o') → obj_eq s (g o') o →
  entry_wf s e → (∀ s' s2, revert_object a g s' = Some s2 → revert_entry e s' = Some s2) →
  step s (setStateObject o' (append e s)) [e].
Proof.
  intros W Ha Ho Wo' Hdo' Wg Og We Hu. pose proof W as [Wo Wr Wes].
  destruct (append_fields e s) as (_ & _ & _ & _ & Es).
  destruct (append_other e s) as (_ & _ & _ & _ & E5 & E6).
  pose proof (ow_address _ _ Wo') as A1. pose proof (ow_address _ _ Wg) as A2.
  eapply (step_entry s _ e (setStateObject (g o') (setStateObject o' (append e s)))); try done.
  - eapply setStateObject_wf; [by apply append_wf|exact Ha|done].
  - by eapply rest_wf_fields; [..|apply append_rest].
  - apply Hu. rewrite revert_object_view.
    assert (stateObjects (setStateObject o' (append e s)) !! a = Some o') as Hl
      by (cbn; by rewrite A1, lookup_insert_eq).
    rewrite view_unfold, Hl, Hdo'. unfold getDeletedStateObject. by rewrite Hl.
  - eapply state_eq_trans; [apply set_set_eq; congruence|].
    eapply state_eq_trans; [apply (setStateObject_eq _ s _ (g o')); [apply append_eq|apply obj_eq_refl]|].
    eapply setStateObject_same; [|exact Og]. by rewrite A2, view_unfold, Ho.
Qed.

(** ** Lemmas: operations are steps *)

Lemma cached_wf s a o o' : cached s o o' → obj_wf a o → obj_wf a o'.
Proof.
  intros [] []. split; try congruence. destruct ow_codehash0 as (h & Hh & Hl). exists h. by rewrite ca_data0.
Qed.

Lemma step_touch s a : wf s → step s (append (touchChange a) s) [touchChange a].
Proof.
  intros W. pose proof W as []. destruct (append_other (touchChange a) s) as (_ & _ & _ & _ & E5 & E6).
  eapply step_entry; try done; [by apply append_wf|by apply append_rest|apply append_eq].
Qed.

Lemma step_dirty s : wf s → step s (dirty ripemd s) [].
Proof.
  intros [Wo Wr We]. assert (state_eq (dirty ripemd s) s) as E by same_fields.
  split; try done.
  - split; [destruct Wo; by split|by eapply rest_wf_fields; [..|exact Wr]|].
    eapply Forall_impl; [exact We|]. by intros [].
  - by rewrite app_nil_r.
  - intros x Hx. exists (x + 1). split; [lia|]. by apply dirties_touch_ripemd.
  - eexists. by split.
Qed.

Section live.
Variable s : StateDB.
Variable a : Address.
Variable o : stateObject.
Hypothesis W : wf s.
Hypothesis Ha : is_address a.
Hypothesis Ho : stateObjects s !! a = Some o.
Hypothesis Hd : deleted o = false.

Lemma live_wf : obj_wf a o.
Proof. destruct W as [[] _ _]. by apply cw_objects0. Qed.

Lemma live_view : view s a = Some o.
Proof. by rewrite view_unfold, Ho. Qed.

(** Only caches change. *)
Lemma step_cached o' : cached s o o' → step s (setStateObject o' s) [].
Proof.
  intros C. pose proof (cached_wf _ a _ _ C live_wf) as Wo'. apply step_equiv; try done.
  - eapply setStateObject_same; [|by apply cached_obj_eq]. by rewrite (ow_address _ _ Wo'), live_view.
  - eapply setStateObject_wf; try done. by destruct W.
Qed.

Lemma obj_SetBalance_step v : ∃ es, step s (obj_SetBalance v o s) es.
Proof.
  pose proof live_wf as Wo. pose proof (ow_address _ _ Wo) as Ea. eexists.
  unfold obj_SetBalance. rewrite Ea. eapply (step_object s a o _ _ (setBalance (Balance (data o)))); try done.
  - by apply setBalance_wf.
  - by apply setBalance_wf, setBalance_wf.
  - replace (setBalance _ _) with o; [apply obj_eq_refl|]. by destruct o as [? ? []].
Qed.

Lemma obj_SetNonce_step v : ∃ es, step s (obj_SetNonce v o s) es.
Proof.
  pose proof live_wf as Wo. pose proof (ow_address _ _ Wo) as Ea. eexists.
  unfold obj_SetNonce. rewrite Ea. eapply (step_object s a o _ _ (setNonce (Nonce (data o)))); try done.
  - by apply setNonce_wf.
  - by apply setNonce_wf, setNonce_wf.
  - replace (setNonce _ _) with o; [apply obj_eq_refl|]. by destruct o as [? ? []].
Qed.

Lemma obj_AddBalance_step v : ∃ es, step s (obj_AddBalance v o s) es.
Proof.
  unfold obj_AddBalance. case_if; [|apply obj_SetBalance_step].
  assert (step s s []) as Sid by (apply step_equiv; try done; [apply state_eq_refl|by destruct W]).
  case_if; [|by eexists]. unfold touch. pose proof (step_touch s (address o) W) as St.
  case_bool_decide as E; [|by eexists]. rewrite E in *. eexists.
  eapply step_trans; [exact St|]. apply step_dirty. by destruct St.
Qed.

Lemma obj_SubBalance_step v : ∃ es, step s (obj_SubBalance v o s) es.
Proof.
  unfold obj_SubBalance. case_if; [|apply obj_SetBalance_step].
  exists []. apply step_equiv; try done; [apply state_eq_refl|by destruct W].
Qed.

Lemma obj_SetState_step k v : ∃ es, step s (obj_SetState k v o s) es.
Proof.
  pose proof live_wf as Wo. pose proof (ow_address _ _ Wo) as Ea. pose proof (ow_fake _ _ Wo) as Ef.
  unfold obj_SetState. rewrite Ef. pose proof (cached_state_step s o k) as C.
  pose proof (eq_refl (slot s o k)) as Hs. unfold slot at 2 in Hs.
  destruct (obj_GetState s k o) as [prev o1]. cbn [fst snd] in *.
  case_bool_decide; [by eexists; apply step_cached|]. eexists. rewrite (ca_address _ _ _ C), Ea.
  pose proof (cached_wf _ a _ _ C Wo) as Wo1. pose proof (ow_fake _ _ Wo1) as Ef1.
  eapply (step_object s a o _ _ (setState k prev)); try done.
  - by apply setState_wf.
  - cbn. by rewrite (ca_deleted _ _ _ C).
  - by apply setState_wf, setState_wf.
  - apply (obj_eq_trans s _ o1); [|by apply cached_obj_eq]. split; try done.
    + by apply code_of_ext.
    + rewrite !code_size_of. f_equal. by rewrite (code_of_ext o1).
    + intros k'. by apply committed_ext.
    + intros k'. rewrite !setState_slot by done. case_bool_decide; [|done]. subst k'.
      rewrite (oe_slot _ _ _ (cached_obj_eq _ _ _ C)). done.
Qed.

Lemma obj_SetCode_step h c : length h = 32%nat → ∃ es, step s (obj_SetCode h c o s) es.
Proof.
  intros Hl. pose proof live_wf as Wo. pose proof (ow_address _ _ Wo) as Ea.
  unfold obj_SetCode. pose proof (cached_Code s o) as C. pose proof (eq_refl (code_of o)) as Hc.
  unfold code_of at 2 in Hc. destruct (Code o) as [prevcode o1]. cbn [fst snd] in *.
  eexists. rewrite (ca_address _ _ _ C), Ea. pose proof (cached_wf _ a _ _ C Wo) as Wo1.
  destruct (ow_codehash _ _ Wo1) as (h1 & Eh1 & Hl1).
  assert (obj_CodeHash o1 = h1) as Eh by (unfold obj_CodeHash; by rewrite Eh1).
  eapply (step_object s a o _ _ (setCode (BytesToHash (obj_CodeHash o1)) prevcode)); try done.
  - by apply setCode_wf.
  - cbn. by rewrite (ca_deleted _ _ _ C).
  - apply setCode_wf; [apply BytesToHash_length|]. by apply setCode_wf.
  - apply (obj_eq_trans s _ o1); [|by apply cached_obj_eq]. rewrite Eh, BytesToHash_32 by done.
    assert (code_of (setCode h1 prevcode (setCode h c o1)) = code_of o1) as Hcode.
    { pose proof (ca_code _ _ _ C) as Hx. rewrite Hc in Hx. rewrite Hx, code_of_unfold. cbn.
      destruct prevcode; [done|]. rewrite code_of_unfold in Hx. destruct (code o1); [done|].
      unfold obj_CodeHash in *. rewrite Eh1 in Hx. exact Hx. }
    split; try done; [|by rewrite !code_size_of, Hcode| |].
    + cbn. destruct (data o1); cbn in *. by rewrite Eh1.
    + intros k. by apply committed_ext.
    + intros k. by apply slot_ext.
  - cbn. split; [done|]. by rewrite Eh.
Qed.
End live.

Lemma step_refl s : wf s → step s s [].
Proof. intros W. apply step_equiv; try done; [apply state_eq_refl|by destruct W]. Qed.

Lemma getDeleted_steps s a :
  wf s → is_address a →
  let s' := (getDeletedStateObject a s).2 in
  step s s' [] ∧ stateObjects s' !! a = view s a.
Proof.
  intros W Ha s'. pose proof W as []. destruct (getDeleted_step s a) as (E & Wo & F & Hl & _); try done.
  split; [by apply step_equiv|done].
Qed.

(** The state of [createObject] with [n] as the new object. *)
Definition created s (a : Address) (n : stateObject) : StateDB :=
  match view s a with
  | None => setStateObject n (append (createObjectChange a) s)
  | Some p =>
      let pd := match snap s with Some _ => bool_decide (addrHash p ∈ snapDestructs s) | None => false end in
      let s1 := match snap s with
                | Some _ => if pd then s else set_snapDestructs ({[addrHash p]} ∪ snapDestructs s) s
                | None => s
                end in
      setStateObject n (append (resetObjectChange p pd) s1)
  end.

Lemma createObject_created s a :
  wf s → is_address a →
  let s1 := (getDeletedStateObject a s).2 in
  let n := setNonce 0 (newObject a emptyAccount) in
  createObject a s = (n, match view s a with Some p => if deleted p then None else Some p | None => None end,
                      created s1 a n).
Proof.
  intros W Ha. destruct (getDeleted_step s a) as (_ & _ & _ & _ & Hv); [by destruct W|done|].
  cbn zeta in *. unfold createObject, created. rewrite Hv. unfold view.
  destruct (getDeletedStateObject a s) as [prev s1]. cbn.
  destruct prev as [p|]; destruct (snap s1); try done. by case_bool_decide.
Qed.

Lemma created_step_none s a n :
  wf s → is_address a → stateObjects s !! a = None → view s a = None → obj_wf a n →
  step s (setStateObject n (append (createObjectChange a) s)) [createObjectChange a].
Proof.
  intros W Ha Hl Hv Wn. pose proof W as [Wo Wr We]. pose proof (ow_address _ _ Wn) as An.
  destruct (append_other (createObjectChange a) s) as (_ & _ & _ & _ & E5 & E6).
  assert (a ∉ stateObjectsPending s ∧ a ∉ stateObjectsDirty s) as [Hp Hd].
  { destruct Wo. assert (a ∉ dom (stateObjects s)) by (by apply not_elem_of_dom). set_solver. }
  eapply step_entry; try done.
  - by eapply setStateObject_wf; [apply append_wf|..].
  - by eapply rest_wf_fields; [..|apply append_rest].
  - split; try done; cbn; [set_solver|].
    intros b Hb. apply (option_obj_eq_env s); [intros ? _; by apply same_env_eq|].
    destruct (decide (b = a)) as [->|Hne].
    + rewrite Hv, view_unfold. cbn. rewrite lookup_delete_eq.
      rewrite view_unfold, Hl in Hv. rewrite (load_ext _ s) by done. rewrite Hv. constructor.
    + rewrite (view_ext _ s b); [apply option_obj_eq_refl| |done..]. cbn.
      by rewrite lookup_delete_ne, An, lookup_insert_ne by done.
Qed.

Lemma created_step_some s a n p pd s1 :
  wf s → is_address a → stateObjects s !! a = Some p → obj_wf a n →
  (pd = true ∨ snap s = None) ∧ s1 = s
  ∨ pd = false ∧ snap s ≠ None ∧ addrHash p ∉ snapDestructs s
    ∧ s1 = set_snapDestructs ({[addrHash p]} ∪ snapDestructs s) s →
  step s (setStateObject n (append (resetObjectChange p pd) s1)) [resetObjectChange p pd].
Proof.
  intros W Ha Hl Wn Hs1. pose proof W as [Wo Wr We]. pose proof (ow_address _ _ Wn) as An.
  pose proof (cw_objects _ Wo a p Hl) as [_ Wp]. pose proof (ow_address _ _ Wp) as Ap.
  assert (objs_wf s1 ∧ rest_wf s1) as [Wo1 Wr1].
  { destruct Hs1 as [[_ ->]|(_ & _ & _ & ->)]; [done|]. split; [by destruct Wo|by destruct Wr]. }
  eapply step_entry; try done.
  - by eapply setStateObject_wf; [apply append_wf|..].
  - by eapply rest_wf_fields; [..|apply append_rest].
  - destruct Hs1 as [[_ ->]|(_ & _ & _ & ->)]; done.
  - destruct Hs1 as [[_ ->]|(_ & _ & _ & ->)]; done.
  - destruct Hs1 as [[_ ->]|(_ & _ & _ & ->)]; done.
  - cbn. by rewrite Ap.
  - cbn [snap setStateObject set_stateObjects append dirtied set_entries].
    assert (∀ t : StateDB, stateObjects t = <[a := p]> (<[a := n]> (stateObjects s)) →
      trie t = trie s → snap t = snap s → snapDestructs t = snapDestructs s →
      snapAccounts t = snapAccounts s → snapStorage t = snapStorage s →
      stateObjectsPending t = stateObjectsPending s → stateObjectsDirty t = stateObjectsDirty s →
      refund t = refund s → thash t = thash s → bhash t = bhash s → txIndex t = txIndex s →
      logs t = logs s → logSize t = logSize s → preimages t = preimages s → accessList_ t = accessList_ s → state_eq t s) as Ht.
    { intros t Eo. intros. split; try done. intros b _. rewrite (view_ext t s b); [apply option_obj_eq_refl| |done..].
      by rewrite Eo, insert_insert_eq, insert_id. }
    destruct Hs1 as [[[-> | Hn] ->]|(-> & Hn & Hni & ->)].
    + apply Ht; try done. cbn. by rewrite Ap, An.
    + rewrite Hn, andb_false_r. apply Ht; try done. cbn. by rewrite Ap, An.
    + destruct (snap s) as [sn|] eqn:Es; [|done]. cbn. rewrite Es. cbn. apply Ht; try done; cbn; [by rewrite Ap, An|set_solver].
Qed.

Lemma emptyAccount_wf a : obj_wf a (setNonce 0 (newObject a emptyAccount)).
Proof. by apply setNonce_wf, newObject_wf. Qed.

Lemma created_step s a n :
  wf s → is_address a → stateObjects s !! a = view s a → obj_wf a n →
  ∃ es, step s (created s a n) es ∧ stateObjects (created s a n) !! a = Some n.
Proof.
  intros W Ha Hl Wn. unfold created. pose proof (ow_address _ _ Wn) as An.
  destruct (view s a) as [p|] eqn:V.
  - eexists. split; [|cbn; by rewrite An, lookup_insert_eq].
    apply (created_step_some s a); try done. destruct (snap s) as [sn|] eqn:Es; [|by left; auto].
    case_bool_decide; [by left; auto|]. by right.
  - eexists. split; [by apply created_step_none|]. cbn. by rewrite An, lookup_insert_eq.
Qed.

Lemma createObject_step s a :
  wf s → is_address a →
  ∃ es, step s (createObject a s).2 es
    ∧ stateObjects (createObject a s).2 !! a = Some (createObject a s).1.1
    ∧ deleted (createObject a s).1.1 = false.
Proof.
  intros W Ha. rewrite createObject_created by done. cbn [fst snd].
  destruct (getDeleted_steps s a W Ha) as [S1 Hl]. pose proof S1 as [W1 _ _ _ _ _ _ _].
  destruct (getDeleted_step s a) as (_ & _ & _ & _ & Hv); [by destruct W|done|].
  destruct (created_step _ a (setNonce 0 (newObject a emptyAccount)) W1 Ha) as (es & S2 & Hn);
    [by rewrite Hv|apply emptyAccount_wf|].
  eexists. split; [by eapply step_trans|]. done.
Qed.

Lemma GetOrNew_step s a :
  wf s → is_address a →
  ∃ es, step s (GetOrNewStateObject a s).2 es
    ∧ stateObjects (GetOrNewStateObject a s).2 !! a = Some (GetOrNewStateObject a s).1
    ∧ deleted (GetOrNewStateObject a s).1 = false.
Proof.
  intros W Ha. unfold GetOrNewStateObject. rewrite getStateObject_view.
  destruct (getDeleted_steps s a W Ha) as [S1 Hl].
  assert (∃ es, let r := createObject a (getDeletedStateObject a s).2 in
    step s r.2 es ∧ stateObjects r.2 !! a = Some r.1.1 ∧ deleted r.1.1 = false) as (es & Hc).
  { destruct (createObject_step (getDeletedStateObject a s).2 a) as (es & S2 & H2); [by destruct S1|done|].
    eexists. split; [by eapply step_trans|done]. }
  destruct (view s a) as [o|] eqn:V.
  - destruct (deleted o) eqn:Ed; [|by eexists].
    exists es. by destruct (createObject a _) as [[] ].
  - exists es. by destruct (createObject a _) as [[] ].
Qed.

Lemma on_object_step f s a :
  wf s → is_address a →
  (∀ s o, wf s → stateObjects s !! a = Some o → deleted o = false → ∃ es, step s (f o s) es) →
  ∃ es, step s (on_object f a s) es.
Proof.
  intros W Ha Hf. unfold on_object. destruct (GetOrNew_step s a W Ha) as (es & S1 & Hl & Hd).
  destruct (GetOrNewStateObject a s) as [o s1]. cbn in *.
  destruct (Hf s1 o) as [es2 S2]; [by destruct S1|done..|]. eexists. by eapply step_trans.
Qed.

Lemma CreateAccount_step s a : wf s → is_address a → ∃ es, step s (CreateAccount a s) es.
Proof.
  intros W Ha. unfold CreateAccount. rewrite createObject_created by done.
  destruct (getDeleted_steps s a W Ha) as [S1 Hl]. pose proof S1 as [W1 _ _ _ _ _ _ _].
  destruct (getDeleted_step s a) as (_ & _ & _ & _ & Hv); [by destruct W|done|].
  set (s1 := (getDeletedStateObject a s).2) in *. set (n := setNonce 0 (newObject a emptyAccount)).
  assert (∀ n', obj_wf a n' → ∃ es, step s (created s1 a n') es) as Hc.
  { intros n' Wn. destruct (created_step s1 a n' W1 Ha) as (es & S2 & _); [by rewrite Hv|done|].
    eexists. by eapply step_trans. }
  destruct (view s a) as [p|] eqn:V; [|apply Hc, emptyAccount_wf].
  destruct (deleted p); [apply Hc, emptyAccount_wf|].
  assert (obj_wf a (setBalance (Balance (data p)) n)) as Wn by apply setBalance_wf, emptyAccount_wf.
  destruct (Hc _ Wn) as [es S2]. exists es.
  replace (setStateObject (setBalance (Balance (data p)) n) (created s1 a n))
    with (created s1 a (setBalance (Balance (data p)) n)); [done|].
  unfold created. rewrite Hv. unfold setStateObject, set_stateObjects. cbn. f_equal.
  by rewrite insert_insert_eq.
Qed.

Lemma Suicide_step s a : wf s → is_address a → ∃ es, step s (Suicide a s).2 es.
Proof.
  intros W Ha. unfold Suicide. rewrite getStateObject_view.
  destruct (getDeleted_steps s a W Ha) as [S1 Hl]. pose proof S1 as [W1 _ _ _ _ _ _ _].
  destruct (view s a) as [o|] eqn:V; [|by eexists]. destruct (deleted o) eqn:Ed; [by eexists|]. cbn [snd].
  eexists. eapply step_trans; [exact S1|].
  pose proof (live_wf _ a o W1 Hl) as Wo.
  eapply (step_object _ a o _ _ (λ p, setBalance (Balance (data o)) (set_suicided (suicided o) p))); try done.
  - by apply setBalance_wf, set_suicided_wf.
  - by apply setBalance_wf, set_suicided_wf, setBalance_wf, set_suicided_wf.
  - replace (setBalance _ _) with o; [apply obj_eq_refl|]. by destruct o as [? ? []].
  - intros s' s2. unfold revert_object. cbn. by destruct (getStateObject a s') as [[]].
Qed.

(** Getters. *)
Lemma getStateObject_step s a : wf s → is_address a → step s (getStateObject a s).2 [].
Proof. intros W Ha. rewrite getStateObject_view. by apply getDeleted_steps. Qed.

Lemma getter_step {A} (f : StateDB → stateObject → A * stateObject) (d : A) s a :
  wf s → is_address a → (∀ s o, cached s o (f s o).2) →
  step s (let '(o, s) := getStateObject a s in
          match o with
          | Some o => let '(v, o) := f s o in (v, setStateObject o s)
          | None => (d, s)
          end).2 [].
Proof.
  intros W Ha Hf. rewrite getStateObject_view.
  destruct (getDeleted_steps s a W Ha) as [S1 Hl]. pose proof S1 as [W1 _ _ _ _ _ _ _].
  destruct (view s a) as [o|] eqn:V; [|done]. destruct (deleted o) eqn:Ed; [done|].
  specialize (Hf (getDeletedStateObject a s).2 o).
  destruct (f _ o) as [v o']. cbn in *. eapply (step_trans _ _ _ [] []); [exact S1|].
  by apply (step_cached _ a o).
Qed.

(** Steps whose entries dirty no account. *)
Lemma dirties_quiet es es' d x :
  Forall (λ e, dirtied e = None) es' → dirties_ok es d x → dirties_ok (es ++ es') d x.
Proof.
  intros Hq. revert es. induction Hq as [|e es' He Hq IH]; intros es Hd; [by rewrite app_nil_r|].
  rewrite cons_middle, app_assoc. apply IH.
  pose proof (dirties_append es d x e Hd) as Ha. by rewrite He in Ha.
Qed.

Lemma step_quiet s s' es s2 :
  wf s → rest_wf s' → stateObjects s' = stateObjects s → trie s' = trie s → snap s' = snap s →
  entries s' = entries s ++ es → dirties s' = dirties s →
  validRevisions s' = validRevisions s → nextRevisionId s' = nextRevisionId s →
  stateObjectsPending s' = stateObjectsPending s → stateObjectsDirty s' = stateObjectsDirty s →
  Forall (λ e, dirtied e = None) es → Forall (entry_wf s) es →
  revert_loop (rev es) s' = Some s2 → state_eq s2 s → step s s' es.
Proof.
  intros [Wo Wr We] Wr' E1 E2 E3 E4 E5 E6 E7 E8 E9 Hq Wes U E. split; try done.
  - split; [|done|].
    + destruct Wo. split; rewrite ?E1, ?E8, ?E9; try done. by apply (accounts_wf_ext s).
    + rewrite E4. apply Forall_app. split; (eapply Forall_impl; [eassumption|]);
        intros e; (apply entry_wf_sub; [done|by rewrite E9]).
  - intros x Hx. exists x. split; [lia|]. rewrite E4, E5. by apply dirties_quiet.
  - by exists s2.
Qed.

(** Close the side conditions of [step_quiet]. *)
Ltac quiet := try done; try (by repeat constructor); try same_fields.

Lemma AddRefund_step s n : wf s → ∃ es, step s (AddRefund n s) es.
Proof.
  intros W. pose proof W as [_ [] _]. eexists [refundChange (refund s)].
  eapply step_quiet; quiet; [|by constructor].
  split; try done. cbn. apply u64_range.
Qed.

Lemma SubRefund_step s n s' : wf s → 0 ≤ n → SubRefund n s = Some s' → ∃ es, step s s' es.
Proof.
  intros W Hn. unfold SubRefund. cbn. pose proof W as [_ [] _]. destruct (refund s <? n) eqn:E; [done|].
  intros [= <-]. bool_prop. eexists [refundChange (refund s)].
  eapply step_quiet; quiet; [|by constructor].
  split; try done. cbn. unfold is_u64 in *. lia.
Qed.

Lemma AddPreimage_step s h p : wf s → ∃ es, step s (AddPreimage h p s) es.
Proof.
  intros W. unfold AddPreimage. destruct (preimages s !! h) eqn:E; [by eexists; apply step_refl|].
  pose proof W as [_ [] _]. eexists [addPreimageChange h]. eapply step_quiet; quiet.
  cbn. split; try done; cbn; [by apply delete_insert_id|]. intros a _.
  rewrite (view_ext _ s a) by done. apply option_obj_eq_refl.
Qed.

Lemma u64_succ_pred n : is_u64 n → u64 (u64 (n + 1) - 1) = n.
Proof.
  intros Hn. unfold u64. rewrite Zminus_mod_idemp_l, Z.add_simpl_r. by apply Z.mod_small.
Qed.

Lemma AddLog_step s l : wf s → ∃ es, step s (AddLog l s) es.
Proof.
  intros W. pose proof W as [_ [] _]. eexists [addLogChange (thash s)].
  set (old := default [] (logs s !! thash s)).
  assert (∃ s2, revert_entry (addLogChange (thash s)) (AddLog l s) = Some s2
    ∧ (∃ m, s2 = set_logSize (u64 (u64 (logSize s + 1) - 1)) (set_logs m (AddLog l s)) ∧ m = logs s)) as (s2 & U & m & -> & ->).
  { cbn. rewrite lookup_insert_eq. cbn. fold old. rewrite length_app. cbn.
    destruct (logs s !! thash s) as [ls|] eqn:E; cbn in old.
    - assert (ls ≠ []) as Hne by (intros ->; by eapply cw_logs0). destruct ls as [|l0 ls]; [done|].
      subst old. cbn. replace (length ls + 1 =? 0)%nat with false by (symmetry; apply Nat.eqb_neq; lia). cbn.
      eexists. split; [done|]. eexists. split; [done|].
      rewrite insert_insert_eq. rewrite Nat.sub_0_r, Nat.add_1_r. cbn.
      rewrite (take_app_length' ls) by lia. by apply insert_id.
    - subst old. cbn. eexists. split; [done|]. eexists. split; [done|]. by apply delete_insert_id. }
  eapply step_quiet; quiet.
  - split; try done; cbn; [apply u64_range|]. intros h. rewrite lookup_insert_Some.
    intros [[_ E]|[_ E]]; [by destruct (default [] _)|by eapply cw_logs0].
  - cbn [rev app revert_loop]. rewrite U. done.
  - split; try done; cbn; [by apply u64_succ_pred|]. intros a _.
    rewrite (view_ext _ s a) by done. apply option_obj_eq_refl.
Qed.

Lemma AddAddress_step s a : wf s → ∃ es, step s (AddAddressToAccessList a s) es.
Proof.
  intros W. pose proof W as [_ [] _]. pose proof (AddAddress_ok (accessList_ s) a cw_accessList0) as Hok.
  unfold AddAddressToAccessList. unfold AddAddress in *.
  destruct (addresses (accessList_ s) !! a) as [i|] eqn:E; cbn in Hok.
  - exists []. replace (set_accessList_ _ s) with s by (by destruct s). by apply step_refl.
  - eexists [accessListAddAccountChange a]. eapply step_quiet; quiet.
    split; try done; cbn.
    + unfold DeleteAddress. cbn. rewrite delete_insert_id by done. by destruct (accessList_ s).
    + intros b _. rewrite (view_ext _ s b) by done. apply option_obj_eq_refl.
Qed.

Lemma AddSlot_step s a k :
  wf s → ∃ s' es, AddSlotToAccessList a k s = Some s' ∧ step s s' es.
Proof.
  intros W. pose proof W as [_ [] _]. unfold AddSlotToAccessList.
  destruct (AddSlot_added (accessList_ s) a k cw_accessList0) as (ac & sc & al' & E & Ha). rewrite E. cbn.
  pose proof (added_ok _ _ _ _ _ _ cw_accessList0 Ha) as Hok.
  pose proof (undo_added _ _ _ _ _ _ cw_accessList0 Ha) as Hu. unfold undo_add in Hu.
  assert (∀ s2, accessList_ s2 = accessList_ s → set_accessList_ (accessList_ s) s2 = s2) as Hid.
  { intros s2 <-. by destruct s2. }
  assert (sc = false → ac = false) as Hf by (by destruct Ha).
  eexists _, ((if ac then [accessListAddAccountChange a] else [])
              ++ (if sc then [accessListAddSlotChange a k] else [])). split; [done|].
  destruct ac, sc; cbn in Hu |- *.
  - destruct (DeleteSlot al' a k) as [al1|] eqn:Ed; [|done]. cbn in Hu. injection Hu as Hu.
    eapply step_quiet; quiet; [by rewrite <- app_assoc|cbn; rewrite Ed; cbn; reflexivity|].
    split; try done. intros b _. rewrite (view_ext _ s b) by done. apply option_obj_eq_refl.
  - by specialize (Hf eq_refl).
  - destruct (DeleteSlot al' a k) as [al1|] eqn:Ed; [|done]. cbn in Hu. injection Hu as ->.
    eapply step_quiet; quiet; [cbn; rewrite Ed; cbn; reflexivity|].
    split; try done. intros b _. rewrite (view_ext _ s b) by done. apply option_obj_eq_refl.
  - injection Hu as ->. rewrite Hid by done. by apply step_refl.
Qed.

(** ** Operations of a transaction *)

Inductive state_op :=
| OpExist (a : Address) | OpEmpty (a : Address) | OpGetBalance (a : Address) | OpGetNonce (a : Address)
| OpGetCode (a : Address) | OpGetCodeSize (a : Address) | OpGetCodeHash (a : Address)
| OpHasSuicided (a : Address)
| OpGetState (a : Address) (k : Hash) | OpGetCommittedState (a : Address) (k : Hash)
| OpCreateAccount (a : Address)
| OpAddBalance (a : Address) (v : Z) | OpSubBalance (a : Address) (v : Z) | OpSetBalance (a : Address) (v : Z)
| OpSetNonce (a : Address) (v : Z) | OpSetCode (a : Address) (c : option bytes)
| OpSetState (a : Address) (k v : Hash) | OpSuicide (a : Address)
| OpAddLog (l : Log) | OpAddPreimage (h : Hash) (p : bytes)
| OpAddRefund (n : Z) | OpSubRefund (n : Z)
| OpAddAddress (a : Address) | OpAddSlot (a : Address) (k : Hash)
| OpSnapshot | OpRevert (id : Z).

(** [None] is a panic. *)
Definition exec (q : state_op) s : option StateDB :=
  match q with
  | OpExist a => Some (Exist a s).2
  | OpEmpty a => Some (Empty a s).2
  | OpGetBalance a => Some (GetBalance a s).2
  | OpGetNonce a => Some (GetNonce a s).2
  | OpGetCode a => Some (GetCode a s).2
  | OpGetCodeSize a => Some (GetCodeSize a s).2
  | OpGetCodeHash a => Some (GetCodeHash a s).2
  | OpHasSuicided a => Some (HasSuicided a s).2
  | OpGetState a k => Some (GetState a k s).2
  | OpGetCommittedState a k => Some (GetCommittedState a k s).2
  | OpCreateAccount a => Some (CreateAccount a s)
  | OpAddBalance a v => Some (AddBalance a v s)
  | OpSubBalance a v => Some (SubBalance a v s)
  | OpSetBalance a v => Some (SetBalance a v s)
  | OpSetNonce a v => Some (SetNonce a v s)
  | OpSetCode a c => Some (SetCode a c s)
  | OpSetState a k v => Some (SetState a k v s)
  | OpSuicide a => Some (Suicide a s).2
  | OpAddLog l => Some (AddLog l s)
  | OpAddPreimage h p => Some (AddPreimage h p s)
  | OpAddRefund n => Some (AddRefund n s)
  | OpSubRefund n => SubRefund n s
  | OpAddAddress a => Some (AddAddressToAccessList a s)
  | OpAddSlot a k => AddSlotToAccessList a k s
  | OpSnapshot => Some (Snapshot s).2
  | OpRevert id => RevertToSnapshot id s
  end.

Fixpoint exec_all (qs : list state_op) s : option StateDB :=
  match qs with
  | [] => Some s
  | q :: qs => s ← exec q s; exec_all qs s
  end.

(** Arguments are addresses and amounts of smoke, and no revision up to [id]
    is reverted. *)
Definition op_wf (id : Z) (q : state_op) : Prop :=
  match q with
  | OpExist a | OpEmpty a | OpGetBalance a | OpGetNonce a | OpGetCode a | OpGetCodeSize a
  | OpGetCodeHash a | OpHasSuicided a | OpGetState a _ | OpGetCommittedState a _ | OpCreateAccount a
  | OpAddBalance a _ | OpSubBalance a _ | OpSetBalance a _ | OpSetNonce a _ | OpSetCode a _
  | OpSetState a _ _ | OpSuicide a => is_address a
  | OpSubRefund n => 0 ≤ n
  | OpRevert id' => id < id'
  | _ => True
  end.

Lemma exec_step id q s s' :
  wf s → op_wf id q → exec q s = Some s' →
  match q with OpSnapshot | OpRevert _ => True | _ => ∃ es, step s s' es end.
Proof.
  intros W Wo. destruct q; cbn [op_wf exec] in *; try done; intros E;
    try (injection E as <-);
    try (unfold Exist, Empty, GetBalance, GetNonce, GetCodeHash, HasSuicided;
         pose proof (getStateObject_step s a W Wo) as St;
         destruct (getStateObject a s); by eexists);
    try (by eexists; apply (getter_step (λ _ o, Code o)); try done; intros; apply cached_Code);
    try (by eexists; apply (getter_step (λ _ o, CodeSize o)); try done; intros; apply cached_CodeSize);
    try (by eexists; apply (getter_step (λ s o, obj_GetState s k o)); try done; intros; apply cached_state_step);
    try (by eexists; apply (getter_step (λ s o, obj_GetCommittedState s k o)); try done; intros;
         apply cached_committed_step).
  - by apply CreateAccount_step.
  - apply on_object_step; try done. intros. by apply (obj_AddBalance_step _ a).
  - apply on_object_step; try done. intros. by apply (obj_SubBalance_step _ a).
  - apply on_object_step; try done. intros. by apply (obj_SetBalance_step _ a).
  - apply on_object_step; try done. intros. by apply (obj_SetNonce_step _ a).
  - apply on_object_step; try done. intros. by apply (obj_SetCode_step _ a).
  - apply on_object_step; try done. intros. by apply (obj_SetState_step _ a).
  - by apply Suicide_step.
  - by apply AddLog_step.
  - by apply AddPreimage_step.
  - by apply AddRefund_step.
  - by eapply SubRefund_step.
  - by apply AddAddress_step.
  - destruct (AddSlot_step s a k W) as (s1 & es & E1 & St). exists es. by simplify_eq.
Qed.

(** ** Binary search *)

Lemma sort_Search_loop_spec fuel i j k f :
  (i ≤ k ≤ j)%nat → (j - i ≤ fuel)%nat →
  (∀ m, (m < k)%nat → f m = false) → (∀ m, (k ≤ m < j)%nat → f m = true) →
  sort_Search_loop fuel i j f = k.
Proof.
  revert i j. induction fuel as [|fuel IH]; intros i j Hk Hf H1 H2; cbn [sort_Search_loop]; [lia|].
  destruct (Nat.ltb_spec i j) as [Hij|]; [|lia].
  assert (i ≤ (i + j) / 2 < j)%nat as Hh.
  { split; [apply Nat.div_le_lower_bound; lia|apply Nat.div_lt_upper_bound; lia]. }
  set (h := ((i + j) / 2)%nat) in *. clearbody h. destruct (decide (h < k)%nat) as [Hlt|Hge].
  - rewrite H1 by done. cbn [negb]. apply IH; try lia; done.
  - rewrite H2 by lia. cbn [negb]. apply IH; try lia; [done|]. intros m Hm. apply H2. lia.
Qed.

Lemma sort_Search_spec n k f :
  (k ≤ n)%nat → (∀ m, (m < k)%nat → f m = false) → (∀ m, (k ≤ m < n)%nat → f m = true) →
  sort_Search n f = k.
Proof. intros Hk H1 H2. apply sort_Search_loop_spec; try done; lia. Qed.

(** ** Revisions *)

Record rev_ok s : Prop := {
  ro_sorted : ∀ i j p q, validRevisions s !! i = Some p → validRevisions s !! j = Some q → (i < j)%nat →
    p.1 < q.1 ∧ (p.2 ≤ q.2)%nat;
  ro_bound : ∀ i p, validRevisions s !! i = Some p → p.1 < nextRevisionId s ∧ (p.2 ≤ length (entries s))%nat
}.

Lemma search_revision s k id n :
  rev_ok s → validRevisions s !! k = Some (id, n) →
  sort_Search (length (validRevisions s))
    (λ i, match validRevisions s !! i with Some (id', _) => id <=? id' | None => true end) = k.
Proof.
  intros [Hs _] Hk. apply lookup_lt_Some in Hk as Hlt. apply sort_Search_spec; [lia|..].
  - intros m Hm. destruct (lookup_lt_is_Some_2 (validRevisions s) m) as [[id' n'] E]; [lia|]. rewrite E.
    destruct (Hs m k _ _ E Hk Hm). cbn in *. lia.
  - intros m Hm. destruct (lookup_lt_is_Some_2 (validRevisions s) m) as [[id' n'] E]; [lia|]. rewrite E.
    destruct (decide (m = k)) as [->|Hne]; [simplify_eq; lia|].
    destruct (Hs k m _ _ Hk E ltac:(lia)). cbn in *. lia.
Qed.

(** Undoing down to [n] entries succeeds. *)
Definition restores s (n : nat) (c : StateDB) : Prop :=
  ∃ t, revert_loop (rev (drop n (entries s))) s = Some t ∧ state_eq t c.

Lemma RevertToSnapshot_at s k id n c :
  wf s → rev_ok s → validRevisions s !! k = Some (id, n) → restores s n c →
  ∃ t s', RevertToSnapshot id s = Some s'
    ∧ undone (rev (drop n (entries s))) s t ∧ state_eq t c
    ∧ revert_loop (rev (drop n (entries s))) s = Some t
    ∧ s' = set_validRevisions (take k (validRevisions s)) (set_entries (take n (entries s)) t).
Proof.
  intros [Wo Wr We] Hr Hk (t & U & E).
  destruct (revert_loop_proper (rev (drop n (entries s))) s s t) as (Hun & _); try done.
  { apply state_eq_refl. } { by apply Forall_rev, Forall_drop. }
  exists t. unfold RevertToSnapshot. rewrite (search_revision s k id n), Hk by done. cbn. zcmp. cbn.
  unfold journal_revert. rewrite U. cbn. eexists. split; [done|]. split; [done|]. split; [done|].
  split; [done|]. destruct Hun. by rewrite un_entries0, un_revisions0.
Qed.

Lemma restores_proper s s' n c :
  wf s → objs_wf s' → state_eq s s' → entries s' = entries s → restores s n c → restores s' n c.
Proof.
  intros [Wo Wr We] Wo' E En (t & U & Et).
  destruct (revert_loop_proper (rev (drop n (entries s))) s s' t) as (_ & t' & U' & _ & E'); try done.
  { by apply Forall_rev, Forall_drop. }
  exists t'. rewrite En. split; [done|]. eapply state_eq_trans; [apply state_eq_sym|]; done.
Qed.

Lemma restores_step s s' es n c :
  wf s → step s s' es → (n ≤ length (entries s))%nat → restores s n c → restores s' n c.
Proof.
  intros [Wo Wr We] S Hn (t & U & Et). destruct S as [[Wo' Wr' We'] A1 _ _ _ _ _ (s2 & U2 & E2)].
  destruct (revert_loop_proper (rev es) s' s' s2) as ([] & _); try done.
  { apply state_eq_refl. } { apply Forall_rev. rewrite A1 in We'. by apply Forall_app in We' as [_ ?]. }
  destruct (revert_loop_proper (rev (drop n (entries s))) s s2 t) as (_ & t' & U' & _ & E'); try done.
  { by apply state_eq_sym. } { by apply Forall_rev, Forall_drop. }
  exists t'. rewrite A1, drop_app_le, rev_app_distr, revert_loop_app, U2 by lia. split; [done|].
  eapply state_eq_trans; [apply state_eq_sym|]; done.
Qed.

(** The state while the revision taken at [c] is valid. *)
Record inv (c : StateDB) (x : Z) s : Prop := {
  iv_wf : wf s;
  iv_rev : rev_ok s;
  iv_prefix : take (length (validRevisions c)) (validRevisions s) = validRevisions c;
  iv_this : validRevisions s !! length (validRevisions c) = Some (nextRevisionId c, length (entries c));
  iv_entries : take (length (entries c)) (entries s) = entries c;
  iv_next : nextRevisionId c < nextRevisionId s;
  iv_base : restores s (length (entries c)) c;
  iv_restores : ∀ i p, (length (validRevisions c) ≤ i)%nat → validRevisions s !! i = Some p →
    ∃ c', rest_wf c' ∧ restores s p.2 c';
  iv_dirties : ∃ y, x ≤ y ∧ dirties_ok (entries s) (dirties s) y
}.

Lemma inv_step c x s s' es : inv c x s → step s s' es → inv c x s'.
Proof.
  intros [W Hr Hp Ht He Hn Hb Hrs Hd] S. pose proof S as [W' A1 A2 A3 A4 A5 A6 _].
  destruct Hr as [Hso Hbo].
  assert (length (entries c) ≤ length (entries s))%nat as Hlen by (rewrite <- He, length_take; lia).
  split; try done; try (rewrite ?A2, ?A3; done).
  - split; rewrite A2; [done|]. rewrite A1, A3, length_app. intros i p Hi. destruct (Hbo i p Hi). split; [done|lia].
  - rewrite A1, take_app_le by lia. done.
  - by apply (restores_step s s' es).
  - rewrite A2. intros i p Hi E. destruct (Hrs i p Hi E) as (c' & Wc & Hc). exists c'. split; [done|].
    apply (restores_step s s' es); try done. by destruct (Hbo i p E).
  - destruct Hd as (y & Hy & Hd). destruct (A6 y Hd) as (z & Hz & Hdz). exists z. split; [lia|done].
Qed.

Lemma inv_snapshot c x s : inv c x s → inv c x (Snapshot s).2.
Proof.
  intros [W Hr Hp Ht He Hn Hb Hrs Hd]. pose proof W as [Wo Wr We]. destruct Hr as [Hso Hbo].
  assert (state_eq s (Snapshot s).2) as E by same_fields.
  assert (objs_wf (Snapshot s).2) as Wo' by (destruct Wo; by split).
  apply lookup_lt_Some in Ht as Hlt. unfold Snapshot in *. cbn in *.
  split; try done; cbn.
  - split; [done|by eapply rest_wf_eq|]. eapply Forall_impl; [exact We|]. by intros [].
  - split; cbn.
    + intros i j p q Hi Hj Hij. rewrite lookup_snoc_Some in Hi, Hj.
      destruct Hi as [[Hil Hi]|[-> <-]]; destruct Hj as [[Hjl Hj]|[-> <-]]; try lia; [by eapply Hso|].
      destruct (Hbo i p Hi). cbn. done.
    + intros i p. rewrite lookup_snoc_Some. intros [[_ Hi]|[-> <-]]; [|cbn; lia].
      destruct (Hbo i p Hi). split; [lia|done].
  - by rewrite take_app_le by lia.
  - by rewrite lookup_app_l.
  - lia.
  - by apply (restores_proper s).
  - intros i p Hi. rewrite lookup_snoc_Some. intros [[_ Hl]|[-> <-]].
    + destruct (Hrs i p Hi Hl) as (c' & Wc & Hc). exists c'. split; [done|]. by apply (restores_proper s).
    + exists s. split; [done|]. eexists. cbn. rewrite drop_all. split; [done|]. by apply state_eq_sym.
Qed.

Lemma restores_below s n m t c :
  (n ≤ m)%nat → restores s n c → revert_loop (rev (drop m (entries s))) s = Some t →
  ∃ t', revert_loop (rev (drop n (take m (entries s)))) t = Some t' ∧ state_eq t' c.
Proof.
  intros Hnm (t' & U & E) Um. exists t'. split; [|done].
  assert (drop n (entries s) = drop n (take m (entries s)) ++ drop m (entries s)) as Hs.
  { rewrite <- (take_drop m (entries s)) at 1. destruct (decide (m ≤ length (entries s))%nat).
    - rewrite drop_app_le by (rewrite length_take; lia). done.
    - rewrite (drop_ge _ m), !app_nil_r by lia. done. }
  rewrite Hs, rev_app_distr, revert_loop_app, Um in U. done.
Qed.

Lemma inv_revert c x s id s' :
  inv c x s → nextRevisionId c < id → RevertToSnapshot id s = Some s' → inv c x s'.
Proof.
  intros I Hid R. pose proof I as [W Hr Hp Ht He Hn Hb Hrs Hd].
  assert (∃ k n, validRevisions s !! k = Some (id, n)) as (k & n & Hk).
  { unfold RevertToSnapshot in R. destruct (validRevisions s !! _) as [[id' n]|] eqn:E; [|done]. cbn in R.
    destruct (id' =? id) eqn:Eid; [|done]. bool_prop. subst id'. eauto. }
  assert (length (validRevisions c) < k)%nat as Hck.
  { destruct (decide (length (validRevisions c) < k)%nat); [done|]. exfalso.
    destruct (decide (k = length (validRevisions c))) as [->|]; [simplify_eq; lia|].
    destruct (ro_sorted _ Hr k (length (validRevisions c)) _ _ Hk Ht ltac:(lia)). cbn in *. lia. }
  destruct (ro_sorted _ Hr _ _ _ _ Ht Hk Hck) as [_ Hcn]. cbn in Hcn.
  destruct (Hrs k (id, n) ltac:(lia) Hk) as (c' & Wc' & Hc'). cbn in Hc'.
  destruct (RevertToSnapshot_at s k id n c' W Hr Hk Hc') as (t & s'' & R' & [] & Et & U & Es).
  rewrite R in R'. injection R' as <-. destruct (ro_bound _ Hr k _ Hk) as [_ Hnl]. cbn in Hnl.
  assert (objs_wf s') as Wo' by (subst s'; destruct un_wf0; by split).
  assert (state_eq t s') as Ets by (subst s'; same_fields).
  assert (Forall (entry_wf s') (take n (entries s))) as Wes.
  { destruct W as [_ _ We]. eapply Forall_impl; [by apply Forall_take|]. intros e.
    subst s'. apply (entry_wf_sub s); done. }
  assert (entries s' = take n (entries s)) as Een by (by subst s').
  assert (validRevisions s' = take k (validRevisions s)) as Ev by (by subst s').
  assert (nextRevisionId s' = nextRevisionId s) as Enx by (by subst s').
  assert (dirties s' = dirties t) as Edi by (by subst s'). clear Es.
  assert (∀ m d, (m ≤ n)%nat → restores s m d → restores s' m d) as Hres.
  { intros m d Hm Hd'. destruct (restores_below s m n t d Hm Hd' U) as (t' & U' & E').
    destruct (revert_loop_proper (rev (drop m (take n (entries s)))) t s' t') as (_ & t2 & U2 & _ & E2); try done.
    - apply Forall_rev, Forall_drop. eapply Forall_impl; [exact Wes|]. intros e.
      apply entry_wf_sub; [by destruct Ets|by rewrite (se_dirty _ _ Ets)].
    - exists t2. rewrite Een. split; [done|]. eapply state_eq_trans; [apply state_eq_sym|]; done. }
  split.
  - split; [done| |by rewrite Een]. eapply rest_wf_eq; [|exact Wc'].
    eapply state_eq_trans; [apply state_eq_sym; exact Et|done].
  - split; rewrite Ev.
    + intros i j p q Hi Hj. apply lookup_take_Some in Hi as [Hi _]. apply lookup_take_Some in Hj as [Hj _].
      by eapply (ro_sorted _ Hr).
    + rewrite Een, Enx. intros i p Hi. apply lookup_take_Some in Hi as [Hi Hik].
      destruct (ro_bound _ Hr i p Hi). split; [done|]. rewrite length_take.
      destruct (ro_sorted _ Hr i k _ _ Hi Hk Hik). cbn in *. lia.
  - by rewrite Ev, take_take, Nat.min_l by lia.
  - by rewrite Ev, lookup_take_lt.
  - by rewrite Een, take_take, Nat.min_l by lia.
  - by rewrite Enx.
  - by apply Hres.
  - rewrite Ev. intros i p Hi Hl. apply lookup_take_Some in Hl as [Hl Hik].
    destruct (Hrs i p Hi Hl) as (d & Wd & Hd'). exists d. split; [done|]. apply Hres; [|done].
    by destruct (ro_sorted _ Hr i k _ _ Hl Hk Hik).
  - destruct Hd as (y & Hy & Hdy). exists y. split; [done|].
    rewrite Een, Edi, un_dirties0. apply dirties_undo. by rewrite take_drop.
Qed.

(** ** Answers *)

(** Everything that callers can read is the same. *)
Record same_answers s1 s2 : Prop := {
  sa_Exist : ∀ a, is_address a → (Exist a s1).1 = (Exist a s2).1;
  sa_Empty : ∀ a, is_address a → (Empty a s1).1 = (Empty a s2).1;
  sa_GetBalance : ∀ a, is_address a → (GetBalance a s1).1 = (GetBalance a s2).1;
  sa_GetNonce : ∀ a, is_address a → (GetNonce a s1).1 = (GetNonce a s2).1;
  sa_GetCode : ∀ a, is_address a → (GetCode a s1).1 = (GetCode a s2).1;
  sa_GetCodeSize : ∀ a, is_address a → (GetCodeSize a s1).1 = (GetCodeSize a s2).1;
  sa_GetCodeHash : ∀ a, is_address a → (GetCodeHash a s1).1 = (GetCodeHash a s2).1;
  sa_HasSuicided : ∀ a, is_address a → (HasSuicided a s1).1 = (HasSuicided a s2).1;
  sa_GetState : ∀ a k, is_address a → (GetState a k s1).1 = (GetState a k s2).1;
  sa_GetCommittedState : ∀ a k, is_address a →
    (GetCommittedState a k s1).1 = (GetCommittedState a k s2).1;
  sa_GetRefund : GetRefund s1 = GetRefund s2;
  sa_GetLogs : ∀ h, GetLogs h s1 = GetLogs h s2;
  sa_logSize : logSize s1 = logSize s2;
  sa_preimages : preimages s1 = preimages s2;
  sa_AddressInAccessList : ∀ a, AddressInAccessList a s1 = AddressInAccessList a s2;
  sa_SlotInAccessList : ∀ a k, SlotInAccessList a k s1 = SlotInAccessList a k s2
}.

(** The object a getter works on, if the account exists. *)
Definition existing s a : option stateObject :=
  match view s a with Some o => if deleted o then None else Some o | None => None end.

Lemma existing_eq s1 s2 a :
  state_eq s1 s2 → is_address a → option_Forall2 (obj_eq s1) (existing s1 a) (existing s2 a).
Proof.
  intros E Ha. unfold existing. destruct (se_view _ _ E a Ha) as [o1 o2 O|]; [|constructor].
  rewrite <- (oe_deleted _ _ _ O). destruct (deleted o1); by constructor.
Qed.

Lemma getter_answer {A} (f : StateDB → stateObject → A * stateObject) (d : A) s a :
  (let '(o, s) := getStateObject a s in
   match o with
   | Some o => let '(v, o) := f s o in (v, setStateObject o s)
   | None => (d, s)
   end).1 = match existing s a with Some o => (f (getDeletedStateObject a s).2 o).1 | None => d end.
Proof.
  rewrite getStateObject_view. fold (existing s a). destruct (existing s a) as [o|]; [|done].
  by destruct (f _ o).
Qed.

Lemma read_answer {A} (f : option stateObject → A) s a :
  (let '(o, s) := getStateObject a s in (f o, s)).1 = f (existing s a).
Proof. by rewrite getStateObject_view. Qed.

Lemma getDeleted_env s a h : objs_wf s → is_address a → same_env (getDeletedStateObject a s).2 s h.
Proof.
  intros W Ha. apply state_eq_env. by destruct (getDeleted_step s a W Ha).
Qed.

Lemma state_eq_answers s1 s2 : objs_wf s1 → objs_wf s2 → state_eq s1 s2 → same_answers s1 s2.
Proof.
  intros W1 W2 E. pose proof (λ a, existing_eq s1 s2 a E) as Hv.
  split; try (intros a Ha; specialize (Hv a Ha)); try (by destruct E).
  - answers (read_answer (λ x, match x with Some _ => true | None => false end)). by destruct Hv.
  - answers (read_answer (λ x, match x with Some o => empty o | None => true end)).
    destruct Hv as [o1 o2 []|]; [|done]. unfold empty, obj_CodeHash. by rewrite oe_data0.
  - answers (read_answer (λ x, match x with Some o => Balance (data o) | None => 0 end)).
    destruct Hv as [o1 o2 []|]; congruence.
  - answers (read_answer (λ x, match x with Some o => Nonce (data o) | None => 0 end)).
    destruct Hv as [o1 o2 []|]; congruence.
  - answers (getter_answer (λ _ o, Code o) None). by destruct Hv as [o1 o2 []|].
  - answers (getter_answer (λ _ o, CodeSize o) 0). by destruct Hv as [o1 o2 []|].
  - answers (read_answer (λ x, match x with Some o => BytesToHash (obj_CodeHash o) | None => zero_hash end)).
    destruct Hv as [o1 o2 []|]; [|done]. unfold obj_CodeHash. by rewrite oe_data0.
  - answers (read_answer (λ x, match x with Some o => suicided o | None => false end)).
    destruct Hv as [o1 o2 []|]; congruence.
  - intros a k Ha. specialize (Hv a Ha). answers (getter_answer (λ s o, obj_GetState s k o) zero_hash).
    destruct Hv as [o1 o2 []|]; [|done]. fold (slot (getDeletedStateObject a s1).2 o1 k).
    fold (slot (getDeletedStateObject a s2).2 o2 k).
    rewrite (slot_env (getDeletedStateObject a s1).2 s1), (slot_env (getDeletedStateObject a s2).2 s2)
      by (by apply getDeleted_env).
    rewrite oe_slot0. apply slot_env. by apply state_eq_env.
  - intros a k Ha. specialize (Hv a Ha). 
    answers (getter_answer (λ s o, obj_GetCommittedState s k o) zero_hash).
    destruct Hv as [o1 o2 []|]; [|done]. fold (committed (getDeletedStateObject a s1).2 o1 k).
    fold (committed (getDeletedStateObject a s2).2 o2 k).
    rewrite (committed_env (getDeletedStateObject a s1).2 s1), (committed_env (getDeletedStateObject a s2).2 s2)
      by (by apply getDeleted_env).
    rewrite oe_committed0. apply committed_env. by apply state_eq_env.
  - unfold GetLogs. intros h. by rewrite (se_logs _ _ E).
  - unfold AddressInAccessList. intros a. by rewrite (se_accessList _ _ E).
  - unfold SlotInAccessList. intros a k. by rewrite (se_accessList _ _ E).
Qed.

(** A state between the operations of a transaction. *)
Definition state_wf s : Prop := wf s ∧ rev_ok s ∧ ∃ x, dirties_ok (entries s) (dirties s) x.

Lemma inv_init s x : wf s → rev_ok s → dirties_ok (entries s) (dirties s) x → inv s x (Snapshot s).2.
Proof.
  intros W Hr Hd. pose proof W as [Wo Wr We]. destruct Hr as [Hso Hbo].
  assert (state_eq (Snapshot s).2 s) as E by same_fields. unfold Snapshot in *. cbn in *.
  assert (restores (set_validRevisions (validRevisions s ++ [(nextRevisionId s, length (entries s))])
    (set_nextRevisionId (nextRevisionId s + 1) s)) (length (entries s)) s) as Hb.
  { eexists. cbn. by rewrite drop_all. }
  split; try done; cbn.
  - split; [destruct Wo; by split|by eapply rest_wf_eq; [apply state_eq_sym|]|].
    eapply Forall_impl; [exact We|]. by intros [].
  - split; cbn.
    + intros i j p q Hi Hj Hij. rewrite lookup_snoc_Some in Hi, Hj.
      destruct Hi as [[Hil Hi]|[-> <-]]; destruct Hj as [[Hjl Hj]|[-> <-]]; try lia; [by eapply Hso|].
      destruct (Hbo i p Hi). cbn. done.
    + intros i p. rewrite lookup_snoc_Some. intros [[_ Hi]|[-> <-]]; [|cbn; lia].
      destruct (Hbo i p Hi). split; [lia|done].
  - by rewrite take_app_length.
  - by rewrite lookup_app_r, Nat.sub_diag by done.
  - by rewrite take_ge by done.
  - lia.
  - intros i p Hi. rewrite lookup_snoc_Some. intros [[Hl _]|[-> <-]]; [lia|]. by exists s.
  - exists x. split; [lia|done].
Qed.

Lemma exec_inv c x q s s' :
  inv c x s → op_wf (nextRevisionId c) q → exec q s = Some s' → inv c x s'.
Proof.
  intros I Wq Ex. pose proof (exec_step _ q s s' (iv_wf _ _ _ I) Wq Ex) as Hs.
  destruct q; try (destruct Hs as [es S]; by eapply inv_step).
  - injection Ex as <-. by apply inv_snapshot.
  - by eapply inv_revert.
Qed.

Lemma exec_all_inv c x qs s s' :
  inv c x s → Forall (op_wf (nextRevisionId c)) qs → exec_all qs s = Some s' → inv c x s'.
Proof.
  intros I Wq. revert s I. induction Wq as [|q qs Hq _ IH]; intros s I; cbn; [by intros [= <-]|].
  destruct (exec q s) as [s1|] eqn:Ex; [|done]. cbn. apply IH. by eapply exec_inv.
Qed.

Lemma inv_final c x s :
  wf c → rev_ok c → dirties_ok (entries c) (dirties c) x → inv c x s →
  ∃ s', RevertToSnapshot (nextRevisionId c) s = Some s' ∧ state_eq s' c ∧ state_wf s'
    ∧ entries s' = entries c ∧ validRevisions s' = validRevisions c
    ∧ (∀ a, a ≠ ripemd → dirties s' !! a = dirties c !! a).
Proof.
  intros Wc Hrc Hdc [W Hr Hp Ht He Hn Hb Hrs Hd].
  destruct (RevertToSnapshot_at s _ _ _ c W Hr Ht Hb) as (t & s' & R & [] & Et & U & ->).
  eexists. split; [exact R|]. rewrite He, Hp.
  set (s' := set_validRevisions _ _). assert (state_eq t s') as Ets by same_fields.
  assert (state_eq s' c) as Es by (eapply state_eq_trans; [apply state_eq_sym|]; done).
  destruct Hd as (y & Hy & Hdy).
  assert (dirties_ok (entries c) (dirties s') y) as Hds.
  { change (dirties s') with (dirties t). rewrite un_dirties0. apply dirties_undo.
    rewrite <- He at 1. by rewrite take_drop. }
  split; [done|]. split; [|split; [done|split; [done|]]].
  - split; [|split; [|by exists y]].
    + destruct Wc as [_ Wr We]. split; [destruct un_wf0; by split|by eapply rest_wf_eq; [apply state_eq_sym|]|].
      eapply Forall_impl; [exact We|]. intros e. apply entry_wf_sub; [by destruct Es|by rewrite (se_dirty _ _ Es)].
    + destruct Hrc as [Hso Hbo]. split; [done|]. cbn. intros i p Hi. destruct (Hbo i p Hi). split; [|done].
      rewrite un_next0. lia.
  - intros a Ha. destruct Hds as [_ H1], Hdc as [_ H2]. rewrite H1, H2. by rewrite bool_decide_false.
Qed.
End revert.

(** ** Properties *)

(** C6: [RevertToSnapshot] restores the state of its [Snapshot].  From any
    state within a transaction, take a snapshot and run any operations of the
    state database that do not panic, nested snapshots and reverts of them
    included.  Reverting to the snapshot does not panic, and every getter then
    answers as before: balances, nonces, code, storage, existence and suicides
    of all accounts, refund, logs, preimages and access list.  The journal and
    the valid revisions are the old ones, and so are the dirty counters, except
    that of the [ripemd] precompile, which keeps its touches. *)
Theorem RevertToSnapshot_restores (B : Backend) (s s1 : StateDB) (qs : list state_op) :
  (∀ b, length (Keccak256 b) = 32%nat) →
  (∀ a b, length a = 20%nat → length b = 20%nat → Keccak256 a = Keccak256 b → a = b) →
  state_wf s → Forall (op_wf (Snapshot s).1) qs → exec_all qs (Snapshot s).2 = Some s1 →
  ∃ s2, RevertToSnapshot (Snapshot s).1 s1 = Some s2 ∧ same_answers s2 s ∧ state_wf s2
    ∧ entries s2 = entries s ∧ validRevisions s2 = validRevisions s
    ∧ (∀ a, a ≠ ripemd → dirties s2 !! a = dirties s !! a)
    ∧ stateObjectsPending s2 = stateObjectsPending s ∧ stateObjectsDirty s2 = stateObjectsDirty s
    ∧ snapDestructs s2 = snapDestructs s.
Proof.
  intros Hl Hinj (W & Hr & x & Hd) Wq Ex. pose proof (inv_init s x W Hr Hd) as I.
  pose proof (exec_all_inv Hl Hinj s x qs _ s1 I Wq Ex) as I1.
  destruct (inv_final Hl Hinj s x s1 W Hr Hd I1) as (s2 & R & E & W2 & He & Hv & Hdi).
  exists s2. split; [done|]. split; [apply (state_eq_answers Hl Hinj); [apply W2|apply W|done]|].
  destruct E. done.
Qed.

(** A snapshot layer that knows one account. *)
Definition addr1 : Address := replicate 19 0 ++ [17].
Definition addr2 : Address := replicate 19 0 ++ [18].

Definition example_backend : Backend := {|
  Trie := unit; Snap := unit; db_error := unit;
  TryGet _ _ := Ok []; TryUpdate _ _ t := (None, t); TryDelete _ t := (None, t);
  TrieHash t := (zero_hash, t);
  OpenStorageTrie _ _ := Ok tt; emptyTrie _ := tt;
  ContractCode _ _ := Err tt;
  snap_Account _ h :=
    if bool_decide (h = addr1 ++ replicate 12 0) then Ok (Some (SlimAccount 1 100 [] [])) else Ok None;
  snap_Storage _ _ _ := Ok [0x83; 1; 2; 3];
  Keccak256 b := take 32 (b ++ replicate 32 0)
|}.

Definition example_ops : list state_op :=
  [OpAddBalance addr1 5; OpSetState addr1 zero_hash (replicate 32 1); OpCreateAccount addr1;
   OpSetCode addr1 (Some [1; 2; 3]); OpSnapshot; OpAddBalance addr2 9; OpSuicide addr1; OpAddBalance ripemd 0;
   OpRevert 1; OpAddRefund 7; OpAddSlot addr2 zero_hash; OpAddLog (MkLog addr1 [] [5] 0 [] 0 [] 0 false);
   OpGetState addr1 zero_hash].

Lemma New_wf (B : Backend) (tr : Trie) (sn : option Snap) :
  accounts_wf (New tr sn) → state_wf (New tr sn).
Proof.
  intros Ha. split; [|split].
  - split; [by split|split; try done; apply newAccessList_ok|constructor].
  - split; intros *; cbn; by rewrite lookup_nil.
  - exists 0. split; [done|]. intros a. cbn. by case_bool_decide.
Qed.

Definition example_new : @StateDB example_backend := @New example_backend tt (Some tt).

Definition example_state : @StateDB example_backend :=
  default example_new
    (exec_all example_ops (Snapshot example_new).2).

Lemma example_run :
  exec_all example_ops (Snapshot example_new).2 = Some example_state.
Proof. vm_compute. reflexivity. Qed.

Lemma example_keccak_inj (a b : bytes) :
  length a = 20%nat → length b = 20%nat →
  @Keccak256 example_backend a = @Keccak256 example_backend b → a = b.
Proof.
  intros Ha Hb. cbn [Keccak256 example_backend]. intros Hab. apply (f_equal (take 20)) in Hab.
  by rewrite !take_take, !take_app_length' in Hab by lia.
Qed.

Lemma example_wf : state_wf example_new.
Proof. apply (New_wf example_backend). intros a d e. cbn. case_bool_decide; intros Hl; simplify_eq/=; by eexists. Qed.

Lemma RevertToSnapshot_restores_witness :
  ∃ s2, RevertToSnapshot 0 example_state = Some s2
    ∧ (GetBalance addr1 example_state).1 = 105 ∧ GetRefund example_state = 7
    ∧ same_answers s2 example_new.
Proof.
  destruct (RevertToSnapshot_restores example_backend example_new example_state example_ops)
    as (s2 & R & A & _).
  - intros b. cbn [Keccak256 example_backend]. rewrite length_take, length_app, length_replicate. lia.
  - exact example_keccak_inj.
  - exact example_wf.
  - repeat constructor; vm_compute; done.
  - exact example_run.
  - exists s2. split; [exact R|]. split; [vm_compute; reflexivity|]. split; [vm_compute; reflexivity|exact A].
Defined.
