(* ===== verification/StateCommit.v ===== *)
(** * The end of a transaction (src/core/state/statedb.go, state_object.go)

    [Finalise] ends a transaction: what was destructed, or was touched and is
    empty, is marked as deleted, the written storage slots become pending, and
    the journal is dropped.  [IntermediateRoot] then writes the pending objects
    into the storage tries and the account trie and returns the root hash.
    Loops over Go maps run in an order that is a parameter ([MapRange]).
    [Commit], which moves the tries to the trie database, is not modelled. *)
From S2P Require Import Prelude RlpEncode RlpRaw RlpDecode AccessList StateDB.
Local Open Scope Z_scope.

(** The iteration order of [range] over a set of addresses and a storage. *)
Class MapRange := {
  range_set : gset Address → list Address;
  range_storage : gmap Hash Hash → list (Hash * Hash)
}.

Class MapRangeLaws `{MapRange} := {
  law_range_set X : range_set X ≡ₚ elements X;
  law_range_storage m : range_storage m ≡ₚ map_to_list m
}.

Section commit.
Context `{Backend, MapRange}.

(** ** Finalise *)

Definition obj_finalise (o : stateObject) : stateObject :=
  set_dirtyStorage ∅ (set_pendingStorage (dirtyStorage o ∪ pendingStorage o) o).

(** One iteration of the loop over the dirty addresses. *)
Definition finalise_object (deleteEmptyObjects : bool) (s : StateDB) (addr : Address) : StateDB :=
  match stateObjects s !! addr with
  | None => s
  | Some obj =>
      let s :=
        if suicided obj || (deleteEmptyObjects && empty obj) then
          let s := setStateObject (set_deleted true obj) s in
          match snap s with
          | Some _ =>
              let s := set_snapDestructs ({[addrHash obj]} ∪ snapDestructs s) s in
              let s := set_snapAccounts (delete (addrHash obj) (snapAccounts s)) s in
              set_snapStorage (delete (addrHash obj) (snapStorage s)) s
          | None => s
          end
        else setStateObject (obj_finalise obj) s in
      let s := set_stateObjectsPending ({[addr]} ∪ stateObjectsPending s) s in
      set_stateObjectsDirty ({[addr]} ∪ stateObjectsDirty s) s
  end.

Definition clearJournalAndRefund (s : StateDB) : StateDB :=
  let s := if (0 <? len (entries s)) then set_refund 0 (set_dirties ∅ (set_entries [] s)) else s in
  set_validRevisions [] s.

Definition Finalise (deleteEmptyObjects : bool) (s : StateDB) : StateDB :=
  clearJournalAndRefund
    (foldl (finalise_object deleteEmptyObjects) s (range_set (dom (dirties s)))).

(** ** The storage trie of an object *)

Fixpoint TrimLeftZeroes (b : bytes) : bytes :=
  match b with x :: b' => if x =? 0 then TrimLeftZeroes b' else b | [] => [] end.

(** [rlp.EncodeToBytes] of a byte slice does not fail. *)
Definition slot_encoding (value : Hash) : bytes :=
  match EncodeToBytes (VBytes (TrimLeftZeroes value)) with Ok v => v | Err _ => [] end.

(** One pending slot: the trie, the object and the slots of the snapshot. *)
Definition update_slot (st : Trie * stateObject * option (gmap Hash bytes)) (kv : Hash * Hash)
    : Trie * stateObject * option (gmap Hash bytes) :=
  let '(tr, o, storage) := st in
  let '(key, value) := kv in
  if bool_decide (value = default zero_hash (originStorage o !! key)) then st
  else
    let o := set_originStorage (<[key := value]> (originStorage o)) o in
    let zero := bool_decide (value = zero_hash) in
    let v := if zero then [] else slot_encoding value in
    let '(err, tr) := if zero then TryDelete key tr else TryUpdate key v tr in
    let o := match err with Some e => obj_setError (ErrDatabase e) o | None => o end in
    (tr, o, (λ m, <[Keccak256 key := v]> m) <$> storage).

(** The returned trie is the one of the object. *)
Definition updateTrie (o : stateObject) (s : StateDB) : option Trie * stateObject * StateDB :=
  let o := obj_finalise o in
  if (length (map_to_list (pendingStorage o)) =? 0)%nat then (o_trie o, o, s)
  else
    let storage := match snap s with Some _ => Some (default ∅ (snapStorage s !! addrHash o)) | None => None end in
    let '(tr, o) := getTrie o in
    let '(tr, o, storage) := foldl update_slot (tr, o, storage) (range_storage (pendingStorage o)) in
    let o := set_o_trie (Some tr) (set_pendingStorage ∅ o) in
    let s := match storage with Some m => set_snapStorage (<[addrHash o := m]> (snapStorage s)) s | None => s end in
    (Some tr, o, s).

Definition updateRoot (o : stateObject) (s : StateDB) : stateObject * StateDB :=
  let '(tr, o, s) := updateTrie o s in
  match tr with
  | None => (o, s)
  | Some tr =>
      let '(root, tr) := TrieHash tr in
      (set_data (set_Root root (data o)) (set_o_trie (Some tr) o), s)
  end.

(** ** The account trie *)

(** The slim format of the snapshot layer (snapshot/account.go). *)
Definition SlimAccountRLP (nonce balance : Z) (root : Hash) (codehash : bytes) : result rlp_error bytes :=
  EncodeToBytes (VStruct [VUint nonce; VBigIntPtr (Some balance);
    VBytes (if bool_decide (root = emptyStateRoot) then [] else root);
    VBytes (if bool_decide (codehash = emptyCodeHash) then [] else codehash)]).

(** [None] is the panic on an account that cannot be encoded. *)
Definition updateStateObject (obj : stateObject) (s : StateDB) : option StateDB :=
  match EncodeToBytes (Account_value (data obj)) with
  | Err _ => None
  | Ok enc =>
      let '(err, tr) := TryUpdate (address obj) enc (trie s) in
      let s := set_trie tr s in
      let s := match err with Some e => setError (ErrUpdateObject (address obj) e) s | None => s end in
      match snap s with
      | None => Some s
      | Some _ =>
          let d := data obj in
          match SlimAccountRLP (Nonce d) (Balance d) (Root d) (obj_CodeHash obj) with
          | Ok slim => Some (set_snapAccounts (<[addrHash obj := slim]> (snapAccounts s)) s)
          | Err _ => None
          end
      end
  end.

Definition deleteStateObject (obj : stateObject) (s : StateDB) : StateDB :=
  let '(err, tr) := TryDelete (address obj) (trie s) in
  let s := set_trie tr s in
  match err with Some e => setError (ErrDeleteObject (address obj) e) s | None => s end.

(** One iteration over the pending addresses; [None] is a nil object. *)
Definition write_object (s : option StateDB) (addr : Address) : option StateDB :=
  s ← s;
  obj ← stateObjects s !! addr;
  if deleted obj then Some (deleteStateObject obj s)
  else
    let '(obj, s) := updateRoot obj s in
    updateStateObject obj (setStateObject obj s).

Definition IntermediateRoot (deleteEmptyObjects : bool) (s : StateDB) : option (Hash * StateDB) :=
  let s := Finalise deleteEmptyObjects s in
  s ← foldl write_object (Some s) (range_set (stateObjectsPending s));
  let s := set_stateObjectsPending ∅ s in
  let '(root, tr) := TrieHash (trie s) in
  Some (root, set_trie tr s).
End commit.
