(* ===== verification/ChainConfig.v ===== *)
(** * Chain configuration (src/params/config.go)

    The fork schedule of a chain: which forks are active at a block
    ([Rules]), whether a stored schedule may be replaced by a new one at a
    given height ([CheckCompatible]), and the order that forks must have
    ([CheckConfigForkOrder]).  A [*big.Int] that may be nil is an
    [option Z]. *)
From S2P Require Import Prelude.
Local Open Scope Z_scope.

Record ChainConfig := MkChainConfig {
  ChainID : option Z;
  HomesteadBlock : option Z;
  DAOForkBlock : option Z;
  DAOForkSupport : bool;
  EIP150Block : option Z;
  EIP150Hash : bytes;
  EIP155Block : option Z;
  EIP158Block : option Z;
  ByzantiumBlock : option Z;
  ConstantinopleBlock : option Z;
  PetersburgBlock : option Z;
  IstanbulBlock : option Z;
  MuirGlacierBlock : option Z;
  YoloV2Block : option Z;
  EWASMBlock : option Z
}.

Definition isForked (s head : option Z) : bool :=
  match s, head with Some s, Some head => s <=? head | _, _ => false end.

Definition configNumEqual (x y : option Z) : bool :=
  match x, y with
  | None, None => true
  | Some x, Some y => x =? y
  | _, _ => false
  end.

Definition isForkIncompatible (s1 s2 head : option Z) : bool :=
  (isForked s1 head || isForked s2 head) && negb (configNumEqual s1 s2).

Definition IsHomestead (c : ChainConfig) (num : option Z) : bool := isForked (HomesteadBlock c) num.
Definition IsDAOFork (c : ChainConfig) (num : option Z) : bool := isForked (DAOForkBlock c) num.
Definition IsEIP150 (c : ChainConfig) (num : option Z) : bool := isForked (EIP150Block c) num.
Definition IsEIP155 (c : ChainConfig) (num : option Z) : bool := isForked (EIP155Block c) num.
Definition IsEIP158 (c : ChainConfig) (num : option Z) : bool := isForked (EIP158Block c) num.
Definition IsByzantium (c : ChainConfig) (num : option Z) : bool := isForked (ByzantiumBlock c) num.
Definition IsConstantinople (c : ChainConfig) (num : option Z) : bool :=
  isForked (ConstantinopleBlock c) num.
Definition IsMuirGlacier (c : ChainConfig) (num : option Z) : bool :=
  isForked (MuirGlacierBlock c) num.
Definition IsPetersburg (c : ChainConfig) (num : option Z) : bool :=
  isForked (PetersburgBlock c) num
  || (bool_decide (PetersburgBlock c = None) && isForked (ConstantinopleBlock c) num).
Definition IsIstanbul (c : ChainConfig) (num : option Z) : bool := isForked (IstanbulBlock c) num.
Definition IsYoloV2 (c : ChainConfig) (num : option Z) : bool := isForked (YoloV2Block c) num.
Definition IsEWASM (c : ChainConfig) (num : option Z) : bool := isForked (EWASMBlock c) num.

Record Rules := MkRules {
  r_ChainID : Z;
  r_IsHomestead : bool; r_IsEIP150 : bool; r_IsEIP155 : bool; r_IsEIP158 : bool;
  r_IsByzantium : bool; r_IsConstantinople : bool; r_IsPetersburg : bool; r_IsIstanbul : bool;
  r_IsYoloV2 : bool
}.

Definition config_Rules (c : ChainConfig) (num : option Z) : Rules :=
  MkRules (default 0 (ChainID c)) (IsHomestead c num) (IsEIP150 c num) (IsEIP155 c num)
    (IsEIP158 c num) (IsByzantium c num) (IsConstantinople c num) (IsPetersburg c num)
    (IsIstanbul c num) (IsYoloV2 c num).

(** ** Compatibility of two schedules *)

Record ConfigCompatError := MkCompatError {
  What : string; StoredConfig : option Z; NewConfig : option Z; RewindTo : Z
}.

(** [rew.Uint64()] is the absolute value modulo 2^64; it is reached for
    positive [rew] only. *)
Definition newCompatError (what : string) (storedblock newblock : option Z) : ConfigCompatError :=
  let rew := match storedblock, newblock with
             | None, _ => newblock
             | Some _, None => storedblock
             | Some s, Some n => if s <? n then storedblock else newblock
             end in
  MkCompatError what storedblock newblock
    (match rew with
     | Some r => if 0 <? r then u64 (u64 r - 1) else 0
     | None => 0
     end).

Definition checkCompatible (c newcfg : ChainConfig) (head : option Z) : option ConfigCompatError :=
  let check (f : ChainConfig → option Z) (what : string) (next : option ConfigCompatError) :=
    if isForkIncompatible (f c) (f newcfg) head then Some (newCompatError what (f c) (f newcfg))
    else next in
  check HomesteadBlock "Homestead fork block"
  (check DAOForkBlock "DAO fork block"
  (if IsDAOFork c head && negb (eqb (DAOForkSupport c) (DAOForkSupport newcfg))
   then Some (newCompatError "DAO fork support flag" (DAOForkBlock c) (DAOForkBlock newcfg)) else
  (check EIP150Block "EIP150 fork block"
  (check EIP155Block "EIP155 fork block"
  (check EIP158Block "EIP158 fork block"
  (if IsEIP158 c head && negb (configNumEqual (ChainID c) (ChainID newcfg))
   then Some (newCompatError "EIP158 chain ID" (EIP158Block c) (EIP158Block newcfg)) else
  (check ByzantiumBlock "Byzantium fork block"
  (check ConstantinopleBlock "Constantinople fork block"
  (if isForkIncompatible (PetersburgBlock c) (PetersburgBlock newcfg) head
      && isForkIncompatible (ConstantinopleBlock c) (PetersburgBlock newcfg) head
   then Some (newCompatError "Petersburg fork block" (PetersburgBlock c) (PetersburgBlock newcfg)) else
  (check IstanbulBlock "Istanbul fork block"
  (check MuirGlacierBlock "Muir Glacier fork block"
  (check YoloV2Block "YOLOv2 fork block"
  (check EWASMBlock "ewasm fork block" None))))))))))))).

(** The loop of [CheckCompatible]; [None] is fuel exhaustion. *)
Fixpoint CheckCompatible_loop (fuel : nat) (c newcfg : ChainConfig)
    (lasterr : option ConfigCompatError) (bhead : Z) : option (option ConfigCompatError) :=
  match fuel with
  | O => None
  | S fuel =>
      match checkCompatible c newcfg (Some bhead) with
      | None => Some lasterr
      | Some err =>
          match lasterr with
          | Some l =>
              if RewindTo err =? RewindTo l then Some lasterr
              else CheckCompatible_loop fuel c newcfg (Some err) (RewindTo err)
          | None => CheckCompatible_loop fuel c newcfg (Some err) (RewindTo err)
          end
      end
  end.

(** Every round rewinds, so height + 2 rounds are enough
    ([CheckCompatible_terminates]). *)
Definition CheckCompatible (c newcfg : ChainConfig) (height : Z) : option (option ConfigCompatError) :=
  CheckCompatible_loop (Z.to_nat height + 2) c newcfg None height.

(** ** Fork order *)

Record fork := MkFork { f_name : string; f_block : option Z; f_optional : bool }.

Inductive order_error :=
| ErrNotEnabled (last cur : string) (at_block : Z)
| ErrOrder (last : string) (last_block : Z) (cur : string) (cur_block : Z).

Definition forks (c : ChainConfig) : list fork :=
  [MkFork "homesteadBlock" (HomesteadBlock c) false;
   MkFork "daoForkBlock" (DAOForkBlock c) true;
   MkFork "eip150Block" (EIP150Block c) false;
   MkFork "eip155Block" (EIP155Block c) false;
   MkFork "eip158Block" (EIP158Block c) false;
   MkFork "byzantiumBlock" (ByzantiumBlock c) false;
   MkFork "constantinopleBlock" (ConstantinopleBlock c) false;
   MkFork "petersburgBlock" (PetersburgBlock c) false;
   MkFork "istanbulBlock" (IstanbulBlock c) false;
   MkFork "muirGlacierBlock" (MuirGlacierBlock c) true;
   MkFork "yoloV2Block" (YoloV2Block c) false].

(** [lastFork] is [None] while its name is empty. *)
Fixpoint fork_order_loop (lastFork : option fork) (l : list fork) : option order_error :=
  match l with
  | [] => None
  | cur :: l =>
      let err :=
        match lastFork with
        | None => None
        | Some lastFork =>
            match f_block lastFork, f_block cur with
            | None, Some b => Some (ErrNotEnabled (f_name lastFork) (f_name cur) b)
            | Some a, Some b =>
                if b <? a then Some (ErrOrder (f_name lastFork) a (f_name cur) b) else None
            | _, None => None
            end
        end in
      match err with
      | Some e => Some e
      | None =>
          fork_order_loop
            (if negb (f_optional cur) || bool_decide (f_block cur ≠ None) then Some cur else lastFork) l
      end
  end.

Definition CheckConfigForkOrder (c : ChainConfig) : option order_error :=
  fork_order_loop None (forks c).

(** ** Theorems *)

(** A mismatch at [head] rewinds below [head], and to 0 at the least. *)
Lemma newCompatError_rewind what s1 s2 (head : Z) :
  0 ≤ head < 2 ^ 64 → (isForked s1 (Some head) || isForked s2 (Some head))%bool = true →
  0 ≤ RewindTo (newCompatError what s1 s2) ≤ head
  ∧ (RewindTo (newCompatError what s1 s2) = head → head = 0).
Proof.
  intros Hh Hf. unfold isForked in Hf. cbn [RewindTo newCompatError].
  destruct s1 as [a|], s2 as [b|]; try done; [destruct (Z.ltb_spec a b)|..];
    case_if; try lia; rewrite !u64_small by (unfold is_u64; rewrite ?u64_small; unfold is_u64; lia); lia.
Qed.

Lemma checkCompatible_rewind c n (head : Z) e :
  0 ≤ head < 2 ^ 64 → checkCompatible c n (Some head) = Some e →
  0 ≤ RewindTo e ≤ head ∧ (RewindTo e = head → head = 0).
Proof.
  intros Hh. unfold checkCompatible, isForkIncompatible, IsDAOFork, IsEIP158.
  repeat (case_if; [intros [= <-]; apply newCompatError_rewind; [done|]; bool_prop; try done;
    repeat match goal with H : isForked _ _ = true |- _ => rewrite H; clear H end; done|]).
  done.
Qed.

Lemma CheckCompatible_loop_spec c n fuel l (head : Z) :
  0 ≤ head < 2 ^ 64 → (Z.to_nat head < fuel)%nat →
  RewindTo l = head →
  ∃ e, CheckCompatible_loop fuel c n (Some l) head = Some (Some e)
    ∧ 0 ≤ RewindTo e ≤ head
    ∧ (RewindTo e = 0 ∨ checkCompatible c n (Some (RewindTo e)) = None).
Proof.
  revert l head. induction fuel as [|fuel IH]; intros l head Hh Hf Hl.
  { lia. }
  cbn [CheckCompatible_loop]. destruct (checkCompatible c n (Some head)) as [err|] eqn:E.
  - destruct (checkCompatible_rewind _ _ _ _ Hh E) as [H1 H2].
    destruct (Z.eqb_spec (RewindTo err) (RewindTo l)) as [He|He].
    + exists l. rewrite Hl in *. split; [done|]. split; [lia|]. left. lia.
    + destruct (IH err (RewindTo err)) as (e & -> & Hb & Hz); [lia|lia|done|].
      exists e. split; [done|]. split; [lia|done].
  - exists l. rewrite Hl. split; [done|]. split; [lia|by right].
Qed.

(** [CheckCompatible] always ends.  It returns nil exactly when the
    configurations agree on everything up to the given height; an error tells
    a height, not above the given one, at which they agree, or the genesis
    block. *)
Theorem CheckCompatible_rewinds (c n : ChainConfig) (height : Z) (Hh : 0 ≤ height < 2 ^ 64) :
  ∃ r, CheckCompatible c n height = Some r
    ∧ match r with
      | None => checkCompatible c n (Some height) = None
      | Some e => checkCompatible c n (Some height) ≠ None ∧ 0 ≤ RewindTo e ≤ height
                  ∧ (RewindTo e = 0 ∨ checkCompatible c n (Some (RewindTo e)) = None)
      end.
Proof.
  unfold CheckCompatible. replace (Z.to_nat height + 2)%nat with (S (Z.to_nat height + 1)) by lia.
  cbn [CheckCompatible_loop]. destruct (checkCompatible c n (Some height)) as [err|] eqn:E;
    [|by exists None].
  destruct (checkCompatible_rewind _ _ _ _ Hh E) as [H1 H2].
  destruct (CheckCompatible_loop_spec c n (Z.to_nat height + 1) err (RewindTo err)) as (e & -> & Hb & Hz);
    [lia|lia|done|].
  exists (Some e). split; [done|]. split; [done|]. split; [lia|done].
Qed.

Definition all_forks_at (k : option Z) : ChainConfig :=
  MkChainConfig (Some 420) k None false k zero_hash k k k k k k k None None.

Lemma CheckCompatible_rewinds_witness :
  ∃ e, CheckCompatible (all_forks_at (Some 100)) (all_forks_at (Some 50)) 200 = Some (Some e)
    ∧ RewindTo e = 49 ∧ checkCompatible (all_forks_at (Some 100)) (all_forks_at (Some 50)) (Some 49) = None.
Proof.
  destruct (CheckCompatible_rewinds (all_forks_at (Some 100)) (all_forks_at (Some 50)) 200) as (r & E & H); [lia|].
  vm_compute in E. injection E as <-. eexists. split; [by vm_compute|]. split; [done|].
  destruct H as (_ & _ & [H|H]); [done|exact H].
Defined.

(** ** Cumulative forks *)

Definition active (f : fork) (num : option Z) : bool := isForked (f_block f) num.

Lemma fork_order_step (a : fork) (l : list fork) (num : option Z) :
  fork_order_loop (Some a) l = None →
  Forall (λ f, active f num = true → active a num = true) l ∧ fork_order_loop None l = None.
Proof.
  revert a. induction l as [|b l IH]; intros a; cbn [fork_order_loop]; [done|].
  destruct (match f_block a, f_block b with
            | None, Some b0 => Some (ErrNotEnabled (f_name a) (f_name b) b0)
            | Some a0, Some b0 => if b0 <? a0 then Some (ErrOrder (f_name a) a0 (f_name b) b0) else None
            | _, None => None end) as [e|] eqn:E; [done|].
  assert (active b num = true → active a num = true) as Hab.
  { unfold active, isForked. destruct (f_block a), (f_block b), num; try done.
    destruct (Z.ltb_spec z0 z); [done|]. lia. }
  destruct (negb (f_optional b) || bool_decide (f_block b ≠ None)) eqn:Hb; intros H.
  - destruct (IH b H) as [H1 H2]. split; [|done]. constructor; [done|].
    eapply Forall_impl; [apply H1|]. naive_solver.
  - destruct (IH a H) as [H1 H2]. split; [|done]. by constructor.
Qed.

(** Each mandatory fork is active when a later fork is. *)
Fixpoint cumulative (l : list fork) (num : option Z) : Prop :=
  match l with
  | [] => True
  | a :: l => (f_optional a = false → Forall (λ f, active f num = true → active a num = true) l)
              ∧ cumulative l num
  end.

Lemma fork_order_cumulative l num : fork_order_loop None l = None → cumulative l num.
Proof.
  induction l as [|a l IH]; cbn [fork_order_loop cumulative]; [done|]. intros H.
  destruct (f_optional a) eqn:Ho; cbn [negb orb] in H.
  - split; [done|]. apply IH. case_bool_decide; [|done]. by eapply (fork_order_step a l num).
  - destruct (fork_order_step a l num H) as [H1 H2]. split; [done|]. by apply IH.
Qed.

(** In a configuration that [CheckConfigForkOrder] accepts the rules of
    every block are cumulative: a block under one fork is also under all the
    earlier ones, so that the feature tests of the code that look at a single
    flag agree with each other. *)
Theorem CheckConfigForkOrder_cumulative (c : ChainConfig) (num : option Z)
    (Hc : CheckConfigForkOrder c = None) :
  let r := config_Rules c num in
  (r_IsEIP150 r → r_IsHomestead r) ∧ (r_IsEIP155 r → r_IsEIP150 r) ∧ (r_IsEIP158 r → r_IsEIP155 r)
  ∧ (r_IsByzantium r → r_IsEIP158 r) ∧ (r_IsConstantinople r → r_IsByzantium r)
  ∧ (r_IsPetersburg r → r_IsConstantinople r) ∧ (r_IsIstanbul r → r_IsPetersburg r)
  ∧ (r_IsYoloV2 r → r_IsIstanbul r).
Proof.
  pose proof (fork_order_cumulative (forks c) num Hc) as H. clear Hc.
  cbn [cumulative forks f_optional] in H. unfold active in H. cbn [f_block] in H.
  destruct_and! H. repeat match goal with H : false = false → _ |- _ => specialize (H eq_refl) end.
  repeat match goal with H : Forall _ (_ :: _) |- _ => apply Forall_cons in H as [? H] end.
  cbn. unfold IsHomestead, IsEIP150, IsEIP155, IsEIP158, IsByzantium, IsConstantinople, IsPetersburg,
    IsIstanbul, IsYoloV2.
  repeat split; intros ?%Is_true_true; apply Is_true_true; try by auto.
  - match goal with E : (_ || _)%bool = true |- _ => apply orb_true_iff in E as [E|E] end; [by auto|].
    by bool_prop.
  - apply orb_true_iff. auto.
Qed.

Lemma CheckConfigForkOrder_cumulative_witness :
  CheckConfigForkOrder (all_forks_at (Some 10)) = None
  ∧ (r_IsIstanbul (config_Rules (all_forks_at (Some 10)) (Some 11)) → r_IsPetersburg (config_Rules (all_forks_at (Some 10)) (Some 11))).
Proof. split; [reflexivity|]. apply (CheckConfigForkOrder_cumulative (all_forks_at (Some 10)) (Some 11)). reflexivity. Defined.
