(* ===== verification/Params.v ===== *)
(** * Protocol parameters (src/params/protocol_params.go)

    The constants of the protocol, as notations for their values. *)
From S2P Require Import Prelude.
Local Open Scope Z_scope.

Notation SmokeLimitBoundDivisor := 1024 (only parsing).
Notation MinSmokeLimit := 5000 (only parsing).
Notation GenesisSmokeLimit := 5000000 (only parsing).
Notation MaximumExtraDataSize := 32 (only parsing).
Notation ExpByteSmoke := 10 (only parsing).
Notation SloadSmoke := 50 (only parsing).
Notation CallValueTransferSmoke := 9000 (only parsing).
Notation CallNewAccountSmoke := 25000 (only parsing).
Notation TxSmoke := 20000 (only parsing).
Notation TxSmokeContractCreation := 50000 (only parsing).
Notation TxDataZeroSmoke := 4 (only parsing).
Notation QuadCoeffDiv := 512 (only parsing).
Notation LogDataSmoke := 8 (only parsing).
Notation CallStipend := 2300 (only parsing).
Notation Sha3Smoke := 30 (only parsing).
Notation Sha3WordSmoke := 6 (only parsing).
Notation SstoreSetSmoke := 20000 (only parsing).
Notation SstoreResetSmoke := 5000 (only parsing).
Notation SstoreClearSmoke := 5000 (only parsing).
Notation SstoreRefundSmoke := 15000 (only parsing).
Notation NetSstoreNoopSmoke := 200 (only parsing).
Notation NetSstoreInitSmoke := 20000 (only parsing).
Notation NetSstoreCleanSmoke := 5000 (only parsing).
Notation NetSstoreDirtySmoke := 200 (only parsing).
Notation NetSstoreClearRefund := 15000 (only parsing).
Notation NetSstoreResetRefund := 4800 (only parsing).
Notation NetSstoreResetClearRefund := 19800 (only parsing).
Notation SstoreSentrySmokeEIP2200 := 2300 (only parsing).
Notation SstoreSetSmokeEIP2200 := 20000 (only parsing).
Notation SstoreResetSmokeEIP2200 := 5000 (only parsing).
Notation SstoreClearsScheduleRefundEIP2200 := 15000 (only parsing).
Notation JumpdestSmoke := 1 (only parsing).
Notation EpochDuration := 30000 (only parsing).
Notation CreateDataSmoke := 200 (only parsing).
Notation CallCreateDepth := 1024 (only parsing).
Notation ExpSmoke := 10 (only parsing).
Notation LogSmoke := 375 (only parsing).
Notation CopySmoke := 3 (only parsing).
Notation StackLimit := 1024 (only parsing).
Notation TierStepSmoke := 0 (only parsing).
Notation LogTopicSmoke := 375 (only parsing).
Notation CreateSmoke := 32000 (only parsing).
Notation Create2Smoke := 32000 (only parsing).
Notation SelfdestructRefundSmoke := 24000 (only parsing).
Notation MemorySmoke := 3 (only parsing).
Notation TxDataNonZeroSmokeFrontier := 68 (only parsing).
Notation TxDataNonZeroSmokeEIP2028 := 16 (only parsing).
Notation CallSmokeFrontier := 40 (only parsing).
Notation CallSmokeEIP150 := 700 (only parsing).
Notation BalanceSmokeFrontier := 20 (only parsing).
Notation BalanceSmokeEIP150 := 400 (only parsing).
Notation BalanceSmokeEIP1884 := 700 (only parsing).
Notation ExtcodeSizeSmokeFrontier := 20 (only parsing).
Notation ExtcodeSizeSmokeEIP150 := 700 (only parsing).
Notation SloadSmokeFrontier := 50 (only parsing).
Notation SloadSmokeEIP150 := 200 (only parsing).
Notation SloadSmokeEIP1884 := 800 (only parsing).
Notation SloadSmokeEIP2200 := 800 (only parsing).
Notation ExtcodeHashSmokeConstantinople := 400 (only parsing).
Notation ExtcodeHashSmokeEIP1884 := 700 (only parsing).
Notation SelfdestructSmokeEIP150 := 5000 (only parsing).
Notation ExpByteFrontier := 10 (only parsing).
Notation ExpByteEIP158 := 50 (only parsing).
Notation ExtcodeCopyBaseFrontier := 20 (only parsing).
Notation ExtcodeCopyBaseEIP150 := 700 (only parsing).
Notation CreateBySelfdestructSmoke := 25000 (only parsing).
Notation MaxCodeSize := 24576 (only parsing).
Notation EcrecoverSmoke := 3000 (only parsing).
Notation Sha256BaseSmoke := 60 (only parsing).
Notation Sha256PerWordSmoke := 12 (only parsing).
Notation Ripemd160BaseSmoke := 600 (only parsing).
Notation Ripemd160PerWordSmoke := 120 (only parsing).
Notation IdentityBaseSmoke := 15 (only parsing).
Notation IdentityPerWordSmoke := 3 (only parsing).
Notation Bn256AddSmokeByzantium := 500 (only parsing).
Notation Bn256AddSmokeIstanbul := 150 (only parsing).
Notation Bn256ScalarMulSmokeByzantium := 40000 (only parsing).
Notation Bn256ScalarMulSmokeIstanbul := 6000 (only parsing).
Notation Bn256PairingBaseSmokeByzantium := 100000 (only parsing).
Notation Bn256PairingBaseSmokeIstanbul := 45000 (only parsing).
Notation Bn256PairingPerPointSmokeByzantium := 80000 (only parsing).
Notation Bn256PairingPerPointSmokeIstanbul := 34000 (only parsing).
Notation Bls12381G1AddSmoke := 600 (only parsing).
Notation Bls12381G1MulSmoke := 12000 (only parsing).
Notation Bls12381G2AddSmoke := 4500 (only parsing).
Notation Bls12381G2MulSmoke := 55000 (only parsing).
Notation Bls12381PairingBaseSmoke := 115000 (only parsing).
Notation Bls12381PairingPerPairSmoke := 23000 (only parsing).
Notation Bls12381MapG1Smoke := 5500 (only parsing).
Notation Bls12381MapG2Smoke := 110000 (only parsing).

(** The big integers of the difficulty calculation. *)
Notation DifficultyBoundDivisor := 2048 (only parsing).
Notation GenesisDifficulty := 130130 (only parsing).
Notation MinimumDifficulty := 130130 (only parsing).
Notation DurationLimit := 8 (only parsing).
Notation SlowStart := 1000 (only parsing).

(** Discounts, in thousandths, for the first 128 sizes of a multi exponentiation. *)
Definition Bls12381MultiExpDiscountTable : list Z :=
  [1200; 888; 764; 641; 594; 547; 500; 453; 438; 423; 408; 394; 379; 364; 349; 334; 330;
   326; 322; 318; 314; 310; 306; 302; 298; 294; 289; 285; 281; 277; 273; 269; 268; 266; 265;
   263; 262; 260; 259; 257; 256; 254; 253; 251; 250; 248; 247; 245; 244; 242; 241; 239; 238;
   236; 235; 233; 232; 231; 229; 228; 226; 225; 223; 222; 221; 220; 219; 219; 218; 217; 216;
   216; 215; 214; 213; 213; 212; 211; 211; 210; 209; 208; 208; 207; 206; 205; 205; 204; 203;
   202; 202; 201; 200; 199; 199; 198; 197; 196; 196; 195; 194; 193; 193; 192; 191; 191; 190;
   189; 188; 188; 187; 186; 185; 185; 184; 183; 182; 182; 181; 180; 179; 179; 178; 177; 176;
   176; 175; 174].
