(* ===== verification/VmBase.v ===== *)
(** * Virtual machine data (src/core/vm/common.go, stack.go, memory.go, analysis.go)

    The word stack, the return stack, the byte-addressed memory and the
    jump-destination bitmap, with the panics of the Go code as values.  The
    256-bit integers come from github.com/holiman/uint256, which is not part
    of the repository: its operations are the class [Uint256], its documented
    behaviour the laws [Uint256Laws]. *)
From S2P Require Import Prelude Opcodes.
Local Open Scope Z_scope.

(** ** Outcomes *)

(** The Go run-time panics that this package can raise; the index error of
    [codeSegment] is told apart. *)
Inductive panic :=
| IndexOutOfRange
| StoreEmpty          (** panic("invalid memory: store empty") *)
| RefundBelowZero
| InvalidRevision
| AnalysisTooShort    (** a cached bitmap that is shorter than the code *)
| SlotListMissing
| AddressNotInList    (** panic("impossible case: address was not present ...") *)
| CallerNotContract   (** the type assertion of AsDelegate *)
| SmokePoolOverflow   (** panic("smoke pool pushed above uint64") *)
| StateRoot.          (** IntermediateRoot: a nil object or an account that cannot be encoded *)

(** A computation returns, panics, or runs out of the fuel of the model. *)
Inductive outcome (A : Type) :=
| Ret (a : A)
| Panic (p : panic)
| OutOfFuel.
Arguments Ret {A} _.
Arguments Panic {A} _.
Arguments OutOfFuel {A}.

#[export] Instance outcome_ret : MRet outcome := λ A a, Ret a.
#[export] Instance outcome_bind : MBind outcome := λ A B f x,
  match x with Ret a => f a | Panic p => Panic p | OutOfFuel => OutOfFuel end.

Definition or_panic {A} (p : panic) (x : option A) : outcome A :=
  match x with Some a => Ret a | None => Panic p end.

(** ** 256-bit integers *)

(** [uint256.Int], the integer [u_val x] that a value stands for, and the
    methods that the package uses.  A method with a receiver takes it first;
    [u_zero], [u_one] and [u_allone] are what [Clear], [SetOne] and [SetAllOne]
    set. *)
Class Uint256 := {
  Word : Type;
  u_val : Word → Z;
  u_zero : Word; u_one : Word; u_allone : Word;
  u_Add : Word → Word → Word; u_Sub : Word → Word → Word; u_Mul : Word → Word → Word;
  u_Div : Word → Word → Word; u_SDiv : Word → Word → Word; u_Mod : Word → Word → Word;
  u_SMod : Word → Word → Word; u_Exp : Word → Word → Word;
  u_ExtendSign : Word → Word → Word;
  u_AddMod : Word → Word → Word → Word; u_MulMod : Word → Word → Word → Word;
  u_Not : Word → Word; u_And : Word → Word → Word; u_Or : Word → Word → Word;
  u_Xor : Word → Word → Word; u_Byte : Word → Word → Word;
  u_Lsh : Word → Z → Word; u_Rsh : Word → Z → Word; u_SRsh : Word → Z → Word;
  u_Lt : Word → Word → bool; u_Gt : Word → Word → bool; u_Slt : Word → Word → bool;
  u_Sgt : Word → Word → bool; u_Eq : Word → Word → bool;
  u_LtUint64 : Word → Z → bool; u_GtUint64 : Word → Z → bool;
  u_IsZero : Word → bool; u_Sign : Word → Z; u_BitLen : Word → Z;
  u_IsUint64 : Word → bool; u_Uint64 : Word → Z; u_Uint64WithOverflow : Word → Z * bool;
  u_SetUint64 : Z → Word;
  u_Bytes20 : Word → bytes; u_Bytes32 : Word → bytes; u_SetBytes : bytes → Word;
  u_FromBig : Z → Word; u_ToBig : Word → Z; u_WriteToSlice : Word → bytes → bytes
}.

(** Two's complement reading of a word. *)
Definition signed (x : Z) : Z := if x <? 2 ^ 255 then x else x - 2 ^ 256.

(** The value of byte [i] from the most significant one. *)
Definition word_byte (x i : Z) : Z := if i <? 32 then (x / 256 ^ (31 - i)) mod 256 else 0.

(** Sign extension from byte [k], counted from the least significant one. *)
Definition sign_extend (k x : Z) : Z :=
  if 31 <=? k then x
  else let low := x mod 2 ^ (8 * (k + 1)) in
       u256 (if Z.testbit x (8 * k + 7) then low - 2 ^ (8 * (k + 1)) else low).

Class Uint256Laws `{Uint256} := {
  law_range x : 0 ≤ u_val x < 2 ^ 256;
  law_zero : u_val u_zero = 0;
  law_one : u_val u_one = 1;
  law_allone : u_val u_allone = 2 ^ 256 - 1;
  law_Add x y : u_val (u_Add x y) = u256 (u_val x + u_val y);
  law_Sub x y : u_val (u_Sub x y) = u256 (u_val x - u_val y);
  law_Mul x y : u_val (u_Mul x y) = u256 (u_val x * u_val y);
  law_Div x y : u_val (u_Div x y) = if u_val y =? 0 then 0 else u_val x / u_val y;
  law_SDiv x y : u_val (u_SDiv x y) =
    if u_val y =? 0 then 0 else u256 (Z.quot (signed (u_val x)) (signed (u_val y)));
  law_Mod x y : u_val (u_Mod x y) = if u_val y =? 0 then 0 else u_val x mod u_val y;
  law_SMod x y : u_val (u_SMod x y) =
    if u_val y =? 0 then 0 else u256 (Z.rem (signed (u_val x)) (signed (u_val y)));
  law_Exp x y : u_val (u_Exp x y) = u256 (u_val x ^ u_val y);
  law_ExtendSign x k : u_val (u_ExtendSign x k) = sign_extend (u_val k) (u_val x);
  law_AddMod x y m : u_val m ≠ 0 → u_val (u_AddMod x y m) = (u_val x + u_val y) mod u_val m;
  law_MulMod x y m : u_val (u_MulMod x y m) = if u_val m =? 0 then 0 else (u_val x * u_val y) mod u_val m;
  law_Not x : u_val (u_Not x) = 2 ^ 256 - 1 - u_val x;
  law_And x y : u_val (u_And x y) = Z.land (u_val x) (u_val y);
  law_Or x y : u_val (u_Or x y) = Z.lor (u_val x) (u_val y);
  law_Xor x y : u_val (u_Xor x y) = Z.lxor (u_val x) (u_val y);
  law_Byte x i : u_val (u_Byte x i) = word_byte (u_val x) (u_val i);
  law_Lsh x n : is_u64 n → u_val (u_Lsh x n) = u256 (Z.shiftl (u_val x) n);
  law_Rsh x n : is_u64 n → u_val (u_Rsh x n) = Z.shiftr (u_val x) n;
  law_SRsh x n : is_u64 n → u_val (u_SRsh x n) = u256 (Z.shiftr (signed (u_val x)) n);
  law_Lt x y : u_Lt x y = (u_val x <? u_val y);
  law_Gt x y : u_Gt x y = (u_val y <? u_val x);
  law_Slt x y : u_Slt x y = (signed (u_val x) <? signed (u_val y));
  law_Sgt x y : u_Sgt x y = (signed (u_val y) <? signed (u_val x));
  law_Eq x y : u_Eq x y = (u_val x =? u_val y);
  law_LtUint64 x n : is_u64 n → u_LtUint64 x n = (u_val x <? n);
  law_GtUint64 x n : is_u64 n → u_GtUint64 x n = (n <? u_val x);
  law_IsZero x : u_IsZero x = (u_val x =? 0);
  law_Sign x : u_Sign x = Z.sgn (signed (u_val x));
  law_BitLen x : u_BitLen x = if u_val x =? 0 then 0 else Z.log2 (u_val x) + 1;
  law_IsUint64 x : u_IsUint64 x = (u_val x <? 2 ^ 64);
  law_Uint64 x : u_Uint64 x = u64 (u_val x);
  law_Uint64WithOverflow x : u_Uint64WithOverflow x = (u64 (u_val x), 2 ^ 64 <=? u_val x);
  law_SetUint64 n : is_u64 n → u_val (u_SetUint64 n) = n;
  law_Bytes20 x : u_Bytes20 x = be_fixed 20 (u_val x);
  law_Bytes32 x : u_Bytes32 x = be_fixed 32 (u_val x);
  law_SetBytes b : bytes_ok b → (length b ≤ 32)%nat → u_val (u_SetBytes b) = be_decode b;
  law_FromBig x : u_val (u_FromBig x) = u256 x;
  law_ToBig x : u_ToBig x = u_val x;
  law_WriteToSlice x dest : (32 ≤ length dest)%nat →
    u_WriteToSlice x dest = be_fixed 32 (u_val x) ++ drop 32 dest
}.

(** ** Arithmetic helpers (src/common/math/integer.go, src/common/bytes.go) *)

Definition MaxUint64 : Z := 2 ^ 64 - 1.

Definition SafeAdd (x y : Z) : Z * bool := (u64 (x + y), 2 ^ 64 <=? x + y).
Definition SafeMul (x y : Z) : Z * bool := (u64 (x * y), negb (x * y / 2 ^ 64 =? 0)).

Definition RightPadBytes (b : bytes) (l : Z) : bytes :=
  if l <=? len b then b else b ++ replicate (Z.to_nat l - length b) 0.
Definition LeftPadBytes (b : bytes) (l : Z) : bytes :=
  if l <=? len b then b else replicate (Z.to_nat l - length b) 0 ++ b.

(** Conversion of a [uint64] to [int64]. *)
Definition int64 (x : Z) : Z := if x <? 2 ^ 63 then x else x - 2 ^ 64.

(** [b[lo:hi]] with the bounds check of the language. *)
Definition slice_checked (b : bytes) (lo hi : Z) : outcome bytes :=
  if (0 <=? lo) && (lo <=? hi) && (hi <=? len b) then Ret (slice b lo hi) else Panic IndexOutOfRange.

(** A [Stack] is its data with the top first: the Go slice in reverse.  A
    [bitvec] is a byte slice. *)
Abbreviation Stack := (list Word).
Abbreviation bitvec := bytes.

(** ** common.go *)

Section vm.
Context `{Uint256}.

Definition calcMemSize64WithUint (off : Word) (length64 : Z) : Z * bool :=
  if length64 =? 0 then (0, false)
  else
    let '(offset64, overflow) := u_Uint64WithOverflow off in
    if overflow then (0, true)
    else let val := u64 (offset64 + length64) in (val, val <? offset64).

Definition calcMemSize64 (off l : Word) : Z * bool :=
  if negb (u_IsUint64 l) then (0, true) else calcMemSize64WithUint off (u_Uint64 l).

Definition getData (data : bytes) (start size : Z) : outcome bytes :=
  let length := len data in
  let start := if length <? start then length else start in
  let end_ := u64 (start + size) in
  let end_ := if length <? end_ then length else end_ in
  d ← slice_checked data start end_;
  Ret (RightPadBytes d (int64 size)).

Definition toWordSize (size : Z) : Z :=
  if MaxUint64 - 31 <? size then MaxUint64 / 32 + 1 else (size + 31) / 32.

Definition allZero (b : bytes) : bool := forallb (λ x, x =? 0) b.

(** ** Stack *)

Definition stack_push (d : Word) (st : Stack) : Stack := d :: st.

Definition stack_pop (st : Stack) : outcome (Word * Stack) :=
  match st with x :: st => Ret (x, st) | [] => Panic IndexOutOfRange end.

(** [Back n]; [peek] is [Back 0]. *)
Definition Back (n : nat) (st : Stack) : outcome Word := or_panic IndexOutOfRange (st !! n).
Definition stack_peek (st : Stack) : outcome Word := Back 0 st.

(** An assignment through the pointer that [peek] returns. *)
Definition set_peek (x : Word) (st : Stack) : outcome Stack :=
  match st with _ :: st => Ret (x :: st) | [] => Panic IndexOutOfRange end.

Definition stack_dup (n : nat) (st : Stack) : outcome Stack :=
  x ← Back (n - 1) st; Ret (stack_push x st).

Definition stack_swap (n : nat) (st : Stack) : outcome Stack :=
  x ← Back (n - 1) st; y ← Back 0 st; Ret (<[0%nat := x]> (<[(n - 1)%nat := y]> st)).

(** ** Memory *)

Record Memory := MkMemory { store : bytes; lastSmokeCost : Z }.

Definition NewMemory : Memory := MkMemory [] 0.

(** [copy(store[off:], v)] for a destination that is long enough. *)
Definition write_at (off : Z) (v b : bytes) : bytes :=
  take (Z.to_nat off) b ++ v ++ drop (Z.to_nat off + length v) b.

Definition mem_Len (m : Memory) : Z := len (store m).

Definition mem_Set (offset size : Z) (value : bytes) (m : Memory) : outcome Memory :=
  if 0 <? size then
    if mem_Len m <? u64 (offset + size) then Panic StoreEmpty
    else if u64 (offset + size) <? offset then Panic IndexOutOfRange
    else Ret (MkMemory (write_at offset (take (Z.to_nat size) value) (store m)) (lastSmokeCost m))
  else Ret m.

Definition mem_Set32 (offset : Z) (val : Word) (m : Memory) : outcome Memory :=
  if mem_Len m <? u64 (offset + 32) then Panic StoreEmpty
  else if u64 (offset + 32) <? offset then Panic IndexOutOfRange
  else
    let b := write_at offset (replicate 32 0) (store m) in
    Ret (MkMemory (take (Z.to_nat offset) b ++ u_WriteToSlice val (drop (Z.to_nat offset) b))
           (lastSmokeCost m)).

(** [store[off] = b]. *)
Definition mem_SetByte (off b : Z) (m : Memory) : outcome Memory :=
  if off <? mem_Len m then Ret (MkMemory (write_at off [b] (store m)) (lastSmokeCost m))
  else Panic IndexOutOfRange.

Definition Resize (size : Z) (m : Memory) : Memory :=
  if mem_Len m <? size
  then MkMemory (store m ++ replicate (Z.to_nat (size - mem_Len m)) 0) (lastSmokeCost m) else m.

(** [GetPtr] and [GetCopy]; a slice expression is bounded by the length, not
    by the capacity of the backing array. *)
Definition GetPtr (offset size : Z) (m : Memory) : outcome bytes :=
  if size =? 0 then Ret []
  else if offset <? mem_Len m then slice_checked (store m) offset (offset + size)
  else Ret [].

Definition GetCopy (offset size : Z) (m : Memory) : outcome bytes :=
  if size =? 0 then Ret []
  else if offset <? mem_Len m then
    if size <? 0 then Panic IndexOutOfRange else slice_checked (store m) offset (offset + size)
  else Ret [].

(** ** Jump destination analysis *)

Definition or_at (i : Z) (x : Z) (bits : bitvec) : outcome bitvec :=
  b ← or_panic IndexOutOfRange (bits !! Z.to_nat i); Ret (<[Z.to_nat i := Z.lor b x]> bits).

Definition bit_set (pos : Z) (bits : bitvec) : outcome bitvec :=
  or_at (pos / 8) (Z.shiftr 0x80 (pos mod 8)) bits.

Definition bit_set8 (pos : Z) (bits : bitvec) : outcome bitvec :=
  bits ← or_at (pos / 8) (Z.shiftr 0xFF (pos mod 8)) bits;
  or_at (pos / 8 + 1) (255 - Z.shiftr 0xFF (pos mod 8)) bits.

Definition codeSegment (pos : Z) (bits : bitvec) : outcome bool :=
  b ← or_panic AnalysisTooShort (bits !! Z.to_nat (pos / 8));
  Ret (Z.land b (Z.shiftr 0x80 (pos mod 8)) =? 0).

(** The two inner loops of [codeBitmap], by groups of eight and one by one. *)
Fixpoint mark_data (fuel : nat) (numbits pc : Z) (bits : bitvec) : outcome (Z * bitvec) :=
  match fuel with
  | O => Ret (pc, bits)
  | S fuel =>
      if 8 <=? numbits then bits ← bit_set8 pc bits; mark_data fuel (numbits - 8) (pc + 8) bits
      else if 0 <? numbits then bits ← bit_set pc bits; mark_data fuel (numbits - 1) (pc + 1) bits
      else Ret (pc, bits)
  end.

Fixpoint codeBitmap_loop (fuel : nat) (code : bytes) (pc : Z) (bits : bitvec) : outcome bitvec :=
  match fuel with
  | O => OutOfFuel
  | S fuel =>
      if pc <? len code then
        op ← or_panic IndexOutOfRange (code !! Z.to_nat pc);
        if (PUSH1 <=? op) && (op <=? PUSH32) then
          '(pc, bits) ← mark_data 32 (op - PUSH1 + 1) (pc + 1) bits;
          codeBitmap_loop fuel code pc bits
        else codeBitmap_loop fuel code (pc + 1) bits
      else Ret bits
  end.

Definition codeBitmap (code : bytes) : outcome bitvec :=
  codeBitmap_loop (S (length code)) code 0 (replicate (length code / 8 + 1 + 4) 0).
End vm.
