(* ===== verification/VmMachine.v ===== *)
(** * Execution environment (src/core/vm/interface.go, contract.go, evm.go, interpreter.go)

    The state database as the virtual machine sees it (the Go interface
    [vm.StateDB], here the class [StateAccess]), the contract being executed,
    the machine state of a call frame, and the monad in which instructions are
    written: a computation takes a machine state and returns a value and the
    next state, or panics. *)
From S2P Require Import Prelude Opcodes VmBase ChainConfig.
Local Open Scope Z_scope.

(** ** The state database

    A query may fill the caches of the implementation, so queries of account
    data return the new state as well.  [None] is a panic. *)
Class StateAccess := {
  State : Type;
  CreateAccount : Address → State → State;
  SubBalance : Address → Z → State → State;
  AddBalance : Address → Z → State → State;
  GetBalance : Address → State → Z * State;
  GetNonce : Address → State → Z * State;
  SetNonce : Address → Z → State → State;
  GetCodeHash : Address → State → Hash * State;
  GetCode : Address → State → bytes * State;
  SetCode : Address → bytes → State → State;
  GetCodeSize : Address → State → Z * State;
  AddRefund : Z → State → State;
  SubRefund : Z → State → option State;
  GetRefund : State → Z;
  GetCommittedState : Address → Hash → State → Hash * State;
  GetState : Address → Hash → State → Hash * State;
  SetState : Address → Hash → Hash → State → State;
  Suicide : Address → State → bool * State;
  HasSuicided : Address → State → bool * State;
  Exist : Address → State → bool * State;
  Empty : Address → State → bool * State;
  AddressInAccessList : Address → State → bool;
  SlotInAccessList : Address → Hash → State → option (bool * bool);
  AddAddressToAccessList : Address → State → State;
  AddSlotToAccessList : Address → Hash → State → option State;
  RevertToSnapshot : Z → State → option State;
  Snapshot : State → Z * State;
  AddLog : Address → list Hash → bytes → Z → State → State;
  AddPreimage : Hash → bytes → State → State
}.

(** ** Errors of the package *)

Inductive vm_error :=
| ErrInvalidSubroutineEntry
| ErrOutOfSmoke
| ErrCodeStoreOutOfSmoke
| ErrDepth
| ErrInsufficientBalance
| ErrContractAddressCollision
| ErrExecutionReverted
| ErrMaxCodeSizeExceeded
| ErrInvalidJump
| ErrWriteProtection
| ErrReturnDataOutOfBounds
| ErrSmokeUintOverflow
| ErrInvalidRetsub
| ErrReturnStackExceeded
| ErrReentrancySentry   (** "not enough smoke for reentrancy sentry" *)
| ErrStackUnderflow (stackLen required : Z)
| ErrStackOverflow (stackLen limit : Z)
| ErrInvalidOpCode (opcode : Z)
| ErrPrecompile (msg : string).

#[export] Instance vm_error_eq_dec : EqDecision vm_error.
Proof. solve_decision. Defined.

(** ** Context of an execution *)

(** The fields of [BlockContext], [TxContext], [Config] and [EVM] that do not
    change while a transaction runs.  [aborted k] is what the [k]-th atomic
    load of the abort flag sees: [Cancel] may be called at any time. *)
Record Env := MkEnv {
  GetHash : Z → Hash;
  Coinbase : Address;
  SmokeLimit : Z;
  BlockNumber : Z;
  Time : Z;
  Difficulty : Z;
  Origin : Address;
  SmokePrice : Z;
  chainConfig_ChainID : Z;
  chainRules : Rules;
  NoRecursion : bool;
  EnablePreimageRecording : bool;
  aborted : nat → bool
}.

(** [big.Int.Uint64]: the low 64 bits of the absolute value. *)
Definition big_Uint64 (x : Z) : Z := u64 (Z.abs x).

(** ** Contracts *)

(** A [ContractRef]: an account, or a running contract, of which only the
    fields below are used. *)
Inductive ContractRef :=
| AccountRef (a : Address)
| ContractOf (self CallerAddress : Address) (value : Z).

Definition ref_Address (r : ContractRef) : Address :=
  match r with AccountRef a => a | ContractOf a _ _ => a end.

Record Contract := MkContract {
  CallerAddress : Address;
  caller : ContractRef;
  self : Address;
  analysis : option bitvec;
  Code : bytes;
  CodeHash : Hash;
  CodeAddr : option Address;
  Input : bytes;
  Smoke : Z;
  value : Z
}.

Definition set_CallerAddress v (c : Contract) : Contract :=
  MkContract v (caller c) (self c) (analysis c) (Code c) (CodeHash c) (CodeAddr c) (Input c) (Smoke c) (value c).
Definition set_analysis v (c : Contract) : Contract :=
  MkContract (CallerAddress c) (caller c) (self c) v (Code c) (CodeHash c) (CodeAddr c) (Input c) (Smoke c) (value c).
Definition set_Input v (c : Contract) : Contract :=
  MkContract (CallerAddress c) (caller c) (self c) (analysis c) (Code c) (CodeHash c) (CodeAddr c) v (Smoke c) (value c).
Definition set_Smoke v (c : Contract) : Contract :=
  MkContract (CallerAddress c) (caller c) (self c) (analysis c) (Code c) (CodeHash c) (CodeAddr c) (Input c) v (value c).
Definition set_value v (c : Contract) : Contract :=
  MkContract (CallerAddress c) (caller c) (self c) (analysis c) (Code c) (CodeHash c) (CodeAddr c) (Input c) (Smoke c) v.

(** What an instruction returns: its data and its error. *)
Abbreviation op_result := (bytes * option vm_error)%type.

Section machine.
Context `{Uint256} {SA : StateAccess}.

(** ** The EVM object

    [jumpdests] is the analysis cache that all contracts of a call tree share:
    Go passes the same map from parent to child.  [abort_loads] counts the
    loads of the abort flag. *)
Record EVM := MkEVM {
  StateDB : State;
  depth : Z;
  callSmokeTemp : Z;
  readOnly : bool;
  returnData : bytes;
  jumpdests : gmap Hash bitvec;
  abort_loads : nat
}.

(** The state of a call frame: [callCtx], the program counter and the EVM. *)
Record machine := MkMachine {
  pc : Z;
  stack : Stack;
  memory : Memory;
  rstack : list Z;
  contract : Contract;
  evm : EVM
}.

Definition set_StateDB v (e : EVM) : EVM :=
  MkEVM v (depth e) (callSmokeTemp e) (readOnly e) (returnData e) (jumpdests e) (abort_loads e).
Definition set_depth v (e : EVM) : EVM :=
  MkEVM (StateDB e) v (callSmokeTemp e) (readOnly e) (returnData e) (jumpdests e) (abort_loads e).
Definition set_callSmokeTemp v (e : EVM) : EVM :=
  MkEVM (StateDB e) (depth e) v (readOnly e) (returnData e) (jumpdests e) (abort_loads e).
Definition set_readOnly v (e : EVM) : EVM :=
  MkEVM (StateDB e) (depth e) (callSmokeTemp e) v (returnData e) (jumpdests e) (abort_loads e).
Definition set_returnData v (e : EVM) : EVM :=
  MkEVM (StateDB e) (depth e) (callSmokeTemp e) (readOnly e) v (jumpdests e) (abort_loads e).
Definition set_jumpdests v (e : EVM) : EVM :=
  MkEVM (StateDB e) (depth e) (callSmokeTemp e) (readOnly e) (returnData e) v (abort_loads e).
Definition set_abort_loads v (e : EVM) : EVM :=
  MkEVM (StateDB e) (depth e) (callSmokeTemp e) (readOnly e) (returnData e) (jumpdests e) v.

Definition set_pc v (m : machine) : machine :=
  MkMachine v (stack m) (memory m) (rstack m) (contract m) (evm m).
Definition set_stack v (m : machine) : machine :=
  MkMachine (pc m) v (memory m) (rstack m) (contract m) (evm m).
Definition set_memory v (m : machine) : machine :=
  MkMachine (pc m) (stack m) v (rstack m) (contract m) (evm m).
Definition set_rstack v (m : machine) : machine :=
  MkMachine (pc m) (stack m) (memory m) v (contract m) (evm m).
Definition set_contract v (m : machine) : machine :=
  MkMachine (pc m) (stack m) (memory m) (rstack m) v (evm m).
Definition set_evm v (m : machine) : machine :=
  MkMachine (pc m) (stack m) (memory m) (rstack m) (contract m) v.

(** ** The machine monad *)

Definition M (A : Type) : Type := machine → outcome (A * machine).

#[global] Instance M_ret : MRet M := λ A a m, Ret (a, m).
#[global] Instance M_bind : MBind M := λ A B f x m,
  match x m with Ret (a, m) => f a m | Panic p => Panic p | OutOfFuel => OutOfFuel end.

Definition get {A} (f : machine → A) : M A := λ m, Ret (f m, m).
Definition modify (f : machine → machine) : M unit := λ m, Ret (tt, f m).
Definition lift {A} (x : outcome A) : M A :=
  λ m, match x with Ret a => Ret (a, m) | Panic p => Panic p | OutOfFuel => OutOfFuel end.

Definition update_evm (f : EVM → EVM) : M unit := modify (λ m, set_evm (f (evm m)) m).
Definition update_contract (f : Contract → Contract) : M unit :=
  modify (λ m, set_contract (f (contract m)) m).
Definition update_memory (f : Memory → outcome Memory) : M unit :=
  m ← get memory; x ← lift (f m); modify (set_memory x).

(** A query and an update of the state database. *)
Definition query {A} (f : State → A * State) : M A :=
  s ← get (StateDB ∘ evm);
  let '(a, s) := f s in
  update_evm (set_StateDB s);; mret a.
Definition update (f : State → State) : M unit := update_evm (λ e, set_StateDB (f (StateDB e)) e).
Definition update_or (p : panic) (f : State → option State) : M unit :=
  s ← get (StateDB ∘ evm);
  s ← lift (or_panic p (f s));
  update_evm (set_StateDB s).

(** The stack of the frame. *)
Definition pop : M Word :=
  st ← get stack; '(x, st) ← lift (stack_pop st); modify (set_stack st);; mret x.
Definition peek : M Word := st ← get stack; lift (stack_peek st).
Definition poke (x : Word) : M unit := st ← get stack; st ← lift (set_peek x st); modify (set_stack st).
Definition push (x : Word) : M unit := modify (λ m, set_stack (stack_push x (stack m)) m).
Definition back (n : nat) : M Word := st ← get stack; lift (Back n st).

Definition ok : M op_result := mret ([], None).
Definition fail (e : vm_error) : M op_result := mret ([], Some e).

(** ** Contract methods *)

Definition NewContract (c : ContractRef) (object : Address) (v smoke : Z) (e : EVM) : Contract * EVM :=
  let ct := MkContract (ref_Address c) c object None [] zero_hash None [] smoke v in
  match c with
  | ContractOf _ _ _ => (ct, e)
  | AccountRef _ => (ct, set_jumpdests ∅ e)
  end.

Definition AsDelegate (c : Contract) : outcome Contract :=
  match caller c with
  | ContractOf _ ca v => Ret (set_value v (set_CallerAddress ca c))
  | AccountRef _ => Panic CallerNotContract
  end.

(** [SetCallCode] and [SetCodeOptionalHash]. *)
Definition SetCallCode (addr : Address) (hash : Hash) (code : bytes) (c : Contract) : Contract :=
  MkContract (CallerAddress c) (caller c) (self c) (analysis c) code hash (Some addr) (Input c)
    (Smoke c) (value c).

Definition as_ref (c : Contract) : ContractRef := ContractOf (self c) (CallerAddress c) (value c).

Definition GetByte (n : Z) (c : Contract) : Z :=
  if n <? len (Code c) then at_ (Code c) (Z.to_nat n) else 0.
Definition GetOp (n : Z) (c : Contract) : Z := GetByte n c.

Definition contract_UseSmoke (smoke : Z) (c : Contract) : bool * Contract :=
  if Smoke c <? smoke then (false, c) else (true, set_Smoke (Smoke c - smoke) c).

Definition UseSmoke (smoke : Z) : M bool :=
  c ← get contract;
  let '(b, c) := contract_UseSmoke smoke c in
  modify (set_contract c);; mret b.

Definition isCode (udest : Z) : M bool :=
  c ← get contract;
  match analysis c with
  | Some a => lift (codeSegment udest a)
  | None =>
      if bool_decide (CodeHash c = zero_hash) then
        a ← lift (codeBitmap (Code c));
        update_contract (set_analysis (Some a));;
        lift (codeSegment udest a)
      else
        jd ← get (jumpdests ∘ evm);
        a ← match jd !! CodeHash c with
            | Some a => mret a
            | None =>
                a ← lift (codeBitmap (Code c));
                update_evm (set_jumpdests (<[CodeHash c := a]> jd));; mret a
            end;
        update_contract (set_analysis (Some a));;
        lift (codeSegment udest a)
  end.

Definition validJumpdest (dest : Word) : M bool :=
  c ← get contract;
  let '(udest, overflow) := u_Uint64WithOverflow dest in
  if overflow || (len (Code c) <=? udest) then mret false
  else if negb (at_ (Code c) (Z.to_nat udest) =? JUMPDEST) then mret false
  else isCode udest.

Definition validJumpSubdest (udest : Z) : M bool :=
  c ← get contract;
  if (int64 udest <? 0) || (len (Code c) <=? udest) then mret false
  else if negb (at_ (Code c) (Z.to_nat udest) =? BEGINSUB) then mret false
  else isCode udest.
End machine.
