(* ===== verification/Precompiles.v ===== *)
(** * Precompiled contracts (src/core/vm/contracts.go, src/crypto/crypto.go)

    The native contracts, their prices and the tables of each release.  The
    cryptographic primitives they call (hash functions, curve arithmetic) are
    the class [Crypto]; the parsing of the inputs, the error cases, the prices
    and the modular exponentiation are modelled. *)
From S2P Require Import Prelude Opcodes Params ChainConfig VmBase VmMachine.
Local Open Scope Z_scope.

(** ** Primitives *)

Class Crypto := {
  Keccak256 : bytes → Hash;
  sha256_Sum256 : bytes → bytes;
  ripemd160_Sum : bytes → bytes;
  Ecrecover : bytes → bytes → option bytes;
  (** bn256 *)
  bnG1 : Type; bnG2 : Type;
  bnG1_Unmarshal : bytes → result string bnG1;
  bnG2_Unmarshal : bytes → result string bnG2;
  bnG1_Add : bnG1 → bnG1 → bnG1;
  bnG1_ScalarMult : bnG1 → Z → bnG1;
  bnG1_Marshal : bnG1 → bytes;
  bn_PairingCheck : list bnG1 → list bnG2 → bool;
  (** blake2b *)
  blake2b_F : list Z → list Z → list Z → bool → Z → list Z;
  (** bls12381 *)
  blsG1 : Type; blsG2 : Type;
  blsG1_DecodePoint : bytes → result string blsG1;
  blsG2_DecodePoint : bytes → result string blsG2;
  blsG1_EncodePoint : blsG1 → bytes;
  blsG2_EncodePoint : blsG2 → bytes;
  blsG1_Add : blsG1 → blsG1 → blsG1;
  blsG2_Add : blsG2 → blsG2 → blsG2;
  blsG1_MulScalar : blsG1 → Z → blsG1;
  blsG2_MulScalar : blsG2 → Z → blsG2;
  blsG1_MultiExp : list blsG1 → list Z → blsG1;
  blsG2_MultiExp : list blsG2 → list Z → blsG2;
  blsG1_InCorrectSubgroup : blsG1 → bool;
  blsG2_InCorrectSubgroup : blsG2 → bool;
  blsG1_MapToCurve : bytes → result string blsG1;
  blsG2_MapToCurve : bytes → result string blsG2;
  bls_Check : list (blsG1 * blsG2) → bool
}.

(** ** crypto.go *)

Definition secp256k1N : Z := 0xfffffffffffffffffffffffffffffffebaaedce6af48a03bbfd25e8cd0364141.
Definition secp256k1halfN : Z := secp256k1N / 2.

Definition ValidateSignatureValues (v r s : Z) (homestead : bool) : bool :=
  if (r <? 1) || (s <? 1) then false
  else if homestead && (secp256k1halfN <? s) then false
  else (r <? secp256k1N) && (s <? secp256k1N) && ((v =? 0) || (v =? 1)).

(** ** The contracts *)

Inductive PrecompiledContract :=
| ecrecover
| sha256hash
| ripemd160hash
| dataCopy
| bigModExp (eip2565 : bool)
| bn256AddByzantium
| bn256AddIstanbul
| bn256ScalarMulByzantium
| bn256ScalarMulIstanbul
| bn256PairingByzantium
| bn256PairingIstanbul
| blake2F
| bls12381G1Add
| bls12381G1Mul
| bls12381G1MultiExp
| bls12381G2Add
| bls12381G2Mul
| bls12381G2MultiExp
| bls12381Pairing
| bls12381MapG1
| bls12381MapG2.

(** [common.BytesToAddress([]byte{n})]. *)
Definition precompile_address (n : Z) : Address := replicate 19 0 ++ [n].

Definition precompile_table (l : list PrecompiledContract) : list (Address * PrecompiledContract) :=
  imap (λ i p, (precompile_address (Z.of_nat i + 1), p)) l.

Definition PrecompiledContractsHomestead : list (Address * PrecompiledContract) :=
  precompile_table [ecrecover; sha256hash; ripemd160hash; dataCopy].
Definition PrecompiledContractsByzantium : list (Address * PrecompiledContract) :=
  precompile_table
    [ecrecover; sha256hash; ripemd160hash; dataCopy; bigModExp false;
     bn256AddByzantium; bn256ScalarMulByzantium; bn256PairingByzantium].
Definition PrecompiledContractsIstanbul : list (Address * PrecompiledContract) :=
  precompile_table
    [ecrecover; sha256hash; ripemd160hash; dataCopy; bigModExp false;
     bn256AddIstanbul; bn256ScalarMulIstanbul; bn256PairingIstanbul; blake2F].
Definition PrecompiledContractsYoloV2 : list (Address * PrecompiledContract) :=
  precompile_table
    [ecrecover; sha256hash; ripemd160hash; dataCopy; bigModExp false;
     bn256AddIstanbul; bn256ScalarMulIstanbul; bn256PairingIstanbul; blake2F;
     bls12381G1Add; bls12381G1Mul; bls12381G1MultiExp; bls12381G2Add; bls12381G2Mul;
     bls12381G2MultiExp; bls12381Pairing; bls12381MapG1; bls12381MapG2].

(** The address lists that [init] fills.  A Go map is ranged over in any
    order: [order] gives the keys of a table in the order of the loop. *)
Record PrecompiledAddresses := MkPrecompiledAddresses {
  PrecompiledAddressesHomestead : list Address;
  PrecompiledAddressesByzantium : list Address;
  PrecompiledAddressesIstanbul : list Address;
  PrecompiledAddressesYoloV2 : list Address
}.

Definition init (order : list (Address * PrecompiledContract) → list Address) : PrecompiledAddresses :=
  let homestead := foldl (λ acc k, acc ++ [k]) [] (order PrecompiledContractsHomestead) in
  let byzantium := [] in
  let homestead := foldl (λ _ k, byzantium ++ [k]) homestead (order PrecompiledContractsByzantium) in
  let istanbul := foldl (λ acc k, acc ++ [k]) [] (order PrecompiledContractsIstanbul) in
  let yolo := foldl (λ acc k, acc ++ [k]) [] (order PrecompiledContractsYoloV2) in
  MkPrecompiledAddresses homestead byzantium istanbul yolo.

(** [ActivePrecompiles] and [precompile] of evm.go. *)
Definition ActivePrecompiles (lists : PrecompiledAddresses) (rules : Rules) : list Address :=
  if r_IsYoloV2 rules then PrecompiledAddressesYoloV2 lists
  else if r_IsIstanbul rules then PrecompiledAddressesIstanbul lists
  else if r_IsByzantium rules then PrecompiledAddressesByzantium lists
  else PrecompiledAddressesHomestead lists.

Definition precompile (rules : Rules) (addr : Address) : option PrecompiledContract :=
  assoc addr
    (if r_IsYoloV2 rules then PrecompiledContractsYoloV2
     else if r_IsIstanbul rules then PrecompiledContractsIstanbul
     else if r_IsByzantium rules then PrecompiledContractsByzantium
     else PrecompiledContractsHomestead).

(** ** Prices *)

(** [uint64(len(input)+31)/32*perWord + base]. *)
Definition word_price (input : bytes) (perWord base : Z) : Z :=
  u64 (u64 ((len input + 31) / 32 * perWord) + base).

Definition modexpMultComplexity (x : Z) : Z :=
  if x <=? 64 then x * x
  else if x <=? 1024 then x * x / 4 + (96 * x - 3072)
  else x * x / 16 + (480 * x - 199680).

(** [big.Int.SetBytes], and [binary.BigEndian.Uint32] of four bytes; an element
    of a slice is a byte. *)
Definition SetBytes (b : bytes) : Z := be_decode (u8 <$> b).
Definition big_BitLen (x : Z) : Z := if x =? 0 then 0 else Z.log2 (Z.abs x) + 1.

(** [input[96:]], or the empty slice. *)
Definition modexp_args (input : bytes) : bytes := if 96 <? len input then drop 96 input else [].

Definition modexp_RequiredSmoke (eip2565 : bool) (input : bytes) : outcome Z :=
  b ← getData input 0 32;
  e ← getData input 32 32;
  m ← getData input 64 32;
  let baseLen := SetBytes b in
  let expLen := SetBytes e in
  let modLen := SetBytes m in
  let input := modexp_args input in
  expHead ←
    (if len input <=? baseLen then Ret 0
     else if 32 <? expLen then h ← getData input (big_Uint64 baseLen) 32; Ret (SetBytes h)
     else h ← getData input (big_Uint64 baseLen) (big_Uint64 expLen); Ret (SetBytes h));
  let bitlen := big_BitLen expHead in
  let msb := if 0 <? bitlen then bitlen - 1 else 0 in
  let adjExpLen := (if 32 <? expLen then 8 * (expLen - 32) else 0) + msb in
  let smoke := Z.max modLen baseLen in
  Ret (if eip2565 then
         let smoke := (smoke + 7) / 8 in
         let smoke := smoke * smoke * Z.max adjExpLen 1 / 3 in
         if 64 <? big_BitLen smoke then MaxUint64
         else if big_Uint64 smoke <? 200 then 200 else big_Uint64 smoke
       else
         let smoke := modexpMultComplexity smoke * Z.max adjExpLen 1 / 20 in
         if 64 <? big_BitLen smoke then MaxUint64 else big_Uint64 smoke).

Definition multiexp_price (input : bytes) (size mul : Z) : Z :=
  let k := len input / size in
  if k =? 0 then 0
  else
    let discount :=
      if k <? 128 then at_ Bls12381MultiExpDiscountTable (Z.to_nat (k - 1))
      else at_ Bls12381MultiExpDiscountTable 127 in
    u64 (u64 (k * mul) * discount) / 1000.

Definition RequiredSmoke (p : PrecompiledContract) (input : bytes) : outcome Z :=
  match p with
  | ecrecover => Ret EcrecoverSmoke
  | sha256hash => Ret (word_price input Sha256PerWordSmoke Sha256BaseSmoke)
  | ripemd160hash => Ret (word_price input Ripemd160PerWordSmoke Ripemd160BaseSmoke)
  | dataCopy => Ret (word_price input IdentityPerWordSmoke IdentityBaseSmoke)
  | bigModExp eip2565 => modexp_RequiredSmoke eip2565 input
  | bn256AddByzantium => Ret Bn256AddSmokeByzantium
  | bn256AddIstanbul => Ret Bn256AddSmokeIstanbul
  | bn256ScalarMulByzantium => Ret Bn256ScalarMulSmokeByzantium
  | bn256ScalarMulIstanbul => Ret Bn256ScalarMulSmokeIstanbul
  | bn256PairingByzantium =>
      Ret (u64 (Bn256PairingBaseSmokeByzantium + u64 (len input / 192 * Bn256PairingPerPointSmokeByzantium)))
  | bn256PairingIstanbul =>
      Ret (u64 (Bn256PairingBaseSmokeIstanbul + u64 (len input / 192 * Bn256PairingPerPointSmokeIstanbul)))
  | blake2F => if negb (len input =? 213) then Ret 0 else Ret (SetBytes (slice input 0 4))
  | bls12381G1Add => Ret Bls12381G1AddSmoke
  | bls12381G1Mul => Ret Bls12381G1MulSmoke
  | bls12381G1MultiExp => Ret (multiexp_price input 160 Bls12381G1MulSmoke)
  | bls12381G2Add => Ret Bls12381G2AddSmoke
  | bls12381G2Mul => Ret Bls12381G2MulSmoke
  | bls12381G2MultiExp => Ret (multiexp_price input 288 Bls12381G2MulSmoke)
  | bls12381Pairing =>
      Ret (u64 (Bls12381PairingBaseSmoke + u64 (len input / 384 * Bls12381PairingPerPairSmoke)))
  | bls12381MapG1 => Ret Bls12381MapG1Smoke
  | bls12381MapG2 => Ret Bls12381MapG2Smoke
  end.

(** ** Running a contract *)

Section run.
Context `{Crypto}.

(** A result with its error as the message of the Go error. *)
Abbreviation run_result := (result string bytes).

Definition run_ecrecover (input : bytes) : outcome run_result :=
  let input := RightPadBytes input 128 in
  let r := SetBytes (slice input 64 96) in
  let s := SetBytes (slice input 96 128) in
  let v := u8 (at_ input 63 - 27) in
  if negb (allZero (slice input 32 63)) || negb (ValidateSignatureValues v r s false) then Ret (Ok [])
  else
    let sig := slice input 64 128 ++ [v] in
    match Ecrecover (slice input 0 32) sig with
    | None => Ret (Ok [])
    | Some pubKey =>
        p ← slice_checked pubKey 1 (len pubKey);
        h ← slice_checked (Keccak256 p) 12 (len (Keccak256 p));
        Ret (Ok (LeftPadBytes h 32))
    end.

Definition run_bigModExp (input : bytes) : outcome run_result :=
  b ← getData input 0 32;
  e ← getData input 32 32;
  m ← getData input 64 32;
  let baseLen := big_Uint64 (SetBytes b) in
  let expLen := big_Uint64 (SetBytes e) in
  let modLen := big_Uint64 (SetBytes m) in
  let input := modexp_args input in
  if (baseLen =? 0) && (modLen =? 0) then Ret (Ok [])
  else
    b ← getData input 0 baseLen;
    e ← getData input baseLen expLen;
    m ← getData input (u64 (baseLen + expLen)) modLen;
    let base := SetBytes b in
    let exp := SetBytes e in
    let mod_ := SetBytes m in
    if mod_ =? 0 then Ret (Ok (LeftPadBytes [] (int64 modLen)))
    else Ret (Ok (LeftPadBytes (be_bytes (base ^ exp mod mod_)) (int64 modLen))).

(** The bn256 contracts; an error of the library ends the run. *)
Definition run_Bn256Add (input : bytes) : outcome run_result :=
  a ← getData input 0 64;
  match bnG1_Unmarshal a with
  | Err e => Ret (Err e)
  | Ok x =>
      b ← getData input 64 64;
      match bnG1_Unmarshal b with
      | Err e => Ret (Err e)
      | Ok y => Ret (Ok (bnG1_Marshal (bnG1_Add x y)))
      end
  end.

Definition run_Bn256ScalarMul (input : bytes) : outcome run_result :=
  a ← getData input 0 64;
  match bnG1_Unmarshal a with
  | Err e => Ret (Err e)
  | Ok p => k ← getData input 64 32; Ret (Ok (bnG1_Marshal (bnG1_ScalarMult p (SetBytes k))))
  end.

Definition true32Byte : bytes := replicate 31 0 ++ [1].
Definition false32Byte : bytes := replicate 32 0.

(** The loop over the elements of [size] bytes of an input. *)
Fixpoint chunks {A} (n : nat) (size : Z) (f : bytes → result string A) (input : bytes) (off : Z)
    : result string (list A) :=
  match n with
  | O => Ok []
  | S n =>
      x ← f (slice input off (off + size));
      xs ← chunks n size f input (off + size);
      Ok (x :: xs)
  end.

Definition bn_pair (b : bytes) : result string (bnG1 * bnG2) :=
  c ← bnG1_Unmarshal (slice b 0 64); t ← bnG2_Unmarshal (slice b 64 192); Ok (c, t).

Definition run_Bn256Pairing (input : bytes) : run_result :=
  if 0 <? len input mod 192 then Err "bad elliptic curve pairing size"
  else
    l ← chunks (Z.to_nat (len input / 192)) 192 bn_pair input 0;
    Ok (if bn_PairingCheck (fst <$> l) (snd <$> l) then true32Byte else false32Byte).

(** Little-endian integers of eight bytes, read from consecutive offsets. *)
Definition le_uint64s (n : nat) (off : Z) (input : bytes) : list Z :=
  (λ i, SetBytes (reverse (slice input (off + 8 * Z.of_nat i) (off + 8 * Z.of_nat i + 8)))) <$> seq 0 n.
Definition put_le_uint64 (x : Z) : bytes := reverse (be_fixed 8 x).

Definition run_blake2F (input : bytes) : run_result :=
  if negb (len input =? 213) then Err "invalid input length"
  else if negb (at_ input 212 =? 0) && negb (at_ input 212 =? 1) then Err "invalid final flag"
  else
    let rounds := SetBytes (slice input 0 4) in
    let h := blake2b_F (le_uint64s 8 4 input) (le_uint64s 16 68 input) (le_uint64s 2 196 input)
               (at_ input 212 =? 1) rounds in
    Ok (mjoin (put_le_uint64 <$> h)).

(** The BLS12-381 contracts. *)
Definition bls_length_error : run_result := Err "invalid input length".

Definition run_G1Add (input : bytes) : run_result :=
  if negb (len input =? 256) then bls_length_error
  else
    p0 ← blsG1_DecodePoint (slice input 0 128);
    p1 ← blsG1_DecodePoint (slice input 128 256);
    Ok (blsG1_EncodePoint (blsG1_Add p0 p1)).

Definition run_G1Mul (input : bytes) : run_result :=
  if negb (len input =? 160) then bls_length_error
  else
    p0 ← blsG1_DecodePoint (slice input 0 128);
    Ok (blsG1_EncodePoint (blsG1_MulScalar p0 (SetBytes (slice input 128 160)))).

Definition run_G1MultiExp (input : bytes) : run_result :=
  if (len input =? 0) || negb (len input mod 160 =? 0) then bls_length_error
  else
    l ← chunks (Z.to_nat (len input / 160)) 160
          (λ b, p ← blsG1_DecodePoint (slice b 0 128); Ok (p, SetBytes (slice b 128 160))) input 0;
    Ok (blsG1_EncodePoint (blsG1_MultiExp (fst <$> l) (snd <$> l))).

Definition run_G2Add (input : bytes) : run_result :=
  if negb (len input =? 512) then bls_length_error
  else
    p0 ← blsG2_DecodePoint (slice input 0 256);
    p1 ← blsG2_DecodePoint (slice input 256 512);
    Ok (blsG2_EncodePoint (blsG2_Add p0 p1)).

Definition run_G2Mul (input : bytes) : run_result :=
  if negb (len input =? 288) then bls_length_error
  else
    p0 ← blsG2_DecodePoint (slice input 0 256);
    Ok (blsG2_EncodePoint (blsG2_MulScalar p0 (SetBytes (slice input 256 288)))).

Definition run_G2MultiExp (input : bytes) : run_result :=
  if (len input =? 0) || negb (len input mod 288 =? 0) then bls_length_error
  else
    l ← chunks (Z.to_nat (len input / 288)) 288
          (λ b, p ← blsG2_DecodePoint (slice b 0 256); Ok (p, SetBytes (slice b 256 288))) input 0;
    Ok (blsG2_EncodePoint (blsG2_MultiExp (fst <$> l) (snd <$> l))).

Definition bls_pair (b : bytes) : result string (blsG1 * blsG2) :=
  p1 ← blsG1_DecodePoint (slice b 0 128);
  p2 ← blsG2_DecodePoint (slice b 128 384);
  if negb (blsG1_InCorrectSubgroup p1) then Err "g1 point is not on correct subgroup"
  else if negb (blsG2_InCorrectSubgroup p2) then Err "g2 point is not on correct subgroup"
  else Ok (p1, p2).

Definition run_Pairing (input : bytes) : run_result :=
  if (len input =? 0) || negb (len input mod 384 =? 0) then bls_length_error
  else
    l ← chunks (Z.to_nat (len input / 384)) 384 bls_pair input 0;
    Ok (if bls_Check l then replicate 31 0 ++ [1] else replicate 32 0).

Definition decodeBLS12381FieldElement (inp : bytes) : run_result :=
  if negb (len inp =? 64) then Err "invalid field element length"
  else if negb (allZero (take 16 inp)) then Err "invalid field element top bytes"
  else Ok (drop 16 inp).

Definition run_MapG1 (input : bytes) : run_result :=
  if negb (len input =? 64) then bls_length_error
  else
    fe ← decodeBLS12381FieldElement input;
    r ← blsG1_MapToCurve fe;
    Ok (blsG1_EncodePoint r).

Definition run_MapG2 (input : bytes) : run_result :=
  if negb (len input =? 128) then bls_length_error
  else
    c0 ← decodeBLS12381FieldElement (slice input 0 64);
    c1 ← decodeBLS12381FieldElement (slice input 64 128);
    r ← blsG2_MapToCurve (c1 ++ c0);
    Ok (blsG2_EncodePoint r).

Definition Run_precompile (p : PrecompiledContract) (input : bytes) : outcome run_result :=
  match p with
  | ecrecover => run_ecrecover input
  | sha256hash => Ret (Ok (sha256_Sum256 input))
  | ripemd160hash => Ret (Ok (LeftPadBytes (ripemd160_Sum input) 32))
  | dataCopy => Ret (Ok input)
  | bigModExp _ => run_bigModExp input
  | bn256AddByzantium | bn256AddIstanbul => run_Bn256Add input
  | bn256ScalarMulByzantium | bn256ScalarMulIstanbul => run_Bn256ScalarMul input
  | bn256PairingByzantium | bn256PairingIstanbul => Ret (run_Bn256Pairing input)
  | blake2F => Ret (run_blake2F input)
  | bls12381G1Add => Ret (run_G1Add input)
  | bls12381G1Mul => Ret (run_G1Mul input)
  | bls12381G1MultiExp => Ret (run_G1MultiExp input)
  | bls12381G2Add => Ret (run_G2Add input)
  | bls12381G2Mul => Ret (run_G2Mul input)
  | bls12381G2MultiExp => Ret (run_G2MultiExp input)
  | bls12381Pairing => Ret (run_Pairing input)
  | bls12381MapG1 => Ret (run_MapG1 input)
  | bls12381MapG2 => Ret (run_MapG2 input)
  end.

(** The returned slice, and whether it is the argument slice itself: only
    [dataCopy] returns its argument. *)
Definition aliases_input (p : PrecompiledContract) : bool :=
  match p with dataCopy => true | _ => false end.

Record call_result := MkCallResult {
  ret_data : bytes; ret_alias : bool; leftOverSmoke : Z; call_err : option vm_error
}.

Definition RunPrecompiledContract (p : PrecompiledContract) (input : bytes) (suppliedSmoke : Z)
    : outcome call_result :=
  smokeCost ← RequiredSmoke p input;
  if suppliedSmoke <? smokeCost then Ret (MkCallResult [] false 0 (Some ErrOutOfSmoke))
  else
    let suppliedSmoke := suppliedSmoke - smokeCost in
    output ← Run_precompile p input;
    match output with
    | Ok out => Ret (MkCallResult out (aliases_input p) suppliedSmoke None)
    | Err e => Ret (MkCallResult [] false suppliedSmoke (Some (ErrPrecompile e)))
    end.
End run.
