(* ===== verification/VmSmoke.v ===== *)
(** * Smoke costs (src/core/vm/smoke.go, memory_table.go, smoke_table.go, operations_acl.go)

    The memory an instruction needs and the dynamic part of its cost.  A cost
    function may change the machine: it records the fee of the memory in
    [lastSmokeCost], the smoke of a call in [callSmokeTemp], refunds and access
    list entries in the state database. *)
From S2P Require Import Prelude Opcodes Params ChainConfig VmBase VmMachine.
Local Open Scope Z_scope.

Notation SmokeQuickStep := 2 (only parsing).
Notation SmokeFastestStep := 3 (only parsing).
Notation SmokeFastStep := 5 (only parsing).
Notation SmokeMidStep := 8 (only parsing).
Notation SmokeSlowStep := 10 (only parsing).
Notation SmokeExtStep := 20 (only parsing).
Notation ColdAccountAccessCostEIP2929 := 2600 (only parsing).
Notation ColdSloadCostEIP2929 := 2100 (only parsing).
Notation WarmStorageReadCostEIP2929 := 100 (only parsing).

Section smoke.
Context `{Uint256} {SA : StateAccess} (env : Env).

(** ** memory_table.go *)

Definition memorySizeFunc : Type := Stack → outcome (Z * bool).

(** [calcMemSize64] on two stack items. *)
Definition mem_at (off l : nat) : memorySizeFunc := λ st,
  off ← Back off st; l ← Back l st; Ret (calcMemSize64 off l).
Definition mem_fixed (off : nat) (n : Z) : memorySizeFunc := λ st,
  off ← Back off st; Ret (calcMemSize64WithUint off n).

Definition memorySha3 : memorySizeFunc := mem_at 0 1.
Definition memoryCallDataCopy : memorySizeFunc := mem_at 0 2.
Definition memoryReturnDataCopy : memorySizeFunc := mem_at 0 2.
Definition memoryCodeCopy : memorySizeFunc := mem_at 0 2.
Definition memoryExtCodeCopy : memorySizeFunc := mem_at 1 3.
Definition memoryMLoad : memorySizeFunc := mem_fixed 0 32.
Definition memoryMStore8 : memorySizeFunc := mem_fixed 0 1.
Definition memoryMStore : memorySizeFunc := mem_fixed 0 32.
Definition memoryCreate : memorySizeFunc := mem_at 1 2.
Definition memoryCreate2 : memorySizeFunc := mem_at 1 2.

(** The larger of the two areas of a call. *)
Definition mem_two (off1 l1 off2 l2 : nat) : memorySizeFunc := λ st,
  '(x, overflow) ← mem_at off1 l1 st;
  if overflow : bool then Ret (0, true)
  else
    '(y, overflow) ← mem_at off2 l2 st;
    if overflow : bool then Ret (0, true)
    else if y <? x then Ret (x, false) else Ret (y, false).

Definition memoryCall : memorySizeFunc := mem_two 5 6 3 4.
Definition memoryDelegateCall : memorySizeFunc := mem_two 4 5 2 3.
Definition memoryStaticCall : memorySizeFunc := mem_two 4 5 2 3.
Definition memoryReturn : memorySizeFunc := mem_at 0 1.
Definition memoryRevert : memorySizeFunc := mem_at 0 1.
Definition memoryLog : memorySizeFunc := mem_at 0 1.

(** ** smoke.go *)

Definition callSmoke (isEip150 : bool) (availableSmoke base : Z) (callCost : Word) : result vm_error Z :=
  let plain := if negb (u_IsUint64 callCost) then Err ErrSmokeUintOverflow else Ok (u_Uint64 callCost) in
  if isEip150 then
    let availableSmoke := u64 (availableSmoke - base) in
    let smoke := availableSmoke - availableSmoke / 64 in
    if negb (u_IsUint64 callCost) || (smoke <? u_Uint64 callCost) then Ok smoke else plain
  else plain.

(** ** smoke_table.go *)

(** A cost function, given the size of the memory the instruction needs. *)
Definition smokeFunc : Type := Z → M (result vm_error Z).

(** Continue with the value of a [result], or return its error. *)
Definition try {A B} (x : M (result vm_error A)) (f : A → M (result vm_error B)) : M (result vm_error B) :=
  r ← x; match r with Ok a => f a | Err e => mret (Err e) end.
Definition ret_ok {A} (a : A) : M (result vm_error A) := mret (Ok a).

(** The overflow checks of [SafeAdd] and [SafeMul]. *)
Definition checked (r : Z * bool) : M (result vm_error Z) :=
  let '(x, overflow) := r in
  mret (if overflow then Err ErrSmokeUintOverflow else Ok x).

Definition memorySmokeCost (newMemSize : Z) : M (result vm_error Z) :=
  if newMemSize =? 0 then ret_ok 0
  else if 0x1FFFFFFFE0 <? newMemSize then mret (Err ErrSmokeUintOverflow)
  else
    let newMemSizeWords := toWordSize newMemSize in
    let newMemSize := u64 (newMemSizeWords * 32) in
    mem ← get memory;
    if mem_Len mem <? newMemSize then
      let square := u64 (newMemSizeWords * newMemSizeWords) in
      let linCoef := u64 (newMemSizeWords * MemorySmoke) in
      let quadCoef := square / QuadCoeffDiv in
      let newTotalFee := u64 (linCoef + quadCoef) in
      let fee := u64 (newTotalFee - lastSmokeCost mem) in
      modify (set_memory (MkMemory (store mem) newTotalFee));;
      ret_ok fee
    else ret_ok 0.

(** The cost per word of the stack item [pos], on top of [smoke]. *)
Definition word_smoke (pos : nat) (price smoke : Z) : M (result vm_error Z) :=
  x ← back pos;
  try (checked (u_Uint64WithOverflow x)) (λ words,
  try (checked (SafeMul (toWordSize words) price)) (λ words,
  checked (SafeAdd smoke words))).

Definition memoryCopierSmoke (stackpos : nat) : smokeFunc := λ memorySize,
  try (memorySmokeCost memorySize) (λ smoke, word_smoke stackpos CopySmoke smoke).

Definition smokeCallDataCopy : smokeFunc := memoryCopierSmoke 2.
Definition smokeCodeCopy : smokeFunc := memoryCopierSmoke 2.
Definition smokeExtCodeCopy : smokeFunc := memoryCopierSmoke 3.
Definition smokeReturnDataCopy : smokeFunc := memoryCopierSmoke 2.

Definition self_address : M Address := get (self ∘ contract).

(** Comparison with the zero hash. *)
Definition is_zero_hash (h : Hash) : bool := bool_decide (h = zero_hash).

Definition smokeSStore : smokeFunc := λ _,
  y ← back 1; x ← back 0;
  addr ← self_address;
  current ← query (GetState addr (u_Bytes32 x));
  if r_IsPetersburg (chainRules env) || negb (r_IsConstantinople (chainRules env)) then
    if is_zero_hash current && negb (u_Sign y =? 0) then ret_ok SstoreSetSmoke
    else if negb (is_zero_hash current) && (u_Sign y =? 0) then
      update (AddRefund SstoreRefundSmoke);; ret_ok SstoreClearSmoke
    else ret_ok SstoreResetSmoke
  else
    let value := u_Bytes32 y in
    if bool_decide (current = value) then ret_ok NetSstoreNoopSmoke
    else
      original ← query (GetCommittedState addr (u_Bytes32 x));
      if bool_decide (original = current) then
        if is_zero_hash original then ret_ok NetSstoreInitSmoke
        else
          (if is_zero_hash value then update (AddRefund NetSstoreClearRefund) else mret tt);;
          ret_ok NetSstoreCleanSmoke
      else
        (if negb (is_zero_hash original) then
           if is_zero_hash current then update_or RefundBelowZero (SubRefund NetSstoreClearRefund)
           else if is_zero_hash value then update (AddRefund NetSstoreClearRefund) else mret tt
         else mret tt);;
        (if bool_decide (original = value) then
           if is_zero_hash original then update (AddRefund NetSstoreResetClearRefund)
           else update (AddRefund NetSstoreResetRefund)
         else mret tt);;
        ret_ok NetSstoreDirtySmoke.

Definition smokeSStoreEIP2200 : smokeFunc := λ _,
  c ← get contract;
  if Smoke c <=? SstoreSentrySmokeEIP2200 then mret (Err ErrReentrancySentry)
  else
    y ← back 1; x ← back 0;
    addr ← self_address;
    current ← query (GetState addr (u_Bytes32 x));
    let value := u_Bytes32 y in
    if bool_decide (current = value) then ret_ok SloadSmokeEIP2200
    else
      original ← query (GetCommittedState addr (u_Bytes32 x));
      if bool_decide (original = current) then
        if is_zero_hash original then ret_ok SstoreSetSmokeEIP2200
        else
          (if is_zero_hash value then update (AddRefund SstoreClearsScheduleRefundEIP2200) else mret tt);;
          ret_ok SstoreResetSmokeEIP2200
      else
        (if negb (is_zero_hash original) then
           if is_zero_hash current
           then update_or RefundBelowZero (SubRefund SstoreClearsScheduleRefundEIP2200)
           else if is_zero_hash value then update (AddRefund SstoreClearsScheduleRefundEIP2200)
           else mret tt
         else mret tt);;
        (if bool_decide (original = value) then
           if is_zero_hash original then update (AddRefund (SstoreSetSmokeEIP2200 - SloadSmokeEIP2200))
           else update (AddRefund (SstoreResetSmokeEIP2200 - SloadSmokeEIP2200))
         else mret tt);;
        ret_ok SloadSmokeEIP2200.

Definition makeSmokeLog (n : Z) : smokeFunc := λ memorySize,
  x ← back 1;
  try (checked (u_Uint64WithOverflow x)) (λ requestedSize,
  try (memorySmokeCost memorySize) (λ smoke,
  try (checked (SafeAdd smoke LogSmoke)) (λ smoke,
  try (checked (SafeAdd smoke (u64 (n * LogTopicSmoke)))) (λ smoke,
  try (checked (SafeMul requestedSize LogDataSmoke)) (λ memorySizeSmoke,
  checked (SafeAdd smoke memorySizeSmoke)))))).

Definition smokeSha3 : smokeFunc := λ memorySize,
  try (memorySmokeCost memorySize) (λ smoke, word_smoke 1 Sha3WordSmoke smoke).

Definition pureMemorySmokecost : smokeFunc := memorySmokeCost.

Definition smokeReturn : smokeFunc := pureMemorySmokecost.
Definition smokeRevert : smokeFunc := pureMemorySmokecost.
Definition smokeMLoad : smokeFunc := pureMemorySmokecost.
Definition smokeMStore8 : smokeFunc := pureMemorySmokecost.
Definition smokeMStore : smokeFunc := pureMemorySmokecost.
Definition smokeCreate : smokeFunc := pureMemorySmokecost.

Definition smokeCreate2 : smokeFunc := λ memorySize,
  try (memorySmokeCost memorySize) (λ smoke, word_smoke 2 Sha3WordSmoke smoke).

Definition exp_smoke (price : Z) : M (result vm_error Z) :=
  e ← back 1;
  let expByteLen := (u_BitLen e + 7) / 8 in
  checked (SafeAdd (u64 (expByteLen * price)) ExpSmoke).

Definition smokeExpFrontier : smokeFunc := λ _, exp_smoke ExpByteFrontier.
Definition smokeExpEIP158 : smokeFunc := λ _, exp_smoke ExpByteEIP158.

(** The end of the four call costs: the smoke for the callee is remembered in
    [callSmokeTemp] and added. *)
Definition add_callSmoke (smoke : Z) : M (result vm_error Z) :=
  c ← get contract;
  callCost ← back 0;
  match callSmoke (r_IsEIP150 (chainRules env)) (Smoke c) smoke callCost with
  | Err e => update_evm (set_callSmokeTemp 0);; mret (Err e)
  | Ok temp =>
      update_evm (set_callSmokeTemp temp);;
      checked (SafeAdd smoke temp)
  end.

Definition smokeCall : smokeFunc := λ memorySize,
  v ← back 2; a ← back 1;
  let transfersValue := negb (u_IsZero v) in
  let address := u_Bytes20 a in
  smoke ←
    (if r_IsEIP158 (chainRules env) then
       if transfersValue then
         e ← query (Empty address); mret (if e : bool then CallNewAccountSmoke else 0)
       else mret 0
     else
       e ← query (Exist address); mret (if e : bool then 0 else CallNewAccountSmoke));
  let smoke := if transfersValue then smoke + CallValueTransferSmoke else smoke in
  try (memorySmokeCost memorySize) (λ memorySmoke,
  try (checked (SafeAdd smoke memorySmoke)) add_callSmoke).

Definition smokeCallCode : smokeFunc := λ memorySize,
  try (memorySmokeCost memorySize) (λ memorySmoke,
  v ← back 2;
  let smoke := if negb (u_Sign v =? 0) then CallValueTransferSmoke else 0 in
  try (checked (SafeAdd smoke memorySmoke)) add_callSmoke).

Definition smokeDelegateCall : smokeFunc := λ memorySize,
  try (memorySmokeCost memorySize) add_callSmoke.
Definition smokeStaticCall : smokeFunc := λ memorySize,
  try (memorySmokeCost memorySize) add_callSmoke.

Definition smokeSelfdestruct : smokeFunc := λ _,
  smoke ←
    (if r_IsEIP150 (chainRules env) then
       a ← back 0;
       let address := u_Bytes20 a in
       if r_IsEIP158 (chainRules env) then
         e ← query (Empty address);
         if e : bool then
           addr ← self_address;
           b ← query (GetBalance addr);
           mret (if negb (Z.sgn b =? 0) then SelfdestructSmokeEIP150 + CreateBySelfdestructSmoke
                 else SelfdestructSmokeEIP150)
         else mret SelfdestructSmokeEIP150
       else
         e ← query (Exist address);
         mret (if e : bool then SelfdestructSmokeEIP150
               else SelfdestructSmokeEIP150 + CreateBySelfdestructSmoke)
     else mret 0);
  addr ← self_address;
  h ← query (HasSuicided addr);
  (if negb h then update (AddRefund SelfdestructRefundSmoke) else mret tt);;
  ret_ok smoke.

(** ** operations_acl.go *)

Definition slot_in_list (addr : Address) (slot : Hash) : M (bool * bool) :=
  s ← get (StateDB ∘ evm);
  lift (or_panic SlotListMissing (SlotInAccessList addr slot s)).
Definition add_slot (addr : Address) (slot : Hash) : M unit :=
  update_or SlotListMissing (AddSlotToAccessList addr slot).
Definition address_in_list (addr : Address) : M bool :=
  s ← get (StateDB ∘ evm); mret (AddressInAccessList addr s).

Definition smokeSStoreEIP2929 : smokeFunc := λ _,
  c ← get contract;
  if Smoke c <=? SstoreSentrySmokeEIP2200 then mret (Err ErrReentrancySentry)
  else
    y ← back 1; x ← peek;
    let slot := u_Bytes32 x in
    addr ← self_address;
    current ← query (GetState addr slot);
    '(addrPresent, slotPresent) ← slot_in_list addr slot;
    cost ←
      (if negb slotPresent then
         add_slot addr slot;;
         if negb addrPresent then lift (Panic AddressNotInList) else mret ColdSloadCostEIP2929
       else mret 0);
    let value := u_Bytes32 y in
    if bool_decide (current = value) then ret_ok (cost + WarmStorageReadCostEIP2929)
    else
      original ← query (GetCommittedState addr (u_Bytes32 x));
      if bool_decide (original = current) then
        if is_zero_hash original then ret_ok (cost + SstoreSetSmokeEIP2200)
        else
          (if is_zero_hash value then update (AddRefund SstoreClearsScheduleRefundEIP2200) else mret tt);;
          ret_ok (cost + (SstoreResetSmokeEIP2200 - ColdSloadCostEIP2929))
      else
        (if negb (is_zero_hash original) then
           if is_zero_hash current
           then update_or RefundBelowZero (SubRefund SstoreClearsScheduleRefundEIP2200)
           else if is_zero_hash value then update (AddRefund SstoreClearsScheduleRefundEIP2200)
           else mret tt
         else mret tt);;
        (if bool_decide (original = value) then
           if is_zero_hash original
           then update (AddRefund (SstoreSetSmokeEIP2200 - WarmStorageReadCostEIP2929))
           else update (AddRefund
                  ((SstoreResetSmokeEIP2200 - ColdSloadCostEIP2929) - WarmStorageReadCostEIP2929))
         else mret tt);;
        ret_ok (cost + WarmStorageReadCostEIP2929).

Definition smokeSLoadEIP2929 : smokeFunc := λ _,
  loc ← peek;
  let slot := u_Bytes32 loc in
  addr ← self_address;
  '(_, slotPresent) ← slot_in_list addr slot;
  if negb slotPresent then add_slot addr slot;; ret_ok ColdSloadCostEIP2929
  else ret_ok WarmStorageReadCostEIP2929.

Definition smokeExtCodeCopyEIP2929 : smokeFunc := λ memorySize,
  try (smokeExtCodeCopy memorySize) (λ smoke,
  a ← peek;
  let addr := u_Bytes20 a in
  present ← address_in_list addr;
  if negb present then
    update (AddAddressToAccessList addr);;
    checked (SafeAdd smoke (ColdAccountAccessCostEIP2929 - WarmStorageReadCostEIP2929))
  else ret_ok smoke).

Definition smokeEip2929AccountCheck : smokeFunc := λ _,
  a ← peek;
  let addr := u_Bytes20 a in
  present ← address_in_list addr;
  if negb present then
    update (AddAddressToAccessList addr);;
    ret_ok (ColdAccountAccessCostEIP2929 - WarmStorageReadCostEIP2929)
  else ret_ok 0.

Definition makeCallVariantSmokeCallEIP2929 (oldCalculator : smokeFunc) : smokeFunc := λ memorySize,
  a ← back 1;
  let addr := u_Bytes20 a in
  present ← address_in_list addr;
  if negb present then
    update (AddAddressToAccessList addr);;
    b ← UseSmoke (ColdAccountAccessCostEIP2929 - WarmStorageReadCostEIP2929);
    if negb b then mret (Err ErrOutOfSmoke) else oldCalculator memorySize
  else oldCalculator memorySize.

Definition smokeCallEIP2929 : smokeFunc := makeCallVariantSmokeCallEIP2929 smokeCall.
Definition smokeDelegateCallEIP2929 : smokeFunc := makeCallVariantSmokeCallEIP2929 smokeDelegateCall.
Definition smokeStaticCallEIP2929 : smokeFunc := makeCallVariantSmokeCallEIP2929 smokeStaticCall.
Definition smokeCallCodeEIP2929 : smokeFunc := makeCallVariantSmokeCallEIP2929 smokeCallCode.

Definition smokeSelfdestructEIP2929 : smokeFunc := λ _,
  a ← peek;
  let address := u_Bytes20 a in
  present ← address_in_list address;
  smoke ←
    (if negb present then
       update (AddAddressToAccessList address);; mret ColdAccountAccessCostEIP2929
     else mret 0);
  e ← query (Empty address);
  smoke ←
    (if e : bool then
       addr ← self_address;
       b ← query (GetBalance addr);
       mret (if negb (Z.sgn b =? 0) then smoke + CreateBySelfdestructSmoke else smoke)
     else mret smoke);
  addr ← self_address;
  h ← query (HasSuicided addr);
  (if negb h then update (AddRefund SelfdestructRefundSmoke) else mret tt);;
  ret_ok smoke.
End smoke.
