(* ===== verification/VmOps.v ===== *)
(** * Instructions (src/core/vm/instructions.go, eips.go)

    One definition per instruction, in the machine monad.  The calls and
    creations are a parameter here ([CallOps], the methods of [EVM]); Evm.v
    ties the knot.  The data a call returns may be a slice of the caller's own
    memory (the identity contract returns its argument): it is read again
    after the memory has been written. *)
From S2P Require Import Prelude Opcodes Params ChainConfig VmBase VmMachine Precompiles VmSmoke.
Local Open Scope Z_scope.

Section ops.
Context `{Uint256} {SA : StateAccess} {CR : Crypto} (env : Env).

Record create_result := MkCreateResult {
  cr_ret : bytes; cr_addr : Address; cr_smoke : Z; cr_err : option vm_error
}.

(** [Call], [CallCode], [DelegateCall], [StaticCall], [Create] and [Create2] of
    [EVM]: caller, address or code, input, smoke, value. *)
Record CallOps := MkCallOps {
  do_Call : ContractRef → Address → bytes → Z → Z → EVM → outcome (call_result * EVM);
  do_CallCode : ContractRef → Address → bytes → Z → Z → EVM → outcome (call_result * EVM);
  do_DelegateCall : ContractRef → Address → bytes → Z → EVM → outcome (call_result * EVM);
  do_StaticCall : ContractRef → Address → bytes → Z → EVM → outcome (call_result * EVM);
  do_Create : ContractRef → bytes → Z → Z → EVM → outcome (create_result * EVM);
  do_Create2 : ContractRef → bytes → Z → Z → Word → EVM → outcome (create_result * EVM)
}.

Definition executionFunc : Type := M op_result.

(** [x, y := pop(), peek(); y.f(x, y)]. *)
Definition binop (f : Word → Word → Word) : executionFunc := x ← pop; y ← peek; poke (f x y);; ok.
(** A comparison: [y.SetOne()] or [y.Clear()]. *)
Definition cmpop (f : Word → Word → bool) : executionFunc :=
  binop (λ x y, if f x y then u_one else u_zero).

Definition opAdd : executionFunc := binop u_Add.
Definition opSub : executionFunc := binop u_Sub.
Definition opMul : executionFunc := binop u_Mul.
Definition opDiv : executionFunc := binop u_Div.
Definition opSdiv : executionFunc := binop u_SDiv.
Definition opMod : executionFunc := binop u_Mod.
Definition opSmod : executionFunc := binop u_SMod.
Definition opExp : executionFunc := binop u_Exp.
Definition opSignExtend : executionFunc := binop (λ back num, u_ExtendSign num back).
Definition opNot : executionFunc := x ← peek; poke (u_Not x);; ok.
Definition opLt : executionFunc := cmpop u_Lt.
Definition opGt : executionFunc := cmpop u_Gt.
Definition opSlt : executionFunc := cmpop u_Slt.
Definition opSgt : executionFunc := cmpop u_Sgt.
Definition opEq : executionFunc := cmpop u_Eq.
Definition opIszero : executionFunc := x ← peek; poke (if u_IsZero x then u_one else u_zero);; ok.
Definition opAnd : executionFunc := binop u_And.
Definition opOr : executionFunc := binop u_Or.
Definition opXor : executionFunc := binop u_Xor.
Definition opByte : executionFunc := binop (λ th val, u_Byte val th).

Definition opAddmod : executionFunc :=
  x ← pop; y ← pop; z ← peek; poke (if u_IsZero z then u_zero else u_AddMod x y z);; ok.
Definition opMulmod : executionFunc := x ← pop; y ← pop; z ← peek; poke (u_MulMod x y z);; ok.

Definition opSHL : executionFunc :=
  binop (λ shift value, if u_LtUint64 shift 256 then u_Lsh value (u_Uint64 shift) else u_zero).
Definition opSHR : executionFunc :=
  binop (λ shift value, if u_LtUint64 shift 256 then u_Rsh value (u_Uint64 shift) else u_zero).
Definition opSAR : executionFunc :=
  binop (λ shift value,
    if u_GtUint64 shift 256 then if 0 <=? u_Sign value then u_zero else u_allone
    else u_SRsh value (u_Uint64 shift)).

Definition opSha3 : executionFunc :=
  offset ← pop; size ← peek;
  m ← get memory;
  data ← lift (GetPtr (int64 (u_Uint64 offset)) (int64 (u_Uint64 size)) m);
  let hash := Keccak256 data in
  (if EnablePreimageRecording env then update (AddPreimage hash data) else mret tt);;
  poke (u_SetBytes hash);; ok.

Definition opAddress : executionFunc := a ← self_address; push (u_SetBytes a);; ok.

Definition opBalance : executionFunc :=
  slot ← peek;
  b ← query (GetBalance (u_Bytes20 slot));
  poke (u_FromBig b);; ok.

Definition opOrigin : executionFunc := push (u_SetBytes (Origin env));; ok.
Definition opCaller : executionFunc := c ← get contract; push (u_SetBytes (CallerAddress c));; ok.
Definition opCallValue : executionFunc := c ← get contract; push (u_FromBig (value c));; ok.

Definition opCallDataLoad : executionFunc :=
  x ← peek;
  c ← get contract;
  let '(offset, overflow) := u_Uint64WithOverflow x in
  (if overflow then poke u_zero
   else data ← lift (getData (Input c) offset 32); poke (u_SetBytes data));; ok.

Definition opCallDataSize : executionFunc := c ← get contract; push (u_SetUint64 (len (Input c)));; ok.

(** The offset of a copy, the largest one when it does not fit. *)
Definition copy_offset (x : Word) : Z :=
  let '(offset64, overflow) := u_Uint64WithOverflow x in
  if overflow then 0xffffffffffffffff else offset64.

(** [memory.Set(memOffset, length, getData(data, offset, length))]. *)
Definition copy_to_memory (memOffset dataOffset length : Word) (data : bytes) : M unit :=
  d ← lift (getData data (copy_offset dataOffset) (u_Uint64 length));
  update_memory (mem_Set (u_Uint64 memOffset) (u_Uint64 length) d).

Definition opCallDataCopy : executionFunc :=
  memOffset ← pop; dataOffset ← pop; length ← pop;
  c ← get contract;
  copy_to_memory memOffset dataOffset length (Input c);; ok.

Definition opReturnDataSize : executionFunc := e ← get evm; push (u_SetUint64 (len (returnData e)));; ok.

Definition opReturnDataCopy : executionFunc :=
  memOffset ← pop; dataOffset ← pop; length ← pop;
  e ← get evm;
  let '(offset64, overflow) := u_Uint64WithOverflow dataOffset in
  if overflow then fail ErrReturnDataOutOfBounds
  else
    let '(end64, overflow) := u_Uint64WithOverflow (u_Add dataOffset length) in
    if overflow || (len (returnData e) <? end64) then fail ErrReturnDataOutOfBounds
    else
      d ← lift (slice_checked (returnData e) offset64 end64);
      update_memory (mem_Set (u_Uint64 memOffset) (u_Uint64 length) d);; ok.

Definition opExtCodeSize : executionFunc :=
  slot ← peek; n ← query (GetCodeSize (u_Bytes20 slot)); poke (u_SetUint64 n);; ok.

Definition opCodeSize : executionFunc := c ← get contract; push (u_SetUint64 (len (Code c)));; ok.

Definition opCodeCopy : executionFunc :=
  memOffset ← pop; codeOffset ← pop; length ← pop;
  c ← get contract;
  copy_to_memory memOffset codeOffset length (Code c);; ok.

Definition opExtCodeCopy : executionFunc :=
  a ← pop; memOffset ← pop; codeOffset ← pop; length ← pop;
  code ← query (GetCode (u_Bytes20 a));
  copy_to_memory memOffset codeOffset length code;; ok.

Definition opExtCodeHash : executionFunc :=
  slot ← peek;
  let address := u_Bytes20 slot in
  e ← query (Empty address);
  (if e : bool then poke u_zero else h ← query (GetCodeHash address); poke (u_SetBytes h));; ok.

Definition opSmokeprice : executionFunc := push (u_FromBig (SmokePrice env));; ok.

Definition opBlockhash : executionFunc :=
  num ← peek;
  let '(num64, overflow) := u_Uint64WithOverflow num in
  if overflow then poke u_zero;; ok
  else
    let upper := big_Uint64 (BlockNumber env) in
    let lower := if upper <? 257 then 0 else upper - 256 in
    (if (lower <=? num64) && (num64 <? upper) then poke (u_SetBytes (GetHash env num64)) else poke u_zero);; ok.

Definition opCoinbase : executionFunc := push (u_SetBytes (Coinbase env));; ok.
Definition opTimestamp : executionFunc := push (u_FromBig (Time env));; ok.
Definition opNumber : executionFunc := push (u_FromBig (BlockNumber env));; ok.
Definition opDifficulty : executionFunc := push (u_FromBig (Difficulty env));; ok.
Definition opSmokeLimit : executionFunc := push (u_SetUint64 (SmokeLimit env));; ok.
Definition opPop : executionFunc := pop;; ok.

Definition opMload : executionFunc :=
  v ← peek;
  m ← get memory;
  d ← lift (GetPtr (int64 (u_Uint64 v)) 32 m);
  poke (u_SetBytes d);; ok.

Definition opMstore : executionFunc :=
  mStart ← pop; val ← pop; update_memory (mem_Set32 (u_Uint64 mStart) val);; ok.
Definition opMstore8 : executionFunc :=
  off ← pop; val ← pop; update_memory (mem_SetByte (u_Uint64 off) (u8 (u_Uint64 val)));; ok.

Definition opSload : executionFunc :=
  loc ← peek;
  addr ← self_address;
  val ← query (GetState addr (u_Bytes32 loc));
  poke (u_SetBytes val);; ok.

Definition opSstore : executionFunc :=
  loc ← pop; val ← pop;
  addr ← self_address;
  update (SetState addr (u_Bytes32 loc) (u_Bytes32 val));; ok.

Definition opJump : executionFunc :=
  pos ← pop;
  b ← validJumpdest pos;
  if negb b then fail ErrInvalidJump else modify (set_pc (u_Uint64 pos));; ok.

Definition opJumpi : executionFunc :=
  pos ← pop; cond ← pop;
  if negb (u_IsZero cond) then
    b ← validJumpdest pos;
    if negb b then fail ErrInvalidJump else modify (set_pc (u_Uint64 pos));; ok
  else modify (λ m, set_pc (u64 (pc m + 1)) m);; ok.

Definition opJumpdest : executionFunc := ok.
Definition opBeginSub : executionFunc := fail ErrInvalidSubroutineEntry.

Definition opJumpSub : executionFunc :=
  rs ← get rstack;
  if 1023 <=? len rs then fail ErrReturnStackExceeded
  else
    pos ← pop;
    if negb (u_IsUint64 pos) then fail ErrInvalidJump
    else
      let posU64 := u_Uint64 pos in
      b ← validJumpSubdest posU64;
      if negb b then fail ErrInvalidJump
      else
        modify (λ m, set_rstack (u32 (pc m) :: rstack m) m);;
        modify (set_pc (u64 (posU64 + 1)));; ok.

Definition opReturnSub : executionFunc :=
  rs ← get rstack;
  match rs with
  | [] => fail ErrInvalidRetsub
  | r :: rs => modify (set_rstack rs);; modify (set_pc (u64 (r + 1)));; ok
  end.

Definition opPc : executionFunc := p ← get pc; push (u_SetUint64 p);; ok.
Definition opMsize : executionFunc := m ← get memory; push (u_SetUint64 (mem_Len m));; ok.
Definition opSmoke : executionFunc := c ← get contract; push (u_SetUint64 (Smoke c));; ok.

(** ** Calls and creations *)

Section calls.
Context (calls : CallOps).

(** Run a method of the EVM on the EVM of this frame. *)
Definition on_evm {A} (f : EVM → outcome (A * EVM)) : M A :=
  e ← get evm;
  '(a, e) ← lift (f e);
  update_evm (λ _, e);; mret a.

Definition give_back (smoke : Z) : M unit :=
  update_contract (λ c, set_Smoke (u64 (Smoke c + smoke)) c).

Definition opCreate : executionFunc :=
  value ← pop; offset ← pop; size ← pop;
  m ← get memory;
  input ← lift (GetCopy (int64 (u_Uint64 offset)) (int64 (u_Uint64 size)) m);
  c ← get contract;
  let smoke := Smoke c in
  let smoke := if r_IsEIP150 (chainRules env) then smoke - smoke / 64 else smoke in
  UseSmoke smoke;;
  c ← get contract;
  let bigVal := if negb (u_IsZero value) then u_ToBig value else 0 in
  r ← on_evm (do_Create calls (as_ref c) input smoke bigVal);
  let stackvalue :=
    if r_IsHomestead (chainRules env) && bool_decide (cr_err r = Some ErrCodeStoreOutOfSmoke) then u_zero
    else if bool_decide (cr_err r ≠ None) && bool_decide (cr_err r ≠ Some ErrCodeStoreOutOfSmoke) then u_zero
    else u_SetBytes (cr_addr r) in
  push stackvalue;;
  give_back (cr_smoke r);;
  if bool_decide (cr_err r = Some ErrExecutionReverted) then mret (cr_ret r, None) else ok.

Definition opCreate2 : executionFunc :=
  endowment ← pop; offset ← pop; size ← pop; salt ← pop;
  m ← get memory;
  input ← lift (GetCopy (int64 (u_Uint64 offset)) (int64 (u_Uint64 size)) m);
  c ← get contract;
  let smoke := Smoke c - Smoke c / 64 in
  UseSmoke smoke;;
  c ← get contract;
  let bigEndowment := if negb (u_IsZero endowment) then u_ToBig endowment else 0 in
  r ← on_evm (do_Create2 calls (as_ref c) input smoke bigEndowment salt);
  push (if bool_decide (cr_err r ≠ None) then u_zero else u_SetBytes (cr_addr r));;
  give_back (cr_smoke r);;
  if bool_decide (cr_err r = Some ErrExecutionReverted) then mret (cr_ret r, None) else ok.

(** The end of the four call instructions.  When the returned slice is the
    argument slice it is read after the memory has been written. *)
Definition finish_call (r : call_result) (inOffset inSize retOffset retSize : Word) : executionFunc :=
  push (if bool_decide (call_err r ≠ None) then u_zero else u_one);;
  (if bool_decide (call_err r = None) || bool_decide (call_err r = Some ErrExecutionReverted)
   then update_memory (mem_Set (u_Uint64 retOffset) (u_Uint64 retSize) (ret_data r))
   else mret tt);;
  give_back (leftOverSmoke r);;
  if ret_alias r then
    m ← get memory;
    ret ← lift (GetPtr (int64 (u_Uint64 inOffset)) (int64 (u_Uint64 inSize)) m);
    mret (ret, None)
  else mret (ret_data r, None).

Definition get_args (inOffset inSize : Word) : M bytes :=
  m ← get memory; lift (GetPtr (int64 (u_Uint64 inOffset)) (int64 (u_Uint64 inSize)) m).

Definition opCall : executionFunc :=
  _temp ← pop;
  e ← get evm;
  let smoke := callSmokeTemp e in
  addr ← pop; value ← pop; inOffset ← pop; inSize ← pop; retOffset ← pop; retSize ← pop;
  let toAddr := u_Bytes20 addr in
  args ← get_args inOffset inSize;
  let '(smoke, bigVal) :=
    if negb (u_IsZero value) then (u64 (smoke + CallStipend), u_ToBig value) else (smoke, 0) in
  c ← get contract;
  r ← on_evm (do_Call calls (as_ref c) toAddr args smoke bigVal);
  finish_call r inOffset inSize retOffset retSize.

Definition opCallCode : executionFunc :=
  _temp ← pop;
  e ← get evm;
  let smoke := callSmokeTemp e in
  addr ← pop; value ← pop; inOffset ← pop; inSize ← pop; retOffset ← pop; retSize ← pop;
  let toAddr := u_Bytes20 addr in
  args ← get_args inOffset inSize;
  let '(smoke, bigVal) :=
    if negb (u_IsZero value) then (u64 (smoke + CallStipend), u_ToBig value) else (smoke, 0) in
  c ← get contract;
  r ← on_evm (do_CallCode calls (as_ref c) toAddr args smoke bigVal);
  finish_call r inOffset inSize retOffset retSize.

Definition opDelegateCall : executionFunc :=
  _temp ← pop;
  e ← get evm;
  let smoke := callSmokeTemp e in
  addr ← pop; inOffset ← pop; inSize ← pop; retOffset ← pop; retSize ← pop;
  let toAddr := u_Bytes20 addr in
  args ← get_args inOffset inSize;
  c ← get contract;
  r ← on_evm (do_DelegateCall calls (as_ref c) toAddr args smoke);
  finish_call r inOffset inSize retOffset retSize.

Definition opStaticCall : executionFunc :=
  _temp ← pop;
  e ← get evm;
  let smoke := callSmokeTemp e in
  addr ← pop; inOffset ← pop; inSize ← pop; retOffset ← pop; retSize ← pop;
  let toAddr := u_Bytes20 addr in
  args ← get_args inOffset inSize;
  c ← get contract;
  r ← on_evm (do_StaticCall calls (as_ref c) toAddr args smoke);
  finish_call r inOffset inSize retOffset retSize.
End calls.

(** ** Halting, logs, pushes *)

Definition opReturn : executionFunc :=
  offset ← pop; size ← pop; ret ← get_args offset size; mret (ret, None).
Definition opRevert : executionFunc :=
  offset ← pop; size ← pop; ret ← get_args offset size; mret (ret, None).
Definition opStop : executionFunc := ok.

Definition opSuicide : executionFunc :=
  beneficiary ← pop;
  addr ← self_address;
  balance ← query (GetBalance addr);
  update (AddBalance (u_Bytes20 beneficiary) balance);;
  query (Suicide addr);; ok.

Fixpoint pop_topics (n : nat) : M (list Hash) :=
  match n with
  | O => mret []
  | S n => t ← pop; ts ← pop_topics n; mret (u_Bytes32 t :: ts)
  end.

Definition makeLog (size : nat) : executionFunc :=
  mStart ← pop; mSize ← pop;
  topics ← pop_topics size;
  m ← get memory;
  d ← lift (GetCopy (int64 (u_Uint64 mStart)) (int64 (u_Uint64 mSize)) m);
  addr ← self_address;
  update (AddLog addr topics d (big_Uint64 (BlockNumber env)));; ok.

Definition opPush1 : executionFunc :=
  c ← get contract;
  modify (λ m, set_pc (u64 (pc m + 1)) m);;
  p ← get pc;
  push (if p <? len (Code c) then u_SetUint64 (at_ (Code c) (Z.to_nat p)) else u_zero);; ok.

Definition makePush (size pushByteSize : Z) : executionFunc :=
  c ← get contract;
  p ← get pc;
  let codeLen := len (Code c) in
  let startMin := if int64 (u64 (p + 1)) <? codeLen then int64 (u64 (p + 1)) else codeLen in
  let endMin := if startMin + pushByteSize <? codeLen then startMin + pushByteSize else codeLen in
  d ← lift (slice_checked (Code c) startMin endMin);
  push (u_SetBytes (RightPadBytes d pushByteSize));;
  modify (λ m, set_pc (u64 (pc m + size)) m);; ok.

Definition makeDup (size : nat) : executionFunc :=
  st ← get stack; st ← lift (stack_dup size st); modify (set_stack st);; ok.
Definition makeSwap (size : nat) : executionFunc :=
  st ← get stack; st ← lift (stack_swap (size + 1) st); modify (set_stack st);; ok.

(** ** eips.go *)

Definition opSelfBalance : executionFunc :=
  addr ← self_address; b ← query (GetBalance addr); push (u_FromBig b);; ok.
Definition opChainID : executionFunc := push (u_FromBig (chainConfig_ChainID env));; ok.
End ops.
