(* ===== verification/VmTables.v ===== *)
(** * Jump tables (src/core/vm/jump_table.go, stack_table.go, eips.go)

    The instruction sets of the releases: for every opcode its function, its
    cost, the bounds on the stack and the memory it needs.  A table is an
    association list, an absent opcode is a nil pointer. *)
From S2P Require Import Prelude Opcodes Params ChainConfig VmBase VmMachine Precompiles VmSmoke VmOps.
Local Open Scope Z_scope.

(** ** stack_table.go *)

Definition maxStack (pop push : Z) : Z := StackLimit + pop - push.
Definition minStack (pops push : Z) : Z := pops.
Definition minSwapStack (n : Z) : Z := minStack n n.
Definition maxSwapStack (n : Z) : Z := maxStack n n.
Definition minDupStack (n : Z) : Z := minStack n (n + 1).
Definition maxDupStack (n : Z) : Z := maxStack n (n + 1).

Section tables.
Context `{Uint256} {SA : StateAccess} {CR : Crypto} (env : Env) (calls : CallOps).

Record operation := MkOperation {
  execute : executionFunc;
  constantSmoke : Z;
  dynamicSmoke : option smokeFunc;
  op_minStack : Z;
  op_maxStack : Z;
  memorySize : option memorySizeFunc;
  halts : bool;
  jumps : bool;
  writes : bool;
  reverts : bool;
  returns : bool
}.

(** The literals of the tables: an operation without and with a dynamic
    cost, a duplication and an exchange. *)
Definition static (f : executionFunc) (smoke pops pushes : Z) : operation :=
  MkOperation f smoke None (minStack pops pushes) (maxStack pops pushes) None false false false false false.
Definition dynamic (f : executionFunc) (smoke : Z) (d : smokeFunc) (m : option memorySizeFunc)
    (pops pushes : Z) : operation :=
  MkOperation f smoke (Some d) (minStack pops pushes) (maxStack pops pushes) m false false false false false.
Definition dup_op (f : executionFunc) (smoke n : Z) : operation :=
  MkOperation f smoke None (minDupStack n) (maxDupStack n) None false false false false false.
Definition swap_op (f : executionFunc) (smoke n : Z) : operation :=
  MkOperation f smoke None (minSwapStack n) (maxSwapStack n) None false false false false false.

Definition set_halts (o : operation) : operation :=
  MkOperation (execute o) (constantSmoke o) (dynamicSmoke o) (op_minStack o) (op_maxStack o) (memorySize o) true (jumps o) (writes o) (reverts o) (returns o).
Definition set_jumps (o : operation) : operation :=
  MkOperation (execute o) (constantSmoke o) (dynamicSmoke o) (op_minStack o) (op_maxStack o) (memorySize o) (halts o) true (writes o) (reverts o) (returns o).
Definition set_writes (o : operation) : operation :=
  MkOperation (execute o) (constantSmoke o) (dynamicSmoke o) (op_minStack o) (op_maxStack o) (memorySize o) (halts o) (jumps o) true (reverts o) (returns o).
Definition set_reverts (o : operation) : operation :=
  MkOperation (execute o) (constantSmoke o) (dynamicSmoke o) (op_minStack o) (op_maxStack o) (memorySize o) (halts o) (jumps o) (writes o) true (returns o).
Definition set_returns (o : operation) : operation :=
  MkOperation (execute o) (constantSmoke o) (dynamicSmoke o) (op_minStack o) (op_maxStack o) (memorySize o) (halts o) (jumps o) (writes o) (reverts o) true.
Definition set_constantSmoke v (o : operation) : operation :=
  MkOperation (execute o) v (dynamicSmoke o) (op_minStack o) (op_maxStack o) (memorySize o) (halts o) (jumps o) (writes o) (reverts o) (returns o).
Definition set_dynamicSmoke v (o : operation) : operation :=
  MkOperation (execute o) (constantSmoke o) v (op_minStack o) (op_maxStack o) (memorySize o) (halts o) (jumps o) (writes o) (reverts o) (returns o).

Abbreviation JumpTable := (list (Z * operation)).

(** [jt[op] = o]. *)
Definition set_op (op : Z) (o : operation) (jt : JumpTable) : JumpTable :=
  (op, o) :: filter (λ e, e.1 ≠ op) jt.

(** An assignment to a field of [jt[op]]. *)
Definition update_op (op : Z) (f : operation → operation) (jt : JumpTable) : JumpTable :=
  (λ e, if e.1 =? op then (e.1, f e.2) else e) <$> jt.

(** ** The instruction sets *)

Definition frontier_arithmetic : JumpTable :=
  [(STOP, set_halts (static opStop 0 0 0));
   (ADD, static opAdd SmokeFastestStep 2 1);
   (MUL, static opMul SmokeFastStep 2 1);
   (SUB, static opSub SmokeFastestStep 2 1);
   (DIV, static opDiv SmokeFastStep 2 1);
   (SDIV, static opSdiv SmokeFastStep 2 1);
   (MOD, static opMod SmokeFastStep 2 1);
   (SMOD, static opSmod SmokeFastStep 2 1);
   (ADDMOD, static opAddmod SmokeMidStep 3 1);
   (MULMOD, static opMulmod SmokeMidStep 3 1);
   (EXP, dynamic opExp 0 smokeExpFrontier None 2 1);
   (SIGNEXTEND, static opSignExtend SmokeFastStep 2 1);
   (LT, static opLt SmokeFastestStep 2 1);
   (GT, static opGt SmokeFastestStep 2 1);
   (SLT, static opSlt SmokeFastestStep 2 1);
   (SGT, static opSgt SmokeFastestStep 2 1);
   (EQ, static opEq SmokeFastestStep 2 1);
   (ISZERO, static opIszero SmokeFastestStep 1 1);
   (AND, static opAnd SmokeFastestStep 2 1);
   (XOR, static opXor SmokeFastestStep 2 1);
   (OR, static opOr SmokeFastestStep 2 1);
   (NOT, static opNot SmokeFastestStep 1 1);
   (BYTE, static opByte SmokeFastestStep 2 1)].

Definition frontier_environment : JumpTable :=
  [(SHA3, dynamic (opSha3 env) Sha3Smoke smokeSha3 (Some memorySha3) 2 1);
   (ADDRESS, static opAddress SmokeQuickStep 0 1);
   (BALANCE, static opBalance BalanceSmokeFrontier 1 1);
   (ORIGIN, static (opOrigin env) SmokeQuickStep 0 1);
   (CALLER, static opCaller SmokeQuickStep 0 1);
   (CALLVALUE, static opCallValue SmokeQuickStep 0 1);
   (CALLDATALOAD, static opCallDataLoad SmokeFastestStep 1 1);
   (CALLDATASIZE, static opCallDataSize SmokeQuickStep 0 1);
   (CALLDATACOPY, dynamic opCallDataCopy SmokeFastestStep smokeCallDataCopy (Some memoryCallDataCopy) 3 0);
   (CODESIZE, static opCodeSize SmokeQuickStep 0 1);
   (CODECOPY, dynamic opCodeCopy SmokeFastestStep smokeCodeCopy (Some memoryCodeCopy) 3 0);
   (SMOKEPRICE, static (opSmokeprice env) SmokeQuickStep 0 1);
   (EXTCODESIZE, static opExtCodeSize ExtcodeSizeSmokeFrontier 1 1);
   (EXTCODECOPY, dynamic opExtCodeCopy ExtcodeCopyBaseFrontier smokeExtCodeCopy (Some memoryExtCodeCopy) 4 0);
   (BLOCKHASH, static (opBlockhash env) SmokeExtStep 1 1);
   (COINBASE, static (opCoinbase env) SmokeQuickStep 0 1);
   (TIMESTAMP, static (opTimestamp env) SmokeQuickStep 0 1);
   (NUMBER, static (opNumber env) SmokeQuickStep 0 1);
   (DIFFICULTY, static (opDifficulty env) SmokeQuickStep 0 1);
   (SMOKELIMIT, static (opSmokeLimit env) SmokeQuickStep 0 1)].

Definition frontier_memory : JumpTable :=
  [(POP, static opPop SmokeQuickStep 1 0);
   (MLOAD, dynamic opMload SmokeFastestStep smokeMLoad (Some memoryMLoad) 1 1);
   (MSTORE, dynamic opMstore SmokeFastestStep smokeMStore (Some memoryMStore) 2 0);
   (MSTORE8, dynamic opMstore8 SmokeFastestStep smokeMStore8 (Some memoryMStore8) 2 0);
   (SLOAD, static opSload SloadSmokeFrontier 1 1);
   (SSTORE, set_writes (dynamic opSstore 0 (smokeSStore env) None 2 0));
   (JUMP, set_jumps (static opJump SmokeMidStep 1 0));
   (JUMPI, set_jumps (static opJumpi SmokeSlowStep 2 0));
   (PC, static opPc SmokeQuickStep 0 1);
   (MSIZE, static opMsize SmokeQuickStep 0 1);
   (SMOKE, static opSmoke SmokeQuickStep 0 1);
   (JUMPDEST, static opJumpdest JumpdestSmoke 0 0)].

Definition frontier_push1 : JumpTable :=
  [(PUSH1, static opPush1 SmokeFastestStep 0 1);
   (PUSH2, static (makePush 2 2) SmokeFastestStep 0 1);
   (PUSH3, static (makePush 3 3) SmokeFastestStep 0 1);
   (PUSH4, static (makePush 4 4) SmokeFastestStep 0 1);
   (PUSH5, static (makePush 5 5) SmokeFastestStep 0 1);
   (PUSH6, static (makePush 6 6) SmokeFastestStep 0 1);
   (PUSH7, static (makePush 7 7) SmokeFastestStep 0 1);
   (PUSH8, static (makePush 8 8) SmokeFastestStep 0 1);
   (PUSH9, static (makePush 9 9) SmokeFastestStep 0 1);
   (PUSH10, static (makePush 10 10) SmokeFastestStep 0 1);
   (PUSH11, static (makePush 11 11) SmokeFastestStep 0 1);
   (PUSH12, static (makePush 12 12) SmokeFastestStep 0 1);
   (PUSH13, static (makePush 13 13) SmokeFastestStep 0 1);
   (PUSH14, static (makePush 14 14) SmokeFastestStep 0 1);
   (PUSH15, static (makePush 15 15) SmokeFastestStep 0 1);
   (PUSH16, static (makePush 16 16) SmokeFastestStep 0 1);
   (PUSH17, static (makePush 17 17) SmokeFastestStep 0 1);
   (PUSH18, static (makePush 18 18) SmokeFastestStep 0 1);
   (PUSH19, static (makePush 19 19) SmokeFastestStep 0 1);
   (PUSH20, static (makePush 20 20) SmokeFastestStep 0 1);
   (PUSH21, static (makePush 21 21) SmokeFastestStep 0 1);
   (PUSH22, static (makePush 22 22) SmokeFastestStep 0 1);
   (PUSH23, static (makePush 23 23) SmokeFastestStep 0 1);
   (PUSH24, static (makePush 24 24) SmokeFastestStep 0 1)].

Definition frontier_push2 : JumpTable :=
  [(PUSH25, static (makePush 25 25) SmokeFastestStep 0 1);
   (PUSH26, static (makePush 26 26) SmokeFastestStep 0 1);
   (PUSH27, static (makePush 27 27) SmokeFastestStep 0 1);
   (PUSH28, static (makePush 28 28) SmokeFastestStep 0 1);
   (PUSH29, static (makePush 29 29) SmokeFastestStep 0 1);
   (PUSH30, static (makePush 30 30) SmokeFastestStep 0 1);
   (PUSH31, static (makePush 31 31) SmokeFastestStep 0 1);
   (PUSH32, static (makePush 32 32) SmokeFastestStep 0 1)].

Definition frontier_dup : JumpTable :=
  [(DUP1, dup_op (makeDup 1) SmokeFastestStep 1);
   (DUP2, dup_op (makeDup 2) SmokeFastestStep 2);
   (DUP3, dup_op (makeDup 3) SmokeFastestStep 3);
   (DUP4, dup_op (makeDup 4) SmokeFastestStep 4);
   (DUP5, dup_op (makeDup 5) SmokeFastestStep 5);
   (DUP6, dup_op (makeDup 6) SmokeFastestStep 6);
   (DUP7, dup_op (makeDup 7) SmokeFastestStep 7);
   (DUP8, dup_op (makeDup 8) SmokeFastestStep 8);
   (DUP9, dup_op (makeDup 9) SmokeFastestStep 9);
   (DUP10, dup_op (makeDup 10) SmokeFastestStep 10);
   (DUP11, dup_op (makeDup 11) SmokeFastestStep 11);
   (DUP12, dup_op (makeDup 12) SmokeFastestStep 12);
   (DUP13, dup_op (makeDup 13) SmokeFastestStep 13);
   (DUP14, dup_op (makeDup 14) SmokeFastestStep 14);
   (DUP15, dup_op (makeDup 15) SmokeFastestStep 15);
   (DUP16, dup_op (makeDup 16) SmokeFastestStep 16)].

Definition frontier_swap : JumpTable :=
  [(SWAP1, swap_op (makeSwap 1) SmokeFastestStep 2);
   (SWAP2, swap_op (makeSwap 2) SmokeFastestStep 3);
   (SWAP3, swap_op (makeSwap 3) SmokeFastestStep 4);
   (SWAP4, swap_op (makeSwap 4) SmokeFastestStep 5);
   (SWAP5, swap_op (makeSwap 5) SmokeFastestStep 6);
   (SWAP6, swap_op (makeSwap 6) SmokeFastestStep 7);
   (SWAP7, swap_op (makeSwap 7) SmokeFastestStep 8);
   (SWAP8, swap_op (makeSwap 8) SmokeFastestStep 9);
   (SWAP9, swap_op (makeSwap 9) SmokeFastestStep 10);
   (SWAP10, swap_op (makeSwap 10) SmokeFastestStep 11);
   (SWAP11, swap_op (makeSwap 11) SmokeFastestStep 12);
   (SWAP12, swap_op (makeSwap 12) SmokeFastestStep 13);
   (SWAP13, swap_op (makeSwap 13) SmokeFastestStep 14);
   (SWAP14, swap_op (makeSwap 14) SmokeFastestStep 15);
   (SWAP15, swap_op (makeSwap 15) SmokeFastestStep 16);
   (SWAP16, swap_op (makeSwap 16) SmokeFastestStep 17)].

Definition frontier_system : JumpTable :=
  [(LOG0, set_writes (dynamic (makeLog env 0) 0 (makeSmokeLog 0) (Some memoryLog) 2 0));
   (LOG1, set_writes (dynamic (makeLog env 1) 0 (makeSmokeLog 1) (Some memoryLog) 3 0));
   (LOG2, set_writes (dynamic (makeLog env 2) 0 (makeSmokeLog 2) (Some memoryLog) 4 0));
   (LOG3, set_writes (dynamic (makeLog env 3) 0 (makeSmokeLog 3) (Some memoryLog) 5 0));
   (LOG4, set_writes (dynamic (makeLog env 4) 0 (makeSmokeLog 4) (Some memoryLog) 6 0));
   (CREATE, set_returns (set_writes (dynamic (opCreate env calls) CreateSmoke smokeCreate (Some memoryCreate) 3 1)));
   (CALL, set_returns (dynamic (opCall calls) CallSmokeFrontier (smokeCall env) (Some memoryCall) 7 1));
   (CALLCODE, set_returns (dynamic (opCallCode calls) CallSmokeFrontier (smokeCallCode env) (Some memoryCall) 7 1));
   (RETURN, set_halts (dynamic opReturn 0 smokeReturn (Some memoryReturn) 2 0));
   (SELFDESTRUCT, set_writes (set_halts (dynamic opSuicide 0 (smokeSelfdestruct env) None 1 0)))].

Definition newFrontierInstructionSet : JumpTable :=
  frontier_arithmetic ++ frontier_environment ++ frontier_memory ++ frontier_push1 ++ frontier_push2
  ++ frontier_dup ++ frontier_swap ++ frontier_system.

Definition newHomesteadInstructionSet : JumpTable :=
  set_op DELEGATECALL
    (set_returns (dynamic (opDelegateCall calls) CallSmokeFrontier (smokeDelegateCall env)
       (Some memoryDelegateCall) 6 1))
    newFrontierInstructionSet.

Definition newTangerineWhistleInstructionSet : JumpTable :=
  update_op DELEGATECALL (set_constantSmoke CallSmokeEIP150)
  (update_op CALLCODE (set_constantSmoke CallSmokeEIP150)
  (update_op CALL (set_constantSmoke CallSmokeEIP150)
  (update_op EXTCODECOPY (set_constantSmoke ExtcodeCopyBaseEIP150)
  (update_op SLOAD (set_constantSmoke SloadSmokeEIP150)
  (update_op EXTCODESIZE (set_constantSmoke ExtcodeSizeSmokeEIP150)
  (update_op BALANCE (set_constantSmoke BalanceSmokeEIP150)
    newHomesteadInstructionSet)))))).

Definition newSpuriousDragonInstructionSet : JumpTable :=
  update_op EXP (set_dynamicSmoke (Some smokeExpEIP158)) newTangerineWhistleInstructionSet.

Definition newByzantiumInstructionSet : JumpTable :=
  set_op REVERT
    (set_returns (set_reverts (dynamic opRevert 0 smokeRevert (Some memoryRevert) 2 0)))
  (set_op RETURNDATACOPY
    (dynamic opReturnDataCopy SmokeFastestStep smokeReturnDataCopy (Some memoryReturnDataCopy) 3 0)
  (set_op RETURNDATASIZE (static opReturnDataSize SmokeQuickStep 0 1)
  (set_op STATICCALL
    (set_returns (dynamic (opStaticCall calls) CallSmokeEIP150 (smokeStaticCall env)
       (Some memoryStaticCall) 6 1))
    newSpuriousDragonInstructionSet))).

Definition newConstantinopleInstructionSet : JumpTable :=
  set_op CREATE2
    (set_returns (set_writes (dynamic (opCreate2 calls) Create2Smoke smokeCreate2 (Some memoryCreate2) 4 1)))
  (set_op EXTCODEHASH (static opExtCodeHash ExtcodeHashSmokeConstantinople 1 1)
  (set_op SAR (static opSAR SmokeFastestStep 2 1)
  (set_op SHR (static opSHR SmokeFastestStep 2 1)
  (set_op SHL (static opSHL SmokeFastestStep 2 1)
    newByzantiumInstructionSet)))).

(** ** eips.go *)

Definition enable1884 (jt : JumpTable) : JumpTable :=
  set_op SELFBALANCE (static opSelfBalance SmokeFastStep 0 1)
  (update_op EXTCODEHASH (set_constantSmoke ExtcodeHashSmokeEIP1884)
  (update_op BALANCE (set_constantSmoke BalanceSmokeEIP1884)
  (update_op SLOAD (set_constantSmoke SloadSmokeEIP1884) jt))).

Definition enable1344 (jt : JumpTable) : JumpTable :=
  set_op CHAINID (static (opChainID env) SmokeQuickStep 0 1) jt.

Definition enable2200 (jt : JumpTable) : JumpTable :=
  update_op SSTORE (set_dynamicSmoke (Some smokeSStoreEIP2200))
  (update_op SLOAD (set_constantSmoke SloadSmokeEIP2200) jt).

Definition enable2315 (jt : JumpTable) : JumpTable :=
  set_op RETURNSUB (set_jumps (static opReturnSub SmokeFastStep 0 0))
  (set_op JUMPSUB (set_jumps (static opJumpSub SmokeSlowStep 1 0))
  (set_op BEGINSUB (static opBeginSub SmokeQuickStep 0 0) jt)).

(** Both costs of an instruction. *)
Definition set_costs (smoke : Z) (d : smokeFunc) (o : operation) : operation :=
  set_dynamicSmoke (Some d) (set_constantSmoke smoke o).

Definition enable2929 (jt : JumpTable) : JumpTable :=
  update_op SELFDESTRUCT (set_costs SelfdestructSmokeEIP150 smokeSelfdestructEIP2929)
  (update_op DELEGATECALL (set_costs WarmStorageReadCostEIP2929 (smokeDelegateCallEIP2929 env))
  (update_op STATICCALL (set_costs WarmStorageReadCostEIP2929 (smokeStaticCallEIP2929 env))
  (update_op CALLCODE (set_costs WarmStorageReadCostEIP2929 (smokeCallCodeEIP2929 env))
  (update_op CALL (set_costs WarmStorageReadCostEIP2929 (smokeCallEIP2929 env))
  (update_op BALANCE (set_costs WarmStorageReadCostEIP2929 smokeEip2929AccountCheck)
  (update_op EXTCODEHASH (set_costs WarmStorageReadCostEIP2929 smokeEip2929AccountCheck)
  (update_op EXTCODESIZE (set_costs WarmStorageReadCostEIP2929 smokeEip2929AccountCheck)
  (update_op EXTCODECOPY (set_costs WarmStorageReadCostEIP2929 smokeExtCodeCopyEIP2929)
  (update_op SLOAD (set_costs 0 smokeSLoadEIP2929)
  (update_op SSTORE (set_dynamicSmoke (Some smokeSStoreEIP2929)) jt)))))))))).

Definition newIstanbulInstructionSet : JumpTable :=
  enable2200 (enable1884 (enable1344 newConstantinopleInstructionSet)).

Definition newYoloV2InstructionSet : JumpTable :=
  enable2929 (enable2315 newIstanbulInstructionSet).

(** The table that [NewEVMInterpreter] selects when the configuration brings
    none of its own and no extra EIPs. *)
Definition select_table (rules : Rules) : JumpTable :=
  if r_IsYoloV2 rules then newYoloV2InstructionSet
  else if r_IsIstanbul rules then newIstanbulInstructionSet
  else if r_IsConstantinople rules then newConstantinopleInstructionSet
  else if r_IsByzantium rules then newByzantiumInstructionSet
  else if r_IsEIP158 rules then newSpuriousDragonInstructionSet
  else if r_IsEIP150 rules then newTangerineWhistleInstructionSet
  else if r_IsHomestead rules then newHomesteadInstructionSet
  else newFrontierInstructionSet.
End tables.
