(* ===== verification/Evm.v ===== *)
(** * The interpreter and the EVM (src/core/vm/interpreter.go, evm.go, src/core/evm.go)

    The main loop, the four kinds of message call and contract creation.  A
    call runs the interpreter on the callee, which may call again: the model
    recurses on a fuel that every loop iteration uses up; EvmSound.v
    shows that one more than the smoke of the call is always enough.  Tracing
    ([Config.Debug]) is left out. *)
From S2P Require Import Prelude RlpEncode Opcodes Params ChainConfig VmBase VmMachine Precompiles VmSmoke VmOps VmTables.
Local Open Scope Z_scope.

Section evm.
Context `{Uint256} {SA : StateAccess} {CR : Crypto} (env : Env).

(** ** One iteration of the main loop *)

(** The end of an iteration: [None] to go on, or what [Run] returns. *)
Definition stop (err : vm_error) : M (option op_result) := mret (Some ([], Some err)).

(** The size of the memory after the instruction, in bytes. *)
Definition needed_memory (o : operation) : M (result vm_error Z) :=
  match memorySize o with
  | None => mret (Ok 0)
  | Some f =>
      st ← get stack;
      '(memSize, overflow) ← lift (f st);
      if overflow : bool then mret (Err ErrSmokeUintOverflow)
      else checked (SafeMul (toWordSize memSize) 32)
  end.

(** Charge the dynamic cost; [false] is an error or not enough smoke. *)
Definition use_dynamic (o : operation) (size : Z) : M bool :=
  match dynamicSmoke o with
  | None => mret true
  | Some f => r ← f size; match r with Err _ => mret false | Ok cost => UseSmoke cost end
  end.

(** Does the instruction violate the read-only mode? *)
Definition write_protected (op : Z) (o : operation) : M bool :=
  ro ← get (readOnly ∘ evm);
  if ro && r_IsByzantium (chainRules env) then
    if writes o then mret true
    else if op =? CALL then v ← back 2; mret (negb (u_Sign v =? 0))
    else mret false
  else mret false.

(** Execute the instruction and decide how to go on. *)
Definition run_op (o : operation) : M (option op_result) :=
  r ← execute o;
  let '(res, err) := r : op_result in
  (if returns o then update_evm (set_returnData res) else mret tt);;
  match err with
  | Some e => stop e
  | None =>
      if reverts o then mret (Some (res, Some ErrExecutionReverted))
      else if halts o then mret (Some (res, None))
      else
        (if negb (jumps o) then modify (λ m, set_pc (u64 (pc m + 1)) m) else mret tt);;
        mret None
  end.

Definition interp_step (calls : CallOps) : M (option op_result) :=
  c ← get contract;
  p ← get pc;
  let op := GetOp p c in
  match assoc op (select_table env calls (chainRules env)) with
  | None => stop (ErrInvalidOpCode op)
  | Some o =>
      st ← get stack;
      if len st <? op_minStack o then stop (ErrStackUnderflow (len st) (op_minStack o))
      else if op_maxStack o <? len st then stop (ErrStackOverflow (len st) (op_maxStack o))
      else
        w ← write_protected op o;
        if w : bool then stop ErrWriteProtection
        else
          b ← UseSmoke (constantSmoke o);
          if negb b then stop ErrOutOfSmoke
          else
            ms ← needed_memory o;
            match ms with
            | Err e => stop e
            | Ok size =>
                b ← use_dynamic o size;
                if negb b then stop ErrOutOfSmoke
                else
                  (if 0 <? size then modify (λ m, set_memory (Resize size (memory m)) m) else mret tt);;
                  run_op o
            end
  end.

(** ** Run *)

Definition Run (loop : Z → M op_result) (c : Contract) (input : bytes) (ro : bool) (e : EVM)
    : outcome (op_result * Contract * EVM) :=
  let e := set_depth (depth e + 1) e in
  let enter := ro && negb (readOnly e) in
  let e := if enter then set_readOnly true e else e in
  let e := set_returnData [] e in
  let leave e :=
    let e := set_depth (depth e - 1) e in if enter then set_readOnly false e else e in
  if len (Code c) =? 0 then Ret (([], None), c, leave e)
  else
    '(r, m) ← loop 0 (MkMachine 0 [] NewMemory [] (set_Input input c) e);
    Ret (r, contract m, leave (evm m)).

(** ** core/evm.go *)

Definition evm_query {A} (f : State → A * State) (e : EVM) : A * EVM :=
  let '(a, s) := f (StateDB e) in (a, set_StateDB s e).
Definition evm_update (f : State → State) (e : EVM) : EVM := set_StateDB (f (StateDB e)) e.

Definition CanTransfer (addr : Address) (amount : Z) (e : EVM) : bool * EVM :=
  let '(b, e) := evm_query (GetBalance addr) e in (amount <=? b, e).

Definition Transfer (sender recipient : Address) (amount : Z) (e : EVM) : EVM :=
  evm_update (AddBalance recipient amount) (evm_update (SubBalance sender amount) e).

(** ** Message calls *)

Section calls.
Context (loop : Z → M op_result).

(** Run a contract and collect its result. *)
Definition run_contract (c : Contract) (input : bytes) (ro : bool) (e : EVM)
    : outcome (call_result * EVM) :=
  '(ret, err, c, e) ← Run loop c input ro e;
  Ret (MkCallResult ret false (Smoke c) err, e).

(** What the calls do with an error: revert, and consume the smoke that is left
    unless the callee asked for the revert. *)
Definition settle (snapshot : Z) (r : call_result) (e : EVM) : outcome (call_result * EVM) :=
  match call_err r with
  | None => Ret (r, e)
  | Some err =>
      s ← or_panic InvalidRevision (RevertToSnapshot snapshot (StateDB e));
      Ret (MkCallResult (ret_data r) (ret_alias r)
             (if bool_decide (err = ErrExecutionReverted) then leftOverSmoke r else 0) (Some err),
           set_StateDB s e)
  end.

(** The checks all calls start with. *)
Definition call_refused (smoke : Z) (e : EVM) : option call_result :=
  if NoRecursion env && (0 <? depth e) then Some (MkCallResult [] false smoke None)
  else if CallCreateDepth <? depth e then Some (MkCallResult [] false smoke (Some ErrDepth))
  else None.

(** The callee of [Call]: a precompiled contract or the code of the account. *)
Definition call_code (c : ContractRef) (addr : Address) (input : bytes) (smoke value : Z)
    (p : option PrecompiledContract) (e : EVM) : outcome (call_result * EVM) :=
  match p with
  | Some p => r ← RunPrecompiledContract p input smoke; Ret (r, e)
  | None =>
      let '(code, e) := evm_query (GetCode addr) e in
      if len code =? 0 then Ret (MkCallResult [] false smoke None, e)
      else
        let '(ct, e) := NewContract c addr value smoke e in
        let '(h, e) := evm_query (GetCodeHash addr) e in
        run_contract (SetCallCode addr h code ct) input false e
  end.

(** [Call] from the snapshot on. *)
Definition call_account (c : ContractRef) (addr : Address) (input : bytes) (smoke value : Z) (e : EVM)
    : outcome (call_result * EVM) :=
  let '(snapshot, e) := evm_query Snapshot e in
  let p := precompile (chainRules env) addr in
  let '(existed, e) := evm_query (Exist addr) e in
  if negb existed && bool_decide (p = None) && r_IsEIP158 (chainRules env) && (Z.sgn value =? 0)
  then Ret (MkCallResult [] false smoke None, e)
  else
    let e := if negb existed then evm_update (CreateAccount addr) e else e in
    let e := Transfer (ref_Address c) addr value e in
    '(r, e) ← call_code c addr input smoke value p e;
    settle snapshot r e.

Definition evm_Call (c : ContractRef) (addr : Address) (input : bytes) (smoke value : Z) (e : EVM)
    : outcome (call_result * EVM) :=
  match call_refused smoke e with
  | Some r => Ret (r, e)
  | None =>
      let '(can, e) := if negb (Z.sgn value =? 0) then CanTransfer (ref_Address c) value e else (true, e) in
      if negb can then Ret (MkCallResult [] false smoke (Some ErrInsufficientBalance), e)
      else call_account c addr input smoke value e
  end.

(** The callee of the other calls: a precompiled contract, or the code at
    [addr] in the contract that [mk] makes. *)
Definition run_code_at (addr : Address) (input : bytes) (smoke : Z) (ro : bool)
    (mk : EVM → outcome (Contract * EVM)) (e : EVM) : outcome (call_result * EVM) :=
  match precompile (chainRules env) addr with
  | Some p => r ← RunPrecompiledContract p input smoke; Ret (r, e)
  | None =>
      '(ct, e) ← mk e;
      let '(h, e) := evm_query (GetCodeHash addr) e in
      let '(code, e) := evm_query (GetCode addr) e in
      run_contract (SetCallCode addr h code ct) input ro e
  end.

Definition evm_CallCode (c : ContractRef) (addr : Address) (input : bytes) (smoke value : Z) (e : EVM)
    : outcome (call_result * EVM) :=
  match call_refused smoke e with
  | Some r => Ret (r, e)
  | None =>
      let '(can, e) := CanTransfer (ref_Address c) value e in
      if negb can then Ret (MkCallResult [] false smoke (Some ErrInsufficientBalance), e)
      else
        let '(snapshot, e) := evm_query Snapshot e in
        '(r, e) ← run_code_at addr input smoke false
                    (λ e, Ret (NewContract c (ref_Address c) value smoke e)) e;
        settle snapshot r e
  end.

Definition evm_DelegateCall (c : ContractRef) (addr : Address) (input : bytes) (smoke : Z) (e : EVM)
    : outcome (call_result * EVM) :=
  match call_refused smoke e with
  | Some r => Ret (r, e)
  | None =>
      let '(snapshot, e) := evm_query Snapshot e in
      '(r, e) ← run_code_at addr input smoke false
                  (λ e, let '(ct, e) := NewContract c (ref_Address c) 0 smoke e in
                        ct ← AsDelegate ct; Ret (ct, e)) e;
      settle snapshot r e
  end.

Definition evm_StaticCall (c : ContractRef) (addr : Address) (input : bytes) (smoke : Z) (e : EVM)
    : outcome (call_result * EVM) :=
  match call_refused smoke e with
  | Some r => Ret (r, e)
  | None =>
      let '(snapshot, e) := evm_query Snapshot e in
      let e := evm_update (AddBalance addr 0) e in
      '(r, e) ← run_code_at addr input smoke true (λ e, Ret (NewContract c addr 0 smoke e)) e;
      settle snapshot r e
  end.

(** ** Creation *)

(** [crypto.CreateAddress] and [CreateAddress2]. *)
Definition BytesToAddress (b : bytes) : Address :=
  let b := if 20 <? len b then drop (length b - 20) b else b in
  replicate (20 - length b) 0 ++ b.

Definition CreateAddress (b : Address) (nonce : Z) : Address :=
  let data := match EncodeToBytes (VSlice false [VInterface (Some (VByteArray false b));
                                                 VInterface (Some (VUint nonce))]) with
              | Ok d => d
              | Err _ => []
              end in
  BytesToAddress (drop 12 (Keccak256 data)).

Definition CreateAddress2 (b : Address) (salt : bytes) (inithash : bytes) : Address :=
  BytesToAddress (drop 12 (Keccak256 ([0xff] ++ b ++ salt ++ inithash))).

Definition emptyCodeHash : Hash := Keccak256 [].

(** The constructor has returned [ret]: pay for the code and store it. *)
Definition store_code (address : Address) (ret : bytes) (exceeded : bool) (err : option vm_error)
    (ct : Contract) (e : EVM) : Contract * option vm_error * EVM :=
  if bool_decide (err = None) && negb exceeded then
    let '(paid, ct) := contract_UseSmoke (u64 (len ret * CreateDataSmoke)) ct in
    if paid : bool then (ct, err, evm_update (SetCode address ret) e)
    else (ct, Some ErrCodeStoreOutOfSmoke, e)
  else (ct, err, e).

(** The end of [create]: the code is stored, or the creation is undone. *)
Definition create_settle (snapshot : Z) (address : Address) (ret : bytes) (err : option vm_error)
    (ct : Contract) (e : EVM) : outcome (create_result * EVM) :=
  let maxCodeSizeExceeded := r_IsEIP158 (chainRules env) && (MaxCodeSize <? len ret) in
  let '(ct, err, e) := store_code address ret maxCodeSizeExceeded err ct e in
  '(ct, e) ←
    (if maxCodeSizeExceeded
        || (bool_decide (err ≠ None)
            && (r_IsHomestead (chainRules env) || bool_decide (err ≠ Some ErrCodeStoreOutOfSmoke)))
     then
       s ← or_panic InvalidRevision (RevertToSnapshot snapshot (StateDB e));
       let ct := if bool_decide (err ≠ Some ErrExecutionReverted)
                 then (contract_UseSmoke (Smoke ct) ct).2 else ct in
       Ret (ct, set_StateDB s e)
     else Ret (ct, e));
  let err := if maxCodeSizeExceeded && bool_decide (err = None)
             then Some ErrMaxCodeSizeExceeded else err in
  Ret (MkCreateResult ret address (Smoke ct) err, e).

(** [create] from the snapshot on. *)
Definition create_account (c : ContractRef) (code : bytes) (codehash : Hash) (smoke value : Z)
    (address : Address) (e : EVM) : outcome (create_result * EVM) :=
  let '(snapshot, e) := evm_query Snapshot e in
  let e := evm_update (CreateAccount address) e in
  let e := if r_IsEIP158 (chainRules env) then evm_update (SetNonce address 1) e else e in
  let e := Transfer (ref_Address c) address value e in
  let '(ct, e) := NewContract c address value smoke e in
  let ct := SetCallCode address codehash code ct in
  if NoRecursion env && (0 <? depth e) then Ret (MkCreateResult [] address smoke None, e)
  else
    '(ret, err, ct, e) ← Run loop ct [] false e;
    create_settle snapshot address ret err ct e.

(** [codehash] is the zero hash unless [Create2] has computed it. *)
Definition evm_create (c : ContractRef) (code : bytes) (codehash : Hash) (smoke value : Z)
    (address : Address) (e : EVM) : outcome (create_result * EVM) :=
  if CallCreateDepth <? depth e then Ret (MkCreateResult [] zero_address smoke (Some ErrDepth), e)
  else
    let '(can, e) := CanTransfer (ref_Address c) value e in
    if negb can then Ret (MkCreateResult [] zero_address smoke (Some ErrInsufficientBalance), e)
    else
      let '(nonce, e) := evm_query (GetNonce (ref_Address c)) e in
      let e := evm_update (SetNonce (ref_Address c) (u64 (nonce + 1))) e in
      let e := if r_IsYoloV2 (chainRules env) then evm_update (AddAddressToAccessList address) e else e in
      let '(contractHash, e) := evm_query (GetCodeHash address) e in
      let '(n, e) := evm_query (GetNonce address) e in
      if negb (n =? 0) || (negb (bool_decide (contractHash = zero_hash))
                           && negb (bool_decide (contractHash = emptyCodeHash)))
      then Ret (MkCreateResult [] zero_address 0 (Some ErrContractAddressCollision), e)
      else create_account c code codehash smoke value address e.

Definition evm_Create (c : ContractRef) (code : bytes) (smoke value : Z) (e : EVM)
    : outcome (create_result * EVM) :=
  let '(nonce, e) := evm_query (GetNonce (ref_Address c)) e in
  evm_create c code zero_hash smoke value (CreateAddress (ref_Address c) nonce) e.

Definition evm_Create2 (c : ContractRef) (code : bytes) (smoke endowment : Z) (salt : Word) (e : EVM)
    : outcome (create_result * EVM) :=
  let hash := Keccak256 code in
  evm_create c code hash smoke endowment (CreateAddress2 (ref_Address c) (u_Bytes32 salt) hash) e.

Definition evm_calls : CallOps :=
  MkCallOps evm_Call evm_CallCode evm_DelegateCall evm_StaticCall evm_Create evm_Create2.
End calls.

(** ** The main loop *)

Definition load_abort : M bool :=
  e ← get evm;
  update_evm (set_abort_loads (S (abort_loads e)));;
  mret (aborted env (abort_loads e)).

Fixpoint run_loop (fuel : nat) (steps : Z) : M op_result :=
  match fuel with
  | O => λ _, OutOfFuel
  | S fuel =>
      let steps := steps + 1 in
      a ← (if steps mod 1000 =? 0 then load_abort else mret false);
      if a : bool then ok
      else
        r ← interp_step (evm_calls (run_loop fuel));
        match r with
        | Some r => mret r
        | None => run_loop fuel steps
        end
  end.

(** The methods of the EVM with the recursion bounded by [fuel]. *)
Definition Call (fuel : nat) := evm_Call (run_loop fuel).
Definition CallCode (fuel : nat) := evm_CallCode (run_loop fuel).
Definition DelegateCall (fuel : nat) := evm_DelegateCall (run_loop fuel).
Definition StaticCall (fuel : nat) := evm_StaticCall (run_loop fuel).
Definition Create (fuel : nat) := evm_Create (run_loop fuel).
Definition Create2 (fuel : nat) := evm_Create2 (run_loop fuel).

(** [NewEVM], for a chain without EWASM fork. *)
Definition NewEVM (s : State) : EVM := MkEVM s 0 0 false [] ∅ 0.
End evm.
