(* ===== verification/StateTransition.v ===== *)
(** * Applying a transaction (src/core/state_transition.go, smokepool.go)

    Buying smoke, intrinsic smoke, the top-level call or creation, the refund
    and the fee.  [st.state] and [st.evm.StateDB] are the same object in Go, so
    the state of the model is the one in [st_evm]; price, value and data are
    read from the message.  [ChainConfig().IsHomestead(BlockNumber)] and
    [IsIstanbul] are the rules that [NewEVM] has computed for that block. *)
From S2P Require Import Prelude Opcodes Params ChainConfig VmBase VmMachine Precompiles VmSmoke VmOps VmTables Evm.
Local Open Scope Z_scope.

(** ** The smoke of a block *)

Inductive core_error :=
| ErrNonceTooLow
| ErrNonceTooHigh
| ErrSmokeLimitReached
| ErrInsufficientFundsForTransfer
| ErrInsufficientFunds
| ErrCoreSmokeUintOverflow
| ErrIntrinsicSmoke.

Definition AddSmoke (amount gp : Z) : outcome Z :=
  if u64 (MaxUint64 - amount) <? gp then Panic SmokePoolOverflow else Ret (u64 (gp + amount)).

Definition SubSmoke (amount gp : Z) : result core_error Z :=
  if gp <? amount then Err ErrSmokeLimitReached else Ok (gp - amount).

(** ** Messages *)

Record Message := MkMessage {
  From : Address;
  To : option Address;
  msg_SmokePrice : Z;
  msg_Smoke : Z;
  Value : Z;
  msg_Nonce : Z;
  CheckNonce : bool;
  Data : bytes
}.

Record ExecutionResult := MkExecutionResult {
  UsedSmoke : Z;
  res_Err : option vm_error;
  ReturnData : bytes
}.

Definition Failed (r : ExecutionResult) : bool := bool_decide (res_Err r ≠ None).
Definition Return (r : ExecutionResult) : bytes :=
  match res_Err r with Some _ => [] | None => ReturnData r end.
Definition Revert (r : ExecutionResult) : bytes :=
  if bool_decide (res_Err r ≠ Some ErrExecutionReverted) then [] else ReturnData r.

(** ** Intrinsic smoke *)

Definition nonzero_bytes (data : bytes) : Z := len (filter (λ b, b ≠ 0) data).

Definition IntrinsicSmoke (data : bytes) (contractCreation isHomestead isEIP2028 : bool) : result core_error Z :=
  let smoke := if contractCreation && isHomestead then TxSmokeContractCreation else TxSmoke in
  if 0 <? len data then
    let nz := nonzero_bytes data in
    let nonZeroSmoke := if isEIP2028 then TxDataNonZeroSmokeEIP2028 else TxDataNonZeroSmokeFrontier in
    if (MaxUint64 - smoke) / nonZeroSmoke <? nz then Err ErrCoreSmokeUintOverflow
    else
      let smoke := u64 (smoke + u64 (nz * nonZeroSmoke)) in
      let z := u64 (len data - nz) in
      if (MaxUint64 - smoke) / TxDataZeroSmoke <? z then Err ErrCoreSmokeUintOverflow
      else Ok (u64 (smoke + u64 (z * TxDataZeroSmoke)))
  else Ok smoke.

(** ** The transition *)

Section transition.
Context `{Uint256} {SA : StateAccess} {CR : Crypto} (env : Env) (fuel : nat).

Record StateTransition := MkStateTransition {
  st_gp : Z;
  st_msg : Message;
  st_smoke : Z;
  st_initialSmoke : Z;
  st_evm : EVM
}.

Definition NewStateTransition (e : EVM) (msg : Message) (gp : Z) : StateTransition :=
  MkStateTransition gp msg 0 0 e.

Definition set_st_gp v (st : StateTransition) : StateTransition :=
  MkStateTransition v (st_msg st) (st_smoke st) (st_initialSmoke st) (st_evm st).
Definition set_st_smoke v (st : StateTransition) : StateTransition :=
  MkStateTransition (st_gp st) (st_msg st) v (st_initialSmoke st) (st_evm st).
Definition set_st_initialSmoke v (st : StateTransition) : StateTransition :=
  MkStateTransition (st_gp st) (st_msg st) (st_smoke st) v (st_evm st).
Definition set_st_evm v (st : StateTransition) : StateTransition :=
  MkStateTransition (st_gp st) (st_msg st) (st_smoke st) (st_initialSmoke st) v.
Definition st_update (f : State → State) (st : StateTransition) : StateTransition :=
  set_st_evm (evm_update f (st_evm st)) st.
Definition st_query {A} (f : State → A * State) (st : StateTransition) : A * StateTransition :=
  let '(a, e) := evm_query f (st_evm st) in (a, set_st_evm e st).

Definition to (st : StateTransition) : Address := default zero_address (To (st_msg st)).

Definition smokeUsed (st : StateTransition) : Z := u64 (st_initialSmoke st - st_smoke st).

Definition buySmoke (st : StateTransition) : option core_error * StateTransition :=
  let msg := st_msg st in
  let mgval := msg_Smoke msg * msg_SmokePrice msg in
  let '(have, st) := st_query (GetBalance (From msg)) st in
  if have <? mgval then (Some ErrInsufficientFunds, st)
  else
    match SubSmoke (msg_Smoke msg) (st_gp st) with
    | Err e => (Some e, st)
    | Ok gp =>
        let st := set_st_gp gp st in
        let st := set_st_smoke (u64 (st_smoke st + msg_Smoke msg)) st in
        let st := set_st_initialSmoke (msg_Smoke msg) st in
        (None, st_update (SubBalance (From msg) mgval) st)
    end.

Definition preCheck (st : StateTransition) : option core_error * StateTransition :=
  let msg := st_msg st in
  if CheckNonce msg then
    let '(stNonce, st) := st_query (GetNonce (From msg)) st in
    if stNonce <? msg_Nonce msg then (Some ErrNonceTooHigh, st)
    else if msg_Nonce msg <? stNonce then (Some ErrNonceTooLow, st)
    else buySmoke st
  else buySmoke st.

Definition refundSmoke (st : StateTransition) : outcome StateTransition :=
  let refund := smokeUsed st / 2 in
  let refund := if GetRefund (StateDB (st_evm st)) <? refund then GetRefund (StateDB (st_evm st)) else refund in
  let st := set_st_smoke (u64 (st_smoke st + refund)) st in
  let remaining := st_smoke st * msg_SmokePrice (st_msg st) in
  let st := st_update (AddBalance (From (st_msg st)) remaining) st in
  gp ← AddSmoke (st_smoke st) (st_gp st);
  Ret (set_st_gp gp st).

(** The top-level call or creation: return data, error, and the transition with
    the smoke that is left. *)
Definition execute_message (st : StateTransition) : outcome (bytes * option vm_error * StateTransition) :=
  let msg := st_msg st in
  let sender := AccountRef (From msg) in
  match To msg with
  | None =>
      '(r, e) ← Create env fuel sender (Data msg) (st_smoke st) (Value msg) (st_evm st);
      Ret (cr_ret r, cr_err r, set_st_smoke (cr_smoke r) (set_st_evm e st))
  | Some _ =>
      let '(nonce, st) := st_query (GetNonce (From msg)) st in
      let st := st_update (SetNonce (From msg) (u64 (nonce + 1))) st in
      '(r, e) ← Call env fuel sender (to st) (Data msg) (st_smoke st) (Value msg) (st_evm st);
      Ret (ret_data r, call_err r, set_st_smoke (leftOverSmoke r) (set_st_evm e st))
  end.

Definition TransitionDb (st : StateTransition) : outcome (result core_error ExecutionResult * StateTransition) :=
  match preCheck st with
  | (Some e, st) => Ret (Err e, st)
  | (None, st) =>
      let msg := st_msg st in
      let contractCreation := bool_decide (To msg = None) in
      match IntrinsicSmoke (Data msg) contractCreation (r_IsHomestead (chainRules env)) (r_IsIstanbul (chainRules env)) with
      | Err e => Ret (Err e, st)
      | Ok smoke =>
          if st_smoke st <? smoke then Ret (Err ErrIntrinsicSmoke, st)
          else
            let st := set_st_smoke (st_smoke st - smoke) st in
            let '(can, e) := if 0 <? Z.sgn (Value msg) then CanTransfer (From msg) (Value msg) (st_evm st)
                             else (true, st_evm st) in
            let st := set_st_evm e st in
            if negb can then Ret (Err ErrInsufficientFundsForTransfer, st)
            else
              '(ret, vmerr, st) ← execute_message st;
              st ← refundSmoke st;
              let st := st_update (AddBalance (Coinbase env) (smokeUsed st * msg_SmokePrice msg)) st in
              Ret (Ok (MkExecutionResult (smokeUsed st) vmerr ret), st)
      end
  end.

Definition ApplyMessage (e : EVM) (msg : Message) (gp : Z) : outcome (result core_error ExecutionResult * StateTransition) :=
  TransitionDb (NewStateTransition e msg gp).
End transition.
