(* ===== verification/Transaction.v ===== *)
(** * Transactions and signers (src/core/types/transaction.go, transaction_signing.go)

    The three generations of signers, the recovery of a sender from a
    signature and its cache, and the message that a transaction stands for.
    Curve arithmetic is the class [Crypto] and, for making signatures, the
    class [Signing].  The theorems show that a signed transaction is attributed
    to the owner of the key, on no other chain, and that the cache never
    changes an answer. *)
From S2P Require Import Prelude RlpEncode ChainConfig VmBase VmMachine Precompiles VmSmoke VmOps VmTables Evm StateTransition.
Local Open Scope Z_scope.

(** ** Data *)

Record txdata := MkTxdata {
  AccountNonce : Z;
  Price : Z;
  tx_SmokeLimit : Z;
  Recipient : option Address;
  Amount : Z;
  Payload : bytes;
  V : Z;
  R : Z;
  S_ : Z
}.

Inductive Signer :=
| FrontierSigner
| HomesteadSigner
| EIP155Signer (chainId : Z).

#[export] Instance Signer_eq_dec : EqDecision Signer.
Proof. solve_decision. Defined.

(** [tx_from] is the cache [sigCache]. *)
Record Transaction := MkTransaction {
  tx_data : txdata;
  tx_from : option (Signer * Address)
}.

Inductive sign_error :=
| ErrInvalidChainId
| ErrInvalidSig
| ErrEcrecover
| ErrInvalidPublicKey.

Definition NewEIP155Signer (chainId : option Z) : Signer := EIP155Signer (default 0 chainId).

Definition MakeSigner (config : ChainConfig) (blockNumber : option Z) : Signer :=
  if IsEIP155 config blockNumber then NewEIP155Signer (ChainID config)
  else if IsHomestead config blockNumber then HomesteadSigner
  else FrontierSigner.

Definition Equal (s s2 : Signer) : bool :=
  match s, s2 with
  | EIP155Signer c, EIP155Signer c2 => c2 =? c
  | HomesteadSigner, HomesteadSigner | FrontierSigner, FrontierSigner => true
  | _, _ => false
  end.

Definition isProtectedV (V : Z) : bool :=
  if big_BitLen V <=? 8 then let v := big_Uint64 V in negb (v =? 27) && negb (v =? 28) else true.

Definition deriveChainId (v : Z) : Z :=
  if big_BitLen v <=? 64 then
    let v := big_Uint64 v in
    if (v =? 27) || (v =? 28) then 0 else u64 (v - 35) / 2
  else (v - 35) / 2.

Definition Protected (tx : Transaction) : bool := isProtectedV (V (tx_data tx)).
Definition tx_ChainId (tx : Transaction) : Z := deriveChainId (V (tx_data tx)).

Section crypto.
Context {CR : Crypto}.

(** ** Hashes *)

(** An encoding error writes nothing. *)
Definition rlpHash (x : RlpEncode.value) : Hash :=
  Keccak256 (match Encode x with Ok chunks => concat chunks | Err _ => [] end).

Definition signed_fields (d : txdata) : list RlpEncode.value :=
  [VUint (AccountNonce d); VBigIntPtr (Some (Price d)); VUint (tx_SmokeLimit d);
   VPtr KString (VByteArray false <$> Recipient d); VBigIntPtr (Some (Amount d)); VBytes (Payload d)].

Definition interface_list (vs : list RlpEncode.value) : RlpEncode.value := VSlice false (map (λ v, VInterface (Some v)) vs).

Definition Signer_Hash (s : Signer) (d : txdata) : Hash :=
  match s with
  | EIP155Signer chainId =>
      rlpHash (interface_list (signed_fields d ++ [VBigIntPtr (Some chainId); VUint 0; VUint 0]))
  | HomesteadSigner | FrontierSigner => rlpHash (interface_list (signed_fields d))
  end.

(** The hash of the transaction itself. *)
Definition tx_Hash (tx : Transaction) : Hash :=
  let d := tx_data tx in
  rlpHash (VPtr KList (Some (VStruct (signed_fields d
    ++ [VBigIntPtr (Some (V d)); VBigIntPtr (Some (R d)); VBigIntPtr (Some (S_ d))])))).

(** ** Senders *)

Definition recoverPlain (sighash : Hash) (R S Vb : Z) (homestead : bool) : result sign_error Address :=
  if 8 <? big_BitLen Vb then Err ErrInvalidSig
  else
    let V := u8 (u64 (big_Uint64 Vb - 27)) in
    if negb (ValidateSignatureValues V R S homestead) then Err ErrInvalidSig
    else
      let r := be_bytes R in
      let s := be_bytes S in
      let sig := (replicate (32 - length r) 0 ++ r) ++ (replicate (32 - length s) 0 ++ s) ++ [V] in
      match Ecrecover sighash sig with
      | None => Err ErrEcrecover
      | Some pub =>
          if (len pub =? 0) || negb (at_ pub 0 =? 4) then Err ErrInvalidPublicKey
          else Ok (drop 12 (Keccak256 (drop 1 pub)))
      end.

Definition Signer_Sender (s : Signer) (d : txdata) : result sign_error Address :=
  match s with
  | FrontierSigner => recoverPlain (Signer_Hash FrontierSigner d) (R d) (S_ d) (V d) false
  | HomesteadSigner => recoverPlain (Signer_Hash HomesteadSigner d) (R d) (S_ d) (V d) true
  | EIP155Signer chainId =>
      if negb (isProtectedV (V d)) then recoverPlain (Signer_Hash HomesteadSigner d) (R d) (S_ d) (V d) true
      else if negb (deriveChainId (V d) =? chainId) then Err ErrInvalidChainId
      else recoverPlain (Signer_Hash s d) (R d) (S_ d) (V d - chainId * 2 - 8) true
  end.

(** With the cache in the transaction. *)
Definition Sender (signer : Signer) (tx : Transaction) : result sign_error Address * Transaction :=
  let miss :=
    match Signer_Sender signer (tx_data tx) with
    | Err e => (Err e, tx)
    | Ok addr => (Ok addr, MkTransaction (tx_data tx) (Some (signer, addr)))
    end in
  match tx_from tx with
  | Some (s, from) => if Equal s signer then (Ok from, tx) else miss
  | None => miss
  end.

Definition AsMessage (s : Signer) (tx : Transaction) : result sign_error Message * Transaction :=
  let '(from, tx) := Sender s tx in
  let d := tx_data tx in
  (from ≫= λ from, Ok (MkMessage from (Recipient d) (Price d) (tx_SmokeLimit d) (Amount d) (AccountNonce d) true (Payload d)),
   tx).

(** ** Signing *)

(** [None] is the panic on a signature of the wrong size. *)
Definition SignatureValues (s : Signer) (sig : bytes) : option (Z * Z * Z) :=
  if negb (len sig =? 65) then None
  else
    let r := SetBytes (slice sig 0 32) in
    let s_ := SetBytes (slice sig 32 64) in
    let v := SetBytes [u8 (at_ sig 64 + 27)] in
    match s with
    | EIP155Signer chainId =>
        Some (r, s_, if negb (chainId =? 0) then u8 (at_ sig 64 + 35) + chainId * 2 else v)
    | _ => Some (r, s_, v)
    end.

Definition WithSignature (signer : Signer) (sig : bytes) (tx : Transaction) : option Transaction :=
  '(r, s, v) ← SignatureValues signer sig;
  let d := tx_data tx in
  Some (MkTransaction (MkTxdata (AccountNonce d) (Price d) (tx_SmokeLimit d) (Recipient d) (Amount d) (Payload d) v r s) None).
End crypto.

(** [crypto.Sign] and the public key of a private key, without the prefix 4. *)
Class Signing := {
  PrivateKey : Type;
  Sign : Hash → PrivateKey → option bytes;
  PublicKey : PrivateKey → bytes
}.

(** The documented behaviour of [crypto.Sign]: 65 bytes [R || S || V] with [V]
    0 or 1 and [S] in the lower half, from which [Ecrecover] recovers the
    public key. *)
Class SigningLaws `{Crypto, Signing} := {
  law_sign h k sig : Sign h k = Some sig →
    bytes_ok sig ∧ length sig = 65%nat ∧ 0 ≤ at_ sig 64 ≤ 1
    ∧ 1 ≤ be_decode (slice sig 0 32) < secp256k1N
    ∧ 1 ≤ be_decode (slice sig 32 64) ≤ secp256k1halfN
    ∧ Ecrecover h sig = Some (4 :: PublicKey k)
}.

Section signing.
Context `{Crypto, Signing}.

(** [None] is an error of [Sign], or the panic of [SignatureValues]. *)
Definition SignTx (tx : Transaction) (s : Signer) (prv : PrivateKey) : option Transaction :=
  sig ← Sign (Signer_Hash s (tx_data tx)) prv;
  WithSignature s sig tx.

Definition PubkeyToAddress (pub : bytes) : Address := drop 12 (Keccak256 pub).
End signing.

(** ** Lemmas *)

Lemma be_decode_zeros k b : be_decode (replicate k 0 ++ b) = be_decode b.
Proof. induction k as [|k IH]; [done|]. cbn [replicate app]. rewrite be_decode_cons. lia. Qed.

(** Left padding restores a big-endian number of fixed length. *)
Lemma pad_be_bytes b :
  bytes_ok b → replicate (length b - length (be_bytes (be_decode b))) 0 ++ be_bytes (be_decode b) = b.
Proof.
  intros Hb. pose proof (be_decode_bound b Hb) as Hd. set (x := be_decode b) in *.
  assert (length (be_bytes x) ≤ length b)%nat as Hl.
  { unfold be_bytes. rewrite length_be_fixed. destruct (Z.eq_dec x 0) as [->|Hx]; [cbn; lia|].
    pose proof (nbytes_spec x ltac:(lia)) as [Hn _]. destruct (le_lt_dec (nbytes x) (length b)) as [|Hlt]; [done|].
    assert (256 ^ len b ≤ 256 ^ (Z.of_nat (nbytes x) - 1)) by (apply Z.pow_le_mono_r; lia). lia. }
  set (l := replicate _ 0 ++ be_bytes x). assert (length l = length b) as Ell.
  { unfold l. rewrite length_app, length_replicate. lia. }
  assert (bytes_ok l) as Hl'.
  { apply bytes_ok_app. split; [|apply be_bytes_ok]. apply Forall_replicate. unfold is_byte. lia. }
  rewrite <- (be_fixed_decode l Hl'), Ell. unfold l. rewrite be_decode_zeros, be_decode_bytes by lia.
  by apply be_fixed_decode.
Qed.

Lemma Equal_eq s s2 : Equal s s2 = true ↔ s = s2.
Proof. destruct s, s2; cbn; rewrite ?Z.eqb_eq; intuition congruence. Qed.

(** The cache holds the sender that its signer derives. *)
Definition cache_ok `{Crypto} (tx : Transaction) : Prop :=
  match tx_from tx with Some (s, a) => Signer_Sender s (tx_data tx) = Ok a | None => True end.

Lemma Sender_uncached `{Crypto} s tx :
  cache_ok tx → (Sender s tx).1 = Signer_Sender s (tx_data tx) ∧ tx_data (Sender s tx).2 = tx_data tx ∧ cache_ok (Sender s tx).2.
Proof.
  unfold cache_ok, Sender. intros Hc.
  assert (∀ x : result sign_error Address * Transaction,
    x = match Signer_Sender s (tx_data tx) with Err e => (Err e, tx) | Ok a => (Ok a, MkTransaction (tx_data tx) (Some (s, a))) end →
    x.1 = Signer_Sender s (tx_data tx) ∧ tx_data x.2 = tx_data tx ∧ cache_ok x.2) as Hmiss.
  { intros x ->. unfold cache_ok. by destruct (Signer_Sender s (tx_data tx)) eqn:E. }
  destruct (tx_from tx) as [[s' a]|] eqn:Ef; [|by apply Hmiss].
  destruct (Equal s' s) eqn:E; [|by apply Hmiss]. apply Equal_eq in E as ->. cbn. by rewrite Ef.
Qed.

Lemma BitLen_le x n : 0 ≤ n → 0 ≤ x → (big_BitLen x <=? n) = (x <? 2 ^ n).
Proof.
  intros Hn Hx. unfold big_BitLen. destruct (Z.eqb_spec x 0) as [->|Hne].
  { rewrite (proj2 (Z.ltb_lt 0 (2 ^ n))) by (apply Z.pow_pos_nonneg; lia). by apply Z.leb_le. }
  rewrite Z.abs_eq by done. pose proof (Z.log2_lt_pow2 x n ltac:(lia)) as Hl.
  destruct (Z.ltb_spec x (2 ^ n)) as [H1|H1]; [apply Z.leb_le; apply Hl in H1; lia|].
  apply Z.leb_gt. destruct (Z_lt_le_dec (Z.log2 x) n) as [H2|H2]; [apply Hl in H2; lia|lia].
Qed.

Lemma u64_nonneg x : 0 ≤ x < 2 ^ 64 → big_Uint64 x = x.
Proof. intros Hx. unfold big_Uint64. rewrite Z.abs_eq by lia. by apply u64_small. Qed.

(** The two values of [V] for the chain [c]. *)
Lemma protected_V c v : 0 < c → 0 ≤ v ≤ 1 → isProtectedV (v + 35 + c * 2) = true.
Proof.
  intros Hc Hv. unfold isProtectedV. rewrite BitLen_le by lia. destruct (Z.ltb_spec (v + 35 + c * 2) (2 ^ 8)); [|done].
  cbv zeta. rewrite u64_nonneg by lia. by zcmp.
Qed.
Lemma derive_V c v : 0 < c → 0 ≤ v ≤ 1 → deriveChainId (v + 35 + c * 2) = c.
Proof.
  intros Hc Hv. unfold deriveChainId. rewrite BitLen_le by lia.
  assert ((v + 35 + c * 2 - 35) / 2 = c) as Ed by (symmetry; apply (Z.div_unique_pos _ 2 _ v); lia).
  destruct (Z.ltb_spec (v + 35 + c * 2) (2 ^ 64)); [|exact Ed].
  cbv zeta. rewrite u64_nonneg by lia. zcmp. cbn [orb]. by rewrite u64_small by (unfold is_u64; lia).
Qed.

(** Recovering what has been signed. *)
Lemma recover_signed `{Crypto, Signing, !SigningLaws} h k sig homestead :
  Sign h k = Some sig →
  recoverPlain h (SetBytes (slice sig 0 32)) (SetBytes (slice sig 32 64)) (at_ sig 64 + 27) homestead
  = Ok (PubkeyToAddress (PublicKey k)).
Proof.
  intros Hs. destruct (law_sign _ _ _ Hs) as (Hok & Hl & Hv & Hr & Hss & Hrec). unfold slice in *.
  change (Z.to_nat (32 - 0)) with 32%nat in *. change (Z.to_nat (64 - 32)) with 32%nat in *.
  change (Z.to_nat 0) with 0%nat in *. change (Z.to_nat 32) with 32%nat in *. rewrite drop_0 in *.
  assert (∀ b, bytes_ok b → SetBytes b = be_decode b) as Hset.
  { intros b Hb. unfold SetBytes. f_equal. rewrite <- (list_fmap_id b) at 2. apply list_fmap_ext.
    intros i x Hx. apply u8_small. exact (Forall_lookup_1 _ _ _ _ Hb Hx). }
  assert (bytes_ok (take 32 sig) ∧ bytes_ok (take 32 (drop 32 sig))) as [Hb1 Hb2].
  { split; [by apply bytes_ok_take|by apply bytes_ok_take, bytes_ok_drop]. }
  rewrite !Hset by done. pose proof (pad_be_bytes _ Hb1) as P1. pose proof (pad_be_bytes _ Hb2) as P2.
  replace (length (take 32 sig)) with 32%nat in P1 by (rewrite length_take; lia).
  replace (length (take 32 (drop 32 sig))) with 32%nat in P2 by (rewrite length_take, length_drop; lia).
  unfold recoverPlain. rewrite Z.ltb_antisym, BitLen_le by lia. zcmp. cbn [negb]. cbv zeta. rewrite P1, P2.
  rewrite u64_nonneg, (u64_small (at_ sig 64 + 27 - 27)), u8_small by (unfold is_u64, is_byte; lia).
  assert (ValidateSignatureValues (at_ sig 64 + 27 - 27) (be_decode (take 32 sig)) (be_decode (take 32 (drop 32 sig))) homestead = true) as ->.
  { unfold ValidateSignatureValues. assert (secp256k1halfN < secp256k1N) by (by vm_compute).
    zcmp. cbn [orb]. rewrite andb_false_r. zcmp. cbn [andb]. destruct (Z.eqb_spec (at_ sig 64 + 27 - 27) 0); [done|]. by zcmp. }
  assert (take 32 sig ++ take 32 (drop 32 sig) ++ [at_ sig 64 + 27 - 27] = sig) as ->; [|by rewrite Hrec].
  rewrite <- (take_drop 32 sig) at 4. f_equal. rewrite <- (take_drop 32 (drop 32 sig)) at 2. f_equal.
  rewrite drop_drop. destruct (drop (32 + 32) sig) as [|x [|]] eqn:Ed.
  1,3: apply (f_equal length) in Ed; rewrite length_drop, Hl in Ed; done.
  f_equal. assert (sig !! 64%nat = Some x) as Ex by exact (eq_trans (eq_sym (lookup_drop sig 64 0)) (f_equal (lookup 0%nat) Ed)).
  rewrite (at_lookup _ _ _ Ex). lia.
Qed.

Lemma SignTx_fields `{Crypto, Signing, !SigningLaws} tx s prv tx' :
  SignTx tx s prv = Some tx' →
  ∃ sig, Sign (Signer_Hash s (tx_data tx)) prv = Some sig ∧ 0 ≤ at_ sig 64 ≤ 1
    ∧ (∀ s', Signer_Hash s' (tx_data tx') = Signer_Hash s' (tx_data tx)) ∧ cache_ok tx'
    ∧ R (tx_data tx') = SetBytes (slice sig 0 32) ∧ S_ (tx_data tx') = SetBytes (slice sig 32 64)
    ∧ V (tx_data tx') = match s with
        | EIP155Signer c => if c =? 0 then at_ sig 64 + 27 else at_ sig 64 + 35 + c * 2
        | _ => at_ sig 64 + 27
        end.
Proof.
  unfold SignTx. destruct (Sign _ prv) as [sig|] eqn:Es; [|done]. cbn. intros Hw. exists sig. split; [done|].
  destruct (law_sign _ _ _ Es) as (_ & Hl & Hv & _). unfold WithSignature, SignatureValues in Hw.
  assert ((len sig =? 65) = true) as E65 by (apply Z.eqb_eq; lia). rewrite E65 in Hw. cbn [negb] in Hw.
  assert (SetBytes [u8 (at_ sig 64 + 27)] = at_ sig 64 + 27) as Ev.
  { change (0 * 256 + u8 (u8 (at_ sig 64 + 27)) = at_ sig 64 + 27). rewrite !u8_small by (rewrite ?u8_small; unfold is_byte; lia). lia. }
  assert (u8 (at_ sig 64 + 35) = at_ sig 64 + 35) as E35 by (apply u8_small; unfold is_byte; lia).
  split; [done|]. rewrite Ev, E35 in Hw. destruct s as [| |c]; cbn in Hw; injection Hw as <-.
  1,2: by repeat split; destruct s'.
  split; [by destruct s'|]. split; [done|]. split; [done|]. split; [done|]. by destruct (c =? 0).
Qed.

(** A protected transaction is an invalid signature to the older signers. *)
Lemma old_signers_reject `{Crypto} h r s c v homestead :
  0 < c → 0 ≤ v ≤ 1 → recoverPlain h r s (v + 35 + c * 2) homestead = Err ErrInvalidSig.
Proof.
  intros Hc Hv. unfold recoverPlain. rewrite Z.ltb_antisym, BitLen_le by lia.
  destruct (Z.ltb_spec (v + 35 + c * 2) (2 ^ 8)) as [Hlt|]; [|done]. cbn [negb]. cbv zeta.
  rewrite u64_nonneg, (u64_small (v + 35 + c * 2 - 27)), u8_small by (unfold is_u64, is_byte; lia).
  unfold ValidateSignatureValues. destruct ((r <? 1) || (s <? 1)); [done|]. destruct (homestead && _); [done|].
  rewrite (proj2 (Z.eqb_neq (v + 35 + c * 2 - 27) 0)), (proj2 (Z.eqb_neq (v + 35 + c * 2 - 27) 1)) by lia.
  by rewrite andb_false_r.
Qed.

(** ** Properties *)

Lemma signed_sender `{Crypto, Signing, !SigningLaws} (tx tx' : Transaction) (s : Signer) (prv : PrivateKey) :
  match s with EIP155Signer c => 0 < c | _ => True end →
  SignTx tx s prv = Some tx' →
  (Sender s tx').1 = Ok (PubkeyToAddress (PublicKey prv))
  ∧ (Sender s (Sender s tx').2).1 = Ok (PubkeyToAddress (PublicKey prv))
  ∧ ∀ c s', s = EIP155Signer c → s' ≠ s → ∃ e, (Sender s' (Sender s tx').2).1 = Err e.
Proof.
  intros Hc (sig & Hs & Hv & Hh & Hca & ER & ES & EV)%SignTx_fields.
  destruct (Sender_uncached s tx' Hca) as (E1 & Ed & Hca2).
  assert (Signer_Sender s (tx_data tx') = Ok (PubkeyToAddress (PublicKey prv))) as Eok.
  { destruct s as [| |c]; cbn [Signer_Sender]; rewrite Hh, ER, ES, EV; [by apply recover_signed..|].
    destruct (Z.eqb_spec c 0); [lia|]. rewrite protected_V, derive_V, Z.eqb_refl, Hh by lia. cbn [negb].
    replace (at_ sig 64 + 35 + c * 2 - c * 2 - 8) with (at_ sig 64 + 27) by lia. by apply recover_signed. }
  rewrite E1, Eok. split; [done|]. destruct (Sender_uncached s _ Hca2) as (E2 & _). rewrite E2, Ed. split; [done|].
  intros c s' -> Hne. destruct (Sender_uncached s' _ Hca2) as (E3 & _). rewrite E3, Ed.
  destruct (Z.eqb_spec c 0) as [|Hc0]; [lia|]. destruct s' as [| |c']; cbn [Signer_Sender]; rewrite EV.
  1,2: eexists; by apply old_signers_reject.
  rewrite protected_V, derive_V by lia. cbn [negb]. assert (c ≠ c') as Hcc by congruence.
  rewrite (proj2 (Z.eqb_neq c c') Hcc). by eexists.
Qed.

(** With chain id zero the signer signs the nine fields of EIP 155 but marks the
    transaction as unprotected, so that its sender is derived from a signature
    over six fields. *)
Lemma EIP155_zero_chain `{Crypto, Signing, !SigningLaws} (tx tx' : Transaction) (prv : PrivateKey) :
  SignTx tx (EIP155Signer 0) prv = Some tx' →
  ∃ sig, Sign (Signer_Hash (EIP155Signer 0) (tx_data tx)) prv = Some sig
    ∧ Signer_Sender (EIP155Signer 0) (tx_data tx')
      = recoverPlain (Signer_Hash HomesteadSigner (tx_data tx)) (SetBytes (slice sig 0 32)) (SetBytes (slice sig 32 64))
          (at_ sig 64 + 27) true.
Proof.
  intros (sig & Hs & Hv & Hh & _ & ER & ES & EV)%SignTx_fields. exists sig. split; [done|]. cbn [Signer_Sender].
  rewrite Hh, ER, ES, EV. cbn [Z.eqb]. unfold isProtectedV. rewrite BitLen_le by lia. zcmp. cbv zeta.
  rewrite u64_nonneg by lia.
  assert (negb (at_ sig 64 + 27 =? 27) && negb (at_ sig 64 + 27 =? 28) = false) as -> by lia. done.
Qed.

(** C30: a signed transaction belongs to the owner of the key, and to one chain.
    Whatever signer has signed it, but for EIP 155 with chain id zero, the same
    signer derives the address of the key from the signature, cached or not; and
    a transaction signed for a chain is rejected by every other signer, in
    particular on every other chain.  With chain id zero the sender is derived
    as if the signature were over the six fields of Homestead, while it is over
    the nine fields of EIP 155.  Chain ids are not negative. *)
Theorem SignTx_Sender `{Crypto, Signing, !SigningLaws} (tx tx' : Transaction) (s : Signer) (prv : PrivateKey) :
  match s with EIP155Signer c => 0 ≤ c | _ => True end →
  SignTx tx s prv = Some tx' →
  (s ≠ EIP155Signer 0 →
     (Sender s tx').1 = Ok (PubkeyToAddress (PublicKey prv))
     ∧ (Sender s (Sender s tx').2).1 = Ok (PubkeyToAddress (PublicKey prv))
     ∧ ∀ c s', s = EIP155Signer c → s' ≠ s → ∃ e, (Sender s' (Sender s tx').2).1 = Err e)
  ∧ (s = EIP155Signer 0 →
     ∃ sig, Sign (Signer_Hash (EIP155Signer 0) (tx_data tx)) prv = Some sig
       ∧ (Sender s tx').1 = recoverPlain (Signer_Hash HomesteadSigner (tx_data tx)) (SetBytes (slice sig 0 32)) (SetBytes (slice sig 32 64))
                              (at_ sig 64 + 27) true).
Proof.
  intros Hc Hsign. split; [intros Hne|intros ->].
  - apply (signed_sender tx); [|done]. destruct s as [| |c]; [done|done|]. assert (c ≠ 0) by congruence. lia.
  - destruct (EIP155_zero_chain tx tx' prv Hsign) as (sig & Hs & E). exists sig. split; [done|]. rewrite <- E.
    destruct (SignTx_fields _ _ _ _ Hsign) as (_ & _ & _ & _ & Hca & _). by destruct (Sender_uncached (EIP155Signer 0) tx' Hca) as (-> & _).
Qed.

