(* ===== verification/Receipts.v ===== *)
(** * Receipts and bloom filters (src/core/types/receipt.go, bloom9.go)

    The 2048-bit filter over the addresses and topics of logs, and the receipt
    of a transaction.  The theorem shows that a filter never misses what was
    added to it. *)
From S2P Require Import Prelude RlpEncode RlpRaw RlpDecode AccessList StateDB VmBase VmMachine Precompiles.
Local Open Scope Z_scope.

Definition BloomByteLength : Z := 256.

(** A bloom filter: 256 bytes. *)
Notation Bloom := bytes (only parsing).
Definition zero_bloom : Bloom := replicate 256 0.

Record Receipt := MkReceipt {
  PostState : bytes;
  Status : Z;
  CumulativeSmokeUsed : Z;
  r_Bloom : Bloom;
  r_Logs : list Log;
  TxHash : Hash;
  ContractAddress : Address;
  r_SmokeUsed : Z;
  r_BlockHash : Hash;
  r_BlockNumber : Z;
  TransactionIndex : Z
}.

Definition ReceiptStatusFailed : Z := 0.
Definition ReceiptStatusSuccessful : Z := 1.

Definition NewReceipt (root : bytes) (failed : bool) (cumulativeSmokeUsed : Z) : Receipt :=
  MkReceipt root (if failed then ReceiptStatusFailed else ReceiptStatusSuccessful) cumulativeSmokeUsed
    zero_bloom [] zero_hash zero_address 0 zero_hash 0 0.

Section bloom.
Context `{Crypto}.

(** Index and bit of one of the three pairs of bytes of the hash. *)
Definition bloomValue (hi lo : Z) : Z * Z :=
  (BloomByteLength - Z.shiftr (Z.land (hi * 256 + lo) 0x7ff) 3 - 1, u8 (Z.shiftl 1 (Z.land lo 0x7))).

Definition bloomValues (data : bytes) : list (Z * Z) :=
  let hashbuf := take 6 (Precompiles.Keccak256 data) in
  [bloomValue (at_ hashbuf 0) (at_ hashbuf 1); bloomValue (at_ hashbuf 2) (at_ hashbuf 3);
   bloomValue (at_ hashbuf 4) (at_ hashbuf 5)].

(** [b[i] |= v] *)
Definition or_byte (b : Bloom) (iv : Z * Z) : Bloom :=
  <[Z.to_nat iv.1 := Z.lor (at_ b (Z.to_nat iv.1)) iv.2]> b.

Definition bloom_add (b : Bloom) (d : bytes) : Bloom := foldl or_byte b (bloomValues d).

Definition Test (b : Bloom) (topic : bytes) : bool :=
  forallb (λ iv, iv.2 =? Z.land iv.2 (at_ b (Z.to_nat iv.1))) (bloomValues topic).

Definition BloomLookup (bin : Bloom) (topic : bytes) : bool := Test bin topic.

Definition log_bloom (bin : Bloom) (log : Log) : Bloom :=
  foldl bloom_add (bloom_add bin (l_Address log)) (l_Topics log).

Definition LogsBloom (logs : list Log) : Bloom := foldl log_bloom zero_bloom logs.

Definition CreateBloom (receipts : list Receipt) : Bloom :=
  foldl (λ bin receipt, foldl log_bloom bin (r_Logs receipt)) zero_bloom receipts.

(** ** Lemmas *)

(** Every bit that is set in [b] is set in [b']. *)
Definition bloom_le (b b' : Bloom) : Prop :=
  length b = length b' ∧ ∀ i v, v = Z.land v (at_ b i) → v = Z.land v (at_ b' i).

Lemma bloom_le_refl b : bloom_le b b.
Proof. by split. Qed.
Lemma bloom_le_trans b1 b2 b3 : bloom_le b1 b2 → bloom_le b2 b3 → bloom_le b1 b3.
Proof. intros [L1 H1] [L2 H2]. split; [congruence|]. auto. Qed.

Lemma at_insert b i j v : (i < length b)%nat → at_ (<[i := v]> b) j = if (i =? j)%nat then v else at_ b j.
Proof.
  intros Hi. unfold at_. rewrite !nth_lookup. destruct (Nat.eqb_spec i j) as [<-|Hne].
  - by rewrite list_lookup_insert_eq.
  - by rewrite list_lookup_insert_ne.
Qed.

Lemma bloom_index hi lo : 0 ≤ (bloomValue hi lo).1 < 256.
Proof.
  cbn. unfold BloomByteLength. rewrite Z.shiftr_div_pow2 by lia.
  assert (0 ≤ Z.land (hi * 256 + lo) 0x7ff < 2048) as Hl.
  { change 0x7ff with (Z.ones 11). rewrite Z.land_ones by lia. apply Z.mod_pos_bound. lia. }
  set (x := Z.land _ _) in *. change (2 ^ 3) with 8. pose proof (Z.div_mod x 8). pose proof (Z.mod_pos_bound x 8). lia.
Qed.

Lemma land_lor_absorb v a w : v = Z.land v a → v = Z.land v (Z.lor a w).
Proof.
  intros E. rewrite Z.land_lor_distr_r, <- E. apply Z.bits_inj'. intros n _. rewrite Z.lor_spec, Z.land_spec.
  by destruct (Z.testbit v n).
Qed.

Lemma or_byte_le b iv : length b = 256%nat → 0 ≤ iv.1 < 256 → bloom_le b (or_byte b iv).
Proof.
  intros Hl Hi. split; [by unfold or_byte; rewrite length_insert|]. intros i v E. unfold or_byte. rewrite at_insert by lia.
  destruct (Nat.eqb_spec (Z.to_nat iv.1) i) as [<-|]; [by apply land_lor_absorb|done].
Qed.

Lemma bloomValues_index d iv : iv ∈ bloomValues d → 0 ≤ iv.1 < 256.
Proof. unfold bloomValues. rewrite !elem_of_cons, elem_of_nil. intros [->|[->|[->|[]]]]; apply bloom_index. Qed.

Lemma or_bytes_le l b :
  length b = 256%nat → Forall (λ iv, 0 ≤ iv.1 < 256) l →
  bloom_le b (foldl or_byte b l) ∧ Forall (λ iv, iv.2 = Z.land iv.2 (at_ (foldl or_byte b l) (Z.to_nat iv.1))) l.
Proof.
  intros Hl Hf. revert b Hl. induction Hf as [|iv l Hi _ IH]; intros b Hl; [by split; [apply bloom_le_refl|]|].
  pose proof (or_byte_le b iv Hl Hi) as H1. cbn [foldl].
  destruct (IH (or_byte b iv)) as [H2 H3]; [by rewrite <- (proj1 H1)|]. split; [by eapply bloom_le_trans|].
  constructor; [|done]. apply (proj2 H2). unfold or_byte. rewrite at_insert, Nat.eqb_refl by lia.
  rewrite Z.lor_comm. apply land_lor_absorb. by rewrite Z.land_diag.
Qed.

Lemma bloom_add_spec b d :
  length b = 256%nat → bloom_le b (bloom_add b d) ∧ Test (bloom_add b d) d = true.
Proof.
  intros Hl. destruct (or_bytes_le (bloomValues d) b Hl) as [H1 H2].
  { apply Forall_forall. apply bloomValues_index. }
  split; [done|]. unfold Test. apply forallb_forall. intros iv Hiv%list_elem_of_In. apply Z.eqb_eq.
  rewrite Forall_forall in H2. by apply H2.
Qed.

Lemma Test_le b b' d : bloom_le b b' → Test b d = true → Test b' d = true.
Proof.
  intros [_ Hle]. unfold Test. rewrite !forallb_forall. intros Ht iv Hiv. apply Z.eqb_eq, Hle, Z.eqb_eq. by apply Ht.
Qed.

(** Folding additions over a list adds every element and keeps what was there. *)
Lemma bloom_fold {A} (f : Bloom → A → Bloom) (P : A → bytes → Prop) (l : list A) b :
  (∀ b a, length b = 256%nat → bloom_le b (f b a) ∧ ∀ d, P a d → Test (f b a) d = true) →
  length b = 256%nat → bloom_le b (foldl f b l) ∧ ∀ a d, a ∈ l → P a d → Test (foldl f b l) d = true.
Proof.
  intros Hf. revert b. induction l as [|x l IH]; intros b Hl; cbn [foldl].
  { split; [apply bloom_le_refl|]. by intros a d ?%elem_of_nil. }
  destruct (Hf b x Hl) as [H1 H2]. destruct (IH (f b x)) as [H3 H4]; [by rewrite <- (proj1 H1)|].
  split; [by eapply bloom_le_trans|]. intros a d [->|Ha]%elem_of_cons Hp; [|by eapply H4].
  eapply Test_le; [exact H3|]. by apply H2.
Qed.

Definition in_log (log : Log) (d : bytes) : Prop := d = l_Address log ∨ d ∈ l_Topics log.

Lemma log_bloom_spec b log :
  length b = 256%nat → bloom_le b (log_bloom b log) ∧ ∀ d, in_log log d → Test (log_bloom b log) d = true.
Proof.
  intros Hl. destruct (bloom_add_spec b (l_Address log) Hl) as [H1 H2].
  destruct (bloom_fold bloom_add (λ t d, d = t) (l_Topics log) (bloom_add b (l_Address log))) as [H3 H4].
  { intros b' a Hb. destruct (bloom_add_spec b' a Hb) as [Hx Hy]. split; [done|]. by intros d ->. }
  { by rewrite <- (proj1 H1). }
  split; [by eapply bloom_le_trans|]. intros d [->|Hd]; [by eapply Test_le|by eapply H4].
Qed.
End bloom.

(** C38: a bloom filter has no false negatives.  For every log of the receipts
    that [CreateBloom] was given, looking up its address or one of its topics
    in the filter succeeds; so does a lookup in the filter of a block of logs. *)
Theorem CreateBloom_complete `{Crypto} (receipts : list Receipt) (r : Receipt) (log : Log) (d : bytes) :
  r ∈ receipts → log ∈ r_Logs r → d = l_Address log ∨ d ∈ l_Topics log →
  BloomLookup (CreateBloom receipts) d = true ∧ BloomLookup (LogsBloom (r_Logs r)) d = true.
Proof.
  intros Hr Hl Hd. unfold BloomLookup. split.
  - destruct (bloom_fold (λ bin receipt, foldl log_bloom bin (r_Logs receipt))
      (λ receipt d, ∃ log, log ∈ r_Logs receipt ∧ in_log log d) receipts zero_bloom) as [_ H2].
    + intros b a Hb. destruct (bloom_fold log_bloom in_log (r_Logs a) b log_bloom_spec Hb) as [H1 H2].
      split; [done|]. intros d' (log' & Hl' & Hd'). by eapply H2.
    + done.
    + apply (H2 r); [done|]. by exists log.
  - destruct (bloom_fold log_bloom in_log (r_Logs r) zero_bloom log_bloom_spec eq_refl) as [_ H2]. by eapply H2.
Qed.
