(* ===== verification/BlockHeader.v ===== *)
(** * Block headers (src/core/types/block.go)

    The header with the fifteen fields of the source, its hash, the hash of a
    list of uncles, and the checks of src/consensus/misc that depend on a
    header only.  A header comes from the RLP decoder or from the code that
    builds a block, both of which set [Number] and [Difficulty]: the two
    pointers are not nil. *)
From S2P Require Import Prelude RlpEncode RlpRaw RlpDecode StateDB ChainConfig VmBase VmMachine Precompiles Transaction Receipts.
Local Open Scope Z_scope.

Record Header := MkHeader {
  h_ParentHash : Hash;
  h_UncleHash : Hash;
  h_Coinbase : Address;
  h_Root : Hash;
  h_TxHash : Hash;
  h_ReceiptHash : Hash;
  h_Bloom : Bloom;
  h_Difficulty : Z;
  h_Number : Z;
  h_SmokeLimit : Z;
  h_SmokeUsed : Z;
  h_Time : Z;
  h_Extra : bytes;
  h_MixDigest : Hash;
  h_Nonce : bytes
}.

Record Block := MkBlock {
  b_Header : Header;
  Transactions : list Transaction;
  b_Uncles : list Header
}.

(** The fields up to the time of the block, as the RLP encoder gets them. *)
Definition header_fields (h : Header) : list RlpEncode.value :=
  [VByteArray false (h_ParentHash h); VByteArray false (h_UncleHash h); VByteArray false (h_Coinbase h);
   VByteArray false (h_Root h); VByteArray false (h_TxHash h); VByteArray false (h_ReceiptHash h);
   VByteArray false (h_Bloom h); VBigIntPtr (Some (h_Difficulty h)); VBigIntPtr (Some (h_Number h));
   VUint (h_SmokeLimit h); VUint (h_SmokeUsed h); VUint (h_Time h)].

Definition header_value (h : Header) : RlpEncode.value :=
  VPtr KList (Some (VStruct (header_fields h
    ++ [VBytes (h_Extra h); VByteArray false (h_MixDigest h); VByteArray false (h_Nonce h)]))).

(** [BlockNonce.Uint64]. *)
Definition nonce_Uint64 (n : bytes) : Z := be_decode n.

(** [Header.SanityCheck]. *)
Inductive sanity_error := ErrBigNumber | ErrBigDifficulty (diffLen : Z) | ErrBigExtra (eLen : Z).

Definition BitLen (x : Z) : Z := if x =? 0 then 0 else Z.log2 (Z.abs x) + 1.

Definition SanityCheck (h : Header) : option sanity_error :=
  if (h_Number h <? 0) || (2 ^ 64 <=? h_Number h) then Some ErrBigNumber
  else if 80 <? BitLen (h_Difficulty h) then Some (ErrBigDifficulty (BitLen (h_Difficulty h)))
  else if 100 * 1024 <? len (h_Extra h) then Some (ErrBigExtra (len (h_Extra h)))
  else None.

Section crypto.
Context `{Crypto}.

Definition Header_Hash (h : Header) : Hash := rlpHash (header_value h).
Definition Block_Hash (b : Block) : Hash := Header_Hash (b_Header b).

Definition EmptyUncleHash : Hash := rlpHash (VSlice false []).
Definition CalcUncleHash (uncles : list Header) : Hash :=
  match uncles with
  | [] => EmptyUncleHash
  | _ => rlpHash (VSlice false (map header_value uncles))
  end.

(** ** Checks at forks (src/consensus/misc) *)

Inductive fork_error := ErrBadProDAOExtra | ErrBadNoDAOExtra | ErrForkHash (have want : Hash).

Definition DAOForkBlockExtra : bytes :=
  [0x64; 0x61; 0x6f; 0x2d; 0x68; 0x61; 0x72; 0x64; 0x2d; 0x66; 0x6f; 0x72; 0x6b].
Definition DAOForkExtraRange : Z := 10.

Definition VerifyDAOHeaderExtraData (config : ChainConfig) (header : Header) : option fork_error :=
  match DAOForkBlock config with
  | None => None
  | Some fork =>
      if (h_Number header <? fork) || (fork + DAOForkExtraRange <=? h_Number header) then None
      else if DAOForkSupport config then
        if bool_decide (h_Extra header = DAOForkBlockExtra) then None else Some ErrBadProDAOExtra
      else
        if bool_decide (h_Extra header = DAOForkBlockExtra) then Some ErrBadNoDAOExtra else None
  end.

Definition VerifyForkHashes (config : ChainConfig) (header : Header) (uncle : bool) : option fork_error :=
  if uncle then None
  else if bool_decide (EIP150Block config = Some (h_Number header)) then
    if negb (bool_decide (EIP150Hash config = zero_hash))
       && negb (bool_decide (EIP150Hash config = Header_Hash header))
    then Some (ErrForkHash (Header_Hash header) (EIP150Hash config)) else None
  else None.
End crypto.
