(* ===== verification/BlockValidator.v ===== *)
(** * Validation of blocks (src/core/block_validator.go)

    [ValidateBody] compares the uncles and transactions of a block with the
    hashes in its header, [ValidateState] compares what processing the block
    has produced, and [CalcSmokeLimit] chooses the limit of the next block.
    The chain and the consensus engine are parameters.  The theorems show that
    a header fixes the body of its block, and that the chosen limit is one
    that the engine accepts. *)
From S2P Require Import TrieEncoding TrieSpec Trie TrieHash TrieDecode StackTrie.
From S2P Require Import Prelude RlpEncode RlpRaw RlpDecode AccessList StateDB StateRevert StateCommit Params ChainConfig VmBase VmMachine Precompiles Transaction Receipts BlockHeader.
Local Open Scope Z_scope.

(** ** Encodings *)

(** [Transaction.EncodeRLP]. *)
Definition tx_value (tx : Transaction) : RlpEncode.value :=
  let d := tx_data tx in
  VPtr KList (Some (VStruct (signed_fields d
    ++ [VBigIntPtr (Some (V d)); VBigIntPtr (Some (R d)); VBigIntPtr (Some (S_ d))]))).

(** [Transactions.GetRlp] ignores an encoding error. *)
Definition tx_GetRlp (tx : Transaction) : bytes :=
  match EncodeToBytes (tx_value tx) with Ok b => b | Err _ => [] end.

Definition statusEncoding (r : Receipt) : bytes :=
  match PostState r with
  | [] => if Status r =? ReceiptStatusFailed then [] else [0x01]
  | _ => PostState r
  end.

(** [Log.EncodeRLP]. *)
Definition log_value (l : Log) : RlpEncode.value :=
  VEncoder (VStruct [VByteArray false (l_Address l); VSlice false (map (VByteArray false) (l_Topics l)); VBytes (l_Data l)]).

(** [Receipt.EncodeRLP]. *)
Definition receipt_value (r : Receipt) : RlpEncode.value :=
  VEncoder (VPtr KList (Some (VStruct [VBytes (statusEncoding r); VUint (CumulativeSmokeUsed r);
    VByteArray false (r_Bloom r); VSlice false (map (λ l, VPtr KList (Some (log_value l))) (r_Logs r))]))).

(** [Receipts.GetRlp]; there are no numbers in a receipt that cannot be
    encoded. *)
Definition receipt_GetRlp (r : Receipt) : bytes :=
  match EncodeToBytes (receipt_value r) with Ok b => b | Err _ => [] end.

(** ** Validation *)

Inductive body_error {E : Type} :=
| ErrKnownBlock
| ErrUncles (e : E)
| ErrUncleRoot (have want : Hash)
| ErrTxRoot (have want : Hash)
| ErrNoAncestor
| ErrPrunedAncestor.
Arguments body_error : clear implicits.

Inductive state_error :=
| ErrSmokeUsedMismatch (remote local : Z)
| ErrBloom (remote local : Bloom)
| ErrReceiptRoot (remote local : Hash)
| ErrStateRoot (remote local : Hash).

Section validator.
Context `{B : Backend, CR : Crypto, MapRange}.
Context {E : Type}.
Variable config : ChainConfig.
(** The chain and the engine. *)
Variable HasBlockAndState HasBlock : Hash → Z → bool.
Variable engine_VerifyUncles : Block → option E.

Definition ValidateBody (block : Block) : result stack_panic (option (body_error E)) :=
  let header := b_Header block in
  let number := u64 (h_Number header) in
  if HasBlockAndState (Block_Hash block) number then Ok (Some ErrKnownBlock)
  else match engine_VerifyUncles block with
  | Some e => Ok (Some (ErrUncles e))
  | None =>
      let hash := CalcUncleHash (b_Uncles block) in
      if negb (bool_decide (hash = h_UncleHash header)) then Ok (Some (ErrUncleRoot hash (h_UncleHash header)))
      else
        hash ← DeriveSha Precompiles.Keccak256 (map tx_GetRlp (Transactions block));
        if negb (bool_decide (hash = h_TxHash header)) then Ok (Some (ErrTxRoot hash (h_TxHash header)))
        else if negb (HasBlockAndState (h_ParentHash header) (u64 (number - 1))) then
          if negb (HasBlock (h_ParentHash header) (u64 (number - 1))) then Ok (Some ErrNoAncestor)
          else Ok (Some ErrPrunedAncestor)
        else Ok None
  end.

(** The error, and the state database after [IntermediateRoot]; [None] when
    that panics. *)
Definition ValidateState (block : Block) (s : StateDB.StateDB) (receipts : list Receipt) (usedSmoke : Z)
    : result stack_panic (option (option state_error * StateDB.StateDB)) :=
  let header := b_Header block in
  if negb (h_SmokeUsed header =? usedSmoke) then Ok (Some (Some (ErrSmokeUsedMismatch (h_SmokeUsed header) usedSmoke), s))
  else
    let rbloom := CreateBloom receipts in
    if negb (bool_decide (rbloom = h_Bloom header)) then Ok (Some (Some (ErrBloom (h_Bloom header) rbloom), s))
    else
      receiptSha ← DeriveSha Precompiles.Keccak256 (map receipt_GetRlp receipts);
      if negb (bool_decide (receiptSha = h_ReceiptHash header))
      then Ok (Some (Some (ErrReceiptRoot (h_ReceiptHash header) receiptSha), s))
      else match IntermediateRoot (IsEIP158 config (Some (h_Number header))) s with
      | None => Ok None
      | Some (root, s) =>
          if negb (bool_decide (h_Root header = root)) then Ok (Some (Some (ErrStateRoot (h_Root header) root), s))
          else Ok (Some (None, s))
      end.
End validator.

(** ** The limit of the next block *)

Definition CalcSmokeLimit (parent : Header) (smokeFloor smokeCeil : Z) : Z :=
  let contrib := u64 (h_SmokeUsed parent + h_SmokeUsed parent / 2) / SmokeLimitBoundDivisor in
  let decay := u64 (h_SmokeLimit parent / SmokeLimitBoundDivisor - 1) in
  let limit := u64 (u64 (h_SmokeLimit parent - decay) + contrib) in
  let limit := if limit <? MinSmokeLimit then MinSmokeLimit else limit in
  if limit <? smokeFloor then
    let limit := u64 (h_SmokeLimit parent + decay) in
    if smokeFloor <? limit then smokeFloor else limit
  else if smokeCeil <? limit then
    let limit := u64 (h_SmokeLimit parent - decay) in
    if limit <? smokeCeil then smokeCeil else limit
  else limit.

Lemma CalcSmokeLimit_in_range parent smokeFloor smokeCeil :
  7168 ≤ h_SmokeLimit parent < 2 ^ 62 → 0 ≤ h_SmokeUsed parent ≤ h_SmokeLimit parent →
  MinSmokeLimit ≤ smokeCeil → smokeFloor ≤ smokeCeil →
  let limit := CalcSmokeLimit parent smokeFloor smokeCeil in
  Z.abs (h_SmokeLimit parent - limit) < h_SmokeLimit parent / SmokeLimitBoundDivisor ∧ MinSmokeLimit ≤ limit < 2 ^ 63.
Proof.
  intros HL HU Hc Hfc. unfold CalcSmokeLimit. set (L := h_SmokeLimit parent) in *. set (U := h_SmokeUsed parent) in *.
  assert (0 ≤ U / 2 ≤ 2 ^ 61) by (split; [apply Z.div_pos; lia|apply Z.div_le_upper_bound; lia]).
  rewrite (u64_small (U + U / 2)) by (unfold is_u64; lia).
  set (c := (U + U / 2) / 1024). set (q := L / 1024).
  assert (7 ≤ q) by (apply Z.div_le_lower_bound; lia).
  assert (1024 * q ≤ L < 1024 * q + 1024) by (pose proof (Z.div_mod L 1024); pose proof (Z.mod_pos_bound L 1024); unfold q; lia).
  assert (1024 * c ≤ U + U / 2) by (apply Z.mul_div_le; lia). assert (0 ≤ c) by (apply Z.div_pos; lia).
  assert (2 * (U / 2) ≤ U) by (apply Z.mul_div_le; lia).
  assert (c ≤ 2 * q - 2) by lia.
  rewrite (u64_small (q - 1)), (u64_small (L - (q - 1))), (u64_small (L - (q - 1) + c)), (u64_small (L + (q - 1))) by (unfold is_u64; lia).
  repeat case_match; lia.
Qed.

(** ** What a hash fixes *)

(** One table holds the nodes of both trees under their hashes: no two nodes
    of the trees collide, nor does a root with the hash of the empty trie or
    with zero. *)
Definition no_collision (keccak : bytes → bytes) (m1 m2 : gmap bytes bytes) : Prop :=
  ∃ store, stored_map keccak store m1 ∧ stored_map keccak store m2
    ∧ ∀ m, m = m1 ∨ m = m2 → tree_of m ≠ None → merkle_root keccak m ≠ emptyRoot ∧ merkle_root keccak m ≠ replicate 32 0.

Lemma root_binds (keccak : bytes → bytes) m1 m2 :
  (∀ b, length (keccak b) = 32%nat) → (∀ b, bytes_ok (keccak b)) →
  map_ok m1 → map_ok m2 → no_collision keccak m1 m2 → merkle_root keccak m1 = merkle_root keccak m2 → m1 = m2.
Proof.
  intros Hl Hb H1 H2 (store & S1 & S2 & Hr) E.
  destruct (New_stored_ok keccak Hl Hb store m1 H1 S1) as (t1 & E1 & V1); [by apply Hr; left|].
  destruct (New_stored_ok keccak Hl Hb store m2 H2 S2) as (t2 & E2 & V2); [by apply Hr; right|].
  rewrite <- E, E1 in E2. injection E2 as <-. apply map_eq. intros k.
  destruct (decide (bytes_ok k)) as [Hk|Hk].
  - destruct (TryGet_valid keccak (mustDecodeNode store) t1 m1 k V1 Hk) as (t & G1 & _).
    destruct (TryGet_valid keccak (mustDecodeNode store) t1 m2 k V2 Hk) as (t' & G2 & _). congruence.
  - transitivity (@None bytes); [|symmetry]; apply eq_None_not_Some; intros [v Hv]; apply Hk; [by apply H1 in Hv as [? _]|by apply H2 in Hv as [? _]].
Qed.

Lemma indexed_lookup items (i : nat) :
  Forall item_fits items → len items < 2 ^ 63 → Z.of_nat i < 2 ^ 63 →
  indexed items !! AppendUint64 [] (Z.of_nat i) = items !! i.
Proof.
  intros Hi Hl Hi63. assert (∀ a b, Z.of_nat a < 2 ^ 63 → Z.of_nat b < 2 ^ 63 → AppendUint64 [] (Z.of_nat a) = AppendUint64 [] (Z.of_nat b) → a = b) as Hinj.
  { intros a b Ha Hb E. destruct (Z.lt_trichotomy (key_order (Z.of_nat a)) (key_order (Z.of_nat b))) as [H|[H|H]].
    - apply index_before in H; [|lia..]. rewrite E in H. by apply before_irrefl in H.
    - unfold key_order in H. repeat case_match; lia.
    - apply index_before in H; [|lia..]. rewrite E in H. by apply before_irrefl in H. }
  unfold indexed. destruct (items !! i) as [b|] eqn:Eb.
  - apply lookup_lt_Some in Eb as Hlt. apply elem_of_list_to_map_1.
    + rewrite map_map. cbn [fst]. apply NoDup_fmap_2_strong; [|apply NoDup_seq].
      intros x y [_ Hx]%elem_of_seq [_ Hy]%elem_of_seq. apply Hinj; lia.
    + apply list_elem_of_fmap. exists i. rewrite Eb. split; [done|]. apply elem_of_seq. lia.
  - apply lookup_ge_None in Eb. apply not_elem_of_list_to_map. rewrite map_map. cbn [fst].
    intros (j & E & [_ Hj]%elem_of_seq)%list_elem_of_fmap. apply Hinj in E; lia.
Qed.

Lemma indexed_ok items : Forall item_fits items → len items < 2 ^ 63 → map_ok (indexed items).
Proof.
  intros Hi Hl. rewrite indexed_eq by done. destruct (derive_entries items Hi Hl) as [_ He].
  intros k v Hv. apply elem_of_list_to_map_2 in Hv. rewrite Forall_forall in He. by apply (He (k, v)).
Qed.

Lemma indexed_inj items1 items2 :
  Forall item_fits items1 → Forall item_fits items2 → len items1 < 2 ^ 62 → len items2 < 2 ^ 62 →
  indexed items1 = indexed items2 → items1 = items2.
Proof.
  intros H1 H2 L1 L2 E. apply list_eq. intros i.
  destruct (decide (Z.of_nat i < 2 ^ 63)) as [Hi|Hi].
  - rewrite <- (indexed_lookup items1 i), <- (indexed_lookup items2 i) by (done || lia). by rewrite E.
  - rewrite !lookup_ge_None_2 by lia. done.
Qed.

(** Lists with the same hash are the same. *)
Lemma DeriveSha_binds (keccak : bytes → bytes) items1 items2 h :
  (∀ b, length (keccak b) = 32%nat) → (∀ b, bytes_ok (keccak b)) →
  Forall item_fits items1 → Forall item_fits items2 → len items1 < 2 ^ 62 → len items2 < 2 ^ 62 →
  no_collision keccak (indexed items1) (indexed items2) →
  DeriveSha keccak items1 = Ok h → DeriveSha keccak items2 = Ok h → items1 = items2.
Proof.
  intros Hl Hb H1 H2 L1 L2 Hn E1 E2. apply indexed_inj; [done..|].
  apply (root_binds keccak); [done|done|apply indexed_ok; [done|lia]|apply indexed_ok; [done|lia]|done|].
  rewrite DeriveSha_ok in E1, E2 by (done || lia). congruence.
Qed.

(** ** What an encoding fixes *)

Lemma map_transfer {X Y Y' : Type} (f : X → Y) (g : X → Y') (P : X → Prop) l1 l2 :
  Forall P l1 → Forall P l2 → (∀ x y, P x → P y → f x = f y → g x = g y) → map f l1 = map f l2 → map g l1 = map g l2.
Proof.
  intros H1 H2 Hf. revert l2 H2. induction H1 as [|x l1 Hx _ IH]; intros [|y l2] H2 E; [done..|].
  apply Forall_cons in H2 as [Hy H2]. injection E as E1 E2. cbn [map]. f_equal; [by apply Hf|by apply IH].
Qed.

Lemma typed_inj t v1 v2 b :
  type_ok t → has_type t v1 → has_type t v2 → value_ok v1 → len b < 2 ^ 64 →
  rlp_spec v1 = Ok b → rlp_spec v2 = Ok b → v1 = v2.
Proof.
  intros Ht H1 H2 Hv Hl E1 E2. pose proof (rlp_spec_ok v1 b Hv E1 Hl) as Hb.
  pose proof (DecodeBytes_fwd t v1 b Ht Hb Hl H1 E1). pose proof (DecodeBytes_fwd t v2 b Ht Hb Hl H2 E2). congruence.
Qed.

(** The fields of a transaction have the sizes of their types, integers are
    not negative, and the encoding is shorter than 2^60 bytes. *)
Record tx_wf (tx : Transaction) : Prop := {
  tw_nonce : is_u64 (AccountNonce (tx_data tx));
  tw_price : 0 ≤ Price (tx_data tx);
  tw_limit : is_u64 (tx_SmokeLimit (tx_data tx));
  tw_recipient a : Recipient (tx_data tx) = Some a → length a = 20%nat ∧ bytes_ok a;
  tw_amount : 0 ≤ Amount (tx_data tx);
  tw_payload : bytes_ok (Payload (tx_data tx));
  tw_sig : 0 ≤ V (tx_data tx) ∧ 0 ≤ R (tx_data tx) ∧ 0 ≤ S_ (tx_data tx);
  tw_len : ∀ b, rlp_spec (tx_value tx) = Ok b → len b < 2 ^ 60
}.

Definition tx_type : rtype :=
  TPtr (TStruct [TUint 64; TBigInt; TUint 64; TNilPtr KString (TByteArray 20); TBigInt; TByteSlice; TBigInt; TBigInt; TBigInt] None).

Lemma tx_type_ok : type_ok tx_type.
Proof. repeat constructor; done || set_solver. Qed.

Lemma address_nonempty (a : bytes) out : length a = 20%nat → rlp_spec (VByteArray false a) = Ok out → nonempty_item out.
Proof.
  intros Ha [= <-]. rewrite rlp_string_long by lia. unfold nonempty_item, rlp_head. rewrite Ha. cbn [Z.of_nat Z.ltb]. split; discriminate.
Qed.

Lemma tx_has_type tx : tx_wf tx → has_type tx_type (tx_value tx).
Proof.
  intros []. destruct tw_sig0 as (? & ? & ?). unfold tx_type, tx_value, signed_fields. cbn [app].
  apply (HT_Ptr (TStruct _ None)). constructor.
  do 3 (constructor; [by constructor|]). constructor; [|do 5 (constructor; [by constructor|]); constructor].
  destruct (Recipient (tx_data tx)) as [a|] eqn:Ea; cbn [fmap option_fmap option_map]; [|constructor].
  destruct (tw_recipient0 a eq_refl) as [Hl _]. constructor; [by constructor|]. intros out. by apply address_nonempty.
Qed.

Lemma tx_value_ok tx : tx_wf tx → value_ok (tx_value tx).
Proof.
  intros []. unfold tx_value, signed_fields. cbn [value_ok all_values app].
  repeat (split; [done || (destruct (Recipient (tx_data tx)) as [a|]; [by apply (tw_recipient0 a)|done])|]). done.
Qed.

Lemma spec_tx tx : tx_wf tx → ∃ b, rlp_spec (tx_value tx) = Ok b ∧ tx_GetRlp tx = b ∧ item_fits b.
Proof.
  intros Hw. pose proof Hw as []. destruct tw_sig0 as (? & ? & ?). destruct (rlp_spec (tx_value tx)) as [b|] eqn:E.
  - exists b. pose proof (tw_len0 b eq_refl) as Hl. split; [done|]. pose proof (tx_value_ok tx Hw) as Hv.
    split; [unfold tx_GetRlp; by rewrite (EncodeToBytes_ok _ _ Hv E) by lia|].
    assert (bytes_ok b) as Hb by (apply (rlp_spec_ok _ _ Hv E); lia). split; [|by split].
    unfold tx_value in E. cbn [rlp_spec] in E. apply fmap_ok in E as (p & _ & <-). unfold rlp_list, rlp_head. case_match; discriminate.
  - exfalso. cbn in E. unfold rlp_nat in E. rewrite !(proj2 (Z.ltb_ge _ _)) in E by done. destruct (Recipient (tx_data tx)); discriminate E.
Qed.

Lemma tx_data_eta d1 d2 :
  signed_fields d1 ++ [VBigIntPtr (Some (V d1)); VBigIntPtr (Some (R d1)); VBigIntPtr (Some (S_ d1))]
  = signed_fields d2 ++ [VBigIntPtr (Some (V d2)); VBigIntPtr (Some (R d2)); VBigIntPtr (Some (S_ d2))] → d1 = d2.
Proof.
  destruct d1 as [n1 p1 l1 r1 a1 y1 v1 x1 s1], d2 as [n2 p2 l2 r2 a2 y2 v2 x2 s2]. cbn. intros [= -> -> -> Hr -> -> -> -> ->].
  f_equal. destruct r1, r2; cbn in Hr; congruence.
Qed.

Lemma tx_GetRlp_inj tx1 tx2 : tx_wf tx1 → tx_wf tx2 → tx_GetRlp tx1 = tx_GetRlp tx2 → tx_data tx1 = tx_data tx2.
Proof.
  intros H1 H2 E. destruct (spec_tx tx1 H1) as (b & E1 & G1 & _ & _ & Hl), (spec_tx tx2 H2) as (b2 & E2 & G2 & _).
  rewrite G1, G2 in E. subst b2. assert (tx_value tx1 = tx_value tx2) as Ev.
  { apply (typed_inj tx_type _ _ b); [apply tx_type_ok|by apply tx_has_type|by apply tx_has_type|by apply tx_value_ok|lia|done|done]. }
  apply tx_data_eta. exact (f_equal (λ v, match v with VPtr _ (Some (VStruct l)) => l | _ => [] end) Ev).
Qed.

(** The fields of a header have the sizes of their types. *)
Record hdr_wf (h : Header) : Prop := {
  hw_hashes : Forall (λ x, length x = 32%nat ∧ bytes_ok x)
    [h_ParentHash h; h_UncleHash h; h_Root h; h_TxHash h; h_ReceiptHash h; h_MixDigest h];
  hw_coinbase : length (h_Coinbase h) = 20%nat ∧ bytes_ok (h_Coinbase h);
  hw_bloom : length (h_Bloom h) = 256%nat ∧ bytes_ok (h_Bloom h);
  hw_nonce : length (h_Nonce h) = 8%nat ∧ bytes_ok (h_Nonce h);
  hw_big : 0 ≤ h_Difficulty h ∧ 0 ≤ h_Number h;
  hw_small : is_u64 (h_SmokeLimit h) ∧ is_u64 (h_SmokeUsed h) ∧ is_u64 (h_Time h);
  hw_extra : bytes_ok (h_Extra h)
}.

Definition header_type : rtype :=
  TPtr (TStruct [TByteArray 32; TByteArray 32; TByteArray 20; TByteArray 32; TByteArray 32; TByteArray 32; TByteArray 256;
    TBigInt; TBigInt; TUint 64; TUint 64; TUint 64; TByteSlice; TByteArray 32; TByteArray 8] None).

Lemma header_type_ok : type_ok header_type.
Proof. repeat constructor; done || set_solver. Qed.

Lemma header_has_type h : hdr_wf h → has_type header_type (header_value h) ∧ value_ok (header_value h).
Proof.
  intros []. rewrite !Forall_cons in hw_hashes0. destruct hw_hashes0 as ([? ?] & [? ?] & [? ?] & [? ?] & [? ?] & [? ?] & _).
  destruct hw_coinbase0, hw_bloom0, hw_nonce0, hw_big0, hw_small0 as (? & ? & ?).
  unfold header_value, header_fields. cbn [app]. split.
  - apply (HT_Ptr (TStruct _ None)). constructor. do 15 (constructor; [by constructor|]). constructor.
  - cbn [value_ok all_values]. repeat (split; [done|]). done.
Qed.

Lemma header_value_inj h1 h2 : header_value h1 = header_value h2 → h1 = h2.
Proof. destruct h1, h2. cbn. by intros [= -> -> -> -> -> -> -> -> -> -> -> -> -> -> ->]. Qed.

(** The encoding of a list of uncles. *)
Definition uncles_rlp (uncles : list Header) : bytes := encode_tmp (VSlice false (map header_value uncles)).

Lemma CalcUncleHash_rlp `{Crypto} uncles : CalcUncleHash uncles = Precompiles.Keccak256 (uncles_rlp uncles).
Proof. by destruct uncles. Qed.

(** The headers can be encoded, in less than 2^64 bytes. *)
Definition uncles_fit (uncles : list Header) : Prop :=
  Forall hdr_wf uncles ∧ ∃ b, rlp_spec (VSlice false (map header_value uncles)) = Ok b ∧ len b < 2 ^ 64.

Lemma uncles_value uncles : uncles_fit uncles →
  has_type (TSlice header_type) (VSlice false (map header_value uncles)) ∧ value_ok (VSlice false (map header_value uncles)).
Proof.
  intros [Hw _]. split.
  - constructor. apply Forall_map. eapply Forall_impl; [exact Hw|]. intros h Hh. by apply header_has_type.
  - cbn [value_ok]. apply all_values_Forall, Forall_map. eapply Forall_impl; [exact Hw|]. intros h Hh. by apply header_has_type.
Qed.

Lemma uncles_rlp_inj u1 u2 : uncles_fit u1 → uncles_fit u2 → uncles_rlp u1 = uncles_rlp u2 → u1 = u2.
Proof.
  intros H1 H2 E. destruct (uncles_value u1 H1) as [T1 V1], (uncles_value u2 H2) as [T2 V2].
  destruct H1 as [_ (b1 & E1 & L1)], H2 as [_ (b2 & E2 & L2)].
  unfold uncles_rlp in E. rewrite (encode_tmp_ok _ _ V1 E1 L1), (encode_tmp_ok _ _ V2 E2 L2) in E. subst b2.
  assert (VSlice false (map header_value u1) = VSlice false (map header_value u2)) as Ev.
  { eapply (typed_inj (TSlice header_type)); [constructor; apply header_type_ok|done..]. }
  assert (map header_value u1 = map header_value u2) as Em by (by injection Ev).
  rewrite <- (map_id u1), <- (map_id u2). apply (map_transfer header_value (λ h, h) (λ _, True)); [by apply Forall_true..| |exact Em].
  intros x y _ _. apply header_value_inj.
Qed.

Lemma ValidateBody_hashes `{Crypto} {E : Type} (known has : Hash → Z → bool) (uncles : Block → option E) b :
  ValidateBody known has uncles b = Ok None →
  CalcUncleHash (b_Uncles b) = h_UncleHash (b_Header b)
  ∧ DeriveSha Precompiles.Keccak256 (map tx_GetRlp (Transactions b)) = Ok (h_TxHash (b_Header b)).
Proof.
  unfold ValidateBody. case_match; [done|]. case_match; [done|]. case_bool_decide as Hu; [|done]. cbn [negb].
  destruct (DeriveSha _ _) as [h|]; [|done]. cbn [mbind result_bind]. case_bool_decide as Ht; [|done]. by rewrite Ht.
Qed.

Lemma txs_fit txs : Forall tx_wf txs → Forall item_fits (map tx_GetRlp txs).
Proof.
  intros Hw. apply Forall_map. eapply Forall_impl; [exact Hw|]. intros tx Htx. by destruct (spec_tx tx Htx) as (b & _ & -> & ?).
Qed.

Lemma tx_list_inj l1 l2 :
  Forall tx_wf l1 → Forall tx_wf l2 → map tx_GetRlp l1 = map tx_GetRlp l2 → map tx_data l1 = map tx_data l2.
Proof.
  intros H1 H2. apply (map_transfer tx_GetRlp tx_data tx_wf); [done..|]. apply tx_GetRlp_inj.
Qed.

(** ** Properties *)

(** The parts of a body that its header is to fix. *)
Definition body_wf (b : Block) : Prop :=
  Forall tx_wf (Transactions b) ∧ len (Transactions b) < 2 ^ 62 ∧ uncles_fit (b_Uncles b).

(** C15: a header fixes the body of its block.  When two blocks with the same
    header pass [ValidateBody], and neither the nodes of the two tries of
    transactions nor the two lists of uncles collide under Keccak, the blocks
    have the same transactions in the same order, and the same uncles. *)
Theorem ValidateBody_binds `{Crypto} {E : Type} (HasBlockAndState HasBlock : Hash → Z → bool)
    (VerifyUncles : Block → option E) (b1 b2 : Block)
    (Hl : ∀ b, length (Precompiles.Keccak256 b) = 32%nat) (Hb : ∀ b, bytes_ok (Precompiles.Keccak256 b))
    (Hh : b_Header b1 = b_Header b2) (Hw1 : body_wf b1) (Hw2 : body_wf b2)
    (Htx : no_collision Precompiles.Keccak256 (indexed (map tx_GetRlp (Transactions b1))) (indexed (map tx_GetRlp (Transactions b2))))
    (Hun : Precompiles.Keccak256 (uncles_rlp (b_Uncles b1)) = Precompiles.Keccak256 (uncles_rlp (b_Uncles b2)) →
           uncles_rlp (b_Uncles b1) = uncles_rlp (b_Uncles b2))
    (Hv1 : ValidateBody HasBlockAndState HasBlock VerifyUncles b1 = Ok None)
    (Hv2 : ValidateBody HasBlockAndState HasBlock VerifyUncles b2 = Ok None) :
  map tx_data (Transactions b1) = map tx_data (Transactions b2) ∧ b_Uncles b1 = b_Uncles b2.
Proof.
  destruct (ValidateBody_hashes _ _ _ _ Hv1) as [U1 T1], (ValidateBody_hashes _ _ _ _ Hv2) as [U2 T2].
  rewrite <- Hh in U2, T2. destruct Hw1 as (W1 & N1 & F1), Hw2 as (W2 & N2 & F2). split.
  - apply tx_list_inj; [done..|]. apply (DeriveSha_binds Precompiles.Keccak256 _ _ (h_TxHash (b_Header b1)) Hl Hb);
      [by apply txs_fit|by apply txs_fit|by rewrite length_map|by rewrite length_map|done|done|done].
  - apply uncles_rlp_inj; [done..|]. apply Hun. rewrite <- !CalcUncleHash_rlp. congruence.
Qed.

(** The limit that a node chooses for its next block is one that
    [verifyHeader] accepts: whatever floor and ceiling the miner sets (the
    ceiling at least 5000), the limit differs from that of the parent by less
    than a 1024th, is at least 5000 and below 2{^63}, provided that the limit
    of the parent is at least 7168.  Below that it may grow too fast: after a
    full block of limit 5000 the next one would have 5004, a step that is
    refused. *)
Theorem CalcSmokeLimit_accepted (parent : Header) (smokeFloor smokeCeil : Z)
    (HL : 7168 ≤ h_SmokeLimit parent < 2 ^ 62) (HU : 0 ≤ h_SmokeUsed parent ≤ h_SmokeLimit parent)
    (Hc : MinSmokeLimit ≤ smokeCeil) (Hfc : smokeFloor ≤ smokeCeil) :
  let limit := CalcSmokeLimit parent smokeFloor smokeCeil in
  Z.abs (h_SmokeLimit parent - limit) < h_SmokeLimit parent / SmokeLimitBoundDivisor ∧ MinSmokeLimit ≤ limit < 2 ^ 63.
Proof. by apply CalcSmokeLimit_in_range. Qed.
