(* ===== verification/Ethash.v ===== *)
(** * The proof-of-work engine (src/consensus/ethash)

    Difficulty (consensus.go, and difficulty.go over 256-bit words), the
    verification of headers and uncles, and the rewards of a block.  The
    database of the chain, the clock and the two ways to compute the
    proof-of-work hash are parameters; [big.Int.Div] by a positive number
    rounds down. *)
From S2P Require Import Prelude RlpEncode RlpRaw RlpDecode AccessList StateDB StateRevert StateCommit ChainConfig Params VmBase VmMachine Precompiles VmSmoke VmOps VmTables Evm StateTransition Transaction Receipts BlockHeader.
Local Open Scope Z_scope.

(** ** Difficulty over big integers *)

Definition expDiffPeriod : Z := 100000.

Section difficulty.
Context `{Crypto}.

Definition makeDifficultyCalculator (bombDelay time : Z) (parent : Header) : Z :=
  let bombDelayFromParent := bombDelay - 1 in
  let x := (time - h_Time parent) / 9 in
  let x := if bool_decide (h_UncleHash parent = EmptyUncleHash) then 1 - x else 2 - x in
  let x := if x <? -99 then -99 else x in
  let y := h_Difficulty parent / DifficultyBoundDivisor in
  let x := h_Difficulty parent + y * x in
  let x := if x <? MinimumDifficulty then MinimumDifficulty else x in
  let fakeBlockNumber := if bombDelayFromParent <=? h_Number parent then h_Number parent - bombDelayFromParent else 0 in
  let periodCount := fakeBlockNumber / expDiffPeriod in
  if 1 <? periodCount then x + 2 ^ (periodCount - 2) else x.

Definition calcDifficultyEip2384 : Z → Header → Z := makeDifficultyCalculator 9000000.
Definition calcDifficultyConstantinople : Z → Header → Z := makeDifficultyCalculator 5000000.
Definition calcDifficultyByzantium : Z → Header → Z := makeDifficultyCalculator 3000000.

Definition calcDifficultyHomestead (time : Z) (parent : Header) : Z :=
  let x := 1 - (time - h_Time parent) / 10 in
  let x := if x <? -99 then -99 else x in
  let y := h_Difficulty parent / DifficultyBoundDivisor in
  let x := h_Difficulty parent + y * x in
  let x := if x <? MinimumDifficulty then MinimumDifficulty else x in
  let periodCount := (h_Number parent + 1) / expDiffPeriod in
  if 1 <? periodCount then x + 2 ^ (periodCount - 2) else x.

Definition calcDifficultyFrontier (time : Z) (parent : Header) : Z :=
  let adjust := h_Difficulty parent / DifficultyBoundDivisor in
  let diff := if time - h_Time parent <? DurationLimit then h_Difficulty parent + adjust
              else h_Difficulty parent - adjust in
  let diff := if diff <? MinimumDifficulty then MinimumDifficulty else diff in
  let periodCount := (h_Number parent + 1) / expDiffPeriod in
  if 1 <? periodCount then Z.max (diff + 2 ^ (periodCount - 2)) MinimumDifficulty else diff.

Definition CalcDifficulty (config : ChainConfig) (time : Z) (parent : Header) : Z :=
  let next := Some (h_Number parent + 1) in
  if IsMuirGlacier config next then calcDifficultyEip2384 time parent
  else if IsConstantinople config next then calcDifficultyConstantinople time parent
  else if IsByzantium config next then calcDifficultyByzantium time parent
  else if IsHomestead config next then calcDifficultyHomestead time parent
  else calcDifficultyFrontier time parent.

(** ** Difficulty over 256-bit words (difficulty.go) *)

Context `{Uint256}.

Definition frontierDurationLimit : Z := 13.
Definition minimumDifficulty : Z := 131072.
Definition expDiffPeriodUint : Z := 100000.
Definition difficultyBoundDivisor : Z := 11.

Definition CalcDifficultyFrontierU256 (time : Z) (parent : Header) : Z :=
  let pDiff := u_FromBig (h_Difficulty parent) in
  let adjust := u_Rsh pDiff difficultyBoundDivisor in
  let pDiff := if u64 (time - h_Time parent) <? frontierDurationLimit then u_Add pDiff adjust else u_Sub pDiff adjust in
  let pDiff := if u_LtUint64 pDiff minimumDifficulty then u_SetUint64 minimumDifficulty else pDiff in
  let periodCount := u64 (u64 (h_Number parent) + 1) / expDiffPeriodUint in
  u_ToBig (if 1 <? periodCount then u_Add pDiff (u_Lsh u_one (periodCount - 2)) else pDiff).

Definition CalcDifficultyHomesteadU256 (time : Z) (parent : Header) : Z :=
  let pDiff := u_FromBig (h_Difficulty parent) in
  let adjust := u_Rsh pDiff difficultyBoundDivisor in
  let x := u64 (time - h_Time parent) / 10 in
  let '(x, neg) := if x =? 0 then (1, false) else if 100 <=? x then (99, true) else (x - 1, true) in
  let adjust := u_Mul adjust (u_SetUint64 x) in
  let pDiff := if neg then u_Sub pDiff adjust else u_Add pDiff adjust in
  let pDiff := if u_LtUint64 pDiff minimumDifficulty then u_SetUint64 minimumDifficulty else pDiff in
  let periodCount := u64 (1 + u64 (h_Number parent)) / expDiffPeriodUint in
  u_ToBig (if 1 <? periodCount then u_Add pDiff (u_Lsh u_one (periodCount - 2)) else pDiff).

Definition MakeDifficultyCalculatorU256 (bombDelay time : Z) (parent : Header) : Z :=
  let bombDelayFromParent := u64 (u64 bombDelay - 1) in
  let x := u64 (time - h_Time parent) / 9 in
  let c := if bool_decide (h_UncleHash parent = EmptyUncleHash) then 1 else 2 in
  let xNeg := c <=? x in
  let x := if xNeg then x - c else c - x in
  let x := if 99 <? x then 99 else x in
  let pDiff := u_FromBig (h_Difficulty parent) in
  let z := u_Mul (u_Rsh pDiff difficultyBoundDivisor) (u_SetUint64 x) in
  let y := if xNeg then u_Sub pDiff z else u_Add pDiff z in
  let y := if u_LtUint64 y minimumDifficulty then u_SetUint64 minimumDifficulty else y in
  let pNum := u64 (h_Number parent) in
  u_ToBig
    (if bombDelayFromParent <=? pNum then
       let fakeBlockNumber := pNum - bombDelayFromParent in
       if 2 * expDiffPeriodUint <=? fakeBlockNumber
       then u_Add (u_Lsh u_one (fakeBlockNumber / expDiffPeriodUint - 2)) y else y
     else y).
End difficulty.

(** ** Verification of headers *)

Inductive Mode := ModeNormal | ModeShared | ModeTest | ModeFake | ModeFullFake.
#[export] Instance Mode_eq_dec : EqDecision Mode.
Proof. solve_decision. Defined.

(** The engine: how it works, the block it fails when it fakes, and the engine
    it shares its work with. *)
Inductive Engine := MkEngine (PowMode : Mode) (fakeFail : Z) (shared : option Engine).
Definition PowMode (e : Engine) : Mode := let '(MkEngine m _ _) := e in m.

(** Mix digest and result of a seal hash and a nonce, at a block number: over
    the dataset once it is generated, or over a cache (of the small size of
    the test mode, or not). *)
Class Hashimoto := {
  hashimoto_dataset : Z → option (Hash → Z → bytes * bytes);
  hashimoto_cache : bool → Z → Hash → Z → bytes * bytes
}.

Inductive header_error :=
| ErrExtraTooLong | ErrFutureBlock | errOlderBlockTime | ErrWrongDifficulty (have want : Z)
| ErrSmokeLimitCap | ErrSmokeUsed | ErrSmokeLimit (have parent limit : Z) | ErrInvalidNumber
| errInvalidDifficulty | errInvalidMixDigest | errInvalidPoW | ErrFork (e : fork_error)
| ErrUnknownAncestor | errTooManyUncles | errDuplicateUncle | errUncleIsAncestor | errDanglingUncle.

Definition allowedFutureBlockTime : Z := 15.
Definition maxUncles : Z := 2.

Section verify.
Context `{Crypto, Hashimoto}.
Variable config : ChainConfig.
(** The clock, in seconds. *)
Variable now : Z.

(** [Ethash.SealHash]. *)
Definition SealHash (h : Header) : Hash := rlpHash (interface_list (header_fields h ++ [VBytes (h_Extra h)])).

Fixpoint verifySeal (e : Engine) (header : Header) (fulldag : bool) : option header_error :=
  match e with
  | MkEngine mode fakeFail shared =>
      if bool_decide (mode = ModeFake) || bool_decide (mode = ModeFullFake) then
        if fakeFail =? u64 (h_Number header) then Some errInvalidPoW else None
      else match shared with
      | Some e' => verifySeal e' header fulldag
      | None =>
          if h_Difficulty header <=? 0 then Some errInvalidDifficulty
          else
            let number := u64 (h_Number header) in
            let light := hashimoto_cache (bool_decide (mode = ModeTest)) number in
            let f := if fulldag then default light (hashimoto_dataset number) else light in
            let '(digest, res) := f (SealHash header) (nonce_Uint64 (h_Nonce header)) in
            if negb (bool_decide (h_MixDigest header = digest)) then Some errInvalidMixDigest
            else if 2 ^ 256 / h_Difficulty header <? be_decode res then Some errInvalidPoW
            else None
      end
  end.

Definition VerifySeal (e : Engine) (header : Header) : option header_error := verifySeal e header false.

Definition or_else (a b : option header_error) : option header_error := match a with Some e => Some e | None => b end.

Definition verifyHeader (e : Engine) (header parent : Header) (uncle seal : bool) : option header_error :=
  if MaximumExtraDataSize <? u64 (len (h_Extra header)) then Some ErrExtraTooLong
  else if negb uncle && (u64 (now + allowedFutureBlockTime) <? h_Time header) then Some ErrFutureBlock
  else if h_Time header <=? h_Time parent then Some errOlderBlockTime
  else
    let expected := CalcDifficulty config (h_Time header) parent in
    if negb (expected =? h_Difficulty header) then Some (ErrWrongDifficulty (h_Difficulty header) expected)
    else if 0x7fffffffffffffff <? h_SmokeLimit header then Some ErrSmokeLimitCap
    else if h_SmokeLimit header <? h_SmokeUsed header then Some ErrSmokeUsed
    else
      let diff := i64 (i64 (h_SmokeLimit parent) - i64 (h_SmokeLimit header)) in
      let diff := if diff <? 0 then i64 (diff * -1) else diff in
      let limit := h_SmokeLimit parent / SmokeLimitBoundDivisor in
      if (limit <=? u64 diff) || (h_SmokeLimit header <? MinSmokeLimit)
      then Some (ErrSmokeLimit (h_SmokeLimit header) (h_SmokeLimit parent) limit)
      else if negb (h_Number header - h_Number parent =? 1) then Some ErrInvalidNumber
      else
        or_else (if seal then VerifySeal e header else None)
          (or_else (ErrFork <$> VerifyDAOHeaderExtraData config header)
             (ErrFork <$> VerifyForkHashes config header uncle)).

(** The chain of the node: [GetHeader] and [GetBlock] by hash and number. *)
Variable GetHeader : Hash → Z → option Header.
Variable GetBlock : Hash → Z → option Block.

Definition VerifyHeader (e : Engine) (header : Header) (seal : bool) : option header_error :=
  if bool_decide (PowMode e = ModeFullFake) then None
  else
    let number := u64 (h_Number header) in
    match GetHeader (Header_Hash header) number with
    | Some _ => None
    | None =>
        match GetHeader (h_ParentHash header) (u64 (number - 1)) with
        | None => Some ErrUnknownAncestor
        | Some parent => verifyHeader e header parent false seal
        end
    end.

(** The work on the header at an index of a batch. *)
Definition verifyHeaderWorker (e : Engine) (headers : list Header) (seals : list bool) (index : nat) : option header_error :=
  match headers !! index with
  | None => None
  | Some header =>
      let parent :=
        match index with
        | O => GetHeader (h_ParentHash header) (u64 (u64 (h_Number header) - 1))
        | S i =>
            prev ← headers !! i;
            if bool_decide (Header_Hash prev = h_ParentHash header) then Some prev else None
        end in
      match parent with
      | None => Some ErrUnknownAncestor
      | Some parent =>
          match GetHeader (Header_Hash header) (u64 (h_Number header)) with
          | Some _ => None
          | None => verifyHeader e header parent false (default false (seals !! index))
          end
      end
  end.

(** The ancestors of up to [k] generations and the hashes of their uncles. *)
Fixpoint gather_ancestors (k : nat) (parent : Hash) (number : Z) (acc : gmap Hash Header * gset Hash)
    : gmap Hash Header * gset Hash :=
  match k with
  | O => acc
  | S k =>
      match GetBlock parent number with
      | None => acc
      | Some ancestor =>
          gather_ancestors k (h_ParentHash (b_Header ancestor)) (u64 (number - 1))
            (<[Block_Hash ancestor := b_Header ancestor]> acc.1,
             list_to_set (map Header_Hash (b_Uncles ancestor)) ∪ acc.2)
      end
  end.

(** The loop over the uncles; [seen] are the hashes that are taken. *)
Fixpoint check_uncles (e : Engine) (block : Block) (ancestors : gmap Hash Header) (seen : gset Hash)
    (uncles : list Header) : option header_error :=
  match uncles with
  | [] => None
  | uncle :: uncles =>
      let hash := Header_Hash uncle in
      if bool_decide (hash ∈ seen) then Some errDuplicateUncle
      else match ancestors !! hash with
      | Some _ => Some errUncleIsAncestor
      | None =>
          match ancestors !! h_ParentHash uncle with
          | None => Some errDanglingUncle
          | Some parent =>
              if bool_decide (h_ParentHash uncle = h_ParentHash (b_Header block)) then Some errDanglingUncle
              else or_else (verifyHeader e uncle parent true true)
                     (check_uncles e block ancestors ({[hash]} ∪ seen) uncles)
          end
      end
  end.

Definition VerifyUncles (e : Engine) (block : Block) : option header_error :=
  if bool_decide (PowMode e = ModeFullFake) then None
  else if maxUncles <? len (b_Uncles block) then Some errTooManyUncles
  else match b_Uncles block with
  | [] => None
  | _ =>
      let '(ancestors, seen) :=
        gather_ancestors 7 (h_ParentHash (b_Header block)) (u64 (u64 (h_Number (b_Header block)) - 1)) (∅, ∅) in
      check_uncles e block (<[Block_Hash block := b_Header block]> ancestors) ({[Block_Hash block]} ∪ seen) (b_Uncles block)
  end.
End verify.

(** ** Rewards *)

Definition SativaBlockReward : Z := 9000000000000000000.
Definition slowBlockReward : Z := 3000000000000000000.
Definition SlowStart : Z := 1000.
Definition rewardBlockDivisor : Z := 100000.
Definition rewardBlockFlat : Z := 1000000.
Definition rewardDistMinerRuderalis : Z := 87.
Definition rewardDistMinerIndica : Z := 80.
Definition rewardDistCannasseurBlock : Z := 1111111.
Definition rewardDistFollower : Z := 7.
Definition rewardDistVet : Z := 13.
Definition indicaForkBlock : Z := 1111111.
Definition sativaForkBlock : Z := 2102400.
Definition sativaRewardDistFollower : Z := 15.
Definition sativaRewardDistVet : Z := 10.
Definition sativaRewardDistMiner : Z := 75.

Section rewards.
Context `{B : Backend, CR : Crypto, MapRange}.

(** The reward of the miner before uncles and distribution. *)
Definition initial_reward (number : Z) : Z :=
  let headerRew := number / rewardBlockDivisor in
  if number <=? SlowStart then slowBlockReward
  else if rewardBlockFlat <? number then SativaBlockReward
  else 9000000000000000000 - headerRew * slowBlockReward.

(** The share [percent] of an amount. *)
Definition share (r percent : Z) : Z := r * percent / 100.

(** What an era pays out for an amount, to a miner, to the veterans' fund and
    to the followers, in the order of the calls. *)
Definition pay_sativa_uncle (vet follower miner : Address) (r : Z) (s : StateDB.StateDB) : StateDB.StateDB :=
  StateDB.AddBalance follower (share r sativaRewardDistFollower)
    (StateDB.AddBalance vet (share r sativaRewardDistVet) (StateDB.AddBalance miner (share r sativaRewardDistMiner) s)).
Definition pay_sativa (vet follower miner : Address) (r : Z) (s : StateDB.StateDB) : StateDB.StateDB :=
  StateDB.AddBalance miner (share r sativaRewardDistMiner)
    (StateDB.AddBalance follower (share r sativaRewardDistFollower) (StateDB.AddBalance vet (share r sativaRewardDistVet) s)).
Definition pay_indica_uncle (vet follower miner : Address) (r : Z) (s : StateDB.StateDB) : StateDB.StateDB :=
  let contractReward := share r (rewardDistFollower + rewardDistVet) in
  StateDB.AddBalance follower (contractReward / 2)
    (StateDB.AddBalance vet (contractReward / 2) (StateDB.AddBalance miner (share r rewardDistMinerIndica) s)).
Definition pay_indica (number : Z) (vet follower miner : Address) (r : Z) (s : StateDB.StateDB) : StateDB.StateDB :=
  let contractReward := share r (rewardDistFollower + rewardDistVet) in
  let s := StateDB.AddBalance follower (contractReward / 2) (StateDB.AddBalance vet (contractReward / 2) s) in
  if indicaForkBlock <? number then StateDB.AddBalance miner (share r rewardDistMinerIndica) s else s.
Definition pay_ruderalis_uncle (vet follower miner : Address) (r : Z) (s : StateDB.StateDB) : StateDB.StateDB :=
  StateDB.AddBalance vet (share r rewardDistVet) (StateDB.AddBalance miner (share r rewardDistMinerRuderalis) s).
Definition pay_ruderalis (vet follower miner : Address) (r : Z) (s : StateDB.StateDB) : StateDB.StateDB :=
  StateDB.AddBalance miner (share r rewardDistMinerRuderalis) (StateDB.AddBalance vet (share r rewardDistVet) s).

(** The loop over the uncles of a block: each is paid for, and adds a
    thirty-second of it to the reward of the miner. *)
Fixpoint reward_uncles (number : Z) (pay : Address → Z → StateDB.StateDB → StateDB.StateDB) (uncles : list Header) (reward : Z) (s : StateDB.StateDB)
    : Z * StateDB.StateDB :=
  match uncles with
  | [] => (reward, s)
  | uncle :: uncles =>
      let r := (h_Number uncle + 8 - number) * reward / 8 in
      reward_uncles number pay uncles (reward + reward / 32) (pay (h_Coinbase uncle) r s)
  end.

(** The last 20 bytes of a word of storage, as an address. *)
Definition reward_address (contract : Address) (slot : Z) (s : StateDB.StateDB) : Address * StateDB.StateDB :=
  let '(v, s) := StateDB.GetState contract (BytesToHash [slot]) s in
  (BytesToAddress (drop 12 v), s).

Definition AccumulateNewRewards (header : Header) (uncles : list Header) (genesisHeader : Header) (s : StateDB.StateDB) : StateDB.StateDB :=
  let contractAddress := CreateAddress (BytesToAddress (h_Extra genesisHeader)) 0 in
  let '(changeAtBlock, s) := StateDB.GetState contractAddress (BytesToHash [0]) s in
  let number := h_Number header in
  let '(vet, follower, s) :=
    if be_decode changeAtBlock <? number then
      let '(vet, s) := reward_address contractAddress 1 s in
      let '(follower, s) := reward_address contractAddress 2 s in (vet, follower, s)
    else
      let '(vet, s) := reward_address contractAddress 3 s in
      let '(follower, s) := reward_address contractAddress 4 s in (vet, follower, s) in
  let reward := initial_reward number in
  if rewardDistCannasseurBlock <? number then
    if sativaForkBlock <? number then
      let '(reward, s) := reward_uncles number (pay_sativa_uncle vet follower) uncles reward s in
      pay_sativa vet follower (h_Coinbase header) reward s
    else
      let '(reward, s) := reward_uncles number (pay_indica_uncle vet follower) uncles reward s in
      pay_indica number vet follower (h_Coinbase header) reward s
  else
    let '(reward, s) := reward_uncles number (pay_ruderalis_uncle vet follower) uncles reward s in
    pay_ruderalis vet follower (h_Coinbase header) reward s.

(** The state root of the block, or [None] when the state cannot be encoded
    ([updateStateObject] panics). *)
Definition Finalize (config : ChainConfig) (genesisHeader header : Header) (uncles : list Header) (s : StateDB.StateDB)
    : option (Hash * StateDB.StateDB) :=
  IntermediateRoot (IsEIP158 config (Some (h_Number header))) (AccumulateNewRewards header uncles genesisHeader s).
End rewards.
