(* ===== verification/Clique.v ===== *)
(** * The proof-of-authority engine (src/consensus/clique)

    Votes on the set of signers ([Snapshot], snapshot.go), the search for the
    snapshot of a block, and the verification of headers (clique.go).  The
    chain, the clock and the order in which Go ranges over maps are
    parameters.  The cache of recovered signers keeps results of [ecrecover]
    under the hash of the header, which covers all that [ecrecover] reads: it
    is left out. *)
From S2P Require Import Prelude RlpEncode RlpRaw RlpDecode AccessList StateDB StateRevert StateCommit ChainConfig Params VmBase VmMachine Precompiles Transaction Receipts BlockHeader.
From stdpp Require Import sorting.
Local Open Scope Z_scope.

(** ** Votes *)

Record CliqueConfig := MkCliqueConfig { Period : Z; Epoch : Z }.

Record Vote := MkVote {
  v_Signer : Address;
  v_Block : Z;
  v_Address : Address;
  v_Authorize : bool
}.

Record TallyEntry := MkTally { t_Authorize : bool; t_Votes : Z }.

Record Snapshot := MkSnapshot {
  s_config : CliqueConfig;
  s_Number : Z;
  s_Hash : Hash;
  Signers : gset Address;
  Recents : gmap Z Address;
  Votes : list Vote;
  Tally : gmap Address TallyEntry
}.

Definition set_Signers (x : gset Address) (s : Snapshot) : Snapshot :=
  MkSnapshot (s_config s) (s_Number s) (s_Hash s) x (Recents s) (Votes s) (Tally s).
Definition set_Recents (x : gmap Z Address) (s : Snapshot) : Snapshot :=
  MkSnapshot (s_config s) (s_Number s) (s_Hash s) (Signers s) x (Votes s) (Tally s).
Definition set_Votes (x : list Vote) (s : Snapshot) : Snapshot :=
  MkSnapshot (s_config s) (s_Number s) (s_Hash s) (Signers s) (Recents s) x (Tally s).
Definition set_Tally (x : gmap Address TallyEntry) (s : Snapshot) : Snapshot :=
  MkSnapshot (s_config s) (s_Number s) (s_Hash s) (Signers s) (Recents s) (Votes s) x.

Definition newSnapshot (config : CliqueConfig) (number : Z) (hash : Hash) (signers : list Address) : Snapshot :=
  MkSnapshot config number hash (list_to_set signers) ∅ [] ∅.

Definition validVote (address : Address) (authorize : bool) (s : Snapshot) : bool :=
  let signer := bool_decide (address ∈ Signers s) in
  (signer && negb authorize) || (negb signer && authorize).

Definition cast (address : Address) (authorize : bool) (s : Snapshot) : bool * Snapshot :=
  if negb (validVote address authorize s) then (false, s)
  else match Tally s !! address with
  | Some old => (true, set_Tally (<[address := MkTally (t_Authorize old) (t_Votes old + 1)]> (Tally s)) s)
  | None => (true, set_Tally (<[address := MkTally authorize 1]> (Tally s)) s)
  end.

Definition uncast (address : Address) (authorize : bool) (s : Snapshot) : bool * Snapshot :=
  match Tally s !! address with
  | None => (false, s)
  | Some tally =>
      if negb (eqb (t_Authorize tally) authorize) then (false, s)
      else if 1 <? t_Votes tally
      then (true, set_Tally (<[address := MkTally (t_Authorize tally) (t_Votes tally - 1)]> (Tally s)) s)
      else (true, set_Tally (delete address (Tally s)) s)
  end.

(** ** Applying headers *)

Inductive clique_error :=
| errUnknownBlock | errInvalidCheckpointBeneficiary | errInvalidVote | errInvalidCheckpointVote
| errMissingVanity | errMissingSignature | errExtraSigners | errInvalidCheckpointSigners
| errMismatchingCheckpointSigners | errInvalidMixDigest | errInvalidUncleHash | errInvalidDifficulty
| errWrongDifficulty | errInvalidTimestamp | errInvalidVotingChain | errUnauthorizedSigner | errRecentlySigned
| ErrRecovery | ErrFutureBlock | ErrUnknownAncestor | ErrFork (e : fork_error)
| PanicDivideByZero | PanicMakeSlice.

Definition extraVanity : nat := 32.
Definition extraSeal : nat := 65.
Definition nonceAuthVote : bytes := replicate 8 255.
Definition nonceDropVote : bytes := replicate 8 0.
Definition diffInTurn : Z := 2.
Definition diffNoTurn : Z := 1.

(** The first vote of a signer on an account is taken out of the list and of
    the tally. *)
Fixpoint discard_vote (signer address : Address) (votes : list Vote) : option (Vote * list Vote) :=
  match votes with
  | [] => None
  | vote :: votes =>
      if bool_decide (v_Signer vote = signer) && bool_decide (v_Address vote = address) then Some (vote, votes)
      else '(v, rest) ← discard_vote signer address votes; Some (v, vote :: rest)
  end.

(** All votes of a signer are taken out of the list and of the tally. *)
Fixpoint discard_signer (signer : Address) (votes : list Vote) (s : Snapshot) : list Vote * Snapshot :=
  match votes with
  | [] => ([], s)
  | vote :: votes =>
      if bool_decide (v_Signer vote = signer) then
        discard_signer signer votes (uncast (v_Address vote) (v_Authorize vote) s).2
      else let '(rest, s) := discard_signer signer votes s in (vote :: rest, s)
  end.

(** The number of signers is an [int], so that the conversion to [uint64] does
    not change the limit. *)
Definition vote_limit (s : Snapshot) : Z := Z.of_nat (size (Signers s)) / 2 + 1.
Definition shift_recents (number : Z) (s : Snapshot) : Snapshot :=
  if vote_limit s <=? number then set_Recents (delete (number - vote_limit s) (Recents s)) s else s.

Section clique.
Context `{Crypto, MapRange}.

(** [SealHash], [encodeSigHeader] and [ecrecover]. *)
Definition SealHash (h : Header) : Hash :=
  rlpHash (interface_list (header_fields h
    ++ [VBytes (take (length (h_Extra h) - extraSeal) (h_Extra h)); VByteArray false (h_MixDigest h);
        VByteArray false (h_Nonce h)])).

Definition ecrecover (header : Header) : result clique_error Address :=
  if (length (h_Extra header) <? extraSeal)%nat then Err errMissingSignature
  else match Ecrecover (SealHash header) (drop (length (h_Extra header) - extraSeal) (h_Extra header)) with
  | None => Err ErrRecovery
  | Some pubkey => Ok (drop 12 (Keccak256 (drop 1 pubkey)))
  end.

(** A vote that passed changes the set of signers. *)
Definition pass_vote (number : Z) (address : Address) (tally : TallyEntry) (s : Snapshot) : Snapshot :=
  let s :=
    if t_Authorize tally then set_Signers ({[address]} ∪ Signers s) s
    else
      let s := shift_recents number (set_Signers (Signers s ∖ {[address]}) s) in
      let '(votes, s) := discard_signer address (Votes s) s in
      set_Votes votes s in
  let s := set_Votes (filter (λ v, v_Address v ≠ address) (Votes s)) s in
  set_Tally (delete address (Tally s)) s.

(** The vote of a header is counted, and settled if it passed. *)
Definition cast_vote (signer : Address) (number : Z) (address : Address) (authorize : bool) (snap : Snapshot) : Snapshot :=
  let '(counted, snap) := cast address authorize snap in
  let snap := if counted then set_Votes (Votes snap ++ [MkVote signer number address authorize]) snap else snap in
  let tally := default (MkTally false 0) (Tally snap !! address) in
  if Z.of_nat (size (Signers snap)) / 2 <? t_Votes tally then pass_vote number address tally snap else snap.

(** One iteration of the loop of [apply]. *)
Definition apply_header (snap : Snapshot) (header : Header) : result clique_error Snapshot :=
  let number := u64 (h_Number header) in
  let snap := if number mod Epoch (s_config snap) =? 0 then set_Tally ∅ (set_Votes [] snap) else snap in
  let snap := shift_recents number snap in
  match ecrecover header with
  | Err e => Err e
  | Ok signer =>
      if negb (bool_decide (signer ∈ Signers snap)) then Err errUnauthorizedSigner
      else if bool_decide (map_Exists (λ _ recent, recent = signer) (Recents snap)) then Err errRecentlySigned
      else
        let snap := set_Recents (<[number := signer]> (Recents snap)) snap in
        let snap :=
          match discard_vote signer (h_Coinbase header) (Votes snap) with
          | Some (vote, votes) => set_Votes votes (uncast (v_Address vote) (v_Authorize vote) snap).2
          | None => snap
          end in
        if bool_decide (h_Nonce header = nonceAuthVote) then Ok (cast_vote signer number (h_Coinbase header) true snap)
        else if bool_decide (h_Nonce header = nonceDropVote) then Ok (cast_vote signer number (h_Coinbase header) false snap)
        else Err errInvalidVote
  end.

Fixpoint apply_headers (snap : Snapshot) (headers : list Header) : result clique_error Snapshot :=
  match headers with
  | [] => Ok snap
  | header :: headers =>
      match apply_header snap header with
      | Err e => Err e
      | Ok snap => apply_headers snap headers
      end
  end.

(** The numbers of the headers follow each other. *)
Fixpoint contiguous (headers : list Header) : bool :=
  match headers with
  | h1 :: ((h2 :: _) as rest) => (u64 (h_Number h2) =? u64 (u64 (h_Number h1) + 1)) && contiguous rest
  | _ => true
  end.

Definition apply (headers : list Header) (s : Snapshot) : result clique_error Snapshot :=
  match headers with
  | [] => Ok s
  | first :: _ =>
      if negb (contiguous headers) then Err errInvalidVotingChain
      else if negb (u64 (h_Number first) =? u64 (s_Number s + 1)) then Err errInvalidVotingChain
      else match apply_headers s headers with
      | Err e => Err e
      | Ok snap =>
          Ok (MkSnapshot (s_config snap) (u64 (s_Number snap + len headers))
                (default zero_hash (Header_Hash <$> last headers)) (Signers snap) (Recents snap) (Votes snap) (Tally snap))
      end
  end.

(** ** Turns *)

(** [bytes.Compare(a, b) <= 0]. *)
Fixpoint bytes_leb (a b : bytes) : bool :=
  match a, b with
  | [], _ => true
  | _ :: _, [] => false
  | x :: a, y :: b => if x <? y then true else if y <? x then false else bytes_leb a b
  end.

Definition signers (s : Snapshot) : list Address :=
  merge_sort (λ a b, Is_true (bytes_leb a b)) (range_set (Signers s)).

Fixpoint offset_of (signer : Address) (l : list Address) : Z :=
  match l with
  | [] => 0
  | a :: l => if bool_decide (a = signer) then 0 else 1 + offset_of signer l
  end.

(** [None] is the panic of a division by zero. *)
Definition inturn (number : Z) (signer : Address) (s : Snapshot) : option bool :=
  let l := signers s in
  if len l =? 0 then None else Some (number mod len l =? offset_of signer l).

Definition calcDifficulty (snap : Snapshot) (signer : Address) : option Z :=
  (λ t : bool, if t then diffInTurn else diffNoTurn) <$> inturn (u64 (s_Number snap + 1)) signer snap.
End clique.

(** ** The engine *)

Definition checkpointInterval : Z := 1024.
Definition FullImmutabilityThreshold : Z := 90000.

(** The snapshots in memory and on disk, by the hash of their block. *)
Record Clique := MkClique {
  c_recents : gmap Hash Snapshot;
  c_db : gmap Hash Snapshot
}.

(** The addresses in the extra data of a checkpoint. *)
Fixpoint chunks20 (n : nat) (b : bytes) : list Address :=
  match n with O => [] | S n => take 20 b :: chunks20 n (drop 20 b) end.
Definition checkpoint_signers (extra : bytes) : option (list Address) :=
  let n := Z.quot (len extra - Z.of_nat extraVanity - Z.of_nat extraSeal) 20 in
  if n <? 0 then None else Some (chunks20 (Z.to_nat n) (drop extraVanity extra)).

Section engine.
Context `{Crypto, MapRange}.
Variable chainConfig : ChainConfig.
Variable config : CliqueConfig.
(** The clock, in seconds. *)
Variable now : Z.
Variable GetHeader : Hash → Z → option Header.
Variable GetHeaderByNumber : Z → option Header.
(** What the cache of limited size keeps after an insertion. *)
Variable evict : gmap Hash Snapshot → gmap Hash Snapshot.

(** The loop of [snapshot]: a snapshot and the headers above it, oldest
    first. *)
Fixpoint find_snapshot (fuel : nat) (c : Clique) (number : Z) (hash : Hash) (parents headers : list Header)
    : outcome (result clique_error (Snapshot * list Header) * Clique) :=
  match fuel with
  | O => OutOfFuel
  | S fuel =>
      let go_back :=
        match rev parents with
        | header :: rest =>
            if negb (bool_decide (Header_Hash header = hash)) || negb (u64 (h_Number header) =? number)
            then Ret (Err ErrUnknownAncestor, c)
            else find_snapshot fuel c (u64 (number - 1)) (h_ParentHash header) (rev rest) (header :: headers)
        | [] =>
            match GetHeader hash number with
            | None => Ret (Err ErrUnknownAncestor, c)
            | Some header => find_snapshot fuel c (u64 (number - 1)) (h_ParentHash header) [] (header :: headers)
            end
        end in
      match c_recents c !! hash with
      | Some s => Ret (Ok (s, headers), c)
      | None =>
          match (if number mod checkpointInterval =? 0 then c_db c !! hash else None) with
          | Some s => Ret (Ok (s, headers), c)
          | None =>
              if (number =? 0) || ((number mod Epoch config =? 0)
                 && ((FullImmutabilityThreshold <? len headers)
                     || bool_decide (GetHeaderByNumber (u64 (number - 1)) = None))) then
                match GetHeaderByNumber number with
                | None => go_back
                | Some checkpoint =>
                    match checkpoint_signers (h_Extra checkpoint) with
                    | None => Ret (Err PanicMakeSlice, c)
                    | Some l =>
                        let snap := newSnapshot config number (Header_Hash checkpoint) l in
                        Ret (Ok (snap, headers), MkClique (c_recents c) (<[Header_Hash checkpoint := snap]> (c_db c)))
                    end
                end
              else go_back
          end
      end
  end.

Definition snapshot (fuel : nat) (c : Clique) (number : Z) (hash : Hash) (parents : list Header)
    : outcome (result clique_error Snapshot * Clique) :=
  '(r, c) ← find_snapshot fuel c number hash parents [];
  match r with
  | Err e => Ret (Err e, c)
  | Ok (snap, headers) =>
      match apply headers snap with
      | Err e => Ret (Err e, c)
      | Ok snap =>
          let recents := evict (<[s_Hash snap := snap]> (c_recents c)) in
          let db := if (s_Number snap mod checkpointInterval =? 0) && (0 <? len headers)
                    then <[s_Hash snap := snap]> (c_db c) else c_db c in
          Ret (Ok snap, MkClique recents db)
      end
  end.

Definition recently_signed (number : Z) (signer : Address) (snap : Snapshot) : bool :=
  bool_decide (map_Exists (λ seen recent, recent = signer ∧ u64 (number - vote_limit snap) < seen) (Recents snap)).

Definition verifySeal (fuel : nat) (c : Clique) (header : Header) (parents : list Header)
    : outcome (option clique_error * Clique) :=
  let number := u64 (h_Number header) in
  if number =? 0 then Ret (Some errUnknownBlock, c)
  else
    '(r, c) ← snapshot fuel c (u64 (number - 1)) (h_ParentHash header) parents;
    Ret (match r with
         | Err e => Some e
         | Ok snap =>
             match ecrecover header with
             | Err e => Some e
             | Ok signer =>
                 if negb (bool_decide (signer ∈ Signers snap)) then Some errUnauthorizedSigner
                 else if recently_signed number signer snap then Some errRecentlySigned
                 else match inturn number signer snap with
                 | None => Some PanicDivideByZero
                 | Some t =>
                     if t && negb (h_Difficulty header =? diffInTurn) then Some errWrongDifficulty
                     else if negb t && negb (h_Difficulty header =? diffNoTurn) then Some errWrongDifficulty
                     else None
                 end
             end
         end, c).

Definition verifyCascadingFields (fuel : nat) (c : Clique) (header : Header) (parents : list Header)
    : outcome (option clique_error * Clique) :=
  let number := u64 (h_Number header) in
  if number =? 0 then Ret (None, c)
  else
    let parent := match last parents with
                  | Some p => Some p
                  | None => GetHeader (h_ParentHash header) (u64 (number - 1))
                  end in
    match parent with
    | None => Ret (Some ErrUnknownAncestor, c)
    | Some parent =>
        if negb (u64 (h_Number parent) =? u64 (number - 1)) || negb (bool_decide (Header_Hash parent = h_ParentHash header))
        then Ret (Some ErrUnknownAncestor, c)
        else if h_Time header <? u64 (h_Time parent + Period config) then Ret (Some errInvalidTimestamp, c)
        else
          '(r, c) ← snapshot fuel c (u64 (number - 1)) (h_ParentHash header) parents;
          match r with
          | Err e => Ret (Some e, c)
          | Ok snap =>
              if (number mod Epoch config =? 0)
                 && negb (bool_decide (take (length (h_Extra header) - extraSeal - extraVanity) (drop extraVanity (h_Extra header))
                                       = concat (signers snap)))
              then Ret (Some errMismatchingCheckpointSigners, c)
              else verifySeal fuel c header parents
          end
    end.

Definition verifyHeader (fuel : nat) (c : Clique) (header : Header) (parents : list Header)
    : outcome (option clique_error * Clique) :=
  let number := u64 (h_Number header) in
  let checkpoint := number mod Epoch config =? 0 in
  let signersBytes := len (h_Extra header) - Z.of_nat extraVanity - Z.of_nat extraSeal in
  if u64 now <? h_Time header then Ret (Some ErrFutureBlock, c)
  else if checkpoint && negb (bool_decide (h_Coinbase header = zero_address)) then Ret (Some errInvalidCheckpointBeneficiary, c)
  else if negb (bool_decide (h_Nonce header = nonceAuthVote)) && negb (bool_decide (h_Nonce header = nonceDropVote))
  then Ret (Some errInvalidVote, c)
  else if checkpoint && negb (bool_decide (h_Nonce header = nonceDropVote)) then Ret (Some errInvalidCheckpointVote, c)
  else if (length (h_Extra header) <? extraVanity)%nat then Ret (Some errMissingVanity, c)
  else if (length (h_Extra header) <? extraVanity + extraSeal)%nat then Ret (Some errMissingSignature, c)
  else if negb checkpoint && negb (signersBytes =? 0) then Ret (Some errExtraSigners, c)
  else if checkpoint && negb (signersBytes mod 20 =? 0) then Ret (Some errInvalidCheckpointSigners, c)
  else if negb (bool_decide (h_MixDigest header = zero_hash)) then Ret (Some errInvalidMixDigest, c)
  else if negb (bool_decide (h_UncleHash header = CalcUncleHash [])) then Ret (Some errInvalidUncleHash, c)
  else if (0 <? number) && (negb (h_Difficulty header =? diffInTurn) && negb (h_Difficulty header =? diffNoTurn))
  then Ret (Some errInvalidDifficulty, c)
  else match VerifyForkHashes chainConfig header false with
  | Some e => Ret (Some (ErrFork e), c)
  | None => verifyCascadingFields fuel c header parents
  end.
End engine.
