(* ===== verification/Uint256Model.v ===== *)
(** * A model of the 256-bit integer library

    The operations of [Uint256] as functions on integers reduced modulo 2^256,
    and the proof of the laws: the laws that other files assume of
    github.com/holiman/uint256 are consistent, and executable. *)
From S2P Require Import Prelude Opcodes VmBase.
Local Open Scope Z_scope.

Definition on1 {A} (f : Z → A) (x : Z) : A := f (u256 x).
Definition on2 {A} (f : Z → Z → A) (x y : Z) : A := f (u256 x) (u256 y).
Definition on3 {A} (f : Z → Z → Z → A) (x y z : Z) : A := f (u256 x) (u256 y) (u256 z).

(** Exponentiation modulo 2^256 by squaring. *)
Fixpoint pow_mod (x : Z) (e : positive) : Z :=
  match e with
  | xH => u256 x
  | xO e => pow_mod (u256 (x * x)) e
  | xI e => u256 (x * pow_mod (u256 (x * x)) e)
  end.
Definition exp_mod (x y : Z) : Z := match y with Zpos e => pow_mod x e | _ => 1 end.

Definition uint256_model : Uint256 := {|
  Word := Z; u_val := u256;
  u_zero := 0; u_one := 1; u_allone := 2 ^ 256 - 1;
  u_Add := on2 (λ x y, u256 (x + y)); u_Sub := on2 (λ x y, u256 (x - y));
  u_Mul := on2 (λ x y, u256 (x * y));
  u_Div := on2 (λ x y, if y =? 0 then 0 else x / y);
  u_SDiv := on2 (λ x y, if y =? 0 then 0 else u256 (Z.quot (signed x) (signed y)));
  u_Mod := on2 (λ x y, if y =? 0 then 0 else x mod y);
  u_SMod := on2 (λ x y, if y =? 0 then 0 else u256 (Z.rem (signed x) (signed y)));
  u_Exp := on2 exp_mod;
  u_ExtendSign := on2 (λ x k, sign_extend k x);
  u_AddMod := on3 (λ x y m, (x + y) mod m);
  u_MulMod := on3 (λ x y m, if m =? 0 then 0 else (x * y) mod m);
  u_Not := on1 (λ x, 2 ^ 256 - 1 - x);
  u_And := on2 Z.land; u_Or := on2 Z.lor; u_Xor := on2 Z.lxor; u_Byte := on2 word_byte;
  u_Lsh x n := u256 (Z.shiftl (u256 x) n); u_Rsh x n := Z.shiftr (u256 x) n;
  u_SRsh x n := u256 (Z.shiftr (signed (u256 x)) n);
  u_Lt := on2 Z.ltb; u_Gt := on2 (λ x y, y <? x);
  u_Slt := on2 (λ x y, signed x <? signed y); u_Sgt := on2 (λ x y, signed y <? signed x);
  u_Eq := on2 Z.eqb;
  u_LtUint64 x n := u256 x <? n; u_GtUint64 x n := n <? u256 x;
  u_IsZero := on1 (λ x, x =? 0); u_Sign := on1 (λ x, Z.sgn (signed x));
  u_BitLen := on1 (λ x, if x =? 0 then 0 else Z.log2 x + 1);
  u_IsUint64 := on1 (λ x, x <? 2 ^ 64); u_Uint64 := on1 u64;
  u_Uint64WithOverflow := on1 (λ x, (u64 x, 2 ^ 64 <=? x));
  u_SetUint64 n := n;
  u_Bytes20 := on1 (be_fixed 20); u_Bytes32 := on1 (be_fixed 32); u_SetBytes b := be_decode b;
  u_FromBig := u256; u_ToBig := u256;
  u_WriteToSlice x dest := be_fixed 32 (u256 x) ++ drop 32 dest
|}.

Lemma u256_range x : 0 ≤ u256 x < 2 ^ 256.
Proof. apply Z.mod_pos_bound. lia. Qed.
Lemma u256_small x : 0 ≤ x < 2 ^ 256 → u256 x = x.
Proof. apply Z.mod_small. Qed.
Lemma u256_idem x : u256 (u256 x) = u256 x.
Proof. apply u256_small, u256_range. Qed.

Lemma pow_mod_spec e : ∀ x, pow_mod x e = u256 (x ^ Zpos e).
Proof.
  induction e as [e IH|e IH|]; intros x; cbn [pow_mod].
  - rewrite IH. unfold u256. rewrite Z.mod_pow_l, Z.mul_mod_idemp_r by lia. f_equal.
    rewrite Pos2Z.inj_xI, Z.pow_add_r, Z.pow_1_r, Z.pow_mul_r, Z.pow_2_r by lia. lia.
  - rewrite IH. unfold u256. rewrite Z.mod_pow_l. f_equal.
    by rewrite Pos2Z.inj_xO, Z.pow_mul_r, Z.pow_2_r by lia.
  - by rewrite Z.pow_1_r.
Qed.

Lemma exp_mod_spec x y : 0 ≤ y → exp_mod x y = u256 (x ^ y).
Proof. destruct y; cbn [exp_mod]; intros; [done| |lia]. apply pow_mod_spec. Qed.

(** A number below 2^256 has no bit from 256 on. *)
Lemma range_bits x : 0 ≤ x → (∀ n, 256 ≤ n → Z.testbit x n = false) → 0 ≤ x < 2 ^ 256.
Proof.
  intros Hx Hb. split; [done|]. destruct (Z.eq_dec x 0) as [->|]; [lia|].
  apply Z.log2_lt_pow2; [lia|]. destruct (Z.lt_ge_cases (Z.log2 x) 256) as [|Hl]; [done|].
  specialize (Hb _ Hl). rewrite Z.bit_log2 in Hb by lia. done.
Qed.
Lemma u256_high_bit x n : 256 ≤ n → Z.testbit (u256 x) n = false.
Proof. intros. unfold u256. by apply Z.mod_pow2_bits_high. Qed.

Lemma word_byte_range x i : 0 ≤ word_byte x i < 2 ^ 256.
Proof.
  unfold word_byte. case_if; [|lia].
  pose proof (Z.mod_pos_bound (x / 256 ^ (31 - i)) 256). lia.
Qed.

Lemma div_range x y : 0 ≤ x < 2 ^ 256 → 0 < y → 0 ≤ x / y < 2 ^ 256.
Proof.
  intros Hx Hy. split; [apply Z.div_pos; lia|].
  apply Z.div_lt_upper_bound; [lia|]. nia.
Qed.

Lemma mod_range x y : 0 < y < 2 ^ 256 → 0 ≤ x mod y < 2 ^ 256.
Proof. intros. pose proof (Z.mod_pos_bound x y). lia. Qed.

Lemma uint256_model_laws : @Uint256Laws uint256_model.
Proof.
  split; cbn; unfold on1, on2, on3; intros; rewrite ?u256_idem; try done; try lia;
    try (pose proof (u256_range x)); try (pose proof (u256_range y)); try (pose proof (u256_range m)).
  all: try (case_if; [done|]; rewrite ?u256_idem; try done; apply u256_small).
  all: try (first [apply div_range | apply mod_range]; lia).
  - apply u256_range.
  - rewrite exp_mod_spec, u256_idem by lia. done.
  - unfold sign_extend. case_if; apply u256_idem.
  - apply u256_small, mod_range. lia.
  - apply u256_small. lia.
  - apply u256_small, range_bits; [apply Z.land_nonneg; lia|]. intros n Hn.
    by rewrite Z.land_spec, u256_high_bit.
  - apply u256_small, range_bits; [apply Z.lor_nonneg; lia|]. intros n Hn.
    by rewrite Z.lor_spec, !u256_high_bit.
  - apply u256_small, range_bits; [apply Z.lxor_nonneg; lia|]. intros n Hn.
    by rewrite Z.lxor_spec, !u256_high_bit.
  - apply u256_small, word_byte_range.
  - rewrite Z.shiftr_div_pow2 by (unfold is_u64 in *; lia). apply u256_small, div_range; [done|].
    apply Z.pow_pos_nonneg; unfold is_u64 in *; lia.
  - apply u256_small. unfold is_u64 in *. lia.
  - apply u256_small. pose proof (be_decode_bound b). split; [tauto|].
    eapply Z.lt_le_trans; [by apply be_decode_bound|]. rewrite pow256 by lia. apply Z.pow_le_mono_r; lia.
Qed.
