(* ===== verification/VmLogic.v ===== *)
(** * Reasoning about machine computations

    How the virtual machine may change the state database ([evolves]: by the
    methods of its interface, with properly nested snapshots, and without
    writes in read-only mode), what the machine relies on in return
    ([StateLaws]), and weakest preconditions for the machine monad. *)
From S2P Require Import Prelude Opcodes Params ChainConfig VmBase VmMachine Precompiles VmSmoke VmOps.
Local Open Scope Z_scope.

Definition is_addr (a : Address) : Prop := length a = 20%nat.

Section logic.
Context `{Uint256} {SA : StateAccess}.

(** ** Steps of the state database *)

(** One method call; [ro] tells if it is allowed in read-only mode. *)
Inductive state_step (ro : bool) : State → State → Prop :=
| step_GetBalance a s : is_addr a → state_step ro s (GetBalance a s).2
| step_GetNonce a s : is_addr a → state_step ro s (GetNonce a s).2
| step_GetCodeHash a s : is_addr a → state_step ro s (GetCodeHash a s).2
| step_GetCode a s : is_addr a → state_step ro s (GetCode a s).2
| step_GetCodeSize a s : is_addr a → state_step ro s (GetCodeSize a s).2
| step_GetCommittedState a k s : is_addr a → state_step ro s (GetCommittedState a k s).2
| step_GetState a k s : is_addr a → state_step ro s (GetState a k s).2
| step_HasSuicided a s : is_addr a → state_step ro s (HasSuicided a s).2
| step_Exist a s : is_addr a → state_step ro s (Exist a s).2
| step_Empty a s : is_addr a → state_step ro s (Empty a s).2
| step_AddAddress a s : state_step ro s (AddAddressToAccessList a s)
| step_AddSlot a k s s' : AddSlotToAccessList a k s = Some s' → state_step ro s s'
| step_AddPreimage h p s : state_step ro s (AddPreimage h p s)
| step_Snapshot s : state_step ro s (Snapshot s).2
| step_touch_add a s : is_addr a → state_step ro s (AddBalance a 0 s)
| step_touch_sub a s : is_addr a → state_step ro s (SubBalance a 0 s)
| step_create_missing a s :
    is_addr a → (Exist a s).1 = false → state_step ro s (CreateAccount a (Exist a s).2)
| step_CreateAccount a s : ro = false → is_addr a → state_step ro s (CreateAccount a s)
| step_Transfer a b v s :
    ro = false → is_addr a → is_addr b → 0 ≤ v ≤ (GetBalance a s).1 →
    state_step ro s (AddBalance b v (SubBalance a v s))
| step_SetNonce a n s : ro = false → is_addr a → state_step ro s (SetNonce a n s)
| step_SetCode a c s : ro = false → is_addr a → len c < 2 ^ 63 → state_step ro s (SetCode a c s)
| step_SetState a k v s : ro = false → is_addr a → state_step ro s (SetState a k v s)
| step_Suicide a b s :
    ro = false → is_addr a → is_addr b →
    state_step ro s (Suicide a (AddBalance b (GetBalance a s).1 (GetBalance a s).2)).2
| step_AddRefund n s : ro = false → state_step ro s (AddRefund n s)
| step_SubRefund n s s' : ro = false → 0 ≤ n → SubRefund n s = Some s' → state_step ro s s'
| step_AddLog a t d b s : ro = false → state_step ro s (AddLog a t d b s).

(** The steps between the check of a balance and the transfer. *)
Inductive calm_step : State → State → Prop :=
| calm_GetBalance a s : is_addr a → calm_step s (GetBalance a s).2
| calm_GetNonce a s : is_addr a → calm_step s (GetNonce a s).2
| calm_GetCodeHash a s : is_addr a → calm_step s (GetCodeHash a s).2
| calm_Exist a s : is_addr a → calm_step s (Exist a s).2
| calm_AddAddress a s : calm_step s (AddAddressToAccessList a s)
| calm_Snapshot s : calm_step s (Snapshot s).2
| calm_CreateAccount a s : is_addr a → calm_step s (CreateAccount a s)
| calm_SetNonce a n s : is_addr a → calm_step s (SetNonce a n s).

(** Any number of steps, and calls that are undone. *)
Inductive evolves (ro : bool) : State → State → Prop :=
| ev_refl s : evolves ro s s
| ev_step s1 s2 s3 : evolves ro s1 s2 → state_step ro s2 s3 → evolves ro s1 s3
| ev_revert s1 s2 s3 s4 :
    evolves ro s1 s2 → evolves ro (Snapshot s2).2 s3 →
    RevertToSnapshot (Snapshot s2).1 s3 = Some s4 → evolves ro s1 s4.

Lemma state_step_rw ro s1 s2 : state_step ro s1 s2 → state_step false s1 s2.
Proof.
  destruct 1;
  [ by eapply step_GetBalance
  | by eapply step_GetNonce
  | by eapply step_GetCodeHash
  | by eapply step_GetCode
  | by eapply step_GetCodeSize
  | by eapply step_GetCommittedState
  | by eapply step_GetState
  | by eapply step_HasSuicided
  | by eapply step_Exist
  | by eapply step_Empty
  | by eapply step_AddAddress
  | by eapply step_AddSlot
  | by eapply step_AddPreimage
  | by eapply step_Snapshot
  | by eapply step_touch_add
  | by eapply step_touch_sub
  | by eapply step_create_missing
  | by eapply step_CreateAccount
  | by eapply step_Transfer
  | by eapply step_SetNonce
  | by eapply step_SetCode
  | by eapply step_SetState
  | by eapply step_Suicide
  | by eapply step_AddRefund
  | by eapply step_SubRefund
  | by eapply step_AddLog ].
Qed.
Lemma evolves_rw ro s1 s2 : evolves ro s1 s2 → evolves false s1 s2.
Proof. induction 1; [constructor|eapply ev_step; eauto using state_step_rw|by eapply ev_revert]. Qed.
Lemma evolves_trans ro s1 s2 s3 : evolves ro s1 s2 → evolves ro s2 s3 → evolves ro s1 s3.
Proof.
  intros H1 H2. revert H1. induction H2; intros H1; [done|by eapply ev_step; [apply IHevolves|]|].
  eapply ev_revert; [by apply IHevolves1|eassumption|done].
Qed.
Lemma evolves_1 ro s1 s2 : state_step ro s1 s2 → evolves ro s1 s2.
Proof. intros. eapply ev_step; [apply ev_refl|done]. Qed.

Lemma calm_state_step s s' : calm_step s s' → state_step false s s'.
Proof.
  destruct 1; [by apply step_GetBalance|by apply step_GetNonce|by apply step_GetCodeHash|by apply step_Exist
    |apply step_AddAddress|apply step_Snapshot|by apply step_CreateAccount|by apply step_SetNonce].
Qed.
End logic.

(** What the virtual machine relies on: [state_ok] holds of the states of a
    transaction, and a snapshot can be reverted to after any such evolution. *)
Class StateLaws {SA : StateAccess} := {
  state_ok : State → Prop;
  law_evolves ro s s' : state_ok s → evolves ro s s' → state_ok s';
  law_revert ro s s' : state_ok s → evolves ro (Snapshot s).2 s' →
    is_Some (RevertToSnapshot (Snapshot s).1 s');
  law_slot s a k : state_ok s → is_Some (SlotInAccessList a k s);
  law_add_slot s a k : state_ok s → is_Some (AddSlotToAccessList a k s);
  law_code s a : state_ok s → is_addr a → len (GetCode a s).1 < 2 ^ 63;
  law_calm s s' a : state_ok s → is_addr a → calm_step s s' → (GetBalance a s').1 = (GetBalance a s).1
}.

Lemma calm_balance `{StateLaws} s s' a :
  state_ok s → is_addr a → rtc calm_step s s' → (GetBalance a s').1 = (GetBalance a s).1.
Proof.
  intros Hs Ha. induction 1 as [|s1 s2 s3 H12 _ IH]; [done|]. rewrite IH; [by apply law_calm|].
  eapply (law_evolves false); [exact Hs|]. by apply evolves_1, calm_state_step.
Qed.

Section wp.
Context `{Uint256} {SA : StateAccess} (okp : panic → Prop).

(** ** Weakest preconditions

    The computation returns and its result satisfies [Q], or it panics in one
    of the ways that [okp] allows; it does not run out of fuel. *)
Definition owp {A} (x : outcome A) (Q : A → Prop) : Prop :=
  match x with Ret a => Q a | Panic p => okp p | OutOfFuel => False end.
Definition wp {A} (x : M A) (Q : A → machine → Prop) (m : machine) : Prop :=
  owp (x m) (λ '(a, m'), Q a m').

Lemma wp_elim {A} (x : M A) (Q : A → machine → Prop) m : wp x Q m → owp (x m) (λ y, Q y.1 y.2).
Proof. unfold wp. by destruct (x m) as [[a m']| |]. Qed.
Lemma owp_mono {A} (x : outcome A) (P Q : A → Prop) : (∀ a, P a → Q a) → owp x P → owp x Q.
Proof. destruct x; cbn; auto. Qed.
Lemma owp_and {A} (x : outcome A) (P Q : A → Prop) : owp x P → owp x Q → owp x (λ a, P a ∧ Q a).
Proof. destruct x; cbn; auto. Qed.
Lemma owp_bind {A B} (x : outcome A) (f : A → outcome B) Q :
  owp x (λ a, owp (f a) Q) → owp (x ≫= f) Q.
Proof. by destruct x. Qed.
Lemma wp_mono {A} (x : M A) (P Q : A → machine → Prop) m :
  (∀ a m', P a m' → Q a m') → wp x P m → wp x Q m.
Proof. intros HPQ. apply owp_mono. intros [a m']. apply HPQ. Qed.
Lemma wp_bind {A B} (x : M A) (f : A → M B) Q m :
  wp x (λ a m', wp (f a) Q m') m → wp (x ≫= f) Q m.
Proof. unfold wp, mbind, M_bind. by destruct (x m) as [[a m']|p|]. Qed.
Lemma wp_ret {A} (a : A) (Q : A → machine → Prop) m : Q a m → wp (mret a) Q m.
Proof. done. Qed.
Lemma wp_get {A} (f : machine → A) (Q : A → machine → Prop) m : Q (f m) m → wp (get f) Q m.
Proof. done. Qed.
Lemma wp_modify f (Q : unit → machine → Prop) m : Q tt (f m) → wp (modify f) Q m.
Proof. done. Qed.
Lemma wp_lift {A} (x : outcome A) (Q : A → machine → Prop) m :
  owp x (λ a, Q a m) → wp (lift x) Q m.
Proof. unfold wp, lift. by destruct x. Qed.
Lemma wp_pop x st (Q : Word → machine → Prop) m :
  stack m = x :: st → Q x (set_stack st m) → wp pop Q m.
Proof. intros Hs HQ. unfold wp, pop, mbind, M_bind, get. cbn. rewrite Hs. done. Qed.
Lemma wp_peek x st (Q : Word → machine → Prop) m : stack m = x :: st → Q x m → wp peek Q m.
Proof. intros Hs HQ. unfold wp, peek, mbind, M_bind, get, stack_peek, Back. cbn. rewrite Hs. done. Qed.
Lemma wp_poke x y st (Q : unit → machine → Prop) m :
  stack m = y :: st → Q tt (set_stack (x :: st) m) → wp (poke x) Q m.
Proof. intros Hs HQ. unfold wp, poke, mbind, M_bind, get. cbn. rewrite Hs. done. Qed.
Lemma wp_push x (Q : unit → machine → Prop) m :
  Q tt (set_stack (x :: stack m) m) → wp (push x) Q m.
Proof. done. Qed.
Lemma wp_back n x (Q : Word → machine → Prop) m : stack m !! n = Some x → Q x m → wp (back n) Q m.
Proof. intros Hs HQ. unfold wp, back, mbind, M_bind, get, Back. cbn. rewrite Hs. done. Qed.
Lemma wp_query {A} (f : State → A * State) (Q : A → machine → Prop) m :
  Q (f (StateDB (evm m))).1 (set_evm (set_StateDB (f (StateDB (evm m))).2 (evm m)) m) →
  wp (query f) Q m.
Proof. unfold wp, query, mbind, M_bind, get. cbn. by destruct (f _). Qed.
Lemma wp_update f (Q : unit → machine → Prop) m :
  Q tt (set_evm (set_StateDB (f (StateDB (evm m))) (evm m)) m) → wp (update f) Q m.
Proof. done. Qed.
Lemma wp_update_or p f (Q : unit → machine → Prop) m :
  (f (StateDB (evm m)) = None → okp p) →
  (∀ s, f (StateDB (evm m)) = Some s → Q tt (set_evm (set_StateDB s (evm m)) m)) →
  wp (update_or p f) Q m.
Proof.
  intros Hn Hs. unfold wp, update_or, mbind, M_bind, get, or_panic. cbn.
  destruct (f _) as [s|]; cbn; auto.
Qed.
Lemma wp_update_memory f (Q : unit → machine → Prop) m :
  owp (f (memory m)) (λ x, Q tt (set_memory x m)) → wp (update_memory f) Q m.
Proof. intros HQ. unfold update_memory. apply wp_bind, wp_get, wp_bind, wp_lift. done. Qed.
Lemma wp_UseSmoke n (Q : bool → machine → Prop) m :
  (Smoke (contract m) < n → Q false m) →
  (n ≤ Smoke (contract m) → Q true (set_contract (set_Smoke (Smoke (contract m) - n) (contract m)) m)) →
  wp (UseSmoke n) Q m.
Proof.
  intros H1 H2. unfold wp, UseSmoke, mbind, M_bind, get, contract_UseSmoke. cbn.
  destruct (Z.ltb_spec (Smoke (contract m)) n); cbn; [|auto].
  destruct m; cbn in *. auto.
Qed.
End wp.

(** ** Tactics *)

(** Compute with the fields of a machine. *)
Ltac mcbn :=
  cbv beta delta [set_pc set_stack set_memory set_rstack set_contract set_evm];
  cbn [pc stack memory rstack contract evm lookup list_lookup compose length stack_push];
  repeat match goal with
    | |- context [StateDB (set_StateDB ?a ?b)] => change (StateDB (set_StateDB a b)) with a
    | |- context [set_StateDB ?a (set_StateDB ?b ?c)] =>
        change (set_StateDB a (set_StateDB b c)) with (set_StateDB a c)
    end.

(** Leave the monad one operation at a time. *)
Ltac wp_step :=
  first
    [ apply wp_ret
    | apply wp_get
    | eapply wp_pop; [reflexivity|]
    | eapply wp_peek; [reflexivity|]
    | eapply wp_poke; [reflexivity|]
    | apply wp_push
    | eapply wp_back; [reflexivity|]
    | apply wp_query
    | apply wp_update
    | apply wp_modify
    | apply wp_bind ];
  mcbn.

(** Start the proof of an instruction that takes [n] words. *)
Tactic Notation "op_start" ident(HI) int_or_var(n) :=
  let m := fresh "m" in let Hl := fresh "Hl" in
  intros m HI Hl; destruct m as [p st mem rs c e]; cbn [stack] in Hl;
  do n (destruct st as [|? st]; cbn [length] in Hl; [exfalso; lia|]); clear Hl.
