(* ===== verification/VmAnalysis.v ===== *)
(** * Jump destination analysis, theorems

    The bitmap of [codeBitmap] marks exactly the bytes that are not the first
    byte of an instruction, so that a jump is accepted only at a JUMPDEST
    instruction.  The reference definition walks the code instruction by
    instruction. *)
From S2P Require Import Prelude Opcodes ChainConfig VmBase VmMachine.
Local Open Scope Z_scope.

(** ** Reference definition *)

(** The number of data bytes after an opcode. *)
Definition data_size (op : Z) : Z := if IsPush op then op - PUSH1 + 1 else 0.

(** The positions of the opcodes from [pc] on. *)
Fixpoint starts (fuel : nat) (code : bytes) (pc : Z) : list Z :=
  match fuel with
  | O => []
  | S fuel =>
      match code !! Z.to_nat pc with
      | None => []
      | Some op => pc :: starts fuel code (pc + 1 + data_size op)
      end
  end.

(** Every instruction has a byte of its own, so the length is enough fuel. *)
Definition instruction_starts (code : bytes) : list Z := starts (length code) code 0.

(** ** Bits *)

(** The bit of position [pos]. *)
Definition tb (bits : bitvec) (pos : Z) : bool :=
  Z.testbit (default 0 (bits !! Z.to_nat (pos / 8))) (7 - pos mod 8).

Lemma mod8 pos : 0 ≤ pos mod 8 < 8.
Proof. apply Z.mod_pos_bound. lia. Qed.

(** A property of the eight bit positions, by cases. *)
Lemma bit8_cases (P : Z → Prop) : P 0 → P 1 → P 2 → P 3 → P 4 → P 5 → P 6 → P 7 → ∀ k, 0 ≤ k < 8 → P k.
Proof.
  intros. assert (k = 0 ∨ k = 1 ∨ k = 2 ∨ k = 3 ∨ k = 4 ∨ k = 5 ∨ k = 6 ∨ k = 7) as Hk by lia.
  destruct_or! Hk; by subst.
Qed.

Lemma land_pow2 x n : 0 ≤ n → (Z.land x (2 ^ n) =? 0) = negb (Z.testbit x n).
Proof.
  intros Hn. destruct (Z.testbit x n) eqn:E; cbn.
  - apply Z.eqb_neq. intros H. apply (f_equal (λ y, Z.testbit y n)) in H.
    rewrite Z.land_spec, E, Z.pow2_bits_true, Z.bits_0 in H by done. done.
  - apply Z.eqb_eq. apply Z.bits_inj'. intros k Hk. rewrite Z.land_spec, Z.bits_0, Z.pow2_bits_eqb by done.
    destruct (Z.eqb_spec n k) as [->|]; [by rewrite E|]. by rewrite andb_false_r.
Qed.

Lemma shiftr_80 k : 0 ≤ k < 8 → Z.shiftr 0x80 k = 2 ^ (7 - k).
Proof. revert k. by apply bit8_cases. Qed.

Lemma codeSegment_tb pos bits :
  (Z.to_nat (pos / 8) < length bits)%nat → codeSegment pos bits = Ret (negb (tb bits pos)).
Proof.
  intros Hl. unfold codeSegment, tb, or_panic.
  destruct (lookup_lt_is_Some_2 bits _ Hl) as [b ->]. cbn [default from_option id mbind outcome_bind].
  pose proof (mod8 pos). by rewrite shiftr_80, land_pow2 by lia.
Qed.

(** [or_at] sets the bits of one byte. *)
Lemma or_at_spec i x bits :
  0 ≤ i < len bits →
  ∃ bits', or_at i x bits = Ret bits' ∧ length bits' = length bits
    ∧ ∀ q, 0 ≤ q → tb bits' q = tb bits q || ((q / 8 =? i) && Z.testbit x (7 - q mod 8)).
Proof.
  intros Hi. unfold or_at, or_panic. destruct (lookup_lt_is_Some_2 bits (Z.to_nat i)) as [b Hb]; [lia|].
  rewrite Hb. cbn [mbind outcome_bind]. eexists. split; [done|]. split; [by rewrite length_insert|].
  intros q Hq. unfold tb. assert (0 ≤ q / 8) by (apply Z.div_pos; lia).
  destruct (Z.eqb_spec (q / 8) i) as [->|Hne]; cbn [andb].
  - rewrite list_lookup_insert_eq by lia. rewrite Hb. cbn [default from_option id]. apply Z.lor_spec.
  - rewrite list_lookup_insert_ne by lia. by rewrite orb_false_r.
Qed.

(** A mark of [n] positions from [pos] on. *)
Definition marks (pos n : Z) (bits bits' : bitvec) : Prop :=
  length bits' = length bits
  ∧ ∀ q, 0 ≤ q → tb bits' q = tb bits q || ((pos <=? q) && (q <? pos + n)).

Lemma div_mod8 q : q = 8 * (q / 8) + q mod 8.
Proof. apply Z.div_mod. lia. Qed.

Lemma bit_set_spec pos bits :
  0 ≤ pos → pos / 8 < len bits → ∃ bits', bit_set pos bits = Ret bits' ∧ marks pos 1 bits bits'.
Proof.
  intros Hp Hl. assert (0 ≤ pos / 8) by (apply Z.div_pos; lia). pose proof (mod8 pos).
  destruct (or_at_spec (pos / 8) (Z.shiftr 0x80 (pos mod 8)) bits) as (b & E & L & T); [lia|].
  exists b. split; [done|]. split; [done|]. intros q Hq. rewrite T by done. f_equal.
  rewrite shiftr_80, Z.pow2_bits_eqb by lia. pose proof (mod8 q). pose proof (div_mod8 q). pose proof (div_mod8 pos).
  destruct (Z.eqb_spec (q / 8) (pos / 8)); cbn [andb]; lia.
Qed.

Lemma testbit_ff k i : 0 ≤ k < 8 → 0 ≤ i < 8 → Z.testbit (Z.shiftr 0xFF k) i = (i <? 8 - k).
Proof.
  intros Hk Hi. pattern k. revert k Hk. apply bit8_cases; pattern i; revert i Hi; by apply bit8_cases.
Qed.
Lemma testbit_nff k i : 0 ≤ k < 8 → 0 ≤ i < 8 → Z.testbit (255 - Z.shiftr 0xFF k) i = (8 - k <=? i).
Proof.
  intros Hk Hi. pattern k. revert k Hk. apply bit8_cases; pattern i; revert i Hi; by apply bit8_cases.
Qed.

Lemma bit_set8_spec pos bits :
  0 ≤ pos → pos / 8 + 1 < len bits → ∃ bits', bit_set8 pos bits = Ret bits' ∧ marks pos 8 bits bits'.
Proof.
  intros Hp Hl. assert (0 ≤ pos / 8) by (apply Z.div_pos; lia). pose proof (mod8 pos).
  unfold bit_set8.
  destruct (or_at_spec (pos / 8) (Z.shiftr 0xFF (pos mod 8)) bits) as (b & E & L & T); [lia|].
  rewrite E. cbn [mbind outcome_bind].
  destruct (or_at_spec (pos / 8 + 1) (255 - Z.shiftr 0xFF (pos mod 8)) b) as (b' & E' & L' & T'); [lia|].
  exists b'. split; [done|]. split; [congruence|]. intros q Hq. rewrite T', T by done.
  pose proof (mod8 q). pose proof (div_mod8 q). pose proof (div_mod8 pos).
  rewrite testbit_ff, testbit_nff by lia. rewrite <- orb_assoc. f_equal.
  destruct (Z.eqb_spec (q / 8) (pos / 8)), (Z.eqb_spec (q / 8) (pos / 8 + 1)); cbn [andb orb]; lia.
Qed.

(** ** The loops *)

Lemma marks_app pos n k b1 b2 b3 :
  0 ≤ n → 0 ≤ k → marks pos n b1 b2 → marks (pos + n) k b2 b3 → marks pos (n + k) b1 b3.
Proof.
  intros Hn Hk [L1 T1] [L2 T2]. split; [congruence|]. intros q Hq. rewrite T2, T1 by done.
  rewrite <- orb_assoc. f_equal. lia.
Qed.

Lemma mark_data_spec fuel numbits pc bits :
  0 ≤ numbits ≤ Z.of_nat fuel → 0 ≤ pc → (pc + numbits) / 8 < len bits →
  ∃ bits', mark_data fuel numbits pc bits = Ret (pc + numbits, bits') ∧ marks pc numbits bits bits'.
Proof.
  revert numbits pc bits. induction fuel as [|fuel IH]; intros n pc bits Hn Hp Hl; cbn [mark_data].
  - assert (n = 0) as -> by lia. exists bits. rewrite Z.add_0_r. split; [done|]. split; [done|].
    intros q Hq. replace ((pc <=? q) && (q <? pc + 0)) with false by lia. by rewrite orb_false_r.
  - destruct (Z.leb_spec 8 n); [|destruct (Z.ltb_spec 0 n)].
    + destruct (bit_set8_spec pc bits) as (b & -> & M1); [done| |].
      { replace (pc / 8 + 1) with ((pc + 1 * 8) / 8) by (by rewrite Z.div_add by lia).
        eapply Z.le_lt_trans; [|apply Hl]. apply Z.div_le_mono; lia. }
      cbn [mbind outcome_bind]. destruct (IH (n - 8) (pc + 8) b) as (b' & -> & M2); [lia|lia| |].
      { rewrite (proj1 M1). by replace (pc + 8 + (n - 8)) with (pc + n) by lia. }
      exists b'. split; [do 2 f_equal; lia|]. replace n with (8 + (n - 8)) by lia.
      by eapply marks_app; [lia|lia| |].
    + destruct (bit_set_spec pc bits) as (b & -> & M1); [done| |].
      { eapply Z.le_lt_trans; [|apply Hl]. apply Z.div_le_mono; lia. }
      cbn [mbind outcome_bind]. destruct (IH (n - 1) (pc + 1) b) as (b' & -> & M2); [lia|lia| |].
      { rewrite (proj1 M1). by replace (pc + 1 + (n - 1)) with (pc + n) by lia. }
      exists b'. split; [do 2 f_equal; lia|]. replace n with (1 + (n - 1)) by lia.
      by eapply marks_app; [lia|lia| |].
    + assert (n = 0) as -> by lia. exists bits. rewrite Z.add_0_r. split; [done|]. split; [done|].
      intros q Hq. replace ((pc <=? q) && (q <? pc + 0)) with false by lia. by rewrite orb_false_r.
Qed.

Lemma data_size_range op : 0 ≤ data_size op ≤ 32.
Proof. unfold data_size, IsPush. destruct (_ && _)%bool eqn:E; bool_prop; lia. Qed.

Lemma starts_ge fuel code pc q : q ∈ starts fuel code pc → pc ≤ q.
Proof.
  revert pc. induction fuel as [|fuel IH]; intros pc; cbn [starts]; [by intros ?%elem_of_nil|].
  destruct (code !! Z.to_nat pc) as [op|]; [|by intros ?%elem_of_nil].
  intros [->|Hq]%elem_of_cons; [lia|]. apply IH in Hq. pose proof (data_size_range op). lia.
Qed.

Lemma starts_lt fuel code pc q : q ∈ starts fuel code pc → q < len code.
Proof.
  revert pc. induction fuel as [|fuel IH]; intros pc; cbn [starts]; [by intros ?%elem_of_nil|].
  destruct (code !! Z.to_nat pc) eqn:E; [|by intros ?%elem_of_nil].
  intros [->|?]%elem_of_cons; [apply lookup_lt_Some in E; lia|eauto].
Qed.

(** What one round of the loop does to the bitmap. *)
Lemma round_spec code op pc bits :
  0 ≤ pc < len code → len code / 8 + 5 ≤ len bits → code !! Z.to_nat pc = Some op →
  ∃ bits', marks (pc + 1) (data_size op) bits bits' ∧
    ∀ fuel, codeBitmap_loop (S fuel) code pc bits = codeBitmap_loop fuel code (pc + 1 + data_size op) bits'.
Proof.
  intros Hp Hl Hop. pose proof (data_size_range op).
  assert (((pc + 1) + data_size op) / 8 < len bits).
  { eapply Z.le_lt_trans; [apply (Z.div_le_mono _ (len code + 4 * 8)); lia|].
    rewrite Z.div_add by lia. lia. }
  unfold data_size in *. unfold IsPush in *.
  destruct ((PUSH1 <=? op) && (op <=? PUSH32)) eqn:E.
  - destruct (mark_data_spec 32 (op - PUSH1 + 1) (pc + 1) bits) as (b & Eb & M); [lia|lia|done|].
    exists b. split; [done|]. intros fuel. cbn [codeBitmap_loop]. zcmp. rewrite Hop.
    cbn [or_panic mbind outcome_bind]. rewrite E, Eb. done.
  - exists bits. split.
    + split; [done|]. intros q Hq. replace ((pc + 1 <=? q) && (q <? pc + 1 + 0)) with false by lia.
      by rewrite orb_false_r.
    + intros fuel. cbn [codeBitmap_loop]. zcmp. rewrite Hop. cbn [or_panic mbind outcome_bind].
      by rewrite E, Z.add_0_r.
Qed.

Lemma codeBitmap_loop_spec code fuel k pc bits :
  0 ≤ pc → Z.max 0 (len code - pc) < Z.of_nat fuel → len code - pc ≤ Z.of_nat k → len code / 8 + 5 ≤ len bits →
  (∀ q, pc ≤ q → tb bits q = false) →
  ∃ bits', codeBitmap_loop fuel code pc bits = Ret bits' ∧ length bits' = length bits
    ∧ (∀ q, 0 ≤ q < pc → tb bits' q = tb bits q)
    ∧ ∀ q, pc ≤ q < len code → tb bits' q = negb (bool_decide (q ∈ starts k code pc)).
Proof.
  revert k pc bits. induction fuel as [|fuel IH]; intros k pc bits Hp Hf Hk Hl Hz.
  { lia. }
  destruct (Z.ltb_spec pc (len code)) as [Hlt|Hge].
  - destruct k as [|k]; [lia|]. destruct (lookup_lt_is_Some_2 code (Z.to_nat pc)) as [op Hop]; [lia|].
    destruct (round_spec code op pc bits) as (b & [L1 M1] & ->); [lia|done|done|].
    pose proof (data_size_range op). cbn [starts]. rewrite Hop. set (pc' := pc + 1 + data_size op) in *.
    destruct (IH k pc' b) as (b' & E & L & T1 & T2); [lia|lia|lia|by rewrite L1| |].
    { intros q Hq. rewrite M1, Hz by lia. lia. }
    exists b'. split; [done|]. split; [congruence|]. split.
    + intros q Hq. rewrite T1, M1 by lia. replace ((pc + 1 <=? q) && (q <? pc')) with false by lia.
      by rewrite orb_false_r.
    + intros q Hq. destruct (Z.lt_ge_cases q pc') as [Hq'|Hq'].
      * rewrite T1, M1, Hz by lia. destruct (Z.eq_dec q pc) as [->|Hne].
        -- rewrite bool_decide_true by left. lia.
        -- rewrite bool_decide_false; [lia|]. intros [->|Hin]%elem_of_cons; [done|].
           apply starts_ge in Hin. lia.
      * rewrite T2 by lia. f_equal. apply bool_decide_ext. rewrite elem_of_cons. split; [by right|].
        intros [->|]; [lia|done].
  - exists bits. cbn [codeBitmap_loop]. zcmp. split; [done|]. split; [done|]. split; [done|]. intros. lia.
Qed.

Lemma tb_zero n q : tb (replicate n 0) q = false.
Proof.
  unfold tb. destruct (replicate n 0 !! Z.to_nat (q / 8)) as [x|] eqn:E; cbn [default from_option id].
  - apply lookup_replicate in E as [-> _]. apply Z.bits_0.
  - apply Z.bits_0.
Qed.

Lemma codeBitmap_spec code :
  ∃ bits, codeBitmap code = Ret bits ∧ length bits = (length code / 8 + 5)%nat
    ∧ ∀ pos, 0 ≤ pos < len code → codeSegment pos bits = Ret (bool_decide (pos ∈ instruction_starts code)).
Proof.
  unfold codeBitmap. destruct (codeBitmap_loop_spec code (S (length code)) (length code) 0
    (replicate (length code / 8 + 1 + 4) 0)) as (b & E & L & _ & T); [lia|lia|lia| |intros; apply tb_zero|].
  { rewrite length_replicate, !Nat2Z.inj_add, Nat2Z.inj_div. lia. }
  rewrite length_replicate in L. exists b. split; [done|]. split; [lia|]. intros pos Hpos.
  rewrite codeSegment_tb, T, negb_involutive; [done|lia|].
  apply Nat2Z.inj_lt. rewrite L, Z2Nat.id by (apply Z.div_pos; lia).
  rewrite !Nat2Z.inj_add, Nat2Z.inj_div. pose proof (Z.div_le_mono pos (len code) 8). lia.
Qed.

(** ** Jump destinations *)

Section jumps.
Context `{Uint256Laws} {SA : StateAccess}.

(** A cached analysis is the analysis of this code: the map is keyed by the
    hash of the code. *)
Definition analysis_coherent (m : machine) : Prop :=
  (∀ a, analysis (contract m) = Some a → codeBitmap (Code (contract m)) = Ret a)
  ∧ (CodeHash (contract m) ≠ zero_hash → ∀ a,
       jumpdests (evm m) !! CodeHash (contract m) = Some a → codeBitmap (Code (contract m)) = Ret a).

(** The changes of an analysis: it is stored in the contract and in the map. *)
Definition analysed (m m' : machine) : Prop :=
  m' = m ∨ ∃ a jd, m' = set_evm (set_jumpdests jd (evm m))
                          (set_contract (set_analysis (Some a) (contract m)) m).

#[local] Opaque codeBitmap codeSegment instruction_starts.

Lemma isCode_spec m udest :
  analysis_coherent m → 0 ≤ udest < len (Code (contract m)) →
  ∃ m', isCode udest m = Ret (bool_decide (udest ∈ instruction_starts (Code (contract m))), m')
    ∧ analysis_coherent m' ∧ analysed m m'.
Proof.
  intros [Ha Hj] Hu. destruct (codeBitmap_spec (Code (contract m))) as (bits & Eb & _ & Hb).
  specialize (Hb udest Hu). destruct m as [p st mem rs c e]. destruct e as [s d ct ro rd jd al].
  cbn [contract evm jumpdests] in *. set (res := bool_decide (udest ∈ _)) in *.
  unfold isCode, mbind, M_bind, get. cbn [contract evm jumpdests compose].
  destruct (analysis c) as [a|] eqn:Ea.
  { rewrite (Ha a eq_refl) in Eb. injection Eb as ->. cbn [lift]. rewrite Hb.
    eexists. split; [done|]. split; [|by left].
    split; cbn; [intros b; rewrite Ea; intros [= <-]; by apply Ha|done]. }
  case_bool_decide as Hz.
  - cbn [lift]. rewrite Eb. cbn. rewrite Hb. eexists. split; [done|]. split.
    + split; cbn; [by intros ? [= <-]|done].
    + right. by exists bits, jd.
  - destruct (jd !! CodeHash c) as [a|] eqn:Ej.
    + cbn. rewrite Ej. cbn. rewrite (Hj Hz a eq_refl) in Eb. injection Eb as ->. rewrite Hb. eexists. split; [done|]. split.
      * split; cbn; [intros ? [= <-]; by apply Hj|by rewrite Ej].
      * right. by exists bits, jd.
    + cbn. rewrite Ej. cbn. rewrite Eb. cbn. rewrite Hb. eexists. split; [done|]. split.
      * split; cbn; [by intros ? [= <-]|]. intros _ a. rewrite lookup_insert_eq. by intros [= <-].
      * right. by eexists bits, _.
Qed.

(** C35: jump validation.  In a machine whose cached analyses are those of its
    code, [validJumpdest] never panics and accepts exactly the positions of
    JUMPDEST instructions, as found by walking the code instruction by
    instruction: bytes of push data are never accepted, whatever they are. *)
Theorem validJumpdest_exact (m : machine) (dest : Word) (Hc : analysis_coherent m)
    (Hl : len (Code (contract m)) < 2 ^ 63) :
  ∃ m', validJumpdest dest m =
      Ret (bool_decide (u_val dest ∈ instruction_starts (Code (contract m))
                        ∧ Code (contract m) !! Z.to_nat (u_val dest) = Some JUMPDEST), m')
    ∧ analysis_coherent m' ∧ analysed m m'.
Proof.
  unfold validJumpdest, mbind, M_bind, get. rewrite law_Uint64WithOverflow.
  pose proof (law_range dest) as Hr. set (code := Code (contract m)) in *. set (x := u_val dest) in *.
  pose proof (starts_lt (length code) code 0 : ∀ q, q ∈ instruction_starts code → q < len code) as Hin.
  destruct ((2 ^ 64 <=? x) || (len code <=? u64 x)) eqn:Eo.
  { rewrite bool_decide_false; [exists m; split; [done|]; by split; [|left]|].
    intros [Hi _]. pose proof (Hin _ Hi). apply orb_true_iff in Eo as [Eo|Eo]; bool_prop; [lia|].
    rewrite u64_small in Eo; unfold is_u64; lia. }
  bool_prop. rewrite u64_small in * by (unfold is_u64; lia).
  destruct (lookup_lt_is_Some_2 code (Z.to_nat x)) as [op Hop]; [lia|]. rewrite (at_lookup _ _ _ Hop).
  destruct (Z.eqb_spec op JUMPDEST) as [->|Hne]; cbn [negb].
  - destruct (isCode_spec m x Hc) as (m' & -> & Hm); [fold code; lia|]. exists m'. split; [|done].
    do 2 f_equal. apply bool_decide_ext. rewrite Hop. naive_solver.
  - rewrite bool_decide_false; [exists m; split; [done|]; by split; [|left]|]. rewrite Hop. naive_solver.
Qed.
End jumps.
