(* ===== verification/VmState.v ===== *)
(** * The state database behind the virtual machine

    StateDB.v implements the interface that the virtual machine uses
    ([StateAccess]) and keeps the laws that the machine relies on
    ([StateLaws]): the methods keep the state well-formed, and whatever a call
    does to the state can be reverted.  So the theorems about the EVM hold for
    the EVM over the real state database, and a failed call is invisible in
    it. *)
From S2P Require Import Prelude RlpEncode RlpRaw RlpDecode AccessList StateDB StateRevert Opcodes Params ChainConfig VmBase VmMachine Precompiles VmSmoke VmOps VmLogic.
Local Open Scope Z_scope.

(** What the state database relies on: the hash function has 32 bytes and no
    collisions between addresses, and the code store returns Go slices, whose
    length fits an [int]. *)
Class BackendLaws `{Backend} := {
  law_hash_length b : length (StateDB.Keccak256 b) = 32%nat;
  law_hash_address a b :
    length a = 20%nat → length b = 20%nat → StateDB.Keccak256 a = StateDB.Keccak256 b → a = b;
  law_code_length a h c : ContractCode a h = Ok c → len c < 2 ^ 63
}.

(** A [nil] code is the empty one. *)
Definition go_code (c : bytes) : option bytes := match c with [] => None | _ => Some c end.

#[export] Instance statedb_access {B : Backend} : StateAccess := {|
  State := StateDB.StateDB;
  CreateAccount := StateDB.CreateAccount;
  SubBalance := StateDB.SubBalance;
  AddBalance := StateDB.AddBalance;
  GetBalance := StateDB.GetBalance;
  GetNonce := StateDB.GetNonce;
  SetNonce := StateDB.SetNonce;
  GetCodeHash := StateDB.GetCodeHash;
  GetCode a s := let '(c, s) := StateDB.GetCode a s in (default [] c, s);
  SetCode a c := StateDB.SetCode a (go_code c);
  GetCodeSize := StateDB.GetCodeSize;
  AddRefund := StateDB.AddRefund;
  SubRefund := StateDB.SubRefund;
  GetRefund := StateDB.GetRefund;
  GetCommittedState := StateDB.GetCommittedState;
  GetState := StateDB.GetState;
  SetState := StateDB.SetState;
  Suicide := StateDB.Suicide;
  HasSuicided := StateDB.HasSuicided;
  Exist := StateDB.Exist;
  Empty := StateDB.Empty;
  AddressInAccessList := StateDB.AddressInAccessList;
  SlotInAccessList := StateDB.SlotInAccessList;
  AddAddressToAccessList := StateDB.AddAddressToAccessList;
  AddSlotToAccessList := StateDB.AddSlotToAccessList;
  RevertToSnapshot := StateDB.RevertToSnapshot;
  Snapshot := StateDB.Snapshot;
  AddLog a t d b := StateDB.AddLog (MkLog a t d b zero_hash 0 zero_hash 0 false);
  AddPreimage := StateDB.AddPreimage
|}.

Section state.
Context `{BackendLaws}.
Implicit Types (s : StateDB.StateDB) (o : stateObject).

Abbreviation Hlen := law_hash_length.
Abbreviation Hinj := law_hash_address.

(** ** The operations behind a step *)

(** Not a revert, and the code fits a slice. *)
Definition op_fits (q : state_op) : Prop :=
  match q with OpRevert _ => False | OpSetCode _ c => len (default [] c) < 2 ^ 63 | _ => True end.

(** An operation that moves no money. *)
Definition quiet (q : state_op) : bool :=
  match q with
  | OpAddBalance _ v | OpSubBalance _ v => v =? 0
  | OpSetBalance _ _ | OpSuicide _ => false
  | _ => true
  end.

(** The operations move no money, make a transfer that the sender can afford,
    or destruct an account in favour of another. *)
Inductive money_ops s : list state_op → Prop :=
| quiet_ops qs : Forall (λ q, quiet q = true) qs → money_ops s qs
| transfer_ops a b v :
    is_address a → is_address b → 0 ≤ v ≤ (StateDB.GetBalance a s).1 →
    money_ops s [OpSubBalance a v; OpAddBalance b v]
| destruct_ops a b :
    is_address a → is_address b →
    money_ops s [OpGetBalance a; OpAddBalance b (StateDB.GetBalance a s).1; OpSuicide a].

(** Reverts aside, a step is a few operations. *)
Lemma state_step_exec ro s s' id :
  state_step ro s s' →
  ∃ qs, Forall (op_wf id) qs ∧ exec_all qs s = Some s' ∧ Forall op_fits qs ∧ money_ops s qs.
Proof.
  assert (∀ q, op_wf id q → exec q s = Some s' → op_fits q → quiet q = true →
    ∃ qs, Forall (op_wf id) qs ∧ exec_all qs s = Some s' ∧ Forall op_fits qs ∧ money_ops s qs) as H1.
  { intros q Hq He Hr Hk. exists [q]. cbn. rewrite He. split; [by constructor|]. split; [done|].
    split; [by constructor|]. by repeat constructor. }
  destruct 1; cbn in *.
  - by apply (H1 (OpGetBalance a)).
  - by apply (H1 (OpGetNonce a)).
  - by apply (H1 (OpGetCodeHash a)).
  - apply (H1 (OpGetCode a)); try done. cbn. by destruct (StateDB.GetCode a s).
  - by apply (H1 (OpGetCodeSize a)).
  - by apply (H1 (OpGetCommittedState a k)).
  - by apply (H1 (OpGetState a k)).
  - by apply (H1 (OpHasSuicided a)).
  - by apply (H1 (OpExist a)).
  - by apply (H1 (OpEmpty a)).
  - by apply (H1 (OpAddAddress a)).
  - by apply (H1 (OpAddSlot a k)).
  - by apply (H1 (OpAddPreimage h p)).
  - by apply (H1 OpSnapshot).
  - by apply (H1 (OpAddBalance a 0)).
  - by apply (H1 (OpSubBalance a 0)).
  - exists [OpExist a; OpCreateAccount a]. split; [by repeat constructor|]. split; [done|].
    split; [by repeat constructor|]. by repeat constructor.
  - by apply (H1 (OpCreateAccount a)).
  - exists [OpSubBalance a v; OpAddBalance b v]. split; [by repeat constructor|]. split; [done|].
    split; [by repeat constructor|by apply transfer_ops].
  - by apply (H1 (OpSetNonce a n)).
  - apply (H1 (OpSetCode a (go_code c))); try done. by destruct c.
  - by apply (H1 (OpSetState a k v)).
  - exists [OpGetBalance a; OpAddBalance b (StateDB.GetBalance a s).1; OpSuicide a].
    split; [by repeat constructor|]. split; [done|]. split; [by repeat constructor|by apply destruct_ops].
  - by apply (H1 (OpAddRefund n)).
  - by apply (H1 (OpSubRefund n)).
  - by apply (H1 (OpAddLog (MkLog a t d b zero_hash 0 zero_hash 0 false))).
Qed.

(** ** Evolution and snapshots *)

Lemma evolves_inv ro c x s s' : StateRevert.inv c x s → evolves ro s s' → StateRevert.inv c x s'.
Proof.
  intros HI He. revert HI. induction He as [|s1 s2 s3 _ IH Hs|s1 s2 s3 s4 _ IH1 _ IH2 Hr]; intros HI; [done| |].
  - destruct (state_step_exec _ _ _ (nextRevisionId c) Hs) as (qs & Wq & Eq & _ & _).
    eapply exec_all_inv; [exact Hlen|exact Hinj|by apply IH|done|done].
  - apply IH1 in HI. pose proof (iv_next _ _ _ HI). eapply inv_revert; [exact Hlen|exact Hinj| |exact H1|exact Hr].
    apply IH2. by apply (inv_snapshot Hlen Hinj).
Qed.

Lemma state_wf_step s s' es : state_wf s → StateRevert.step s s' es → state_wf s'.
Proof.
  intros (W & [Hso Hbo] & x & Hd) [W' A1 A2 A3 _ _ A6 _]. destruct (A6 x Hd) as (y & _ & Hy).
  split; [done|]. split; [|by exists y]. split; rewrite A2; [done|]. rewrite A1, A3, length_app.
  intros i p Hi. destruct (Hbo i p Hi). split; [done|lia].
Qed.

Lemma state_wf_snapshot s : state_wf s → state_wf (StateDB.Snapshot s).2.
Proof.
  intros (W & Hr & x & Hd). destruct (inv_init s x W Hr Hd) as [W' Hr' _ _ _ _ _ _ (y & _ & Hy)].
  split; [done|]. split; [done|by exists y].
Qed.

Lemma state_wf_exec q s s' id :
  state_wf s → op_wf id q → op_fits q → exec q s = Some s' → state_wf s'.
Proof.
  intros Hs Wq Hq Ex. pose proof (exec_step Hlen Hinj id q s s' (proj1 Hs) Wq Ex) as Hst.
  destruct q; first [done|destruct Hst as [es S]; by eapply state_wf_step|idtac].
  injection Ex as <-. by apply state_wf_snapshot.
Qed.

(** Reverting to a snapshot after any evolution. *)
Lemma evolves_revert ro s s1 :
  state_wf s → evolves ro (StateDB.Snapshot s).2 s1 →
  ∃ s', StateDB.RevertToSnapshot (StateDB.Snapshot s).1 s1 = Some s' ∧ state_eq s' s ∧ state_wf s'.
Proof.
  intros (W & Hr & x & Hd) He. pose proof (evolves_inv _ _ _ _ _ (inv_init s x W Hr Hd) He) as HI.
  destruct (inv_final Hlen Hinj s x s1 W Hr Hd HI) as (s' & R & E & W' & _). by exists s'.
Qed.

(** Queries change caches only. *)
Definition is_query (q : state_op) : bool :=
  match q with
  | OpExist _ | OpEmpty _ | OpGetBalance _ | OpGetNonce _ | OpGetCode _ | OpGetCodeSize _ | OpGetCodeHash _
  | OpHasSuicided _ | OpGetState _ _ | OpGetCommittedState _ _ => true
  | _ => false
  end.

Lemma query_eq q s s' id : wf s → op_wf id q → is_query q = true → exec q s = Some s' → state_eq s' s.
Proof.
  intros W Wq Hq Ex.
  assert (∀ t, StateRevert.step s t [] → state_eq t s) as Hst by (by intros t [_ _ _ _ _ _ _ (s2 & [= <-] & E)]).
  destruct q; cbn [op_wf exec is_query] in *; try done; injection Ex as <-;
    try (unfold StateDB.Exist, StateDB.Empty, StateDB.GetBalance, StateDB.GetNonce, StateDB.GetCodeHash, StateDB.HasSuicided;
         pose proof (getStateObject_step Hlen Hinj s a W Wq); destruct (getStateObject a s); by apply Hst).
  - apply Hst, (getter_step Hlen Hinj (λ _ o, StateDB.Code o)); try done. intros. apply cached_Code.
  - apply Hst, (getter_step Hlen Hinj (λ _ o, CodeSize o)); try done. intros. apply cached_CodeSize.
  - apply Hst, (getter_step Hlen Hinj (λ s o, obj_GetState s k o)); try done. intros. apply cached_state_step.
  - apply Hst, (getter_step Hlen Hinj (λ s o, obj_GetCommittedState s k o)); try done. intros. apply cached_committed_step.
Qed.

(** ** Codes fit their slices *)

Definition code_ok o : Prop := len (default [] (code_of o)) < 2 ^ 63.
Definition codes_ok s : Prop := ∀ a o, is_address a → view s a = Some o → code_ok o.

Lemma codes_eq s1 s2 : state_eq s1 s2 → codes_ok s2 → codes_ok s1.
Proof.
  intros E Hc a o Ha Hv. pose proof (se_view _ _ E a Ha) as Hf. rewrite Hv in Hf. inversion Hf as [? o2 O E2|].
  unfold code_ok. rewrite (oe_code _ _ _ O). by apply (Hc a).
Qed.

Lemma codes_same s1 s2 :
  stateObjects s1 = stateObjects s2 → trie s1 = trie s2 → snap s1 = snap s2 → codes_ok s2 → codes_ok s1.
Proof. intros E1 E2 E3 Hc a o. rewrite (view_ext s1 s2) by (done || by rewrite E1). apply Hc. Qed.

Lemma codes_append e s : codes_ok s → codes_ok (append e s).
Proof. apply codes_same; unfold append; by case_match. Qed.

Lemma codes_set o s : codes_ok s → code_ok o → codes_ok (setStateObject o s).
Proof. intros Hc Ho a o' Ha. rewrite set_view. case_bool_decide; [by intros [= <-]|by apply Hc]. Qed.

(** A code that is not cached comes from the code store. *)
Lemma code_ok_stored o : code o = None → code_ok o.
Proof.
  intros Hn. unfold code_ok. rewrite code_of_unfold, Hn. case_bool_decide; [by vm_compute|].
  destruct (ContractCode _ _) as [c|] eqn:E; [|by vm_compute]. by eapply law_code_length.
Qed.
Lemma code_ok_new a d : code_ok (setNonce 0 (newObject a d)).
Proof. by apply code_ok_stored. Qed.

(** Setters that leave code and code hash alone. *)
Lemma code_ok_ext o o' :
  code o' = code o → StateDB.CodeHash (data o') = StateDB.CodeHash (data o) → addrHash o' = addrHash o → code_ok o → code_ok o'.
Proof. intros E1 E2 E3. unfold code_ok. by rewrite (code_of_ext o o'). Qed.

Lemma codes_created s a n : codes_ok s → code_ok n → codes_ok (created s a n).
Proof.
  intros Hc Hn. unfold created. destruct (view s a); (apply codes_set; [apply codes_append|done]); [|done].
  destruct (snap s) eqn:E; [|done]. case_match; [done|]. by eapply codes_same; [..|exact Hc].
Qed.

(** The object that a setter works on. *)
Lemma codes_get_or_new s a :
  wf s → is_address a → codes_ok s →
  let x := GetOrNewStateObject a s in wf x.2 ∧ codes_ok x.2 ∧ code_ok x.1 ∧ address x.1 = a ∧ deleted x.1 = false.
Proof.
  intros W Ha Hc. destruct (GetOrNew_step Hlen Hinj s a W Ha) as (es & [W' _ _ _ _ _ _ _] & Hl & Hd).
  split; [done|]. assert (codes_ok (GetOrNewStateObject a s).2) as Hc'.
  { unfold GetOrNewStateObject. rewrite getStateObject_view.
    destruct (getDeleted_steps Hlen Hinj s a W Ha) as [[W1 _ _ _ _ _ _ _] _].
    destruct (getDeleted_step Hlen Hinj s a (wf_objs _ W) Ha) as (E & _).
    pose proof (codes_eq _ _ E Hc) as Hc1.
    assert (codes_ok (createObject a (getDeletedStateObject a s).2).2) as Hcr.
    { rewrite (createObject_created Hlen Hinj) by done. apply codes_created; [|apply code_ok_new].
      destruct (getDeleted_step Hlen Hinj _ a (wf_objs _ W1) Ha) as (E' & _). by eapply codes_eq. }
    destruct (createObject a _) as [[o' p] s2]. destruct (view s a) as [o|]; [|done]. by destruct (deleted o). }
  split; [done|]. destruct W' as [Wo _ _]. destruct (cw_objects _ Wo a _ Hl) as [_ Ho].
  split; [|split; [apply Ho|done]]. apply (Hc' a); [done|]. by rewrite view_unfold, Hl.
Qed.

Lemma codes_on_object f s a :
  wf s → is_address a → codes_ok s →
  (∀ s o, codes_ok s → code_ok o → codes_ok (f o s)) → codes_ok (on_object f a s).
Proof.
  intros W Ha Hc Hf. destruct (codes_get_or_new s a W Ha Hc) as (_ & Hc' & Ho & _). unfold on_object.
  destruct (GetOrNewStateObject a s) as [o s1]. by apply Hf.
Qed.

Lemma codes_setter s o e (f : stateObject → stateObject) :
  codes_ok s → code_ok o → (code_ok o → code_ok (f o)) → codes_ok (setStateObject (f o) (append e s)).
Proof. intros Hc Ho Hf. apply codes_set; [by apply codes_append|by apply Hf]. Qed.

Lemma codes_SetBalance v s o : codes_ok s → code_ok o → codes_ok (obj_SetBalance v o s).
Proof. intros. apply (codes_setter s o _ (setBalance v)); try done. by apply code_ok_ext. Qed.

Lemma codes_SetState k v s o : codes_ok s → code_ok o → codes_ok (obj_SetState k v o s).
Proof.
  intros Hc Ho. unfold obj_SetState. destruct (fakeStorage o).
  { apply codes_set; [done|]. by eapply code_ok_ext; [..|exact Ho]. }
  pose proof (ca_code _ _ _ (cached_state_step s o k)) as Hk.
  destruct (obj_GetState s k o) as [prev o']. cbn in Hk.
  assert (code_ok o') as Ho' by (unfold code_ok; by rewrite Hk).
  case_bool_decide; [by apply codes_set|]. apply (codes_setter s o' _ (setState k v)); try done.
  by apply code_ok_ext.
Qed.

Lemma codes_SetCode h c s o :
  len (default [] c) < 2 ^ 63 → codes_ok s → code_ok o → codes_ok (obj_SetCode h c o s).
Proof.
  intros Hl Hc Ho. unfold obj_SetCode. destruct (StateDB.Code o) as [prev o'].
  apply codes_set; [by apply codes_append|]. destruct c as [c|]; [|by apply code_ok_stored].
  unfold code_ok. rewrite code_of_unfold. done.
Qed.

Lemma codes_CreateAccount a s : wf s → is_address a → codes_ok s → codes_ok (StateDB.CreateAccount a s).
Proof.
  intros W Ha Hc. unfold StateDB.CreateAccount. rewrite (createObject_created Hlen Hinj) by done.
  destruct (getDeleted_step Hlen Hinj s a (wf_objs _ W) Ha) as (E & _).
  assert (codes_ok (created (getDeletedStateObject a s).2 a (setNonce 0 (newObject a emptyAccount)))) as Hc1.
  { apply codes_created; [by eapply codes_eq|apply code_ok_new]. }
  destruct (view s a) as [p|]; [|done]. destruct (deleted p); [done|]. apply codes_set; [done|].
  by apply code_ok_stored.
Qed.

Lemma codes_Suicide a s : wf s → is_address a → codes_ok s → codes_ok (StateDB.Suicide a s).2.
Proof.
  intros W Ha Hc. unfold StateDB.Suicide. rewrite getStateObject_view.
  destruct (getDeleted_step Hlen Hinj s a (wf_objs _ W) Ha) as (E & _). pose proof (codes_eq _ _ E Hc) as Hc1.
  destruct (view s a) as [o|] eqn:V; [|done]. destruct (deleted o); [done|]. apply codes_set; [by apply codes_append|].
  by eapply code_ok_ext; [..|by apply (Hc a)].
Qed.

(** Operations on the other parts of the state. *)
Lemma codes_AddLog l s : codes_ok s → codes_ok (StateDB.AddLog l s).
Proof. by apply codes_same. Qed.
Lemma codes_AddPreimage h p s : codes_ok s → codes_ok (StateDB.AddPreimage h p s).
Proof. unfold StateDB.AddPreimage. by case_match; [|apply codes_same]. Qed.
Lemma codes_SubRefund n s s' : StateDB.SubRefund n s = Some s' → codes_ok s → codes_ok s'.
Proof. unfold StateDB.SubRefund. case_match; [done|]. intros [= <-]. by apply codes_same. Qed.
Lemma codes_AddAddress a s : codes_ok s → codes_ok (StateDB.AddAddressToAccessList a s).
Proof.
  unfold StateDB.AddAddressToAccessList. destruct (AddAddress _ a) as [[] al]; [|by apply codes_same].
  intros. by apply codes_append, (codes_same _ s).
Qed.
Lemma codes_AddSlot a k s s' : StateDB.AddSlotToAccessList a k s = Some s' → codes_ok s → codes_ok s'.
Proof.
  unfold StateDB.AddSlotToAccessList. destruct (AddSlot _ a k) as [[[am sm] al]|]; [|done]. intros [= <-] Hc.
  assert (codes_ok (set_accessList_ al s)) as Hc1 by (by apply (codes_same _ s)).
  destruct am, sm; by repeat apply codes_append.
Qed.

Lemma codes_exec q s s' id :
  state_wf s → codes_ok s → op_wf id q →
  op_fits q → exec q s = Some s' → codes_ok s'.
Proof.
  intros Hs Hc Wq Hq Ex. pose proof (proj1 Hs) as W.
  destruct (is_query q) eqn:Eq; [by eapply codes_eq; [eapply query_eq|]|].
  destruct q; cbn [op_wf exec is_query] in *; try done; try (injection Ex as <-).
  - by apply codes_CreateAccount.
  - apply codes_on_object; try done. intros. unfold obj_AddBalance, touch.
    repeat case_match; try done; [by apply (codes_same _ s0)|by apply codes_append|by apply codes_SetBalance].
  - apply codes_on_object; try done. intros. unfold obj_SubBalance. case_match; [done|by apply codes_SetBalance].
  - apply codes_on_object; try done. intros. by apply codes_SetBalance.
  - apply codes_on_object; try done. intros. apply (codes_setter _ _ _ (setNonce v)); try done. by apply code_ok_ext.
  - apply codes_on_object; try done. intros. by apply codes_SetCode.
  - apply codes_on_object; try done. intros. by apply codes_SetState.
  - by apply codes_Suicide.
  - by apply codes_AddLog.
  - by apply codes_AddPreimage.
  - by apply (codes_same _ s).
  - by eapply codes_SubRefund.
  - by apply codes_AddAddress.
  - by eapply codes_AddSlot.
  - by apply (codes_same _ s).
Qed.

(** ** Balances *)

Definition bal s a : Z := match existing s a with Some o => Balance (data o) | None => 0 end.

Lemma GetBalance_bal a s : (StateDB.GetBalance a s).1 = bal s a.
Proof. exact (read_answer (λ x, match x with Some o => Balance (data o) | None => 0 end) s a). Qed.

Lemma bal_eq s s' a : state_eq s' s → is_address a → bal s' a = bal s a.
Proof. intros E Ha. unfold bal. destruct (existing_eq _ _ a E Ha) as [o1 o2 []|]; [by f_equal|done]. Qed.

Lemma bal_same s s' a :
  stateObjects s' = stateObjects s → trie s' = trie s → snap s' = snap s → bal s' a = bal s a.
Proof. intros E1 E2 E3. unfold bal, existing. by rewrite (view_ext s' s) by (done || by rewrite E1). Qed.

Lemma bal_append e s a : bal (append e s) a = bal s a.
Proof. by apply bal_same; unfold append; destruct (dirtied e). Qed.

Lemma bal_set o s b :
  bal (setStateObject o s) b =
    if bool_decide (b = address o) then (if deleted o then 0 else Balance (data o)) else bal s b.
Proof. unfold bal, existing. rewrite set_view. case_bool_decide; [|done]. by destruct (deleted o). Qed.

(** The same balance in a new object. *)
Lemma bal_set_kept o s b :
  deleted o = false → bal s (address o) = Balance (data o) → bal (setStateObject o s) b = bal s b.
Proof. intros Hd Hb. rewrite bal_set. case_bool_decide; [|done]. subst b. by rewrite Hd. Qed.

Lemma bal_created s a n b :
  address n = a → deleted n = false →
  bal (created s a n) b = if bool_decide (b = a) then Balance (data n) else bal s b.
Proof.
  intros An Dn. unfold created.
  assert (∀ e t, stateObjects t = stateObjects s → trie t = trie s → snap t = snap s →
    bal (setStateObject n (append e t)) b = if bool_decide (b = a) then Balance (data n) else bal s b) as Ht.
  { intros e t E1 E2 E3. rewrite bal_set, An, Dn, bal_append. case_bool_decide; [done|]. by apply bal_same. }
  destruct (view s a); [|by apply Ht]. clear -Ht. apply Ht; clear Ht; destruct (snap s) eqn:Es; try done; by case_match.
Qed.

(** What an operation does to the balances. *)
Definition bal_effect (q : state_op) s b : Z :=
  match q with
  | OpAddBalance a v => if bool_decide (b = a) then bal s b + v else bal s b
  | OpSubBalance a v => if bool_decide (b = a) then bal s b - v else bal s b
  | OpSetBalance a v => if bool_decide (b = a) then v else bal s b
  | OpSuicide a => if bool_decide (b = a) then 0 else bal s b
  | _ => bal s b
  end.

Lemma bal_createObject s a b :
  wf s → is_address a → is_address b → existing s a = None → bal (createObject a s).2 b = bal s b.
Proof.
  intros W Ha Hb He. rewrite (createObject_created Hlen Hinj) by done. cbn [snd].
  destruct (getDeleted_step Hlen Hinj s a (wf_objs _ W) Ha) as (E & _).
  rewrite bal_created by done. case_bool_decide as Eb; [|by apply bal_eq]. subst b. unfold bal. by rewrite He.
Qed.

Lemma bal_CreateAccount s a b : wf s → is_address a → is_address b → bal (StateDB.CreateAccount a s) b = bal s b.
Proof.
  intros W Ha Hb. pose proof (bal_createObject s a b W Ha Hb) as Hk. unfold StateDB.CreateAccount.
  rewrite (createObject_created Hlen Hinj) in * by done. cbn [snd] in Hk.
  destruct (getDeleted_step Hlen Hinj s a (wf_objs _ W) Ha) as (E & _).
  unfold existing in Hk. destruct (view s a) as [p|] eqn:V; [|by apply Hk].
  destruct (deleted p) eqn:Ed; [by apply Hk|]. rewrite bal_set, bal_created by done. cbn. case_bool_decide as Eb.
  - subst b. unfold bal, existing. by rewrite V, Ed.
  - by apply bal_eq.
Qed.

Lemma bal_get_or_new s a b :
  wf s → is_address a → is_address b →
  let x := GetOrNewStateObject a s in
  bal x.2 b = bal s b ∧ address x.1 = a ∧ deleted x.1 = false ∧ Balance (data x.1) = bal s a.
Proof.
  intros W Ha Hb. destruct (GetOrNew_step Hlen Hinj s a W Ha) as (es & [W' _ _ _ _ _ _ _] & Hl & Hd).
  assert (∀ c, is_address c → bal (GetOrNewStateObject a s).2 c = bal s c) as Hk.
  { intros c Hc. unfold GetOrNewStateObject. rewrite getStateObject_view. fold (existing s a).
    destruct (getDeleted_steps Hlen Hinj s a W Ha) as [[W1 _ _ _ _ _ _ _] _].
    destruct (getDeleted_step Hlen Hinj s a (wf_objs _ W) Ha) as (E & _).
    destruct (existing s a) as [o|] eqn:He; [by apply bal_eq|].
    pose proof (existing_eq _ _ a E Ha) as Ho. rewrite He in Ho.
    pose proof (bal_createObject (getDeletedStateObject a s).2 a c W1 Ha Hc) as Hx.
    destruct (createObject a _) as [[o p] s1]. cbn [snd] in *. rewrite Hx; [by apply bal_eq|by inversion Ho]. }
  cbn zeta. split; [by apply Hk|]. destruct W' as [Wo _ _]. destruct (cw_objects _ Wo a _ Hl) as [_ [Ao _ _ _]].
  split; [done|]. split; [done|]. rewrite <- (Hk a Ha). unfold bal, existing. by rewrite view_unfold, Hl, Hd.
Qed.

Lemma bal_on_object f s a b v :
  wf s → is_address a → is_address b →
  (∀ o t, deleted o = false → Balance (data o) = bal t (address o) →
     bal (f o t) b = if bool_decide (b = address o) then v (Balance (data o)) else bal t b) →
  bal (on_object f a s) b = if bool_decide (b = a) then v (bal s a) else bal s b.
Proof.
  intros W Ha Hb Hf. destruct (bal_get_or_new s a b W Ha Hb) as (E & Ao & Do & Bo).
  destruct (bal_get_or_new s a a W Ha Ha) as (Ea & _). unfold on_object.
  destruct (GetOrNewStateObject a s) as [o s1]. cbn in *. rewrite Hf; [|done|by rewrite Ao, Ea].
  by rewrite Ao, Bo, E.
Qed.

Lemma bal_SetBalance v o t b :
  deleted o = false → bal (obj_SetBalance v o t) b = if bool_decide (b = address o) then v else bal t b.
Proof. intros Hd. unfold obj_SetBalance. rewrite bal_set, bal_append. cbn. by rewrite Hd. Qed.

(** Setters of other fields. *)
Lemma bal_setter o o' e t b :
  deleted o = false → Balance (data o) = bal t (address o) →
  address o' = address o → deleted o' = deleted o → Balance (data o') = Balance (data o) →
  bal (setStateObject o' (append e t)) b = if bool_decide (b = address o) then Balance (data o) else bal t b.
Proof. intros Hd Hb Ea Ed Eb. rewrite bal_set, bal_append, Ea, Ed, Hd, Eb. done. Qed.

Lemma bal_SetState k v o t b :
  deleted o = false → Balance (data o) = bal t (address o) →
  bal (obj_SetState k v o t) b = if bool_decide (b = address o) then Balance (data o) else bal t b.
Proof.
  intros Hd Hb. unfold obj_SetState. destruct (fakeStorage o); [rewrite bal_set; cbn; by rewrite Hd|].
  destruct (cached_state_step t o k) as [Ea _ Ed _ _ _ _ Edel _ _ _].
  destruct (obj_GetState t k o) as [prev o']. cbn [fst snd] in *.
  destruct (bool_decide (prev = v)); [rewrite bal_set; by rewrite Ea, Edel, Hd, Ed|]. apply (bal_setter o); cbn; congruence.
Qed.

Lemma bal_SetCode h c o t b :
  deleted o = false → Balance (data o) = bal t (address o) →
  bal (obj_SetCode h c o t) b = if bool_decide (b = address o) then Balance (data o) else bal t b.
Proof.
  intros Hd Hb. unfold obj_SetCode. destruct (cached_Code t o) as [Ea _ Ed _ _ _ _ Edel _ _ _].
  destruct (StateDB.Code o) as [prev o']. cbn [fst snd] in *. apply (bal_setter o); cbn; congruence.
Qed.

Lemma bal_Suicide s a b :
  wf s → is_address a → is_address b → bal (StateDB.Suicide a s).2 b = if bool_decide (b = a) then 0 else bal s b.
Proof.
  intros W Ha Hb. unfold StateDB.Suicide. rewrite getStateObject_view. fold (existing s a).
  destruct (getDeleted_step Hlen Hinj s a (wf_objs _ W) Ha) as (E & _).
  destruct (existing s a) as [o|] eqn:He.
  - assert (address o = a ∧ deleted o = false) as [Ao Do].
    { unfold existing in He. destruct (view s a) as [o'|] eqn:V; [|done]. destruct (deleted o') eqn:D; [done|].
      injection He as ->. by destruct (view_wf Hlen s a o (wf_objs _ W) Ha V). }
    cbn [snd]. rewrite bal_set, bal_append. cbn. rewrite Ao, Do. case_bool_decide; [done|by apply bal_eq].
  - cbn [snd]. rewrite (bal_eq s) by done. case_bool_decide; [|done]. subst b. unfold bal. by rewrite He.
Qed.

Lemma bal_exec q s s' id b :
  wf s → op_wf id q → op_fits q → is_address b →
  exec q s = Some s' → bal s' b = bal_effect q s b.
Proof.
  intros W Wq Hq Hb Ex. destruct (is_query q) eqn:Eq.
  { rewrite (bal_eq s) by (done || by eapply query_eq). by destruct q. }
  destruct q; cbn [op_wf exec is_query bal_effect] in *; try done; try (injection Ex as <-).
  - by apply bal_CreateAccount.
  - etransitivity; [apply (bal_on_object _ s a b (λ x, x + v)); try done|by case_bool_decide; subst].
    intros o t Hd Ht. unfold obj_AddBalance. destruct (Z.eqb_spec v 0) as [->|]; [|by apply bal_SetBalance].
    rewrite Z.add_0_r, Ht. assert (bal (if empty o then touch o t else t) b = bal t b) as ->.
    { destruct (empty o); [|done]. unfold touch. case_bool_decide; [|apply bal_append]. by apply bal_same. }
    case_bool_decide; by subst.
  - etransitivity; [apply (bal_on_object _ s a b (λ x, x - v)); try done|by case_bool_decide; subst].
    intros o t Hd Ht. unfold obj_SubBalance. destruct (Z.eqb_spec v 0) as [->|]; [|by apply bal_SetBalance].
    rewrite Z.sub_0_r, Ht. case_bool_decide; by subst.
  - etransitivity; [apply (bal_on_object _ s a b (λ x, v)); try done|done]. intros o t Hd Ht. by apply bal_SetBalance.
  - etransitivity; [apply (bal_on_object _ s a b (λ x, x)); try done|by case_bool_decide; subst].
    intros o t Hd Ht. by apply bal_setter.
  - etransitivity; [apply (bal_on_object _ s a b (λ x, x)); try done|by case_bool_decide; subst].
    intros o t Hd Ht. by apply bal_SetCode.
  - etransitivity; [apply (bal_on_object _ s a b (λ x, x)); try done|by case_bool_decide; subst].
    intros o t Hd Ht. by apply bal_SetState.
  - by apply bal_Suicide.
  - by apply bal_same.
  - unfold StateDB.AddPreimage. by case_match; [|apply bal_same].
  - by apply bal_same.
  - revert Ex. unfold StateDB.SubRefund. case_match; [done|]. intros [= <-]. by apply bal_same.
  - unfold StateDB.AddAddressToAccessList. destruct (AddAddress _ a) as [[] al]; by apply bal_same.
  - revert Ex. unfold StateDB.AddSlotToAccessList. destruct (AddSlot _ a k) as [[[am sm] al]|]; [|done].
    intros [= <-]. destruct am, sm; by apply bal_same.
  - by apply bal_same.
Qed.

(** ** The laws *)

(** Balances are not negative. *)
Definition money_ok s : Prop := ∀ a, is_address a → 0 ≤ bal s a.
Definition db_ok s : Prop := state_wf s ∧ codes_ok s ∧ money_ok s.

Lemma exec_all_wf qs s s' id :
  state_wf s → codes_ok s → Forall (op_wf id) qs → Forall op_fits qs → exec_all qs s = Some s' → state_wf s' ∧ codes_ok s'.
Proof.
  intros Hw Hc Wq Hq. revert s Hw Hc. induction Wq as [|q qs Wq _ IH]; intros s Hw Hc; cbn; [by intros [= <-]|].
  apply Forall_cons in Hq as [Hq Hqs]. destruct (exec q s) as [s1|] eqn:E; [|done]. apply IH; [done|..].
  - by eapply state_wf_exec.
  - by eapply codes_exec.
Qed.

(** How a step moves money. *)
Inductive flow (f f' : Address → Z) : Prop :=
| flow_none : (∀ x, is_address x → f' x = f x) → flow f f'
| flow_transfer a b v :
    is_address a → is_address b → 0 ≤ v ≤ f a →
    (∀ x, is_address x → f' x = f x - (if bool_decide (x = a) then v else 0) + (if bool_decide (x = b) then v else 0)) →
    flow f f'
| flow_destruct a b :
    is_address a → is_address b →
    (∀ x, is_address x → f' x = if bool_decide (x = a) then 0 else f x + (if bool_decide (x = b) then f a else 0)) →
    flow f f'.

Lemma quiet_bal q s b : quiet q = true → bal_effect q s b = bal s b.
Proof.
  destruct q; cbn; try done; intros Hv; apply Z.eqb_eq in Hv as ->; case_bool_decide; rewrite ?Z.add_0_r, ?Z.sub_0_r; done.
Qed.

Lemma quiet_flow qs s s' id :
  state_wf s → Forall (op_wf id) qs → Forall op_fits qs → Forall (λ q, quiet q = true) qs →
  exec_all qs s = Some s' → ∀ b, is_address b → bal s' b = bal s b.
Proof.
  intros Hw Wq Hq Hk. revert s Hw. induction Wq as [|q qs Wq _ IH]; intros s Hw; cbn; [by intros [= <-]|].
  apply Forall_cons in Hq as [Hq Hqs], Hk as [Hk Hks]. destruct (exec q s) as [s1|] eqn:E; [|done]. intros Ex b Hb.
  rewrite (IH Hqs Hks s1) by (done || by eapply state_wf_exec).
  rewrite (bal_exec q s s1 id b) by (done || apply Hw). by apply quiet_bal.
Qed.

Lemma state_step_flow ro s s' : state_wf s → state_step ro s s' → flow (bal s) (bal s').
Proof.
  intros Hw Hst. destruct (state_step_exec _ _ _ 0 Hst) as (qs & Wq & Ex & Hq & Hm).
  destruct Hm as [qs Hk|a b v Ha Hb Hv|a b Ha Hb].
  - apply flow_none. by eapply quiet_flow.
  - cbn in Ex. injection Ex as <-. rewrite GetBalance_bal in Hv.
    assert (state_wf (StateDB.SubBalance a v s)) as Hw1 by (by eapply (state_wf_exec (OpSubBalance a v) s _ 0)).
    apply (flow_transfer _ _ a b v); try done. intros x Hx.
    rewrite (bal_exec (OpAddBalance b v) (StateDB.SubBalance a v s) _ 0 x) by (done || apply Hw1).
    cbn. rewrite (bal_exec (OpSubBalance a v) s _ 0 x) by (done || apply Hw). cbn.
    repeat case_bool_decide; lia.
  - cbn in Ex. injection Ex as <-. rewrite GetBalance_bal. set (s1 := (StateDB.GetBalance a s).2).
    assert (state_wf s1) as Hw1 by (by eapply (state_wf_exec (OpGetBalance a) s _ 0)).
    assert (∀ x, is_address x → bal s1 x = bal s x) as H1.
    { intros x Hx. by rewrite (bal_exec (OpGetBalance a) s _ 0 x) by (done || apply Hw). }
    set (s2 := StateDB.AddBalance b (bal s a) s1).
    assert (state_wf s2) as Hw2 by (by eapply (state_wf_exec (OpAddBalance b (bal s a)) s1 _ 0)).
    apply (flow_destruct _ _ a b); try done. intros x Hx.
    rewrite (bal_exec (OpSuicide a) s2 _ 0 x) by (done || apply Hw2). cbn. case_bool_decide; [done|].
    unfold s2. rewrite (bal_exec (OpAddBalance b (bal s a)) s1 _ 0 x) by (done || apply Hw1). cbn. rewrite H1 by done.
    case_bool_decide; lia.
Qed.

Lemma flow_money f f' : flow f f' → (∀ a, is_address a → 0 ≤ f a) → ∀ a, is_address a → 0 ≤ f' a.
Proof.
  intros Hf Hp x Hx. destruct Hf as [Hf|a b v Ha Hb Hv Hf|a b Ha Hb Hf]; rewrite Hf by done; pose proof (Hp x Hx).
  - done.
  - repeat case_bool_decide; subst; lia.
  - pose proof (Hp a Ha). repeat case_bool_decide; subst; lia.
Qed.

Lemma db_ok_step ro s s' : db_ok s → state_step ro s s' → db_ok s'.
Proof.
  intros (Hw & Hc & Hm) Hst. destruct (state_step_exec _ _ _ 0 Hst) as (qs & Wq & Ex & Hq & _).
  destruct (exec_all_wf qs s s' 0) as [Hw' Hc']; try done. split; [done|]. split; [done|].
  exact (flow_money _ _ (state_step_flow _ _ _ Hw Hst) Hm).
Qed.

Lemma db_ok_eq s s' : db_ok s → state_wf s' → state_eq s' s → db_ok s'.
Proof.
  intros (Hw & Hc & Hm) Hw' E. split; [done|]. split; [by eapply codes_eq|]. intros a Ha.
  rewrite (bal_eq s) by done. by apply Hm.
Qed.

Lemma db_ok_evolves ro s s' : db_ok s → evolves ro s s' → db_ok s'.
Proof.
  intros Hs He. revert Hs. induction He as [|s1 s2 s3 _ IH Hst|s1 s2 s3 s4 _ IH1 Hev _ Hr]; intros Hs; [done| |].
  - eapply db_ok_step; [by apply IH|done].
  - apply IH1 in Hs as Hs2. destruct (evolves_revert _ _ _ (proj1 Hs2) Hev) as (s' & R & E & W').
    change (StateDB.RevertToSnapshot (StateDB.Snapshot s2).1 s3 = Some s4) in Hr. rewrite R in Hr. injection Hr as ->.
    by eapply db_ok_eq.
Qed.

Lemma db_code_bound s a : db_ok s → is_address a → len (default [] (StateDB.GetCode a s).1) < 2 ^ 63.
Proof.
  intros [(W & _) [Hc _]] Ha. unfold StateDB.GetCode. rewrite getStateObject_view.
  destruct (view s a) as [o|] eqn:V; [|by vm_compute]. destruct (deleted o); [by vm_compute|].
  pose proof (Hc a o Ha V) as Ho. unfold code_ok, code_of in Ho. by destruct (StateDB.Code o).
Qed.

Lemma calm_bal s s' a : state_wf s → calm_step s s' → is_address a → bal s' a = bal s a.
Proof.
  intros Hw Hst Ha.
  assert (∀ q, op_wf 0 q → op_fits q → quiet q = true → exec q s = Some s' → bal s' a = bal s a) as Hq.
  { intros q Wq Hf Hk Ex. rewrite (bal_exec q s s' 0 a) by (done || apply Hw). by apply quiet_bal. }
  destruct Hst as [b s|b s|b s|b s|b s|s|b s|b n s].
  - by apply (Hq (OpGetBalance b)).
  - by apply (Hq (OpGetNonce b)).
  - by apply (Hq (OpGetCodeHash b)).
  - by apply (Hq (OpExist b)).
  - by apply (Hq (OpAddAddress b)).
  - by apply (Hq OpSnapshot).
  - by apply (Hq (OpCreateAccount b)).
  - by apply (Hq (OpSetNonce b n)).
Qed.

#[export] Instance statedb_laws : @StateLaws statedb_access.
Proof.
  refine {| state_ok := db_ok |}.
  - intros ro s s'. apply db_ok_evolves.
  - intros ro s s' [Hw _] He. destruct (evolves_revert _ _ _ Hw He) as (s1 & R & _). by exists s1.
  - intros s a k [(W & _) _]. cbn. unfold StateDB.SlotInAccessList. rewrite Contains_view; [by eexists|apply W].
  - intros s a k [(W & _) _]. cbn. destruct (AddSlot_step Hlen Hinj s a k W) as (s' & es & E & _). by exists s'.
  - intros s a Hs Ha. cbn. pose proof (db_code_bound s a Hs Ha) as Hb. by destruct (StateDB.GetCode a s).
  - intros s s' a (Hw & _) Ha Hst. cbn. rewrite !GetBalance_bal. eapply calm_bal; [exact Hw|exact Hst|exact Ha].
Defined.
End state.
