(* ===== verification/VmReadOnly.v ===== *)
(** * Read-only evolution of the state database

    What the virtual machine can do to the state database in read-only mode
    ([evolves true]): balances, nonces, codes, suicides, refund and logs stay
    as they are, and so does the storage of every account.  New accounts may
    appear, but only empty ones (the touch of [StaticCall], and [Call] of a
    missing account before EIP 158). *)
From S2P Require Import Prelude RlpEncode RlpRaw RlpDecode AccessList StateDB StateRevert Opcodes Params ChainConfig VmBase VmMachine Precompiles VmSmoke VmOps VmLogic VmState.
Local Open Scope Z_scope.

Section read_only.
Context `{BackendLaws}.
Implicit Types (s : StateDB.StateDB) (o : stateObject).

Abbreviation Hlen := law_hash_length.
Abbreviation Hinj := law_hash_address.

(** An object that was not there before. *)
Record fresh o : Prop := {
  fo_nonce : Nonce (data o) = 0;
  fo_balance : Balance (data o) = 0;
  fo_hash : obj_CodeHash o = StateDB.emptyCodeHash;
  fo_code : code_of o = None;
  fo_suicided : suicided o = false
}.

Definition object_kept s s' (x x' : option stateObject) : Prop :=
  match x, x' with
  | Some o, Some o' => obj_eq s o' o ∧ same_env s' s (addrHash o)
  | None, Some o' => fresh o'
  | None, None => True
  | Some _, None => False
  end.

Record kept s s' : Prop := {
  kp_refund : refund s' = refund s;
  kp_logs : logs s' = logs s;
  kp_logSize : logSize s' = logSize s;
  kp_object a : is_address a → object_kept s s' (existing s a) (existing s' a)
}.

Lemma fresh_eq s o o' : obj_eq s o' o → fresh o → fresh o'.
Proof. intros [] []. unfold obj_CodeHash in *. split; unfold obj_CodeHash; congruence. Qed.

Lemma kept_eq s s' : state_eq s' s → kept s s'.
Proof.
  intros E. pose proof E as E'. destruct E'. split; try done. intros a Ha.
  destruct (existing_eq _ _ a E Ha) as [o' o O|]; [|done].
  pose proof (state_eq_env _ _ (addrHash o) E) as Henv. split; [|done].
  eapply obj_eq_env; [|exact O]. by rewrite (oe_addrHash _ _ _ O).
Qed.

Lemma kept_refl s : kept s s.
Proof. apply kept_eq, state_eq_refl. Qed.

Lemma same_env_trans s1 s2 s3 h : same_env s1 s2 h → same_env s2 s3 h → same_env s1 s3 h.
Proof. unfold same_env. intros [E1 E2] [E3 E4]. split; [congruence|]. by rewrite E2. Qed.

Lemma kept_trans s1 s2 s3 : kept s1 s2 → kept s2 s3 → kept s1 s3.
Proof.
  intros [R1 L1 S1 O1] [R2 L2 S2 O2]. split; try congruence. intros a Ha. specialize (O1 a Ha). specialize (O2 a Ha).
  unfold object_kept in *. destruct (existing s1 a) as [o1|], (existing s2 a) as [o2|], (existing s3 a) as [o3|]; try done.
  - destruct O1 as [E1 V1], O2 as [E2 V2]. pose proof (oe_addrHash _ _ _ E1) as A1. pose proof (oe_addrHash _ _ _ E2) as A2.
    split; [|by rewrite A1 in V2; eapply same_env_trans].
    eapply obj_eq_trans; [|exact E1]. eapply obj_eq_env; [|exact E2]. by rewrite A2, A1.
  - destruct O2 as [E2 _]. by eapply fresh_eq.
Qed.

(** Changes outside the accounts. *)
Lemma kept_same s s' :
  stateObjects s' = stateObjects s → trie s' = trie s → snap s' = snap s → snapDestructs s' = snapDestructs s →
  refund s' = refund s → logs s' = logs s → logSize s' = logSize s → kept s s'.
Proof.
  intros E1 E2 E3 E4 E5 E6 E7. split; try done. intros a Ha. unfold existing.
  rewrite (view_ext s' s) by (done || by rewrite E1). destruct (view s a) as [o|]; [|done].
  destruct (deleted o); [done|]. split; [apply obj_eq_refl|by apply same_env_eq].
Qed.
Lemma kept_append e s : kept s (append e s).
Proof. unfold append. by case_match; apply kept_same. Qed.

(** ** Steps *)

Lemma new_fresh a : fresh (setNonce 0 (newObject a emptyAccount)).
Proof.
  split; try done. rewrite code_of_unfold. cbn. unfold obj_CodeHash. cbn. by rewrite bool_decide_true.
Qed.

(** A new object where there was none, or a deleted one. *)
Lemma kept_created s a n :
  wf s → is_address a → existing s a = None → address n = a → deleted n = false → fresh n → kept s (created s a n).
Proof.
  intros W Ha He An Dn Fn. unfold created.
  assert (∀ s1 e, stateObjects s1 = stateObjects s → trie s1 = trie s → snap s1 = snap s →
    (∀ b o, b ≠ a → is_address b → existing s b = Some o → same_env s1 s (addrHash o)) →
    refund s1 = refund s → logs s1 = logs s → logSize s1 = logSize s →
    kept s (setStateObject n (append e s1))) as Hk.
  { intros s1 e E1 E2 E3 Henv E4 E5 E6. split; [unfold append; by destruct (dirtied e)..|].
    intros b Hb. unfold existing in *. rewrite set_view, An. case_bool_decide as Eb.
    - subst b. rewrite He, Dn. done.
    - assert (view (append e s1) b = view s b) as ->.
      { apply view_ext; unfold append; destruct (dirtied e); cbn; congruence. }
      destruct (view s b) as [o|] eqn:V; [|done]. destruct (deleted o) eqn:D; [done|]. split; [apply obj_eq_refl|].
      specialize (Henv b o Eb Hb). rewrite V, D in Henv. specialize (Henv eq_refl). unfold same_env in *.
      unfold append; by destruct (dirtied e). }
  destruct (view s a) as [p|] eqn:Va; [|by apply Hk].
  assert (addrHash p = StateDB.Keccak256 a) as Hp by (by destruct (view_wf Hlen s a p (wf_objs _ W) Ha Va)).
  destruct (snap s) as [sn|] eqn:Es; [|by apply Hk].
  case_bool_decide as Ed; [by apply Hk; try apply kept_refl|].
  assert (∀ b o, b ≠ a → is_address b → existing s b = Some o → addrHash o ≠ addrHash p) as Hne.
  { intros b o Hba Hb. unfold existing. destruct (view s b) as [o'|] eqn:Vb; [|done].
    destruct (deleted o'); [done|]. intros [= ->] Heq. apply Hba.
    destruct (view_wf Hlen s b o (wf_objs _ W) Hb Vb) as [_ Ho _ _]. apply Hinj; [done|done|congruence]. }
  apply Hk; try done. intros b o Hb1 Hb2 Ho. specialize (Hne b o Hb1 Hb2 Ho). split; [done|]. cbn. set_solver.
Qed.

Lemma existing_same s s' a : state_eq s' s → is_address a → existing s a = None → existing s' a = None.
Proof. intros E Ha He. pose proof (existing_eq _ _ a E Ha) as Ho. rewrite He in Ho. by inversion Ho. Qed.

(** [createObject] of a missing account. *)
Lemma kept_createObject s a :
  wf s → is_address a → existing s a = None → kept s (createObject a s).2.
Proof.
  intros W Ha He. rewrite (createObject_created Hlen Hinj) by done. cbn [snd].
  destruct (getDeleted_step Hlen Hinj s a (wf_objs _ W) Ha) as (E & _).
  destruct (getDeleted_steps Hlen Hinj s a W Ha) as [[W1 _ _ _ _ _ _ _] _].
  eapply kept_trans; [by apply kept_eq|]. apply kept_created; try done; [by eapply existing_same|apply new_fresh].
Qed.

Lemma kept_CreateAccount s a : wf s → is_address a → existing s a = None → kept s (StateDB.CreateAccount a s).
Proof.
  intros W Ha He. pose proof (kept_createObject s a W Ha He) as Hk. unfold StateDB.CreateAccount.
  rewrite (createObject_created Hlen Hinj) in * by done. unfold existing in He.
  destruct (view s a) as [p|]; [|done]. by destruct (deleted p).
Qed.

Lemma kept_get_or_new s a : wf s → is_address a → kept s (GetOrNewStateObject a s).2.
Proof.
  intros W Ha. unfold GetOrNewStateObject. rewrite getStateObject_view.
  destruct (getDeleted_step Hlen Hinj s a (wf_objs _ W) Ha) as (E & _).
  destruct (getDeleted_steps Hlen Hinj s a W Ha) as [[W1 _ _ _ _ _ _ _] _].
  fold (existing s a). destruct (existing s a) as [o|] eqn:He; [by apply kept_eq|].
  pose proof (kept_createObject _ a W1 Ha (existing_same _ _ a E Ha He)) as Hk.
  destruct (createObject a _) as [[o p] s1]. eapply kept_trans; [by apply kept_eq|exact Hk].
Qed.

Lemma kept_touch f s a : wf s → is_address a → (∀ o s, kept s (f o s)) → kept s (on_object f a s).
Proof.
  intros W Ha Hf. pose proof (kept_get_or_new s a W Ha) as Hk. unfold on_object.
  destruct (GetOrNewStateObject a s) as [o s1]. eapply kept_trans; [exact Hk|apply Hf].
Qed.

Lemma kept_step s s' : db_ok s → state_step true s s' → kept s s'.
Proof.
  intros [(W & _) _].
  assert (∀ q, op_wf 0 q → is_query q = true → exec q s = Some s' → kept s s') as Hq.
  { intros q Wq Hq Ex. apply kept_eq. by eapply query_eq. }
  destruct 1; try done; cbn in *.
  - by apply (Hq (OpGetBalance a)).
  - by apply (Hq (OpGetNonce a)).
  - by apply (Hq (OpGetCodeHash a)).
  - apply (Hq (OpGetCode a)); try done. cbn. by destruct (StateDB.GetCode a s).
  - by apply (Hq (OpGetCodeSize a)).
  - by apply (Hq (OpGetCommittedState a k)).
  - by apply (Hq (OpGetState a k)).
  - by apply (Hq (OpHasSuicided a)).
  - by apply (Hq (OpExist a)).
  - by apply (Hq (OpEmpty a)).
  - unfold StateDB.AddAddressToAccessList. destruct (AddAddress _ a) as [[] al]; [|by apply kept_same].
    eapply kept_trans; [|apply kept_append]. by apply kept_same.
  - revert H1. unfold StateDB.AddSlotToAccessList. destruct (AddSlot _ a k) as [[[am sm] al]|]; [|done].
    intros [= <-]. eapply (kept_trans _ (set_accessList_ al s)); [by apply kept_same|].
    destruct am, sm; try apply kept_append; [|apply kept_refl]. eapply kept_trans; apply kept_append.
  - unfold StateDB.AddPreimage. case_match; [apply kept_refl|by apply kept_same].
  - by apply kept_same.
  - apply kept_touch; try done. intros o t. unfold obj_AddBalance, touch. cbn. destruct (empty o); [|apply kept_refl].
    by case_match; apply kept_same.
  - apply kept_touch; try done. intros o t. apply kept_refl.
  - pose proof (query_eq (OpExist a) s _ 0 W H1 eq_refl eq_refl) as E.
    assert (wf (StateDB.Exist a s).2) as W'.
    { destruct (exec_step Hlen Hinj 0 (OpExist a) s _ W H1 eq_refl) as [es S]. by destruct S. }
    eapply kept_trans; [by apply kept_eq|]. apply kept_CreateAccount; try done. eapply existing_same; try done.
    revert H2. unfold StateDB.Exist. rewrite getStateObject_view. fold (existing s a). by destruct (existing s a).
Qed.

(** ** Evolution *)

Lemma kept_evolves s s' : db_ok s → evolves true s s' → kept s s'.
Proof.
  intros Hs He. revert Hs. induction He as [|s1 s2 s3 H12 IH Hst|s1 s2 s3 s4 H12 IH1 Hev _ Hr]; intros Hs;
    [apply kept_refl| |].
  - eapply kept_trans; [by apply IH|]. apply kept_step; [by eapply db_ok_evolves|done].
  - eapply kept_trans; [by apply IH1|]. destruct (db_ok_evolves _ _ _ Hs H12) as [Hw _].
    destruct (evolves_revert _ _ _ Hw Hev) as (s' & R & E & _).
    change (StateDB.RevertToSnapshot (StateDB.Snapshot s2).1 s3 = Some s4) in Hr. rewrite R in Hr. injection Hr as ->.
    by apply kept_eq.
Qed.

(** ** Answers *)

(** What reading the two states gives. *)
Record reads_same s s' : Prop := {
  rs_Empty a : is_address a → (StateDB.Empty a s').1 = (StateDB.Empty a s).1;
  rs_GetBalance a : is_address a → (StateDB.GetBalance a s').1 = (StateDB.GetBalance a s).1;
  rs_GetNonce a : is_address a → (StateDB.GetNonce a s').1 = (StateDB.GetNonce a s).1;
  rs_GetCode a : is_address a → (StateDB.GetCode a s').1 = (StateDB.GetCode a s).1;
  rs_GetCodeSize a : is_address a → (StateDB.GetCodeSize a s').1 = (StateDB.GetCodeSize a s).1;
  rs_HasSuicided a : is_address a → (StateDB.HasSuicided a s').1 = (StateDB.HasSuicided a s).1;
  rs_Exist a : is_address a → (StateDB.Exist a s).1 = true → (StateDB.Exist a s').1 = true;
  rs_GetState a k : is_address a → (StateDB.Exist a s).1 = true →
    (StateDB.GetState a k s').1 = (StateDB.GetState a k s).1;
  rs_GetCommittedState a k : is_address a → (StateDB.Exist a s).1 = true →
    (StateDB.GetCommittedState a k s').1 = (StateDB.GetCommittedState a k s).1;
  rs_GetRefund : GetRefund s' = GetRefund s;
  rs_GetLogs h : GetLogs h s' = GetLogs h s
}.

Lemma Exist_existing a s : (StateDB.Exist a s).1 = match existing s a with Some _ => true | None => false end.
Proof. exact (read_answer (λ x, match x with Some _ => true | None => false end) s a). Qed.

Lemma kept_reads s s' : objs_wf s → objs_wf s' → kept s s' → reads_same s s'.
Proof.
  intros W W' [R L S O]. split; try (intros a Ha; pose proof (O a Ha) as Oa; unfold object_kept in Oa).
  - answers (read_answer (λ x, match x with Some o => empty o | None => true end)).
    destruct (existing s a) as [o|], (existing s' a) as [o'|]; try done.
    + destruct Oa as [[] _]. unfold empty, obj_CodeHash. by rewrite oe_data.
    + destruct Oa. unfold empty. rewrite fo_nonce0, fo_balance0, fo_hash0. by rewrite bool_decide_true.
  - answers (read_answer (λ x, match x with Some o => Balance (data o) | None => 0 end)).
    destruct (existing s a), (existing s' a); try done; [destruct Oa as [[] _]; congruence|by destruct Oa].
  - answers (read_answer (λ x, match x with Some o => Nonce (data o) | None => 0 end)).
    destruct (existing s a), (existing s' a); try done; [destruct Oa as [[] _]; congruence|by destruct Oa].
  - answers (getter_answer (λ _ o, StateDB.Code o) None).
    destruct (existing s a), (existing s' a); try done; [by destruct Oa as [[] _]|by destruct Oa].
  - answers (getter_answer (λ _ o, CodeSize o) 0).
    destruct (existing s a), (existing s' a) as [o'|]; try done; [by destruct Oa as [[] _]|].
    fold (code_size o'). rewrite code_size_of. by rewrite (fo_code _ Oa).
  - answers (read_answer (λ x, match x with Some o => suicided o | None => false end)).
    destruct (existing s a), (existing s' a); try done; [destruct Oa as [[] _]; congruence|by destruct Oa].
  - rewrite !Exist_existing. by destruct (existing s a), (existing s' a).
  - intros a k Ha Hx. pose proof (O a Ha) as Oa. unfold object_kept in Oa. rewrite Exist_existing in Hx.
    answers (getter_answer (λ s o, obj_GetState s k o) zero_hash).
    destruct (existing s a) as [o|], (existing s' a) as [o'|]; try done. destruct Oa as [Oa V].
    fold (slot (getDeletedStateObject a s').2 o' k) (slot (getDeletedStateObject a s).2 o k).
    rewrite (slot_env (getDeletedStateObject a s').2 s'), (slot_env (getDeletedStateObject a s).2 s)
      by (by apply (getDeleted_env Hlen Hinj)).
    rewrite <- (oe_slot _ _ _ Oa). apply slot_env. by rewrite (oe_addrHash _ _ _ Oa).
  - intros a k Ha Hx. pose proof (O a Ha) as Oa. unfold object_kept in Oa. rewrite Exist_existing in Hx.
    answers (getter_answer (λ s o, obj_GetCommittedState s k o) zero_hash).
    destruct (existing s a) as [o|], (existing s' a) as [o'|]; try done. destruct Oa as [Oa V].
    fold (committed (getDeletedStateObject a s').2 o' k) (committed (getDeletedStateObject a s).2 o k).
    rewrite (committed_env (getDeletedStateObject a s').2 s'), (committed_env (getDeletedStateObject a s).2 s)
      by (by apply (getDeleted_env Hlen Hinj)).
    rewrite <- (oe_committed _ _ _ Oa). apply committed_env. by rewrite (oe_addrHash _ _ _ Oa).
  - done.
  - unfold GetLogs. intros h. by rewrite L.
Qed.
End read_only.
