(* ===== verification/VmSupply.v ===== *)
(** * Money in the state database

    The virtual machine creates no money: over any finite set of accounts that
    includes those it has touched, the sum of the balances after an execution
    is at most the sum before.  It is less only when a contract has destructed
    itself in its own favour. *)
From S2P Require Import Prelude RlpEncode RlpRaw RlpDecode AccessList StateDB StateRevert Opcodes Params ChainConfig VmBase VmMachine Precompiles VmSmoke VmOps VmLogic VmState.
Local Open Scope Z_scope.

(** ** Sums over accounts *)

Definition total (X : list Address) (f : Address → Z) : Z := foldr (λ a n, f a + n) 0 X.

Lemma total_cons a X f : total (a :: X) f = f a + total X f.
Proof. done. Qed.

Lemma total_ext X f g : (∀ x, x ∈ X → f x = g x) → total X f = total X g.
Proof.
  induction X as [|a X IH]; [done|]. intros Hf. rewrite !total_cons, (Hf a), IH; [done| |left].
  intros x Hx. apply Hf. by right.
Qed.

Lemma total_add X f a d :
  NoDup X → a ∈ X → total X (λ x, f x + (if bool_decide (x = a) then d else 0)) = total X f + d.
Proof.
  induction 1 as [|b X Hb _ IH]; [by intros ?%elem_of_nil|]. rewrite !total_cons. intros Ha. case_bool_decide as E.
  - subst b. rewrite (total_ext X _ f); [lia|]. intros x Hx. rewrite bool_decide_false; [lia|]. by intros ->.
  - apply elem_of_cons in Ha as [->|Ha]; [done|]. rewrite IH by done. lia.
Qed.

Lemma flow_total f f' :
  flow f f' → (∀ a, is_address a → 0 ≤ f a) →
  ∃ Y, ∀ X, NoDup X → Forall is_address X → Y ⊆ X → total X f' ≤ total X f.
Proof.
  intros Hf Hp. destruct Hf as [Hf|a b v Ha Hb Hv Hf|a b Ha Hb Hf].
  - exists []. intros X _ Wx _. rewrite (total_ext X f' f); [lia|]. intros x Hx. apply Hf. by rewrite Forall_forall in Wx; apply Wx.
  - exists [a; b]. intros X Nx Wx HY. rewrite Forall_forall in Wx. assert (a ∈ X ∧ b ∈ X) as [Hax Hbx] by set_solver.
    set (g x := f x + (if bool_decide (x = a) then - v else 0)).
    rewrite (total_ext X f' (λ x, g x + (if bool_decide (x = b) then v else 0))).
    + rewrite total_add by done. unfold g. rewrite total_add by done. lia.
    + intros x Hx. rewrite Hf by (by apply Wx). unfold g. repeat case_bool_decide; lia.
  - exists [a; b]. intros X Nx Wx HY. rewrite Forall_forall in Wx. assert (a ∈ X ∧ b ∈ X) as [Hax Hbx] by set_solver.
    set (g x := f x + (if bool_decide (x = a) then - f a else 0)). destruct (decide (a = b)) as [<-|Hne].
    + rewrite (total_ext X f' g); [unfold g; rewrite total_add by done; pose proof (Hp a Ha); lia|].
      intros x Hx. rewrite Hf by (by apply Wx). unfold g. repeat case_bool_decide; subst; first [done|lia].
    + rewrite (total_ext X f' (λ x, g x + (if bool_decide (x = b) then f a else 0))).
      * rewrite total_add by done. unfold g. rewrite total_add by done. lia.
      * intros x Hx. rewrite Hf by (by apply Wx). unfold g. repeat case_bool_decide; subst; first [done|lia].
Qed.

(** ** Executions *)

Section supply.
Context `{BackendLaws}.
Implicit Types (s : StateDB.StateDB).

(** There is at most [d] more money in [s'] than in [s]. *)
Definition mints (d : Z) s s' : Prop :=
  ∃ Y, ∀ X, NoDup X → Forall is_address X → Y ⊆ X → total X (bal s') ≤ total X (bal s) + d.
Definition no_mint s s' : Prop := mints 0 s s'.

Lemma mints_bal s s' a d :
  is_address a → (∀ x, is_address x → bal s' x = bal s x + (if bool_decide (x = a) then d else 0)) → mints d s s'.
Proof.
  intros Ha Hb. exists [a]. intros X Nx Wx HY. rewrite Forall_forall in Wx. rewrite <- (total_add X (bal s) a) by (done || set_solver).
  rewrite (total_ext X (bal s') (λ x, bal s x + (if bool_decide (x = a) then d else 0))); [lia|].
  intros x Hx. by apply Hb, Wx.
Qed.

Lemma mints_trans d1 d2 s1 s2 s3 : mints d1 s1 s2 → mints d2 s2 s3 → mints (d1 + d2) s1 s3.
Proof.
  intros [Y1 H1] [Y2 H2]. exists (Y1 ++ Y2). intros X Nx Wx HY. specialize (H1 X Nx Wx). specialize (H2 X Nx Wx).
  assert (Y1 ⊆ X ∧ Y2 ⊆ X) as [I1 I2] by set_solver. specialize (H1 I1). specialize (H2 I2). lia.
Qed.

Lemma mints_mono d d' s s' : d ≤ d' → mints d s s' → mints d' s s'.
Proof. intros Hd [Y HY]. exists Y. intros X Nx Wx HX. pose proof (HY X Nx Wx HX). lia. Qed.

Lemma no_mint_bal s s' : (∀ a, is_address a → bal s' a = bal s a) → no_mint s s'.
Proof.
  intros Hb. apply (mints_bal _ _ zero_address); [done|]. intros x Hx. rewrite Hb by done. case_bool_decide; lia.
Qed.

Lemma no_mint_trans s1 s2 s3 : no_mint s1 s2 → no_mint s2 s3 → no_mint s1 s3.
Proof. apply mints_trans. Qed.

Lemma no_mint_query q s s' : db_ok s → op_wf 0 q → is_query q = true → exec q s = Some s' → db_ok s' ∧ no_mint s s'.
Proof.
  intros Hs Wq Hq Ex. pose proof (query_eq q s s' 0 (proj1 (proj1 Hs)) Wq Hq Ex) as E. split.
  - eapply db_ok_eq; [exact Hs| |exact E]. eapply (state_wf_exec q); try done; [apply Hs|by destruct q].
  - apply no_mint_bal. intros a Ha. by apply bal_eq.
Qed.

(** Credit and debit. *)
Lemma db_ok_credit s a v :
  db_ok s → is_address a → - bal s a ≤ v →
  db_ok (StateDB.AddBalance a v s) ∧ mints v s (StateDB.AddBalance a v s).
Proof.
  intros (Hw & Hc & Hm) Ha Hv. set (q := OpAddBalance a v).
  assert (∀ x, is_address x → bal (StateDB.AddBalance a v s) x = bal s x + (if bool_decide (x = a) then v else 0)) as Hb.
  { intros x Hx. rewrite (bal_exec q s _ 0 x) by (done || apply Hw). cbn. case_bool_decide; lia. }
  split; [|by eapply mints_bal]. split; [by eapply (state_wf_exec q s _ 0)|]. split; [by eapply (codes_exec q s _ 0)|].
  intros x Hx. rewrite Hb by done. pose proof (Hm x Hx). case_bool_decide; subst; lia.
Qed.
Lemma db_ok_debit s a v :
  db_ok s → is_address a → v ≤ bal s a →
  db_ok (StateDB.SubBalance a v s) ∧ mints (- v) s (StateDB.SubBalance a v s).
Proof.
  intros (Hw & Hc & Hm) Ha Hv. set (q := OpSubBalance a v).
  assert (∀ x, is_address x → bal (StateDB.SubBalance a v s) x = bal s x + (if bool_decide (x = a) then - v else 0)) as Hb.
  { intros x Hx. rewrite (bal_exec q s _ 0 x) by (done || apply Hw). cbn. case_bool_decide; lia. }
  split; [|by eapply mints_bal]. split; [by eapply (state_wf_exec q s _ 0)|]. split; [by eapply (codes_exec q s _ 0)|].
  intros x Hx. rewrite Hb by done. pose proof (Hm x Hx). case_bool_decide; subst; lia.
Qed.

Lemma no_mint_evolves ro s s' : db_ok s → evolves ro s s' → no_mint s s'.
Proof.
  intros Hs He. revert Hs. induction He as [|s1 s2 s3 H12 IH Hst|s1 s2 s3 s4 H12 IH1 Hev _ Hr]; intros Hs;
    [by apply no_mint_bal| |].
  - eapply no_mint_trans; [by apply IH|]. destruct (db_ok_evolves _ _ _ Hs H12) as (Hw & _ & Hm).
    destruct (flow_total _ _ (state_step_flow _ _ _ Hw Hst) Hm) as [Y HY].
    exists Y. intros X Nx Wx HX. pose proof (HY X Nx Wx HX). lia.
  - eapply no_mint_trans; [by apply IH1|]. destruct (db_ok_evolves _ _ _ Hs H12) as [Hw _].
    destruct (evolves_revert _ _ _ Hw Hev) as (s' & R & E & _).
    change (StateDB.RevertToSnapshot (StateDB.Snapshot s2).1 s3 = Some s4) in Hr. rewrite R in Hr. injection Hr as ->.
    apply no_mint_bal. intros a Ha. by apply bal_eq.
Qed.
End supply.
