(* ===== verification/StateFinal.v ===== *)
(** * Theorems about the end of a transaction

    [Finalise] of StateCommit.v in terms of what can be read from the state
    database: destructed and emptied accounts are gone, everything else is
    unchanged, what was written to storage is committed, and nothing can be
    reverted any more. *)
From S2P Require Import Prelude RlpEncode RlpRaw RlpDecode AccessList StateDB StateRevert StateCommit VmBase VmMachine VmLogic VmState VmSupply.
Local Open Scope Z_scope.

Section final.
Context `{BackendLaws, MapRangeLaws}.
Implicit Types (s : StateDB.StateDB) (o : stateObject).

(** ** One object *)

Definition removed (del : bool) o : bool := suicided o || (del && StateDB.empty o).
Definition final_obj (del : bool) o : stateObject :=
  if removed del o then set_deleted true o else obj_finalise o.

Lemma final_obj_address del o : address (final_obj del o) = address o.
Proof. unfold final_obj. by destruct (removed del o). Qed.
Lemma final_obj_wf del a o : obj_wf a o → obj_wf a (final_obj del o).
Proof. intros []. unfold final_obj. by destruct (removed del o). Qed.
Lemma final_obj_code del o : code_ok o → code_ok (final_obj del o).
Proof. unfold final_obj. destruct (removed del o); by apply code_ok_ext. Qed.

(** ** The loop *)

(** What the loop leaves alone. *)
Record same_rest s s' : Prop := {
  sr_trie : trie s' = trie s;
  sr_snap : snap s' = snap s;
  sr_refund : refund s' = refund s;
  sr_thash : thash s' = thash s;
  sr_bhash : bhash s' = bhash s;
  sr_txIndex : txIndex s' = txIndex s;
  sr_logs : logs s' = logs s;
  sr_logSize : logSize s' = logSize s;
  sr_accessList : accessList_ s' = accessList_ s;
  sr_entries : entries s' = entries s;
  sr_dirties : dirties s' = dirties s;
  sr_next : nextRevisionId s' = nextRevisionId s
}.

Definition final_at (del : bool) (l : list Address) s s' : Prop :=
  ∀ a, stateObjects s' !! a = (λ o, if bool_decide (a ∈ l) then final_obj del o else o) <$> stateObjects s !! a.

Definition keyed_objects s : Prop := ∀ a o, stateObjects s !! a = Some o → address o = a.

Lemma finalise_object_step del s a :
  keyed_objects s →
  let s' := finalise_object del s a in
  same_rest s s' ∧ final_at del [a] s s'
  ∧ stateObjectsPending s' ⊆ stateObjectsPending s ∪ ({[a]} ∩ dom (stateObjects s))
  ∧ stateObjectsDirty s' ⊆ stateObjectsDirty s ∪ ({[a]} ∩ dom (stateObjects s)).
Proof.
  intros Hk. cbv zeta. unfold finalise_object. destruct (stateObjects s !! a) as [o|] eqn:E.
  - assert (a ∈ dom (stateObjects s)) as Hd by (by eapply elem_of_dom_2).
    assert (∀ b, <[a := final_obj del o]> (stateObjects s) !! b
      = (λ o, if bool_decide (b ∈ [a]) then final_obj del o else o) <$> stateObjects s !! b) as Hat.
    { intros b. destruct (decide (a = b)) as [<-|Hne].
      - rewrite lookup_insert_eq, E. cbn. by rewrite bool_decide_true by left.
      - rewrite lookup_insert_ne by done. rewrite bool_decide_false by (by intros ->%list_elem_of_singleton).
        by destruct (stateObjects s !! b). }
    fold (removed del o). unfold final_obj, setStateObject in *. pose proof (Hk a o E) as Ea.
    destruct (removed del o); [change (snap (set_stateObjects _ s)) with (snap s); destruct (snap s) eqn:Es|].
    all: split; [split; cbn; congruence|]; split; [intros b; cbn; rewrite Ea; apply Hat|]; split; set_solver.
  - split; [done|]. split; [|set_solver]. intros b. case_bool_decide as Hb; [|by destruct (stateObjects s !! b)].
    apply list_elem_of_singleton in Hb as ->. by rewrite E.
Qed.

Lemma same_rest_trans s1 s2 s3 : same_rest s1 s2 → same_rest s2 s3 → same_rest s1 s3.
Proof. intros [] []. split; congruence. Qed.

Lemma final_at_keyed del l s s' : keyed_objects s → final_at del l s s' → keyed_objects s'.
Proof.
  intros Hk Hf a o Ho. rewrite Hf in Ho. destruct (stateObjects s !! a) as [o'|] eqn:E; [|done].
  injection Ho as <-. case_bool_decide; [rewrite final_obj_address|]; by apply Hk.
Qed.
Lemma final_at_dom del l s s' : final_at del l s s' → dom (stateObjects s') = dom (stateObjects s).
Proof. intros Hf. apply set_eq. intros a. rewrite !elem_of_dom, Hf. by rewrite fmap_is_Some. Qed.

Lemma finalise_loop del l s :
  NoDup l → keyed_objects s →
  let s' := foldl (finalise_object del) s l in
  same_rest s s' ∧ final_at del l s s'
  ∧ stateObjectsPending s' ⊆ stateObjectsPending s ∪ dom (stateObjects s)
  ∧ stateObjectsDirty s' ⊆ stateObjectsDirty s ∪ dom (stateObjects s).
Proof.
  intros Hn. revert s. induction Hn as [|a l Ha _ IH]; intros s Hk; cbn [foldl].
  - split; [done|]. split; [intros a; by destruct (stateObjects s !! a)|set_solver].
  - destruct (finalise_object_step del s a Hk) as (R1 & F1 & P1 & D1). set (s1 := finalise_object del s a) in *.
    destruct (IH s1 (final_at_keyed _ _ _ _ Hk F1)) as (R2 & F2 & P2 & D2).
    rewrite (final_at_dom _ _ _ _ F1) in P2, D2. split; [by eapply same_rest_trans|]. split; [|set_solver].
    intros b. rewrite F2, F1. destruct (stateObjects s !! b) as [o|]; [|done]. cbn. f_equal.
    destruct (decide (a = b)) as [<-|Hne].
    + rewrite (bool_decide_false (a ∈ l)), !bool_decide_true by (done || left). done.
    + rewrite (bool_decide_false (b ∈ [a])) by (by intros ->%list_elem_of_singleton).
      rewrite (bool_decide_ext (b ∈ a :: l) (b ∈ l)); [done|]. rewrite elem_of_cons. naive_solver.
Qed.

(** ** Finalise *)

(** Whether [Finalise] removes the account. *)
Definition removed_at (del : bool) s a : bool :=
  bool_decide (a ∈ dom (dirties s)) && match stateObjects s !! a with Some o => removed del o | None => false end.

Record finalised (del : bool) s s' : Prop := {
  fd_objects : final_at del (range_set (dom (dirties s))) s s';
  fd_trie : trie s' = trie s;
  fd_snap : snap s' = snap s;
  fd_logs : logs s' = logs s;
  fd_entries : entries s' = [];
  fd_revisions : validRevisions s' = [];
  fd_dirties : dirties s' = if bool_decide (entries s = []) then dirties s else ∅;
  fd_refund : refund s' = if bool_decide (entries s = []) then refund s else 0;
  fd_rest : logSize s' = logSize s ∧ accessList_ s' = accessList_ s ∧ thash s' = thash s ∧ bhash s' = bhash s ∧ txIndex s' = txIndex s;
  fd_pending : stateObjectsPending s' ⊆ stateObjectsPending s ∪ dom (stateObjects s);
  fd_dirty : stateObjectsDirty s' ⊆ stateObjectsDirty s ∪ dom (stateObjects s)
}.

Lemma Finalise_finalised del s : keyed_objects s → finalised del s (Finalise del s).
Proof.
  intros Hk. unfold Finalise. set (l := range_set (dom (dirties s))).
  assert (NoDup l) as Hn by (unfold l; rewrite law_range_set; apply NoDup_elements).
  destruct (finalise_loop del l s Hn Hk) as (R & F & P & D). set (s1 := foldl _ s l) in *.
  unfold clearJournalAndRefund. pose proof (sr_entries _ _ R) as Ee.
  destruct (entries s1) as [|e es] eqn:E1; cbn [length Z.ltb Z.compare Z.of_nat Pos.of_succ_nat]; destruct R; split; try done.
  all: cbn; rewrite <- Ee; first [rewrite bool_decide_true by done|rewrite bool_decide_false by done]; done.
Qed.

Lemma finalised_view del s s' a :
  finalised del s s' →
  view s' a = match stateObjects s !! a with
              | Some o => Some (if bool_decide (a ∈ dom (dirties s)) then final_obj del o else o)
              | None => view s a
              end.
Proof.
  intros F. rewrite !view_unfold, (fd_objects _ _ _ F a).
  rewrite (bool_decide_ext (a ∈ range_set (dom (dirties s))) (a ∈ dom (dirties s))).
  - destruct (stateObjects s !! a) as [o|]; [done|]. cbn. by rewrite (load_ext s' s) by apply F.
  - rewrite law_range_set. by rewrite elem_of_elements.
Qed.

Lemma finalised_bal del s s' a :
  keyed_objects s → finalised del s s' → bal s' a = if removed_at del s a then 0 else bal s a.
Proof.
  intros Hk F. unfold bal, existing, removed_at. rewrite (finalised_view _ _ _ _ F).
  destruct (stateObjects s !! a) as [o|] eqn:E; [|by rewrite andb_false_r].
  assert (view s a = Some o) as -> by (rewrite view_unfold; by rewrite E).
  case_bool_decide; cbn [andb]; [|done]. unfold final_obj. destruct (removed del o); [done|]. by destruct o as [???????????? []].
Qed.

Lemma wf_keyed s : wf s → keyed_objects s.
Proof. intros [Ho _ _] a o E. by destruct (cw_objects _ Ho a o E) as [_ []]. Qed.

Lemma finalised_state_wf del s s' : state_wf s → finalised del s s' → state_wf s'.
Proof.
  intros (W & _ & x & Hx & Hd) F. pose proof (wf_keyed s W) as Hk. destruct W as [Wo [Wa Wr Wl Wg] _].
  destruct (fd_rest _ _ _ F) as (El & Ea & _). split; [split|split].
  - pose proof (final_at_dom _ _ _ _ (fd_objects _ _ _ F)) as Hdom. split.
    + intros a o E. rewrite (fd_objects _ _ _ F a) in E. destruct (stateObjects s !! a) as [o'|] eqn:E'; [|done].
      destruct (cw_objects _ Wo a o' E') as [Haa Hwo]. split; [done|]. injection E as <-. case_bool_decide; [by apply final_obj_wf|done].
    + eapply accounts_wf_ext; [by symmetry; apply F..|apply Wo].
    + rewrite Hdom. etrans; [apply F|]. pose proof (cw_pending _ Wo). set_solver.
    + rewrite Hdom. etrans; [apply F|]. pose proof (cw_dirty _ Wo). set_solver.
  - split; [by rewrite Ea| |by rewrite El|by rewrite (fd_logs _ _ _ F)].
    rewrite (fd_refund _ _ _ F). case_bool_decide; [done|]. unfold is_u64. lia.
  - rewrite (fd_entries _ _ _ F). constructor.
  - split; rewrite (fd_revisions _ _ _ F); intros; by rewrite lookup_nil in *.
  - rewrite (fd_entries _ _ _ F), (fd_dirties _ _ _ F). case_bool_decide as Ee.
    + exists x. rewrite Ee in Hd. by split.
    + exists 0. split; [lia|]. intros a. rewrite lookup_empty. cbn. by case_bool_decide.
Qed.

(** [Finalise] keeps the state database well-formed and creates no money. *)
Lemma Finalise_ok del s : db_ok s → db_ok (Finalise del s) ∧ no_mint s (Finalise del s).
Proof.
  intros (Hw & Hc & Hm). pose proof (wf_keyed s (proj1 Hw)) as Hk. pose proof (Finalise_finalised del s Hk) as F.
  set (s' := Finalise del s) in *. pose proof (λ a, finalised_bal del s s' a Hk F) as Hb. split; [split; [by eapply finalised_state_wf|split]|].
  - intros a o Ha. rewrite (finalised_view _ _ _ _ F). destruct (stateObjects s !! a) as [o'|] eqn:E; [|by apply Hc].
    intros [= <-]. assert (code_ok o') as Ho by (apply (Hc a); [done|rewrite view_unfold; by rewrite E]).
    case_bool_decide; [by apply final_obj_code|done].
  - intros a Ha. rewrite Hb. pose proof (Hm a Ha). by case_match.
  - exists []. intros X _ Wx _. rewrite Z.add_0_r. induction Wx as [|a X Ha _ IH]; [done|].
    rewrite !total_cons, Hb. pose proof (Hm a Ha). case_match; lia.
Qed.

(** Reading the storage of an object after [Finalise]. *)
Lemma final_obj_slots s s' o key :
  same_env s' s (addrHash o) → fakeStorage o = None →
  committed s' (obj_finalise o) key = slot s o key ∧ slot s' (obj_finalise o) key = slot s o key.
Proof.
  intros Henv Hf.
  assert (committed s' (obj_finalise o) key = slot s o key) as E.
  { rewrite committed_unfold, slot_unfold, committed_unfold. cbn. rewrite Hf, lookup_union.
    destruct (dirtyStorage o !! key), (pendingStorage o !! key), (originStorage o !! key); try done.
    cbn. rewrite (stored_slot_env s' s) by done. unfold stored_slot. by rewrite (trie_of_ext o (obj_finalise o)). }
  split; [done|]. rewrite slot_unfold. cbn. by rewrite Hf, lookup_empty.
Qed.
End final.
