(* ===== verification/BlockProcess.v ===== *)
(** * Processing a block (src/core/state_processor.go, src/core/evm.go)

    The transactions of a block are applied one after the other to the same
    EVM and state database, each ended by [Finalise] or, before Byzantium,
    [IntermediateRoot], and turned into receipts.  The state database is the
    one of StateDB.v.  The consensus engine (its [Finalize] ends the block)
    and the lookup of block hashes are parameters. *)
From S2P Require Import Prelude RlpEncode RlpRaw RlpDecode AccessList StateDB StateRevert StateCommit Opcodes Params ChainConfig VmBase VmMachine Precompiles VmSmoke VmOps VmTables Evm StateTransition Transaction Receipts BlockHeader VmLogic VmState.
Local Open Scope Z_scope.

(** The parts of [vm.Config] that the EVM reads. *)
Record VmConfig := MkVmConfig {
  cfg_NoRecursion : bool;
  cfg_EnablePreimageRecording : bool;
  cfg_aborted : nat → bool
}.

(** [NewEVMBlockContext] and [vm.NewEVM]; the author of the block is already
    determined. *)
Definition NewEVMBlockContext (config : ChainConfig) (header : Header) (getHash : Z → Hash)
    (beneficiary : Address) (cfg : VmConfig) : Env :=
  MkEnv getHash beneficiary (h_SmokeLimit header) (h_Number header) (h_Time header) (h_Difficulty header)
    zero_address 0 (default 0 (ChainID config)) (config_Rules config (Some (h_Number header)))
    (cfg_NoRecursion cfg) (cfg_EnablePreimageRecording cfg) (cfg_aborted cfg).

(** [NewEVMTxContext] and [evm.Reset]. *)
Definition NewEVMTxContext (msg : Message) (env : Env) : Env :=
  MkEnv (GetHash env) (Coinbase env) (SmokeLimit env) (BlockNumber env) (Time env) (Difficulty env)
    (From msg) (msg_SmokePrice msg) (chainConfig_ChainID env) (chainRules env) (NoRecursion env)
    (EnablePreimageRecording env) (aborted env).

Section process.
Context `{Uint256, B : Backend, CR : Crypto, MapRange}.
Variable precompiled : PrecompiledAddresses.
Variable fuel : nat.

(** ** One transaction *)

(** The access list of a transaction, from YoloV2 on. *)
Definition warm_addresses (env : Env) (msg : Message) (s : StateDB.StateDB) : StateDB.StateDB :=
  if r_IsYoloV2 (chainRules env) then
    let s := StateDB.AddAddressToAccessList (From msg) s in
    let s := match To msg with Some dst => StateDB.AddAddressToAccessList dst s | None => s end in
    foldl (λ s a, StateDB.AddAddressToAccessList a s) s (ActivePrecompiles precompiled (chainRules env))
  else s.

(** Receipt, pool and total of the used smoke; the state of the EVM also when
    the transaction is rejected. *)
Definition applyTransaction (env : Env) (msg : Message) (tx : Transaction) (gp usedSmoke : Z) (e : EVM)
    : outcome (result core_error (Receipt * Z * Z) * EVM) :=
  let env := NewEVMTxContext msg env in
  let e := set_StateDB (warm_addresses env msg (StateDB e)) e in
  '(r, st) ← ApplyMessage env fuel e msg gp;
  let e := st_evm st in
  match r with
  | Err err => Ret (Err err, e)
  | Ok res =>
      '(root, s) ←
        (if r_IsByzantium (chainRules env) then Ret ([], Finalise true (StateDB e))
         else or_panic StateRoot (IntermediateRoot (r_IsEIP158 (chainRules env)) (StateDB e)));
      let usedSmoke := u64 (usedSmoke + UsedSmoke res) in
      let logs := StateDB.GetLogs (tx_Hash tx) s in
      let receipt := NewReceipt root (Failed res) usedSmoke in
      let contract := match To msg with
                      | None => CreateAddress (From msg) (AccountNonce (tx_data tx))
                      | Some _ => ContractAddress receipt
                      end in
      let receipt := MkReceipt (PostState receipt) (Status receipt) (CumulativeSmokeUsed receipt)
        (CreateBloom [MkReceipt (PostState receipt) (Status receipt) (CumulativeSmokeUsed receipt) (r_Bloom receipt)
                        logs (tx_Hash tx) contract (UsedSmoke res) (r_BlockHash receipt) (r_BlockNumber receipt)
                        (TransactionIndex receipt)])
        logs (tx_Hash tx) contract (UsedSmoke res) (bhash s) (BlockNumber env) (u64 (txIndex s)) in
      Ret (Ok (receipt, st_gp st, usedSmoke), set_StateDB s e)
  end.

(** ** A block *)

Inductive process_error :=
| ErrSender (i : Z) (e : sign_error)
| ErrApply (i : Z) (e : core_error).

(** The loop over the transactions from index [i] on. *)
Fixpoint process_transactions (signer : Signer) (env : Env) (blockHash : Hash) (i : Z) (txs : list Transaction)
    (gp usedSmoke : Z) (e : EVM) : outcome (result process_error (list Receipt * list Log * Z * Z) * EVM) :=
  match txs with
  | [] => Ret (Ok ([], [], gp, usedSmoke), e)
  | tx :: txs =>
      match (AsMessage signer tx).1 with
      | Err err => Ret (Err (ErrSender i err), e)
      | Ok msg =>
          let e := set_StateDB (StateDB.Prepare (tx_Hash tx) blockHash i (StateDB e)) e in
          '(r, e) ← applyTransaction env msg tx gp usedSmoke e;
          match r with
          | Err err => Ret (Err (ErrApply i err), e)
          | Ok (receipt, gp, usedSmoke) =>
              '(r, e) ← process_transactions signer env blockHash (i + 1) txs gp usedSmoke e;
              Ret (match r with
                   | Err err => Err err
                   | Ok (receipts, logs, gp, usedSmoke) =>
                       Ok (receipt :: receipts, r_Logs receipt ++ logs, gp, usedSmoke)
                   end, e)
          end
      end
  end.

(** [misc.ApplyDAOHardFork], over the accounts of params/dao.go. *)
Definition ApplyDAOHardFork (refundContract : Address) (drainList : list Address) (s : StateDB.StateDB) : StateDB.StateDB :=
  let '(exists_, s) := StateDB.Exist refundContract s in
  let s := if exists_ then s else StateDB.CreateAccount refundContract s in
  foldl (λ s addr,
    let '(b, s) := StateDB.GetBalance addr s in
    StateDB.SetBalance addr 0 (StateDB.AddBalance refundContract b s)) s drainList.

(** The whole block.  [engine_Finalize] is the method of the consensus engine:
    from the header and the uncles, how it changes the state (the header it
    gets is a copy, which is dropped). *)
Definition Process (config : ChainConfig) (dao : Address * list Address) (getHash : Z → Hash) (beneficiary : Address)
    (engine_Finalize : Header → list Header → StateDB.StateDB → outcome StateDB.StateDB)
    (cfg : VmConfig) (block : Block) (statedb : StateDB.StateDB)
    : outcome (result process_error (list Receipt * list Log * Z) * StateDB.StateDB) :=
  let header := b_Header block in
  gp ← AddSmoke (h_SmokeLimit header) 0;
  let statedb :=
    if DAOForkSupport config && bool_decide (DAOForkBlock config = Some (h_Number header))
    then ApplyDAOHardFork dao.1 dao.2 statedb else statedb in
  let env := NewEVMBlockContext config header getHash beneficiary cfg in
  '(r, e) ← process_transactions (MakeSigner config (Some (h_Number header))) env (Block_Hash block) 0
              (Transactions block) gp 0 (NewEVM statedb);
  match r with
  | Err err => Ret (Err err, StateDB e)
  | Ok (receipts, logs, _, usedSmoke) =>
      s ← engine_Finalize header (b_Uncles block) (StateDB e);
      Ret (Ok (receipts, logs, usedSmoke), s)
  end.
End process.
