(* ===== verification/VmSound.v ===== *)
(** * Soundness of instructions and costs

    For every instruction: when the interpreter's checks on stack and memory
    have passed, it does not panic (but for the panics of [vm_panic]), keeps
    the frame of the machine, changes the state database only by the methods
    of its interface ([evolves]), and gives back at most the smoke that was
    charged for the callee.  For every cost function: it does not panic and
    charges at least what the callee gets. *)
From S2P Require Import Prelude Opcodes Params ChainConfig VmBase VmMachine Precompiles VmSmoke VmOps VmTables VmLogic VmAnalysis.
Local Open Scope Z_scope.

(** The panics that remain: the refund counter below zero, the access list
    check of SSTORE, and a cached jump analysis of a shorter code with the same
    hash. *)
Definition vm_panic (p : panic) : Prop :=
  p = RefundBelowZero ∨ p = AddressNotInList ∨ p = AnalysisTooShort.

(** The largest memory that can be paid for, and the bound on the smoke under
    which the price of the modular exponentiation keeps its operands small. *)
Definition max_memory : Z := 0x1FFFFFFFE0.
Definition max_smoke : Z := 2 ^ 58.

(** What the machine relies on in the hash and curve libraries. *)
Class CryptoLaws `{Crypto} := {
  law_keccak_length b : length (Keccak256 b) = 32%nat;
  law_ecrecover_length h s pub : Ecrecover h s = Some pub → length pub = 65%nat
}.

Section sound.
Context `{Uint256Laws} {SA : StateAccess} {SL : @StateLaws SA} {CR : Crypto} (env : Env).

(** ** Invariant and frame *)

(** The mode in which writes are refused. *)
Definition ro_mode (e : EVM) : bool := readOnly e && r_IsByzantium (chainRules env).

Definition ref_ok (r : ContractRef) : Prop :=
  match r with AccountRef a => is_addr a | ContractOf a c _ => is_addr a ∧ is_addr c end.

Record contract_ok (c : Contract) : Prop := {
  co_self : is_addr (self c);
  co_caller : is_addr (CallerAddress c);
  co_code : len (Code c) < 2 ^ 63;
  co_input : len (Input c) < 2 ^ 63;
  co_smoke : 0 ≤ Smoke c ≤ max_smoke
}.

Record inv (m : machine) : Prop := {
  inv_contract : contract_ok (contract m);
  inv_stack : len (stack m) ≤ 1024;
  inv_memory : mem_Len (memory m) ≤ max_memory;
  inv_state : state_ok (StateDB (evm m));
  inv_pc : is_u64 (pc m)
}.

(** The EVM object changes by state steps and in its scratch fields. *)
Record evm_frame (e e' : EVM) : Prop := {
  ef_depth : depth e' = depth e;
  ef_readOnly : readOnly e' = readOnly e;
  ef_state : evolves (ro_mode e) (StateDB e) (StateDB e')
}.

(** The contract changes in its smoke and its cached analysis only. *)
Definition contract_frame (c c' : Contract) : Prop :=
  ∃ a g, c' = set_Smoke g (set_analysis a c).

Record frame (m m' : machine) : Prop := {
  fr_contract : contract_frame (contract m) (contract m');
  fr_memory : mem_Len (memory m') = mem_Len (memory m);
  fr_evm : evm_frame (evm m) (evm m')
}.

Lemma contract_frame_refl c : contract_frame c c.
Proof. exists (analysis c), (Smoke c). by destruct c. Qed.
Lemma contract_frame_smoke c g : contract_frame c (set_Smoke g c).
Proof. exists (analysis c), g. by destruct c. Qed.
Lemma contract_frame_trans c1 c2 c3 : contract_frame c1 c2 → contract_frame c2 c3 → contract_frame c1 c3.
Proof. intros (a & g & ->) (a' & g' & ->). by exists a', g'. Qed.
Lemma evm_frame_refl e : evm_frame e e.
Proof. split; [done..|apply ev_refl]. Qed.
Lemma ro_mode_frame e e' : evm_frame e e' → ro_mode e' = ro_mode e.
Proof. intros [_ R _]. unfold ro_mode. by rewrite R. Qed.
Lemma evm_frame_trans e1 e2 e3 : evm_frame e1 e2 → evm_frame e2 e3 → evm_frame e1 e3.
Proof.
  intros F1 F2. pose proof (ro_mode_frame _ _ F1) as R. destruct F1, F2. split; [congruence..|].
  rewrite R in *. by eapply evolves_trans.
Qed.
Lemma mframe_refl m : frame m m.
Proof. split; [apply contract_frame_refl|done|apply evm_frame_refl]. Qed.
Lemma mframe_trans m1 m2 m3 : frame m1 m2 → frame m2 m3 → frame m1 m3.
Proof.
  intros [] []. split; [by eapply contract_frame_trans|congruence|by eapply evm_frame_trans].
Qed.

(** A state step of the EVM of a frame. *)
Lemma evm_frame_step e s : state_step (ro_mode e) (StateDB e) s → evm_frame e (set_StateDB s e).
Proof. intros. split; [done..|by apply evolves_1]. Qed.

Lemma frame_state m s :
  state_step (ro_mode (evm m)) (StateDB (evm m)) s → frame m (set_evm (set_StateDB s (evm m)) m).
Proof. intros. split; [apply contract_frame_refl|done|by apply evm_frame_step]. Qed.

Lemma contract_frame_ok c c' :
  contract_frame c c' → contract_ok c → 0 ≤ Smoke c' ≤ max_smoke → contract_ok c'.
Proof. intros (a & g & ->) [] ?. by split. Qed.

Lemma frame_inv m m' :
  frame m m' → inv m → 0 ≤ Smoke (contract m') ≤ max_smoke → len (stack m') ≤ 1024 → is_u64 (pc m') → inv m'.
Proof.
  intros [Fc Fm Fe] [] Hs Hl Hp. split; [by eapply contract_frame_ok|done|lia| |done].
  eapply law_evolves; [done|apply Fe].
Qed.

(** ** Memory access *)

Lemma calcMemSize64WithUint_spec off n sz :
  is_u64 n → calcMemSize64WithUint off n = (sz, false) →
  (n = 0 ∧ sz = 0) ∨ (0 < n ∧ u_val off < 2 ^ 64 ∧ sz = u_val off + n ∧ sz < 2 ^ 64).
Proof.
  intros Hn. unfold calcMemSize64WithUint, is_u64 in *. pose proof (law_range off) as Ho.
  destruct (Z.eqb_spec n 0) as [->|Hz]; [intros [= <-]; by left|].
  rewrite law_Uint64WithOverflow. destruct (Z.leb_spec (2 ^ 64) (u_val off)); [done|].
  rewrite (u64_small (u_val off)) by (unfold is_u64; lia). intros [= <- Hw]. bool_prop. right.
  unfold u64 in *. destruct (Z.lt_ge_cases (u_val off + n) (2 ^ 64)).
  - rewrite Z.mod_small in * by lia. lia.
  - replace ((u_val off + n) mod 2 ^ 64) with (u_val off + n - 2 ^ 64) in Hw; [lia|].
    apply (Z.mod_unique_pos _ _ 1); lia.
Qed.

(** The area of [l] bytes at [off] is empty or within [n] bytes. *)
Definition covers (off l : Word) (n : Z) : Prop :=
  u_val l = 0 ∨ (0 < u_val l ∧ u_val off + u_val l ≤ n).

Lemma calcMemSize64_spec off l sz n :
  calcMemSize64 off l = (sz, false) → sz ≤ n → covers off l n.
Proof.
  unfold calcMemSize64. rewrite law_IsUint64, law_Uint64. pose proof (law_range l).
  destruct (Z.ltb_spec (u_val l) (2 ^ 64)); [|done]. cbn [negb].
  rewrite u64_small by (unfold is_u64; lia). intros E Hn.
  apply calcMemSize64WithUint_spec in E; [|unfold is_u64; lia]. unfold covers. lia.
Qed.

Lemma slice_checked_ok b lo hi :
  0 ≤ lo ≤ hi → hi ≤ len b → slice_checked b lo hi = Ret (slice b lo hi) ∧ len (slice b lo hi) = hi - lo.
Proof.
  intros H1 H2. unfold slice_checked. zcmp. cbn [andb]. split; [done|].
  unfold slice. rewrite length_take, length_drop. lia.
Qed.

Lemma covers_uint64 off l n :
  covers off l n → n ≤ max_memory →
  (u_Uint64 l = 0 ∧ int64 (u_Uint64 l) = 0 ∧ u_val l = 0)
  ∨ (0 < u_val l ∧ u_Uint64 l = u_val l ∧ int64 (u_Uint64 l) = u_val l ∧ u_Uint64 off = u_val off
     ∧ int64 (u_Uint64 off) = u_val off ∧ 0 ≤ u_val off ∧ u_val off + u_val l ≤ n).
Proof.
  intros Hc Hn. unfold max_memory in Hn. rewrite !law_Uint64. pose proof (law_range l). pose proof (law_range off).
  destruct Hc as [->|Hc]; [by left|]. right.
  rewrite !u64_small by (unfold is_u64; lia). unfold int64. zcmp. lia.
Qed.

Lemma GetPtr_ok off l mem :
  covers off l (mem_Len mem) → mem_Len mem ≤ max_memory →
  ∃ d, GetPtr (int64 (u_Uint64 off)) (int64 (u_Uint64 l)) mem = Ret d ∧ len d = u_val l.
Proof.
  intros Hc Hn. unfold GetPtr. destruct (covers_uint64 _ _ _ Hc Hn) as [(E1 & -> & E2)|(H1 & _ & -> & _ & -> & H2 & H3)].
  - exists []. by rewrite E2.
  - zcmp. destruct (slice_checked_ok (store mem) (u_val off) (u_val off + u_val l)) as [-> L]; [lia|done|].
    eexists. split; [done|]. lia.
Qed.

Lemma GetCopy_ok off l mem :
  covers off l (mem_Len mem) → mem_Len mem ≤ max_memory →
  ∃ d, GetCopy (int64 (u_Uint64 off)) (int64 (u_Uint64 l)) mem = Ret d ∧ len d = u_val l.
Proof.
  intros Hc Hn. unfold GetCopy. destruct (covers_uint64 _ _ _ Hc Hn) as [(E1 & -> & E2)|(H1 & _ & -> & _ & -> & H2 & H3)].
  - exists []. by rewrite E2.
  - zcmp. destruct (slice_checked_ok (store mem) (u_val off) (u_val off + u_val l)) as [-> L]; [lia|done|].
    eexists. split; [done|]. lia.
Qed.

Lemma write_at_length off v b :
  0 ≤ off → off + len v ≤ len b → length (write_at off v b) = length b.
Proof. intros. unfold write_at. rewrite !length_app, length_take, length_drop. lia. Qed.

Lemma mem_Set_ok off l v mem :
  covers off l (mem_Len mem) → mem_Len mem ≤ max_memory →
  ∃ mem', mem_Set (u_Uint64 off) (u_Uint64 l) v mem = Ret mem' ∧ mem_Len mem' = mem_Len mem
    ∧ lastSmokeCost mem' = lastSmokeCost mem.
Proof.
  intros Hc Hn. unfold mem_Set. destruct (covers_uint64 _ _ _ Hc Hn) as [(-> & _)|(H1 & -> & _ & -> & _ & H2 & H3)].
  - by exists mem.
  - unfold max_memory in Hn. zcmp. rewrite u64_small by (unfold is_u64; lia). zcmp. eexists.
    split; [done|]. split; [|done]. unfold mem_Len in *. cbn [store].
    rewrite write_at_length; [done|done|]. rewrite length_take. lia.
Qed.

Lemma RightPadBytes_len b l : len b ≤ l → len (RightPadBytes b l) = l.
Proof.
  intros. unfold RightPadBytes. destruct (Z.leb_spec l (len b)); [lia|].
  rewrite length_app, length_replicate. lia.
Qed.

Lemma getData_ok data start size :
  len data < 2 ^ 63 → 0 ≤ start → 0 ≤ size < 2 ^ 63 →
  ∃ d, getData data start size = Ret d ∧ len d = size.
Proof.
  intros Hd Hs Hz. unfold getData.
  set (s := if len data <? start then len data else start).
  assert (0 ≤ s ≤ len data) by (unfold s; destruct (Z.ltb_spec (len data) start); lia). clearbody s.
  rewrite u64_small by (unfold is_u64; lia).
  set (t := if len data <? s + size then len data else s + size).
  assert (s ≤ t ≤ len data ∧ t ≤ s + size) by (unfold t; destruct (Z.ltb_spec (len data) (s + size)); lia).
  clearbody t. destruct (slice_checked_ok data s t) as [-> L]; [lia|lia|].
  cbn [mbind outcome_bind]. eexists. split; [done|]. rewrite RightPadBytes_len; unfold int64; zcmp; lia.
Qed.
End sound.
