(* ===== verification/VmOpsSound.v ===== *)
(** * Soundness of the instructions

    [exec_ok] for every instruction but the calls and creations, which are in
    VmCallsSound.v. *)
From S2P Require Import Prelude Opcodes Params ChainConfig VmBase VmMachine Precompiles VmSmoke VmOps VmTables VmLogic VmAnalysis VmSound.
Local Open Scope Z_scope.

Section ops.
Context `{Uint256Laws} {SA : StateAccess} {SL : @StateLaws SA} {CR : Crypto} (env : Env).

#[local] Opaque VmLogic.wp query update update_or update_memory UseSmoke pop peek poke push back.
Abbreviation wp := (wp vm_panic).
Abbreviation frame := (frame env).
Abbreviation inv := (inv).

(** The memory that an instruction declares is there. *)
Definition mem_fits (g : option memorySizeFunc) (m : machine) : Prop :=
  match g with
  | None => True
  | Some g => ∃ sz, g (stack m) = Ret (sz, false) ∧ sz ≤ mem_Len (memory m)
  end.

(** What an instruction does that pops [pops] and pushes [pushes] words: no
    panic, no change outside the frame, and [credit] smoke given back at
    most. *)
Definition exec_post (m : machine) (pops pushes credit : Z) (r : op_result) (m' : machine) : Prop :=
  frame m m' ∧ len (stack m') ≤ Z.max (len (stack m)) (len (stack m) - pops + pushes)
  ∧ 0 ≤ Smoke (contract m') ≤ Smoke (contract m) + credit ∧ is_u64 (pc m') ∧ len r.1 ≤ max_memory.

Definition exec_ok (f : executionFunc) (pops pushes : Z) (g : option memorySizeFunc)
    (pre : machine → Prop) : Prop :=
  ∀ m, inv m → pops ≤ len (stack m) → mem_fits g m → pre m → wp f (exec_post m pops pushes 0) m.

(** No condition, and the condition of an instruction that writes. *)
Definition always (m : machine) : Prop := True.
Definition writable (m : machine) : Prop := ro_mode env (evm m) = false.
(** The program counter points at the instruction. *)
Definition at_code (m : machine) : Prop := pc m < len (Code (contract m)).

Lemma frame_same m m' :
  contract m' = contract m → mem_Len (memory m') = mem_Len (memory m) → evm m' = evm m → frame m m'.
Proof.
  intros Hc Hm He. split; rewrite ?Hc, ?He; [apply contract_frame_refl|done|apply evm_frame_refl].
Qed.

Lemma exec_post_frame m m' pops pushes r :
  inv m → frame m m' → len (stack m') ≤ Z.max (len (stack m)) (len (stack m) - pops + pushes) →
  Smoke (contract m') = Smoke (contract m) → is_u64 (pc m') → len r.1 ≤ max_memory →
  exec_post m pops pushes 0 r m'.
Proof. intros I F L S P R. destruct I, inv_contract, co_smoke. split; [done|]. split; [done|]. split; [lia|done]. Qed.

Lemma no_result : len (@nil Z) ≤ max_memory.
Proof. done. Qed.

Lemma frame_step m m' s :
  contract m' = contract m → mem_Len (memory m') = mem_Len (memory m) →
  evm m' = set_StateDB s (evm m) → state_step (ro_mode env (evm m)) (StateDB (evm m)) s → frame m m'.
Proof.
  intros Hc Hm He Hs. split; rewrite ?Hc, ?He; [apply contract_frame_refl|done|by apply evm_frame_step].
Qed.

Ltac same := apply frame_same; first [reflexivity|assumption].

(** The end of an instruction, given the proof of its frame. *)
Ltac op_done tac :=
  match goal with
  | HI : VmSound.inv _ |- _ =>
      apply (exec_post_frame _ _ _ _ _ HI); [tac|mcbn; lia|reflexivity|apply (inv_pc _ HI)|first [apply no_result|idtac]]
  end.

(** An instruction that only uses the stack: it takes [n] words. *)
Tactic Notation "stack_op" int_or_var(n) tactic3(tac) :=
  let HI := fresh in op_start HI n; intros _ _; tac; unfold ok, fail; repeat wp_step; op_done same.

(** ** Instructions on the stack *)

Lemma binop_ok f : exec_ok (binop f) 2 1 None always.
Proof. stack_op 2 unfold binop. Qed.
Lemma opNot_ok : exec_ok opNot 1 1 None always.
Proof. stack_op 1 unfold opNot. Qed.
Lemma opIszero_ok : exec_ok opIszero 1 1 None always.
Proof. stack_op 1 unfold opIszero. Qed.
Lemma opAddmod_ok : exec_ok opAddmod 3 1 None always.
Proof. stack_op 3 unfold opAddmod. Qed.
Lemma opMulmod_ok : exec_ok opMulmod 3 1 None always.
Proof. stack_op 3 unfold opMulmod. Qed.
Lemma opPop_ok : exec_ok opPop 1 0 None always.
Proof. stack_op 1 unfold opPop. Qed.
Lemma push_ok w : exec_ok (push w;; ok) 0 1 None always.
Proof. stack_op 0 idtac. Qed.
Lemma push_get_ok {A} (f : machine → A) w : exec_ok (x ← get f; push (w x);; ok) 0 1 None always.
Proof. stack_op 0 idtac. Qed.
Lemma opBlockhash_ok : exec_ok (opBlockhash env) 1 1 None always.
Proof.
  op_start HI 1. intros _ _. unfold opBlockhash, ok. wp_step. wp_step.
  destruct (u_Uint64WithOverflow w) as [? []]; repeat first [wp_step|case_match]; op_done same.
Qed.
Lemma ok_ok : exec_ok ok 0 0 None always.
Proof. stack_op 0 idtac. Qed.
Lemma fail_ok err : exec_ok (fail err) 0 0 None always.
Proof. stack_op 0 idtac. Qed.

Lemma makeDup_ok n : (1 ≤ n)%nat → exec_ok (makeDup n) (Z.of_nat n) (Z.of_nat n + 1) None always.
Proof.
  intros Hn m HI Hl _ _. destruct m as [p st mem rs c e]. cbn [stack] in Hl.
  unfold makeDup, ok. wp_step. wp_step. wp_step. apply wp_lift.
  unfold stack_dup, Back, or_panic. destruct (lookup_lt_is_Some_2 st (n - 1)) as [x ->]; [lia|].
  cbn [mbind outcome_bind owp]. repeat wp_step. op_done same.
Qed.

Lemma makeSwap_ok n : exec_ok (makeSwap n) (Z.of_nat n + 1) (Z.of_nat n + 1) None always.
Proof.
  intros m HI Hl _ _. destruct m as [p st mem rs c e]. cbn [stack] in Hl.
  unfold makeSwap, ok. wp_step. wp_step. wp_step. apply wp_lift.
  unfold stack_swap, Back, or_panic. destruct (lookup_lt_is_Some_2 st (n + 1 - 1)) as [x ->]; [lia|].
  destruct (lookup_lt_is_Some_2 st 0) as [y ->]; [lia|].
  cbn [mbind outcome_bind owp]. repeat wp_step.
  apply (exec_post_frame _ _ _ _ _ HI); [same| |reflexivity|apply (inv_pc _ HI)|apply no_result].
  mcbn. rewrite !length_insert. lia.
Qed.

(** ** Queries of the state *)

Lemma bytes20_addr w : is_addr (u_Bytes20 w).
Proof. unfold is_addr. rewrite law_Bytes20. apply length_be_fixed. Qed.

Lemma self_addr m : inv m → is_addr (self (contract m)).
Proof. intros []. apply inv_contract. Qed.

Lemma frame_evolves m m' s :
  contract m' = contract m → mem_Len (memory m') = mem_Len (memory m) →
  evm m' = set_StateDB s (evm m) → evolves (ro_mode env (evm m)) (StateDB (evm m)) s → frame m m'.
Proof.
  intros Hc Hm He Hs. split; rewrite ?Hc, ?He; [apply contract_frame_refl|done|by split].
Qed.

Ltac addr := first [apply bytes20_addr | match goal with HI : VmSound.inv _ |- _ => apply (self_addr _ HI) end].
Ltac by_step H := eapply ev_step; [|apply H; addr]; cbn [StateDB set_StateDB].
Ltac evolve tac :=
  eapply frame_evolves; [reflexivity|first [reflexivity|assumption]|reflexivity|tac; apply ev_refl].

Lemma opBalance_ok : exec_ok opBalance 1 1 None always.
Proof.
  op_start HI 1. intros _ _. unfold opBalance, ok. repeat wp_step.
  op_done ltac:(evolve ltac:(by_step step_GetBalance)).
Qed.
Lemma opSelfBalance_ok : exec_ok opSelfBalance 0 1 None always.
Proof.
  op_start HI 0. intros _ _. unfold opSelfBalance, self_address, ok. repeat wp_step.
  op_done ltac:(evolve ltac:(by_step step_GetBalance)).
Qed.
Lemma opExtCodeSize_ok : exec_ok opExtCodeSize 1 1 None always.
Proof.
  op_start HI 1. intros _ _. unfold opExtCodeSize, ok. repeat wp_step.
  op_done ltac:(evolve ltac:(by_step step_GetCodeSize)).
Qed.
Lemma opExtCodeHash_ok : exec_ok opExtCodeHash 1 1 None always.
Proof.
  op_start HI 1. intros _ _. unfold opExtCodeHash, ok. repeat wp_step. case_match; repeat wp_step.
  - op_done ltac:(evolve ltac:(by_step step_Empty)).
  - op_done ltac:(evolve ltac:(by_step step_GetCodeHash; by_step step_Empty)).
Qed.
Lemma opSload_ok : exec_ok opSload 1 1 None always.
Proof.
  op_start HI 1. intros _ _. unfold opSload, self_address, ok. repeat wp_step.
  op_done ltac:(evolve ltac:(by_step step_GetState)).
Qed.
(** ** Instructions on memory *)

Lemma mem_at_covers i j m off l :
  mem_fits (Some (mem_at i j)) m → stack m !! i = Some off → stack m !! j = Some l →
  covers off l (mem_Len (memory m)).
Proof.
  intros (sz & E & Hs) Hi Hj. unfold mem_at, Back, or_panic in E. rewrite Hi, Hj in E.
  cbn [mbind outcome_bind] in E. injection E as E. by eapply calcMemSize64_spec.
Qed.

Lemma mem_fixed_covers i n m off :
  0 < n < 2 ^ 64 → mem_fits (Some (mem_fixed i n)) m → stack m !! i = Some off →
  u_val off + n ≤ mem_Len (memory m).
Proof.
  intros Hn (sz & E & Hs) Hi. unfold mem_fixed, Back, or_panic in E. rewrite Hi in E.
  cbn [mbind outcome_bind] in E. injection E as E.
  apply calcMemSize64WithUint_spec in E; unfold is_u64; lia.
Qed.

Lemma mem_two_covers i j k l m o1 l1 o2 l2 :
  mem_fits (Some (mem_two i j k l)) m →
  stack m !! i = Some o1 → stack m !! j = Some l1 → stack m !! k = Some o2 → stack m !! l = Some l2 →
  covers o1 l1 (mem_Len (memory m)) ∧ covers o2 l2 (mem_Len (memory m)).
Proof.
  intros (sz & E & Hs) H1 H2 H3 H4. unfold mem_two, mem_at, Back, or_panic in E.
  rewrite H1, H2, H3, H4 in E. cbn [mbind outcome_bind] in E.
  destruct (calcMemSize64 o1 l1) as [x []] eqn:E1; [by injection E|].
  destruct (calcMemSize64 o2 l2) as [y []] eqn:E2; [by injection E|].
  destruct (Z.ltb_spec y x); injection E as <-; split; eapply calcMemSize64_spec; eauto; lia.
Qed.

Lemma wp_GetPtr off l mem (Q : bytes → machine → Prop) m :
  mem_Len mem ≤ max_memory → covers off l (mem_Len mem) → (∀ d, len d = u_val l → Q d m) →
  wp (lift (GetPtr (int64 (u_Uint64 off)) (int64 (u_Uint64 l)) mem)) Q m.
Proof.
  intros Hm Hc HQ. apply wp_lift. destruct (GetPtr_ok _ _ _ Hc Hm) as (d & -> & L). by apply HQ.
Qed.

Lemma wp_GetCopy off l mem (Q : bytes → machine → Prop) m :
  mem_Len mem ≤ max_memory → covers off l (mem_Len mem) → (∀ d, len d = u_val l → Q d m) →
  wp (lift (GetCopy (int64 (u_Uint64 off)) (int64 (u_Uint64 l)) mem)) Q m.
Proof.
  intros Hm Hc HQ. apply wp_lift. destruct (GetCopy_ok _ _ _ Hc Hm) as (d & -> & L). by apply HQ.
Qed.

Lemma wp_get_args off l (Q : bytes → machine → Prop) m :
  mem_Len (memory m) ≤ max_memory → covers off l (mem_Len (memory m)) → (∀ d, len d = u_val l → Q d m) →
  wp (get_args off l) Q m.
Proof. intros. unfold get_args. wp_step. wp_step. by apply wp_GetPtr. Qed.

Lemma wp_mem_Set off l v (Q : unit → machine → Prop) m :
  mem_Len (memory m) ≤ max_memory → covers off l (mem_Len (memory m)) →
  (∀ mem, mem_Len mem = mem_Len (memory m) → Q tt (set_memory mem m)) →
  wp (update_memory (mem_Set (u_Uint64 off) (u_Uint64 l) v)) Q m.
Proof.
  intros Hm Hc HQ. apply wp_update_memory. destruct (mem_Set_ok _ _ v _ Hc Hm) as (mem & -> & L & _).
  by apply HQ.
Qed.

Lemma wp_copy_to_memory mo d l data (Q : unit → machine → Prop) m :
  mem_Len (memory m) ≤ max_memory → covers mo l (mem_Len (memory m)) → len data < 2 ^ 63 →
  (∀ mem, mem_Len mem = mem_Len (memory m) → Q tt (set_memory mem m)) →
  wp (copy_to_memory mo d l data) Q m.
Proof.
  intros Hm Hc Hd HQ. unfold copy_to_memory. wp_step. apply wp_lift.
  assert (0 ≤ copy_offset d) as Ho.
  { unfold copy_offset. rewrite law_Uint64WithOverflow. case_match; [lia|]. apply u64_range. }
  assert (0 ≤ u_Uint64 l < 2 ^ 63) as Hl.
  { unfold max_memory in Hm. destruct (covers_uint64 _ _ _ Hc Hm) as [(-> & _)|]; lia. }
  destruct (getData_ok data _ _ Hd Ho Hl) as (b & -> & _). by apply wp_mem_Set.
Qed.
Lemma opSha3_ok : exec_ok (opSha3 env) 2 1 (Some memorySha3) always.
Proof.
  op_start HI 2. intros Hm _. unfold opSha3, ok. pose proof (inv_memory _ HI).
  eapply mem_at_covers in Hm; [|reflexivity..]. do 7 wp_step.
  apply wp_GetPtr; [done..|]. intros d _.
  wp_step. case_match; repeat wp_step; [|op_done same].
  op_done ltac:(evolve ltac:(eapply ev_step; [|apply step_AddPreimage]; cbn)).
Qed.
Lemma opReturn_ok : exec_ok opReturn 2 0 (Some memoryReturn) always.
Proof.
  op_start HI 2. intros Hm _. unfold opReturn. pose proof (inv_memory _ HI).
  eapply mem_at_covers in Hm; [|reflexivity..]. do 5 wp_step.
  apply wp_get_args; [done..|]. intros d Hd. wp_step. op_done same. cbn [fst]. cbn in *.
  pose proof (law_range w). unfold max_memory in *. destruct Hm; lia.
Qed.
Lemma opRevert_ok : exec_ok opRevert 2 0 (Some memoryRevert) always.
Proof. exact opReturn_ok. Qed.

Lemma opCallDataLoad_ok : exec_ok opCallDataLoad 1 1 None always.
Proof.
  op_start HI 1. intros _ _. unfold opCallDataLoad, ok. do 4 wp_step.
  rewrite law_Uint64WithOverflow. destruct (_ <=? _); repeat wp_step; [op_done same|].
  apply wp_lift. destruct (getData_ok (Input c) (u64 (u_val w)) 32) as (d & -> & _);
    [apply (inv_contract _ HI)|apply u64_range|lia|]. cbn [owp]. repeat wp_step. op_done same.
Qed.

Lemma opCallDataCopy_ok : exec_ok opCallDataCopy 3 0 (Some memoryCallDataCopy) always.
Proof.
  op_start HI 3. intros Hm _. unfold opCallDataCopy, ok. eapply mem_at_covers in Hm; [|reflexivity..].
  do 9 wp_step. apply wp_copy_to_memory; [apply (inv_memory _ HI)|done|apply (inv_contract _ HI)|].
  intros mem' L. repeat wp_step. op_done same.
Qed.
Lemma opCodeCopy_ok : exec_ok opCodeCopy 3 0 (Some memoryCodeCopy) always.
Proof.
  op_start HI 3. intros Hm _. unfold opCodeCopy, ok. eapply mem_at_covers in Hm; [|reflexivity..].
  do 9 wp_step. apply wp_copy_to_memory; [apply (inv_memory _ HI)|done|apply (inv_contract _ HI)|].
  intros mem' L. repeat wp_step. op_done same.
Qed.
Lemma opExtCodeCopy_ok : exec_ok opExtCodeCopy 4 0 (Some memoryExtCodeCopy) always.
Proof.
  op_start HI 4. intros Hm _. unfold opExtCodeCopy, ok. eapply mem_at_covers in Hm; [|reflexivity..].
  do 11 wp_step. apply wp_copy_to_memory; [apply (inv_memory _ HI)|done|apply law_code; [apply (inv_state _ HI)|apply bytes20_addr]|].
  intros mem' L. repeat wp_step. op_done ltac:(evolve ltac:(by_step step_GetCode)).
Qed.
Lemma opReturnDataCopy_ok : exec_ok opReturnDataCopy 3 0 (Some memoryReturnDataCopy) always.
Proof.
  op_start HI 3. intros Hm _. unfold opReturnDataCopy, ok, fail. eapply mem_at_covers in Hm; [|reflexivity..].
  pose proof (inv_memory _ HI) as Hmax. do 8 wp_step. rewrite !law_Uint64WithOverflow, law_Add.
  destruct (Z.leb_spec (2 ^ 64) (u_val w0)); repeat wp_step; [op_done same|].
  pose proof (law_range w0). pose proof (law_range w1).
  assert (u_val w1 < 2 ^ 63) as Hw.
  { destruct (covers_uint64 _ _ _ Hm Hmax) as [(_ & _ & ->)|]; unfold max_memory in *; lia. }
  assert (u256 (u_val w0 + u_val w1) = u_val w0 + u_val w1) as -> by (unfold u256; apply Z.mod_small; lia).
  destruct (Z.leb_spec (2 ^ 64) (u_val w0 + u_val w1)); cbn [orb]; repeat wp_step; [op_done same|].
  rewrite !u64_small by (unfold is_u64; lia).
  destruct (Z.ltb_spec (len (returnData e)) (u_val w0 + u_val w1)); repeat wp_step; [op_done same|].
  apply wp_lift. destruct (slice_checked_ok (returnData e) (u_val w0) (u_val w0 + u_val w1)) as [-> _];
    [lia|done|]. cbn [owp]. wp_step. apply wp_mem_Set; [done..|]. intros mem' L. repeat wp_step. op_done same.
Qed.

Lemma fixed_uint64 off n mem :
  0 < n → u_val off + n ≤ mem_Len mem → mem_Len mem ≤ max_memory →
  u_Uint64 off = u_val off ∧ int64 (u_val off) = u_val off ∧ 0 ≤ u_val off < 2 ^ 62.
Proof.
  intros Hn Hl Hm. unfold max_memory in Hm. pose proof (law_range off).
  rewrite law_Uint64, u64_small by (unfold is_u64; lia). unfold int64. zcmp. lia.
Qed.

Lemma opMload_ok : exec_ok opMload 1 1 (Some memoryMLoad) always.
Proof.
  op_start HI 1. intros Hm _. unfold opMload, ok. eapply mem_fixed_covers in Hm; [|lia|reflexivity].
  destruct (fixed_uint64 w 32 mem eq_refl Hm (inv_memory _ HI)) as (E1 & E2 & E3). cbn [memory] in Hm.
  do 5 wp_step. rewrite E1, E2. apply wp_lift. unfold GetPtr. zcmp.
  destruct (slice_checked_ok (store mem) (u_val w) (u_val w + 32)) as [-> _]; [lia|done|].
  cbn [owp]. repeat wp_step. op_done same.
Qed.

Lemma mem_Set32_ok off val mem :
  0 ≤ off < 2 ^ 62 → off + 32 ≤ mem_Len mem →
  ∃ mem', mem_Set32 off val mem = Ret mem' ∧ mem_Len mem' = mem_Len mem.
Proof.
  intros Ho Hl. unfold mem_Set32. rewrite u64_small by (unfold is_u64; lia). zcmp. eexists. split; [done|].
  unfold mem_Len in *. cbn [store]. set (b := write_at off (replicate 32 0) (store mem)).
  assert (length b = length (store mem)) as Hb.
  { unfold b. rewrite write_at_length; rewrite ?length_replicate; lia. }
  rewrite law_WriteToSlice by (rewrite length_drop; lia).
  rewrite !length_app, length_take, length_be_fixed, !length_drop. lia.
Qed.

Lemma opMstore_ok : exec_ok opMstore 2 0 (Some memoryMStore) always.
Proof.
  op_start HI 2. intros Hm _. unfold opMstore, ok. eapply mem_fixed_covers in Hm; [|lia|reflexivity].
  destruct (fixed_uint64 w 32 mem eq_refl Hm (inv_memory _ HI)) as (E1 & _ & E3).
  do 5 wp_step. apply wp_update_memory. mcbn. rewrite E1. destruct (mem_Set32_ok _ w0 _ E3 Hm) as (mem' & E & L).
  cbn [memory] in *. rewrite E. cbn [owp]. repeat wp_step. op_done same.
Qed.

Lemma opMstore8_ok : exec_ok opMstore8 2 0 (Some memoryMStore8) always.
Proof.
  op_start HI 2. intros Hm _. unfold opMstore8, ok. eapply mem_fixed_covers in Hm; [|lia|reflexivity].
  destruct (fixed_uint64 w 1 mem eq_refl Hm (inv_memory _ HI)) as (E1 & _ & E3).
  do 5 wp_step. apply wp_update_memory. mcbn. rewrite E1. unfold mem_SetByte. cbn [memory] in *. zcmp.
  cbn [owp]. repeat wp_step.
  op_done ltac:(apply frame_same; [done| |done]; unfold mem_Len; cbn; f_equal; apply write_at_length; cbn;
                unfold mem_Len in *; lia).
Qed.

(** ** Instructions that write *)

Ltac by_write H := eapply ev_step; [|apply H; [assumption|addr]]; cbn [StateDB set_StateDB].

Lemma opSstore_ok : exec_ok opSstore 2 0 None writable.
Proof.
  op_start HI 2. intros _ Hw. unfold opSstore, self_address, ok. repeat wp_step.
  op_done ltac:(evolve ltac:(by_write step_SetState)).
Qed.

Lemma opSuicide_ok : exec_ok opSuicide 1 0 None writable.
Proof.
  op_start HI 1. intros _ Hw. unfold opSuicide, self_address, ok. repeat wp_step.
  op_done ltac:(evolve ltac:(eapply ev_step; [|apply step_Suicide; [assumption|addr|addr]])).
Qed.

Lemma wp_pop_topics n (Q : list Hash → machine → Prop) m :
  (n ≤ length (stack m))%nat → (∀ ts, Q ts (set_stack (drop n (stack m)) m)) → wp (pop_topics n) Q m.
Proof.
  revert Q m. induction n as [|n IH]; intros Q [p st mem rs c e] Hl HQ; cbn [stack] in *; cbn [pop_topics].
  - apply wp_ret, HQ.
  - destruct st as [|x st]; cbn [length] in Hl; [lia|]. wp_step. wp_step. wp_step.
    apply IH; [cbn; lia|]. intros ts. wp_step. apply HQ.
Qed.

Lemma makeLog_ok n : exec_ok (makeLog env n) (2 + Z.of_nat n) 0 (Some memoryLog) writable.
Proof.
  intros [p st mem rs c e] HI Hl Hm Hw. cbn [stack] in Hl.
  do 2 (destruct st as [|? st]; cbn [length] in Hl; [lia|]).
  eapply mem_at_covers in Hm; [|reflexivity..]. unfold makeLog, self_address, ok. do 5 wp_step.
  apply wp_pop_topics; mcbn; [lia|]. intros ts. do 3 wp_step.
  apply wp_GetCopy; [apply (inv_memory _ HI)|done|]. intros d _. repeat wp_step.
  apply (exec_post_frame _ _ _ _ _ HI);
    [evolve ltac:(eapply ev_step; [|apply step_AddLog; assumption])| |reflexivity|apply (inv_pc _ HI)|apply no_result].
  mcbn. rewrite length_drop. lia.
Qed.
(** ** Jumps and pushes *)

#[local] Opaque codeBitmap.

Lemma wp_codeSegment u a (Q : bool → machine → Prop) m : (∀ b, Q b m) → wp (lift (codeSegment u a)) Q m.
Proof.
  intros HQ. apply wp_lift. unfold codeSegment, or_panic.
  destruct (a !! Z.to_nat (u / 8)); cbn; [apply HQ|by right; right].
Qed.

#[local] Opaque codeSegment.

Lemma wp_isCode u (Q : bool → machine → Prop) m : (∀ b m', analysed m m' → Q b m') → wp (isCode u) Q m.
Proof.
  destruct m as [p st mem rs c e]. intros HQ. unfold isCode. wp_step. wp_step.
  destruct (codeBitmap_spec (Code c)) as (bits & Eb & _).
  assert (∀ jd a, wp (update_contract (set_analysis (Some a));; lift (codeSegment u a)) Q
      (MkMachine p st mem rs c (set_jumpdests jd e))) as Hk.
  { intros jd a. unfold update_contract. repeat wp_step. apply wp_codeSegment. intros b. apply HQ.
    right. by exists a, jd. }
  assert (set_jumpdests (jumpdests e) e = e) as Ee by (by destruct e).
  destruct (analysis c) as [a|]; [apply wp_codeSegment; intros b; apply HQ; by left|].
  case_bool_decide; wp_step.
  - apply wp_lift. rewrite Eb. cbn [owp]. rewrite <- Ee. apply Hk.
  - wp_step. wp_step. destruct (jumpdests e !! CodeHash c).
    + wp_step. rewrite <- Ee. apply Hk.
    + wp_step. apply wp_lift. rewrite Eb. cbn [owp]. unfold update_evm at 1. do 3 wp_step. apply Hk.
Qed.

#[local] Opaque isCode.

Lemma wp_validJumpdest dest (Q : bool → machine → Prop) m :
  (∀ b m', analysed m m' → Q b m') → wp (validJumpdest dest) Q m.
Proof.
  intros HQ. unfold validJumpdest. wp_step. wp_step. destruct (u_Uint64WithOverflow dest).
  repeat case_match; first [apply wp_ret, HQ; by left|by apply wp_isCode].
Qed.
Lemma wp_validJumpSubdest u (Q : bool → machine → Prop) m :
  (∀ b m', analysed m m' → Q b m') → wp (validJumpSubdest u) Q m.
Proof.
  intros HQ. unfold validJumpSubdest. wp_step. wp_step.
  repeat case_match; first [apply wp_ret, HQ; by left|by apply wp_isCode].
Qed.

#[local] Opaque validJumpdest validJumpSubdest.

Lemma analysed_frame m m' : analysed m m' → frame m m' ∧ stack m' = stack m ∧ pc m' = pc m ∧ rstack m' = rstack m
  ∧ Smoke (contract m') = Smoke (contract m).
Proof.
  intros [->|(a & jd & ->)]; [split; [apply mframe_refl|done]|]. split; [|done]. split; [|done|].
  - exists (Some a), (Smoke (contract m)). by destruct m as [???? [] ?].
  - split; [done..|apply ev_refl].
Qed.

(** The end of a jump: [m1] is the machine that has popped its operands. *)
Lemma analysed_post m m1 m2 pops r :
  inv m → frame m m1 → analysed m1 m2 → Smoke (contract m1) = Smoke (contract m) → pc m1 = pc m →
  r.1 = [] →  len (stack m1) = len (stack m) - pops →
  (∀ p' rs', is_u64 p' → exec_post m pops 0 0 r (MkMachine p' (stack m2) (memory m2) rs' (contract m2) (evm m2)))
  ∧ exec_post m pops 0 0 r m2.
Proof.
  intros HI Hf (Hf2 & Es & Ep & Er & Eg)%analysed_frame Hg Hpc Hr Hs.
  assert (∀ p' rs', is_u64 p' →
    exec_post m pops 0 0 r (MkMachine p' (stack m2) (memory m2) rs' (contract m2) (evm m2))) as Hk.
  { intros p' rs' Hp'. apply (exec_post_frame _ _ _ _ _ HI); [|mcbn; rewrite Es; lia|cbn; congruence|done|by rewrite Hr].
    eapply mframe_trans; [exact Hf|]. destruct Hf2. by split. }
  split; [done|]. specialize (Hk (pc m2) (rstack m2)). destruct m2. apply Hk. rewrite Ep, Hpc. apply HI.
Qed.

Lemma u64_of w : is_u64 (u_Uint64 w).
Proof. rewrite law_Uint64. apply u64_range. Qed.

Lemma opJump_ok : exec_ok opJump 1 0 None always.
Proof.
  op_start HI 1. intros _ _. unfold opJump, fail, ok. do 3 wp_step. apply wp_validJumpdest.
  intros b m' Ha. destruct b; cbn [negb]; repeat wp_step.
  - unfold set_pc. apply (analysed_post _ _ _ 1 ([], None) HI) in Ha as [Ha _]; [|same|done|done|done|mcbn; lia].
    apply Ha, u64_of.
  - apply (analysed_post _ _ _ 1 ([], Some ErrInvalidJump) HI) in Ha as [_ Ha]; [done|same|done|done|done|mcbn; lia].
Qed.
Lemma opJumpi_ok : exec_ok opJumpi 2 0 None always.
Proof.
  op_start HI 2. intros _ _. unfold opJumpi, fail, ok. do 4 wp_step. case_match; cbn [negb]; wp_step.
  - apply wp_validJumpdest. intros b m' Ha. destruct b; cbn [negb]; repeat wp_step.
    + unfold set_pc. apply (analysed_post _ _ _ 2 ([], None) HI) in Ha as [Ha _]; [|same|done|done|done|mcbn; lia].
      apply Ha, u64_of.
    + apply (analysed_post _ _ _ 2 ([], Some ErrInvalidJump) HI) in Ha as [_ Ha]; [done|same|done|done|done|mcbn; lia].
  - repeat wp_step. apply (exec_post_frame _ _ _ _ _ HI); [same|mcbn; lia|done|apply u64_range|apply no_result].
Qed.
Lemma opJumpSub_ok : exec_ok opJumpSub 1 0 None always.
Proof.
  op_start HI 1. intros _ _. unfold opJumpSub, fail, ok. do 2 wp_step.
  case_match; repeat wp_step; [apply (exec_post_frame _ _ _ _ _ HI); [same|mcbn; lia|done|apply HI|apply no_result]|].
  case_match; repeat wp_step; [op_done same|]. apply wp_validJumpSubdest.
  intros b m' Ha. destruct b; cbn [negb]; repeat wp_step.
  - unfold set_pc, set_rstack. cbn [pc stack memory rstack contract evm].
    apply (analysed_post _ _ _ 1 ([], None) HI) in Ha as [Ha _]; [|same|done|done|done|mcbn; lia].
    apply Ha, u64_range.
  - apply (analysed_post _ _ _ 1 ([], Some ErrInvalidJump) HI) in Ha as [_ Ha]; [done|same|done|done|done|mcbn; lia].
Qed.
Lemma opReturnSub_ok : exec_ok opReturnSub 0 0 None always.
Proof.
  op_start HI 0. intros _ _. unfold opReturnSub, fail, ok. do 2 wp_step.
  case_match; repeat wp_step; [op_done same|].
  apply (exec_post_frame _ _ _ _ _ HI); [same|mcbn; lia|done|apply u64_range|apply no_result].
Qed.

Lemma opPush1_ok : exec_ok opPush1 0 1 None always.
Proof.
  op_start HI 0. intros _ _. unfold opPush1, ok. repeat wp_step.
  apply (exec_post_frame _ _ _ _ _ HI); [same|mcbn; lia|done|apply u64_range|apply no_result].
Qed.
Lemma makePush_ok size n : 0 ≤ n → exec_ok (makePush size n) 0 1 None at_code.
Proof.
  intros Hn. op_start HI 0. intros _ Hp. unfold makePush, ok. do 5 wp_step. unfold at_code in Hp. cbn in Hp.
  pose proof (co_code _ (inv_contract _ HI)) as Hc. pose proof (inv_pc _ HI) as [Hp0 _]. cbn in Hc, Hp0.
  rewrite u64_small by (unfold is_u64; lia). unfold int64. zcmp.
  set (a := if p + 1 <? len (Code c) then p + 1 else len (Code c)).
  assert (0 ≤ a ≤ len (Code c)) by (unfold a; case_match; lia). clearbody a.
  set (b := if a + n <? len (Code c) then a + n else len (Code c)).
  assert (a ≤ b ≤ len (Code c)) by (unfold b; case_match; lia). clearbody b.
  apply wp_lift. destruct (slice_checked_ok (Code c) a b) as [-> _]; [lia|lia|]. cbn [owp]. repeat wp_step.
  apply (exec_post_frame _ _ _ _ _ HI); [same|mcbn; lia|done|apply u64_range|apply no_result].
Qed.
End ops.
