(* ===== verification/VmPrecompilesSound.v ===== *)
(** * Soundness of the precompiled contracts

    Within the smoke a block can supply no precompiled contract panics, and
    what is left of the smoke lies between zero and what was supplied.  The
    price of the modular exponentiation bounds the lengths it reads. *)
From S2P Require Import Prelude Opcodes Params ChainConfig VmBase VmMachine Precompiles VmSmoke VmOps VmTables VmLogic VmAnalysis VmSound.
Local Open Scope Z_scope.

Section precompiles.
Context {CR : Crypto} {CL : CryptoLaws}.

Lemma SetBytes_nonneg b : 0 ≤ SetBytes b.
Proof. apply be_decode_bound. apply Forall_fmap, Forall_true. intros x. apply u8_byte. Qed.

Lemma big_Uint64_range x : is_u64 (big_Uint64 x).
Proof. apply u64_range. Qed.
Lemma big_Uint64_small x : 0 ≤ x < 2 ^ 64 → big_Uint64 x = x.
Proof. intros. unfold big_Uint64. rewrite Z.abs_eq by lia. by apply u64_small. Qed.

Lemma word_price_nonneg input a b : 0 ≤ word_price input a b.
Proof. apply u64_range. Qed.

Lemma multiexp_price_nonneg input a b : 0 ≤ multiexp_price input a b.
Proof. unfold multiexp_price. case_match; [done|]. apply Z.div_pos; [apply u64_range|lia]. Qed.

(** The price of the modular exponentiation, by the lengths in its input. *)
Definition modexp_price (eip2565 : bool) (baseLen modLen adj : Z) : Z :=
  let smoke := Z.max modLen baseLen in
  if eip2565 then
    let smoke := (smoke + 7) / 8 in
    let smoke := smoke * smoke * Z.max adj 1 / 3 in
    if 64 <? big_BitLen smoke then MaxUint64
    else if big_Uint64 smoke <? 200 then 200 else big_Uint64 smoke
  else
    let smoke := modexpMultComplexity smoke * Z.max adj 1 / 20 in
    if 64 <? big_BitLen smoke then MaxUint64 else big_Uint64 smoke.

Lemma modexp_RequiredSmoke_ok eip input :
  len input < 2 ^ 63 →
  ∃ b e m adj, getData input 0 32 = Ret b ∧ getData input 32 32 = Ret e ∧ getData input 64 32 = Ret m
    ∧ 8 * (SetBytes e - 32) ≤ adj ∧ 0 ≤ adj
    ∧ modexp_RequiredSmoke eip input = Ret (modexp_price eip (SetBytes b) (SetBytes m) adj).
Proof.
  intros Hl. unfold modexp_RequiredSmoke.
  destruct (getData_ok input 0 32) as (b & Eb & _); [lia..|].
  destruct (getData_ok input 32 32) as (e & Ee & _); [lia..|].
  destruct (getData_ok input 64 32) as (m & Em & _); [lia..|].
  rewrite Eb, Ee, Em. cbn [mbind outcome_bind].
  set (args := modexp_args input).
  assert (len args < 2 ^ 63) as Ha by (unfold args, modexp_args; case_match; rewrite ?length_drop; cbn; lia).
  pose proof (SetBytes_nonneg e). pose proof (big_Uint64_range (SetBytes b)) as [? _].
  assert (∃ h, 0 ≤ h ∧ (if len args <=? SetBytes b then Ret 0
     else if 32 <? SetBytes e then h ← getData args (big_Uint64 (SetBytes b)) 32; Ret (SetBytes h)
     else h ← getData args (big_Uint64 (SetBytes b)) (big_Uint64 (SetBytes e)); Ret (SetBytes h)) = Ret h)
    as (h & Hh & ->).
  { destruct (len args <=? SetBytes b); [by exists 0|]. destruct (Z.ltb_spec 32 (SetBytes e)).
    - destruct (getData_ok args (big_Uint64 (SetBytes b)) 32) as (h & -> & _); [lia..|].
      eexists. split; [apply SetBytes_nonneg|done].
    - rewrite (big_Uint64_small (SetBytes e)) by lia.
      destruct (getData_ok args (big_Uint64 (SetBytes b)) (SetBytes e)) as (h & -> & _); [lia..|].
      eexists. split; [apply SetBytes_nonneg|done]. }
  exists b, e, m. eexists. do 3 (split; [done|]). cbn [mbind outcome_bind].
  split; [|split; [|unfold modexp_price; reflexivity]].
  all: set (bl := big_BitLen h); destruct (Z.ltb_spec 0 bl), (Z.ltb_spec 32 (SetBytes e)); lia.
Qed.
(** A price that can be paid bounds the lengths. *)
Lemma bitlen64 x : 0 ≤ x → (64 <? big_BitLen x) = false → x < 2 ^ 64.
Proof.
  intros Hx Hb. apply Z.ltb_ge in Hb. unfold big_BitLen in Hb. destruct (Z.eqb_spec x 0); [lia|].
  rewrite Z.abs_eq in Hb by done. apply Z.log2_lt_pow2; lia.
Qed.

Lemma div_bounds x k : 0 < k → k * (x / k) ≤ x < k * (x / k) + k.
Proof. intros. pose proof (Z.div_mod x k). pose proof (Z.mod_pos_bound x k). lia. Qed.

Lemma mul_grows a b : 1 ≤ a → 1 ≤ b → a ≤ a * b ∧ b ≤ a * b.
Proof. nia. Qed.

Lemma complexity_bound x : 0 < x → x ≤ modexpMultComplexity x.
Proof.
  intros Hx. unfold modexpMultComplexity. destruct (Z.leb_spec x 64); [nia|].
  destruct (Z.leb_spec x 1024).
  - pose proof (div_bounds (x * x) 4 eq_refl). nia.
  - pose proof (div_bounds (x * x) 16 eq_refl). nia.
Qed.

Lemma modexp_price_bounds eip b m adj :
  0 ≤ b → 0 ≤ m → 0 ≤ adj → modexp_price eip b m adj ≤ max_smoke →
  (b = 0 ∧ m = 0) ∨ (b < 2 ^ 63 ∧ m < 2 ^ 63 ∧ adj < 2 ^ 63).
Proof.
  intros Hb Hm Ha Hp. unfold modexp_price, max_smoke, MaxUint64 in Hp. remember (Z.max m b) as x eqn:Ex.
  destruct (Z.eq_dec x 0) as [Hx|Hx]; [left; lia|]. assert (0 < x) by lia. right.
  enough (x < 2 ^ 63 ∧ adj < 2 ^ 63) by lia. revert Hp. clear Ex.
  destruct eip.
  - set (y := (x + 7) / 8). assert (0 < y ∧ x ≤ 8 * y) as [Hy Hxy] by (unfold y; pose proof (div_bounds (x + 7) 8 eq_refl); lia).
    set (z := y * y * Z.max adj 1 / 3). clearbody y.
    assert (y * y * Z.max adj 1 ≤ 3 * z + 2 ∧ 0 ≤ z) as [Hz Hz0]
      by (pose proof (div_bounds (y * y * Z.max adj 1) 3 eq_refl); unfold z; nia). clearbody z.
    destruct (64 <? big_BitLen z) eqn:Ez; [lia|]. apply bitlen64 in Ez; [|done].
    rewrite big_Uint64_small by lia. pose proof (mul_grows y y). pose proof (mul_grows (y * y) (Z.max adj 1)).
    destruct (Z.ltb_spec z 200); lia.
  - pose proof (complexity_bound x ltac:(lia)) as Hc. set (y := modexpMultComplexity x) in *. clearbody y.
    set (z := y * Z.max adj 1 / 20).
    assert (y * Z.max adj 1 ≤ 20 * z + 19 ∧ 0 ≤ z) as [Hz Hz0]
      by (pose proof (div_bounds (y * Z.max adj 1) 20 eq_refl); unfold z; nia). clearbody z.
    destruct (64 <? big_BitLen z) eqn:Ez; [lia|]. apply bitlen64 in Ez; [|done].
    rewrite big_Uint64_small by lia. pose proof (mul_grows y (Z.max adj 1)). lia.
Qed.

Lemma RequiredSmoke_ok p input : len input < 2 ^ 63 → ∃ c, RequiredSmoke p input = Ret c ∧ 0 ≤ c.
Proof.
  intros Hl. destruct p; cbn [RequiredSmoke];
    try (eexists; split; [reflexivity|first [lia|apply word_price_nonneg|apply multiexp_price_nonneg|apply u64_range]]).
  - destruct (modexp_RequiredSmoke_ok eip2565 input Hl) as (b & e & m & adj & _ & _ & _ & _ & _ & ->).
    eexists. split; [done|]. unfold modexp_price, MaxUint64. repeat case_match; try lia; apply big_Uint64_range.
  - destruct (negb _); eexists; (split; [done|]); [done|apply SetBytes_nonneg].
Qed.

Lemma run_ecrecover_ok input : ∃ r, run_ecrecover input = Ret r.
Proof.
  unfold run_ecrecover. case_match; [by eexists|]. destruct (Ecrecover _ _) as [pub|] eqn:E; [|by eexists].
  apply law_ecrecover_length in E. destruct (slice_checked_ok pub 1 (len pub)) as [-> _]; [lia..|].
  cbn [mbind outcome_bind]. set (k := Keccak256 _). assert (length k = 32%nat) as Hk by apply law_keccak_length.
  destruct (slice_checked_ok k 12 (len k)) as [-> _]; [lia..|]. by eexists.
Qed.

Lemma run_bigModExp_ok eip input c :
  len input < 2 ^ 63 → modexp_RequiredSmoke eip input = Ret c → c ≤ max_smoke →
  ∃ r, run_bigModExp input = Ret r.
Proof.
  intros Hl E Hc. destruct (modexp_RequiredSmoke_ok eip input Hl) as (b & e & m & adj & Eb & Ee & Em & H1 & H2 & Er).
  rewrite Er in E. injection E as <-. unfold run_bigModExp. rewrite Eb, Ee, Em. cbn [mbind outcome_bind].
  pose proof (SetBytes_nonneg b). pose proof (SetBytes_nonneg e). pose proof (SetBytes_nonneg m).
  apply modexp_price_bounds in Hc as [[-> ->]|(Hb & Hm & Ha)]; [by eexists| |done..].
  rewrite !big_Uint64_small by lia. case_match; [by eexists|]. set (args := modexp_args input).
  assert (len args < 2 ^ 63) as Hargs by (unfold args, modexp_args; case_match; rewrite ?length_drop; cbn; lia).
  destruct (getData_ok args 0 (SetBytes b)) as (b' & -> & _); [lia..|].
  destruct (getData_ok args (SetBytes b) (SetBytes e)) as (e' & -> & _); [lia..|].
  destruct (getData_ok args (u64 (SetBytes b + SetBytes e)) (SetBytes m)) as (m' & -> & _);
    [lia|apply u64_range|lia|]. cbn [mbind outcome_bind]. case_match; by eexists.
Qed.

Lemma run_Bn256Add_ok input : len input < 2 ^ 63 → ∃ r, run_Bn256Add input = Ret r.
Proof.
  intros Hl. unfold run_Bn256Add. destruct (getData_ok input 0 64) as (a & -> & _); [lia..|].
  destruct (getData_ok input 64 64) as (b & -> & _); [lia..|]. cbn [mbind outcome_bind].
  repeat case_match; by eexists.
Qed.
Lemma run_Bn256ScalarMul_ok input : len input < 2 ^ 63 → ∃ r, run_Bn256ScalarMul input = Ret r.
Proof.
  intros Hl. unfold run_Bn256ScalarMul. destruct (getData_ok input 0 64) as (a & -> & _); [lia..|].
  destruct (getData_ok input 64 32) as (b & -> & _); [lia..|]. cbn [mbind outcome_bind].
  repeat case_match; by eexists.
Qed.

Lemma Run_precompile_ok p input c :
  len input < 2 ^ 63 → RequiredSmoke p input = Ret c → c ≤ max_smoke → ∃ r, Run_precompile p input = Ret r.
Proof.
  intros Hl E Hc. destruct p; cbn [Run_precompile]; try by eexists.
  - apply run_ecrecover_ok.
  - by eapply run_bigModExp_ok.
  - by apply run_Bn256Add_ok.
  - by apply run_Bn256Add_ok.
  - by apply run_Bn256ScalarMul_ok.
  - by apply run_Bn256ScalarMul_ok.
Qed.

Lemma RunPrecompiledContract_ok p input smoke :
  len input < 2 ^ 63 → 0 ≤ smoke ≤ max_smoke →
  ∃ r, RunPrecompiledContract p input smoke = Ret r ∧ 0 ≤ leftOverSmoke r ≤ smoke.
Proof.
  intros Hl Hs. unfold RunPrecompiledContract. destruct (RequiredSmoke_ok p input Hl) as (c & E & Hc).
  rewrite E. cbn [mbind outcome_bind]. destruct (Z.ltb_spec smoke c); [eexists; split; [done|cbn; lia]|].
  destruct (Run_precompile_ok p input c Hl E) as ([out|err] & ->); [lia|..];
    (eexists; split; [done|cbn; lia]).
Qed.
End precompiles.

(** ** The lists of active contracts *)

Lemma foldl_collect {A} (acc l : list A) : foldl (λ acc k, acc ++ [k]) acc l = acc ++ l.
Proof. revert acc. induction l as [|k l IH]; intros acc; cbn; [by rewrite app_nil_r|]. rewrite IH. by rewrite <- app_assoc. Qed.

Lemma foldl_last {A} (acc l : list A) : l ≠ [] → length (foldl (λ _ k, [] ++ [k]) acc l) = 1%nat.
Proof.
  destruct l as [|k l] using rev_ind; [done|]. intros _. by rewrite foldl_app.
Qed.

Lemma assoc_keys {A B} `{EqDecision A} (l : list (A * B)) k : k ∈ l.*1 ↔ is_Some (assoc k l).
Proof.
  induction l as [|[k' v] l IH]; cbn; [rewrite elem_of_nil; split; [done|by intros []]|].
  rewrite elem_of_cons. case_decide as E; [subst; split; [by eexists|by left]|]. rewrite <- IH. naive_solver.
Qed.

(** The list of active precompiled contracts.  From Istanbul on,
    [ActivePrecompiles] returns exactly the addresses that [precompile] answers
    for.  Between Byzantium and Istanbul it returns no address at all, and
    before Byzantium a single one, in whatever order Go ranges over the maps:
    the loop of [init] over the Byzantium contracts assigns to the Homestead
    list. *)
Theorem ActivePrecompiles_lists (order : list (Address * PrecompiledContract) → list Address) (rules : Rules)
    (Ho : ∀ t, order t ≡ₚ t.*1) :
  (r_IsYoloV2 rules || r_IsIstanbul rules = true → ∀ a,
     a ∈ ActivePrecompiles (init order) rules ↔ is_Some (precompile rules a))
  ∧ (r_IsYoloV2 rules || r_IsIstanbul rules = false → r_IsByzantium rules = true →
     ActivePrecompiles (init order) rules = [] ∧ precompile rules (replicate 19 0 ++ [1]) = Some ecrecover)
  ∧ (r_IsYoloV2 rules || r_IsIstanbul rules = false → r_IsByzantium rules = false →
     length (ActivePrecompiles (init order) rules) = 1%nat).
Proof.
  unfold ActivePrecompiles, precompile, init. cbn [PrecompiledAddressesYoloV2 PrecompiledAddressesIstanbul
    PrecompiledAddressesByzantium PrecompiledAddressesHomestead]. rewrite !foldl_collect. cbn [app].
  split; [|split].
  - intros Hr a. destruct (r_IsYoloV2 rules); [by rewrite Ho, assoc_keys|]. cbn in Hr. rewrite Hr. by rewrite Ho, assoc_keys.
  - intros Hr Hb. apply orb_false_iff in Hr as [-> ->]. rewrite Hb. split; [done|]. by vm_compute.
  - intros Hr Hb. apply orb_false_iff in Hr as [-> ->]. rewrite Hb. apply (foldl_last (A := Address)). intros He.
    pose proof (Permutation_length (Ho PrecompiledContractsByzantium)) as Hl. rewrite He in Hl. by vm_compute in Hl.
Qed.

Lemma ActivePrecompiles_lists_witness :
  let rules := MkRules 1 true true true true true true true false false in
  ActivePrecompiles (init (λ t, t.*1)) rules = [] ∧ precompile rules (replicate 19 0 ++ [1]) = Some ecrecover.
Proof. apply (ActivePrecompiles_lists (λ t, t.*1)); [intros t; reflexivity|reflexivity|reflexivity]. Defined.
