(* ===== verification/VmCallsSound.v ===== *)
(** * Soundness of the call instructions

    What the instructions need of the methods of [EVM] that they call
    ([calls_good]): a callee that gets at most [n] smoke returns, hands back at
    most what it got, and leaves depth, mode and snapshots as they were.  Under
    this contract the calls and creations are sound; EvmSound.v shows that the
    methods satisfy it. *)
From S2P Require Import Prelude Opcodes Params ChainConfig VmBase VmMachine Precompiles VmSmoke VmOps VmTables VmLogic VmAnalysis VmSound VmOpsSound.
Local Open Scope Z_scope.

Section calls.
Context `{Uint256Laws} {SA : StateAccess} {SL : @StateLaws SA} {CR : Crypto} (env : Env).

#[local] Opaque VmLogic.wp query update update_or update_memory UseSmoke pop peek poke push back get_args.
Abbreviation wp := (wp vm_panic).
Abbreviation frame := (frame env).

(** ** The contract between instructions and EVM *)

Record callee (n : Z) (c : ContractRef) (input : bytes) (smoke : Z) (e : EVM) : Prop := {
  ca_ref : ref_ok c;
  ca_input : len input < 2 ^ 63;
  ca_smoke : 0 ≤ smoke ≤ n;
  ca_state : state_ok (StateDB e)
}.

Definition call_post (e : EVM) (smoke : Z) (x : call_result * EVM) : Prop :=
  evm_frame env e x.2 ∧ 0 ≤ leftOverSmoke x.1 ≤ smoke.
Definition create_post (e : EVM) (smoke : Z) (x : create_result * EVM) : Prop :=
  evm_frame env e x.2 ∧ 0 ≤ cr_smoke x.1 ≤ smoke.

Abbreviation owp := (owp vm_panic).

Record calls_good (n : Z) (calls : CallOps) : Prop := {
  cg_Call c addr input smoke v e :
    callee n c input smoke e → is_addr addr → 0 ≤ v → (ro_mode env e = true → v = 0) →
    owp (do_Call calls c addr input smoke v e) (call_post e smoke);
  cg_CallCode c addr input smoke v e :
    callee n c input smoke e → is_addr addr →
    owp (do_CallCode calls c addr input smoke v e) (call_post e smoke);
  cg_DelegateCall c addr input smoke e a b v :
    callee n c input smoke e → is_addr addr → c = ContractOf a b v →
    owp (do_DelegateCall calls c addr input smoke e) (call_post e smoke);
  cg_StaticCall c addr input smoke e :
    callee n c input smoke e → is_addr addr →
    owp (do_StaticCall calls c addr input smoke e) (call_post e smoke);
  cg_Create c code smoke v e :
    callee n c code smoke e → 0 ≤ v → ro_mode env e = false →
    owp (do_Create calls c code smoke v e) (create_post e smoke);
  cg_Create2 c code smoke v salt e :
    callee n c code smoke e → 0 ≤ v → ro_mode env e = false →
    owp (do_Create2 calls c code smoke v salt e) (create_post e smoke)
}.

Context (n : Z) (calls : CallOps) (Hn : n ≤ max_smoke) (CG : calls_good n calls).

(** An instruction that may give back [credit] smoke. *)
Definition op_post (m : machine) (pops pushes credit : Z) (m' : machine) : Prop :=
  frame m m' ∧ len (stack m') ≤ Z.max (len (stack m)) (len (stack m) - pops + pushes)
  ∧ 0 ≤ Smoke (contract m') ≤ Smoke (contract m) + credit ∧ is_u64 (pc m').

Definition call_ok (f : executionFunc) (pops pushes : Z) (g : memorySizeFunc) (credit : machine → Z)
    (pre : machine → Prop) : Prop :=
  ∀ m, inv m → pops ≤ len (stack m) → mem_fits (Some g) m → pre m →
    0 ≤ credit m → Smoke (contract m) + credit m ≤ n →
    wp f (λ _ m', op_post m pops pushes (credit m) m') m.

(** ** Common parts *)

Lemma wp_on_evm {A} (f : EVM → outcome (A * EVM)) (Q : A → machine → Prop) m :
  owp (f (evm m)) (λ '(a, e), Q a (set_evm e m)) → wp (on_evm f) Q m.
Proof.
  intros HQ. unfold on_evm, update_evm. wp_step. wp_step. wp_step. apply wp_lift.
  eapply owp_mono; [|exact HQ]. intros [a e] Ha. by repeat wp_step.
Qed.

Lemma wp_finish_call r io il ro rl (Q : op_result → machine → Prop) m :
  mem_Len (memory m) ≤ max_memory → covers io il (mem_Len (memory m)) → covers ro rl (mem_Len (memory m)) →
  0 ≤ Smoke (contract m) + leftOverSmoke r ≤ max_smoke →
  (∀ d x mem, mem_Len mem = mem_Len (memory m) →
     Q (d, None) (MkMachine (pc m) (x :: stack m) mem (rstack m)
                    (set_Smoke (Smoke (contract m) + leftOverSmoke r) (contract m)) (evm m))) →
  wp (finish_call r io il ro rl) Q m.
Proof.
  intros Hm Hi Hr Hs HQ. destruct m as [p st mem rs c e]. cbn [memory pc stack rstack contract evm] in *.
  unfold finish_call. wp_step. wp_step. wp_step.
  set (R := λ (_ : unit) m', ∃ x mem', mem_Len mem' = mem_Len mem ∧ m' = MkMachine p (x :: st) mem' rs c e).
  apply (wp_mono _ _ R).
  - intros _ m' (x & mem' & L & ->). unfold give_back, update_contract. wp_step. wp_step.
    rewrite u64_small by (unfold is_u64, max_smoke in *; lia).
    destruct (ret_alias r); repeat wp_step; [|by apply HQ].
    apply wp_GetPtr; [by rewrite L|by rewrite L|]. intros d _. wp_step. by apply HQ.
  - case_match; [|wp_step; by eexists _, mem].
    apply wp_mem_Set; [done..|]. intros mem' L. by eexists _, mem'.
Qed.

Lemma as_ref_ok m : inv m → ref_ok (as_ref (contract m)).
Proof. intros [[]]. by split. Qed.

(** The callee of a call from the machine [m]. *)
Lemma callee_of m input smoke :
  inv m → len input ≤ max_memory → 0 ≤ smoke ≤ n → callee n (as_ref (contract m)) input smoke (evm m).
Proof.
  intros HI Hl Hs. unfold max_memory in Hl. split; [by apply as_ref_ok|lia|done|apply HI].
Qed.

Lemma covers_len off l k (d : bytes) : covers off l k → k ≤ max_memory → len d = u_val l → len d ≤ max_memory.
Proof. intros Hc Hk Hd. pose proof (law_range off). unfold max_memory in *. destruct Hc; lia. Qed.
(** The end of a call, from the machine [m1] that has popped the arguments. *)
Lemma call_tail m m1 pops g (f : EVM → outcome (call_result * EVM)) io il ro rl :
  inv m → contract m1 = contract m → evm m1 = evm m → memory m1 = memory m → pc m1 = pc m →
  len (stack m1) = len (stack m) - pops →
  covers io il (mem_Len (memory m)) → covers ro rl (mem_Len (memory m)) →
  0 ≤ g → Smoke (contract m) + g ≤ n → owp (f (evm m)) (call_post (evm m) g) →
  wp (r ← on_evm f; finish_call r io il ro rl) (λ _ m', op_post m pops 1 g m') m1.
Proof.
  intros HI Hc He Hm Hp Hs Hi Hr Hg Hsn Hf. pose proof (co_smoke _ (inv_contract _ HI)) as Hsm.
  wp_step. apply wp_on_evm. rewrite He. eapply owp_mono; [|exact Hf].
  intros [r e'] [Fe Hl]. cbn [fst snd] in *. apply wp_finish_call; cbn [memory contract set_evm]; rewrite ?Hm, ?Hc;
    [apply (inv_memory _ HI)|done|done|lia|].
  intros d x mem' L. cbn [pc stack rstack evm]. split; [|split; [mcbn; lia|]].
  - split; cbn; [|done|done]. rewrite ?Hc. apply contract_frame_smoke.
  - cbn. rewrite ?Hp. split; [rewrite ?Hc; lia|apply HI].
Qed.

Definition stipend (v : Word) : Z := if u_IsZero v then 0 else CallStipend.
Definition value_credit (m : machine) : Z :=
  callSmokeTemp (evm m) + match stack m !! 2%nat with Some v => stipend v | None => 0 end.
Definition plain_credit (m : machine) : Z := callSmokeTemp (evm m).

(** The value and the smoke of CALL and CALLCODE. *)
Lemma call_value (temp : Z) (v : Word) :
  0 ≤ temp + stipend v ≤ n → 0 ≤ temp →
  (if negb (u_IsZero v) then (u64 (temp + CallStipend), u_ToBig v) else (temp, 0))
  = (temp + stipend v, u_val v).
Proof.
  unfold stipend, max_smoke in *. rewrite law_IsZero. intros Ht H0'. destruct (Z.eqb_spec (u_val v) 0) as [E|]; cbn.
  - by rewrite E, Z.add_0_r.
  - rewrite law_ToBig, u64_small by (unfold is_u64; lia). done.
Qed.

Definition no_value (m : machine) : Prop :=
  ro_mode env (evm m) = true → ∀ v, stack m !! 2%nat = Some v → u_val v = 0.
Definition temp_ok (m : machine) : Prop := 0 ≤ callSmokeTemp (evm m).

Lemma opCall_ok : call_ok (opCall calls) 7 1 memoryCall value_credit (λ m, no_value m ∧ temp_ok m).
Proof.
  op_start HI 7. intros Hm [Hv Ht] Hc0 Hcn. unfold value_credit, temp_ok, no_value in *. cbn [stack evm contract lookup list_lookup] in *.
  eapply mem_two_covers in Hm as [Hr Hi]; [|reflexivity..]. unfold opCall. do 17 wp_step.
  apply wp_get_args; [apply (inv_memory _ HI)|done|]. intros d Hd.
  rewrite call_value; [|destruct HI as [[]]; cbn in *; lia|done]. wp_step. wp_step.
  apply call_tail; try done; [mcbn; lia|].
  apply (cg_Call _ _ CG); [|apply bytes20_addr|apply law_range|intros Hro; by apply (Hv Hro)].
  apply (callee_of _ _ _ HI); [|destruct HI as [[]]; cbn in *; lia].
  eapply covers_len; [exact Hi|apply (inv_memory _ HI)|done].
Qed.
Lemma opCallCode_ok : call_ok (opCallCode calls) 7 1 memoryCall value_credit temp_ok.
Proof.
  op_start HI 7. intros Hm Ht Hc0 Hcn. unfold value_credit, temp_ok in *. cbn [stack evm contract lookup list_lookup] in *.
  eapply mem_two_covers in Hm as [Hr Hi]; [|reflexivity..]. unfold opCallCode. do 17 wp_step.
  apply wp_get_args; [apply (inv_memory _ HI)|done|]. intros d Hd.
  rewrite call_value; [|destruct HI as [[]]; cbn in *; lia|done]. wp_step. wp_step.
  apply call_tail; try done; [mcbn; lia|].
  apply (cg_CallCode _ _ CG); [|apply bytes20_addr].
  apply (callee_of _ _ _ HI); [|destruct HI as [[]]; cbn in *; lia].
  eapply covers_len; [exact Hi|apply (inv_memory _ HI)|done].
Qed.

Lemma opDelegateCall_ok : call_ok (opDelegateCall calls) 6 1 memoryDelegateCall plain_credit (λ _, True).
Proof.
  op_start HI 6. intros Hm _ Hc0 Hcn. unfold plain_credit in *. cbn [stack evm contract] in *.
  eapply mem_two_covers in Hm as [Hr Hi]; [|reflexivity..]. unfold opDelegateCall. do 15 wp_step.
  apply wp_get_args; [apply (inv_memory _ HI)|done|]. intros d Hd. wp_step. wp_step.
  apply call_tail; try done; [mcbn; lia|].
  eapply (cg_DelegateCall _ _ CG); [|apply bytes20_addr|done].
  apply (callee_of _ _ _ HI); [|destruct HI as [[]]; cbn in *; lia].
  eapply covers_len; [exact Hi|apply (inv_memory _ HI)|done].
Qed.

Lemma opStaticCall_ok : call_ok (opStaticCall calls) 6 1 memoryStaticCall plain_credit (λ _, True).
Proof.
  op_start HI 6. intros Hm _ Hc0 Hcn. unfold plain_credit in *. cbn [stack evm contract] in *.
  eapply mem_two_covers in Hm as [Hr Hi]; [|reflexivity..]. unfold opStaticCall. do 15 wp_step.
  apply wp_get_args; [apply (inv_memory _ HI)|done|]. intros d Hd. wp_step. wp_step.
  apply call_tail; try done; [mcbn; lia|].
  apply (cg_StaticCall _ _ CG); [|apply bytes20_addr].
  apply (callee_of _ _ _ HI); [|destruct HI as [[]]; cbn in *; lia].
  eapply covers_len; [exact Hi|apply (inv_memory _ HI)|done].
Qed.

(** ** Creations *)

(** The end of a creation, from the machine [m1] that has popped the arguments
    and paid [g] smoke for the creation. *)
Lemma create_tail m m1 pops g (f : EVM → outcome (create_result * EVM)) (sv : create_result → Word) :
  inv m → contract m1 = set_Smoke (Smoke (contract m) - g) (contract m) → evm m1 = evm m →
  memory m1 = memory m → pc m1 = pc m → len (stack m1) = len (stack m) - pops →
  0 ≤ g ≤ Smoke (contract m) → owp (f (evm m)) (create_post (evm m) g) →
  wp (r ← on_evm f; push (sv r);; give_back (cr_smoke r);;
      if bool_decide (cr_err r = Some ErrExecutionReverted) then mret (cr_ret r, None) else ok)
    (λ _ m', op_post m pops 1 0 m') m1.
Proof.
  intros HI Hc He Hm Hp Hs Hg Hf. pose proof (co_smoke _ (inv_contract _ HI)) as Hsm.
  wp_step. apply wp_on_evm. rewrite He. eapply owp_mono; [|exact Hf].
  intros [r e'] [Fe Hl]. cbn [fst snd] in *. unfold give_back, update_contract, ok.
  do 4 wp_step. rewrite Hc. cbn [Smoke set_Smoke].
  rewrite u64_small by (unfold is_u64, max_smoke in *; lia).
  assert (op_post m pops 1 0 (MkMachine (pc m1) (sv r :: stack m1) (memory m1) (rstack m1)
    (set_Smoke (Smoke (contract m) - g + cr_smoke r) (contract m)) e')) as Hpost.
  { split; [|split; [mcbn; lia|]].
    - split; cbn; [|by rewrite Hm|done]. apply contract_frame_smoke.
    - cbn. rewrite ?Hp. split; [lia|apply HI]. }
  case_bool_decide; wp_step; exact Hpost.
Qed.

Lemma div64 x : 0 ≤ x → 0 ≤ x - x / 64 ≤ x.
Proof. intros. pose proof (Z.div_pos x 64). pose proof (Z.div_le_upper_bound x 64 x). lia. Qed.

Lemma callee_create m input g :
  inv m → len input ≤ max_memory → 0 ≤ g ≤ n →
  callee n (as_ref (set_Smoke (Smoke (contract m) - g) (contract m))) input g (evm m).
Proof. intros HI Hl Hg. by apply (callee_of m). Qed.

Lemma big_value (v : Word) : 0 ≤ (if negb (u_IsZero v) then u_ToBig v else 0).
Proof. rewrite law_ToBig. pose proof (law_range v). destruct (negb _); lia. Qed.

Lemma opCreate_ok :
  call_ok (opCreate env calls) 3 1 memoryCreate (λ _, 0) (λ m, ro_mode env (evm m) = false).
Proof.
  op_start HI 3. intros Hm Hw _ Hcn. cbn [contract evm] in *.
  eapply mem_at_covers in Hm; [|reflexivity..]. unfold opCreate. do 9 wp_step.
  apply wp_GetCopy; [apply (inv_memory _ HI)|done|]. intros d Hd. wp_step. wp_step.
  set (g := if r_IsEIP150 _ then _ else _). pose proof (co_smoke _ (inv_contract _ HI)) as Hsm. cbn in Hsm.
  assert (0 ≤ g ≤ Smoke c) as Hg by (unfold g; pose proof (div64 (Smoke c)); case_match; lia). clearbody g.
  wp_step. apply wp_UseSmoke; mcbn; [intros; exfalso; lia|]. intros _. wp_step. wp_step.
  apply (create_tail _ _ _ g); try done; [mcbn; lia|].
  apply (cg_Create _ _ CG); [|apply big_value|done]. apply (callee_create _ _ _ HI); [|lia].
  eapply covers_len; [exact Hm|apply (inv_memory _ HI)|done].
Qed.

Lemma opCreate2_ok :
  call_ok (opCreate2 calls) 4 1 memoryCreate2 (λ _, 0) (λ m, ro_mode env (evm m) = false).
Proof.
  op_start HI 4. intros Hm Hw _ Hcn. cbn [contract evm] in *.
  eapply mem_at_covers in Hm; [|reflexivity..]. unfold opCreate2. do 11 wp_step.
  apply wp_GetCopy; [apply (inv_memory _ HI)|done|]. intros d Hd. wp_step. wp_step.
  pose proof (co_smoke _ (inv_contract _ HI)) as Hsm. cbn in Hsm. pose proof (div64 (Smoke c)).
  wp_step. apply wp_UseSmoke; mcbn; [intros; exfalso; lia|]. intros _. wp_step. wp_step.
  apply (create_tail _ _ _ (Smoke c - Smoke c / 64)); try done; [mcbn; lia|mcbn; lia|].
  apply (cg_Create2 _ _ CG); [|apply big_value|done]. apply (callee_create _ _ _ HI); [|lia].
  eapply covers_len; [exact Hm|apply (inv_memory _ HI)|done].
Qed.
End calls.
