(* ===== verification/VmCostSound.v ===== *)
(** * Soundness of the dynamic costs

    A cost function does not panic (but for [vm_panic]), leaves stack and
    program counter alone, refuses memory beyond [max_memory], and charges at
    least what the instruction may give back. *)
From S2P Require Import Prelude Opcodes Params ChainConfig VmBase VmMachine Precompiles VmSmoke VmOps VmTables VmLogic VmAnalysis VmSound VmOpsSound VmCallsSound.
Local Open Scope Z_scope.

(** What an instruction may give back: nothing, the smoke of the callee, or
    that and the stipend of a transfer. *)
Inductive credit_kind := NoCredit | Plain | Value.

Section costs.
Context `{Uint256Laws} {SA : StateAccess} {SL : @StateLaws SA} {CR : Crypto} (env : Env).

#[local] Opaque VmLogic.wp query update update_or update_memory UseSmoke pop peek poke push back.
Abbreviation wp := (wp vm_panic).

Definition credit_of (k : credit_kind) (m : machine) : Z :=
  match k with NoCredit => 0 | Plain => plain_credit m | Value => value_credit m end.

(** What a cost function may change. *)
Record cost_frame (m m' : machine) : Prop := {
  cf_pc : pc m' = pc m;
  cf_stack : stack m' = stack m;
  cf_store : store (memory m') = store (memory m);
  cf_contract : contract_frame (contract m) (contract m');
  cf_smoke : 0 ≤ Smoke (contract m') ≤ Smoke (contract m);
  cf_evm : evm_frame env (evm m) (evm m')
}.

(** The cost covers the credit and [lo] more; with [mem] the size of the
    memory is bounded. *)
Definition dyn_post (m : machine) (size : Z) (mem : bool) (k : credit_kind) (lo : Z)
    (r : result vm_error Z) (m' : machine) : Prop :=
  cost_frame m m' ∧
  match r with
  | Err _ => True
  | Ok cost => 0 ≤ cost ∧ (mem = true → size ≤ max_memory) ∧ lo + credit_of k m' ≤ cost
               ∧ (k = NoCredit ∨ 0 ≤ callSmokeTemp (evm m'))
  end.

Definition dyn_ok (d : smokeFunc) (args : Z) (mem : bool) (pre : machine → Prop) (k : credit_kind) (lo : Z) : Prop :=
  ∀ m size, inv m → args ≤ len (stack m) → is_u64 size → pre m → wp (d size) (dyn_post m size mem k lo) m.

Lemma cost_frame_refl m : inv m → cost_frame m m.
Proof.
  intros [[]]. split; try done; [apply contract_frame_refl|lia|apply evm_frame_refl].
Qed.
Lemma cost_frame_trans m1 m2 m3 : cost_frame m1 m2 → cost_frame m2 m3 → cost_frame m1 m3.
Proof.
  intros [] []. split; [congruence..|by eapply contract_frame_trans|lia|by eapply evm_frame_trans].
Qed.
Lemma cost_frame_inv m m' : cost_frame m m' → inv m → inv m'.
Proof.
  intros [Hp Hs Hm Hc Hg He] []. split.
  - eapply contract_frame_ok; [done..|]. destruct inv_contract. lia.
  - by rewrite Hs.
  - unfold mem_Len in *. by rewrite Hm.
  - eapply law_evolves; [done|apply He].
  - by rewrite Hp.
Qed.

(** ** Rules *)

Lemma wp_try {A B} (x : M (result vm_error A)) (f : A → M (result vm_error B)) Q m :
  wp x (λ r m', match r with Ok a => wp (f a) Q m' | Err e => Q (Err e) m' end) m → wp (try x f) Q m.
Proof. intros Hx. unfold try. apply wp_bind. eapply wp_mono; [|exact Hx]. intros [a|e] m' Hm; [done|by apply wp_ret]. Qed.

Lemma wp_SafeAdd x y (Q : result vm_error Z → machine → Prop) m :
  0 ≤ x → 0 ≤ y → (x + y < 2 ^ 64 → Q (Ok (x + y)) m) → (∀ e, Q (Err e) m) → wp (checked (SafeAdd x y)) Q m.
Proof.
  intros Hx Hy H1 H2. unfold checked, SafeAdd. apply wp_ret. destruct (Z.leb_spec (2 ^ 64) (x + y)); [done|].
  rewrite u64_small by (unfold is_u64; lia). by apply H1.
Qed.
Lemma wp_SafeMul x y (Q : result vm_error Z → machine → Prop) m :
  (∀ z, 0 ≤ z → Q (Ok z) m) → (∀ e, Q (Err e) m) → wp (checked (SafeMul x y)) Q m.
Proof.
  intros H1 H2. unfold checked, SafeMul. apply wp_ret. case_match; [done|]. apply H1, u64_range.
Qed.
Lemma wp_checked_word x (Q : result vm_error Z → machine → Prop) m :
  (∀ z, 0 ≤ z → Q (Ok z) m) → (∀ e, Q (Err e) m) → wp (checked (u_Uint64WithOverflow x)) Q m.
Proof.
  intros H1 H2. rewrite law_Uint64WithOverflow. unfold checked. apply wp_ret. case_match; [done|].
  apply H1, u64_range.
Qed.

#[local] Opaque checked.

Lemma wp_memorySmokeCost size (Q : result vm_error Z → machine → Prop) m :
  (∀ last r, match r with Ok c => 0 ≤ c ∧ size ≤ max_memory | Err _ => True end →
     Q r (set_memory (MkMemory (store (memory m)) last) m)) →
  wp (memorySmokeCost size) Q m.
Proof.
  destruct m as [p st [b last] rs c e]. intros HQ. unfold memorySmokeCost, ret_ok, max_memory in *. cbn in HQ.
  destruct (Z.eqb_spec size 0); [apply wp_ret, (HQ last (Ok 0)); lia|].
  destruct (Z.ltb_spec 0x1FFFFFFFE0 size); [by apply wp_ret, HQ|].
  wp_step. wp_step. case_match; repeat wp_step; [|apply (HQ last (Ok 0)); lia].
  apply (HQ _ (Ok _)). split; [apply u64_range|lia].
Qed.

Lemma toWordSize_nonneg x : 0 ≤ x → 0 ≤ toWordSize x.
Proof.
  intros. unfold toWordSize. case_match; [done|]. apply Z.div_pos; lia.
Qed.

Lemma wp_word_smoke pos price smoke x (Q : result vm_error Z → machine → Prop) m :
  stack m !! pos = Some x → 0 ≤ smoke →
  (∀ z, smoke ≤ z → Q (Ok z) m) → (∀ e, Q (Err e) m) → wp (word_smoke pos price smoke) Q m.
Proof.
  intros Hx Hs H1 H2. unfold word_smoke. apply wp_bind. eapply wp_back; [done|].
  apply wp_try, wp_checked_word; [|done]. intros w Hw. apply wp_try, wp_SafeMul; [|done].
  intros z Hz. apply wp_SafeAdd; [done|done| |done]. intros _. apply H1. lia.
Qed.

(** ** Functions of the memory *)

Lemma cost_memory m last : inv m → cost_frame m (set_memory (MkMemory (store (memory m)) last) m).
Proof. intros HI. destruct (cost_frame_refl m HI). by split. Qed.

Lemma pureMemorySmokecost_ok args : dyn_ok pureMemorySmokecost args true always NoCredit 0.
Proof.
  intros m size HI _ Hs _. apply wp_memorySmokeCost. intros last [c|e] Hr; (split; [by apply cost_memory|]); [|done].
  cbn. split; [lia|]. split; [lia|]. split; [lia|by left].
Qed.

Lemma memory_word_ok pos price :
  dyn_ok (λ size, try (memorySmokeCost size) (word_smoke pos price)) (Z.of_nat pos + 1) true always NoCredit 0.
Proof.
  intros m size HI Hl Hs _. destruct (lookup_lt_is_Some_2 (stack m) pos) as [x Hx]; [lia|].
  apply wp_try, wp_memorySmokeCost. intros last [c|e] Hr; [|split; [by apply cost_memory|done]].
  eapply wp_word_smoke; [exact Hx|lia|..].
  - intros z Hz. split; [by apply cost_memory|]. cbn. split; [lia|]. split; [lia|]. split; [lia|by left].
  - intros e. split; [by apply cost_memory|done].
Qed.

Lemma makeSmokeLog_ok n : dyn_ok (makeSmokeLog n) 2 true always NoCredit 1.
Proof.
  intros m size HI Hl Hs _. destruct (lookup_lt_is_Some_2 (stack m) 1) as [x Hx]; [lia|].
  unfold makeSmokeLog. wp_step. eapply wp_back; [exact Hx|].
  assert (∀ last e, dyn_post m size true NoCredit 1 (Err e) (set_memory (MkMemory (store (memory m)) last) m)) as He
    by (intros; split; [by apply cost_memory|done]).
  apply wp_try, wp_checked_word; [|intros e; split; [by apply cost_frame_refl|done]]. intros w Hw.
  apply wp_try, wp_memorySmokeCost. intros last [c|e] Hr; [|done].
  apply wp_try, wp_SafeAdd; [lia..| |done]. intros _. pose proof (u64_range (n * LogTopicSmoke)) as [? _].
  apply wp_try, wp_SafeAdd; [lia..| |done]. intros _.
  apply wp_try, wp_SafeMul; [|done]. intros z Hz. apply wp_SafeAdd; [lia..| |done]. intros _.
  split; [by apply cost_memory|]. cbn. split; [lia|]. split; [lia|]. split; [lia|by left].
Qed.

Lemma exp_smoke_ok price : dyn_ok (λ _, exp_smoke price) 2 false always NoCredit 1.
Proof.
  intros m size HI Hl Hs _. destruct (lookup_lt_is_Some_2 (stack m) 1) as [x Hx]; [lia|].
  unfold exp_smoke. wp_step. eapply wp_back; [exact Hx|]. set (z := u64 _). assert (0 ≤ z) by apply u64_range.
  apply wp_SafeAdd; [lia..| |]; intros; (split; [by apply cost_frame_refl|]); [|done].
  cbn. split; [lia|]. split; [done|]. split; [lia|by left].
Qed.
(** ** Functions of the state *)

Lemma cost_evolves m m' s :
  inv m → pc m' = pc m → stack m' = stack m → store (memory m') = store (memory m) →
  contract m' = contract m → evm m' = set_StateDB s (evm m) →
  evolves (ro_mode env (evm m)) (StateDB (evm m)) s → cost_frame m m'.
Proof.
  intros HI Hp Hs Hm Hc He Hev. destruct (cost_frame_refl m HI). split; rewrite ?Hc, ?He; done.
Qed.

Lemma ok_post m m' size lo cost :
  cost_frame m m' → 0 ≤ cost → lo ≤ cost → dyn_post m size false NoCredit lo (Ok cost) m'.
Proof. intros F H1 H2. split; [done|]. cbn. split; [done|]. split; [done|]. split; [lia|by left]. Qed.
Lemma err_post m m' size mem k lo e : cost_frame m m' → dyn_post m size mem k lo (Err e) m'.
Proof. by split. Qed.

Ltac addr := first [apply bytes20_addr | match goal with HI : VmSound.inv _ |- _ => apply (self_addr _ HI) end].

(** A comparison of numerals. *)
Ltac zle := apply Z.leb_le; reflexivity.

(** The steps that lead to a state, last one first. *)
Ltac steps :=
  cbn [StateDB set_StateDB];
  first
    [ apply ev_refl
    | eapply ev_step;
      [| first
           [ apply step_GetState; addr
           | apply step_GetCommittedState; addr
           | apply step_GetBalance; addr
           | apply step_Empty; addr
           | apply step_Exist; addr
           | apply step_HasSuicided; addr
           | apply step_AddAddress
           | apply step_AddRefund; assumption
           | eapply step_AddSlot; eassumption
           | eapply step_SubRefund; [assumption| |eassumption]; zle ] ];
      steps ].

Ltac evolved HI :=
  first [by apply cost_frame_refl|eapply (cost_evolves _ _ _ HI); [reflexivity|reflexivity|reflexivity|reflexivity|reflexivity|steps]].

(** The branches of a function that returns a constant. *)
Ltac branches HI :=
  unfold ret_ok; repeat wp_step;
  repeat first
    [ progress repeat wp_step
    | apply wp_update_or; [by left|intros ? ?; mcbn]
    | case_match ];
  first [apply ok_post; [evolved HI|zle|zle] | apply err_post; evolved HI].

Lemma smokeSStore_ok : dyn_ok (smokeSStore env) 2 false (writable env) NoCredit 1.
Proof.
  intros m size. revert m. op_start HI 2. intros _ Hw. unfold smokeSStore, self_address. branches HI.
Qed.
Lemma smokeSStoreEIP2200_ok : dyn_ok smokeSStoreEIP2200 2 false (writable env) NoCredit 1.
Proof.
  intros m size. revert m. op_start HI 2. intros _ Hw. unfold smokeSStoreEIP2200, self_address. branches HI.
Qed.

Lemma wp_address_in_list a (Q : bool → machine → Prop) m : (∀ b, Q b m) → wp (address_in_list a) Q m.
Proof. intros HQ. unfold address_in_list. repeat wp_step. apply HQ. Qed.

Lemma wp_slot_in_list a k (Q : bool * bool → machine → Prop) m :
  state_ok (StateDB (evm m)) → (∀ b, Q b m) → wp (slot_in_list a k) Q m.
Proof.
  intros Hs HQ. unfold slot_in_list. repeat wp_step. apply wp_lift.
  destruct (law_slot _ a k Hs) as [b Hb]. cbn [compose]. unfold compose. rewrite Hb. apply HQ.
Qed.
Lemma wp_add_slot a k (Q : unit → machine → Prop) m :
  state_ok (StateDB (evm m)) →
  (∀ s, AddSlotToAccessList a k (StateDB (evm m)) = Some s → Q tt (set_evm (set_StateDB s (evm m)) m)) →
  wp (add_slot a k) Q m.
Proof.
  intros Hs HQ. unfold add_slot. apply wp_update_or; [|done]. intros E.
  destruct (law_add_slot _ a k Hs) as [? ?]. congruence.
Qed.

#[local] Opaque address_in_list slot_in_list add_slot.

Ltac state_ok_by HI := eapply (law_evolves false); [exact (inv_state _ HI)|cbn [evm set_evm]; steps].
Ltac branches2 HI :=
  unfold ret_ok; repeat wp_step;
  repeat first
    [ progress repeat wp_step
    | apply wp_update_or; [by left|intros ? ?; mcbn]
    | apply wp_address_in_list; intros ?
    | apply wp_slot_in_list; [state_ok_by HI|intros [? ?]]
    | apply wp_add_slot; [state_ok_by HI|intros ? ?; mcbn]
    | apply wp_lift; by right; left
    | case_match ].
Ltac finish HI := first [apply ok_post; [evolved HI|zle|zle] | apply err_post; evolved HI].

Lemma smokeSStoreEIP2929_ok : dyn_ok smokeSStoreEIP2929 2 false (writable env) NoCredit 1.
Proof.
  intros m size. revert m. op_start HI 2. intros _ Hw. unfold smokeSStoreEIP2929, self_address.
  branches2 HI; finish HI.
Qed.
Lemma smokeSLoadEIP2929_ok : dyn_ok smokeSLoadEIP2929 1 false always NoCredit 1.
Proof.
  intros m size. revert m. op_start HI 1. intros _ _. unfold smokeSLoadEIP2929, self_address.
  branches2 HI; finish HI.
Qed.
Lemma smokeEip2929AccountCheck_ok : dyn_ok smokeEip2929AccountCheck 1 false always NoCredit 0.
Proof.
  intros m size. revert m. op_start HI 1. intros _ _. unfold smokeEip2929AccountCheck.
  branches2 HI; finish HI.
Qed.
Lemma smokeSelfdestruct_ok : dyn_ok (smokeSelfdestruct env) 1 false (writable env) NoCredit 0.
Proof.
  intros m size. revert m. op_start HI 1. intros _ Hw. unfold smokeSelfdestruct, self_address.
  branches2 HI; finish HI.
Qed.
Lemma smokeSelfdestructEIP2929_ok : dyn_ok smokeSelfdestructEIP2929 1 false (writable env) NoCredit 0.
Proof.
  intros m size. revert m. op_start HI 1. intros _ Hw. unfold smokeSelfdestructEIP2929, self_address.
  branches2 HI; finish HI.
Qed.
Lemma smokeExtCodeCopyEIP2929_ok : dyn_ok smokeExtCodeCopyEIP2929 4 true always NoCredit 0.
Proof.
  intros m size HI Hl Hs Hp. destruct (stack m) as [|a st] eqn:Es; [cbn in Hl; lia|]. rewrite <- Es in Hl.
  unfold smokeExtCodeCopyEIP2929. apply wp_try.
  eapply wp_mono; [|by apply (memory_word_ok 3 CopySmoke m size HI)].
  intros [c|e] m' [F Hr]; [|by apply err_post]. destruct Hr as (H1 & H2 & H3 & _). cbn in H3.
  wp_step. eapply wp_peek; [rewrite (cf_stack _ _ F); exact Es|]. wp_step.
  apply wp_address_in_list. intros []; cbn [negb].
  - wp_step. split; [done|]. cbn. split; [lia|]. split; [done|]. split; [lia|by left].
  - repeat wp_step.
    assert (cost_frame m (set_evm (set_StateDB (AddAddressToAccessList (u_Bytes20 a) (StateDB (evm m'))) (evm m')) m')) as F'.
    { eapply cost_frame_trans; [exact F|]. pose proof (cost_frame_inv _ _ F HI) as HI'.
      eapply (cost_evolves _ _ _ HI'); [reflexivity..|steps]. }
    apply wp_SafeAdd; [lia|lia| |by intros; apply err_post]. intros _. split; [done|]. cbn.
    split; [lia|]. split; [done|]. split; [lia|by left].
Qed.

(** ** Calls *)

Lemma callSmoke_nonneg b avail base x temp : callSmoke b avail base x = Ok temp → 0 ≤ temp.
Proof.
  unfold callSmoke. destruct b.
  - set (a := u64 _). assert (0 ≤ a) by apply u64_range. pose proof (div64 a).
    repeat case_match; intros; simplify_eq; try lia; apply u64_of.
  - case_match; intros; simplify_eq. apply u64_of.
Qed.

Lemma cost_temp m m' t : cost_frame m m' → cost_frame m (set_evm (set_callSmokeTemp t (evm m')) m').
Proof. intros []. split; try done. destruct cf_evm0. by split. Qed.

(** What the credit has besides the smoke of the callee. *)
Definition extra (k : credit_kind) (m : machine) : Z :=
  match k, stack m !! 2%nat with Value, Some v => stipend v | _, _ => 0 end.

Lemma add_callSmoke_post k m m1 smoke size :
  k ≠ NoCredit → cost_frame m m1 → 1 ≤ len (stack m) → size ≤ max_memory → 0 ≤ smoke → extra k m ≤ smoke →
  wp (add_callSmoke env smoke) (dyn_post m size true k 0) m1.
Proof.
  intros Hk F Hl Hsz Hs Hx. destruct (stack m) as [|x st] eqn:Es; [cbn in Hl; lia|].
  unfold add_callSmoke. do 3 wp_step. eapply (wp_back _ _ x); [by rewrite (cf_stack _ _ F), Es|].
  destruct (callSmoke _ _ _ _) as [temp|e] eqn:Ec; repeat (wp_step || unfold update_evm);
    [|by apply err_post, cost_temp].
  pose proof (callSmoke_nonneg _ _ _ _ _ Ec). apply wp_SafeAdd; [done|done| |by intros; apply err_post, cost_temp].
  intros _. split; [by apply cost_temp|]. split; [lia|]. split; [done|]. split; [|right; done].
  unfold extra in Hx. rewrite Es in Hx. destruct k; cbn; [done|unfold plain_credit; cbn; lia|].
  unfold value_credit. cbn [stack set_evm]. rewrite (cf_stack _ _ F), Es. cbn [evm callSmokeTemp set_evm set_callSmokeTemp].
  destruct ((x :: st) !! 2%nat); lia.
Qed.

Lemma memory_call_post k m m1 smoke size :
  k ≠ NoCredit → cost_frame m m1 → 1 ≤ len (stack m) → 0 ≤ smoke → extra k m ≤ smoke →
  wp (try (memorySmokeCost size) (λ ms, try (checked (SafeAdd smoke ms)) (add_callSmoke env)))
    (dyn_post m size true k 0) m1.
Proof.
  intros Hk F Hl Hs Hx. apply wp_try, wp_memorySmokeCost. intros last r Hr.
  assert (cost_frame m (set_memory (MkMemory (store (memory m1)) last) m1)) as F' by (destruct F; by split).
  destruct r as [c|e]; [|by apply err_post]. apply wp_try, wp_SafeAdd; [lia|lia| |by intros; apply err_post].
  intros _. apply add_callSmoke_post; try done; lia.
Qed.

Lemma smokeCall_ok : dyn_ok (smokeCall env) 3 true always Value 0.
Proof.
  intros m size. revert m. op_start HI 3. intros _ _. unfold smokeCall. do 5 wp_step.
  set (Q := dyn_post _ _ _ _ _).
  assert (∀ m1 smoke, cost_frame (MkMachine p (w :: w0 :: w1 :: st) mem rs c e) m1 → 0 ≤ smoke →
    wp (try (memorySmokeCost size) (λ ms,
          try (checked (SafeAdd (if negb (u_IsZero w1) then smoke + CallValueTransferSmoke else smoke) ms))
            (add_callSmoke env))) Q m1) as Hk.
  { intros m1 smoke F Hs. apply memory_call_post; [done|done|mcbn; lia|case_match; lia|].
    unfold extra, stipend. mcbn. destruct (u_IsZero w1); cbn [negb]; lia. }
  destruct (r_IsEIP158 (chainRules env)); [destruct (u_IsZero w1); cbn [negb]|].
  - wp_step. apply Hk; [by apply cost_frame_refl|lia].
  - do 3 wp_step. apply Hk; [evolved HI|clear Hk; case_match; lia].
  - do 3 wp_step. apply Hk; [evolved HI|clear Hk; case_match; lia].
Qed.
Lemma smokeCallCode_ok : dyn_ok (smokeCallCode env) 3 true always Value 0.
Proof.
  intros m size. revert m. op_start HI 3. intros _ _. unfold smokeCallCode.
  set (m := MkMachine _ _ _ _ _ _). apply wp_try, wp_memorySmokeCost. intros last r Hr.
  destruct r as [ms|err]; [|by apply err_post, cost_memory].
  wp_step. eapply wp_back; [reflexivity|]. apply wp_try.
  assert (extra Value m ≤ if negb (u_Sign w1 =? 0) then CallValueTransferSmoke else 0) as Hx.
  { unfold extra, stipend. cbn. rewrite law_IsZero, law_Sign. unfold signed. pose proof (law_range w1).
    destruct (Z.eqb_spec (u_val w1) 0) as [->|]; [by vm_compute|].
    destruct (Z.eqb_spec (Z.sgn (if u_val w1 <? 2 ^ 255 then u_val w1 else u_val w1 - 2 ^ 256)) 0); [|cbn; lia].
    exfalso. destruct (Z.ltb_spec (u_val w1) (2 ^ 255)); lia. }
  apply wp_SafeAdd; [case_match; lia|lia| |by intros; apply err_post, cost_memory]. intros _.
  apply add_callSmoke_post; [done|by apply cost_memory|unfold m; mcbn; lia|lia|case_match; lia|lia].
Qed.

Lemma plain_call_ok args :
  1 ≤ args → dyn_ok (λ size, try (memorySmokeCost size) (add_callSmoke env)) args true always Plain 0.
Proof.
  intros Ha m size HI Hl Hs _. apply wp_try, wp_memorySmokeCost. intros last r Hr.
  destruct r as [ms|err]; [|by apply err_post, cost_memory].
  apply add_callSmoke_post; [done|by apply cost_memory|lia|lia|lia|cbn; lia].
Qed.

(** The access list surcharge of a call is paid on the spot. *)
Lemma makeCallVariant_ok d args k :
  2 ≤ args → dyn_ok d args true always k 0 → dyn_ok (makeCallVariantSmokeCallEIP2929 d) args true always k 0.
Proof.
  intros Ha Hd m size HI Hl Hs _. unfold makeCallVariantSmokeCallEIP2929.
  destruct (lookup_lt_is_Some_2 (stack m) 1) as [x Hx]; [lia|].
  wp_step. eapply wp_back; [exact Hx|]. wp_step. apply wp_address_in_list.
  assert (∀ m1, cost_frame m m1 → wp (d size) (dyn_post m size true k 0) m1) as Hk.
  { intros m1 F. eapply wp_mono; [|apply Hd; [by eapply cost_frame_inv|by rewrite (cf_stack _ _ F)|done|done]].
    intros r m' [F' Hr]. split; [by eapply cost_frame_trans|done]. }
  intros []; cbn [negb]; [by apply Hk, cost_frame_refl|]. do 3 wp_step.
  set (m1 := MkMachine _ _ _ _ _ _).
  assert (cost_frame m m1) as F by (evolved HI).
  pose proof (cost_frame_inv _ _ F HI) as HI1.
  apply wp_UseSmoke; intros Hu; cbn [negb]; [wp_step; by apply err_post|].
  apply Hk. eapply cost_frame_trans; [exact F|]. destruct (cost_frame_refl _ HI1).
  split; try done; [|cbn [contract set_contract Smoke set_Smoke]; lia]. cbn [contract set_contract].
  apply contract_frame_smoke.
Qed.
Lemma smokeDelegateCall_ok : dyn_ok (smokeDelegateCall env) 6 true always Plain 0.
Proof. by apply plain_call_ok. Qed.
Lemma smokeStaticCall_ok : dyn_ok (smokeStaticCall env) 6 true always Plain 0.
Proof. by apply plain_call_ok. Qed.
Lemma smokeCallEIP2929_ok : dyn_ok (smokeCallEIP2929 env) 3 true always Value 0.
Proof. apply makeCallVariant_ok; [done|apply smokeCall_ok]. Qed.
Lemma smokeCallCodeEIP2929_ok : dyn_ok (smokeCallCodeEIP2929 env) 3 true always Value 0.
Proof. apply makeCallVariant_ok; [done|apply smokeCallCode_ok]. Qed.
Lemma smokeDelegateCallEIP2929_ok : dyn_ok (smokeDelegateCallEIP2929 env) 6 true always Plain 0.
Proof. apply makeCallVariant_ok; [done|apply smokeDelegateCall_ok]. Qed.
Lemma smokeStaticCallEIP2929_ok : dyn_ok (smokeStaticCallEIP2929 env) 6 true always Plain 0.
Proof. apply makeCallVariant_ok; [done|apply smokeStaticCall_ok]. Qed.
End costs.

(** ** The price of memory *)

(** The price of a memory of [w] words. *)
Definition memory_fee (w : Z) : Z := 3 * w + w * w / 512.

(** The memory has been paid for. *)
Record mem_paid (mem : Memory) : Prop := {
  mp_words : mem_Len mem mod 32 = 0;
  mp_bound : mem_Len mem ≤ max_memory;
  mp_fee : lastSmokeCost mem = memory_fee (mem_Len mem / 32)
}.

Lemma memory_fee_mono a b : 0 ≤ a ≤ b → memory_fee a ≤ memory_fee b.
Proof. intros. unfold memory_fee. pose proof (Z.div_le_mono (a * a) (b * b) 512 ltac:(lia) ltac:(nia)). lia. Qed.

Lemma memory_fee_bound w : 0 ≤ w ≤ 0xFFFFFFFF → 0 ≤ memory_fee w < 2 ^ 56.
Proof.
  intros Hw. unfold memory_fee. assert (w * w ≤ 0xFFFFFFFF * 0xFFFFFFFF) by nia.
  pose proof (Z.div_le_mono (w * w) (0xFFFFFFFF * 0xFFFFFFFF) 512 ltac:(lia) ltac:(lia)).
  pose proof (Z.div_pos (w * w) 512 ltac:(nia) ltac:(lia)). split; [lia|].
  change (0xFFFFFFFF * 0xFFFFFFFF / 512) with 36028797002186752 in *. lia.
Qed.

Lemma toWordSize_words size : 0 ≤ size ≤ max_memory → toWordSize size = (size + 31) / 32 ∧ size ≤ 32 * toWordSize size ≤ max_memory.
Proof.
  intros Hs. unfold toWordSize, MaxUint64, max_memory in *. replace (2 ^ 64 - 1 - 31 <? size) with false by lia.
  split; [done|]. pose proof (Z.div_mod (size + 31) 32 ltac:(lia)). pose proof (Z.mod_pos_bound (size + 31) 32 ltac:(lia)).
  assert ((size + 31) / 32 < 0x100000000) by (apply Z.div_lt_upper_bound; lia). lia.
Qed.

Lemma resize_paid b w :
  len b mod 32 = 0 → len b ≤ max_memory → 0 ≤ w → 32 * w ≤ max_memory →
  mem_paid (Resize (32 * w) (MkMemory b (memory_fee (Z.max (len b / 32) w)))).
Proof.
  intros Hm Hb Hw Hwm. pose proof (Z.div_mod (len b) 32 ltac:(lia)) as Hd. unfold Resize, mem_Len. cbn.
  destruct (Z.ltb_spec (len b) (32 * w)).
  - assert (len (b ++ replicate (Z.to_nat (32 * w - len b)) 0) = w * 32) as El by (rewrite length_app, length_replicate; lia).
    split; unfold mem_Len; cbn; rewrite El; [by rewrite Z.mod_mul|lia|]. rewrite Z.div_mul, Z.max_r by lia. done.
  - split; unfold mem_Len; cbn; [done|lia|]. rewrite Z.max_l by lia. done.
Qed.

Section memory.
Context `{Uint256} {SA : StateAccess}.

(** Memory is paid for exactly once.  Let the memory be paid for up to its
    present size.  For a new size that is within the limit, [memorySmokeCost]
    charges the price of the larger of the two sizes minus what has been paid,
    with no 64-bit overflow on the way, and after the resize the memory is
    again paid for: whatever the sequence of expansions, their charges add up
    to the price [3 w + w^2 / 512] of the [w] words reached.  A size beyond the
    limit is refused. *)
Theorem memorySmokeCost_pays (m : machine) (size : Z) (Hp : mem_paid (memory m)) (Hs : 0 ≤ size) :
  let old := mem_Len (memory m) / 32 in
  let new := Z.max old ((size + 31) / 32) in
  if max_memory <? size then memorySmokeCost size m = Ret (Err ErrSmokeUintOverflow, m)
  else memorySmokeCost size m =
         Ret (Ok (memory_fee new - memory_fee old), set_memory (MkMemory (store (memory m)) (memory_fee new)) m)
       ∧ memory_fee old ≤ memory_fee new < 2 ^ 56
       ∧ mem_paid (Resize (32 * ((size + 31) / 32)) (MkMemory (store (memory m)) (memory_fee new))).
Proof.
  destruct m as [pc st [b last] rs c e]. destruct Hp as [Hw Hb Hl]. unfold mem_Len in *. cbn in *.
  set (old := len b / 32) in *. assert (len b = 32 * old) as Elen by (pose proof (Z.div_mod (len b) 32 ltac:(lia)); lia).
  assert (0 ≤ old ≤ 0xFFFFFFFF) as Hold by (unfold max_memory in *; lia).
  unfold memorySmokeCost, ret_ok. destruct (Z.ltb_spec max_memory size) as [Hlt|Hle].
  { destruct (Z.eqb_spec size 0); [unfold max_memory in *; lia|]. unfold max_memory in Hlt. zcmp. done. }
  destruct (toWordSize_words size ltac:(lia)) as [Ew Hws]. rewrite Ew in Hws. set (w := (size + 31) / 32) in *.
  assert (0 ≤ w ≤ 0xFFFFFFFF) as Hw' by (unfold max_memory in *; lia).
  pose proof (memory_fee_bound (Z.max old w) ltac:(lia)) as Hfb. pose proof (memory_fee_mono old (Z.max old w) ltac:(lia)) as Hfm.
  split; [|split; [lia|apply resize_paid; [done|done|lia|lia]]].
  destruct (Z.eqb_spec size 0) as [->|Hne].
  { assert (w = 0) as -> by done. rewrite Z.max_l by lia. subst last. rewrite Z.sub_diag. done. }
  unfold max_memory in Hle. zcmp. unfold mbind, M_bind, get, modify. cbn. rewrite Ew. fold w. unfold mem_Len. cbn.
  rewrite (u64_small (w * 32)) by (unfold is_u64; lia). destruct (Z.ltb_spec (len b) (w * 32)) as [Hgt|Hgt].
  - rewrite Z.max_r in * by lia. pose proof (memory_fee_bound old ltac:(lia)).
    assert (w * w ≤ 0xFFFFFFFF * 0xFFFFFFFF) by nia. unfold memory_fee in *.
    rewrite (u64_small (w * w)), (u64_small (w * 3)) by (unfold is_u64; nia).
    rewrite (u64_small (w * 3 + w * w / 512)), u64_small by (unfold is_u64; lia).
    replace (w * 3) with (3 * w) by lia. by rewrite Hl.
  - rewrite Z.max_l by lia. subst last. rewrite Z.sub_diag. done.
Qed.
End memory.
