(* ===== verification/VmTablesSound.v ===== *)
(** * Soundness of the jump tables

    Every entry of every instruction set is sound ([op_good]): its function
    meets its specification with the stack bounds of the entry, its dynamic
    cost bounds the memory and covers what the instruction may give back, and
    an instruction after which execution goes on costs at least one unit. *)
From S2P Require Import Prelude Opcodes Params ChainConfig VmBase VmMachine Precompiles VmSmoke VmOps VmTables VmLogic VmAnalysis VmSound VmOpsSound VmCallsSound VmCostSound.
Local Open Scope Z_scope.

(** The smoke that an opcode may give back. *)
Definition op_credit (op : Z) : credit_kind :=
  if (op =? CALL) || (op =? CALLCODE) then Value
  else if (op =? DELEGATECALL) || (op =? STATICCALL) then Plain else NoCredit.

(** Arguments, memory, writes and end of the opcodes whose costs change from
    release to release. *)
Definition shapes : list (Z * (Z * bool * bool * bool)) :=
  [(EXP, (2, false, false, false)); (SSTORE, (2, false, true, false)); (SLOAD, (1, false, false, false));
   (BALANCE, (1, false, false, false)); (EXTCODEHASH, (1, false, false, false));
   (EXTCODESIZE, (1, false, false, false)); (EXTCODECOPY, (4, true, false, false));
   (CALL, (7, true, false, false)); (CALLCODE, (7, true, false, false));
   (DELEGATECALL, (6, true, false, false)); (STATICCALL, (6, true, false, false));
   (SELFDESTRUCT, (1, false, true, true))].

Section tables.
Context `{Uint256Laws} {SA : StateAccess} {SL : @StateLaws SA} {CR : Crypto} (env : Env).
Context (n : Z) (calls : CallOps) (Hn : n ≤ max_smoke) (CG : calls_good env n calls).

#[local] Opaque VmLogic.wp.
Abbreviation wp := (wp vm_panic).

(** What the interpreter has checked before it executes an instruction. *)
Record guarded (op : Z) (w : bool) (m : machine) : Prop := {
  gd_write : w = true → writable env m;
  gd_code : op ≠ STOP → at_code m;
  gd_value : op = CALL → no_value env m
}.

Definition ends (o : operation) : bool := halts o || reverts o.
Definition has_mem (o : operation) : bool := match memorySize o with Some _ => true | None => false end.

Definition exec_good (op : Z) (o : operation) : Prop :=
  ∀ m, inv m → op_minStack o ≤ len (stack m) → mem_fits (memorySize o) m → guarded op (writes o) m →
    (op_credit op = NoCredit ∨ temp_ok m) →
    (ends o = false → Smoke (contract m) + credit_of (op_credit op) m ≤ n) →
    wp (execute o)
      (λ r m', op_post env m (op_minStack o) (1024 + op_minStack o - op_maxStack o) (credit_of (op_credit op) m) m'
               ∧ (ends o = true → len r.1 ≤ max_memory)) m.

Definition cost_good (op : Z) (o : operation) : Prop :=
  match dynamicSmoke o with
  | None => memorySize o = None ∧ op_credit op = NoCredit ∧ (ends o = false → 1 ≤ constantSmoke o)
  | Some d => ∃ lo, 0 ≤ lo ∧ (ends o = false → 1 ≤ constantSmoke o + lo)
      ∧ dyn_ok env d (op_minStack o) (has_mem o) (λ m, writes o = true → writable env m) (op_credit op) lo
  end.

(** The memory function does not panic when the stack is deep enough. *)
Definition mem_total (g : option memorySizeFunc) (k : Z) : Prop :=
  match g with
  | None => True
  | Some g => ∀ st, k ≤ len st → ∃ sz b, g st = Ret (sz, b) ∧ (b = false → is_u64 sz)
  end.

Record op_good (op : Z) (o : operation) : Prop := {
  og_exec : exec_good op o;
  og_cost : cost_good op o;
  og_const : 0 ≤ constantSmoke o;
  og_mem : mem_total (memorySize o) (op_minStack o);
  og_shape : ∀ x, assoc op shapes = Some x → x = (op_minStack o, has_mem o, writes o, ends o)
}.

(** ** From the lemmas on instructions and costs *)

Lemma calcMemSize64WithUint_u64 off l sz : calcMemSize64WithUint off l = (sz, false) → is_u64 sz.
Proof.
  unfold calcMemSize64WithUint. rewrite law_Uint64WithOverflow. repeat case_match; intros; simplify_eq; [done|].
  apply u64_range.
Qed.
Lemma calcMemSize64_u64 off l sz : calcMemSize64 off l = (sz, false) → is_u64 sz.
Proof. unfold calcMemSize64. case_match; [done|]. apply calcMemSize64WithUint_u64. Qed.

Lemma Back_total st (i : nat) : Z.of_nat i < len st → ∃ x, Back i st = Ret x.
Proof. intros Hi. destruct (lookup_lt_is_Some_2 st i) as [x Hx]; [lia|]. exists x. unfold Back. by rewrite Hx. Qed.

Lemma mem_at_total i j k : Z.of_nat i < k → Z.of_nat j < k → mem_total (Some (mem_at i j)) k.
Proof.
  intros Hi Hj st Hl. unfold mem_at. destruct (Back_total st i) as [x ->]; [lia|].
  destruct (Back_total st j) as [y ->]; [lia|]. cbn. destruct (calcMemSize64 x y) as [sz b] eqn:E. exists sz, b.
  split; [done|]. intros ->. by eapply calcMemSize64_u64.
Qed.
Lemma mem_fixed_total i c k : Z.of_nat i < k → mem_total (Some (mem_fixed i c)) k.
Proof.
  intros Hi st Hl. unfold mem_fixed. destruct (Back_total st i) as [x ->]; [lia|]. cbn.
  destruct (calcMemSize64WithUint x c) as [sz b] eqn:E. exists sz, b. split; [done|]. intros ->.
  by eapply calcMemSize64WithUint_u64.
Qed.
Lemma mem_two_total i j i' j' k :
  Z.of_nat i < k → Z.of_nat j < k → Z.of_nat i' < k → Z.of_nat j' < k → mem_total (Some (mem_two i j i' j')) k.
Proof.
  intros H1 H2 H3 H4 st Hl. unfold mem_two. destruct (mem_at_total i j k H1 H2 st Hl) as (x & b & -> & Hx).
  destruct (mem_at_total i' j' k H3 H4 st Hl) as (y & c & -> & Hy). cbn [mbind outcome_bind].
  destruct b; [by eexists _, _|]. destruct c; [by eexists _, _|]. case_match; eexists _, _; (split; [done|]); auto.
Qed.

Lemma exec_simple op o pops pushes pre :
  exec_ok env (execute o) pops pushes (memorySize o) pre → op_minStack o = pops →
  op_maxStack o = 1024 + pops - pushes → (∀ m, guarded op (writes o) m → pre m) → op_credit op = NoCredit →
  exec_good op o.
Proof.
  intros He Hmin Hmax Hpre Hcr m HI Hl Hm Hg _ _. rewrite Hcr, Hmin, Hmax in *.
  eapply wp_mono; [|apply He; auto]. intros r m' (F & S & G & P & R).
  replace (1024 + pops - (1024 + pops - pushes)) with pushes by lia. by split.
Qed.

Lemma exec_call op o pops g pre :
  call_ok env n (execute o) pops 1 g (credit_of (op_credit op)) pre → memorySize o = Some g → ends o = false →
  op_minStack o = pops → op_maxStack o = 1024 + pops - 1 →
  (∀ m, guarded op (writes o) m → (op_credit op = NoCredit ∨ temp_ok m) → pre m) →
  (∀ m, op_credit op = NoCredit ∨ temp_ok m → 0 ≤ credit_of (op_credit op) m) →
  exec_good op o.
Proof.
  intros Hc Hg He Hmin Hmax Hpre Hcr m HI Hl Hm Hgd Ht Hs. rewrite Hg, Hmin, Hmax, He in *.
  eapply wp_mono; [|apply Hc; auto]. intros r m' F.
  replace (1024 + pops - (1024 + pops - 1)) with 1 by lia. by split.
Qed.

Lemma credit_nonneg k m : k = NoCredit ∨ temp_ok m → 0 ≤ credit_of k m.
Proof.
  unfold temp_ok. destruct k; cbn; [done|by intros [?|?]|]. intros [?|Ht]; [done|]. unfold value_credit, stipend.
  repeat case_match; lia.
Qed.

Lemma dyn_weaken d args args' mem mem' (pre pre' : machine → Prop) k lo :
  args ≤ args' → (mem' = true → mem = true) → (∀ m, pre' m → pre m) →
  dyn_ok env d args mem pre k lo → dyn_ok env d args' mem' pre' k lo.
Proof.
  intros Ha Hm Hp Hd m size HI Hl Hs Hpre. eapply wp_mono; [|apply Hd; [done|lia|done|auto]].
  intros [c|e] m' [F R]; (split; [done|]); [|done]. destruct R as (R1 & R2 & R3 & R4). by auto.
Qed.

Lemma cost_static op o :
  dynamicSmoke o = None → memorySize o = None → op_credit op = NoCredit → (ends o = false → 1 ≤ constantSmoke o) →
  cost_good op o.
Proof. intros Hd. unfold cost_good. by rewrite Hd. Qed.

Lemma cost_dynamic op o d args mem pre lo :
  dynamicSmoke o = Some d → dyn_ok env d args mem pre (op_credit op) lo → args ≤ op_minStack o →
  (has_mem o = true → mem = true) → (∀ m, (writes o = true → writable env m) → pre m) → 0 ≤ lo →
  (ends o = false → 1 ≤ constantSmoke o + lo) → cost_good op o.
Proof. intros Hd Hok Ha Hm Hp Hlo Hc. unfold cost_good. rewrite Hd. exists lo. do 2 (split; [done|]). by eapply dyn_weaken. Qed.

(** ** Changes of a table *)

Definition table_good (jt : list (Z * operation)) : Prop := Forall (λ e, op_good e.1 e.2) jt.

Lemma set_op_good op o jt : op_good op o → table_good jt → table_good (set_op op o jt).
Proof. intros Ho Hj. constructor; [done|]. apply Forall_forall. intros e [_ He]%list_elem_of_filter.
  unfold table_good in Hj. rewrite Forall_forall in Hj. by apply Hj.
Qed.

Lemma update_op_good op f jt :
  (∀ o, op_good op o → op_good op (f o)) → table_good jt → table_good (update_op op f jt).
Proof.
  intros Hf Hj. apply Forall_fmap. eapply Forall_impl; [exact Hj|]. intros [k o] Ho. cbn in *.
  destruct (Z.eqb_spec k op) as [->|]; cbn; auto.
Qed.

Lemma set_const_good op v o : 1 ≤ v → op_good op o → op_good op (set_constantSmoke v o).
Proof.
  intros Hv [He Hc H0' Ht Hs]. split; [exact He| |cbn; lia|exact Ht|exact Hs]. unfold cost_good in *. cbn.
  destruct (dynamicSmoke o) as [d|]; [|by destruct Hc as (? & ? & ?)].
  destruct Hc as (lo & Hlo & _ & Hd). exists lo. split; [done|]. split; [intros; lia|exact Hd].
Qed.

Lemma set_dyn_good op d o args a mem w en pre lo :
  assoc op shapes = Some (a, mem, w, en) → dyn_ok env d args mem pre (op_credit op) lo → args ≤ a →
  (∀ m, (w = true → writable env m) → pre m) → (if en then 0 ≤ lo else 1 ≤ lo) →
  op_good op o → op_good op (set_dynamicSmoke (Some d) o).
Proof.
  intros Hs Hd Ha Hp Hlo [He Hc H0' Ht Hsh]. pose proof (Hsh _ Hs) as E. injection E as -> -> -> ->.
  split; [exact He| |done|exact Ht|exact Hsh]. eapply (cost_dynamic _ _ d); cbn; try done.
  - destruct (ends o); lia.
  - unfold ends in *. cbn. intros E. rewrite E in Hlo. lia.
Qed.

Lemma set_costs_good op v d o args a mem w en pre lo :
  assoc op shapes = Some (a, mem, w, en) → dyn_ok env d args mem pre (op_credit op) lo → args ≤ a →
  (∀ m, (w = true → writable env m) → pre m) → 0 ≤ lo → 0 ≤ v → (if en then True else 1 ≤ v + lo) →
  op_good op o → op_good op (set_costs v d o).
Proof.
  intros Hs Hd Ha Hp Hlo Hv Hvl [He Hc H0' Ht Hsh]. pose proof (Hsh _ Hs) as E. injection E as -> -> -> ->.
  split; [exact He| |done|exact Ht|exact Hsh]. eapply (cost_dynamic _ _ d); cbn; try done.
  unfold ends in *. cbn. intros E. by rewrite E in Hvl.
Qed.
(** ** The entries of the tables *)

Ltac numeral := cbn; first [done|lia].
Ltac guard_ok :=
  let m := fresh in let G := fresh in
  intros m G; first [exact I|apply (gd_write _ _ _ G); reflexivity|apply (gd_code _ _ _ G); discriminate].
Ltac exec L := eapply exec_simple; [apply L|reflexivity|reflexivity|guard_ok|reflexivity].
Ltac static_cost := apply cost_static; [reflexivity|reflexivity|reflexivity|intros; first [done|numeral]].
Ltac dynamic_cost L :=
  eapply cost_dynamic; [reflexivity|apply L|numeral|done|first [by auto|done]|numeral|intros; first [done|numeral]].
Ltac shape := let E := fresh in intros ? E; vm_compute in E; first [discriminate E|injection E as <-; reflexivity].
Ltac mem_ok := first [exact I|apply mem_at_total; done|apply mem_fixed_total; done|apply mem_two_total; done].
Ltac static_entry L := split; [exec L|static_cost|numeral|mem_ok|shape].
Ltac dynamic_entry L D := split; [exec L|dynamic_cost D|numeral|mem_ok|shape].
Ltac entry tac := apply Forall_cons; split; [cbn [fst snd]; tac|].

Lemma frontier_arithmetic_good : table_good frontier_arithmetic.
Proof.
  unfold table_good, frontier_arithmetic. entry ltac:(static_entry ok_ok).
  do 7 (entry ltac:(static_entry binop_ok)).
  entry ltac:(static_entry opAddmod_ok). entry ltac:(static_entry opMulmod_ok).
  entry ltac:(dynamic_entry binop_ok exp_smoke_ok).
  do 6 (entry ltac:(static_entry binop_ok)). entry ltac:(static_entry opIszero_ok).
  do 3 (entry ltac:(static_entry binop_ok)). entry ltac:(static_entry opNot_ok).
  entry ltac:(static_entry binop_ok). constructor.
Qed.
Lemma frontier_environment_good : table_good (frontier_environment env).
Proof.
  unfold table_good, frontier_environment.
  entry ltac:(dynamic_entry opSha3_ok (memory_word_ok env 1)).
  entry ltac:(static_entry push_get_ok). entry ltac:(static_entry opBalance_ok).
  entry ltac:(static_entry push_ok). do 2 (entry ltac:(static_entry push_get_ok)).
  entry ltac:(static_entry opCallDataLoad_ok). entry ltac:(static_entry push_get_ok).
  entry ltac:(dynamic_entry opCallDataCopy_ok (memory_word_ok env 2)).
  entry ltac:(static_entry push_get_ok).
  entry ltac:(dynamic_entry opCodeCopy_ok (memory_word_ok env 2)).
  entry ltac:(static_entry push_ok). entry ltac:(static_entry opExtCodeSize_ok).
  entry ltac:(dynamic_entry opExtCodeCopy_ok (memory_word_ok env 3)).
  entry ltac:(static_entry opBlockhash_ok). do 5 (entry ltac:(static_entry push_ok)). constructor.
Qed.

Lemma frontier_memory_good : table_good (frontier_memory env).
Proof.
  unfold table_good, frontier_memory. entry ltac:(static_entry opPop_ok).
  entry ltac:(dynamic_entry opMload_ok (pureMemorySmokecost_ok env 1)).
  entry ltac:(dynamic_entry opMstore_ok (pureMemorySmokecost_ok env 1)).
  entry ltac:(dynamic_entry opMstore8_ok (pureMemorySmokecost_ok env 1)).
  entry ltac:(static_entry opSload_ok).
  entry ltac:(dynamic_entry opSstore_ok (smokeSStore_ok env)).
  entry ltac:(static_entry opJump_ok). entry ltac:(static_entry opJumpi_ok).
  do 3 (entry ltac:(static_entry push_get_ok)). entry ltac:(static_entry ok_ok). constructor.
Qed.

Ltac push_entry := split; [eapply exec_simple; [apply makePush_ok; lia|reflexivity|reflexivity|guard_ok|reflexivity]
  |static_cost|numeral|mem_ok|shape].
Ltac dup_entry := split; [eapply exec_simple; [apply makeDup_ok; lia|reflexivity|reflexivity|guard_ok|reflexivity]
  |static_cost|numeral|mem_ok|shape].

Lemma frontier_push1_good : table_good frontier_push1.
Proof.
  unfold table_good, frontier_push1. entry ltac:(static_entry opPush1_ok). do 23 (entry push_entry). constructor.
Qed.
Lemma frontier_push2_good : table_good frontier_push2.
Proof. unfold table_good, frontier_push2. do 8 (entry push_entry). constructor. Qed.
Lemma frontier_dup_good : table_good frontier_dup.
Proof. unfold table_good, frontier_dup. do 16 (entry dup_entry). constructor. Qed.
Lemma frontier_swap_good : table_good frontier_swap.
Proof. unfold table_good, frontier_swap. do 16 (entry ltac:(static_entry makeSwap_ok)). constructor. Qed.

Ltac call_entry L P D :=
  split; [eapply exec_call; [apply L; assumption|reflexivity|reflexivity|reflexivity|reflexivity|P|
                             intros ? ?; by apply credit_nonneg]
         |dynamic_cost D|numeral|mem_ok|shape].
Ltac temp_pre := intros ? ? [?|?]; [discriminate|assumption].
Ltac call_pre := let G := fresh in intros ? G [?|?]; [discriminate|]; split; [by apply (gd_value _ _ _ G)|assumption].
Ltac write_pre := let G := fresh in intros ? G _; apply (gd_write _ _ _ G); reflexivity.

Lemma frontier_system_good : table_good (frontier_system env calls).
Proof.
  unfold table_good, frontier_system.
  do 5 (entry ltac:(dynamic_entry makeLog_ok (makeSmokeLog_ok env))).
  entry ltac:(call_entry opCreate_ok write_pre (pureMemorySmokecost_ok env 1)).
  entry ltac:(call_entry opCall_ok call_pre (smokeCall_ok env)).
  entry ltac:(call_entry opCallCode_ok temp_pre (smokeCallCode_ok env)).
  entry ltac:(dynamic_entry opReturn_ok (pureMemorySmokecost_ok env 1)).
  entry ltac:(dynamic_entry opSuicide_ok (smokeSelfdestruct_ok env)). constructor.
Qed.
(** ** The instruction sets *)

Lemma newFrontierInstructionSet_good : table_good (newFrontierInstructionSet env calls).
Proof.
  unfold table_good, newFrontierInstructionSet. rewrite !Forall_app.
  split_and!; [apply frontier_arithmetic_good|apply frontier_environment_good|apply frontier_memory_good
    |apply frontier_push1_good|apply frontier_push2_good|apply frontier_dup_good|apply frontier_swap_good
    |apply frontier_system_good].
Qed.

Ltac const_update := apply update_op_good; [intros ? ?; apply set_const_good; [lia|assumption]|].
Ltac dyn_update L := apply update_op_good; [intros ? ?; eapply set_dyn_good;
  [reflexivity|apply L|done|first [by auto|done]|cbn; lia|assumption]|].
Ltac costs_update L := apply update_op_good; [intros ? ?; eapply set_costs_good;
  [reflexivity|apply L|done|first [by auto|done]|lia|lia|first [exact I|cbn; lia]|assumption]|].

Lemma newHomesteadInstructionSet_good : table_good (newHomesteadInstructionSet env calls).
Proof.
  apply set_op_good; [|apply newFrontierInstructionSet_good].
  call_entry opDelegateCall_ok ltac:(intros; exact I) (smokeDelegateCall_ok env).
Qed.
Lemma newTangerineWhistleInstructionSet_good : table_good (newTangerineWhistleInstructionSet env calls).
Proof. do 7 const_update. apply newHomesteadInstructionSet_good. Qed.
Lemma newSpuriousDragonInstructionSet_good : table_good (newSpuriousDragonInstructionSet env calls).
Proof. dyn_update (exp_smoke_ok env). apply newTangerineWhistleInstructionSet_good. Qed.
Lemma newByzantiumInstructionSet_good : table_good (newByzantiumInstructionSet env calls).
Proof.
  apply set_op_good; [dynamic_entry opRevert_ok (pureMemorySmokecost_ok env 1)|].
  apply set_op_good; [dynamic_entry opReturnDataCopy_ok (memory_word_ok env 2)|].
  apply set_op_good; [static_entry push_get_ok|].
  apply set_op_good; [call_entry opStaticCall_ok ltac:(intros; exact I) (smokeStaticCall_ok env)|].
  apply newSpuriousDragonInstructionSet_good.
Qed.
Lemma newConstantinopleInstructionSet_good : table_good (newConstantinopleInstructionSet env calls).
Proof.
  apply set_op_good; [call_entry opCreate2_ok write_pre (memory_word_ok env 2)|].
  apply set_op_good; [static_entry opExtCodeHash_ok|].
  do 3 (apply set_op_good; [static_entry binop_ok|]). apply newByzantiumInstructionSet_good.
Qed.
Lemma newIstanbulInstructionSet_good : table_good (newIstanbulInstructionSet env calls).
Proof.
  unfold newIstanbulInstructionSet, enable2200. dyn_update (smokeSStoreEIP2200_ok env). const_update.
  unfold enable1884. apply set_op_good; [static_entry opSelfBalance_ok|]. do 3 const_update.
  apply set_op_good; [static_entry push_ok|]. apply newConstantinopleInstructionSet_good.
Qed.
Lemma newYoloV2InstructionSet_good : table_good (newYoloV2InstructionSet env calls).
Proof.
  unfold newYoloV2InstructionSet, enable2929.
  costs_update (smokeSelfdestructEIP2929_ok env).
  costs_update (smokeDelegateCallEIP2929_ok env). costs_update (smokeStaticCallEIP2929_ok env).
  costs_update (smokeCallCodeEIP2929_ok env). costs_update (smokeCallEIP2929_ok env).
  do 3 costs_update (smokeEip2929AccountCheck_ok env).
  costs_update (smokeExtCodeCopyEIP2929_ok env).
  costs_update (smokeSLoadEIP2929_ok env).
  dyn_update (smokeSStoreEIP2929_ok env).
  unfold enable2315. apply set_op_good; [static_entry opReturnSub_ok|].
  apply set_op_good; [static_entry opJumpSub_ok|]. apply set_op_good; [static_entry fail_ok|].
  apply newIstanbulInstructionSet_good.
Qed.

Lemma select_table_good rules : table_good (select_table env calls rules).
Proof.
  unfold select_table. repeat case_match; auto using newYoloV2InstructionSet_good, newIstanbulInstructionSet_good,
    newConstantinopleInstructionSet_good, newByzantiumInstructionSet_good, newSpuriousDragonInstructionSet_good,
    newTangerineWhistleInstructionSet_good, newHomesteadInstructionSet_good, newFrontierInstructionSet_good.
Qed.

Lemma assoc_good op o jt : table_good jt → assoc op jt = Some o → op_good op o.
Proof.
  induction 1 as [|[k x] jt Hx _ IH]; cbn; [done|]. case_decide; [|done]. intros [= <-]. by subst.
Qed.
End tables.
