(* ===== verification/InterpSound.v ===== *)
(** * Soundness of one iteration of the interpreter

    From a machine that satisfies the invariant, an iteration does not panic
    and either ends with at most the smoke it started with, or goes on with
    the invariant and at least one unit less. *)
From S2P Require Import Prelude Opcodes Params ChainConfig VmBase VmMachine Precompiles VmSmoke VmOps VmTables Evm VmLogic VmAnalysis VmSound VmOpsSound VmCallsSound VmCostSound VmTablesSound.
Local Open Scope Z_scope.

Section step.
Context `{Uint256Laws} {SA : StateAccess} {SL : @StateLaws SA} {CR : Crypto} (env : Env).
Context (n : Z) (calls : CallOps) (Hn : n ≤ max_smoke) (CG : calls_good env n calls).

#[local] Opaque VmLogic.wp query update update_or update_memory UseSmoke pop peek poke push back.
Abbreviation wp := (wp vm_panic).
Abbreviation op_good := (op_good env n).

(** ** The checks *)

Lemma sign_zero w : (u_Sign w =? 0) = true → u_val w = 0.
Proof.
  rewrite law_Sign, Z.eqb_eq. unfold signed. pose proof (law_range w).
  destruct (Z.ltb_spec (u_val w) (2 ^ 255)); lia.
Qed.

Lemma wp_write_protected op o (Q : bool → machine → Prop) m :
  op_good op o → op_minStack o ≤ len (stack m) → Q true m →
  ((writes o = true → writable env m) → (op = CALL → no_value env m) → Q false m) →
  wp (write_protected env op o) Q m.
Proof.
  intros Ho Hl Ht Hf. unfold write_protected. wp_step. wp_step.
  unfold writable, no_value, ro_mode in Hf. cbn [compose].
  destruct (readOnly (evm m) && r_IsByzantium (chainRules env)) eqn:Ero; [|by wp_step; apply Hf].
  destruct (writes o); [by wp_step|]. destruct (Z.eqb_spec op CALL) as [->|Hop]; [|wp_step; by apply Hf].
  pose proof (og_shape _ _ _ _ Ho _ eq_refl) as Hs. injection Hs as Hmin _ _ _.
  destruct (lookup_lt_is_Some_2 (stack m) 2) as [v Hv]; [lia|]. wp_step. eapply wp_back; [exact Hv|]. wp_step.
  destruct (u_Sign v =? 0) eqn:Es; cbn [negb]; [|done]. apply Hf; [done|]. intros _ _ v' Hv'.
  simplify_eq. by apply sign_zero.
Qed.

Lemma toWordSize_spec sz size :
  is_u64 sz → SafeMul (toWordSize sz) 32 = (size, false) → sz ≤ size ∧ is_u64 size.
Proof.
  unfold SafeMul, toWordSize, is_u64, MaxUint64. intros Hs [= <- Hov]. split; [|apply u64_range].
  apply negb_false_iff, Z.eqb_eq in Hov. destruct (Z.ltb_spec (2 ^ 64 - 1 - 31) sz); [by vm_compute in Hov|].
  pose proof (Z.div_mod (sz + 31) 32 ltac:(lia)). pose proof (Z.mod_pos_bound (sz + 31) 32 ltac:(lia)).
  rewrite u64_small by (unfold is_u64; lia). lia.
Qed.

(** What is known of the size of the memory. *)
Definition sized (o : operation) (st : Stack) (size : Z) : Prop :=
  match memorySize o with
  | None => size = 0
  | Some g => ∃ sz, g st = Ret (sz, false) ∧ sz ≤ size ∧ is_u64 size
  end.

Lemma wp_needed_memory op o (Q : result vm_error Z → machine → Prop) m :
  op_good op o → op_minStack o ≤ len (stack m) →
  (∀ e, Q (Err e) m) → (∀ size, sized o (stack m) size → Q (Ok size) m) → wp (needed_memory o) Q m.
Proof.
  intros Ho Hl He Hk. unfold needed_memory, sized in *. pose proof (og_mem _ _ _ _ Ho) as Hm.
  destruct (memorySize o) as [g|]; [|wp_step; by apply Hk]. do 3 wp_step. apply wp_lift.
  destruct (Hm (stack m) Hl) as (sz & b & Eg & Hb). rewrite Eg. cbn [owp]. destruct b; [by wp_step|].
  unfold checked. destruct (SafeMul (toWordSize sz) 32) as [size []] eqn:Em; wp_step; [done|].
  apply Hk. exists sz. split; [done|]. apply toWordSize_spec; auto.
Qed.

(** The machine after the costs have been paid. *)
Record paid (op : Z) (o : operation) (size : Z) (m m' : machine) : Prop := {
  pd_frame : cost_frame env m m';
  pd_size : has_mem o = true → size ≤ max_memory;
  pd_temp : op_credit op = NoCredit ∨ temp_ok m';
  pd_smoke : ends o = false → Smoke (contract m') + credit_of (op_credit op) m' ≤ Smoke (contract m) - 1;
  pd_smoke0 : Smoke (contract m') + credit_of (op_credit op) m' ≤ Smoke (contract m)
}.

Lemma cost_frame_paid m g :
  inv m → 0 ≤ g ≤ Smoke (contract m) →
  cost_frame env m (set_contract (set_Smoke (Smoke (contract m) - g) (contract m)) m).
Proof.
  intros HI Hg. destruct (cost_frame_refl env m HI). split; try done; [apply contract_frame_smoke|].
  cbn [contract set_contract Smoke set_Smoke]. lia.
Qed.

Lemma wp_use_dynamic op o size (Q : bool → machine → Prop) m m1 :
  op_good op o → inv m → constantSmoke o ≤ Smoke (contract m) →
  m1 = set_contract (set_Smoke (Smoke (contract m) - constantSmoke o) (contract m)) m →
  op_minStack o ≤ len (stack m) → is_u64 size → (writes o = true → writable env m) →
  (∀ m', cost_frame env m m' → Q false m') → (∀ m', paid op o size m m' → Q true m') →
  wp (use_dynamic o size) Q m1.
Proof.
  intros [_ Hc Hk _ _] HI Hsm -> Hl Hsz Hw Hf Ht. pose proof (cost_frame_paid m (constantSmoke o) HI) as F.
  unfold use_dynamic, cost_good, has_mem in *. destruct (dynamicSmoke o) as [d|].
  - destruct Hc as (lo & Hlo & Hlo1 & Hd). wp_step.
    eapply wp_mono; [|apply Hd; [eapply cost_frame_inv; [apply F; lia|done]|done|done|exact Hw]].
    intros r m' [F' Hr]. assert (cost_frame env m m') as Fm by (eapply cost_frame_trans; [apply F; lia|done]).
    destruct r as [cost|e]; [|wp_step; by apply Hf]. destruct Hr as (H1 & H2 & H3 & H4).
    apply wp_UseSmoke; intros Hu; [by apply Hf|]. pose proof (cf_smoke _ _ _ F') as Hs'. cbn in Hs'.
    assert (credit_of (op_credit op) (set_contract (set_Smoke (Smoke (contract m') - cost) (contract m')) m')
      = credit_of (op_credit op) m') as Ecr by (by destruct (op_credit op)).
    apply Ht. split.
    + eapply cost_frame_trans; [exact Fm|]. apply cost_frame_paid; [by eapply cost_frame_inv|lia].
    + done.
    + done.
    + intros He. rewrite Ecr. cbn [contract set_contract Smoke set_Smoke]. specialize (Hlo1 He). lia.
    + rewrite Ecr. cbn [contract set_contract Smoke set_Smoke]. lia.
  - destruct Hc as (Hm & Hcr & H1). wp_step. apply Ht. split; unfold has_mem; rewrite ?Hm, ?Hcr;
      cbn [contract set_contract Smoke set_Smoke credit_of];
      [apply F; lia|done|by left|intros He; specialize (H1 He); lia|lia].
Qed.

(** ** Execution *)

(** Between machines of a frame: the memory may have grown. *)
Definition sframe (m m' : machine) : Prop :=
  contract_frame (contract m) (contract m') ∧ evm_frame env (evm m) (evm m').

Lemma sframe_refl m : sframe m m.
Proof. split; [apply contract_frame_refl|apply evm_frame_refl]. Qed.
Lemma sframe_trans m1 m2 m3 : sframe m1 m2 → sframe m2 m3 → sframe m1 m3.
Proof. intros [] []. split; [by eapply contract_frame_trans|by eapply evm_frame_trans]. Qed.
Lemma cost_sframe m m' : cost_frame env m m' → sframe m m'.
Proof. by intros []. Qed.
Lemma frame_sframe m m' : frame env m m' → sframe m m'.
Proof. by intros []. Qed.

Definition step_post (m : machine) (r : option op_result) (m' : machine) : Prop :=
  sframe m m' ∧ 0 ≤ Smoke (contract m') ≤ Smoke (contract m) ∧
  match r with
  | Some res => len res.1 ≤ max_memory
  | None => inv m' ∧ Smoke (contract m') ≤ Smoke (contract m) - 1
  end.

Lemma stop_post e m m' : cost_frame env m m' → step_post m (Some ([], Some e)) m'.
Proof. intros F. split; [by apply cost_sframe|]. split; [apply F|apply no_result]. Qed.

(** The machine with its memory resized. *)
Definition resized (size : Z) (m : machine) : machine :=
  if 0 <? size then set_memory (Resize size (memory m)) m else m.

Lemma Resize_len size mem : 0 < size → mem_Len (Resize size mem) = Z.max (mem_Len mem) size.
Proof.
  intros Hs. unfold Resize, mem_Len. destruct (Z.ltb_spec (len (store mem)) size); cbn [store]; [|lia].
  rewrite length_app, length_replicate. lia.
Qed.

Lemma resized_inv size m : size ≤ max_memory → inv m → inv (resized size m).
Proof.
  intros Hs HI. unfold resized. destruct (Z.ltb_spec 0 size); [|done]. destruct HI. split; try done.
  cbn [memory set_memory]. rewrite Resize_len by done. lia.
Qed.

Lemma resized_fits o size m : sized o (stack m) size → mem_fits (memorySize o) (resized size m).
Proof.
  unfold sized, mem_fits, resized. destruct (memorySize o) as [g|]; [|done]. intros (sz & Eg & Hs & Hu).
  exists sz. destruct (Z.ltb_spec 0 size).
  - split; [done|]. cbn [memory set_memory]. rewrite Resize_len by done. lia.
  - split; [done|]. unfold mem_Len. lia.
Qed.

Lemma wp_run_op_at op o mr :
  op_good op o → inv mr → op_minStack o ≤ len (stack mr) ≤ op_maxStack o → mem_fits (memorySize o) mr →
  guarded env op (writes o) mr → (op_credit op = NoCredit ∨ temp_ok mr) →
  (ends o = false → Smoke (contract mr) + credit_of (op_credit op) mr ≤ n) →
  Smoke (contract mr) + credit_of (op_credit op) mr ≤ max_smoke →
  wp (run_op o) (λ r m', sframe mr m'
    ∧ 0 ≤ Smoke (contract m') ≤ Smoke (contract mr) + credit_of (op_credit op) mr
    ∧ match r with Some res => len res.1 ≤ max_memory | None => inv m' ∧ ends o = false end) mr.
Proof.
  intros Ho HI Hl Hf Hg Ht Hn1 Hn2. unfold run_op. wp_step.
  eapply wp_mono; [|apply (og_exec _ _ _ _ Ho); [done|lia|done..]].
  intros [res err] m' [(F & HS & HG & HP) HR]. cbn [fst] in *.
  assert (inv m') as HI' by (eapply frame_inv; [done|done|lia|pose proof (inv_stack _ HI); lia|done]).
  set (e' := if returns o then set_returnData res (evm m') else evm m').
  assert (evm_frame env (evm mr) e') as Fe.
  { unfold e'. destruct (fr_evm _ _ _ F), (returns o); by split. }
  assert (state_ok (StateDB e')) as Hs'.
  { unfold e'. destruct HI'. by destruct (returns o). }
  wp_step. apply (wp_mono _ _ (λ _ m1, m1 = set_evm e' m')).
  2: { unfold e'. destruct (returns o); unfold update_evm; wp_step; [done|by destruct m']. }
  intros [] m1 ->.
  assert (sframe mr (set_evm e' m')) as SF by (split; [apply F|exact Fe]).
  assert (inv (set_evm e' m')) as HI1 by (destruct HI'; by split).
  unfold stop, ends in *. destruct err; [wp_step; split; [done|]; split; [done|apply no_result]|].
  destruct (reverts o); [wp_step; split; [done|]; split; [done|]; apply HR; by destruct (halts o)|].
  destruct (halts o); [wp_step; split; [done|]; split; [done|by apply HR]|].
  destruct (jumps o); cbn [negb]; repeat wp_step; (split; [done|]; split; [done|]; split; [|done]); [done|].
  destruct HI1. split; try done. apply u64_range.
Qed.

(** The machine that has paid and grown its memory keeps what was checked. *)
Lemma paid_guarded op o size m m' mem :
  paid op o size m m' → guarded env op (writes o) m →
  guarded env op (writes o) (MkMachine (pc m') (stack m') mem (rstack m') (contract m') (evm m')).
Proof.
  intros [F _ _ _ _] [G1 G2 G3]. pose proof (ro_mode_frame _ _ _ (cf_evm _ _ _ F)) as Ero.
  destruct (cf_contract _ _ _ F) as (a & g & Ec). split.
  - unfold writable in *. cbn [evm]. by rewrite Ero.
  - unfold at_code in *. cbn [pc contract]. rewrite (cf_pc _ _ _ F), Ec. exact G2.
  - unfold no_value in *. cbn [evm stack]. by rewrite Ero, (cf_stack _ _ _ F).
Qed.

Lemma resized_eq size m :
  resized size m = MkMachine (pc m) (stack m) (memory (resized size m)) (rstack m) (contract m) (evm m).
Proof. unfold resized. case_match; by destruct m. Qed.

Lemma wp_run_op op o size m m' :
  op_good op o → inv m → paid op o size m m' → sized o (stack m) size → op_minStack o ≤ len (stack m) ≤ op_maxStack o →
  guarded env op (writes o) m → Smoke (contract m) ≤ n + 1 →
  wp (run_op o) (step_post m) (resized size m').
Proof.
  intros Ho HI Hpaid Hsized Hl Hg Hmn. pose proof Hpaid as [F Hsz Htmp Hs1 Hs0].
  assert (size ≤ max_memory) as Hmax.
  { unfold sized, has_mem in *. destruct (memorySize o); [auto|]. by subst. }
  pose proof (resized_inv size m' Hmax (cost_frame_inv _ _ _ F HI)) as HR.
  pose proof (resized_fits o size m') as Hfit. rewrite (cf_stack _ _ _ F) in Hfit. specialize (Hfit Hsized).
  pose proof (co_smoke _ (inv_contract _ HI)) as Hsm.
  rewrite resized_eq in *. set (mem := memory (resized size m')) in *. clearbody mem.
  pose proof (paid_guarded _ _ _ _ _ mem Hpaid Hg) as Hg'.
  set (mr := MkMachine _ _ _ _ _ _) in *.
  assert (credit_of (op_credit op) mr = credit_of (op_credit op) m') as Ecr by (by destruct (op_credit op)).
  assert (sframe m mr) as SF by (by destruct F).
  assert (Smoke (contract mr) = Smoke (contract m')) as Esm by done.
  eapply wp_mono; [|apply (wp_run_op_at op o mr Ho HR)].
  - intros r m2 (SF2 & HG & Hr). rewrite Ecr, Esm in HG. split; [by eapply sframe_trans|].
    split; [lia|]. destruct r; [done|]. destruct Hr as [HI2 He]. split; [done|]. specialize (Hs1 He). lia.
  - unfold mr. cbn [stack]. by rewrite (cf_stack _ _ _ F).
  - done.
  - done.
  - done.
  - intros He. rewrite Ecr, Esm. specialize (Hs1 He). lia.
  - rewrite Ecr, Esm. lia.
Qed.

(** One iteration. *)
Lemma wp_interp_step m :
  inv m → Smoke (contract m) ≤ n + 1 → wp (interp_step env calls) (step_post m) m.
Proof.
  intros HI Hmn. pose proof (cost_frame_refl env m HI) as F0. unfold interp_step. do 4 wp_step.
  set (op := GetOp (pc m) (contract m)).
  destruct (assoc op _) as [o|] eqn:Eo; [|wp_step; by apply stop_post].
  apply assoc_good with (env := env) (n := n) in Eo as Ho; [|by apply select_table_good].
  do 2 wp_step. destruct (Z.ltb_spec (len (stack m)) (op_minStack o)); [wp_step; by apply stop_post|].
  destruct (Z.ltb_spec (op_maxStack o) (len (stack m))); [wp_step; by apply stop_post|].
  wp_step. apply (wp_write_protected op o); [done|done|wp_step; by apply stop_post|]. intros Hw Hv.
  wp_step. apply wp_UseSmoke; intros Hu; [wp_step; by apply stop_post|]. cbn [negb].
  pose proof (og_const _ _ _ _ Ho) as Hk. pose proof (cost_frame_paid m _ HI (conj Hk Hu)) as F1.
  wp_step. apply (wp_needed_memory op); [done|done|intros e; wp_step; by apply stop_post|]. intros size Hsz.
  assert (is_u64 size) as Hu64.
  { unfold sized in Hsz. destruct (memorySize o); [by destruct Hsz as (? & _ & _ & ?)|by subst]. }
  wp_step. apply (wp_use_dynamic op o size _ m); try done.
  - intros m' F. wp_step. by apply stop_post.
  - intros m' Hp. wp_step. apply (wp_mono _ _ (λ _ m1, m1 = resized size m')).
    + intros [] m1 ->. eapply wp_run_op; try done. split; [done| |done].
      intros Hop. unfold at_code. unfold op, GetOp, GetByte in Hop. by destruct (Z.ltb_spec (pc m) (len (Code (contract m)))).
    + unfold resized. case_match; by wp_step.
Qed.
End step.
