(* ===== verification/EvmSound.v ===== *)
(** * Soundness of the EVM

    The methods of [EVM] meet the contract that the call instructions rely on
    ([calls_good]); by induction on the fuel the main loop returns whenever the
    fuel exceeds the smoke.  So every call and creation ends, never panics
    (but for [vm_panic]), hands back at most the smoke it got, and touches the
    state only through the state interface, undoing what a failed call did. *)
From S2P Require Import Prelude RlpEncode Opcodes Params ChainConfig VmBase VmMachine Precompiles VmSmoke VmOps VmTables Evm VmLogic VmAnalysis VmSound VmOpsSound VmPrecompilesSound VmCallsSound VmCostSound VmTablesSound InterpSound.
Local Open Scope Z_scope.

Section evm.
Context `{Uint256Laws} {SA : StateAccess} {SL : @StateLaws SA} {CR : Crypto} {CL : CryptoLaws} (env : Env).

#[local] Opaque VmLogic.wp.
Abbreviation wp := (wp vm_panic).
Abbreviation owp := (owp vm_panic).

(** ** Running a contract *)

Definition loop_post (m : machine) (r : op_result) (m' : machine) : Prop :=
  sframe env m m' ∧ 0 ≤ Smoke (contract m') ≤ Smoke (contract m) ∧ len r.1 ≤ max_memory.

Definition loop_good (n : Z) (loop : Z → M op_result) : Prop :=
  ∀ steps m, inv m → Smoke (contract m) ≤ n → wp (loop steps) (loop_post m) m.

(** The mode in which [Run] executes. *)
Definition run_mode (ro : bool) (e : EVM) : bool := (ro || readOnly e) && r_IsByzantium (chainRules env).

Record run_frame (ro : bool) (e e' : EVM) : Prop := {
  rf_depth : depth e' = depth e;
  rf_readOnly : readOnly e' = readOnly e;
  rf_state : evolves (run_mode ro e) (StateDB e) (StateDB e')
}.

Lemma run_frame_evm ro e e' : run_frame ro e e' → evm_frame env e e'.
Proof.
  intros [? ? Hs]. split; [done..|]. unfold run_mode, ro_mode in *.
  destruct ro; cbn [orb] in Hs; [|done]. destruct (readOnly e); [done|]. by eapply evolves_rw.
Qed.

Section calls.
Context (n : Z) (loop : Z → M op_result) (Hn : n ≤ max_smoke) (HL : loop_good n loop).

Definition run_post (c : Contract) (ro : bool) (e : EVM) (x : op_result * Contract * EVM) : Prop :=
  let '(r, c', e') := x in
  run_frame ro e e' ∧ 0 ≤ Smoke c' ≤ Smoke c ∧ len r.1 ≤ max_memory.

Lemma Run_ok c input ro e :
  contract_ok c → len input < 2 ^ 63 → Smoke c ≤ n → state_ok (StateDB e) →
  owp (Run loop c input ro e) (run_post c ro e).
Proof.
  intros Hc Hi Hs Hst. unfold Run. destruct (len (Code c) =? 0).
  { cbn. split; [|split; [destruct Hc; lia|apply no_result]].
    split; [|destruct ro, (readOnly e) eqn:E; cbn; by rewrite ?E|].
    - destruct (ro && negb (readOnly e)); cbn; lia.
    - destruct (ro && negb (readOnly e)); apply ev_refl. }
  set (e1 := set_returnData [] _).
  assert (StateDB e1 = StateDB e ∧ depth e1 = depth e + 1 ∧ readOnly e1 = (ro || readOnly e)) as (E1 & E2 & E3).
  { unfold e1. destruct ro, (readOnly e) eqn:E; cbn; by rewrite ?E. }
  clearbody e1. apply owp_bind.
  set (m := MkMachine 0 [] NewMemory [] (set_Input input c) e1).
  assert (inv m) as HI.
  { split; cbn; rewrite ?E1; try done. destruct Hc. by split. }
  eapply owp_mono; [|apply wp_elim, (HL 0 m HI Hs)].
  intros [r m'] ((Fc & [Fd Fr Fs]) & HG & HR). cbn [owp]. split; [|by split].
  unfold ro_mode in Fs. unfold m in Fd, Fr, Fs. cbn [evm fst snd] in *. rewrite E1, E3 in Fs. split.
  - cbn. destruct (ro && negb (readOnly e)); cbn; lia.
  - cbn. rewrite E3 in Fr. destruct ro, (readOnly e) eqn:E; cbn in *; congruence.
  - cbn. destruct (ro && negb (readOnly e)); exact Fs.
Qed.
Lemma run_contract_ok c input ro e :
  contract_ok c → len input < 2 ^ 63 → Smoke c ≤ n → state_ok (StateDB e) →
  owp (run_contract loop c input ro e) (λ x, run_frame ro e x.2 ∧ 0 ≤ leftOverSmoke x.1 ≤ Smoke c).
Proof.
  intros Hc Hi Hs Hst. unfold run_contract. apply owp_bind.
  eapply owp_mono; [|by apply (Run_ok c input ro e)]. intros [[[ret err] c'] e'] (F & HG & _). by split.
Qed.

(** ** Reverting *)

(** The state [s'] after a failed call from [s]: nothing has happened, or a
    snapshot was taken and reverted to. *)
Definition undone_at (s s' : State) : Prop :=
  s' = s ∨ ∃ ro s1, evolves ro (Snapshot s).2 s1 ∧ RevertToSnapshot (Snapshot s).1 s1 = Some s'.
(** Before that the balance of the caller may have been looked up. *)
Definition undone (s s' : State) : Prop :=
  undone_at s s' ∨ ∃ a, is_addr a ∧ undone_at (GetBalance a s).2 s'.

Definition outer_post (u : State → State → Prop) (e : EVM) (smoke : Z) (x : call_result * EVM) : Prop :=
  call_post env e smoke x ∧ (call_err x.1 ≠ None → u (StateDB e) (StateDB x.2)).

Lemma settle_ok e r e' smoke :
  state_ok (StateDB e) → evm_frame env (set_StateDB (Snapshot (StateDB e)).2 e) e' → 0 ≤ leftOverSmoke r ≤ smoke →
  owp (settle (Snapshot (StateDB e)).1 r e') (outer_post undone_at e smoke).
Proof.
  intros Hs [Fd Fr Fs] Hl. unfold settle. destruct (call_err r) as [err|] eqn:Ee.
  - destruct (law_revert _ _ _ Hs Fs) as [s' Hr]. rewrite Hr. cbn. split; [split|].
    + split; cbn; [done..|]. eapply ev_revert; [apply ev_refl|exact Fs|done].
    + cbn. case_bool_decide; lia.
    + intros _. right. by exists (ro_mode env (set_StateDB (Snapshot (StateDB e)).2 e)), (StateDB e').
  - cbn. split; [split; [|done]|intros Hx; cbn in Hx; congruence]. split; [done..|]. cbn.
    eapply evolves_trans; [|exact Fs]. apply evolves_1, step_Snapshot.
Qed.

Lemma outer_post_now e smoke x : outer_post undone_at e smoke x → outer_post undone e smoke x.
Proof. intros [H1 H2]. split; [done|]. intros He. left. auto. Qed.

(** The same after the balance of the caller has been looked up. *)
Lemma outer_post_query e a smoke x :
  is_addr a → outer_post undone_at (set_StateDB (GetBalance a (StateDB e)).2 e) smoke x → outer_post undone e smoke x.
Proof.
  intros Ha [[[Fd Fr Fs] Hl] Hu]. split; [split; [|done]|].
  - split; [done..|]. eapply evolves_trans; [|exact Fs]. by apply evolves_1, step_GetBalance.
  - intros He. right. exists a. split; [done|]. by apply Hu.
Qed.

Lemma refused_ok smoke e r :
  call_refused env smoke e = Some r → 0 ≤ smoke → outer_post undone_at e smoke (r, e).
Proof.
  unfold call_refused. intros Hr Hs. split; [|by left]. split; [apply evm_frame_refl|].
  repeat case_match; simplify_eq; cbn; lia.
Qed.

(** ** The code of an account *)

Lemma new_contract_ok c object v smoke e :
  ref_ok c → is_addr object → 0 ≤ smoke ≤ max_smoke →
  ∀ ct e', NewContract c object v smoke e = (ct, e') →
  (∀ a h code, len code < 2 ^ 63 → contract_ok (SetCallCode a h code ct)) ∧ Smoke ct = smoke ∧ caller ct = c
  ∧ StateDB e' = StateDB e ∧ depth e' = depth e ∧ readOnly e' = readOnly e.
Proof.
  intros Hc Ho Hs ct e' E. unfold NewContract in E.
  destruct c as [a|a b w]; simplify_eq; (split; [|done]); intros; (split; cbn; try done); by destruct Hc.
Qed.

Lemma as_delegate_ok ct a b v :
  ref_ok (caller ct) → caller ct = ContractOf a b v →
  (∀ x h code, len code < 2 ^ 63 → contract_ok (SetCallCode x h code ct)) →
  ∃ ct', AsDelegate ct = Ret ct' ∧ Smoke ct' = Smoke ct
    ∧ ∀ x h code, len code < 2 ^ 63 → contract_ok (SetCallCode x h code ct').
Proof.
  intros Hr E Hok. unfold AsDelegate. rewrite E in *. destruct Hr as [_ Hb]. eexists. split; [done|]. split; [done|].
  intros x h code Hl. destruct (Hok x h code Hl). by split.
Qed.

(** What the callee of [run_code_at] is. *)
Definition made (smoke : Z) (e : EVM) (x : Contract * EVM) : Prop :=
  (∀ a h code, len code < 2 ^ 63 → contract_ok (SetCallCode a h code x.1)) ∧ Smoke x.1 = smoke
  ∧ StateDB x.2 = StateDB e ∧ depth x.2 = depth e ∧ readOnly x.2 = readOnly e.

Lemma evolves_code addr ro s :
  is_addr addr → evolves ro s (GetCode addr (GetCodeHash addr s).2).2.
Proof.
  intros Ha. eapply ev_step; [|by apply step_GetCode]. by apply evolves_1, step_GetCodeHash.
Qed.

Lemma run_code_at_ok addr input smoke ro mk e :
  is_addr addr → len input < 2 ^ 63 → 0 ≤ smoke ≤ n → state_ok (StateDB e) → owp (mk e) (made smoke e) →
  owp (run_code_at env loop addr input smoke ro mk e) (λ x, run_frame ro e x.2 ∧ 0 ≤ leftOverSmoke x.1 ≤ smoke).
Proof.
  intros Ha Hi Hs Hst Hmk. unfold run_code_at. destruct (precompile _ addr) as [p|].
  - destruct (RunPrecompiledContract_ok p input smoke Hi) as (r & -> & Hr); [lia|]. cbn. split; [|done].
    split; [done..|apply ev_refl].
  - apply owp_bind. eapply owp_mono; [|exact Hmk]. intros [ct e1] (Hok & Hsm & E1 & E2 & E3). cbn in *.
    unfold evm_query. destruct (GetCodeHash addr (StateDB e1)) as [h s1] eqn:Eh. cbn.
    destruct (GetCode addr s1) as [code s2] eqn:Ec.
    assert (evolves (run_mode ro e) (StateDB e) s2) as Hev.
    { rewrite <- E1. pose proof (evolves_code addr (run_mode ro e) (StateDB e1) Ha) as Hx. rewrite Eh in Hx; cbn in Hx; by rewrite Ec in Hx. }
    assert (len code < 2 ^ 63) as Hcode.
    { assert (state_ok s1) as Hs1.
      { eapply (law_evolves false); [exact Hst|]. rewrite <- E1. apply evolves_1.
        pose proof (step_GetCodeHash false addr (StateDB e1) Ha) as Hx. by rewrite Eh in Hx. }
      pose proof (law_code s1 addr Hs1 Ha) as Hx. by rewrite Ec in Hx. }
    eapply owp_mono; [|apply (run_contract_ok (SetCallCode addr h code ct) input ro (set_StateDB s2 (set_StateDB s1 e1)));
      [by apply Hok|done|cbn; lia|cbn; by eapply law_evolves]].
    intros [r e'] [[Fd Fr Fs] Hl]. cbn in *. split; [|lia]. split; cbn; [congruence..|].
    unfold run_mode in *. cbn in Fs. rewrite E3 in Fs. by eapply evolves_trans.
Qed.
(** ** The calls *)

Lemma evm_query_eq {A} (f : State → A * State) e :
  evm_query f e = ((f (StateDB e)).1, set_StateDB (f (StateDB e)).2 e).
Proof. unfold evm_query. by destruct (f (StateDB e)). Qed.
Lemma CanTransfer_eq a v e :
  CanTransfer a v e = (v <=? (GetBalance a (StateDB e)).1, set_StateDB (GetBalance a (StateDB e)).2 e).
Proof. unfold CanTransfer. by rewrite evm_query_eq. Qed.

Lemma ref_address_ok c : ref_ok c → is_addr (ref_Address c).
Proof. destruct c; [done|]. by intros []. Qed.

Lemma failed_ok e smoke err : 0 ≤ smoke → outer_post undone_at e smoke (MkCallResult [] false smoke (Some err), e).
Proof. intros. split; [split; [apply evm_frame_refl|done]|by left]. Qed.

Lemma state_ok_step ro s s' : state_ok s → state_step ro s s' → state_ok s'.
Proof. intros Hs Hst. eapply law_evolves; [exact Hs|]. by apply evolves_1. Qed.

(** A snapshot, the code of the callee, and the settlement. *)
Lemma snapshot_run_ok e addr input smoke ro mk :
  is_addr addr → len input < 2 ^ 63 → 0 ≤ smoke ≤ n → state_ok (StateDB e) →
  (∀ e', StateDB e' = (Snapshot (StateDB e)).2 → depth e' = depth e → readOnly e' = readOnly e →
     owp (mk e') (made smoke e')) →
  owp ('(r, e') ← run_code_at env loop addr input smoke ro mk (set_StateDB (Snapshot (StateDB e)).2 e);
       settle (Snapshot (StateDB e)).1 r e') (outer_post undone_at e smoke).
Proof.
  intros Ha Hi Hs Hst Hmk. apply owp_bind. eapply owp_mono; [|apply run_code_at_ok; try done].
  - intros [r e'] [F Hl]. apply settle_ok; [done| |done]. by eapply run_frame_evm.
  - eapply state_ok_step; [done|apply (step_Snapshot false)].
  - by apply Hmk.
Qed.

Lemma evm_CallCode_ok c addr input smoke v e :
  callee n c input smoke e → is_addr addr →
  owp (evm_CallCode env loop c addr input smoke v e) (outer_post undone e smoke).
Proof.
  intros [Hr Hi Hs Hst] Ha. unfold evm_CallCode. pose proof (ref_address_ok c Hr) as Hra.
  destruct (call_refused env smoke e) as [r|] eqn:Er; [apply outer_post_now, refused_ok; [done|lia]|].
  rewrite CanTransfer_eq. destruct (v <=? _); cbn [negb]; [|by apply (outer_post_query _ (ref_Address c)), failed_ok; [|lia]].
  rewrite evm_query_eq. set (e1 := set_StateDB _ e).
  eapply owp_mono; [intros x Hx; by apply (outer_post_query _ (ref_Address c))|].
  apply (snapshot_run_ok e1); try done.
  - eapply state_ok_step; [exact Hst|by apply (step_GetBalance false)].
  - intros e' _ _ _. cbn. destruct (NewContract _ _ _ _ _) as [ct e2] eqn:En.
    eapply new_contract_ok in En as (? & ? & ? & ? & ? & ?); [by split_and!|done|done|lia].
Qed.

Lemma evm_DelegateCall_ok c addr input smoke e a b v :
  callee n c input smoke e → is_addr addr → c = ContractOf a b v →
  owp (evm_DelegateCall env loop c addr input smoke e) (outer_post undone e smoke).
Proof.
  intros [Hr Hi Hs Hst] Ha Hc. unfold evm_DelegateCall. pose proof (ref_address_ok c Hr) as Hra.
  destruct (call_refused env smoke e) as [r|] eqn:Er; [apply outer_post_now, refused_ok; [done|lia]|].
  rewrite evm_query_eq. eapply owp_mono; [apply outer_post_now|]. apply snapshot_run_ok; try done.
  intros e' _ _ _. destruct (NewContract _ _ _ _ _) as [ct e2] eqn:En.
  eapply new_contract_ok in En as (Hok & Hsm & Hca & E1 & E2 & E3); [|done|done|lia].
  destruct (as_delegate_ok ct a b v) as (ct' & -> & Hsm' & Hok'); [by rewrite Hca|by rewrite Hca|done|].
  cbn. split; [done|]. split; [cbn; congruence|done].
Qed.

(** In read-only mode the settlement adds no writes. *)
Lemma settle_evolves ro s r e' :
  state_ok s → evolves ro (Snapshot s).2 (StateDB e') →
  owp (settle (Snapshot s).1 r e') (λ x, evolves ro s (StateDB x.2)).
Proof.
  intros Hs He. unfold settle. destruct (call_err r) as [err|].
  - destruct (law_revert _ _ _ Hs He) as [s' Hr]. rewrite Hr. cbn.
    eapply ev_revert; [apply ev_refl|exact He|exact Hr].
  - cbn. eapply evolves_trans; [|exact He]. apply evolves_1, step_Snapshot.
Qed.

Lemma evm_StaticCall_core c addr input smoke e :
  callee n c input smoke e → is_addr addr →
  owp (evm_StaticCall env loop c addr input smoke e)
    (λ x, outer_post undone_at e smoke x ∧ evolves (r_IsByzantium (chainRules env)) (StateDB e) (StateDB x.2)).
Proof.
  intros [Hr Hi Hs Hst] Ha. unfold evm_StaticCall.
  destruct (call_refused env smoke e) as [r|] eqn:Er; [split; [apply refused_ok; [done|lia]|apply ev_refl]|].
  rewrite evm_query_eq. cbn [fst snd]. apply owp_bind. set (e1 := evm_update _ _).
  assert (∀ ro, evolves ro (Snapshot (StateDB e)).2 (StateDB e1)) as Hev
    by (intros; by apply evolves_1, step_touch_add).
  eapply owp_mono; [|apply (run_code_at_ok addr input smoke true _ e1); try done].
  - intros [r e'] [F Hl]. pose proof (run_frame_evm _ _ _ F) as F'. apply owp_and.
    + apply settle_ok; [done| |done]. eapply evm_frame_trans; [|exact F']. split; [done..|apply Hev].
    + apply settle_evolves; [done|]. eapply evolves_trans; [apply Hev|]. apply F.
  - eapply (law_evolves false); [|apply Hev]. eapply state_ok_step; [exact Hst|apply (step_Snapshot false)].
  - cbn. destruct (NewContract _ _ _ _ _) as [ct e2] eqn:En.
    eapply new_contract_ok in En as (? & ? & ? & ? & ? & ?); [by split_and!|done|done|lia].
Qed.

Lemma evm_StaticCall_ok c addr input smoke e :
  callee n c input smoke e → is_addr addr →
  owp (evm_StaticCall env loop c addr input smoke e) (outer_post undone e smoke).
Proof. intros Hc Ha. eapply owp_mono; [|by apply evm_StaticCall_core]. intros x [Hx _]. by apply outer_post_now. Qed.

(** A transfer that is a touch of both accounts, or that the sender can afford. *)
Definition affordable (ro : bool) (a : Address) (v : Z) (s : State) : Prop :=
  v = 0 ∨ ro = false ∧ 0 ≤ v ≤ (GetBalance a s).1.

Lemma transfer_evolves ro a b v s :
  affordable ro a v s → is_addr a → is_addr b → evolves ro s (AddBalance b v (SubBalance a v s)).
Proof.
  intros [->|[-> Hv]] Ha Hb; [|by apply evolves_1, step_Transfer].
  eapply ev_step; [|by apply step_touch_add]. by apply evolves_1, step_touch_sub.
Qed.

Lemma affordable_calm ro a v s s' :
  state_ok s → is_addr a → rtc calm_step s s' → affordable ro a v s → affordable ro a v s'.
Proof. intros Hs Ha Hc. unfold affordable. by rewrite (calm_balance s s' a Hs Ha Hc). Qed.

Lemma exist_evolves ro a s :
  is_addr a → evolves ro s (if negb (Exist a s).1 then CreateAccount a (Exist a s).2 else (Exist a s).2).
Proof.
  intros Ha. destruct (Exist a s).1 eqn:E; cbn [negb]; [by apply evolves_1, step_Exist|].
  by apply evolves_1, step_create_missing.
Qed.

Lemma exist_calm a s :
  is_addr a → rtc calm_step s (if negb (Exist a s).1 then CreateAccount a (Exist a s).2 else (Exist a s).2).
Proof.
  intros Ha. eapply rtc_l; [by apply (calm_Exist a)|]. destruct (Exist a s).1; [done|].
  by apply rtc_once, calm_CreateAccount.
Qed.

(** The callee of [Call], once the value has been transferred. *)
Lemma call_code_ok c addr input smoke v e p :
  ref_ok c → is_addr addr → len input < 2 ^ 63 → 0 ≤ smoke ≤ n → state_ok (StateDB e) →
  owp (call_code loop c addr input smoke v p e) (λ x, evm_frame env e x.2 ∧ 0 ≤ leftOverSmoke x.1 ≤ smoke).
Proof.
  intros Hr Ha Hi Hs Hst. unfold call_code. destruct p as [p|].
  - destruct (RunPrecompiledContract_ok p input smoke Hi) as (r & -> & Hp); [lia|]. cbn. split; [|done].
    apply evm_frame_refl.
  - rewrite evm_query_eq. set (e1 := set_StateDB _ e). set (code := (GetCode _ _).1).
    assert (evm_frame env e e1) as F1 by (apply evm_frame_step; by apply step_GetCode).
    assert (len code < 2 ^ 63) as Hcode by (by apply law_code).
    destruct (len code =? 0); [split; [done|cbn; lia]|].
    destruct (NewContract c addr v smoke e1) as [ct e2] eqn:En.
    eapply new_contract_ok in En as (Hok & Hsm & _ & E1 & E2 & E3); [|done|done|lia].
    rewrite evm_query_eq. set (e3 := set_StateDB _ e2).
    assert (evm_frame env e2 e3) as F3 by (apply evm_frame_step; by apply step_GetCodeHash).
    assert (evm_frame env e1 e2) as F2 by (split; [done..|rewrite E1; apply ev_refl]).
    pose proof (evm_frame_trans _ _ _ _ F1 (evm_frame_trans _ _ _ _ F2 F3)) as F.
    eapply owp_mono; [|apply (run_contract_ok (SetCallCode addr (GetCodeHash addr (StateDB e2)).1 code ct) input false e3);
      [by apply Hok|done|cbn; lia|eapply law_evolves; [exact Hst|apply F]]].
    intros [r e'] [Fr Hl]. cbn in *. split; [|lia]. eapply evm_frame_trans; [exact F|by eapply run_frame_evm].
Qed.

Lemma call_account_ok c addr input smoke v e :
  callee n c input smoke e → is_addr addr → affordable (ro_mode env e) (ref_Address c) v (StateDB e) →
  owp (call_account env loop c addr input smoke v e) (outer_post undone_at e smoke).
Proof.
  intros [Hr Hi Hs Hst] Ha Hv. unfold call_account. rewrite !evm_query_eq. cbn [StateDB set_StateDB].
  set (p := precompile _ _). set (s1 := (Snapshot (StateDB e)).2). case_match.
  - split; [split; [|cbn; lia]|done]. split; [done..|]. cbn. eapply ev_step; [|by apply step_Exist].
    by apply evolves_1, step_Snapshot.
  - set (e1 := Transfer _ _ _ _). assert (evm_frame env (set_StateDB s1 e) e1) as F.
    { pose proof (exist_evolves (ro_mode env (set_StateDB s1 e)) addr s1 Ha) as Hx.
      pose proof (exist_calm addr s1 Ha) as Hx'. split; [by unfold e1; destruct (Exist addr s1).1..|].
      eapply evolves_trans; [|apply (transfer_evolves _ (ref_Address c) addr v); [|by apply ref_address_ok|done]].
      - by destruct (Exist addr s1).1.
      - apply (affordable_calm _ _ _ (StateDB e)); [done|by apply ref_address_ok| |done].
        apply (rtc_l _ _ s1); [apply calm_Snapshot|]. by destruct (Exist addr s1).1. }
    apply owp_bind. eapply owp_mono; [|apply (call_code_ok c addr input smoke v e1 p); try done].
    + intros [r e'] [F' Hl]. apply settle_ok; [done|by eapply evm_frame_trans|done].
    + eapply law_evolves; [|apply F]. eapply state_ok_step; [exact Hst|apply (step_Snapshot false)].
Qed.

Lemma evm_Call_ok c addr input smoke v e :
  callee n c input smoke e → is_addr addr → 0 ≤ v → (ro_mode env e = true → v = 0) →
  owp (evm_Call env loop c addr input smoke v e) (outer_post undone e smoke).
Proof.
  intros Hc Ha Hv0 Hv. pose proof Hc as [Hr Hi Hs Hst]. unfold evm_Call. pose proof (ref_address_ok c Hr) as Hra.
  destruct (call_refused env smoke e) as [r|] eqn:Er; [apply outer_post_now, refused_ok; [done|lia]|].
  destruct (Z.sgn v =? 0) eqn:Ev; cbn [negb].
  - eapply owp_mono; [apply outer_post_now|]. apply call_account_ok; try done. left. lia.
  - rewrite CanTransfer_eq. destruct (v <=? _) eqn:Eb; cbn [negb]; [|by apply (outer_post_query _ (ref_Address c)), failed_ok; [|lia]].
    set (e1 := set_StateDB _ e). assert (callee n c input smoke e1) as Hc1.
    { split; try done. eapply state_ok_step; [exact Hst|by apply (step_GetBalance false)]. }
    eapply owp_mono; [intros x Hx; by apply (outer_post_query _ (ref_Address c))|].
    apply call_account_ok; try done. apply (affordable_calm _ _ _ (StateDB e)); [done..|by apply rtc_once, calm_GetBalance|].
    destruct (ro_mode env e1) eqn:Ero; [left; by apply Hv|right; split; [done|lia]].
Qed.

(** ** Creation *)

Lemma BytesToAddress_addr b : is_addr (BytesToAddress b).
Proof.
  unfold is_addr, BytesToAddress. destruct (Z.ltb_spec 20 (len b));
    rewrite length_app, length_replicate, ?length_drop; lia.
Qed.

Lemma contract_UseSmoke_ok g c b c' :
  0 ≤ g → contract_UseSmoke g c = (b, c') → 0 ≤ Smoke c → 0 ≤ Smoke c' ≤ Smoke c.
Proof.
  intros Hg. unfold contract_UseSmoke. destruct (Z.ltb_spec (Smoke c) g); intros [= <- <-]; cbn; lia.
Qed.

Lemma store_code_ok e address ret b err ct e' smoke :
  ro_mode env e = false → is_addr address → len ret ≤ max_memory → 0 ≤ Smoke ct ≤ smoke → evm_frame env e e' →
  let x := store_code address ret b err ct e' in 0 ≤ Smoke x.1.1 ≤ smoke ∧ evm_frame env e x.2.
Proof.
  intros Hro Ha Hret Hct F. unfold store_code. destruct (bool_decide _ && _); [|done].
  destruct (contract_UseSmoke _ ct) as [paid c'] eqn:Eu. apply contract_UseSmoke_ok in Eu; [|apply u64_range|lia].
  destruct paid; cbn; [|split; [lia|done]]. split; [lia|].
  eapply evm_frame_trans; [exact F|]. apply evm_frame_step. apply step_SetCode; [|done|unfold max_memory in *; lia].
  by rewrite (ro_mode_frame _ _ _ F).
Qed.

(** A creation that fails is undone, from Homestead on. *)
Definition creation_post (u : State → State → Prop) (e : EVM) (smoke : Z) (x : create_result * EVM) : Prop :=
  create_post env e smoke x
  ∧ (r_IsHomestead (chainRules env) = true → cr_err x.1 ≠ None → u (StateDB e) (StateDB x.2)).

(** From the end of the constructor: [e] is the EVM before the snapshot. *)
Lemma create_settle_ok e address ret err ct e' smoke :
  state_ok (StateDB e) → ro_mode env e = false → is_addr address → len ret ≤ max_memory → 0 ≤ Smoke ct ≤ smoke →
  evm_frame env (set_StateDB (Snapshot (StateDB e)).2 e) e' →
  owp (create_settle env (Snapshot (StateDB e)).1 address ret err ct e') (creation_post undone_at e smoke).
Proof.
  intros Hs Hro Ha Hret Hct F. unfold create_settle. set (mx := r_IsEIP158 _ && _).
  pose proof (store_code_ok (set_StateDB (Snapshot (StateDB e)).2 e) address ret mx err ct e' smoke Hro Ha Hret Hct F) as [Hx1 Hx2].
  destruct (store_code _ _ _ _ _ _) as [[ct1 err1] e1]. cbn [fst snd] in *. destruct (mx || _) eqn:Erev.
  - destruct (law_revert _ _ _ Hs (ef_state _ _ _ Hx2)) as [s' Hr]. rewrite Hr. cbn [mbind outcome_bind or_panic owp].
    set (ct2 := if bool_decide _ then _ else _). assert (0 ≤ Smoke ct2 ≤ smoke) as H2.
    { unfold ct2. destruct (bool_decide (err1 ≠ Some ErrExecutionReverted)); [|done]. destruct (contract_UseSmoke (Smoke ct1) ct1) as [b c'] eqn:Eu.
      apply contract_UseSmoke_ok in Eu; [cbn; lia|lia|lia]. }
    destruct Hx2. split; [split; [|exact H2]|].
    + split; [done..|]. eapply ev_revert; [apply ev_refl|eassumption|exact Hr].
    + intros _ _. right. eexists _, _. by split; [eassumption|].
  - cbn [mbind outcome_bind owp]. destruct Hx2 as [? ? Hev]. split; [split; [|exact Hx1]|].
    + split; [done..|]. eapply evolves_trans; [|exact Hev]. apply evolves_1, step_Snapshot.
    + intros Hh He. exfalso. apply He. cbn. apply orb_false_iff in Erev as [-> Erev]. rewrite Hh in Erev. cbn in Erev.
      apply andb_false_iff in Erev as [Ee|]; [|done]. apply bool_decide_eq_false in Ee. by destruct err1; [destruct Ee|].
Qed.

Lemma create_post_trans e e' smoke x :
  evm_frame env e e' → create_post env e' smoke x → create_post env e smoke x.
Proof. intros F [F' Hl]. split; [by eapply evm_frame_trans|done]. Qed.

Lemma create_failed_ok e smoke g a err : 0 ≤ g ≤ smoke → create_post env e smoke (MkCreateResult [] a g err, e).
Proof. intros. split; [apply evm_frame_refl|done]. Qed.

(** A query and an update before the snapshot. *)
Lemma frame_query {A} (f : State → A * State) e :
  state_step (ro_mode env e) (StateDB e) (f (StateDB e)).2 → evm_frame env e (set_StateDB (f (StateDB e)).2 e).
Proof. apply evm_frame_step. Qed.
Lemma frame_update f e :
  state_step (ro_mode env e) (StateDB e) (f (StateDB e)) → evm_frame env e (evm_update f e).
Proof. apply evm_frame_step. Qed.

Lemma create_account_ok c code codehash smoke v address e :
  callee n c code smoke e → is_addr address → ro_mode env e = false → affordable false (ref_Address c) v (StateDB e) →
  owp (create_account env loop c code codehash smoke v address e) (creation_post undone_at e smoke).
Proof.
  intros [Hr Hi Hs Hst] Ha Hro Hv. pose proof (ref_address_ok c Hr) as Hra. unfold create_account.
  rewrite evm_query_eq. cbv beta iota zeta. set (e1 := set_StateDB _ e). set (e2 := if r_IsEIP158 _ then _ else _).
  assert (evm_frame env e1 e2) as F2.
  { unfold e2. case_match; [eapply evm_frame_trans; [|by apply frame_update, step_SetNonce]|];
      by apply frame_update, step_CreateAccount. }
  set (e3 := Transfer _ _ _ e2). assert (evm_frame env e1 e3) as F3.
  { eapply evm_frame_trans; [exact F2|]. split; [done..|].
    apply (transfer_evolves _ (ref_Address c) address v); [|done|done].
    rewrite (ro_mode_frame _ _ _ F2), (Hro : ro_mode env e1 = false).
    apply (affordable_calm _ _ _ (StateDB e)); [done..| |done]. eapply rtc_l; [apply calm_Snapshot|]. unfold e2.
    case_match; [eapply rtc_r; [|by apply calm_SetNonce]|]; by apply rtc_once, calm_CreateAccount. }
  destruct (NewContract c address v smoke e3) as [ct e4] eqn:En.
  eapply new_contract_ok in En as (Hok & Hsm & _ & E1 & E2 & E3); [|done|done|lia].
  assert (evm_frame env e1 e4) as F4.
  { eapply evm_frame_trans; [exact F3|]. split; [done..|rewrite E1; apply ev_refl]. }
  case_match.
  { split; [|by intros _ []]. split; [|cbn; lia]. eapply evm_frame_trans; [|exact F4].
    apply evm_frame_step, step_Snapshot. }
  apply owp_bind. eapply owp_mono; [|apply (Run_ok (SetCallCode address codehash code ct) [] false e4);
    [by apply Hok|done|cbn; lia|]].
  - intros [[[ret err] ct'] e'] (F & HG & HR). cbn in HG. apply create_settle_ok; try done; [lia|].
    eapply evm_frame_trans; [exact F4|by eapply run_frame_evm].
  - eapply law_evolves; [|apply F4]. eapply state_ok_step; [exact Hst|apply (step_Snapshot false)].
Qed.

(** The state when the snapshot is taken: the nonce of the creator has been
    increased and, in YoloV2, the address added to the access list. *)
Definition create_entry (c : ContractRef) (address : Address) (s : State) : State :=
  let s1 := (GetBalance (ref_Address c) s).2 in
  let s2 := (GetNonce (ref_Address c) s1).2 in
  let s3 := SetNonce (ref_Address c) (u64 ((GetNonce (ref_Address c) s1).1 + 1)) s2 in
  let s4 := if r_IsYoloV2 (chainRules env) then AddAddressToAccessList address s3 else s3 in
  (GetNonce address (GetCodeHash address s4).2).2.
Definition not_created (c : ContractRef) (address : Address) (s s' : State) : Prop :=
  undone s s' ∨ undone_at (create_entry c address s) s'.

Lemma create_entry_evolves c address s :
  is_addr (ref_Address c) → is_addr address → evolves false s (create_entry c address s).
Proof.
  intros Hc Ha. unfold create_entry. set (s2 := (GetNonce _ (GetBalance _ s).2).2).
  assert (evolves false s s2) as H2.
  { eapply ev_step; [|by apply step_GetNonce]. by apply evolves_1, step_GetBalance. }
  set (s4 := if r_IsYoloV2 _ then _ else _). assert (evolves false s s4) as H4.
  { unfold s4. case_match; [eapply ev_step; [|apply step_AddAddress]|]; (eapply ev_step; [exact H2|by apply step_SetNonce]). }
  eapply ev_step; [|by apply step_GetNonce]. eapply ev_step; [exact H4|by apply step_GetCodeHash].
Qed.

Lemma create_entry_calm c address s :
  is_addr (ref_Address c) → is_addr address → rtc calm_step s (create_entry c address s).
Proof.
  intros Hc Ha. unfold create_entry. eapply rtc_r; [|by apply calm_GetNonce]. eapply rtc_r; [|by apply calm_GetCodeHash].
  set (s3 := SetNonce _ _ _). assert (rtc calm_step s s3) as H3.
  { eapply rtc_r; [|by apply calm_SetNonce]. eapply rtc_r; [|by apply calm_GetNonce]. by apply rtc_once, calm_GetBalance. }
  case_match; [|done]. eapply rtc_r; [exact H3|apply calm_AddAddress].
Qed.

Lemma evm_create_entry c code codehash smoke v address e :
  CallCreateDepth <? depth e = false → v <=? (GetBalance (ref_Address c) (StateDB e)).1 = true →
  ∃ b : bool, let e' := set_StateDB (create_entry c address (StateDB e)) e in
  evm_create env loop c code codehash smoke v address e =
    if b then Ret (MkCreateResult [] zero_address 0 (Some ErrContractAddressCollision), e')
    else create_account env loop c code codehash smoke v address e'.
Proof.
  intros Hd Hb. unfold evm_create. rewrite Hd, CanTransfer_eq, Hb, evm_query_eq. cbn [negb]. cbv beta iota zeta.
  do 2 (rewrite evm_query_eq; cbv beta iota). unfold create_entry. by destruct (r_IsYoloV2 _); eexists.
Qed.

Lemma evm_create_ok c code codehash smoke v address e :
  callee n c code smoke e → is_addr address → 0 ≤ v → ro_mode env e = false →
  owp (evm_create env loop c code codehash smoke v address e) (creation_post (not_created c address) e smoke).
Proof.
  intros [Hr Hi Hs Hst] Ha Hv Hro. pose proof (ref_address_ok c Hr) as Hra.
  destruct (CallCreateDepth <? depth e) eqn:Ed.
  { unfold evm_create. rewrite Ed. split; [by apply create_failed_ok; lia|]. intros _ _. by left; left; left. }
  destruct (v <=? (GetBalance (ref_Address c) (StateDB e)).1) eqn:Ev.
  2: { unfold evm_create. rewrite Ed, CanTransfer_eq, Ev. split.
       - eapply create_post_trans; [by apply (frame_query (GetBalance (ref_Address c))), step_GetBalance|apply create_failed_ok; lia].
       - intros _ _. left. right. exists (ref_Address c). split; [done|by left]. }
  destruct (evm_create_entry c code codehash smoke v address e Ed Ev) as (b & ->).
  set (e' := set_StateDB (create_entry c address (StateDB e)) e).
  pose proof (create_entry_evolves c address (StateDB e) Hra Ha) as He.
  assert (evm_frame env e e') as F by (split; [done..|by rewrite Hro]). destruct b.
  - split; [eapply create_post_trans; [exact F|apply create_failed_ok; lia]|]. intros _ _. right. by left.
  - eapply owp_mono; [|apply create_account_ok; [split; [done..|by eapply law_evolves]|done|done|]].
    2: { apply (affordable_calm _ _ _ (StateDB e)); [done..|by apply create_entry_calm|right; split; [done|lia]]. }
    intros x [Hx Hu]. split; [by eapply create_post_trans|]. intros Hh Hx'. right. by apply Hu.
Qed.

(** [Create] looks up the nonce first, for the address. *)
Lemma evm_Create_ok c code smoke v e :
  callee n c code smoke e → 0 ≤ v → ro_mode env e = false →
  let s0 := GetNonce (ref_Address c) (StateDB e) in
  owp (evm_Create env loop c code smoke v e)
    (creation_post (λ _, not_created c (CreateAddress (ref_Address c) s0.1) s0.2) e smoke).
Proof.
  intros [Hr Hi Hs Hst] Hv Hro. pose proof (ref_address_ok c Hr) as Ha. unfold evm_Create. rewrite evm_query_eq.
  cbv zeta. set (e1 := set_StateDB _ e).
  assert (evm_frame env e e1) as F by (by apply (frame_query (GetNonce (ref_Address c))), step_GetNonce).
  eapply owp_mono; [|apply (evm_create_ok c code zero_hash smoke v _ e1); [|apply BytesToAddress_addr|done|done]].
  - intros x [Hx Hu]. split; [by eapply create_post_trans|done].
  - split; try done. eapply law_evolves; [exact Hst|apply F].
Qed.

Lemma evm_calls_good : calls_good env n (evm_calls env loop).
Proof.
  split; cbn [do_Call do_CallCode do_DelegateCall do_StaticCall do_Create do_Create2 evm_calls].
  - intros. eapply owp_mono; [|by apply evm_Call_ok]. by intros x [].
  - intros. eapply owp_mono; [|by apply evm_CallCode_ok]. by intros x [].
  - intros. eapply owp_mono; [|by eapply evm_DelegateCall_ok]. by intros x [].
  - intros. eapply owp_mono; [|by apply evm_StaticCall_ok]. by intros x [].
  - intros c code smoke v e Hc Hv Hro. eapply owp_mono; [|by apply evm_Create_ok]. by intros x [].
  - intros c code smoke v salt e Hc Hv Hro.
    eapply owp_mono; [|apply evm_create_ok; [done|apply BytesToAddress_addr|done|done]]. by intros x [].
Qed.
End calls.

(** ** The main loop *)

Lemma run_loop_good fuel : loop_good (Z.min (Z.of_nat fuel - 1) max_smoke) (run_loop env fuel).
Proof.
  induction fuel as [|fuel IH]; intros steps m HI Hs.
  { pose proof (co_smoke _ (inv_contract _ HI)). lia. }
  cbn [run_loop]. pose proof (co_smoke _ (inv_contract _ HI)) as Hsm.
  set (k := Z.min (Z.of_nat fuel - 1) max_smoke) in *.
  assert (calls_good env k (evm_calls env (run_loop env fuel))) as CG by (apply evm_calls_good; [lia|done]).
  wp_step. eapply (wp_mono _ _ (λ _ m1, inv m1 ∧ sframe env m m1 ∧ Smoke (contract m1) = Smoke (contract m))).
  2: { case_match; [|wp_step; split; [done|split; [apply sframe_refl|done]]].
       unfold load_abort, update_evm. repeat wp_step. split; [destruct HI; by split|]. split; [|done].
       split; [apply contract_frame_refl|]. split; [done..|apply ev_refl]. }
  intros a m1 (HI1 & SF1 & E1). destruct a.
  { unfold ok. wp_step. split; [done|]. split; [lia|apply no_result]. }
  wp_step. eapply wp_mono; [|apply (wp_interp_step env k _ ltac:(lia) CG m1 HI1); lia].
  intros r m2 (SF2 & HG & Hr). pose proof (sframe_trans _ _ _ _ SF1 SF2) as SF.
  destruct r as [res|].
  - wp_step. split; [done|]. split; [lia|done].
  - destruct Hr as [HI2 Hlt]. eapply wp_mono; [|apply IH; [done|lia]].
    intros r m3 (SF3 & HG3 & Hr3). split; [by eapply sframe_trans|]. split; [lia|done].
Qed.
End evm.
