(* ===== verification/VmExample.v ===== *)
(** * A concrete machine

    Instances of everything that the model of the virtual machine takes as a
    parameter, and a small world to run it in: word arithmetic on integers, a
    toy hash and toy curves, the state database over the example backend of
    StateRevert.v, the rules of Istanbul, and an account with code. *)
From S2P Require Import Prelude RlpEncode RlpRaw RlpDecode AccessList StateDB StateRevert Opcodes Params ChainConfig VmBase VmMachine Precompiles VmSmoke VmOps VmTables Evm StateTransition Transaction Receipts Uint256Model VmLogic VmAnalysis VmState VmSound VmCostSound.
Local Open Scope Z_scope.

(** ** Instances *)

Definition example_crypto : Crypto := {|
  Keccak256 b := take 32 (b ++ replicate 32 0);
  sha256_Sum256 b := take 32 (b ++ replicate 32 0);
  ripemd160_Sum b := take 20 (b ++ replicate 20 0);
  Ecrecover _ _ := None;
  bnG1 := unit; bnG2 := unit;
  bnG1_Unmarshal _ := Ok tt; bnG2_Unmarshal _ := Ok tt;
  bnG1_Add _ _ := tt; bnG1_ScalarMult _ _ := tt; bnG1_Marshal _ := replicate 64 0;
  bn_PairingCheck _ _ := true;
  blake2b_F h _ _ _ _ := h;
  blsG1 := unit; blsG2 := unit;
  blsG1_DecodePoint _ := Ok tt; blsG2_DecodePoint _ := Ok tt;
  blsG1_EncodePoint _ := replicate 128 0; blsG2_EncodePoint _ := replicate 256 0;
  blsG1_Add _ _ := tt; blsG2_Add _ _ := tt;
  blsG1_MulScalar _ _ := tt; blsG2_MulScalar _ _ := tt;
  blsG1_MultiExp _ _ := tt; blsG2_MultiExp _ _ := tt;
  blsG1_InCorrectSubgroup _ := true; blsG2_InCorrectSubgroup _ := true;
  blsG1_MapToCurve _ := Ok tt; blsG2_MapToCurve _ := Ok tt;
  bls_Check _ := true
|}.

Lemma example_crypto_laws : @CryptoLaws example_crypto.
Proof.
  split; [|done]. intros b. cbn [Keccak256 example_crypto]. rewrite length_take, length_app, length_replicate. lia.
Qed.

Lemma example_backend_laws : @BackendLaws example_backend.
Proof.
  split; [|exact example_keccak_inj|done]. intros b. cbn [StateDB.Keccak256 example_backend].
  rewrite length_take, length_app, length_replicate. lia.
Qed.

#[export] Existing Instance uint256_model.
#[export] Existing Instance uint256_model_laws.
#[export] Existing Instance example_backend.
#[export] Existing Instance example_backend_laws.
#[export] Existing Instance example_crypto.
#[export] Existing Instance example_crypto_laws.

(** The two halves of a result; the first one is free of the parameters. *)
Definition result_of {A E} (x : outcome (A * E)) : option A :=
  match x with Ret (a, _) => Some a | _ => None end.
Definition state_after {A E} (d : E) (x : outcome (A * E)) : E :=
  match x with Ret (_, e) => e | _ => d end.
Lemma result_of_Ret {A E} (d : E) (x : outcome (A * E)) a : result_of x = Some a → x = Ret (a, state_after d x).
Proof. destruct x as [[a' e]| |]; cbn; [by intros [= ->]|done..]. Qed.

(** ** A world *)

Definition example_rules : Rules := MkRules 420 true true true true true true true true false.
Definition example_env : Env :=
  MkEnv (λ _, zero_hash) addr1 10000000 5 1000 1 addr1 1 420 example_rules false false (λ _, false).

(** PUSH1 1 PUSH1 0 SSTORE PUSH1 0 PUSH1 0 REVERT *)
Definition revert_code : bytes := [0x60; 1; 0x60; 0; 0x55; 0x60; 0; 0x60; 0; 0xfd].
(** PUSH1 7 PUSH1 0 MSTORE PUSH1 32 PUSH1 0 RETURN *)
Definition return_code : bytes := [0x60; 7; 0x60; 0; 0x52; 0x60; 32; 0x60; 0; 0xf3].

Definition code_state (code : bytes) : State :=
  SetCode addr2 code (SetState addr2 zero_hash (replicate 32 9) (SetNonce addr2 1 example_new)).
Definition code_evm (code : bytes) : EVM := NewEVM (code_state code).

Lemma example_new_ok : db_ok example_new.
Proof.
  assert (∀ a o, view example_new a = Some o → code o = None ∧ (Balance (data o) = 0 ∨ Balance (data o) = 100)) as Hv.
  { intros a o. rewrite view_unfold. destruct (stateObjects example_new !! a) as [o'|] eqn:E; [done|].
    unfold load. cbn. case_bool_decide; [|done]. intros [= <-]. split; [done|by right]. }
  split; [exact example_wf|]. split.
  - intros a o _ Ho. by apply code_ok_stored, (Hv a).
  - intros a _. unfold bal, existing. destruct (view example_new a) as [o|] eqn:E; [|done].
    destruct (deleted o); [done|]. destruct (Hv a o E) as [_ [->| ->]]; lia.
Qed.

Lemma code_state_ok code : len code < 2 ^ 63 → db_ok (code_state code).
Proof.
  intros Hc. eapply (db_ok_evolves false); [exact example_new_ok|].
  eapply ev_step; [|by apply step_SetCode]. eapply ev_step; [|by apply step_SetState].
  by apply evolves_1, step_SetNonce.
Qed.

(** PUSH1 0x5b JUMPDEST STOP: position 1 is push data, position 2 a destination. *)
Definition jump_code : bytes := [0x60; 0x5b; 0x5b; 0x00].
Definition jump_machine : machine :=
  MkMachine 0 [] NewMemory [] (SetCallCode addr2 zero_hash jump_code
    (NewContract (AccountRef addr1) addr2 0 100 (code_evm [])).1) (code_evm []).

Lemma jump_machine_inv : inv jump_machine.
Proof. split; [split; by vm_compute|by vm_compute|by vm_compute|by apply code_state_ok|by vm_compute]. Qed.

Lemma validJumpdest_exact_witness :
  (∃ m', validJumpdest (u_SetUint64 1) jump_machine = Ret (false, m'))
  ∧ ∃ m', validJumpdest (u_SetUint64 2) jump_machine = Ret (true, m').
Proof.
  split.
  - destruct (validJumpdest_exact jump_machine (u_SetUint64 1)) as (m' & E & _); [by split|by vm_compute|].
    exists m'. rewrite E. by do 2 f_equal.
  - destruct (validJumpdest_exact jump_machine (u_SetUint64 2)) as (m' & E & _); [by split|by vm_compute|].
    exists m'. rewrite E. by do 2 f_equal.
Defined.

Lemma memorySmokeCost_pays_witness :
  memorySmokeCost 100 jump_machine = Ret (Ok 12, set_memory (MkMemory [] 12) jump_machine)
  ∧ mem_paid (Resize 128 (MkMemory [] 12)).
Proof.
  assert (mem_paid (memory jump_machine)) as Hp by (split; by vm_compute).
  pose proof (memorySmokeCost_pays jump_machine 100 Hp ltac:(lia)) as Hx. cbv zeta in Hx.
  change (max_memory <? 100) with false in Hx. cbv iota in Hx. exact (conj (proj1 Hx) (proj2 (proj2 Hx))).
Defined.

(** ** A toy signature scheme *)

(** Two keys; the first number of a signature names the key. *)
Definition toy_key (k : bool) : Z := if k then 1 else 2.
Definition toy_crypto : Crypto := {|
  Precompiles.Keccak256 := @Precompiles.Keccak256 example_crypto;
  sha256_Sum256 := @sha256_Sum256 example_crypto;
  ripemd160_Sum := @ripemd160_Sum example_crypto;
  Ecrecover _ sig := Some (4 :: replicate 64 (at_ sig 31));
  bnG1_Unmarshal := @bnG1_Unmarshal example_crypto; bnG2_Unmarshal := @bnG2_Unmarshal example_crypto;
  bnG1_Add := @bnG1_Add example_crypto; bnG1_ScalarMult := @bnG1_ScalarMult example_crypto;
  bnG1_Marshal := @bnG1_Marshal example_crypto; bn_PairingCheck := @bn_PairingCheck example_crypto;
  blake2b_F := @blake2b_F example_crypto;
  blsG1_DecodePoint := @blsG1_DecodePoint example_crypto; blsG2_DecodePoint := @blsG2_DecodePoint example_crypto;
  blsG1_EncodePoint := @blsG1_EncodePoint example_crypto; blsG2_EncodePoint := @blsG2_EncodePoint example_crypto;
  blsG1_Add := @blsG1_Add example_crypto; blsG2_Add := @blsG2_Add example_crypto;
  blsG1_MulScalar := @blsG1_MulScalar example_crypto; blsG2_MulScalar := @blsG2_MulScalar example_crypto;
  blsG1_MultiExp := @blsG1_MultiExp example_crypto; blsG2_MultiExp := @blsG2_MultiExp example_crypto;
  blsG1_InCorrectSubgroup := @blsG1_InCorrectSubgroup example_crypto;
  blsG2_InCorrectSubgroup := @blsG2_InCorrectSubgroup example_crypto;
  blsG1_MapToCurve := @blsG1_MapToCurve example_crypto; blsG2_MapToCurve := @blsG2_MapToCurve example_crypto;
  bls_Check := @bls_Check example_crypto
|}.
Definition toy_signing : Signing := {|
  PrivateKey := bool;
  Sign _ k := Some (be_fixed 32 (toy_key k) ++ be_fixed 32 1 ++ [1]);
  PublicKey k := replicate 64 (toy_key k)
|}.

Lemma toy_laws : @SigningLaws toy_crypto toy_signing.
Proof.
  split. intros h k sig [= <-]. destruct k.
  all: split; [apply (bool_decide_unpack _); vm_compute; exact I|]; repeat split; by vm_compute.
Qed.

Definition toy_tx : Transaction := MkTransaction (MkTxdata 1 5 50000 (Some addr2) 3 [] 0 0 0) None.
Definition toy_signed : Transaction :=
  default toy_tx (@SignTx toy_crypto toy_signing toy_tx (EIP155Signer 420) true).

Lemma SignTx_Sender_witness :
  (@Sender toy_crypto (EIP155Signer 420) toy_signed).1 = Ok (@PubkeyToAddress toy_crypto (replicate 64 1))
  ∧ ∃ e, (@Sender toy_crypto (EIP155Signer 421) (@Sender toy_crypto (EIP155Signer 420) toy_signed).2).1 = Err e.
Proof.
  destruct (@SignTx_Sender toy_crypto toy_signing toy_laws toy_tx toy_signed (EIP155Signer 420) true) as [Hs _].
  - discriminate.
  - vm_compute. reflexivity.
  - destruct Hs as (H1 & _ & H2); [discriminate|]. split; [exact H1|]. apply (H2 420 (EIP155Signer 421)); [reflexivity|discriminate].
Defined.

Definition toy_log : Log := MkLog addr2 [replicate 32 5] [] 5 zero_hash 0 zero_hash 0 false.
Definition toy_receipt : Receipt :=
  MkReceipt [] 1 100 zero_bloom [toy_log] zero_hash zero_address 100 zero_hash 5 0.

Lemma CreateBloom_complete_witness :
  @BloomLookup toy_crypto (@CreateBloom toy_crypto [toy_receipt]) (replicate 32 5) = true
  ∧ @BloomLookup toy_crypto (@LogsBloom toy_crypto [toy_log]) (replicate 32 5) = true.
Proof.
  apply (@CreateBloom_complete toy_crypto [toy_receipt] toy_receipt toy_log (replicate 32 5)).
  - left.
  - left.
  - right. left.
Defined.
