(* ===== verification/EvmProps.v ===== *)
(** * The EVM over the state database

    The results about EVM.v for the state database of StateDB.v: message calls
    and creations return when the model has one unit of fuel more than the
    call has smoke, they never hand back more smoke than they got, a failed
    one is invisible in the state database, and a static call changes nothing
    that can be read.  The last section has what a call of the identity
    contract returns. *)
From S2P Require Import Prelude RlpEncode RlpRaw RlpDecode AccessList StateDB StateRevert Opcodes Params ChainConfig VmBase VmMachine Precompiles VmSmoke VmOps VmTables Evm Uint256Model VmLogic VmAnalysis VmState VmReadOnly VmSound VmOpsSound VmPrecompilesSound VmCallsSound VmCostSound VmTablesSound InterpSound EvmSound VmExample.
Local Open Scope Z_scope.

Section evm.
Context {U : Uint256} {UL : Uint256Laws} {B : Backend} {BL : BackendLaws} {CR : Crypto} {CL : CryptoLaws} (env : Env).

(** ** Message calls *)

(** The four kinds of message call, the first two with a value. *)
Inductive message := MsgCall (v : Z) | MsgCallCode (v : Z) | MsgDelegateCall | MsgStaticCall.

Definition message_call (fuel : nat) (k : message) (c : ContractRef) (addr : Address) (input : bytes) (smoke : Z)
    (e : EVM) : outcome (call_result * EVM) :=
  match k with
  | MsgCall v => Call env fuel c addr input smoke v e
  | MsgCallCode v => CallCode env fuel c addr input smoke v e
  | MsgDelegateCall => DelegateCall env fuel c addr input smoke e
  | MsgStaticCall => StaticCall env fuel c addr input smoke e
  end.

(** What the callers of these methods guarantee: addresses have 20 bytes, the
    input is a Go slice, values are not negative, none is sent in read-only mode, and delegate calls
    come from contracts.  The smoke is bounded by [max_smoke] = 2^58. *)
Record message_ok (k : message) (c : ContractRef) (addr : Address) (input : bytes) (smoke : Z) (e : EVM) : Prop := {
  mo_ref : ref_ok c;
  mo_addr : is_addr addr;
  mo_input : len input < 2 ^ 63;
  mo_smoke : 0 ≤ smoke ≤ max_smoke;
  mo_state : db_ok (StateDB e);
  mo_value v : k = MsgCall v → 0 ≤ v ∧ (ro_mode env e = true → v = 0);
  mo_delegate : k = MsgDelegateCall → ∃ a b v, c = ContractOf a b v
}.

Lemma message_call_ok fuel k c addr input smoke e :
  message_ok k c addr input smoke e → (Z.to_nat smoke < fuel)%nat →
  owp vm_panic (message_call fuel k c addr input smoke e) (outer_post env undone e smoke).
Proof.
  intros [Hr Ha Hi Hs Hst Hv Hd] Hf. pose proof (run_loop_good env fuel) as HL.
  set (n := Z.min (Z.of_nat fuel - 1) max_smoke) in *. assert (n ≤ max_smoke) as Hn by lia.
  assert (callee n c input smoke e) as Hc by (split; try done; lia).
  destruct k as [v|v| |]; unfold message_call, Call, CallCode, DelegateCall, StaticCall.
  - by apply (evm_Call_ok env n); try apply Hv.
  - by apply (evm_CallCode_ok env n).
  - destruct (Hd eq_refl) as (a & b & v & E). by apply (evm_DelegateCall_ok env n _ Hn HL c addr input smoke e a b v).
  - by apply (evm_StaticCall_ok env n).
Qed.

Lemma undone_at_answers s s' : db_ok s → undone_at s s' → state_eq s' s ∧ db_ok s'.
Proof.
  intros Hs [->|(ro & s1 & He & Hr)]; [split; [apply state_eq_refl|done]|].
  destruct (evolves_revert _ _ _ (proj1 Hs) He) as (s2 & R & E & W).
  change (StateDB.RevertToSnapshot (StateDB.Snapshot s).1 s1 = Some s') in Hr. rewrite R in Hr. injection Hr as ->.
  split; [done|by eapply db_ok_eq].
Qed.

Lemma undone_eq s s' : db_ok s → undone s s' → state_eq s' s ∧ db_ok s'.
Proof.
  intros Hs [Hu|(a & Ha & Hu)]; [by apply undone_at_answers|].
  assert (state_step false s (GetBalance a s).2) as Hst by (by apply step_GetBalance).
  pose proof (db_ok_step _ _ _ Hs Hst) as Hs'. destruct (undone_at_answers _ _ Hs' Hu) as [E Hok]. split; [|done].
  eapply state_eq_trans; [exact E|]. by apply (query_eq (OpGetBalance a) s _ 0 (proj1 (proj1 Hs))).
Qed.

Lemma db_answers s s' : db_ok s → db_ok s' → state_eq s' s → same_answers s' s.
Proof. intros [[[W _ _] _] _] [[[W' _ _] _] _]. by apply (state_eq_answers law_hash_length law_hash_address). Qed.
End evm.

(** C5: message calls return.  Whatever code they run, [Call], [CallCode],
    [DelegateCall] and [StaticCall] end within as many loop iterations, counted
    over all nested calls, as they have smoke (the model has fuel for one more):
    they return a result, or panic in one of the three ways of [vm_panic].  The
    smoke handed back is between zero and the smoke supplied, call depth and
    read-only mode are as before, and the state database is well-formed. *)
Theorem message_call_returns {U : Uint256} {B : Backend} {CR : Crypto} (UL : Uint256Laws) (BL : BackendLaws) (CL : CryptoLaws)
    (env : Env) (k : message) (c : ContractRef) (addr : Address) (input : bytes) (smoke : Z) (e : EVM) (fuel : nat)
    (Hok : message_ok env k c addr input smoke e) (Hf : (Z.to_nat smoke < fuel)%nat) :
  (∃ r e', message_call env fuel k c addr input smoke e = Ret (r, e')
     ∧ 0 ≤ leftOverSmoke r ≤ smoke ∧ depth e' = depth e ∧ readOnly e' = readOnly e ∧ db_ok (StateDB e'))
  ∨ (∃ p, message_call env fuel k c addr input smoke e = Panic p ∧ vm_panic p).
Proof.
  pose proof (message_call_ok env fuel k c addr input smoke e Hok Hf) as Hw.
  destruct (message_call _ _ _ _ _ _ _ _) as [[r e']|p|]; [left|right; by exists p|done].
  exists r, e'. destruct Hw as [[[Fd Fr Fs] Hl] _]. split; [done|]. split; [exact Hl|].
  split; [exact Fd|]. split; [exact Fr|]. by eapply db_ok_evolves; [apply (mo_state _ _ _ _ _ _ _ Hok)|].
Qed.

(** The calls below are made by an account on the example contract. *)
Lemma example_message k code smoke :
  (k = MsgDelegateCall → False) → (∀ v, k = MsgCall v → 0 ≤ v) → len code < 2 ^ 63 → 0 ≤ smoke ≤ max_smoke →
  message_ok example_env k (AccountRef addr1) addr2 [] smoke (code_evm code).
Proof.
  intros Hk Hv Hc Hs. split; [done|done|by vm_compute|done|by apply code_state_ok|by split; [apply Hv|]|]. intros E. by destruct (Hk E).
Qed.

Definition example_call (k : message) (code : bytes) : outcome (call_result * EVM) :=
  message_call example_env (Z.to_nat 50001) k (AccountRef addr1) addr2 [] 50000 (code_evm code).

Lemma message_call_returns_witness :
  result_of (example_call (MsgCall 3) return_code) = Some (MkCallResult (replicate 31 0 ++ [7]) false 49982 None)
  ∧ ∃ r e', example_call (MsgCall 3) return_code = Ret (r, e') ∧ 0 ≤ leftOverSmoke r ≤ 50000 ∧ db_ok (StateDB e').
Proof.
  assert (result_of (example_call (MsgCall 3) return_code) = Some (MkCallResult (replicate 31 0 ++ [7]) false 49982 None))
    as Er by (vm_compute; reflexivity).
  split; [exact Er|].
  destruct (message_call_returns _ _ _ example_env (MsgCall 3) (AccountRef addr1) addr2 [] 50000 (code_evm return_code)
    (Z.to_nat 50001)) as [(r & e' & E & Hl & _ & _ & Hs)|(p & E & _)].
  - apply example_message; [discriminate|intros v E; by inversion E|reflexivity|split; discriminate].
  - lia.
  - exists r, e'. split; [exact E|]. split; [exact Hl|exact Hs].
  - exfalso. unfold example_call in Er. rewrite E in Er. discriminate Er.
Defined.

(** C2: a failed message call leaves no trace.  When a message call returns an
    error, everything that can be read from the state database is as before the
    call: balances, nonces, code, storage, suicides, refund, logs and access
    list, however much the callee and the calls nested in it had changed. *)
Theorem failed_call_undone {U : Uint256} {B : Backend} {CR : Crypto} (UL : Uint256Laws) (BL : BackendLaws) (CL : CryptoLaws)
    (env : Env) (k : message) (c : ContractRef) (addr : Address) (input : bytes) (smoke : Z) (e e' : EVM) (fuel : nat)
    (r : call_result) (Hok : message_ok env k c addr input smoke e) (Hf : (Z.to_nat smoke < fuel)%nat)
    (Hr : message_call env fuel k c addr input smoke e = Ret (r, e')) (He : call_err r ≠ None) :
  same_answers (StateDB e') (StateDB e).
Proof.
  pose proof (message_call_ok env fuel k c addr input smoke e Hok Hf) as Hw. rewrite Hr in Hw.
  destruct Hw as [_ Hu]. pose proof (mo_state _ _ _ _ _ _ _ Hok) as Hs.
  destruct (undone_eq _ _ Hs (Hu He)) as [E Hs']. by apply db_answers.
Qed.

Definition reverted_evm : EVM := state_after (code_evm []) (example_call (MsgCall 3) revert_code).

Lemma failed_call_undone_witness :
  same_answers (StateDB reverted_evm) (StateDB (code_evm revert_code)).
Proof.
  apply (failed_call_undone _ _ _ example_env (MsgCall 3) (AccountRef addr1) addr2 [] 50000 (code_evm revert_code)
    reverted_evm (Z.to_nat 50001) (MkCallResult [] false 49188 (Some ErrExecutionReverted))).
  - apply example_message; [discriminate|intros v E; by inversion E|reflexivity|split; discriminate].
  - lia.
  - apply (result_of_Ret (code_evm []) (example_call (MsgCall 3) revert_code)). vm_compute. reflexivity.
  - discriminate.
Defined.

(** C7: static calls are read-only.  From Byzantium on, whatever code a
    [StaticCall] runs and whatever further calls that code makes, afterwards no
    account has another balance, nonce, code or suicide mark, no account that
    existed has other storage, and refund and logs are the same. *)
Theorem StaticCall_reads_only {U : Uint256} {B : Backend} {CR : Crypto} (UL : Uint256Laws) (BL : BackendLaws) (CL : CryptoLaws)
    (env : Env) (c : ContractRef) (addr : Address) (input : bytes) (smoke : Z) (e e' : EVM) (fuel : nat)
    (r : call_result) (Hok : message_ok env MsgStaticCall c addr input smoke e) (Hf : (Z.to_nat smoke < fuel)%nat)
    (Hb : r_IsByzantium (chainRules env) = true)
    (Hr : StaticCall env fuel c addr input smoke e = Ret (r, e')) :
  reads_same (StateDB e) (StateDB e').
Proof.
  pose proof (mo_state _ _ _ _ _ _ _ Hok) as Hs. destruct Hok as [Hc Ha Hi Hsm _ _ _].
  pose proof (run_loop_good env fuel) as HL. set (n := Z.min (Z.of_nat fuel - 1) max_smoke) in *.
  pose proof (evm_StaticCall_core env n (run_loop env fuel) ltac:(lia) HL c addr input smoke e) as Hw.
  unfold StaticCall in Hr. rewrite Hr, Hb in Hw. destruct Hw as [_ He]; [split; try done; lia|done|].
  pose proof (db_ok_evolves _ _ _ Hs He) as Hs'. apply kept_reads; [apply Hs|apply Hs'|by apply kept_evolves].
Qed.

Definition example_static_call : outcome (call_result * EVM) :=
  StaticCall example_env (Z.to_nat 50001) (AccountRef addr1) addr2 [] 50000 (code_evm return_code).
Definition static_evm : EVM := state_after (code_evm []) example_static_call.

Lemma StaticCall_reads_only_witness : reads_same (StateDB (code_evm return_code)) (StateDB static_evm).
Proof.
  apply (StaticCall_reads_only _ _ _ example_env (AccountRef addr1) addr2 [] 50000 (code_evm return_code)
    static_evm (Z.to_nat 50001) (MkCallResult (replicate 31 0 ++ [7]) false 49982 None)).
  - apply example_message; [discriminate|intros v E; by inversion E|reflexivity|split; discriminate].
  - lia.
  - reflexivity.
  - unfold static_evm, example_static_call. apply result_of_Ret. vm_compute. reflexivity.
Defined.

(** ** Creation *)

Section creation.
Context {U : Uint256} {UL : Uint256Laws} {B : Backend} {BL : BackendLaws} {CR : Crypto} {CL : CryptoLaws} (env : Env).

Inductive creation := PlainCreate | SaltedCreate (salt : Word).

Definition creation_run (fuel : nat) (k : creation) (c : ContractRef) (code : bytes) (smoke v : Z) (e : EVM)
    : outcome (create_result * EVM) :=
  match k with
  | PlainCreate => Create env fuel c code smoke v e
  | SaltedCreate salt => Create2 env fuel c code smoke v salt e
  end.

(** The state in which [create] is entered, and the address it gets. *)
Definition creation_state (k : creation) (c : ContractRef) (s : StateDB.StateDB) : StateDB.StateDB :=
  match k with PlainCreate => (StateDB.GetNonce (ref_Address c) s).2 | SaltedCreate _ => s end.
Definition creation_address (k : creation) (c : ContractRef) (code : bytes) (s : StateDB.StateDB) : Address :=
  match k with
  | PlainCreate => CreateAddress (ref_Address c) (StateDB.GetNonce (ref_Address c) s).1
  | SaltedCreate salt => CreateAddress2 (ref_Address c) (u_Bytes32 salt) (Keccak256 code)
  end.

Record creation_ok (c : ContractRef) (code : bytes) (smoke v : Z) (e : EVM) : Prop := {
  cn_ref : ref_ok c;
  cn_code : len code < 2 ^ 63;
  cn_smoke : 0 ≤ smoke ≤ max_smoke;
  cn_value : 0 ≤ v;
  cn_state : db_ok (StateDB e);
  cn_mode : ro_mode env e = false
}.

Lemma creation_run_ok fuel k c code smoke v e :
  creation_ok c code smoke v e → (Z.to_nat smoke < fuel)%nat →
  owp vm_panic (creation_run fuel k c code smoke v e)
    (creation_post env (λ _, not_created env c (creation_address k c code (StateDB e)) (creation_state k c (StateDB e)))
       e smoke).
Proof.
  intros [Hr Hi Hs Hv Hst Hro] Hf. pose proof (run_loop_good env fuel) as HL.
  set (n := Z.min (Z.of_nat fuel - 1) max_smoke) in *. assert (n ≤ max_smoke) as Hn by lia.
  assert (callee n c code smoke e) as Hc by (split; try done; lia).
  destruct k as [|salt].
  - by apply (evm_Create_ok env n _ Hn HL).
  - apply (evm_create_ok env n _ Hn HL); [done|apply BytesToAddress_addr|done|done].
Qed.
End creation.

(** C32: creations return.  Whatever the constructor does, [Create] and
    [Create2] end within as many loop iterations as they have smoke, hand back
    at most the smoke they got, and keep call depth, mode and a well-formed
    state database. *)
Theorem creation_returns {U : Uint256} {B : Backend} {CR : Crypto} (UL : Uint256Laws) (BL : BackendLaws) (CL : CryptoLaws)
    (env : Env) (k : creation) (c : ContractRef) (code : bytes) (smoke v : Z) (e : EVM) (fuel : nat)
    (Hok : creation_ok env c code smoke v e) (Hf : (Z.to_nat smoke < fuel)%nat) :
  (∃ r e', creation_run env fuel k c code smoke v e = Ret (r, e')
     ∧ 0 ≤ cr_smoke r ≤ smoke ∧ depth e' = depth e ∧ readOnly e' = readOnly e ∧ db_ok (StateDB e'))
  ∨ (∃ p, creation_run env fuel k c code smoke v e = Panic p ∧ vm_panic p).
Proof.
  pose proof (creation_run_ok env fuel k c code smoke v e Hok Hf) as Hw.
  destruct (creation_run _ _ _ _ _ _ _ _) as [[r e']|p|]; [left|right; by exists p|done].
  exists r, e'. destruct Hw as [[[Fd Fr Fs] Hl] _]. split; [done|]. split; [exact Hl|].
  split; [exact Fd|]. split; [exact Fr|]. by eapply db_ok_evolves; [apply (cn_state _ _ _ _ _ _ Hok)|].
Qed.

Lemma example_creation code smoke :
  len code < 2 ^ 63 → 0 ≤ smoke ≤ max_smoke → creation_ok example_env (AccountRef addr1) code smoke 3 (code_evm []).
Proof. intros Hc Hs. split; [done|done|done|done|by apply code_state_ok|done]. Qed.

Definition example_create (code : bytes) : outcome (create_result * EVM) :=
  creation_run example_env (Z.to_nat 50001) PlainCreate (AccountRef addr1) code 50000 3 (code_evm []).

Lemma creation_returns_witness :
  cr_err <$> result_of (example_create return_code) = Some None
  ∧ ∃ r e', example_create return_code = Ret (r, e') ∧ 0 ≤ cr_smoke r ≤ 50000 ∧ db_ok (StateDB e').
Proof.
  assert (cr_err <$> result_of (example_create return_code) = Some None) as Er by (vm_compute; reflexivity).
  split; [exact Er|].
  destruct (creation_returns _ _ _ example_env PlainCreate (AccountRef addr1) return_code 50000 3 (code_evm [])
    (Z.to_nat 50001)) as [(r & e' & E & Hl & _ & _ & Hs)|(p & E & _)].
  - apply example_creation; [reflexivity|split; discriminate].
  - lia.
  - exists r, e'. split; [exact E|]. split; [exact Hl|exact Hs].
  - exfalso. unfold example_create in Er. rewrite E in Er. discriminate Er.
Defined.

(** C31: a failed creation is undone.  From Homestead on, a creation that
    returns an error leaves the state database as it was, or, when the balance
    and depth checks had passed, as it is after the nonce of the creator has
    been increased and the new address has entered the access list (YoloV2):
    nothing of the new account, of the value transferred to it or of what the
    constructor did remains. *)
Theorem failed_creation_undone {U : Uint256} {B : Backend} {CR : Crypto} (UL : Uint256Laws) (BL : BackendLaws) (CL : CryptoLaws)
    (env : Env) (k : creation) (c : ContractRef) (code : bytes) (smoke v : Z) (e e' : EVM) (fuel : nat)
    (r : create_result) (Hok : creation_ok env c code smoke v e) (Hf : (Z.to_nat smoke < fuel)%nat)
    (Hh : r_IsHomestead (chainRules env) = true)
    (Hr : creation_run env fuel k c code smoke v e = Ret (r, e')) (He : cr_err r ≠ None) :
  same_answers (StateDB e') (StateDB e)
  ∨ same_answers (StateDB e')
      (create_entry env c (creation_address k c code (StateDB e)) (creation_state k c (StateDB e))).
Proof.
  pose proof (creation_run_ok env fuel k c code smoke v e Hok Hf) as Hw. rewrite Hr in Hw.
  destruct Hw as [_ Hu]. specialize (Hu Hh He). pose proof (ref_address_ok c (cn_ref _ _ _ _ _ _ Hok)) as Ha.
  pose proof (cn_state _ _ _ _ _ _ Hok) as Hs. set (s0 := creation_state k c (StateDB e)) in *.
  assert (db_ok s0 ∧ state_eq s0 (StateDB e)) as [Hs0 E0].
  { unfold s0, creation_state. destruct k; [|split; [done|apply state_eq_refl]]. split.
    - eapply db_ok_step; [exact Hs|exact (step_GetNonce false (ref_Address c) (StateDB e) Ha)].
    - by apply (query_eq (OpGetNonce (ref_Address c)) (StateDB e) _ 0 (proj1 (proj1 Hs))). }
  destruct Hu as [Hu|Hu]; [left|right].
  - destruct (undone_eq _ _ Hs0 Hu) as [E Hs']. apply db_answers; try done. by eapply state_eq_trans.
  - assert (is_addr (creation_address k c code (StateDB e))) as Haddr by (destruct k; apply BytesToAddress_addr).
    pose proof (db_ok_evolves _ _ _ Hs0 (create_entry_evolves env c _ s0 Ha Haddr)) as Hs1.
    destruct (undone_at_answers _ _ Hs1 Hu) as [E Hs']. by apply db_answers.
Qed.

Definition uncreated_evm : EVM := state_after (code_evm []) (example_create revert_code).

Lemma failed_creation_undone_witness :
  (StateDB.GetNonce addr1 (StateDB uncreated_evm)).1 = 2
  ∧ (same_answers (StateDB uncreated_evm) (StateDB (code_evm []))
     ∨ same_answers (StateDB uncreated_evm)
         (create_entry example_env (AccountRef addr1)
            (creation_address PlainCreate (AccountRef addr1) revert_code (StateDB (code_evm [])))
            (creation_state PlainCreate (AccountRef addr1) (StateDB (code_evm []))))).
Proof.
  split; [vm_compute; reflexivity|].
  apply (failed_creation_undone _ _ _ example_env PlainCreate (AccountRef addr1) revert_code 50000 3 (code_evm [])
    uncreated_evm (Z.to_nat 50001)
    (MkCreateResult [] (replicate 9 0 ++ [17; 1] ++ replicate 9 0) 44988 (Some ErrExecutionReverted))).
  - apply example_creation; [reflexivity|split; discriminate].
  - lia.
  - reflexivity.
  - apply (result_of_Ret (code_evm []) (example_create revert_code)). vm_compute. reflexivity.
  - discriminate.
Defined.

(** ** The machine of a call frame *)

(** C33: the interpreter keeps its machine well-formed.  An iteration of the
    main loop that goes on has used at least one unit of smoke and leaves a
    machine with at most 1024 words on the stack, at most [max_memory] bytes of
    memory, a 64-bit program counter, a contract with 20-byte addresses and a
    well-formed state database; contract and call depth are the same. *)
Theorem interp_step_well_formed {U : Uint256} {B : Backend} {CR : Crypto} (UL : Uint256Laws) (BL : BackendLaws)
    (CL : CryptoLaws) (env : Env) (fuel : nat) (m m' : machine)
    (HI : inv m) (Hf : Smoke (contract m) ≤ Z.of_nat fuel)
    (Hr : interp_step env (evm_calls env (run_loop env fuel)) m = Ret (None, m')) :
  inv m' ∧ Smoke (contract m') < Smoke (contract m) ∧ contract_frame (contract m) (contract m')
  ∧ depth (evm m') = depth (evm m) ∧ readOnly (evm m') = readOnly (evm m).
Proof.
  pose proof (run_loop_good env fuel) as HL. set (n := Z.min (Z.of_nat fuel - 1) max_smoke) in *.
  assert (n ≤ max_smoke) as Hn by lia. pose proof (co_smoke _ (inv_contract _ HI)) as Hs.
  pose proof (wp_interp_step env n _ Hn (evm_calls_good env n _ Hn HL) m HI ltac:(lia)) as Hw.
  unfold wp in Hw. rewrite Hr in Hw. destruct Hw as ([Hc [Hd Hro _]] & _ & HI' & Hlt).
  split; [done|]. split; [lia|]. done.
Qed.

Lemma interp_step_well_formed_witness :
  let x := interp_step example_env (evm_calls example_env (run_loop example_env 200)) jump_machine in
  result_of x = Some None ∧ inv (state_after jump_machine x).
Proof.
  intros x. assert (result_of x = Some None) as Er by (vm_compute; reflexivity). split; [exact Er|].
  apply (interp_step_well_formed _ _ _ example_env 200 jump_machine).
  - exact jump_machine_inv.
  - vm_compute. discriminate.
  - apply (result_of_Ret jump_machine), Er.
Defined.

(** ** The data returned by the identity contract *)

(** Puts a 1 into the first byte of memory, calls the identity contract at
    address 4 with the first word of memory, has 31 bytes of the answer written
    at [ret], and returns what RETURNDATACOPY then delivers. *)
Definition identity_code (ret : Z) : bytes :=
  [0x60; 1; 0x60; 0; 0x53] ++ [0x60; 31; 0x60; ret; 0x60; 32; 0x60; 0; 0x60; 4; 0x5a; 0xfa; 0x50]
  ++ [0x60; 32; 0x60; 0; 0x60; 64; 0x3e] ++ [0x60; 32; 0x60; 64; 0xf3].

Lemma identity_code_aliased :
  ret_data <$> result_of (example_call (MsgCall 0) (identity_code 32)) = Some (1 :: replicate 31 0)
  ∧ ret_data <$> result_of (example_call (MsgCall 0) (identity_code 1)) = Some (1 :: 1 :: replicate 30 0).
Proof. split; vm_compute; reflexivity. Qed.

Section identity.
Context {U : Uint256} {UL : Uint256Laws} {B : Backend} {CR : Crypto} (env : Env).

Lemma GetPtr_lookup off l mem :
  covers off l (mem_Len mem) → mem_Len mem ≤ max_memory →
  ∃ d, GetPtr (int64 (u_Uint64 off)) (int64 (u_Uint64 l)) mem = Ret d ∧ len d = u_val l
    ∧ ∀ i, 0 ≤ i < u_val l → d !! Z.to_nat i = store mem !! Z.to_nat (u_val off + i).
Proof.
  intros Hc Hn. destruct (GetPtr_ok _ _ _ Hc Hn) as (d & E & L). exists d. split; [done|]. split; [done|].
  intros i Hi. unfold GetPtr in E. pose proof (law_range off).
  destruct (covers_uint64 _ _ _ Hc Hn) as [(_ & _ & E1)|(H1 & _ & E1 & _ & E2 & H2 & H3)]; [lia|].
  rewrite E1, E2 in E. revert E. zcmp. unfold slice_checked, mem_Len in *. zcmp. cbn [andb].
  intros E. injection E as <-. unfold slice.
  rewrite lookup_take_lt, lookup_drop by lia. f_equal. lia.
Qed.

Lemma mem_Set_lookup off l v mem :
  covers off l (mem_Len mem) → mem_Len mem ≤ max_memory →
  ∃ mem', mem_Set (u_Uint64 off) (u_Uint64 l) v mem = Ret mem' ∧ mem_Len mem' = mem_Len mem
    ∧ ∀ p, 0 ≤ p → store mem' !! Z.to_nat p =
        if bool_decide (u_val off ≤ p < u_val off + u_val l `min` len v) then v !! Z.to_nat (p - u_val off)
        else store mem !! Z.to_nat p.
Proof.
  intros Hc Hn. destruct (mem_Set_ok _ _ v _ Hc Hn) as (mem' & E & L & _). exists mem'. split; [done|]. split; [done|].
  intros p Hp. unfold mem_Set in E. pose proof (law_range off). pose proof (law_range l).
  destruct (covers_uint64 _ _ _ Hc Hn) as [(E2 & _ & E1)|(H1 & E1 & _ & E2 & _ & H2 & H3)].
  - rewrite E2 in E. injection E as <-. rewrite bool_decide_false; [done|]. lia.
  - rewrite E1, E2, u64_small in E by (unfold is_u64, max_memory in *; lia). revert E. zcmp. intros E. injection E as <-.
    cbn [store]. unfold write_at, mem_Len in *. case_bool_decide.
    + rewrite lookup_app_r, length_take, lookup_app_l, lookup_take_lt by (rewrite ?length_take; lia). f_equal. lia.
    + destruct (Z.ltb_spec p (u_val off)).
      * rewrite lookup_app_l, lookup_take_lt by (rewrite ?length_take; lia). done.
      * rewrite lookup_app_r, length_take, lookup_app_r, length_take, lookup_drop by (rewrite ?length_take; lia).
        f_equal. lia.
Qed.

Ltac run_m :=
  cbv beta iota zeta delta [mbind M_bind mret M_ret get modify lift pop push stack_pop stack_push get_args on_evm
    give_back update_memory update_evm update_contract set_stack set_memory set_evm set_contract
    pc stack memory rstack contract evm call_err ret_alias ret_data leftOverSmoke];
  rewrite ?bool_decide_true by done; cbn [orb].

(** The identity contract answers with the slice it was given. *)
Lemma identity_called loop c input smoke e :
  call_refused env smoke e = None → len input < 2 ^ 58 → 15 + 3 * ((len input + 31) / 32) ≤ smoke →
  ∃ e', evm_StaticCall env loop c (precompile_address 4) input smoke e =
    Ret (MkCallResult input true (smoke - (15 + 3 * ((len input + 31) / 32))) None, e').
Proof.
  intros Hr Hl Hs. unfold evm_StaticCall. rewrite Hr. destruct (evm_query Snapshot e) as [snapshot e1].
  unfold run_code_at. assert (precompile (chainRules env) (precompile_address 4) = Some dataCopy) as ->.
  { unfold precompile. by repeat case_match. }
  unfold RunPrecompiledContract, RequiredSmoke, word_price.
  assert (0 ≤ (len input + 31) / 32 ≤ len input + 31) by (split; [apply Z.div_pos|apply Z.div_le_upper_bound]; lia).
  rewrite !u64_small by (rewrite ?u64_small; unfold is_u64; lia). cbn [mbind outcome_bind]. zcmp.
  cbn. eexists. do 4 f_equal. lia.
Qed.

(** C37: a STATICCALL to the identity contract with enough smoke, from any
    machine whose memory covers the argument and the answer, succeeds, but the
    data it returns are read from the memory of the caller after the answer was
    written there.  Byte [i] of them is at position [inOffset + i] of the memory.
    Outside the part of the memory that the answer was written to it is the byte
    sent to the contract; inside it is the byte of the argument that was written
    over it, another one unless the two windows start at the same place. *)
Theorem identity_return_data_aliased loop m temp addr inOffset inSize retOffset retSize st :
  stack m = temp :: addr :: inOffset :: inSize :: retOffset :: retSize :: st →
  u_Bytes20 addr = precompile_address 4 →
  call_refused env (callSmokeTemp (evm m)) (evm m) = None →
  15 + 3 * ((u_val inSize + 31) / 32) ≤ callSmokeTemp (evm m) →
  mem_Len (memory m) ≤ max_memory →
  covers inOffset inSize (mem_Len (memory m)) → covers retOffset retSize (mem_Len (memory m)) →
  ∃ ret m', opStaticCall (evm_calls env loop) m = Ret ((ret, None), m')
    ∧ stack m' = u_one :: st ∧ len ret = u_val inSize
    ∧ ∀ i, 0 ≤ i < u_val inSize →
        let p := u_val inOffset + i in
        let q := if bool_decide (u_val retOffset ≤ p < u_val retOffset + u_val retSize `min` u_val inSize)
                 then u_val inOffset + (p - u_val retOffset) else p in
        ret !! Z.to_nat i = store (memory m) !! Z.to_nat q
        ∧ store (memory m') !! Z.to_nat p = store (memory m) !! Z.to_nat q.
Proof.
  intros Hst Ha Hr Hs Hm Hi Ho. destruct m as [pc0 st0 mem rs c e]. cbn [stack evm memory] in *. subst st0.
  destruct (GetPtr_lookup _ _ _ Hi Hm) as (args & Ea & La & Aa).
  assert (len args < 2 ^ 58) as Hl.
  { rewrite La. pose proof (law_range inOffset). unfold max_memory in Hm. destruct Hi; lia. }
  rewrite <-La in Hs. destruct (identity_called loop (as_ref c) args _ e Hr Hl Hs) as [e' Ec].
  destruct (mem_Set_lookup _ _ args _ Ho Hm) as (mem' & Es & Ls & As). rewrite <-Ls in Hi, Hm.
  destruct (GetPtr_lookup _ _ _ Hi Hm) as (ret & Er & Lr & Ar).
  eexists ret, _. split.
  { unfold opStaticCall. run_m. rewrite Ea. run_m. cbn [do_StaticCall evm_calls]. rewrite Ha, Ec. unfold finish_call. run_m.
    rewrite Es. run_m. rewrite Er. reflexivity. }
  cbn. split; [done|]. split; [done|]. intros i Hi'. rewrite (Ar i Hi'), As by (pose proof (law_range inOffset); lia).
  rewrite La. case_bool_decide; [|done]. rewrite Aa by lia. done.
Qed.
End identity.

(** A machine about to call the identity contract with the first word of its
    memory, which starts with a 1, and to write the answer one byte further. *)
Definition identity_machine : machine :=
  MkMachine 0 (u_SetUint64 <$> [1000; 4; 0; 32; 1; 31]) (MkMemory (1 :: replicate 63 0) 0) []
    (contract jump_machine) (set_callSmokeTemp 1000 (code_evm [])).

Lemma identity_return_data_aliased_witness :
  ∃ ret m', opStaticCall (evm_calls example_env (run_loop example_env 1)) identity_machine = Ret ((ret, None), m')
    ∧ store (memory identity_machine) !! 1%nat = Some 0 ∧ ret !! 1%nat = Some 1 ∧ ret !! 0%nat = Some 1.
Proof.
  destruct (identity_return_data_aliased example_env (run_loop example_env 1) identity_machine (u_SetUint64 1000)
    (u_SetUint64 4) (u_SetUint64 0) (u_SetUint64 32) (u_SetUint64 1) (u_SetUint64 31) [])
    as (ret & m' & E & _ & _ & H).
  - reflexivity.
  - reflexivity.
  - reflexivity.
  - vm_compute. discriminate.
  - vm_compute. discriminate.
  - right. vm_compute. split; [reflexivity|discriminate].
  - right. vm_compute. split; [reflexivity|discriminate].
  - exists ret, m'. split; [exact E|]. split; [reflexivity|]. split.
    + apply (H 1). vm_compute. split; [discriminate|reflexivity].
    + apply (H 0). vm_compute. split; [discriminate|reflexivity].
Defined.
