(* ===== verification/TransitionProps.v ===== *)
(** * Accounting of a transaction

    [ApplyMessage] over the EVM of Evm.v and the state database of StateDB.v:
    the smoke that the sender has bought is used, refunded or returned to the
    last unit, the block's pool loses exactly the smoke that was used, and the
    transaction creates no money. *)
From S2P Require Import Prelude RlpEncode RlpRaw RlpDecode AccessList StateDB StateRevert Opcodes Params ChainConfig VmBase VmMachine Precompiles VmSmoke VmOps VmTables Evm VmLogic VmAnalysis VmState VmSupply VmSound VmCallsSound EvmSound VmExample EvmProps StateTransition.
Local Open Scope Z_scope.

(** ** Intrinsic smoke *)

Lemma nonzero_bytes_bound data : 0 ≤ nonzero_bytes data ≤ len data.
Proof. unfold nonzero_bytes. pose proof (length_filter (λ b, b ≠ 0) data). lia. Qed.

(** The price of the data without the overflow checks. *)
Definition intrinsic_price (data : bytes) (creation homestead eip2028 : bool) : Z :=
  (if creation && homestead then TxSmokeContractCreation else TxSmoke)
  + nonzero_bytes data * (if eip2028 then TxDataNonZeroSmokeEIP2028 else TxDataNonZeroSmokeFrontier)
  + (len data - nonzero_bytes data) * TxDataZeroSmoke.

(** [IntrinsicSmoke] computes the base price plus the price of every zero
    and non-zero byte of the data, exactly, whenever that price fits in 64
    bits, and reports an overflow otherwise. *)
Theorem IntrinsicSmoke_exact (data : bytes) (creation homestead eip2028 : bool) (Hd : len data < 2 ^ 63) :
  IntrinsicSmoke data creation homestead eip2028 =
    if intrinsic_price data creation homestead eip2028 <? 2 ^ 64
    then Ok (intrinsic_price data creation homestead eip2028) else Err ErrCoreSmokeUintOverflow.
Proof.
  unfold IntrinsicSmoke, intrinsic_price, MaxUint64. pose proof (nonzero_bytes_bound data) as Hn.
  set (base := if creation && homestead then _ else _). assert (20000 ≤ base ≤ 50000) as Hb by (unfold base; case_match; lia).
  set (p := if eip2028 then _ else _). assert (16 ≤ p ≤ 68) as Hp by (unfold p; case_match; lia).
  set (nz := nonzero_bytes data) in *. clearbody base p nz. destruct (Z.ltb_spec 0 (len data)) as [Hl|Hl].
  2: { replace (len data) with 0 in * by lia. replace nz with 0 by lia. zcmp. f_equal. lia. }
  pose proof (Z.div_mod (2 ^ 64 - 1 - base) p ltac:(lia)). pose proof (Z.mod_pos_bound (2 ^ 64 - 1 - base) p ltac:(lia)).
  set (q := (2 ^ 64 - 1 - base) / p) in *. destruct (Z.ltb_spec q nz) as [Ho|Ho].
  { pose proof (Z.mul_le_mono_nonneg_l (q + 1) nz p ltac:(lia) ltac:(lia)). zcmp. done. }
  pose proof (Z.mul_le_mono_nonneg_l nz q p ltac:(lia) ltac:(lia)). pose proof (Z.mul_nonneg_nonneg nz p ltac:(lia) ltac:(lia)).
  rewrite (u64_small (nz * p)), (u64_small (base + nz * p)), (u64_small (len data - nz)) by (unfold is_u64; lia).
  set (sm := base + nz * p) in *.
  pose proof (Z.div_mod (2 ^ 64 - 1 - sm) 4 ltac:(lia)). pose proof (Z.mod_pos_bound (2 ^ 64 - 1 - sm) 4 ltac:(lia)).
  destruct (Z.ltb_spec ((2 ^ 64 - 1 - sm) / 4) (len data - nz)).
  - replace (sm + (len data - nz) * 4 <? 2 ^ 64) with false by lia. done.
  - rewrite (u64_small ((len data - nz) * 4)), u64_small by (unfold is_u64; lia). replace (sm + (len data - nz) * 4 <? 2 ^ 64) with true by lia. done.
Qed.

Lemma IntrinsicSmoke_exact_witness :
  IntrinsicSmoke [0; 1; 0; 7] false true true = Ok (20000 + 2 * 16 + 2 * 4).
Proof. rewrite IntrinsicSmoke_exact by reflexivity. reflexivity. Defined.

(** ** The transition *)

Section accounting.
Context {U : Uint256} {UL : Uint256Laws} {B : Backend} {BL : BackendLaws} {CR : Crypto} {CL : CryptoLaws}.
Context (env : Env) (fuel : nat).
Implicit Types (st : StateTransition).

Abbreviation owp := (owp vm_panic).
Abbreviation state st := (StateDB (st_evm st)).

(** A transaction as it comes from a block: 20-byte addresses, amounts that are
    not negative, and smoke up to [max_smoke] = 2^58. *)
Record msg_ok (msg : Message) : Prop := {
  mg_from : is_addr (From msg);
  mg_to a : To msg = Some a → is_addr a;
  mg_price : 0 ≤ msg_SmokePrice msg;
  mg_smoke : 0 ≤ msg_Smoke msg ≤ max_smoke;
  mg_value : 0 ≤ Value msg;
  mg_data : len (Data msg) < 2 ^ 63
}.

(** Between the phases: the message is the same, the smoke is within what was
    bought, and there are [d] coins more than before at most. *)
Record phase (d : Z) st st' : Prop := {
  ph_msg : st_msg st' = st_msg st;
  ph_ro : readOnly (st_evm st') = readOnly (st_evm st);
  ph_db : db_ok (state st');
  ph_mint : mints d (state st) (state st')
}.

Lemma phase_trans d1 d2 st1 st2 st3 : phase d1 st1 st2 → phase d2 st2 st3 → phase (d1 + d2) st1 st3.
Proof. intros [] []. split; [congruence..|done|by eapply mints_trans]. Qed.

Lemma phase_trans0 d st1 st2 st3 : phase d st1 st2 → phase 0 st2 st3 → phase d st1 st3.
Proof. intros P1 P2. rewrite <- (Z.add_0_r d). by eapply phase_trans. Qed.

Lemma st_query_eq {A} (f : State → A * State) st :
  st_query f st = ((f (state st)).1, set_st_evm (set_StateDB (f (state st)).2 (st_evm st)) st).
Proof. unfold st_query. by rewrite evm_query_eq. Qed.

Lemma phase_query q st s :
  db_ok (state st) → op_wf 0 q → is_query q = true → exec q (state st) = Some s →
  phase 0 st (set_st_evm (set_StateDB s (st_evm st)) st).
Proof. intros Hs Wq Hq Ex. destruct (no_mint_query q _ s Hs Wq Hq Ex). by split. Qed.

Lemma buySmoke_ok st o st' :
  msg_ok (st_msg st) → db_ok (state st) → st_smoke st = 0 → buySmoke st = (o, st') →
  match o with
  | Some _ => phase 0 st st'
  | None => phase (- (msg_Smoke (st_msg st) * msg_SmokePrice (st_msg st))) st st'
      ∧ st_smoke st' = msg_Smoke (st_msg st) ∧ st_initialSmoke st' = msg_Smoke (st_msg st)
      ∧ st_gp st' = st_gp st - msg_Smoke (st_msg st) ∧ msg_Smoke (st_msg st) ≤ st_gp st
  end.
Proof.
  intros [Hf _ Hp Hs _ _] Hdb H0. unfold buySmoke. rewrite st_query_eq. set (a := From (st_msg st)) in *.
  pose proof (phase_query (OpGetBalance a) st _ Hdb Hf eq_refl eq_refl) as P1. set (st1 := set_st_evm _ st).
  set (mg := msg_Smoke (st_msg st) * msg_SmokePrice (st_msg st)).
  assert ((GetBalance a (state st)).1 = bal (state st1) a) as Hb.
  { cbn. rewrite GetBalance_bal. symmetry.
    by apply (bal_exec (OpGetBalance a) (state st) _ 0 a (proj1 (proj1 Hdb))). }
  destruct (Z.ltb_spec (GetBalance a (state st)).1 mg) as [Hl|Hl]; [by intros [= <- <-]|].
  unfold SubSmoke. cbn [st_gp set_st_evm st1]. destruct (Z.ltb_spec (st_gp st) (msg_Smoke (st_msg st))); [by intros [= <- <-]|].
  intros [= <- <-]. destruct (db_ok_debit (state st1) a mg (ph_db _ _ _ P1) Hf ltac:(lia)) as [Hdb2 Hm2].
  split; [|cbn; rewrite H0, u64_small; [done|unfold is_u64, max_smoke in *; lia]].
  split; [done..|exact Hdb2|]. apply (mints_trans 0 (- mg) _ (state st1)); [apply P1|exact Hm2].
Qed.

Lemma preCheck_ok st o st' :
  msg_ok (st_msg st) → db_ok (state st) → st_smoke st = 0 → preCheck st = (o, st') →
  match o with
  | Some _ => phase 0 st st'
  | None => phase (- (msg_Smoke (st_msg st) * msg_SmokePrice (st_msg st))) st st'
      ∧ st_smoke st' = msg_Smoke (st_msg st) ∧ st_initialSmoke st' = msg_Smoke (st_msg st)
      ∧ st_gp st' = st_gp st - msg_Smoke (st_msg st) ∧ msg_Smoke (st_msg st) ≤ st_gp st
  end.
Proof.
  intros Hm Hdb H0. unfold preCheck. destruct (CheckNonce (st_msg st)); [|by apply buySmoke_ok].
  rewrite st_query_eq.
  pose proof (phase_query (OpGetNonce (From (st_msg st))) st _ Hdb (mg_from _ Hm) eq_refl eq_refl) as P1.
  set (st1 := set_st_evm _ st). case_match; [by intros [= <- <-]|]. case_match; [by intros [= <- <-]|]. intros Hb.
  pose proof (buySmoke_ok st1 o st' Hm (ph_db _ _ _ P1) H0 Hb) as H3.
  destruct o; [by apply (phase_trans 0 0 st st1)|]. destruct H3 as [P2 H3]. split; [|done].
  by apply (phase_trans 0 _ st st1).
Qed.

Lemma execute_message_ok st :
  msg_ok (st_msg st) → db_ok (state st) → readOnly (st_evm st) = false → 0 ≤ st_smoke st ≤ max_smoke →
  (Z.to_nat (st_smoke st) < fuel)%nat →
  owp (execute_message env fuel st)
    (λ x, phase 0 st x.2 ∧ 0 ≤ st_smoke x.2 ≤ st_smoke st ∧ st_gp x.2 = st_gp st ∧ st_initialSmoke x.2 = st_initialSmoke st).
Proof.
  intros [Hf Ht Hp Hs Hv Hd] Hdb Hro Hsm Hfu. unfold execute_message. destruct (To (st_msg st)) as [a|] eqn:Et.
  - rewrite st_query_eq. set (st1 := set_st_evm _ st).
    pose proof (phase_query (OpGetNonce (From (st_msg st))) st _ Hdb Hf eq_refl eq_refl) as P1. fold st1 in P1.
    set (st2 := st_update _ st1). assert (phase 0 st1 st2) as P2.
    { set (n := u64 _) in st2. assert (state_step false (state st1) (state st2)) as Hst by (by apply step_SetNonce).
      split; [done..|by eapply db_ok_step; [apply P1|]|]. eapply no_mint_evolves; [apply P1|by apply evolves_1]. }
    assert (to st2 = a) as -> by (unfold to; cbn; by rewrite Et).
    apply owp_bind. eapply owp_mono; [|apply (message_call_ok env fuel (MsgCall (Value (st_msg st)))); [split|done]].
    + intros [r e'] [[[Fd Fr Fs] Hl] _]. cbn [owp snd]. split; [|split; [exact Hl|done]].
      apply (phase_trans 0 0 st st1); [done|]. apply (phase_trans 0 0 st1 st2); [done|].
      split; [done|exact Fr|by eapply db_ok_evolves; [apply P2|]|]. eapply no_mint_evolves; [apply P2|exact Fs].
    + done.
    + by apply Ht.
    + done.
    + done.
    + apply P2.
    + intros v [= <-]. split; [done|]. unfold ro_mode. cbn. by rewrite Hro.
    + done.
  - apply owp_bind. eapply owp_mono; [|apply (creation_run_ok env fuel PlainCreate); [split|done]].
    + intros [r e'] [[[Fd Fr Fs] Hl] _]. cbn [owp snd]. split; [|split; [exact Hl|done]].
      split; [done|exact Fr|by eapply db_ok_evolves|]. by eapply no_mint_evolves.
    + done.
    + done.
    + done.
    + done.
    + done.
    + unfold ro_mode. by rewrite Hro.
Qed.

Lemma refundSmoke_ok st :
  msg_ok (st_msg st) → db_ok (state st) → 0 ≤ st_smoke st ≤ st_initialSmoke st → st_initialSmoke st ≤ max_smoke →
  0 ≤ st_gp st → st_gp st + st_initialSmoke st < 2 ^ 64 →
  ∃ st', refundSmoke st = Ret st' ∧ phase (st_smoke st' * msg_SmokePrice (st_msg st)) st st'
    ∧ st_smoke st ≤ st_smoke st' ∧ 2 * (st_smoke st' - st_smoke st) ≤ st_initialSmoke st - st_smoke st
    ∧ st_initialSmoke st' = st_initialSmoke st ∧ st_gp st' = st_gp st + st_smoke st'.
Proof.
  intros Hm Hdb Hs Hi Hg Hgi. unfold refundSmoke, smokeUsed. unfold max_smoke in *.
  rewrite (u64_small (st_initialSmoke st - st_smoke st)) by (unfold is_u64; lia). set (r0 := GetRefund (state st)).
  assert (0 ≤ r0) as Hr0 by (destruct Hdb as [[[_ [_ Hr _ _] _] _] _]; apply Hr).
  set (r := if r0 <? _ then _ else _). set (u := st_initialSmoke st - st_smoke st) in *.
  assert (0 ≤ r ∧ 2 * r ≤ u) as [Hr1 Hr2].
  { pose proof (Z.div_mod u 2 ltac:(lia)). pose proof (Z.mod_pos_bound u 2 ltac:(lia)). unfold r.
    destruct (Z.ltb_spec r0 (u / 2)); lia. }
  rewrite (u64_small (st_smoke st + r)) by (unfold is_u64; lia). unfold AddSmoke, MaxUint64. cbn [st_smoke st_gp st_update set_st_smoke set_st_evm].
  rewrite (u64_small (2 ^ 64 - 1 - _)), (u64_small (st_gp st + _)) by (unfold is_u64; lia).
  replace (2 ^ 64 - 1 - (st_smoke st + r) <? st_gp st) with false by lia. eexists. split; [reflexivity|].
  split; [|cbn; split_and!; try done; lia]. cbn [st_smoke set_st_gp].
  destruct (db_ok_credit (state st) (From (st_msg st)) ((st_smoke st + r) * msg_SmokePrice (st_msg st)) Hdb (mg_from _ Hm)) as [H1 H2].
  { pose proof (mg_price _ Hm). destruct Hdb as (_ & _ & Hmo). pose proof (Hmo _ (mg_from _ Hm)). nia. }
  split; [done..|exact H1|exact H2].
Qed.

Lemma phase_mono d d' st st' : d ≤ d' → phase d st st' → phase d' st st'.
Proof. intros Hd []. split; [done..|by eapply mints_mono]. Qed.

(** What a transition achieves: [used] is what the result reports. *)
Definition transition_post st (x : result core_error ExecutionResult * StateTransition) : Prop :=
  phase 0 st x.2
  ∧ match x.1 with
    | Err _ => True
    | Ok res =>
        0 ≤ UsedSmoke res ≤ msg_Smoke (st_msg st) ∧ st_gp x.2 = st_gp st - UsedSmoke res
        ∧ intrinsic_price (Data (st_msg st)) (bool_decide (To (st_msg st) = None))
            (r_IsHomestead (chainRules env)) (r_IsIstanbul (chainRules env)) ≤ 2 * UsedSmoke res
        ∧ msg_Smoke (st_msg st) ≤ st_gp st
    end.

(** The end of a transition: refund and fee. *)
Lemma settlement_ok st ret err :
  msg_ok (st_msg st) → is_addr (Coinbase env) → db_ok (state st) → 0 ≤ st_smoke st ≤ st_initialSmoke st →
  st_initialSmoke st ≤ max_smoke → 0 ≤ st_gp st → st_gp st + st_initialSmoke st < 2 ^ 64 →
  ∃ st', (st1 ← refundSmoke st;
          let st2 := st_update (AddBalance (Coinbase env) (smokeUsed st1 * msg_SmokePrice (st_msg st))) st1 in
          Ret (Ok (E := core_error) (MkExecutionResult (smokeUsed st2) err ret), st2))
         = Ret (Ok (MkExecutionResult (st_initialSmoke st - st_smoke st') err ret), st')
    ∧ phase (st_initialSmoke st * msg_SmokePrice (st_msg st)) st st'
    ∧ st_smoke st ≤ st_smoke st' ∧ 2 * (st_smoke st' - st_smoke st) ≤ st_initialSmoke st - st_smoke st
    ∧ st_gp st' = st_gp st + st_smoke st'.
Proof.
  intros Hm Hc Hdb Hs Hi Hg Hgi. destruct (refundSmoke_ok st Hm Hdb Hs Hi Hg Hgi) as (st1 & -> & P1 & H1 & H2 & E1 & E2).
  cbn [mbind outcome_bind]. unfold smokeUsed. cbn [st_initialSmoke st_smoke st_update set_st_evm]. rewrite E1.
  unfold max_smoke in *. rewrite u64_small by (unfold is_u64; lia). set (used := st_initialSmoke st - st_smoke st1).
  exists (st_update (AddBalance (Coinbase env) (used * msg_SmokePrice (st_msg st))) st1).
  split; [reflexivity|]. split; [|done]. destruct (db_ok_credit (state st1) (Coinbase env) (used * msg_SmokePrice (st_msg st)) (ph_db _ _ _ P1) Hc) as [Hd Hmi].
  { pose proof (mg_price _ Hm). pose proof (ph_db _ _ _ P1) as (_ & _ & Hmo). pose proof (Hmo _ Hc). unfold used. nia. }
  replace (st_initialSmoke st * msg_SmokePrice (st_msg st)) with
    (st_smoke st1 * msg_SmokePrice (st_msg st) + used * msg_SmokePrice (st_msg st)) by (unfold used; lia).
  eapply phase_trans; [exact P1|]. by split.
Qed.

Lemma TransitionDb_ok st :
  msg_ok (st_msg st) → is_addr (Coinbase env) → db_ok (state st) → readOnly (st_evm st) = false →
  st_smoke st = 0 → is_u64 (st_gp st) → (Z.to_nat (msg_Smoke (st_msg st)) < fuel)%nat →
  owp (TransitionDb env fuel st) (transition_post st).
Proof.
  intros Hm Hc Hdb Hro H0 Hg Hfu. unfold TransitionDb. destruct (preCheck st) as [o st1] eqn:Ep.
  apply preCheck_ok in Ep; [|done..]. destruct o as [err|]; [by split|].
  destruct Ep as (P1 & E1 & E2 & E3 & Hle). pose proof (mg_smoke _ Hm) as Hsm. pose proof (mg_price _ Hm) as Hpr.
  set (mg := msg_Smoke (st_msg st) * msg_SmokePrice (st_msg st)) in *. assert (0 ≤ mg) as Hmg by (unfold mg; nia).
  rewrite (ph_msg _ _ _ P1). pose proof (mg_data _ Hm) as Hdata. rewrite IntrinsicSmoke_exact by done.
  set (price := intrinsic_price _ _ _ _). assert (0 ≤ price) as Hprice.
  { unfold price, intrinsic_price. pose proof (nonzero_bytes_bound (Data (st_msg st))). repeat case_match; lia. }
  assert (phase 0 st st1) as P1' by (by eapply phase_mono; [|exact P1]; lia).
  destruct (price <? 2 ^ 64); [|by split]. destruct (Z.ltb_spec (st_smoke st1) price) as [|Hin]; [by split|].
  set (st2 := set_st_smoke _ st1). set (ce := if 0 <? Z.sgn _ then _ else _).
  assert (phase 0 st2 (set_st_evm ce.2 st2)) as P3.
  { unfold ce. case_match; [|split; [done..|apply P1|by apply no_mint_bal]]. rewrite CanTransfer_eq. cbn [snd].
    apply (phase_query (OpGetBalance (From (st_msg st))) st2); try done; [apply P1|apply (mg_from _ Hm)]. }
  destruct ce as [can e]. cbn [snd] in P3. set (st3 := set_st_evm e st2) in *.
  assert (phase (- mg) st st3) as P4 by (eapply phase_trans0; [|exact P3]; destruct P1; by split).
  destruct can; cbn [negb]; [|split; [eapply phase_mono; [|exact P4]; lia|done]].
  assert (st_msg st3 = st_msg st) as Em by apply P4. apply owp_bind.
  eapply owp_mono; [|apply execute_message_ok; rewrite ?Em; cbn; try done].
  - intros [[ret err] st4] (P5 & Hs4 & Eg4 & Ei4). cbn [snd] in *. cbn in Hs4, Eg4, Ei4. rewrite E1 in Hs4.
    assert (phase (- mg) st st4) as P6 by (by eapply phase_trans0).
    destruct (settlement_ok st4 ret err) as (st5 & E & P7 & H1 & H2 & Eg5);
      rewrite ?Eg4, ?Ei4, ?E3, ?E2; try apply P5; try done; [by rewrite (ph_msg _ _ _ P6)|unfold is_u64 in *; lia..|].
    rewrite (ph_msg _ _ _ P6) in E, P7. rewrite Ei4, E2 in *. fold mg in P7. cbv beta iota zeta in E |- *. rewrite E. split; [|cbn; lia].
    replace 0 with (- mg + mg) by lia. by eapply phase_trans.
  - apply P3.
  - pose proof (ph_ro _ _ _ P3) as R3. cbn in R3. by rewrite R3, (ph_ro _ _ _ P1).
  - lia.
  - lia.
Qed.
End accounting.

(** C4: smoke is accounted for.  Applying a transaction ends (with fuel for one
    iteration more than the transaction has smoke) without a panic other than
    those of [vm_panic]; in particular the block's pool never overflows.  When
    the transaction is not rejected, the smoke it has used is at most the smoke
    it has bought, the block's pool has shrunk by exactly the used smoke, and
    the refund has left at least half of the intrinsic price to pay. *)
Theorem ApplyMessage_accounts {U : Uint256} {B : Backend} {CR : Crypto} (UL : Uint256Laws) (BL : BackendLaws)
    (CL : CryptoLaws) (env : Env) (fuel : nat) (e : EVM) (msg : Message) (gp : Z)
    (Hm : msg_ok msg) (Hc : is_addr (Coinbase env)) (Hdb : db_ok (StateDB e)) (Hro : readOnly e = false)
    (Hg : is_u64 gp) (Hf : (Z.to_nat (msg_Smoke msg) < fuel)%nat) :
  (∃ p, ApplyMessage env fuel e msg gp = Panic p ∧ vm_panic p)
  ∨ (∃ err st, ApplyMessage env fuel e msg gp = Ret (Err err, st))
  ∨ (∃ res st, ApplyMessage env fuel e msg gp = Ret (Ok res, st)
       ∧ 0 ≤ UsedSmoke res ≤ msg_Smoke msg ∧ st_gp st = gp - UsedSmoke res
       ∧ intrinsic_price (Data msg) (bool_decide (To msg = None))
           (r_IsHomestead (chainRules env)) (r_IsIstanbul (chainRules env)) ≤ 2 * UsedSmoke res).
Proof.
  pose proof (TransitionDb_ok env fuel (NewStateTransition e msg gp) Hm Hc Hdb Hro eq_refl Hg Hf) as Hw.
  unfold ApplyMessage. destruct (TransitionDb _ _ _) as [[[res|err] st]|p|]; [right; right|right; left|left|done].
  - exists res, st. destruct Hw as (_ & H1 & H2 & H3 & _). done.
  - by exists err, st.
  - by exists p.
Qed.

(** C24: a transaction creates no money.  Over any finite set of accounts that
    includes those the transaction has touched (its sender, the coinbase, and
    whatever its code calls, creates or destructs), the sum of the balances
    after [ApplyMessage] is at most the sum before it; fee, refund and returned
    smoke included, and also when the transaction is rejected. *)
Theorem ApplyMessage_no_mint {U : Uint256} {B : Backend} {CR : Crypto} (UL : Uint256Laws) (BL : BackendLaws)
    (CL : CryptoLaws) (env : Env) (fuel : nat) (e : EVM) (msg : Message) (gp : Z)
    (r : result core_error ExecutionResult) (st : StateTransition)
    (Hm : msg_ok msg) (Hc : is_addr (Coinbase env)) (Hdb : db_ok (StateDB e)) (Hro : readOnly e = false)
    (Hg : is_u64 gp) (Hf : (Z.to_nat (msg_Smoke msg) < fuel)%nat)
    (Hr : ApplyMessage env fuel e msg gp = Ret (r, st)) :
  no_mint (StateDB e) (StateDB (st_evm st)) ∧ db_ok (StateDB (st_evm st)).
Proof.
  pose proof (TransitionDb_ok env fuel (NewStateTransition e msg gp) Hm Hc Hdb Hro eq_refl Hg Hf) as Hw.
  unfold ApplyMessage in Hr. rewrite Hr in Hw. destruct Hw as [[_ _ H1 H2] _]. by split.
Qed.

(** The pool of a block loses smoke to a rejected transaction.  A message
    that passes the checks on nonce, balance and pool but cannot pay its
    intrinsic smoke is rejected, yet its smoke stays taken out of the pool. *)
Theorem rejected_message_keeps_pool_smoke {U : Uint256} {B : Backend} {CR : Crypto} (BL : BackendLaws)
    (env : Env) (fuel : nat) (e : EVM) (msg : Message) (gp : Z)
    (Hm : msg_ok msg) (Hdb : db_ok (StateDB e)) (Hn : CheckNonce msg = false)
    (Hb : msg_Smoke msg * msg_SmokePrice msg ≤ (StateDB.GetBalance (From msg) (StateDB e)).1)
    (Hg : msg_Smoke msg ≤ gp)
    (Hi : msg_Smoke msg < intrinsic_price (Data msg) (bool_decide (To msg = None))
            (r_IsHomestead (chainRules env)) (r_IsIstanbul (chainRules env)) < 2 ^ 64) :
  ∃ st, ApplyMessage env fuel e msg gp = Ret (Err ErrIntrinsicSmoke, st) ∧ st_gp st = gp - msg_Smoke msg.
Proof.
  unfold ApplyMessage, TransitionDb. set (st := NewStateTransition e msg gp).
  destruct (preCheck st) as [o st1] eqn:Ep. pose proof Ep as Ep'. apply preCheck_ok in Ep'; [|done..].
  assert (o = None) as ->.
  { revert Ep. unfold preCheck. cbn [st st_msg NewStateTransition]. rewrite Hn. unfold buySmoke. rewrite st_query_eq.
    cbn [fst snd st_msg st_evm NewStateTransition st]. unfold SubSmoke. cbn [st_gp set_st_evm].
    destruct (_ <? msg_Smoke msg * _) eqn:E1; [exfalso; apply Z.ltb_lt in E1; exact (proj1 (Z.lt_nge _ _) E1 Hb)|].
    change (st_gp st) with gp. zcmp. intros E. by injection E as <-. }
  destruct Ep' as (P1 & E1 & _ & E3 & _). rewrite (ph_msg _ _ _ P1), E1. cbn [st_msg NewStateTransition st] in *.
  rewrite IntrinsicSmoke_exact by apply (mg_data _ Hm). destruct Hi as [Hi1 Hi2]. zcmp. by exists st1.
Qed.

(** ** A transaction in the example world *)

(** The account [addr1] has 100 coins; smoke is free. *)
Definition free_message (to : option Address) (smoke v : Z) : Message := MkMessage addr1 to 0 smoke v 1 true [].

Lemma free_message_ok to smoke v :
  (∀ a, to = Some a → is_addr a) → 0 ≤ smoke ≤ max_smoke → 0 ≤ v → msg_ok (free_message to smoke v).
Proof. intros Ha Hs Hv. split; [done|exact Ha|done|exact Hs|exact Hv|done]. Qed.

Definition example_transaction := ApplyMessage example_env (Z.to_nat 60001) (code_evm return_code)
  (free_message (Some addr2) 60000 7) 1000000.

Lemma example_message_addr a : Some addr2 = Some a → is_addr a.
Proof. by intros [= <-]. Qed.

Lemma ApplyMessage_accounts_witness :
  ∃ res st, example_transaction = Ret (Ok res, st) ∧ 0 ≤ UsedSmoke res ≤ 60000 ∧ st_gp st = 1000000 - UsedSmoke res.
Proof.
  assert (result_of example_transaction = Some (Ok (MkExecutionResult 20018 None (replicate 31 0 ++ [7])))) as Er
    by (vm_compute; reflexivity).
  destruct (ApplyMessage_accounts _ _ _ example_env (Z.to_nat 60001) (code_evm return_code)
    (free_message (Some addr2) 60000 7) 1000000) as [(p & E & _)|[(err & st & E)|(res & st & E & Hu & Hg & _)]].
  - apply free_message_ok; [exact example_message_addr|split; discriminate|discriminate].
  - reflexivity.
  - apply code_state_ok. reflexivity.
  - reflexivity.
  - split; [discriminate|reflexivity].
  - cbn [msg_Smoke free_message]. lia.
  - exfalso. unfold example_transaction in Er. rewrite E in Er. discriminate Er.
  - exfalso. unfold example_transaction in Er. rewrite E in Er. discriminate Er.
  - exists res, st. split; [exact E|]. split; [exact Hu|exact Hg].
Defined.

Lemma ApplyMessage_no_mint_witness :
  result_of example_transaction = Some (Ok (MkExecutionResult 20018 None (replicate 31 0 ++ [7])))
  ∧ no_mint (StateDB (code_evm return_code))
      (StateDB (st_evm (state_after (NewStateTransition (code_evm []) (free_message None 0 0) 0) example_transaction))).
Proof.
  assert (result_of example_transaction = Some (Ok (MkExecutionResult 20018 None (replicate 31 0 ++ [7])))) as Er
    by (vm_compute; reflexivity).
  split; [exact Er|].
  apply (ApplyMessage_no_mint _ _ _ example_env (Z.to_nat 60001) (code_evm return_code)
    (free_message (Some addr2) 60000 7) 1000000 (Ok (MkExecutionResult 20018 None (replicate 31 0 ++ [7])))).
  - apply free_message_ok; [exact example_message_addr|split; discriminate|discriminate].
  - reflexivity.
  - apply code_state_ok. reflexivity.
  - reflexivity.
  - split; [discriminate|reflexivity].
  - cbn [msg_Smoke free_message]. lia.
  - fold example_transaction. apply result_of_Ret, Er.
Defined.

(** 15000 units of smoke do not pay for a transaction. *)
Definition cheap_message : Message := MkMessage addr1 (Some addr2) 0 15000 0 0 false [].

Lemma rejected_message_keeps_pool_smoke_witness :
  ∃ st, ApplyMessage example_env 5 (code_evm []) cheap_message 100000 = Ret (Err ErrIntrinsicSmoke, st)
    ∧ st_gp st = 85000.
Proof.
  destruct (rejected_message_keeps_pool_smoke _ example_env 5 (code_evm []) cheap_message 100000) as (st & E & Hg).
  - split; [reflexivity|exact example_message_addr|discriminate|split; discriminate|discriminate|reflexivity].
  - apply code_state_ok. reflexivity.
  - reflexivity.
  - vm_compute. discriminate.
  - vm_compute. discriminate.
  - split; reflexivity.
  - exists st. split; [exact E|exact Hg].
Defined.
