(* ===== verification/BlockProps.v ===== *)
(** * Accounting of a block

    [Process] over the EVM of Evm.v and the state database of StateDB.v: the
    transactions of a block end, their receipts add up to the smoke that the
    block has used, which is within its limit, and they create no money. *)
From S2P Require Import Prelude RlpEncode RlpRaw RlpDecode AccessList StateDB StateRevert StateCommit Opcodes Params ChainConfig VmBase VmMachine Precompiles VmSmoke VmOps VmTables Evm StateTransition Transaction Receipts BlockHeader VmLogic VmState VmSupply VmSound EvmSound StateFinal TransitionProps BlockProcess.
Local Open Scope Z_scope.

Section block.
Context {U : Uint256} {UL : Uint256Laws} {B : Backend} {BL : BackendLaws} {CR : Crypto} {CL : CryptoLaws}
  {MR : MapRange} {ML : MapRangeLaws}.
Context (precompiled : PrecompiledAddresses) (fuel : nat).

Abbreviation owp := (owp vm_panic).

(** A transaction as it is decoded from a block. *)
Record tx_ok (tx : Transaction) : Prop := {
  to_recipient a : Recipient (tx_data tx) = Some a → is_addr a;
  to_price : 0 ≤ Price (tx_data tx);
  to_smoke : 0 ≤ tx_SmokeLimit (tx_data tx) ≤ max_smoke;
  to_amount : 0 ≤ Amount (tx_data tx);
  to_payload : len (Payload (tx_data tx)) < 2 ^ 63;
  to_cache : cache_ok tx;
  to_fuel : (Z.to_nat (tx_SmokeLimit (tx_data tx)) < fuel)%nat
}.

(** ** Senders *)

Lemma recoverPlain_addr h r s v homestead a : recoverPlain h r s v homestead = Ok a → is_addr a.
Proof.
  unfold recoverPlain. case_if; [done|]. case_if; [done|]. destruct (Ecrecover _ _) as [pub|]; [|done].
  case_if; [done|]. intros [= <-]. unfold is_addr. by rewrite length_drop, law_keccak_length.
Qed.

Lemma Signer_Sender_addr s d a : Signer_Sender s d = Ok a → is_addr a.
Proof. destruct s; cbn; [apply recoverPlain_addr..|]. case_if; [|case_if; [done|]]; apply recoverPlain_addr. Qed.

Lemma AsMessage_ok s tx msg : tx_ok tx → (AsMessage s tx).1 = Ok msg → msg_ok msg ∧ (Z.to_nat (msg_Smoke msg) < fuel)%nat.
Proof.
  intros [] Hm. destruct (Sender_uncached s tx to_cache0) as (E1 & E2 & _). unfold AsMessage in Hm.
  destruct (Sender s tx) as [from tx']. cbn [fst snd] in *. subst from. destruct (Signer_Sender s (tx_data tx)) as [a|] eqn:Ea; [|done].
  cbn in Hm. injection Hm as <-. rewrite E2. split; [|done]. split; cbn; try done. by eapply Signer_Sender_addr.
Qed.

(** ** Around a transaction *)

(** Steps that leave the mode alone and create no money. *)
Definition tame (s s' : StateDB.StateDB) : Prop := db_ok s' ∧ no_mint s s'.

Lemma tame_trans s1 s2 s3 : tame s1 s2 → tame s2 s3 → tame s1 s3.
Proof. intros [_ M1] [D2 M2]. split; [done|by eapply no_mint_trans]. Qed.

Lemma tame_same s s' :
  db_ok s → state_wf s' → stateObjects s' = stateObjects s → trie s' = trie s → snap s' = snap s → tame s s'.
Proof.
  intros (_ & Hc & Hm) Hw E1 E2 E3. assert (∀ a, bal s' a = bal s a) as Hb by (intros a; by apply bal_same).
  split; [|by apply no_mint_bal]. split; [done|]. split; [by eapply codes_same|]. intros a Ha. rewrite Hb. by apply Hm.
Qed.

Lemma Prepare_tame th bh i s : db_ok s → tame s (StateDB.Prepare th bh i s).
Proof.
  intros Hs. pose proof Hs as ((W & Hr & x & Hd) & _). apply tame_same; [done|..|done|done|done].
  destruct W as [[] [] We]. split; [split; [by split|split; [apply newAccessList_ok|done..]|done]|].
  split; [by destruct Hr|by exists x].
Qed.

Lemma AddAddress_tame a s : db_ok s → tame s (StateDB.AddAddressToAccessList a s).
Proof.
  intros Hs. assert (evolves false s (StateDB.AddAddressToAccessList a s)) as He by exact (evolves_1 _ _ _ (step_AddAddress false a s)).
  split; [by eapply db_ok_evolves|by eapply no_mint_evolves].
Qed.

Lemma tame_refl s : db_ok s → tame s s.
Proof. intros Hs. split; [done|by apply no_mint_bal]. Qed.

Lemma warm_tame env msg s : db_ok s → tame s (warm_addresses precompiled env msg s).
Proof.
  intros Hs. unfold warm_addresses. case_match; [|by apply tame_refl].
  pose proof (AddAddress_tame (From msg) s Hs) as H1. set (s1 := StateDB.AddAddressToAccessList _ s) in *.
  set (s2 := match To msg with Some _ => _ | None => _ end).
  assert (tame s s2) as H2.
  { unfold s2. destruct (To msg); [|done]. eapply tame_trans; [exact H1|]. apply AddAddress_tame, H1. }
  clearbody s2. clear s1 H1. revert s2 H2. induction (ActivePrecompiles _ _) as [|a l IH]; intros s2 H2; [done|].
  cbn [foldl]. apply IH. eapply tame_trans; [exact H2|]. apply AddAddress_tame, H2.
Qed.

(** ** One transaction *)

Record applied (gp used : Z) (e : EVM) (x : result core_error (Receipt * Z * Z) * EVM) : Prop := {
  ap_state : tame (StateDB e) (StateDB x.2);
  ap_mode : readOnly x.2 = false;
  ap_receipt r gp' used' : x.1 = Ok (r, gp', used') →
    0 ≤ r_SmokeUsed r ∧ gp' = gp - r_SmokeUsed r ∧ 0 ≤ gp' ∧ used' = used + r_SmokeUsed r
    ∧ CumulativeSmokeUsed r = used'
}.

Lemma applyTransaction_ok env msg tx gp used e :
  r_IsByzantium (chainRules env) = true → is_addr (Coinbase env) →
  msg_ok msg → (Z.to_nat (msg_Smoke msg) < fuel)%nat →
  db_ok (StateDB e) → readOnly e = false → 0 ≤ gp → 0 ≤ used → gp + used < 2 ^ 64 →
  owp (applyTransaction precompiled fuel env msg tx gp used e) (applied gp used e).
Proof.
  intros Hby Hcb Hm Hf Hdb Hro Hgp Hu Hgu. unfold applyTransaction. set (env' := NewEVMTxContext msg env).
  set (e1 := set_StateDB _ e). pose proof (warm_tame env' msg (StateDB e) Hdb) as Hw.
  assert (tame (StateDB e) (StateDB e1)) as He1 by exact Hw.
  assert (is_u64 gp) as Hg by (unfold is_u64; lia).
  pose proof (TransitionDb_ok env' fuel (NewStateTransition e1 msg gp) Hm Hcb (proj1 He1) Hro eq_refl Hg Hf) as Htr.
  apply owp_bind. unfold ApplyMessage. eapply owp_mono; [|exact Htr]. clear Htr.
  intros [r st] [[_ Hmode Hdb' Hmint] Hr]. cbn [fst snd] in *.
  assert (tame (StateDB e) (StateDB (st_evm st))) as Ht by (eapply tame_trans; [exact He1|by split]).
  assert (readOnly (st_evm st) = false) as Hro' by exact (eq_trans Hmode Hro).
  destruct r as [res|err]; [|by change (applied gp used e (Err err, st_evm st)); split].
  change (r_IsByzantium (chainRules env')) with (r_IsByzantium (chainRules env)). rewrite Hby.
  cbn [mbind outcome_bind]. destruct (Finalise_ok true (StateDB (st_evm st)) (proj1 Ht)) as [Hd2 Hm2].
  destruct Hr as (Hu1 & Eg & _ & Hle). cbn in Hle, Hu1. split; cbn [fst snd].
  - eapply tame_trans; [exact Ht|by split].
  - exact Hro'.
  - intros rc gp' used' [= <- <- <-]. cbn. cbn in Eg. rewrite Eg. rewrite u64_small by (unfold is_u64; lia). lia.
Qed.

(** ** A block *)

(** The receipts carry the running total of the used smoke. *)
Fixpoint accounted (used : Z) (receipts : list Receipt) (used' : Z) : Prop :=
  match receipts with
  | [] => used' = used
  | r :: rs => 0 ≤ r_SmokeUsed r ∧ CumulativeSmokeUsed r = used + r_SmokeUsed r
               ∧ accounted (used + r_SmokeUsed r) rs used'
  end.

Record processed (txs : list Transaction) (gp used : Z) (e : EVM)
    (x : result process_error (list Receipt * list Log * Z * Z) * EVM) : Prop := {
  pr_state : tame (StateDB e) (StateDB x.2);
  pr_receipts rs logs gp' used' : x.1 = Ok (rs, logs, gp', used') →
    length rs = length txs ∧ accounted used rs used' ∧ logs = concat (map r_Logs rs)
    ∧ gp' + used' = gp + used ∧ 0 ≤ gp'
}.

Lemma process_transactions_ok signer env bh i txs gp used e :
  r_IsByzantium (chainRules env) = true → is_addr (Coinbase env) → Forall tx_ok txs →
  db_ok (StateDB e) → readOnly e = false → 0 ≤ gp → 0 ≤ used → gp + used < 2 ^ 64 →
  owp (process_transactions precompiled fuel signer env bh i txs gp used e) (processed txs gp used e).
Proof.
  intros Hby Hcb Htx. revert i gp used e. induction Htx as [|tx txs Hok _ IH]; intros i gp used e Hdb Hro Hgp Hu Hgu.
  { split; cbn [fst snd]; [by apply tame_refl|]. intros rs logs gp' used' [= <- <- <- <-]. repeat split; done || lia. }
  cbn [process_transactions]. destruct ((AsMessage signer tx).1) as [msg|err] eqn:Em.
  2: { by split; [apply tame_refl|]. }
  destruct (AsMessage_ok _ _ _ Hok Em) as [Hm Hf]. set (e1 := set_StateDB _ e).
  assert (tame (StateDB e) (StateDB e1)) as H1 by exact (Prepare_tame (tx_Hash tx) bh i (StateDB e) Hdb).
  apply owp_bind. eapply owp_mono; [|apply applyTransaction_ok; [exact Hby|exact Hcb|exact Hm|exact Hf|apply H1|exact Hro|lia..]].
  intros [r e2] [Hs Hmo Hr]. cbn [fst snd] in *. pose proof (tame_trans _ _ _ H1 Hs) as H2.
  destruct r as [[[rc gp'] used']|err]; [|by split].
  destruct (Hr rc gp' used' eq_refl) as (Hn & Eg & Hg' & Eu & Ec). apply owp_bind.
  eapply owp_mono; [|apply IH; [apply H2|exact Hmo|lia..]]. intros [r2 e3] [Hs3 Hr3]. cbn [fst snd] in *.
  split; cbn [fst snd]; [by eapply tame_trans|]. intros rs logs gp'' used'' E.
  destruct r2 as [[[[rs2 logs2] gp2] used2]|err]; [|done]. injection E as <- <- <- <-.
  destruct (Hr3 rs2 logs2 gp2 used2 eq_refl) as (El & Ha & Elog & Eg2 & Hg2).
  split; [cbn; lia|]. split; [cbn; rewrite <- Eu; split; [done|split; [congruence|exact Ha]]|].
  split; [by rewrite Elog|lia].
Qed.
End block.

(** C8: a block adds up.  From Byzantium on, processing the transactions of a
    block ends, without a panic other than those of [vm_panic], and hands to
    the consensus engine a well-formed state database with no more money than
    before.  When the block is not rejected there is one receipt per
    transaction, the cumulative smoke of each receipt is the sum up to it, the
    total that [Process] returns is the sum of all and within the smoke limit
    of the header, and the logs are those of the receipts in order. *)
Theorem Process_accounts {U : Uint256} {B : Backend} {CR : Crypto} {MR : MapRange} (UL : Uint256Laws) (BL : BackendLaws)
    (CL : CryptoLaws) (ML : MapRangeLaws) (precompiled : PrecompiledAddresses) (fuel : nat)
    (config : ChainConfig) (dao : Address * list Address) (getHash : Z → Hash) (beneficiary : Address)
    (engine_Finalize : Header → list Header → StateDB.StateDB → outcome StateDB.StateDB)
    (cfg : VmConfig) (block : Block) (s : StateDB.StateDB)
    (Hby : IsByzantium config (Some (h_Number (b_Header block))) = true)
    (Hdao : DAOForkBlock config ≠ Some (h_Number (b_Header block)))
    (Hcb : is_addr beneficiary) (Hl : is_u64 (h_SmokeLimit (b_Header block)))
    (Htx : Forall (tx_ok fuel) (Transactions block)) (Hdb : db_ok s) :
  let process := Process precompiled fuel config dao getHash beneficiary engine_Finalize cfg block s in
  (∃ p, process = Panic p ∧ vm_panic p)
  ∨ ∃ s1, db_ok s1 ∧ no_mint s s1
      ∧ ((∃ err, process = Ret (Err err, s1))
         ∨ ∃ receipts logs used,
             process = (s' ← engine_Finalize (b_Header block) (b_Uncles block) s1; Ret (Ok (receipts, logs, used), s'))
             ∧ length receipts = length (Transactions block) ∧ accounted 0 receipts used
             ∧ used ≤ h_SmokeLimit (b_Header block) ∧ logs = concat (map r_Logs receipts)).
Proof.
  unfold is_u64 in Hl. set (limit := h_SmokeLimit (b_Header block)) in *. unfold Process, AddSmoke, MaxUint64. fold limit.
  rewrite (u64_small (2 ^ 64 - 1 - limit)), (u64_small (0 + limit)) by (unfold is_u64; lia). zcmp.
  cbn [mbind outcome_bind]. rewrite (bool_decide_false _ Hdao), andb_false_r.
  set (env := NewEVMBlockContext _ _ _ _ _).
  pose proof (process_transactions_ok precompiled fuel (MakeSigner config (Some (h_Number (b_Header block)))) env
    (Block_Hash block) 0 (Transactions block) (0 + limit) 0 (NewEVM s) Hby Hcb Htx Hdb eq_refl ltac:(lia) ltac:(lia) ltac:(lia)) as Hw.
  destruct (process_transactions _ _ _ _ _ _ _ _ _ _) as [[r e]|p|]; [right|left; by exists p|done].
  destruct Hw as [[Hd Hm] Hr]. cbn [fst snd] in *. exists (StateDB e). split; [exact Hd|]. split; [exact Hm|].
  destruct r as [[[[rs lg] gp] us]|err]; [right|left; by exists err]. exists rs, lg, us. split; [reflexivity|].
  destruct (Hr rs lg gp us eq_refl) as (H1 & H2 & H3 & H4 & H5). repeat split; [done|done|lia|done].
Qed.

(** ** A block with one transaction *)

From S2P Require Import Uint256Model VmExample.

#[local] Instance sorted_range : MapRange := {| range_set := elements; range_storage := map_to_list |}.
Lemma sorted_range_laws : MapRangeLaws.
Proof. by split. Qed.

Definition block_config : ChainConfig :=
  MkChainConfig (Some 420) (Some 0) None false (Some 0) zero_hash (Some 0) (Some 0) (Some 0) (Some 0) (Some 0) (Some 0) None None None.
Definition block_tx : Transaction :=
  default toy_tx (@SignTx toy_crypto toy_signing
    (MkTransaction (MkTxdata 0 0 50000 (Some addr2) 0 [] 0 0 0) None) (EIP155Signer 420) true).
Definition one_block : Block := MkBlock (MkHeader zero_hash zero_hash addr1 zero_hash zero_hash zero_hash zero_bloom 1 5 10000000 0 1000 [] zero_hash []) [block_tx] [].
Definition run_block : outcome (result process_error (list Receipt * list Log * Z) * StateDB.StateDB) :=
  @Process uint256_model example_backend toy_crypto sorted_range (init (λ t, t.*1)) (Z.to_nat 50001) block_config
    (addr1, []) (λ _, zero_hash) addr1 (λ _ _ s, Ret s) (MkVmConfig false false (λ _, false)) one_block (code_state return_code).

Definition used_by (r : result process_error (list Receipt * list Log * Z)) : option Z :=
  match r with Ok (_, _, used) => Some used | Err _ => None end.

Lemma toy_crypto_laws : @CryptoLaws toy_crypto.
Proof.
  split; [exact (@law_keccak_length _ example_crypto_laws)|]. intros h s pub [= <-]. reflexivity.
Qed.

Lemma block_tx_ok : @tx_ok toy_crypto (Z.to_nat 50001) block_tx.
Proof.
  split; [|by vm_compute..|].
  - intros a [= <-]. reflexivity.
  - change (Z.to_nat 50000 < Z.to_nat 50001)%nat. lia.
Qed.

Lemma run_block_used : used_by <$> result_of run_block = Some (Some 20018).
Proof. vm_compute. reflexivity. Qed.
Lemma run_block_returns p : run_block ≠ Panic p.
Proof. intros E. pose proof run_block_used as Eu. rewrite E in Eu. discriminate Eu. Qed.

Lemma run_block_accepted err s : run_block ≠ Ret (Err err, s).
Proof. intros E. pose proof run_block_used as Eu. rewrite E in Eu. discriminate Eu. Qed.

Lemma Process_accounts_witness :
  ∃ s1 receipts used, db_ok s1 ∧ no_mint (code_state return_code) s1
    ∧ run_block = Ret (Ok (receipts, concat (map r_Logs receipts), used), s1) ∧ accounted 0 receipts used.
Proof.
  destruct (@Process_accounts uint256_model example_backend toy_crypto sorted_range uint256_model_laws example_backend_laws
    toy_crypto_laws sorted_range_laws (init (λ t, t.*1)) (Z.to_nat 50001) block_config (addr1, []) (λ _, zero_hash) addr1
    (λ _ _ s, Ret s) (MkVmConfig false false (λ _, false)) one_block (code_state return_code))
    as [(p & Ep & _)|(s1 & Hd & Hm & [[err Er]|(receipts & logs & used & Er & _ & Ha & _ & Hl)])].
  - reflexivity.
  - discriminate.
  - reflexivity.
  - split; [discriminate|reflexivity].
  - constructor; [exact block_tx_ok|constructor].
  - apply code_state_ok. reflexivity.
  - destruct (run_block_returns p Ep).
  - destruct (run_block_accepted err s1 Er).
  - exists s1, receipts, used. split; [exact Hd|]. split; [exact Hm|]. split; [rewrite <- Hl; exact Er|exact Ha].
Defined.
