(* ===== verification/VerifyHeaders.v ===== *)
(** * Concurrent verification of a batch of headers
    (src/consensus/ethash/consensus.go, [VerifyHeaders])

    A collector hands the indices of the headers to workers over an unbuffered
    channel and takes finished ones from a buffered channel; it passes the
    results on in the order of the headers, until the last one or until it is
    told to stop.  The goroutines are a step relation: any goroutine that is
    not blocked may take the next step. *)
From S2P Require Import Prelude.
Local Open Scope nat_scope.

Section batch.
Context {err : Type}.
(** The number of headers, the number of workers and the verification of the
    header at an index ([verifyHeaderWorker]); [None] is the nil error. *)
Variable n : nat.
Variable workers : nat.
Variable work : nat → option err.

(** A worker waits for an index, has received one, or has stored its result. *)
Inductive worker := Idle | Got (index : nat) | Stored (index : nat).

(** The next index to hand out and the next result to pass on; what has been
    taken from the channel [done]; the results of the workers; the channel
    [done]; what went into [errorsOut]; whether the collector has returned,
    and because it was told to. *)
Record batch := MkBatch {
  b_in : nat;
  b_out : nat;
  b_checked : list bool;
  b_errors : list (option err);
  b_workers : list worker;
  b_done : list nat;
  b_results : list (option err);
  b_finished : bool;
  b_aborted : bool
}.

Definition start : batch :=
  MkBatch 0 0 (replicate n false) (replicate n None) (replicate workers Idle) [] [] false false.

(** The loop [for checked[index] = true; checked[out]; out++], of at most [k]
    iterations, over what is checked: the next [out], the results and whether
    the last one has been passed on. *)
Fixpoint collect (k : nat) (checked : list bool) (errors : list (option err)) (out : nat) (results : list (option err))
    : nat * list (option err) * bool :=
  match k with
  | O => (out, results, false)
  | S k =>
      if default false (checked !! out) then
        let results := results ++ [default None (errors !! out)] in
        if out =? n - 1 then (out, results, true) else collect k checked errors (S out) results
      else (out, results, false)
  end.

Inductive step : batch → batch → Prop :=
| step_send i out checked errors ws1 ws2 done results :
    i < n →
    step (MkBatch i out checked errors (ws1 ++ Idle :: ws2) done results false false)
         (MkBatch (S i) out checked errors (ws1 ++ Got i :: ws2) done results false false)
| step_store i index out checked errors ws1 ws2 done results finished aborted :
    step (MkBatch i out checked errors (ws1 ++ Got index :: ws2) done results finished aborted)
         (MkBatch i out checked (<[index := work index]> errors) (ws1 ++ Stored index :: ws2) done results finished aborted)
| step_done i index out checked errors ws1 ws2 done results finished aborted :
    length done < workers →
    step (MkBatch i out checked errors (ws1 ++ Stored index :: ws2) done results finished aborted)
         (MkBatch i out checked errors (ws1 ++ Idle :: ws2) (done ++ [index]) results finished aborted)
| step_receive i index out checked errors ws done results out' results' finished :
    collect n (<[index := true]> checked) errors out results = (out', results', finished) →
    step (MkBatch i out checked errors ws (index :: done) results false false)
         (MkBatch i out' (<[index := true]> checked) errors ws done results' finished false)
| step_abort i out checked errors ws done results :
    step (MkBatch i out checked errors ws done results false false)
         (MkBatch i out checked errors ws done results true true).

Definition reachable (b : batch) : Prop := rtc step start b.

(** ** Invariant *)

Definition index_of (w : worker) : option nat := match w with Idle => None | Got i | Stored i => Some i end.

(** The indices that are under way. *)
Definition under_way (b : batch) : list nat := omap index_of (b_workers b) ++ b_done b.

Record inv (b : batch) : Prop := {
  i_checked : length (b_checked b) = n;
  i_errors : length (b_errors b) = n;
  i_workers : length (b_workers b) = workers;
  i_in : b_in b ≤ n;
  i_nodup : NoDup (under_way b);
  i_range i : i ∈ under_way b → i < b_in b ∧ b_checked b !! i = Some false;
  i_all i : i < b_in b → i ∈ under_way b ∨ b_checked b !! i = Some true;
  i_new i : b_checked b !! i = Some true → i < b_in b;
  i_stored i : Stored i ∈ b_workers b ∨ i ∈ b_done b ∨ b_checked b !! i = Some true → b_errors b !! i = Some (work i);
  i_prefix i : i < b_out b → b_checked b !! i = Some true;
  i_results : b_results b = map work (seq 0 (if b_finished b && negb (b_aborted b) then n else b_out b));
  i_next : b_finished b = false → b_out b < n ∧ b_checked b !! b_out b = Some false
}.

Lemma collect_spec k checked errors out out' results results' finished :
  length checked = n → n ≤ out + k → out < n →
  (∀ i, checked !! i = Some true → errors !! i = Some (work i)) →
  (∀ i, i < out → checked !! i = Some true) →
  results = map work (seq 0 out) → collect k checked errors out results = (out', results', finished) →
  (∀ i, i < out' → checked !! i = Some true)
  ∧ results' = map work (seq 0 (if finished then n else out'))
  ∧ (finished = false → out' < n ∧ checked !! out' = Some false).
Proof.
  intros Hlen. revert out results. induction k as [|k IH]; intros out results Hk Ho He Hp Hr; [lia|]. cbn [collect].
  destruct (lookup_lt_is_Some_2 checked out ltac:(lia)) as [c Hc]. rewrite Hc. cbn [default].
  destruct c; [|by intros [= <- <- <-]]. rewrite (He out Hc). cbn [default].
  assert (results ++ [work out] = map work (seq 0 (S out))) as Hr' by (by rewrite seq_S, map_app, Hr).
  destruct (Nat.eqb_spec out (n - 1)) as [->|Hne].
  - intros [= <- <- <-]. split; [done|]. split; [|done]. rewrite Hr'. do 2 f_equal. lia.
  - apply IH; try done; [lia..|]. intros i Hi. destruct (decide (i = out)) as [->|]; [done|]. apply Hp. lia.
Qed.

Lemma inv_start : 0 < n → inv start.
Proof.
  intros Hn. assert (omap index_of (replicate workers Idle) = []) as Hw by (clear; induction workers; done).
  split; unfold under_way; cbn; rewrite ?length_replicate, ?Hw; try done; try lia.
  - constructor.
  - by intros i ?%elem_of_nil.
  - intros i Hi%lookup_replicate. naive_solver.
  - intros i [Hi|[Hi%elem_of_nil|Hi%lookup_replicate]]; [|done|naive_solver].
    apply elem_of_replicate in Hi. naive_solver.
  - intros _. split; [done|]. by apply lookup_replicate.
Qed.

Lemma inv_send i out checked errors ws1 ws2 done results :
  i < n → inv (MkBatch i out checked errors (ws1 ++ Idle :: ws2) done results false false) →
  inv (MkBatch (S i) out checked errors (ws1 ++ Got i :: ws2) done results false false).
Proof.
  intros Hi I. destruct I as [H1 H2 H3 H4 H5 H6 H7 H8 H9 H10 H11 H12]. unfold under_way in *. cbn in *.
  rewrite omap_app in *. cbn in *. rewrite length_app in *. cbn in *.
  assert (checked !! i = Some false) as Hc.
  { destruct (lookup_lt_is_Some_2 checked i ltac:(lia)) as [[] Hc]; [|done]. apply H8 in Hc. lia. }
  assert (i ∉ (omap index_of ws1 ++ omap index_of ws2) ++ done) as Hni by (intros [? _]%H6; lia).
  split; unfold under_way; cbn; rewrite ?omap_app, ?length_app; cbn; try done.
  - rewrite <- app_assoc. cbn. rewrite <- Permutation_middle, app_assoc. by constructor.
  - intros j Hj. assert (j = i ∨ j ∈ (omap index_of ws1 ++ omap index_of ws2) ++ done) as [->|Hj'] by set_solver; [split; [lia|done]|].
    destruct (H6 j Hj'). split; [lia|done].
  - intros j Hj. destruct (decide (j = i)) as [->|]; [left; set_solver|]. destruct (H7 j ltac:(lia)); [left; set_solver|by right].
  - intros j Hj%H8. lia.
  - intros j Hj. apply H9. set_solver.
Qed.

Lemma inv_store i index out checked errors ws1 ws2 done results finished aborted :
  inv (MkBatch i out checked errors (ws1 ++ Got index :: ws2) done results finished aborted) →
  inv (MkBatch i out checked (<[index := work index]> errors) (ws1 ++ Stored index :: ws2) done results finished aborted).
Proof.
  intros I. destruct I as [H1 H2 H3 H4 H5 H6 H7 H8 H9 H10 H11 H12]. unfold under_way in *. cbn in *.
  rewrite omap_app in *. cbn in *. rewrite length_app in *. cbn in *.
  destruct (H6 index ltac:(set_solver)) as [Hlt Hc].
  split; unfold under_way; cbn; rewrite ?omap_app, ?length_app, ?length_insert; cbn; try done.
  intros j Hj. destruct (decide (j = index)) as [->|Hne]; [apply list_lookup_insert_eq; lia|].
  rewrite list_lookup_insert_ne by done. apply H9. set_solver.
Qed.

Lemma inv_done i index out checked errors ws1 ws2 done results finished aborted :
  inv (MkBatch i out checked errors (ws1 ++ Stored index :: ws2) done results finished aborted) →
  inv (MkBatch i out checked errors (ws1 ++ Idle :: ws2) (done ++ [index]) results finished aborted).
Proof.
  intros I. destruct I as [H1 H2 H3 H4 H5 H6 H7 H8 H9 H10 H11 H12]. unfold under_way in *. cbn in *.
  rewrite omap_app in *. cbn in *. rewrite length_app in *. cbn in *.
  assert ((omap index_of ws1 ++ index :: omap index_of ws2) ++ done ≡ₚ (omap index_of ws1 ++ omap index_of ws2) ++ done ++ [index]) as Hp.
  { rewrite <- !app_assoc. cbn. rewrite <- Permutation_middle. rewrite !app_assoc. by rewrite <- Permutation_cons_append. }
  split; unfold under_way; cbn; rewrite ?omap_app, ?length_app; cbn; try done.
  - by rewrite <- Hp.
  - intros j. rewrite <- Hp. apply H6.
  - intros j. rewrite <- Hp. apply H7.
  - intros j Hj. apply H9. set_solver.
Qed.

Lemma inv_receive i index out checked errors ws done results out' results' finished :
  collect n (<[index := true]> checked) errors out results = (out', results', finished) →
  inv (MkBatch i out checked errors ws (index :: done) results false false) →
  inv (MkBatch i out' (<[index := true]> checked) errors ws done results' finished false).
Proof.
  intros Hc I. destruct I as [H1 H2 H3 H4 H5 H6 H7 H8 H9 H10 H11 H12]. unfold under_way in *. cbn in *.
  destruct (H6 index ltac:(set_solver)) as [Hlt Hci]. rewrite <- Permutation_middle in H5. apply NoDup_cons in H5 as [Hni Hnd].
  assert (∀ j, <[index := true]> checked !! j = Some true ↔ j = index ∨ checked !! j = Some true) as Hch.
  { intros j. destruct (decide (j = index)) as [->|Hne]; [rewrite list_lookup_insert_eq by lia; naive_solver|].
    rewrite list_lookup_insert_ne by done. naive_solver. }
  assert (∀ j, j ≠ index → <[index := true]> checked !! j = checked !! j) as Hne by (intros; by apply list_lookup_insert_ne).
  destruct (H12 eq_refl) as [Hout _].
  apply (collect_spec n (<[index := true]> checked) errors out out') in Hc as (C1 & C2 & C3);
    [|by rewrite length_insert|lia|done| |intros j Hj; apply Hch; right; by apply H10|done].
  2: { intros j Hj%Hch. apply H9. destruct Hj as [->|Hj]; [right; left; set_solver|by right; right]. }
  split; unfold under_way; cbn; rewrite ?length_insert; try done.
  - intros j Hj. rewrite Hne by (by intros ->). apply H6. set_solver.
  - intros j Hj. rewrite Hch. destruct (H7 j Hj) as [Hj'|]; [|by right; right].
    rewrite <- Permutation_middle in Hj'. apply elem_of_cons in Hj' as [->|]; [by right; left|by left].
  - intros j [->|Hj]%Hch; [done|by apply H8].
  - intros j Hj. apply H9. rewrite Hch in Hj. set_solver.
  - rewrite C2. by destruct finished.
Qed.

Lemma batch_inv_step b b' : inv b → step b b' → inv b'.
Proof.
  intros I S. destruct S as [i out checked errors ws1 ws2 done results Hi|i index out checked errors ws1 ws2 done results fin ab|
    i index out checked errors ws1 ws2 done results fin ab Hd|i index out checked errors ws done results out' results' fin Hc|
    i out checked errors ws done results].
  - by apply inv_send.
  - by apply inv_store.
  - by apply inv_done.
  - by eapply inv_receive.
  - destruct I. by split.
Qed.

Lemma inv_nsteps k b b' : inv b → nsteps step k b b' → inv b'.
Proof. intros I H. revert I. induction H as [|k b1 b2 b3 H12 _ IH]; [done|]. intros I. by eapply IH, batch_inv_step. Qed.

(** ** Progress *)

Lemma workers_cases (ws : list worker) :
  (∃ i ws1 ws2, ws = ws1 ++ Got i :: ws2) ∨ (∃ i ws1 ws2, ws = ws1 ++ Stored i :: ws2) ∨ ws = replicate (length ws) Idle.
Proof.
  induction ws as [|w ws IH]; [by right; right|]. destruct w as [|i|i]; [|left; by exists i, [], ws|right; left; by exists i, [], ws].
  destruct IH as [(i & ws1 & ws2 & ->)|[(i & ws1 & ws2 & ->)|IH]].
  - left. by exists i, (Idle :: ws1), ws2.
  - right. left. by exists i, (Idle :: ws1), ws2.
  - right. right. cbn. by rewrite <- IH.
Qed.

Lemma receive_step i index out checked errors ws done results :
  ∃ b', step (MkBatch i out checked errors ws (index :: done) results false false) b' ∧ b_aborted b' = false.
Proof.
  destruct (collect n (<[index := true]> checked) errors out results) as [[out' results'] fin] eqn:Ec.
  eexists. split; [by apply step_receive, Ec|done].
Qed.

(** While the collector runs, something other than an abort can happen. *)
Lemma progress b : 0 < workers → inv b → b_finished b = false → b_aborted b = false → ∃ b', step b b' ∧ b_aborted b' = false.
Proof.
  destruct b as [i out checked errors ws done results fin ab]. cbn. intros Hw I -> ->.
  destruct (workers_cases ws) as [(j & ws1 & ws2 & ->)|[(j & ws1 & ws2 & ->)|Hidle]].
  - eexists. split; [apply step_store|done].
  - destruct (decide (length done < workers)) as [Hd|Hd]; [eexists; by split; [apply step_done|]|].
    destruct done as [|index done]; [cbn in Hd; lia|]. apply receive_step.
  - destruct done as [|index done]; [|apply receive_step]. pose proof (i_workers _ I) as Hlen. cbn in Hlen.
    destruct (decide (i < n)) as [Hi|Hi].
    + destruct ws as [|w ws]; [cbn in Hlen; lia|]. cbn in Hidle. injection Hidle as -> _.
      eexists. by split; [by apply (step_send i out checked errors [])|].
    + destruct (i_next _ I eq_refl) as [Ho Hc]. destruct (i_all _ I out) as [Hu|Hu]; cbn in *; [lia| |congruence].
      unfold under_way in Hu. cbn in Hu. rewrite app_nil_r, Hidle in Hu.
      exfalso. clear -Hu. induction (length ws) as [|k IH]; cbn in Hu; [by apply elem_of_nil in Hu|by apply IH].
Qed.

(** The steps that are left: four for each header and one for an abort. *)
Definition weight (w : worker) : nat := match w with Idle => 0 | Got _ => 3 | Stored _ => 2 end.
Definition steps_left (b : batch) : nat :=
  4 * (n - b_in b) + sum_list_with weight (b_workers b) + length (b_done b) + if b_finished b then 0 else 1.

Lemma step_decreases b b' : step b b' → steps_left b' < steps_left b.
Proof.
  destruct 1; unfold steps_left; cbn [b_in b_workers b_done b_finished]; rewrite ?sum_list_with_app, ?length_app;
    cbn [sum_list_with weight length]; repeat case_match; lia.
Qed.
Lemma steps_bounded k b b' : nsteps step k b b' → k + steps_left b' ≤ steps_left b.
Proof. induction 1 as [|k b1 b2 b3 H%step_decreases _ IH]; lia. Qed.
Lemma steps_left_start : steps_left start = 4 * n + 1.
Proof.
  unfold steps_left, start. cbn [b_in b_workers b_done b_finished]. assert (sum_list_with weight (replicate workers Idle) = 0) as ->
    by (clear; induction workers; done). cbn. lia.
Qed.

(** A run: its results are those of the headers in order, up to the last one
    unless it is stopped; it cannot get stuck before that, nor go on for
    ever. *)
Lemma run_in_order k b :
  0 < n → 0 < workers → nsteps step k start b →
  k ≤ 4 * n + 1 ∧ (∃ m, b_results b = map work (seq 0 m))
  ∧ (b_finished b = true → b_aborted b = false → b_results b = map work (seq 0 n))
  ∧ (b_finished b = false → ∃ b', step b b' ∧ b_aborted b' = false).
Proof.
  intros Hn Hw Hk. pose proof (inv_nsteps _ _ _ (inv_start Hn) Hk) as I. split; [|split; [|split]].
  - pose proof (steps_bounded _ _ _ Hk) as Hb. rewrite steps_left_start in Hb. lia.
  - eexists. apply (i_results _ I).
  - intros Hf Ha. rewrite (i_results _ I), Hf, Ha. done.
  - intros Hf. apply progress; try done. clear -Hk Hf. destruct (b_aborted b) eqn:E; [|done]. exfalso. revert Hf E.
    assert (∀ k b1 b2, nsteps step k b1 b2 → (b_finished b1 = false → b_aborted b1 = false) → b_finished b2 = false → b_aborted b2 = false) as H.
    { induction 1 as [|k' b1 b2 b3 [] _ IH]; naive_solver. }
    intros Hf Ha. by rewrite (H _ _ _ Hk) in Ha.
Qed.

(** A worker that has finished its header after the collector was stopped
    waits for ever when the channel [done] is full. *)
Definition stuck (b : batch) : Prop := b_finished b = true ∧ ¬ (∃ b', step b b') ∧ ∃ i, Stored i ∈ b_workers b.
End batch.

(** With one worker, stopping the collector after the second header leaves
    the worker blocked. *)
Lemma abort_leaks_worker {err} (work : nat → option err) :
  ∃ b, rtc (step 2 1 work) (start 2 1) b ∧ stuck 2 1 work b.
Proof.
  eexists. split.
  - eapply rtc_l; [apply (step_send _ _ _ 0 0 _ _ [] []); lia|].
    eapply rtc_l; [apply (step_store _ _ _ _ 0 _ _ _ [] [])|]. eapply rtc_l; [apply (step_done _ _ _ _ 0 _ _ _ [] []); cbn; lia|].
    eapply rtc_l; [apply (step_send _ _ _ 1 0 _ _ [] []); lia|]. eapply rtc_l; [apply (step_store _ _ _ _ 1 _ _ _ [] [])|].
    eapply rtc_l; [apply step_abort|]. reflexivity.
  - split; [done|]. split; [|exists 1; by left]. intros [b' S]. inversion S as [| | | |]; subst.
    + destruct ws1 as [|? []]; simplify_eq.
    + destruct ws1 as [|? []]; simplify_eq/=. lia.
Qed.
