(* ===== verification/EthashProps.v ===== *)
(** * Properties of the proof-of-work engine

    The two implementations of the difficulty formula agree, and where they do
    not; which headers and uncles are accepted. *)
From S2P Require Import Prelude RlpEncode RlpRaw RlpDecode AccessList StateDB StateRevert StateCommit Params ChainConfig VmBase VmMachine Precompiles VmSmoke VmOps VmTables Evm StateTransition Transaction Receipts BlockHeader Ethash VerifyHeaders.
Local Open Scope Z_scope.

(** ** Difficulty *)

Section difficulty.
Context {CR : Crypto} {U : Uint256} {UL : Uint256Laws}.

(** A word that holds the number [z]. *)
Definition holds (w : Word) (z : Z) : Prop := u_val w = z ∧ 0 ≤ z < 2 ^ 256.

Lemma holds_FromBig z : 0 ≤ z < 2 ^ 256 → holds (u_FromBig z) z.
Proof. intros Hz. split; [|done]. rewrite law_FromBig. unfold u256. by rewrite Z.mod_small. Qed.
Lemma holds_Rsh w z n : holds w z → is_u64 n → holds (u_Rsh w n) (z / 2 ^ n).
Proof.
  intros [<- Hz] Hn. unfold is_u64 in Hn. split; [rewrite law_Rsh by done; apply Z.shiftr_div_pow2; lia|].
  split; [apply Z.div_pos; lia|]. apply Z.le_lt_trans with (u_val w); [|lia]. apply Z.div_le_upper_bound; nia.
Qed.
Lemma holds_Add w z w' z' : holds w z → holds w' z' → z + z' < 2 ^ 256 → holds (u_Add w w') (z + z').
Proof. intros [<- Hz] [<- Hz'] Hb. split; [|lia]. rewrite law_Add. unfold u256. apply Z.mod_small. lia. Qed.
Lemma holds_Sub w z w' z' : holds w z → holds w' z' → z' ≤ z → holds (u_Sub w w') (z - z').
Proof. intros [<- Hz] [<- Hz'] Hb. split; [|lia]. rewrite law_Sub. unfold u256. apply Z.mod_small. lia. Qed.
Lemma holds_Mul w z w' z' : holds w z → holds w' z' → z * z' < 2 ^ 256 → holds (u_Mul w w') (z * z').
Proof. intros [<- Hz] [<- Hz'] Hb. split; [|nia]. rewrite law_Mul. unfold u256. apply Z.mod_small. nia. Qed.
Lemma holds_SetUint64 z : is_u64 z → holds (u_SetUint64 z) z.
Proof. intros Hz. unfold is_u64 in Hz. split; [by rewrite law_SetUint64|lia]. Qed.
Lemma holds_Lsh n : 0 ≤ n < 256 → holds (u_Lsh u_one n) (2 ^ n).
Proof.
  intros Hn. assert (0 < 2 ^ n < 2 ^ 256) by (split; [lia|apply Z.pow_lt_mono_r; lia]).
  split; [|lia]. rewrite law_Lsh by (unfold is_u64; lia). rewrite law_one, Z.shiftl_1_l. unfold u256. apply Z.mod_small. lia.
Qed.
Lemma holds_clamp w z : holds w z → minimumDifficulty ≤ z →
  holds (if u_LtUint64 w minimumDifficulty then u_SetUint64 minimumDifficulty else w) z.
Proof.
  intros Hw Hz. destruct Hw as [E Hr]. rewrite law_LtUint64, E by done.
  rewrite (proj2 (Z.ltb_ge z minimumDifficulty)) by done. by split.
Qed.

(** The bomb. *)
Lemma val_bomb w x pc : holds w x → (if 1 <? pc then x + 2 ^ (pc - 2) else x) < 2 ^ 256 →
  u_val (if 1 <? pc then u_Add w (u_Lsh u_one (pc - 2)) else w) = if 1 <? pc then x + 2 ^ (pc - 2) else x.
Proof.
  intros Hw. destruct (Z.ltb_spec 1 pc) as [Hp|_]; [|by destruct Hw]. intros Hb. pose proof Hw as [E Hx].
  assert (pc - 2 < 256) by (apply (Z.pow_lt_mono_r_iff 2); lia).
  by apply (holds_Add _ _ _ _ Hw (holds_Lsh (pc - 2) ltac:(lia))).
Qed.

(** The adjustment by a factor between -99 and 2 of the 2048th part. *)
Definition adjusted (d x : Z) : Z := d + d / DifficultyBoundDivisor * x.

Lemma adjusted_floor d x : 2 * minimumDifficulty ≤ d → -99 ≤ x → minimumDifficulty ≤ adjusted d x.
Proof.
  unfold adjusted, minimumDifficulty. intros Hd Hx. pose proof (Z.mul_div_le d 2048 ltac:(lia)).
  assert (0 ≤ d / 2048) by (apply Z.div_pos; lia). nia.
Qed.

Lemma holds_adjusted d (neg : bool) a :
  2 * minimumDifficulty ≤ d < 2 ^ 256 → 0 ≤ a ≤ 99 → adjusted d (if neg then - a else a) < 2 ^ 256 →
  let w := u_FromBig d in
  let z := u_Mul (u_Rsh w difficultyBoundDivisor) (u_SetUint64 a) in
  holds (if neg then u_Sub w z else u_Add w z) (adjusted d (if neg then - a else a)).
Proof.
  intros Hd Ha Hb w z. unfold minimumDifficulty in Hd. assert (holds w d) as Hw by (apply holds_FromBig; lia).
  assert (holds (u_Rsh w difficultyBoundDivisor) (d / 2048)) as Hy by (by apply holds_Rsh).
  pose proof (Z.mul_div_le d 2048 ltac:(lia)). assert (0 ≤ d / 2048) by (apply Z.div_pos; lia).
  assert (holds z (d / 2048 * a)) as Hz by (apply holds_Mul; [done|apply holds_SetUint64; unfold is_u64; lia|nia]).
  unfold adjusted in *. destruct neg.
  - replace (d + d / 2048 * - a) with (d - d / 2048 * a) by lia. apply holds_Sub; [done..|nia].
  - by apply holds_Add.
Qed.

Lemma drop_clamp (x low : Z) : low ≤ x → (if x <? low then low else x) = x.
Proof. intros. by rewrite (proj2 (Z.ltb_ge x low)). Qed.

(** A number with a bomb is at least the number. *)
Lemma le_bomb x pc b : (if 1 <? pc then x + 2 ^ (pc - 2) else x) < b → x < b.
Proof. destruct (Z.ltb_spec 1 pc); intros; [|done]. assert (0 < 2 ^ (pc - 2)) by (apply Z.pow_pos_nonneg; lia). lia. Qed.

(** The factor of the two versions: a signed number, or a sign and a number. *)
Lemma homestead_factor q : 0 ≤ q →
  ∃ a neg, (if q =? 0 then (1, false) else if 100 <=? q then (99, true) else (q - 1, true)) = (a, neg)
    ∧ 0 ≤ a ≤ 99 ∧ (if 1 - q <? -99 then -99 else 1 - q) = if neg : bool then - a else a.
Proof.
  intros Hq. destruct (Z.eqb_spec q 0) as [->|]; [by exists 1, false|]. destruct (Z.leb_spec 100 q).
  - exists 99, true. split; [done|]. split; [done|]. destruct (Z.ltb_spec (1 - q) (-99)); lia.
  - exists (q - 1), true. split; [done|]. split; [lia|]. destruct (Z.ltb_spec (1 - q) (-99)); lia.
Qed.
Lemma byzantium_factor q c : 0 ≤ q → 1 ≤ c ≤ 2 →
  let a := if c <=? q then q - c else c - q in
  let a := if 99 <? a then 99 else a in
  0 ≤ a ≤ 99 ∧ (if c - q <? -99 then -99 else c - q) = if c <=? q then - a else a.
Proof.
  intros Hq Hc. cbn zeta. destruct (Z.leb_spec c q).
  - destruct (Z.ltb_spec 99 (q - c)), (Z.ltb_spec (c - q) (-99)); lia.
  - destruct (Z.ltb_spec 99 (c - q)), (Z.ltb_spec (c - q) (-99)); lia.
Qed.

Context (time : Z) (parent : Header).
Hypothesis Htime : is_u64 time.
Hypothesis Hptime : 0 ≤ h_Time parent ≤ time.
Hypothesis Hnum : 0 ≤ h_Number parent < 2 ^ 64 - 1.
Hypothesis Hdiff : 2 * minimumDifficulty ≤ h_Difficulty parent < 2 ^ 256.

(** Floor and bomb, over a word [w] that holds the number [x] when it fits. *)
Lemma agree_tail w x pc :
  minimumDifficulty ≤ x → (x < 2 ^ 256 → holds w x) →
  let x := if x <? MinimumDifficulty then MinimumDifficulty else x in
  let w := if u_LtUint64 w minimumDifficulty then u_SetUint64 minimumDifficulty else w in
  (if 1 <? pc then x + 2 ^ (pc - 2) else x) < 2 ^ 256 →
  u_ToBig (if 1 <? pc then u_Add w (u_Lsh u_one (pc - 2)) else w) = if 1 <? pc then x + 2 ^ (pc - 2) else x.
Proof.
  intros Hlow Hw. cbn zeta. rewrite (drop_clamp x) by (unfold minimumDifficulty in Hlow; lia). intros Hb. rewrite law_ToBig.
  apply val_bomb; [|done]. apply holds_clamp; [|done]. apply Hw. by eapply le_bomb.
Qed.

Lemma agree_factor a (neg : bool) :
  0 ≤ a ≤ 99 →
  let w := u_FromBig (h_Difficulty parent) in
  let z := u_Mul (u_Rsh w difficultyBoundDivisor) (u_SetUint64 a) in
  let x := adjusted (h_Difficulty parent) (if neg then - a else a) in
  minimumDifficulty ≤ x ∧ (x < 2 ^ 256 → holds (if neg then u_Sub w z else u_Add w z) x).
Proof.
  intros Ha. cbn zeta. split; [apply adjusted_floor; destruct neg; lia|]. intros Hb. apply holds_adjusted; [lia|done..].
Qed.

Lemma Homestead_agree :
  calcDifficultyHomestead time parent < 2 ^ 256 →
  CalcDifficultyHomesteadU256 time parent = calcDifficultyHomestead time parent.
Proof.
  unfold is_u64 in Htime. unfold calcDifficultyHomestead, CalcDifficultyHomesteadU256.
  rewrite (u64_small (time - h_Time parent)), (u64_small (h_Number parent)) by (unfold is_u64; lia).
  rewrite (Z.add_comm 1 (h_Number parent)), (u64_small (h_Number parent + 1)) by (unfold is_u64; lia).
  change expDiffPeriodUint with expDiffPeriod.
  assert (0 ≤ (time - h_Time parent) / 10) as Hq by (apply Z.div_pos; lia).
  destruct (homestead_factor _ Hq) as (a & neg & -> & Ha & ->). destruct (agree_factor a neg Ha) as [H1 H2].
  exact (agree_tail _ _ _ H1 H2).
Qed.

(** The delayed bomb, as the words have it. *)
Lemma delayed_bomb delay n (w : Word) : 0 ≤ n →
  u_val (if delay <=? n then
           if 2 * expDiffPeriodUint <=? n - delay then u_Add (u_Lsh u_one ((n - delay) / expDiffPeriodUint - 2)) w else w
         else w)
  = let pc := (if delay <=? n then n - delay else 0) / expDiffPeriod in
    u_val (if 1 <? pc then u_Add w (u_Lsh u_one (pc - 2)) else w).
Proof.
  intros Hn. cbn zeta. unfold expDiffPeriodUint, expDiffPeriod. destruct (Z.leb_spec delay n) as [Hd|_]; [|done].
  destruct (Z.leb_spec (2 * 100000) (n - delay)) as [H2|H2].
  - assert (2 ≤ (n - delay) / 100000) by (apply Z.div_le_lower_bound; lia). zcmp. rewrite !law_Add. f_equal. lia.
  - assert ((n - delay) / 100000 < 2) by (apply Z.div_lt_upper_bound; lia). by zcmp.
Qed.

Lemma Make_agree bombDelay :
  1 ≤ bombDelay < 2 ^ 64 → makeDifficultyCalculator bombDelay time parent < 2 ^ 256 →
  MakeDifficultyCalculatorU256 bombDelay time parent = makeDifficultyCalculator bombDelay time parent.
Proof.
  unfold is_u64 in Htime. intros Hbd. unfold makeDifficultyCalculator, MakeDifficultyCalculatorU256.
  rewrite (u64_small (time - h_Time parent)), (u64_small (h_Number parent)), (u64_small bombDelay), (u64_small (bombDelay - 1))
    by (unfold is_u64; lia).
  assert (0 ≤ (time - h_Time parent) / 9) as Hq by (apply Z.div_pos; lia). set (q := (time - h_Time parent) / 9) in *.
  set (c := if bool_decide (h_UncleHash parent = EmptyUncleHash) then 1 else 2).
  replace (if bool_decide _ then 1 - q else 2 - q) with (c - q) by (unfold c; by case_bool_decide).
  assert (1 ≤ c ≤ 2) as Hc by (unfold c; by case_bool_decide). destruct (byzantium_factor q c Hq Hc) as [Ha ->].
  set (fake := if bombDelay - 1 <=? h_Number parent then h_Number parent - (bombDelay - 1) else 0).
  intros Hb. destruct (agree_factor _ (c <=? q) Ha) as [H1 H2].
  etransitivity; [|exact (agree_tail _ _ _ H1 H2 Hb)]. rewrite !law_ToBig. apply delayed_bomb. lia.
Qed.

Lemma Frontier_agree :
  time - h_Time parent < 8 ∨ 13 ≤ time - h_Time parent → calcDifficultyFrontier time parent < 2 ^ 256 →
  CalcDifficultyFrontierU256 time parent = calcDifficultyFrontier time parent.
Proof.
  unfold is_u64 in Htime. intros Ht. unfold calcDifficultyFrontier, CalcDifficultyFrontierU256.
  rewrite (u64_small (time - h_Time parent)), (u64_small (h_Number parent)) by (unfold is_u64; lia).
  rewrite (u64_small (h_Number parent + 1)) by (unfold is_u64; lia). change expDiffPeriodUint with expDiffPeriod.
  set (d := h_Difficulty parent) in *. set (pc := (h_Number parent + 1) / expDiffPeriod).
  assert (∃ neg : bool, time - h_Time parent <? DurationLimit = negb neg ∧ time - h_Time parent <? frontierDurationLimit = negb neg)
    as (neg & -> & ->).
  { unfold frontierDurationLimit. destruct Ht; [exists false|exists true]; by zcmp. }
  pose proof (Z.mul_div_le d 2048 ltac:(lia)) as Hq. assert (0 ≤ d / 2048) by (apply Z.div_pos; unfold minimumDifficulty in Hdiff; lia).
  assert (holds (u_FromBig d) d) as Hd by (apply holds_FromBig; unfold minimumDifficulty in Hdiff; lia).
  assert (holds (u_Rsh (u_FromBig d) difficultyBoundDivisor) (d / 2048)) as Hy by (by apply holds_Rsh).
  set (w := if negb neg then u_Add (u_FromBig d) (u_Rsh (u_FromBig d) difficultyBoundDivisor) else _).
  set (x := if negb neg then d + d / 2048 else d - d / 2048).
  assert (minimumDifficulty ≤ x) as H1 by (unfold x, minimumDifficulty in *; destruct neg; cbn; lia).
  assert (x < 2 ^ 256 → holds w x) as H2.
  { unfold w, x. destruct neg; cbn; intros; [apply holds_Sub; [done..|lia]|by apply holds_Add]. }
  pose proof (agree_tail w x pc H1 H2) as Ht'. cbn zeta in Ht'. rewrite !(drop_clamp x) in * by (unfold minimumDifficulty in H1; lia).
  assert (1 <? pc = true → Z.max (x + 2 ^ (pc - 2)) MinimumDifficulty = x + 2 ^ (pc - 2)) as Hm.
  { intros. assert (0 ≤ 2 ^ (pc - 2)) by (apply Z.pow_nonneg; lia). unfold minimumDifficulty in H1. lia. }
  destruct (1 <? pc); [rewrite Hm by done|]; exact Ht'.
Qed.
End difficulty.

(** The two implementations of the difficulty formula agree.  For a block
    that is not older than its parent, whose difficulty is at least twice the
    floor of the 256-bit version, the calculations over 256-bit words return
    what those over big integers do, as long as that fits into 256 bits; under
    the Frontier rules only when the block comes within 8 seconds or after 13
    or more, because the two versions have different limits. *)
Theorem DifficultyU256_agrees `{Crypto} `{UL : Uint256Laws} (bombDelay time : Z) (parent : Header)
    (Ht : is_u64 time) (Hp : 0 ≤ h_Time parent ≤ time) (Hn : 0 ≤ h_Number parent < 2 ^ 64 - 1)
    (Hd : 2 * minimumDifficulty ≤ h_Difficulty parent < 2 ^ 256) (Hb : 1 ≤ bombDelay < 2 ^ 64) :
  (makeDifficultyCalculator bombDelay time parent < 2 ^ 256 →
     MakeDifficultyCalculatorU256 bombDelay time parent = makeDifficultyCalculator bombDelay time parent)
  ∧ (calcDifficultyHomestead time parent < 2 ^ 256 →
     CalcDifficultyHomesteadU256 time parent = calcDifficultyHomestead time parent)
  ∧ (time - h_Time parent < 8 ∨ 13 ≤ time - h_Time parent → calcDifficultyFrontier time parent < 2 ^ 256 →
     CalcDifficultyFrontierU256 time parent = calcDifficultyFrontier time parent).
Proof.
  split; [by apply Make_agree|]. split; [by apply Homestead_agree|by apply Frontier_agree].
Qed.

(** The floor of the difficulty, and its growth from block to block. *)
Lemma CalcDifficulty_floor `{Crypto} config time parent : MinimumDifficulty ≤ CalcDifficulty config time parent.
Proof.
  assert (∀ x pc, MinimumDifficulty ≤ x → MinimumDifficulty ≤ if 1 <? pc then x + 2 ^ (pc - 2) else x) as Hb.
  { intros x pc Hx. case_if; [|done]. assert (0 ≤ 2 ^ (pc - 2)) by (apply Z.pow_nonneg; lia). lia. }
  assert (∀ x, MinimumDifficulty ≤ if x <? MinimumDifficulty then MinimumDifficulty else x) as Hc.
  { intros x. destruct (Z.ltb_spec x MinimumDifficulty); lia. }
  unfold CalcDifficulty, calcDifficultyEip2384, calcDifficultyConstantinople, calcDifficultyByzantium.
  repeat case_if; try (apply Hb, Hc). unfold calcDifficultyFrontier. case_if; [lia|apply Hc].
Qed.

(** The two implementations have different floors.  After a parent at the
    minimum difficulty of the chain, a block that comes 9 or more seconds later
    has that difficulty, 130130, by the big integers, and 131072 by the 256-bit
    words: a chain that used the one would reject the blocks of the other. *)
Theorem DifficultyU256_differs `{Crypto} `{UL : Uint256Laws} (bombDelay time : Z) (parent : Header)
    (Ht : is_u64 time) (Hp : 0 ≤ h_Time parent ≤ time - 9) (Hu : h_UncleHash parent = EmptyUncleHash)
    (Hn : 0 ≤ h_Number parent < bombDelay - 1) (Hd : h_Difficulty parent = MinimumDifficulty) (Hb : bombDelay < 2 ^ 64) :
  makeDifficultyCalculator bombDelay time parent = 130130
  ∧ MakeDifficultyCalculatorU256 bombDelay time parent = 131072.
Proof.
  unfold is_u64 in Ht. assert (1 ≤ (time - h_Time parent) / 9) as Hq by (apply Z.div_le_lower_bound; lia).
  unfold makeDifficultyCalculator, MakeDifficultyCalculatorU256. rewrite Hd, !bool_decide_true by done.
  rewrite (u64_small (time - h_Time parent)), (u64_small (h_Number parent)), (u64_small bombDelay), (u64_small (bombDelay - 1))
    by (unfold is_u64; lia).
  set (q := (time - h_Time parent) / 9) in *. clearbody q.
  destruct (byzantium_factor q 1 ltac:(lia) ltac:(lia)) as [Ha ->]. revert Ha. zcmp.
  generalize (if 99 <? q - 1 then 99 else q - 1). intros a Ha. split.
  - change (130130 / 2048) with 63. destruct (Z.ltb_spec (130130 + 63 * - a) 130130); change (1 <? 0 / expDiffPeriod) with false; cbn; lia.
  - assert (holds (u_FromBig 130130) 130130) as H1 by (by apply holds_FromBig).
    assert (holds (u_Rsh (u_FromBig 130130) difficultyBoundDivisor) 63) as H2 by (by apply (holds_Rsh _ 130130)).
    assert (holds (u_SetUint64 a) a) as H3 by (apply holds_SetUint64; unfold is_u64; lia).
    assert (holds (u_Mul (u_Rsh (u_FromBig 130130) difficultyBoundDivisor) (u_SetUint64 a)) (63 * a)) as H4
      by (apply holds_Mul; [done..|lia]).
    destruct (holds_Sub _ _ _ _ H1 H4 ltac:(lia)) as [H5 _]. unfold minimumDifficulty.
    rewrite law_LtUint64, H5 by done. zcmp. rewrite law_ToBig. by apply law_SetUint64.
Qed.

(** ** Headers *)

Section headers.
Context {CR : Crypto} {HM : Hashimoto}.
Context (config : ChainConfig) (now : Z).

(** What an accepted header satisfies. *)
Record header_ok (e : Engine) (header parent : Header) (uncle seal : bool) : Prop := {
  ok_extra : len (h_Extra header) ≤ MaximumExtraDataSize;
  ok_future : uncle = false → h_Time header ≤ now + allowedFutureBlockTime;
  ok_time : h_Time parent < h_Time header;
  ok_difficulty : h_Difficulty header = CalcDifficulty config (h_Time header) parent;
  ok_limit_cap : h_SmokeLimit header < 2 ^ 63;
  ok_used : h_SmokeUsed header ≤ h_SmokeLimit header;
  ok_limit_change : Z.abs (h_SmokeLimit parent - h_SmokeLimit header) < h_SmokeLimit parent / SmokeLimitBoundDivisor;
  ok_limit_min : MinSmokeLimit ≤ h_SmokeLimit header;
  ok_number : h_Number header = h_Number parent + 1;
  ok_seal : seal = true → VerifySeal e header = None;
  ok_dao : VerifyDAOHeaderExtraData config header = None;
  ok_fork : VerifyForkHashes config header uncle = None
}.

(** The sizes that the types of the fields give. *)
Record header_wf (h : Header) : Prop := {
  wf_extra : len (h_Extra h) < 2 ^ 63;
  wf_time : is_u64 (h_Time h);
  wf_limit : is_u64 (h_SmokeLimit h)
}.

Lemma or_else_None a b : or_else a b = None ↔ a = None ∧ b = None.
Proof. destruct a; cbn; naive_solver. Qed.

Lemma guard_None (b : bool) (e : header_error) rest : (if b then Some e else rest) = None ↔ b = false ∧ rest = None.
Proof. destruct b; naive_solver. Qed.

(** The difference of two limits below 2{^63}, as computed on [int64]. *)
Lemma limit_difference a b : 0 ≤ a < 2 ^ 63 → 0 ≤ b < 2 ^ 63 →
  (let diff := i64 (i64 a - i64 b) in u64 (if diff <? 0 then i64 (diff * -1) else diff)) = Z.abs (a - b).
Proof.
  intros Ha Hb. assert (∀ x, - 2 ^ 63 ≤ x < 2 ^ 63 → i64 x = x) as Hi by (intros x Hx; unfold i64; rewrite Z.mod_small; lia).
  cbn zeta. rewrite (Hi a), (Hi b), (Hi (a - b)) by lia. destruct (Z.ltb_spec (a - b) 0).
  - rewrite Hi, u64_small by (unfold is_u64; lia). lia.
  - rewrite u64_small by (unfold is_u64; lia). lia.
Qed.

Lemma verifyHeader_spec e header parent uncle seal :
  header_wf header → 0 ≤ now < 2 ^ 63 → 0 ≤ h_SmokeLimit parent < 2 ^ 63 →
  verifyHeader config now e header parent uncle seal = None ↔ header_ok e header parent uncle seal.
Proof.
  intros [Hx Ht Hl] Hn Hp. unfold is_u64 in *. unfold verifyHeader.
  assert (0 ≤ len (h_Extra header)) by lia. rewrite (u64_small (len _)), (u64_small (now + _)) by (unfold is_u64, allowedFutureBlockTime; lia).
  change 0x7fffffffffffffff with (2 ^ 63 - 1). cbn zeta.
  rewrite !guard_None, !or_else_None, orb_false_iff, andb_false_iff, !negb_false_iff, !Z.ltb_ge, !Z.leb_gt, !Z.eqb_eq, !fmap_None.
  split.
  - intros (H1 & H2 & H3 & H4 & H5 & H6 & [H7 H8] & H9 & H10 & H11 & H12). rewrite limit_difference in H7 by lia.
    split; try done; try lia. intros ->. by destruct H2.
  - intros [H1 H2 H3 H4 H5 H6 H7 H8 H9 H10 H11 H12]. rewrite limit_difference by lia.
    repeat split; try done; try lia. destruct seal; [by apply H10|done].
Qed.

(** ** Uncles *)

(** The chain that the node knows: [GetBlock] finds blocks by their hash and
    number. *)
Context (GetBlock : Hash → Z → option Block).
Hypothesis GetBlock_ok : ∀ h n b, GetBlock h n = Some b →
  Block_Hash b = h ∧ h_Number (b_Header b) = n ∧ n < 2 ^ 63 ∧ 0 ≤ h_SmokeLimit (b_Header b) < 2 ^ 63.

(** The blocks from [parent] on backwards, at most [k]. *)
Fixpoint ancestry (k : nat) (parent : Hash) (number : Z) : list Block :=
  match k with
  | O => []
  | S k =>
      match GetBlock parent number with
      | None => []
      | Some b => b :: ancestry k (h_ParentHash (b_Header b)) (u64 (number - 1))
      end
  end.

Lemma gather_spec k parent number acc :
  let bs := ancestry k parent number in
  (gather_ancestors GetBlock k parent number acc).1 = foldl (λ m b, <[Block_Hash b := b_Header b]> m) acc.1 bs
  ∧ ∀ h, h ∈ (gather_ancestors GetBlock k parent number acc).2
         ↔ h ∈ acc.2 ∨ ∃ b u, b ∈ bs ∧ u ∈ b_Uncles b ∧ h = Header_Hash u.
Proof.
  clear GetBlock_ok. revert parent number acc. induction k as [|k IH]; intros parent number acc; cbn; [set_solver|].
  destruct (GetBlock parent number) as [b|]; cbn; [|set_solver]. destruct (IH (h_ParentHash (b_Header b)) (u64 (number - 1))
    (<[Block_Hash b:=b_Header b]> acc.1, list_to_set (map Header_Hash (b_Uncles b)) ∪ acc.2)) as [-> H2].
  split; [done|]. intros h. rewrite H2. cbn. rewrite elem_of_union, elem_of_list_to_set, list_elem_of_fmap.
  split; [|intros [?|(b' & u & [->|Hb]%elem_of_cons & Hu & ->)]]; naive_solver eauto using list_elem_of_here, list_elem_of_further.
Qed.

Lemma ancestry_at k parent number i b :
  0 ≤ number < 2 ^ 63 → ancestry k parent number !! i = Some b →
  (i < k)%nat ∧ h_Number (b_Header b) = number - Z.of_nat i ∧ 0 ≤ h_Number (b_Header b)
  ∧ 0 ≤ h_SmokeLimit (b_Header b) < 2 ^ 63 ∧ (i = O → Block_Hash b = parent).
Proof.
  revert parent number i. induction k as [|k IH]; intros parent number i Hn; cbn; [done|].
  destruct (GetBlock parent number) as [b'|] eqn:Eb; [|done]. destruct (GetBlock_ok _ _ _ Eb) as (Hh & Hnum & Hlt & Hl).
  destruct i as [|i]; cbn.
  - intros [= <-]. repeat split; try done; lia.
  - intros Hi. destruct (Z.eq_dec number 0) as [->|].
    + destruct k as [|k']; [done|]. cbn in Hi. destruct (GetBlock (h_ParentHash (b_Header b')) _) eqn:E; [|done].
      destruct (GetBlock_ok _ _ _ E) as (_ & _ & Hbad & _). change (u64 (0 - 1)) with (2 ^ 64 - 1) in Hbad. lia.
    + rewrite u64_small in Hi by (unfold is_u64; lia). destruct (IH (h_ParentHash (b_Header b')) (number - 1) i ltac:(lia) Hi)
        as (H1 & H2 & H3 & H4 & _). repeat split; try done; lia.
Qed.

Lemma insert_all_lookup (bs : list Block) (m : gmap Hash Header) h p :
  foldl (λ m b, <[Block_Hash b := b_Header b]> m) m bs !! h = Some p →
  m !! h = Some p ∨ ∃ i b, bs !! i = Some b ∧ Block_Hash b = h ∧ p = b_Header b.
Proof.
  clear GetBlock_ok GetBlock. revert m. induction bs as [|b bs IH]; intros m; cbn; [by left|]. intros [Hm|(i & b' & Hi & Hb)]%IH.
  - destruct (decide (Block_Hash b = h)) as [<-|Hne].
    + rewrite lookup_insert_eq in Hm. right. exists O, b. naive_solver.
    + rewrite lookup_insert_ne in Hm by done. by left.
  - right. by exists (S i), b'.
Qed.
Lemma insert_all_None (bs : list Block) (m : gmap Hash Header) h :
  foldl (λ m b, <[Block_Hash b := b_Header b]> m) m bs !! h = None → ∀ b, b ∈ bs → Block_Hash b ≠ h.
Proof.
  clear GetBlock_ok GetBlock. assert (∀ (m : gmap Hash Header) (bs : list Block), is_Some (m !! h) →
    is_Some (foldl (λ m b, <[Block_Hash b := b_Header b]> m) m bs !! h)) as Hk.
  { intros m' bs'. revert m'. induction bs' as [|b' bs' IH']; intros m' Hm; cbn; [done|]. apply IH'.
    apply lookup_insert_is_Some'. by right. }
  revert m. induction bs as [|b bs IH]; intros m Hm b' Hb'; [by apply elem_of_nil in Hb'|]. cbn in Hm.
  apply elem_of_cons in Hb' as [->|Hb']; [|by eapply IH].
  intros <-. destruct (Hk (<[Block_Hash b := b_Header b]> m) bs) as [? E]; [rewrite lookup_insert_eq; by eexists|congruence].
Qed.

Lemma check_uncles_ok e block ancestors seen uncles :
  check_uncles config now e block ancestors seen uncles = None →
  NoDup (map Header_Hash uncles)
  ∧ Forall (λ u, Header_Hash u ∉ seen ∧ ancestors !! Header_Hash u = None
      ∧ ∃ p, ancestors !! h_ParentHash u = Some p ∧ h_ParentHash u ≠ h_ParentHash (b_Header block)
             ∧ verifyHeader config now e u p true true = None) uncles.
Proof.
  clear GetBlock_ok GetBlock. revert seen. induction uncles as [|u uncles IH]; intros seen; cbn; [by repeat constructor|].
  case_bool_decide as Hs; [done|]. destruct (ancestors !! Header_Hash u) eqn:Ea; [done|].
  destruct (ancestors !! h_ParentHash u) as [p|] eqn:Ep; [|done]. case_bool_decide as Hp; [done|].
  intros [Hv Hr]%or_else_None. destruct (IH _ Hr) as [Hnd Hall]. split.
  - constructor; [|done]. rewrite list_elem_of_fmap. intros (u' & E & Hu'). rewrite Forall_forall in Hall.
    destruct (Hall u' Hu') as [Hn _]. set_solver.
  - constructor; [split; [done|]; split; [done|]; by exists p|]. eapply Forall_impl; [exact Hall|].
    intros u' (H1 & H2 & H3). split; [set_solver|done].
Qed.
End headers.

(** C39: which headers are accepted.  [verifyHeader] returns no error exactly
    for the headers with short extra data, a time after the parent's and, for
    a block, not too far in the future, the difficulty of the formula, a smoke
    limit below 2{^63} that differs from the parent's by less than a 1024th
    and is at least 5000, no more smoke used than that, the next number, a
    valid seal if asked for, and the marks of the forks; the arithmetic on
    [int64] does not distort the comparison of the limits. *)
Theorem verifyHeader_exact `{Crypto, Hashimoto} (config : ChainConfig) (now : Z) (e : Engine) (header parent : Header)
    (uncle seal : bool) (Hw : header_wf header) (Hn : 0 ≤ now < 2 ^ 63) (Hp : 0 ≤ h_SmokeLimit parent < 2 ^ 63) :
  verifyHeader config now e header parent uncle seal = None ↔ header_ok config now e header parent uncle seal.
Proof. by apply verifyHeader_spec. Qed.

(** C23: which uncles are accepted.  The engine is not in the mode that accepts
    everything, the database finds blocks by their hash and number, and clock,
    numbers and limits are within 63 bits.  When [VerifyUncles] returns no error
    the block has at most two uncles, with different hashes; none of them is an
    ancestor of the last seven generations, the block itself, or an uncle of
    one of those ancestors.  Each is a valid header on top of an ancestor two to
    seven generations back, so that its number is one to six below the block's
    and the fraction [(uncle.Number + 8 - header.Number) / 8] of its reward is
    between 2/8 and 7/8; or it is a valid header on top of the block itself,
    which the code puts among the ancestors, and then the fraction is 9/8. *)
Theorem VerifyUncles_sound `{Crypto, Hashimoto} (config : ChainConfig) (now : Z) (GetBlock : Hash → Z → option Block)
    (e : Engine) (block : Block)
    (Hchain : ∀ h n b, GetBlock h n = Some b →
       Block_Hash b = h ∧ h_Number (b_Header b) = n ∧ n < 2 ^ 63 ∧ 0 ≤ h_SmokeLimit (b_Header b) < 2 ^ 63)
    (Hnow : 0 ≤ now < 2 ^ 63) (Hmode : PowMode e ≠ ModeFullFake) (Hnum : 1 ≤ h_Number (b_Header block) < 2 ^ 63)
    (Hwf : Forall header_wf (b_Uncles block)) (Hlimit : 0 ≤ h_SmokeLimit (b_Header block) < 2 ^ 63)
    (Hv : VerifyUncles config now GetBlock e block = None) :
  let generations := ancestry GetBlock 7 (h_ParentHash (b_Header block)) (h_Number (b_Header block) - 1) in
  (length (b_Uncles block) ≤ 2)%nat ∧ NoDup (map Header_Hash (b_Uncles block))
  ∧ Forall (λ u,
      ((∃ i b, (1 ≤ i < 7)%nat ∧ generations !! i = Some b ∧ Block_Hash b = h_ParentHash u
               ∧ header_ok config now e u (b_Header b) true true
               ∧ 2 ≤ h_Number u + 8 - h_Number (b_Header block) ≤ 7)
       ∨ (h_ParentHash u = Block_Hash block ∧ header_ok config now e u (b_Header block) true true
          ∧ h_Number u + 8 - h_Number (b_Header block) = 9))
      ∧ (∀ b, b ∈ block :: generations → Block_Hash b ≠ Header_Hash u)
      ∧ (∀ b u', b ∈ generations → u' ∈ b_Uncles b → Header_Hash u' ≠ Header_Hash u)) (b_Uncles block).
Proof.
  revert Hv. unfold VerifyUncles. rewrite bool_decide_false by done. destruct (Z.ltb_spec maxUncles (len (b_Uncles block))) as [|Hlen]; [done|].
  unfold maxUncles in Hlen. rewrite (u64_small (h_Number _)), u64_small by (unfold is_u64; lia).
  set (gens := ancestry GetBlock 7 _ _). intros Hv. split; [lia|].
  destruct (b_Uncles block) as [|u0 us] eqn:Eu; [by repeat constructor|]. rewrite <- Eu in *.
  destruct (gather_spec GetBlock 7 (h_ParentHash (b_Header block)) (h_Number (b_Header block) - 1) (∅, ∅)) as [Ha Hs].
  fold gens in Ha, Hs. cbn [fst snd] in Ha, Hs.
  destruct (gather_ancestors _ _ _ _ _) as [ancestors seen]. cbn [fst snd] in Ha, Hs. subst ancestors.
  destruct (check_uncles_ok config now e block _ _ _ Hv) as [Hnd Hall]. split; [done|].
  rewrite Forall_forall in *. intros u Hu. specialize (Hwf u Hu).
  destruct (Hall u Hu) as (Hseen & Hnone & p & Hp & Hne & Hver). apply lookup_insert_None in Hnone as [Hnone Hself].
  split; [|split; [intros b' [->|Hb']%elem_of_cons; [done|by eapply insert_all_None]|
    intros b' u' Hb' Hu' E; apply Hseen, elem_of_union; right; apply Hs; right; by exists b', u']].
  apply lookup_insert_Some in Hp as [[<- <-]|[Hnb Hp]]; [right|left].
  - apply verifyHeader_spec in Hver; [|done..]. split; [done|]. split; [done|]. rewrite (ok_number _ _ _ _ _ _ _ Hver). lia.
  - destruct (insert_all_lookup _ _ _ _ Hp) as [Hemp|(i & b & Hi & Hb & ->)]; [by rewrite lookup_empty in Hemp|].
    destruct (ancestry_at GetBlock Hchain 7 (h_ParentHash (b_Header block)) (h_Number (b_Header block) - 1) i b ltac:(lia) Hi) as (Hi7 & Hbn & Hb0 & Hbl & Hzero).
    assert (i ≠ O) as Hi0 by (intros ->; by rewrite (Hzero eq_refl) in Hb).
    apply verifyHeader_spec in Hver; [|done..]. exists i, b. split; [lia|]. split; [done|]. split; [done|]. split; [done|].
    rewrite (ok_number _ _ _ _ _ _ _ Hver). lia.
Qed.

(** C20: a batch of headers is verified in order.  In an engine that does not
    accept everything unseen, however the collector, the
    workers and the channels of [VerifyHeaders] interleave, what has been
    passed on are the results of the first headers in order, all of them when
    the collector returns without having been told to; until then some
    goroutine other than an abort can go on, and after at most four steps per
    header and one everything has stopped. *)
Theorem VerifyHeaders_in_order `{Crypto, Hashimoto} (config : ChainConfig) (now : Z) (GetHeader : Hash → Z → option Header)
    (e : Engine) (headers : list Header) (seals : list bool) (threads k : nat)
    (b : batch (err := header_error)) (Hmode : PowMode e ≠ ModeFullFake) (Hh : headers ≠ []) (Ht : (0 < threads)%nat) :
  let n := length headers in
  let workers := (threads `min` n)%nat in
  let work := verifyHeaderWorker config now GetHeader e headers seals in
  nsteps (step n workers work) k (start n workers) b →
  (k ≤ 4 * n + 1)%nat
  ∧ (∃ m, b_results b = map work (seq 0 m))
  ∧ (b_finished b = true → b_aborted b = false → b_results b = map work (seq 0 n))
  ∧ (b_finished b = false → ∃ b', step n workers work b b' ∧ b_aborted b' = false).
Proof.
  cbn zeta. intros Hk. assert (0 < length headers)%nat by (destruct headers; [done|cbn; lia]).
  apply (run_in_order (length headers) (threads `min` length headers)); [done|lia|done].
Qed.
