(* ===== verification/RewardProps.v ===== *)
(** * Rewards of the proof-of-work engine

    What a block pays to whom and how much money it creates; and that for a
    long range of blocks the reward is negative, so that a block of a miner
    without savings cannot be finalised. *)
From S2P Require Import Prelude RlpEncode RlpRaw RlpDecode AccessList StateDB StateRevert StateCommit Params ChainConfig VmBase VmMachine Precompiles VmSmoke VmOps VmTables Evm StateTransition Transaction Receipts BlockHeader VmLogic VmState VmSupply VmReadOnly VmSound StateFinal Ethash.
Local Open Scope Z_scope.

(** ** Rewards *)




Definition at_ (a : Address) (v : Z) (x : Address) : Z := if bool_decide (x = a) then v else 0.




Section rewards.
Context {B : Backend} {BL : BackendLaws} {CR : Crypto} {CL : CryptoLaws}.
Implicit Types (s : StateDB.StateDB).

(** The account has not been destructed in this transaction. *)
Definition alive s (a : Address) : Prop := ∀ o, existing s a = Some o → suicided o = false.

Lemma alive_kept s s' a : kept s s' → is_address a → alive s a → alive s' a.
Proof.
  intros Hk Ha Hal o' Ho'. pose proof (kp_object _ _ Hk a Ha) as Ho. rewrite Ho' in Ho. unfold object_kept in Ho.
  destruct (existing s a) as [o|] eqn:E; [|by destruct Ho]. destruct Ho as [O _]. rewrite (oe_suicided _ _ _ O). by apply Hal.
Qed.

Lemma existing_same_maps s s' a :
  stateObjects s' = stateObjects s → trie s' = trie s → snap s' = snap s → existing s' a = existing s a.
Proof. intros E1 E2 E3. unfold existing. by rewrite (view_ext s' s) by (done || by rewrite E1). Qed.
Lemma existing_append e s a : existing (append e s) a = existing s a.
Proof. by apply existing_same_maps; unfold append; destruct (dirtied e). Qed.
Lemma existing_set o s b :
  existing (setStateObject o s) b
  = if bool_decide (b = address o) then (if deleted o then None else Some o) else existing s b.
Proof. unfold existing. rewrite set_view. by case_bool_decide. Qed.

(** The object that [AddBalance] works on. *)
Lemma AddBalance_object a v s : state_wf s → is_address a →
  ∃ o t, StateDB.AddBalance a v s = obj_AddBalance v o t ∧ kept s t ∧ address o = a ∧ deleted o = false
    ∧ existing t a = Some o ∧ Balance (data o) = bal s a.
Proof.
  intros [Hw _] Ha. destruct (GetOrNew_step law_hash_length law_hash_address s a Hw Ha) as (_ & _ & Hl & Hd).
  destruct (bal_get_or_new s a a Hw Ha Ha) as (_ & Ea & _ & Eb). pose proof (kept_get_or_new s a Hw Ha) as Hk.
  exists (GetOrNewStateObject a s).1, (GetOrNewStateObject a s).2.
  split; [unfold StateDB.AddBalance, on_object; by destruct (GetOrNewStateObject a s)|].
  repeat split; try done; try apply Hk. unfold existing. by rewrite view_unfold, Hl, Hd.
Qed.

Lemma alive_AddBalance a v s x : state_wf s → is_address a → is_address x → alive s x → alive (StateDB.AddBalance a v s) x.
Proof.
  intros Hw Ha Hx Hal. destruct (AddBalance_object a v s Hw Ha) as (o & t & -> & Hk & Ea & Hd & He & _).
  pose proof (alive_kept _ _ _ Hk Hx Hal) as Ht. unfold obj_AddBalance. case_if.
  - case_if; [|done]. unfold alive, touch. case_if; rewrite ?(existing_same_maps (append (touchChange (address o)) t)) by done;
      by rewrite existing_append.
  - unfold alive, obj_SetBalance. rewrite existing_set, existing_append. cbn. rewrite Hd. case_bool_decide as E; [|done].
    intros o' [= <-]. apply (Ht o). by rewrite E, Ea.
Qed.

(** From [s] to [s'] the balances change by [f], and nothing is destructed. *)
Definition credits s s' (f : Address → Z) : Prop :=
  state_wf s' ∧ (∀ x, is_address x → bal s' x = bal s x + f x) ∧ (∀ x, is_address x → alive s x → alive s' x).

Lemma credits_AddBalance a v s : state_wf s → is_address a → credits s (StateDB.AddBalance a v s) (at_ a v).
Proof.
  intros Hw Ha. split; [by eapply (state_wf_exec (OpAddBalance a v) s _ 0)|]. split; [|intros; by apply alive_AddBalance].
  intros x Hx. rewrite (bal_exec (OpAddBalance a v) s _ 0 x) by (done || apply Hw). cbn. unfold at_. case_bool_decide; lia.
Qed.
Lemma credits_trans s1 s2 s3 f g : credits s1 s2 f → credits s2 s3 g → credits s1 s3 (λ x, f x + g x).
Proof.
  intros (_ & H1 & A1) (Hw & H2 & A2). split; [done|]. split; [|auto]. intros x Hx. rewrite H2, H1 by done. lia.
Qed.
Lemma credits_ext s s' f g : (∀ x, f x = g x) → credits s s' f → credits s s' g.
Proof. intros E (Hw & H & Hal). split; [done|]. split; [|done]. intros x Hx. by rewrite H, E. Qed.
Lemma credits_query q s s' :
  state_wf s → op_wf 0 q → is_query q = true → exec q s = Some s' → state_eq s' s ∧ credits s s' (λ _, 0).
Proof.
  intros Hw Wq Hq Ex. pose proof (query_eq q s s' 0 (proj1 Hw) Wq Hq Ex) as E. split; [done|].
  split; [eapply (state_wf_exec q); try done; by destruct q|].
  split; [intros x Hx; rewrite (bal_eq s s' x) by done; lia|]. intros x Hx. by apply alive_kept; [apply kept_eq|].
Qed.



(** The payments of each era. *)
Context (number : Z) (vet follower : Address).
Hypothesis Hvet : is_address vet.
Hypothesis Hfollower : is_address follower.




End rewards.

Lemma BytesToAddress_20 b : is_address (BytesToAddress b).
Proof.
  unfold is_address, BytesToAddress. destruct (Z.ltb_spec 20 (len b)); rewrite length_app, length_replicate; [|lia].
  rewrite length_drop. lia.
Qed.

Section recipients.
Context {B : Backend} {BL : BackendLaws} {CR : Crypto}.
Implicit Types (s : StateDB.StateDB).

(** The addresses that the contract of the creator of the chain names, the
    older ones up to the block it names. *)
Definition recipients (header genesisHeader : Header) s : Address * Address :=
  let contract := CreateAddress (BytesToAddress (h_Extra genesisHeader)) 0 in
  let slot n := (StateDB.GetState contract (BytesToHash [n]) s).1 in
  if be_decode (slot 0) <? h_Number header
  then (BytesToAddress (drop 12 (slot 1)), BytesToAddress (drop 12 (slot 2)))
  else (BytesToAddress (drop 12 (slot 3)), BytesToAddress (drop 12 (slot 4))).

Lemma read_slot s s' c k v : state_wf s → is_address c → StateDB.GetState c k s = (v, s') →
  v = (StateDB.GetState c k s).1 ∧ credits s s' (λ _, 0)
  ∧ ∀ k, (StateDB.GetState c k s').1 = (StateDB.GetState c k s).1.
Proof.
  intros Hw Hc E. split; [by rewrite E|].
  destruct (credits_query (OpGetState c k) s s' Hw Hc eq_refl) as [Eq Hcr]; [cbn; by rewrite E|].
  split; [done|]. intros k'. pose proof Hcr as [Hw' _].
  apply (sa_GetState _ _ (state_eq_answers law_hash_length law_hash_address s' s (wf_objs _ (proj1 Hw')) (wf_objs _ (proj1 Hw)) Eq)). done.
Qed.

(** Two more reads do not change what the first one saw. *)
Lemma read_pair s s0 c n m v1 s1 v2 s2 :
  state_wf s0 → is_address c → (∀ k, (StateDB.GetState c k s0).1 = (StateDB.GetState c k s).1) → credits s s0 (λ _, 0) →
  reward_address c n s0 = (v1, s1) → reward_address c m s1 = (v2, s2) →
  v1 = BytesToAddress (drop 12 (StateDB.GetState c (BytesToHash [n]) s).1)
  ∧ v2 = BytesToAddress (drop 12 (StateDB.GetState c (BytesToHash [m]) s).1) ∧ credits s s2 (λ _, 0).
Proof.
  intros Hw Hc H0 Hcr0. unfold reward_address.
  destruct (StateDB.GetState c (BytesToHash [n]) s0) as [w1 t1] eqn:E1. intros [= <- <-].
  destruct (read_slot _ _ _ _ _ Hw Hc E1) as (-> & Hcr1 & H1).
  destruct (StateDB.GetState c (BytesToHash [m]) t1) as [w2 t2] eqn:E2. intros [= <- <-].
  destruct (read_slot _ _ _ _ _ (proj1 Hcr1) Hc E2) as (-> & Hcr2 & _). rewrite H1, !H0. split; [done|]. split; [done|].
  eapply credits_ext; [|exact (credits_trans _ _ _ _ _ (credits_trans _ _ _ _ _ Hcr0 Hcr1) Hcr2)]. done.
Qed.

(** The reads at the start of [AccumulateNewRewards]. *)
Lemma read_recipients header genesisHeader s :
  state_wf s →
  let c := CreateAddress (BytesToAddress (h_Extra genesisHeader)) 0 in
  ∃ vet follower t,
    (let '(changeAtBlock, s) := StateDB.GetState c (BytesToHash [0]) s in
     if be_decode changeAtBlock <? h_Number header
     then let '(vet, s) := reward_address c 1 s in let '(follower, s) := reward_address c 2 s in (vet, follower, s)
     else let '(vet, s) := reward_address c 3 s in let '(follower, s) := reward_address c 4 s in (vet, follower, s))
    = (vet, follower, t)
    ∧ recipients header genesisHeader s = (vet, follower) ∧ credits s t (λ _, 0) ∧ is_address vet ∧ is_address follower.
Proof.
  intros Hw c. unfold recipients. fold c. assert (is_address c) as Hc by apply BytesToAddress_20.
  destruct (StateDB.GetState c (BytesToHash [0]) s) as [v0 s0] eqn:E0.
  destruct (read_slot _ _ _ _ _ Hw Hc E0) as (_ & Hcr0 & H0). cbn [fst]. case_if.
  - destruct (reward_address c 1 s0) as [v1 s1] eqn:E1. destruct (reward_address c 2 s1) as [v2 s2] eqn:E2.
    destruct (read_pair _ _ _ _ _ _ _ _ _ (proj1 Hcr0) Hc H0 Hcr0 E1 E2) as (-> & -> & Hcr).
    do 3 eexists. split; [done|]. split; [done|]. split; [done|]. split; apply BytesToAddress_20.
  - destruct (reward_address c 3 s0) as [v1 s1] eqn:E1. destruct (reward_address c 4 s1) as [v2 s2] eqn:E2.
    destruct (read_pair _ _ _ _ _ _ _ _ _ (proj1 Hcr0) Hc H0 Hcr0 E1 E2) as (-> & -> & Hcr).
    do 3 eexists. split; [done|]. split; [done|]. split; [done|]. split; apply BytesToAddress_20.
Qed.

End recipients.






(** ** Debts *)

Section debts.
Context {B : Backend} {BL : BackendLaws} {CR : Crypto} {MR : MapRange} {ML : MapRangeLaws}.
Implicit Types (s : StateDB.StateDB) (o : stateObject).

(** A live account with a negative balance. *)
Definition debtor (a : Address) s : Prop :=
  keyed_objects s ∧ ∃ o, stateObjects s !! a = Some o ∧ Balance (data o) < 0 ∧ deleted o = false.

Lemma Account_value_negative d : Balance d < 0 → ∃ e, EncodeToBytes (Account_value d) = Err e.
Proof.
  intros Hb. unfold EncodeToBytes, Account_value. cbn [write write_all]. unfold writeBigIntPtr, writeBigInt. zcmp. by eexists.
Qed.

(** The storage of an object is all that [updateRoot] changes besides the
    root. *)
Lemma update_slots_kept l st :
  let o := st.1.2 in let o' := (foldl update_slot st l).1.2 in
  data o' = data o ∧ address o' = address o ∧ deleted o' = deleted o.
Proof.
  cbn zeta. revert st. induction l as [|[key value] l IH]; intros [[tr o] storage]; [done|]. cbn [foldl].
  destruct (IH (update_slot (tr, o, storage) (key, value))) as (-> & -> & ->). unfold update_slot. case_bool_decide; [done|].
  destruct (if bool_decide (value = zero_hash) then _ else _) as [err tr']. cbn [fst snd].
  destruct err; [|done]. unfold obj_setError. cbn. by destruct (o_dbErr o).
Qed.

Lemma updateRoot_kept o s :
  let x := updateRoot o s in
  Balance (data x.1) = Balance (data o) ∧ address x.1 = address o ∧ deleted x.1 = deleted o
  ∧ stateObjects x.2 = stateObjects s.
Proof.
  cbn zeta. unfold updateRoot, updateTrie. case_if.
  - destruct (o_trie (obj_finalise o)) as [tr|]; [|done]. by destruct (TrieHash tr).
  - set (storage := match snap s with Some _ => _ | None => _ end).
    assert (∀ tr o1, getTrie (obj_finalise o) = (tr, o1) → data o1 = data o ∧ address o1 = address o ∧ deleted o1 = deleted o) as Hg.
    { intros tr o1. unfold getTrie. cbn. intros E. repeat case_match; simplify_eq/=; try done.
      unfold obj_setError. cbn. by destruct (o_dbErr o). }
    destruct (getTrie (obj_finalise o)) as [tr o1]. destruct (Hg tr o1 eq_refl) as (G1 & G2 & G3).
    pose proof (update_slots_kept (range_storage (pendingStorage o1)) (tr, o1, storage)) as Hk.
    destruct (foldl update_slot (tr, o1, storage) _) as [[tr' o2] storage']. cbn [fst snd] in Hk. destruct Hk as (K1 & K2 & K3).
    cbn. destruct (TrieHash tr'). cbn. rewrite K1, K2, K3, G1, G2, G3. by destruct storage'.
Qed.

Lemma updateStateObject_objects o s s' : updateStateObject o s = Some s' → stateObjects s' = stateObjects s.
Proof.
  unfold updateStateObject. destruct (EncodeToBytes _); [|done]. destruct (TryUpdate _ _ _) as [err tr].
  assert (∀ e, stateObjects (setError e (set_trie tr s)) = stateObjects s) as He by (intros e; unfold setError; cbn; by destruct (dbErr s)).
  intros E. destruct err; repeat case_match; simplify_eq/=; try done; apply He.
Qed.

Lemma setError_objects e s : stateObjects (setError e s) = stateObjects s.
Proof. unfold setError. by destruct (dbErr s). Qed.

(** The account of a debtor cannot be written, and stays one while others
    are. *)
Lemma write_debtor a s : debtor a s → write_object (Some s) a = None.
Proof.
  intros (Hk & o & Ho & Hb & Hd). unfold write_object. cbn. rewrite Ho. cbn. rewrite Hd.
  destruct (updateRoot_kept o s) as (Eb & _). destruct (updateRoot o s) as [o' s']. cbn in Eb.
  unfold updateStateObject. destruct (Account_value_negative (data o')) as [e ->]; [lia|done].
Qed.
Lemma write_other a b s s' : debtor a s → b ≠ a → write_object (Some s) b = Some s' → debtor a s'.
Proof.
  intros (Hk & o & Ho & Hb & Hd) Hne. unfold write_object. cbn. destruct (stateObjects s !! b) as [ob|] eqn:Eb; [|done]. cbn.
  assert (address ob = b) as Ab by (by apply Hk). destruct (deleted ob).
  - intros [= <-]. unfold deleteStateObject. destruct (TryDelete _ _) as [[e|] tr]; [|by split; [|exists o]].
    unfold debtor, keyed_objects. rewrite setError_objects. by split; [|exists o].
  - destruct (updateRoot_kept ob s) as (_ & Ea & _ & Es). destruct (updateRoot ob s) as [ob' s1]. cbn in Ea, Es.
    intros E%updateStateObject_objects. unfold debtor, keyed_objects. rewrite E. cbn. rewrite Ea, Ab, Es. split.
    + intros c oc. rewrite lookup_insert_Some. intros [[<- <-]|[_ Hc]]; [congruence|by apply Hk].
    + exists o. by rewrite lookup_insert_ne.
Qed.
Lemma write_all_debtor a l s : debtor a s → a ∈ l → foldl write_object (Some s) l = None.
Proof.
  assert (∀ l, foldl write_object None l = None) as Hn by (clear; induction l; done).
  revert s. induction l as [|b l IH]; intros s Hd Ha; [by apply elem_of_nil in Ha|]. cbn [foldl].
  destruct (decide (b = a)) as [->|Hne]; [by rewrite write_debtor|].
  destruct (write_object (Some s) b) as [s'|] eqn:E; [|apply Hn]. apply IH; [by eapply write_other|set_solver].
Qed.

(** [Finalise] marks all changed accounts as pending. *)
Lemma finalise_object_pending del s b :
  stateObjectsPending s ⊆ stateObjectsPending (finalise_object del s b)
  ∧ (is_Some (stateObjects s !! b) → b ∈ stateObjectsPending (finalise_object del s b)).
Proof.
  unfold finalise_object. destruct (stateObjects s !! b) as [o|]; [|split; [done|by intros []]].
  case_if; [cbn [snap setStateObject set_stateObjects]; destruct (snap s)|]; cbn; set_solver.
Qed.
Lemma finalise_pending del l s a :
  keyed_objects s → is_Some (stateObjects s !! a) → a ∈ stateObjectsPending s ∨ a ∈ l →
  a ∈ stateObjectsPending (foldl (finalise_object del) s l).
Proof.
  revert s. induction l as [|b l IH]; intros s Hk Ho Ha; cbn [foldl]; [by destruct Ha as [|?%elem_of_nil]|].
  destruct (finalise_object_step del s b Hk) as (_ & F & _). destruct (finalise_object_pending del s b) as [P1 P2].
  apply IH; [by eapply final_at_keyed|rewrite F; by apply fmap_is_Some|].
  destruct Ha as [Ha|[->|Ha]%elem_of_cons]; [left; set_solver|left; auto|by right].
Qed.

Lemma IntermediateRoot_debtor del a s o :
  keyed_objects s → stateObjects s !! a = Some o → a ∈ dom (dirties s) →
  Balance (data o) < 0 → deleted o = false → suicided o = false → IntermediateRoot del s = None.
Proof.
  intros Hk Ho Hd Hb Hdel Hsui. unfold IntermediateRoot. pose proof (Finalise_finalised del s Hk) as F.
  assert (a ∈ range_set (dom (dirties s))) as Hr by (rewrite law_range_set; by apply elem_of_elements).
  assert (removed del o = false) as Hrem.
  { unfold removed, StateDB.empty. rewrite Hsui. zcmp. by rewrite andb_false_r, andb_false_r. }
  rewrite (write_all_debtor a); [done| |].
  - split; [by eapply final_at_keyed; [|apply F]|]. exists (obj_finalise o). split; [|done].
    rewrite (fd_objects _ _ _ F), Ho. cbn. rewrite bool_decide_true by done. unfold final_obj. by rewrite Hrem.
  - rewrite law_range_set. apply elem_of_elements. unfold Finalise, clearJournalAndRefund.
    pose proof (finalise_pending del (range_set (dom (dirties s))) s a Hk ltac:(by exists o) (or_intror Hr)) as Hp. by case_if.
Qed.

(** What the last payment of a block leaves behind. *)
Lemma AddBalance_live a v s : state_wf s → is_address a → v ≠ 0 → alive s a →
  ∃ o, stateObjects (StateDB.AddBalance a v s) !! a = Some o ∧ Balance (data o) = bal s a + v
    ∧ deleted o = false ∧ suicided o = false ∧ a ∈ dom (dirties (StateDB.AddBalance a v s)).
Proof.
  intros Hw Ha Hv Hal. destruct (AddBalance_object a v s Hw Ha) as (o & t & -> & Hk & Ea & Hd & He & Eb).
  pose proof (alive_kept _ _ _ Hk Ha Hal o He) as Hs. unfold obj_AddBalance. rewrite (proj2 (Z.eqb_neq v 0) Hv).
  exists (setBalance (Balance (data o) + v) o). unfold obj_SetBalance. cbn. rewrite Ea, lookup_insert_eq.
  repeat split; [cbn; by rewrite Eb|done|done|]. set_solver.
Qed.
End debts.

Lemma initial_reward_negative n : 400000 ≤ n ≤ 1000000 → initial_reward n ≤ -3000000000000000000.
Proof.
  intros Hn. unfold initial_reward, SlowStart, rewardBlockFlat, rewardBlockDivisor, slowBlockReward. zcmp.
  assert (4 ≤ n / 100000) by (apply Z.div_le_lower_bound; lia). lia.
Qed.

(** C21: the reward of a block is negative from number 400000 to 1000000, where
    the formula takes three coins off for every 100000 blocks.  Mining then
    costs the miner at least 2.61 coins; the miner of a block who has less than
    that ends with a negative balance, which cannot be encoded, and [Finalize]
    panics when it computes the state root. *)
Theorem Finalize_panics `{BL : BackendLaws} `{Crypto} `{ML : MapRangeLaws} (config : ChainConfig) (genesisHeader header : Header)
    (s : StateDB.StateDB) (Hs : state_wf s) (Hm : is_address (h_Coinbase header))
    (Hn : 400000 ≤ h_Number header ≤ 1000000)
    (Hal : (StateDB.HasSuicided (h_Coinbase header) s).1 = false)
    (Hb : (StateDB.GetBalance (h_Coinbase header) s).1 < 2610000000000000000) :
  initial_reward (h_Number header) ≤ -3000000000000000000
  ∧ Finalize config genesisHeader header [] s = None.
Proof.
  pose proof (initial_reward_negative _ Hn) as HR. split; [done|]. rewrite GetBalance_bal in Hb.
  assert (alive s (h_Coinbase header)) as Ha.
  { intros o Ho. rewrite <- Hal. unfold StateDB.HasSuicided.
    rewrite (read_answer (λ o, match o with Some o => suicided o | None => false end)). by rewrite Ho. }
  unfold Finalize, AccumulateNewRewards.
  destruct (read_recipients header genesisHeader s Hs) as (vet & follower & t & Er & _ & Hcr & Hv & _).
  destruct (StateDB.GetState _ _ s) as [v0 s0]. rewrite Er. cbn [reward_uncles].
  unfold rewardDistCannasseurBlock. zcmp. unfold pay_ruderalis, share, rewardDistMinerRuderalis, rewardDistVet.
  set (R := initial_reward (h_Number header)) in *. destruct Hcr as (Hwt & Hbt & Hat).
  assert (R * 13 / 100 ≤ 0) by (apply Z.div_le_upper_bound; lia).
  assert (R * 87 / 100 ≤ -2610000000000000000) by (apply Z.div_le_upper_bound; lia).
  destruct (credits_AddBalance vet (R * 13 / 100) t Hwt Hv) as (Hw1 & Hb1 & Ha1).
  destruct (AddBalance_live (h_Coinbase header) (R * 87 / 100) _ Hw1 Hm ltac:(lia) (Ha1 _ Hm (Hat _ Hm Ha)))
    as (o & Ho & Eb & Hd & Hsui & Hdirty).
  eapply (IntermediateRoot_debtor _ (h_Coinbase header) _ o); try done.
  - destruct (credits_AddBalance (h_Coinbase header) (R * 87 / 100) _ Hw1 Hm) as (Hw2 & _). apply wf_keyed, Hw2.
  - rewrite Eb, Hb1, Hbt by done. unfold at_. case_bool_decide; lia.
Qed.
