(* ===== verification/CliqueProps.v ===== *)
(** * Properties of the proof-of-authority engine

    The cached tally is the count of the votes; no signer signs twice within
    half of the set of signers; exactly one signer is in turn. *)
From S2P Require Import Prelude RlpEncode RlpRaw RlpDecode AccessList StateDB StateRevert StateCommit ChainConfig Params VmBase VmMachine Precompiles Transaction Receipts BlockHeader Clique.
From stdpp Require Import sorting.
Local Open Scope Z_scope.

(** ** The tally *)

Definition votes_on (a : Address) (votes : list Vote) : list Vote := filter (λ v, v_Address v = a) votes.

(** What the tally has for an account, when [st] tells for an account what the
    valid vote on it is. *)
Definition tally_entry (st : Address → bool) (votes : list Vote) (a : Address) : option TallyEntry :=
  match length (votes_on a votes) with
  | O => None
  | S n => Some (MkTally (st a) (Z.of_nat (S n)))
  end.

Definition tallied (st : Address → bool) (votes : list Vote) (tally : gmap Address TallyEntry) : Prop :=
  (∀ a, tally !! a = tally_entry st votes a) ∧ Forall (λ v, v_Authorize v = st (v_Address v)) votes.

Lemma tally_entry_ext st st' votes votes' a :
  st a = st' a → length (votes_on a votes) = length (votes_on a votes') → tally_entry st votes a = tally_entry st' votes' a.
Proof. intros E1 E2. unfold tally_entry. by rewrite E1, E2. Qed.

Lemma votes_on_cons a v votes :
  votes_on a (v :: votes) = if bool_decide (v_Address v = a) then v :: votes_on a votes else votes_on a votes.
Proof. unfold votes_on. rewrite filter_cons. case_decide; by rewrite ?bool_decide_true, ?bool_decide_false by done. Qed.
Lemma votes_on_app a l1 l2 : votes_on a (l1 ++ l2) = votes_on a l1 ++ votes_on a l2.
Proof. apply filter_app. Qed.

(** One vote less. *)
Lemma tallied_uncast st l1 v l2 s :
  tallied st (l1 ++ v :: l2) (Tally s) → tallied st (l1 ++ l2) (Tally (uncast (v_Address v) (v_Authorize v) s).2).
Proof.
  intros [Ht Hv]. pose proof Hv as Hv'. rewrite Forall_app, Forall_cons in Hv'. destruct Hv' as (F1 & Fv & F2).
  split; [|by apply Forall_app]. intros a. pose proof (Ht (v_Address v)) as Hc. unfold tally_entry in Hc.
  assert (∀ b, length (votes_on b (l1 ++ v :: l2)) = ((if bool_decide (v_Address v = b) then 1 else 0) + length (votes_on b (l1 ++ l2)))%nat) as Hl.
  { intros b. rewrite !votes_on_app, votes_on_cons, !length_app. case_bool_decide; cbn; lia. }
  rewrite Hl, bool_decide_true in Hc by done. cbn in Hc. unfold uncast. rewrite Hc. cbn [t_Authorize t_Votes].
  rewrite Fv, eqb_reflx. cbn [negb].
  destruct (decide (v_Address v = a)) as [<-|Hne].
  - unfold tally_entry. destruct (length (votes_on (v_Address v) (l1 ++ l2))) as [|k].
    + change (1 <? Z.of_nat 1) with false. cbn [snd Tally set_Tally]. apply lookup_delete_eq.
    + zcmp. cbn [snd Tally set_Tally]. rewrite lookup_insert_eq. do 2 f_equal. lia.
  - assert (tally_entry st (l1 ++ l2) a = Tally s !! a) as ->.
    { rewrite Ht. apply tally_entry_ext; [done|]. by rewrite Hl, bool_decide_false. }
    case_if; cbn [snd Tally set_Tally]; [by rewrite lookup_insert_ne|by rewrite lookup_delete_ne].
Qed.

(** One vote more. *)
Lemma tallied_cast st votes s a authorize signer number :
  (∀ b, st b = bool_decide (b ∉ Signers s)) → tallied st votes (Tally s) →
  let x := cast a authorize s in
  tallied st (if x.1 then votes ++ [MkVote signer number a authorize] else votes) (Tally x.2)
  ∧ (x.1 = true → authorize = st a) ∧ Signers x.2 = Signers s ∧ Recents x.2 = Recents s ∧ Votes x.2 = Votes s
  ∧ s_config x.2 = s_config s.
Proof.
  intros Hst [Ht Hv]. cbn zeta. unfold cast, validVote. pose proof (Hst a) as Ha.
  assert (((bool_decide (a ∈ Signers s) && negb authorize) || (negb (bool_decide (a ∈ Signers s)) && authorize)) = eqb authorize (st a)) as ->.
  { rewrite Ha, bool_decide_not. by destruct (bool_decide (a ∈ Signers s)), authorize. }
  destruct (eqb authorize (st a)) eqn:Eq; cbn [negb]; [|done]. apply eqb_prop in Eq.
  assert (∀ b, length (votes_on b (votes ++ [MkVote signer number a authorize]))
    = (length (votes_on b votes) + if bool_decide (a = b) then 1 else 0)%nat) as Hl.
  { intros b. rewrite votes_on_app, length_app, votes_on_cons. cbn [v_Address]. by destruct (bool_decide (a = b)). }
  assert (Forall (λ v, v_Authorize v = st (v_Address v)) (votes ++ [MkVote signer number a authorize])) as Hv'
    by (apply Forall_app; split; [done|by repeat constructor]).
  pose proof (Ht a) as Hc. unfold tally_entry in Hc.
  destruct (length (votes_on a votes)) as [|k] eqn:El; rewrite Hc; cbn [fst snd Tally set_Tally]; (split; [|done]); (split; [|done]); intros b.
  all: destruct (decide (a = b)) as [<-|Hne]; [|rewrite lookup_insert_ne, Ht by done; apply tally_entry_ext; [done|];
    rewrite Hl, bool_decide_false by done; lia].
  all: rewrite lookup_insert_eq; unfold tally_entry; rewrite Hl, El, bool_decide_true by done.
  - by rewrite Eq.
  - cbn [Nat.add]. rewrite Nat.add_comm. cbn [Nat.add t_Votes t_Authorize]. do 2 f_equal. lia.
Qed.

(** All votes of a signer less. *)
Lemma tallied_discard st c kept votes s :
  tallied st (kept ++ votes) (Tally s) →
  let x := discard_signer c votes s in
  tallied st (kept ++ x.1) (Tally x.2) ∧ x.1 = filter (λ v, v_Signer v ≠ c) votes
  ∧ Signers x.2 = Signers s ∧ Recents x.2 = Recents s ∧ s_config x.2 = s_config s.
Proof.
  revert kept s. induction votes as [|v votes IH]; intros kept s Ht; cbn [discard_signer]; [done|]. cbn zeta.
  rewrite filter_cons. case_bool_decide as Ec.
  - rewrite decide_False by naive_solver. destruct (IH kept _ (tallied_uncast _ _ _ _ _ Ht)) as (H1 & H2 & H3 & H4 & H5).
    assert (∀ a b, Signers (uncast a b s).2 = Signers s ∧ Recents (uncast a b s).2 = Recents s ∧ s_config (uncast a b s).2 = s_config s) as Hu.
    { intros a b. unfold uncast. by repeat case_match. }
    destruct (Hu (v_Address v) (v_Authorize v)) as (U1 & U2 & U3).
    split; [exact H1|]. split; [exact H2|]. by rewrite H3, H4, H5.
  - rewrite decide_True by done. specialize (IH (kept ++ [v]) s). rewrite <- app_assoc in IH. specialize (IH Ht).
    destruct (discard_signer c votes s) as [rest s']. cbn [fst snd] in *. rewrite <- app_assoc in IH.
    destruct IH as (H1 & H2 & H3). split; [done|]. split; [by rewrite H2|done].
Qed.

(** The votes on an account are settled. *)
Lemma tallied_settle st st' a votes tally :
  (∀ b, b ≠ a → st b = st' b) → tallied st votes tally →
  tallied st' (filter (λ v, v_Address v ≠ a) votes) (delete a tally).
Proof.
  intros Hst [Ht Hv]. assert (∀ b, votes_on b (filter (λ v, v_Address v ≠ a) votes) = if bool_decide (b = a) then [] else votes_on b votes) as Hf.
  { intros b. clear. induction votes as [|v votes IH]; [by case_bool_decide|]. rewrite filter_cons, votes_on_cons.
    destruct (decide (v_Address v = a)) as [E|E].
    - rewrite decide_False, IH by naive_solver. case_bool_decide; [done|]. by rewrite bool_decide_false by naive_solver.
    - rewrite decide_True, votes_on_cons, IH by done. case_bool_decide; [|done]. by rewrite bool_decide_false by naive_solver. }
  split.
  - intros b. destruct (decide (b = a)) as [->|Hne].
    + rewrite lookup_delete_eq. unfold tally_entry. by rewrite Hf, bool_decide_true.
    + rewrite lookup_delete_ne, Ht by done. apply tally_entry_ext; [by apply Hst|]. by rewrite Hf, bool_decide_false.
  - rewrite Forall_forall in *. intros v [Ha Hv']%list_elem_of_filter. rewrite <- Hst by done. by apply Hv.
Qed.

(** ** The votes *)

(** A snapshot in order: the tally counts the votes, which are valid, cast by
    signers, and at most one for a signer and an account. *)
Record snap_ok (s : Snapshot) : Prop := {
  ok_tally : tallied (λ a, bool_decide (a ∉ Signers s)) (Votes s) (Tally s);
  ok_voters : Forall (λ v, v_Signer v ∈ Signers s) (Votes s);
  ok_once : NoDup (map (λ v, (v_Signer v, v_Address v)) (Votes s))
}.

Lemma discard_vote_spec signer a votes :
  match discard_vote signer a votes with
  | Some (v, rest) => ∃ l1 l2, votes = l1 ++ v :: l2 ∧ rest = l1 ++ l2 ∧ v_Signer v = signer ∧ v_Address v = a
  | None => Forall (λ v, ¬ (v_Signer v = signer ∧ v_Address v = a)) votes
  end.
Proof.
  induction votes as [|v votes IH]; cbn [discard_vote]; [constructor|].
  destruct (bool_decide (v_Signer v = signer) && bool_decide (v_Address v = a)) eqn:E.
  - apply andb_true_iff in E as [E1%bool_decide_eq_true E2%bool_decide_eq_true]. by exists [], votes.
  - assert (¬ (v_Signer v = signer ∧ v_Address v = a)) as Hne.
    { intros [E1 E2]. by rewrite !bool_decide_true in E. }
    destruct (discard_vote signer a votes) as [[w rest]|]; cbn; [|by constructor].
    destruct IH as (l1 & l2 & -> & -> & ?). by exists (v :: l1), l2.
Qed.

(** The first vote of a signer on an account is taken out; no other is left. *)
Lemma discard_vote_ok signer a s :
  snap_ok s →
  let s' := match discard_vote signer a (Votes s) with
            | Some (vote, votes) => set_Votes votes (uncast (v_Address vote) (v_Authorize vote) s).2
            | None => s
            end in
  snap_ok s' ∧ (signer, a) ∉ map (λ v, (v_Signer v, v_Address v)) (Votes s')
  ∧ Signers s' = Signers s ∧ Recents s' = Recents s ∧ s_config s' = s_config s.
Proof.
  intros [Ht Hv Ho]. pose proof (discard_vote_spec signer a (Votes s)) as Hd.
  destruct (discard_vote signer a (Votes s)) as [[v rest]|]; cbn zeta.
  - destruct Hd as (l1 & l2 & El & -> & Es & Ea). rewrite El in *.
    assert (∀ b c, Signers (uncast b c s).2 = Signers s ∧ Recents (uncast b c s).2 = Recents s ∧ s_config (uncast b c s).2 = s_config s) as Hu
      by (intros b c; unfold uncast; by repeat case_match).
    destruct (Hu (v_Address v) (v_Authorize v)) as (U1 & U2 & U3). rewrite map_app in Ho. cbn in Ho.
    apply NoDup_app in Ho as (N1 & N2 & N3). apply NoDup_cons in N3 as [N3 N4]. subst signer a.
    split; [split; cbn [Votes set_Votes Tally Signers]|split; [|done]].
    + rewrite U1. by apply tallied_uncast.
    + rewrite U1. rewrite Forall_app, Forall_cons in Hv. apply Forall_app. naive_solver.
    + rewrite map_app. apply NoDup_app. split; [done|]. split; [|done]. intros x H1 H2. apply (N2 x H1). by right.
    + cbn [Votes set_Votes]. rewrite map_app, elem_of_app. intros [Hx|Hx]; [apply (N2 _ Hx); left|done].
  - split; [by split|]. split; [|done]. rewrite list_elem_of_fmap. intros (v & [= -> ->] & Hin).
    rewrite Forall_forall in Hd. by apply (Hd v Hin).
Qed.

Lemma NoDup_map_filter {A B} (f : A → B) (P : A → Prop) `{∀ x, Decision (P x)} l : NoDup (map f l) → NoDup (map f (filter P l)).
Proof.
  induction l as [|x l IH]; [done|]. cbn [map]. rewrite NoDup_cons, filter_cons. intros [Hx Hl]. case_decide; [|by apply IH].
  cbn. apply NoDup_cons. split; [|by apply IH]. rewrite list_elem_of_fmap in *. intros (y & Ey & [_ Hy]%list_elem_of_filter). apply Hx. by exists y.
Qed.

Lemma shift_recents_keeps number s :
  let s' := shift_recents number s in
  Signers s' = Signers s ∧ Votes s' = Votes s ∧ Tally s' = Tally s ∧ s_config s' = s_config s.
Proof. cbn zeta. unfold shift_recents. by case_if. Qed.

Lemma pass_vote_ok number a tally s :
  snap_ok s → Tally s !! a = Some tally → snap_ok (pass_vote number a tally s).
Proof.
  intros [Ht Hv Ho] Ha. unfold pass_vote. destruct (t_Authorize tally) eqn:Eauth.
  - split; cbn [Votes Tally Signers set_Votes set_Tally set_Signers].
    + eapply tallied_settle; [|exact Ht]. intros b Hb. apply bool_decide_ext. set_solver.
    + rewrite Forall_forall in *. intros v [_ Hin]%list_elem_of_filter. apply elem_of_union. right. by apply Hv.
    + by apply NoDup_map_filter.
  - set (s1 := set_Signers (Signers s ∖ {[a]}) s).
    destruct (shift_recents_keeps number s1) as (K1 & K2 & K3 & _).
    pose proof (tallied_discard (λ b, bool_decide (b ∉ Signers s)) a [] (Votes (shift_recents number s1)) (shift_recents number s1)) as Hd.
    cbn zeta in Hd. rewrite K2, K3 in Hd. cbn [app] in Hd. specialize (Hd Ht). rewrite K2.
    destruct (discard_signer a (Votes s1) (shift_recents number s1)) as [votes s2]. cbn [fst snd] in Hd.
    destruct Hd as (D1 & -> & D3 & _ & _). rewrite K1 in D3.
    split; cbn [Votes Tally Signers set_Votes set_Tally]; rewrite ?D3.
    + eapply tallied_settle; [|exact D1]. intros b Hb. apply bool_decide_ext. cbn. set_solver.
    + rewrite Forall_forall in *. intros v [_ [Hs Hin]%list_elem_of_filter]%list_elem_of_filter.
      cbn. apply elem_of_difference. split; [by apply Hv|]. by intros E%elem_of_singleton.
    + by apply NoDup_map_filter, NoDup_map_filter.
Qed.

Section clique.
Context {CR : Crypto} {MR : MapRange}.

(** The vote of a header. *)
Lemma vote_ok s signer number a authorize :
  snap_ok s → signer ∈ Signers s → (signer, a) ∉ map (λ v, (v_Signer v, v_Address v)) (Votes s) →
  snap_ok (cast_vote signer number a authorize s).
Proof.
  intros [Ht Hv Ho] Hs Hn. unfold cast_vote.
  destruct (tallied_cast (λ b, bool_decide (b ∉ Signers s)) (Votes s) s a authorize signer number ltac:(done) Ht) as (C1 & C2 & C3 & _ & C5 & _).
  destruct (cast a authorize s) as [counted s1]. cbn [fst snd] in *.
  set (s2 := if counted then _ else _).
  assert (Votes s2 = (if counted then Votes s ++ [MkVote signer number a authorize] else Votes s)
    ∧ Tally s2 = Tally s1 ∧ Signers s2 = Signers s) as (E1 & E2 & E3) by (unfold s2; rewrite <- C5; by destruct counted).
  assert (snap_ok s2) as Hok.
  { split; rewrite ?E1, ?E2, ?E3; [done| |].
    - destruct counted; [|done]. apply Forall_app. split; [done|]. by repeat constructor.
    - destruct counted; [|done]. rewrite map_app. apply NoDup_app. split; [done|].
      split; [|apply NoDup_singleton]. intros x Hx ->%list_elem_of_singleton. done. }
  cbn zeta. destruct (Tally s2 !! a) as [tally|] eqn:Et; cbn [default].
  - case_if; [by apply pass_vote_ok|done].
  - rewrite (proj2 (Z.ltb_ge _ _)); [done|]. cbn. apply Z.div_pos; lia.
Qed.

Lemma apply_header_ok s header s' : snap_ok s → apply_header s header = Ok s' → snap_ok s'.
Proof.
  intros Hs. unfold apply_header. set (number := u64 (h_Number header)).
  set (s0 := if number mod Epoch (s_config s) =? 0 then _ else s).
  assert (snap_ok s0) as H0.
  { unfold s0. case_if; [|done]. split; cbn; [|constructor..]. split; [done|constructor]. }
  destruct (shift_recents_keeps number s0) as (K1 & K2 & K3 & _).
  destruct (ecrecover header) as [signer|]; [|done]. case_bool_decide as Hsig; cbn [negb]; [|done]. case_bool_decide; [done|].
  set (s1 := set_Recents _ (shift_recents number s0)).
  assert (snap_ok s1) as H1.
  { destruct H0 as [Ht Hv Ho]. split; cbn [s1 Votes Tally Signers set_Recents]; by rewrite ?K1, ?K2, ?K3. }
  destruct (discard_vote_ok signer (h_Coinbase header) s1 H1) as (H2 & Hn & E2 & _).
  set (s2 := match discard_vote signer (h_Coinbase header) (Votes s1) with Some _ => _ | None => _ end) in *.
  assert (signer ∈ Signers s2) as Hin by (by rewrite E2).
  case_bool_decide; [|case_bool_decide; [|done]]; intros [= <-]; by apply vote_ok.
Qed.

(** ** Recent signers *)

Lemma vote_limit_pos s : 1 ≤ vote_limit s.
Proof. unfold vote_limit. assert (0 ≤ Z.of_nat (size (Signers s)) / 2) by (apply Z.div_pos; lia). lia. Qed.

Lemma shift_recents_lookup number s k :
  number - k < vote_limit s → Recents (shift_recents number s) !! k = Recents s !! k.
Proof. intros Hk. unfold shift_recents. case_if; [|done]. cbn [Recents set_Recents]. apply lookup_delete_ne. lia. Qed.

Lemma uncast_recents a b s : Recents (uncast a b s).2 = Recents s ∧ Signers (uncast a b s).2 = Signers s.
Proof. unfold uncast. by repeat case_match. Qed.
Lemma cast_recents a b s : Recents (cast a b s).2 = Recents s ∧ Signers (cast a b s).2 = Signers s.
Proof. unfold cast. by repeat case_match. Qed.
Lemma discard_signer_recents c votes s :
  Recents (discard_signer c votes s).2 = Recents s ∧ Signers (discard_signer c votes s).2 = Signers s.
Proof.
  revert s. induction votes as [|v votes IH]; intros s; cbn; [done|]. case_bool_decide.
  - destruct (IH (uncast (v_Address v) (v_Authorize v) s).2) as [-> ->]. apply uncast_recents.
  - specialize (IH s). by destruct (discard_signer c votes s).
Qed.

Lemma pass_vote_recents number a tally s k :
  let s' := pass_vote number a tally s in
  number - k < vote_limit s' → Recents s' !! k = Recents s !! k.
Proof.
  cbn zeta. unfold pass_vote. destruct (t_Authorize tally); [done|].
  set (s1 := set_Signers (Signers s ∖ {[a]}) s).
  destruct (discard_signer_recents a (Votes (shift_recents number s1)) (shift_recents number s1)) as [E1 E2].
  destruct (discard_signer a _ _) as [votes s2]. cbn [fst snd] in *. unfold vote_limit. cbn [Recents Signers set_Votes set_Tally].
  rewrite E1, E2. destruct (shift_recents_keeps number s1) as (K1 & _). rewrite K1. intros Hk. by rewrite shift_recents_lookup.
Qed.

(** A header enters the recent signers, from which its signer was absent, and
    pushes out none that is closer than half of the signers. *)
Lemma apply_header_recents s header s' :
  apply_header s header = Ok s' →
  let number := u64 (h_Number header) in
  ∃ signer, ecrecover header = Ok signer ∧ Recents s' !! number = Some signer
    ∧ (∀ k b, Recents s !! k = Some b → number - k < vote_limit s → b ≠ signer)
    ∧ (∀ k, k ≠ number → number - k < vote_limit s → number - k < vote_limit s' → Recents s' !! k = Recents s !! k).
Proof.
  unfold apply_header. set (number := u64 (h_Number header)).
  set (s0 := if number mod Epoch (s_config s) =? 0 then _ else s).
  assert (Recents s0 = Recents s ∧ Signers s0 = Signers s) as [R0 S0] by (unfold s0; by case_if).
  assert (vote_limit s0 = vote_limit s) as L0 by (unfold vote_limit; by rewrite S0).
  destruct (ecrecover header) as [signer|]; [|done]. case_bool_decide; cbn [negb]; [|done]. case_bool_decide as Hrec; [done|].
  set (s1 := set_Recents _ (shift_recents number s0)).
  set (s2 := match discard_vote signer (h_Coinbase header) (Votes s1) with Some _ => _ | None => _ end).
  assert (Recents s2 = Recents s1) as R2.
  { unfold s2. destruct (discard_vote _ _ _) as [[v votes]|]; [|done]. cbn [Recents set_Votes]. apply uncast_recents. }
  assert (∀ authorize, let s' := cast_vote signer number (h_Coinbase header) authorize s2 in
    ∀ k, number - k < vote_limit s' → Recents s' !! k = Recents s1 !! k) as Hvote.
  { intros authorize. cbn zeta. unfold cast_vote. destruct (cast_recents (h_Coinbase header) authorize s2) as [E _].
    destruct (cast _ _ _) as [counted s3]. cbn [snd] in E. intros k. set (s4 := if counted then _ else s3).
    assert (Recents s4 = Recents s1) as <- by (unfold s4; rewrite <- R2, <- E; by destruct counted).
    case_if; [apply pass_vote_recents|done]. }
  assert (∀ s', (∀ k, number - k < vote_limit s' → Recents s' !! k = Recents s1 !! k) →
    ∃ signer0, @Ok clique_error _ signer = Ok signer0 ∧ Recents s' !! number = Some signer0
    ∧ (∀ k b, Recents s !! k = Some b → number - k < vote_limit s → b ≠ signer0)
    ∧ (∀ k, k ≠ number → number - k < vote_limit s → number - k < vote_limit s' → Recents s' !! k = Recents s !! k)) as Hend.
  { intros t Ht. exists signer. split; [done|]. cbn [s1 Recents set_Recents] in Ht. split; [|split].
    - rewrite Ht by (pose proof (vote_limit_pos t); lia). apply lookup_insert_eq.
    - intros k b Hk Hl ->. apply Hrec. exists k, signer. split; [|done]. rewrite shift_recents_lookup by lia. by rewrite R0.
    - intros k Hne Hl Hl'. rewrite Ht, lookup_insert_ne, shift_recents_lookup by (done || lia). by rewrite R0. }
  case_bool_decide; [|case_bool_decide; [|done]]; intros [= <-]; apply Hend, Hvote.
Qed.

Lemma apply_headers_app s l1 l2 :
  apply_headers s (l1 ++ l2) = match apply_headers s l1 with Err e => Err e | Ok s1 => apply_headers s1 l2 end.
Proof. revert s. induction l1 as [|h l1 IH]; intros s; cbn; [done|]. destruct (apply_header s h); [apply IH|done]. Qed.

Lemma apply_headers_prefix s headers s' k :
  apply_headers s headers = Ok s' → ∃ sk, apply_headers s (take k headers) = Ok sk.
Proof.
  rewrite <- (take_drop k headers) at 1. rewrite apply_headers_app. destruct (apply_headers s (take k headers)) as [sk|]; [|done].
  by exists sk.
Qed.
Lemma apply_headers_next s headers k h sk s' :
  headers !! k = Some h → apply_headers s (take k headers) = Ok sk → apply_headers s (take (S k) headers) = Ok s' →
  apply_header sk h = Ok s'.
Proof.
  intros Hh Hk. rewrite (take_S_r _ _ _ Hh), apply_headers_app, Hk. cbn. by destruct (apply_header sk h).
Qed.

(** The headers of a chain without gaps, from number [first] on. *)
Definition numbered (first : Z) (headers : list Header) : Prop :=
  ∀ k h, headers !! k = Some h → u64 (h_Number h) = first + Z.of_nat k.

Lemma contiguous_numbered headers h first :
  head headers = Some h → contiguous headers = true → u64 (h_Number h) = first → first + len headers ≤ 2 ^ 64 → numbered first headers.
Proof.
  revert h first. induction headers as [|h0 headers IH]; intros h first; [done|]. intros [= ->] Hc Hf Hl k h' Hk.
  destruct k as [|k]; [injection Hk as <-; rewrite Hf; lia|]. destruct headers as [|h1 headers]; [done|]. cbn [contiguous] in Hc.
  apply andb_true_iff in Hc as [E%Z.eqb_eq Hc]. rewrite Hf in E. cbn [length] in Hl.
  assert (0 ≤ first) by (rewrite <- Hf; unfold u64; apply Z.mod_pos_bound; lia).
  rewrite (u64_small (first + 1)) in E by (unfold is_u64; lia).
  rewrite (IH h1 (first + 1) eq_refl Hc E ltac:(cbn [length]; lia) k h' Hk). lia.
Qed.

(** The signer of a header stays among the recent ones for half of the
    signers. *)
Lemma recent_stays s headers s' first m i hi a k :
  apply_headers s headers = Ok s' → numbered first headers →
  (∀ k sk, apply_headers s (take k headers) = Ok sk → m ≤ Z.of_nat (size (Signers sk))) →
  headers !! i = Some hi → ecrecover hi = Ok a → (i < k ≤ length headers)%nat → Z.of_nat k - 1 - Z.of_nat i ≤ m / 2 →
  ∀ sk, apply_headers s (take k headers) = Ok sk → Recents sk !! (first + Z.of_nat i) = Some a.
Proof.
  intros Hap Hnum Hm Hi Ha. induction k as [|k IH]; [lia|]. intros Hk Hd sk Hsk.
  destruct (lookup_lt_is_Some_2 headers k ltac:(lia)) as [h Hh]. destruct (apply_headers_prefix s headers s' k Hap) as [s0 Hs0].
  pose proof (apply_headers_next _ _ _ _ _ _ Hh Hs0 Hsk) as Hstep. pose proof (Hnum k h Hh) as Hn.
  destruct (apply_header_recents _ _ _ Hstep) as (b & Hb & Hin & _ & Hkeep). rewrite Hn in *.
  destruct (decide (k = i)) as [->|Hne]; [congruence|].
  assert (∀ t, m ≤ Z.of_nat (size (Signers t)) → m / 2 < vote_limit t) as Hlim.
  { intros t Ht. unfold vote_limit. pose proof (Z.div_le_mono _ _ 2 ltac:(lia) Ht). lia. }
  rewrite Hkeep; [apply IH; [lia..|done]|lia| |].
  - pose proof (Hlim _ (Hm _ _ Hs0)). lia.
  - pose proof (Hlim _ (Hm _ _ Hsk)). lia.
Qed.

Lemma signers_differ s headers s' first m i j hi hj :
  apply_headers s headers = Ok s' → numbered first headers →
  (∀ k sk, apply_headers s (take k headers) = Ok sk → m ≤ Z.of_nat (size (Signers sk))) →
  headers !! i = Some hi → headers !! j = Some hj → (i < j)%nat → Z.of_nat j - Z.of_nat i ≤ m / 2 →
  ecrecover hi ≠ ecrecover hj.
Proof.
  intros Hap Hnum Hm Hi Hj Hij Hd E. pose proof (lookup_lt_Some _ _ _ Hj) as Hlt.
  destruct (apply_headers_prefix s headers s' j Hap) as [sj Hsj]. destruct (apply_headers_prefix s headers s' (S j) Hap) as [sj' Hsj'].
  pose proof (apply_headers_next _ _ _ _ _ _ Hj Hsj Hsj') as Hstep.
  destruct (apply_header_recents _ _ _ Hstep) as (b & Hb & _ & Hnew & _). rewrite Hb in E. pose proof (Hnum j hj Hj) as Hn.
  pose proof (recent_stays s headers s' first m i hi b j Hap Hnum Hm Hi E ltac:(lia) ltac:(lia) sj Hsj) as Hr.
  apply (Hnew _ _ Hr); [|done]. rewrite Hn. pose proof (Hm _ _ Hsj) as Hsz. unfold vote_limit.
  pose proof (Z.div_le_mono _ _ 2 ltac:(lia) Hsz). lia.
Qed.

Lemma apply_inv headers s s' :
  Clique.apply headers s = Ok s' →
  ∃ t, apply_headers s headers = Ok t ∧ Signers s' = Signers t ∧ Recents s' = Recents t ∧ Votes s' = Votes t ∧ Tally s' = Tally t
    ∧ (headers ≠ [] → contiguous headers = true ∧ ∃ h, head headers = Some h ∧ u64 (h_Number h) = u64 (s_Number s + 1)).
Proof.
  unfold Clique.apply. destruct headers as [|h headers]; [intros [= <-]; by exists s|].
  destruct (contiguous (h :: headers)) eqn:Ec; cbn [negb]; [|done].
  destruct (Z.eqb_spec (u64 (h_Number h)) (u64 (s_Number s + 1))) as [E|]; cbn [negb]; [|done].
  destruct (apply_headers s (h :: headers)) as [t|]; [|done]. intros [= <-]. exists t. repeat split; try done. by exists h.
Qed.
End clique.

Lemma snap_ok_new config number hash l : snap_ok (newSnapshot config number hash l).
Proof. split; cbn; [|constructor..]. split; [done|constructor]. Qed.

(** C9: the votes are counted right.  In the snapshot that any accepted chain
    of headers leads to from the genesis block (or a trusted checkpoint), the
    cached tally of an account is the number of votes on it in the list, absent
    when there is none, for the proposal that the vote can bring about; every
    vote is by a current signer, and no signer has two votes on an account. *)
Theorem apply_counts_votes `{Crypto} (config : CliqueConfig) (number : Z) (hash : Hash) (genesis : list Address)
    (headers : list Header) (s : Snapshot) (Hap : Clique.apply headers (newSnapshot config number hash genesis) = Ok s) :
  (∀ a, Tally s !! a =
      let n := length (filter (λ v, v_Address v = a) (Votes s)) in
      if (n =? 0)%nat then None else Some (MkTally (bool_decide (a ∉ Signers s)) (Z.of_nat n)))
  ∧ (∀ v, v ∈ Votes s → v_Signer v ∈ Signers s ∧ v_Authorize v = bool_decide (v_Address v ∉ Signers s))
  ∧ NoDup (map (λ v, (v_Signer v, v_Address v)) (Votes s)).
Proof.
  destruct (apply_inv _ _ _ Hap) as (t & Ht & E1 & _ & E3 & E4 & _). rewrite E1, E3, E4.
  assert (snap_ok t) as [[Hc Hv] Hs Ho].
  { revert Ht. generalize (snap_ok_new config number hash genesis). generalize (newSnapshot config number hash genesis).
    clear. induction headers as [|h headers IH]; intros s Hs; cbn; [by intros [= <-]|].
    destruct (apply_header s h) as [s1|] eqn:E1; [|done]. apply IH. by eapply apply_header_ok. }
  split; [|split; [|done]].
  - intros a. rewrite Hc. unfold tally_entry, votes_on. cbn zeta. by destruct (length _).
  - rewrite Forall_forall in Hs, Hv. auto.
Qed.

(** C22: no signer signs too often.  In an accepted chain of headers on top of
    a snapshot, as long as there are at least [m] signers, no two headers that
    are at most [m / 2] apart have the same signer: of any [m / 2 + 1]
    consecutive blocks each is signed by another one. *)
Theorem apply_spaces_signers `{Crypto} (s s' : Snapshot) (headers : list Header) (m : Z) (i j : nat) (hi hj : Header)
    (Hap : Clique.apply headers s = Ok s') (Hnum : 0 ≤ s_Number s ∧ s_Number s + 1 + len headers ≤ 2 ^ 64)
    (Hm : ∀ k sk, apply_headers s (take k headers) = Ok sk → m ≤ Z.of_nat (size (Signers sk)))
    (Hi : headers !! i = Some hi) (Hj : headers !! j = Some hj) (Hij : (i < j)%nat)
    (Hd : Z.of_nat j - Z.of_nat i ≤ m / 2) :
  ecrecover hi ≠ ecrecover hj.
Proof.
  destruct (apply_inv _ _ _ Hap) as (t & Ht & _ & _ & _ & _ & Hc). destruct Hc as (Hcon & h & Hh & Eh); [by intros ->|].
  assert (0 < len headers) by (destruct headers; [done|cbn; lia]).
  rewrite (u64_small (s_Number s + 1)) in Eh by (unfold is_u64; lia).
  eapply (signers_differ s headers t (s_Number s + 1) m); try done. eapply contiguous_numbered; [done..|lia].
Qed.

(** ** Turns *)

Section turns.
Context {MR : MapRange} {ML : MapRangeLaws}.

Lemma signers_perm s : signers s ≡ₚ elements (Signers s).
Proof. unfold signers. by rewrite merge_sort_Permutation, law_range_set. Qed.

Lemma offset_of_lookup (l : list Address) i a : NoDup l → l !! i = Some a → offset_of a l = Z.of_nat i.
Proof.
  intros Hn. revert i. induction Hn as [|b l Hb _ IH]; intros i Hi; [done|]. cbn [offset_of]. destruct i as [|i].
  - injection Hi as ->. by rewrite bool_decide_true.
  - cbn in Hi. rewrite bool_decide_false, (IH i Hi); [lia|]. intros ->. by apply Hb, (list_elem_of_lookup_2 _ i).
Qed.
Lemma offset_of_absent (l : list Address) a : a ∉ l → offset_of a l = len l.
Proof.
  induction l as [|b l IH]; [done|]. rewrite not_elem_of_cons. intros [Hb Hl]. cbn [offset_of length].
  rewrite bool_decide_false, IH by congruence. lia.
Qed.

Lemma bytes_leb_total a b : bytes_leb a b = true ∨ bytes_leb b a = true.
Proof.
  revert b. induction a as [|x a IH]; intros [|y b]; cbn; try (by left); try (by right).
  destruct (Z.ltb_spec x y), (Z.ltb_spec y x); try lia; auto.
Qed.
Lemma bytes_leb_antisymm a b : bytes_leb a b = true → bytes_leb b a = true → a = b.
Proof.
  revert b. induction a as [|x a IH]; intros [|y b]; cbn; try done.
  destruct (Z.ltb_spec x y), (Z.ltb_spec y x); try lia; try done. intros H1 H2. f_equal; [lia|by apply IH].
Qed.
Lemma bytes_leb_trans a b c : bytes_leb a b = true → bytes_leb b c = true → bytes_leb a c = true.
Proof.
  revert b c. induction a as [|x a IH]; intros [|y b] [|z c]; cbn; try done.
  destruct (Z.ltb_spec x y), (Z.ltb_spec y x), (Z.ltb_spec y z), (Z.ltb_spec z y), (Z.ltb_spec x z), (Z.ltb_spec z x);
    try lia; try done. apply IH.
Qed.
End turns.

Lemma bytes_le_total : Total (λ a b : bytes, Is_true (bytes_leb a b)).
Proof. intros a b. destruct (bytes_leb_total a b) as [->| ->]; [left|right]; done. Qed.
Lemma bytes_le_trans : Transitive (λ a b : bytes, Is_true (bytes_leb a b)).
Proof. intros a b c Hab%Is_true_true Hbc%Is_true_true. apply Is_true_true. by eapply bytes_leb_trans. Qed.
#[local] Instance bytes_le_antisymm : AntiSymm (=) (λ a b : bytes, Is_true (bytes_leb a b)).
Proof. intros a b Hab%Is_true_true Hba%Is_true_true. by apply bytes_leb_antisymm. Qed.

(** The list of signers does not depend on the order in which the map is
    ranged over. *)
Lemma signers_unique (MR MR' : MapRange) (ML : @MapRangeLaws MR) (ML' : @MapRangeLaws MR') s :
  @signers MR s = @signers MR' s.
Proof.
  apply (StronglySorted_unique (λ a b : bytes, Is_true (bytes_leb a b))); 
    [apply StronglySorted_merge_sort; [apply bytes_le_trans|apply bytes_le_total]..|].
  etransitivity; [apply (@signers_perm MR ML)|symmetry; apply (@signers_perm MR' ML')].
Qed.

(** Whose turn it is.  At every height exactly one signer is in turn and
    nobody else, and all nodes agree on who that is, whatever the order in
    which their maps are ranged over. *)
Theorem inturn_unique (MR MR' : MapRange) (ML : @MapRangeLaws MR) (ML' : @MapRangeLaws MR') (s : Snapshot) (number : Z)
    (Hs : Signers s ≠ ∅) (Hn : 0 ≤ number) :
  ∃ a, a ∈ Signers s
    ∧ ∀ b, @inturn MR number b s = Some (bool_decide (b = a)) ∧ @inturn MR' number b s = Some (bool_decide (b = a)).
Proof.
  unfold inturn. rewrite (signers_unique MR' MR ML' ML). pose proof (@signers_perm MR ML s) as Hp.
  assert (0 < len (@signers MR s)) as Hl.
  { destruct (@signers MR s) as [|x l]; [|cbn; lia]. apply Permutation_nil, elements_empty_inv in Hp. by apply leibniz_equiv in Hp. }
  assert (NoDup (@signers MR s)) as Hnd by (rewrite Hp; apply NoDup_elements). set (l := @signers MR s) in *.
  pose proof (Z.mod_pos_bound number (len l) Hl) as Hb. set (k := number mod len l) in *.
  destruct (lookup_lt_is_Some_2 l (Z.to_nat k) ltac:(lia)) as [a Ha]. exists a. split.
  { apply elem_of_elements. rewrite <- Hp. by eapply list_elem_of_lookup_2. }
  zcmp. intros b. cut (k =? offset_of b l = bool_decide (b = a)); [by intros ->|].
  destruct (decide (b ∈ l)) as [[i Hi]%list_elem_of_lookup|Hni].
  - rewrite (offset_of_lookup l i b Hnd Hi). case_bool_decide as E.
    + subst b. apply Z.eqb_eq. pose proof (NoDup_lookup l _ _ _ Hnd Ha Hi). lia.
    + apply Z.eqb_neq. intros Ek. apply E. rewrite Ek, Nat2Z.id in Ha. congruence.
  - rewrite (offset_of_absent l b Hni), bool_decide_false; [apply Z.eqb_neq; lia|]. intros ->.
    by apply Hni, (list_elem_of_lookup_2 _ (Z.to_nat k)).
Qed.

(** C40: the check of recent signers wraps.  While the chain is shorter than
    half of the signers, [verifySeal] compares with [number - limit] below
    zero, a huge number of type [uint64], and takes no signer for a recent one;
    [apply], which computes the next snapshot, rejects the same header. *)
Theorem verifySeal_forgets_recents `{Crypto} (snap : Snapshot) (header : Header) (signer : Address) (seen : Z)
    (Hsig : ecrecover header = Ok signer) (Hin : signer ∈ Signers snap) (Hseen : Recents snap !! seen = Some signer)
    (Hkeys : ∀ k a, Recents snap !! k = Some a → 0 ≤ k ≤ h_Number header)
    (Hn : 0 ≤ h_Number header < vote_limit snap) (Hl : vote_limit snap < 2 ^ 63) :
  recently_signed (h_Number header) signer snap = false ∧ apply_header snap header = Err errRecentlySigned.
Proof.
  split.
  - apply bool_decide_eq_false. intros (k & a & Hk & -> & Hlt). pose proof (Hkeys k signer Hk).
    replace (u64 (h_Number header - vote_limit snap)) with (h_Number header - vote_limit snap + 2 ^ 64) in Hlt; [lia|].
    unfold u64. rewrite <- (Z.mod_add _ 1) by lia. rewrite Z.mul_1_l, Z.mod_small; lia.
  - unfold apply_header. rewrite u64_small by (unfold is_u64; lia). set (s0 := if _ : bool then _ else snap).
    assert (Recents s0 = Recents snap ∧ Signers s0 = Signers snap) as [R0 S0] by (unfold s0; by case_if).
    destruct (shift_recents_keeps (h_Number header) s0) as (K1 & _). rewrite Hsig, bool_decide_true by (by rewrite K1, S0). cbn [negb].
    rewrite bool_decide_true; [done|]. exists seen, signer. split; [|done].
    rewrite shift_recents_lookup, R0; [done|]. unfold vote_limit in *. rewrite S0. pose proof (Hkeys _ _ Hseen). lia.
Qed.
