(* ===== verification/CliqueSnapshots.v ===== *)
(** * The snapshots of the proof-of-authority engine

    [snapshot] of Clique.v looks for a snapshot in memory, on disk and at the
    genesis block on the way back from a block, and applies the headers above.
    Whatever it finds there, the result is the one of counting the votes block
    by block from the genesis block. *)
From S2P Require Import Prelude RlpEncode RlpRaw RlpDecode AccessList StateDB StateRevert StateCommit ChainConfig Params VmBase VmMachine Precompiles Transaction Receipts BlockHeader Clique CliqueProps.
Local Open Scope Z_scope.

(** ** The number and the hash of a snapshot play no part *)

Definition retag (n : Z) (h : Hash) (s : Snapshot) : Snapshot :=
  MkSnapshot (s_config s) n h (Signers s) (Recents s) (Votes s) (Tally s).

Lemma retag_same s : retag (s_Number s) (s_Hash s) s = s.
Proof. by destruct s. Qed.
Lemma retag_retag n h n' h' s : retag n h (retag n' h' s) = retag n h s.
Proof. done. Qed.

Lemma retag_cast n h a b s : cast a b (retag n h s) = ((cast a b s).1, retag n h (cast a b s).2).
Proof. unfold cast, validVote, retag. cbn. by repeat case_match. Qed.
Lemma retag_uncast n h a b s : uncast a b (retag n h s) = ((uncast a b s).1, retag n h (uncast a b s).2).
Proof. unfold uncast, retag. cbn. by repeat case_match. Qed.
Lemma retag_shift n h number s : shift_recents number (retag n h s) = retag n h (shift_recents number s).
Proof. unfold shift_recents, vote_limit, retag. cbn. by case_match. Qed.
Lemma retag_discard n h c votes s :
  discard_signer c votes (retag n h s) = ((discard_signer c votes s).1, retag n h (discard_signer c votes s).2).
Proof.
  revert s. induction votes as [|v votes IH]; intros s; cbn; [done|]. rewrite retag_uncast. cbn [snd].
  case_bool_decide; [apply IH|]. rewrite IH. by destruct (discard_signer c votes s).
Qed.
Lemma retag_pass n h number a tally s : pass_vote number a tally (retag n h s) = retag n h (pass_vote number a tally s).
Proof.
  unfold pass_vote. destruct (t_Authorize tally); [done|].
  change (set_Signers (Signers (retag n h s) ∖ {[a]}) (retag n h s)) with (retag n h (set_Signers (Signers s ∖ {[a]}) s)).
  rewrite retag_shift. change (Votes (retag n h ?x)) with (Votes x).
  rewrite retag_discard. by destruct (discard_signer a _ _).
Qed.
Lemma retag_cast_vote n h signer number a b s :
  cast_vote signer number a b (retag n h s) = retag n h (cast_vote signer number a b s).
Proof.
  unfold cast_vote. rewrite retag_cast. destruct (cast a b s) as [counted s1]. cbn [fst snd].
  set (s2 := if counted then set_Votes (Votes s1 ++ _) s1 else s1).
  replace (if counted then set_Votes (Votes (retag n h s1) ++ _) (retag n h s1) else retag n h s1) with (retag n h s2)
    by (unfold s2; by destruct counted).
  change (Tally (retag n h s2)) with (Tally s2). change (Signers (retag n h s2)) with (Signers s2).
  cbn zeta. case_match; [apply retag_pass|done].
Qed.

Section snapshots.
Context {CR : Crypto}.

Lemma retag_apply_header n h s x :
  apply_header (retag n h s) x = match apply_header s x with Ok t => Ok (retag n h t) | Err e => Err e end.
Proof.
  unfold apply_header. cbn zeta. set (number := u64 (h_Number x)).
  set (s0 := if number mod Epoch (s_config s) =? 0 then set_Tally ∅ (set_Votes [] s) else s).
  replace (if number mod Epoch (s_config (retag n h s)) =? 0 then _ else retag n h s) with (retag n h s0)
    by (unfold s0; cbn; by case_match).
  rewrite retag_shift. set (s1 := shift_recents number s0). destruct (ecrecover x) as [signer|]; [|done].
  change (Signers (retag n h s1)) with (Signers s1). change (Recents (retag n h s1)) with (Recents s1).
  case_match; [done|]. case_match; [done|].
  change (set_Recents ?r (retag n h s1)) with (retag n h (set_Recents r s1)). set (s2 := set_Recents _ s1).
  change (Votes (retag n h s2)) with (Votes s2).
  set (s3 := match discard_vote signer (h_Coinbase x) (Votes s2) with Some _ => _ | None => s2 end).
  replace (match discard_vote signer (h_Coinbase x) (Votes s2) with Some _ => _ | None => retag n h s2 end) with (retag n h s3)
    by (unfold s3; destruct (discard_vote _ _ _) as [[v votes]|]; [by rewrite retag_uncast|done]).
  rewrite !retag_cast_vote. case_match; [done|]. by case_match.
Qed.
Lemma retag_apply_headers n h s l :
  apply_headers (retag n h s) l = match apply_headers s l with Ok t => Ok (retag n h t) | Err e => Err e end.
Proof.
  revert s. induction l as [|x l IH]; intros s; cbn; [done|]. rewrite retag_apply_header.
  by destruct (apply_header s x); [apply IH|].
Qed.

Lemma apply_headers_tag s l t : apply_headers s l = Ok t → s_Number t = s_Number s ∧ s_Hash t = s_Hash s.
Proof.
  intros E. pose proof (retag_apply_headers (s_Number s) (s_Hash s) s l) as R. rewrite retag_same, E in R.
  injection R as R. by rewrite R.
Qed.

(** Headers can be applied one by one. *)
Lemma apply_cons h l s :
  contiguous (h :: l) = true → u64 (h_Number h) = u64 (s_Number s + 1) →
  Clique.apply (h :: l) s = match Clique.apply [h] s with Ok s1 => Clique.apply l s1 | Err e => Err e end.
Proof.
  intros Ec E. unfold Clique.apply at 1 2. rewrite Ec, E, Z.eqb_refl. cbn [contiguous negb apply_headers].
  destruct (apply_header s h) as [t1|e] eqn:E1; [|done].
  destruct (apply_headers_tag s [h] t1) as [T1 _]; [cbn; by rewrite E1|]. cbn [last fmap option_fmap option_map default from_option length]. rewrite T1.
  set (s1 := retag (u64 (s_Number s + 1)) (Header_Hash h) t1).
  match goal with |- _ = Clique.apply l ?x => change x with s1 end.
  destruct l as [|h2 l]; [cbn; by rewrite T1|]. cbn [contiguous] in Ec. apply andb_true_iff in Ec as [E3%Z.eqb_eq Ec].
  unfold Clique.apply. cbn [contiguous] in Ec |- *. rewrite Ec. cbn [negb].
  change (s_Number s1) with (u64 (s_Number s + 1)). rewrite E3, E, Z.eqb_refl. cbn [negb].
  unfold s1. rewrite retag_apply_headers. destruct (apply_headers t1 (h2 :: l)) as [t|] eqn:E2; [|done].
  destruct (apply_headers_tag _ _ _ E2) as [T2 _]. cbn [last fmap option_fmap option_map].
  rewrite T2, T1. cbn [retag s_config s_Number Signers Recents Votes Tally]. f_equal. f_equal.
  unfold u64. rewrite Zplus_mod_idemp_l. f_equal. cbn [length]. lia.
Qed.

Lemma apply_one_tag h s s' : Clique.apply [h] s = Ok s' → s_Number s' = u64 (s_Number s + 1) ∧ s_Hash s' = Header_Hash h.
Proof.
  unfold Clique.apply. cbn [contiguous negb]. destruct (negb _); [done|]. destruct (apply_headers s [h]) as [t|] eqn:Et; [|done].
  intros [= <-]. destruct (apply_headers_tag _ _ _ Et) as [-> _]. done.
Qed.

(** ** Counting block by block *)

(** [Known] are the headers of the database and those that the caller brings
    along, with side chains. *)
Context (config : CliqueConfig) (Known GetHeader : Hash → Z → option Header) (GetHeaderByNumber : Z → option Header).
Context (evict : gmap Hash Snapshot → gmap Hash Snapshot).

(** The snapshot of a block: the signers that the genesis block lists, and
    the headers of all blocks from there applied one by one. *)
Fixpoint counted (k : nat) (hash : Hash) : result clique_error Snapshot :=
  match k with
  | O =>
      match GetHeaderByNumber 0 with
      | None => Err ErrUnknownAncestor
      | Some genesis =>
          match checkpoint_signers (h_Extra genesis) with
          | None => Err PanicMakeSlice
          | Some l => Ok (newSnapshot config 0 (Header_Hash genesis) l)
          end
      end
  | S k' =>
      match Known hash (Z.of_nat k) with
      | None => Err ErrUnknownAncestor
      | Some header =>
          match counted k' (h_ParentHash header) with
          | Ok snap => Clique.apply [header] snap
          | Err e => Err e
          end
      end
  end.

(** A header is found by its hash and number, and so is its parent; there is
    one genesis block, and the numbers of the canonical chain have no gap. *)
Record chain_ok : Prop := {
  ch_header h n x : Known h n = Some x → Header_Hash x = h ∧ h_Number x = n ∧ 0 ≤ n < 2 ^ 64 - 1;
  ch_parent h n x : Known h n = Some x → 0 < n → is_Some (Known (h_ParentHash x) (n - 1));
  ch_number h n n' x x' : Known h n = Some x → Known h n' = Some x' → n = n';
  ch_genesis h x : Known h 0 = Some x → GetHeaderByNumber 0 = Some x;
  ch_canonical n : 0 < n → GetHeaderByNumber (n - 1) = None → GetHeaderByNumber n = None
}.

(** The snapshots that are kept belong to their blocks. *)
Definition kept_ok (m : gmap Hash Snapshot) : Prop :=
  ∀ h s n x, m !! h = Some s → Known h n = Some x → counted (Z.to_nat n) h = Ok s.
Record caches_ok (c : Clique) : Prop := {
  cc_recents : kept_ok (c_recents c);
  cc_db : kept_ok (c_db c)
}.

(** There is a snapshot of the block in memory or, at multiples of
    [checkpointInterval], on disk. *)
Definition has_snapshot (c : Clique) (n : Z) (h : Hash) : Prop :=
  is_Some (c_recents c !! h) ∨ n mod checkpointInterval = 0 ∧ is_Some (c_db c !! h).
Fixpoint ancestor (k : nat) (h : Hash) (n : Z) : option Hash :=
  match k with
  | O => Some h
  | S k => x ← Known h n; ancestor k (h_ParentHash x) (n - 1)
  end.
(** The search does not go back more than [budget] blocks. *)
Definition near (c : Clique) (n : Z) (h : Hash) (budget : Z) : Prop :=
  n ≤ budget ∨ ∃ k h', Z.of_nat k ≤ budget ∧ ancestor k h n = Some h' ∧ has_snapshot c (n - Z.of_nat k) h'.

Hypothesis Hchain : chain_ok.
Hypothesis Hevict : ∀ m, evict m ⊆ m.

(** The headers [l] lead from the block [hash] with number [n] to the block
    [hash'] with number [n']. *)
Fixpoint leads (hash : Hash) (n : Z) (l : list Header) (hash' : Hash) (n' : Z) : Prop :=
  match l with
  | [] => hash = hash' ∧ n = n'
  | x :: l => h_ParentHash x = hash ∧ Known (Header_Hash x) (n + 1) = Some x ∧ leads (Header_Hash x) (n + 1) l hash' n'
  end.

Lemma leads_length h n l h' n' : leads h n l h' n' → n' = n + len l.
Proof. revert h n. induction l as [|x l IH]; intros h n; cbn [leads length]; [intros [_ ->]; lia|]. intros (_ & _ & H%IH). lia. Qed.
Lemma leads_snoc h n l x h' n' :
  leads h n (l ++ [x]) h' n' → leads h n l (h_ParentHash x) (n' - 1) ∧ Header_Hash x = h' ∧ Known h' n' = Some x.
Proof.
  revert h n. induction l as [|y l IH]; intros h n; cbn [leads app].
  - intros (Hp & Hk & <- & <-). split; [split; [done|lia]|done].
  - intros (Hp & Hk & Hl). apply IH in Hl as (? & ? & ?). done.
Qed.
Lemma leads_contiguous h n l h' n' : leads h n l h' n' → contiguous l = true.
Proof.
  revert h n. induction l as [|x l IH]; intros h n; [done|]. cbn [leads]. intros (_ & Hx & Hl). specialize (IH _ _ Hl).
  destruct l as [|y l]; [done|]. cbn [leads] in Hl. destruct Hl as (_ & Hy & _).
  apply (ch_header Hchain) in Hx as (_ & Ex & Rx). apply (ch_header Hchain) in Hy as (_ & Ey & Ry).
  change (contiguous (x :: y :: l)) with ((u64 (h_Number y) =? u64 (u64 (h_Number x) + 1)) && contiguous (y :: l)).
  rewrite IH, Ex, Ey, (u64_small (n + 1)), Z.eqb_refl by (unfold is_u64; lia). done.
Qed.

Lemma counted_tag k h s x : Known h (Z.of_nat k) = Some x → counted k h = Ok s → s_Number s = Z.of_nat k ∧ s_Hash s = h.
Proof.
  revert h s x. induction k as [|k IH]; intros h s x Hx; cbn [counted].
  - rewrite (ch_genesis Hchain _ _ Hx). destruct (checkpoint_signers _); [|done]. intros [= <-]. by apply (ch_header Hchain) in Hx as (? & _).
  - rewrite Hx. destruct (counted k (h_ParentHash x)) as [s0|] eqn:E; [|done]. intros (E1 & E2)%apply_one_tag.
    destruct (ch_parent Hchain _ _ _ Hx) as [y Hy]; [lia|]. replace (Z.of_nat (S k) - 1) with (Z.of_nat k) in Hy by lia.
    destruct (IH _ _ _ Hy E) as [E0 _]. apply (ch_header Hchain) in Hx as (Eh & _ & Hr). rewrite E1, E2, E0. split; [|done]. rewrite u64_small; unfold is_u64; lia.
Qed.

(** Counting goes on from any block on the way. *)
Lemma counted_leads l h n h' n' x :
  Known h n = Some x → leads h n l h' n' →
  counted (Z.to_nat n') h' = match counted (Z.to_nat n) h with Ok s => Clique.apply l s | Err e => Err e end.
Proof.
  revert h n x. induction l as [|y l IH]; intros h n x Hx Hle.
  - destruct Hle as [-> ->]. by destruct (counted (Z.to_nat n') h').
  - pose proof (leads_contiguous _ _ _ _ _ Hle) as Hc. destruct Hle as (Hp & Hy & Hle). rewrite (IH _ _ _ Hy Hle).
    pose proof (ch_header Hchain _ _ _ Hx) as (_ & _ & Hr). pose proof (ch_header Hchain _ _ _ Hy) as (_ & Ey & Hr').
    replace (Z.to_nat (n + 1)) with (S (Z.to_nat n)) by lia. cbn [counted]. replace (Z.of_nat (S (Z.to_nat n))) with (n + 1) by lia. rewrite Hy, Hp.
    destruct (counted (Z.to_nat n) h) as [s|e] eqn:E; [|done]. destruct (counted_tag (Z.to_nat n) h s x) as [En _]; [by rewrite Z2Nat.id by lia|done|].
    rewrite (apply_cons y l s Hc); [done|]. rewrite Ey, En, Z2Nat.id by lia. done.
Qed.

Lemma near_back c n h x budget :
  ¬ has_snapshot c n h → 0 < n → Known h n = Some x → near c n h budget → near c (n - 1) (h_ParentHash x) (budget - 1).
Proof.
  intros Hno Hn Hx [?|(k & h' & Hk & Ha & Hs)]; [left; lia|right]. destruct k as [|k].
  - injection Ha as <-. by rewrite Z.sub_0_r in Hs.
  - cbn [ancestor] in Ha. rewrite Hx in Ha. exists k, h'. split_and!; [lia|done|]. by replace (n - 1 - Z.of_nat k) with (n - Z.of_nat (S k)) by lia.
Qed.

(** What the search may return: a snapshot that was counted and the headers
    from there, or the error of counting. *)
Definition search_ok (hash' : Hash) (number' : Z) (r : result clique_error (Snapshot * list Header)) : Prop :=
  match r with
  | Ok (s, l) => ∃ h n x, Known h n = Some x ∧ counted (Z.to_nat n) h = Ok s ∧ leads h n l hash' number'
  | Err e => counted (Z.to_nat number') hash' = Err e
  end.

Lemma no_snapshot c n h :
  c_recents c !! h = None → (if n mod checkpointInterval =? 0 then c_db c !! h else None) = None → ¬ has_snapshot c n h.
Proof.
  intros Hr Hd [[s Hs]|[Hn [s Hs]]]; [congruence|]. rewrite Hn in Hd. cbn in Hd. congruence.
Qed.

(** The genesis block. *)
Lemma search_genesis c hash headers hash' number' x l :
  caches_ok c → Known hash 0 = Some x → leads hash 0 headers hash' number' → checkpoint_signers (h_Extra x) = Some l →
  let snap := newSnapshot config 0 (Header_Hash x) l in
  caches_ok (MkClique (c_recents c) (<[Header_Hash x := snap]> (c_db c))) ∧ search_ok hash' number' (Ok (snap, headers)).
Proof.
  intros Hc Hx Hle El snap. pose proof (ch_header Hchain _ _ _ Hx) as (Eh & _ & _).
  assert (E0 : counted 0 hash = Ok snap) by (cbn; by rewrite (ch_genesis Hchain _ _ Hx), El).
  split; [|by exists hash, 0, x]. split; [apply Hc|]. cbn [c_db]. intros h s n y Hl Hy. rewrite Eh in Hl. destruct (decide (hash = h)) as [<-|Hne].
  - rewrite lookup_insert_eq in Hl. injection Hl as <-. by rewrite (ch_number Hchain _ _ _ _ _ Hy Hx).
  - rewrite lookup_insert_ne in Hl by done. by apply (cc_db _ Hc _ _ _ y).
Qed.

(** A checkpoint is trusted without a look at its ancestors only where the
    search has gone back too far. *)
Lemma trusted_deep c number hash (headers : list Header) cp x :
  Known hash number = Some x → number ≠ 0 → GetHeaderByNumber number = Some cp → ¬ has_snapshot c number hash →
  (number mod Epoch config =? 0) && ((FullImmutabilityThreshold <? len headers) || bool_decide (GetHeaderByNumber (u64 (number - 1)) = None)) = true →
  ¬ near c number hash (FullImmutabilityThreshold - len headers).
Proof.
  intros Hx H0 Hcp Hno [_ [Hlt%Z.ltb_lt|Hnone%bool_decide_eq_true]%orb_true_iff]%andb_true_iff; pose proof (ch_header Hchain _ _ _ Hx) as (_ & _ & Hn).
  - intros [?|(k & h' & Hk & _)]; lia.
  - rewrite u64_small in Hnone by (unfold is_u64; lia). apply (ch_canonical Hchain) in Hnone; [congruence|lia].
Qed.

Lemma find_snapshot_ok fuel c number hash h0 n0 ps headers hash' number' x :
  caches_ok c → Known hash number = Some x → leads h0 n0 ps hash number → (∀ h n y, n ≤ n0 → Known h n = Some y → GetHeader h n = Some y) →
  leads hash number headers hash' number' → (Z.to_nat number < fuel)%nat →
  ∃ r c', find_snapshot config GetHeader GetHeaderByNumber fuel c number hash ps headers = Ret (r, c')
    ∧ (near c number hash (FullImmutabilityThreshold - len headers) → caches_ok c' ∧ search_ok hash' number' r).
Proof.
  intros Hc. revert number hash h0 n0 ps headers x. induction fuel as [|fuel IH]; intros number hash h0 n0 ps headers x Hx Hps Hdb Hle Hf; [lia|].
  pose proof (ch_header Hchain _ _ _ Hx) as (Eh & En & Hn). cbn [find_snapshot].
  destruct (c_recents c !! hash) as [s|] eqn:Er.
  { do 2 eexists. split; [done|]. intros _. split; [done|]. exists hash, number, x. split_and!; [done|by apply (cc_recents _ Hc _ _ _ x)|done]. }
  destruct (if number mod checkpointInterval =? 0 then c_db c !! hash else None) as [s|] eqn:Ed.
  { do 2 eexists. split; [done|]. intros _. split; [done|]. exists hash, number, x. split_and!; [done| |done]. case_match; [|done]. by apply (cc_db _ Hc _ _ _ x). }
  set (go_back := match rev ps with [] => _ | _ => _ end).
  assert (Hback : 0 < number → ∃ r c', go_back = Ret (r, c') ∧ (near c number hash (FullImmutabilityThreshold - len headers) → caches_ok c' ∧ search_ok hash' number' r)).
  { intros Hpos. destruct (ch_parent Hchain _ _ _ Hx Hpos) as [y Hy].
    assert (Hle' : leads (h_ParentHash x) (number - 1) (x :: headers) hash' number') by (cbn [leads]; rewrite Eh; replace (number - 1 + 1) with number by lia; done).
    assert (Hnear : near c number hash (FullImmutabilityThreshold - len headers) → near c (number - 1) (h_ParentHash x) (FullImmutabilityThreshold - len (x :: headers))).
    { intros H%(near_back _ _ _ x); [|by apply no_snapshot|done|done]. cbn [length]. by replace (FullImmutabilityThreshold - Z.of_nat (S (length headers))) with (FullImmutabilityThreshold - len headers - 1) by lia. }
    unfold go_back. destruct ps as [|p ps _] using rev_ind; [cbn [rev]|rewrite rev_app_distr; cbn [rev app]].
    - destruct Hps as [E1 E2]. subst h0 n0. rewrite (Hdb _ _ _ (Z.le_refl _) Hx), u64_small by (unfold is_u64; lia).
      destruct (IH (number - 1) (h_ParentHash x) (h_ParentHash x) (number - 1) [] (x :: headers) y) as (r & c' & E & H); [done|done|intros; apply Hdb; [lia|done]|done|lia|]. exists r, c'. split; [done|]. auto.
    - apply leads_snoc in Hps as (Hps & Ep & Hp). rewrite Hx in Hp. injection Hp as <-. rewrite bool_decide_true, En, u64_small, Z.eqb_refl by (done || unfold is_u64; lia). cbn [negb orb].
      rewrite rev_involutive, u64_small by (unfold is_u64; lia). destruct (IH (number - 1) (h_ParentHash x) h0 n0 ps (x :: headers) y) as (r & c' & E & H); [done|done|done|done|lia|]. exists r, c'. split; [done|]. auto. }
  destruct ((number =? 0) || _) eqn:Ecp.
  - destruct (GetHeaderByNumber number) as [cp|] eqn:Eby; [|apply Hback; destruct (Z.eqb_spec number 0) as [->|]; [by rewrite (ch_genesis Hchain _ _ Hx) in Eby|lia]].
    destruct (Z.eqb_spec number 0) as [->|Hpos].
    + rewrite (ch_genesis Hchain _ _ Hx) in Eby. injection Eby as <-. destruct (checkpoint_signers (h_Extra x)) as [l|] eqn:El.
      * do 2 eexists. split; [done|]. intros _. by apply (search_genesis c hash).
      * do 2 eexists. split; [done|]. intros _. split; [done|]. cbn [search_ok]. rewrite (counted_leads _ _ _ _ _ _ Hx Hle). change (Z.to_nat 0) with O. cbn [counted]. by rewrite (ch_genesis Hchain _ _ Hx), El.
    + cbn [orb] in Ecp. pose proof (trusted_deep c number hash headers cp x Hx Hpos Eby (no_snapshot _ _ _ Er Ed) Ecp) as Hdeep.
      destruct (checkpoint_signers (h_Extra cp)); (do 2 eexists; split; [done|]); intros Hnear; by destruct Hdeep.
  - apply Hback. apply orb_false_iff in Ecp as [?%Z.eqb_neq _]. lia.
Qed.

Lemma kept_insert m number hash x s' :
  Known hash number = Some x → counted (Z.to_nat number) hash = Ok s' → kept_ok m → kept_ok (<[s_Hash s' := s']> m).
Proof.
  intros Hx Es Hm h' t n' y Hl Hy. pose proof (ch_header Hchain _ _ _ Hx) as (_ & _ & Hn).
  destruct (counted_tag (Z.to_nat number) hash s' x) as [_ Eh]; [by rewrite Z2Nat.id by lia|done|]. rewrite Eh in Hl. destruct (decide (hash = h')) as [<-|Hne].
  - rewrite lookup_insert_eq in Hl. injection Hl as <-. by rewrite (ch_number Hchain _ _ _ _ _ Hy Hx).
  - rewrite lookup_insert_ne in Hl by done. by apply (Hm _ _ _ y).
Qed.

Lemma snapshot_ok fuel c number hash h0 n0 ps x :
  caches_ok c → Known hash number = Some x → leads h0 n0 ps hash number → (∀ h n y, n ≤ n0 → Known h n = Some y → GetHeader h n = Some y) →
  (Z.to_nat number < fuel)%nat →
  ∃ r c', snapshot config GetHeader GetHeaderByNumber evict fuel c number hash ps = Ret (r, c')
    ∧ (near c number hash FullImmutabilityThreshold → r = counted (Z.to_nat number) hash ∧ caches_ok c').
Proof.
  intros Hc Hx Hps Hdb Hf. unfold snapshot.
  destruct (find_snapshot_ok fuel c number hash h0 n0 ps [] hash number x Hc Hx Hps Hdb ltac:(done) Hf) as (r & c' & -> & Hr).
  cbn [mbind outcome_bind length] in *. rewrite Z.sub_0_r in Hr. destruct r as [[s l]|e].
  2:{ do 2 eexists. split; [done|]. intros [Hc' He]%Hr. cbn in He. by rewrite He. }
  destruct (Clique.apply l s) as [s'|e] eqn:Eap; (do 2 eexists; split; [done|]); intros [Hc' (h & n & y & Hy & Es & Hle)]%Hr;
    pose proof (counted_leads _ _ _ _ _ _ Hy Hle) as E; rewrite Es, Eap in E; (split; [done|]); [|done].
  split; cbn [c_recents c_db].
  - intros h' t n' z Hl. apply (kept_insert _ number hash x s' Hx E (cc_recents _ Hc')). by eapply lookup_weaken; [|apply Hevict].
  - case_match; [apply (kept_insert _ number hash x s' Hx E)|]; apply Hc'.
Qed.
End snapshots.

(** C19: the caches of snapshots do not matter.  Let [Known] be headers whose
    parents are known too, with one genesis block (there may be side chains),
    and let the headers [parents] that the caller brings along lead to the block
    from a block at or below which the database has them all.  [snapshot] of a
    known block ends after at most one step per block.  When the snapshots in
    memory and on disk belong to their blocks, and the block is not more than
    [FullImmutabilityThreshold] (90000) blocks above the genesis block or above
    an ancestor of which there is a snapshot, then the result, error or
    snapshot, is the one of applying all headers one by one from the genesis
    block, the same whatever the caches hold, and the snapshots kept afterwards
    belong to their blocks again.  (A search further back trusts a checkpoint,
    and starts without the recent signers.) *)
Theorem snapshot_counted `{Crypto} (config : CliqueConfig) (Known GetHeader : Hash → Z → option Header)
    (GetHeaderByNumber : Z → option Header) (evict : gmap Hash Snapshot → gmap Hash Snapshot)
    (fuel : nat) (c : Clique) (number : Z) (hash : Hash) (parents : list Header) (base : Hash) (base_number : Z)
    (Hchain : chain_ok Known GetHeaderByNumber) (Hevict : ∀ m, evict m ⊆ m)
    (Hc : caches_ok config Known GetHeaderByNumber c) (Hknown : is_Some (Known hash number))
    (Hparents : leads Known base base_number parents hash number)
    (Hdatabase : ∀ h n y, n ≤ base_number → Known h n = Some y → GetHeader h n = Some y)
    (Hf : (Z.to_nat number < fuel)%nat) :
  ∃ r c', snapshot config GetHeader GetHeaderByNumber evict fuel c number hash parents = Ret (r, c')
    ∧ (near Known c number hash FullImmutabilityThreshold →
       r = counted config Known GetHeaderByNumber (Z.to_nat number) hash ∧ caches_ok config Known GetHeaderByNumber c').
Proof. destruct Hknown as [x Hx]. by apply (snapshot_ok config Known GetHeader GetHeaderByNumber evict Hchain Hevict fuel c number hash base base_number parents x). Qed.
