(* ===== verification/EngineExample.v ===== *)
(** * The engines on small chains

    Instances of what the consensus engines take as parameters, a chain of
    proof-of-work blocks with an uncle, a chain of proof-of-authority blocks
    with votes, and the properties of the engines applied to them. *)
From S2P Require Import TrieEncoding TrieSpec Trie TrieHash TrieDecode StackTrie BlockValidator.
From S2P Require Import Prelude RlpEncode RlpRaw RlpDecode AccessList StateDB StateRevert StateCommit Params ChainConfig VmBase VmMachine Precompiles VmSmoke VmOps VmTables Evm StateTransition Transaction Receipts BlockHeader Uint256Model VmLogic VmAnalysis VmState VmReadOnly VmSupply VmSound StateFinal VmExample BlockProps Ethash VerifyHeaders EthashProps RewardProps Clique CliqueProps CliqueSnapshots.
Local Open Scope Z_scope.

(** The toy curves and signatures with another hash. *)
Definition with_keccak (keccak : bytes → bytes) : Crypto := {|
  Precompiles.Keccak256 := keccak;
  sha256_Sum256 := @sha256_Sum256 example_crypto;
  ripemd160_Sum := @ripemd160_Sum example_crypto;
  Ecrecover := @Ecrecover toy_crypto;
  bnG1_Unmarshal := @bnG1_Unmarshal example_crypto; bnG2_Unmarshal := @bnG2_Unmarshal example_crypto;
  bnG1_Add := @bnG1_Add example_crypto; bnG1_ScalarMult := @bnG1_ScalarMult example_crypto;
  bnG1_Marshal := @bnG1_Marshal example_crypto; bn_PairingCheck := @bn_PairingCheck example_crypto;
  blake2b_F := @blake2b_F example_crypto;
  blsG1_DecodePoint := @blsG1_DecodePoint example_crypto; blsG2_DecodePoint := @blsG2_DecodePoint example_crypto;
  blsG1_EncodePoint := @blsG1_EncodePoint example_crypto; blsG2_EncodePoint := @blsG2_EncodePoint example_crypto;
  blsG1_Add := @blsG1_Add example_crypto; blsG2_Add := @blsG2_Add example_crypto;
  blsG1_MulScalar := @blsG1_MulScalar example_crypto; blsG2_MulScalar := @blsG2_MulScalar example_crypto;
  blsG1_MultiExp := @blsG1_MultiExp example_crypto; blsG2_MultiExp := @blsG2_MultiExp example_crypto;
  blsG1_InCorrectSubgroup := @blsG1_InCorrectSubgroup example_crypto;
  blsG2_InCorrectSubgroup := @blsG2_InCorrectSubgroup example_crypto;
  blsG1_MapToCurve := @blsG1_MapToCurve example_crypto; blsG2_MapToCurve := @blsG2_MapToCurve example_crypto;
  bls_Check := @bls_Check example_crypto
|}.

(** A toy hash of which the end of the input matters: the hashes of headers
    differ with the end of the mix digest and the nonce. *)
Definition tail_crypto : Crypto := with_keccak (λ b, drop (length b) (replicate 32 0 ++ b)).
#[local] Existing Instance tail_crypto.

(** Proof of work is not checked in the mode of the example. *)
#[local] Instance no_hashimoto : Hashimoto := {| hashimoto_dataset _ := None; hashimoto_cache _ _ _ _ := ([], []) |}.
Definition fake_engine : Engine := MkEngine ModeFake (2 ^ 64 - 1) None.

(** ** A chain with an uncle *)

Definition header_at (number time difficulty : Z) (parent : Hash) (nonce : Z) : Header :=
  MkHeader parent EmptyUncleHash addr1 zero_hash zero_hash zero_hash zero_bloom difficulty number 10000000 0 time []
    zero_hash (be_fixed 8 nonce).
Definition child (parent : Header) (nonce : Z) : Header :=
  header_at (h_Number parent + 1) (h_Time parent + 13) (CalcDifficulty block_config (h_Time parent + 13) parent)
    (Header_Hash parent) nonce.

Definition header0 : Header := header_at 0 1000 1000000 zero_hash 10.
Definition header1 : Header := child header0 11.
Definition uncle1 : Header := child header0 12.
Definition header2 : Header := child header1 13.
Definition chain_blocks : list Block := [MkBlock header0 [] []; MkBlock header1 [] []].
Definition block2 : Block := MkBlock header2 [] [uncle1].

Definition example_GetBlock (h : Hash) (n : Z) : option Block :=
  head (filter (λ b, Block_Hash b = h ∧ h_Number (b_Header b) = n) chain_blocks).
Definition example_GetHeader (h : Hash) (n : Z) : option Header := b_Header <$> example_GetBlock h n.

Lemma example_chain h n b : example_GetBlock h n = Some b →
  Block_Hash b = h ∧ h_Number (b_Header b) = n ∧ n < 2 ^ 63 ∧ 0 ≤ h_SmokeLimit (b_Header b) < 2 ^ 63.
Proof.
  unfold example_GetBlock. intros Hb%head_Some_elem_of. apply list_elem_of_filter in Hb as [[H1 H2] Hb].
  split; [exact H1|]. split; [exact H2|]. subst n. clear H1. unfold chain_blocks in Hb.
  apply elem_of_cons in Hb as [->|Hb]; [|apply list_elem_of_singleton in Hb as ->]; vm_compute; repeat split; discriminate.
Qed.

Lemma header_wf_uncle1 : header_wf uncle1.
Proof. by split; vm_compute. Qed.

Lemma DifficultyU256_agrees_witness :
  MakeDifficultyCalculatorU256 5000000 1013 header0 = makeDifficultyCalculator 5000000 1013 header0
  ∧ CalcDifficultyFrontierU256 1013 header0 = calcDifficultyFrontier 1013 header0.
Proof.
  destruct (DifficultyU256_agrees 5000000 1013 header0) as (H1 & _ & H3); [by vm_compute..|].
  split; [apply H1; by vm_compute|apply H3; [right|]; by vm_compute].
Defined.

Lemma DifficultyU256_differs_witness :
  let parent := header_at 0 1000 130130 zero_hash 10 in
  makeDifficultyCalculator 5000000 1013 parent = 130130 ∧ MakeDifficultyCalculatorU256 5000000 1013 parent = 131072.
Proof. apply (DifficultyU256_differs 5000000 1013 (header_at 0 1000 130130 zero_hash 10)); by vm_compute. Defined.

Lemma verifyHeader_exact_witness :
  Ethash.verifyHeader block_config 1020 fake_engine uncle1 header0 true true = None
  ∧ header_ok block_config 1020 fake_engine uncle1 header0 true true.
Proof.
  split; [by vm_compute|]. apply (verifyHeader_exact block_config 1020 fake_engine uncle1 header0 true true);
    [exact header_wf_uncle1|by vm_compute..].
Defined.

Lemma VerifyUncles_sound_witness :
  VerifyUncles block_config 1020 example_GetBlock fake_engine block2 = None ∧ NoDup (map Header_Hash (b_Uncles block2)).
Proof.
  split; [by vm_compute|].
  destruct (VerifyUncles_sound block_config 1020 example_GetBlock fake_engine block2) as (_ & H & _); [..|exact H].
  - exact example_chain.
  - by vm_compute.
  - discriminate.
  - by vm_compute.
  - constructor; [exact header_wf_uncle1|constructor].
  - by vm_compute.
  - by vm_compute.
Defined.

(** A batch of one header: it is handed out, verified, reported, received. *)
Definition work1 : nat → option header_error :=
  verifyHeaderWorker block_config 1020 example_GetHeader fake_engine [uncle1] [true].
Lemma run_of_one : nsteps (step 1 1 work1) 4 (start 1 1)
  (MkBatch 1 0 [true] [work1 0%nat] [Idle] [] [work1 0%nat] true false).
Proof.
  eapply nsteps_l; [apply (step_send 1 1 work1 0 0 [false] [None] [] [] [] []); lia|].
  eapply nsteps_l; [apply (step_store 1 1 work1 1 0 0 [false] [None] [] [] [] [] false false)|].
  eapply nsteps_l; [apply (step_done 1 1 work1 1 0 0 [false] [work1 0%nat] [] [] [] [] false false); cbn; lia|].
  eapply nsteps_l; [by apply (step_receive 1 1 work1 1 0 0 [false] [work1 0%nat] [Idle] [] [] 0 [work1 0%nat] true)|constructor].
Qed.

Lemma VerifyHeaders_in_order_witness : (4 ≤ 4 * 1 + 1)%nat ∧ work1 0 = None.
Proof.
  destruct (VerifyHeaders_in_order block_config 1020 example_GetHeader fake_engine [uncle1] [true] 1 4
    (MkBatch 1 0 [true] [work1 0%nat] [Idle] [] [work1 0%nat] true false)) as [H _]; [discriminate|discriminate|lia|exact run_of_one|].
  split; [exact H|]. vm_compute. reflexivity.
Defined.

(** ** Rewards *)

Definition poor_header : Header := header_at 500000 1000 1000000 zero_hash 10.

Lemma code_state_wf : state_wf (code_state return_code).
Proof. apply code_state_ok. reflexivity. Qed.


Lemma Finalize_panics_witness :
  Finalize (H := sorted_range) block_config header0 poor_header [] (code_state return_code) = None.
Proof.
  destruct (@Finalize_panics example_backend example_backend_laws tail_crypto sorted_range sorted_range_laws block_config header0 poor_header (code_state return_code) code_state_wf) as [_ H];
    [reflexivity|split; discriminate|vm_compute; reflexivity|vm_compute; reflexivity|exact H].
Defined.

(** ** Votes *)

Definition signer_at (k : Z) : Address := replicate 20 k.
Definition clique_config : CliqueConfig := MkCliqueConfig 15 30000.
(** A header with the signature of a signer and a vote on an account. *)
Definition signed_header (number : Z) (parent : Hash) (signers : list Address) (k : Z) (on : Address) (nonce : bytes) : Header :=
  MkHeader parent EmptyUncleHash on zero_hash zero_hash zero_hash zero_bloom 1 number 10000000 0 (1000 + 15 * number)
    (replicate 32 0 ++ concat signers ++ replicate 31 0 ++ [k] ++ replicate 33 0) (be_fixed 32 number) nonce.

Definition three_signers : list Address := [signer_at 1; signer_at 2; signer_at 3].
Definition poa0 : Header := signed_header 0 zero_hash three_signers 0 zero_address nonceDropVote.
Definition poa1 : Header := signed_header 1 (Header_Hash poa0) [] 1 (signer_at 4) nonceAuthVote.
Definition poa2 : Header := signed_header 2 (Header_Hash poa1) [] 2 (signer_at 4) nonceAuthVote.
Definition poa_genesis : Snapshot := newSnapshot clique_config 0 (Header_Hash poa0) three_signers.

Lemma poa1_counted : ∃ s, Clique.apply [poa1] poa_genesis = Ok s ∧ length (Votes s) = 1%nat.
Proof. destruct (Clique.apply [poa1] poa_genesis) as [s|] eqn:E; vm_compute in E; [|discriminate E]. injection E as <-. by eexists. Qed.

Lemma apply_counts_votes_witness :
  ∃ s, Clique.apply [poa1] poa_genesis = Ok s ∧ length (Votes s) = 1%nat ∧ NoDup (map (λ v, (v_Signer v, v_Address v)) (Votes s)).
Proof.
  destruct poa1_counted as (s & E & Hl). exists s. split; [exact E|]. split; [exact Hl|].
  apply (apply_counts_votes clique_config 0 (Header_Hash poa0) three_signers [poa1] s E).
Defined.

Lemma poa2_applied : ∃ s, Clique.apply [poa1; poa2] poa_genesis = Ok s.
Proof. destruct (Clique.apply [poa1; poa2] poa_genesis) as [s|] eqn:E; [by exists s|]. vm_compute in E. discriminate E. Qed.
Lemma three_signers_stay k s : apply_headers poa_genesis (take k [poa1; poa2]) = Ok s → 3 ≤ Z.of_nat (size (Signers s)).
Proof. destruct k as [|[|k]]; [| |destruct k]; intros E; vm_compute in E; injection E as <-; vm_compute; discriminate. Qed.

Lemma apply_spaces_signers_witness : ecrecover poa1 ≠ ecrecover poa2.
Proof.
  destruct poa2_applied as [s E].
  apply (apply_spaces_signers poa_genesis s [poa1; poa2] 3 0 1 poa1 poa2 E);
    [vm_compute; split; discriminate|exact three_signers_stay|reflexivity|reflexivity|lia|vm_compute; discriminate].
Defined.

Lemma poa_signers : Signers poa_genesis ≠ ∅.
Proof. intros E. assert (signer_at 1 ∈ Signers poa_genesis) as H by (vm_compute; reflexivity). rewrite E in H. by apply not_elem_of_empty in H. Qed.
Lemma inturn_unique_witness : ∃ a, a ∈ Signers poa_genesis
  ∧ ∀ b, @inturn sorted_range 7 b poa_genesis = Some (bool_decide (b = a)) ∧ @inturn sorted_range 7 b poa_genesis = Some (bool_decide (b = a)).
Proof.
  apply (inturn_unique sorted_range sorted_range sorted_range_laws sorted_range_laws poa_genesis 7);
    [exact poa_signers|lia].
Defined.

Definition young_snapshot : Snapshot :=
  MkSnapshot clique_config 1 zero_hash (list_to_set (map signer_at [1; 2; 3; 4; 5])) {[ 1 := signer_at 2 ]} [] ∅.
Lemma verifySeal_forgets_recents_witness :
  recently_signed 2 (signer_at 2) young_snapshot = false ∧ apply_header young_snapshot poa2 = Err errRecentlySigned.
Proof.
  apply (verifySeal_forgets_recents young_snapshot poa2 (signer_at 2) 1).
  - vm_compute. reflexivity.
  - vm_compute. reflexivity.
  - reflexivity.
  - intros k a Hk. unfold young_snapshot in Hk. cbn [Recents] in Hk. apply lookup_singleton_Some in Hk as [<- _]. vm_compute. split; discriminate.
  - vm_compute. split; [discriminate|reflexivity].
  - vm_compute. reflexivity.
Defined.

(** ** The snapshot of a short chain *)

Definition poa_chain : list Header := [poa0; poa1; poa2].
Definition poa_GetHeaderByNumber (n : Z) : option Header := if (n <? 0) || (2 <? n) then None else poa_chain !! Z.to_nat n.
Definition poa_GetHeader (h : Hash) (n : Z) : option Header :=
  x ← poa_GetHeaderByNumber n; if bool_decide (Header_Hash x = h) then Some x else None.
Definition no_cache : Clique := MkClique ∅ ∅.

Lemma poa_GetHeader_cases h n x : poa_GetHeader h n = Some x →
  Header_Hash x = h ∧ poa_GetHeaderByNumber n = Some x
  ∧ ((n = 0 ∧ x = poa0) ∨ (n = 1 ∧ x = poa1) ∨ (n = 2 ∧ x = poa2)).
Proof.
  unfold poa_GetHeader, poa_GetHeaderByNumber. destruct (Z.ltb_spec n 0) as [|Hn]; [done|]. cbn [orb]. destruct (2 <? n); [done|].
  destruct (poa_chain !! Z.to_nat n) as [y|] eqn:E; [cbn|done]. case_bool_decide as Hh; [|done]. intros [= <-].
  split; [exact Hh|]. split; [reflexivity|]. clear Hh. destruct (Z.to_nat n) as [|[|[|k]]] eqn:Ek; cbn in E; [..|discriminate E];
    injection E as <-; [left|right; left|right; right]; (split; [lia|reflexivity]).
Qed.

(** The database has the first two blocks; the caller brings the third. *)
Definition poa_stored (n : Z) : option Header := if 1 <? n then None else poa_GetHeaderByNumber n.
Definition poa_database (h : Hash) (n : Z) : option Header := if 1 <? n then None else poa_GetHeader h n.

Lemma poa_chain_ok : chain_ok poa_GetHeader poa_stored.
Proof.
  split.
  - intros h n x (Hh & Hx & Hc)%poa_GetHeader_cases. split; [exact Hh|]. split; clear Hh Hx;
      destruct Hc as [[-> ->]|[[-> ->]|[-> ->]]]; [reflexivity..|lia|lia|lia].
  - intros h n x (Hh & Hx & Hc)%poa_GetHeader_cases Hn. clear Hh Hx.
    destruct Hc as [[-> ->]|[[-> ->]|[-> ->]]]; [lia|vm_compute; by eexists..].
  - intros h n n' x x' (Hh & _ & Hc)%poa_GetHeader_cases (Hh' & _ & Hc')%poa_GetHeader_cases. rewrite <- Hh' in Hh. clear Hh'.
    destruct Hc as [[-> ->]|[[-> ->]|[-> ->]]], Hc' as [[-> ->]|[[-> ->]|[-> ->]]]; first [reflexivity|vm_compute in Hh; discriminate Hh].
  - intros h x (_ & Hx & _)%poa_GetHeader_cases. exact Hx.
  - intros n Hn. unfold poa_stored, poa_GetHeaderByNumber. destruct (Z.ltb_spec 1 n) as [|H1]; [reflexivity|].
    assert (n = 1) as -> by lia. intros E. discriminate E.
Qed.

Definition poa_snapshot : outcome (result clique_error Snapshot * Clique) :=
  snapshot clique_config poa_database poa_stored (λ m, m) 3 no_cache 2 (Header_Hash poa2) [poa2].
Lemma poa_snapshot_signers r c' : poa_snapshot = Ret (r, c') → ∃ s, r = Ok s ∧ signer_at 4 ∈ Signers s.
Proof. intros E. vm_compute in E. injection E as <- _. eexists. split; [reflexivity|]. vm_compute. reflexivity. Qed.
Lemma poa_leads : leads poa_GetHeader (h_ParentHash poa2) 1 [poa2] (Header_Hash poa2) 2.
Proof. cbn [leads]. split; [reflexivity|]. split; [vm_compute; reflexivity|]. split; reflexivity. Qed.
Lemma poa_known : is_Some (poa_GetHeader (Header_Hash poa2) 2).
Proof. vm_compute. by eexists. Qed.

Lemma snapshot_counted_witness :
  ∃ s c', poa_snapshot = Ret (Ok s, c') ∧ signer_at 4 ∈ Signers s
    ∧ counted clique_config poa_GetHeader poa_stored 2 (Header_Hash poa2) = Ok s.
Proof.
  destruct (snapshot_counted clique_config poa_GetHeader poa_database poa_stored (λ m, m) 3 no_cache 2 (Header_Hash poa2) [poa2] (h_ParentHash poa2) 1)
    as (r & c' & E & Hr).
  - exact poa_chain_ok.
  - intros m. reflexivity.
  - split; intros h s n x Hl; discriminate Hl.
  - exact poa_known.
  - exact poa_leads.
  - intros h n y Hn Hy. unfold poa_database. destruct (Z.ltb_spec 1 n) as [Hlt|_]; [lia|exact Hy].
  - change (2 < 3)%nat. lia.
  - destruct (poa_snapshot_signers r c' E) as (s & -> & H4). exists s, c'. split; [exact E|]. split; [exact H4|].
    symmetry. apply Hr. left. unfold FullImmutabilityThreshold. lia.
Defined.

(** ** A body and its header *)

Definition digest_crypto : Crypto := with_keccak toy_digest.

(** Two blocks with the same transaction, of which one knows the sender. *)
Definition body_tx (from : option (Signer * Address)) : Transaction :=
  MkTransaction (MkTxdata 0 1 50000 (Some addr2) 7 [1; 2; 3] 27 5 6) from.
Definition body_items : list bytes := [tx_GetRlp (body_tx None)].
Definition body_header : Header :=
  MkHeader zero_hash (@CalcUncleHash digest_crypto []) addr1 zero_hash
    (merkle_root toy_digest (indexed body_items)) zero_hash zero_bloom 1 5 10000000 0 1000 [] zero_hash (be_fixed 8 0).
Definition body_block (from : option (Signer * Address)) : Block := MkBlock body_header [body_tx from] [].
Definition known_parent (h : Hash) (n : Z) : bool := n =? 4.

Lemma body_block_wf from : body_wf (body_block from).
Proof.
  split; [|split; [reflexivity|]].
  - constructor; [|constructor]. split; cbn; try (unfold is_u64; lia).
    + intros a [= <-]. split; [reflexivity|]. repeat constructor; unfold is_byte; lia.
    + repeat constructor; unfold is_byte; lia.
    + intros b E. vm_compute in E. injection E as <-. reflexivity.
  - split; [constructor|]. by exists [192].
Qed.

Lemma body_no_collision :
  no_collision toy_digest (indexed body_items) (indexed body_items).
Proof.
  exists (λ h, match tree_of (indexed body_items) with Some p => Some (TrieHash.enc toy_digest p) | None => None end).
  assert (stored_map toy_digest (λ h, match tree_of (indexed body_items) with Some p => Some (TrieHash.enc toy_digest p) | None => None end)
    (indexed body_items)) as Hs by (vm_compute; repeat split; intros; reflexivity).
  split; [exact Hs|]. split; [exact Hs|]. intros m Hm _. assert (m = indexed body_items) as -> by (by destruct Hm).
  split; intros E; vm_compute in E; discriminate E.
Qed.

Lemma ValidateBody_binds_witness :
  map tx_data (Transactions (body_block None)) = map tx_data (Transactions (body_block (Some (HomesteadSigner, addr1))))
  ∧ b_Uncles (body_block None) = b_Uncles (body_block (Some (HomesteadSigner, addr1))).
Proof.
  apply (@ValidateBody_binds digest_crypto unit known_parent known_parent (λ _, None)
    (body_block None) (body_block (Some (HomesteadSigner, addr1)))).
  - exact toy_digest_length.
  - exact toy_digest_ok.
  - reflexivity.
  - apply body_block_wf.
  - apply body_block_wf.
  - exact body_no_collision.
  - intros _. reflexivity.
  - vm_compute. reflexivity.
  - vm_compute. reflexivity.
Defined.

Lemma CalcSmokeLimit_accepted_witness :
  let parent := header_at 7 1000 1000000 zero_hash 10 in
  Z.abs (h_SmokeLimit parent - CalcSmokeLimit parent 8000000 9000000) < h_SmokeLimit parent / 1024.
Proof.
  apply (CalcSmokeLimit_accepted (header_at 7 1000 1000000 zero_hash 10) 8000000 9000000); vm_compute;
    repeat split; discriminate.
Defined.

(** After a full block with the limit 5000 the chosen limit is refused. *)
Lemma CalcSmokeLimit_refused :
  let parent := MkHeader zero_hash zero_hash addr1 zero_hash zero_hash zero_hash zero_bloom 1 7 5000 5000 1000 [] zero_hash [] in
  CalcSmokeLimit parent 5000 8000000 = 5004 ∧ ¬ (Z.abs (h_SmokeLimit parent - 5004) < h_SmokeLimit parent / 1024).
Proof. split; [reflexivity|]. vm_compute. discriminate. Qed.
