(* ===== verification/GoHeap.v ===== *)
(** * Binary heaps of the Go standard library

    [container/heap], on which the transaction lists are built: [Init],
    [Push], [Pop], [Remove] and [Fix] over a slice, for a strict weak order.
    Each keeps the elements and the heap property, and the first element of a
    heap is a least one. *)
From S2P Require Import Prelude.
Local Open Scope nat_scope.

Section heap.
Context {A : Type} (less : A → A → bool).

Definition swap (i j : nat) (l : list A) : list A :=
  match l !! i, l !! j with Some x, Some y => <[i := y]> (<[j := x]> l) | _, _ => l end.
Definition less_at (l : list A) (i j : nat) : bool :=
  match l !! i, l !! j with Some x, Some y => less x y | _, _ => false end.

Definition parent (j : nat) : nat := (j - 1) / 2.

(** [heap.up]; [j] iterations are enough. *)
Fixpoint up (fuel j : nat) (l : list A) : list A :=
  match fuel with
  | O => l
  | S fuel =>
      let i := parent j in
      if (i =? j) || negb (less_at l j i) then l else up fuel i (swap i j l)
  end.

(** [heap.down] on the first [n] elements, with the final position; [n]
    iterations are enough. *)
Fixpoint down (fuel i n : nat) (l : list A) : list A * nat :=
  match fuel with
  | O => (l, i)
  | S fuel =>
      let j1 := 2 * i + 1 in
      if n <=? j1 then (l, i)
      else
        let j := if (j1 + 1 <? n) && less_at l (j1 + 1) j1 then j1 + 1 else j1 in
        if negb (less_at l j i) then (l, i) else down fuel j n (swap i j l)
  end.

Definition heap_Init (l : list A) : list A :=
  let n := length l in foldl (λ l i, (down n i n l).1) l (reverse (seq 0 (n / 2))).

Definition heap_Push (x : A) (l : list A) : list A := up (length l) (length l) (l ++ [x]).

Definition heap_Pop (l : list A) : option (A * list A) :=
  let n := length l - 1 in
  let l := (down n 0 n (swap 0 n l)).1 in
  x ← l !! n; Some (x, take n l).

(** [down], and [up] if that did not move the element. *)
Definition heap_sift (i n : nat) (l : list A) : list A :=
  let '(l', i') := down n i n l in if i <? i' then l' else up i i l'.

Definition heap_Remove (i : nat) (l : list A) : list A :=
  let n := length l - 1 in
  take n (if i =? n then l else heap_sift i n (swap i n l)).

Definition heap_Fix (i : nat) (l : list A) : list A := heap_sift i (length l) l.

(** ** Swapping *)

Definition transp (i j k : nat) : nat := if decide (k = i) then j else if decide (k = j) then i else k.

Lemma lookup_swap i j l k : i < length l → j < length l → swap i j l !! k = l !! transp i j k.
Proof.
  intros Hi Hj. unfold swap, transp. destruct (lookup_lt_is_Some_2 l i Hi) as [x Hx]. destruct (lookup_lt_is_Some_2 l j Hj) as [y Hy]. rewrite Hx, Hy.
  destruct (decide (k = i)) as [->|]; [rewrite list_lookup_insert_eq by (by rewrite length_insert); by rewrite Hy|].
  rewrite list_lookup_insert_ne by done. destruct (decide (k = j)) as [->|]; [by rewrite list_lookup_insert_eq, Hx|by rewrite list_lookup_insert_ne].
Qed.

Lemma length_swap i j l : length (swap i j l) = length l.
Proof. unfold swap. repeat case_match; by rewrite ?length_insert. Qed.

Lemma swap_perm i j l : swap i j l ≡ₚ l.
Proof.
  unfold swap. destruct (l !! i) as [x|] eqn:Hx; [|done]. destruct (l !! j) as [y|] eqn:Hy; [|done].
  by apply Permutation_insert_swap.
Qed.

Lemma up_perm fuel j l : up fuel j l ≡ₚ l.
Proof. revert j l. induction fuel as [|fuel IH]; intros j l; [done|]. cbn. case_match; [done|]. by rewrite IH, swap_perm. Qed.
Lemma down_perm fuel i n l : (down fuel i n l).1 ≡ₚ l.
Proof. revert i l. induction fuel as [|fuel IH]; intros i l; [done|]. cbn [down]. repeat case_match; try done; by rewrite IH, swap_perm. Qed.

Lemma down_length fuel i n l : length (down fuel i n l).1 = length l.
Proof. by rewrite (Permutation_length (down_perm fuel i n l)). Qed.
Lemma up_length fuel j l : length (up fuel j l) = length l.
Proof. by rewrite (Permutation_length (up_perm fuel j l)). Qed.

(** ** The heap property *)

Section order.
Context (less_asym : ∀ x y, less x y = true → less y x = false).
Context (le_trans : ∀ x y z, less y x = false → less z y = false → less z x = false).

(** The element at [i] does not come after the one at [k]. *)
Definition ord (l : list A) (i k : nat) : Prop := ∀ x y, l !! i = Some x → l !! k = Some y → less y x = false.
Definition heap_below (n : nat) (l : list A) : Prop := ∀ k, 0 < k < n → ord l (parent k) k.
Definition heap_ok (l : list A) : Prop := heap_below (length l) l.

Lemma ord_trans l i j k : j < length l → ord l i j → ord l j k → ord l i k.
Proof.
  intros Hj H1 H2 x z Hx Hz. destruct (lookup_lt_is_Some_2 l j Hj) as [y Hy]. eapply le_trans; [by apply H1|by apply H2].
Qed.
Lemma less_ord l i j : less_at l i j = true → ord l i j.
Proof. unfold less_at. intros H x y Hx Hy. rewrite Hx, Hy in H. by apply less_asym. Qed.
Lemma not_less_ord l i j : less_at l i j = false → ord l j i.
Proof. unfold less_at. intros H x y Hx Hy. by rewrite Hx, Hy in H. Qed.
Lemma ord_swap i j l a b : i < length l → j < length l → ord (swap i j l) a b ↔ ord l (transp i j a) (transp i j b).
Proof. intros Hi Hj. unfold ord. by rewrite !lookup_swap. Qed.

Lemma parent_lt k : 0 < k → parent k < k.
Proof. intros Hk. unfold parent. pose proof (Nat.div_le_upper_bound (k - 1) 2 (k - 1)). lia. Qed.
Lemma parent_child k i : 0 < k → parent k = i ↔ k = 2 * i + 1 ∨ k = 2 * i + 2.
Proof.
  intros Hk. unfold parent. pose proof (Nat.div_mod (k - 1) 2 (ltac:(lia))). pose proof (Nat.mod_upper_bound (k - 1) 2 (ltac:(lia))). lia.
Qed.

(** Before [up j]: only the edge above [j] may be wrong. *)
Definition up_inv (n j : nat) (l : list A) : Prop :=
  (∀ k, 0 < k < n → k ≠ j → ord l (parent k) k) ∧ (∀ k, 0 < k < n → parent k = j → 0 < j → ord l (parent j) k).

Ltac by_transp := unfold transp; repeat case_decide; subst; try lia; try done.

Lemma up_ok fuel j n l : n ≤ length l → j < n → j ≤ fuel → up_inv n j l → heap_below n (up fuel j l).
Proof.
  revert j l. induction fuel as [|fuel IH]; intros j l Hn Hj Hf [H1 H2].
  { intros k Hk. apply H1; lia. }
  cbn [up]. destruct (Nat.eqb_spec (parent j) j) as [E|E]; cbn [orb].
  { destruct (decide (j = 0)) as [->|]; [|pose proof (parent_lt j); lia]. intros k Hk. apply H1; lia. }
  destruct (less_at l j (parent j)) eqn:El; cbn [negb]; cycle 1.
  { intros k Hk. destruct (decide (k = j)) as [->|]; [by apply not_less_ord|by apply H1]. }
  assert (Hj0 : 0 < j) by (destruct j; [done|lia]). pose proof (parent_lt j Hj0) as Hp. apply less_ord in El.
  apply IH; [by rewrite length_swap|lia|lia|]. split.
  - intros k Hk Hne. rewrite ord_swap by lia. destruct (decide (k = j)) as [->|Hkj]; [by_transp|].
    pose proof (parent_lt k (ltac:(lia))) as Hpk. pose proof (parent_child k j (ltac:(lia))). pose proof (parent_child k (parent j) (ltac:(lia))).
    destruct (decide (parent k = j)) as [Ek|Nk]; [|destruct (decide (parent k = parent j)) as [Ek|Nk']].
    + rewrite Ek. by_transp. by apply H2.
    + rewrite Ek. by_transp. apply (ord_trans _ _ (parent j)); [lia|done|]. rewrite <-Ek. by apply H1.
    + by_transp. by apply H1.
  - intros k Hk Ek Hi. rewrite ord_swap by lia. pose proof (parent_lt (parent j) Hi).
    assert (Hpi : ord l (parent (parent j)) (parent j)) by (apply H1; lia).
    destruct (decide (k = j)) as [->|Hkj]; [by_transp|]. pose proof (parent_lt k (ltac:(lia))).
    by_transp. apply (ord_trans _ _ (parent j)); [lia|done|]. rewrite <-Ek. by apply H1.
Qed.

(** Before [down i] on the heaps below [lo]: only the edges under [i] may be
    wrong. *)
Definition down_inv (lo n i : nat) (l : list A) : Prop :=
  lo ≤ i ∧ (∀ k, 0 < k < n → lo ≤ parent k → parent k ≠ i → ord l (parent k) k)
  ∧ (∀ k, 0 < k < n → parent k = i → 0 < i → lo ≤ parent i → ord l (parent i) k).
Definition heap_above (lo n : nat) (l : list A) : Prop := ∀ k, 0 < k < n → lo ≤ parent k → ord l (parent k) k.

(** The child that [down] compares with: the least one. *)
Lemma least_child i n l :
  2 * i + 1 < n →
  let j := if (2 * i + 1 + 1 <? n) && less_at l (2 * i + 1 + 1) (2 * i + 1) then 2 * i + 1 + 1 else 2 * i + 1 in
  parent j = i ∧ i < j < n ∧ ∀ k, 0 < k < n → parent k = i → k ≠ j → ord l j k.
Proof.
  intros Hn j. subst j. destruct (Nat.ltb_spec (2 * i + 1 + 1) n) as [H2|H2]; cbn [andb].
  - destruct (less_at l (2 * i + 1 + 1) (2 * i + 1)) eqn:E.
    + split_and!; [apply parent_child; lia|lia|lia|]. intros k Hk Ek Hne. rewrite parent_child in Ek by lia.
      replace k with (2 * i + 1) by lia. by apply less_ord.
    + split_and!; [apply parent_child; lia|lia|lia|]. intros k Hk Ek Hne. rewrite parent_child in Ek by lia.
      replace k with (2 * i + 1 + 1) by lia. by apply not_less_ord.
  - split_and!; [apply parent_child; lia|lia|lia|]. intros k Hk Ek Hne. rewrite parent_child in Ek by lia. lia.
Qed.

(** One step of [down]. *)
Lemma down_step lo n i j l :
  n ≤ length l → lo ≤ i → parent j = i → i < j < n → (∀ k, 0 < k < n → parent k = i → k ≠ j → ord l j k) → less_at l j i = true →
  (∀ k, 0 < k < n → lo ≤ parent k → parent k ≠ i → k ≠ i → ord l (parent k) k) →
  (∀ k, 0 < k < n → parent k = i → 0 < i → lo ≤ parent i → ord l (parent i) k) →
  down_inv lo n j (swap i j l).
Proof.
  intros Hn Hlo Ej Hj Hmin Hless H1 H2. apply less_ord in Hless. split_and!; [lia| |].
  - intros k Hk Hlk Hne. rewrite ord_swap by lia. pose proof (parent_lt k (ltac:(lia))).
    destruct (decide (parent k = i)) as [Ek|Nk].
    + rewrite Ek. destruct (decide (k = j)) as [->|]; [by_transp|]. by_transp. by apply Hmin.
    + destruct (decide (k = i)) as [->|Nki]; [by_transp; apply H2; try done; lia|]. assert (k ≠ j) by congruence. by_transp. by apply H1.
  - intros k Hk Ek _ Hlk. rewrite ord_swap by lia. rewrite Ej. pose proof (parent_lt k (ltac:(lia))). by_transp. apply H1; lia.
Qed.

Lemma down_ok fuel lo n i l :
  n ≤ length l → n ≤ i + fuel → down_inv lo n i l → heap_above lo n (down fuel i n l).1 ∧ i ≤ (down fuel i n l).2.
Proof.
  revert i l. induction fuel as [|fuel IH]; intros i l Hn Hf (Hlo & H1 & H2).
  { split; [|done]. intros k Hk Hlk. apply H1; [done|done|]. pose proof (parent_lt k). lia. }
  cbn [down]. destruct (Nat.leb_spec n (2 * i + 1)) as [Hl|Hl].
  { split; [|done]. intros k Hk Hlk. apply H1; [done|done|]. rewrite parent_child by lia. lia. }
  destruct (least_child i n l Hl) as (Ej & Hj & Hmin).
  set (j := if (2 * i + 1 + 1 <? n) && _ then _ else _) in *. clearbody j.
  destruct (less_at l j i) eqn:El; cbn [negb].
  - destruct (IH j (swap i j l)) as [HA HB]; [by rewrite length_swap|lia|apply down_step; auto|]. split; [done|lia].
  - split; [|done]. cbn [fst]. apply not_less_ord in El. intros k Hk Hlk. destruct (decide (parent k = i)) as [Ek|]; [|by apply H1].
    rewrite Ek. destruct (decide (k = j)) as [->|]; [done|]. apply (ord_trans _ _ j); [lia|done|by apply Hmin].
Qed.

(** [down] does not touch what is beyond [n]. *)
Lemma down_beyond fuel n i l k : n ≤ length l → n ≤ k → (down fuel i n l).1 !! k = l !! k.
Proof.
  revert i l. induction fuel as [|fuel IH]; intros i l Hn Hk; [done|]. cbn [down]. destruct (Nat.leb_spec n (2 * i + 1)) as [Hl|Hl]; [done|].
  destruct (least_child i n l Hl) as (Ej & Hj & _). set (j := if (2 * i + 1 + 1 <? n) && _ then _ else _) in *. clearbody j.
  destruct (less_at l j i) eqn:El; cbn [negb]; [|done]. rewrite IH by (by rewrite ?length_swap). rewrite lookup_swap by lia. by_transp.
Qed.

(** Before [heap_sift i]: the edges above and below [i] may be wrong. *)
Definition sift_inv (n i : nat) (l : list A) : Prop :=
  (∀ k, 0 < k < n → parent k ≠ i → k ≠ i → ord l (parent k) k) ∧ (∀ k, 0 < k < n → parent k = i → 0 < i → ord l (parent i) k).

Lemma sift_ok i n l : n ≤ length l → i < n → sift_inv n i l → heap_below n (heap_sift i n l).
Proof.
  intros Hn Hi [H1 H2]. unfold heap_sift. destruct n as [|n]; [lia|]. cbn [down].
  destruct (Nat.leb_spec (S n) (2 * i + 1)) as [Hl|Hl].
  { rewrite Nat.ltb_irrefl. apply up_ok; [done..|]. split; [|done]. intros k Hk Hne. apply H1; [done| |done]. rewrite parent_child by lia. lia. }
  destruct (least_child i (S n) l Hl) as (Ej & Hj & Hmin). set (j := if (2 * i + 1 + 1 <? S n) && _ then _ else _) in *. clearbody j.
  destruct (less_at l j i) eqn:El; cbn [negb].
  - destruct (down_ok n 0 (S n) j (swap i j l)) as [HA HB]; [by rewrite length_swap|lia|apply down_step; auto; lia|].
    destruct (down n j (S n) (swap i j l)) as [l' i']. cbn in HA, HB. rewrite (proj2 (Nat.ltb_lt i i')) by lia. intros k Hk. apply HA; [done|lia].
  - rewrite Nat.ltb_irrefl. apply not_less_ord in El. apply up_ok; [done..|]. split; [|done]. intros k Hk Hne.
    destruct (decide (parent k = i)) as [Ek|]; [|by apply H1]. rewrite Ek. destruct (decide (k = j)) as [->|]; [done|].
    apply (ord_trans _ _ j); [lia|done|by apply Hmin].
Qed.

Lemma up_beyond fuel j l k : j < length l → j < k → up fuel j l !! k = l !! k.
Proof.
  revert j l. induction fuel as [|fuel IH]; intros j l Hj Hk; [done|]. cbn [up]. destruct (Nat.eqb_spec (parent j) j) as [|E]; cbn [orb]; [done|].
  assert (parent j < j) by (apply parent_lt; destruct j; [done|lia]).
  destruct (less_at l j (parent j)); cbn [negb]; [|done]. rewrite IH by (rewrite ?length_swap; lia). rewrite lookup_swap by lia. by_transp.
Qed.

Lemma sift_beyond i n l k : n ≤ length l → i < n → n ≤ k → heap_sift i n l !! k = l !! k.
Proof.
  intros Hn Hi Hk. unfold heap_sift. pose proof (down_beyond n n i l k Hn Hk) as E. pose proof (down_length n i n l) as El.
  destruct (down n i n l) as [l' i']. cbn in E, El. case_match; [done|]. rewrite up_beyond by lia. done.
Qed.
Lemma sift_perm i n l : heap_sift i n l ≡ₚ l.
Proof.
  unfold heap_sift. pose proof (down_perm n i n l) as E. destruct (down n i n l) as [l' i']. cbn in E. case_match; [done|]. by rewrite up_perm.
Qed.

Lemma take_heap n l : n ≤ length l → heap_below n l → heap_ok (take n l).
Proof.
  intros Hn Hh k. rewrite length_take. intros Hk x y. pose proof (parent_lt k (ltac:(lia))). rewrite !lookup_take_lt by lia. apply Hh. lia.
Qed.
Lemma take_last_perm (l : list A) x n : length l = S n → l !! n = Some x → x :: take n l ≡ₚ l.
Proof.
  intros Hl Hx. rewrite <-(take_drop_middle l n x Hx) at 2. rewrite (drop_ge l (S n)) by lia. by rewrite Permutation_cons_append.
Qed.

(** *** The operations *)

Lemma heap_min l x : heap_ok l → l !! 0 = Some x → ∀ y, y ∈ l → less y x = false.
Proof.
  intros Hh Hx y [k Hk]%list_elem_of_lookup. revert y Hk. induction (lt_wf k) as [k _ IH]. intros y Hk.
  destruct (decide (k = 0)) as [->|Hk0].
  - rewrite Hx in Hk. injection Hk as ->. destruct (less y y) eqn:E; [|done]. pose proof (less_asym _ _ E). congruence.
  - pose proof (parent_lt k (ltac:(lia))) as Hp. apply lookup_lt_Some in Hk as Hlt.
    destruct (lookup_lt_is_Some_2 l (parent k) (ltac:(lia))) as [z Hz]. eapply le_trans; [by apply (IH (parent k))|].
    by apply (Hh k (ltac:(lia)) z y).
Qed.

Lemma heap_Init_from n m l :
  length l = n → m ≤ n → heap_above m n l →
  heap_above 0 n (foldl (λ l i, (down n i n l).1) l (reverse (seq 0 m))).
Proof.
  revert l. induction m as [|m IH]; intros l Hl Hm Hh; [done|]. rewrite seq_S, reverse_app. cbn.
  apply IH; [by rewrite down_length|lia|]. apply down_ok; [lia|lia|]. split_and!; [done| |].
  - intros k Hk Hlk Hne. apply Hh; [done|]. lia.
  - intros k Hk Ek Hm0 Hlm. pose proof (parent_lt m Hm0). lia.
Qed.
Lemma heap_Init_perm (l : list A) : heap_Init l ≡ₚ l.
Proof.
  unfold heap_Init. generalize (length l) as n, (reverse (seq 0 (length l / 2))) as js. intros n js. revert l.
  induction js as [|i js IH]; intros l; cbn [foldl]; [done|]. by rewrite IH, down_perm.
Qed.
Lemma heap_Init_ok l : heap_ok (heap_Init l) ∧ heap_Init l ≡ₚ l.
Proof.
  split; [|apply heap_Init_perm]. unfold heap_ok. rewrite (Permutation_length (heap_Init_perm l)). unfold heap_Init. intros k Hk.
  apply (heap_Init_from (length l) (length l / 2)); [done| | |done|lia].
  - pose proof (Nat.div_le_upper_bound (length l) 2 (length l)). lia.
  - intros j Hj Hl. pose proof (parent_child j (parent j) (ltac:(lia))) as [Hc _]. specialize (Hc eq_refl).
    pose proof (Nat.div_mod (length l) 2 (ltac:(lia))). pose proof (Nat.mod_upper_bound (length l) 2 (ltac:(lia))). lia.
Qed.

Lemma heap_Push_ok x l : heap_ok l → heap_ok (heap_Push x l) ∧ heap_Push x l ≡ₚ x :: l.
Proof.
  intros Hh. unfold heap_Push. split; [|rewrite up_perm; symmetry; apply Permutation_cons_append]. unfold heap_ok. rewrite up_length, length_app. cbn.
  apply up_ok; [rewrite length_app; cbn; lia|lia|done|]. split.
  - intros k Hk Hne y z. pose proof (parent_lt k (ltac:(lia))). rewrite !lookup_app_l by lia. apply Hh. lia.
  - intros k Hk Ek _. pose proof (parent_lt k (ltac:(lia))). lia.
Qed.

Lemma heap_Pop_ok l :
  heap_ok l → l ≠ [] → ∃ x l', heap_Pop l = Some (x, l') ∧ l !! 0 = Some x ∧ heap_ok l' ∧ x :: l' ≡ₚ l.
Proof.
  intros Hh Hne. assert (Hlen : length l = S (length l - 1)) by (destruct l; [done|cbn; lia]). set (n := length l - 1) in *.
  destruct (lookup_lt_is_Some_2 l 0 (ltac:(lia))) as [x Hx]. unfold heap_Pop. fold n.
  assert (Hn : swap 0 n l !! n = Some x).
  { rewrite lookup_swap by lia. unfold transp. case_decide; [congruence|]. rewrite decide_True by done. done. }
  set (l1 := (down n 0 n (swap 0 n l)).1).
  assert (Hl1 : length l1 = S n) by (unfold l1; rewrite down_length, length_swap; done).
  assert (Hx1 : l1 !! n = Some x) by (unfold l1; rewrite down_beyond; [done|rewrite length_swap; lia|done]).
  rewrite Hx1. cbn. exists x, (take n l1). split_and!; [done|done| |].
  - apply take_heap; [lia|]. intros k Hk. apply (down_ok n 0 n 0); [rewrite length_swap; lia|lia| |done|lia]. split_and!; [done| |lia].
    intros i Hi _ Hne0. rewrite ord_swap by lia. pose proof (parent_lt i (ltac:(lia))). by_transp. apply Hh. lia.
  - rewrite (take_last_perm l1 x n Hl1 Hx1). unfold l1. by rewrite down_perm, swap_perm.
Qed.

Lemma heap_Remove_ok i x l :
  heap_ok l → l !! i = Some x → heap_ok (heap_Remove i l) ∧ x :: heap_Remove i l ≡ₚ l.
Proof.
  intros Hh Hx. apply lookup_lt_Some in Hx as Hi. assert (Hlen : length l = S (length l - 1)) by lia.
  unfold heap_Remove. set (n := length l - 1) in *. destruct (Nat.eqb_spec i n) as [->|Hne].
  - split; [apply take_heap; [lia|]; intros k Hk; apply Hh; lia|by apply take_last_perm].
  - assert (Hn : swap i n l !! n = Some x).
    { rewrite lookup_swap by lia. unfold transp. case_decide; [congruence|]. by rewrite decide_True. }
    split.
    + apply take_heap; [rewrite (Permutation_length (sift_perm i n _)), length_swap; lia|]. apply sift_ok; [rewrite length_swap; lia|lia|]. split.
      * intros k Hk Hp Hki. rewrite ord_swap by lia. pose proof (parent_lt k (ltac:(lia))). by_transp. apply Hh. lia.
      * intros k Hk Ek Hi0. rewrite ord_swap by lia. pose proof (parent_lt k (ltac:(lia))). pose proof (parent_lt i Hi0). by_transp.
        apply (ord_trans _ _ (parent k)); [lia|apply Hh; lia|apply Hh; lia].
    + rewrite (take_last_perm _ x n); [by rewrite sift_perm, swap_perm|by rewrite (Permutation_length (sift_perm i n _)), length_swap|].
      rewrite sift_beyond; [done|rewrite length_swap; lia|lia|done].
Qed.

Lemma heap_Fix_ok i x l :
  heap_ok l → i < length l → heap_ok (heap_Fix i (<[i := x]> l)) ∧ heap_Fix i (<[i := x]> l) ≡ₚ <[i := x]> l.
Proof.
  intros Hh Hi. unfold heap_Fix. split; [|apply sift_perm]. unfold heap_ok. rewrite (Permutation_length (sift_perm _ _ _)), length_insert.
  apply sift_ok; [by rewrite length_insert|done|]. split.
  - intros k Hk Hp Hki a b. rewrite !list_lookup_insert_ne by done. by apply Hh.
  - intros k Hk Ek Hi0. pose proof (parent_lt k (ltac:(lia))). pose proof (parent_lt i Hi0).
    intros a b. rewrite !list_lookup_insert_ne by lia. subst i. apply (ord_trans l _ (parent k)); [lia|apply Hh; lia|apply Hh; lia].
Qed.
End order.
End heap.
