(* ===== verification/TxList.v ===== *)
(** * Transaction lists of the pool (src/core/tx_list.go)

    [txSortedMap], a map from nonces to transactions with a heap of the nonces
    and a cache of the sorted transactions, and [txList], the pending or queued
    transactions of an account.  The order of ranging over a map of
    transactions is a parameter.  [None] stands for a panic or, as the
    transaction in a result, for nil. *)
From S2P Require Import Prelude RlpEncode Params ChainConfig StateDB VmBase Precompiles Evm StateTransition Transaction GoHeap.
From stdpp Require Import sorting.
Local Open Scope Z_scope.

Definition tx_Nonce (tx : Transaction) : Z := AccountNonce (tx_data tx).
Definition tx_Price (tx : Transaction) : Z := Price (tx_data tx).
Definition tx_Smoke (tx : Transaction) : Z := tx_SmokeLimit (tx_data tx).
Definition Cost (tx : Transaction) : Z := tx_Price tx * tx_Smoke tx + Amount (tx_data tx).

Class RangeItems := {
  range_items : gmap Z Transaction → list (Z * Transaction);
  range_items_perm m : range_items m ≡ₚ map_to_list m
}.

(** ** [txSortedMap] *)

Record txSortedMap := MkSortedMap {
  items : gmap Z Transaction;
  index : list Z;
  cache : option (list Transaction)
}.

Definition newTxSortedMap : txSortedMap := MkSortedMap ∅ [] None.

Definition Get (nonce : Z) (m : txSortedMap) : option Transaction := items m !! nonce.

Definition Put (tx : Transaction) (m : txSortedMap) : txSortedMap :=
  let nonce := tx_Nonce tx in
  let index := match items m !! nonce with None => heap_Push Z.ltb nonce (index m) | Some _ => index m end in
  MkSortedMap (<[nonce := tx]> (items m)) index None.

(** The loop of [Forward]. *)
Fixpoint forward_loop (fuel : nat) (threshold : Z) (items : gmap Z Transaction) (index : list Z)
    : option (list Transaction * gmap Z Transaction * list Z) :=
  match index with
  | [] => Some ([], items, index)
  | h :: _ =>
      if h <? threshold then
        match fuel with
        | O => None
        | S fuel =>
            '(nonce, index) ← heap_Pop Z.ltb index;
            tx ← items !! nonce;
            '(removed, items, index) ← forward_loop fuel threshold (delete nonce items) index;
            Some (tx :: removed, items, index)
        end
      else Some ([], items, index)
  end.

Definition Forward (threshold : Z) (m : txSortedMap) : option (list Transaction * txSortedMap) :=
  '(removed, items, index) ← forward_loop (length (index m)) threshold (items m) (index m);
  match cache m with
  | None => Some (removed, MkSortedMap items index None)
  | Some c => if (length removed <=? length c)%nat then Some (removed, MkSortedMap items index (Some (drop (length removed) c))) else None
  end.

Section ranging.
Context {ranging : RangeItems}.

Definition reheap (m : txSortedMap) : txSortedMap :=
  MkSortedMap (items m) (heap_Init Z.ltb (range_items (items m)).*1) None.

(** [filter], which does not repair the heap. *)
Definition filter_ (f : Transaction → bool) (m : txSortedMap) : list Transaction * txSortedMap :=
  let removed := filter (λ tx, f tx = true) (range_items (items m)).*2 in
  let rest := filter (λ kv, f kv.2 = false) (items m) in
  (removed, MkSortedMap rest (index m) (match removed with [] => cache m | _ => None end)).

Definition Filter (f : Transaction → bool) (m : txSortedMap) : list Transaction * txSortedMap :=
  let '(removed, m) := filter_ f m in
  (removed, match removed with [] => m | _ => reheap m end).

(** The loop of [Cap]: drop the transactions at the positions below [size]. *)
Fixpoint cap_loop (n : nat) (size : nat) (index : list Z) (items : gmap Z Transaction) : option (list Transaction * gmap Z Transaction) :=
  match n with
  | O => Some ([], items)
  | S n =>
      nonce ← index !! (size - 1)%nat;
      tx ← items !! nonce;
      '(drops, items) ← cap_loop n (size - 1) index (delete nonce items);
      Some (tx :: drops, items)
  end.

Definition Cap (threshold : Z) (m : txSortedMap) : option (list Transaction * txSortedMap) :=
  let n := map_size (items m) in
  if Z.of_nat n <=? threshold then Some ([], m)
  else
    let idx := merge_sort Z.le (index m) in
    if threshold <? 0 then None
    else
      let t := Z.to_nat threshold in
      '(drops, rest) ← cap_loop (n - t) n idx (items m);
      let idx := heap_Init Z.ltb (take t idx) in
      match cache m with
      | None => Some (drops, MkSortedMap rest idx None)
      | Some c => if (length drops <=? length c)%nat then Some (drops, MkSortedMap rest idx (Some (take (length c - length drops) c))) else None
      end.

Definition Remove (nonce : Z) (m : txSortedMap) : bool * txSortedMap :=
  match items m !! nonce with
  | None => (false, m)
  | Some _ =>
      let index := match list_find (λ x, x = nonce) (index m) with Some (i, _) => heap_Remove Z.ltb i (index m) | None => index m end in
      (true, MkSortedMap (delete nonce (items m)) index None)
  end.

(** The loop of [Ready]. *)
Fixpoint ready_loop (fuel : nat) (next : Z) (items : gmap Z Transaction) (index : list Z)
    : option (list Transaction * gmap Z Transaction * list Z) :=
  match index with
  | [] => Some ([], items, index)
  | h :: _ =>
      if h =? next then
        match fuel with
        | O => None
        | S fuel =>
            tx ← items !! next;
            '(_, index) ← heap_Pop Z.ltb index;
            '(ready, items, index) ← ready_loop fuel (u64 (next + 1)) (delete next items) index;
            Some (tx :: ready, items, index)
        end
      else Some ([], items, index)
  end.

Definition Ready (start : Z) (m : txSortedMap) : option (list Transaction * txSortedMap) :=
  match index m with
  | [] => Some ([], m)
  | h :: _ =>
      if start <? h then Some ([], m)
      else
        '(ready, items, index) ← ready_loop (length (index m)) h (items m) (index m);
        Some (ready, MkSortedMap items index None)
  end.

Definition nonce_le (t1 t2 : Transaction) : Prop := tx_Nonce t1 ≤ tx_Nonce t2.
#[global] Instance nonce_le_dec t1 t2 : Decision (nonce_le t1 t2).
Proof. unfold nonce_le. apply _. Defined.

(** [flatten], which is [Flatten] up to a copy. *)
Definition flatten (m : txSortedMap) : list Transaction * txSortedMap :=
  match cache m with
  | Some c => (c, m)
  | None => let c := merge_sort nonce_le (range_items (items m)).*2 in (c, MkSortedMap (items m) (index m) (Some c))
  end.

(** On an empty list the index is -1. *)
Definition LastElement (m : txSortedMap) : option (Transaction * txSortedMap) :=
  let '(c, m) := flatten m in tx ← c !! (length c - 1)%nat; Some (tx, m).

(** ** [txList] *)

Record txList := MkTxList {
  strict : bool;
  txs : txSortedMap;
  costcap : Z;
  smokecap : Z
}.

Definition newTxList (strict : bool) : txList := MkTxList strict newTxSortedMap 0 0.

Definition Overlaps (tx : Transaction) (l : txList) : bool := bool_decide (is_Some (Get (tx_Nonce tx) (txs l))).

Definition set_txs (m : txSortedMap) (l : txList) : txList := MkTxList (strict l) m (costcap l) (smokecap l).

Definition Add (tx : Transaction) (priceBump : Z) (l : txList) : bool * option Transaction * txList :=
  let old := Get (tx_Nonce tx) (txs l) in
  let refuse := match old with
                | Some old =>
                    let threshold := i64 (100 + i64 priceBump) * tx_Price old / 100 in
                    (tx_Price tx <=? tx_Price old) || (tx_Price tx <? threshold)
                | None => false
                end in
  if refuse then (false, None, l)
  else
    let m := Put tx (txs l) in
    (true, old, MkTxList (strict l) m
       (if costcap l <? Cost tx then Cost tx else costcap l)
       (if smokecap l <? tx_Smoke tx then tx_Smoke tx else smokecap l)).

Definition list_Forward (threshold : Z) (l : txList) : option (list Transaction * txList) :=
  '(removed, m) ← Forward threshold (txs l); Some (removed, set_txs m l).

Definition list_Filter (costLimit smokeLimit : Z) (l : txList) : list Transaction * list Transaction * txList :=
  if (costcap l <=? costLimit) && (smokecap l <=? smokeLimit) then ([], [], l)
  else
    let '(removed, m) := Filter (λ tx, (smokeLimit <? tx_Smoke tx) || (costLimit <? Cost tx)) (txs l) in
    match removed with
    | [] => ([], [], MkTxList (strict l) m costLimit smokeLimit)
    | _ =>
        let '(invalids, m) :=
          if strict l then
            let lowest := foldl (λ lowest tx, if tx_Nonce tx <? lowest then tx_Nonce tx else lowest) (2 ^ 64 - 1) removed in
            filter_ (λ tx, lowest <? tx_Nonce tx) m
          else ([], m) in
        (removed, invalids, MkTxList (strict l) (reheap m) costLimit smokeLimit)
    end.

Definition list_Cap (threshold : Z) (l : txList) : option (list Transaction * txList) :=
  '(drops, m) ← Cap threshold (txs l); Some (drops, set_txs m l).

Definition list_Remove (tx : Transaction) (l : txList) : bool * list Transaction * txList :=
  let nonce := tx_Nonce tx in
  let '(removed, m) := Remove nonce (txs l) in
  if removed then
    if strict l then
      let '(invalids, m) := Filter (λ tx, nonce <? tx_Nonce tx) m in (true, invalids, set_txs m l)
    else (true, [], set_txs m l)
  else (false, [], l).

Definition list_Ready (start : Z) (l : txList) : option (list Transaction * txList) :=
  '(ready, m) ← Ready start (txs l); Some (ready, set_txs m l).

Definition list_Flatten (l : txList) : list Transaction * txList :=
  let '(c, m) := flatten (txs l) in (c, set_txs m l).
End ranging.
