(* ===== verification/TxListProps.v ===== *)
(** * Theorems on the transaction lists of the pool

    A [txSortedMap] behaves like the list of its transactions in order of
    their nonces, whatever the heap and the cache hold; a [txList] knows bounds
    of what its transactions cost, and keeps the nonces of pending
    transactions without gaps. *)
From stdpp Require Import sorting.
From S2P Require Import Prelude RlpEncode Params ChainConfig StateDB VmBase Precompiles Evm StateTransition Transaction GoHeap TxList.
Local Open Scope Z_scope.

(** ** Sorted views *)

Definition nonce_lt (t1 t2 : Transaction) : Prop := tx_Nonce t1 < tx_Nonce t2.

(** [L] has the transactions of [M] in order of their nonces. *)
Definition lists (L : list Transaction) (M : gmap Z Transaction) : Prop :=
  StronglySorted nonce_lt L ∧ ∀ n tx, M !! n = Some tx ↔ tx ∈ L ∧ n = tx_Nonce tx.

Lemma nonce_sorted_NoDup L : StronglySorted nonce_lt L → NoDup L.
Proof.
  induction 1 as [|t L _ IH Hf]; constructor; [|done]. intros Hin. rewrite Forall_forall in Hf. specialize (Hf t Hin). unfold nonce_lt in Hf. lia.
Qed.

#[global] Instance nonce_lt_antisym : AntiSymm (=) nonce_lt.
Proof. intros t1 t2. unfold nonce_lt. lia. Qed.

Lemma lists_unique L L' M : lists L M → lists L' M → L = L'.
Proof.
  intros [H1 H2] [H1' H2']. apply (StronglySorted_unique nonce_lt); [done|done|]. apply NoDup_Permutation; [by apply nonce_sorted_NoDup..|].
  intros t. transitivity (M !! tx_Nonce t = Some t); [rewrite H2|rewrite H2']; naive_solver.
Qed.

Lemma lists_empty : lists [] ∅.
Proof. split; [constructor|]. intros n tx. rewrite lookup_empty. set_solver. Qed.
Lemma lists_nil M : lists [] M → M = ∅.
Proof. intros [_ H]. apply map_eq. intros n. rewrite lookup_empty. destruct (M !! n) as [t|] eqn:E; [|done]. apply H in E. set_solver. Qed.

Lemma lists_cons t L M : lists (t :: L) M → M !! tx_Nonce t = Some t ∧ lists L (delete (tx_Nonce t) M).
Proof.
  intros [H1 H2]. inversion H1 as [|? ? Hs Hf]; subst. rewrite Forall_forall in Hf. split; [apply H2; set_solver|]. split; [done|].
  intros n tx. rewrite lookup_delete_Some, H2. split.
  - intros [Hn [[->|?]%elem_of_cons ->]]; [done|done].
  - intros [Hin ->]. specialize (Hf tx Hin). unfold nonce_lt in Hf. split; [lia|]. set_solver.
Qed.

Lemma sorted_filter (P : Transaction → Prop) `{!∀ t, Decision (P t)} L : StronglySorted nonce_lt L → StronglySorted nonce_lt (filter P L).
Proof.
  induction 1 as [|t L Hs IH Hf]; [constructor|]. rewrite filter_cons. case_decide; [|done]. constructor; [done|].
  rewrite Forall_forall in *. intros x [_ Hx]%list_elem_of_filter. by apply Hf.
Qed.
Lemma lists_filter (P : Transaction → Prop) `{!∀ t, Decision (P t)} (Q : Z * Transaction → Prop) `{!∀ kv, Decision (Q kv)} L M :
  (∀ n t, M !! n = Some t → Q (n, t) ↔ P t) → lists L M → lists (filter P L) (filter Q M).
Proof.
  intros HQ [H1 H2]. split; [by apply sorted_filter|]. intros n t. rewrite map_lookup_filter_Some, list_elem_of_filter. split.
  - intros [E Hq]. apply HQ in Hq; [|done]. apply H2 in E as [? ->]. done.
  - intros [[Hp Hin] ->]. assert (E : M !! tx_Nonce t = Some t) by (by apply H2). split; [done|by apply HQ].
Qed.

Lemma nonces_NoDup L : StronglySorted nonce_lt L → NoDup (tx_Nonce <$> L).
Proof.
  induction 1 as [|t L _ IH Hf]; cbn; constructor; [|done]. intros (x & E & Hx)%list_elem_of_fmap. rewrite Forall_forall in Hf. specialize (Hf x Hx). unfold nonce_lt in Hf. lia.
Qed.

Lemma lists_perm L M : lists L M → (map_to_list M) ≡ₚ (λ t, (tx_Nonce t, t)) <$> L.
Proof.
  intros [H1 H2]. apply NoDup_Permutation; [apply NoDup_map_to_list| |].
  - apply (NoDup_fmap_1 fst). rewrite <-list_fmap_compose. by apply nonces_NoDup.
  - intros [n t]. rewrite elem_of_map_to_list, H2, list_elem_of_fmap. naive_solver.
Qed.

(** ** The heap of nonces *)

Lemma ltb_asym x y : (x <? y) = true → (y <? x) = false.
Proof. lia. Qed.
Lemma leb_trans x y z : (y <? x) = false → (z <? y) = false → (z <? x) = false.
Proof. lia. Qed.

(** Items and index belong to the list [L]. *)
Record tracks (M : gmap Z Transaction) (idx : list Z) (L : list Transaction) : Prop := {
  tk_lists : lists L M;
  tk_perm : idx ≡ₚ tx_Nonce <$> L;
  tk_heap : heap_ok Z.ltb idx
}.

Lemma tracks_head M h idx L : tracks M (h :: idx) L → ∃ t L', L = t :: L' ∧ tx_Nonce t = h.
Proof.
  intros [[Hs _] Hp Hh]. destruct L as [|t L]; [by apply Permutation_nil_r in Hp|]. exists t, L. split; [done|].
  inversion Hs as [|? ? _ Hf]; subst. rewrite Forall_forall in Hf.
  pose proof (heap_min Z.ltb ltb_asym leb_trans (h :: idx) h Hh eq_refl (tx_Nonce t)) as Hle.
  assert (Hin : h ∈ tx_Nonce <$> t :: L) by (rewrite <-Hp; set_solver). cbn in Hin.
  assert (Hti : tx_Nonce t ∈ h :: idx) by (rewrite Hp; set_solver). specialize (Hle Hti). apply Z.ltb_ge in Hle.
  apply elem_of_cons in Hin as [->|(x & -> & Hx)%list_elem_of_fmap]; [done|]. specialize (Hf x Hx). unfold nonce_lt in Hf. lia.
Qed.

Lemma tracks_empty M L : tracks M [] L → L = [].
Proof. intros [_ Hp _]. destruct L; [done|]. by apply Permutation_nil_l in Hp. Qed.

Lemma tracks_pop M idx t L :
  tracks M idx (t :: L) →
  M !! tx_Nonce t = Some t ∧ ∃ idx', heap_Pop Z.ltb idx = Some (tx_Nonce t, idx') ∧ tracks (delete (tx_Nonce t) M) idx' L.
Proof.
  intros Ht. pose proof Ht as [Hl Hp Hh]. apply lists_cons in Hl as [E Hl]. split; [done|].
  destruct idx as [|h idx]; [by apply Permutation_nil_l in Hp|]. destruct (tracks_head _ _ _ _ Ht) as (? & ? & [= <- <-] & <-).
  destruct (heap_Pop_ok Z.ltb ltb_asym leb_trans _ Hh) as (x & idx' & Ep & Hx & Hh' & Hp'); [done|]. cbn in Hx. injection Hx as <-.
  exists idx'. rewrite Ep. split; [done|]. split; [done| |done]. rewrite Hp, fmap_cons in Hp'. by apply Permutation_cons_inv in Hp'.
Qed.

(** ** [txSortedMap] *)

(** The map stands for the list [L]. *)
Record sorted_map (m : txSortedMap) (L : list Transaction) : Prop := {
  so_tracks : tracks (items m) (index m) L;
  so_range : Forall (λ t, is_u64 (tx_Nonce t)) L;
  so_cache c : cache m = Some c → c = L
}.

Lemma newTxSortedMap_ok : sorted_map newTxSortedMap [].
Proof. split; [|constructor|done]. split; [apply lists_empty|done|]. intros k. cbn. lia. Qed.

Lemma filter_all (P : Transaction → Prop) `{!∀ t, Decision (P t)} (L : list Transaction) : (∀ t, t ∈ L → P t) → filter P L = L.
Proof. induction L as [|t L IH]; intros HP; [done|]. rewrite filter_cons, decide_True by (apply HP; set_solver). f_equal. apply IH. set_solver. Qed.
Lemma filter_none (P : Transaction → Prop) `{!∀ t, Decision (P t)} (L : list Transaction) : (∀ t, t ∈ L → ¬ P t) → filter P L = [].
Proof. induction L as [|t L IH]; intros HP; [done|]. rewrite filter_cons, decide_False by (apply HP; set_solver). apply IH. set_solver. Qed.

(** The part of a sorted list below a nonce comes first. *)
Lemma sorted_split L n :
  StronglySorted nonce_lt L → L = filter (λ t, tx_Nonce t < n) L ++ filter (λ t, n ≤ tx_Nonce t) L.
Proof.
  induction 1 as [|t L Hs IH Hf]; [done|]. rewrite !filter_cons. destruct (decide (tx_Nonce t < n)).
  - rewrite decide_False by lia. cbn. by f_equal.
  - rewrite decide_True by lia. rewrite Forall_forall in Hf. unfold nonce_lt in Hf.
    rewrite filter_none, filter_all; [done|intros x Hx; specialize (Hf x Hx); lia..].
Qed.

Lemma tracks_length M idx L : tracks M idx L → length idx = length L.
Proof. intros [_ Hp _]. by rewrite Hp, length_fmap. Qed.

(** *** [Put] *)

Definition spec_put (tx : Transaction) (L : list Transaction) : list Transaction :=
  filter (λ t, tx_Nonce t < tx_Nonce tx) L ++ tx :: filter (λ t, tx_Nonce tx < tx_Nonce t) L.

Lemma lists_put tx L M : lists L M → lists (spec_put tx L) (<[tx_Nonce tx := tx]> M).
Proof.
  intros [H1 H2]. split.
  - apply StronglySorted_app_2; [|by apply sorted_filter|].
    + intros x y [Hx _]%list_elem_of_filter [->|[Hy _]%list_elem_of_filter]%elem_of_cons; unfold nonce_lt; lia.
    + constructor; [by apply sorted_filter|]. apply Forall_forall. by intros x [Hx _]%list_elem_of_filter.
  - intros n t. unfold spec_put. rewrite elem_of_app, elem_of_cons, !list_elem_of_filter, lookup_insert_Some, H2. split.
    + intros [[<- <-]|[Hn [Hin ->]]]; [by eauto|]. split; [|done]. destruct (Z.lt_trichotomy (tx_Nonce t) (tx_Nonce tx)) as [?|[?|?]]; [by eauto|congruence|by eauto].
    + intros [[[? ?]|[->|[? ?]]] ->]; [right|by left|right]; (split; [lia|done]).
Qed.

Lemma put_nonces tx L M :
  lists L M → tx_Nonce <$> spec_put tx L ≡ₚ match M !! tx_Nonce tx with None => tx_Nonce tx :: (tx_Nonce <$> L) | Some _ => tx_Nonce <$> L end.
Proof.
  intros Hl. pose proof (lists_put tx L M Hl) as [Hs' _]. pose proof Hl as [Hs H2].
  apply NoDup_Permutation; [by apply nonces_NoDup| |].
  - destruct (M !! tx_Nonce tx) as [old|] eqn:E; [by apply nonces_NoDup|]. constructor; [|by apply nonces_NoDup].
    intros (t & Et & Ht)%list_elem_of_fmap. assert (M !! tx_Nonce t = Some t) by (by apply H2). congruence.
  - intros n. assert (Hput : n ∈ tx_Nonce <$> spec_put tx L ↔ n = tx_Nonce tx ∨ n ∈ tx_Nonce <$> L).
    { unfold spec_put. rewrite fmap_app, fmap_cons, elem_of_app, elem_of_cons, !list_elem_of_fmap. setoid_rewrite list_elem_of_filter. split.
      - intros [(x & -> & _ & ?)|[->|(x & -> & _ & ?)]]; eauto.
      - intros [->|(x & -> & ?)]; [by eauto|]. destruct (Z.lt_trichotomy (tx_Nonce x) (tx_Nonce tx)) as [?|[?|?]]; eauto 6. }
    rewrite Hput. destruct (M !! tx_Nonce tx) as [old|] eqn:E; [|by rewrite elem_of_cons].
    split; [intros [->|?]; [|done]|by right]. apply H2 in E as [Hin ->]. by apply list_elem_of_fmap_2.
Qed.

Lemma Put_ok tx m L : sorted_map m L → is_u64 (tx_Nonce tx) → sorted_map (Put tx m) (spec_put tx L).
Proof.
  intros [[Hl Hp Hh] Hr _] Hn. unfold Put. split; cbn.
  - pose proof (put_nonces tx L _ Hl) as Hq. split; [by apply lists_put| |].
    + rewrite Hq. destruct (items m !! tx_Nonce tx); [done|]. by rewrite (proj2 (heap_Push_ok Z.ltb ltb_asym leb_trans _ _ Hh)), Hp.
    + destruct (items m !! tx_Nonce tx); [done|]. by apply (heap_Push_ok Z.ltb ltb_asym leb_trans).
  - rewrite Forall_forall in *. intros t. unfold spec_put. rewrite elem_of_app, elem_of_cons, !list_elem_of_filter. naive_solver.
  - done.
Qed.

(** *** [Forward] *)

Lemma sorted_tail t L : StronglySorted nonce_lt (t :: L) → StronglySorted nonce_lt L ∧ ∀ x, x ∈ L → tx_Nonce t < tx_Nonce x.
Proof. inversion 1 as [|? ? ? Hf]; subst. rewrite Forall_forall in Hf. done. Qed.

Lemma forward_loop_ok fuel thr M idx L :
  tracks M idx L → (length L ≤ fuel)%nat →
  ∃ M' idx', forward_loop fuel thr M idx = Some (filter (λ t, tx_Nonce t < thr) L, M', idx') ∧ tracks M' idx' (filter (λ t, thr ≤ tx_Nonce t) L).
Proof.
  revert fuel M idx. induction L as [|t L IH]; intros fuel M idx Ht Hf.
  { pose proof (tracks_length _ _ _ Ht) as Hlen. destruct idx; [|done]. exists M, []. by destruct fuel. }
  destruct idx as [|h idx]; [by apply tracks_empty in Ht|]. destruct (tracks_head _ _ _ _ Ht) as (? & ? & [= <- <-] & <-).
  destruct fuel as [|fuel]; [cbn in Hf; lia|]. cbn [forward_loop]. rewrite !filter_cons.
  pose proof (sorted_tail t L (proj1 (tk_lists _ _ _ Ht))) as [_ Hlt].
  destruct (Z.ltb_spec (tx_Nonce t) thr) as [Hlt'|Hge].
  - destruct (tracks_pop _ _ _ _ Ht) as (E & idx' & Ep & Ht'). rewrite Ep. cbn [mbind option_bind]. rewrite E. cbn [mbind option_bind].
    destruct (IH fuel _ _ Ht') as (M' & idx'' & E' & Ht''); [cbn in Hf; lia|]. rewrite E'. cbn [mbind option_bind].
    exists M', idx''. rewrite decide_True, decide_False by lia. done.
  - rewrite decide_False, decide_True by lia. exists M, (tx_Nonce t :: idx).
    rewrite filter_none, filter_all; [done|intros x Hx; specialize (Hlt x Hx); lia..].
Qed.

Lemma Forward_ok thr m L :
  sorted_map m L →
  ∃ m', Forward thr m = Some (filter (λ t, tx_Nonce t < thr) L, m') ∧ sorted_map m' (filter (λ t, thr ≤ tx_Nonce t) L).
Proof.
  intros [Ht Hr Hc]. unfold Forward. destruct (forward_loop_ok (length (index m)) thr _ _ _ Ht) as (M' & idx' & E & Ht'); [by rewrite (tracks_length _ _ _ Ht)|].
  rewrite E. cbn [mbind option_bind]. assert (Hr' : Forall (λ t, is_u64 (tx_Nonce t)) (filter (λ t, thr ≤ tx_Nonce t) L)).
  { rewrite Forall_forall in *. intros t [_ ?]%list_elem_of_filter. by apply Hr. }
  destruct (cache m) as [c|] eqn:Ec; [|by eexists].
  rewrite (Hc c eq_refl). pose proof (sorted_split L thr (proj1 (tk_lists _ _ _ Ht))) as HL.
  rewrite (proj2 (Nat.leb_le _ _)) by (rewrite HL at 2; rewrite length_app; lia). eexists. split; [done|].
  split; [done|done|]. intros c' [= <-]. rewrite HL at 2. by rewrite drop_app_length.
Qed.

(** *** [Ready] *)

(** The transactions at the head of a list whose nonces count up from [next], and the others. *)
Fixpoint spec_run (next : Z) (L : list Transaction) : list Transaction * list Transaction :=
  match L with
  | t :: L' => if tx_Nonce t =? next then let '(ready, rest) := spec_run (next + 1) L' in (t :: ready, rest) else ([], L)
  | [] => ([], [])
  end.

Definition spec_ready (start : Z) (L : list Transaction) : list Transaction * list Transaction :=
  match L with
  | [] => ([], [])
  | t :: _ => if start <? tx_Nonce t then ([], L) else spec_run (tx_Nonce t) L
  end.

Lemma ready_loop_ok fuel next M idx L :
  tracks M idx L → 0 ≤ next → Forall (λ t, next ≤ tx_Nonce t < 2 ^ 64) L → (length L ≤ fuel)%nat →
  ∃ M' idx', ready_loop fuel (u64 next) M idx = Some ((spec_run next L).1, M', idx') ∧ tracks M' idx' (spec_run next L).2.
Proof.
  revert fuel next M idx. induction L as [|t L IH]; intros fuel next M idx Ht H0 Hr Hf.
  { pose proof (tracks_length _ _ _ Ht) as Hlen. destruct idx; [|done]. exists M, []. by destruct fuel. }
  destruct idx as [|h idx]; [by apply tracks_empty in Ht|]. destruct (tracks_head _ _ _ _ Ht) as (? & ? & [= <- <-] & <-).
  destruct fuel as [|fuel]; [cbn in Hf; lia|]. cbn [ready_loop spec_run].
  pose proof (sorted_tail t L (proj1 (tk_lists _ _ _ Ht))) as [_ Hlt]. apply Forall_cons in Hr as [Hr0 Hr].
  assert (Eu : u64 next = next) by (apply Z.mod_small; lia). rewrite Eu.
  destruct (Z.eqb_spec (tx_Nonce t) next) as [<-|Hne]; [|by eexists _, _].
  destruct (tracks_pop _ _ _ _ Ht) as (E & idx' & Ep & Ht'). rewrite E. cbn [mbind option_bind]. rewrite Ep. cbn [mbind option_bind].
  destruct (IH fuel (tx_Nonce t + 1) _ _ Ht') as (M' & idx'' & E' & Ht''); [lia| |cbn in Hf; lia|].
  { rewrite Forall_forall in *. intros x Hx. specialize (Hlt x Hx). specialize (Hr x Hx). lia. }
  rewrite E'. cbn [mbind option_bind]. exists M', idx''. by destruct (spec_run (tx_Nonce t + 1) L).
Qed.

Lemma spec_run_split next L : L = (spec_run next L).1 ++ (spec_run next L).2.
Proof.
  revert next. induction L as [|t L IH]; intros next; [done|]. cbn. destruct (tx_Nonce t =? next); [|done].
  specialize (IH (next + 1)). destruct (spec_run (next + 1) L). cbn in *. by f_equal.
Qed.
Lemma spec_run_nonces next L : tx_Nonce <$> (spec_run next L).1 = seqZ next (Z.of_nat (length (spec_run next L).1)).
Proof.
  revert next. induction L as [|t L IH]; intros next; [done|]. cbn [spec_run]. destruct (Z.eqb_spec (tx_Nonce t) next) as [<-|]; [|done].
  specialize (IH (tx_Nonce t + 1)). destruct (spec_run (tx_Nonce t + 1) L). cbn [fst length fmap list_fmap] in *. rewrite Nat2Z.inj_succ, seqZ_cons by lia.
  f_equal. rewrite IH. f_equal; lia.
Qed.
Lemma spec_run_stops next L t : head (spec_run next L).2 = Some t → tx_Nonce t ≠ next + Z.of_nat (length (spec_run next L).1).
Proof.
  revert next. induction L as [|x L IH]; intros next; [done|]. cbn [spec_run]. destruct (Z.eqb_spec (tx_Nonce x) next) as [<-|Hne].
  - specialize (IH (tx_Nonce x + 1)). destruct (spec_run (tx_Nonce x + 1) L). cbn [fst snd length] in *. intros Hh. specialize (IH Hh). lia.
  - cbn. intros [= <-]. lia.
Qed.

Lemma Forall_drop_run next L (P : Transaction → Prop) : Forall P L → Forall P (spec_run next L).2.
Proof. rewrite (spec_run_split next L) at 1. by intros [_ ?]%Forall_app. Qed.

Lemma Ready_ok start m L :
  sorted_map m L → ∃ m', Ready start m = Some ((spec_ready start L).1, m') ∧ sorted_map m' (spec_ready start L).2.
Proof.
  intros Hs. pose proof Hs as [Ht Hr _]. unfold Ready, spec_ready. destruct (index m) as [|h idx] eqn:Ei.
  { apply tracks_empty in Ht as HL. subst L. by exists m. }
  destruct (tracks_head _ _ _ _ Ht) as (t & L' & -> & <-). destruct (start <? tx_Nonce t); [by exists m|].
  pose proof (sorted_tail t L' (proj1 (tk_lists _ _ _ Ht))) as [_ Hlt]. pose proof (Forall_inv Hr) as Hr0. cbn in Hr0. unfold is_u64 in Hr0.
  destruct (ready_loop_ok (length (tx_Nonce t :: idx)) (tx_Nonce t) _ _ _ Ht) as (M' & idx' & E & Ht'); [lia| |by rewrite (tracks_length _ _ _ Ht)|].
  { rewrite Forall_forall in *. intros x [->|Hx]%elem_of_cons; [lia|]. specialize (Hlt x Hx). specialize (Hr x (ltac:(set_solver))). cbn in Hr. unfold is_u64 in Hr. lia. }
  unfold u64 in E. rewrite (Z.mod_small (tx_Nonce t)) in E by lia. rewrite E. cbn [mbind option_bind]. eexists. split; [done|]. split; [done| |done].
  by apply Forall_drop_run.
Qed.

(** *** [Cap] *)

Lemma lists_snoc L t M : lists (L ++ [t]) M → M !! tx_Nonce t = Some t ∧ lists L (delete (tx_Nonce t) M).
Proof.
  intros [H1 H2]. apply StronglySorted_app in H1 as (Hlt & H1 & _). split; [apply H2; set_solver|]. split; [done|].
  intros n tx. rewrite lookup_delete_Some, H2, elem_of_app, list_elem_of_singleton. split.
  - intros [Hn [[?| ->] ->]]; [done|done].
  - intros [Hin ->]. specialize (Hlt tx t Hin (ltac:(set_solver))). unfold nonce_lt in Hlt. split; [lia|by eauto].
Qed.

Lemma cap_loop_ok n rest L M :
  lists L M → (n ≤ length L)%nat →
  ∃ M', cap_loop n (length L) ((tx_Nonce <$> L) ++ rest) M = Some (reverse (drop (length L - n) L), M') ∧ lists (take (length L - n) L) M'.
Proof.
  revert n rest M. induction L as [|t L IH] using rev_ind; intros n rest M Hl Hn.
  { cbn in Hn. assert (n = 0)%nat as -> by lia. by exists M. }
  destruct n as [|n]; [exists M; rewrite Nat.sub_0_r, drop_all, take_ge by lia; done|].
  cbn [cap_loop]. rewrite length_app in *. cbn [length] in *. rewrite Nat.add_sub, fmap_app, <-app_assoc. cbn [fmap list_fmap app].
  rewrite (list_lookup_middle (tx_Nonce <$> L) rest (tx_Nonce t) (length L)) by (by rewrite length_fmap). cbn [mbind option_bind].
  apply lists_snoc in Hl as [E Hl]. rewrite E. cbn [mbind option_bind].
  destruct (IH n (tx_Nonce t :: rest) _ Hl) as (M' & E' & Hl'); [lia|]. rewrite E'. cbn [mbind option_bind].
  exists M'. replace (length L + 1 - S n)%nat with (length L - n)%nat by lia.
  rewrite drop_app_le, take_app_le, reverse_app by lia. done.
Qed.

Lemma sorted_nonces L idx : StronglySorted nonce_lt L → idx ≡ₚ tx_Nonce <$> L → merge_sort Z.le idx = tx_Nonce <$> L.
Proof.
  intros Hs Hp. apply (StronglySorted_unique Z.le); [apply (StronglySorted_merge_sort Z.le)| |by rewrite (merge_sort_Permutation Z.le)].
  clear Hp. induction Hs as [|t L _ IH Hf]; cbn; constructor; [done|]. rewrite Forall_forall in Hf. apply Forall_forall. intros n (x & -> & Hx)%list_elem_of_fmap. specialize (Hf x Hx). unfold nonce_lt in Hf. lia.
Qed.

Lemma lists_size L M : lists L M → size M = length L.
Proof. intros Hl. rewrite <-length_map_to_list, (lists_perm _ _ Hl). by rewrite length_fmap. Qed.

Lemma txs_Cap_ok threshold m L :
  sorted_map m L → 0 ≤ threshold →
  ∃ m', Cap threshold m = Some (reverse (drop (Z.to_nat threshold) L), m') ∧ sorted_map m' (take (Z.to_nat threshold) L).
Proof.
  intros Hs H0. pose proof Hs as [[Hl Hp Hh] Hr Hc]. unfold Cap. change (map_size (items m)) with (size (items m)). rewrite (lists_size _ _ Hl).
  destruct (Z.leb_spec (Z.of_nat (length L)) threshold) as [Hle|Hgt].
  { exists m. rewrite drop_ge, take_ge by lia. done. }
  destruct (Z.ltb_spec threshold 0) as [|_]; [lia|]. set (n := Z.to_nat threshold). assert (Hn : (n < length L)%nat) by lia.
  rewrite (sorted_nonces _ _ (proj1 Hl) Hp). destruct (cap_loop_ok (length L - n) [] L _ Hl) as (M' & E & Hl'); [lia|].
  rewrite app_nil_r in E. rewrite E. cbn [mbind option_bind]. replace (length L - (length L - n))%nat with n in * by lia.
  destruct (heap_Init_ok Z.ltb ltb_asym leb_trans (take n (tx_Nonce <$> L))) as [Hh' Hp'].
  assert (Ht' : tracks M' (heap_Init Z.ltb (take n (tx_Nonce <$> L))) (take n L)) by (split; [done|by rewrite Hp', fmap_take|done]).
  destruct (cache m) as [c|] eqn:Ec; [|eexists; split; [done|split; [done|by apply Forall_take|done]]].
  rewrite (Hc c eq_refl), length_reverse, length_drop. rewrite (proj2 (Nat.leb_le _ _)) by lia. eexists. split; [done|].
  split; [done|by apply Forall_take|]. intros c' [= <-]. f_equal. lia.
Qed.

(** *** [Remove] *)

Lemma Remove_ok nonce m L :
  sorted_map m L →
  (Remove nonce m).1 = bool_decide (nonce ∈ tx_Nonce <$> L) ∧ sorted_map (Remove nonce m).2 (filter (λ t, tx_Nonce t ≠ nonce) L).
Proof.
  intros Hs. pose proof Hs as [[Hl Hp Hh] Hr Hc]. unfold Remove. destruct (items m !! nonce) as [t|] eqn:E.
  - pose proof (proj1 (proj2 Hl _ _) E) as [Hin ->]. rewrite bool_decide_true by (by apply list_elem_of_fmap_2). split; [done|].
    assert (Hi : tx_Nonce t ∈ index m) by (rewrite Hp; by apply list_elem_of_fmap_2).
    destruct (list_find_elem_of (λ x, x = tx_Nonce t) (index m) (tx_Nonce t)) as [[i x] Ef]; [done|done|]. rewrite Ef.
    apply list_find_Some in Ef as (Ei & -> & _). destruct (heap_Remove_ok Z.ltb ltb_asym leb_trans i _ _ Hh Ei) as [Hh' Hp'].
    assert (Hl' : lists (filter (λ x, tx_Nonce x ≠ tx_Nonce t) L) (delete (tx_Nonce t) (items m))).
    { split; [by apply sorted_filter; destruct Hl|]. intros n x. rewrite lookup_delete_Some, (proj2 Hl), list_elem_of_filter. naive_solver. }
    split; cbn; [split; [done| |done]| |done].
    + apply (Permutation_cons_inv (a := tx_Nonce t)). rewrite Hp', Hp. apply NoDup_Permutation; [apply nonces_NoDup, Hl| |].
      * constructor; [|apply nonces_NoDup, Hl']. intros (x & Ex & Hx)%list_elem_of_fmap. apply list_elem_of_filter in Hx as [? _]. congruence.
      * intros n. rewrite elem_of_cons, !list_elem_of_fmap. setoid_rewrite list_elem_of_filter. split; [|naive_solver].
        intros (x & -> & Hx). destruct (decide (tx_Nonce x = tx_Nonce t)); [by left|right; by eauto].
    + rewrite Forall_forall in *. intros x [_ Hx]%list_elem_of_filter. by apply Hr.
  - assert (Hn : ∀ t, t ∈ L → tx_Nonce t ≠ nonce).
    { intros t Ht <-. assert (items m !! tx_Nonce t = Some t) by (by apply Hl). congruence. }
    rewrite bool_decide_false by (intros (x & -> & Hx)%list_elem_of_fmap; by apply (Hn x)). split; [done|]. by rewrite filter_all.
Qed.

(** *** [Filter] *)

#[global] Instance nonce_le_total : Total nonce_le.
Proof. intros t1 t2. unfold nonce_le. lia. Qed.
#[global] Instance nonce_le_trans : Transitive nonce_le.
Proof. intros t1 t2 t3. unfold nonce_le. lia. Qed.

(** Sorting transactions with distinct nonces has one result. *)
Lemma sorted_by_nonce L L' : StronglySorted nonce_lt L → L' ≡ₚ L → StronglySorted nonce_le L' → L = L'.
Proof.
  intros Hs Hp Hs'. apply (StronglySorted_unique nonce_lt); [done| |done].
  assert (Hnd : NoDup (tx_Nonce <$> L')) by (rewrite Hp; by apply nonces_NoDup). clear Hs Hp.
  induction Hs' as [|t L' _ IH Hf]; constructor; cbn in Hnd; apply NoDup_cons in Hnd as [Hni Hnd]; [by apply IH|].
  rewrite Forall_forall in Hf. apply Forall_forall. intros x Hx. specialize (Hf x Hx). unfold nonce_le, nonce_lt in *.
  assert (tx_Nonce x ≠ tx_Nonce t) by (intros Ex; apply Hni; rewrite <-Ex; by apply list_elem_of_fmap_2). lia.
Qed.

Section ranging.
Context {ranging : RangeItems}.

Lemma range_fst L M : lists L M → (range_items M).*1 ≡ₚ tx_Nonce <$> L.
Proof. intros Hl. by rewrite range_items_perm, (lists_perm _ _ Hl), <-list_fmap_compose. Qed.
Lemma range_snd L M : lists L M → (range_items M).*2 ≡ₚ L.
Proof. intros Hl. rewrite range_items_perm, (lists_perm _ _ Hl), <-list_fmap_compose. by rewrite list_fmap_id. Qed.

Lemma reheap_ok m L : lists L (items m) → Forall (λ t, is_u64 (tx_Nonce t)) L → sorted_map (reheap m) L.
Proof.
  intros Hl Hr. destruct (heap_Init_ok Z.ltb ltb_asym leb_trans (range_items (items m)).*1) as [Hh Hp].
  split; [|done|done]. split; cbn; [done|by rewrite Hp, (range_fst _ _ Hl)|done].
Qed.

Lemma filter__ok f m L :
  lists L (items m) →
  (filter_ f m).1 ≡ₚ filter (λ t, f t = true) L ∧ lists (filter (λ t, f t = false) L) (items (filter_ f m).2).
Proof. intros Hl. cbn. split; [by rewrite (range_snd _ _ Hl)|]. by apply lists_filter. Qed.

Lemma Forall_filter_in (P Q : Transaction → Prop) `{!∀ t, Decision (P t)} L : Forall Q L → Forall Q (filter P L).
Proof. rewrite !Forall_forall. intros HQ t [_ ?]%list_elem_of_filter. by apply HQ. Qed.

Lemma filter_empty_keeps f (L : list Transaction) : filter (λ t, f t = true) L = [] → filter (λ t, f t = false) L = L.
Proof.
  intros E. apply filter_all. intros t Ht. destruct (f t) eqn:Ef; [|done]. exfalso. apply (not_elem_of_nil t). rewrite <-E. by apply list_elem_of_filter.
Qed.

Lemma Filter_ok f m L :
  sorted_map m L →
  (Filter f m).1 ≡ₚ filter (λ t, f t = true) L ∧ sorted_map (Filter f m).2 (filter (λ t, f t = false) L).
Proof.
  intros [[Hl Hp Hh] Hr Hc]. destruct (filter__ok f m L Hl) as [Hf Hl']. unfold Filter.
  destruct (filter_ f m) as [removed m'] eqn:E. cbn [fst snd] in *. split; [done|]. destruct removed as [|t removed].
  - symmetry in Hf. apply Permutation_nil_r in Hf as E'. rewrite (filter_empty_keeps _ _ E') in *. unfold filter_ in E. injection E as E1 <-.
    rewrite E1 in *. by split.
  - apply reheap_ok; [done|by apply Forall_filter_in].
Qed.

Lemma flatten_ok m L : sorted_map m L → (flatten m).1 = L ∧ sorted_map (flatten m).2 L.
Proof.
  intros Hs. pose proof Hs as [Ht Hr Hc]. unfold flatten. destruct (cache m) as [c|] eqn:Ec; [by rewrite (Hc c eq_refl)|].
  assert (Em : merge_sort nonce_le (range_items (items m)).*2 = L); [|cbn; rewrite Em; split; [done|split; [done|done|by intros ? [= <-]]]].
  pose proof (tk_lists _ _ _ Ht) as Hl. symmetry.
  assert (Hp : merge_sort nonce_le (range_items (items m)).*2 ≡ₚ L) by (by rewrite (merge_sort_Permutation nonce_le), (range_snd _ _ Hl)).
  apply sorted_by_nonce; [apply Hl|done|]. apply (StronglySorted_merge_sort nonce_le).
Qed.

(** ** [txList] *)

Inductive list_op :=
  | LAdd (tx : Transaction) (priceBump : Z) | LOverlaps (tx : Transaction) | LForward (threshold : Z)
  | LFilter (costLimit smokeLimit : Z) | LCap (threshold : Z) | LRemove (tx : Transaction)
  | LReady (start : Z) | LFlatten | LLast.

Inductive list_out :=
  | OutBool (b : bool) | OutTx (tx : Transaction) | OutAdd (b : bool) (old : option Transaction)
  | OutTxs (l : list Transaction) | OutBags (b : bool) (removed invalids : list Transaction).

Definition do_op (op : list_op) (l : txList) : option (list_out * txList) :=
  match op with
  | LAdd tx bump => let '(b, old, l) := Add tx bump l in Some (OutAdd b old, l)
  | LOverlaps tx => Some (OutBool (Overlaps tx l), l)
  | LForward n => '(r, l) ← list_Forward n l; Some (OutTxs r, l)
  | LFilter c s => let '(r, i, l) := list_Filter c s l in Some (OutBags true r i, l)
  | LCap n => '(r, l) ← list_Cap n l; Some (OutTxs r, l)
  | LRemove tx => let '(b, i, l) := list_Remove tx l in Some (OutBags b [] i, l)
  | LReady n => '(r, l) ← list_Ready n l; Some (OutTxs r, l)
  | LFlatten => let '(r, l) := list_Flatten l in Some (OutTxs r, l)
  | LLast => '(t, m) ← LastElement (txs l); Some (OutTx t, set_txs m l)
  end.

Fixpoint do_ops (ops : list list_op) (l : txList) : option (list list_out * txList) :=
  match ops with
  | [] => Some ([], l)
  | op :: ops => '(o, l) ← do_op op l; '(os, l) ← do_ops ops l; Some (o :: os, l)
  end.

(** What the operations mean for a sorted list: no heap, no cache, no caps.
    [None] is a panic: the last element of an empty list, or a negative cap. *)
Definition too_much (costLimit smokeLimit : Z) (t : Transaction) : bool := (smokeLimit <? tx_Smoke t) || (costLimit <? Cost t).
Definition after_any (removed : list Transaction) (t : Transaction) : bool := existsb (λ r, tx_Nonce r <? tx_Nonce t) removed.
Definition find_nonce (n : Z) (L : list Transaction) : option Transaction := head (filter (λ t, tx_Nonce t = n) L).
Definition outbids (bump : Z) (tx old : Transaction) : bool :=
  (tx_Price old <? tx_Price tx) && (i64 (100 + i64 bump) * tx_Price old / 100 <=? tx_Price tx).

Definition spec_op (strict : bool) (op : list_op) (L : list Transaction) : option (list_out * list Transaction) :=
  match op with
  | LAdd tx bump =>
      match find_nonce (tx_Nonce tx) L with
      | Some old => if outbids bump tx old then Some (OutAdd true (Some old), spec_put tx L) else Some (OutAdd false None, L)
      | None => Some (OutAdd true None, spec_put tx L)
      end
  | LOverlaps tx => Some (OutBool (bool_decide (tx_Nonce tx ∈ tx_Nonce <$> L)), L)
  | LForward n => Some (OutTxs (filter (λ t, tx_Nonce t < n) L), filter (λ t, n ≤ tx_Nonce t) L)
  | LFilter c s =>
      let removed := filter (λ t, too_much c s t = true) L in
      let rest := filter (λ t, too_much c s t = false) L in
      if strict then Some (OutBags true removed (filter (λ t, after_any removed t = true) rest), filter (λ t, after_any removed t = false) rest)
      else Some (OutBags true removed [], rest)
  | LCap n => if n <? 0 then None else Some (OutTxs (reverse (drop (Z.to_nat n) L)), take (Z.to_nat n) L)
  | LRemove tx =>
      let n := tx_Nonce tx in
      if decide (n ∈ tx_Nonce <$> L) then
        if strict then Some (OutBags true [] (filter (λ t, n < tx_Nonce t) L), filter (λ t, tx_Nonce t < n) L)
        else Some (OutBags true [] [], filter (λ t, tx_Nonce t ≠ n) L)
      else Some (OutBags false [] [], L)
  | LReady n => let '(ready, rest) := spec_ready n L in Some (OutTxs ready, rest)
  | LFlatten => Some (OutTxs L, L)
  | LLast => t ← last L; Some (OutTx t, L)
  end.

Fixpoint spec_ops (strict : bool) (ops : list list_op) (L : list Transaction) : option (list list_out * list Transaction) :=
  match ops with
  | [] => Some ([], L)
  | op :: ops => '(o, L) ← spec_op strict op L; '(os, L) ← spec_ops strict ops L; Some (o :: os, L)
  end.

(** Transactions collected by ranging over a map come in no particular order. *)
Definition agrees (o1 o2 : list_out) : Prop :=
  match o1, o2 with
  | OutBags b1 r1 i1, OutBags b2 r2 i2 => b1 = b2 ∧ r1 ≡ₚ r2 ∧ i1 ≡ₚ i2
  | _, _ => o1 = o2
  end.

Definition op_ok (op : list_op) : Prop :=
  match op with LAdd tx _ => is_u64 (tx_Nonce tx) | _ => True end.
#[global] Instance op_ok_dec op : Decision (op_ok op).
Proof. destruct op; cbn; unfold is_u64; apply _. Defined.

(** The caps bound what the transactions cost. *)
Record list_ok (strict_ : bool) (l : txList) (L : list Transaction) : Prop := {
  lo_strict : strict l = strict_;
  lo_txs : sorted_map (txs l) L;
  lo_caps : Forall (λ t, Cost t ≤ costcap l ∧ tx_Smoke t ≤ smokecap l) L
}.

(** The operation panics where its meaning does, and otherwise gives what it means. *)
Definition simulates (op : list_op) : Prop :=
  ∀ st l L, list_ok st l L → op_ok op →
  match spec_op st op L with
  | Some (o', L') => ∃ o l', do_op op l = Some (o, l') ∧ agrees o o' ∧ list_ok st l' L'
  | None => do_op op l = None
  end.

Lemma list_ok_sub st l L m L' : list_ok st l L → sorted_map m L' → L' ⊆ L → list_ok st (set_txs m l) L'.
Proof.
  intros [Hst Hm Hc] Hm' Hsub. split; [done|done|]. rewrite Forall_forall in *. intros t Ht. by apply Hc, Hsub.
Qed.

Lemma Get_ok n m L : sorted_map m L → Get n m = find_nonce n L.
Proof.
  intros [[[_ H2] _ _] _ _]. unfold Get, find_nonce. destruct (filter (λ t, tx_Nonce t = n) L) as [|t F] eqn:E.
  - destruct (items m !! n) as [t|] eqn:Em; [|done]. apply H2 in Em as [Hin ->]. exfalso. apply (not_elem_of_nil t). rewrite <-E. by apply list_elem_of_filter.
  - apply H2. assert (Ht : t ∈ filter (λ t, tx_Nonce t = n) L) by (rewrite E; set_solver). by apply list_elem_of_filter in Ht as [<- ?].
Qed.
Lemma find_nonce_Some n L : bool_decide (is_Some (find_nonce n L)) = bool_decide (n ∈ tx_Nonce <$> L).
Proof.
  apply bool_decide_ext. unfold find_nonce. rewrite list_elem_of_fmap. split.
  - intros [t Ht]. exists t. destruct (filter (λ t, tx_Nonce t = n) L) as [|x F] eqn:E; [done|]. injection Ht as ->.
    assert (Ht : t ∈ filter (λ t, tx_Nonce t = n) L) by (rewrite E; set_solver). by apply list_elem_of_filter in Ht as [<- ?].
  - intros (t & -> & Ht). destruct (filter (λ x, tx_Nonce x = tx_Nonce t) L) as [|x F] eqn:E; [|by eexists].
    exfalso. apply (not_elem_of_nil t). rewrite <-E. by apply list_elem_of_filter.
Qed.

Lemma Add_sim tx bump : simulates (LAdd tx bump).
Proof.
  intros st l L [Hst Hm Hc] Hn. cbn in Hn. cbn [do_op spec_op]. unfold Add. rewrite (Get_ok _ _ _ Hm).
  assert (Hput : list_ok st (MkTxList (strict l) (Put tx (txs l)) (if costcap l <? Cost tx then Cost tx else costcap l)
                                (if smokecap l <? tx_Smoke tx then tx_Smoke tx else smokecap l)) (spec_put tx L)).
  { split; cbn; [done|by apply Put_ok|]. rewrite Forall_forall in *. intros t. unfold spec_put. rewrite elem_of_app, elem_of_cons, !list_elem_of_filter.
    intros Ht. assert (t = tx ∨ t ∈ L) as [->|Hin] by naive_solver; [|specialize (Hc t Hin)]; (destruct (Z.ltb_spec (costcap l) (Cost tx)), (Z.ltb_spec (smokecap l) (tx_Smoke tx)); lia). }
  destruct (find_nonce (tx_Nonce tx) L) as [old|]; [|by eexists _, _]. unfold outbids.
  destruct (Z.leb_spec (tx_Price tx) (tx_Price old)), (Z.ltb_spec (tx_Price old) (tx_Price tx)); try lia; cbn [orb andb]; [by eexists _, _|].
  destruct (Z.ltb_spec (tx_Price tx) (i64 (100 + i64 bump) * tx_Price old / 100)), (Z.leb_spec (i64 (100 + i64 bump) * tx_Price old / 100) (tx_Price tx)); try lia; by eexists _, _.
Qed.

Lemma Overlaps_sim tx : simulates (LOverlaps tx).
Proof. intros st l L Hok _. eexists _, _. split_and!; [done| |done]. cbn. unfold Overlaps. by rewrite (Get_ok _ _ _ (lo_txs _ _ _ Hok)), find_nonce_Some. Qed.

Lemma Forward_sim n : simulates (LForward n).
Proof.
  intros st l L Hok _. destruct (Forward_ok n _ _ (lo_txs _ _ _ Hok)) as (m' & E & Hm'). cbn [do_op]. unfold list_Forward. rewrite E.
  eexists _, _. split_and!; [done|done|]. apply (list_ok_sub _ _ _ _ _ Hok Hm'). intros t [_ ?]%list_elem_of_filter. done.
Qed.
Lemma Cap_sim n : simulates (LCap n).
Proof.
  intros st l L Hok _. cbn [do_op spec_op]. unfold list_Cap. destruct (Z.ltb_spec n 0) as [Hneg|Hn].
  { unfold Cap. destruct (Z.leb_spec (Z.of_nat (map_size (items (txs l)))) n); [lia|]. destruct (Z.ltb_spec n 0); [done|lia]. }
  destruct (txs_Cap_ok n _ _ (lo_txs _ _ _ Hok) Hn) as (m' & E & Hm'). rewrite E.
  eexists _, _. split_and!; [done|done|]. apply (list_ok_sub _ _ _ _ _ Hok Hm'). intros t Ht. by apply elem_of_take in Ht as (i & ?%list_elem_of_lookup_2 & _).
Qed.
Lemma Ready_sim n : simulates (LReady n).
Proof.
  intros st l L Hok Hn. destruct (Ready_ok n _ _ (lo_txs _ _ _ Hok)) as (m' & E & Hm'). cbn [do_op spec_op]. unfold list_Ready. rewrite E.
  assert (Hsub : (spec_ready n L).2 ⊆ L); [|destruct (spec_ready n L); eexists _, _; split_and!; [done|done|by apply (list_ok_sub _ _ _ _ _ Hok)]].
  unfold spec_ready. destruct L as [|x L]; [done|]. destruct (n <? tx_Nonce x); [done|].
  pose proof (spec_run_split (tx_Nonce x) (x :: L)) as Hsp. destruct (spec_run (tx_Nonce x) (x :: L)) as [a b]. cbn [fst snd] in *. rewrite Hsp. intros y Hy. apply elem_of_app. by right.
Qed.
Lemma Flatten_sim : simulates LFlatten.
Proof.
  intros st l L Hok Hn. destruct (flatten_ok _ _ (lo_txs _ _ _ Hok)) as [E Hm']. cbn [do_op]. unfold list_Flatten. destruct (flatten (txs l)) as [c m']. cbn in *. subst c.
  eexists _, _. split_and!; [done|done|]. by apply (list_ok_sub _ _ _ _ _ Hok).
Qed.
Lemma Last_sim : simulates LLast.
Proof.
  intros st l L Hok Hn. destruct (flatten_ok _ _ (lo_txs _ _ _ Hok)) as [E Hm']. cbn [do_op spec_op]. unfold LastElement. destruct (flatten (txs l)) as [c m']. cbn [fst snd] in *. subst c.
  rewrite Nat.sub_1_r, <-last_lookup. destruct (last L) as [t|]; cbn [mbind option_bind]; [|done].
  eexists _, _. split_and!; [done|done|]. by apply (list_ok_sub _ _ _ _ _ Hok).
Qed.

Lemma filter_subset (P : Transaction → Prop) `{!∀ t, Decision (P t)} (L : list Transaction) : filter P L ⊆ L.
Proof. by intros t [_ ?]%list_elem_of_filter. Qed.

Lemma filter_bool_ext (f : Transaction → bool) b (P Q : Transaction → Prop) `{!∀ t, Decision (P t), !∀ t, Decision (Q t)} (L : list Transaction) :
  (∀ t, t ∈ L → (Q t ∧ f t = b ↔ P t)) → filter (λ t, f t = b) (filter Q L) = filter P L.
Proof.
  intros Hext. induction L as [|t L IH]; [done|]. rewrite !filter_cons. pose proof (Hext t (ltac:(set_solver))) as Ht.
  destruct (decide (Q t)); [rewrite filter_cons; destruct (decide (f t = b))|]; case_decide; try (exfalso; tauto); rewrite IH; [done| |done| |done|]; intros; apply Hext; set_solver.
Qed.

Lemma Remove_sim tx : simulates (LRemove tx).
Proof.
  intros st l L Hok _. pose proof (lo_strict _ _ _ Hok) as Hst. destruct (Remove_ok (tx_Nonce tx) _ _ (lo_txs _ _ _ Hok)) as [Eb Hm'].
  cbn [do_op spec_op]. unfold list_Remove. rewrite Hst. destruct (Remove (tx_Nonce tx) (txs l)) as [b m']. cbn [fst snd] in *. subst b.
  case_decide as Hin; [rewrite bool_decide_true by done|rewrite bool_decide_false by done; by eexists _, _].
  destruct st; [|eexists _, _; split_and!; [done|done|apply (list_ok_sub _ _ _ _ _ Hok Hm'), filter_subset]].
  destruct (Filter_ok (λ t, tx_Nonce tx <? tx_Nonce t) _ _ Hm') as [Hf Hm'']. destruct (Filter _ m') as [i m'']. cbn [fst snd] in *.
  rewrite (filter_bool_ext _ true (λ t, tx_Nonce tx < tx_Nonce t) (λ t, tx_Nonce t ≠ tx_Nonce tx)) in Hf by (intros t _; rewrite Z.ltb_lt; lia).
  rewrite (filter_bool_ext _ false (λ t, tx_Nonce t < tx_Nonce tx) (λ t, tx_Nonce t ≠ tx_Nonce tx)) in Hm'' by (intros t _; rewrite Z.ltb_ge; lia).
  eexists _, _. split_and!; [done|cbn; done|]. apply (list_ok_sub _ _ _ _ _ Hok Hm''), filter_subset.
Qed.

Lemma lowest_lt n removed lo :
  foldl (λ lowest tx, if tx_Nonce tx <? lowest then tx_Nonce tx else lowest) lo removed < n ↔ lo < n ∨ ∃ r, r ∈ removed ∧ tx_Nonce r < n.
Proof.
  revert lo. induction removed as [|r removed IH]; intros lo; cbn [foldl]; [set_solver|]. rewrite IH. setoid_rewrite elem_of_cons.
  destruct (Z.ltb_spec (tx_Nonce r) lo); split; [intros [?|(x & ? & ?)]|intros [?|(x & [->|?] & ?)]|intros [?|(x & ? & ?)]|intros [?|(x & [->|?] & ?)]]; eauto; left; lia.
Qed.

Lemma after_any_true removed t : after_any removed t = true ↔ ∃ r, r ∈ removed ∧ tx_Nonce r < tx_Nonce t.
Proof. unfold after_any. rewrite existsb_exists. setoid_rewrite Z.ltb_lt. setoid_rewrite list_elem_of_In. done. Qed.
Lemma after_any_lowest removed removed' t :
  removed ≡ₚ removed' → is_u64 (tx_Nonce t) →
  (foldl (λ lowest tx, if tx_Nonce tx <? lowest then tx_Nonce tx else lowest) (2 ^ 64 - 1) removed <? tx_Nonce t) = after_any removed' t.
Proof.
  intros Hp Ht. unfold is_u64 in Ht. apply eq_true_iff_eq. rewrite Z.ltb_lt, lowest_lt, after_any_true. setoid_rewrite Hp.
  split; [intros [?|?]; [lia|done]|by right].
Qed.
Lemma filter_eq (f g : Transaction → bool) b (L : list Transaction) : (∀ t, t ∈ L → f t = g t) → filter (λ t, f t = b) L = filter (λ t, g t = b) L.
Proof.
  intros Hext. induction L as [|t L IH]; [done|]. rewrite !filter_cons, (Hext t) by set_solver. rewrite IH by (intros; apply Hext; set_solver). done.
Qed.

Lemma caps_filter c s (L : list Transaction) : Forall (λ t, Cost t ≤ c ∧ tx_Smoke t ≤ s) (filter (λ t, too_much c s t = false) L).
Proof. apply Forall_forall. intros t [Ht _]%list_elem_of_filter. unfold too_much in Ht. apply orb_false_iff in Ht as [?%Z.ltb_ge ?%Z.ltb_ge]. done. Qed.

Lemma filter_after m L removed removed' :
  sorted_map m L → removed ≡ₚ removed' →
  let f tx := foldl (λ lowest tx, if tx_Nonce tx <? lowest then tx_Nonce tx else lowest) (2 ^ 64 - 1) removed <? tx_Nonce tx in
  (filter_ f m).1 ≡ₚ filter (λ t, after_any removed' t = true) L ∧ sorted_map (reheap (filter_ f m).2) (filter (λ t, after_any removed' t = false) L).
Proof.
  intros [[Hl _ _] Hr _] Hp f. destruct (filter__ok f m L Hl) as [Hf Hl'].
  assert (Hext : ∀ t, t ∈ L → f t = after_any removed' t).
  { intros t Ht. rewrite Forall_forall in Hr. apply after_any_lowest; [done|by apply Hr]. }
  rewrite (filter_eq f (after_any removed') true _ Hext) in Hf. rewrite (filter_eq f (after_any removed') false _ Hext) in Hl'.
  split; [done|]. apply reheap_ok; [done|by apply Forall_filter_in].
Qed.

Lemma Filter_sim c s : simulates (LFilter c s).
Proof.
  intros st l L [Hst Hm Hc] _. cbn [do_op spec_op]. unfold list_Filter. destruct ((costcap l <=? c) && (smokecap l <=? s)) eqn:Ecap.
  { apply andb_true_iff in Ecap as [?%Z.leb_le ?%Z.leb_le].
    assert (Hall : ∀ t, t ∈ L → too_much c s t = false).
    { rewrite Forall_forall in Hc. intros t Ht. specialize (Hc t Ht). unfold too_much. apply orb_false_iff. rewrite !Z.ltb_ge. lia. }
    rewrite (filter_all (λ t, too_much c s t = false)), (filter_none (λ t, too_much c s t = true)) by (intros t Ht; by rewrite (Hall t Ht)).
    destruct st; [rewrite filter_none, filter_all by done|]; (eexists _, _; split_and!; [done|done|by split]). }
  fold (too_much c s). destruct (Filter_ok (too_much c s) _ _ Hm) as [Hf Hm']. change (λ tx, (s <? tx_Smoke tx) || (c <? Cost tx)) with (too_much c s).
  destruct (Filter (too_much c s) (txs l)) as [removed m']. cbn [fst snd] in *.
  destruct removed as [|r removed].
  { symmetry in Hf. apply Permutation_nil_r in Hf. rewrite Hf.
    rewrite (filter_none (λ t, after_any [] t = true)), (filter_all (λ t, after_any [] t = false)) by done.
    destruct st; (eexists _, _; split_and!; [done|done|]); split; cbn; try done; apply caps_filter. }
  set (removed0 := r :: removed) in *. clearbody removed0. rewrite Hst. destruct st.
  - destruct (filter_after m' _ _ _ Hm' Hf) as [Hi Hm'']. cbn beta zeta in Hi, Hm''. destruct (filter_ _ m') as [i m'']. cbn [fst snd] in *.
    eexists _, _. split; [done|]. split; [done|]. split; cbn; [done|done|]. apply Forall_filter_in, caps_filter.
  - eexists _, _. split; [done|]. split; [done|]. split; cbn; [done| |apply caps_filter]. apply reheap_ok; [apply Hm'|apply Hm'].
Qed.

#[local] Hint Resolve Add_sim Overlaps_sim Forward_sim Filter_sim Cap_sim Remove_sim Ready_sim Flatten_sim Last_sim : core.

Lemma do_op_sim op : simulates op.
Proof. destruct op; auto. Qed.

Lemma do_ops_sim ops st l L :
  list_ok st l L → Forall op_ok ops →
  match spec_ops st ops L with
  | Some (os', L') => ∃ os l', do_ops ops l = Some (os, l') ∧ Forall2 agrees os os' ∧ list_ok st l' L'
  | None => do_ops ops l = None
  end.
Proof.
  revert l L. induction ops as [|op ops IH]; intros l L Hok Hops; [by exists [], l|].
  apply Forall_cons in Hops as [Hop Hops]. pose proof (do_op_sim op _ _ _ Hok Hop) as Hsim. cbn [do_ops spec_ops].
  destruct (spec_op st op L) as [[o' L']|]; cbn [mbind option_bind]; [|by rewrite Hsim]. destruct Hsim as (o & l' & E & Ha & Hok'). rewrite E. cbn [mbind option_bind].
  specialize (IH _ _ Hok' Hops). destruct (spec_ops st ops L') as [[os' L'']|]; cbn [mbind option_bind]; [|by rewrite IH].
  destruct IH as (os & l'' & E' & Has & Hok''). rewrite E'. cbn [mbind option_bind]. exists (o :: os), l''. split_and!; [done|by constructor|done].
Qed.

Lemma newTxList_ok st : list_ok st (newTxList st) [].
Proof. split; [done|apply newTxSortedMap_ok|constructor]. Qed.

Lemma list_Flatten_ok st l L : list_ok st l L → (list_Flatten l).1 = L.
Proof. intros Hok. unfold list_Flatten. pose proof (flatten_ok _ _ (lo_txs _ _ _ Hok)) as [Ef _]. by destruct (flatten (txs l)). Qed.


(** ** Lists without gaps *)

Definition gap_free (L : list Transaction) : Prop := ∃ n, tx_Nonce <$> L = seqZ n (Z.of_nat (length L)).

Lemma gap_free_nil : gap_free [].
Proof. by exists 0. Qed.
Lemma gap_free_app A B : gap_free (A ++ B) → gap_free A ∧ gap_free B.
Proof.
  intros [n E]. rewrite fmap_app, length_app, Nat2Z.inj_add, seqZ_app in E by lia. apply app_inj_1 in E as [EA EB]; [|by rewrite length_fmap, length_seqZ, Nat2Z.id].
  split; eexists; done.
Qed.

(** The transactions that [Filter] leaves in a strict list come first. *)
Lemma filter_prefix f (L : list Transaction) :
  StronglySorted nonce_lt L →
  filter (λ t, after_any (filter (λ t, f t = true) L) t = false) (filter (λ t, f t = false) L) `prefix_of` L.
Proof.
  induction 1 as [|t L Hs IH Hf]; [done|]. rewrite Forall_forall in Hf. rewrite (filter_cons _ t L), (filter_cons _ t L). destruct (f t) eqn:E; cbn [decide].
  - rewrite decide_True, decide_False by done. rewrite filter_none; [apply prefix_nil|]. intros x [_ Hx]%list_elem_of_filter.
    rewrite not_false_iff_true, after_any_true. exists t. split; [set_solver|by apply Hf].
  - rewrite decide_False, decide_True by done. rewrite filter_cons, decide_True; [by apply prefix_cons|].
    apply not_true_iff_false. rewrite after_any_true. intros (r & [_ Hr]%list_elem_of_filter & Hlt). specialize (Hf r Hr). unfold nonce_lt in Hf. lia.
Qed.

(** A transaction is added where it leaves no gap. *)
Definition fits (L : list Transaction) (op : list_op) : Prop :=
  match op with
  | LAdd tx _ => match last L with Some t => tx_Nonce tx ∈ tx_Nonce <$> L ∨ tx_Nonce tx = tx_Nonce t + 1 | None => True end
  | _ => True
  end.
#[global] Instance fits_dec L op : Decision (fits L op).
Proof. destruct op; cbn; try apply _. destruct (last L); apply _. Defined.
Fixpoint all_fit (strict : bool) (ops : list list_op) (L : list Transaction) : Prop :=
  match ops with
  | [] => True
  | op :: ops => fits L op ∧ match spec_op strict op L with Some (_, L') => all_fit strict ops L' | None => True end
  end.

Lemma gap_free_put tx L : StronglySorted nonce_lt L → gap_free L → fits L (LAdd tx 0) → gap_free (spec_put tx L).
Proof.
  intros Hs [n E] Hfit. cbn in Hfit. destruct (decide (tx_Nonce tx ∈ tx_Nonce <$> L)) as [Hin|Hni].
  - apply list_elem_of_fmap in Hin as (old & Eo & (A & B & ->)%list_elem_of_split). exists n. rewrite length_app in *. cbn [length] in *.
    apply StronglySorted_app in Hs as (HA & HsA & HsB). apply sorted_tail in HsB as [_ HB]. unfold nonce_lt in HA.
    unfold spec_put. rewrite !filter_app, !filter_cons, !decide_False by lia.
    rewrite (filter_all _ A), (filter_none _ B), app_nil_r, (filter_none _ A), (filter_all _ B) by (intros x Hx; try specialize (HA x old Hx (ltac:(set_solver))); try specialize (HB x Hx); lia).
    rewrite length_app. cbn [length app]. by rewrite <-E, !fmap_app, !fmap_cons, Eo.
  - destruct L as [|t A _] using rev_ind; [by exists (tx_Nonce tx)|]. rewrite last_snoc in Hfit. destruct Hfit as [|Hnext]; [done|].
    assert (Hlt : ∀ x, x ∈ A ++ [t] → tx_Nonce x < tx_Nonce tx).
    { apply StronglySorted_app in Hs as (HA & _ & _). unfold nonce_lt in HA. intros x [Hx| ->%list_elem_of_singleton]%elem_of_app; [|lia]. specialize (HA x t Hx (ltac:(set_solver))). lia. }
    exists n. unfold spec_put. rewrite filter_all, filter_none by (intros x Hx; specialize (Hlt x Hx); lia).
    rewrite fmap_app, E, (length_app (A ++ [t]) [tx]), (Nat2Z.inj_add (length (A ++ [t]))), (seqZ_app n) by lia. f_equal.
    rewrite fmap_app, length_app, Nat2Z.inj_add, seqZ_app in E by lia. apply app_inj_1 in E as [_ E]; [|by rewrite length_fmap, length_seqZ, Nat2Z.id].
    change (tx_Nonce <$> [t]) with [tx_Nonce t] in E. change (tx_Nonce <$> [tx]) with [tx_Nonce tx]. rewrite length_app. cbn [length] in *. change (Z.of_nat 1) with 1 in *.
    rewrite seqZ_cons, seqZ_nil in * by lia. injection E as E. f_equal. lia.
Qed.

Lemma gap_free_prefix A L : A `prefix_of` L → gap_free L → gap_free A.
Proof. intros [B ->] [? _]%gap_free_app. done. Qed.
Lemma gap_free_below n L : StronglySorted nonce_lt L → gap_free L → gap_free (filter (λ t, tx_Nonce t < n) L) ∧ gap_free (filter (λ t, n ≤ tx_Nonce t) L).
Proof. intros Hs. rewrite (sorted_split L n Hs) at 1. apply gap_free_app. Qed.

Lemma gap_free_op op L o L' : StronglySorted nonce_lt L → gap_free L → fits L op → spec_op true op L = Some (o, L') → gap_free L'.
Proof.
  intros Hs Hg Hfit. destruct op; cbn [spec_op].
  - pose proof (gap_free_put tx L Hs Hg Hfit) as Hput. destruct (find_nonce (tx_Nonce tx) L) as [old|]; [destruct (outbids priceBump tx old)|]; by intros [= _ <-].
  - by intros [= _ <-].
  - intros [= _ <-]. by apply gap_free_below.
  - intros [= _ <-]. by apply (gap_free_prefix _ L (filter_prefix _ _ Hs)).
  - destruct (threshold <? 0); [done|]. intros [= _ <-]. apply (gap_free_prefix _ L); [apply prefix_take|done].
  - case_decide; intros [= _ <-]; [by apply gap_free_below|done].
  - unfold spec_ready. destruct L as [|t L]; [by intros [= _ <-]|]. destruct (start <? tx_Nonce t); [by intros [= _ <-]|].
    rewrite (spec_run_split (tx_Nonce t) (t :: L)) in Hg. apply gap_free_app in Hg as [_ Hg]. destruct (spec_run (tx_Nonce t) (t :: L)). by intros [= _ <-].
  - by intros [= _ <-].
  - destruct (last L); [by intros [= _ <-]|done].
Qed.

Lemma gap_free_ops ops l L os L' :
  list_ok true l L → Forall op_ok ops → gap_free L → all_fit true ops L → spec_ops true ops L = Some (os, L') → gap_free L'.
Proof.
  revert l L os. induction ops as [|op ops IH]; intros l L os Hok Hops Hg Hfit; cbn [spec_ops]; [by intros [= _ <-]|].
  apply Forall_cons in Hops as [Hop Hops]. destruct Hfit as [Hf Hfit]. pose proof (do_op_sim op _ _ _ Hok Hop) as Hsim.
  assert (Hs : StronglySorted nonce_lt L) by apply Hok. destruct (spec_op true op L) as [[o L1]|] eqn:E; cbn [mbind option_bind]; [|done].
  destruct Hsim as (_ & l1 & _ & _ & Hok1). destruct (spec_ops true ops L1) as [[os1 L2]|] eqn:E'; [|done]. intros [= _ <-].
  by apply (IH _ _ os1 Hok1 Hops (gap_free_op _ _ _ _ Hs Hg Hf E) Hfit).
Qed.

(** C28: the list of executable transactions of an account has no gap between nonces.  When transactions are added to a strict list only over existing ones or after the last one, then after any operations (advancing the nonce, dropping what the balance does not cover, capping, removing) the nonces of the flattened list count up by one; the operations panic only where their meaning does (the last element of an empty list, a negative cap). *)
Theorem strict_no_gaps (ops : list list_op) :
  Forall op_ok ops → all_fit true ops [] →
  match spec_ops true ops [] with
  | Some _ => ∃ os l n, do_ops ops (newTxList true) = Some (os, l) ∧ tx_Nonce <$> (list_Flatten l).1 = seqZ n (Z.of_nat (length (list_Flatten l).1))
  | None => do_ops ops (newTxList true) = None
  end.
Proof.
  intros Hops Hfit. pose proof (do_ops_sim ops true _ _ (newTxList_ok true) Hops) as Hsim.
  destruct (spec_ops true ops []) as [[os' L]|] eqn:E; [|done].
  destruct Hsim as (os & l & Ed & _ & Hok). destruct (gap_free_ops ops _ _ _ _ (newTxList_ok true) Hops gap_free_nil Hfit E) as [n Hn].
  exists os, l, n. split; [done|]. by rewrite (list_Flatten_ok true l L Hok).
Qed.
End ranging.

#[export] Instance all_fit_dec strict ops L : Decision (all_fit strict ops L).
Proof. revert L. induction ops as [|op ops IH]; intros L; cbn; [apply _|]. destruct (spec_op strict op L) as [[o L']|]; apply _. Defined.

(** ** An example *)

Definition list_range : RangeItems := {| range_items := map_to_list; range_items_perm m := reflexivity _ |}.

Definition example_tx (nonce price smoke amount : Z) : Transaction := MkTransaction (MkTxdata nonce price smoke None amount [] 27 1 1) None.

(** Fill a list, replace a transaction, drop the ones that cost too much and those behind them. *)
Definition example_list_ops : list list_op :=
  [LAdd (example_tx 7 10 21000 5) 10; LAdd (example_tx 8 10 21000 5) 10; LAdd (example_tx 9 30 90000 5) 10; LAdd (example_tx 10 10 21000 5) 10;
   LFlatten; LAdd (example_tx 8 10 50000 5) 10; LAdd (example_tx 8 11 50000 5) 10; LForward 8; LFilter 600000 80000; LLast; LCap 5; LReady 8].


Lemma strict_no_gaps_witness :
  Forall op_ok (take 11 example_list_ops) ∧ all_fit true (take 11 example_list_ops) [] ∧
  match spec_ops true (take 11 example_list_ops) [] with
  | Some _ => ∃ os l n, @do_ops list_range (take 11 example_list_ops) (newTxList true) = Some (os, l)
      ∧ tx_Nonce <$> (@list_Flatten list_range l).1 = seqZ n (Z.of_nat (length (@list_Flatten list_range l).1))
  | None => @do_ops list_range (take 11 example_list_ops) (newTxList true) = None
  end.
Proof.
  assert (Hops : Forall op_ok (take 11 example_list_ops)) by (apply (bool_decide_eq_true_1 _); vm_compute; reflexivity).
  assert (Hfit : all_fit true (take 11 example_list_ops) []) by (apply (bool_decide_eq_true_1 _); vm_compute; reflexivity).
  split; [exact Hops|]. split; [exact Hfit|]. exact (@strict_no_gaps list_range _ Hops Hfit).
Defined.

(** The list ends with the transaction that replaced nonce 8 and was not too expensive. *)
Lemma example_list_result :
  (λ '(os, l), (os !! 8%nat, (@list_Flatten list_range l).1)) <$> @do_ops list_range (take 11 example_list_ops) (newTxList true)
  = Some (Some (OutBags true [example_tx 9 30 90000 5] [example_tx 10 10 21000 5]), [example_tx 8 11 50000 5]).
Proof. vm_compute. reflexivity. Qed.

(** After [Ready] has taken everything, there is no last element. *)
Lemma example_list_panics : @do_ops list_range (example_list_ops ++ [LLast]) (newTxList true) = None.
Proof. vm_compute. reflexivity. Qed.
