(* ===== verification/TxPriced.v ===== *)
(** * Transactions by price (src/core/tx_list.go, src/core/tx_pool.go, src/core/types/transaction.go)

    [txLookup], the index of all transactions of the pool; [txPricedList], the
    remote transactions of the pool in a heap by price, which may hold stale
    entries; and [TransactionsByPriceAndNonce], from which blocks are filled.
    Locks and gauges are left out.  The order of ranging over maps is a
    parameter. *)
From stdpp Require Import sorting.
From S2P Require Import Prelude RlpEncode Params ChainConfig StateDB VmBase Precompiles Evm StateTransition Transaction GoHeap TxList.
Local Open Scope Z_scope.

Class RangeTxs := {
  range_txs : gmap Hash Transaction → list (Hash * Transaction);
  range_txs_perm m : range_txs m ≡ₚ map_to_list m
}.

Definition txSlotSize : Z := 32 * 1024.
Definition txMaxSize : Z := 4 * txSlotSize.

Section priced.
Context {CR : Crypto} {ranging : RangeTxs}.

(** [tx.Size()]: the length of the encoding. *)
Definition tx_Size (tx : Transaction) : Z :=
  let d := tx_data tx in
  match Encode (VPtr KList (Some (VStruct (signed_fields d ++ [VBigIntPtr (Some (V d)); VBigIntPtr (Some (R d)); VBigIntPtr (Some (S_ d))])))) with
  | Ok chunks => len (concat chunks)
  | Err _ => 0
  end.

(** The quotient is a floating point number, exact for sizes below 2^53, and is truncated. *)
Definition numSlots (tx : Transaction) : Z := (tx_Size tx + txSlotSize - 1) / txSlotSize.

(** ** [accountSet], without the cache of [flatten] *)

Record accountSet := MkAccountSet { accounts : gset Address; as_signer : Signer }.

Definition contains (addr : Address) (s : accountSet) : bool := bool_decide (addr ∈ accounts s).
Definition containsTx (tx : Transaction) (s : accountSet) : bool :=
  match (Sender (as_signer s) tx).1 with Ok addr => contains addr s | Err _ => false end.

(** ** [txLookup] *)

Record txLookup := MkLookup {
  slots : Z;
  locals : gmap Hash Transaction;
  remotes : gmap Hash Transaction
}.

Definition newTxLookup : txLookup := MkLookup 0 ∅ ∅.

Definition lookup_Get (hash : Hash) (t : txLookup) : option Transaction :=
  match locals t !! hash with Some tx => Some tx | None => remotes t !! hash end.
Definition GetRemote (hash : Hash) (t : txLookup) : option Transaction := remotes t !! hash.
Definition lookup_Count (t : txLookup) : Z := Z.of_nat (size (locals t)) + Z.of_nat (size (remotes t)).

Definition lookup_Add (tx : Transaction) (local : bool) (t : txLookup) : txLookup :=
  let slots := i64 (slots t + numSlots tx) in
  if local then MkLookup slots (<[tx_Hash tx := tx]> (locals t)) (remotes t)
  else MkLookup slots (locals t) (<[tx_Hash tx := tx]> (remotes t)).

Definition lookup_Remove (hash : Hash) (t : txLookup) : txLookup :=
  match lookup_Get hash t with
  | None => t
  | Some tx => MkLookup (i64 (slots t - numSlots tx)) (delete hash (locals t)) (delete hash (remotes t))
  end.

Definition RemoteToLocals (s : accountSet) (t : txLookup) : Z * txLookup :=
  foldl (λ '(migrated, t) '(hash, tx),
           if containsTx tx s then (migrated + 1, MkLookup (slots t) (<[hash := tx]> (locals t)) (delete hash (remotes t))) else (migrated, t))
    (0, t) (range_txs (remotes t)).

(** ** [txPricedList] *)

(** [priceHeap.Less]: cheaper first, then the higher nonce. *)
Definition price_less (t1 t2 : Transaction) : bool :=
  match tx_Price t1 ?= tx_Price t2 with Lt => true | Gt => false | Eq => tx_Nonce t2 <? tx_Nonce t1 end.

(** The list, without the pointer to the lookup, which the methods take as an argument. *)
Record txPricedList := MkPriced { heap : list Transaction; stales : Z }.

Definition newTxPricedList : txPricedList := MkPriced [] 0.

Definition priced_Put (tx : Transaction) (local : bool) (l : txPricedList) : txPricedList :=
  if local then l else MkPriced (heap_Push price_less tx (heap l)) (stales l).

Definition Reheap (all : txLookup) (l : txPricedList) : txPricedList :=
  MkPriced (heap_Init price_less (range_txs (remotes all)).*2) 0.

Definition Removed (all : txLookup) (count : Z) (l : txPricedList) : txPricedList :=
  let stales := i64 (stales l + count) in
  if stales <=? Z.of_nat (length (heap l)) / 4 then MkPriced (heap l) stales else Reheap all (MkPriced (heap l) stales).

Fixpoint priced_cap_loop (fuel : nat) (all : txLookup) (threshold : Z) (l : txPricedList) : option (list Transaction * txPricedList) :=
  match heap l with
  | [] => Some ([], l)
  | cheapest :: _ =>
      match fuel with
      | O => None
      | S fuel =>
          match GetRemote (tx_Hash cheapest) all with
          | None => '(_, h) ← heap_Pop price_less (heap l); priced_cap_loop fuel all threshold (MkPriced h (i64 (stales l - 1)))
          | Some _ =>
              if threshold <=? tx_Price cheapest then Some ([], l)
              else
                '(_, h) ← heap_Pop price_less (heap l);
                '(drop, l) ← priced_cap_loop fuel all threshold (MkPriced h (stales l));
                Some (cheapest :: drop, l)
          end
      end
  end.

Definition priced_Cap (all : txLookup) (threshold : Z) (l : txPricedList) : option (list Transaction * txPricedList) :=
  priced_cap_loop (length (heap l)) all threshold l.

(** The loop of [Underpriced]: drop stale entries at the head. *)
Fixpoint fresh_head (fuel : nat) (all : txLookup) (l : txPricedList) : option txPricedList :=
  match heap l with
  | [] => Some l
  | head :: _ =>
      match fuel with
      | O => None
      | S fuel =>
          match GetRemote (tx_Hash head) all with
          | None => '(_, h) ← heap_Pop price_less (heap l); fresh_head fuel all (MkPriced h (i64 (stales l - 1)))
          | Some _ => Some l
          end
      end
  end.

Definition Underpriced (all : txLookup) (tx : Transaction) (l : txPricedList) : option (bool * txPricedList) :=
  l ← fresh_head (length (heap l)) all l;
  match heap l with
  | [] => Some (false, l)
  | cheapest :: _ => Some (tx_Price tx <=? tx_Price cheapest, l)
  end.

(** The loop of [Discard], with the slots that are still missing. *)
Fixpoint discard_loop (fuel : nat) (all : txLookup) (slots : Z) (l : txPricedList) : option (list Transaction * Z * txPricedList) :=
  match heap l with
  | [] => Some ([], slots, l)
  | _ =>
      if slots <=? 0 then Some ([], slots, l)
      else
        match fuel with
        | O => None
        | S fuel =>
            '(tx, h) ← heap_Pop price_less (heap l);
            match GetRemote (tx_Hash tx) all with
            | None => discard_loop fuel all slots (MkPriced h (i64 (stales l - 1)))
            | Some _ =>
                '(drop, slots, l) ← discard_loop fuel all (i64 (slots - numSlots tx)) (MkPriced h (stales l));
                Some (tx :: drop, slots, l)
            end
        end
  end.

(** A negative number of slots makes [make] panic. *)
Definition Discard (all : txLookup) (slots : Z) (force : bool) (l : txPricedList) : option (list Transaction * bool * txPricedList) :=
  if slots <? 0 then None else
  '(drop, slots, l) ← discard_loop (length (heap l)) all slots l;
  if (0 <? slots) && negb force then Some ([], false, MkPriced (foldl (λ h tx, heap_Push price_less tx h) (heap l) drop) (stales l))
  else Some (drop, true, l).

(** ** [TransactionsByPriceAndNonce] *)

(** A transaction with its field [time], which Transaction.v leaves out. *)
Record timed := MkTimed { timed_tx : Transaction; time : Z }.

(** [TxByPriceAndTime.Less]. *)
Definition by_price_and_time (s1 s2 : timed) : bool :=
  match tx_Price (timed_tx s1) ?= tx_Price (timed_tx s2) with Eq => time s1 <? time s2 | Gt => true | Lt => false end.

Record TransactionsByPriceAndNonce := MkByPrice {
  by_txs : gmap Address (list timed);
  heads : list timed;
  by_signer : Signer
}.

(** [acc, _ := Sender(signer, tx)]: the zero address after an error. *)
Definition sender_of (signer : Signer) (t : timed) : Address :=
  match (Sender signer (timed_tx t)).1 with Ok acc => acc | Err _ => replicate 20 0 end.

(** The loop over the accounts, in the order in which it visits them. *)
Fixpoint collect_heads (signer : Signer) (visits : list Address) (txs : gmap Address (list timed)) : option (list timed * gmap Address (list timed)) :=
  match visits with
  | [] => Some ([], txs)
  | from :: visits =>
      accTxs ← txs !! from;
      match accTxs with
      | [] => None
      | head :: rest =>
          let acc := sender_of signer head in
          let txs := <[acc := rest]> txs in
          '(heads, txs) ← collect_heads signer visits (if decide (from = acc) then txs else base.delete from txs);
          Some (head :: heads, txs)
      end
  end.

Definition NewTransactionsByPriceAndNonce (visits : list Address) (signer : Signer) (txs : gmap Address (list timed)) : option TransactionsByPriceAndNonce :=
  '(heads, txs) ← collect_heads signer visits txs;
  Some (MkByPrice txs (heap_Init by_price_and_time heads) signer).

Definition Peek (t : TransactionsByPriceAndNonce) : option timed := heads t !! 0%nat.

Definition by_Pop (t : TransactionsByPriceAndNonce) : option TransactionsByPriceAndNonce :=
  '(_, h) ← heap_Pop by_price_and_time (heads t); Some (MkByPrice (by_txs t) h (by_signer t)).

Definition Shift (t : TransactionsByPriceAndNonce) : option TransactionsByPriceAndNonce :=
  best ← heads t !! 0%nat;
  let acc := sender_of (by_signer t) best in
  match by_txs t !! acc with
  | Some (next :: rest) =>
      Some (MkByPrice (<[acc := rest]> (by_txs t)) (heap_Fix by_price_and_time 0 (<[0%nat := next]> (heads t))) (by_signer t))
  | _ => by_Pop t
  end.
End priced.
