(* ===== verification/TxPricedProps.v ===== *)
(** * Theorems on transactions by price

    What the priced list of the pool says about the remote transactions,
    whatever stale entries its heap has, and the order in which transactions
    are offered to a block. *)
From stdpp Require Import sorting.
From S2P Require Import Prelude RlpEncode Params ChainConfig StateDB VmBase Precompiles Evm StateTransition Transaction GoHeap TxList TxPriced.
Local Open Scope Z_scope.

(** ** The heap by price *)

Lemma price_asym x y : price_less x y = true → price_less y x = false.
Proof. unfold price_less. rewrite (Z.compare_antisym (tx_Price x) (tx_Price y)). destruct (Z.compare_spec (tx_Price x) (tx_Price y)); cbn; lia. Qed.
Lemma price_trans x y z : price_less y x = false → price_less z y = false → price_less z x = false.
Proof.
  unfold price_less. destruct (Z.compare_spec (tx_Price y) (tx_Price x)), (Z.compare_spec (tx_Price z) (tx_Price y)), (Z.compare_spec (tx_Price z) (tx_Price x)); try done; lia.
Qed.
Lemma price_le x y : price_less y x = false → tx_Price x ≤ tx_Price y.
Proof. unfold price_less. destruct (Z.compare_spec (tx_Price y) (tx_Price x)); try done; lia. Qed.

Lemma price_pop c h :
  heap_ok price_less (c :: h) →
  ∃ h', heap_Pop price_less (c :: h) = Some (c, h') ∧ heap_ok price_less h' ∧ c :: h' ≡ₚ c :: h ∧ length h' = length h
        ∧ ∀ e, e ∈ c :: h → tx_Price c ≤ tx_Price e.
Proof.
  intros Hh. destruct (heap_Pop_ok price_less price_asym price_trans _ Hh) as (x & h' & E & Hx & Hh' & Hp); [done|]. cbn in Hx. injection Hx as <-.
  exists h'. split_and!; [done|done|done|by apply Permutation_cons_inv, Permutation_length in Hp|].
  intros e He. by apply price_le, (heap_min price_less price_asym price_trans _ _ Hh).
Qed.

Section priced.
Context {CR : Crypto} {ranging : RangeTxs}.

Definition live (all : txLookup) (tx : Transaction) : Prop := is_Some (remotes all !! tx_Hash tx).

(** [kept] and [taken] are the entries of [h], up to stale ones. *)
Definition splits (all : txLookup) (h taken kept : list Transaction) : Prop :=
  ∃ stale, taken ++ stale ++ kept ≡ₚ h ∧ Forall (λ e, ¬ live all e) stale.

Lemma splits_nil all h : splits all h [] h.
Proof. by exists []. Qed.
Lemma splits_stale all c h h' taken kept : ¬ live all c → c :: h' ≡ₚ h → splits all h' taken kept → splits all h taken kept.
Proof.
  intros Hc Hp (stale & Hp' & Hs). exists (c :: stale). split; [|by constructor]. rewrite <-Hp, <-Hp'. cbn. symmetry. apply Permutation_middle.
Qed.
Lemma splits_take all c h h' taken kept : c :: h' ≡ₚ h → splits all h' taken kept → splits all h (c :: taken) kept.
Proof. intros Hp (stale & Hp' & Hs). exists stale. split; [|done]. rewrite <-Hp, <-Hp'. done. Qed.

Lemma splits_live all h taken kept e : splits all h taken kept → e ∈ h → live all e → e ∈ taken ∨ e ∈ kept.
Proof.
  intros (stale & Hp & Hs) He Hl. rewrite <-Hp, !elem_of_app in He. rewrite Forall_forall in Hs. destruct He as [?|[He|?]]; [by left|by apply Hs in He|by right].
Qed.
Lemma splits_sub all h taken kept e : splits all h taken kept → e ∈ taken ∨ e ∈ kept → e ∈ h.
Proof. intros (stale & Hp & _). rewrite <-Hp, !elem_of_app. tauto. Qed.

(** ** The loops *)

Lemma live_None all tx : GetRemote (tx_Hash tx) all = None → ¬ live all tx.
Proof. unfold GetRemote, live. intros ->. by intros [? ?]. Qed.
Lemma live_Some all tx r : GetRemote (tx_Hash tx) all = Some r → live all tx.
Proof. unfold GetRemote, live. intros ->. by eexists. Qed.

Lemma priced_cap_loop_ok fuel all thr l :
  heap_ok price_less (heap l) → (length (heap l) ≤ fuel)%nat →
  ∃ drop l', priced_cap_loop fuel all thr l = Some (drop, l') ∧ heap_ok price_less (heap l') ∧ splits all (heap l) drop (heap l')
  ∧ Forall (λ d, live all d ∧ tx_Price d < thr) drop ∧ Forall (λ e, thr ≤ tx_Price e) (heap l').
Proof.
  revert l. induction fuel as [|fuel IH]; intros [h st] Hh Hf; cbn [heap stales] in *.
  { destruct h; [|cbn in Hf; lia]. exists [], (MkPriced [] st). split_and!; [done|done|apply splits_nil|constructor|constructor]. }
  destruct h as [|c h]; [exists [], (MkPriced [] st); split_and!; [done|done|apply splits_nil|constructor|constructor]|].
  cbn [priced_cap_loop heap]. destruct (price_pop _ _ Hh) as (h' & E & Hh' & Hp & Hlen & Hmin). rewrite E. cbn [mbind option_bind].
  destruct (GetRemote (tx_Hash c) all) as [r|] eqn:Er.
  - destruct (Z.leb_spec thr (tx_Price c)) as [Hle|Hlt].
    { exists [], (MkPriced (c :: h) st). split_and!; [done|done|apply splits_nil|constructor|]. apply Forall_forall. intros e He. specialize (Hmin e He). cbn in *. lia. }
    destruct (IH (MkPriced h' st)) as (drop & l' & E' & Hok & Hsp & Hd & Hk); [done|cbn in *; lia|]. cbn [stales]. rewrite E'. cbn [mbind option_bind].
    exists (c :: drop), l'. split_and!; [done|done|by apply (splits_take _ _ _ _ _ _ Hp)|constructor; [split; [by eapply live_Some|done]|done]|done].
  - destruct (IH (MkPriced h' (i64 (st - 1)))) as (drop & l' & E' & Hok & Hsp & Hd & Hk); [done|cbn in *; lia|]. cbn [stales]. rewrite E'.
    exists drop, l'. split_and!; [done|done|by apply (splits_stale _ _ _ _ _ _ (live_None _ _ Er) Hp)|done|done].
Qed.

Lemma fresh_head_ok fuel all l :
  heap_ok price_less (heap l) → (length (heap l) ≤ fuel)%nat →
  ∃ l', fresh_head fuel all l = Some l' ∧ heap_ok price_less (heap l') ∧ splits all (heap l) [] (heap l')
  ∧ match heap l' with [] => True | c :: _ => live all c ∧ ∀ e, e ∈ heap l' → tx_Price c ≤ tx_Price e end.
Proof.
  revert l. induction fuel as [|fuel IH]; intros [h st] Hh Hf; cbn [heap stales] in *.
  { destruct h; [|cbn in Hf; lia]. exists (MkPriced [] st). split_and!; [done|done|apply splits_nil|done]. }
  destruct h as [|c h]; [exists (MkPriced [] st); split_and!; [done|done|apply splits_nil|done]|].
  cbn [fresh_head heap]. destruct (price_pop _ _ Hh) as (h' & E & Hh' & Hp & Hlen & Hmin). rewrite E. cbn [mbind option_bind].
  destruct (GetRemote (tx_Hash c) all) as [r|] eqn:Er.
  - exists (MkPriced (c :: h) st). split_and!; [done|done|apply splits_nil|]. split; [by eapply live_Some|done].
  - destruct (IH (MkPriced h' (i64 (st - 1)))) as (l' & E' & Hok & Hsp & Hd); [done|cbn in *; lia|]. cbn [stales]. rewrite E'.
    exists l'. split_and!; [done|done|by apply (splits_stale _ _ _ _ _ _ (live_None _ _ Er) Hp)|done].
Qed.

Definition small (tx : Transaction) : Prop := tx_Size tx ≤ txMaxSize.
Definition slots_of (l : list Transaction) : Z := foldr (λ tx n, numSlots tx + n) 0 l.

Lemma i64_small x : - 2 ^ 63 ≤ x < 2 ^ 63 → i64 x = x.
Proof. unfold i64. intros Hx. rewrite Z.mod_small; lia. Qed.
Lemma tx_Size_nonneg tx : 0 ≤ tx_Size tx.
Proof. unfold tx_Size. cbv zeta. case_match; [apply Nat2Z.is_nonneg|done]. Qed.
Lemma numSlots_range tx : small tx → 0 ≤ numSlots tx ≤ 4.
Proof.
  unfold small, numSlots, txMaxSize, txSlotSize. intros Hs. pose proof (tx_Size_nonneg tx). split; [apply Z.div_pos; lia|].
  apply Z.lt_succ_r. apply Z.div_lt_upper_bound; lia.
Qed.

Lemma slots_of_cons tx l : slots_of (tx :: l) = numSlots tx + slots_of l.
Proof. done. Qed.

(** What [Discard] takes: the cheapest live entries, and no more of them than needed. *)
Record discards (all : txLookup) (slots : Z) (h drop h' : list Transaction) : Prop := {
  dc_splits : splits all h drop h';
  dc_live : Forall (live all) drop;
  dc_cheapest d e : d ∈ drop → e ∈ h' → tx_Price d ≤ tx_Price e;
  dc_needed init d : drop = init ++ [d] → slots_of init < slots;
  dc_enough : slots ≤ slots_of drop ∨ h' = []
}.

Lemma discards_take all slots c h h' drop kept :
  0 < slots → c :: h' ≡ₚ h → live all c → (∀ e, e ∈ h → tx_Price c ≤ tx_Price e) →
  discards all (slots - numSlots c) h' drop kept → discards all slots h (c :: drop) kept.
Proof.
  intros Hs Hp Hl Hmin [D1 D2 D3 D4 D5]. split.
  - by apply (splits_take _ _ _ _ _ _ Hp).
  - by constructor.
  - intros d e [->|Hd]%elem_of_cons He; [|by apply D3]. apply Hmin. rewrite <-Hp. right. apply (splits_sub _ _ _ _ _ D1). by right.
  - intros [|x init] d E; cbn in E; injection E as -> E; [done|]. rewrite slots_of_cons. specialize (D4 init d E). lia.
  - rewrite slots_of_cons. destruct D5; [left; lia|by right].
Qed.
Lemma discards_stale all slots c h h' drop kept :
  c :: h' ≡ₚ h → ¬ live all c → discards all slots h' drop kept → discards all slots h drop kept.
Proof. intros Hp Hl [D1 D2 D3 D4 D5]. split; [by apply (splits_stale _ _ _ _ _ _ Hl Hp)|done..]. Qed.

Lemma discards_none all slots h : slots ≤ 0 ∨ h = [] → discards all slots h [] h.
Proof. intros Hn. split; [apply splits_nil|constructor|by intros d e ?%not_elem_of_nil|by intros [|] ? ?|]. cbn. tauto. Qed.

Lemma discard_loop_ok fuel all slots l :
  heap_ok price_less (heap l) → Forall small (heap l) → (length (heap l) ≤ fuel)%nat → -4 ≤ slots < 2 ^ 63 →
  ∃ drop l', discard_loop fuel all slots l = Some (drop, slots - slots_of drop, l') ∧ heap_ok price_less (heap l')
  ∧ discards all slots (heap l) drop (heap l').
Proof.
  revert slots l. induction fuel as [|fuel IH]; intros slots [h st] Hh Hsm Hf Hr; cbn [heap stales] in *.
  { destruct h; [|cbn in Hf; lia]. exists [], (MkPriced [] st). split_and!; [cbn; by rewrite Z.sub_0_r|done|apply discards_none; by right]. }
  destruct h as [|c h]; [exists [], (MkPriced [] st); split_and!; [cbn; by rewrite Z.sub_0_r|done|apply discards_none; by right]|].
  cbn [discard_loop heap]. destruct (Z.leb_spec slots 0) as [Hle|Hgt].
  { exists [], (MkPriced (c :: h) st). split_and!; [cbn; by rewrite Z.sub_0_r|done|apply discards_none; by left]. }
  destruct (price_pop _ _ Hh) as (h' & E & Hh' & Hp & Hlen & Hmin). rewrite E. cbn [mbind option_bind].
  rewrite <-Hp in Hsm. apply Forall_cons in Hsm as [Hc Hsm]. pose proof (numSlots_range c Hc) as Hn.
  destruct (GetRemote (tx_Hash c) all) as [r|] eqn:Er.
  - assert (Ei : i64 (slots - numSlots c) = slots - numSlots c) by (apply i64_small; lia). rewrite Ei.
    destruct (IH (slots - numSlots c) (MkPriced h' st)) as (drop & l' & E' & Hok & Hd); [done|done|cbn in *; lia|lia|]. cbn [stales]. rewrite E'. cbn [mbind option_bind].
    exists (c :: drop), l'. split_and!; [rewrite slots_of_cons; do 3 f_equal; lia|done|].
    apply (discards_take _ _ _ _ h'); [done|done|by eapply live_Some|done|done].
  - destruct (IH slots (MkPriced h' (i64 (st - 1)))) as (drop & l' & E' & Hok & Hd); [done|done|cbn in *; lia|lia|]. cbn [stales]. rewrite E'.
    exists drop, l'. split_and!; [done|done|]. by apply (discards_stale _ _ _ _ _ _ _ Hp (live_None _ _ Er)).
Qed.

(** ** The list and the lookup together *)

(** How the pool (tx_pool.go) uses the two: a transaction is entered in both;
    one that leaves the lookup is announced with [Removed], or not when the
    list itself gave it up; an account may become local. *)
Inductive priced_op :=
  | PAdd (tx : Transaction) (local : bool)
  | PRemove (hash : Hash)
  | PRemoved (count : Z)
  | PLocals (s : accountSet)
  | PUnderpriced (tx : Transaction)
  | PCap (threshold : Z)
  | PDiscard (slots : Z) (force : bool).

Definition remove_all (txs : list Transaction) (all : txLookup) : txLookup := foldl (λ all tx, lookup_Remove (tx_Hash tx) all) all txs.

Definition do_priced (op : priced_op) (all : txLookup) (l : txPricedList) : option (txLookup * txPricedList) :=
  match op with
  | PAdd tx local => Some (lookup_Add tx local all, priced_Put tx local l)
  | PRemove hash => Some (lookup_Remove hash all, l)
  | PRemoved count => Some (all, Removed all count l)
  | PLocals s => let '(migrated, all) := RemoteToLocals s all in Some (all, Removed all migrated l)
  | PUnderpriced tx => '(_, l) ← Underpriced all tx l; Some (all, l)
  | PCap threshold => '(drop, l) ← priced_Cap all threshold l; Some (remove_all drop all, l)
  | PDiscard slots force => '(drop, _, l) ← Discard all slots force l; Some (remove_all drop all, l)
  end.

Fixpoint do_priceds (ops : list priced_op) (all : txLookup) (l : txPricedList) : option (txLookup * txPricedList) :=
  match ops with
  | [] => Some (all, l)
  | op :: ops => '(all, l) ← do_priced op all l; do_priceds ops all l
  end.

Definition added (ops : list priced_op) : list Transaction := omap (λ op, match op with PAdd tx _ => Some tx | _ => None end) ops.

(** Transactions are of bounded size, hashes do not collide, and [Discard] is asked for a number of slots. *)
Definition distinct_hashes (txs : list Transaction) : Prop :=
  Forall (λ t1, Forall (λ t2, tx_Hash t1 = tx_Hash t2 → tx_data t1 = tx_data t2) txs) txs.
Definition priced_op_ok (op : priced_op) : Prop :=
  match op with PAdd tx _ => small tx | PDiscard slots _ => 0 ≤ slots < 2 ^ 63 | _ => True end.

(** Every remote transaction of the lookup is in the heap; [T] are the transactions ever added. *)
Record priced_inv (T : list Transaction) (all : txLookup) (h : list Transaction) : Prop := {
  pi_heap : heap_ok price_less h;
  pi_in e : e ∈ h → e ∈ T;
  pi_small : Forall small T;
  pi_hash hash r : remotes all !! hash = Some r → hash = tx_Hash r ∧ r ∈ T ∧ ∃ e, e ∈ h ∧ tx_data e = tx_data r
}.

Lemma tx_Hash_data t1 t2 : tx_data t1 = tx_data t2 → tx_Hash t1 = tx_Hash t2.
Proof. unfold tx_Hash. by intros ->. Qed.
Lemma live_data all t1 t2 : tx_data t1 = tx_data t2 → live all t1 → live all t2.
Proof. unfold live. by intros ->%tx_Hash_data. Qed.

(** A smaller lookup has no more in the heap. *)
Lemma priced_inv_sub T all all' h : remotes all' ⊆ remotes all → priced_inv T all h → priced_inv T all' h.
Proof.
  intros Hsub [I1 I2 I3 I4]. split; [done..|]. intros hash r Hr. apply I4. by apply (lookup_weaken _ (remotes all)) in Hr.
Qed.
Lemma lookup_Remove_sub hash all : remotes (lookup_Remove hash all) ⊆ remotes all.
Proof. unfold lookup_Remove. destruct (lookup_Get hash all); cbn; [apply delete_subseteq|done]. Qed.
Lemma remove_all_sub txs all : remotes (remove_all txs all) ⊆ remotes all.
Proof. revert all. induction txs as [|tx txs IH]; intros all; cbn; [done|]. etrans; [apply IH|apply lookup_Remove_sub]. Qed.
Lemma lookup_Remove_gone hash all : remotes (lookup_Remove hash all) !! hash = None.
Proof.
  unfold lookup_Remove. destruct (lookup_Get hash all) eqn:E; cbn; [apply lookup_delete_eq|]. unfold lookup_Get in E. by destruct (locals all !! hash).
Qed.
Lemma remove_all_gone txs all tx : tx ∈ txs → remotes (remove_all txs all) !! tx_Hash tx = None.
Proof.
  revert all. induction txs as [|t txs IH]; intros all; [by intros ?%not_elem_of_nil|]. intros [->|Hin]%elem_of_cons; cbn; [|by apply IH].
  destruct (remotes (remove_all txs (lookup_Remove (tx_Hash t) all)) !! tx_Hash t) eqn:E; [|done].
  apply (lookup_weaken _ (remotes (lookup_Remove (tx_Hash t) all))) in E; [|apply remove_all_sub]. by rewrite lookup_Remove_gone in E.
Qed.

(** The invariant after entries were taken off the heap and out of the lookup. *)
Lemma priced_inv_taken T all h taken kept :
  priced_inv T all h → splits all h taken kept → heap_ok price_less kept → priced_inv T (remove_all taken all) kept.
Proof.
  intros [I1 I2 I3 I4] Hsp Hk. split; [done| |done|].
  - intros e He. apply I2, (splits_sub _ _ _ _ _ Hsp). by right.
  - intros hash r Hr. pose proof (lookup_weaken _ _ _ _ Hr (remove_all_sub taken all)) as Hr0. destruct (I4 _ _ Hr0) as (-> & HT & e & He & Ed).
    split; [done|]. split; [done|]. exists e. split; [|done]. assert (Hl : live all e) by (apply (live_data _ r); [done|by eexists]).
    destruct (splits_live _ _ _ _ _ Hsp He Hl) as [Ht|?]; [|done]. apply (remove_all_gone _ all) in Ht. rewrite (tx_Hash_data _ _ Ed) in Ht. congruence.
Qed.

Lemma pushes_ok drop h :
  heap_ok price_less h →
  heap_ok price_less (foldl (λ h tx, heap_Push price_less tx h) h drop) ∧ foldl (λ h tx, heap_Push price_less tx h) h drop ≡ₚ drop ++ h.
Proof.
  revert h. induction drop as [|d drop IH]; intros h Hh; cbn; [done|]. destruct (heap_Push_ok price_less price_asym price_trans d h Hh) as [Hh' Hp].
  destruct (IH _ Hh') as [? Hp']. split; [done|]. rewrite Hp', Hp. symmetry. apply Permutation_middle.
Qed.

Lemma Reheap_inv T all l : priced_inv T all (heap l) → priced_inv T all (heap (Reheap all l)).
Proof.
  intros [I1 I2 I3 I4]. cbn. destruct (heap_Init_ok price_less price_asym price_trans (range_txs (remotes all)).*2) as [Hh Hp].
  assert (Hin : ∀ e, e ∈ heap_Init price_less (range_txs (remotes all)).*2 ↔ ∃ hash, remotes all !! hash = Some e).
  { intros e. rewrite Hp, range_txs_perm, list_elem_of_fmap. setoid_rewrite <-elem_of_map_to_list. split; [intros ([hash r] & -> & ?); by exists hash|intros [hash ?]; by exists (hash, e)]. }
  split; [done| |done|].
  - intros e [hash He]%Hin. by apply I4 in He as (_ & ? & _).
  - intros hash r Hr. destruct (I4 _ _ Hr) as (-> & ? & _). split_and!; [done|done|]. exists r. split; [|done]. apply Hin. by exists (tx_Hash r).
Qed.
Lemma Removed_inv T all count l : priced_inv T all (heap l) → priced_inv T all (heap (Removed all count l)).
Proof. intros Hi. unfold Removed. case_match; [done|by apply Reheap_inv]. Qed.

Lemma RemoteToLocals_sub s all : remotes (RemoteToLocals s all).2 ⊆ remotes all.
Proof.
  unfold RemoteToLocals. generalize (range_txs (remotes all)) as xs, 0 as n. intros xs. revert all.
  induction xs as [|[hash tx] xs IH]; intros all n; cbn; [done|]. destruct (containsTx tx s); [|apply IH]. etrans; [apply IH|apply delete_subseteq].
Qed.

Lemma Underpriced_ok T all tx l :
  priced_inv T all (heap l) →
  ∃ l', Underpriced all tx l = Some (match heap l' with [] => false | c :: _ => tx_Price tx <=? tx_Price c end, l') ∧ priced_inv T all (heap l')
  ∧ splits all (heap l) [] (heap l')
  ∧ match heap l' with [] => True | c :: _ => live all c ∧ ∀ e, e ∈ heap l' → tx_Price c ≤ tx_Price e end.
Proof.
  intros Hi. unfold Underpriced. destruct (fresh_head_ok (length (heap l)) all l (pi_heap _ _ _ Hi)) as (l' & E & Hh & Hsp & Hhd); [done|].
  rewrite E. cbn [mbind option_bind]. exists l'. split_and!; [by destruct (heap l')| |done|done]. by apply (priced_inv_taken _ _ _ _ _ Hi Hsp).
Qed.

Lemma Discard_ok T all slots force l :
  priced_inv T all (heap l) → 0 ≤ slots < 2 ^ 63 →
  ∃ drop h' st, discards all slots (heap l) drop h' ∧ heap_ok price_less h' ∧
    if (0 <? slots - slots_of drop) && negb force
    then ∃ h'', Discard all slots force l = Some ([], false, MkPriced h'' st) ∧ heap_ok price_less h'' ∧ h'' ≡ₚ drop ++ h'
    else Discard all slots force l = Some (drop, true, MkPriced h' st).
Proof.
  intros Hi Hs. unfold Discard. destruct (Z.ltb_spec slots 0) as [|_]; [lia|].
  assert (Hsm : Forall small (heap l)) by (apply Forall_forall; intros e He; pose proof (pi_small _ _ _ Hi) as Hsm; rewrite Forall_forall in Hsm; by apply Hsm, (pi_in _ _ _ Hi)).
  destruct (discard_loop_ok (length (heap l)) all slots l (pi_heap _ _ _ Hi) Hsm) as (drop & [h' st] & E & Hh & Hd); [done|lia|].
  rewrite E. cbn [mbind option_bind heap stales] in *. exists drop, h', st. split_and!; [done|done|]. destruct (_ && _); [|done].
  destruct (pushes_ok drop h' Hh). eexists. by split_and!.
Qed.

(** No transaction has two entries. *)
Definition once (h : list Transaction) : Prop := NoDup (tx_Hash <$> h).

Lemma once_perm h h' : h ≡ₚ h' → once h → once h'.
Proof. unfold once. by intros ->. Qed.
Lemma once_splits all h taken kept : splits all h taken kept → once h → once taken ∧ once kept ∧ once (taken ++ kept).
Proof.
  intros (stale & Hp & _). unfold once. rewrite <-Hp, !fmap_app, !NoDup_app. setoid_rewrite elem_of_app. naive_solver.
Qed.
Lemma once_remotes T all h : priced_inv T all h → once (map_to_list (remotes all)).*2.
Proof.
  intros Hi. unfold once. rewrite <-list_fmap_compose. replace ((tx_Hash ∘ snd) <$> map_to_list (remotes all)) with (map_to_list (remotes all)).*1; [apply NoDup_fst_map_to_list|].
  apply list_fmap_ext. intros i [hash r] Hl. apply list_elem_of_lookup_2, elem_of_map_to_list in Hl. by apply (pi_hash _ _ _ Hi) in Hl as [-> _].
Qed.
Lemma once_Removed T all count l : priced_inv T all (heap l) → once (heap l) → once (heap (Removed all count l)).
Proof.
  intros Hi Ho. unfold Removed. case_match; [done|]. cbn. eapply once_perm; [symmetry; apply (heap_Init_ok price_less price_asym price_trans)|].
  eapply once_perm; [|by apply (once_remotes _ _ _ Hi)]. by rewrite range_txs_perm.
Qed.

Lemma do_priced_ok T op all l :
  priced_inv T all (heap l) → priced_op_ok op → (match op with PAdd tx _ => tx ∈ T | _ => True end) →
  ∃ all' l', do_priced op all l = Some (all', l') ∧ priced_inv T all' (heap l')
  ∧ (once (heap l) → (match op with PAdd tx _ => tx_Hash tx ∉ tx_Hash <$> heap l | _ => True end) → once (heap l')).
Proof.
  intros Hi Hop HT. destruct op as [tx local|hash|count|s|tx|thr|slots force]; cbn [do_priced].
  - eexists _, _. split; [done|]. destruct Hi as [I1 I2 I3 I4]. destruct local; cbn; [split; [by split|done]|].
    destruct (heap_Push_ok price_less price_asym price_trans tx _ I1) as [Hh Hp]. split.
    + split; [done| |done|].
      * intros e. rewrite Hp. intros [->|?]%elem_of_cons; [done|by apply I2].
      * cbn [remotes]. intros hash r. setoid_rewrite Hp. intros [[<- <-]|[_ Hr]]%lookup_insert_Some; [set_solver|]. destruct (I4 _ _ Hr) as (? & ? & e & ? & ?). set_solver.
    + intros Ho Hni. eapply once_perm; [symmetry; exact Hp|]. by constructor.
  - eexists _, _. split; [done|]. split; [|done]. apply (priced_inv_sub _ all); [apply lookup_Remove_sub|done].
  - eexists _, _. split; [done|]. split; [by apply Removed_inv|]. intros Ho _. by apply (once_Removed T).
  - pose proof (RemoteToLocals_sub s all) as Hsub. destruct (RemoteToLocals s all) as [n all']. eexists _, _. split; [done|].
    assert (Hi' : priced_inv T all' (heap l)) by (by apply (priced_inv_sub _ all)). split; [by apply Removed_inv|]. intros Ho _. by apply (once_Removed T).
  - destruct (Underpriced_ok T all tx l Hi) as (l' & E & Hi' & Hsp & _). rewrite E. eexists _, _. split_and!; [done|done|]. intros Ho _. by apply (once_splits _ _ _ _ Hsp).
  - destruct (priced_cap_loop_ok (length (heap l)) all thr l (pi_heap _ _ _ Hi)) as (drop & l' & E & Hh & Hsp & _); [done|].
    unfold priced_Cap. rewrite E. eexists _, _. split_and!; [done|by apply (priced_inv_taken _ _ _ _ _ Hi Hsp)|]. intros Ho _. by apply (once_splits _ _ _ _ Hsp).
  - destruct (Discard_ok T all slots force l Hi Hop) as (drop & h' & st & [Hsp _ _ _ _] & Hh & E).
    destruct (_ && _); [destruct E as (h'' & E & Hh'' & Hp)|]; rewrite E; eexists _, _; (split; [done|]); cbn [heap].
    + split; [|intros Ho _; eapply once_perm; [symmetry; exact Hp|]; by apply (once_splits _ _ _ _ Hsp)].
      apply (priced_inv_taken _ _ _ [] _ Hi); [|done]. destruct Hsp as (stale & Hp' & Hst). exists stale. split; [|done]. rewrite Hp, <-Hp'. cbn.
      rewrite !(assoc_L (++)). by rewrite (Permutation_app_comm stale drop).
    + split; [by apply (priced_inv_taken _ _ _ _ _ Hi Hsp)|]. intros Ho _. by apply (once_splits _ _ _ _ Hsp).
Qed.

Lemma do_priceds_ok T ops all l :
  priced_inv T all (heap l) → Forall priced_op_ok ops → added ops ⊆ T →
  ∃ all' l', do_priceds ops all l = Some (all', l') ∧ priced_inv T all' (heap l').
Proof.
  revert all l. induction ops as [|op ops IH]; intros all l Hi Hops HT; [by exists all, l|]. apply Forall_cons in Hops as [Hop Hops].
  destruct (do_priced_ok T op all l Hi Hop) as (all' & l' & E & Hi' & _); [destruct op; try done; apply HT; cbn; set_solver|].
  cbn [do_priceds]. rewrite E. cbn [mbind option_bind]. apply IH; [done|done|]. destruct op; cbn in HT; set_solver.
Qed.

Lemma added_small ops : Forall priced_op_ok ops → Forall small (added ops).
Proof. induction 1 as [|op ops Hop _ IH]; [constructor|]. destruct op; cbn; [by constructor|done..]. Qed.

Lemma run_priced ops :
  Forall priced_op_ok ops →
  ∃ all l, do_priceds ops newTxLookup newTxPricedList = Some (all, l) ∧ priced_inv (added ops) all (heap l).
Proof.
  intros Hops. apply do_priceds_ok; [|done|done]. split; [intros k; cbn; lia|by intros e ?%not_elem_of_nil|by apply added_small|].
  intros hash r. cbn. by rewrite lookup_empty.
Qed.

(** A live entry of the heap has the data of the transaction in the lookup. *)
Lemma live_lookup T all h e :
  distinct_hashes T → priced_inv T all h → e ∈ h → live all e → ∃ r, remotes all !! tx_Hash e = Some r ∧ tx_data r = tx_data e.
Proof.
  intros Hdis Hi He [r Hr]. exists r. split; [done|]. destruct (pi_hash _ _ _ Hi _ _ Hr) as (Eh & HT & _).
  unfold distinct_hashes in Hdis. rewrite Forall_forall in Hdis. specialize (Hdis r HT). rewrite Forall_forall in Hdis. apply Hdis; [by apply (pi_in _ _ _ Hi)|done].
Qed.
Lemma Price_data t1 t2 : tx_data t1 = tx_data t2 → tx_Price t1 = tx_Price t2.
Proof. unfold tx_Price. by intros ->. Qed.

Definition cheapest_than (all : txLookup) (tx : Transaction) : Prop :=
  remotes all ≠ ∅ ∧ map_Forall (λ _ r, tx_Price tx ≤ tx_Price r) (remotes all).
#[global] Instance cheapest_than_dec all tx : Decision (cheapest_than all tx).
Proof. unfold cheapest_than. apply _. Defined.

Lemma head_answers T all tx h :
  distinct_hashes T → priced_inv T all h →
  match h with [] => True | c :: _ => live all c ∧ ∀ e, e ∈ h → tx_Price c ≤ tx_Price e end →
  match h with [] => false | c :: _ => tx_Price tx <=? tx_Price c end = bool_decide (cheapest_than all tx).
Proof.
  intros Hdis Hi Hhd. destruct h as [|c h].
  - symmetry. apply bool_decide_eq_false. intros [Hne _]. apply map_choose in Hne as (hash & r & Hr). apply (pi_hash _ _ _ Hi) in Hr as (_ & _ & e & He & _). by apply not_elem_of_nil in He.
  - destruct Hhd as [Hc Hmin]. destruct (live_lookup _ _ _ _ Hdis Hi (proj2 (elem_of_cons h c c) (or_introl eq_refl)) Hc) as (r & Hr & Ed). apply eq_true_iff_eq. rewrite Z.leb_le, bool_decide_eq_true. split.
    + intros Hle. split; [intros E; rewrite E, lookup_empty in Hr; done|]. intros hash r' Hr'. apply (pi_hash _ _ _ Hi) in Hr' as (_ & _ & e & He & Ee).
      specialize (Hmin e He). rewrite (Price_data _ _ Ee) in Hmin. lia.
    + intros [_ Hall]. specialize (Hall _ _ Hr). cbn in Hall. rewrite (Price_data _ _ Ed) in Hall. done.
Qed.

Lemma cap_answers T all threshold h drop h' :
  distinct_hashes T → priced_inv T all h → splits all h drop h' →
  Forall (λ d, live all d ∧ tx_Price d < threshold) drop → Forall (λ e, threshold ≤ tx_Price e) h' →
  ∀ hash, hash ∈ tx_Hash <$> drop ↔ ∃ r, remotes all !! hash = Some r ∧ tx_Price r < threshold.
Proof.
  intros Hdis Hi Hsp Hd Hk hash. rewrite Forall_forall in Hd, Hk. rewrite list_elem_of_fmap. split.
  - intros (d & -> & Hin). destruct (Hd d Hin) as [Hl Hp]. destruct (live_lookup _ _ _ _ Hdis Hi (splits_sub _ _ _ _ _ Hsp (or_introl Hin)) Hl) as (r & Hr & Ed).
    exists r. split; [done|]. by rewrite (Price_data _ _ Ed).
  - intros (r & Hr & Hp). destruct (pi_hash _ _ _ Hi _ _ Hr) as (-> & _ & e & He & Ed). exists e. split; [symmetry; by apply tx_Hash_data|].
    assert (Hl : live all e) by (apply (live_data _ r); [done|by eexists]). destruct (splits_live _ _ _ _ _ Hsp He Hl) as [?|Hin]; [done|].
    specialize (Hk e Hin). cbn in Hk. rewrite (Price_data _ _ Ed) in Hk. lia.
Qed.

(** C27: the list of remote transactions by price answers for the pool, however many stale entries its heap has.  After any use by the pool, [Underpriced] says whether there is a remote transaction and all of them pay at least as much as the given one, and [Cap] gives up exactly the remote transactions that pay less than the threshold. *)
Theorem priced_list_exact (ops : list priced_op) (tx : Transaction) (threshold : Z) :
  Forall priced_op_ok ops → distinct_hashes (added ops) →
  ∃ all l, do_priceds ops newTxLookup newTxPricedList = Some (all, l)
  ∧ (∃ l', Underpriced all tx l = Some (bool_decide (cheapest_than all tx), l'))
  ∧ (∃ drop l', priced_Cap all threshold l = Some (drop, l')
     ∧ ∀ hash, hash ∈ tx_Hash <$> drop ↔ ∃ r, remotes all !! hash = Some r ∧ tx_Price r < threshold).
Proof.
  intros Hops Hdis. destruct (run_priced ops Hops) as (all & l & E & Hi). exists all, l. split_and!; [done| |].
  - destruct (Underpriced_ok _ all tx l Hi) as (l' & Eu & Hi' & _ & Hhd). exists l'. rewrite Eu. do 2 f_equal. by apply (head_answers _ _ _ _ Hdis Hi').
  - destruct (priced_cap_loop_ok (length (heap l)) all threshold l (pi_heap _ _ _ Hi)) as (drop & l' & Ec & _ & Hsp & Hd & Hk); [done|].
    exists drop, l'. split; [done|]. by apply (cap_answers _ _ _ _ _ _ Hdis Hi Hsp).
Qed.

(** ** Slots *)

Lemma numSlots_data t1 t2 : tx_data t1 = tx_data t2 → numSlots t1 = numSlots t2.
Proof. unfold numSlots, tx_Size. by intros ->. Qed.

Lemma slots_of_perm l1 l2 : l1 ≡ₚ l2 → slots_of l1 = slots_of l2.
Proof. induction 1; rewrite ?slots_of_cons in *; lia. Qed.

(** A list whose distinct hashes all occur in another list has no more slots. *)
Lemma slots_of_le rs ds :
  NoDup (tx_Hash <$> rs) → Forall small ds → (∀ r, r ∈ rs → ∃ d, d ∈ ds ∧ tx_data d = tx_data r) → slots_of rs ≤ slots_of ds.
Proof.
  revert ds. induction rs as [|r rs IH]; intros ds Hnd Hsm Hin.
  { clear -Hsm. cbn [slots_of foldr]. induction Hsm as [|d ds Hd _ IH]; [done|]. rewrite slots_of_cons. pose proof (numSlots_range d Hd). lia. }
  rewrite fmap_cons in Hnd. apply NoDup_cons in Hnd as [Hni Hnd].
  destruct (Hin r) as (d & (A & B & ->)%list_elem_of_split & Ed); [set_solver|]. rewrite <-Permutation_middle in Hsm. apply Forall_cons in Hsm as [_ Hsm].
  rewrite <-(slots_of_perm _ _ (Permutation_middle A B d)), !slots_of_cons, (numSlots_data _ _ Ed).
  specialize (IH (A ++ B) Hnd Hsm). apply Z.add_le_mono_l, IH. intros r' Hr'. destruct (Hin r') as (d' & Hd' & Ed'); [set_solver|]. exists d'. split; [|done].
  rewrite elem_of_app, elem_of_cons in Hd'. destruct Hd' as [?|[->|?]]; [set_solver| |set_solver].
  exfalso. apply Hni. rewrite (tx_Hash_data r r') by congruence. by apply list_elem_of_fmap_2.
Qed.

(** A remote transaction is among the dropped ones or still in the heap. *)
Lemma remote_split T all h drop h' hash r :
  priced_inv T all h → splits all h drop h' → remotes all !! hash = Some r →
  hash = tx_Hash r ∧ ∃ e, tx_data e = tx_data r ∧ (e ∈ drop ∨ e ∈ h').
Proof.
  intros Hi Hsp Hr. destruct (pi_hash _ _ _ Hi _ _ Hr) as (-> & _ & e & He & Ed). split; [done|]. exists e. split; [done|].
  apply (splits_live _ _ _ _ _ Hsp He). apply (live_data _ r); [done|by eexists].
Qed.

(** *** When no transaction is added twice *)

Lemma priced_inv_mono T T' all h : T ⊆ T' → Forall small T' → priced_inv T all h → priced_inv T' all h.
Proof. intros Hsub Hsm [I1 I2 I3 I4]. split; [done|by intros e ?%I2%Hsub|done|]. intros hash r Hr. destruct (I4 _ _ Hr) as (? & ?%Hsub & ?). done. Qed.

Lemma do_priceds_once T ops all l :
  priced_inv T all (heap l) → Forall priced_op_ok ops → once (T ++ added ops) → once (heap l) →
  ∃ all' l', do_priceds ops all l = Some (all', l') ∧ once (heap l').
Proof.
  revert T all l. induction ops as [|op ops IH]; intros T all l Hi Hops HT Ho; [by exists all, l|]. apply Forall_cons in Hops as [Hop Hops].
  assert (Ea : added (op :: ops) = added [op] ++ added ops) by (by destruct op). rewrite Ea, (assoc_L (++)) in HT.
  assert (Hi1 : priced_inv (T ++ added [op]) all (heap l)).
  { apply (priced_inv_mono T); [set_solver| |done]. apply Forall_app. split; [apply Hi|]. destruct op; cbn in *; by repeat constructor. }
  destruct (do_priced_ok (T ++ added [op]) op all l Hi1 Hop) as (all' & l' & E & Hi' & Ho'); [destruct op; cbn; set_solver|].
  cbn [do_priceds]. rewrite E. cbn [mbind option_bind]. apply (IH (T ++ added [op])); [done|done|done|]. apply Ho'; [done|]. destruct op as [tx local| | | | | |]; try done.
  unfold once in HT. rewrite !fmap_app, !NoDup_app in HT. destruct HT as ((_ & Hdis & _) & _ & _). intros (e & Ee & He)%list_elem_of_fmap.
  apply (Hdis (tx_Hash tx)); [|cbn; set_solver]. rewrite Ee. apply list_elem_of_fmap_2. by apply (pi_in _ _ _ Hi).
Qed.

Lemma once_distinct T : once T → distinct_hashes T.
Proof.
  intros Ho. apply Forall_forall. intros t1 [i Hi]%list_elem_of_lookup. apply Forall_forall. intros t2 [j Hj]%list_elem_of_lookup E.
  assert (i = j) as -> by (eapply NoDup_lookup; [exact Ho| |]; rewrite list_lookup_fmap, ?Hi, ?Hj; cbn; by rewrite ?E). congruence.
Qed.

(** The slots of the remote transactions in the lookup. *)
Definition remote_slots (all : txLookup) : Z := slots_of (map_to_list (remotes all)).*2.

Lemma remote_slots_delete all hash r : remotes all !! hash = Some r → remote_slots (lookup_Remove hash all) = remote_slots all - numSlots r.
Proof.
  intros Hr. unfold remote_slots. assert (E : remotes (lookup_Remove hash all) = delete hash (remotes all)).
  { unfold lookup_Remove, lookup_Get. destruct (locals all !! hash); [done|]. by rewrite Hr. }
  rewrite E. assert (Hp : (map_to_list (remotes all)).*2 ≡ₚ r :: (map_to_list (delete hash (remotes all))).*2) by (by rewrite <-(map_to_list_delete _ _ _ Hr)).
  rewrite (slots_of_perm _ _ Hp), slots_of_cons. lia.
Qed.
Lemma lookup_Remove_other hash hash' all : hash ≠ hash' → remotes (lookup_Remove hash all) !! hash' = remotes all !! hash'.
Proof. intros Hne. unfold lookup_Remove. destruct (lookup_Get hash all); cbn; [by rewrite lookup_delete_ne|done]. Qed.

Lemma remote_slots_freed drop all :
  once drop → Forall (λ d, ∃ r, remotes all !! tx_Hash d = Some r ∧ tx_data r = tx_data d) drop →
  remote_slots (remove_all drop all) = remote_slots all - slots_of drop.
Proof.
  revert all. induction drop as [|d drop IH]; intros all Ho Hin; [cbn; lia|]. apply NoDup_cons in Ho as [Hni Ho]. apply Forall_cons in Hin as [(r & Hr & Ed) Hin].
  cbn [remove_all foldl]. fold (remove_all drop (lookup_Remove (tx_Hash d) all)). rewrite slots_of_cons, IH; [|done|].
  - rewrite (remote_slots_delete _ _ _ Hr), (numSlots_data _ _ Ed). lia.
  - rewrite Forall_forall in *. intros x Hx. destruct (Hin x Hx) as (r' & Hr' & Ex). exists r'. split; [|done]. rewrite lookup_Remove_other; [done|].
    intros E. apply Hni. rewrite E. by apply list_elem_of_fmap_2.
Qed.

Lemma discards_freed ops all l slots drop h' :
  Forall priced_op_ok ops → do_priceds ops newTxLookup newTxPricedList = Some (all, l) → priced_inv (added ops) all (heap l) →
  discards all slots (heap l) drop h' → once (added ops) → remote_slots (remove_all drop all) = remote_slots all - slots_of drop.
Proof.
  intros Hops E Hi Hd Ho. destruct (do_priceds_once [] ops newTxLookup newTxPricedList) as (all1 & l1 & E1 & Ho1); [|done|done|constructor|].
  { split; [intros k; cbn; lia|by intros e ?%not_elem_of_nil|constructor|]. intros hash r. cbn. by rewrite lookup_empty. }
  rewrite E in E1. injection E1 as <- <-. apply remote_slots_freed; [by apply (once_splits _ _ _ _ (dc_splits _ _ _ _ _ Hd))|].
  apply Forall_forall. intros d Hin. apply (live_lookup (added ops) _ (heap l)); [by apply once_distinct|done| |].
  - apply (splits_sub _ _ _ _ _ (dc_splits _ _ _ _ _ Hd)). by left.
  - pose proof (dc_live _ _ _ _ _ Hd) as Hl. rewrite Forall_forall in Hl. by apply Hl.
Qed.

(** C18: [Discard] makes room in the pool at the expense of the cheapest remote transactions.  What it gives up are remote transactions, no remote transaction that stays pays less than one that goes, and one entry fewer would not have been enough.  It counts the slots of a transaction once for each of its entries in the heap, and a transaction that left the pool and was added again may have two.  By that count it succeeds when the dropped slots are enough, or when it is forced and has dropped everything; otherwise the remote transactions together have too few slots, and none is dropped or lost from the list.  When no transaction was added twice, the count is right: removing what was dropped frees that many slots of the pool. *)
Theorem Discard_cheapest (ops : list priced_op) (slots : Z) (force : bool) :
  Forall priced_op_ok ops → 0 ≤ slots < 2 ^ 63 →
  ∃ all l drop success l', do_priceds ops newTxLookup newTxPricedList = Some (all, l) ∧ Discard all slots force l = Some (drop, success, l')
  ∧ Forall (live all) drop
  ∧ (∀ d hash r, d ∈ drop → remotes all !! hash = Some r → hash ∈ tx_Hash <$> drop ∨ tx_Price d ≤ tx_Price r)
  ∧ (∀ init d, drop = init ++ [d] → slots_of init < slots)
  ∧ (if success then slots ≤ slots_of drop ∨ force = true ∧ ∀ hash, is_Some (remotes all !! hash) → hash ∈ tx_Hash <$> drop
     else drop = [] ∧ remote_slots all < slots ∧ ∀ hash r, remotes all !! hash = Some r → ∃ e, e ∈ heap l' ∧ tx_data e = tx_data r)
  ∧ (NoDup (tx_Hash <$> added ops) → remote_slots (remove_all drop all) = remote_slots all - slots_of drop).
Proof.
  intros Hops Hs. destruct (run_priced ops Hops) as (all & l & E & Hi). destruct (Discard_ok _ all slots force l Hi Hs) as (drop & h' & st & Hd & Hh & ED).
  pose proof Hd as [D1 D2 D3 D4 D5]. destruct ((0 <? slots - slots_of drop) && negb force) eqn:Ef.
  - destruct ED as (h'' & ED & _ & Hp). exists all, l, [], false, (MkPriced h'' st). apply andb_true_iff in Ef as [Ef%Z.ltb_lt _].
    split_and!; [done|done|constructor|by intros d hash r ?%not_elem_of_nil|by intros [|] ?|done| | |intros _; cbn; lia].
    + unfold remote_slots. destruct D5 as [?| ->]; [lia|]. cut (slots_of (map_to_list (remotes all)).*2 ≤ slots_of drop); [lia|]. apply slots_of_le; [by apply (once_remotes _ _ _ Hi)| |].
      * apply Forall_forall. intros d Hin. pose proof (pi_small _ _ _ Hi) as Hsm. rewrite Forall_forall in Hsm. apply Hsm, (pi_in _ _ _ Hi), (splits_sub _ _ _ _ _ D1). by left.
      * intros r ([hash r'] & -> & Hr%elem_of_map_to_list)%list_elem_of_fmap. destruct (remote_split _ _ _ _ _ _ _ Hi D1 Hr) as (_ & e & ? & [?|?%not_elem_of_nil]); [by eauto|done].
    + intros hash r Hr. destruct (remote_split _ _ _ _ _ _ _ Hi D1 Hr) as (_ & e & ? & He). exists e. split; [|done]. cbn. by rewrite Hp, elem_of_app.
  - exists all, l, drop, true, (MkPriced h' st). split_and!; [done|done|done| |done| |by apply (discards_freed ops all l slots drop h')].
    + intros d hash r Hin Hr. destruct (remote_split _ _ _ _ _ _ _ Hi D1 Hr) as (-> & e & Ed & [He|He]); [left|right].
      * rewrite <-(tx_Hash_data _ _ Ed). by apply list_elem_of_fmap_2.
      * rewrite <-(Price_data _ _ Ed). by apply D3.
    + apply andb_false_iff in Ef as [Ef%Z.ltb_ge|Ef]; [left; lia|]. destruct D5 as [?| ->]; [by left|right]. split; [by destruct force|].
      intros hash [r Hr]. destruct (remote_split _ _ _ _ _ _ _ Hi D1 Hr) as (-> & e & Ed & [He|?%not_elem_of_nil]); [|done]. rewrite <-(tx_Hash_data _ _ Ed). by apply list_elem_of_fmap_2.
Qed.
End priced.
