(* ===== verification/TxOrderProps.v ===== *)
(** * The order in which transactions are offered to a block

    [TransactionsByPriceAndNonce] keeps, for every account, its next
    transaction in a heap by price and the others in a queue.  The theorem
    gives the order in which [Peek], [Shift] and [Pop] hand them out. *)
From stdpp Require Import sorting.
From S2P Require Import Prelude RlpEncode Params ChainConfig StateDB VmBase Precompiles Evm StateTransition Transaction GoHeap TxList TxPriced.
Local Open Scope Z_scope.

Lemma by_price_asym x y : by_price_and_time x y = true → by_price_and_time y x = false.
Proof.
  unfold by_price_and_time. rewrite (Z.compare_antisym (tx_Price (timed_tx x)) (tx_Price (timed_tx y))).
  destruct (Z.compare_spec (tx_Price (timed_tx x)) (tx_Price (timed_tx y))); cbn; try done; lia.
Qed.
Lemma by_price_trans x y z : by_price_and_time y x = false → by_price_and_time z y = false → by_price_and_time z x = false.
Proof.
  unfold by_price_and_time. destruct (Z.compare_spec (tx_Price (timed_tx y)) (tx_Price (timed_tx x))), (Z.compare_spec (tx_Price (timed_tx z)) (tx_Price (timed_tx y))),
    (Z.compare_spec (tx_Price (timed_tx z)) (tx_Price (timed_tx x))); try done; lia.
Qed.

Section order.
Context {CR : Crypto}.

(** A block is filled: the best transaction is looked at, and then it is
    replaced by the next one of its account ([Shift]) or, when it cannot be
    executed, its account is dropped ([Pop]).  [keep] is the decision. *)
Fixpoint fill (fuel : nat) (keep : timed → bool) (t : TransactionsByPriceAndNonce) : option (list timed) :=
  match Peek t with
  | None => Some []
  | Some tx =>
      match fuel with
      | O => None
      | S fuel =>
          t ← (if keep tx then Shift t else by_Pop t);
          rest ← fill fuel keep t;
          Some (tx :: rest)
      end
  end.

(** What is offered of an account: its transactions up to the first one that is not kept. *)
Fixpoint offered (keep : timed → bool) (l : list timed) : list timed :=
  match l with
  | [] => []
  | tx :: l => if keep tx then tx :: offered keep l else [tx]
  end.

(** [Q] has the transactions of the accounts that are still to be offered. *)
Record queued (Q : gmap Address (list timed)) (t : TransactionsByPriceAndNonce) : Prop := {
  qu_heap : heap_ok by_price_and_time (heads t);
  qu_heads : Some <$> heads t ≡ₚ head <$> (map_to_list Q).*2;
  qu_rest a tx l : Q !! a = Some (tx :: l) → by_txs t !! a = Some l;
  qu_sender a l tx : Q !! a = Some l → tx ∈ l → sender_of (by_signer t) tx = a
}.

Lemma queued_head Q t tx hs :
  queued Q t → heads t = tx :: hs → ∃ l, Q !! sender_of (by_signer t) tx = Some (tx :: l).
Proof.
  intros [_ Hp Hr Hsd] E. assert (Hin : Some tx ∈ head <$> (map_to_list Q).*2) by (rewrite <-Hp, E; set_solver).
  apply list_elem_of_fmap in Hin as (l & El & ([a l'] & -> & Hl%elem_of_map_to_list)%list_elem_of_fmap). cbn in El, Hl. destruct l' as [|x l]; [done|]. injection El as <-.
  exists l. by rewrite (Hsd a (tx :: l) tx Hl (proj2 (elem_of_cons l tx tx) (or_introl eq_refl))).
Qed.

Lemma queued_rest Q t tx hs l :
  queued Q t → heads t = tx :: hs → Q !! sender_of (by_signer t) tx = Some (tx :: l) →
  Some <$> hs ≡ₚ head <$> (map_to_list (delete (sender_of (by_signer t) tx) Q)).*2.
Proof.
  intros [_ Hp _ _] E HQ. rewrite E, <-(map_to_list_delete _ _ _ HQ) in Hp. cbn in Hp. by apply Permutation_cons_inv in Hp.
Qed.

Lemma pop_queued Q t tx hs :
  queued Q t → heads t = tx :: hs → ∃ t', by_Pop t = Some t' ∧ by_signer t' = by_signer t ∧ queued (delete (sender_of (by_signer t) tx) Q) t'.
Proof.
  intros Hq E. destruct (queued_head _ _ _ _ Hq E) as [l HQ]. pose proof (queued_rest _ _ _ _ _ Hq E HQ) as Hrest. destruct Hq as [Hh Hp Hr Hsd].
  destruct (heap_Pop_ok by_price_and_time by_price_asym by_price_trans _ Hh) as (x & h' & Ep & Hx & Hh' & Hp'); [by rewrite E|]. rewrite E in Hx, Hp'. cbn in Hx. injection Hx as <-.
  apply Permutation_cons_inv in Hp'. unfold by_Pop. rewrite Ep. cbn [mbind option_bind]. eexists. split_and!; [done|done|]. split; cbn; [done|by rewrite Hp'| |].
  - intros a y k [_ ?]%lookup_delete_Some. by apply (Hr a y).
  - intros a k y [_ ?]%lookup_delete_Some. by apply Hsd.
Qed.

Lemma shift_queued Q t tx hs next l :
  queued Q t → heads t = tx :: hs → Q !! sender_of (by_signer t) tx = Some (tx :: next :: l) →
  ∃ t', Shift t = Some t' ∧ by_signer t' = by_signer t ∧ queued (<[sender_of (by_signer t) tx := next :: l]> Q) t'.
Proof.
  intros Hq E HQ. pose proof (queued_rest _ _ _ _ _ Hq E HQ) as Hrest. destruct Hq as [Hh Hp Hr Hsd].
  destruct (heap_Fix_ok by_price_and_time by_price_asym by_price_trans 0 next _ Hh) as [Hh' Hp']; [rewrite E; cbn; lia|].
  unfold Shift. rewrite E in *. cbn [lookup list_lookup mbind option_bind]. rewrite (Hr _ _ _ HQ). eexists. split_and!; [done|done|]. split; cbn [heads by_txs by_signer]; [done| | |].
  - rewrite Hp'. cbn. rewrite <-insert_delete_eq, map_to_list_insert by apply lookup_delete_eq. cbn. by rewrite Hrest.
  - intros a y k [[<- [= -> ->]]|[Hne ?]]%lookup_insert_Some; [apply lookup_insert_eq|]. rewrite lookup_insert_ne by done. by apply (Hr a y).
  - intros a k y [[<- <-]|[Hne ?]]%lookup_insert_Some Hy; [|by apply (Hsd a k)]. apply (Hsd _ _ _ HQ). set_solver.
Qed.

Definition total (Q : gmap Address (list timed)) : nat := sum_list (length <$> (map_to_list Q).*2).

Lemma total_delete Q a l : Q !! a = Some l → total Q = (length l + total (delete a Q))%nat.
Proof.
  intros HQ. unfold total. assert (Hp : length <$> (map_to_list Q).*2 ≡ₚ length l :: (length <$> (map_to_list (delete a Q)).*2)) by (by rewrite <-(map_to_list_delete _ _ _ HQ)).
  by rewrite Hp.
Qed.
Lemma total_insert Q a l l' : Q !! a = Some l → total (<[a := l']> Q) = (length l' + total (delete a Q))%nat.
Proof. intros HQ. rewrite (total_delete _ a l') by apply lookup_insert_eq. by rewrite delete_insert_eq. Qed.

Definition left_of (keep : timed → bool) (Q : gmap Address (list timed)) (a : Address) : list timed := offered keep (default [] (Q !! a)).

(** One step of filling a block. *)
Lemma step_queued (keep : timed → bool) Q t tx hs :
  queued Q t → heads t = tx :: hs →
  ∃ t' Q', (if keep tx then Shift t else by_Pop t) = Some t' ∧ by_signer t' = by_signer t ∧ queued Q' t' ∧ (total Q' < total Q)%nat
  ∧ ∀ a, left_of keep Q a = if decide (sender_of (by_signer t) tx = a) then tx :: left_of keep Q' a else left_of keep Q' a.
Proof.
  intros Hq E. destruct (queued_head _ _ _ _ Hq E) as [l HQ]. destruct (pop_queued _ _ _ _ Hq E) as (t' & Ep & Es & Hq').
  assert (Hpop : (total (delete (sender_of (by_signer t) tx) Q) < total Q)%nat) by (rewrite (total_delete _ _ _ HQ); cbn; lia).
  assert (Hleft : keep tx = false ∨ l = [] → ∀ a, left_of keep Q a = if decide (sender_of (by_signer t) tx = a) then tx :: left_of keep (delete (sender_of (by_signer t) tx) Q) a else left_of keep (delete (sender_of (by_signer t) tx) Q) a).
  { intros Hk a. unfold left_of. case_decide as Ha; [subst a; rewrite HQ, lookup_delete_eq|by rewrite lookup_delete_ne]. cbn. destruct Hk as [-> | ->]; [done|by destruct (keep tx)]. }
  destruct (keep tx) eqn:Ek; [|exists t', (delete (sender_of (by_signer t) tx) Q); split_and!; eauto]. destruct l as [|next l].
  - exists t', (delete (sender_of (by_signer t) tx) Q). split_and!; eauto. unfold Shift. rewrite E. cbn [lookup list_lookup mbind option_bind]. by rewrite (qu_rest _ _ Hq _ _ _ HQ).
  - destruct (shift_queued _ _ _ _ _ _ Hq E HQ) as (t'' & Esh & Es' & Hq''). eexists t'', _. split_and!; [done|done|done| |].
    + rewrite (total_delete _ _ _ HQ), (total_insert _ _ _ _ HQ). cbn. lia.
    + intros a. unfold left_of. case_decide as Ha; [subst a; rewrite HQ, lookup_insert_eq; cbn; by rewrite Ek|by rewrite lookup_insert_ne].
Qed.

Lemma head_offered keep l : head (offered keep l) = head l.
Proof. destruct l as [|x l]; cbn; [done|]. by destruct (keep x). Qed.

(** Nothing left has a better next transaction than the head of the heap. *)
Lemma best_head keep Q t tx hs a y :
  queued Q t → heads t = tx :: hs → head (left_of keep Q a) = Some y → by_price_and_time y tx = false.
Proof.
  intros [Hh Hp _ _] E Hy. unfold left_of in Hy. rewrite head_offered in Hy. destruct (Q !! a) as [l|] eqn:HQ; [|done]. cbn in Hy.
  apply (heap_min by_price_and_time by_price_asym by_price_trans (heads t)); [done|by rewrite E|].
  assert (Hin : Some y ∈ Some <$> heads t); [|by apply list_elem_of_fmap in Hin as (? & [= ->] & ?)].
  rewrite Hp, <-Hy. apply list_elem_of_fmap_2. apply (list_elem_of_fmap_2 snd _ (a, l)). by apply elem_of_map_to_list.
Qed.

(** [tx] is no worse than the next transaction of any account in [rest]. *)
Definition best_of (signer : Signer) (tx : timed) (rest : list timed) : Prop :=
  ∀ a y, head (filter (λ x, sender_of signer x = a) (tx :: rest)) = Some y → by_price_and_time y tx = false.

Lemma fill_ok fuel keep Q t :
  queued Q t → (total Q ≤ fuel)%nat →
  ∃ order, fill fuel keep t = Some order
  ∧ (∀ a, filter (λ x, sender_of (by_signer t) x = a) order = left_of keep Q a)
  ∧ ∀ pre tx rest, order = pre ++ tx :: rest → best_of (by_signer t) tx rest.
Proof.
  revert Q t. induction fuel as [|fuel IH]; intros Q t Hq Hf.
  all: destruct (heads t) as [|tx hs] eqn:E.
  1, 3: exists []; unfold fill, Peek; rewrite E; split_and!; [done| |by intros [|] ? ?]; intros a; pose proof (qu_heads _ _ Hq) as Hp; rewrite E in Hp;
    symmetry in Hp; apply Permutation_nil_r, fmap_nil_inv, fmap_nil_inv, map_to_list_empty_iff in Hp; subst Q; unfold left_of; by rewrite lookup_empty.
  - destruct (queued_head _ _ _ _ Hq E) as [l HQ]. rewrite (total_delete _ _ _ HQ) in Hf. cbn in Hf. lia.
  - destruct (step_queued keep _ _ _ _ Hq E) as (t' & Q' & Et & Es & Hq' & Hlt & Hleft). destruct (IH _ _ Hq') as (order & Eo & Hfil & Hbest); [lia|].
    cbn [fill]. unfold Peek. rewrite E. cbn [lookup list_lookup]. rewrite Et. cbn [mbind option_bind]. rewrite Eo. cbn [mbind option_bind].
    exists (tx :: order). rewrite Es in Hfil, Hbest.
    assert (Hall : ∀ a, filter (λ x, sender_of (by_signer t) x = a) (tx :: order) = left_of keep Q a) by (intros a; rewrite filter_cons, Hleft, Hfil; done).
    split_and!; [done|done|]. intros [|x pre] y rest Eq; cbn in Eq; injection Eq as -> ->; [|by apply (Hbest pre)].
    intros a z Hz. rewrite Hall in Hz. by apply (best_head _ _ _ _ _ _ _ Hq E Hz).
Qed.

(** Every account has transactions, and they are its own. *)
Definition accounts_ok (signer : Signer) (txs : gmap Address (list timed)) : Prop :=
  map_Forall (λ a l, l ≠ [] ∧ Forall (λ x, sender_of signer x = a) l) txs.

Lemma collect_heads_ok signer visits txs M :
  accounts_ok signer txs → NoDup visits → (∀ a, a ∈ visits → is_Some (txs !! a) ∧ M !! a = txs !! a) →
  ∃ hs M', collect_heads signer visits M = Some (hs, M') ∧ Some <$> hs = (λ a, txs !! a ≫= head) <$> visits
  ∧ ∀ a, M' !! a = if decide (a ∈ visits) then tail <$> txs !! a else M !! a.
Proof.
  intros Hok. revert M. induction visits as [|a visits IH]; intros M Hnd Hin; [by exists [], M|]. apply NoDup_cons in Hnd as [Hni Hnd].
  destruct (Hin a) as [[l Hl] HM]; [set_solver|]. destruct (Hok a l Hl) as [Hne Hsd]. destruct l as [|x l]; [done|]. apply Forall_cons in Hsd as [Hx _].
  cbn [collect_heads]. rewrite HM, Hl. cbn [mbind option_bind]. rewrite Hx. case_decide; [|done].
  destruct (IH (<[a := l]> M) Hnd) as (hs & M' & E & Ehs & HM'). { intros b Hb. rewrite lookup_insert_ne by (intros <-; done). apply Hin. set_solver. }
  rewrite E. cbn [mbind option_bind]. exists (x :: hs), M'. split_and!; [done| |].
  - rewrite !fmap_cons, Ehs, Hl. done.
  - intros b. rewrite HM'. destruct (decide (b ∈ visits)) as [Hb|Hb]; [by rewrite decide_True by set_solver|].
    destruct (decide (b = a)) as [->|Hba]; [rewrite decide_True by set_solver; by rewrite lookup_insert_eq, Hl|].
    rewrite decide_False by set_solver. by rewrite lookup_insert_ne.
Qed.

Lemma New_queued visits signer txs :
  visits ≡ₚ (map_to_list txs).*1 → accounts_ok signer txs →
  ∃ t, NewTransactionsByPriceAndNonce visits signer txs = Some t ∧ by_signer t = signer ∧ queued txs t.
Proof.
  intros Hv Hok. assert (Hin : ∀ a, a ∈ visits ↔ is_Some (txs !! a)).
  { intros a. rewrite Hv, list_elem_of_fmap. split; [intros ([b l] & -> & ?%elem_of_map_to_list); by exists l|intros [l ?]; exists (a, l); by rewrite elem_of_map_to_list]. }
  destruct (collect_heads_ok signer visits txs txs Hok) as (hs & M' & E & Ehs & HM'); [rewrite Hv; apply NoDup_fst_map_to_list|intros a ?%Hin; done|].
  unfold NewTransactionsByPriceAndNonce. rewrite E. cbn [mbind option_bind]. destruct (heap_Init_ok by_price_and_time by_price_asym by_price_trans hs) as [Hh Hp].
  eexists. split_and!; [done|done|]. split; cbn [heads by_txs by_signer].
  - done.
  - rewrite Hp, Ehs, Hv, <-!list_fmap_compose. erewrite list_fmap_ext; [done|]. intros i [a l] Hl. apply list_elem_of_lookup_2, elem_of_map_to_list in Hl. cbn. by rewrite Hl.
  - intros a x l Hl. rewrite HM', decide_True by (apply Hin; by eexists). by rewrite Hl.
  - intros a l x Hl Hx. destruct (Hok a l Hl) as [_ Hsd]. rewrite Forall_forall in Hsd. by apply Hsd.
Qed.

(** C17: transactions are offered to a block by price, and those of an account by nonce.  From the queues of the accounts, one look at the best transaction and one [Shift] or [Pop] after the other come to an end; every account has been offered its transactions in order, up to the first one that was refused; and each transaction was, at its time, no worse than the next one of any other account, where a lower price is worse, and a later time at the same price. *)
Theorem fill_best_first (visits : list Address) (signer : Signer) (txs : gmap Address (list timed)) (keep : timed → bool) :
  visits ≡ₚ (map_to_list txs).*1 → accounts_ok signer txs →
  ∃ t order, NewTransactionsByPriceAndNonce visits signer txs = Some t ∧ fill (total txs) keep t = Some order
  ∧ (∀ a, filter (λ x, sender_of signer x = a) order = offered keep (default [] (txs !! a)))
  ∧ ∀ pre tx rest, order = pre ++ tx :: rest → best_of signer tx rest.
Proof.
  intros Hv Hok. destruct (New_queued visits signer txs Hv Hok) as (t & E & <- & Hq). destruct (fill_ok (total txs) keep _ _ Hq) as (order & Eo & Hfil & Hbest); [done|].
  by exists t, order.
Qed.
End order.
