(* ===== verification/TxExample.v ===== *)
(** * The pool's orders by price on small examples

    A pool of a few transactions under a toy hash, and the theorems on prices
    applied to it. *)
From stdpp Require Import sorting.
From S2P Require Import Prelude RlpEncode Params ChainConfig StateDB VmBase Precompiles Evm StateTransition Transaction VmExample EngineExample GoHeap TxList TxListProps TxPriced TxPricedProps TxOrderProps.
Local Open Scope Z_scope.
#[local] Existing Instance tail_crypto.

Definition example_ranges : RangeTxs := {| range_txs := map_to_list; range_txs_perm m := reflexivity _ |}.
#[local] Existing Instance example_ranges.

#[export] Instance txdata_eq_dec : EqDecision txdata.
Proof. solve_decision. Defined.

(** ** The priced list *)

(** Eight remote transactions and a local one; the cheapest is removed, which
    the list notices, and then comes back. *)
Definition cheap : Transaction := example_tx 0 1 21000 5.
Definition priced_example : list priced_op :=
  PAdd cheap false :: ((λ n, PAdd (example_tx n (10 + n) 21000 5) false) <$> [1; 2; 3; 4; 5; 6; 7])
  ++ [PAdd (example_tx 8 2 21000 5) true; PRemove (tx_Hash cheap); PRemoved 1; PAdd cheap false].

Lemma priced_example_ok : Forall priced_op_ok priced_example ∧ distinct_hashes (added priced_example).
Proof.
  split.
  - unfold priced_example. cbn [fmap list_fmap app]. repeat constructor; vm_compute; discriminate.
  - unfold distinct_hashes. apply (bool_decide_eq_true_1 _). vm_compute. reflexivity.
Qed.

Lemma priced_list_exact_witness :
  Forall priced_op_ok priced_example ∧ distinct_hashes (added priced_example) ∧
  ∃ all l, do_priceds priced_example newTxLookup newTxPricedList = Some (all, l)
  ∧ (∃ l', Underpriced all (example_tx 9 1 21000 5) l = Some (bool_decide (cheapest_than all (example_tx 9 1 21000 5)), l'))
  ∧ (∃ drop l', priced_Cap all 12 l = Some (drop, l')
     ∧ ∀ hash, hash ∈ tx_Hash <$> drop ↔ ∃ r, remotes all !! hash = Some r ∧ tx_Price r < 12).
Proof.
  destruct priced_example_ok as [H1 H2]. split; [exact H1|]. split; [exact H2|].
  exact (priced_list_exact priced_example (example_tx 9 1 21000 5) 12 H1 H2).
Defined.

(** The same without the return of the cheapest one. *)
Definition priced_once : list priced_op := take 11 priced_example.
Lemma priced_once_ok : Forall priced_op_ok priced_once ∧ NoDup (tx_Hash <$> added priced_once).
Proof. split; [apply Forall_take, priced_example_ok|]. apply (bool_decide_eq_true_1 _). vm_compute. reflexivity. Qed.

Lemma Discard_cheapest_witness :
  Forall priced_op_ok priced_once ∧ NoDup (tx_Hash <$> added priced_once) ∧ 0 ≤ 3 < 2 ^ 63 ∧
  ∃ all l drop success l', do_priceds priced_once newTxLookup newTxPricedList = Some (all, l) ∧ Discard all 3 false l = Some (drop, success, l')
  ∧ Forall (live all) drop
  ∧ (∀ d hash r, d ∈ drop → remotes all !! hash = Some r → hash ∈ tx_Hash <$> drop ∨ tx_Price d ≤ tx_Price r)
  ∧ (∀ init d, drop = init ++ [d] → slots_of init < 3)
  ∧ (if success then 3 ≤ slots_of drop ∨ false = true ∧ ∀ hash, is_Some (remotes all !! hash) → hash ∈ tx_Hash <$> drop
     else drop = [] ∧ remote_slots all < 3 ∧ ∀ hash r, remotes all !! hash = Some r → ∃ e, e ∈ heap l' ∧ tx_data e = tx_data r)
  ∧ (NoDup (tx_Hash <$> added priced_once) → remote_slots (remove_all drop all) = remote_slots all - slots_of drop).
Proof.
  destruct priced_once_ok as [H1 Ho]. assert (H2 : 0 ≤ 3 < 2 ^ 63) by lia. split; [exact H1|]. split; [exact Ho|]. split; [exact H2|].
  exact (Discard_cheapest priced_once 3 false H1 H2).
Defined.

(** A transaction that left the pool and came back is in the heap twice, and
    [Discard] counts its slots twice: asked for three slots, it succeeds and
    frees two. *)
Lemma Discard_counts_twice :
  (λ '(all, l), '(drop, success, _) ← Discard all 3 false l; Some (drop, success, slots all - slots (remove_all drop all)))
    <$> do_priceds priced_example newTxLookup newTxPricedList
  = Some (Some ([cheap; cheap; example_tx 1 11 21000 5], true, 2)).
Proof. vm_compute. reflexivity. Qed.

(** ** The order of transactions in a block *)

Definition owned (a : Address) (nonce price time : Z) : timed :=
  MkTimed (MkTransaction (MkTxdata nonce price 21000 None 5 [] 27 1 1) (Some (HomesteadSigner, a))) time.
Definition alice : Address := replicate 20 1.
Definition bob : Address := replicate 20 2.
Definition queues : gmap Address (list timed) := {[alice := [owned alice 0 10 1; owned alice 1 30 2]; bob := [owned bob 4 20 3; owned bob 5 10 4]]}.

Lemma queues_ok : [bob; alice] ≡ₚ (map_to_list queues).*1 ∧ accounts_ok HomesteadSigner queues.
Proof.
  split; [apply (bool_decide_eq_true_1 _); vm_compute; reflexivity|].
  intros a l. unfold queues. intros [[<- <-]|[_ [<- <-]%lookup_singleton_Some]]%lookup_insert_Some; (split; [discriminate|]); repeat constructor.
Qed.

Lemma fill_best_first_witness :
  [bob; alice] ≡ₚ (map_to_list queues).*1 ∧ accounts_ok HomesteadSigner queues ∧
  ∃ t order, NewTransactionsByPriceAndNonce [bob; alice] HomesteadSigner queues = Some t ∧ fill (total queues) (λ _, true) t = Some order
  ∧ (∀ a, filter (λ x, sender_of HomesteadSigner x = a) order = offered (λ _, true) (default [] (queues !! a)))
  ∧ ∀ pre tx rest, order = pre ++ tx :: rest → best_of HomesteadSigner tx rest.
Proof.
  destruct queues_ok as [H1 H2]. split; [exact H1|]. split; [exact H2|]. exact (fill_best_first [bob; alice] HomesteadSigner queues (λ _, true) H1 H2).
Defined.

Lemma queues_order :
  (t ← NewTransactionsByPriceAndNonce [bob; alice] HomesteadSigner queues; fill (total queues) (λ _, true) t)
  = Some [owned bob 4 20 3; owned alice 0 10 1; owned alice 1 30 2; owned bob 5 10 4].
Proof. vm_compute. reflexivity. Qed.
